(* ===== verification/_CoqProject ===== *)
-Q . S2P
Prelude.v
Numeric.v
Ir.v
ProgramIndex.v
Diagnostics.v
Value.v
EvalContext.v
Evaluator.v
EvaluatorProps.v
Executor.v
CapabilityBridge.v
CapabilityEval.v
AgentRuntime.v
WorkflowRuntime.v
Scheduler.v
SchedulerProps.v
Passes.v
DeadStateProps.v
TemporalProps.v
CanonicalProps.v
SimplifyProps.v
Json.v
JsonProps.v
JsonRoundtrip.v
JsonCorrect.v
ValueJson.v
Types.v
TypeRelations.v
TypeProps.v
OptIr.v
OptVerify.v
OptVerifyProps.v
OptPasses.v
OptSemantics.v
OptPropagation.v
OptPassesProps.v
OptimizeProps.v
OptLower.v
OptLowerProps.v
OptLowerForm.v
OptLowerSpecs.v
OptLowerFlow.v
OptLowerCorrect.v
Analysis.v
AnalysisProps.v
AnalysisFresh.v
PassManager.v
PassManagerProps.v
Checks.v
Plan.v
PlanProps.v
DryRun.v
Schedule.v
DryRunProps.v
MockJson.v
Session.v
SessionProps.v
SessionRun.v
Journal.v
JournalBuild.v
Replay.v
Package.v
PackageProps.v
PackagePlan.v
Pipeline.v
Snapshot.v
SnapshotProps.v
Schema.v
Fingerprint.v
ResponseCache.v
Pool.v
Secrets.v
Curl.v
Wire.v
Syntax.v
Facts.v
Hir.v
TypeEnv.v
TypeCheck.v
TypeSound.v
