(* ===== verification/Prelude.v ===== *)
(** * AHFL: a verification development

    AHFL is a language for agents, their state machines and the workflows that
    compose them.  The repository holds its compiler (src/src/compiler), the
    runtime that executes lowered programs (src/src/runtime), the JSON and
    diagnostics library they share (src/src/base), and tools around them.  This
    library models, definition by definition, the part of it that decides what
    a program means and what happens when it runs.

    ** The parts and where they are modelled

    - The data that everything shares: [Ir] (include/ahfl/compiler/ir), read
      through the name tables and the topological order of [ProgramIndex]
      (program_view.cpp); [Diagnostics] (diagnostics.hpp); machine integers,
      doubles and the conversions of the C++ library in [Numeric].
    - The evaluator (src/runtime/evaluator): [Value], [EvalContext],
      [Evaluator] for expressions, [Executor] for statements and blocks.
    - The engine (src/runtime/engine): [CapabilityBridge] is the registry of
      capabilities with retries and circuit breakers, [CapabilityEval] joins it
      to the evaluator, [AgentRuntime] runs the state machine of an agent with
      its quotas, [WorkflowRuntime] runs the agents of a workflow one after the
      other, [Scheduler] runs the nodes of a graph on worker threads.
    - Remote capabilities (src/runtime/engine, src/base/support): [Wire] makes
      the calls over HTTP and gRPC, within the limits of the connection pool
      [Pool], through the curl process of [Curl], with the credentials of
      [Secrets] (src/runtime/providers/secret); [Schema] checks the responses;
      [ResponseCache] keeps those of a model under a [Fingerprint].
    - The transformation passes on the IR (src/compiler/passes): [Passes], and
      [PassManager], which runs them and keeps the derived analyses of
      [Analysis] (analysis.cpp, ir_lower.cpp) fresh.
    - The optimization IR (src/compiler/ir/opt): [OptIr], its verifier
      [OptVerify], its optimizer [OptPasses], and [OptLower], which lowers the
      IR to it.  [OptSemantics] gives it the semantics that its header tells.
    - Semantic types: [Types] interns them (types.hpp, type_context.hpp),
      [TypeRelations] decides equivalence and subtyping (type_relations.cpp).
    - JSON (src/base/json): [Json] is the parser and serializer, [ValueJson]
      the text of runtime values and of the arguments sent to capabilities.
    - Packages: [Package] validates the metadata of a package, lowers a program
      to it, and builds its execution plan (compiler/handoff/package.cpp);
      [Plan] is the execution plan and its validation (same file).
    - The execution pipeline: [DryRun] runs a plan against mocks, which
      [MockJson] reads; [Session] records a run, [Journal] its events and
      [Replay] compares the three (src/pipeline/execution); [Snapshot] shows
      where the run stands (src/pipeline/observation/scheduler_snapshot).  The
      validators are written with the combinators of [Checks].

    The parts call each other as the source does: the workflow runtime calls
    the agent runtime, which calls the executor with an evaluation function
    that is closed over the capability bridge; the lowerings, the passes and the
    analyses read the same [Ir.Program]; a package carries the summaries of the
    analyses into the plan that the pipeline runs; values cross the wire through
    [Json].
    Where the source has an abstract class or a callback (an environment with a
    clock, an invoker, a pass, a JSON printer) there is a type class or a record
    of operations with its laws, and the client's theorems are about any
    implementation.

    ** How C++ is modelled

    A computation is a value of [cxx]: it returns, or it reaches undefined
    behaviour ([UB]: signed overflow, a conversion out of range, a null
    dereference, an index out of range), or a bounded unrolling was cut short
    ([NoFuel]).  [eff W] threads a world: the environment, the heap of shared
    circuit breakers.  An exception or an error is a value of the result, as
    the source reports errors through diagnostics and statuses.  Integers are
    [Z] with the wrap-around or the undefined overflow of their C++ type, 32-bit
    references are [N], doubles are IEEE binary64.  Pointers are values where
    the source never compares or mutates through them; shared objects (circuit
    breakers, interned types) live in an explicit store.  Unordered containers
    are [gmap] and [gset]; where one is iterated, the order of the iteration is
    an argument, or the result does not depend on it.

    ** Fuel, and why it is enough

    Structural recursion needs none.  Every other loop has fuel that its caller
    computes, with a theorem that it does not run out:
    - nested capability calls: the depth of the expression
      ([CapabilityEval.eval_handler_call] removes the fuel altogether);
    - retries: the attempts that the retry configuration allows;
    - the run of an agent: a transition target is entered at most 100 times
      ([AgentRuntime.run_terminates]);
    - topological order, reachable states, transitive dependencies: each node
      or edge is queued at most once ([ProgramIndex], [DeadStateProps],
      [SimplifyProps]);
    - the scheduler is a transition relation: no fuel; every run ends
      ([SchedulerProps.scheduler_terminates]);
    - the cycle check, the dry run and the session: the nodes, as each is queued
      at most once ([PlanProps], [DryRunProps], [SessionRun]);
    - the JSON parser: the length of the text;
    - the type relation solver: its own depth guard;
    - the optimizer: a measure of the function that every change decreases
      ([OptimizeProps.optimize_terminates]); without its condition the loop of
      the source does not end, which is one of the findings.
    [UB] is likewise excluded by theorems, or it is a branch of the statement.

    ** What the theorems show

    - Evaluation: results are well-formed, call-free evaluation is total and
      pure, integer arithmetic is exact where it is defined; a block keeps the
      invariant of its context and the scopes it may not write
      ([EvaluatorProps], [Executor]).
    - Calls: a call makes the attempts that its configuration and its clock
      allow; a circuit opens after the configured failures and then rejects
      calls without making them ([CapabilityBridge], [CapabilityEval]).
    - Agents and workflows: runs end; the states they go through follow the
      transitions; a final status means what it says; nodes run in dependency
      order and none runs after a failed dependency ([AgentRuntime],
      [WorkflowRuntime], [ProgramIndex]).
    - Scheduler: the check for cycles is exact; in every interleaving a node
      runs at most once and after its dependencies; no deadlock, termination;
      the meaning of the result ([SchedulerProps]).
    - Passes: removing dead states keeps every run; simplified formulas hold on
      the same traces; canonical expressions keep values; dropped dependencies
      were implied ([DeadStateProps], [TemporalProps], [CanonicalProps],
      [SimplifyProps]).
    - Analyses: a handler's summary covers all its runs; recomputation makes
      every analysis fresh and exact; formal observations cover the program; a
      run of the pass manager applies the selected passes and leaves the
      analyses fresh; a capability that is reported unused is never invoked
      ([AnalysisProps], [AnalysisFresh], [PassManagerProps]).
    - Optimization IR: the verifier decides well-formedness; the optimizer
      returns and keeps results; lowering is well built, and what it builds the
      optimizer takes to a fixed point ([OptVerifyProps] to [OptLowerCorrect]).
    - Types: interning is canonical, so pointers can be compared; the solver
      computes the reference relations; subtyping is a partial order
      ([TypeProps], [TypeRelations]).
    - JSON: what the parser returns is well-formed; printed values parse back;
      values survive their text up to the documented conversions
      ([JsonCorrect], [ValueJson]).
    - Packages: metadata is accepted exactly when it has a normal form, which is
      returned; lowering gives each required capability one slot; a plan is
      built exactly for the packages that can be planned; a program that deploys
      has a plan, and its runs are replayed as the program declares them
      ([PackageProps], [PackagePlan], [Pipeline]).
    - Pipeline: every validator accepts exactly the records that its rules
      describe, which for a journal are the traces of a machine; a dry run and a
      session of a valid plan execute the nodes after their dependencies; a
      session that is built has a journal, and the three replay consistently; a
      run has a snapshot exactly when it followed the order in which the plan
      lists the nodes
      ([PlanProps], [Schedule], [DryRunProps], [MockJson], [SessionProps],
      [SessionRun], [Journal], [JournalBuild], [Replay],
      [SnapshotProps], [SnapshotProps]).

    - Remote calls: the pool is the set of the live leases in every interleaving;
      the configuration of curl is readable, its output is read exactly; a call
      succeeds exactly when it has a slot, credentials, a status of success and
      an acceptable body, and always gives its slot back; values arrive; logs
      and errors do not depend on the values of secrets; schemas are decided;
      the cache is a bounded queue ([Pool], [Curl], [Wire],
      [Secrets], [Schema], [ResponseCache]).

    Examples next to these theorems show where the code does something else
    than it says.

    ** Not modelled

    - The parser (generated from a grammar), the resolver, the type checker and
      the lowering of typed trees to the IR: they work on the typed syntax tree
      and the symbol tables, which are not modelled yet.
    - The back ends, the formatter, the language server, the command line and
      the persistence of the pipeline: printers, file formats and records that
      copy others.
    - The launcher of processes, temporary files, the vault and cloud clients,
      and the sandbox: operating system and network.  Where the modelled code
      calls them they are parameters (type classes and records).
    - Timings, threads' wake-ups beyond the transition relation of the
      scheduler, the depth of the machine's stack, and allocation failure. *)
From stdpp Require Export base tactics numbers list gmap strings fin_maps fin_sets.
From stdpp Require Export pretty.
From Stdlib Require Export ZArith Lia.

(** ** Computations of the modelled C++ code

    A C++ function either returns, or reaches undefined behaviour
    (signed overflow, a conversion out of range, a null dereference).
    [NoFuel] marks a bounded unrolling that was cut short; the termination
    theorems of the components show it is never the result. *)
Inductive cxx (A : Type) : Type :=
  | Ret (a : A)
  | UB
  | NoFuel.
Arguments Ret {A} a.
Arguments UB {A}.
Arguments NoFuel {A}.

#[export] Instance cxx_ret : MRet cxx := @Ret.
#[export] Instance cxx_bind : MBind cxx := λ A B f m,
  match m with Ret a => f a | UB => UB | NoFuel => NoFuel end.

(** Effectful code: it reads and writes a world [W] that stands for all that
    lies outside the modelled objects (clock, capability back ends, ...). *)
Definition eff (W A : Type) : Type := W → cxx (A * W).

#[export] Instance eff_ret {W} : MRet (eff W) := λ A a w, Ret (a, w).
#[export] Instance eff_bind {W} : MBind (eff W) := λ A B f m w,
  match m w with
  | Ret (a, w') => f a w'
  | UB => UB
  | NoFuel => NoFuel
  end.

(** A computation without effects, run in a world. *)
Definition lift {W A} (m : cxx A) : eff W A := λ w,
  match m with Ret a => Ret (a, w) | UB => UB | NoFuel => NoFuel end.

Declare Scope ahfl_scope.
Delimit Scope ahfl_scope with ahfl.
Notation "'⌊' m '⌋'" := (lift m) (at level 0, m at level 200) : ahfl_scope.
(** [m ⇓ a]: the computation returns [a]. *)
Notation "m ⇓ a" := (m = Ret a) (at level 70, no associativity) : ahfl_scope.
#[global] Open Scope ahfl_scope.

(** [terminates m w]: the bounded unrolling was not cut short. *)
Definition terminates {W A} (m : eff W A) (w : W) : Prop := m w ≠ NoFuel.

(** ** Automation *)
Create HintDb ahfl discriminated.

(** Break the matches of a hypothesis [H : m = Ret _] one after the other. *)
Ltac inv_match H :=
  repeat match type of H with
  | context [match ?x with _ => _ end] =>
      lazymatch x with
      | context [match _ with _ => _ end] => fail
      | _ => let E := fresh "E" in destruct x eqn:E; simplify_eq/=
      end
  end.

(** Break every match of the goal and the hypotheses. *)
Ltac break_match :=
  match goal with
  | |- context [match ?x with _ => _ end] =>
      lazymatch x with context [match _ with _ => _ end] => fail | _ =>
        let E := fresh "E" in destruct x eqn:E end
  | H : context [match ?x with _ => _ end] |- _ =>
      lazymatch x with context [match _ with _ => _ end] => fail | _ =>
        let E := fresh "E" in destruct x eqn:E end
  end.

Lemma eff_bind_ret {W A B} (m : eff W A) (f : A → eff W B) w r :
  (m ≫= f) w ⇓ r → ∃ a w', m w ⇓ (a, w') ∧ f a w' ⇓ r.
Proof. unfold mbind, eff_bind. intros H. destruct (m w) as [[a w']| |]; eauto; done. Qed.

Lemma eff_bind_eq {W A B} (m : eff W A) (f : A → eff W B) w a w' :
  m w ⇓ (a, w') → (m ≫= f) w = f a w'.
Proof. unfold mbind, eff_bind. by intros ->. Qed.

Lemma eff_bind_NoFuel {W A B} (m : eff W A) (f : A → eff W B) w :
  m w ≠ NoFuel → (∀ a w', m w ⇓ (a, w') → f a w' ≠ NoFuel) → (m ≫= f) w ≠ NoFuel.
Proof. unfold mbind, eff_bind. intros Hm Hf. destruct (m w) as [[a w']| |]; eauto. Qed.

Lemma eff_bind_cong {W A B} (m : eff W A) (f g : A → eff W B) w :
  (∀ a w', m w ⇓ (a, w') → f a w' = g a w') → (m ≫= f) w = (m ≫= g) w.
Proof. unfold mbind, eff_bind. intros Hf. destruct (m w) as [[a w']| |]; auto. Qed.

Lemma eff_bind_eq_l {W A B} (m m' : eff W A) (f : A → eff W B) w :
  m w = m' w → (m ≫= f) w = (m' ≫= f) w.
Proof. unfold mbind, eff_bind. by intros ->. Qed.

Lemma lift_NoFuel {W A} (m : cxx A) (w : W) : m ≠ NoFuel → lift m w ≠ NoFuel.
Proof. unfold lift. by destruct m. Qed.

Lemma cxx_bind_ret {A B} (m : cxx A) (f : A → cxx B) r :
  (m ≫= f) ⇓ r → ∃ a, m ⇓ a ∧ f a ⇓ r.
Proof. destruct m; simpl; naive_solver. Qed.

(** A computation that returns. *)
Definition defined {A} (m : cxx A) : Prop := ∃ a, m ⇓ a.
Lemma defined_ret {A} (a : A) : defined (Ret a).
Proof. by exists a. Qed.
Lemma defined_bind {A B} (m : cxx A) (k : A → cxx B) : defined m → (∀ a, defined (k a)) → defined (a ← m; k a).
Proof. intros [a ->] Hk. apply Hk. Qed.
Lemma cxx_bind_fuel {A B} (m : cxx A) (f : A → cxx B) :
  m ≠ NoFuel → (∀ a, f a ≠ NoFuel) → m ≫= f ≠ NoFuel.
Proof. destruct m; simpl; auto. Qed.

#[export] Hint Resolve cxx_bind_fuel eff_bind_NoFuel lift_NoFuel : ahfl.

(** Step through a successful effectful computation. *)
Ltac inv_eff H :=
  let a := fresh "r" in let w := fresh "w" in let E := fresh "E" in
  apply eff_bind_ret in H as (a & w & E & H).

(** ** A small program logic for [eff]

    [post P m]: every returned result satisfies [P] (partial correctness);
    [total m]: no run is cut short; [pure m]: [m] neither reads nor writes
    the world. *)
Definition post {W A} (P : A → Prop) (m : eff W A) : Prop :=
  ∀ w a w', m w ⇓ (a, w') → P a.
Definition total {W A} (m : eff W A) : Prop := ∀ w, m w ≠ NoFuel.
Definition pure_eff {W A} (m : eff W A) : Prop := ∃ c : cxx A, ∀ w, m w = lift c w.

Section ProgramLogic.
Context {W A B : Type}.
Implicit Types (m : eff W A) (f : A → eff W B).

Lemma post_ret (P : A → Prop) a : P a → post P (mret a : eff W A).
Proof. intros HP w a' w' [= <- <-]. done. Qed.
Lemma post_lift (P : A → Prop) (c : cxx A) :
  (∀ a, c ⇓ a → P a) → post P (lift c : eff W A).
Proof. intros HP w a w'. unfold lift. destruct c; intros [= <- <-]. by apply HP. Qed.
Lemma post_bind (P : A → Prop) (Q : B → Prop) m f :
  post P m → (∀ a, P a → post Q (f a)) → post Q (m ≫= f).
Proof. intros Hm Hf w b w' H. inv_eff H. eapply Hf; [by eapply Hm | done]. Qed.
Lemma post_weaken (P Q : A → Prop) m : post P m → (∀ a, P a → Q a) → post Q m.
Proof. intros Hm HPQ w a w' H. eauto. Qed.

Lemma total_ret a : total (mret a : eff W A).
Proof. done. Qed.
Lemma total_lift (c : cxx A) : c ≠ NoFuel → total (lift c : eff W A).
Proof. intros Hc w. by apply lift_NoFuel. Qed.
Lemma total_bind m f : total m → (∀ a, total (f a)) → total (m ≫= f).
Proof. intros Hm Hf w. apply eff_bind_NoFuel; [apply Hm | intros; apply Hf]. Qed.

Lemma pure_ret a : pure_eff (mret a : eff W A).
Proof. by exists (Ret a). Qed.
Lemma pure_lift (c : cxx A) : pure_eff (lift c : eff W A).
Proof. by exists c. Qed.
Lemma pure_bind m f : pure_eff m → (∀ a, pure_eff (f a)) → pure_eff (m ≫= f).
Proof.
  intros [c Hc] Hf. destruct c as [a| |].
  - destruct (Hf a) as [d Hd]. exists d. intros w.
    rewrite (eff_bind_eq _ _ _ a w (Hc w)). apply Hd.
  - exists UB. intros w. unfold mbind, eff_bind. by rewrite Hc.
  - exists NoFuel. intros w. unfold mbind, eff_bind. by rewrite Hc.
Qed.
Lemma pure_run m w : pure_eff m → ∀ a w', m w ⇓ (a, w') → w' = w.
Proof. intros [c Hc] a w'. rewrite Hc. unfold lift. by destruct c; intros [= _ <-]. Qed.
End ProgramLogic.
#[export] Hint Resolve post_ret total_ret total_lift total_bind pure_ret pure_lift pure_bind : ahfl.

(** ** Two more logics for [eff]

    [sim R m m']: whatever [m] returns, [m'] returns too, with [R]-related
    results and the same world.  [hoare P m Q]: from a world that satisfies
    [P], [m] returns, and its result and world satisfy [Q]. *)
Definition sim {W A B} (R : A → B → Prop) (m : eff W A) (m' : eff W B) : Prop :=
  ∀ w a w1, m w ⇓ (a, w1) → ∃ b, m' w ⇓ (b, w1) ∧ R a b.
Definition hoare {W A} (P : W → Prop) (m : eff W A) (Q : A → W → Prop) : Prop :=
  ∀ w, P w → ∃ a w', m w ⇓ (a, w') ∧ Q a w'.

Section RelationalLogic.
Context {W A A' B B' : Type}.

Lemma sim_ret (R : A → A' → Prop) a a' : R a a' → sim R (mret a : eff W A) (mret a').
Proof. intros HR w b w' [= <- <-]. by exists a'. Qed.
Lemma sim_bind (R : A → A' → Prop) (Q : B → B' → Prop) (m : eff W A) (m' : eff W A') f f' :
  sim R m m' → (∀ a a', R a a' → sim Q (f a) (f' a')) → sim Q (m ≫= f) (m' ≫= f').
Proof.
  intros Hm Hf w b w' H. inv_eff H. destruct (Hm _ _ _ E) as (a' & E' & HR).
  rewrite (eff_bind_eq _ _ _ _ _ E'). by eapply Hf.
Qed.
Lemma sim_weaken (R Q : A → A' → Prop) (m : eff W A) (m' : eff W A') :
  sim R m m' → (∀ a a', R a a' → Q a a') → sim Q m m'.
Proof. intros Hm HRQ w a w' H. destruct (Hm _ _ _ H) as (a' & ? & ?). eauto. Qed.
Lemma sim_refl (m : eff W A) : sim eq m m.
Proof. intros w a w' H. eauto. Qed.

Lemma hoare_ret (P : W → Prop) (a : A) Q : (∀ w, P w → Q a w) → hoare P (mret a) Q.
Proof. intros H w Hw. exists a, w. eauto. Qed.
Lemma hoare_bind (P : W → Prop) (m : eff W A) R (f : A → eff W B) Q :
  hoare P m R → (∀ a, hoare (R a) (f a) Q) → hoare P (m ≫= f) Q.
Proof.
  intros Hm Hf w Hw. destruct (Hm w Hw) as (a & w' & E & HR). rewrite (eff_bind_eq _ _ _ _ _ E).
  by apply Hf.
Qed.
Lemma hoare_weaken (P P' : W → Prop) (m : eff W A) (Q Q' : A → W → Prop) :
  hoare P m Q → (∀ w, P' w → P w) → (∀ a w, Q a w → Q' a w) → hoare P' m Q'.
Proof. intros Hm HP HQ w Hw. destruct (Hm w (HP w Hw)) as (a & w' & ? & ?). eauto 6. Qed.
End RelationalLogic.

(** ** Counting in lists of names *)
Abbreviation count name l := (length (base.filter (λ d : string, d = name) l)).
(** How many elements of a list are not in a set. *)
Abbreviation pending P l := (length (base.filter (λ d : string, d ∉ (P : gset string)) l)).

Lemma pending_step name (P : gset string) l :
  name ∉ P → pending P l = pending ({[name]} ∪ P) l + count name l.
Proof.
  intros Hn. induction l as [|d l IH]; [done|]. rewrite !filter_cons.
  repeat case_decide; simpl; try lia; set_solver.
Qed.

Lemma pending_0 (P : gset string) l : pending P l = 0 ↔ ∀ d, d ∈ l → d ∈ P.
Proof.
  induction l as [|d l IH]; [split; [intros _ d Hd; by apply elem_of_nil in Hd | done]|].
  rewrite filter_cons. case_decide; simpl; [set_solver|]. rewrite IH. set_solver.
Qed.

Lemma count_pos name l : 0 < count name l ↔ name ∈ l.
Proof.
  induction l as [|d l IH]; [split; [simpl; lia | by intros ?%elem_of_nil]|].
  rewrite filter_cons. case_decide; simpl; [subst; split; [by left | lia]|].
  rewrite IH, elem_of_cons. naive_solver.
Qed.

(** ** Filtering lists *)
Lemma filter_all {A} (P : A → Prop) `{∀ x, Decision (P x)} (l : list A) :
  (∀ x, x ∈ l → P x) → base.filter P l = l.
Proof.
  induction l as [|x l IH]; intros Hl; [done|]. rewrite filter_cons, decide_True by (apply Hl; left).
  f_equal. apply IH. intros y Hy. apply Hl. by right.
Qed.

Lemma filter_length_eq {A} (P : A → Prop) `{∀ x, Decision (P x)} (l : list A) :
  length (base.filter P l) = length l → ∀ x, x ∈ l → P x.
Proof.
  induction l as [|y l IH]; intros Hl x Hx; [by apply elem_of_nil in Hx|].
  rewrite filter_cons in Hl. destruct (decide (P y)) as [Hy|Hy]; simpl in Hl.
  - apply elem_of_cons in Hx as [->|Hx]; [done|]. apply IH; [lia|done].
  - pose proof (length_filter P l). lia.
Qed.

(** ** Strings *)
Lemma string_cons_app c (a b : string) : String c a +:+ b = String c (a +:+ b).
Proof. done. Qed.
Lemma string_nil_app (a : string) : "" +:+ a = a.
Proof. done. Qed.

Lemma string_app_assoc (a b c : string) : (a +:+ b) +:+ c = a +:+ b +:+ c.
Proof. induction a as [|x a IH]; [done|]. by rewrite !string_cons_app, IH. Qed.
Lemma string_app_nil (a : string) : a +:+ "" = a.
Proof. induction a as [|x a IH]; [done|]. by rewrite !string_cons_app, IH. Qed.
Lemma length_string_app (a b : string) : String.length (a +:+ b) = String.length a + String.length b.
Proof. induction a as [|x a IH]; [done|]. rewrite string_cons_app. simpl. by rewrite IH. Qed.
