(* ===== verification/Numeric.v ===== *)
(** * Machine integers, doubles and numeric conversions of the C++ library

    [int64_t] arithmetic with undefined overflow, [std::size_t] arithmetic
    modulo 2^64, IEEE-754 doubles (binary64 over [spec_float]), and the parts
    of [std::stoll], [std::from_chars], [std::stod], [std::fmod] and
    [std::to_string] that the runtime uses.  Doubles are rounded to nearest
    even; there is a single NaN (payloads are not observable here). *)
From S2P Require Import Prelude.
From Stdlib Require Import SpecFloat Ascii.
Open Scope Z_scope.

(** ** int64_t *)
Definition int64_min : Z := - 2 ^ 63.
Definition int64_max : Z := 2 ^ 63 - 1.
Definition in_int64 (z : Z) : bool := (int64_min <=? z) && (z <=? int64_max).
(** The result of a signed operation: overflow is undefined behaviour. *)
Definition int64_of (z : Z) : cxx Z := if in_int64 z then Ret z else UB.
Definition int64_add (a b : Z) : cxx Z := int64_of (a + b).
Definition int64_sub (a b : Z) : cxx Z := int64_of (a - b).
Definition int64_mul (a b : Z) : cxx Z := int64_of (a * b).
Definition int64_neg (a : Z) : cxx Z := int64_of (- a).
(** Division truncates towards zero; the divisor 0 and [INT64_MIN / -1] are
    undefined, for [/] and for [%] alike. *)
Definition int64_div (a b : Z) : cxx Z :=
  if b =? 0 then UB else int64_of (Z.quot a b).
Definition int64_rem (a b : Z) : cxx Z :=
  if b =? 0 then UB else if in_int64 (Z.quot a b) then Ret (Z.rem a b) else UB.

(** ** std::size_t *)
Definition size_max : Z := 2 ^ 64 - 1.
Definition to_size (z : Z) : Z := z mod 2 ^ 64.
Definition size_succ (z : Z) : Z := to_size (z + 1).
Lemma size_succ_to_size z : size_succ (to_size z) = to_size (z + 1).
Proof. unfold size_succ, to_size. by rewrite Zplus_mod_idemp_l. Qed.
Definition size_mul (a b : Z) : Z := to_size (a * b).
(** Conversion of an unsigned 64-bit value to [int64_t] (modular since C++20). *)
Definition int64_of_size (z : Z) : Z :=
  let u := to_size z in if u <=? int64_max then u else u - 2 ^ 64.

(** ** double *)
Abbreviation double := spec_float.
Definition d_add : double → double → double := SFadd 53 1024.
Definition d_sub : double → double → double := SFsub 53 1024.
Definition d_mul : double → double → double := SFmul 53 1024.
Definition d_div : double → double → double := SFdiv 53 1024.
Definition d_opp : double → double := SFopp.
Definition d_eqb : double → double → bool := SFeqb.
Definition d_ltb : double → double → bool := SFltb.
Definition d_leb : double → double → bool := SFleb.
Definition d_zero : double := S754_zero false.
(** [static_cast<double>] of an integer. *)
Definition d_of_Z (z : Z) : double := binary_normalize 53 1024 z 0 false.
(** [std::fmod]: exact, with the sign of the dividend. *)
Definition d_fmod (x y : double) : double :=
  match x, y with
  | S754_nan, _ | _, S754_nan | S754_infinity _, _ | _, S754_zero _ => S754_nan
  | S754_zero _, _ | _, S754_infinity _ => x
  | S754_finite sx mx ex, S754_finite _ my ey =>
      let e := Z.min ex ey in
      let r := (Zpos mx * 2 ^ (ex - e)) mod (Zpos my * 2 ^ (ey - e)) in
      if r =? 0 then S754_zero sx
      else binary_normalize 53 1024 (if sx then - r else r) e sx
  end.
(** [static_cast<long long>] of a double: truncation, undefined out of range. *)
Definition int64_of_d (x : double) : cxx Z :=
  match x with
  | S754_zero _ => Ret 0
  | S754_finite s m e =>
      let a := if 0 <=? e then Zpos m * 2 ^ e else Zpos m / 2 ^ (- e) in
      int64_of (if s then - a else a)
  | _ => UB
  end.
Lemma int64_of_fuel z : int64_of z ≠ NoFuel.
Proof. unfold int64_of. by case_match. Qed.
Lemma int64_of_d_fuel x : int64_of_d x ≠ NoFuel.
Proof. destruct x; simpl; try done. apply int64_of_fuel. Qed.
#[export] Hint Resolve int64_of_fuel int64_of_d_fuel : ahfl.

(** ** Digits and white space *)
Definition char_code (c : ascii) : Z := Z.of_N (N_of_ascii c).
Definition is_space (c : ascii) : bool :=
  let n := char_code c in (n =? 32) || ((9 <=? n) && (n <=? 13)).
Definition digit_of (c : ascii) : option Z :=
  let n := char_code c in
  if (48 <=? n) && (n <=? 57) then Some (n - 48) else None.
Fixpoint skip_space (s : string) : string :=
  match s with
  | String c r => if is_space c then skip_space r else s
  | EmptyString => s
  end.
(** The maximal prefix of digits, most significant first, and the rest. *)
Fixpoint span_digits (s : string) : list Z * string :=
  match s with
  | String c r =>
      match digit_of c with
      | Some d => let '(ds, t) := span_digits r in (d :: ds, t)
      | None => ([], s)
      end
  | EmptyString => ([], s)
  end.
Definition digits_value (b : Z) (ds : list Z) : Z :=
  fold_left (λ acc d, acc * b + d) ds 0.
Definition take_sign (s : string) : bool * string :=
  match s with
  | String c r =>
      if bool_decide (c = "-"%char) then (true, r)
      else if bool_decide (c = "+"%char) then (false, r) else (false, s)
  | EmptyString => (false, s)
  end.

(** ** Conversions from text *)
Inductive conv (A : Type) : Type :=
  | ConvOk (a : A)
  | InvalidArgument   (** [std::invalid_argument] *)
  | OutOfRange.       (** [std::out_of_range] *)
Arguments ConvOk {A} a.
Arguments InvalidArgument {A}.
Arguments OutOfRange {A}.

(** [std::stoll(s)]: white space, a sign, digits; the rest is ignored. *)
Definition stoll (s : string) : conv Z :=
  let '(neg, r) := take_sign (skip_space s) in
  match fst (span_digits r) with
  | [] => InvalidArgument
  | ds => let v := digits_value 10 ds in
          let v := if neg then - v else v in
          if in_int64 v then ConvOk v else OutOfRange
  end.

(** [std::from_chars(first, last, size_t&)]: digits only; the rest is ignored. *)
Definition from_chars_size (s : string) : conv Z :=
  match fst (span_digits s) with
  | [] => InvalidArgument
  | ds => let v := digits_value 10 ds in
          if v <=? size_max then ConvOk v else OutOfRange
  end.

(** [m * 10^e], correctly rounded. *)
Definition d_of_decimal (neg : bool) (m e : Z) : double :=
  match m with
  | Zpos p =>
      if 0 <=? e then binary_normalize 53 1024 ((if neg then -1 else 1) * m * 10 ^ e) 0 neg
      else match 10 ^ (- e) with
           | Zpos q => SFdiv 53 1024 (S754_finite neg p 0) (S754_finite false q 0)
           | _ => S754_nan
           end
  | _ => S754_zero neg
  end.
(** [strtod] sets [ERANGE] when a non-zero decimal overflows, or when the
    result is subnormal or zero and not exact. *)
Definition decimal_range (m e : Z) (x : double) : conv double :=
  if m =? 0 then ConvOk x else
  match x with
  | S754_infinity _ => OutOfRange
  | S754_zero _ => OutOfRange
  | S754_finite _ p ex =>
      (* subnormal: the mantissa has fewer than 53 bits *)
      if (Zpos p <? 2 ^ 52) && negb (Zpos p * 10 ^ (- e) =? m * 2 ^ (- ex))
      then OutOfRange else ConvOk x
  | S754_nan => ConvOk x
  end.

(** An optional exponent part: [e], a sign, at least one digit. *)
Definition take_exponent (s : string) : Z :=
  match s with
  | String c r =>
      if bool_decide (c = "e"%char) || bool_decide (c = "E"%char) then
        let '(neg, r') := take_sign r in
        match fst (span_digits r') with
        | [] => 0
        | ds => if neg then - digits_value 10 ds else digits_value 10 ds
        end
      else 0
  | EmptyString => 0
  end.

(** [std::stod] on a decimal spelling: the grammar's FLOAT_LITERAL is
    [DIGIT+ '.' DIGIT+ EXPONENT?].  The hexadecimal, infinity and NaN forms of
    [strtod], which no such literal has, are outside this definition. *)
Definition stod (s : string) : conv double :=
  let '(neg, r) := take_sign (skip_space s) in
  let '(ip, r1) := span_digits r in
  let '(fp, r2) := match r1 with
                   | String c t => if bool_decide (c = "."%char) then span_digits t else ([], r1)
                   | EmptyString => ([], r1)
                   end in
  match ip ++ fp with
  | [] => InvalidArgument
  | ds => let m := digits_value 10 ds in
          let e := take_exponent r2 - Z.of_nat (length fp) in
          decimal_range m e (d_of_decimal neg m e)
  end.

(** [std::to_string] of an integer. *)
Definition to_string (z : Z) : string := pretty z.

(** ** More conversions *)
Fixpoint string_repeat (n : nat) (c : ascii) : string :=
  match n with O => EmptyString | S n => String c (string_repeat n c) end.

(** [std::from_chars(first, last, int64_t&)]: an optional minus and digits;
    the value and the text after it. *)
Definition from_chars_int64 (s : string) : conv (Z * string) :=
  let '(neg, r) := match s with
                   | String c r => if bool_decide (c = "-"%char) then (true, r) else (false, s)
                   | EmptyString => (false, s)
                   end in
  match span_digits r with
  | ([], _) => InvalidArgument
  | (ds, t) => let v := digits_value 10 ds in
               let v := if neg then - v else v in
               if in_int64 v then ConvOk (v, t) else OutOfRange
  end.

(** [std::istream >> double] in the classic locale, on a decimal number
    ([-]digits[.digits][exponent]), which it consumes: an overflow fails, an
    underflow does not. *)
Definition stream_double (s : string) : option double :=
  let '(neg, r) := take_sign s in
  let '(ip, r1) := span_digits r in
  let '(fp, r2) := match r1 with
                   | String c t => if bool_decide (c = "."%char) then span_digits t else ([], r1)
                   | EmptyString => ([], r1)
                   end in
  match ip ++ fp with
  | [] => None
  | ds => match d_of_decimal neg (digits_value 10 ds) (take_exponent r2 - Z.of_nat (length fp)) with
          | S754_infinity _ | S754_nan => None
          | x => Some x
          end
  end.

(** [std::to_chars(..., general, 17)], that is printf's [%.17g]: the quotient
    [a / b] rounded half to even, ... *)
Definition round_div (a b : Z) : Z :=
  let q := a / b in
  let r := 2 * (a mod b) in
  if r <? b then q else if b <? r then q + 1 else if Z.even q then q else q + 1.
(** ... the decimal exponent of [a / b], searched upwards from an estimate, ... *)
Definition reaches_power (a b k : Z) : bool :=
  if 0 <=? k then 10 ^ k * b <=? a else b <=? a * 10 ^ (- k).
Fixpoint decimal_exponent (fuel : nat) (a b k : Z) : Z :=
  match fuel with
  | O => k
  | S fuel => if reaches_power a b (k + 1) then decimal_exponent fuel a b (k + 1) else k
  end.
(** ... and the seventeen digits with their exponent. *)
Definition digits17 (a b : Z) : Z * Z :=
  let k := decimal_exponent 16 a b (3 * (Z.log2 a - Z.log2 b) / 10 - 5) in
  let d := if 0 <=? 16 - k then round_div (a * 10 ^ (16 - k)) b
           else round_div a (b * 10 ^ (k - 16)) in
  if d =? 10 ^ 17 then (10 ^ 16, k + 1) else (d, k).
Fixpoint drop_zeros (s : string) : string :=
  match s with
  | EmptyString => EmptyString
  | String c r =>
      match drop_zeros r with
      | EmptyString => if bool_decide (c = "0"%char) then EmptyString else String c EmptyString
      | t => String c t
      end
  end.
Definition with_fraction (ip fp : string) : string :=
  match drop_zeros fp with EmptyString => ip | f => ip +:+ "." +:+ f end.
Definition general_format (d k : Z) : string :=
  let s := pretty d in
  if (-4 <=? k) && (k <? 17) then
    if 0 <=? k then
      let n := S (Z.to_nat k) in
      with_fraction (String.substring 0 n s) (String.substring n (String.length s - n) s)
    else with_fraction "0" (string_repeat (Z.to_nat (- k - 1)) "0"%char +:+ s)
  else
    with_fraction (String.substring 0 1 s) (String.substring 1 16 s) +:+ "e" +:+
      (if k <? 0 then "-" else "+") +:+ (if Z.abs k <? 10 then "0" else "") +:+ pretty (Z.abs k).
Definition d_to_chars (x : double) : string :=
  let sign (s : bool) t := if s then String "-"%char t else t in
  match x with
  | S754_zero s => sign s "0"
  | S754_infinity s => sign s "inf"
  | S754_nan => "nan"
  | S754_finite s m e =>
      let '(a, b) := if 0 <=? e then (Zpos m * 2 ^ e, 1) else (Zpos m, 2 ^ (- e)) in
      let '(d, k) := digits17 a b in
      sign s (general_format d k)
  end.
