(* ===== verification/Ir.v ===== *)
(** * The intermediate representation

    The data of [include/ahfl/compiler/ir/{types,expr,decl,program}.hpp]:
    expressions, temporal formulas, statements, declarations and programs.
    An [ExprRef] (a pointer into the expression arena together with its arena
    index) and an [Owned<T>] pointer are an [option]: [None] is the null
    pointer.  The arena index of an [ExprRef] is not kept: no modelled
    operation reads it.  [std::size_t], [std::int64_t] and [std::uint32_t]
    fields are integers. *)
From S2P Require Import Prelude.
Open Scope Z_scope.

Record SourceRange := mkSourceRange { begin_offset : Z; end_offset : Z }.

Module PathRootKind.
Inductive t := Identifier | Input | Context | Output | State | Local.
End PathRootKind.
Module ExprUnaryOp.
Inductive t := Not | Negate | Positive.
End ExprUnaryOp.
Module ExprBinaryOp.
Inductive t :=
  | Implies | Or | And | Equal | NotEqual | Less | LessEqual | Greater
  | GreaterEqual | Add | Subtract | Multiply | Divide | Modulo.
End ExprBinaryOp.
Module TemporalUnaryOp.
Inductive t := Always | Eventually | Next | Not.
End TemporalUnaryOp.
Module TemporalBinaryOp.
Inductive t := Implies | Or | And | Until.
End TemporalBinaryOp.
Module ContractClauseKind.
Inductive t := Requires | Ensures | Invariant | Forbid.
End ContractClauseKind.
Module SymbolRefKind.
Inductive t := Unknown | Type_ | Const | Capability | Predicate | Agent | Workflow.
End SymbolRefKind.
Module TypeRefKind.
Inductive t :=
  | Unresolved | Any | Never | Unit | Bool | Int | Float | String | BoundedString
  | UUID | Timestamp | Duration | Decimal | Struct | Enum | Optional | List | Set_ | Map.
End TypeRefKind.

#[export] Instance PathRootKind_eq_dec : EqDecision PathRootKind.t.
Proof. solve_decision. Defined.
#[export] Instance ExprUnaryOp_eq_dec : EqDecision ExprUnaryOp.t.
Proof. solve_decision. Defined.
#[export] Instance ExprBinaryOp_eq_dec : EqDecision ExprBinaryOp.t.
Proof. solve_decision. Defined.
#[export] Instance TemporalUnaryOp_eq_dec : EqDecision TemporalUnaryOp.t.
Proof. solve_decision. Defined.
#[export] Instance ContractClauseKind_eq_dec : EqDecision ContractClauseKind.t.
Proof. solve_decision. Defined.
#[export] Instance SymbolRefKind_eq_dec : EqDecision SymbolRefKind.t.
Proof. solve_decision. Defined.
#[export] Instance TypeRefKind_eq_dec : EqDecision TypeRefKind.t.
Proof. solve_decision. Defined.

Record SymbolRef := mkSymbolRef {
  sym_kind : SymbolRefKind.t;
  sym_canonical_name : string;
  sym_local_name : string;
  sym_module_name : string;
  sym_id : option Z }.

Inductive TypeRef := mkTypeRef {
  type_kind : TypeRefKind.t;
  type_display : string;
  type_canonical : string;
  type_variant_name : string;
  type_string_bounds : option (Z * Z);
  type_decimal_scale : option Z;
  type_source_range : option SourceRange;
  type_first : option TypeRef;
  type_second : option TypeRef }.

Definition default_type_ref : TypeRef :=
  mkTypeRef TypeRefKind.Unresolved "" "" "" None None None None None.

(** ** Expressions *)
Record Path := mkPath {
  root_kind : PathRootKind.t;
  root_name : string;
  members : list string }.

Inductive Expr :=
  | mkExpr (node : ExprNode) (source_range : option SourceRange)
           (resolved_type : TypeRef) (id : Z)
with ExprNode :=
  | NoneLiteralExpr
  | BoolLiteralExpr (value : bool)
  | IntegerLiteralExpr (spelling : string)
  | FloatLiteralExpr (spelling : string)
  | DecimalLiteralExpr (spelling : string)
  | StringLiteralExpr (spelling : string)
  | DurationLiteralExpr (spelling : string)
  | SomeExpr (value : option Expr)
  | PathExpr (path : Path)
  | QualifiedValueExpr (value : string)
  | CallExpr (callee : string) (arguments : list (option Expr))
  | StructLiteralExpr (type_name : string) (fields : list (string * option Expr))
  | ListLiteralExpr (items : list (option Expr))
  | SetLiteralExpr (items : list (option Expr))
  | MapLiteralExpr (entries : list (option Expr * option Expr))
  | UnaryExpr (op : ExprUnaryOp.t) (operand : option Expr)
  | BinaryExpr (op : ExprBinaryOp.t) (lhs rhs : option Expr)
  | MemberAccessExpr (base : option Expr) (member : string)
  | IndexAccessExpr (base index : option Expr).

Abbreviation ExprRef := (option Expr).

Definition expr_node (e : Expr) : ExprNode :=
  match e with mkExpr n _ _ _ => n end.

(** A node with the metadata the lowering leaves empty. *)
Definition bare (n : ExprNode) : Expr := mkExpr n None default_type_ref 0.

(** ** Temporal formulas *)
Inductive TemporalExpr :=
  | mkTemporalExpr (node : TemporalExprNode) (source_range : option SourceRange)
with TemporalExprNode :=
  | EmbeddedTemporalExpr (expr : ExprRef)
  | CalledTemporalExpr (capability : string)
  | InStateTemporalExpr (state : string)
  | RunningTemporalExpr (node : string)
  | CompletedTemporalExpr (node : string) (state_name : option string)
  | TemporalUnaryExpr (op : TemporalUnaryOp.t) (operand : option TemporalExpr)
  | TemporalBinaryExpr (op : TemporalBinaryOp.t) (lhs rhs : option TemporalExpr).

Definition temporal_node (t : TemporalExpr) : TemporalExprNode :=
  match t with mkTemporalExpr n _ => n end.

(** ** Statements *)
Inductive Block :=
  | mkBlock (statements : list (option Statement)) (source_range : option SourceRange)
with Statement :=
  | mkStatement (node : StatementNode) (source_range : option SourceRange) (id : Z)
with StatementNode :=
  | LetStatement (name : string) (type_ref : TypeRef) (initializer : ExprRef)
  | AssignStatement (target : Path) (value : ExprRef)
  | IfStatement (condition : ExprRef) (then_block else_block : option Block)
  | GotoStatement (target_state : string)
  | ReturnStatement (value : ExprRef)
  | AssertStatement (condition : ExprRef)
  | ExprStatement (expr : ExprRef).

Definition statement_node (s : Statement) : StatementNode :=
  match s with mkStatement n _ _ => n end.
Definition statements (b : Block) : list (option Statement) :=
  match b with mkBlock l _ => l end.

(** Induction over statements: an [if] contains the statements of its branches. *)
Definition nested_statements (n : StatementNode) : list Statement :=
  match n with
  | IfStatement _ t e =>
      (option_list t ≫= λ b, statements b ≫= option_list) ++
      (option_list e ≫= λ b, statements b ≫= option_list)
  | _ => []
  end.

Section StatementInduction.
Context (P : Statement → Prop).
Context (step : ∀ s, Forall P (nested_statements (statement_node s)) → P s).

Lemma statement_induction : ∀ s, P s.
Proof.
  fix IH 1. intros [n r i]. apply step. simpl.
  assert (Hl : ∀ b : Block, Forall P (statements b ≫= option_list)).
  { intros [l sr]. simpl. induction l as [|[s|] l IHl]; simpl;
      [apply Forall_nil_2 | constructor; [apply IH | exact IHl] | exact IHl]. }
  destruct n as [| |c t e| | | |]; simpl; try apply Forall_nil_2.
  apply Forall_app. split; [destruct t as [b|] | destruct e as [b|]]; simpl;
    rewrite ?app_nil_r; first [apply Hl | apply Forall_nil_2].
Qed.
End StatementInduction.

(** ** Declarations *)
Record DeclarationProvenance := mkProvenance {
  prov_module_name : string;
  prov_source_path : string;
  prov_source_range : option SourceRange;
  prov_id : Z }.

Record FieldDecl := mkFieldDecl {
  field_name : string; field_default : ExprRef; field_type_ref : TypeRef;
  field_source_range : option SourceRange }.
Record ParamDecl := mkParamDecl {
  param_name : string; param_type_ref : TypeRef; param_source_range : option SourceRange }.

Module CapabilityEffectKind.
Inductive t := Unknown | Read | ExternalSideEffect | DurableWrite | FinancialWrite.
End CapabilityEffectKind.
Module CapabilityReceiptMode.
Inductive t := None_ | Optional | Required.
End CapabilityReceiptMode.
Module CapabilityRetryMode.
Inductive t := Unsafe | SafeIfIdempotent | Safe.
End CapabilityRetryMode.
Record CapabilityEffectSpec := mkEffectSpec {
  eff_declared : bool;
  eff_kind : CapabilityEffectKind.t;
  eff_domain : option string;
  eff_idempotency_key : option string;
  eff_receipt_mode : CapabilityReceiptMode.t;
  eff_retry_mode : CapabilityRetryMode.t;
  eff_timeout : option string;
  eff_compensation : option string;
  eff_policies : list string;
  eff_source_range : option SourceRange }.

Record ModuleDecl := mkModuleDecl { mod_provenance : DeclarationProvenance; mod_name : string }.
Record ImportDecl := mkImportDecl {
  imp_provenance : DeclarationProvenance; imp_path : string; imp_alias : option string }.
Record ConstDecl := mkConstDecl {
  const_provenance : DeclarationProvenance; const_name : string; const_value : ExprRef;
  const_type_ref : TypeRef; const_symbol_ref : SymbolRef }.
Record TypeAliasDecl := mkTypeAliasDecl {
  alias_provenance : DeclarationProvenance; alias_name : string;
  aliased_type_ref : TypeRef; alias_symbol_ref : SymbolRef }.
Record StructDecl := mkStructDecl {
  struct_provenance : DeclarationProvenance; struct_name : string;
  struct_fields : list FieldDecl; struct_symbol_ref : SymbolRef }.
Record EnumDecl := mkEnumDecl {
  enum_provenance : DeclarationProvenance; enum_name : string;
  enum_variants : list string; enum_symbol_ref : SymbolRef }.
Record CapabilityDecl := mkCapabilityDecl {
  cap_provenance : DeclarationProvenance; cap_name : string; cap_params : list ParamDecl;
  cap_return_type_ref : TypeRef; cap_effect : CapabilityEffectSpec; cap_symbol_ref : SymbolRef }.
Record PredicateDecl := mkPredicateDecl {
  pred_provenance : DeclarationProvenance; pred_name : string;
  pred_params : list ParamDecl; pred_symbol_ref : SymbolRef }.

Record QuotaItem := mkQuotaItem { quota_name : string; quota_value : string }.
Record TransitionDecl := mkTransition { from_state : string; to_state : string }.
Record AgentDecl := mkAgentDecl {
  agent_provenance : DeclarationProvenance;
  agent_name : string;
  states : list string;
  initial_state : string;
  final_states : list string;
  agent_quota : list QuotaItem;
  transitions : list TransitionDecl;
  agent_input_type_ref : TypeRef;
  agent_context_type_ref : TypeRef;
  agent_output_type_ref : TypeRef;
  agent_capability_refs : list SymbolRef;
  agent_symbol_ref : SymbolRef }.

(** The value of a contract clause: [std::variant<ExprRef, TemporalExprPtr>]. *)
Inductive ClauseValue :=
  | ClauseExpr (e : ExprRef)
  | ClauseTemporal (t : option TemporalExpr).
Record ContractClause := mkContractClause {
  clause_kind : ContractClauseKind.t; clause_value : ClauseValue;
  clause_source_range : option SourceRange }.
Record ContractDecl := mkContractDecl {
  contract_provenance : DeclarationProvenance;
  clauses : list ContractClause;
  contract_target_ref : SymbolRef }.

Inductive StatePolicyItem :=
  | RetryPolicy (limit : string)
  | RetryOnPolicy (targets : list string)
  | TimeoutPolicy (duration : string).
Record StateHandler := mkStateHandler {
  handler_state_name : string;
  handler_policy : list StatePolicyItem;
  handler_body : Block;
  handler_source_range : option SourceRange }.
Record FlowDecl := mkFlowDecl {
  flow_provenance : DeclarationProvenance;
  state_handlers : list StateHandler;
  flow_target_ref : SymbolRef }.

Record WorkflowNode := mkWorkflowNode {
  wn_name : string;
  wn_input : ExprRef;
  wn_after : list string;
  wn_target_ref : SymbolRef;
  wn_source_range : option SourceRange }.
Record WorkflowDecl := mkWorkflowDecl {
  wf_provenance : DeclarationProvenance;
  wf_name : string;
  wf_nodes : list WorkflowNode;
  wf_safety : list (option TemporalExpr);
  wf_liveness : list (option TemporalExpr);
  wf_return_value : ExprRef;
  wf_input_type_ref : TypeRef;
  wf_output_type_ref : TypeRef;
  wf_symbol_ref : SymbolRef }.

(** [ir::Decl] *)
Inductive Decl :=
  | DModule (d : ModuleDecl)
  | DImport (d : ImportDecl)
  | DConst (d : ConstDecl)
  | DTypeAlias (d : TypeAliasDecl)
  | DStruct (d : StructDecl)
  | DEnum (d : EnumDecl)
  | DCapability (d : CapabilityDecl)
  | DPredicate (d : PredicateDecl)
  | DAgent (d : AgentDecl)
  | DContract (d : ContractDecl)
  | DFlow (d : FlowDecl)
  | DWorkflow (d : WorkflowDecl).

Module ProgramPhase.
Inductive t := Lowered | Analyzed | Optimized.
End ProgramPhase.
(** The derived analyses are recomputed from the declarations and the arena
    owns the expressions the declarations refer to; neither is kept. *)
Record Program := mkProgram {
  format_version : string;
  phase : ProgramPhase.t;
  analysis_revision : Z;
  declarations : list Decl }.

(** ** Symbol names (identity.cpp) *)
Definition symbol_canonical_name (ref : SymbolRef) (fallback : string) : string :=
  if bool_decide (sym_canonical_name ref = "") then fallback else sym_canonical_name ref.
Definition symbol_display_name (ref : SymbolRef) (fallback : string) : string :=
  if bool_decide (sym_local_name ref = "") then symbol_canonical_name ref fallback
  else sym_local_name ref.
Definition has_resolved_symbol (ref : SymbolRef) : bool :=
  negb (bool_decide (sym_kind ref = SymbolRefKind.Unknown))
  && negb (bool_decide (sym_canonical_name ref = "")).
Definition has_resolved_type (ref : TypeRef) : bool :=
  negb (bool_decide (type_kind ref = TypeRefKind.Unresolved))
  && (negb (bool_decide (type_canonical ref = "")) || negb (bool_decide (type_display ref = ""))).
Definition type_canonical_name (ref : TypeRef) (fallback : string) : string :=
  if negb (bool_decide (type_canonical ref = "")) then type_canonical ref
  else if negb (bool_decide (type_display ref = "")) then type_display ref
  else fallback.
Definition type_display_name (ref : TypeRef) (fallback : string) : string :=
  if negb (bool_decide (type_display ref = "")) then type_display ref
  else type_canonical_name ref fallback.

(** ** Induction over expressions: an expression's direct sub-expressions *)
Definition children (n : ExprNode) : list Expr :=
  match n with
  | SomeExpr o | UnaryExpr _ o | MemberAccessExpr o _ => option_list o
  | CallExpr _ l | ListLiteralExpr l | SetLiteralExpr l => l ≫= option_list
  | StructLiteralExpr _ l => l ≫= λ f, option_list f.2
  | MapLiteralExpr l => l ≫= λ f, option_list f.1 ++ option_list f.2
  | BinaryExpr _ a b | IndexAccessExpr a b => option_list a ++ option_list b
  | _ => []
  end.

Section ExprInduction.
Context (P : Expr → Prop).
Context (step : ∀ e, Forall P (children (expr_node e)) → P e).

Lemma expr_induction : ∀ e, P e.
Proof.
  fix IH 1. intros [n r t i]. apply step. simpl.
  destruct n as [| | | | | | |o| | |s l|s l|l|l|l|u o|b o1 o2|o s|o1 o2]; simpl;
    try apply Forall_nil_2; rewrite ?Forall_app.
  1, 7, 9: destruct o as [e|]; simpl; [apply Forall_singleton, IH | apply Forall_nil_2].
  1, 3, 4: induction l as [|[e|] l IHl]; simpl;
    [apply Forall_nil_2 | constructor; [apply IH | exact IHl] | exact IHl].
  - induction l as [|[f [e|]] l IHl]; simpl;
      [apply Forall_nil_2 | constructor; [apply IH | exact IHl] | exact IHl].
  - induction l as [|[[e1|] [e2|]] l IHl]; simpl; [apply Forall_nil_2|..];
      repeat (constructor; [apply IH|]); exact IHl.
  - split; [destruct o1 as [e|] | destruct o2 as [e|]]; simpl;
      try apply Forall_nil_2; apply Forall_singleton, IH.
  - split; [destruct o1 as [e|] | destruct o2 as [e|]]; simpl;
      try apply Forall_nil_2; apply Forall_singleton, IH.
Qed.
End ExprInduction.

(** The nesting depth of an expression. *)
Fixpoint expr_depth (e : Expr) : nat :=
  let od := λ o : option Expr, match o with Some e => expr_depth e | None => 0%nat end in
  match e with
  | mkExpr n _ _ _ =>
      S (match n with
         | SomeExpr o | UnaryExpr _ o | MemberAccessExpr o _ => od o
         | CallExpr _ l | ListLiteralExpr l | SetLiteralExpr l =>
             foldr (λ o m, od o `max` m) 0 l
         | StructLiteralExpr _ l => foldr (λ f m, od f.2 `max` m) 0 l
         | MapLiteralExpr l => foldr (λ f m, od f.1 `max` od f.2 `max` m) 0 l
         | BinaryExpr _ a b | IndexAccessExpr a b => od a `max` od b
         | _ => 0
         end)%nat
  end.
