(* ===== verification/ProgramIndex.v ===== *)
(** * The program index (src/compiler/ir/program_view.cpp)

    Name tables of the declarations of a program and the topological order of
    a workflow's nodes.  A pointer to a declaration is the declaration. *)
From S2P Require Import Prelude Ir.
Open Scope nat_scope.

(** ** The tables *)
Record ProgramIndex := mkIndex {
  agents_ : gmap string AgentDecl;
  flows_by_agent_ : gmap string FlowDecl;
  workflows_ : gmap string WorkflowDecl;
  capabilities_ : gmap string CapabilityDecl;
  structs_ : gmap string StructDecl;
  enums_ : gmap string EnumDecl;
  decls_by_id_ : gmap Z Decl;
  agents_in_order_ : list AgentDecl;
  flows_in_order_ : list FlowDecl;
  workflows_in_order_ : list WorkflowDecl;
  capabilities_in_order_ : list CapabilityDecl;
  structs_in_order_ : list StructDecl;
  enums_in_order_ : list EnumDecl }.
Definition empty_index : ProgramIndex := mkIndex ∅ ∅ ∅ ∅ ∅ ∅ ∅ [] [] [] [] [] [].

(** [map.emplace(key, value)]: the first entry of a key stays. *)
Definition map_emplace `{Countable K} {A} (k : K) (v : A) (m : gmap K A) : gmap K A :=
  match m !! k with Some _ => m | None => <[k := v]> m end.
Definition map_emplace_id (ref : SymbolRef) (d : Decl) (m : gmap Z Decl) : gmap Z Decl :=
  match sym_id ref with Some i => map_emplace i d m | None => m end.

Definition index_decl (d : Decl) (x : ProgramIndex) : ProgramIndex :=
  let '(mkIndex ag fl wf ca st en ids ags fls wfs cas sts ens) := x in
  match d with
  | DAgent a =>
      mkIndex (map_emplace (symbol_canonical_name (agent_symbol_ref a) (agent_name a)) a ag)
        fl wf ca st en (map_emplace_id (agent_symbol_ref a) d ids) (ags ++ [a]) fls wfs cas sts ens
  | DFlow f =>
      mkIndex ag (map_emplace (symbol_canonical_name (flow_target_ref f) "") f fl)
        wf ca st en ids ags (fls ++ [f]) wfs cas sts ens
  | DWorkflow w =>
      mkIndex ag fl (map_emplace (symbol_canonical_name (wf_symbol_ref w) (wf_name w)) w wf)
        ca st en (map_emplace_id (wf_symbol_ref w) d ids) ags fls (wfs ++ [w]) cas sts ens
  | DCapability c =>
      mkIndex ag fl wf (map_emplace (symbol_canonical_name (cap_symbol_ref c) (cap_name c)) c ca)
        st en (map_emplace_id (cap_symbol_ref c) d ids) ags fls wfs (cas ++ [c]) sts ens
  | DStruct s =>
      mkIndex ag fl wf ca
        (map_emplace (symbol_canonical_name (struct_symbol_ref s) (struct_name s)) s st)
        en (map_emplace_id (struct_symbol_ref s) d ids) ags fls wfs cas (sts ++ [s]) ens
  | DEnum e =>
      mkIndex ag fl wf ca st
        (map_emplace (symbol_canonical_name (enum_symbol_ref e) (enum_name e)) e en)
        (map_emplace_id (enum_symbol_ref e) d ids) ags fls wfs cas sts (ens ++ [e])
  | DConst c =>
      mkIndex ag fl wf ca st en (map_emplace_id (const_symbol_ref c) d ids)
        ags fls wfs cas sts ens
  | DPredicate p =>
      mkIndex ag fl wf ca st en (map_emplace_id (pred_symbol_ref p) d ids)
        ags fls wfs cas sts ens
  | DTypeAlias a =>
      mkIndex ag fl wf ca st en (map_emplace_id (alias_symbol_ref a) d ids)
        ags fls wfs cas sts ens
  | DModule _ | DImport _ | DContract _ => x
  end.
(** [rebuild(program)] *)
Definition rebuild (program : Program) : ProgramIndex :=
  fold_left (λ x d, index_decl d x) (declarations program) empty_index.

Definition find_agent (x : ProgramIndex) (name : string) : option AgentDecl := agents_ x !! name.
Definition find_flow_for_agent (x : ProgramIndex) (name : string) : option FlowDecl :=
  flows_by_agent_ x !! name.
Definition find_workflow (x : ProgramIndex) (name : string) : option WorkflowDecl :=
  workflows_ x !! name.
Definition find_capability (x : ProgramIndex) (name : string) : option CapabilityDecl :=
  capabilities_ x !! name.
Definition find_struct (x : ProgramIndex) (name : string) : option StructDecl :=
  structs_ x !! name.
Definition find_enum (x : ProgramIndex) (name : string) : option EnumDecl := enums_ x !! name.
Definition find_decl_by_id (x : ProgramIndex) (i : Z) : option Decl := decls_by_id_ x !! i.
Definition find_decl_by_symbol_ref (x : ProgramIndex) (ref : SymbolRef) : option Decl :=
  match sym_id ref with Some i => find_decl_by_id x i | None => None end.

(** ** Topological order *)

(** The loop over the dependencies of a candidate: every occurrence of [name]
    takes one from its counter. *)
Definition release_dependency (name candidate : string)
    (st : gmap string nat * bool) (dependency : string) : gmap string nat * bool :=
  if bool_decide (dependency = name)
  then (<[candidate := pred (default 0 (st.1 !! candidate))]> st.1, true)
  else st.
Definition release (name : string) (candidate : WorkflowNode) (remaining : gmap string nat)
    : gmap string nat * bool :=
  fold_left (release_dependency name (wn_name candidate)) (wn_after candidate) (remaining, false).

(** One candidate after [name] has been processed. *)
Definition unlock (name : string) (processed : gset string)
    (st : gmap string nat * list WorkflowNode) (candidate : WorkflowNode)
    : gmap string nat * list WorkflowNode :=
  if bool_decide (wn_name candidate ∈ processed) then st
  else
    let '(remaining, unlocked) := release name candidate st.1 in
    if unlocked && bool_decide (default 0 (remaining !! wn_name candidate) = 0)
    then (remaining, st.2 ++ [candidate])
    else (remaining, st.2).

(** The loop over [ready]: [queue] is the part at and after the index. *)
Fixpoint topological_loop (fuel : nat) (nodes queue : list WorkflowNode)
    (remaining : gmap string nat) (processed : gset string) (order : list WorkflowNode)
    : cxx (list WorkflowNode) :=
  match queue with
  | [] => Ret order
  | node :: queue =>
      match fuel with
      | O => NoFuel
      | S fuel =>
          if bool_decide (wn_name node ∈ processed)
          then topological_loop fuel nodes queue remaining processed order
          else
            let processed := {[wn_name node]} ∪ processed in
            let '(remaining, queue) :=
              fold_left (unlock (wn_name node) processed) nodes (remaining, queue) in
            topological_loop fuel nodes queue remaining processed (order ++ [node])
      end
  end.

Definition initial_dependencies (nodes : list WorkflowNode) : gmap string nat :=
  fold_left (λ m n, map_emplace (wn_name n) (length (wn_after n)) m) nodes ∅.
Definition initial_ready (nodes : list WorkflowNode) : list WorkflowNode :=
  base.filter (λ n, wn_after n = []) nodes.

(** A node is queued at most once at the start and once per processed node. *)
Definition topological_fuel (nodes : list WorkflowNode) : nat :=
  length nodes + length nodes * length nodes.

Definition topological_order (workflow : WorkflowDecl) : cxx (list WorkflowNode) :=
  let nodes := wf_nodes workflow in
  topological_loop (topological_fuel nodes) nodes (initial_ready nodes)
    (initial_dependencies nodes) ∅ [].

Definition has_unresolved_or_cyclic_dependencies (workflow : WorkflowDecl) : cxx bool :=
  order ← topological_order workflow;
  Ret (negb (bool_decide (length order = length (wf_nodes workflow)))).

(** ** Correctness of the topological order *)
Lemma release_spec name c m :
  let r := release name c m in
  (∀ x, x ≠ wn_name c → r.1 !! x = m !! x) ∧
  default 0 (r.1 !! wn_name c) = default 0 (m !! wn_name c) - count name (wn_after c) ∧
  r.2 = bool_decide (name ∈ wn_after c).
Proof.
  unfold release. generalize (wn_after c), (wn_name c). intros l x.
  assert (Hgen : ∀ b m, let r := fold_left (release_dependency name x) l (m, b) in
    (∀ y, y ≠ x → r.1 !! y = m !! y) ∧
    default 0 (r.1 !! x) = default 0 (m !! x) - count name l ∧
    r.2 = b || bool_decide (name ∈ l)).
  { clear. induction l as [|d l IH]; intros b m; simpl.
    - split; [done|]. split; [lia|]. by rewrite orb_false_r.
    - rewrite filter_cons.
      assert (Hstep : release_dependency name x (m, b) d =
        if decide (d = name) then (<[x := pred (default 0 (m !! x))]> m, true) else (m, b)).
      { unfold release_dependency.
        destruct (decide (d = name)); [rewrite bool_decide_true|rewrite bool_decide_false]; done. }
      rewrite Hstep. clear Hstep. destruct (decide (d = name)) as [Hd|Hd]; simpl.
      + destruct (IH true (<[x := pred (default 0 (m !! x))]> m)) as (H1 & H2 & H3).
        split; [intros y Hy; rewrite H1 by done; by apply lookup_insert_ne|].
        split; [rewrite H2, lookup_insert_eq; simpl; lia|].
        rewrite H3. subst. rewrite (bool_decide_true (_ ∈ _ :: _)) by left. by rewrite orb_true_r.
      + destruct (IH b m) as (H1 & H2 & H3). split; [done|]. split; [done|].
        rewrite H3. f_equal. apply bool_decide_ext. set_solver. }
  apply (Hgen false m).
Qed.

Section Pass.
Context (name : string) (P : gset string).

(** The candidates that processing [name] unlocks, given the counters. *)
Definition unlocked (m : gmap string nat) (c : WorkflowNode) : Prop :=
  wn_name c ∉ P ∧ name ∈ wn_after c ∧
  default 0 (m !! wn_name c) ≤ count name (wn_after c).
#[global] Instance unlocked_dec m c : Decision (unlocked m c).
Proof. unfold unlocked. apply _. Defined.

Lemma unlock_spec m q c :
  let r := unlock name P (m, q) c in
  (∀ x, x ≠ wn_name c → r.1 !! x = m !! x) ∧
  (wn_name c ∉ P →
   default 0 (r.1 !! wn_name c) = default 0 (m !! wn_name c) - count name (wn_after c)) ∧
  r.2 = q ++ (if decide (unlocked m c) then [c] else []).
Proof.
  unfold unlock; simpl. case_bool_decide as Hc.
  - split; [done|]. split; [done|]. rewrite decide_False by (unfold unlocked; tauto).
    by rewrite app_nil_r.
  - destruct (release_spec name c m) as (H1 & H2 & H3).
    destruct (release name c m) as [m' u]. simpl in *. subst u.
    case_bool_decide as Hin; simpl; [case_bool_decide as Hz; simpl|].
    + split; [done|]. split; [done|]. rewrite decide_True; [done|]. split; [done|]. split; [done|]. lia.
    + split; [done|]. split; [done|].
      rewrite decide_False; [by rewrite app_nil_r|]. intros (_ & _ & ?). lia.
    + split; [done|]. split; [done|].
      rewrite decide_False; [by rewrite app_nil_r|]. by intros (_ & ? & _).
Qed.

Lemma unlock_pass cs m q :
  NoDup (wn_name <$> cs) →
  let r := fold_left (unlock name P) cs (m, q) in
  (∀ x, x ∉ wn_name <$> cs → r.1 !! x = m !! x) ∧
  (∀ c, c ∈ cs → wn_name c ∉ P →
     default 0 (r.1 !! wn_name c) = default 0 (m !! wn_name c) - count name (wn_after c)) ∧
  r.2 = q ++ base.filter (unlocked m) cs.
Proof.
  revert m q. induction cs as [|c cs IH]; intros m q Hnd; simpl.
  - split; [done|]. split; [intros c Hc; by apply elem_of_nil in Hc|]. by rewrite app_nil_r.
  - apply NoDup_cons in Hnd as [Hc Hnd].
    destruct (unlock_spec m q c) as (H1 & H2 & H3).
    destruct (unlock name P (m, q) c) as [m1 q1]. simpl in H1, H2, H3.
    destruct (IH m1 q1 Hnd) as (I1 & I2 & I3). clear IH. subst q1.
    split; [|split].
    + intros x Hx. rewrite I1 by set_solver. apply H1. set_solver.
    + intros c' [->|Hc']%elem_of_cons Hp; [by rewrite I1, H2|].
      rewrite I2, H1; [done| |done..]. intros Heq. apply Hc. rewrite <- Heq.
      by apply list_elem_of_fmap_2.
    + rewrite I3, <- app_assoc. f_equal. rewrite filter_cons.
      assert (Hf : base.filter (unlocked m1) cs = base.filter (unlocked m) cs).
      { clear I1 I2 I3. induction cs as [|c' cs IHcs]; [done|]. rewrite !filter_cons.
        rewrite IHcs by (set_solver || by apply NoDup_cons in Hnd as [_ ?]).
        assert (unlocked m1 c' ↔ unlocked m c').
        { unfold unlocked. rewrite H1; [done|]. intros Heq. apply Hc. rewrite <- Heq. left. }
        repeat case_decide; tauto. }
      rewrite Hf. by destruct (decide (unlocked m c)).
Qed.
End Pass.

Section Loop.
Context (nodes : list WorkflowNode).

(** The state of the loop after the node at the head of the queue. *)
Definition process (n : WorkflowNode) (q : list WorkflowNode) (m : gmap string nat)
    (P : gset string) : gmap string nat * list WorkflowNode :=
  fold_left (unlock (wn_name n) ({[wn_name n]} ∪ P)) nodes (m, q).

(** A rule for invariants of the loop. *)
Lemma topological_loop_rule (I : list WorkflowNode → gmap string nat → gset string →
    list WorkflowNode → Prop) fuel q m P o order :
  (∀ n q m P o, I (n :: q) m P o → wn_name n ∈ P → I q m P o) →
  (∀ n q m P o, I (n :: q) m P o → wn_name n ∉ P →
     I (process n q m P).2 (process n q m P).1 ({[wn_name n]} ∪ P) (o ++ [n])) →
  I q m P o → topological_loop fuel nodes q m P o ⇓ order →
  ∃ m P, I [] m P order.
Proof.
  intros Hskip Hstep. revert q m P o. induction fuel as [|fuel IH]; intros q m P o HI Hrun;
    destruct q as [|n q]; simpl in Hrun; simplify_eq; [by eauto..|].
  case_bool_decide as Hn; [exact (IH q m P o (Hskip _ _ _ _ _ HI Hn) Hrun)|].
  specialize (Hstep n q m P o HI Hn). unfold process in Hstep.
  destruct (fold_left _ nodes (m, q)) as [m' q']. exact (IH _ _ _ _ Hstep Hrun).
Qed.

(** What holds for any list of nodes. *)
Record loop_base (q : list WorkflowNode) (P : gset string) (o : list WorkflowNode) : Prop := {
  base_queue : q ⊆ nodes;
  base_order : o ⊆ nodes;
  base_nodup : NoDup (wn_name <$> o);
  base_processed : ∀ x, x ∈ P ↔ x ∈ wn_name <$> o }.

Lemma unlock_queue name P cs m q :
  ∃ l, (fold_left (unlock name P) cs (m, q)).2 = q ++ l ∧ l `sublist_of` cs.
Proof.
  revert m q. induction cs as [|c cs IH]; intros m q; simpl; [exists []; by rewrite app_nil_r|].
  destruct (unlock_spec name P m q c) as (_ & _ & H).
  destruct (unlock name P (m, q) c) as [m1 q1]. simpl in H. subst q1.
  destruct (IH m1 (q ++ if decide (unlocked name P m c) then [c] else [])) as (l & -> & Hl).
  rewrite <- app_assoc. eexists. split; [done|].
  case_decide; simpl; [by apply sublist_skip | by apply sublist_cons].
Qed.

Lemma process_queue n q m P :
  ∃ l, (process n q m P).2 = q ++ l ∧ l `sublist_of` nodes.
Proof. apply unlock_queue. Qed.

Lemma loop_base_skip n q P o : loop_base (n :: q) P o → loop_base q P o.
Proof. intros [Hq ???]. split; try done. intros x Hx. apply Hq. by right. Qed.

Lemma loop_base_step n q m P o :
  loop_base (n :: q) P o → wn_name n ∉ P →
  loop_base (process n q m P).2 ({[wn_name n]} ∪ P) (o ++ [n]).
Proof.
  intros [Hq Ho Hnd HP] Hn. destruct (process_queue n q m P) as (l & Hl & Hsub). split.
  - rewrite Hl. intros x [Hx|Hx]%elem_of_app; [apply Hq; by right|].
    eapply sublist_subseteq; [exact Hsub | done].
  - intros x [Hx| ->%list_elem_of_singleton]%elem_of_app; [by apply Ho|]. apply Hq. left.
  - rewrite fmap_app. apply NoDup_app. split; [done|]. split; [|apply NoDup_singleton].
    intros x Hx%HP ->%list_elem_of_singleton. done.
  - intros x. rewrite elem_of_union, elem_of_singleton, fmap_app, elem_of_app, HP.
    simpl. rewrite list_elem_of_singleton. tauto.
Qed.

Lemma loop_base_length q P o : loop_base q P o → length o ≤ length nodes.
Proof.
  intros [_ Ho Hnd _]. rewrite <- (length_fmap wn_name o), <- (length_fmap wn_name nodes).
  apply submseteq_length, NoDup_submseteq; [done|].
  intros x (n & -> & Hn)%list_elem_of_fmap. apply list_elem_of_fmap_2. by apply Ho.
Qed.

(** The fuel covers the queue and the nodes each remaining pass may add. *)
Lemma topological_loop_total fuel q m P o :
  loop_base q P o →
  length q + (length nodes - length o) * length nodes ≤ fuel →
  topological_loop fuel nodes q m P o ≠ NoFuel.
Proof.
  revert q m P o. induction fuel as [|fuel IH]; intros q m P o Hb Hf;
    (destruct q as [|n q]; [done|]); simpl in Hf |- *; [by apply Nat.nle_succ_0 in Hf|].
  case_bool_decide as Hn; [apply IH; [by eapply loop_base_skip | lia]|].
  pose proof (loop_base_step n q m P o Hb Hn) as Hb'.
  destruct (process_queue n q m P) as (l & Hl & Hsub).
  unfold process in Hb', Hl. destruct (fold_left _ nodes (m, q)) as [m' q']. simpl in *. subst q'.
  apply IH; [done|]. apply sublist_length in Hsub.
  pose proof (loop_base_length _ _ _ Hb'). rewrite !length_app in *. simpl length in *.
  replace (length nodes - length o) with (S (length nodes - (length o + 1))) in Hf by lia.
  rewrite Nat.mul_succ_l in Hf.
  set (X := (length nodes - (length o + 1)) * length nodes) in *. clearbody X. lia.
Qed.
End Loop.

Lemma initial_base nodes : loop_base nodes (initial_ready nodes) ∅ [].
Proof.
  split; [|apply list_subseteq_nil|apply NoDup_nil_2|set_solver].
  intros x [_ Hx]%list_elem_of_filter. done.
Qed.

Lemma topological_order_run workflow : ∃ order, topological_order workflow ⇓ order.
Proof.
  unfold topological_order. set (nodes := wf_nodes workflow).
  destruct (topological_loop _ _ _ _ _ _) as [o| |] eqn:E; [eauto| |].
  - exfalso. revert E. generalize (topological_fuel nodes), (initial_ready nodes),
      (initial_dependencies nodes), (∅ : gset string), (@nil WorkflowNode). intros f.
    induction f as [|f IH]; intros q m P o; destruct q; simpl; try done.
    destruct (bool_decide _); [by apply IH|]. destruct (fold_left _ _ _). apply IH.
  - exfalso. revert E. apply topological_loop_total; [apply initial_base|].
    unfold topological_fuel, initial_ready. pose proof (length_filter (λ n, wn_after n = []) nodes).
    simpl. rewrite Nat.sub_0_r. lia.
Qed.

(** Every dependency of a node occurs, by name, earlier in the list. *)
Definition deps_before (order : list WorkflowNode) : Prop :=
  ∀ i n d, order !! i = Some n → d ∈ wn_after n →
    ∃ j m, j < i ∧ order !! j = Some m ∧ wn_name m = d.

Lemma deps_before_snoc o n :
  deps_before o → (∀ d, d ∈ wn_after n → d ∈ wn_name <$> o) → deps_before (o ++ [n]).
Proof.
  intros Ho Hn i x d Hi Hd. apply lookup_app_Some in Hi as [Hi|[Hlen Hi]].
  - destruct (Ho i x d Hi Hd) as (j & m & Hj & Hm & Hname). exists j, m.
    split; [done|]. split; [|done]. rewrite lookup_app_l; [done|]. by eapply lookup_lt_Some.
  - apply list_lookup_singleton_Some in Hi as [Hi <-].
    apply Hn, list_elem_of_fmap in Hd as (m & -> & Hm). apply list_elem_of_lookup in Hm as [j Hj].
    pose proof (lookup_lt_Some _ _ _ Hj). exists j, m. split; [lia|]. split; [|done].
    by rewrite lookup_app_l.
Qed.

(** A property of the names of a dependency-ordered list, established one node
    after the other. *)
Lemma deps_before_ind (P : string → Prop) l :
  deps_before l →
  (∀ n, n ∈ l → (∀ d, d ∈ wn_after n → P d) → P (wn_name n)) →
  ∀ n, n ∈ l → P (wn_name n).
Proof.
  intros Hl Hstep n [i Hi]%list_elem_of_lookup. revert n Hi.
  induction (lt_wf i) as [i _ IH]. intros n Hi. apply Hstep; [by eapply list_elem_of_lookup_2|].
  intros d Hd. destruct (Hl i n d Hi Hd) as (j & m & Hj & Hm & <-). by eapply IH.
Qed.

Section Unique.
Context (nodes : list WorkflowNode) (Hnodes : NoDup (wn_name <$> nodes)).

Lemma node_name_inj c n : c ∈ nodes → n ∈ nodes → wn_name c = wn_name n → c = n.
Proof.
  intros [i Hi]%list_elem_of_lookup [j Hj]%list_elem_of_lookup Heq.
  assert (i = j) as ->; [|congruence]. eapply NoDup_lookup; [exact Hnodes| |].
  - rewrite list_lookup_fmap, Hi. done.
  - rewrite list_lookup_fmap, Hj. simpl. by rewrite Heq.
Qed.

(** The counters hold the pending dependencies; the queue holds every
    unprocessed node without pending dependencies, and no other. *)
Record loop_inv (q : list WorkflowNode) (m : gmap string nat) (P : gset string)
    (o : list WorkflowNode) : Prop := {
  inv_base : loop_base nodes q P o;
  inv_count : ∀ c, c ∈ nodes → wn_name c ∉ P → default 0 (m !! wn_name c) = pending P (wn_after c);
  inv_queue : ∀ c, c ∈ q → ∀ d, d ∈ wn_after c → d ∈ P;
  inv_ready : ∀ c, c ∈ nodes → wn_name c ∉ P → (∀ d, d ∈ wn_after c → d ∈ P) → c ∈ q;
  inv_order : deps_before o }.

Lemma loop_inv_skip n q m P o : loop_inv (n :: q) m P o → wn_name n ∈ P → loop_inv q m P o.
Proof.
  intros [Hb Hc Hq Hr Ho] Hn. split; [by eapply loop_base_skip|done| | |done].
  - intros c Hin. apply Hq. by right.
  - intros c Hin Hp Hd. specialize (Hr c Hin Hp Hd).
    apply elem_of_cons in Hr as [->|Hr]; done.
Qed.

Lemma loop_inv_step n q m P o :
  loop_inv (n :: q) m P o → wn_name n ∉ P →
  loop_inv (process nodes n q m P).2 (process nodes n q m P).1 ({[wn_name n]} ∪ P) (o ++ [n]).
Proof.
  intros [Hb Hc Hq Hr Ho] Hn. unfold process. set (P' := {[wn_name n]} ∪ P).
  destruct (unlock_pass (wn_name n) P' nodes m q Hnodes) as (H1 & H2 & H3).
  assert (Hpend : ∀ c, pending P (wn_after c) = pending P' (wn_after c) + count (wn_name n) (wn_after c))
    by (intros c; by apply pending_step).
  assert (HP : ∀ x, x ∉ P' → x ∉ P) by set_solver.
  split.
  - by apply loop_base_step.
  - intros c Hin Hp. rewrite H2 by done. rewrite Hc by auto. rewrite (Hpend c). lia.
  - intros c Hin d Hd. rewrite H3 in Hin. apply elem_of_app in Hin as [Hin|Hin].
    + subst P'. assert (d ∈ P) by (eapply Hq; [by right|done]). set_solver.
    + apply list_elem_of_filter in Hin as [(Hp & _ & Hz) Hin].
      rewrite Hc in Hz by auto. rewrite (Hpend c) in Hz.
      assert (Hz' : pending P' (wn_after c) = 0) by lia. rewrite pending_0 in Hz'. auto.
  - intros c Hin Hp Hd. rewrite H3. apply elem_of_app.
    destruct (decide (wn_name n ∈ wn_after c)) as [Hnin|Hnin].
    + right. apply list_elem_of_filter. split; [|done]. split; [done|]. split; [done|].
      rewrite Hc by auto. rewrite (Hpend c). apply pending_0 in Hd. lia.
    + left. assert (Hin' : c ∈ n :: q).
      { apply Hr; [done|auto|]. intros d Hdin. specialize (Hd d Hdin). subst P'.
        apply elem_of_union in Hd as [->%elem_of_singleton|]; done. }
      apply elem_of_cons in Hin' as [->|]; [|done]. subst P'. set_solver.
  - apply deps_before_snoc; [done|]. intros d Hd. apply (base_processed _ _ _ _ Hb).
    eapply Hq; [left|done].
Qed.

Lemma initial_dependencies_lookup l acc c :
  NoDup (wn_name <$> l) → (∀ x, x ∈ l → acc !! wn_name x = None) → c ∈ l →
  fold_left (λ m n, map_emplace (wn_name n) (length (wn_after n)) m) l acc !! wn_name c
    = Some (length (wn_after c)).
Proof.
  assert (Hkeep : ∀ l (acc : gmap string nat) x v, acc !! x = Some v →
    fold_left (λ m n, map_emplace (wn_name n) (length (wn_after n)) m) l acc !! x = Some v).
  { clear. induction l as [|n l IH]; intros acc x v Hx; [done|]. simpl. apply IH.
    unfold map_emplace. destruct (acc !! wn_name n) eqn:E; [done|].
    rewrite lookup_insert_ne; [done | congruence]. }
  revert acc. induction l as [|n l IH]; intros acc Hnd Hacc Hc; [by apply elem_of_nil in Hc|].
  simpl. apply NoDup_cons in Hnd as [Hn Hnd].
  assert (Hn0 : acc !! wn_name n = None) by (apply Hacc; left).
  unfold map_emplace at 2. rewrite Hn0.
  apply elem_of_cons in Hc as [->|Hc]; [apply Hkeep, lookup_insert_eq|].
  apply IH; [done| |done]. intros x Hx. rewrite lookup_insert_ne; [apply Hacc; by right|].
  intros Heq. apply Hn. rewrite Heq. by apply list_elem_of_fmap_2.
Qed.

Lemma initial_inv : loop_inv (initial_ready nodes) (initial_dependencies nodes) ∅ [].
Proof.
  split; [apply initial_base| | | |by intros i n d Hi].
  - intros c Hc _. unfold initial_dependencies.
    rewrite initial_dependencies_lookup by (done || intros; apply lookup_empty). simpl.
    clear. induction (wn_after c) as [|d l IH]; [done|].
    rewrite filter_cons, decide_True by set_solver. simpl. by rewrite <- IH.
  - intros c [Hc _]%list_elem_of_filter d Hd. rewrite Hc in Hd. by apply elem_of_nil in Hd.
  - intros c Hc _ Hd. apply list_elem_of_filter. split; [|done].
    destruct (wn_after c) as [|d l]; [done|]. exfalso. apply (not_elem_of_empty (C:=gset string) d).
    apply Hd. left.
Qed.

(** The final state: nothing is ready. *)
Lemma loop_final fuel order :
  topological_loop fuel nodes (initial_ready nodes) (initial_dependencies nodes) ∅ [] ⇓ order →
  ∃ m P, loop_inv [] m P order.
Proof.
  intros Hrun. eapply (topological_loop_rule nodes loop_inv); [| |apply initial_inv|exact Hrun].
  - apply loop_inv_skip.
  - apply loop_inv_step.
Qed.

(** When some ordering of all the nodes has dependencies first, none is left. *)
Lemma loop_complete m P order l :
  loop_inv [] m P order → l ≡ₚ nodes → deps_before l → ∀ n, n ∈ nodes → n ∈ order.
Proof.
  intros [Hb Hc Hq Hr Ho] Hl Hdeps n Hn.
  assert (HnP : wn_name n ∈ P).
  { apply (deps_before_ind (λ x, x ∈ P) l Hdeps); [|by rewrite Hl].
    intros c Hcl Hd. destruct (decide (wn_name c ∈ P)) as [|Hp]; [done|].
    rewrite Hl in Hcl. exfalso. eapply not_elem_of_nil. by apply (Hr c Hcl Hp Hd). }
  apply (base_processed _ _ _ _ Hb), list_elem_of_fmap in HnP as (c & Heq & Hco).
  assert (n = c) as ->; [|done]. apply node_name_inj; [done| |done].
  by apply (base_order _ _ _ _ Hb).
Qed.
End Unique.

(** An order with as many elements as there are nodes lists them all. *)
Lemma complete_order workflow order :
  topological_order workflow ⇓ order → length order = length (wf_nodes workflow) →
  order ≡ₚ wf_nodes workflow ∧ NoDup (wn_name <$> order) ∧ deps_before order.
Proof.
  intros Hrun Hlen.
  assert (Hb : loop_base (wf_nodes workflow) [] (list_to_set (wn_name <$> order)) order).
  { destruct (topological_loop_rule (wf_nodes workflow)
      (λ q _ P o, loop_base (wf_nodes workflow) q P o) _ _ _ _ _ _
      (λ n q m P o Hb _, loop_base_skip _ n q P o Hb)
      (λ n q m P o Hb Hn, loop_base_step _ n q m P o Hb Hn)
      (initial_base _) Hrun) as (m & P & [Hq Ho Hnd HP]).
    split; try done. intros x. by rewrite elem_of_list_to_set. }
  destruct Hb as [_ Hsub Hnd _].
  assert (Hperm : order ≡ₚ wf_nodes workflow).
  { apply submseteq_length_Permutation; [|lia].
    apply NoDup_submseteq; [by apply NoDup_fmap_1 in Hnd | done]. }
  split; [done|]. split; [done|].
  assert (Hnn : NoDup (wn_name <$> wf_nodes workflow)) by (by rewrite <- Hperm).
  destruct (loop_final _ Hnn _ _ Hrun) as (m & P & Hinv). by eapply inv_order.
Qed.

(** C8: the topological order always terminates.  When the node names are
    distinct, it lists distinct nodes of the workflow, each after all its
    dependencies; and it lists all of them exactly when some order of all the
    nodes puts dependencies first, that is when there is no cycle and no
    unresolved dependency: this is what
    [has_unresolved_or_cyclic_dependencies] decides. *)
Theorem topological_order_correct workflow :
  NoDup (wn_name <$> wf_nodes workflow) →
  ∃ order, topological_order workflow ⇓ order ∧
    NoDup order ∧ order ⊆ wf_nodes workflow ∧ deps_before order ∧
    ∃ b, has_unresolved_or_cyclic_dependencies workflow ⇓ b ∧
      (b = false ↔ order ≡ₚ wf_nodes workflow) ∧
      (b = false ↔ ∃ l, l ≡ₚ wf_nodes workflow ∧ deps_before l).
Proof.
  intros Hnd. destruct (topological_order_run workflow) as [order Hrun]. exists order.
  split; [done|]. destruct (loop_final _ Hnd _ _ Hrun) as (m & P & Hinv).
  destruct (inv_base _ _ _ _ _ Hinv) as [_ Hsub Hno _].
  apply NoDup_fmap_1 in Hno. pose proof (NoDup_fmap_1 _ _ Hnd) as Hnn.
  assert (Hdeps : deps_before order) by (by eapply inv_order).
  assert (Hperm : length order = length (wf_nodes workflow) → order ≡ₚ wf_nodes workflow).
  { intros Hlen. apply submseteq_length_Permutation; [by apply NoDup_submseteq | lia]. }
  do 3 (split; [done|]). eexists.
  split; [unfold has_unresolved_or_cyclic_dependencies; rewrite Hrun; reflexivity|].
  rewrite negb_false_iff, bool_decide_eq_true. split; split.
  - done.
  - apply Permutation_length.
  - intros Hlen. exists order. auto.
  - intros (l & Hl & Hld). apply Permutation_length, NoDup_Permutation; [done..|].
    intros x. split; [apply Hsub|]. intros Hx. by eapply loop_complete.
Qed.

(** Two nodes listed in the wrong order: [b] after [a]. *)
Definition two_nodes : WorkflowDecl :=
  let node n deps := mkWorkflowNode n None deps
    (mkSymbolRef SymbolRefKind.Agent "agent" "agent" "" None) None in
  mkWorkflowDecl (mkProvenance "" "" None 0) "w" [node "b" ["a"]; node "a" []] [] [] None
    default_type_ref default_type_ref (mkSymbolRef SymbolRefKind.Workflow "w" "w" "" None).

Lemma topological_order_correct_witness :
  ∃ order, topological_order two_nodes ⇓ order ∧ wn_name <$> order = ["a"; "b"] ∧
    deps_before order.
Proof.
  assert (Hnd : NoDup (wn_name <$> wf_nodes two_nodes)).
  { apply NoDup_cons. split; [|apply NoDup_singleton].
    intros Hin. apply list_elem_of_singleton in Hin. discriminate. }
  destruct (topological_order_correct two_nodes Hnd) as (order & Hrun & _ & _ & Hdeps & _).
  exists order. split; [exact Hrun|]. split; [|exact Hdeps].
  vm_compute in Hrun. injection Hrun as <-. reflexivity.
Defined.

(** ** The tables *)

Lemma map_emplace_lookup `{Countable K} {A} (k x : K) (v : A) m :
  map_emplace k v m !! x =
    match m !! x with Some y => Some y | None => if decide (k = x) then Some v else None end.
Proof.
  unfold map_emplace. destruct (m !! k) eqn:E.
  - destruct (m !! x) eqn:E'; [done|]. case_decide; congruence.
  - destruct (decide (k = x)) as [->|]; [by rewrite lookup_insert_eq, E|].
    rewrite lookup_insert_ne by done. by destruct (m !! x).
Qed.

(** The entries of a kind, with their keys. *)
Definition agent_entry (d : Decl) : option (string * AgentDecl) :=
  match d with
  | DAgent a => Some (symbol_canonical_name (agent_symbol_ref a) (agent_name a), a)
  | _ => None
  end.
Definition flow_entry (d : Decl) : option (string * FlowDecl) :=
  match d with DFlow f => Some (symbol_canonical_name (flow_target_ref f) "", f) | _ => None end.
Definition workflow_entry (d : Decl) : option (string * WorkflowDecl) :=
  match d with
  | DWorkflow w => Some (symbol_canonical_name (wf_symbol_ref w) (wf_name w), w)
  | _ => None
  end.
(** The first entry under a name. *)
Definition first_entry {A} (entry : Decl → option (string * A)) (name : string) (ds : list Decl)
    : option A :=
  head (omap (λ d, '(k, v) ← entry d; if decide (k = name) then Some v else None) ds).

Lemma rebuild_table {A} (table : ProgramIndex → gmap string A)
    (entry : Decl → option (string * A)) name program :
  (∀ d x, table (index_decl d x) =
     match entry d with Some (k, v) => map_emplace k v (table x) | None => table x end) →
  table empty_index = ∅ →
  table (rebuild program) !! name = first_entry entry name (declarations program).
Proof.
  intros Hstep Hempty. unfold rebuild, first_entry.
  assert (Hgen : ∀ ds x, table (fold_left (λ x d, index_decl d x) ds x) !! name =
    match table x !! name with
    | Some v => Some v
    | None => head (omap (λ d, '(k, v) ← entry d; if decide (k = name) then Some v else None) ds)
    end).
  { induction ds as [|d ds IH]; intros x; simpl; [by destruct (table x !! name)|].
    rewrite IH, Hstep. destruct (entry d) as [[k v]|]; simpl; [|done].
    rewrite map_emplace_lookup. destruct (table x !! name); [done|]. by case_decide. }
  rewrite Hgen, Hempty, lookup_empty. done.
Qed.

(** Looking up an agent, the flow of an agent or a workflow gives the
    first declaration of that kind with the canonical name, and nothing when
    there is none. *)
Theorem find_first_declaration program name :
  find_agent (rebuild program) name = first_entry agent_entry name (declarations program) ∧
  find_flow_for_agent (rebuild program) name = first_entry flow_entry name (declarations program) ∧
  find_workflow (rebuild program) name = first_entry workflow_entry name (declarations program).
Proof.
  split; [|split]; (apply rebuild_table; [|done]); intros [] []; done.
Qed.
