(* ===== verification/Diagnostics.v ===== *)
(** * Diagnostics (include/ahfl/base/support/diagnostics.hpp)

    [DiagnosticBag] with its cached counters.  The counters are bounded by the
    length of a vector, so they are [nat].  A diagnostic's range, source name,
    position and related notes are left at their defaults by every modelled
    emitter and are not kept. *)
From S2P Require Import Prelude.

Module DiagnosticSeverity.
Inductive t := Note | Warning | Error.
End DiagnosticSeverity.
#[export] Instance severity_eq_dec : EqDecision DiagnosticSeverity.t.
Proof. solve_decision. Defined.

Record Diagnostic := mkDiagnostic {
  severity : DiagnosticSeverity.t;
  message : string;
  code : option string }.

Record DiagnosticBag := mkBag {
  entries : list Diagnostic;
  error_count : nat;
  warning_count : nat }.

Definition empty_bag : DiagnosticBag := mkBag [] 0 0.

Definition add_diagnostic (d : Diagnostic) (b : DiagnosticBag) : DiagnosticBag :=
  match severity d with
  | DiagnosticSeverity.Error => mkBag (entries b ++ [d]) (S (error_count b)) (warning_count b)
  | DiagnosticSeverity.Warning => mkBag (entries b ++ [d]) (error_count b) (S (warning_count b))
  | DiagnosticSeverity.Note => mkBag (entries b ++ [d]) (error_count b) (warning_count b)
  end.

Definition append (b other : DiagnosticBag) : DiagnosticBag :=
  mkBag (entries b ++ entries other)
        (error_count b + error_count other) (warning_count b + warning_count other).

Definition has_error (b : DiagnosticBag) : bool := bool_decide (0 < error_count b).
Definition has_warning (b : DiagnosticBag) : bool := bool_decide (0 < warning_count b).

(** [std::move(bag.error()).message(msg).emit()] *)
Definition emit_error (msg : string) (b : DiagnosticBag) : DiagnosticBag :=
  add_diagnostic (mkDiagnostic DiagnosticSeverity.Error msg None) b.
(** ... with [.code(c)] *)
Definition emit_error_code (msg c : string) (b : DiagnosticBag) : DiagnosticBag :=
  add_diagnostic (mkDiagnostic DiagnosticSeverity.Error msg (Some c)) b.

(** ** The counters agree with the entries *)
Definition is_error (d : Diagnostic) : Prop := severity d = DiagnosticSeverity.Error.
Definition is_warning (d : Diagnostic) : Prop := severity d = DiagnosticSeverity.Warning.
#[export] Instance is_error_dec d : Decision (is_error d) := _.
#[export] Instance is_warning_dec d : Decision (is_warning d) := _.

Definition bag_ok (b : DiagnosticBag) : Prop :=
  error_count b = length (filter is_error (entries b)) ∧
  warning_count b = length (filter is_warning (entries b)).

Lemma empty_bag_ok : bag_ok empty_bag.
Proof. done. Qed.

Lemma add_diagnostic_ok d b : bag_ok b → bag_ok (add_diagnostic d b).
Proof.
  intros [He Hw]. destruct d as [s m c]. unfold bag_ok, add_diagnostic, is_error, is_warning in *.
  destruct s; simpl; rewrite !filter_app, !length_app, <- He, <- Hw; simpl; split; lia.
Qed.

Lemma append_ok b1 b2 : bag_ok b1 → bag_ok b2 → bag_ok (append b1 b2).
Proof.
  intros [He1 Hw1] [He2 Hw2]. unfold bag_ok, append; simpl.
  rewrite !filter_app, !length_app. split; congruence.
Qed.

Lemma has_error_append b1 b2 : has_error (append b1 b2) = has_error b1 || has_error b2.
Proof.
  unfold has_error, append; simpl.
  destruct (error_count b1), (error_count b2); repeat case_bool_decide; simpl; done || lia.
Qed.

Lemma has_error_emit msg b : has_error (emit_error msg b) = true.
Proof. apply bool_decide_eq_true. simpl. lia. Qed.

Lemma has_error_emit_code msg c b : has_error (emit_error_code msg c b) = true.
Proof. apply bool_decide_eq_true. simpl. lia. Qed.

Lemma has_error_empty : has_error empty_bag = false.
Proof. done. Qed.

Lemma append_empty_r b : append b empty_bag = b.
Proof. destruct b; unfold append; simpl. rewrite app_nil_r. f_equal; lia. Qed.

Lemma append_empty_l b : append empty_bag b = b.
Proof. by destruct b. Qed.

Lemma append_assoc b1 b2 b3 : append b1 (append b2 b3) = append (append b1 b2) b3.
Proof. unfold append; simpl. rewrite app_assoc. f_equal; lia. Qed.

Lemma emit_error_ok msg b : bag_ok b → bag_ok (emit_error msg b).
Proof. apply add_diagnostic_ok. Qed.
Lemma emit_error_code_ok msg c b : bag_ok b → bag_ok (emit_error_code msg c b).
Proof. apply add_diagnostic_ok. Qed.

(** A consistent bag reports an error exactly when it holds one. *)
Lemma has_error_spec b :
  bag_ok b → has_error b = true ↔ ∃ d, d ∈ entries b ∧ is_error d.
Proof.
  intros [He _]. unfold has_error. rewrite bool_decide_eq_true, He. split.
  - intros Hlt. destruct (filter is_error (entries b)) as [|d l] eqn:E; simpl in Hlt; [lia|].
    exists d. apply and_comm. apply (list_elem_of_filter is_error). rewrite E. by left.
  - intros (d & Hd & Herr).
    assert (d ∈ filter is_error (entries b)) as Hin by (by apply list_elem_of_filter).
    destruct (filter is_error (entries b)); simpl; [by apply elem_of_nil in Hin | lia].
Qed.

#[export] Hint Resolve empty_bag_ok add_diagnostic_ok append_ok emit_error_ok emit_error_code_ok : ahfl.
#[export] Hint Rewrite has_error_append has_error_emit has_error_emit_code has_error_empty : ahfl.
