(* ===== verification/Value.v ===== *)
(** * Runtime values (src/runtime/evaluator/value.{hpp,cpp})

    The variant [Value] with its eleven alternatives.  A [unique_ptr<Value>]
    is an [option]: [None] is the null pointer.  The unordered map of a
    struct's fields is the list of its entries in iteration order, with
    pairwise distinct keys ([value_ok]); no modelled operation depends on the
    order.  Doubles are binary64 ([Numeric.double]). *)
From S2P Require Import Prelude Numeric.

Inductive Value :=
  | NoneValue
  | BoolValue (value : bool)
  | IntValue (value : Z)
  | FloatValue (value : double)
  | StringValue (value : string)
  | DecimalValue (spelling : string)
  | DurationValue (spelling : string)
  | StructValue (type_name : string) (fields : list (string * option Value))
  | ListValue (items : list (option Value))
  | EnumValue (enum_name variant : string)
  | OptionalValue (inner : option Value).

Module ValueKind.
Inductive t :=
  | None_ | Bool | Int | Float | String_ | Decimal | Duration | Struct | List_ | Enum | Optional.
End ValueKind.

Definition value_kind (v : Value) : ValueKind.t :=
  match v with
  | NoneValue => ValueKind.None_
  | BoolValue _ => ValueKind.Bool
  | IntValue _ => ValueKind.Int
  | FloatValue _ => ValueKind.Float
  | StringValue _ => ValueKind.String_
  | DecimalValue _ => ValueKind.Decimal
  | DurationValue _ => ValueKind.Duration
  | StructValue _ _ => ValueKind.Struct
  | ListValue _ => ValueKind.List_
  | EnumValue _ _ => ValueKind.Enum
  | OptionalValue _ => ValueKind.Optional
  end.

Definition is_none (v : Value) : bool := match v with NoneValue => true | _ => false end.

(** ** The field map *)
(** [fields.find(name)] *)
Fixpoint find_field {A} (name : string) (fields : list (string * A)) : option A :=
  match fields with
  | [] => None
  | (k, v) :: r => if bool_decide (k = name) then Some v else find_field name r
  end.
(** [fields.emplace(name, v)]: does nothing when the key is present. *)
Definition emplace {A} (name : string) (v : A) (fields : list (string * A)) : list (string * A) :=
  match find_field name fields with
  | Some _ => fields
  | None => fields ++ [(name, v)]
  end.

(** ** Constructors *)
Definition make_none : Value := NoneValue.
Definition make_bool (b : bool) : Value := BoolValue b.
Definition make_int (i : Z) : Value := IntValue i.
Definition make_float (d : double) : Value := FloatValue d.
Definition make_string (s : string) : Value := StringValue s.
Definition make_decimal (s : string) : Value := DecimalValue s.
Definition make_duration (s : string) : Value := DurationValue s.
Definition make_enum (e v : string) : Value := EnumValue e v.
Definition make_optional_some (inner : Value) : Value := OptionalValue (Some inner).
Definition make_optional_none : Value := OptionalValue None.
Definition make_struct (type_name : string) (fields : list (string * Value)) : Value :=
  StructValue type_name
    (fold_left (λ acc f, emplace f.1 (Some f.2) acc) fields []).
Definition make_list (items : list Value) : Value := ListValue (Some <$> items).

(** ** Deep copy: null entries of structs and lists are dropped *)
Fixpoint clone_value (v : Value) : Value :=
  match v with
  | NoneValue => make_none
  | BoolValue b => make_bool b
  | IntValue i => make_int i
  | FloatValue d => make_float d
  | StringValue s => make_string s
  | DecimalValue s => make_decimal s
  | DurationValue s => make_duration s
  | StructValue t fields =>
      StructValue t
        ((fix go fs acc := match fs with
          | [] => acc
          | (name, Some x) :: r => go r (emplace name (Some (clone_value x)) acc)
          | (_, None) :: r => go r acc
          end) fields [])
  | ListValue items =>
      ListValue
        ((fix go l := match l with
          | [] => []
          | Some x :: r => Some (clone_value x) :: go r
          | None :: r => go r
          end) items)
  | EnumValue e s => make_enum e s
  | OptionalValue (Some x) => make_optional_some (clone_value x)
  | OptionalValue None => make_optional_none
  end.

(** ** Induction over values *)
Definition value_children (v : Value) : list Value :=
  match v with
  | StructValue _ fs => fs ≫= λ f, option_list f.2
  | ListValue l => l ≫= option_list
  | OptionalValue o => option_list o
  | _ => []
  end.

Section ValueInduction.
Context (P : Value → Prop).
Context (step : ∀ v, Forall P (value_children v) → P v).

Lemma value_induction : ∀ v, P v.
Proof.
  fix IH 1. intros v. apply step.
  destruct v as [| | | | | | |t fs|l| |o]; simpl; try apply Forall_nil_2.
  - induction fs as [|[n [x|]] fs IHfs]; simpl;
      [apply Forall_nil_2 | constructor; [apply IH | exact IHfs] | exact IHfs].
  - induction l as [|[x|] l IHl]; simpl;
      [apply Forall_nil_2 | constructor; [apply IH | exact IHl] | exact IHl].
  - destruct o as [x|]; simpl; [apply Forall_singleton, IH | apply Forall_nil_2].
Qed.
End ValueInduction.

(** ** Well-formed values: no null entry, distinct field names, int64 range *)
Inductive value_ok : Value → Prop :=
  | ok_none : value_ok NoneValue
  | ok_bool b : value_ok (BoolValue b)
  | ok_int i : in_int64 i = true → value_ok (IntValue i)
  | ok_float d : value_ok (FloatValue d)
  | ok_string s : value_ok (StringValue s)
  | ok_decimal s : value_ok (DecimalValue s)
  | ok_duration s : value_ok (DurationValue s)
  | ok_struct t fs :
      NoDup fs.*1 → Forall (λ f, ∃ x, f.2 = Some x ∧ value_ok x) fs → value_ok (StructValue t fs)
  | ok_list l : Forall (λ o, ∃ x, o = Some x ∧ value_ok x) l → value_ok (ListValue l)
  | ok_enum e s : value_ok (EnumValue e s)
  | ok_optional_none : value_ok (OptionalValue None)
  | ok_optional_some x : value_ok x → value_ok (OptionalValue (Some x)).
#[export] Hint Constructors value_ok : ahfl.

(** ** Lemmas on the field map *)
Section Fields.
Context {A : Type}.
Implicit Types (fs : list (string * A)).

Lemma find_field_None name fs : find_field name fs = None ↔ name ∉ fs.*1.
Proof.
  induction fs as [|[k v] fs IH]; simpl; [split; [intros _; apply not_elem_of_nil | done]|].
  rewrite not_elem_of_cons, <- IH. case_bool_decide; intuition congruence.
Qed.

Lemma find_field_Some name v fs : find_field name fs = Some v → (name, v) ∈ fs.
Proof.
  induction fs as [|[k x] fs IH]; simpl; [done|].
  case_bool_decide; intros ?; simplify_eq; [by left | right; auto].
Qed.

Lemma find_field_elem name v fs :
  NoDup fs.*1 → (name, v) ∈ fs → find_field name fs = Some v.
Proof.
  induction fs as [|[k x] fs IH]; simpl; intros Hnd Hin; [by apply elem_of_nil in Hin|].
  apply NoDup_cons in Hnd as [Hk Hnd]. apply elem_of_cons in Hin as [[= <- <-]|Hin].
  - by rewrite bool_decide_true.
  - rewrite bool_decide_false; [by apply IH|]. intros ->. apply Hk.
    apply list_elem_of_fmap. by exists (name, v).
Qed.

Lemma find_field_app name fs1 fs2 :
  find_field name (fs1 ++ fs2) =
    match find_field name fs1 with Some v => Some v | None => find_field name fs2 end.
Proof. induction fs1 as [|[k v] fs1 IH]; simpl; [done|]. by case_bool_decide. Qed.

Lemma find_field_emplace name k (v : A) fs :
  find_field name (emplace k v fs) =
    match find_field name fs with
    | Some x => Some x
    | None => if bool_decide (k = name) then Some v else None
    end.
Proof.
  unfold emplace. destruct (find_field k fs) eqn:E.
  - destruct (find_field name fs) eqn:E'; [done|]. case_bool_decide; naive_solver.
  - rewrite find_field_app. done.
Qed.

Lemma emplace_NoDup k (v : A) fs : NoDup fs.*1 → NoDup (emplace k v fs).*1.
Proof.
  unfold emplace. destruct (find_field k fs) eqn:E; [done|]. intros Hnd.
  apply find_field_None in E. rewrite fmap_app. simpl. apply NoDup_app. split; [done|].
  split; [|apply NoDup_singleton]. intros x Hx ->%list_elem_of_singleton. done.
Qed.

Lemma emplace_elem f k (v : A) fs : f ∈ emplace k v fs → f ∈ fs ∨ f = (k, v).
Proof.
  unfold emplace. destruct (find_field k fs); [by left|].
  rewrite elem_of_app, list_elem_of_singleton. done.
Qed.

(** Emplacing fresh keys one after the other appends them in order. *)
Lemma emplace_fresh {B} (g : B → A) (l : list (string * B)) acc :
  NoDup (acc.*1 ++ l.*1) →
  fold_left (λ a f, emplace f.1 (g f.2) a) l acc = acc ++ ((λ f, (f.1, g f.2)) <$> l).
Proof.
  revert acc. induction l as [|[k b] l IH]; simpl; intros acc Hnd; [by rewrite app_nil_r|].
  assert (Hk : find_field k acc = None).
  { apply find_field_None. intros Hin. apply NoDup_app in Hnd as (_ & Hd & _).
    apply (Hd k Hin). left. }
  unfold emplace at 2. rewrite Hk, IH; [by rewrite <- app_assoc|].
  rewrite fmap_app. simpl. by rewrite <- app_assoc.
Qed.
End Fields.

#[export] Hint Resolve emplace_NoDup : ahfl.

(** ** clone_value *)
Definition clone_fields (fs : list (string * option Value)) acc :=
  (fix go fs acc := match fs with
   | [] => acc
   | (name, Some x) :: r => go r (emplace name (Some (clone_value x)) acc)
   | (_, None) :: r => go r acc
   end) fs acc.

Lemma clone_fields_eq fs acc :
  Forall (λ f, ∃ x, f.2 = Some x ∧ clone_value x = x) fs →
  clone_fields fs acc = fold_left (λ a f, emplace f.1 f.2 a) fs acc.
Proof.
  revert acc. induction fs as [|[k o] fs IH]; simpl; intros acc Hall; [done|].
  apply Forall_cons in Hall as [(x & Hx & Hcl) Hall]. simpl in Hx. subst o.
  simpl. rewrite Hcl. by apply IH.
Qed.

(** Cloning a well-formed value returns an equal value. *)
Lemma clone_value_id v : value_ok v → clone_value v = v.
Proof.
  induction v as [v IH] using value_induction. intros Hok.
  destruct Hok as [| | | | | | |t fs Hnd Hall|l Hall| | |x Hx]; try done; simpl.
  - f_equal. change (clone_fields fs [] = fs). simpl in IH.
    rewrite clone_fields_eq.
    + etrans; [apply (emplace_fresh (λ x, x) fs []); done|]. simpl.
      clear. induction fs as [|[??] ? IH]; simpl; [done | by f_equal].
    + induction Hall as [|[k o] fs (x & Hx & Hok) Hall IHl]; [constructor|].
      simpl in Hx. subst o. simpl in IH. apply Forall_cons in IH as [IHx IHfs].
      apply NoDup_cons in Hnd as [_ Hnd]. constructor; [by eauto | by apply IHl].
  - f_equal. simpl in IH. induction Hall as [|o l (x & -> & Hok) Hall IHl]; [done|].
    simpl in IH. apply Forall_cons in IH as [IHx IHrest].
    rewrite (IHx Hok). f_equal. by apply IHl.
  - simpl in IH. apply Forall_cons in IH as [IH _]. unfold make_optional_some. by rewrite (IH Hx).
Qed.
