(* ===== verification/EvalContext.v ===== *)
(** * Variable scopes (src/runtime/evaluator/eval_context.{hpp,cpp})

    Four scopes of unordered maps; every read returns a deep copy. *)
From S2P Require Import Prelude Numeric Value.

Record EvalContext := mkEvalContext {
  input_scope : gmap string Value;
  ctx_scope : gmap string Value;
  node_output_scope : gmap string (gmap string Value);
  local_scope : gmap string Value }.

Definition empty_context : EvalContext := mkEvalContext ∅ ∅ ∅ ∅.

Definition set_input (name : string) (v : Value) (c : EvalContext) : EvalContext :=
  mkEvalContext (<[name := v]> (input_scope c)) (ctx_scope c) (node_output_scope c) (local_scope c).
Definition get_input (name : string) (c : EvalContext) : option Value :=
  clone_value <$> input_scope c !! name.

Definition set_ctx (name : string) (v : Value) (c : EvalContext) : EvalContext :=
  mkEvalContext (input_scope c) (<[name := v]> (ctx_scope c)) (node_output_scope c) (local_scope c).
Definition get_ctx (name : string) (c : EvalContext) : option Value :=
  clone_value <$> ctx_scope c !! name.

(** [node_output_scope_[node]] creates the inner map when it is missing. *)
Definition set_node_output (node field : string) (v : Value) (c : EvalContext) : EvalContext :=
  let inner := default ∅ (node_output_scope c !! node) in
  mkEvalContext (input_scope c) (ctx_scope c)
    (<[node := <[field := v]> inner]> (node_output_scope c)) (local_scope c).
Definition get_node_output (node field : string) (c : EvalContext) : option Value :=
  match node_output_scope c !! node with
  | None => None
  | Some inner => clone_value <$> inner !! field
  end.

Definition bind_local (name : string) (v : Value) (c : EvalContext) : EvalContext :=
  mkEvalContext (input_scope c) (ctx_scope c) (node_output_scope c) (<[name := v]> (local_scope c)).
Definition get_local (name : string) (c : EvalContext) : option Value :=
  clone_value <$> local_scope c !! name.

Definition lookup_path (root member : string) (c : EvalContext) : option Value :=
  if bool_decide (root = "input") then get_input member c
  else if bool_decide (root = "ctx") then get_ctx member c
  else get_node_output root member c.

(** ** Well-formed contexts hold well-formed values *)
Record context_ok (c : EvalContext) : Prop := {
  input_ok : map_Forall (λ _, value_ok) (input_scope c);
  ctx_ok : map_Forall (λ _, value_ok) (ctx_scope c);
  outputs_ok : map_Forall (λ _ m, map_Forall (λ _, value_ok) m) (node_output_scope c);
  locals_ok : map_Forall (λ _, value_ok) (local_scope c) }.

Lemma empty_context_ok : context_ok empty_context.
Proof. split; simpl; apply map_Forall_empty. Qed.

Lemma set_input_ok name v c : value_ok v → context_ok c → context_ok (set_input name v c).
Proof. intros Hv []. split; simpl; try done; by apply map_Forall_insert_2. Qed.
Lemma set_ctx_ok name v c : value_ok v → context_ok c → context_ok (set_ctx name v c).
Proof. intros Hv []. split; simpl; try done; by apply map_Forall_insert_2. Qed.
Lemma bind_local_ok name v c : value_ok v → context_ok c → context_ok (bind_local name v c).
Proof. intros Hv []. split; simpl; try done; by apply map_Forall_insert_2. Qed.
Lemma set_node_output_ok node field v c :
  value_ok v → context_ok c → context_ok (set_node_output node field v c).
Proof.
  intros Hv [Hi Hc Ho Hl]. split; simpl; try done.
  apply map_Forall_insert_2; [|done]. apply map_Forall_insert_2; [done|].
  destruct (node_output_scope c !! node) eqn:E; simpl; [by eapply Ho | apply map_Forall_empty].
Qed.
#[export] Hint Resolve empty_context_ok set_input_ok set_ctx_ok bind_local_ok set_node_output_ok
  : ahfl.

(** Reading a well-formed scope returns the stored value itself. *)
Lemma clone_lookup (m : gmap string Value) name v :
  map_Forall (λ _, value_ok) m →
  clone_value <$> m !! name = Some v ↔ m !! name = Some v.
Proof.
  intros Hm. destruct (m !! name) as [x|] eqn:E; simpl; [|done].
  rewrite clone_value_id; [done | by eapply Hm].
Qed.

Lemma get_local_ok name v c : context_ok c → get_local name c = Some v → value_ok v.
Proof. intros Hc. unfold get_local. rewrite clone_lookup by apply Hc. apply Hc. Qed.
Lemma get_input_ok name v c : context_ok c → get_input name c = Some v → value_ok v.
Proof. intros Hc. unfold get_input. rewrite clone_lookup by apply Hc. apply Hc. Qed.
Lemma get_ctx_ok name v c : context_ok c → get_ctx name c = Some v → value_ok v.
Proof. intros Hc. unfold get_ctx. rewrite clone_lookup by apply Hc. apply Hc. Qed.
Lemma get_node_output_ok n f v c : context_ok c → get_node_output n f c = Some v → value_ok v.
Proof.
  intros Hc. unfold get_node_output. destruct (_ !! n) as [m|] eqn:E; [|done].
  assert (Hm : map_Forall (λ _, value_ok) m) by (by eapply (outputs_ok c Hc)).
  rewrite clone_lookup by done. apply Hm.
Qed.
Lemma lookup_path_ok r m v c : context_ok c → lookup_path r m c = Some v → value_ok v.
Proof.
  intros Hc. unfold lookup_path. repeat case_bool_decide;
    eauto using get_input_ok, get_ctx_ok, get_node_output_ok.
Qed.
#[export] Hint Resolve get_local_ok lookup_path_ok : ahfl.

(** ** Functional behaviour: each write is visible to the matching read only *)
Section ReadWrite.
Context (c : EvalContext) (Hc : context_ok c) (v : Value) (Hv : value_ok v).

Lemma get_local_bind x y :
  get_local x (bind_local y v c) = if bool_decide (y = x) then Some v else get_local x c.
Proof.
  unfold get_local, bind_local; simpl. case_bool_decide; subst.
  - rewrite lookup_insert_eq; simpl. by rewrite clone_value_id.
  - by rewrite lookup_insert_ne.
Qed.

Lemma lookup_path_set_ctx r m y :
  lookup_path r m (set_ctx y v c) =
    if bool_decide (r = "ctx" ∧ m = y) then Some v else lookup_path r m c.
Proof.
  unfold lookup_path, get_ctx, set_ctx; simpl.
  destruct (decide (r = "input")) as [->|]; [done|].
  rewrite (bool_decide_false (r = "input")) by done.
  destruct (decide (r = "ctx")) as [->|].
  - rewrite (bool_decide_true ("ctx" = "ctx")) by done.
    destruct (decide (m = y)) as [->|].
    + rewrite bool_decide_true by done. rewrite lookup_insert_eq; simpl.
      by rewrite clone_value_id.
    + rewrite bool_decide_false by (intros ?; destruct_and?; congruence). by rewrite lookup_insert_ne.
  - rewrite !bool_decide_false by (intros ?; destruct_and?; congruence). done.
Qed.

Lemma lookup_path_set_node_output r m n f :
  r ≠ "input" → r ≠ "ctx" →
  lookup_path r m (set_node_output n f v c) =
    if bool_decide (r = n ∧ m = f) then Some v else lookup_path r m c.
Proof.
  intros Hi Hx. unfold lookup_path, get_node_output, set_node_output; simpl.
  rewrite !(bool_decide_false (r = _)) by done.
  destruct (decide (n = r)) as [->|Hnr].
  - rewrite lookup_insert_eq. destruct (decide (f = m)) as [->|Hfm].
    + rewrite lookup_insert_eq, bool_decide_true by done. simpl. by rewrite clone_value_id.
    + rewrite lookup_insert_ne, bool_decide_false by (intros ?; destruct_and?; congruence).
      by destruct (node_output_scope c !! r).
  - rewrite lookup_insert_ne, bool_decide_false by (intros ?; destruct_and?; congruence). done.
Qed.
End ReadWrite.
