(* ===== verification/Evaluator.v ===== *)
(** * The expression evaluator (src/runtime/evaluator/evaluator.{hpp,cpp})

    [eval_expr_impl] dispatches over the nineteen expression forms.  A
    capability call is delegated to the [CallEvalFn] the caller supplies; it
    may change the world [W].  Integer overflow is undefined behaviour
    ([UB]), as in the source. *)
From S2P Require Import Prelude Numeric Ir Diagnostics Value EvalContext.
From Stdlib Require Import SpecFloat Ascii.
Open Scope Z_scope.

Record EvalResult := mkEvalResult {
  er_value : Value;
  er_diagnostics : DiagnosticBag }.
Definition has_errors (r : EvalResult) : bool := has_error (er_diagnostics r).

(** [CallEvalFn]: called with the callee and argument expressions of a
    [CallExpr] and the current context. *)
Definition CallEvalFn (W : Type) : Type :=
  string → list ExprRef → EvalContext → eff W EvalResult.

Definition make_error (msg : string) : EvalResult :=
  mkEvalResult make_none (emit_error msg empty_bag).
(** [EvalResult{v, {}}] *)
Definition value_result (v : Value) : EvalResult := mkEvalResult v empty_bag.

(** ** Literals *)
Definition eval_none_literal : EvalResult := value_result make_none.
Definition eval_bool_literal (b : bool) : EvalResult := value_result (make_bool b).
Definition eval_integer_literal (spelling : string) : EvalResult :=
  match stoll spelling with
  | ConvOk v => value_result (make_int v)
  | InvalidArgument => make_error ("invalid integer format: " +:+ spelling)
  | OutOfRange => make_error ("integer out of range: " +:+ spelling)
  end.
Definition eval_float_literal (spelling : string) : EvalResult :=
  match stod spelling with
  | ConvOk v => value_result (make_float v)
  | InvalidArgument => make_error ("invalid float format: " +:+ spelling)
  | OutOfRange => make_error ("float out of range: " +:+ spelling)
  end.
Definition eval_decimal_literal (spelling : string) : EvalResult :=
  value_result (make_decimal spelling).
Definition eval_string_literal (spelling : string) : EvalResult :=
  value_result (make_string spelling).
Definition eval_duration_literal (spelling : string) : EvalResult :=
  value_result (make_duration spelling).

(** ** Paths *)
(** Walk member accesses from a value, one level at a time. *)
Fixpoint walk_members (val : Value) (ms : list string) : EvalResult :=
  match ms with
  | [] => value_result val
  | member :: ms =>
      match val with
      | StructValue _ fields =>
          match find_field member fields with
          | Some (Some x) => walk_members (clone_value x) ms
          | _ => make_error ("struct has no field: " +:+ member)
          end
      | _ => make_error ("cannot access member '" +:+ member +:+ "' on non-struct value")
      end
  end.

Definition eval_path_expr (path : Path) (ctx : EvalContext) : EvalResult :=
  match members path with
  | [] =>
      match get_local (root_name path) ctx with
      | Some v => value_result v
      | None => make_error ("unresolved path: " +:+ root_name path)
      end
  | m1 :: rest =>
      match get_local (root_name path) ctx with
      | Some v => walk_members v (m1 :: rest)
      | None =>
          match lookup_path (root_name path) m1 ctx with
          | Some v => walk_members v rest
          | None => make_error ("unresolved path: " +:+ root_name path +:+ "." +:+ m1)
          end
      end
  end.

(** ** Qualified (enum) values: split at the last "::" *)
Fixpoint rfind_colons (s : string) : option (string * string) :=
  match s with
  | EmptyString => None
  | String c r =>
      match rfind_colons r with
      | Some (a, b) => Some (String c a, b)
      | None =>
          match r with
          | String c' r' =>
              if bool_decide (c = ":"%char) && bool_decide (c' = ":"%char)
              then Some ("", r') else None
          | EmptyString => None
          end
      end
  end.
Definition eval_qualified_value_expr (value : string) : EvalResult :=
  match rfind_colons value with
  | None => value_result (make_enum "" value)
  | Some (enum_name, variant) => value_result (make_enum enum_name variant)
  end.

(** ** Operators on values *)
Definition eval_unary_op (op : ExprUnaryOp.t) (operand : EvalResult) : cxx EvalResult :=
  match op with
  | ExprUnaryOp.Not =>
      match er_value operand with
      | BoolValue b => Ret (value_result (make_bool (negb b)))
      | _ => Ret (make_error "'not' operator requires Bool operand")
      end
  | ExprUnaryOp.Negate =>
      match er_value operand with
      | IntValue i => n ← int64_neg i; Ret (value_result (make_int n))
      | FloatValue f => Ret (value_result (make_float (d_opp f)))
      | _ => Ret (make_error "'negate' operator requires Int or Float operand")
      end
  | ExprUnaryOp.Positive =>
      match er_value operand with
      | IntValue _ | FloatValue _ => Ret operand
      | _ => Ret (make_error "'+' operator requires Int or Float operand")
      end
  end.

Record NumericPair := mkNumericPair {
  both_int : bool;
  lhs_int : Z;
  rhs_int : Z;
  lhs_float : double;
  rhs_float : double }.

Definition extract_numeric (lhs rhs : Value) : option NumericPair :=
  match lhs, rhs with
  | IntValue l, IntValue r => Some (mkNumericPair true l r (d_of_Z l) (d_of_Z r))
  | IntValue l, FloatValue r => Some (mkNumericPair false 0 0 (d_of_Z l) r)
  | FloatValue l, IntValue r => Some (mkNumericPair false 0 0 l (d_of_Z r))
  | FloatValue l, FloatValue r => Some (mkNumericPair false 0 0 l r)
  | _, _ => None
  end.

Definition bool_result (b : bool) : cxx EvalResult := Ret (value_result (make_bool b)).

Definition eval_and (l r : Value) : cxx EvalResult :=
  match l, r with
  | BoolValue a, BoolValue b => bool_result (a && b)
  | _, _ => Ret (make_error "'and' requires Bool operands")
  end.
Definition eval_or (l r : Value) : cxx EvalResult :=
  match l, r with
  | BoolValue a, BoolValue b => bool_result (a || b)
  | _, _ => Ret (make_error "'or' requires Bool operands")
  end.
Definition eval_implies (l r : Value) : cxx EvalResult :=
  match l, r with
  | BoolValue a, BoolValue b => bool_result (negb a || b)
  | _, _ => Ret (make_error "'implies' requires Bool operands")
  end.

Definition eval_equal (l r : Value) : cxx EvalResult :=
  match extract_numeric l r with
  | Some nums =>
      if both_int nums then bool_result (lhs_int nums =? rhs_int nums)
      else bool_result (d_eqb (lhs_float nums) (rhs_float nums))
  | None =>
      match l, r with
      | BoolValue a, BoolValue b => bool_result (Bool.eqb a b)
      | StringValue a, StringValue b => bool_result (bool_decide (a = b))
      | EnumValue e1 v1, EnumValue e2 v2 =>
          bool_result (bool_decide (e1 = e2) && bool_decide (v1 = v2))
      | _, _ => if is_none l && is_none r then bool_result true else bool_result false
      end
  end.
Definition eval_not_equal (l r : Value) : cxx EvalResult :=
  match extract_numeric l r with
  | Some nums =>
      if both_int nums then bool_result (negb (lhs_int nums =? rhs_int nums))
      else bool_result (negb (d_eqb (lhs_float nums) (rhs_float nums)))
  | None =>
      match l, r with
      | BoolValue a, BoolValue b => bool_result (xorb a b)
      | StringValue a, StringValue b => bool_result (bool_decide (a ≠ b))
      | EnumValue e1 v1, EnumValue e2 v2 =>
          bool_result (bool_decide (e1 ≠ e2) || bool_decide (v1 ≠ v2))
      | _, _ => if is_none l && is_none r then bool_result false else bool_result true
      end
  end.

Definition eval_less (l r : Value) : cxx EvalResult :=
  match extract_numeric l r with
  | None => Ret (make_error "'<' requires numeric operands")
  | Some n => if both_int n then bool_result (lhs_int n <? rhs_int n)
              else bool_result (d_ltb (lhs_float n) (rhs_float n))
  end.
Definition eval_less_equal (l r : Value) : cxx EvalResult :=
  match extract_numeric l r with
  | None => Ret (make_error "'<=' requires numeric operands")
  | Some n => if both_int n then bool_result (lhs_int n <=? rhs_int n)
              else bool_result (d_leb (lhs_float n) (rhs_float n))
  end.
Definition eval_greater (l r : Value) : cxx EvalResult :=
  match extract_numeric l r with
  | None => Ret (make_error "'>' requires numeric operands")
  | Some n => if both_int n then bool_result (rhs_int n <? lhs_int n)
              else bool_result (d_ltb (rhs_float n) (lhs_float n))
  end.
Definition eval_greater_equal (l r : Value) : cxx EvalResult :=
  match extract_numeric l r with
  | None => Ret (make_error "'>=' requires numeric operands")
  | Some n => if both_int n then bool_result (rhs_int n <=? lhs_int n)
              else bool_result (d_leb (rhs_float n) (lhs_float n))
  end.

Definition int_result (m : cxx Z) : cxx EvalResult := i ← m; Ret (value_result (make_int i)).
Definition float_result (d : double) : cxx EvalResult := Ret (value_result (make_float d)).

Definition eval_add (l r : Value) : cxx EvalResult :=
  match extract_numeric l r with
  | None => Ret (make_error "'+' requires numeric operands")
  | Some n => if both_int n then int_result (int64_add (lhs_int n) (rhs_int n))
              else float_result (d_add (lhs_float n) (rhs_float n))
  end.
Definition eval_subtract (l r : Value) : cxx EvalResult :=
  match extract_numeric l r with
  | None => Ret (make_error "'-' requires numeric operands")
  | Some n => if both_int n then int_result (int64_sub (lhs_int n) (rhs_int n))
              else float_result (d_sub (lhs_float n) (rhs_float n))
  end.
Definition eval_multiply (l r : Value) : cxx EvalResult :=
  match extract_numeric l r with
  | None => Ret (make_error "'*' requires numeric operands")
  | Some n => if both_int n then int_result (int64_mul (lhs_int n) (rhs_int n))
              else float_result (d_mul (lhs_float n) (rhs_float n))
  end.
Definition eval_divide (l r : Value) : cxx EvalResult :=
  match extract_numeric l r with
  | None => Ret (make_error "'/' requires numeric operands")
  | Some n =>
      if both_int n then
        if rhs_int n =? 0 then Ret (make_error "division by zero")
        else int_result (int64_div (lhs_int n) (rhs_int n))
      else if d_eqb (rhs_float n) d_zero then Ret (make_error "division by zero")
      else float_result (d_div (lhs_float n) (rhs_float n))
  end.
Definition eval_modulo (l r : Value) : cxx EvalResult :=
  match extract_numeric l r with
  | None => Ret (make_error "'%' requires numeric operands")
  | Some n =>
      if both_int n then
        if rhs_int n =? 0 then Ret (make_error "modulo by zero")
        else int_result (int64_rem (lhs_int n) (rhs_int n))
      else if d_eqb (rhs_float n) d_zero then Ret (make_error "modulo by zero")
      else float_result (d_fmod (lhs_float n) (rhs_float n))
  end.

Definition eval_binary_op (op : ExprBinaryOp.t) (l r : Value) : cxx EvalResult :=
  match op with
  | ExprBinaryOp.And => eval_and l r
  | ExprBinaryOp.Or => eval_or l r
  | ExprBinaryOp.Implies => eval_implies l r
  | ExprBinaryOp.Equal => eval_equal l r
  | ExprBinaryOp.NotEqual => eval_not_equal l r
  | ExprBinaryOp.Less => eval_less l r
  | ExprBinaryOp.LessEqual => eval_less_equal l r
  | ExprBinaryOp.Greater => eval_greater l r
  | ExprBinaryOp.GreaterEqual => eval_greater_equal l r
  | ExprBinaryOp.Add => eval_add l r
  | ExprBinaryOp.Subtract => eval_subtract l r
  | ExprBinaryOp.Multiply => eval_multiply l r
  | ExprBinaryOp.Divide => eval_divide l r
  | ExprBinaryOp.Modulo => eval_modulo l r
  end.

(** [base.member] on an evaluated base: a struct field or [list.length]. *)
Definition member_of (base : Value) (member : string) : EvalResult :=
  match base with
  | StructValue _ fields =>
      match find_field member fields with
      | Some (Some x) => value_result (clone_value x)
      | _ => make_error ("struct has no field: " +:+ member)
      end
  | ListValue items =>
      if bool_decide (member = "length")
      then value_result (make_int (int64_of_size (Z.of_nat (length items))))
      else make_error ("list has no member: " +:+ member)
  | _ => make_error ("cannot access member '" +:+ member +:+ "' on this value")
  end.

(** [base[index]] on evaluated operands. *)
Definition index_of (base index : Value) : EvalResult :=
  match base with
  | ListValue items =>
      match index with
      | IntValue idx =>
          if (idx <? 0) || (Z.of_nat (length items) <=? idx)
          then make_error ("index out of bounds: " +:+ to_string idx)
          else match items !! Z.to_nat idx with
               | Some (Some x) => value_result (clone_value x)
               | _ => make_error "list item at index is null"
               end
      | _ => make_error "index must be an integer"
      end
  | _ => make_error "index access requires list base"
  end.

(** ** Compound expressions, over a recursive evaluator [rec] *)
Section Compound.
Context {W : Type} (rec : Expr → eff W EvalResult).

Definition eval_some_expr (value : ExprRef) : eff W EvalResult :=
  match value with
  | None => mret (make_error "SomeExpr has null inner expression")
  | Some e =>
      inner ← rec e;
      if has_errors inner then mret inner
      else mret (value_result (make_optional_some (er_value inner)))
  end.

(** The loop over the field initializers of a struct literal. *)
Fixpoint eval_field_inits (inits : list (string * ExprRef))
    (fields : list (string * Value)) (diagnostics : DiagnosticBag)
    : eff W (list (string * Value) * DiagnosticBag) :=
  match inits with
  | [] => mret (fields, diagnostics)
  | (name, None) :: r =>
      eval_field_inits r fields
        (emit_error ("struct field '" +:+ name +:+ "' has null initializer") diagnostics)
  | (name, Some e) :: r =>
      result ← rec e;
      let diagnostics := append diagnostics (er_diagnostics result) in
      let fields := if has_errors result then fields
                    else emplace name (er_value result) fields in
      eval_field_inits r fields diagnostics
  end.
Definition eval_struct_literal (type_name : string) (inits : list (string * ExprRef))
    : eff W EvalResult :=
  fd ← eval_field_inits inits [] empty_bag;
  if has_error fd.2 then mret (mkEvalResult make_none fd.2)
  else mret (mkEvalResult (make_struct type_name fd.1) fd.2).

(** The loop over the items of a list literal. *)
Fixpoint eval_items (item_exprs : list ExprRef)
    (items : list Value) (diagnostics : DiagnosticBag) : eff W (list Value * DiagnosticBag) :=
  match item_exprs with
  | [] => mret (items, diagnostics)
  | None :: r => eval_items r items (emit_error "list item has null expression" diagnostics)
  | Some e :: r =>
      result ← rec e;
      let diagnostics := append diagnostics (er_diagnostics result) in
      let items := if has_errors result then items else items ++ [er_value result] in
      eval_items r items diagnostics
  end.
Definition eval_list_literal (item_exprs : list ExprRef) : eff W EvalResult :=
  vd ← eval_items item_exprs [] empty_bag;
  if has_error vd.2 then mret (mkEvalResult make_none vd.2)
  else mret (mkEvalResult (make_list vd.1) vd.2).

Definition eval_unary_expr (op : ExprUnaryOp.t) (operand : ExprRef) : eff W EvalResult :=
  match operand with
  | None => mret (make_error "UnaryExpr has null operand")
  | Some e =>
      operand ← rec e;
      if has_errors operand then mret operand else ⌊ eval_unary_op op operand ⌋
  end.

(** Both operands are evaluated, left to right, whatever the operator. *)
Definition eval_binary_expr (op : ExprBinaryOp.t) (lhs rhs : ExprRef) : eff W EvalResult :=
  match lhs, rhs with
  | Some le, Some re =>
      lhs ← rec le;
      if has_errors lhs then mret lhs else
      rhs ← rec re;
      if has_errors rhs then mret rhs else
      ⌊ eval_binary_op op (er_value lhs) (er_value rhs) ⌋
  | _, _ => mret (make_error "BinaryExpr has null operand")
  end.

Definition eval_member_access (base : ExprRef) (member : string) : eff W EvalResult :=
  match base with
  | None => mret (make_error "MemberAccessExpr has null base")
  | Some e =>
      base ← rec e;
      if has_errors base then mret base else mret (member_of (er_value base) member)
  end.

Definition eval_index_access (base index : ExprRef) : eff W EvalResult :=
  match base, index with
  | Some be, Some ie =>
      base ← rec be;
      if has_errors base then mret base else
      index ← rec ie;
      if has_errors index then mret index else
      mret (index_of (er_value base) (er_value index))
  | _, _ => mret (make_error "IndexAccessExpr has null operand")
  end.
End Compound.

Definition eval_call_expr {W} (call_eval : option (CallEvalFn W)) (callee : string)
    (arguments : list ExprRef) (ctx : EvalContext) : eff W EvalResult :=
  match call_eval with
  | Some f => f callee arguments ctx
  | None => mret (make_error "CallExpr not supported in v0.51")
  end.

(** ** The dispatcher *)
Fixpoint eval_expr_impl {W} (call_eval : option (CallEvalFn W)) (ctx : EvalContext)
    (expr : Expr) : eff W EvalResult :=
  let rec := eval_expr_impl call_eval ctx in
  match expr with
  | mkExpr node _ _ _ =>
      match node with
      | NoneLiteralExpr => mret eval_none_literal
      | BoolLiteralExpr b => mret (eval_bool_literal b)
      | IntegerLiteralExpr s => mret (eval_integer_literal s)
      | FloatLiteralExpr s => mret (eval_float_literal s)
      | DecimalLiteralExpr s => mret (eval_decimal_literal s)
      | StringLiteralExpr s => mret (eval_string_literal s)
      | DurationLiteralExpr s => mret (eval_duration_literal s)
      | SomeExpr value => eval_some_expr rec value
      | PathExpr path => mret (eval_path_expr path ctx)
      | QualifiedValueExpr v => mret (eval_qualified_value_expr v)
      | CallExpr callee args => eval_call_expr call_eval callee args ctx
      | StructLiteralExpr t inits => eval_struct_literal rec t inits
      | ListLiteralExpr items => eval_list_literal rec items
      | SetLiteralExpr _ => mret (make_error "SetLiteralExpr not supported in v0.51")
      | MapLiteralExpr _ => mret (make_error "MapLiteralExpr not supported in v0.51")
      | UnaryExpr op operand => eval_unary_expr rec op operand
      | BinaryExpr op lhs rhs => eval_binary_expr rec op lhs rhs
      | MemberAccessExpr base member => eval_member_access rec base member
      | IndexAccessExpr base index => eval_index_access rec base index
      end
  end.

(** [eval_expr(expr, ctx)]: no capability calls. *)
Definition eval_expr {W} (expr : Expr) (ctx : EvalContext) : eff W EvalResult :=
  eval_expr_impl None ctx expr.
(** [eval_expr(expr, ctx, call_eval)] *)
Definition eval_expr_calls {W} (expr : Expr) (ctx : EvalContext) (f : CallEvalFn W)
    : eff W EvalResult :=
  eval_expr_impl (Some f) ctx expr.
