(* ===== verification/EvaluatorProps.v ===== *)
(** * Properties of the expression evaluator

    The result invariant, purity and totality of call-free evaluation,
    evaluation order, exact integer arithmetic, and equality. *)
From S2P Require Import Prelude Numeric Ir Diagnostics Value EvalContext Evaluator.
Open Scope Z_scope.

(** ** The invariant of a result *)
Record result_ok (r : EvalResult) : Prop := {
  result_value_ok : value_ok (er_value r);
  result_bag_ok : bag_ok (er_diagnostics r);
  result_error_none : has_errors r = true → er_value r = NoneValue }.

Lemma make_error_ok msg : result_ok (make_error msg).
Proof. split; simpl; eauto with ahfl. Qed.
Lemma value_result_ok v : value_ok v → result_ok (value_result v).
Proof. by split. Qed.
#[export] Hint Resolve make_error_ok value_result_ok result_value_ok : ahfl.

Lemma make_error_has_errors msg : has_errors (make_error msg) = true.
Proof. apply has_error_emit. Qed.
Lemma value_result_no_errors v : has_errors (value_result v) = false.
Proof. done. Qed.

Lemma stoll_range s v : stoll s = ConvOk v → in_int64 v = true.
Proof. unfold stoll. destruct (take_sign _) as [neg r]. repeat case_match; naive_solver. Qed.

Lemma int64_of_range z i : int64_of z ⇓ i → in_int64 i = true ∧ i = z.
Proof. unfold int64_of. case_match; naive_solver. Qed.

Lemma find_field_ok t fs name x :
  value_ok (StructValue t fs) → find_field name fs = Some (Some x) → value_ok x.
Proof.
  inversion 1 as [| | | | | | |? ? _ Hall| | | |]; subst. intros Hf%find_field_Some.
  rewrite Forall_forall in Hall. destruct (Hall _ Hf) as (y & Hy & Hok). by simplify_eq/=.
Qed.

Lemma list_item_ok l i x : value_ok (ListValue l) → l !! i = Some (Some x) → value_ok x.
Proof.
  inversion 1 as [| | | | | | | |? Hall| | |]; subst. intros Hl.
  rewrite Forall_lookup in Hall. destruct (Hall _ _ Hl) as (y & Hy & Hok). by simplify_eq.
Qed.

Lemma walk_members_ok ms v : value_ok v → result_ok (walk_members v ms).
Proof.
  revert v. induction ms as [|m ms IH]; simpl; intros v Hv; [auto with ahfl|].
  destruct v as [| | | | | | |t fs| | |]; auto with ahfl.
  destruct (find_field m fs) as [[x|]|] eqn:E; auto with ahfl.
  assert (Hx : value_ok x) by (by eapply find_field_ok). apply IH.
  by rewrite clone_value_id.
Qed.

Lemma eval_path_ok p ctx : context_ok ctx → result_ok (eval_path_expr p ctx).
Proof.
  intros Hctx. unfold eval_path_expr.
  destruct (members p) as [|m ms]; [|destruct (get_local _ ctx) eqn:E1];
    repeat case_match; eauto using walk_members_ok with ahfl.
Qed.

Lemma index_of_ok b i : value_ok b → value_ok i → result_ok (index_of b i).
Proof.
  intros Hb Hi. unfold index_of. repeat case_match; auto with ahfl. subst.
  assert (value_ok v) by (by eapply list_item_ok). apply value_result_ok. by rewrite clone_value_id.
Qed.

Lemma int64_of_size_range z : in_int64 (int64_of_size z) = true.
Proof.
  unfold in_int64, int64_of_size, to_size, int64_min, int64_max.
  pose proof (Z.mod_pos_bound z (2 ^ 64)). case_match; lia.
Qed.
#[export] Hint Resolve int64_of_size_range : ahfl.

Lemma member_of_ok b m : value_ok b → result_ok (member_of b m).
Proof.
  intros Hb. unfold member_of. repeat case_match; subst; auto with ahfl.
  assert (value_ok v) by (by eapply find_field_ok). apply value_result_ok. by rewrite clone_value_id.
Qed.

Lemma int_arith_ok (m : cxx Z) r :
  (∀ i, m ⇓ i → in_int64 i = true) → int_result m ⇓ r → result_ok r.
Proof. unfold int_result. intros Hm Hr. destruct m; simplify_eq/=. auto with ahfl. Qed.

Lemma eval_unary_op_ok op r r' : result_ok r → eval_unary_op op r ⇓ r' → result_ok r'.
Proof.
  intros Hr. destruct op; simpl; repeat case_match; intros Heq; simplify_eq; auto with ahfl.
  destruct (int64_neg value) as [i| |] eqn:E; simplify_eq/=.
  apply int64_of_range in E as [? ->]. auto with ahfl.
Qed.

Lemma int64_rem_range a b i :
  in_int64 b = true → int64_rem a b ⇓ i → in_int64 i = true.
Proof.
  unfold int64_rem. intros Hb Hi.
  destruct (b =? 0) eqn:Eb; [done|]. destruct (in_int64 (Z.quot a b)); [|done]. injection Hi as <-.
  assert (Hlt : Z.abs (Z.rem a b) < Z.abs b) by (apply Z.rem_bound_abs; lia).
  revert Hb. unfold in_int64, int64_min, int64_max. lia.
Qed.

Lemma eval_binary_op_ok op l r res :
  value_ok l → value_ok r → eval_binary_op op l r ⇓ res → result_ok res.
Proof.
  intros Hl Hr.
  assert (Hnum : ∀ n, extract_numeric l r = Some n →
                 in_int64 (rhs_int n) = true).
  { intros n. destruct l, r; simpl; intros; simplify_eq/=; auto; by inversion Hr. }
  destruct op; cbv [eval_binary_op eval_and eval_or eval_implies eval_equal eval_not_equal
    eval_less eval_less_equal eval_greater eval_greater_equal eval_add eval_subtract
    eval_multiply eval_divide eval_modulo bool_result float_result];
    repeat case_match; intros H'; simplify_eq; auto with ahfl;
    (eapply int_arith_ok; [|exact H']); intros i Hi;
    try (by apply int64_of_range in Hi as [? _]);
    try (eapply int64_rem_range; [|exact Hi]; auto).
  unfold int64_div in Hi. case_match; [done|]. by apply int64_of_range in Hi as [? _].
Qed.

(** ** Compound expressions keep the invariant *)
Section CompoundOk.
Context {W : Type} (rec : Expr → eff W EvalResult).
Implicit Types (o : ExprRef).

(** [rec] is good on every sub-expression that is present. *)
Definition children_post (P : EvalResult → Prop) (l : list Expr) : Prop :=
  Forall (λ e, post P (rec e)) l.

Lemma eval_field_inits_ok inits fields diags :
  children_post result_ok (inits ≫= λ f, option_list f.2) →
  bag_ok diags → NoDup fields.*1 → Forall (λ f, value_ok f.2) fields →
  post (λ fd, bag_ok fd.2 ∧ NoDup fd.1.*1 ∧ Forall (λ f, value_ok f.2) fd.1)
       (eval_field_inits rec inits fields diags).
Proof.
  revert fields diags. induction inits as [|[n [e|]] inits IH]; simpl;
    intros fields diags Hch Hd Hnd Hf; [by apply post_ret | | by apply IH; auto with ahfl].
  apply Forall_cons in Hch as [He Hch]. eapply post_bind; [exact He|].
  intros r [Hv Hb _]. apply IH; [done | by apply append_ok | |];
    destruct (has_errors r); auto with ahfl.
  apply Forall_forall. intros f [Hin| ->]%emplace_elem; [|done].
  rewrite Forall_forall in Hf. auto.
Qed.

Lemma make_struct_ok t (fields : list (string * Value)) :
  NoDup fields.*1 → Forall (λ f, value_ok f.2) fields → value_ok (make_struct t fields).
Proof.
  intros Hnd Hf. unfold make_struct. rewrite (emplace_fresh Some fields []) by done. simpl.
  constructor.
  - rewrite <- list_fmap_compose. done.
  - apply Forall_fmap. eapply Forall_impl; [exact Hf|]. simpl. eauto.
Qed.

Lemma eval_struct_literal_ok t inits :
  children_post result_ok (inits ≫= λ f, option_list f.2) →
  post result_ok (eval_struct_literal rec t inits).
Proof.
  intros Hch. unfold eval_struct_literal. eapply post_bind.
  - by apply eval_field_inits_ok; [|auto with ahfl|constructor|constructor].
  - intros [fs d] (Hd & Hnd & Hf). simpl in *.
    destruct (has_error d) eqn:E; apply post_ret; split; simpl; auto with ahfl.
    + by apply make_struct_ok.
    + unfold has_errors. simpl. congruence.
Qed.

Lemma eval_items_ok l items diags :
  children_post result_ok (l ≫= option_list) → bag_ok diags → Forall value_ok items →
  post (λ vd, bag_ok vd.2 ∧ Forall value_ok vd.1) (eval_items rec l items diags).
Proof.
  revert items diags. induction l as [|[e|] l IH]; simpl;
    intros items diags Hch Hd Hi; [by apply post_ret | | by apply IH; auto with ahfl].
  apply Forall_cons in Hch as [He Hch]. eapply post_bind; [exact He|].
  intros r [Hv Hb _]. apply IH; [done | by apply append_ok |].
  destruct (has_errors r); [done|]. apply Forall_app; auto using Forall_nil_2.
Qed.

Lemma eval_list_literal_ok l :
  children_post result_ok (l ≫= option_list) → post result_ok (eval_list_literal rec l).
Proof.
  intros Hch. unfold eval_list_literal. eapply post_bind.
  - by apply eval_items_ok; [|auto with ahfl|constructor].
  - intros [vs d] [Hd Hv]. simpl in *.
    destruct (has_error d) eqn:E; apply post_ret; split; simpl; auto with ahfl.
    + constructor. apply Forall_fmap. eapply Forall_impl; [exact Hv|]. simpl. eauto.
    + unfold has_errors. simpl. congruence.
Qed.

(** An operand is evaluated; its error is the result, otherwise [f] goes on. *)
Lemma operand_ok e f :
  post result_ok (rec e) → (∀ r, result_ok r → post result_ok (f r)) →
  post result_ok (r ← rec e; if has_errors r then mret r else f r).
Proof.
  intros He Hf. eapply post_bind; [exact He|]. intros r Hr.
  destruct (has_errors r); [by apply post_ret | auto].
Qed.
End CompoundOk.

(** Evaluation keeps the invariant when the calls do. *)
Lemma eval_expr_impl_post {W} (call_eval : option (CallEvalFn W)) ctx expr :
  context_ok ctx →
  (∀ callee args, post result_ok (eval_call_expr call_eval callee args ctx)) →
  post result_ok (eval_expr_impl call_eval ctx expr).
Proof.
  intros Hctx Hcall. induction expr as [[n sr t id] IH] using expr_induction. simpl in IH |- *.
  destruct n as [| | | | | | |[e|]| | | | | | | |u [e|]|b [e1|] [e2|]|[e|] m|[e1|] [e2|]]; simpl;
    try (apply post_ret; solve [by apply value_result_ok; constructor | apply make_error_ok
                               | by apply eval_path_ok]).
  - apply post_ret. unfold eval_integer_literal.
    case_match; eauto using stoll_range with ahfl.
  - apply post_ret. unfold eval_float_literal. case_match; auto with ahfl.
  - apply Forall_cons in IH as [He _]. apply operand_ok; [exact He|]. intros r Hr.
    apply post_ret, value_result_ok. constructor. apply Hr.
  - apply post_ret. unfold eval_qualified_value_expr. repeat case_match; apply value_result_ok; constructor.
  - apply Hcall.
  - by apply eval_struct_literal_ok.
  - by apply eval_list_literal_ok.
  - apply Forall_cons in IH as [He _]. apply operand_ok; [exact He|]. intros r Hr.
    apply post_lift. eauto using eval_unary_op_ok.
  - apply Forall_cons in IH as [H1 IH]. apply Forall_cons in IH as [H2 _].
    apply operand_ok; [exact H1|]. intros r1 Hr1. apply operand_ok; [exact H2|]. intros r2 Hr2.
    apply post_lift. intros r. apply eval_binary_op_ok; auto with ahfl.
  - apply Forall_cons in IH as [He _]. apply operand_ok; [exact He|]. intros r Hr.
    apply post_ret. apply member_of_ok; auto with ahfl.
  - apply Forall_cons in IH as [H1 IH]. apply Forall_cons in IH as [H2 _].
    apply operand_ok; [exact H1|]. intros r1 Hr1. apply operand_ok; [exact H2|]. intros r2 Hr2.
    apply post_ret. apply index_of_ok; auto with ahfl.
Qed.

(** C1: evaluating an expression in a well-formed context gives a well-formed
    result: the value has no null entry, no duplicate field and only 64-bit
    integers, the diagnostic counters agree with the entries, and a result
    with an error carries no value; provided capability calls do so too. *)
Theorem eval_expr_impl_ok {W} (call_eval : option (CallEvalFn W)) ctx expr :
  context_ok ctx →
  (∀ callee args, post result_ok (eval_call_expr call_eval callee args ctx)) →
  post result_ok (eval_expr_impl call_eval ctx expr).
Proof. apply eval_expr_impl_post. Qed.

Lemma eval_expr_impl_ok_witness :
  result_ok (value_result (IntValue 3)) ∧
  @eval_expr_impl unit None empty_context (bare (IntegerLiteralExpr "3")) tt
    = Ret (value_result (IntValue 3), tt).
Proof.
  split; [|vm_compute; reflexivity].
  refine (eval_expr_impl_ok (W := unit) None empty_context (bare (IntegerLiteralExpr "3"))
    empty_context_ok _ tt _ tt _); [|vm_compute; reflexivity].
  intros callee args. apply post_ret, make_error_ok.
Defined.

(** ** Purity and totality *)

(** A class of computations closed under the monad's operations. *)
Class EffClosed {W} (Q : ∀ A, eff W A → Prop) : Prop := {
  closed_ret A (a : A) : Q A (mret a);
  closed_lift A (c : cxx A) : c ≠ NoFuel → Q A (lift c);
  closed_bind A B (m : eff W A) (f : A → eff W B) :
    Q A m → (∀ a, Q B (f a)) → Q B (m ≫= f) }.

#[export] Instance total_closed {W} : EffClosed (λ A, @total W A).
Proof. split; intros; auto with ahfl. Qed.
#[export] Instance pure_closed {W} : EffClosed (λ A, @pure_eff W A).
Proof. split; intros; auto with ahfl. Qed.
(** Computations that never reach the end of their fuel and touch no state. *)
#[export] Instance conj_closed {W} Q1 Q2 :
  @EffClosed W Q1 → EffClosed Q2 → EffClosed (λ A m, Q1 A m ∧ Q2 A m).
Proof.
  intros H1 H2. split.
  - intros. split; apply closed_ret.
  - intros. split; by apply closed_lift.
  - intros A B m f [Hm1 Hm2] Hf. split; apply closed_bind; auto; intros a; apply Hf.
Qed.

Lemma int_result_fuel m : m ≠ NoFuel → int_result m ≠ NoFuel.
Proof. by destruct m. Qed.

Lemma eval_unary_op_fuel op r : eval_unary_op op r ≠ NoFuel.
Proof.
  destruct op; simpl; repeat case_match; try done. unfold int64_neg, int64_of. by case_match.
Qed.

Lemma eval_binary_op_fuel op l r : eval_binary_op op l r ≠ NoFuel.
Proof.
  destruct op; cbv [eval_binary_op eval_and eval_or eval_implies eval_equal eval_not_equal
    eval_less eval_less_equal eval_greater eval_greater_equal eval_add eval_subtract
    eval_multiply eval_divide eval_modulo bool_result float_result];
    repeat case_match; try done; apply int_result_fuel; try apply int64_of_fuel.
  - unfold int64_div. case_match; [done | apply int64_of_fuel].
  - unfold int64_rem. by repeat case_match.
Qed.

Section Closed.
Context {W : Type} (Q : ∀ A, eff W A → Prop) `{HQ : !EffClosed Q}.
Context (call_eval : option (CallEvalFn W)) (ctx : EvalContext).

Lemma closed_if {A} (b : bool) (m1 m2 : eff W A) :
  Q A m1 → Q A m2 → Q A (if b then m1 else m2).
Proof. by destruct b. Qed.

Lemma eval_field_inits_closed rec inits fields diags :
  Forall (λ e, Q _ (rec e)) (inits ≫= λ f, option_list f.2) →
  Q _ (eval_field_inits rec inits fields diags).
Proof.
  revert fields diags. induction inits as [|[n [e|]] inits IH]; simpl; intros fields diags Hch;
    [apply closed_ret | | by apply IH].
  apply Forall_cons in Hch as [He Hch]. apply closed_bind; [exact He|]. intros r. by apply IH.
Qed.

Lemma eval_items_closed rec l items diags :
  Forall (λ e, Q _ (rec e)) (l ≫= option_list) → Q _ (eval_items rec l items diags).
Proof.
  revert items diags. induction l as [|[e|] l IH]; simpl; intros items diags Hch;
    [apply closed_ret | | by apply IH].
  apply Forall_cons in Hch as [He Hch]. apply closed_bind; [exact He|]. intros r. by apply IH.
Qed.

(** One level: closed on the sub-expressions and, for a call, on the call. *)
Lemma eval_node_closed n sr t id :
  Forall (λ e, Q _ (eval_expr_impl call_eval ctx e)) (children n) →
  (∀ callee args, n = CallExpr callee args → Q _ (eval_call_expr call_eval callee args ctx)) →
  Q _ (eval_expr_impl call_eval ctx (mkExpr n sr t id)).
Proof.
  intros IH Hcall.
  destruct n as [| | | | | | |[e|]| | | | | | | |u [e|]|b [e1|] [e2|]|[e|] m|[e1|] [e2|]];
    simpl in IH |- *; try (apply closed_ret; fail).
  all: try (apply Forall_cons in IH as [H1 IH]; apply closed_bind; [exact H1|]; intros r1;
    apply closed_if; [apply closed_ret|]).
  - apply closed_ret.
  - by apply Hcall.
  - apply closed_bind; [by apply eval_field_inits_closed|]. intros fd.
    apply closed_if; apply closed_ret.
  - apply closed_bind; [by apply eval_items_closed|]. intros fd.
    apply closed_if; apply closed_ret.
  - apply closed_lift, eval_unary_op_fuel.
  - apply Forall_cons in IH as [H2 _]. apply closed_bind; [exact H2|]. intros r2.
    apply closed_if; [apply closed_ret | apply closed_lift, eval_binary_op_fuel].
  - apply closed_ret.
  - apply Forall_cons in IH as [H2 _]. apply closed_bind; [exact H2|]. intros r2.
    apply closed_if; apply closed_ret.
Qed.

(** The evaluator stays in the class when its capability calls do. *)
Lemma eval_expr_closed expr :
  (∀ callee args, Q _ (eval_call_expr call_eval callee args ctx)) →
  Q _ (eval_expr_impl call_eval ctx expr).
Proof.
  intros Hcall. induction expr as [[n sr t id] IH] using expr_induction.
  by apply eval_node_closed.
Qed.
End Closed.


(** Evaluation with calls terminates whenever the calls do. *)
Lemma eval_expr_total {W} (call_eval : option (CallEvalFn W)) ctx expr :
  (∀ callee args, total (eval_call_expr call_eval callee args ctx)) →
  total (eval_expr_impl call_eval ctx expr).
Proof. intros Hc. by apply (eval_expr_closed (λ A, @total W A)). Qed.

(** ** Integer arithmetic *)
Lemma int_operands a b :
  extract_numeric (IntValue a) (IntValue b) =
    Some (mkNumericPair true a b (d_of_Z a) (d_of_Z b)).
Proof. done. Qed.

Lemma quot_in_int64 a b :
  in_int64 a = true → b ≠ 0 →
  in_int64 (Z.quot a b) = negb ((a =? int64_min) && (b =? -1)).
Proof.
  intros Ha Hb. destruct (Z.eq_dec b (-1)) as [->|Hb1].
  - replace (Z.quot a (-1)) with (- a) by (apply (Z.quot_unique_exact a (-1)); lia).
    revert Ha. unfold in_int64, int64_min, int64_max. lia.
  - destruct (Z.eq_dec b 1) as [->|Hb2]; [rewrite Z.quot_1_r; rewrite Ha; lia|].
    assert (2 * Z.abs (Z.quot a b) <= Z.abs a).
    { rewrite <- Z.quot_abs by lia.
      pose proof (Z.mul_quot_le (Z.abs a) (Z.abs b)) as Hm.
      assert (0 <= Z.quot (Z.abs a) (Z.abs b)) by (apply Z.quot_pos; lia). nia. }
    revert Ha. unfold in_int64, int64_min, int64_max. lia.
Qed.

(** C3: on 64-bit integers [+], [-] and [*] give the exact mathematical result
    and reach undefined behaviour exactly when it does not fit; [/] and [%]
    report a zero divisor, give the truncated quotient and remainder, and are
    undefined exactly for [INT64_MIN] by [-1]. *)
Theorem int_arithmetic_exact a b :
  in_int64 a = true →
  let exact z := if in_int64 z then Ret (value_result (IntValue z)) else UB in
  let l := IntValue a in let r := IntValue b in
  eval_binary_op ExprBinaryOp.Add l r = exact (a + b) ∧
  eval_binary_op ExprBinaryOp.Subtract l r = exact (a - b) ∧
  eval_binary_op ExprBinaryOp.Multiply l r = exact (a * b) ∧
  eval_binary_op ExprBinaryOp.Divide l r =
    (if b =? 0 then Ret (make_error "division by zero")
     else if (a =? int64_min) && (b =? -1) then UB
     else Ret (value_result (IntValue (Z.quot a b)))) ∧
  eval_binary_op ExprBinaryOp.Modulo l r =
    (if b =? 0 then Ret (make_error "modulo by zero")
     else if (a =? int64_min) && (b =? -1) then UB
     else Ret (value_result (IntValue (Z.rem a b)))).
Proof.
  intros Ha exact l r. subst exact l r. simpl.
  unfold eval_add, eval_subtract, eval_multiply, eval_divide, eval_modulo.
  rewrite int_operands; simpl.
  unfold int_result, int64_add, int64_sub, int64_mul, int64_div, int64_rem, int64_of.
  do 3 (split; [by case_match|]).
  destruct (b =? 0) eqn:Hb; [done|]. apply Z.eqb_neq in Hb. rewrite (quot_in_int64 a b Ha Hb).
  by destruct ((a =? int64_min) && (b =? -1)).
Qed.

Lemma int_arithmetic_exact_witness :
  eval_binary_op ExprBinaryOp.Multiply (IntValue int64_max) (IntValue 2) = UB ∧
  eval_binary_op ExprBinaryOp.Modulo (IntValue (-7)) (IntValue 2)
    = Ret (value_result (IntValue (-1))).
Proof.
  destruct (int_arithmetic_exact int64_max 2 eq_refl) as (_ & _ & Hm & _).
  destruct (int_arithmetic_exact (-7) 2 eq_refl) as (_ & _ & _ & _ & Hr).
  split; [exact Hm | exact Hr].
Defined.

(** ** Equality *)

(** [!=] is the exact negation of [==] on every pair of values. *)
Theorem not_equal_negates_equal l r :
  ∃ b, eval_binary_op ExprBinaryOp.Equal l r = Ret (value_result (BoolValue b)) ∧
       eval_binary_op ExprBinaryOp.NotEqual l r = Ret (value_result (BoolValue (negb b))).
Proof.
  simpl. unfold eval_equal, eval_not_equal, bool_result, make_bool.
  destruct (extract_numeric l r) as [n|]; [destruct (both_int n); eauto|].
  destruct l, r; simpl; eauto.
  - eexists. split; [done|]. do 2 f_equal. by destruct value, value0.
  - eexists. split; [done|]. rewrite bool_decide_not. done.
  - eexists. split; [done|]. rewrite negb_andb, !bool_decide_not. done.
Qed.

(** The kinds of value [==] compares: on the others it is always false. *)
Definition comparable_kind (v : Value) : bool :=
  match v with
  | NoneValue | BoolValue _ | IntValue _ | StringValue _ | EnumValue _ _ => true
  | FloatValue d => d_eqb d d
  | _ => false
  end.

(** A value equals itself only when it is none, a Bool, an Int, a String,
    an enum value or a Float that is not NaN: a Decimal, Duration, Optional,
    List or Struct value is not even equal to an identical copy. *)
Theorem equal_reflexive_only_on_scalars v :
  eval_binary_op ExprBinaryOp.Equal v v = Ret (value_result (BoolValue (comparable_kind v))).
Proof.
  destruct v; simpl; unfold eval_equal, bool_result, make_bool; simpl; try done.
  - by destruct value.
  - by rewrite Z.eqb_refl.
  - by rewrite bool_decide_true.
  - by rewrite !bool_decide_true.
Qed.

(** ** Evaluation order *)

(** Every binary operator, [and], [or] and [implies] included, evaluates its
    right operand whatever the value of the left one: an error of the right
    operand is the result, even when the left operand alone decides the value. *)
Theorem logical_operators_are_strict {W} (ce : option (CallEvalFn W)) ctx op a b w b0 w1 r w2 :
  eval_expr_impl ce ctx a w ⇓ (value_result (BoolValue b0), w1) →
  eval_expr_impl ce ctx b w1 ⇓ (r, w2) →
  has_errors r = true →
  eval_expr_impl ce ctx (bare (BinaryExpr op (Some a) (Some b))) w ⇓ (r, w2).
Proof.
  intros Ha Hb Hr. simpl. rewrite (eff_bind_eq _ _ _ _ _ Ha). simpl.
  rewrite (eff_bind_eq _ _ _ _ _ Hb). by rewrite Hr.
Qed.

Lemma logical_operators_are_strict_witness :
  eval_expr_impl (None : option (CallEvalFn unit)) empty_context
    (bare (BinaryExpr ExprBinaryOp.And (Some (bare (BoolLiteralExpr false)))
       (Some (bare (PathExpr (mkPath PathRootKind.Identifier "x" [])))))) tt
  = Ret (make_error "unresolved path: x", tt).
Proof.
  apply (logical_operators_are_strict None empty_context ExprBinaryOp.And _ _ tt false tt);
    reflexivity.
Defined.

(** The successive results of a list of expressions, the world threaded from
    left to right. *)
Inductive eval_all {W} (ev : Expr → eff W EvalResult) : W → list Expr → W → list EvalResult → Prop :=
  | eval_all_nil w : eval_all ev w [] w []
  | eval_all_cons w e w1 r es w2 rs :
      ev e w ⇓ (r, w1) → eval_all ev w1 es w2 rs → eval_all ev w (e :: es) w2 (r :: rs).
#[export] Hint Constructors eval_all : ahfl.

Definition bags (rs : list EvalResult) : DiagnosticBag :=
  foldr (λ r b, append (er_diagnostics r) b) empty_bag rs.

Lemma bags_cons r rs : bags (r :: rs) = append (er_diagnostics r) (bags rs).
Proof. done. Qed.

Lemma has_error_bags rs : has_error (bags rs) = existsb has_errors rs.
Proof. induction rs as [|r rs IH]; simpl; [done|]. by rewrite has_error_append, IH. Qed.

Lemma eval_items_spec {W} (ev : Expr → eff W EvalResult) es items d w out w' :
  eval_items ev (Some <$> es) items d w ⇓ (out, w') ↔
  ∃ rs, eval_all ev w es w' rs ∧
    out = (items ++ (er_value <$> base.filter (λ r, has_errors r = false) rs), append d (bags rs)).
Proof.
  revert items d w. induction es as [|e es IH]; intros items d w; simpl.
  - split.
    + intros [= <- <-]. exists []. split; [constructor|]. by rewrite app_nil_r, append_empty_r.
    + intros (rs & Hall & ->). inversion Hall; subst. by rewrite app_nil_r, append_empty_r.
  - assert (Hcons : ∀ r rs, er_value <$> base.filter (λ r, has_errors r = false) (r :: rs) =
      (if has_errors r then [] else [er_value r]) ++
      (er_value <$> base.filter (λ r, has_errors r = false) rs)).
    { intros r rs. rewrite filter_cons. by destruct (has_errors r). }
    assert (Hitems : ∀ r l, (if has_errors r then items else items ++ [er_value r]) ++ l =
      items ++ (if has_errors r then [] else [er_value r]) ++ l).
    { intros r l. destruct (has_errors r); [done | by rewrite <- app_assoc]. }
    split.
    + intros H. inv_eff H. apply IH in H as (rs & Hall & ->). eexists (_ :: rs).
      split; [by econstructor|]. by rewrite Hcons, Hitems, bags_cons, append_assoc.
    + intros (rs & Hall & ->). inversion Hall as [|? ? w1 r ? ? rs' He Hall']; subst.
      rewrite (eff_bind_eq _ _ _ _ _ He). apply IH. exists rs'. split; [done|].
      by rewrite Hcons, Hitems, bags_cons, append_assoc.
Qed.

(** A list literal evaluates all its items from left to right, an error in
    one of them does not stop the others; its value is the list of their
    values in order, or none as soon as one item fails; its diagnostics are
    those of all the items. *)
Theorem list_literal_spec {W} (ce : option (CallEvalFn W)) ctx es w r w' :
  eval_expr_impl ce ctx (bare (ListLiteralExpr (Some <$> es))) w ⇓ (r, w') ↔
  ∃ rs, eval_all (eval_expr_impl ce ctx) w es w' rs ∧
    r = mkEvalResult
          (if existsb has_errors rs then NoneValue
           else ListValue ((λ r, Some (er_value r)) <$> rs)) (bags rs).
Proof.
  assert (Hok : ∀ rs, existsb has_errors rs = false →
                base.filter (λ r, has_errors r = false) rs = rs).
  { induction rs as [|r0 rs IH]; simpl; intros Hrs; [done|]. apply orb_false_iff in Hrs as [H1 H2].
    rewrite filter_cons_True by done. by rewrite IH. }
  change (eval_list_literal (eval_expr_impl ce ctx) (Some <$> es) w ⇓ (r, w') ↔
    ∃ rs, eval_all (eval_expr_impl ce ctx) w es w' rs ∧
      r = mkEvalResult
            (if existsb has_errors rs then NoneValue
             else ListValue ((λ r, Some (er_value r)) <$> rs)) (bags rs)).
  assert (Hval : ∀ rs, make_list ([] ++ (er_value <$> rs)) =
                       ListValue ((λ r, Some (er_value r)) <$> rs)).
  { intros rs. unfold make_list. simpl. by rewrite <- list_fmap_compose. }
  unfold eval_list_literal. split.
  - intros H. inv_eff H. apply eval_items_spec in E as (rs & Hall & ->). exists rs.
    split; [destruct (has_error _); by injection H as _ <-|]. simpl in H.
    rewrite append_empty_l, has_error_bags in H.
    destruct (existsb has_errors rs) eqn:Ers; injection H as <- _; [done|].
    rewrite (Hok rs Ers). f_equal. apply Hval.
  - intros (rs & Hall & ->). rewrite (eff_bind_eq _ _ _ _ _ (proj2
      (eval_items_spec _ _ [] empty_bag _ _ _) (ex_intro _ rs (conj Hall eq_refl)))). simpl.
    rewrite append_empty_l, has_error_bags.
    destruct (existsb has_errors rs) eqn:Ers; [done|]. rewrite (Hok rs Ers). specialize (Hval rs). simpl in Hval.
    by rewrite Hval.
Qed.

Lemma list_literal_spec_witness :
  eval_expr_impl (None : option (CallEvalFn unit)) empty_context
    (bare (ListLiteralExpr [Some (bare (BoolLiteralExpr true))])) tt
  = Ret (value_result (ListValue [Some (BoolValue true)]), tt).
Proof.
  refine (proj2 (list_literal_spec None empty_context [bare (BoolLiteralExpr true)] tt _ tt) _).
  exists [value_result (BoolValue true)]. split; [|reflexivity].
  apply (eval_all_cons _ tt _ tt); [reflexivity | apply eval_all_nil].
Defined.

(** ** Congruence

    Evaluation with two call evaluators agrees when it agrees on the direct
    sub-expressions and on the call itself. *)
Lemma eff_bind_ext {W A B} (m1 m2 : eff W A) (f1 f2 : A → eff W B) w :
  m1 w = m2 w → (∀ a w, f1 a w = f2 a w) → (m1 ≫= f1) w = (m2 ≫= f2) w.
Proof. intros Hm Hf. unfold mbind, eff_bind. rewrite Hm. destruct (m2 w) as [[a w']| |]; auto. Qed.

Section Congruence.
Context {W : Type} (rec1 rec2 : Expr → eff W EvalResult).
Definition agree (l : list Expr) : Prop := Forall (λ e, ∀ w, rec1 e w = rec2 e w) l.

Lemma eval_field_inits_ext inits fields d w :
  agree (inits ≫= λ f, option_list f.2) →
  eval_field_inits rec1 inits fields d w = eval_field_inits rec2 inits fields d w.
Proof.
  revert fields d w. induction inits as [|[n [e|]] inits IH]; simpl; intros fields d w Hch;
    [done | | by apply IH].
  apply Forall_cons in Hch as [He Hch]. apply eff_bind_ext; [done|]. intros. by apply IH.
Qed.

Lemma eval_items_ext l items d w :
  agree (l ≫= option_list) → eval_items rec1 l items d w = eval_items rec2 l items d w.
Proof.
  revert items d w. induction l as [|[e|] l IH]; simpl; intros items d w Hch;
    [done | | by apply IH].
  apply Forall_cons in Hch as [He Hch]. apply eff_bind_ext; [done|]. intros. by apply IH.
Qed.
End Congruence.

Lemma eval_expr_contexts {W} (ce1 ce2 : option (CallEvalFn W)) ctx1 ctx2 n sr t id w :
  agree (eval_expr_impl ce1 ctx1) (eval_expr_impl ce2 ctx2) (children n) →
  (∀ p, n = PathExpr p → eval_path_expr p ctx1 = eval_path_expr p ctx2) →
  (∀ callee args, n = CallExpr callee args →
     ∀ w, eval_call_expr ce1 callee args ctx1 w = eval_call_expr ce2 callee args ctx2 w) →
  eval_expr_impl ce1 ctx1 (mkExpr n sr t id) w = eval_expr_impl ce2 ctx2 (mkExpr n sr t id) w.
Proof.
  intros Hch Hpath Hcall. unfold agree in Hch.
  destruct n as [| | | | | | |[e|]|path| | | | | | |u [e|]|b [e1|] [e2|]|[e|] m|[e1|] [e2|]];
    simpl in Hch |- *; try done.
  all: try (apply Forall_cons in Hch as [H1 Hch]; apply eff_bind_ext; [done|]; intros r1 w1;
    destruct (has_errors r1); [done|]).
  all: try (apply Forall_cons in Hch as [H2 _]; apply eff_bind_ext; [done|]; intros r2 w2;
    by destruct (has_errors r2)).
  all: try done.
  - by rewrite (Hpath path).
  - by apply Hcall.
  - apply eff_bind_ext; [by apply eval_field_inits_ext | done].
  - apply eff_bind_ext; [by apply eval_items_ext | done].
Qed.

Lemma eval_expr_ext {W} (ce1 ce2 : option (CallEvalFn W)) ctx n sr t id w :
  agree (eval_expr_impl ce1 ctx) (eval_expr_impl ce2 ctx) (children n) →
  (∀ callee args, n = CallExpr callee args →
     ∀ w, eval_call_expr ce1 callee args ctx w = eval_call_expr ce2 callee args ctx w) →
  eval_expr_impl ce1 ctx (mkExpr n sr t id) w = eval_expr_impl ce2 ctx (mkExpr n sr t id) w.
Proof. intros Hch Hcall. by apply eval_expr_contexts. Qed.
