(* ===== verification/Executor.v ===== *)
(** * The statement executor (src/runtime/evaluator/executor.{hpp,cpp})

    [exec_statement] and [exec_block] pass the mutable [ExecContext&] as
    state.  Properties: the context invariant, the frame of a block (inputs
    and node outputs are read-only), sequencing and early exit, totality. *)
From S2P Require Import Prelude Numeric Ir Diagnostics Value EvalContext Evaluator EvaluatorProps.

(** ** Data *)
Inductive ExecOutcome :=
  | ExecContinue
  | ExecGoto (target_state : string)
  | ExecReturn (value : Value)
  | ExecAssertFailed (message : string).

Record ExecResult := mkExecResult {
  outcome : ExecOutcome;
  xr_diagnostics : DiagnosticBag }.
Definition exec_has_errors (r : ExecResult) : bool := has_error (xr_diagnostics r).

Definition ExprEvalFn (W : Type) : Type := Expr → EvalContext → eff W EvalResult.

Record ExecContext (W : Type) := mkExecContext {
  eval_ctx : EvalContext;
  expr_eval : option (ExprEvalFn W) }.
Arguments mkExecContext {W} _ _.
Arguments eval_ctx {W} _.
Arguments expr_eval {W} _.

Definition exec_bind_local {W} (name : string) (v : Value) (c : ExecContext W) : ExecContext W :=
  mkExecContext (bind_local name v (eval_ctx c)) (expr_eval c).
Definition assign_ctx {W} (name : string) (v : Value) (c : ExecContext W) : ExecContext W :=
  mkExecContext (set_ctx name v (eval_ctx c)) (expr_eval c).
Definition eval_expression {W} (expr : Expr) (c : ExecContext W) : eff W EvalResult :=
  match expr_eval c with
  | Some f => f expr (eval_ctx c)
  | None => eval_expr expr (eval_ctx c)
  end.

Definition make_continue : ExecResult := mkExecResult ExecContinue empty_bag.
Definition make_exec_error (msg : string) : ExecResult :=
  mkExecResult ExecContinue (emit_error msg empty_bag).
(** A failed expression: its diagnostics, no control transfer. *)
Definition eval_failed (r : EvalResult) : ExecResult :=
  mkExecResult ExecContinue (er_diagnostics r).

(** ** Statements *)
Section Statements.
Context {W : Type}.
Implicit Types (ctx : ExecContext W).

Definition exec_let (name : string) (initializer : ExprRef) ctx
    : eff W (ExecResult * ExecContext W) :=
  match initializer with
  | None => mret (make_exec_error "LetStatement has null initializer", ctx)
  | Some e =>
      r ← eval_expression e ctx;
      if has_errors r then mret (eval_failed r, ctx)
      else mret (make_continue, exec_bind_local name (er_value r) ctx)
  end.

(** Only the first member of the target is used. *)
Definition exec_assign (path : Path) (value : ExprRef) ctx
    : eff W (ExecResult * ExecContext W) :=
  if negb (bool_decide (root_kind path = PathRootKind.Context)) then
    mret (make_exec_error "assignment target must be a ctx field (e.g. ctx.field)", ctx)
  else match members path with
  | [] => mret (make_exec_error "assignment target must specify a field (e.g. ctx.field)", ctx)
  | m :: _ =>
      match value with
      | None => mret (make_exec_error "AssignStatement has null value expression", ctx)
      | Some e =>
          r ← eval_expression e ctx;
          if has_errors r then mret (eval_failed r, ctx)
          else mret (make_continue, assign_ctx m (er_value r) ctx)
      end
  end.

Definition exec_return (value : ExprRef) ctx : eff W (ExecResult * ExecContext W) :=
  match value with
  | None => mret (mkExecResult (ExecReturn make_none) empty_bag, ctx)
  | Some e =>
      r ← eval_expression e ctx;
      if has_errors r then mret (eval_failed r, ctx)
      else mret (mkExecResult (ExecReturn (er_value r)) empty_bag, ctx)
  end.

Definition exec_assert (condition : ExprRef) ctx : eff W (ExecResult * ExecContext W) :=
  match condition with
  | None => mret (make_exec_error "AssertStatement has null condition", ctx)
  | Some e =>
      r ← eval_expression e ctx;
      if has_errors r then mret (eval_failed r, ctx)
      else match er_value r with
      | BoolValue true => mret (make_continue, ctx)
      | BoolValue false =>
          mret (mkExecResult (ExecAssertFailed "assertion failed") empty_bag, ctx)
      | _ => mret (make_exec_error "assert condition must evaluate to Bool", ctx)
      end
  end.

Definition exec_expr_statement (expr : ExprRef) ctx : eff W (ExecResult * ExecContext W) :=
  match expr with
  | None => mret (make_exec_error "ExprStatement has null expression", ctx)
  | Some e =>
      r ← eval_expression e ctx;
      if has_errors r then mret (eval_failed r, ctx) else mret (make_continue, ctx)
  end.

(** A result that ends the block it occurs in. *)
Definition stops (r : ExecResult) : bool :=
  exec_has_errors r || match outcome r with ExecContinue => false | _ => true end.

(** The loop of [exec_block]; null statements are skipped. *)
Section Block.
Context (exec : Statement → ExecContext W → eff W (ExecResult * ExecContext W)).
Fixpoint exec_statements (l : list (option Statement)) ctx
    : eff W (ExecResult * ExecContext W) :=
  match l with
  | [] => mret (make_continue, ctx)
  | None :: l => exec_statements l ctx
  | Some s :: l =>
      rc ← exec s ctx;
      if stops rc.1 then mret rc else exec_statements l rc.2
  end.
Definition exec_block_with (b : Block) ctx : eff W (ExecResult * ExecContext W) :=
  match b with mkBlock l _ => exec_statements l ctx end.
Definition exec_opt_block (b : option Block) ctx : eff W (ExecResult * ExecContext W) :=
  match b with Some b => exec_block_with b ctx | None => mret (make_continue, ctx) end.

Definition exec_if (condition : ExprRef) (then_block else_block : option Block) ctx
    : eff W (ExecResult * ExecContext W) :=
  match condition with
  | None => mret (make_exec_error "IfStatement has null condition", ctx)
  | Some e =>
      r ← eval_expression e ctx;
      if has_errors r then mret (eval_failed r, ctx)
      else match er_value r with
      | BoolValue true => exec_opt_block then_block ctx
      | BoolValue false => exec_opt_block else_block ctx
      | _ => mret (make_exec_error "if condition must evaluate to Bool", ctx)
      end
  end.
End Block.

Fixpoint exec_statement (stmt : Statement) ctx : eff W (ExecResult * ExecContext W) :=
  match stmt with
  | mkStatement node _ _ =>
      match node with
      | LetStatement name _ e => exec_let name e ctx
      | AssignStatement target e => exec_assign target e ctx
      | IfStatement c t e => exec_if exec_statement c t e ctx
      | GotoStatement target => mret (mkExecResult (ExecGoto target) empty_bag, ctx)
      | ReturnStatement e => exec_return e ctx
      | AssertStatement c => exec_assert c ctx
      | ExprStatement e => exec_expr_statement e ctx
      end
  end.
Definition exec_block (block : Block) ctx : eff W (ExecResult * ExecContext W) :=
  exec_block_with exec_statement block ctx.
End Statements.

(** ** Soundness of a block

    [frame c c']: execution does not touch the inputs, the node outputs or
    the expression evaluator, and never removes a context field or a local. *)
Record frame {W} (c c' : ExecContext W) : Prop := {
  frame_input : input_scope (eval_ctx c') = input_scope (eval_ctx c);
  frame_outputs : node_output_scope (eval_ctx c') = node_output_scope (eval_ctx c);
  frame_eval : expr_eval c' = expr_eval c;
  frame_ctx : dom (ctx_scope (eval_ctx c)) ⊆ dom (ctx_scope (eval_ctx c'));
  frame_local : dom (local_scope (eval_ctx c)) ⊆ dom (local_scope (eval_ctx c')) }.

#[export] Instance frame_preorder {W} : PreOrder (@frame W).
Proof.
  split; [by split|]. intros a b c [] []. split; try congruence; by etrans.
Qed.

(** A context whose values are well-formed and whose evaluator keeps them so. *)
Definition exec_context_ok {W} (c : ExecContext W) : Prop :=
  context_ok (eval_ctx c) ∧
  ∀ f, expr_eval c = Some f → ∀ e ctx, context_ok ctx → post result_ok (f e ctx).

(** The [goto] targets that occur in a statement. *)
Fixpoint statement_gotos (s : Statement) : list string :=
  let block_gotos := λ b : Block,
    match b with mkBlock l _ =>
      l ≫= λ o : option Statement, match o with Some s => statement_gotos s | None => [] end end in
  match s with
  | mkStatement (GotoStatement t) _ _ => [t]
  | mkStatement (IfStatement _ t e) _ _ =>
      match t with Some b => block_gotos b | None => [] end ++
      match e with Some b => block_gotos b | None => [] end
  | _ => []
  end.
Definition block_gotos (b : Block) : list string :=
  statements b ≫= λ o : option Statement, match o with Some s => statement_gotos s | None => [] end.

Record exec_result_ok (gotos : list string) (r : ExecResult) : Prop := {
  exec_bag_ok : bag_ok (xr_diagnostics r);
  exec_error_continue : exec_has_errors r = true → outcome r = ExecContinue;
  exec_return_ok : ∀ v, outcome r = ExecReturn v → value_ok v;
  exec_goto_in : ∀ t, outcome r = ExecGoto t → t ∈ gotos }.

Record exec_sound {W} (gotos : list string) (c : ExecContext W)
    (rc : ExecResult * ExecContext W) : Prop := {
  sound_context : exec_context_ok rc.2;
  sound_frame : frame c rc.2;
  sound_result : exec_result_ok gotos rc.1 }.

Section Sound.
Context {W : Type}.
Implicit Types (c : ExecContext W) (g : list string).

Lemma eval_expression_ok e c : exec_context_ok c → post result_ok (eval_expression e c).
Proof.
  intros [Hc Hf]. unfold eval_expression. destruct (expr_eval c) as [f|] eqn:E; [by eapply Hf|].
  apply eval_expr_impl_post; [done|]. intros. apply post_ret, make_error_ok.
Qed.

Lemma frame_bind_local name v c : frame c (exec_bind_local name v c).
Proof. split; simpl; try done. rewrite dom_insert. set_solver. Qed.
Lemma frame_assign_ctx name v c : frame c (assign_ctx name v c).
Proof. split; simpl; try done. rewrite dom_insert. set_solver. Qed.
Lemma exec_bind_local_ok name v c :
  value_ok v → exec_context_ok c → exec_context_ok (exec_bind_local name v c).
Proof. intros Hv [Hc Hf]. split; [by apply bind_local_ok | done]. Qed.
Lemma assign_ctx_ok name v c :
  value_ok v → exec_context_ok c → exec_context_ok (assign_ctx name v c).
Proof. intros Hv [Hc Hf]. split; [by apply set_ctx_ok | done]. Qed.

Lemma continue_ok g : exec_result_ok g make_continue.
Proof. split; simpl; auto with ahfl; done. Qed.
Lemma exec_error_ok g msg : exec_result_ok g (make_exec_error msg).
Proof. split; simpl; auto with ahfl; done. Qed.
Lemma eval_failed_ok g r : result_ok r → exec_result_ok g (eval_failed r).
Proof. intros []. split; simpl; auto; done. Qed.

Lemma goto_ok g t : t ∈ g → exec_result_ok g (mkExecResult (ExecGoto t) empty_bag).
Proof. intros Ht. split; simpl; [apply empty_bag_ok|done|done|congruence]. Qed.
Lemma return_ok g v : value_ok v → exec_result_ok g (mkExecResult (ExecReturn v) empty_bag).
Proof. intros Ht. split; simpl; [apply empty_bag_ok|done|congruence|done]. Qed.
Lemma assert_failed_ok g m : exec_result_ok g (mkExecResult (ExecAssertFailed m) empty_bag).
Proof. split; simpl; [apply empty_bag_ok|done|done|done]. Qed.

Lemma sound_same g c r :
  exec_context_ok c → exec_result_ok g r → exec_sound g c (r, c).
Proof. by split. Qed.

(** Evaluate an expression; on failure the statement ends there. *)
Lemma sound_eval g e c (f : EvalResult → eff W (ExecResult * ExecContext W)) :
  exec_context_ok c →
  (∀ r, result_ok r → post (exec_sound g c) (f r)) →
  post (exec_sound g c)
    (r ← eval_expression e c; if has_errors r then mret (eval_failed r, c) else f r).
Proof.
  intros Hc Hf. eapply post_bind; [by apply eval_expression_ok|]. intros r Hr.
  destruct (has_errors r); [|by apply Hf]. apply post_ret, sound_same; auto using eval_failed_ok.
Qed.

Lemma sound_weaken g g' c rc : g ⊆ g' → exec_sound g c rc → exec_sound g' c rc.
Proof. intros Hg [? ? []]. split; try done. split; auto. Qed.

(** The block loop, given the soundness of its statements. *)
Lemma exec_statements_sound exec (l : list (option Statement)) g c :
  Forall (λ s, ∀ c, exec_context_ok c → post (exec_sound g c) (exec s c)) (l ≫= option_list) →
  exec_context_ok c → post (exec_sound g c) (exec_statements exec l c).
Proof.
  revert c. induction l as [|[s|] l IH]; simpl; intros c Hl Hc;
    [by apply post_ret, sound_same, continue_ok | | by apply IH].
  apply Forall_cons in Hl as [Hs Hl]. eapply post_bind; [by apply Hs|]. intros [r c1] Hr. simpl.
  destruct (stops r); [by apply post_ret|]. destruct Hr as [Hc1 Hf _]. simpl in *.
  eapply post_weaken; [by apply IH|]. intros rc [Hc2 Hf2 Hr2]. split; [done| |done].
  by etrans.
Qed.

Lemma exec_opt_block_sound exec (b : option Block) g c :
  Forall (λ s, ∀ c, exec_context_ok c → post (exec_sound g c) (exec s c))
    (option_list b ≫= λ b, statements b ≫= option_list) →
  exec_context_ok c → post (exec_sound g c) (exec_opt_block exec b c).
Proof.
  destruct b as [[l sr]|]; simpl; intros Hl Hc.
  - rewrite app_nil_r in Hl. by apply exec_statements_sound.
  - by apply post_ret, sound_same, continue_ok.
Qed.

Lemma block_gotos_elem b s : s ∈ (statements b ≫= option_list) → statement_gotos s ⊆ block_gotos b.
Proof.
  intros (o & Hs & Ho)%list_elem_of_bind t Ht. unfold block_gotos. apply list_elem_of_bind.
  exists o. split; [|done]. destruct o as [s'|]; simpl in Hs; [|by apply elem_of_nil in Hs].
  apply list_elem_of_singleton in Hs. by subst.
Qed.

Lemma branch_sound (b : option Block) g c :
  Forall (λ s, ∀ c, exec_context_ok c →
            post (exec_sound (statement_gotos s) c) (exec_statement s c))
    (option_list b ≫= λ b, statements b ≫= option_list) →
  match b with Some b => block_gotos b | None => [] end ⊆ g →
  exec_context_ok c → post (exec_sound g c) (exec_opt_block exec_statement b c).
Proof.
  intros Hl Hg Hc. apply exec_opt_block_sound; [|done]. rewrite Forall_forall in Hl |- *.
  intros s Hs c' Hc'. eapply post_weaken; [by apply Hl|]. intros rc. apply sound_weaken.
  destruct b as [b|]; simpl in Hs; [|by apply elem_of_nil in Hs]. rewrite app_nil_r in Hs.
  etrans; [by apply block_gotos_elem | done].
Qed.

Lemma exec_statement_sound s c :
  exec_context_ok c → post (exec_sound (statement_gotos s) c) (exec_statement s c).
Proof.
  revert c. induction s as [[n sr id] IH] using statement_induction. simpl in IH.
  intros c Hc. destruct n as [x ty [e|]|p e|[cond|] t e|tgt|[e|]|[e|]|[e|]]; simpl;
    try (apply post_ret, sound_same; auto using exec_error_ok; fail).
  - apply sound_eval; [done|]. intros r Hr. apply post_ret.
    split; simpl; auto using exec_bind_local_ok, frame_bind_local, continue_ok with ahfl.
  - unfold exec_assign. destruct (negb _); [by apply post_ret, sound_same, exec_error_ok|].
    destruct (members p) as [|m ms]; [by apply post_ret, sound_same, exec_error_ok|].
    destruct e as [e|]; [|by apply post_ret, sound_same, exec_error_ok].
    apply sound_eval; [done|]. intros r Hr. apply post_ret.
    split; simpl; auto using assign_ctx_ok, frame_assign_ctx, continue_ok with ahfl.
  - apply Forall_app in IH as [Ht He]. apply sound_eval; [done|]. intros r Hr.
    destruct (er_value r) as [|[]| | | | | | | | |];
      try (by apply post_ret, sound_same, exec_error_ok).
    + apply branch_sound; [done| |done]. apply list_subseteq_app_l. destruct t as [[]|]; done.
    + apply branch_sound; [done| |done]. apply list_subseteq_app_r. destruct e as [[]|]; done.
  - apply post_ret, sound_same, goto_ok; [done | by left].
  - apply sound_eval; [done|]. intros r Hr. apply post_ret, sound_same, return_ok; [done|].
    apply Hr.
  - apply post_ret, sound_same, return_ok; [done | constructor].
  - apply sound_eval; [done|]. intros r Hr.
    destruct (er_value r) as [|[]| | | | | | | | |];
      try (by apply post_ret, sound_same, exec_error_ok).
    + by apply post_ret, sound_same, continue_ok.
    + by apply post_ret, sound_same, assert_failed_ok.
  - apply sound_eval; [done|]. intros r Hr. by apply post_ret, sound_same, continue_ok.
Qed.

Lemma exec_block_post b c :
  exec_context_ok c → post (exec_sound (block_gotos b) c) (exec_block b c).
Proof.
  intros Hc. destruct b as [l sr]. apply exec_statements_sound; [|done].
  apply Forall_forall. intros s Hs c' Hc'.
  eapply post_weaken; [by apply exec_statement_sound|]. intros rc. apply sound_weaken.
  exact (block_gotos_elem (mkBlock l sr) s Hs).
Qed.
End Sound.

(** C4: a block run in a well-formed context ends in a well-formed context;
    the inputs, the node outputs and the evaluator are unchanged and no context
    field or local disappears; a result with an error transfers no control, a
    returned value is well-formed and a [goto] target is one that occurs in
    the block. *)
Theorem exec_block_sound {W} (b : Block) (c : ExecContext W) :
  exec_context_ok c → post (exec_sound (block_gotos b) c) (exec_block b c).
Proof. apply exec_block_post. Qed.

Lemma exec_block_sound_witness :
  exec_sound (W := unit) ["Done"] (mkExecContext empty_context None)
    (mkExecResult (ExecGoto "Done") empty_bag, mkExecContext empty_context None).
Proof.
  refine (exec_block_sound (W := unit) (mkBlock [Some (mkStatement (GotoStatement "Done") None 0)] None)
    (mkExecContext empty_context None) (conj empty_context_ok _) tt _ tt eq_refl).
  intros f Hf. discriminate Hf.
Defined.

(** ** Sequencing *)
Section Sequencing.
Context {W : Type} (exec : Statement → ExecContext W → eff W (ExecResult * ExecContext W)).

(** Running the statements of two lists is running the first and, unless it
    stopped, the second in the context the first left. *)
Lemma exec_statements_app l1 l2 c w :
  exec_statements exec (l1 ++ l2) c w =
    (rc ← exec_statements exec l1 c;
     if stops rc.1 then mret rc else exec_statements exec l2 rc.2) w.
Proof.
  revert c w. induction l1 as [|[s|] l1 IH]; intros c w; simpl; [done| |apply IH].
  unfold mbind, eff_bind. destruct (exec s c w) as [[[r c1] w1]| |]; [|done..]. simpl.
  destruct (stops r) eqn:E; [by simpl; rewrite E|]. apply IH.
Qed.
End Sequencing.

(** A block runs its statements in order and ends at the first one that
    fails or transfers control: a block split in two runs the first part and
    then, unless that part stopped, the second. *)
Theorem exec_block_app {W} l1 l2 sr (c : ExecContext W) w :
  exec_block (mkBlock (l1 ++ l2) sr) c w =
    (rc ← exec_block (mkBlock l1 sr) c;
     if stops rc.1 then mret rc else exec_block (mkBlock l2 sr) rc.2) w.
Proof. apply exec_statements_app. Qed.

(** Assigning to a nested field [ctx.m.rest] replaces the whole context
    field [m] by the value: the rest of the target path is ignored. *)
Theorem nested_assignment_replaces_field {W} m rest e v (c : ExecContext W) w w' :
  eval_expression e c w ⇓ (value_result v, w') →
  exec_statement (mkStatement
    (AssignStatement (mkPath PathRootKind.Context "ctx" (m :: rest)) (Some e)) None 0) c w
  ⇓ (make_continue, assign_ctx m v c, w').
Proof. intros He. simpl. unfold exec_assign. simpl. by rewrite (eff_bind_eq _ _ _ _ _ He). Qed.

Lemma nested_assignment_replaces_field_witness :
  exec_statement (W := unit) (mkStatement
    (AssignStatement (mkPath PathRootKind.Context "ctx" ["order"; "paid"])
       (Some (bare (BoolLiteralExpr true)))) None 0)
    (mkExecContext empty_context None) tt
  ⇓ (make_continue, assign_ctx "order" (BoolValue true) (mkExecContext empty_context None), tt).
Proof.
  apply (nested_assignment_replaces_field "order" ["paid"] (bare (BoolLiteralExpr true))).
  reflexivity.
Defined.

(** ** Totality *)
Section Total.
Context {W : Type} (ev : option (ExprEvalFn W)).
Context (Hev : ∀ f, ev = Some f → ∀ e ctx, total (f e ctx)).

Definition good_run (m : eff W (ExecResult * ExecContext W)) : Prop :=
  total m ∧ post (λ rc, expr_eval rc.2 = ev) m.

Lemma good_ret r c : expr_eval c = ev → good_run (mret (r, c)).
Proof. intros Hc. split; [apply total_ret | by apply post_ret]. Qed.

Lemma good_eval e c (f : EvalResult → eff W (ExecResult * ExecContext W)) :
  expr_eval c = ev → (∀ r, good_run (f r)) →
  good_run (r ← eval_expression e c; if has_errors r then mret (eval_failed r, c) else f r).
Proof.
  intros Hc Hf.
  assert (He : total (eval_expression e c)).
  { unfold eval_expression. destruct (expr_eval c) eqn:E; [by eapply Hev; rewrite <- Hc|].
    apply eval_expr_total. intros. apply total_ret. }
  split.
  - apply total_bind; [done|]. intros r. destruct (has_errors r); [apply total_ret | apply Hf].
  - eapply post_bind with (P := λ _, True); [by intros ????|]. intros r _.
    destruct (has_errors r); [by apply post_ret | apply Hf].
Qed.

Lemma exec_statements_good exec (l : list (option Statement)) c :
  Forall (λ s, ∀ c, expr_eval c = ev → good_run (exec s c)) (l ≫= option_list) →
  expr_eval c = ev → good_run (exec_statements exec l c).
Proof.
  revert c. induction l as [|[s|] l IH]; simpl; intros c Hl Hc;
    [by apply good_ret | | by apply IH].
  apply Forall_cons in Hl as [Hs Hl]. destruct (Hs c Hc) as [Ht Hp]. split.
  - intros w. apply eff_bind_NoFuel; [apply Ht|]. intros [r c1] w1 Hrun.
    destruct (stops _); [done|]. by apply IH; [|eapply Hp].
  - eapply post_bind; [exact Hp|]. intros [r c1] Hc1. simpl in *.
    destruct (stops r); [by apply post_ret | by apply IH].
Qed.

Lemma exec_opt_block_good exec (b : option Block) c :
  Forall (λ s, ∀ c, expr_eval c = ev → good_run (exec s c))
    (option_list b ≫= λ b, statements b ≫= option_list) →
  expr_eval c = ev → good_run (exec_opt_block exec b c).
Proof.
  destruct b as [[l sr]|]; simpl; intros Hl Hc; [|by apply good_ret].
  rewrite app_nil_r in Hl. by apply exec_statements_good.
Qed.

Lemma exec_statement_good s c : expr_eval c = ev → good_run (exec_statement s c).
Proof.
  revert c. induction s as [[n sr id] IH] using statement_induction. simpl in IH.
  intros c Hc. destruct n as [x ty [e|]|p e|[cond|] t e|tgt|[e|]|[e|]|[e|]]; simpl;
    try (by apply good_ret).
  - apply good_eval; [done|]. intros r. by apply good_ret.
  - unfold exec_assign. repeat case_match; try (by apply good_ret).
    apply good_eval; [done|]. intros r. by apply good_ret.
  - apply Forall_app in IH as [Ht He]. apply good_eval; [done|]. intros r.
    destruct (er_value r) as [|[]| | | | | | | | |]; auto using good_ret, exec_opt_block_good.
  - apply good_eval; [done|]. intros r. by apply good_ret.
  - apply good_eval; [done|]. intros r.
    destruct (er_value r) as [|[]| | | | | | | | |]; by apply good_ret.
  - apply good_eval; [done|]. intros r. by apply good_ret.
Qed.

(** A block terminates when the evaluation of its expressions does. *)
Lemma exec_block_total b c : expr_eval c = ev → total (exec_block b c).
Proof.
  intros Hc. destruct b as [l sr]. apply exec_statements_good; [|done].
  apply Forall_forall. intros s _ c' Hc'. by apply exec_statement_good.
Qed.
End Total.
