(* ===== verification/CapabilityBridge.v ===== *)
(** * Capability registry, retry and circuit breaker
      (src/runtime/engine/capability_bridge.{hpp,cpp})

    A capability's handler is external code that may change the world.  The
    world is the environment (clock, sleeping, back ends) together with the
    heap of circuit-breaker states, which bindings share through
    [shared_ptr]: a pointer is a key of the heap.  Each breaker operation
    runs under the state's mutex and is one step here.  Times are
    nanoseconds, delays milliseconds, the recovery window seconds. *)
From S2P Require Import Prelude Numeric Value.
Open Scope Z_scope.

(** ** The environment *)
Class Environment (E : Type) := {
  steady_now : E → Z * E;
  sleep_for : Z → E → E }.

Module CircuitState.
Inductive t := Closed | Open | HalfOpen.
End CircuitState.
#[export] Instance circuit_state_eq_dec : EqDecision CircuitState.t.
Proof. solve_decision. Defined.

Record CircuitBreakerConfig := mkCircuitConfig {
  failure_threshold : Z;
  recovery_window : Z;
  cb_enabled : bool }.

Record CircuitBreakerState := mkCircuit {
  cb_config : CircuitBreakerConfig;
  cb_state : CircuitState.t;
  failure_count : Z;
  opened_at : Z }.
(** [CircuitBreakerState(config)] *)
Definition new_circuit (config : CircuitBreakerConfig) : CircuitBreakerState :=
  mkCircuit config CircuitState.Closed 0 0.

Record World (E : Type) := mkWorld {
  env : E;
  circuits : gmap positive CircuitBreakerState }.
Arguments mkWorld {E} _ _.
Arguments env {E} _.
Arguments circuits {E} _.

Section World.
Context {E : Type} `{Environment E}.
Definition read_clock : eff (World E) Z := λ w,
  let '(t, e) := steady_now (env w) in Ret (t, mkWorld e (circuits w)).
Definition do_sleep (ms : Z) : eff (World E) unit := λ w,
  Ret (tt, mkWorld (sleep_for ms (env w)) (circuits w)).
(** Dereferencing a circuit pointer; a dangling one is undefined. *)
Definition load_circuit (p : positive) : eff (World E) CircuitBreakerState := λ w,
  match circuits w !! p with Some c => Ret (c, w) | None => UB end.
Definition store_circuit (p : positive) (c : CircuitBreakerState) : eff (World E) unit := λ w,
  Ret (tt, mkWorld (env w) (<[p := c]> (circuits w))).
End World.

(** ** The circuit breaker *)
Definition set_circuit_state (c : CircuitBreakerState) (s : CircuitState.t) : CircuitBreakerState :=
  mkCircuit (cb_config c) s (failure_count c) (opened_at c).
Definition ns_per_second : Z := 1000000000.
(** [now - opened_at_ >= config_.recovery_window], in nanoseconds. *)
Definition window_elapsed (c : CircuitBreakerState) (now : Z) : cxx bool :=
  elapsed ← int64_sub now (opened_at c);
  window ← int64_mul (recovery_window (cb_config c)) ns_per_second;
  Ret (window <=? elapsed).
Definition success_state (c : CircuitBreakerState) : CircuitBreakerState :=
  mkCircuit (cb_config c) CircuitState.Closed 0 (opened_at c).
Definition count_failure (c : CircuitBreakerState) : CircuitBreakerState :=
  mkCircuit (cb_config c) (cb_state c) (size_succ (failure_count c)) (opened_at c).
Definition trip (c : CircuitBreakerState) (now : Z) : CircuitBreakerState :=
  mkCircuit (cb_config c) CircuitState.Open (failure_count c) now.
Definition threshold_reached (c : CircuitBreakerState) : bool :=
  failure_threshold (cb_config c) <=? failure_count c.

Section Breaker.
Context {E : Type} `{Environment E}.

Definition current_state (p : positive) : eff (World E) CircuitState.t :=
  c ← load_circuit p;
  if bool_decide (cb_state c = CircuitState.Closed) then mret CircuitState.Closed
  else
    now ← read_clock;
    elapsed ← ⌊ window_elapsed c now ⌋;
    if (elapsed : bool) then
      _ ← store_circuit p (set_circuit_state c CircuitState.HalfOpen);
      mret CircuitState.HalfOpen
    else mret CircuitState.Open.

Definition record_success (p : positive) : eff (World E) unit :=
  c ← load_circuit p; store_circuit p (success_state c).

Definition record_failure (p : positive) : eff (World E) unit :=
  c ← load_circuit p;
  let c := count_failure c in
  if threshold_reached c then now ← read_clock; store_circuit p (trip c now)
  else store_circuit p c.
End Breaker.

(** ** Bindings and the registry *)
Module CapabilityCallStatus.
Inductive t := Success | Error | Timeout | RetryExhausted | CircuitOpen.
End CapabilityCallStatus.
#[export] Instance call_status_eq_dec : EqDecision CapabilityCallStatus.t.
Proof. solve_decision. Defined.

Record CapabilityCallResult := mkCallResult {
  call_status : CapabilityCallStatus.t;
  call_value : option Value;
  error_message : string;
  attempts : Z }.
Definition default_call_result : CapabilityCallResult :=
  mkCallResult CapabilityCallStatus.Error None "" 1.
Definition with_attempts (n : Z) (r : CapabilityCallResult) : CapabilityCallResult :=
  mkCallResult (call_status r) (call_value r) (error_message r) n.
Definition with_status (s : CapabilityCallStatus.t) (r : CapabilityCallResult)
    : CapabilityCallResult :=
  mkCallResult s (call_value r) (error_message r) (attempts r).
Definition is_success (r : CapabilityCallResult) : bool :=
  bool_decide (call_status r = CapabilityCallStatus.Success).

Record CapabilityInvocationContext := mkInvocationContext {
  workflow_name : string;
  workflow_node_name : string;
  agent_name_ : string;
  state_name : string;
  workflow_node_execution_index : Z;
  has_workflow_node_context : bool }.
Definition default_invocation_context : CapabilityInvocationContext :=
  mkInvocationContext "" "" "" "" 0 false.

Record RetryConfig := mkRetry {
  max_retries : Z;
  initial_delay : Z;
  backoff_multiplier : double }.
(** [RetryConfig{}]: no retry, 100 ms, multiplier 2. *)
Definition default_retry : RetryConfig := mkRetry 0 100 (d_of_Z 2).
Record TimeoutConfig := mkTimeout { deadline : Z }.
Definition default_timeout : TimeoutConfig := mkTimeout 30000.
Definition default_circuit_config : CircuitBreakerConfig := mkCircuitConfig 5 30 false.

Record CapabilityBinding (W : Type) := mkBinding {
  binding_name : string;
  handler : list Value → eff W CapabilityCallResult;
  retry : RetryConfig;
  timeout : TimeoutConfig;
  circuit_breaker : CircuitBreakerConfig;
  circuit_state : option positive }.
Arguments mkBinding {W} _ _ _ _ _ _.
Arguments binding_name {W} _.
Arguments handler {W} _ _.
Arguments retry {W} _.
Arguments timeout {W} _.
Arguments circuit_breaker {W} _.
Arguments circuit_state {W} _.

Abbreviation CapabilityRegistry W := (gmap string (CapabilityBinding W)).

(** [bindings_.emplace(name, binding)]: a second registration is ignored. *)
Definition emplace_binding {W} (name : string) (b : CapabilityBinding W)
    (reg : CapabilityRegistry W) : CapabilityRegistry W :=
  match reg !! name with Some _ => reg | None => <[name := b]> reg end.
Definition register_capability {W} (b : CapabilityBinding W) (reg : CapabilityRegistry W)
    : CapabilityRegistry W := emplace_binding (binding_name b) b reg.
Definition plain_binding {W} (name : string) (h : list Value → eff W CapabilityCallResult)
    : CapabilityBinding W :=
  mkBinding name h default_retry default_timeout default_circuit_config None.
Definition register_function {W} (name : string) (fn : list Value → eff W Value)
    (reg : CapabilityRegistry W) : CapabilityRegistry W :=
  emplace_binding name (plain_binding name (λ args,
    v ← fn args; mret (mkCallResult CapabilityCallStatus.Success (Some v) "" 1))) reg.
Definition register_mock {W} (name : string) (mock_result : Value)
    (reg : CapabilityRegistry W) : CapabilityRegistry W :=
  emplace_binding name (plain_binding name (λ _,
    mret (mkCallResult CapabilityCallStatus.Success (Some (clone_value mock_result)) "" 1))) reg.
Definition has {W} (reg : CapabilityRegistry W) (name : string) : bool :=
  bool_decide (is_Some (reg !! name)).

(** ** Invocation with retries *)
Section Invoke.
Context {E : Type} `{Environment E}.
Abbreviation W := (World E).
Implicit Types (b : CapabilityBinding W) (args : list Value).

(** The breaker a binding uses, when it is enabled and present. *)
Definition active_circuit b : option positive :=
  if cb_enabled (circuit_breaker b) then circuit_state b else None.
Definition when_active b (f : positive → eff W unit) : eff W unit :=
  match active_circuit b with Some p => f p | None => mret tt end.

(** [delay] after [n] multiplications by the backoff factor. *)
Fixpoint backoff_delay (multiplier : double) (n : nat) (delay : Z) : cxx Z :=
  match n with
  | O => Ret delay
  | S n =>
      d ← int64_of_d (d_mul (d_of_Z delay) multiplier);
      backoff_delay multiplier n d
  end.
Definition backoff b (attempt : Z) : eff W unit :=
  d ← ⌊ backoff_delay (backoff_multiplier (retry b)) (Z.to_nat (attempt - 1))
          (initial_delay (retry b)) ⌋;
  if 0 <? d then do_sleep d else mret tt.

(** The retry loop: [inl] is a result returned from inside the loop, [inr]
    the [last_result] after it. *)
Fixpoint attempt_loop (fuel : nat) b args (max_attempts attempt : Z)
    (last_result : CapabilityCallResult)
    : eff W (CapabilityCallResult + CapabilityCallResult) :=
  match fuel with
  | O => λ _, NoFuel
  | S fuel =>
      if attempt <=? max_attempts then
        r ← handler b args;
        let r := with_attempts attempt r in
        if is_success r then
          _ ← when_active b record_success;
          mret (inl r)
        else
          _ ← (if attempt <? max_attempts then backoff b attempt else mret tt);
          attempt_loop fuel b args max_attempts (size_succ attempt) r
      else mret (inr last_result)
  end.

(** [max_retries + 1] wraps around like [std::size_t]. *)
Definition max_attempts b : Z := size_succ (max_retries (retry b)).

Definition run_attempts b args : eff W CapabilityCallResult :=
  out ← attempt_loop (S (Z.to_nat (max_attempts b))) b args (max_attempts b) 1
          default_call_result;
  match out with
  | inl r => mret r
  | inr r =>
      _ ← when_active b record_failure;
      mret (if 0 <? max_retries (retry b)
            then with_status CapabilityCallStatus.RetryExhausted r else r)
  end.

Definition circuit_open_result (name : string) : CapabilityCallResult :=
  mkCallResult CapabilityCallStatus.CircuitOpen None
    ("circuit breaker is open for: " +:+ name) 0.

Definition invoke_with_retry b args : eff W CapabilityCallResult :=
  match active_circuit b with
  | Some p =>
      s ← current_state p;
      if bool_decide (s = CircuitState.Open) then mret (circuit_open_result (binding_name b))
      else run_attempts b args
  | None => run_attempts b args
  end.

Definition invoke (reg : CapabilityRegistry W) (name : string) args
    : eff W CapabilityCallResult :=
  match reg !! name with
  | None =>
      mret (mkCallResult CapabilityCallStatus.Error None ("capability not found: " +:+ name) 0)
  | Some b => invoke_with_retry b args
  end.
Definition invoke_with_context (reg : CapabilityRegistry W)
    (context : CapabilityInvocationContext) (name : string) args : eff W CapabilityCallResult :=
  invoke reg name args.
End Invoke.

(** [std::function]s that invoke a capability; an empty one is [None] where
    it is stored. *)
Definition CapabilityInvoker (W : Type) : Type :=
  string → list Value → eff W CapabilityCallResult.
Definition ContextualCapabilityInvoker (W : Type) : Type :=
  CapabilityInvocationContext → string → list Value → eff W CapabilityCallResult.
Definition as_invoker {E} `{Environment E} (reg : CapabilityRegistry (World E))
    : CapabilityInvoker (World E) := invoke reg.
Definition as_contextual_invoker {E} `{Environment E} (reg : CapabilityRegistry (World E))
    : ContextualCapabilityInvoker (World E) := invoke_with_context reg.

(** ** Properties of the retry loop *)
Section Retry.
Context {E : Type} `{Environment E} (b : CapabilityBinding (World E)) (args : list Value).

(** [failures k w w']: the first [k] attempts fail, each is followed by its
    backoff, and they lead from [w] to [w']. *)
Inductive failures : nat → World E → World E → Prop :=
  | failures_0 w : failures 0 w w
  | failures_S k w w1 r w2 w3 :
      failures k w w1 →
      handler b args w1 ⇓ (r, w2) → is_success r = false →
      backoff b (Z.of_nat k + 1) w2 ⇓ (tt, w3) →
      failures (S k) w w3.

Context (Hmax : 0 ≤ max_retries (retry b) < size_max - 1).

Lemma size_succ_small k : 0 ≤ k < size_max → size_succ k = k + 1.
Proof. unfold size_succ, to_size, size_max. intros. apply Z.mod_small. lia. Qed.
Lemma max_attempts_eq : max_attempts b = max_retries (retry b) + 1.
Proof. apply size_succ_small. lia. Qed.

Lemma is_success_attempts n r : is_success (with_attempts n r) = is_success r.
Proof. done. Qed.

(** The outcome of the remaining attempts after [k] failures. *)
Definition loop_outcome (w : World E) (out : CapabilityCallResult + CapabilityCallResult)
    (w' : World E) : Prop :=
  match out with
  | inl r => ∃ k w1 r0 w2,
      Z.of_nat k <= max_retries (retry b) ∧ failures k w w1 ∧
      handler b args w1 ⇓ (r0, w2) ∧ is_success r0 = true ∧
      r = with_attempts (Z.of_nat k + 1) r0 ∧
      when_active b record_success w2 ⇓ (tt, w')
  | inr r => ∃ w1 r0,
      failures (Z.to_nat (max_retries (retry b))) w w1 ∧
      handler b args w1 ⇓ (r0, w') ∧ is_success r0 = false ∧
      r = with_attempts (max_retries (retry b) + 1) r0
  end.

Lemma attempt_loop_spec fuel k w0 w last out w' :
  failures k w0 w → Z.of_nat k <= max_retries (retry b) →
  attempt_loop fuel b args (max_attempts b) (Z.of_nat k + 1) last w ⇓ (out, w') →
  loop_outcome w0 out w'.
Proof.
  revert k w last. induction fuel as [|fuel IH]; intros k w last Hf Hk; simpl; [done|].
  rewrite max_attempts_eq. destruct (Z.leb_spec (Z.of_nat k + 1) (max_retries (retry b) + 1));
    [|lia]. intros H'. inv_eff H'. rename r into r0. rewrite is_success_attempts in H'.
  destruct (is_success r0) eqn:Es.
  - inv_eff H'. destruct r. injection H' as <- <-. simpl. exists k, w, r0, w1. by repeat split.
  - destruct (Z.ltb_spec (Z.of_nat k + 1) (max_retries (retry b) + 1)) as [Hlt|Hge].
    + inv_eff H'. destruct r. rewrite size_succ_small in H' by lia.
      replace (Z.of_nat k + 1 + 1) with (Z.of_nat (S k) + 1) in H' by lia.
      rewrite <- max_attempts_eq in H'. eapply (IH (S k)); [|lia|exact H'].
      by econstructor.
    + apply eff_bind_ret in H' as ([] & w2 & [= <-] & H'). assert (Hkm : Z.of_nat k = max_retries (retry b)) by lia.
      destruct fuel as [|fuel]; [done|]. simpl in H'.
      rewrite size_succ_small in H' by lia.
      destruct (Z.leb_spec (Z.of_nat k + 1 + 1) (max_retries (retry b) + 1)); [lia|].
      injection H' as <- <-. simpl. exists w, r0. rewrite <- Hkm, Nat2Z.id.
      by repeat split.
Qed.
End Retry.

Section RetryTotal.
Context {E : Type} `{Environment E} (b : CapabilityBinding (World E)) (args : list Value).
Context (Hmax : 0 ≤ max_retries (retry b) < size_max - 1).
Context (Hh : total (handler b args)).

Lemma backoff_delay_fuel m n d : backoff_delay m n d ≠ NoFuel.
Proof.
  revert d. induction n as [|n IH]; simpl; intros d; [done|].
  apply cxx_bind_fuel; [apply int64_of_d_fuel | done].
Qed.
Lemma backoff_total k : total (backoff b k).
Proof.
  apply total_bind; [apply total_lift, backoff_delay_fuel|]. intros d. by case_match.
Qed.
Lemma load_circuit_total p : total (load_circuit (E:=E) p).
Proof. intros w. unfold load_circuit. by case_match. Qed.
Lemma read_clock_total : total (read_clock (E:=E)).
Proof. intros w. unfold read_clock. by case_match. Qed.
Lemma record_success_total p : total (record_success (E:=E) p).
Proof. by apply total_bind; [apply load_circuit_total|]. Qed.
Lemma record_failure_total p : total (record_failure (E:=E) p).
Proof.
  apply total_bind; [apply load_circuit_total|]. intros c.
  simpl. destruct (threshold_reached _); [|done].
  apply total_bind; [apply read_clock_total | done].
Qed.
Lemma when_active_total f : (∀ p, total (f p)) → total (when_active b f).
Proof. intros Hf. unfold when_active. by destruct (active_circuit b). Qed.

Lemma attempt_loop_total fuel k last :
  0 ≤ k ≤ max_attempts b → max_attempts b - k + 1 ≤ Z.of_nat fuel →
  total (attempt_loop fuel b args (max_attempts b) (k + 1) last).
Proof.
  pose proof (max_attempts_eq b Hmax) as Hm.
  revert k last. induction fuel as [|fuel IH]; intros k last Hk Hf; simpl; [lia|].
  destruct (Z.leb_spec (k + 1) (max_attempts b)); [|done].
  apply total_bind; [done|]. intros r. destruct (is_success _).
  - apply total_bind; [|done]. apply when_active_total, record_success_total.
  - apply total_bind; [destruct (_ <? _); [apply backoff_total | done]|]. intros _.
    rewrite size_succ_small by lia. apply IH; lia.
Qed.

Lemma run_attempts_total : total (run_attempts b args).
Proof.
  pose proof (max_attempts_eq b Hmax) as Hm. unfold run_attempts. apply total_bind.
  - apply (attempt_loop_total _ 0); lia.
  - intros [r|r]; [done|]. apply total_bind; [|done].
    apply when_active_total, record_failure_total.
Qed.

Lemma current_state_total p : total (current_state (E:=E) p).
Proof.
  apply total_bind; [apply load_circuit_total|]. intros c.
  destruct (bool_decide _); [done|]. apply total_bind; [apply read_clock_total|].
  intros now. apply total_bind; [|intros []; done].
  apply total_lift. unfold window_elapsed, int64_sub, int64_mul.
  apply cxx_bind_fuel; [apply int64_of_fuel|]. intros e.
  apply cxx_bind_fuel; [apply int64_of_fuel|]. done.
Qed.

(** An invocation ends when its handler does. *)
Lemma invoke_with_retry_total : total (invoke_with_retry b args).
Proof.
  unfold invoke_with_retry. destruct (active_circuit b); [|apply run_attempts_total].
  apply total_bind; [apply current_state_total|]. intros s.
  destruct (bool_decide _); [done | apply run_attempts_total].
Qed.
End RetryTotal.

(** C5: the retry loop.  With [max_retries] below [SIZE_MAX - 1], an invocation
    whose breaker is not open always ends when the handler does, after at
    most [max_retries + 1] handler calls: either some attempt succeeds after
    [k <= max_retries] failed ones, each followed by its backoff, and its
    result is returned with [attempts = k + 1] and the breaker is told of the
    success; or all [max_retries + 1] attempts fail, the last failure is
    returned with the status [RetryExhausted] if there was a retry, and the
    breaker is told of one failure. *)
Theorem run_attempts_spec {E} `{Environment E} (b : CapabilityBinding (World E)) args :
  0 ≤ max_retries (retry b) < size_max - 1 →
  total (handler b args) →
  total (run_attempts b args) ∧
  ∀ w r w', run_attempts b args w ⇓ (r, w') →
    (∃ k w1 r0 w2, Z.of_nat k ≤ max_retries (retry b) ∧ failures b args k w w1 ∧
       handler b args w1 ⇓ (r0, w2) ∧ is_success r0 = true ∧
       r = with_attempts (Z.of_nat k + 1) r0 ∧
       when_active b record_success w2 ⇓ (tt, w')) ∨
    (∃ w1 r0 w2, failures b args (Z.to_nat (max_retries (retry b))) w w1 ∧
       handler b args w1 ⇓ (r0, w2) ∧ is_success r0 = false ∧
       r = with_attempts (max_retries (retry b) + 1)
             (if 0 <? max_retries (retry b)
              then with_status CapabilityCallStatus.RetryExhausted r0 else r0) ∧
       when_active b record_failure w2 ⇓ (tt, w')).
Proof.
  intros Hmax Hh. split; [by apply run_attempts_total|]. intros w r w' Hrun.
  unfold run_attempts in Hrun. inv_eff Hrun.
  apply (attempt_loop_spec b args Hmax _ 0 w) in E0; [|constructor|lia].
  destruct r0 as [r0|r0]; simpl in E0.
  - injection Hrun as <- <-. by left.
  - right. destruct E0 as (w1 & r1 & Hf & Hc & Hs & ->).
    apply eff_bind_ret in Hrun as ([] & w2 & Hw & [= <- <-]).
    exists w1, r1, w0. repeat split; try done. by destruct (_ <? _).
Qed.

(** A concrete environment: the state is the time in nanoseconds, reading the
    clock costs one and sleeping advances it. *)
Definition test_clock : Environment Z :=
  {| steady_now t := (t, t + 1); sleep_for ms t := t + ms * 1000000 |}.
(** A capability that always fails, retried once. *)
Definition failing_binding : CapabilityBinding (World Z) :=
  mkBinding "cap" (λ _, mret (mkCallResult CapabilityCallStatus.Error None "down" 1))
    (mkRetry 1 100 (d_of_Z 2)) default_timeout default_circuit_config None.

Lemma run_attempts_spec_witness :
  total (@run_attempts Z test_clock failing_binding []) ∧
  @run_attempts Z test_clock failing_binding [] (mkWorld 0 ∅)
  ⇓ (mkCallResult CapabilityCallStatus.RetryExhausted None "down" 2, mkWorld 100000000 ∅).
Proof.
  split; [|vm_compute; reflexivity].
  refine (proj1 (@run_attempts_spec Z test_clock failing_binding [] _ _)).
  - simpl. unfold size_max. lia.
  - apply total_ret.
Defined.

(** With [max_retries = SIZE_MAX] the attempt count wraps to zero: the
    handler is never called, yet the result is [RetryExhausted]. *)
Theorem max_retries_wraps {E} `{Environment E} (b : CapabilityBinding (World E)) args w :
  max_retries (retry b) = size_max →
  run_attempts b args w =
    (_ ← when_active b record_failure;
     mret (with_status CapabilityCallStatus.RetryExhausted default_call_result)) w.
Proof.
  intros Hm. unfold run_attempts, max_attempts. rewrite Hm.
  change (size_succ size_max) with 0. simpl. done.
Qed.

(** A capability that always succeeds, retried [SIZE_MAX] times, behind the
    breaker at address 1. *)
Definition guarded_binding : CapabilityBinding (World Z) :=
  mkBinding "cap" (λ _, mret (mkCallResult CapabilityCallStatus.Success None "" 1))
    (mkRetry size_max 100 (d_of_Z 2)) default_timeout (mkCircuitConfig 1 30 true)
    (Some 1%positive).
Definition open_circuit : CircuitBreakerState :=
  mkCircuit (mkCircuitConfig 1 30 true) CircuitState.Open 1 0.
Definition fresh_circuit : CircuitBreakerState := new_circuit (mkCircuitConfig 1 30 true).
Definition circuit_world (now : Z) (c : CircuitBreakerState) : World Z :=
  mkWorld now {[1%positive := c]}.

Lemma max_retries_wraps_witness :
  @run_attempts Z test_clock guarded_binding [] (circuit_world 0 fresh_circuit)
  ⇓ (mkCallResult CapabilityCallStatus.RetryExhausted None "" 1, circuit_world 1 open_circuit).
Proof.
  rewrite (@max_retries_wraps Z test_clock guarded_binding [] _ eq_refl).
  vm_compute. reflexivity.
Defined.

(** ** Properties of the circuit breaker *)
Section BreakerRuns.
Context {E : Type} `{Environment E} (p : positive).

(** A history of the breaker at [p]: the number of failures recorded since
    the last success (fewer than 2^64), from a first world to a last one.
    Between its operations anything else may happen that leaves it alone. *)
Inductive breaker_run : nat → World E → World E → Prop :=
  | run_start w : breaker_run 0 w w
  | run_success n w w1 w2 :
      breaker_run n w w1 → record_success p w1 ⇓ (tt, w2) → breaker_run 0 w w2
  | run_failure n w w1 w2 :
      breaker_run n w w1 → Z.of_nat (S n) ≤ size_max →
      record_failure p w1 ⇓ (tt, w2) → breaker_run (S n) w w2
  | run_probe n w w1 s w2 :
      breaker_run n w w1 → current_state p w1 ⇓ (s, w2) → breaker_run n w w2
  | run_other n w w1 w2 :
      breaker_run n w w1 → circuits w2 !! p = circuits w1 !! p → breaker_run n w w2.

(** The breaker after [n] failures in a row. *)
Definition breaker_at (config : CircuitBreakerConfig) (n : nat) (c : CircuitBreakerState) : Prop :=
  cb_config c = config ∧ failure_count c = Z.of_nat n ∧
  (cb_state c = CircuitState.Closed ↔ n = 0%nat ∨ Z.of_nat n < failure_threshold config).

Lemma load_circuit_ret w c w' :
  load_circuit (E:=E) p w ⇓ (c, w') → circuits w !! p = Some c ∧ w' = w.
Proof. unfold load_circuit. case_match; [|done]. by intros [= <- <-]. Qed.
Lemma lookup_store c w w' :
  store_circuit (E:=E) p c w ⇓ (tt, w') → circuits w' !! p = Some c.
Proof. intros [= <-]. simpl. apply lookup_insert_eq. Qed.

Lemma record_success_inv w w' c :
  record_success (E:=E) p w ⇓ (tt, w') → circuits w !! p = Some c →
  circuits w' !! p = Some (success_state c).
Proof.
  intros Hr Hc. unfold record_success in Hr. inv_eff Hr.
  apply load_circuit_ret in E0 as [Hc' ->]. simplify_eq. by eapply lookup_store.
Qed.

Lemma record_failure_inv w w' c :
  record_failure (E:=E) p w ⇓ (tt, w') → circuits w !! p = Some c →
  circuits w' !! p = Some (count_failure c) ∧ threshold_reached (count_failure c) = false ∨
  ∃ now, circuits w' !! p = Some (trip (count_failure c) now) ∧
         threshold_reached (count_failure c) = true.
Proof.
  intros Hr Hc. unfold record_failure in Hr. inv_eff Hr.
  apply load_circuit_ret in E0 as [Hc' ->]. simplify_eq. simpl in Hr.
  destruct (threshold_reached (count_failure r)).
  - inv_eff Hr. right. exists r0. split; [by eapply lookup_store | done].
  - left. split; [by eapply lookup_store | done].
Qed.

Lemma current_state_inv w s w' c :
  current_state (E:=E) p w ⇓ (s, w') → circuits w !! p = Some c →
  circuits w' !! p = Some c ∨
  circuits w' !! p = Some (set_circuit_state c CircuitState.HalfOpen) ∧
  cb_state c ≠ CircuitState.Closed.
Proof.
  intros Hr Hc. unfold current_state in Hr. inv_eff Hr.
  apply load_circuit_ret in E0 as [Hc' ->]. simplify_eq.
  case_bool_decide; [injection Hr as <- <-; by left|].
  inv_eff Hr. unfold read_clock in E0. destruct (steady_now _). injection E0 as <- <-.
  inv_eff Hr. unfold lift in E0. destruct (window_elapsed _ _); [|done..].
  injection E0 as <- <-. destruct a.
  - inv_eff Hr. destruct r0. injection Hr as _ <-. right. split; [by eapply lookup_store | done].
  - injection Hr as _ <-. by left.
Qed.

Lemma failure_step config n c :
  Z.of_nat (S n) ≤ size_max → breaker_at config n c →
  failure_count (count_failure c) = Z.of_nat (S n) ∧
  threshold_reached (count_failure c) = bool_decide (failure_threshold config ≤ Z.of_nat (S n)).
Proof.
  intros Hn (<- & Hc & _). unfold threshold_reached, count_failure; simpl.
  rewrite Hc, size_succ_small by lia.
  split; [lia|]. apply eq_true_iff_eq. rewrite bool_decide_eq_true. lia.
Qed.

Lemma breaker_at_failure config n c now :
  Z.of_nat (S n) ≤ size_max → breaker_at config n c →
  breaker_at config (S n)
    (if threshold_reached (count_failure c) then trip (count_failure c) now
     else count_failure c).
Proof.
  intros Hn Hat. destruct (failure_step _ _ _ Hn Hat) as [Hc ->].
  destruct Hat as (Hcfg & _ & Hst). case_bool_decide.
  - split; [done|]. split; [done|]. simpl. split; [done | lia].
  - split; [done|]. split; [done|]. change (cb_state (count_failure c)) with (cb_state c).
    rewrite Hst. split; intros _; [right|]; lia.
Qed.

(** The breaker at [p] in any history that starts from a fresh one. *)
Lemma breaker_run_at config n w w' :
  breaker_run n w w' → circuits w !! p = Some (new_circuit config) →
  ∃ c, circuits w' !! p = Some c ∧ breaker_at config n c.
Proof.
  intros Hrun Hw. induction Hrun as [w|n w w1 w2 Hrun IH Hs|n w w1 w2 Hrun IH Hn Hf
    |n w w1 s w2 Hrun IH Hp|n w w1 w2 Hrun IH Ho]; [|destruct (IH Hw) as (c & Hc & Hat)..].
  - exists (new_circuit config). split; [done|]. split; [done|]. split; [done|]. simpl. tauto.
  - exists (success_state c). split; [by eapply record_success_inv|].
    destruct Hat as (Hcfg & _). split; [done|]. split; [done|]. simpl. tauto.
  - destruct (record_failure_inv _ _ _ Hf Hc) as [[Hc' Ht]|(now & Hc' & Ht)].
    + pose proof (breaker_at_failure _ _ _ 0 Hn Hat) as Hat'. rewrite Ht in Hat'. eauto.
    + pose proof (breaker_at_failure _ _ _ now Hn Hat) as Hat'. rewrite Ht in Hat'. eauto.
  - destruct (current_state_inv _ _ _ _ Hp Hc) as [Hc'|[Hc' Hst]]; [by eauto|].
    eexists. split; [exact Hc'|]. destruct Hat as (Hcfg & Hcount & Hiff).
    split; [done|]. split; [done|]. simpl. split; [done|]. intros Hn. by apply Hiff in Hn.
  - exists c. by rewrite Ho.
Qed.
End BreakerRuns.

(** C6: the breaker counts the failures since the last success, and is closed
    exactly when there is none or they are fewer than the threshold, whatever
    the probes and other activity in between; so once the threshold is
    reached only a success closes it, and a failure of a half-open probe
    opens it again. *)
Theorem breaker_counts_failures {E} `{Environment E} p config n (w w' : World E) :
  breaker_run p n w w' →
  circuits w !! p = Some (new_circuit config) →
  ∃ c, circuits w' !! p = Some c ∧ failure_count c = Z.of_nat n ∧
       (cb_state c = CircuitState.Closed ↔ n = 0%nat ∨ Z.of_nat n < failure_threshold config).
Proof.
  intros Hrun Hw. destruct (breaker_run_at _ _ _ _ _ Hrun Hw) as (c & Hc & _ & Hat). eauto.
Qed.

Lemma breaker_counts_failures_witness :
  ∃ c, circuits (circuit_world 1 open_circuit) !! 1%positive = Some c ∧ failure_count c = 1 ∧
       (cb_state c = CircuitState.Closed ↔ 1%nat = 0%nat ∨ 1 < 1).
Proof.
  apply (@breaker_counts_failures Z test_clock 1%positive (mkCircuitConfig 1 30 true) 1
           (circuit_world 0 fresh_circuit) _); [|reflexivity].
  apply (@run_failure Z test_clock 1%positive 0 _ (circuit_world 0 fresh_circuit));
    [apply run_start | vm_compute; discriminate|].
  vm_compute. reflexivity.
Defined.

(** While the breaker is not closed and its recovery window has not
    elapsed, an invocation is rejected at once: the handler is not called and
    only the clock is read. *)
Theorem open_circuit_rejects {E} `{Environment E} (b : CapabilityBinding (World E)) args p c w :
  active_circuit b = Some p →
  circuits w !! p = Some c →
  cb_state c ≠ CircuitState.Closed →
  window_elapsed c (steady_now (env w)).1 ⇓ false →
  invoke_with_retry b args w
  ⇓ (circuit_open_result (binding_name b), mkWorld (steady_now (env w)).2 (circuits w)).
Proof.
  intros Hp Hc Hs Hw. unfold invoke_with_retry. rewrite Hp.
  assert (Hcur : current_state p w ⇓
    (CircuitState.Open, mkWorld (steady_now (env w)).2 (circuits w))).
  { unfold current_state. erewrite eff_bind_eq by (unfold load_circuit; by rewrite Hc).
    rewrite bool_decide_false by done. unfold read_clock, mbind, eff_bind, lift.
    destruct (steady_now (env w)) as [now e]. simpl in Hw |- *. by rewrite Hw. }
  by rewrite (eff_bind_eq _ _ _ _ _ Hcur).
Qed.

Lemma open_circuit_rejects_witness :
  @invoke_with_retry Z test_clock guarded_binding [] (circuit_world 5 open_circuit)
  ⇓ (circuit_open_result "cap", circuit_world 6 open_circuit).
Proof.
  refine (@open_circuit_rejects Z test_clock guarded_binding [] 1%positive open_circuit
    (circuit_world 5 open_circuit) eq_refl eq_refl _ eq_refl).
  discriminate.
Defined.

(** ** Properties of the registry *)
Lemma emplace_binding_lookup {W} name k (b : CapabilityBinding W) reg :
  emplace_binding k b reg !! name =
    match reg !! name with
    | Some x => Some x
    | None => if bool_decide (k = name) then Some b else None
    end.
Proof.
  unfold emplace_binding. destruct (reg !! k) eqn:Ek.
  - destruct (reg !! name) eqn:En; [done|]. case_bool_decide; congruence.
  - case_bool_decide as Hk.
    + subst. by rewrite lookup_insert_eq, Ek.
    + rewrite lookup_insert_ne by done. by destruct (reg !! name).
Qed.

(** A registered mock answers with its value at the first attempt and
    without side effects, and a later registration under the same name is
    ignored. *)
Theorem mock_answers {E} `{Environment E} name v (b : CapabilityBinding (World E)) reg args w :
  has reg name = false → value_ok v →
  invoke (emplace_binding name b (register_mock name v reg)) name args w
  ⇓ (mkCallResult CapabilityCallStatus.Success (Some v) "" 1, w).
Proof.
  intros Hn Hv. unfold has in Hn. apply bool_decide_eq_false in Hn. rewrite <- eq_None_not_Some in Hn.
  unfold invoke. rewrite emplace_binding_lookup. unfold register_mock.
  rewrite emplace_binding_lookup, Hn, bool_decide_true by done.
  unfold invoke_with_retry, active_circuit. simpl.
  unfold run_attempts. simpl. unfold mbind, eff_bind. simpl. by rewrite clone_value_id.
Qed.

Lemma mock_answers_witness :
  @invoke Z test_clock (emplace_binding "f" failing_binding (register_mock "f" (IntValue 3) ∅))
    "f" [] (mkWorld 0 ∅)
  ⇓ (mkCallResult CapabilityCallStatus.Success (Some (IntValue 3)) "" 1, mkWorld 0 ∅).
Proof. apply (@mock_answers Z test_clock); [reflexivity | by constructor]. Defined.
