(* ===== verification/CapabilityEval.v ===== *)
(** * Expressions with capability calls (src/runtime/engine/capability_eval.cpp)

    The source's call handler is a closure that refers to itself: a call's
    arguments are evaluated with the same handler.  [call_handler] unrolls
    it; each unrolling goes down one call, so the nesting depth of the
    expression is fuel enough, and [eval_handler_call] gives back the
    source's recursive equation, without fuel. *)
From S2P Require Import Prelude Numeric Ir Diagnostics Value EvalContext.
From S2P Require Import Evaluator EvaluatorProps CapabilityBridge.

Definition capability_call_status_name (s : CapabilityCallStatus.t) : string :=
  match s with
  | CapabilityCallStatus.Success => "success"
  | CapabilityCallStatus.Error => "error"
  | CapabilityCallStatus.Timeout => "timeout"
  | CapabilityCallStatus.RetryExhausted => "retry_exhausted"
  | CapabilityCallStatus.CircuitOpen => "circuit_open"
  end.

Definition make_capability_error (msg : string) : EvalResult :=
  mkEvalResult make_none (emit_error_code msg "backend.EXECUTION_ERROR" empty_bag).
Definition make_unknown_capability_error (msg : string) : EvalResult :=
  mkEvalResult make_none (emit_error_code msg "typecheck.UNKNOWN_CAPABILITY" empty_bag).

Definition capability_call_result_to_eval_result (callee : string) (r : CapabilityCallResult)
    : EvalResult :=
  if is_success r then value_result (default make_none (call_value r))
  else
    let message := "capability '" +:+ callee +:+ "' failed with status " +:+
                   capability_call_status_name (call_status r) in
    let message := if bool_decide (error_message r = "") then message
                   else message +:+ ": " +:+ error_message r in
    let message := if (0 <? attempts r)%Z
                   then message +:+ " (attempts=" +:+ to_string (attempts r) +:+ ")"
                   else message in
    make_capability_error message.

(** [invoke_call]: what a call does once its arguments are evaluated. *)
Definition InvokeCall (W : Type) : Type := string → list Value → eff W EvalResult.

(** The loop over the arguments: [inl] is an early return. *)
Section Args.
Context {W : Type} (ev : Expr → eff W EvalResult) (callee : string).
Fixpoint eval_args (args : list ExprRef) (arg_values : list Value)
    : eff W (EvalResult + list Value) :=
  match args with
  | [] => mret (inr arg_values)
  | None :: _ =>
      mret (inl (make_capability_error
        ("capability '" +:+ callee +:+ "' has null argument expression")))
  | Some e :: args =>
      r ← ev e;
      if has_errors r then mret (inl r)
      else eval_args args (arg_values ++ [er_value r])
  end.
End Args.

(** The body of the handler, over the evaluator of the arguments. *)
Definition handle_call {W} (invoke_call : InvokeCall W) (ev : Expr → eff W EvalResult)
    (callee : string) (args : list ExprRef) : eff W EvalResult :=
  out ← eval_args ev callee args [];
  match out with
  | inl r => mret r
  | inr arg_values => invoke_call callee arg_values
  end.

Fixpoint call_handler {W} (fuel : nat) (invoke_call : InvokeCall W) : CallEvalFn W :=
  match fuel with
  | O => λ _ _ _ _, NoFuel
  | S fuel => λ callee args ctx,
      handle_call invoke_call
        (λ e, eval_expr_calls e ctx (call_handler fuel invoke_call)) callee args
  end.

Definition eval_expr_with_capability_call_handler {W} (expr : Expr) (ctx : EvalContext)
    (invoke_call : InvokeCall W) : eff W EvalResult :=
  eval_expr_calls expr ctx (call_handler (expr_depth expr) invoke_call).

(** ** The three entry points; a null registry or an empty invoker is [None] *)
Definition invoke_registry {E} `{Environment E} (registry : option (CapabilityRegistry (World E)))
    : InvokeCall (World E) := λ callee arg_values,
  match registry with
  | None => mret (make_unknown_capability_error
      ("capability registry is null when invoking '" +:+ callee +:+ "'"))
  | Some reg =>
      if has reg callee then
        r ← invoke reg callee arg_values;
        mret (capability_call_result_to_eval_result callee r)
      else mret (make_unknown_capability_error ("unknown capability '" +:+ callee +:+ "'"))
  end.
Definition eval_expr_with_registry {E} `{Environment E} (expr : Expr) (ctx : EvalContext)
    (registry : option (CapabilityRegistry (World E))) : eff (World E) EvalResult :=
  eval_expr_with_capability_call_handler expr ctx (invoke_registry registry).

Definition empty_invoker_error (callee : string) : EvalResult :=
  make_unknown_capability_error
    ("capability invoker is empty when invoking '" +:+ callee +:+ "'").

Definition invoke_plain {W} (invoker : option (CapabilityInvoker W)) : InvokeCall W :=
  λ callee arg_values,
  match invoker with
  | None => mret (empty_invoker_error callee)
  | Some f =>
      r ← f callee arg_values;
      mret (capability_call_result_to_eval_result callee r)
  end.
Definition eval_expr_with_invoker {W} (expr : Expr) (ctx : EvalContext)
    (invoker : option (CapabilityInvoker W)) : eff W EvalResult :=
  eval_expr_with_capability_call_handler expr ctx (invoke_plain invoker).

Definition invoke_contextual {W} (invoker : option (ContextualCapabilityInvoker W))
    (context : CapabilityInvocationContext) : InvokeCall W :=
  invoke_plain ((λ f, f context) <$> invoker).
Definition eval_expr_with_contextual_invoker {W} (expr : Expr) (ctx : EvalContext)
    (invoker : option (ContextualCapabilityInvoker W)) (context : CapabilityInvocationContext)
    : eff W EvalResult :=
  eval_expr_with_capability_call_handler expr ctx (invoke_contextual invoker context).

(** ** The fuel is enough *)
Lemma foldr_max_le {A} (f : A → nat) (l : list A) x :
  x ∈ l → (f x ≤ foldr (λ y m, f y `max` m) 0 l)%nat.
Proof. induction 1; simpl; lia. Qed.

Lemma elem_of_option_list {A} (x : A) o : x ∈ option_list o ↔ o = Some x.
Proof.
  destruct o as [y|]; simpl; [|split; [by intros ?%elem_of_nil | done]].
  rewrite list_elem_of_singleton. naive_solver.
Qed.

Lemma children_depth n sr t id :
  Forall (λ e, (expr_depth e < expr_depth (mkExpr n sr t id))%nat) (children n).
Proof.
  set (od := λ o : option Expr, match o with Some e => expr_depth e | None => 0%nat end).
  assert (Hod : ∀ o e, e ∈ option_list o → (expr_depth e ≤ od o)%nat).
  { intros o e ->%elem_of_option_list. done. }
  assert (Hl : ∀ (l : list (option Expr)) e, e ∈ l ≫= option_list →
            (expr_depth e ≤ foldr (λ o m, od o `max` m) 0 l)%nat).
  { intros l e (o & Ho & Hin)%list_elem_of_bind. pose proof (foldr_max_le od l o Hin).
    pose proof (Hod o e Ho). lia. }
  apply Forall_forall. intros e He.
  destruct n as [| | | | | | |o| | |s l|s l|l|l|l|u o|b o1 o2|o s|o1 o2]; simpl in He |- *;
    try (by apply elem_of_nil in He); apply Nat.lt_succ_r.
  1, 7, 9: by apply Hod.
  1, 3, 4: by apply Hl.
  3, 4: apply elem_of_app in He as [He%Hod|He%Hod]; subst od; simpl in *; lia.
  - apply list_elem_of_bind in He as ([x o] & Ho & Hin).
    pose proof (foldr_max_le (λ f : string * option Expr, od f.2) l _ Hin). apply Hod in Ho.
    etrans; [exact Ho | done].
  - apply list_elem_of_bind in He as ([o1 o2] & Ho & Hin).
    pose proof (foldr_max_le (λ f : option Expr * option Expr, (od f.1 `max` od f.2)%nat) l _ Hin)
      as Hm. simpl in Ho, Hm. apply elem_of_app in Ho.
    assert (Hle : (expr_depth e ≤ od o1 `max` od o2)%nat) by (destruct Ho as [Ho%Hod|Ho%Hod]; lia).
    etrans; [exact Hle | exact Hm].
Qed.

Section Fuel.
Context {W : Type} (invoke_call : InvokeCall W) (ctx : EvalContext).

Lemma eval_args_ext (ev1 ev2 : Expr → eff W EvalResult) callee args vs w :
  Forall (λ e, ∀ w, ev1 e w = ev2 e w) (args ≫= option_list) →
  eval_args ev1 callee args vs w = eval_args ev2 callee args vs w.
Proof.
  revert vs w. induction args as [|[e|] args IH]; simpl; intros vs w Hev; [done| |done].
  apply Forall_cons in Hev as [He Hev]. apply eff_bind_ext; [done|]. intros r w1.
  destruct (has_errors r); [done | by apply IH].
Qed.

Lemma handle_call_ext (ev1 ev2 : Expr → eff W EvalResult) callee args w :
  Forall (λ e, ∀ w, ev1 e w = ev2 e w) (args ≫= option_list) →
  handle_call invoke_call ev1 callee args w = handle_call invoke_call ev2 callee args w.
Proof. intros Hev. apply eff_bind_ext; [by apply eval_args_ext | done]. Qed.

(** Any fuel that covers the depth of the expression gives the same result. *)
Lemma call_fuel_irrelevant e n m w :
  (expr_depth e ≤ n)%nat → (expr_depth e ≤ m)%nat →
  eval_expr_calls e ctx (call_handler n invoke_call) w =
  eval_expr_calls e ctx (call_handler m invoke_call) w.
Proof.
  revert n m w. induction e as [[nd sr t id] IH] using expr_induction. intros n m w Hn Hm.
  simpl in IH. pose proof (children_depth nd sr t id) as Hd.
  rewrite Forall_forall in IH, Hd. apply eval_expr_ext.
  - apply Forall_forall. intros c Hc w'. specialize (Hd c Hc). apply (IH c Hc); lia.
  - intros callee args -> w'. simpl children in IH, Hd.
    destruct n as [|n]; [simpl in Hn; lia|]. destruct m as [|m]; [simpl in Hm; lia|].
    apply handle_call_ext, Forall_forall. intros c Hc w''. specialize (Hd c Hc).
    apply (IH c Hc); lia.
Qed.

(** Evaluation of a call's argument does not depend on the enclosing call. *)
Lemma handler_args callee args sr t id w :
  eval_expr_with_capability_call_handler (mkExpr (CallExpr callee args) sr t id) ctx invoke_call w =
  handle_call invoke_call (λ e, eval_expr_with_capability_call_handler e ctx invoke_call)
    callee args w.
Proof.
  unfold eval_expr_with_capability_call_handler at 1.
  destruct (expr_depth (mkExpr (CallExpr callee args) sr t id)) as [|n] eqn:En;
    [simpl in En; lia|].
  apply handle_call_ext, Forall_forall. intros e He w'.
  pose proof (children_depth (CallExpr callee args) sr t id) as Hd.
  rewrite Forall_forall in Hd. specialize (Hd e He). apply call_fuel_irrelevant; lia.
Qed.
End Fuel.


(** [f(g())], with capabilities that record the order of the calls. *)
Example nested_call :
  eval_expr_with_capability_call_handler
    (bare (CallExpr "f" [Some (bare (CallExpr "g" []))])) empty_context
    (λ callee vs n, Ret (value_result (make_list vs), (n ++ [callee])%list)) []
  ⇓ (value_result (ListValue [Some (ListValue [])]), ["g"; "f"]).
Proof. reflexivity. Qed.

(** ** The contract of the handler *)
Section Contract.
Context {W : Type} (invoke_call : InvokeCall W).

Lemma make_capability_error_ok msg : result_ok (make_capability_error msg).
Proof. split; simpl; auto with ahfl. Qed.
Lemma make_unknown_capability_error_ok msg : result_ok (make_unknown_capability_error msg).
Proof. split; simpl; auto with ahfl. Qed.

Section Ok.
Context (Hinv : ∀ callee vs, Forall value_ok vs → post result_ok (invoke_call callee vs)).

Lemma eval_args_ok (ev : Expr → eff W EvalResult) callee args vs :
  (∀ e, post result_ok (ev e)) → Forall value_ok vs →
  post (λ out, match out with inl r => result_ok r | inr vs => Forall value_ok vs end)
    (eval_args ev callee args vs).
Proof.
  intros Hev. revert vs. induction args as [|[e|] args IH]; simpl; intros vs Hvs;
    [by apply post_ret | | apply post_ret, make_capability_error_ok].
  eapply post_bind; [apply Hev|]. intros r Hr. destruct (has_errors r); [by apply post_ret|].
  apply IH, Forall_app. split; [done|]. apply Forall_cons. split; [apply Hr | constructor].
Qed.

Lemma call_handler_ok n callee args ctx :
  context_ok ctx → post result_ok (call_handler n invoke_call callee args ctx).
Proof.
  intros Hctx. revert callee args. induction n as [|n IH]; intros callee args; [by intros ???|].
  simpl. eapply post_bind.
  - apply eval_args_ok; [|constructor]. intros e. apply eval_expr_impl_post; [done|]. apply IH.
  - intros [r|vs] Ho; [by apply post_ret | by apply Hinv].
Qed.

(** Well-formed results, when the invoked capabilities return such. *)
Lemma eval_handler_ok e ctx :
  context_ok ctx → post result_ok (eval_expr_with_capability_call_handler e ctx invoke_call).
Proof.
  intros Hctx. apply eval_expr_impl_post; [done|]. intros. by apply call_handler_ok.
Qed.
End Ok.

Section Totality.
Context (Hinv : ∀ callee vs, total (invoke_call callee vs)).

Lemma eval_args_total (ev : Expr → eff W EvalResult) callee args vs :
  Forall (λ e, total (ev e)) (args ≫= option_list) → total (eval_args ev callee args vs).
Proof.
  revert vs. induction args as [|[e|] args IH]; simpl; intros vs Hev; [done| |done].
  apply Forall_cons in Hev as [He Hev]. apply total_bind; [done|]. intros r.
  destruct (has_errors r); [apply total_ret | by apply IH].
Qed.

Lemma eval_calls_total e n ctx :
  (expr_depth e ≤ n)%nat → total (eval_expr_calls e ctx (call_handler n invoke_call)).
Proof.
  revert n. induction e as [[nd sr t id] IH] using expr_induction. intros n Hn.
  simpl in IH. pose proof (children_depth nd sr t id) as Hd. rewrite Forall_forall in IH, Hd.
  apply (eval_node_closed (λ A, @total W A)).
  - apply Forall_forall. intros c Hc. specialize (Hd c Hc). apply (IH c Hc). lia.
  - intros callee args ->. destruct n as [|n]; [simpl in Hn; lia|]. simpl.
    apply total_bind.
    + apply eval_args_total, Forall_forall. intros c Hc. specialize (Hd c Hc).
      apply (IH c Hc). lia.
    + intros [r|vs]; [apply total_ret | apply Hinv].
Qed.

(** Evaluation terminates when the invoked capabilities do. *)
Lemma eval_handler_total e ctx :
  total (eval_expr_with_capability_call_handler e ctx invoke_call).
Proof. by apply eval_calls_total. Qed.
End Totality.
End Contract.

(** ** Invokers *)

(** A capability back end returns well-formed values. *)
Definition call_result_ok (r : CapabilityCallResult) : Prop :=
  ∀ v, call_value r = Some v → value_ok v.

Lemma capability_result_ok callee r :
  call_result_ok r → result_ok (capability_call_result_to_eval_result callee r).
Proof.
  intros Hr. unfold capability_call_result_to_eval_result. destruct (is_success r).
  - apply value_result_ok. destruct (call_value r) as [v|] eqn:E; simpl; [by apply Hr|].
    constructor.
  - apply make_capability_error_ok.
Qed.

Lemma invoke_plain_ok {W} (f : option (CapabilityInvoker W)) callee vs :
  (∀ f', f = Some f' → post call_result_ok (f' callee vs)) →
  post result_ok (invoke_plain f callee vs).
Proof.
  intros Hf. unfold invoke_plain. destruct f as [f|].
  - eapply post_bind; [by apply Hf|]. intros r Hr. apply post_ret. by apply capability_result_ok.
  - apply post_ret, make_unknown_capability_error_ok.
Qed.

Lemma invoke_plain_total {W} (f : option (CapabilityInvoker W)) callee vs :
  (∀ f', f = Some f' → total (f' callee vs)) → total (invoke_plain f callee vs).
Proof.
  intros Hf. unfold invoke_plain. destruct f as [f|]; [|apply total_ret].
  apply total_bind; [by apply Hf | intros; apply total_ret].
Qed.

(** A call's outcome: the result has an error exactly when the call did
    not succeed, a successful one carries the capability's value or none. *)
Theorem capability_result_spec callee r :
  has_errors (capability_call_result_to_eval_result callee r) = negb (is_success r) ∧
  er_value (capability_call_result_to_eval_result callee r) =
    (if is_success r then default NoneValue (call_value r) else NoneValue).
Proof. unfold capability_call_result_to_eval_result. by destruct (is_success r). Qed.
