(* ===== verification/AgentRuntime.v ===== *)
(** * The agent runtime (src/runtime/engine/agent_runtime.{hpp,cpp})

    An agent runs the handler of its current state over and over; the outcome
    of the handler decides the next state or the end.  The capability
    closures of the source read the current state through a reference: here
    they are rebuilt for each state. *)
From Stdlib Require Import Ascii.
From S2P Require Import Prelude Numeric Ir ProgramIndex Diagnostics Value EvalContext.
From S2P Require Import Evaluator EvaluatorProps Executor CapabilityBridge CapabilityEval.
Open Scope Z_scope.

(** [steady_clock::now()] of a world. *)
Class Clock (W : Type) := clock_now : W → Z * W.
#[export] Instance world_clock {E} `{Environment E} : Clock (World E) := λ w,
  let '(t, e) := steady_now (env w) in (t, mkWorld e (circuits w)).
Definition tick {W} `{Clock W} : eff W Z := λ w, Ret (clock_now w).

(** ** Data *)
Module AgentStatus.
Inductive t := Running | Completed | Failed | QuotaExceeded | InvalidTransition | InfiniteLoop.
End AgentStatus.
#[export] Instance agent_status_eq_dec : EqDecision AgentStatus.t.
Proof. solve_decision. Defined.

Record AgentStats := mkStats {
  state_transitions : Z;
  tool_calls : Z;
  start_time : Z;
  end_time : Z }.
Definition elapsed_ms (s : AgentStats) : cxx Z :=
  d ← int64_sub (end_time s) (start_time s); Ret (Z.quot d 1000000).

Record AgentResult := mkAgentResult {
  ar_status : AgentStatus.t;
  ar_output : option Value;
  current_state : string;
  visited_states : gset string;
  ar_stats : AgentStats;
  ar_diagnostics : DiagnosticBag }.
Definition is_terminal (r : AgentResult) : bool :=
  negb (bool_decide (ar_status r = AgentStatus.Running)).

Record QuotaConfig := mkQuota {
  max_state_transitions : option Z;
  max_tool_calls : option Z;
  max_execution_time : option Z }.
Definition no_quota : QuotaConfig := mkQuota None None None.

Record AgentRuntime (W : Type) := mkRuntime {
  agent_ : AgentDecl;
  flow_ : FlowDecl;
  quota_ : QuotaConfig;
  capability_invoker_ : option (CapabilityInvoker W);
  contextual_capability_invoker_ : option (ContextualCapabilityInvoker W);
  invocation_context_ : CapabilityInvocationContext }.
Arguments mkRuntime {W} _ _ _ _ _ _.
Arguments agent_ {W} _.
Arguments flow_ {W} _.
Arguments quota_ {W} _.
Arguments capability_invoker_ {W} _.
Arguments contextual_capability_invoker_ {W} _.
Arguments invocation_context_ {W} _.

(** ** Quotas *)
(** [s] without the suffix [suf], when it ends with it. *)
Definition strip_suffix (suf s : string) : option string :=
  let n := (String.length s - String.length suf)%nat in
  if bool_decide (String.length suf ≤ String.length s)%nat
     && bool_decide (String.substring n (String.length suf) s = suf)
  then Some (String.substring 0 n s) else None.

Definition parse_size (s : string) : option Z :=
  match from_chars_size s with ConvOk v => Some v | _ => None end.
(** "30s", "5000ms" *)
Definition parse_duration (s : string) : option Z :=
  match strip_suffix "ms" s with
  | Some num => int64_of_size <$> parse_size num
  | None =>
      match strip_suffix "s" s with
      | Some num => (λ v, int64_of_size (size_mul v 1000)) <$> parse_size num
      | None => None
      end
  end.
(** [if (parsed) field = value;] *)
Definition or_keep {A} (parsed old : option A) : option A :=
  match parsed with Some _ => parsed | None => old end.
Definition parse_quota_item (config : QuotaConfig) (item : QuotaItem) : QuotaConfig :=
  let '(mkQuota st tc et) := config in
  if bool_decide (quota_name item = "max_state_transitions") then
    mkQuota (or_keep (parse_size (quota_value item)) st) tc et
  else if bool_decide (quota_name item = "max_tool_calls") then
    mkQuota st (or_keep (parse_size (quota_value item)) tc) et
  else if bool_decide (quota_name item = "max_execution_time") then
    mkQuota st tc (or_keep (parse_duration (quota_value item)) et)
  else config.
Definition parse_quota (items : list QuotaItem) : QuotaConfig :=
  fold_left parse_quota_item items no_quota.

(** The constructor: explicit limits win over the declared ones. *)
Definition make_agent_runtime {W} (agent : AgentDecl) (flow : FlowDecl) (quota : QuotaConfig)
    : AgentRuntime W :=
  let parsed := parse_quota (agent_quota agent) in
  mkRuntime agent flow
    (mkQuota (or_keep (max_state_transitions quota) (max_state_transitions parsed))
             (or_keep (max_tool_calls quota) (max_tool_calls parsed))
             (or_keep (max_execution_time quota) (max_execution_time parsed)))
    None None default_invocation_context.
Definition set_capability_invoker {W} (f : option (CapabilityInvoker W)) (rt : AgentRuntime W) :=
  mkRuntime (agent_ rt) (flow_ rt) (quota_ rt) f (contextual_capability_invoker_ rt)
    (invocation_context_ rt).
Definition set_contextual_capability_invoker {W} (f : option (ContextualCapabilityInvoker W))
    (rt : AgentRuntime W) :=
  mkRuntime (agent_ rt) (flow_ rt) (quota_ rt) (capability_invoker_ rt) f (invocation_context_ rt).
Definition set_invocation_context {W} (c : CapabilityInvocationContext) (rt : AgentRuntime W) :=
  mkRuntime (agent_ rt) (flow_ rt) (quota_ rt) (capability_invoker_ rt)
    (contextual_capability_invoker_ rt) c.

(** ** Helpers of the loop *)
Definition find_handler (flow : FlowDecl) (s : string) : option StateHandler :=
  head (base.filter (λ h, handler_state_name h = s) (state_handlers flow)).
Definition is_valid_transition (agent : AgentDecl) (from to : string) : bool :=
  existsb (λ t, bool_decide (from_state t = from) && bool_decide (to_state t = to))
          (transitions agent).
Definition is_final_state (agent : AgentDecl) (s : string) : bool :=
  bool_decide (s ∈ final_states agent).

(** The expression evaluator in a state. *)
Definition agent_expr_eval {W} (rt : AgentRuntime W) (state : string) : option (ExprEvalFn W) :=
  match contextual_capability_invoker_ rt with
  | Some invoker =>
      let c := invocation_context_ rt in
      let context := mkInvocationContext (workflow_name c) (workflow_node_name c)
        (agent_name (agent_ rt)) state (workflow_node_execution_index c)
        (has_workflow_node_context c) in
      Some (λ e ctx, eval_expr_with_contextual_invoker e ctx (Some invoker) context)
  | None =>
      match capability_invoker_ rt with
      | Some invoker => Some (λ e ctx, eval_expr_with_invoker e ctx (Some invoker))
      | None => None
      end
  end.

(** The fields of a struct input become the input scope. *)
Definition inject_input (input : Value) : EvalContext :=
  match input with
  | StructValue _ fields =>
      fold_left (λ c f, match f.2 with
                        | Some v => set_input f.1 (clone_value v) c
                        | None => c
                        end) fields empty_context
  | _ => empty_context
  end.

Definition finish (status : AgentStatus.t) (r : AgentResult) : AgentResult :=
  mkAgentResult status (ar_output r) (current_state r) (visited_states r) (ar_stats r)
    (ar_diagnostics r).
Definition fail_with (status : AgentStatus.t) (msg : string) (r : AgentResult) : AgentResult :=
  mkAgentResult status (ar_output r) (current_state r) (visited_states r) (ar_stats r)
    (emit_error msg (ar_diagnostics r)).
Definition add_diagnostics (b : DiagnosticBag) (r : AgentResult) : AgentResult :=
  mkAgentResult (ar_status r) (ar_output r) (current_state r) (visited_states r) (ar_stats r)
    (append (ar_diagnostics r) b).
Definition set_output (v : Value) (r : AgentResult) : AgentResult :=
  mkAgentResult (ar_status r) (Some v) (current_state r) (visited_states r) (ar_stats r)
    (ar_diagnostics r).
(** Move to a state: count the transition, mark the state visited. *)
Definition enter_state (s : string) (r : AgentResult) : AgentResult :=
  mkAgentResult (ar_status r) (ar_output r) s ({[s]} ∪ visited_states r)
    (mkStats (size_succ (state_transitions (ar_stats r))) (tool_calls (ar_stats r))
       (start_time (ar_stats r)) (end_time (ar_stats r)))
    (ar_diagnostics r).
Definition set_end_time (t : Z) (r : AgentResult) : AgentResult :=
  mkAgentResult (ar_status r) (ar_output r) (current_state r) (visited_states r)
    (mkStats (state_transitions (ar_stats r)) (tool_calls (ar_stats r))
       (start_time (ar_stats r)) t)
    (ar_diagnostics r).

Section Run.
Context {W : Type} `{Clock W} (rt : AgentRuntime W).

(** [elapsed > *quota_.max_execution_time], in nanoseconds. *)
Definition time_exceeded (start : Z) : eff W bool :=
  match max_execution_time (quota_ rt) with
  | None => mret false
  | Some ms =>
      now ← tick;
      elapsed ← ⌊ int64_sub now start ⌋;
      limit ← ⌊ int64_mul ms 1000000 ⌋;
      mret (limit <? elapsed)
  end.
Definition transitions_exhausted (r : AgentResult) : bool :=
  match max_state_transitions (quota_ rt) with
  | None => false
  | Some m => m <=? state_transitions (ar_stats r)
  end.

Definition max_visits : Z := 100.

(** What the outcome of a handler does: [inl] ends the run, [inr] goes on in
    the new state with the new visit counts. *)
Definition handle_outcome (r : AgentResult) (visits : gmap string Z) (x : ExecResult)
    : AgentResult + (AgentResult * gmap string Z) :=
  let state := current_state r in
  let r := add_diagnostics (xr_diagnostics x) r in
  if exec_has_errors x then inl (finish AgentStatus.Failed r)
  else match outcome x with
  | ExecContinue =>
      if is_final_state (agent_ rt) state then inl (finish AgentStatus.Completed r)
      else inl (fail_with AgentStatus.Failed
             ("state '" +:+ state +:+ "' handler completed without goto or return") r)
  | ExecGoto target =>
      if negb (is_valid_transition (agent_ rt) state target) then
        inl (fail_with AgentStatus.InvalidTransition
          ("invalid transition from '" +:+ state +:+ "' to '" +:+ target +:+ "'") r)
      else
        let r := enter_state target r in
        let n := size_succ (default 0 (visits !! target)) in
        if max_visits <? n then
          inl (fail_with AgentStatus.InfiniteLoop
            ("infinite loop detected: state '" +:+ target +:+ "' visited more than 100 times") r)
        else inr (r, <[target := n]> visits)
  | ExecReturn v =>
      if is_final_state (agent_ rt) state
      then inl (set_output v (finish AgentStatus.Completed r))
      else inl (fail_with AgentStatus.Failed
             ("return statement in non-final state '" +:+ state +:+ "'") r)
  | ExecAssertFailed msg =>
      inl (fail_with AgentStatus.Failed
        ("assertion failed in state '" +:+ state +:+ "': " +:+ msg) r)
  end.

(** The main loop. *)
Fixpoint run_loop (fuel : nat) (r : AgentResult) (ctx : EvalContext) (visits : gmap string Z)
    : eff W AgentResult :=
  match fuel with
  | O => λ _, NoFuel
  | S fuel =>
      if transitions_exhausted r then
        mret (fail_with AgentStatus.QuotaExceeded
                "quota exceeded: max_state_transitions reached" r)
      else
        late ← time_exceeded (start_time (ar_stats r));
        if (late : bool) then
          mret (fail_with AgentStatus.QuotaExceeded
                  "quota exceeded: max_execution_time reached" r)
        else
          match find_handler (flow_ rt) (current_state r) with
          | None =>
              mret (fail_with AgentStatus.Failed
                      ("no handler found for state '" +:+ current_state r +:+ "'") r)
          | Some h =>
              xc ← exec_block (handler_body h)
                     (mkExecContext ctx (agent_expr_eval rt (current_state r)));
              match handle_outcome r visits xc.1 with
              | inl r => mret r
              | inr (r, visits) => run_loop fuel r (eval_ctx xc.2) visits
              end
          end
  end.

(** Each transition target can be entered [max_visits] times. *)
Definition run_fuel : nat :=
  S (100 * length (remove_dups (to_state <$> transitions (agent_ rt)))).

Definition run_from_state (input : Value) (start_state : string) : eff W AgentResult :=
  start ← tick;
  r ← run_loop run_fuel
        (mkAgentResult AgentStatus.Running None start_state {[start_state]}
           (mkStats 0 0 start 0) empty_bag)
        (inject_input input) {[start_state := 1]};
  t ← tick;
  mret (set_end_time t r).
Definition run (input : Value) : eff W AgentResult :=
  run_from_state input (initial_state (agent_ rt)).
End Run.

Definition build_agent_runtime {W} (program : Program) (name : string) (quota : QuotaConfig)
    : option (AgentRuntime W) :=
  let index := rebuild program in
  match find_agent index name, find_flow_for_agent index name with
  | Some agent, Some flow => Some (make_agent_runtime agent flow quota)
  | _, _ => None
  end.

(** ** Properties of the agent runtime

    Termination of the run loop, the states a run goes through, and what each
    final status means. *)


(** ** The contract of the capability back end *)
Record invokers_ok {W} (rt : AgentRuntime W) : Prop := {
  invoker_ok : ∀ f, capability_invoker_ rt = Some f →
    ∀ name vs, Forall value_ok vs → post call_result_ok (f name vs);
  contextual_ok : ∀ f, contextual_capability_invoker_ rt = Some f →
    ∀ c name vs, Forall value_ok vs → post call_result_ok (f c name vs) }.
Record invokers_total {W} (rt : AgentRuntime W) : Prop := {
  invoker_total : ∀ f, capability_invoker_ rt = Some f → ∀ name vs, total (f name vs);
  contextual_total : ∀ f, contextual_capability_invoker_ rt = Some f →
    ∀ c name vs, total (f c name vs) }.

Lemma agent_expr_eval_ok {W} (rt : AgentRuntime W) s ctx :
  invokers_ok rt → context_ok ctx → exec_context_ok (mkExecContext ctx (agent_expr_eval rt s)).
Proof.
  intros [Hp Hc] Hctx. split; [done|]. unfold agent_expr_eval. simpl. intros f Hf e c Hok.
  destruct (contextual_capability_invoker_ rt) as [g|] eqn:Eg;
    [|destruct (capability_invoker_ rt) as [g|] eqn:Eg'; [|done]]; injection Hf as <-;
    apply eval_handler_ok; try done; intros callee vs Hvs; apply invoke_plain_ok;
    intros f' [= <-]; [by apply (Hc g) | by apply (Hp g)].
Qed.

Lemma agent_expr_eval_total {W} (rt : AgentRuntime W) s f e ctx :
  invokers_total rt → agent_expr_eval rt s = Some f → total (f e ctx).
Proof.
  intros [Hp Hc] Hf. unfold agent_expr_eval in Hf.
  destruct (contextual_capability_invoker_ rt) as [g|] eqn:Eg;
    [|destruct (capability_invoker_ rt) as [g|] eqn:Eg'; [|done]]; injection Hf as <-;
    apply eval_handler_total; intros callee vs; apply invoke_plain_total;
    intros f' [= <-]; [by apply (Hc g) | by apply (Hp g)].
Qed.

Lemma inject_input_ok input : value_ok input → context_ok (inject_input input).
Proof.
  intros Hv. destruct input as [| | | | | | |t fs| | |]; simpl; try apply empty_context_ok.
  inversion Hv as [| | | | | | |? ? _ Hall| | | |]; subst. clear Hv.
  generalize empty_context_ok. generalize empty_context.
  induction Hall as [|[k o] fs (x & Hx & Hok) Hall IH]; intros c Hc; simpl; [done|].
  simpl in Hx. subst o. apply IH. apply set_input_ok; [|done]. by rewrite clone_value_id.
Qed.

(** ** The states of a run *)
(** [agent_path agent s p]: [p] lists states from [s] on, each reached from the
    one before by a declared transition. *)
Inductive agent_path (agent : AgentDecl) (s : string) : list string → Prop :=
  | path_start : agent_path agent s [s]
  | path_step p u t :
      agent_path agent s p → last p = Some u → is_valid_transition agent u t = true →
      agent_path agent s (p ++ [t]).

(** How often a state occurs in a path. *)
Definition visits_in (t : string) (p : list string) : Z :=
  Z.of_nat (length (base.filter (λ x, x = t) p)).

Lemma visits_in_snoc t p x :
  visits_in t (p ++ [x]) = visits_in t p + (if decide (x = t) then 1 else 0).
Proof.
  unfold visits_in. rewrite filter_app, length_app, filter_cons.
  destruct (decide (x = t)); simpl; lia.
Qed.

(** The path behind a result. *)
Record path_of (agent : AgentDecl) (start : string) (p : list string) (r : AgentResult) : Prop := {
  path_valid : agent_path agent start p;
  path_last : last p = Some (current_state r);
  path_visited : visited_states r = list_to_set p;
  path_count : state_transitions (ar_stats r) = to_size (Z.of_nat (length p) - 1) }.

Record running {W} (rt : AgentRuntime W) (start : string) (p : list string) (r : AgentResult)
    (visits : gmap string Z) : Prop := {
  running_path : path_of (agent_ rt) start p r;
  running_visits : ∀ t, default 0 (visits !! t) = visits_in t p;
  running_bound : ∀ t, visits_in t p ≤ max_visits;
  running_output : ar_output r = None;
  running_bag : bag_ok (ar_diagnostics r);
  running_errors : has_error (ar_diagnostics r) = false }.

(** What a finished run promises. *)
Record finished {W} (rt : AgentRuntime W) (start : string) (r : AgentResult) : Prop := {
  finished_terminal : is_terminal r = true;
  finished_path : ∃ p, path_of (agent_ rt) start p r ∧ ∀ t, visits_in t p ≤ max_visits + 1;
  finished_errors : has_error (ar_diagnostics r) = negb (bool_decide (ar_status r = AgentStatus.Completed));
  finished_completed : ar_status r = AgentStatus.Completed →
    is_final_state (agent_ rt) (current_state r) = true ∧ transitions_exhausted rt r = false;
  finished_output : ∀ v, ar_output r = Some v → value_ok v ∧ ar_status r = AgentStatus.Completed;
  finished_bag : bag_ok (ar_diagnostics r) }.

Section Steps.
Context {W : Type} `{Clock W} (rt : AgentRuntime W) (start : string).

(** Ending with an error. *)
Lemma fail_finished st msg r p visits :
  running rt start p r visits → st ≠ AgentStatus.Running → st ≠ AgentStatus.Completed →
  finished rt start (fail_with st msg r).
Proof.
  intros [[] _ Hb Ho Hbag He] H1 H2. split; simpl.
  - unfold is_terminal. simpl. by rewrite bool_decide_false.
  - exists p. split; [by split|]. intros t. specialize (Hb t). lia.
  - rewrite has_error_emit, bool_decide_false; done.
  - done.
  - congruence.
  - auto with ahfl.
Qed.

Lemma running_add_diagnostics b p r visits :
  running rt start p r visits → bag_ok b → has_error b = false →
  running rt start p (add_diagnostics b r) visits.
Proof.
  intros [[] ?? Ho Hbag He] Hb Hbe. split; simpl; auto with ahfl; [by split|].
  by rewrite has_error_append, He, Hbe.
Qed.

Lemma complete_finished p r visits :
  running rt start p r visits → is_final_state (agent_ rt) (current_state r) = true →
  transitions_exhausted rt r = false → finished rt start (finish AgentStatus.Completed r).
Proof.
  intros [[] ? Hb Ho Hbag He] Hf Ht. split; simpl; try done.
  - exists p. split; [by split|]. intros t. specialize (Hb t). lia.
  - by rewrite Ho.
Qed.

Lemma set_output_finished v r :
  finished rt start r → ar_status r = AgentStatus.Completed → value_ok v →
  finished rt start (set_output v r).
Proof.
  intros [Ht (p & [] & Hp) He Hc Ho Hb] Hs Hv. split; try done.
  - exists p. split; [by split | done].
  - intros v' [= <-]. done.
Qed.

Lemma enter_path t p r :
  path_of (agent_ rt) start p r → is_valid_transition (agent_ rt) (current_state r) t = true →
  path_of (agent_ rt) start (p ++ [t]) (enter_state t r).
Proof.
  intros [Hp Hl Hv Hc] Ht. split; simpl.
  - by eapply path_step.
  - by rewrite last_snoc.
  - rewrite Hv, list_to_set_app_L. simpl. set_solver.
  - rewrite Hc, size_succ_to_size, length_app. simpl. f_equal. lia.
Qed.

Lemma handle_outcome_spec p r visits x gotos :
  running rt start p r visits → exec_result_ok gotos x → transitions_exhausted rt r = false →
  match handle_outcome rt r visits x with
  | inl r' => finished rt start r'
  | inr (r', visits') => ∃ t, running rt start (p ++ [t]) r' visits' ∧
      t ∈ to_state <$> transitions (agent_ rt)
  end.
Proof.
  intros Hr [Hbag Herr Hret _] Ht. unfold handle_outcome.
  assert (Hfail : exec_has_errors x = true → finished rt start
    (finish AgentStatus.Failed (add_diagnostics (xr_diagnostics x) r))).
  { intros Hx. destruct Hr as [[] ? Hb Ho Hbr He]. split; simpl; try done; auto with ahfl.
    - exists p. split; [by split|]. intros t. specialize (Hb t). lia.
    - unfold exec_has_errors in Hx. by rewrite has_error_append, He, Hx.
    - congruence. }
  destruct (exec_has_errors x) eqn:Ex; [by apply Hfail|]. clear Hfail.
  pose proof (running_add_diagnostics _ _ _ _ Hr Hbag Ex) as Hr1.
  set (r1 := add_diagnostics (xr_diagnostics x) r) in *.
  destruct (outcome x) as [|target|v|msg] eqn:Eo.
  - destruct (is_final_state _ _) eqn:Ef; [by eapply complete_finished|].
    by eapply fail_finished.
  - destruct (is_valid_transition _ _ _) eqn:Ev; simpl; [|by eapply fail_finished].
    destruct Hr1 as [Hp Hvis Hb Ho Hbag1 He1].
    pose proof (enter_path target p r1 Hp Ev) as Hp'.
    pose proof (Hb target) as Hbt. rewrite Hvis.
    replace (size_succ (visits_in target p)) with (visits_in target p + 1)
      by (symmetry; apply size_succ_small; unfold max_visits, visits_in, size_max in *; lia).
    destruct (Z.ltb_spec max_visits (visits_in target p + 1)) as [Hlt|Hge].
    + split; simpl; try done; auto with ahfl.
      * exists (p ++ [target]). split; [destruct Hp'; by split|]. intros t.
        rewrite visits_in_snoc. specialize (Hb t). case_decide; lia.
      * intros v Hv. subst r1. simpl in Ho. congruence.
    + exists target. split; [|].
      * split; try done.
        -- intros t. rewrite visits_in_snoc. destruct (decide (target = t)) as [->|].
           ++ by rewrite lookup_insert_eq.
           ++ rewrite lookup_insert_ne by done. rewrite Hvis. lia.
        -- intros t. rewrite visits_in_snoc. specialize (Hb t). case_decide; subst; lia.
      * apply existsb_exists in Ev as (tr & Hin & Htr). apply andb_true_iff in Htr as [_ Htr].
        apply bool_decide_eq_true in Htr. rewrite <- Htr. apply list_elem_of_fmap_2.
        by apply list_elem_of_In.
  - destruct (is_final_state _ _) eqn:Ef; [|by eapply fail_finished].
    apply set_output_finished; [by eapply complete_finished | done | by apply Hret].
  - by eapply fail_finished.
Qed.
End Steps.

Section Loop.
Context {W : Type} `{Clock W} (rt : AgentRuntime W) (start : string).

Lemma run_loop_finished fuel p r ctx visits :
  invokers_ok rt → running rt start p r visits → context_ok ctx →
  post (finished rt start) (run_loop rt fuel r ctx visits).
Proof.
  intros Hinv. revert p r ctx visits. induction fuel as [|fuel IH]; intros p r ctx visits Hr Hctx;
    simpl; [by intros ???|].
  destruct (transitions_exhausted rt r) eqn:Et; [by eapply post_ret, fail_finished|].
  eapply (post_bind (λ _, True)); [by intros ????|]. intros late _.
  destruct late; [by eapply post_ret, fail_finished|].
  destruct (find_handler _ _) as [h|]; [|by eapply post_ret, fail_finished].
  eapply post_bind; [by apply exec_block_post, agent_expr_eval_ok|].
  intros [x c] [Hc _ Hx]. simpl in *.
  pose proof (handle_outcome_spec rt start p r visits x _ Hr Hx Et) as Ho.
  destruct (handle_outcome rt r visits x) as [r'|[r' visits']]; [by apply post_ret|].
  destruct Ho as (t & Hr' & _). eapply IH; [exact Hr' | apply Hc].
Qed.

(** How many visits the transition targets have left. *)
Definition visits_left (visits : gmap string Z) : nat :=
  foldr (λ t n, Z.to_nat (max_visits - default 0%Z (visits !! t)) + n)%nat 0%nat
    (remove_dups (to_state <$> transitions (agent_ rt))).

Lemma foldr_sum_lt (f g : string → nat) l t :
  t ∈ l → (∀ x, g x ≤ f x)%nat → (g t < f t)%nat →
  (foldr (λ t n, g t + n) 0 l < foldr (λ t n, f t + n) 0 l)%nat.
Proof.
  intros Hin Hle Hlt. assert (Hall : ∀ l, (foldr (λ t n, g t + n) 0 l ≤ foldr (λ t n, f t + n) 0 l)%nat).
  { clear Hin. intros l'. induction l' as [|x l' IH]; simpl; [done|]. specialize (Hle x). lia. }
  induction Hin as [x l|x y l _ IH]; simpl.
  - specialize (Hall l). lia.
  - specialize (IH Hlt). specialize (Hle y). lia.
Qed.

Lemma visits_left_step p r visits p' r' visits' t :
  running rt start p r visits → running rt start p' r' visits' → p' = p ++ [t] →
  t ∈ to_state <$> transitions (agent_ rt) → (visits_left visits' < visits_left visits)%nat.
Proof.
  intros [_ Hv Hb _ _ _] [_ Hv' Hb' _ _ _] -> Ht. unfold visits_left.
  apply (foldr_sum_lt (λ t, Z.to_nat (max_visits - default 0 (visits !! t)))
                      (λ t, Z.to_nat (max_visits - default 0 (visits' !! t))) _ t).
  - by apply elem_of_remove_dups.
  - intros x. rewrite Hv, Hv', visits_in_snoc. case_decide; lia.
  - specialize (Hb' t). rewrite Hv, Hv'. rewrite visits_in_snoc in *.
    rewrite decide_True in * by done. lia.
Qed.

(** A run that has fewer visits left than fuel is not cut short.  The
    bookkeeping of visits does not depend on the contract of values. *)
Lemma run_loop_total fuel p r ctx visits :
  invokers_ok rt → invokers_total rt → running rt start p r visits → context_ok ctx →
  (visits_left visits < fuel)%nat → total (run_loop rt fuel r ctx visits).
Proof.
  intros Hok Hinv. revert p r ctx visits. induction fuel as [|fuel IH];
    intros p r ctx visits Hr Hctx Hf w; [lia|]. simpl.
  destruct (transitions_exhausted rt r) eqn:Et; [done|].
  apply eff_bind_NoFuel.
  { unfold time_exceeded. destruct (max_execution_time _); [|done].
    apply total_bind; [done|]. intros now. apply total_bind; [apply total_lift, int64_of_fuel|].
    intros e. apply total_bind; [apply total_lift, int64_of_fuel|]. done. }
  intros late w1 _. destruct late; [done|]. destruct (find_handler _ _) as [h|]; [|done].
  apply eff_bind_NoFuel.
  { eapply exec_block_total; [|reflexivity]. simpl. intros f Hf' e c.
    by eapply agent_expr_eval_total. }
  intros [x c] w2 Hrun. apply exec_block_post in Hrun as [Hc _ Hx]; [|by apply agent_expr_eval_ok].
  simpl in *. pose proof (handle_outcome_spec rt start p r visits x _ Hr Hx Et) as Ho.
  destruct (handle_outcome rt r visits x) as [r'|[r' visits']]; [done|].
  destruct Ho as (t & Hr' & Ht). eapply IH; [exact Hr' | apply Hc|].
  pose proof (visits_left_step _ _ _ _ _ _ t Hr Hr' eq_refl Ht). lia.
Qed.

(** Fuel beyond the visits that are left makes no difference. *)
Lemma run_loop_fuel fuel fuel' p r ctx visits w :
  invokers_ok rt → running rt start p r visits → context_ok ctx →
  (visits_left visits < fuel)%nat → (visits_left visits < fuel')%nat →
  run_loop rt fuel r ctx visits w = run_loop rt fuel' r ctx visits w.
Proof.
  intros Hok. revert fuel' p r ctx visits w. induction fuel as [|fuel IH];
    intros fuel' p r ctx visits w Hr Hctx Hf Hf'; [lia|]. destruct fuel' as [|fuel']; [lia|]. simpl.
  destruct (transitions_exhausted rt r) eqn:Et; [done|].
  apply eff_bind_cong. intros late w1 _. destruct late; [done|].
  destruct (find_handler _ _) as [h|]; [|done].
  apply eff_bind_cong. intros [x c] w2 Hrun.
  apply exec_block_post in Hrun as [Hc _ Hx]; [|by apply agent_expr_eval_ok].
  simpl in *. pose proof (handle_outcome_spec rt start p r visits x _ Hr Hx Et) as Ho.
  destruct (handle_outcome rt r visits x) as [r'|[r' visits']]; [done|].
  destruct Ho as (t & Hr' & Ht).
  pose proof (visits_left_step _ _ _ _ _ _ t Hr Hr' eq_refl Ht).
  eapply IH; [exact Hr' | apply Hc|lia..].
Qed.
End Loop.

Lemma initial_running {W} (rt : AgentRuntime W) s t :
  running rt s [s]
    (mkAgentResult AgentStatus.Running None s {[s]} (mkStats 0 0 t 0) empty_bag) {[s := 1]}.
Proof.
  assert (Hv : ∀ x, visits_in x [s] = if decide (s = x) then 1 else 0).
  { intros x. unfold visits_in. rewrite filter_cons. by case_decide. }
  split; simpl; try done.
  - split; simpl; [constructor | done | set_solver | done].
  - intros x. rewrite Hv. destruct (decide (s = x)) as [->|].
    + by rewrite lookup_singleton_eq.
    + by rewrite lookup_singleton_ne.
  - intros x. rewrite Hv. unfold max_visits. case_decide; lia.
Qed.

Lemma visits_left_bound {W} (rt : AgentRuntime W) visits :
  (∀ t, 0 ≤ default 0 (visits !! t)) →
  (visits_left rt visits ≤ 100 * length (remove_dups (to_state <$> transitions (agent_ rt))))%nat.
Proof.
  intros Hv. unfold visits_left. induction (remove_dups _) as [|t l IH]; simpl; [done|].
  specialize (Hv t). unfold max_visits in *. lia.
Qed.

Lemma run_from_state_finished {W} `{Clock W} (rt : AgentRuntime W) input start :
  invokers_ok rt → value_ok input → post (finished rt start) (run_from_state rt input start).
Proof.
  intros Hinv Hv. unfold run_from_state.
  eapply (post_bind (λ _, True)); [by intros ????|]. intros t0 _.
  eapply post_bind; [eapply run_loop_finished; [done|apply initial_running|by apply inject_input_ok]|].
  intros r Hr. eapply (post_bind (λ _, True)); [by intros ????|]. intros t1 _. apply post_ret.
  destruct Hr as [Ht (p & [] & Hp) He Hc Ho Hb]. split; try done.
  exists p. split; [by split | done].
Qed.

Lemma run_from_state_total {W} `{Clock W} (rt : AgentRuntime W) input start :
  invokers_ok rt → invokers_total rt → value_ok input → total (run_from_state rt input start).
Proof.
  intros Hok Hinv Hv. unfold run_from_state. apply total_bind; [done|]. intros t0.
  apply total_bind; [|intros r; apply total_bind; done].
  eapply run_loop_total; [done|done|apply initial_running|by apply inject_input_ok|].
  unfold run_fuel. apply Nat.lt_succ_r, visits_left_bound. intros t.
  destruct (decide (start = t)) as [->|].
  - by rewrite lookup_singleton_eq.
  - by rewrite lookup_singleton_ne.
Qed.

(** ** Theorems *)

(** A run always ends when the capabilities it calls do, however the
    handlers loop: no state is entered more than a hundred times. *)
Theorem run_terminates {W} `{Clock W} (rt : AgentRuntime W) input start w :
  invokers_ok rt → invokers_total rt → value_ok input →
  run_from_state rt input start w ≠ NoFuel.
Proof. intros. by apply run_from_state_total. Qed.

(** C9: what a run returns.  Its status is final; the states it visited form a
    path of declared transitions from the start to the final state of the run,
    none of them entered more than 101 times, and the transition counter is
    the length of that path; the diagnostics hold an error exactly when the
    run did not complete; it completes only in a declared final state and
    before [max_state_transitions] transitions (a run that makes exactly that
    many is rejected); and it has an output only when it completed. *)
Theorem run_result_correct {W} `{Clock W} (rt : AgentRuntime W) input start w r w' :
  invokers_ok rt → value_ok input →
  run_from_state rt input start w ⇓ (r, w') →
  ar_status r ≠ AgentStatus.Running ∧
  (∃ p, agent_path (agent_ rt) start p ∧ last p = Some (current_state r) ∧
     visited_states r = list_to_set p ∧
     state_transitions (ar_stats r) = to_size (Z.of_nat (length p) - 1) ∧
     ∀ t, visits_in t p ≤ 101) ∧
  (has_error (ar_diagnostics r) = false ↔ ar_status r = AgentStatus.Completed) ∧
  (ar_status r = AgentStatus.Completed →
     current_state r ∈ final_states (agent_ rt) ∧
     ∀ m, max_state_transitions (quota_ rt) = Some m → state_transitions (ar_stats r) < m) ∧
  (∀ v, ar_output r = Some v → value_ok v ∧ ar_status r = AgentStatus.Completed).
Proof.
  intros Hinv Hv Hrun. apply run_from_state_finished in Hrun as [Ht (p & [Hp Hl Hvs Hc] & Hn) He Hf Ho _];
    [|done..].
  split; [intros Hs; unfold is_terminal in Ht; by rewrite Hs in Ht|].
  split; [by exists p|]. split.
  - rewrite He, negb_false_iff. apply bool_decide_eq_true.
  - split; [|done]. intros Hs. destruct (Hf Hs) as [Hfin Hq].
    split; [by apply bool_decide_eq_true in Hfin|]. intros m Hm. unfold transitions_exhausted in Hq.
    rewrite Hm in Hq. lia.
Qed.

(** The runtime with another limit on tool calls. *)
Definition with_tool_call_limit {W} (limit : option Z) (rt : AgentRuntime W) : AgentRuntime W :=
  mkRuntime (agent_ rt) (flow_ rt)
    (mkQuota (max_state_transitions (quota_ rt)) limit (max_execution_time (quota_ rt)))
    (capability_invoker_ rt) (contextual_capability_invoker_ rt) (invocation_context_ rt).

Lemma handle_outcome_tool_calls {W} (rt : AgentRuntime W) r visits x :
  match handle_outcome rt r visits x with inl r' | inr (r', _) =>
    tool_calls (ar_stats r') = tool_calls (ar_stats r) end.
Proof. unfold handle_outcome. by repeat case_match; simplify_eq/=. Qed.

Lemma run_loop_tool_calls {W} `{Clock W} (rt : AgentRuntime W) fuel r ctx visits :
  post (λ r', tool_calls (ar_stats r') = tool_calls (ar_stats r)) (run_loop rt fuel r ctx visits).
Proof.
  revert r ctx visits. induction fuel as [|fuel IH]; intros r ctx visits; simpl; [by intros ???|].
  destruct (transitions_exhausted rt r); [by apply post_ret|].
  eapply (post_bind (λ _, True)); [by intros ????|]. intros late _.
  destruct late; [by apply post_ret|].
  destruct (find_handler _ _) as [h|]; [|by apply post_ret].
  eapply (post_bind (λ _, True)); [by intros ????|]. intros xc _.
  pose proof (handle_outcome_tool_calls rt r visits xc.1) as Ho.
  destruct (handle_outcome rt r visits xc.1) as [r'|[r' visits']]; [by apply post_ret|].
  rewrite <- Ho. apply IH.
Qed.

(** The limit on tool calls has no effect: two runtimes that differ in
    [max_tool_calls] only behave the same, and the tool calls a run makes are
    never counted. *)
Theorem tool_call_limit_ignored {W} `{Clock W} (rt : AgentRuntime W) limit input start :
  run_from_state (with_tool_call_limit limit rt) input start = run_from_state rt input start ∧
  post (λ r, tool_calls (ar_stats r) = 0) (run_from_state rt input start).
Proof.
  split; [reflexivity|]. unfold run_from_state.
  eapply (post_bind (λ _, True)); [by intros ????|]. intros t0 _.
  eapply post_bind; [apply run_loop_tool_calls|]. intros r Hr.
  eapply (post_bind (λ _, True)); [by intros ????|]. intros t1 _. by apply post_ret.
Qed.

(** A run that starts in a state without a handler fails, even when the
    state is declared final. *)
Theorem missing_handler_fails {W} `{Clock W} (rt : AgentRuntime W) input start w :
  quota_ rt = no_quota →
  find_handler (flow_ rt) start = None →
  ∃ r w', run_from_state rt input start w ⇓ (r, w') ∧ ar_status r = AgentStatus.Failed ∧
    ar_output r = None.
Proof.
  intros Hq Hh. unfold run_from_state, run_fuel. simpl.
  unfold mbind, eff_bind, tick at 1. simpl.
  unfold transitions_exhausted, time_exceeded. rewrite Hq. simpl. rewrite Hh. simpl.
  unfold tick. destruct (clock_now w) as [t0 w0]. destruct (clock_now w0) as [t1 w1].
  eexists _, _. split; [reflexivity|]. done.
Qed.

(** ** Durations *)
Fixpoint last_char (s : string) : option ascii :=
  match s with
  | EmptyString => None
  | String c EmptyString => Some c
  | String _ r => last_char r
  end.

Lemma last_char_app s c t : last_char (s +:+ String c t) = last_char (String c t).
Proof. induction s as [|a s IH]; [done|]. simpl. destruct (s +:+ _) eqn:E; [by destruct s|done]. Qed.

Lemma substring_all s m : (String.length s ≤ m)%nat → String.substring 0 m s = s.
Proof.
  revert m. induction s as [|c s IH]; intros [|m] Hm; simpl in *; try done; [lia|].
  by rewrite IH by lia.
Qed.
Lemma substring_split s n m :
  (n + m = String.length s)%nat → String.substring 0 n s +:+ String.substring n m s = s.
Proof.
  revert n. induction s as [|c s IH]; intros [|n] Hlen; simpl in *; try done; [by destruct m| |].
  - destruct m as [|m]; [lia|]. simpl. rewrite substring_all by lia. done.
  - change (String c (String.substring 0 n s +:+ String.substring n m s) = String c s).
    rewrite IH; [done | lia].
Qed.

Lemma strip_suffix_Some suf s p : strip_suffix suf s = Some p → s = p +:+ suf.
Proof.
  unfold strip_suffix. destruct (bool_decide (_ ≤ _)%nat) eqn:E1; simpl; [|done].
  destruct (bool_decide (_ = suf)) eqn:E2; [|done]. intros Hp. injection Hp as <-.
  apply bool_decide_eq_true in E1, E2. rewrite <- E2 at 2. symmetry. apply substring_split. lia.
Qed.

(** Of the duration units of the language, [max_execution_time] knows only
    [ms] and [s]: minutes and hours are silently dropped; and a number of
    seconds is multiplied by 1000 modulo 2^64. *)
Theorem quota_duration_units n :
  parse_duration (n +:+ "m") = None ∧ parse_duration (n +:+ "h") = None ∧
  parse_duration "18446744073709552s" = Some 384.
Proof.
  assert (Hgen : ∀ c : ascii, c ≠ "s"%char → parse_duration (n +:+ String c "") = None).
  { intros c Hc. unfold parse_duration.
    destruct (strip_suffix "ms" _) as [p|] eqn:E.
    - apply strip_suffix_Some, (f_equal last_char) in E.
      rewrite !last_char_app in E. simpl in E. congruence.
    - destruct (strip_suffix "s" _) as [p|] eqn:E'; [|done].
      apply strip_suffix_Some, (f_equal last_char) in E'.
      rewrite !last_char_app in E'. simpl in E'. congruence. }
  split; [by apply Hgen|]. split; [by apply Hgen|]. vm_compute. reflexivity.
Qed.

(** ** A concrete agent *)
Module Example.
Definition clock : Clock Z := λ t, (t, t + 1).
Definition symbol (n : string) : SymbolRef := mkSymbolRef SymbolRefKind.Agent n n "" None.
Definition provenance : DeclarationProvenance := mkProvenance "" "" None 0.
Definition agent : AgentDecl :=
  mkAgentDecl provenance "agent" ["Init"; "Done"] "Init" ["Done"] [mkQuotaItem "max_tool_calls" "1"]
    [mkTransition "Init" "Done"] default_type_ref default_type_ref default_type_ref []
    (symbol "agent").
Definition statement (n : StatementNode) : option Statement := Some (mkStatement n None 0).
Definition state_handler (s : string) (l : list StatementNode) : StateHandler :=
  mkStateHandler s [] (mkBlock (statement <$> l) None) None.
Definition flow : FlowDecl :=
  mkFlowDecl provenance
    [state_handler "Init" [GotoStatement "Done"];
     state_handler "Done" [ReturnStatement (Some (bare (BoolLiteralExpr true)))]]
    (symbol "agent").
Definition runtime : AgentRuntime Z := make_agent_runtime agent flow no_quota.

Lemma runtime_ok : invokers_ok runtime.
Proof. split; intros f Hf; discriminate Hf. Qed.
Lemma runtime_total : invokers_total runtime.
Proof. split; intros f Hf; discriminate Hf. Qed.

Definition result : AgentResult :=
  mkAgentResult AgentStatus.Completed (Some (BoolValue true)) "Done" {["Init"; "Done"]}
    (mkStats 1 0 0 1) empty_bag.
Lemma runtime_run :
  @run_from_state Z clock runtime NoneValue "Init" 0 = Ret (result, 2).
Proof. vm_compute. reflexivity. Qed.
End Example.

Lemma run_terminates_witness :
  @run_from_state Z Example.clock Example.runtime NoneValue "Init" 0 ≠ NoFuel.
Proof.
  apply (@run_terminates Z Example.clock Example.runtime NoneValue "Init" 0);
    [apply Example.runtime_ok | apply Example.runtime_total | constructor].
Defined.

Lemma run_result_correct_witness :
  ar_status Example.result ≠ AgentStatus.Running ∧
  ar_output Example.result = Some (BoolValue true).
Proof.
  split; [|reflexivity].
  exact (proj1 (@run_result_correct Z Example.clock Example.runtime NoneValue "Init" 0
    Example.result 2 Example.runtime_ok ok_none Example.runtime_run)).
Defined.

Lemma missing_handler_fails_witness :
  ∃ r w', @run_from_state Z Example.clock Example.runtime NoneValue "Final" 0 ⇓ (r, w') ∧
    ar_status r = AgentStatus.Failed ∧ ar_output r = None.
Proof.
  apply (@missing_handler_fails Z Example.clock
           (mkRuntime Example.agent Example.flow no_quota None None default_invocation_context));
    reflexivity.
Defined.
