(* ===== verification/WorkflowRuntime.v ===== *)
(** * The workflow runtime (src/runtime/engine/workflow_runtime.{hpp,cpp})

    A workflow runs the agents of its nodes in topological order; a node whose
    dependency failed is skipped.  The properties say in which order nodes
    run, on which outcomes a node depends and what the final status means. *)
From S2P Require Import Prelude Numeric Ir ProgramIndex Diagnostics Value EvalContext.
From S2P Require Import Evaluator EvaluatorProps Executor CapabilityBridge CapabilityEval.
From S2P Require Import AgentRuntime.
Open Scope Z_scope.

(** ** Data *)
Module WorkflowStatus.
Inductive t := Completed | NodeFailed | DependencyFailed | EvalError.
End WorkflowStatus.
#[export] Instance workflow_status_eq_dec : EqDecision WorkflowStatus.t.
Proof. solve_decision. Defined.

Record NodeExecutionResult := mkNodeResult {
  node_name : string;
  nr_target : string;
  nr_status : AgentStatus.t;
  nr_output : option Value;
  execution_index : Z }.

Record WorkflowResult := mkWorkflowResult {
  wr_status : WorkflowStatus.t;
  wr_output : option Value;
  execution_order : list string;
  node_results : list NodeExecutionResult;
  wr_diagnostics : DiagnosticBag }.
Definition workflow_has_errors (r : WorkflowResult) : bool := has_error (wr_diagnostics r).

(** The invokers are optional [std::function]s, each of which may be empty. *)
Record WorkflowRuntimeConfig (W : Type) := mkConfig {
  default_agent_quota : QuotaConfig;
  capability_invoker : option (option (CapabilityInvoker W));
  contextual_capability_invoker : option (option (ContextualCapabilityInvoker W)) }.
Arguments mkConfig {W} _ _ _.
Arguments default_agent_quota {W} _.
Arguments capability_invoker {W} _.
Arguments contextual_capability_invoker {W} _.

Record WorkflowRuntime (W : Type) := mkWorkflowRuntime {
  index_ : ProgramIndex;
  config_ : WorkflowRuntimeConfig W }.
Arguments mkWorkflowRuntime {W} _ _.
Arguments index_ {W} _.
Arguments config_ {W} _.
Definition make_workflow_runtime {W} (program : Program) (config : WorkflowRuntimeConfig W)
    : WorkflowRuntime W := mkWorkflowRuntime (rebuild program) config.

(** ** Expressions of the workflow *)
Definition inject_workflow_input (input : Value) (ctx : EvalContext) : EvalContext :=
  match input with
  | StructValue _ fields =>
      fold_left (λ c f, match f.2 with
                        | Some v => set_input f.1 (clone_value v) c
                        | None => c
                        end) fields ctx
  | _ => ctx
  end.
Definition inject_node_output (name : string) (v : Value) (ctx : EvalContext) : EvalContext :=
  let ctx := bind_local name (clone_value v) ctx in
  match v with
  | StructValue _ fields =>
      fold_left (λ c f, match f.2 with
                        | Some x => set_node_output name f.1 (clone_value x) c
                        | None => c
                        end) fields ctx
  | _ => ctx
  end.
(** The context of a node's input and of the return value. *)
Definition workflow_context (workflow_input : Value) (node_outputs : gmap string Value)
    : EvalContext :=
  let ctx := bind_local "input" (clone_value workflow_input) empty_context in
  let ctx := inject_workflow_input workflow_input ctx in
  map_fold inject_node_output ctx node_outputs.

Section Run.
Context {W : Type} `{Clock W} (rt : WorkflowRuntime W).

Definition eval_workflow_expression (expr : Expr) (workflow_input : Value)
    (node_outputs : gmap string Value) (context : CapabilityInvocationContext)
    : eff W EvalResult :=
  let ctx := workflow_context workflow_input node_outputs in
  match contextual_capability_invoker (config_ rt) with
  | Some f => eval_expr_with_contextual_invoker expr ctx f context
  | None =>
      match capability_invoker (config_ rt) with
      | Some f => eval_expr_with_invoker expr ctx f
      | None => eval_expr expr ctx
      end
  end.

(** The agent of a node, with its quota, context and invoker. *)
Definition node_agent (agent : AgentDecl) (flow : FlowDecl)
    (context : CapabilityInvocationContext) : AgentRuntime W :=
  let a := make_agent_runtime agent flow (default_agent_quota (config_ rt)) in
  let a := set_invocation_context context a in
  match contextual_capability_invoker (config_ rt) with
  | Some f => set_contextual_capability_invoker f a
  | None =>
      match capability_invoker (config_ rt) with
      | Some f => set_capability_invoker f a
      | None => a
      end
  end.

(** ** The loop over the nodes *)
Record LoopState := mkLoopState {
  ls_result : WorkflowResult;
  node_outputs : gmap string Value;
  failed_nodes : gset string }.

(** Record a node that did not complete: [status] and [diagnostics] are the new
    ones of the workflow. *)
Definition fail_node (status : WorkflowStatus.t) (diagnostics : DiagnosticBag)
    (node : WorkflowNode) (target : string) (node_status : AgentStatus.t) (idx : Z)
    (s : LoopState) : LoopState :=
  let r := ls_result s in
  mkLoopState
    (mkWorkflowResult status (wr_output r) (execution_order r ++ [wn_name node])
       (node_results r ++ [mkNodeResult (wn_name node) target node_status None idx])
       diagnostics)
    (node_outputs s) ({[wn_name node]} ∪ failed_nodes s).
Definition complete_node (diagnostics : DiagnosticBag) (node : WorkflowNode) (target : string)
    (output : option Value) (idx : Z) (s : LoopState) : LoopState :=
  let r := ls_result s in
  mkLoopState
    (mkWorkflowResult (wr_status r) (wr_output r) (execution_order r ++ [wn_name node])
       (node_results r ++ [mkNodeResult (wn_name node) target AgentStatus.Completed output idx])
       diagnostics)
    (match output with
     | Some v => <[wn_name node := clone_value v]> (node_outputs s)
     | None => node_outputs s
     end)
    (failed_nodes s).
(** [if (status == Completed) status = st;] *)
Definition degrade (st : WorkflowStatus.t) (r : WorkflowResult) : WorkflowStatus.t :=
  if bool_decide (wr_status r = WorkflowStatus.Completed) then st else wr_status r.

Definition dependency_failed (node : WorkflowNode) (failed : gset string) : bool :=
  existsb (λ d, bool_decide (d ∈ failed)) (wn_after node).

Definition node_target (node : WorkflowNode) : string :=
  symbol_canonical_name (wn_target_ref node) "".

(** Steps 4b and 4c, with the node's input. *)
Definition run_agent (node : WorkflowNode) (idx : Z) (context : CapabilityInvocationContext)
    (node_input : Value) (s : LoopState) : eff W LoopState :=
  let target := node_target node in
  let diagnostics := wr_diagnostics (ls_result s) in
  match find_agent (index_ rt) target, find_flow_for_agent (index_ rt) target with
  | Some agent, Some flow =>
      a ← run (node_agent agent flow context) node_input;
      let diagnostics := append diagnostics (ar_diagnostics a) in
      if bool_decide (ar_status a = AgentStatus.Completed)
      then mret (complete_node diagnostics node target (ar_output a) idx s)
      else mret (fail_node (degrade WorkflowStatus.NodeFailed (ls_result s)) diagnostics
                   node target (ar_status a) idx s)
  | _, _ =>
      mret (fail_node WorkflowStatus.NodeFailed
        (emit_error ("agent '" +:+ target +:+ "' declaration or flow not found") diagnostics)
        node target AgentStatus.Failed idx s)
  end.

Definition run_node (workflow_name : string) (input : Value) (node : WorkflowNode) (idx : Z)
    (s : LoopState) : eff W LoopState :=
  let target := node_target node in
  let r := ls_result s in
  if dependency_failed node (failed_nodes s) then
    mret (fail_node (degrade WorkflowStatus.DependencyFailed r) (wr_diagnostics r)
            node target AgentStatus.Failed idx s)
  else
    let context := mkInvocationContext workflow_name (wn_name node) target "" idx true in
    match wn_input node with
    | None => run_agent node idx context make_none s
    | Some e =>
        v ← eval_workflow_expression e input (node_outputs s) context;
        if has_errors v then
          mret (fail_node WorkflowStatus.EvalError
                  (append (wr_diagnostics r) (er_diagnostics v))
                  node target AgentStatus.Failed idx s)
        else run_agent node idx context (er_value v) s
    end.

Fixpoint run_nodes (workflow_name : string) (input : Value) (nodes : list WorkflowNode) (idx : Z)
    (s : LoopState) : eff W LoopState :=
  match nodes with
  | [] => mret s
  | node :: nodes =>
      s ← run_node workflow_name input node idx s;
      run_nodes workflow_name input nodes (size_succ idx) s
  end.

Definition initial_result : WorkflowResult :=
  mkWorkflowResult WorkflowStatus.Completed None [] [] empty_bag.
Definition workflow_failed (st : WorkflowStatus.t) (msg : string) : WorkflowResult :=
  mkWorkflowResult st None [] [] (emit_error msg empty_bag).

(** Steps 2 and 5: the return value. *)
Definition eval_return (workflow_name : string) (workflow : WorkflowDecl) (input : Value)
    (outputs : gmap string Value) (r : WorkflowResult) : eff W WorkflowResult :=
  match wf_return_value workflow with
  | None => mret r
  | Some e =>
      v ← eval_workflow_expression e input outputs
            (mkInvocationContext workflow_name "" "" "" 0 false);
      if has_errors v then
        mret (mkWorkflowResult WorkflowStatus.EvalError (wr_output r) (execution_order r)
                (node_results r) (append (wr_diagnostics r) (er_diagnostics v)))
      else
        mret (mkWorkflowResult (wr_status r) (Some (er_value v)) (execution_order r)
                (node_results r) (wr_diagnostics r))
  end.

Definition run_workflow (workflow_name : string) (input : Value) : eff W WorkflowResult :=
  match find_workflow (index_ rt) workflow_name with
  | None =>
      mret (workflow_failed WorkflowStatus.NodeFailed
              ("workflow '" +:+ workflow_name +:+ "' not found in program"))
  | Some workflow =>
      if bool_decide (wf_nodes workflow = [])
      then eval_return workflow_name workflow input ∅ initial_result
      else
        sorted ← ⌊ topological_order workflow ⌋;
        if negb (bool_decide (length sorted = length (wf_nodes workflow)))
        then mret (workflow_failed WorkflowStatus.DependencyFailed
               ("workflow '" +:+ workflow_name +:+
                "' has a dependency cycle or unresolvable node"))
        else
          s ← run_nodes workflow_name input sorted 0 (mkLoopState initial_result ∅ ∅);
          let r := ls_result s in
          if bool_decide (wr_status r = WorkflowStatus.Completed)
          then eval_return workflow_name workflow input (node_outputs s) r
          else mret r
  end.
End Run.

(** ** Properties of the workflow runtime

    The order of the nodes, dependency failures, the meaning of the final
    status, termination. *)

(** ** The contract of the configured back end *)
Record config_ok {W} (c : WorkflowRuntimeConfig W) : Prop := {
  config_invoker_ok : ∀ f, capability_invoker c = Some (Some f) →
    ∀ name vs, Forall value_ok vs → post call_result_ok (f name vs);
  config_contextual_ok : ∀ f, contextual_capability_invoker c = Some (Some f) →
    ∀ x name vs, Forall value_ok vs → post call_result_ok (f x name vs) }.
Record config_total {W} (c : WorkflowRuntimeConfig W) : Prop := {
  config_invoker_total : ∀ f, capability_invoker c = Some (Some f) → ∀ name vs, total (f name vs);
  config_contextual_total : ∀ f, contextual_capability_invoker c = Some (Some f) →
    ∀ x name vs, total (f x name vs) }.

Lemma node_agent_ok {W} (rt : WorkflowRuntime W) a f c :
  config_ok (config_ rt) → invokers_ok (node_agent rt a f c).
Proof.
  intros [Hp Hc]. unfold node_agent.
  destruct (contextual_capability_invoker (config_ rt)) as [[g|]|] eqn:E1;
    [| |destruct (capability_invoker (config_ rt)) as [[g|]|] eqn:E2];
    split; simpl; intros f' [= <-]; eauto.
Qed.

Lemma node_agent_total {W} (rt : WorkflowRuntime W) a f c :
  config_total (config_ rt) → invokers_total (node_agent rt a f c).
Proof.
  intros [Hp Hc]. unfold node_agent.
  destruct (contextual_capability_invoker (config_ rt)) as [[g|]|] eqn:E1;
    [| |destruct (capability_invoker (config_ rt)) as [[g|]|] eqn:E2];
    split; simpl; intros f' [= <-]; eauto.
Qed.

Lemma inject_fields_ok (g : string → Value → EvalContext → EvalContext)
    (fields : list (string * option Value)) ctx :
  (∀ k v c, value_ok v → context_ok c → context_ok (g k v c)) →
  Forall (λ f, ∃ x, f.2 = Some x ∧ value_ok x) fields → context_ok ctx →
  context_ok (fold_left (λ c f, match f.2 with
    | Some v => g f.1 (clone_value v) c | None => c end) fields ctx).
Proof.
  intros Hg Hall. revert ctx. induction Hall as [|[k o] fs (x & Hx & Hok) Hall IH];
    intros ctx Hctx; simpl; [done|].
  simpl in Hx. subst o. apply IH, Hg; [|done]. by rewrite clone_value_id.
Qed.

Lemma inject_node_output_ok name v ctx :
  value_ok v → context_ok ctx → context_ok (inject_node_output name v ctx).
Proof.
  intros Hv Hctx. unfold inject_node_output. rewrite clone_value_id by done.
  assert (Hb : context_ok (bind_local name v ctx)) by auto with ahfl.
  destruct Hv as [| | | | | | |t fs Hnd Hall| | | |]; try done.
  apply (inject_fields_ok (λ k x, set_node_output name k x)); auto with ahfl.
Qed.

Lemma workflow_context_ok input outputs :
  value_ok input → map_Forall (λ _, value_ok) outputs → context_ok (workflow_context input outputs).
Proof.
  intros Hi Ho. unfold workflow_context. revert Ho.
  apply (map_fold_weak_ind (λ c m, map_Forall (λ _, value_ok) m → context_ok c)).
  - intros _. rewrite clone_value_id by done.
    assert (Hb : context_ok (bind_local "input" input empty_context)) by auto with ahfl.
    destruct Hi as [| | | | | | |t fs Hnd Hall| | | |]; try done.
    apply (inject_fields_ok set_input); auto with ahfl.
  - intros name v m c Hm IH Hall. apply map_Forall_insert in Hall as [Hv Hall]; [|done].
    apply inject_node_output_ok; auto.
Qed.

Section Contract.
Context {W : Type} `{Clock W} (rt : WorkflowRuntime W).

Lemma eval_workflow_ok e input outputs c :
  config_ok (config_ rt) → value_ok input → map_Forall (λ _, value_ok) outputs →
  post result_ok (eval_workflow_expression rt e input outputs c).
Proof.
  intros [Hp Hc] Hi Ho. unfold eval_workflow_expression.
  pose proof (workflow_context_ok _ _ Hi Ho) as Hctx.
  destruct (contextual_capability_invoker (config_ rt)) as [f|] eqn:E1;
    [|destruct (capability_invoker (config_ rt)) as [f|] eqn:E2].
  - apply eval_handler_ok; [|done]. intros callee vs Hvs. apply invoke_plain_ok.
    intros f' Hf'. destruct f as [f|]; [|done]. injection Hf' as <-. by apply (Hc f).
  - apply eval_handler_ok; [|done]. intros callee vs Hvs. apply invoke_plain_ok.
    intros f' ->. by apply (Hp f').
  - apply eval_expr_impl_post; [done|]. intros. apply post_ret, make_error_ok.
Qed.

Lemma eval_workflow_total e input outputs c :
  config_total (config_ rt) → total (eval_workflow_expression rt e input outputs c).
Proof.
  intros [Hp Hc]. unfold eval_workflow_expression.
  destruct (contextual_capability_invoker (config_ rt)) as [f|] eqn:E1;
    [|destruct (capability_invoker (config_ rt)) as [f|] eqn:E2].
  - apply eval_handler_total. intros callee vs. apply invoke_plain_total.
    intros f' Hf'. destruct f as [f|]; [|done]. injection Hf' as <-. by apply (Hc f).
  - apply eval_handler_total. intros callee vs. apply invoke_plain_total.
    intros f' ->. by apply (Hp f').
  - apply eval_expr_total. intros. apply total_ret.
Qed.
End Contract.

(** ** What the loop keeps *)
Definition node_completed (r : NodeExecutionResult) : Prop := nr_status r = AgentStatus.Completed.

(** Results that describe the nodes [done] in their order. *)
Record results_for (done : list WorkflowNode) (rs : list NodeExecutionResult) : Prop := {
  results_names : node_name <$> rs = wn_name <$> done;
  results_index : ∀ i r, rs !! i = Some r → execution_index r = to_size (Z.of_nat i);
  results_terminal : ∀ r, r ∈ rs → nr_status r ≠ AgentStatus.Running;
  results_output : ∀ r v, r ∈ rs → nr_output r = Some v → node_completed r ∧ value_ok v;
  results_deps : ∀ i j n r r', done !! i = Some n → rs !! i = Some r → node_completed r →
    (j < i)%nat → rs !! j = Some r' → node_name r' ∈ wn_after n → node_completed r' }.

Record loop_ok (done : list WorkflowNode) (s : LoopState) : Prop := {
  ok_order : execution_order (ls_result s) = wn_name <$> done;
  ok_results : results_for done (node_results (ls_result s));
  ok_failed : ∀ r, r ∈ node_results (ls_result s) → ¬ node_completed r →
    node_name r ∈ failed_nodes s;
  ok_failed_status : ∀ x, x ∈ failed_nodes s →
    wr_status (ls_result s) ≠ WorkflowStatus.Completed;
  ok_no_dependency_status : wr_status (ls_result s) ≠ WorkflowStatus.DependencyFailed;
  ok_status : wr_status (ls_result s) = WorkflowStatus.Completed ↔
    Forall node_completed (node_results (ls_result s));
  ok_errors : has_error (wr_diagnostics (ls_result s)) =
    negb (bool_decide (wr_status (ls_result s) = WorkflowStatus.Completed));
  ok_output : wr_output (ls_result s) = None;
  ok_outputs : map_Forall (λ _, value_ok) (node_outputs s) }.

Lemma results_for_nil : results_for [] [].
Proof.
  split; [done|done| | |done].
  - intros r Hr. by apply elem_of_nil in Hr.
  - intros r v Hr. by apply elem_of_nil in Hr.
Qed.

Lemma initial_ok : loop_ok [] (mkLoopState initial_result ∅ ∅).
Proof.
  split; simpl; try done; [apply results_for_nil|].
  intros r Hr. by apply elem_of_nil in Hr.
Qed.

(** One more node: its result is appended. *)
Lemma results_for_snoc done rs n r :
  results_for done rs →
  node_name r = wn_name n → execution_index r = to_size (Z.of_nat (length done)) →
  nr_status r ≠ AgentStatus.Running →
  (∀ v, nr_output r = Some v → node_completed r ∧ value_ok v) →
  (node_completed r → ∀ r', r' ∈ rs → node_name r' ∈ wn_after n → node_completed r') →
  results_for (done ++ [n]) (rs ++ [r]).
Proof.
  intros [Hn Hi Ht Ho Hd] Hname Hidx Hst Hout Hdeps.
  assert (Hlen : length rs = length done).
  { rewrite <- (length_fmap node_name), Hn. apply length_fmap. }
  split.
  - rewrite !fmap_app, Hn. simpl. by rewrite Hname.
  - intros i x [Hx|[Hle Hx]]%lookup_app_Some; [by apply Hi|].
    apply list_lookup_singleton_Some in Hx as [Hx <-]. rewrite Hidx. f_equal. lia.
  - intros x [Hx| ->%list_elem_of_singleton]%elem_of_app; [by apply Ht | done].
  - intros x v [Hx| ->%list_elem_of_singleton]%elem_of_app; [by apply Ho | apply Hout].
  - intros i j m x x' Hm Hx Hc Hj Hx' Hin.
    assert (Hj' : rs !! j = Some x').
    { rewrite lookup_app_l in Hx'; [done|]. apply lookup_lt_Some in Hm.
      rewrite length_app in Hm. simpl in Hm. lia. }
    apply lookup_app_Some in Hx as [Hx|[Hle Hx]].
    + rewrite lookup_app_l in Hm by (apply lookup_lt_Some in Hx; lia). by eapply Hd.
    + apply list_lookup_singleton_Some in Hx as [Hx <-].
      rewrite lookup_app_r in Hm by lia. apply list_lookup_singleton_Some in Hm as [_ <-].
      eapply Hdeps; [done| |done]. by eapply list_elem_of_lookup_2.
Qed.

Lemma fail_node_ok done s n st d target ns idx :
  loop_ok done s →
  st ≠ WorkflowStatus.Completed → st ≠ WorkflowStatus.DependencyFailed → has_error d = true →
  ns ≠ AgentStatus.Running → ns ≠ AgentStatus.Completed →
  idx = to_size (Z.of_nat (length done)) →
  loop_ok (done ++ [n]) (fail_node st d n target ns idx s).
Proof.
  intros [Ho Hr Hf Hfs Hds Hst He Hout Houts] H1 H2 Hd H3 H4 ->. split; simpl; try done.
  - by rewrite fmap_app, Ho.
  - by apply results_for_snoc.
  - intros r [Hin| ->%list_elem_of_singleton]%elem_of_app Hc; simpl; [|set_solver].
    apply elem_of_union_r. by apply Hf.
  - split; [done|]. intros Hall. apply Forall_app in Hall as [_ Hall].
    apply Forall_cons in Hall as [Hc _]. done.
  - rewrite Hd, bool_decide_false by done. done.
Qed.

Lemma complete_node_ok done s n d target out idx :
  loop_ok done s →
  dependency_failed n (failed_nodes s) = false →
  has_error d = has_error (wr_diagnostics (ls_result s)) →
  (∀ v, out = Some v → value_ok v) →
  idx = to_size (Z.of_nat (length done)) →
  loop_ok (done ++ [n]) (complete_node d n target out idx s).
Proof.
  intros [Ho Hr Hf Hfs Hds Hst He Hout Houts] Hdep Hd Hv ->. split; simpl; try done.
  - by rewrite fmap_app, Ho.
  - apply results_for_snoc; try done; [intros v Hov; split; [done | by apply Hv]|].
    intros _ r' Hin Hafter. destruct (decide (nr_status r' = AgentStatus.Completed)) as [|Hc]; [done|].
    specialize (Hf r' Hin Hc). exfalso. unfold dependency_failed in Hdep.
    assert (existsb (λ d, bool_decide (d ∈ failed_nodes s)) (wn_after n) = true); [|congruence].
    apply existsb_exists. exists (node_name r'). split; [by apply list_elem_of_In|].
    by apply bool_decide_eq_true.
  - intros r [Hin| ->%list_elem_of_singleton]%elem_of_app Hc; [by apply Hf|]. by destruct Hc.
  - rewrite Hst, Forall_app. split; [|tauto]. intros Hall. split; [done|]. by apply Forall_cons.
  - by rewrite Hd.
  - destruct out as [v|]; [|done]. apply map_Forall_insert_2; [|done].
    rewrite clone_value_id; by apply Hv.
Qed.

Lemma degrade_failed done s st :
  loop_ok done s → st ≠ WorkflowStatus.Completed → st ≠ WorkflowStatus.DependencyFailed →
  degrade st (ls_result s) ≠ WorkflowStatus.Completed ∧
  degrade st (ls_result s) ≠ WorkflowStatus.DependencyFailed.
Proof. intros Hs H1 H2. unfold degrade. case_bool_decide; [done|]. split; [done | apply Hs]. Qed.

Lemma dependency_failed_spec n failed :
  dependency_failed n failed = true → ∃ d, d ∈ wn_after n ∧ d ∈ failed.
Proof.
  intros (d & Hd & Hf)%existsb_exists. exists d. split; [by apply list_elem_of_In|].
  by apply bool_decide_eq_true in Hf.
Qed.

Section Loop.
Context {W : Type} `{Clock W} (rt : WorkflowRuntime W).
Context (Hcfg : config_ok (config_ rt)).

Lemma run_agent_ok done s n idx c v :
  loop_ok done s → value_ok v → dependency_failed n (failed_nodes s) = false →
  idx = to_size (Z.of_nat (length done)) →
  post (loop_ok (done ++ [n])) (run_agent rt n idx c v s).
Proof.
  intros Hs Hv Hdep Hidx. unfold run_agent.
  destruct (find_agent _ _) as [a|]; [destruct (find_flow_for_agent _ _) as [f|]|];
    try (apply post_ret, fail_node_ok; auto using has_error_emit; done).
  eapply post_bind; [apply run_from_state_finished; [by apply node_agent_ok | done]|].
  intros r [Ht _ He _ Hout _].
  destruct (degrade_failed done s WorkflowStatus.NodeFailed) as [Hd1 Hd2]; try done.
  case_bool_decide as Hc; apply post_ret.
  - apply complete_node_ok; try done.
    + rewrite has_error_append, He. apply orb_false_r.
    + intros x Hx. by apply Hout.
  - apply fail_node_ok; try done.
    + rewrite has_error_append, He. apply orb_true_r.
    + intros Hr. unfold is_terminal in Ht. by rewrite Hr in Ht.
Qed.

Lemma run_node_ok name input done s n idx :
  loop_ok done s → value_ok input → idx = to_size (Z.of_nat (length done)) →
  post (loop_ok (done ++ [n])) (run_node rt name input n idx s).
Proof.
  intros Hs Hi Hidx. unfold run_node.
  destruct (dependency_failed n (failed_nodes s)) eqn:Hdep.
  - apply post_ret. apply dependency_failed_spec in Hdep as (d & _ & Hd).
    pose proof (ok_failed_status _ _ Hs d Hd) as Hst.
    unfold degrade. rewrite bool_decide_false by done.
    apply fail_node_ok; try done; [apply Hs|]. rewrite (ok_errors _ _ Hs).
    by rewrite bool_decide_false.
  - destruct (wn_input n) as [e|]; [|by apply run_agent_ok; [|constructor| |]].
    eapply post_bind; [apply eval_workflow_ok; [done|done|apply Hs]|].
    intros v Hv. destruct (has_errors v) eqn:Ev.
    + apply post_ret, fail_node_ok; try done. rewrite has_error_append.
      unfold has_errors in Ev. rewrite Ev. apply orb_true_r.
    + apply run_agent_ok; try done. apply Hv.
Qed.

Lemma run_nodes_ok name input nodes done idx s :
  loop_ok done s → value_ok input → idx = to_size (Z.of_nat (length done)) →
  post (loop_ok (done ++ nodes)) (run_nodes rt name input nodes idx s).
Proof.
  intros Hs Hi. revert done idx s Hs. induction nodes as [|n nodes IH]; intros done idx s Hs Hidx;
    simpl; [rewrite app_nil_r; by apply post_ret|].
  eapply post_bind; [by apply run_node_ok|]. intros s' Hs'.
  replace (done ++ n :: nodes) with ((done ++ [n]) ++ nodes) by (by rewrite <- app_assoc).
  apply IH; [done|]. rewrite Hidx, size_succ_to_size, length_app. simpl. f_equal. lia.
Qed.
End Loop.

(** ** The result of a run *)
Record result_status_ok (r : WorkflowResult) : Prop := {
  status_errors : has_error (wr_diagnostics r) =
    negb (bool_decide (wr_status r = WorkflowStatus.Completed));
  status_output : ∀ v, wr_output r = Some v → wr_status r = WorkflowStatus.Completed ∧ value_ok v }.

(** The nodes of a result: [order] is the topological order. *)
Record result_nodes_ok (order : list WorkflowNode) (r : WorkflowResult) : Prop := {
  nodes_order : execution_order r = wn_name <$> order;
  nodes_results : results_for order (node_results r);
  nodes_completed : wr_status r = WorkflowStatus.Completed → Forall node_completed (node_results r);
  nodes_dependency : wr_status r ≠ WorkflowStatus.DependencyFailed }.

Section Result.
Context {W : Type} `{Clock W} (rt : WorkflowRuntime W).

Lemma eval_return_ok name wf input outputs order r :
  config_ok (config_ rt) → value_ok input → map_Forall (λ _, value_ok) outputs →
  result_status_ok r → result_nodes_ok order r →
  wr_output r = None → wr_status r = WorkflowStatus.Completed →
  post (λ r', result_status_ok r' ∧ result_nodes_ok order r')
    (eval_return rt name wf input outputs r).
Proof.
  intros Hc Hi Ho Hs [Hn1 Hn2 Hn3 Hn4] Hnone Hst. unfold eval_return.
  destruct (wf_return_value wf) as [e|]; [|by apply post_ret].
  eapply post_bind; [by apply eval_workflow_ok|]. intros v Hv. destruct Hs as [He _].
  destruct (has_errors v) eqn:Ev; apply post_ret; (split; [split|split]); simpl; try done.
  - rewrite has_error_append. unfold has_errors in Ev. rewrite Ev. apply orb_true_r.
  - congruence.
  - intros x [= <-]. split; [done | apply Hv].
Qed.

Lemma loop_result_ok done s :
  loop_ok done s → result_status_ok (ls_result s) ∧ result_nodes_ok done (ls_result s).
Proof.
  intros []. split; split; try done; [congruence|]. by rewrite ok_status0.
Qed.

(** Every way a run of an existing workflow ends. *)
Lemma run_workflow_ok name input wf :
  config_ok (config_ rt) → value_ok input → find_workflow (index_ rt) name = Some wf →
  ∀ order, topological_order wf ⇓ order →
  post (λ r, result_status_ok r ∧
          if bool_decide (length order = length (wf_nodes wf)) then result_nodes_ok order r
          else wr_status r = WorkflowStatus.DependencyFailed ∧ execution_order r = [] ∧
               node_results r = [])
    (run_workflow rt name input).
Proof.
  intros Hc Hi Hwf order Horder. unfold run_workflow. rewrite Hwf.
  destruct (bool_decide (wf_nodes wf = [])) eqn:Hempty.
  - apply bool_decide_eq_true in Hempty. assert (order = []) as ->.
    { unfold topological_order in Horder. rewrite Hempty in Horder. by injection Horder. }
    rewrite Hempty, bool_decide_true by done.
    apply eval_return_ok; try done.
    split; try done. apply results_for_nil.
  - rewrite Horder. eapply (post_bind (λ x, x = order)); [by apply post_lift; intros a Ha; injection Ha|].
    intros x ->. destruct (bool_decide (length order = _)); simpl.
    + eapply post_bind; [by apply run_nodes_ok; [|apply initial_ok| |]|]. intros s Hs.
      simpl in Hs. destruct (loop_result_ok _ _ Hs) as [H1 H2].
      destruct (bool_decide (wr_status _ = _)) eqn:Hst; [|by apply post_ret].
      apply bool_decide_eq_true in Hst. apply eval_return_ok; try done; apply Hs.
    + apply post_ret. by split.
Qed.

Lemma run_agent_total n idx c v s :
  config_ok (config_ rt) → config_total (config_ rt) → value_ok v →
  total (run_agent rt n idx c v s).
Proof.
  intros Hok Hc Hv. unfold run_agent.
  destruct (find_agent _ _) as [a|]; [destruct (find_flow_for_agent _ _) as [f|]|]; try done.
  apply total_bind; [|intros r; by destruct (bool_decide _)].
  apply run_from_state_total; [by apply node_agent_ok | by apply node_agent_total | done].
Qed.

Lemma run_nodes_total name input nodes ran idx s :
  config_ok (config_ rt) → config_total (config_ rt) → value_ok input →
  loop_ok ran s → idx = to_size (Z.of_nat (length ran)) →
  total (run_nodes rt name input nodes idx s).
Proof.
  intros Hok Hc Hi. revert ran idx s. induction nodes as [|n nodes IH];
    intros ran idx s Hs Hidx; simpl; [done|]. intros w. apply eff_bind_NoFuel.
  - unfold run_node. destruct (dependency_failed _ _); [done|].
    destruct (wn_input n) as [e|]; [|by apply run_agent_total; [..|constructor]].
    apply eff_bind_NoFuel; [by apply eval_workflow_total|]. intros v w1 Hv.
    apply eval_workflow_ok in Hv; [|done|done|apply Hs].
    destruct (has_errors v); [done|]. apply run_agent_total; [done|done|apply Hv].
  - intros s' w1 Hrun. apply (run_node_ok rt Hok _ _ ran) in Hrun; [|done..].
    eapply (IH (ran ++ [n])); [done|].
    rewrite Hidx, size_succ_to_size, length_app. simpl. f_equal. lia.
Qed.

Lemma eval_return_total name wf input outputs r :
  config_total (config_ rt) → total (eval_return rt name wf input outputs r).
Proof.
  intros Hc. unfold eval_return. destruct (wf_return_value wf) as [e|]; [|done].
  apply total_bind; [by apply eval_workflow_total|]. intros v. by destruct (has_errors v).
Qed.
End Result.

(** C10: a workflow run always ends when the capabilities it calls do. *)
Theorem workflow_terminates {W} `{Clock W} (rt : WorkflowRuntime W) name input :
  config_ok (config_ rt) → config_total (config_ rt) → value_ok input →
  total (run_workflow rt name input).
Proof.
  intros Hok Hc Hi. unfold run_workflow. destruct (find_workflow _ _) as [wf|]; [|done].
  destruct (bool_decide _); [by apply eval_return_total|].
  destruct (topological_order_run wf) as [order ->].
  apply total_bind; [done|]. intros x. destruct (negb _); [done|].
  apply total_bind; [by eapply run_nodes_total; [..|apply initial_ok|]|]. intros s.
  destruct (bool_decide _); [by apply eval_return_total | done].
Qed.

(** C11: in a run of a workflow whose dependencies are acyclic and resolved,
    the nodes are executed in the topological order, each exactly once; the
    results are listed in that order; a node that completed had all its
    dependencies executed before it and completed; and when the workflow
    completes all nodes have.  With a cycle or an unresolved dependency nothing
    is executed and the status is [DependencyFailed], a status no other run
    of an existing workflow has. *)
Theorem workflow_order_correct {W} `{Clock W} (rt : WorkflowRuntime W) name input wf order w r w' :
  config_ok (config_ rt) → value_ok input →
  find_workflow (index_ rt) name = Some wf → topological_order wf ⇓ order →
  run_workflow rt name input w ⇓ (r, w') →
  (length order = length (wf_nodes wf) →
     order ≡ₚ wf_nodes wf ∧ execution_order r = wn_name <$> order ∧
     node_name <$> node_results r = wn_name <$> order ∧
     (∀ i n x d, order !! i = Some n → node_results r !! i = Some x →
        nr_status x = AgentStatus.Completed → d ∈ wn_after n →
        ∃ j y, (j < i)%nat ∧ node_results r !! j = Some y ∧ node_name y = d ∧
               nr_status y = AgentStatus.Completed) ∧
     (wr_status r = WorkflowStatus.Completed →
        ∀ x, x ∈ node_results r → nr_status x = AgentStatus.Completed) ∧
     wr_status r ≠ WorkflowStatus.DependencyFailed) ∧
  (length order ≠ length (wf_nodes wf) →
     wr_status r = WorkflowStatus.DependencyFailed ∧ execution_order r = [] ∧
     node_results r = []).
Proof.
  intros Hok Hi Hwf Horder Hrun.
  apply (run_workflow_ok rt _ _ _ Hok Hi Hwf _ Horder) in Hrun as [_ Hrun].
  case_bool_decide as Hlen; (split; [intros Hl|intros Hl]); try done.
  destruct (complete_order _ _ Horder Hl) as (Hperm & _ & Hdeps).
  destruct Hrun as [Ho Hr Hc Hd]. destruct Hr as [Hnames _ _ _ Hrd].
  do 3 (split; [done|]). split; [|split; [|done]].
  - intros i n x d Hn Hx Hst Hin. destruct (Hdeps i n d Hn Hin) as (j & m & Hj & Hm & <-).
    assert (∃ y, node_results r !! j = Some y ∧ node_name y = wn_name m) as (y & Hy & Hname).
    { assert (Hf : (node_name <$> node_results r) !! j = Some (wn_name m))
        by (rewrite Hnames, list_lookup_fmap, Hm; done).
      rewrite list_lookup_fmap in Hf. destruct (node_results r !! j) as [y|]; [|done].
      exists y. split; [done|]. by injection Hf. }
    exists j, y. do 3 (split; [done|]). eapply (Hrd i j n x y); try done. by rewrite Hname.
  - intros Hst x Hx. specialize (Hc Hst). rewrite Forall_forall in Hc. by apply Hc.
Qed.

(** C12: the status of a workflow run: its diagnostics hold an error exactly
    when it did not complete, and it has an output, a well-formed value, only
    when it completed; an unknown workflow fails. *)
Theorem workflow_status_correct {W} `{Clock W} (rt : WorkflowRuntime W) name input w r w' :
  config_ok (config_ rt) → value_ok input →
  run_workflow rt name input w ⇓ (r, w') →
  (workflow_has_errors r = false ↔ wr_status r = WorkflowStatus.Completed) ∧
  (∀ v, wr_output r = Some v → wr_status r = WorkflowStatus.Completed ∧ value_ok v) ∧
  (find_workflow (index_ rt) name = None →
     wr_status r = WorkflowStatus.NodeFailed ∧ w' = w).
Proof.
  intros Hok Hi Hrun.
  assert (Hs : result_status_ok r).
  { destruct (find_workflow (index_ rt) name) as [wf|] eqn:Hwf.
    - destruct (topological_order_run wf) as [order Ho].
      exact (proj1 (run_workflow_ok rt _ _ _ Hok Hi Hwf _ Ho w r w' Hrun)).
    - unfold run_workflow in Hrun. rewrite Hwf in Hrun. by injection Hrun as <- <-. }
  destruct Hs as [He Hout]. split; [|split; [done|]].
  - unfold workflow_has_errors. rewrite He, negb_false_iff. apply bool_decide_eq_true.
  - intros Hwf. unfold run_workflow in Hrun. rewrite Hwf in Hrun. by injection Hrun as <- <-.
Qed.

(** ** A concrete workflow: node [b] after node [a] *)
Definition sample_program : Program :=
  mkProgram "v1" ProgramPhase.Lowered 0
    [DAgent Example.agent; DFlow Example.flow; DWorkflow two_nodes].
Definition sample_runtime : WorkflowRuntime Z :=
  make_workflow_runtime sample_program (mkConfig no_quota None None).
Definition sample_run : cxx (WorkflowResult * Z) :=
  @run_workflow Z Example.clock sample_runtime "w" NoneValue 0.

Lemma sample_ok : config_ok (config_ sample_runtime).
Proof. split; intros f Hf; discriminate Hf. Qed.
Lemma sample_total : config_total (config_ sample_runtime).
Proof. split; intros f Hf; discriminate Hf. Qed.
Lemma sample_run_result :
  sample_run ⇓ (mkWorkflowResult WorkflowStatus.Completed None ["a"; "b"]
    [mkNodeResult "a" "agent" AgentStatus.Completed (Some (BoolValue true)) 0;
     mkNodeResult "b" "agent" AgentStatus.Completed (Some (BoolValue true)) 1] empty_bag, 4).
Proof. vm_compute. reflexivity. Qed.

Lemma workflow_terminates_witness : sample_run ≠ NoFuel.
Proof.
  exact (@workflow_terminates Z Example.clock sample_runtime "w" NoneValue sample_ok sample_total
    ok_none 0).
Defined.

Lemma workflow_order_correct_witness :
  wn_name <$> rev (wf_nodes two_nodes) = ["a"; "b"] ∧
  rev (wf_nodes two_nodes) ≡ₚ wf_nodes two_nodes.
Proof.
  split; [reflexivity|].
  exact (proj1 (proj1 (@workflow_order_correct Z Example.clock sample_runtime "w" NoneValue two_nodes
    (rev (wf_nodes two_nodes)) 0 _ _ sample_ok ok_none eq_refl eq_refl sample_run_result) eq_refl)).
Defined.

Lemma workflow_status_correct_witness :
  has_error empty_bag = false ∧ WorkflowStatus.Completed = WorkflowStatus.Completed.
Proof.
  destruct (@workflow_status_correct Z Example.clock sample_runtime "w" NoneValue 0 _ _
    sample_ok ok_none sample_run_result) as [H _].
  split; [reflexivity | apply H; reflexivity].
Defined.
