(* ===== verification/Scheduler.v ===== *)
(** * The parallel scheduler (src/runtime/engine/parallel_scheduler.{hpp,cpp})

    Worker threads pull ready nodes from a queue under a mutex, run them, and
    commit their results under the mutex.  A thread's actions between two
    lock acquisitions are one step of a transition relation over the shared
    state; a thread that waits on the condition variable can step when its
    predicate holds (every change of the shared state is followed by
    [notify_all]).  A node's [execute] is external: each of its calls returns
    an output or throws.  Times and sleeps are not modelled.  The iteration
    order of the unordered map that seeds the queue is the order of [gmap];
    no theorem depends on it.  Degrees ([int]) stay below 2^31. *)
From S2P Require Import Prelude.
Open Scope nat_scope.

(** ** Data *)
Module FailurePropagationMode.
Inductive t := FailFast | FailGraceful | ContinueOnError.
End FailurePropagationMode.
#[export] Instance failure_mode_eq_dec : EqDecision FailurePropagationMode.t.
Proof. solve_decision. Defined.

Module NodeStatus.
Inductive t := Pending | Running | Completed | Failed | Skipped.
End NodeStatus.
#[export] Instance node_status_eq_dec : EqDecision NodeStatus.t.
Proof. solve_decision. Defined.

(** [max_attempts] of the retry policy; a negative one counts as zero.
    [has_execute]: the node's [std::function] is not empty. *)
Record DagNode := mkDagNode {
  dag_id : string;
  dependencies : list string;
  has_execute : bool;
  max_attempts : nat }.

Record NodeResult := mkNodeResult {
  node_id : string;
  node_status : NodeStatus.t;
  node_output : string;
  node_error : string;
  node_attempts : nat }.
Definition new_result (id : string) : NodeResult :=
  mkNodeResult id NodeStatus.Pending "" "" 0.

(** ** The dependency graph *)
Record Graph := mkGraph {
  in_degree : gmap string nat;
  adjacency : gmap string (list string) }.
Definition add_dependency (id : string) (g : Graph) (dep : string) : Graph :=
  mkGraph (<[id := S (default 0 (in_degree g !! id))]> (in_degree g))
          (<[dep := default [] (adjacency g !! dep) ++ [id]]> (adjacency g)).
Definition add_graph_node (g : Graph) (n : DagNode) : Graph :=
  let g := mkGraph (<[dag_id n := default 0 (in_degree g !! dag_id n)]> (in_degree g))
                   (adjacency g) in
  fold_left (add_dependency (dag_id n)) (dependencies n) g.
Definition build_graph (nodes : list DagNode) : Graph :=
  fold_left add_graph_node nodes (mkGraph ∅ ∅).
(** The nodes without dependencies, in the order of the map. *)
Definition zero_degree (g : Graph) : list string :=
  fst <$> base.filter (λ x, x.2 = 0) (map_to_list (in_degree g)).
Definition successors (g : Graph) (id : string) : list string := default [] (adjacency g !! id).

(** [if (--in_degree[successor] == 0) queue.push(successor);]  A degree is
    positive whenever it is decremented. *)
Definition release_one (st : gmap string nat * list string) (successor : string)
    : gmap string nat * list string :=
  let d := default 0 (st.1 !! successor) in
  (<[successor := d - 1]> st.1, if bool_decide (d = 1) then st.2 ++ [successor] else st.2).
Definition release_successors (g : Graph) (id : string) (degree : gmap string nat)
    (queue : list string) : gmap string nat * list string :=
  fold_left release_one (successors g id) (degree, queue).

(** ** Cycle detection *)
Fixpoint count_visited (fuel : nat) (g : Graph) (queue : list string)
    (degree : gmap string nat) (visited : nat) : cxx nat :=
  match queue with
  | [] => Ret visited
  | current :: queue =>
      match fuel with
      | O => NoFuel
      | S fuel =>
          let '(degree, queue) := release_successors g current degree queue in
          count_visited fuel g queue degree (S visited)
      end
  end.
Definition validate_dag (nodes : list DagNode) : cxx bool :=
  let g := build_graph nodes in
  visited ← count_visited (length nodes) g (zero_degree g) (in_degree g) 0;
  Ret (bool_decide (visited = length nodes)).

(** ** Running a node: up to [max_attempts] calls *)
Fixpoint attempt (n k : nat) (node : DagNode) (calls : nat → string + string) (nr : NodeResult)
    : NodeResult * bool :=
  match n with
  | O => (nr, false)
  | S n =>
      let nr := mkNodeResult (node_id nr) (node_status nr) (node_output nr) (node_error nr) (S k) in
      if has_execute node then
        match calls k with
        | inl out => (mkNodeResult (node_id nr) NodeStatus.Completed out (node_error nr) (S k), true)
        | inr e =>
            attempt n (S k) node calls
              (mkNodeResult (node_id nr) (node_status nr) (node_output nr) e (S k))
        end
      else (mkNodeResult (node_id nr) NodeStatus.Completed (node_output nr) (node_error nr) (S k), true)
  end.
Definition execute_node (node : DagNode) (calls : nat → string + string) : NodeResult * bool :=
  let '(nr, executed) := attempt (max_attempts node) 0 node calls (new_result (dag_id node)) in
  if (executed : bool) then (nr, true)
  else (mkNodeResult (node_id nr) NodeStatus.Failed (node_output nr) (node_error nr)
          (node_attempts nr), false).
Definition skipped_result (id : string) : NodeResult :=
  mkNodeResult id NodeStatus.Skipped "" "dependency failed" 0.
Definition never_scheduled (id : string) : NodeResult :=
  mkNodeResult id NodeStatus.Skipped "" "execution stopped before scheduling" 0.

(** ** The shared state and the threads *)
Inductive Phase :=
  | Idle                                             (** at the top of the loop *)
  | Picked (id : string)                             (** popped, dependencies not checked *)
  | Skipping (id : string)                           (** a dependency failed *)
  | Executing (id : string)
  | Executed (id : string) (nr : NodeResult) (ok : bool)
  | Exited.
#[export] Instance node_result_eq_dec : EqDecision NodeResult.
Proof. solve_decision. Defined.
#[export] Instance phase_eq_dec : EqDecision Phase.
Proof. solve_decision. Defined.

Record Shared := mkShared {
  ready_queue : list string;
  degrees : gmap string nat;
  failed_nodes : gset string;
  results_map : gmap string NodeResult;
  completed_count : nat;
  stop_requested : bool }.
Record State := mkState { shared : Shared; threads : list Phase }.

(** [node_map[id]]: the last node with that id. *)
Definition node_of (nodes : list DagNode) (id : string) : option DagNode :=
  last (base.filter (λ n, dag_id n = id) nodes).
Definition any_failed (deps : list string) (failed : gset string) : bool :=
  existsb (λ d, bool_decide (d ∈ failed)) deps.

(** Commit a result and, unless the scheduler stops, release the successors. *)
Definition commit_skip (g : Graph) (id : string) (s : Shared) : Shared :=
  let '(degree, queue) := release_successors g id (degrees s) (ready_queue s) in
  mkShared queue degree ({[id]} ∪ failed_nodes s) (<[id := skipped_result id]> (results_map s))
    (S (completed_count s)) (stop_requested s).
Definition commit_result (g : Graph) (id : string) (nr : NodeResult) (ok : bool) (s : Shared)
    : Shared :=
  let '(degree, queue) := release_successors g id (degrees s) (ready_queue s) in
  mkShared queue degree (if ok then failed_nodes s else {[id]} ∪ failed_nodes s)
    (<[id := nr]> (results_map s)) (S (completed_count s)) (stop_requested s).
Definition commit_stop (id : string) (nr : NodeResult) (s : Shared) : Shared :=
  mkShared (ready_queue s) (degrees s) ({[id]} ∪ failed_nodes s)
    (<[id := nr]> (results_map s)) (S (completed_count s)) true.

Section Steps.
Context (nodes : list DagNode) (mode : FailurePropagationMode.t).

Definition graph : Graph := build_graph nodes.
Definition finished (s : Shared) : bool :=
  stop_requested s || bool_decide (completed_count s = length nodes).
Definition fails_fast : bool := bool_decide (mode = FailurePropagationMode.FailFast).

(** One step of a thread: its phase and the shared state, before and after. *)
Inductive thread_step : Phase → Shared → Phase → Shared → Prop :=
  | step_exit s : finished s = true → thread_step Idle s Exited s
  | step_take s id q :
      finished s = false → ready_queue s = id :: q →
      thread_step Idle s (Picked id)
        (mkShared q (degrees s) (failed_nodes s) (results_map s) (completed_count s)
           (stop_requested s))
  | step_check s id node :
      node_of nodes id = Some node →
      thread_step (Picked id) s
        (if any_failed (dependencies node) (failed_nodes s) then Skipping id else Executing id) s
  | step_skip s id : thread_step (Skipping id) s Idle (commit_skip graph id s)
  | step_execute s id node calls nr ok :
      node_of nodes id = Some node → execute_node node calls = (nr, ok) →
      thread_step (Executing id) s (Executed id nr ok) s
  | step_commit s id nr ok :
      ok || negb fails_fast = true →
      thread_step (Executed id nr ok) s Idle (commit_result graph id nr ok s)
  | step_stop s id nr :
      fails_fast = true → thread_step (Executed id nr false) s Exited (commit_stop id nr s).

(** Any thread may take the next step. *)
Inductive step : State → State → Prop :=
  | step_thread i p p' s s' ts :
      ts !! i = Some p → thread_step p s p' s' →
      step (mkState s ts) (mkState s' (<[i := p']> ts)).

Definition initial_shared : Shared :=
  mkShared (zero_degree graph) (in_degree graph) ∅ ∅ 0 false.
Definition initial_state (thread_count : nat) : State :=
  mkState initial_shared
    (replicate (Nat.min (Nat.max 1 thread_count) (length nodes)) Idle).

(** The results, in the order of the nodes. *)
Definition collect (s : Shared) : list NodeResult :=
  (λ n, default (never_scheduled (dag_id n)) (results_map s !! dag_id n)) <$> nodes.
Definition success (s : Shared) : bool := bool_decide (failed_nodes s = ∅).
End Steps.

(** A result of [execute()]: rejected, or the outcome of some interleaving that
    ends with every thread gone. *)
Record SchedulerResult := mkSchedulerResult {
  sr_success : bool;
  sr_results : list NodeResult }.
Inductive executes (nodes : list DagNode) (mode : FailurePropagationMode.t) (thread_count : nat)
    : SchedulerResult → Prop :=
  | executes_invalid :
      validate_dag nodes ⇓ false → executes nodes mode thread_count (mkSchedulerResult false [])
  | executes_valid s :
      validate_dag nodes ⇓ true →
      rtc (step nodes mode) (initial_state nodes thread_count) s →
      Forall (λ p, p = Exited) (threads s) →
      executes nodes mode thread_count
        (mkSchedulerResult (success (shared s)) (collect nodes (shared s))).
