(* ===== verification/SchedulerProps.v ===== *)
(** * Properties of the parallel scheduler

    Cycle detection is exact; in every interleaving of the worker threads a
    node runs at most once and after its dependencies completed; no deadlock;
    termination; the meaning of the result. *)
From S2P Require Import Prelude Scheduler.
Open Scope nat_scope.

(** ** The graph of a list of nodes *)
Definition node_ids (nodes : list DagNode) : list string := dag_id <$> nodes.
Definition deps_of (nodes : list DagNode) (id : string) : list string :=
  nodes ≫= λ n, if decide (dag_id n = id) then dependencies n else [].

Lemma count_app x l1 l2 : count x (l1 ++ l2) = count x l1 + count x l2.
Proof. by rewrite filter_app, length_app. Qed.
Lemma count_cons x y l : count x (y :: l) = (if decide (y = x) then 1 else 0) + count x l.
Proof. rewrite filter_cons. by case_decide. Qed.

Lemma deps_of_snoc nodes n id :
  deps_of (nodes ++ [n]) id = deps_of nodes id ++ (if decide (dag_id n = id) then dependencies n else []).
Proof. unfold deps_of. rewrite bind_app. simpl. by rewrite app_nil_r. Qed.

Lemma deps_of_cons m nodes id :
  deps_of (m :: nodes) id = (if decide (dag_id m = id) then dependencies m else []) ++ deps_of nodes id.
Proof. done. Qed.

Lemma deps_of_none nodes id : id ∉ node_ids nodes → deps_of nodes id = [].
Proof.
  induction nodes as [|k nodes IH]; intros Hn; [done|]. rewrite deps_of_cons.
  unfold node_ids in *. simpl in Hn. rewrite not_elem_of_cons in Hn. destruct Hn as [Hk Hn].
  rewrite decide_False by congruence. by rewrite IH.
Qed.

Lemma deps_of_elem nodes n :
  NoDup (node_ids nodes) → n ∈ nodes → deps_of nodes (dag_id n) = dependencies n.
Proof.
  induction nodes as [|m nodes IH]; intros Hnd Hn; [by apply elem_of_nil in Hn|].
  unfold node_ids in Hnd. simpl in Hnd. apply NoDup_cons in Hnd as [Hm Hnd]. rewrite deps_of_cons.
  apply elem_of_cons in Hn as [->|Hn].
  - rewrite decide_True by done. rewrite deps_of_none by done. apply app_nil_r.
  - rewrite decide_False; [by apply IH|]. intros Heq. apply Hm. rewrite Heq.
    by apply list_elem_of_fmap_2.
Qed.

(** The graph [g] describes the dependencies [deps] of the names [ids]. *)
Record graph_spec (g : Graph) (ids : list string) (deps : string → list string) : Prop := {
  spec_ids : ∀ x, is_Some (in_degree g !! x) ↔ x ∈ ids;
  spec_degree : ∀ x, default 0 (in_degree g !! x) = length (deps x);
  spec_successors : ∀ x y, count y (successors g x) = count x (deps y) }.

Lemma add_dependencies_spec id l g :
  is_Some (in_degree g !! id) →
  let g' := fold_left (add_dependency id) l g in
  (∀ x, is_Some (in_degree g' !! x) ↔ is_Some (in_degree g !! x)) ∧
  (∀ x, default 0 (in_degree g' !! x) =
        default 0 (in_degree g !! x) + (if decide (id = x) then length l else 0)) ∧
  (∀ x y, count y (successors g' x) =
          count y (successors g x) + (if decide (id = y) then count x l else 0)).
Proof.
  revert g. induction l as [|d l IH]; intros g Hid; simpl.
  - split; [done|]. split; intros; case_decide; lia.
  - set (g1 := add_dependency id g d).
    assert (H1 : ∀ x, is_Some (in_degree g1 !! x) ↔ is_Some (in_degree g !! x)).
    { intros x. simpl. destruct (decide (id = x)) as [->|].
      - rewrite lookup_insert_eq. by split.
      - by rewrite lookup_insert_ne. }
    assert (H2 : ∀ x, default 0 (in_degree g1 !! x) =
      default 0 (in_degree g !! x) + (if decide (id = x) then 1 else 0)).
    { intros x. simpl. destruct (decide (id = x)) as [->|].
      - rewrite lookup_insert_eq. simpl. lia.
      - rewrite lookup_insert_ne by done. lia. }
    assert (H3 : ∀ x y, count y (successors g1 x) =
      count y (successors g x) + (if decide (id = y) then (if decide (d = x) then 1 else 0) else 0)).
    { intros x y. unfold successors. simpl. destruct (decide (d = x)) as [->|].
      - rewrite lookup_insert_eq. simpl. rewrite count_app, count_cons. simpl.
        case_decide; lia.
      - rewrite lookup_insert_ne by done. case_decide; lia. }
    destruct (IH g1) as (I1 & I2 & I3); [by apply H1|].
    split; [intros x; by rewrite I1|]. split.
    + intros x. rewrite I2, H2. case_decide; lia.
    + intros x y. rewrite I3, H3, count_cons. case_decide; lia.
Qed.

Lemma build_graph_spec nodes :
  graph_spec (build_graph nodes) (node_ids nodes) (deps_of nodes).
Proof.
  induction nodes as [|n nodes IH] using rev_ind.
  - split; [|done|done]. intros x. split; [by intros [? ?]|]. by intros ?%elem_of_nil.
  - unfold build_graph. rewrite fold_left_app. fold (build_graph nodes). simpl.
    set (g := build_graph nodes) in *. unfold add_graph_node.
    set (g0 := mkGraph _ _).
    assert (H1 : ∀ x, is_Some (in_degree g0 !! x) ↔ x = dag_id n ∨ is_Some (in_degree g !! x)).
    { intros x. simpl. destruct (decide (dag_id n = x)) as [->|].
      - rewrite lookup_insert_eq. split; [by left | done].
      - rewrite lookup_insert_ne by done. naive_solver. }
    assert (H2 : ∀ x, default 0 (in_degree g0 !! x) = default 0 (in_degree g !! x)).
    { intros x. simpl. destruct (decide (dag_id n = x)) as [->|].
      - by rewrite lookup_insert_eq.
      - by rewrite lookup_insert_ne. }
    destruct (add_dependencies_spec (dag_id n) (dependencies n) g0) as (I1 & I2 & I3);
      [apply H1; by left|].
    destruct IH as [S1 S2 S3]. split.
    + intros x. rewrite I1, H1, S1. unfold node_ids. rewrite fmap_app, elem_of_app. simpl.
      rewrite list_elem_of_singleton. tauto.
    + intros x. rewrite I2, H2, S2, deps_of_snoc, length_app. by case_decide.
    + intros x y. rewrite I3. change (successors g0 x) with (successors g x).
      rewrite S3, deps_of_snoc, count_app. by case_decide.
Qed.

(** ** Releasing successors *)
Lemma release_all_spec l deg q :
  let r := fold_left release_one l (deg, q) in
  (∀ x, default 0 (r.1 !! x) = default 0 (deg !! x) - count x l) ∧
  ∃ new, r.2 = q ++ new ∧ NoDup new ∧ ∀ x, x ∈ new ↔ 1 ≤ default 0 (deg !! x) ≤ count x l.
Proof.
  revert deg q. induction l as [|y l IH]; intros deg q; simpl.
  - split; [intros; lia|]. exists []. split; [by rewrite app_nil_r|]. split; [constructor|].
    intros x. split; [by intros ?%elem_of_nil | lia].
  - unfold release_one at 2 4. simpl. set (d := default 0 (deg !! y)).
    destruct (IH (<[y := d - 1]> deg) (if bool_decide (d = 1) then q ++ [y] else q))
      as (H1 & new & H2 & Hnd & H3).
    assert (Hdeg : ∀ x, default 0 (<[y := d - 1]> deg !! x) =
                        if decide (y = x) then d - 1 else default 0 (deg !! x)).
    { intros x. destruct (decide (y = x)) as [->|].
      - by rewrite lookup_insert_eq.
      - by rewrite lookup_insert_ne. }
    split; [|case_bool_decide as Hd].
    + intros x. rewrite H1, Hdeg, count_cons. subst d. destruct (decide (y = x)) as [->|]; lia.
    + exists (y :: new). split; [rewrite H2, <- app_assoc; done|]. split.
      * constructor; [|done]. rewrite H3, Hdeg, decide_True by done. lia.
      * intros x. rewrite elem_of_cons, H3, Hdeg, count_cons. subst d.
        destruct (decide (y = x)) as [->|]; [split; [|tauto]; lia | naive_solver].
    + exists new. split; [done|]. split; [done|]. intros x.
      rewrite H3, Hdeg, count_cons. subst d. destruct (decide (y = x)) as [->|]; lia.
Qed.

Lemma elem_of_middle (x y : string) q F : y ∈ q ++ x :: F ↔ y = x ∨ y ∈ q ++ F.
Proof. rewrite <- Permutation_middle. apply elem_of_cons. Qed.

(** ** The invariant of the ready queue

    [P]: the committed names; [F]: the names taken from the queue and not
    committed; [live]: every release so far was done. *)
Section Graph.
Context (nodes : list DagNode).
Abbreviation ids := (node_ids nodes).
Abbreviation deps := (deps_of nodes).
Abbreviation g := (build_graph nodes).

Record graph_inv (live : bool) (P : gset string) (F q : list string) (deg : gmap string nat)
    : Prop := {
  gi_degree : ∀ x, x ∉ P → pending P (deps x) ≤ default 0 (deg !! x);
  gi_ready : ∀ x, x ∈ q ++ F → x ∈ ids ∧ x ∉ P ∧ ∀ d, d ∈ deps x → d ∈ P;
  gi_closed : ∀ x, x ∈ P → x ∈ ids ∧ ∀ d, d ∈ deps x → d ∈ P;
  gi_nodup : NoDup (q ++ F);
  gi_exact : live = true → ∀ x, x ∉ P → default 0 (deg !! x) = pending P (deps x);
  gi_complete : live = true → ∀ x, x ∈ ids → x ∉ P → (∀ d, d ∈ deps x → d ∈ P) → x ∈ q ++ F }.

Lemma elem_of_deps x d : d ∈ deps x → x ∈ ids.
Proof.
  intros Hd. destruct (decide (x ∈ ids)) as [|Hn]; [done|].
  rewrite deps_of_none in Hd by done. by apply elem_of_nil in Hd.
Qed.

Lemma graph_inv_perm live P F F' q deg :
  F ≡ₚ F' → graph_inv live P F q deg → graph_inv live P F' q deg.
Proof.
  intros HF [H1 H2 H3 H4 H5 H6]. split; try done.
  - intros x Hx. apply H2. by rewrite HF.
  - by rewrite <- HF.
  - intros Hl x Hx Hp Hd. rewrite <- HF. by apply H6.
Qed.

Lemma graph_inv_take live P F q deg x :
  graph_inv live P F (x :: q) deg → graph_inv live P (x :: F) q deg.
Proof.
  assert (Hperm : q ++ x :: F ≡ₚ (x :: q) ++ F) by (symmetry; apply Permutation_middle).
  intros [H1 H2 H3 H4 H5 H6]. split; try done.
  - intros y Hy. apply H2. by rewrite <- Hperm.
  - by rewrite Hperm.
  - intros Hl y Hx Hp Hd. rewrite Hperm. by apply H6.
Qed.

(** A name that is ready or committed does not depend on an uncommitted one. *)
Lemma graph_inv_uncommitted live P F q deg x y :
  graph_inv live P F q deg → x ∉ P → y ∈ q ++ F ∨ y ∈ P → x ∉ deps y.
Proof.
  intros Hinv Hx Hy Hd. apply Hx. destruct Hy as [Hy|Hy].
  - by apply (gi_ready _ _ _ _ _ Hinv y Hy).
  - by apply (gi_closed _ _ _ _ _ Hinv y Hy).
Qed.

Lemma graph_inv_closed_step live P F q deg x :
  graph_inv live P (x :: F) q deg →
  ∀ y, y ∈ {[x]} ∪ P → y ∈ ids ∧ ∀ d, d ∈ deps y → d ∈ {[x]} ∪ P.
Proof.
  intros Hinv y [->%elem_of_singleton|Hy]%elem_of_union.
  - destruct (gi_ready _ _ _ _ _ Hinv x) as (H1 & _ & H3); [apply elem_of_app; right; left|].
    split; [done|]. intros d Hd. apply elem_of_union_r. auto.
  - destruct (gi_closed _ _ _ _ _ Hinv y Hy) as [H1 H2]. split; [done|].
    intros d Hd. apply elem_of_union_r. auto.
Qed.

(** The names other than [x] stay ready when [x] is committed. *)
Lemma graph_inv_ready_step live P F q deg x :
  graph_inv live P (x :: F) q deg →
  ∀ y, y ∈ q ++ F → y ∈ ids ∧ y ∉ {[x]} ∪ P ∧ ∀ d, d ∈ deps y → d ∈ {[x]} ∪ P.
Proof.
  intros Hinv y Hy.
  destruct (gi_ready _ _ _ _ _ Hinv y) as (H1 & H2 & H3); [by apply elem_of_middle; right|].
  pose proof (gi_nodup _ _ _ _ _ Hinv) as Hnd. rewrite <- Permutation_middle in Hnd.
  apply NoDup_cons in Hnd as [Hx _]. split; [done|]. split.
  { intros [->%elem_of_singleton|]%elem_of_union; done. }
  intros d Hd. apply elem_of_union_r. auto.
Qed.

Lemma graph_inv_commit live P F q deg x :
  graph_inv live P (x :: F) q deg →
  graph_inv live ({[x]} ∪ P) F (release_successors g x deg q).2 (release_successors g x deg q).1.
Proof.
  intros Hinv. destruct (build_graph_spec nodes) as [_ _ Hsucc].
  destruct (gi_ready _ _ _ _ _ Hinv x) as (Hx1 & Hx2 & Hx3); [apply elem_of_app; right; left|].
  unfold release_successors.
  destruct (release_all_spec (successors g x) deg q) as (Hdeg & new & Hq & Hnd & Hnew).
  set (r := fold_left _ _ _) in *.
  assert (Hcount : ∀ y, count y (successors g x) = count x (deps y)) by (intros; apply Hsucc).
  assert (Hpend : ∀ y, pending P (deps y) = pending ({[x]} ∪ P) (deps y) + count x (deps y))
    by (intros; by apply pending_step).
  assert (Hnewdep : ∀ y, y ∈ new → x ∈ deps y).
  { intros y Hy. apply Hnew in Hy. apply count_pos. rewrite <- Hcount. lia. }
  assert (Hnew' : ∀ y, y ∈ new → y ∉ q ++ x :: F ∧ y ∉ P).
  { intros y Hy%Hnewdep. split; intros Hin;
      eapply (graph_inv_uncommitted _ _ _ _ _ x y Hinv Hx2); eauto. }
  split.
  - intros y Hy. rewrite Hdeg, Hcount.
    pose proof (gi_degree _ _ _ _ _ Hinv y) as Hle. rewrite (Hpend y) in Hle.
    assert (y ∉ P) as HyP by set_solver. specialize (Hle HyP). lia.
  - intros y Hy. rewrite Hq in Hy. rewrite <- app_assoc, !elem_of_app in Hy.
    destruct Hy as [Hy|[Hy|Hy]]; try (by eapply graph_inv_ready_step; [exact Hinv|apply elem_of_app; auto]).
    pose proof (Hnewdep y Hy) as Hd. destruct (Hnew' y Hy) as [Hn1 Hn2].
    split; [by eapply elem_of_deps|]. split.
    { intros [->%elem_of_singleton|]%elem_of_union; [|done]. apply Hn1, elem_of_middle. by left. }
    apply pending_0. apply Hnew in Hy. rewrite Hcount in Hy.
    pose proof (gi_degree _ _ _ _ _ Hinv y Hn2) as Hle. rewrite (Hpend y) in Hle. lia.
  - by eapply graph_inv_closed_step.
  - rewrite Hq, <- app_assoc. pose proof (gi_nodup _ _ _ _ _ Hinv) as Hnd'.
    rewrite (Permutation_app_comm new F), app_assoc. apply NoDup_app. split; [|split; [|done]].
    + rewrite <- Permutation_middle in Hnd'. by apply NoDup_cons in Hnd' as [_ ?].
    + intros y Hy Hin. destruct (Hnew' y Hin) as [Hn _]. apply Hn, elem_of_middle. by right.
  - intros Hl y Hy. rewrite Hdeg, Hcount, (gi_exact _ _ _ _ _ Hinv Hl y) by set_solver.
    rewrite (Hpend y). lia.
  - intros Hl y Hy Hp Hd. rewrite Hq. rewrite <- app_assoc, !elem_of_app.
    destruct (decide (x ∈ deps y)) as [Hin|Hin].
    + right; left. apply Hnew. rewrite Hcount, (gi_exact _ _ _ _ _ Hinv Hl y) by set_solver.
      rewrite (Hpend y). apply pending_0 in Hd. apply count_pos in Hin. lia.
    + pose proof (gi_complete _ _ _ _ _ Hinv Hl y Hy) as Hc.
      assert (Hin' : y ∈ q ++ x :: F).
      { apply Hc; [set_solver|]. intros d Hdy. specialize (Hd d Hdy).
        apply elem_of_union in Hd as [->%elem_of_singleton|]; done. }
      apply elem_of_middle in Hin' as [->|Hin']; [set_solver|].
      apply elem_of_app in Hin'. tauto.
Qed.

(** Committing without releasing keeps the safe part. *)
Lemma graph_inv_stop live P F q deg x :
  graph_inv live P (x :: F) q deg → graph_inv false ({[x]} ∪ P) F q deg.
Proof.
  intros Hinv. destruct (gi_ready _ _ _ _ _ Hinv x) as (_ & Hx2 & _); [apply elem_of_app; right; left|].
  split; try done.
  - intros y Hy. pose proof (gi_degree _ _ _ _ _ Hinv y) as Hle.
    rewrite (pending_step x P) in Hle by done.
    assert (y ∉ P) as HyP by set_solver. specialize (Hle HyP). lia.
  - by eapply graph_inv_ready_step.
  - by eapply graph_inv_closed_step.
  - pose proof (gi_nodup _ _ _ _ _ Hinv) as Hnd. rewrite <- Permutation_middle in Hnd.
    by apply NoDup_cons in Hnd as [_ ?].
Qed.

Lemma elem_of_zero_degree x : x ∈ zero_degree g ↔ x ∈ ids ∧ deps x = [].
Proof.
  destruct (build_graph_spec nodes) as [Hids Hdeg _]. unfold zero_degree.
  rewrite list_elem_of_fmap. split.
  - intros ([y d] & -> & Hin). apply list_elem_of_filter in Hin as [Hd Hin]. simpl in *. subst d.
    apply elem_of_map_to_list in Hin. split; [apply Hids; by exists 0|].
    specialize (Hdeg y). rewrite Hin in Hdeg. simpl in Hdeg. by apply length_zero_iff_nil.
  - intros [Hx%Hids Hd]. destruct Hx as [d Hx]. specialize (Hdeg x). rewrite Hx, Hd in Hdeg.
    simpl in Hdeg. subst d. exists (x, 0). split; [done|]. apply list_elem_of_filter.
    split; [done|]. by apply elem_of_map_to_list.
Qed.

Lemma graph_inv_initial : graph_inv true ∅ [] (zero_degree g) (in_degree g).
Proof.
  destruct (build_graph_spec nodes) as [_ Hdeg _].
  assert (Hp : ∀ P l, (∀ x, x ∉ P) → pending P l = length l).
  { intros P l HP. induction l as [|d l IH]; [done|]. rewrite filter_cons, decide_True by done.
    simpl. by rewrite IH. }
  split; rewrite ?app_nil_r.
  - intros x _. rewrite Hp, Hdeg by set_solver. done.
  - intros x [Hx Hd]%elem_of_zero_degree. split; [done|]. split; [set_solver|]. rewrite Hd.
    intros d Hin. by apply elem_of_nil in Hin.
  - intros x Hx. set_solver.
  - unfold zero_degree. eapply sublist_NoDup; [apply (NoDup_fst_map_to_list (in_degree g))|].
    apply fmap_sublist, sublist_filter.
  - intros _ x _. rewrite Hp, Hdeg by set_solver. done.
  - intros _ x Hx _ Hd. apply elem_of_zero_degree. split; [done|].
    destruct (deps x) as [|d l]; [done|]. specialize (Hd d). set_solver.
Qed.

(** Dependencies come first in an order of names. *)
Definition before (order : list string) : Prop :=
  ∀ i x d, order !! i = Some x → d ∈ deps x → ∃ j, j < i ∧ order !! j = Some d.

Lemma before_snoc o x : before o → (∀ d, d ∈ deps x → d ∈ o) → before (o ++ [x]).
Proof.
  intros Ho Hx i y d Hi Hd. apply lookup_app_Some in Hi as [Hi|[Hle Hi]].
  - destruct (Ho i y d Hi Hd) as (j & Hj & Hd'). exists j. split; [done|].
    rewrite lookup_app_l; [done|]. by eapply lookup_lt_Some.
  - apply list_lookup_singleton_Some in Hi as [Hi <-].
    apply Hx, list_elem_of_lookup in Hd as [j Hj]. pose proof (lookup_lt_Some _ _ _ Hj).
    exists j. split; [lia|]. by rewrite lookup_app_l.
Qed.

(** When nothing is ready, in flight or unreleased, all is committed, provided
    the names can be ordered. *)
Lemma graph_inv_all P deg order :
  graph_inv true P [] [] deg → order ≡ₚ ids → before order → ∀ x, x ∈ ids → x ∈ P.
Proof.
  intros Hinv Hperm Hb x Hx. rewrite <- Hperm in Hx. apply list_elem_of_lookup in Hx as [i Hi].
  revert x Hi. induction (lt_wf i) as [i _ IH]. intros x Hi.
  destruct (decide (x ∈ P)) as [|Hp]; [done|]. exfalso.
  eapply (not_elem_of_nil (A:=string)). eapply (gi_complete _ _ _ _ _ Hinv eq_refl x); [|done|].
  - rewrite <- Hperm. by eapply list_elem_of_lookup_2.
  - intros d Hd. destruct (Hb i x d Hi Hd) as (j & Hj & Hd'). by eapply IH.
Qed.

(** ** Cycle detection *)
Record visiting (o q : list string) (deg : gmap string nat) : Prop := {
  vis_inv : graph_inv true (list_to_set o) [] q deg;
  vis_nodup : NoDup o;
  vis_before : before o }.

Lemma visiting_length o q deg : visiting o q deg → length o + length q ≤ length nodes.
Proof.
  intros [[_ Hr Hc Hn _ _] Ho _]. rewrite <- length_app, <- (length_fmap dag_id nodes).
  rewrite app_nil_r in *. apply submseteq_length, NoDup_submseteq.
  - apply NoDup_app. split; [done|]. split; [|done]. intros x Hx Hq.
    destruct (Hr x Hq) as (_ & Hp & _). apply Hp. by apply elem_of_list_to_set.
  - intros x [Hx|Hx]%elem_of_app; [|by apply Hr]. apply Hc. by apply elem_of_list_to_set.
Qed.

Lemma count_visited_spec fuel o q deg :
  visiting o q deg → length nodes ≤ fuel + length o →
  ∃ o' deg', count_visited fuel g q deg (length o) ⇓ length o' ∧ visiting o' [] deg'.
Proof.
  revert o q deg. induction fuel as [|fuel IH]; intros o q deg Hv Hf.
  - destruct q as [|x q]; [by exists o, deg|]. apply visiting_length in Hv. simpl in *. lia.
  - destruct q as [|x q]; [by exists o, deg|]. simpl.
    destruct Hv as [Hinv Hnd Hb].
    assert (Hx : x ∉ o ∧ ∀ d, d ∈ deps x → d ∈ o).
    { destruct (gi_ready _ _ _ _ _ Hinv x) as (_ & H1 & H2); [by left|].
      rewrite elem_of_list_to_set in H1. split; [done|]. intros d Hd.
      by apply (elem_of_list_to_set (C:=gset string)), H2. }
    apply graph_inv_take, graph_inv_commit in Hinv.
    destruct (release_successors g x deg q) as [deg1 q1]. simpl in Hinv.
    destruct (IH (o ++ [x]) q1 deg1) as (o' & deg' & Hrun & Hv').
    + split; [|apply NoDup_app; split; [done|split; [set_solver|apply NoDup_singleton]]
              |by apply before_snoc; [|apply Hx]].
      replace (list_to_set (o ++ [x]) : gset string) with ({[x]} ∪ list_to_set o : gset string);
        [done|]. rewrite list_to_set_app_L. simpl. set_solver.
    + rewrite length_app. simpl. lia.
    + exists o', deg'. split; [|done]. rewrite <- Hrun, length_app. simpl. f_equal. lia.
Qed.

Lemma visiting_initial : visiting [] (zero_degree g) (in_degree g).
Proof. split; [apply graph_inv_initial | constructor | by intros i x d Hi]. Qed.

Lemma validate_spec :
  ∃ b, validate_dag nodes ⇓ b ∧
    (b = true ↔ NoDup ids ∧ ∃ order, order ≡ₚ ids ∧ before order).
Proof.
  destruct (count_visited_spec (length nodes) [] _ _ visiting_initial) as (o & deg & Hrun & [Hinv Hnd Hb]);
    [simpl; lia|].
  unfold validate_dag. simpl in Hrun. rewrite Hrun. eexists. split; [reflexivity|].
  rewrite bool_decide_eq_true.
  assert (Hsub : o ⊆ ids).
  { intros x Hx. apply (gi_closed _ _ _ _ _ Hinv). by apply elem_of_list_to_set. }
  split.
  - intros Hlen.
    assert (Hperm : o ≡ₚ ids).
    { apply submseteq_length_Permutation; [by apply NoDup_submseteq|].
      unfold node_ids. rewrite length_fmap. lia. }
    split; [by rewrite <- Hperm | by exists o].
  - intros [Hids (order & Hperm & Hbo)]. rewrite <- (length_fmap dag_id nodes).
    apply Permutation_length, NoDup_Permutation; [done|done|]. intros x. split; [apply Hsub|].
    intros Hx. apply (elem_of_list_to_set (C:=gset string)).
    by eapply graph_inv_all.
Qed.

(** ** The invariant of the threads *)
Definition phase_ids (p : Phase) : list string :=
  match p with
  | Idle | Exited => []
  | Picked x | Skipping x | Executing x | Executed x _ _ => [x]
  end.
Definition in_flight (ts : list Phase) : list string := ts ≫= phase_ids.

Definition completed_in (rs : gmap string NodeResult) (x : string) : Prop :=
  ∃ r, rs !! x = Some r ∧ node_status r = NodeStatus.Completed.
Definition failed_in (rs : gmap string NodeResult) (x : string) : Prop :=
  ∃ r, rs !! x = Some r ∧ node_status r ≠ NodeStatus.Completed.
(** All dependencies completed; some dependency did not. *)
Definition clean (rs : gmap string NodeResult) (x : string) : Prop :=
  ∀ d, d ∈ deps x → completed_in rs d.
Definition dirty (rs : gmap string NodeResult) (x : string) : Prop :=
  ∃ d, d ∈ deps x ∧ failed_in rs d.

Definition result_ok (rs : gmap string NodeResult) (x : string) (r : NodeResult) : Prop :=
  node_id r = x ∧
  ((node_status r = NodeStatus.Completed ∨ node_status r = NodeStatus.Failed) ∧ clean rs x ∨
   node_status r = NodeStatus.Skipped ∧ dirty rs x).
Definition phase_ok (rs : gmap string NodeResult) (p : Phase) : Prop :=
  match p with
  | Executing x => clean rs x
  | Executed x nr ok =>
      clean rs x ∧ node_id nr = x ∧
      node_status nr = if ok then NodeStatus.Completed else NodeStatus.Failed
  | Skipping x => dirty rs x
  | Idle | Picked _ | Exited => True
  end.

Record sched_inv (mode : FailurePropagationMode.t) (s : State) : Prop := {
  si_graph : graph_inv (negb (stop_requested (shared s))) (dom (results_map (shared s)))
    (in_flight (threads s)) (ready_queue (shared s)) (degrees (shared s));
  si_count : completed_count (shared s) = size (results_map (shared s));
  si_failed : ∀ x, x ∈ failed_nodes (shared s) ↔ failed_in (results_map (shared s)) x;
  si_results : ∀ x r, results_map (shared s) !! x = Some r → result_ok (results_map (shared s)) x r;
  si_threads : Forall (phase_ok (results_map (shared s))) (threads s);
  si_stop : stop_requested (shared s) = true →
    mode = FailurePropagationMode.FailFast ∧ failed_nodes (shared s) ≠ ∅;
  si_exited : Exited ∈ threads s → finished nodes (shared s) = true }.

Lemma size_list_to_set_le (l : list string) : size (list_to_set l : gset string) ≤ length l.
Proof.
  induction l as [|x l IH]; simpl; [done|].
  pose proof (size_union_alt (C:=gset string) {[x]} (list_to_set l)) as He.
  rewrite He, size_singleton.
  pose proof (subseteq_size (C:=gset string) (list_to_set l ∖ {[x]}) (list_to_set l)) as Hs.
  specialize (Hs ltac:(set_solver)). lia.
Qed.

Lemma delete_insert_same {A} (l : list A) i x : delete i (<[i := x]> l) = delete i l.
Proof. revert i. induction l as [|y l IH]; intros [|i]; simpl; [done..|]. by f_equal/=. Qed.

Lemma in_flight_update ts i p p' :
  ts !! i = Some p →
  ∃ rest, in_flight ts ≡ₚ phase_ids p ++ rest ∧
          in_flight (<[i := p']> ts) ≡ₚ phase_ids p' ++ rest.
Proof.
  intros Hi. exists (in_flight (delete i ts)). unfold in_flight.
  assert (Hp : ∀ l1 l2 : list Phase, l1 ≡ₚ l2 → l1 ≫= phase_ids ≡ₚ l2 ≫= phase_ids)
    by (intros l1 l2 ->; done).
  split.
  - rewrite (Hp _ _ (delete_Permutation ts i p Hi)). done.
  - assert (Hi' : <[i := p']> ts !! i = Some p').
    { apply list_lookup_insert_eq. by eapply lookup_lt_Some. }
    rewrite (Hp _ _ (delete_Permutation _ i p' Hi')). simpl. by rewrite delete_insert_same.
Qed.

Section Monotone.
Context (rs : gmap string NodeResult) (x : string) (r : NodeResult) (Hx : rs !! x = None).

Lemma completed_in_insert y : completed_in rs y → completed_in (<[x := r]> rs) y.
Proof. intros (r' & Hr & Hs). exists r'. split; [|done]. rewrite lookup_insert_ne; [done | congruence]. Qed.
Lemma failed_in_insert y : failed_in rs y → failed_in (<[x := r]> rs) y.
Proof. intros (r' & Hr & Hs). exists r'. split; [|done]. rewrite lookup_insert_ne; [done | congruence]. Qed.
Lemma clean_insert y : clean rs y → clean (<[x := r]> rs) y.
Proof. intros Hc d Hd. by apply completed_in_insert, Hc. Qed.
Lemma dirty_insert y : dirty rs y → dirty (<[x := r]> rs) y.
Proof. intros (d & Hd & Hf). exists d. split; [done | by apply failed_in_insert]. Qed.
Lemma result_ok_insert y r' : result_ok rs y r' → result_ok (<[x := r]> rs) y r'.
Proof. unfold result_ok. pose proof (clean_insert y). pose proof (dirty_insert y). tauto. Qed.
Lemma phase_ok_insert p : phase_ok rs p → phase_ok (<[x := r]> rs) p.
Proof. destruct p; simpl; auto using clean_insert, dirty_insert. intros (H1 & H2). auto using clean_insert. Qed.

Lemma results_insert :
  (∀ y r', rs !! y = Some r' → result_ok rs y r') → result_ok rs x r →
  ∀ y r', <[x := r]> rs !! y = Some r' → result_ok (<[x := r]> rs) y r'.
Proof.
  intros Hall Hr y r' Hy. destruct (decide (x = y)) as [<-|].
  - rewrite lookup_insert_eq in Hy. injection Hy as <-. by apply result_ok_insert.
  - rewrite lookup_insert_ne in Hy by done. by apply result_ok_insert, Hall.
Qed.

Lemma failed_insert (failed : gset string) :
  (∀ y, y ∈ failed ↔ failed_in rs y) →
  ∀ y, y ∈ (if bool_decide (node_status r = NodeStatus.Completed) then failed else {[x]} ∪ failed)
       ↔ failed_in (<[x := r]> rs) y.
Proof.
  intros Hf y. split.
  - case_bool_decide as Hs; [rewrite Hf; apply failed_in_insert|].
    intros [->%elem_of_singleton|Hy]%elem_of_union; [|by apply failed_in_insert, Hf].
    exists r. by rewrite lookup_insert_eq.
  - intros (r' & Hr & Hs). destruct (decide (x = y)) as [<-|].
    + rewrite lookup_insert_eq in Hr. injection Hr as ->. rewrite bool_decide_false by done. set_solver.
    + rewrite lookup_insert_ne in Hr by done. assert (y ∈ failed) by (apply Hf; by exists r').
      case_bool_decide; set_solver.
Qed.
End Monotone.

(** A name in flight is a node that is not committed. *)
Lemma in_flight_spec mode sh ts i p x :
  sched_inv mode (mkState sh ts) → ts !! i = Some p → x ∈ phase_ids p →
  x ∈ ids ∧ results_map sh !! x = None ∧ ∀ d, d ∈ deps x → is_Some (results_map sh !! d).
Proof.
  intros [Hg _ _ _ _ _ _] Hi Hx. simpl in *. destruct (gi_ready _ _ _ _ _ Hg x) as (H1 & H2 & H3).
  { apply elem_of_app. right. apply list_elem_of_bind. exists p. split; [done|].
    by eapply list_elem_of_lookup_2. }
  split; [done|]. split; [by apply not_elem_of_dom|]. intros d Hd. by apply elem_of_dom, H3.
Qed.

Lemma committed_size (P : gset string) F q deg live x :
  graph_inv live P F q deg → x ∈ ids → x ∉ P → size P < length nodes.
Proof.
  intros Hg Hx Hp. rewrite <- (length_fmap dag_id nodes).
  assert (Hs : {[x]} ∪ P ⊆ list_to_set ids).
  { intros y [->%elem_of_singleton|Hy]%elem_of_union; apply elem_of_list_to_set; [done|].
    by apply (gi_closed _ _ _ _ _ Hg). }
  apply subseteq_size in Hs. rewrite size_union, size_singleton in Hs by set_solver.
  pose proof (size_list_to_set_le ids). unfold node_ids in *. lia.
Qed.

Lemma phases_update rs rs' (ts : list Phase) (i : nat) p' :
  Forall (phase_ok rs) ts → (∀ p, phase_ok rs p → phase_ok rs' p) → phase_ok rs' p' →
  Forall (phase_ok rs') (<[i := p']> ts).
Proof. intros Hts Hmono Hp. apply Forall_insert; [|done]. by eapply Forall_impl. Qed.

Lemma exited_update (ts : list Phase) (i : nat) p' :
  Exited ∈ <[i := p']> ts → p' = Exited ∨ Exited ∈ ts.
Proof.
  intros (j & Hj)%list_elem_of_lookup. apply list_lookup_insert_Some in Hj as [(_ & Hp & _)|[_ Hj]].
  - by left.
  - right. by eapply list_elem_of_lookup_2.
Qed.

(** Steps that commit a result. *)
Lemma sched_inv_commit mode sh ts i p p' x r q' deg' stop' :
  sched_inv mode (mkState sh ts) → ts !! i = Some p → phase_ids p = [x] → phase_ids p' = [] →
  result_ok (results_map sh) x r →
  (∀ rest, graph_inv (negb (stop_requested sh)) (dom (results_map sh)) (x :: rest)
             (ready_queue sh) (degrees sh) →
           graph_inv (negb stop') ({[x]} ∪ dom (results_map sh)) rest q' deg') →
  (stop' = true → stop_requested sh = true ∨
     mode = FailurePropagationMode.FailFast ∧ node_status r ≠ NodeStatus.Completed) →
  (p' = Exited ∨ stop_requested sh = true → stop' = true) →
  sched_inv mode (mkState
    (mkShared q' deg' (if bool_decide (node_status r = NodeStatus.Completed) then failed_nodes sh
                       else {[x]} ∪ failed_nodes sh)
       (<[x := r]> (results_map sh)) (S (completed_count sh)) stop') (<[i := p']> ts)).
Proof.
  intros Hinv Hi Hp Hp' Hr Hg Hstop Hexit.
  destruct (in_flight_spec mode sh ts i p x Hinv Hi) as (Hx & Hnone & _); [rewrite Hp; left|].
  destruct (in_flight_update ts i p p' Hi) as (rest & Hrest & Hrest'). rewrite Hp in Hrest.
  rewrite Hp' in Hrest'. simpl in Hrest, Hrest'.
  assert (Hlt : size (results_map sh) < length nodes).
  { rewrite <- (size_dom (D:=gset string)).
    eapply committed_size; [apply (si_graph _ _ Hinv)|exact Hx|by apply not_elem_of_dom]. }
  destruct Hinv as [H1 H2 H3 H4 H5 H6 H7]. simpl in *. split; simpl.
  - rewrite dom_insert_L. eapply graph_inv_perm; [symmetry; exact Hrest'|]. apply Hg.
    by eapply graph_inv_perm.
  - rewrite map_size_insert_None by done. by rewrite H2.
  - by apply failed_insert.
  - by apply results_insert.
  - eapply phases_update; [done| intros; by apply phase_ok_insert |].
    by destruct p'.
  - intros Hs. destruct (Hstop Hs) as [Hs'|[Hm Hf]].
    + destruct (H6 Hs') as [Hm Hf]. split; [done|]. case_bool_decide; [done|]. set_solver.
    + split; [done|]. rewrite bool_decide_false by done. set_solver.
  - intros Hin. unfold finished. simpl. rewrite Hexit; [done|].
    destruct (exited_update _ _ _ Hin) as [|Hin']; [by left|]. right.
    specialize (H7 Hin'). unfold finished in H7. rewrite H2 in H7.
    rewrite bool_decide_false in H7 by lia. by rewrite orb_false_r in H7.
Qed.

(** Steps that only change the phase of a thread. *)
Lemma sched_inv_phase mode sh ts i p p' q' :
  sched_inv mode (mkState sh ts) → ts !! i = Some p →
  (phase_ids p' = phase_ids p ∧ q' = ready_queue sh) ∨
  (phase_ids p = [] ∧ ready_queue sh = phase_ids p' ++ q') → phase_ok (results_map sh) p' →
  (p' = Exited → finished nodes sh = true) →
  sched_inv mode (mkState
    (mkShared q' (degrees sh) (failed_nodes sh) (results_map sh) (completed_count sh)
       (stop_requested sh)) (<[i := p']> ts)).
Proof.
  intros Hinv Hi Hids Hok Hexit.
  destruct (in_flight_update ts i p p' Hi) as (rest & Hrest & Hrest').
  destruct Hinv as [H1 H2 H3 H4 H5 H6 H7]. simpl in *. split; simpl; try done.
  - eapply graph_inv_perm; [symmetry; exact Hrest'|]. apply (graph_inv_perm _ _ _ _ _ _ Hrest) in H1.
    destruct Hids as [[-> ->]|(Hpx & Hq)]; [done|]. rewrite Hpx, Hq in H1.
    destruct p'; simpl in *; try done; by apply graph_inv_take.
  - by eapply phases_update.
  - intros [->|Hin]%exited_update; [by apply Hexit | by apply H7].
Qed.

Lemma any_failed_spec l failed :
  any_failed l failed = true ↔ ∃ d, d ∈ l ∧ d ∈ failed.
Proof.
  unfold any_failed. rewrite existsb_exists. split; intros (d & Hd & Hf); exists d.
  - apply bool_decide_eq_true in Hf. by rewrite list_elem_of_In.
  - rewrite bool_decide_eq_true. by rewrite <- list_elem_of_In.
Qed.

Lemma node_of_spec id node :
  NoDup ids → node_of nodes id = Some node → dag_id node = id ∧ dependencies node = deps id.
Proof.
  intros Hnd Hn. apply last_Some_elem_of in Hn.
  apply list_elem_of_filter in Hn as [<- Hin]. split; [done|]. symmetry. by apply deps_of_elem.
Qed.

Lemma node_of_some id : id ∈ ids → ∃ node, node_of nodes id = Some node.
Proof.
  intros (n & -> & Hn)%list_elem_of_fmap. unfold node_of.
  destruct (last _) as [m|] eqn:Hl; [by exists m|]. apply last_None in Hl.
  assert (Hin : n ∈ base.filter (λ m, dag_id m = dag_id n) nodes) by by apply list_elem_of_filter.
  rewrite Hl in Hin. by apply elem_of_nil in Hin.
Qed.

Lemma execute_node_spec node calls nr ok :
  execute_node node calls = (nr, ok) →
  node_id nr = dag_id node ∧ node_status nr = if ok then NodeStatus.Completed else NodeStatus.Failed.
Proof.
  assert (Ha : ∀ n k nr0, node_id nr0 = dag_id node →
    let '(nr, ok) := attempt n k node calls nr0 in
    node_id nr = dag_id node ∧ (ok = true → node_status nr = NodeStatus.Completed)).
  { intros n. induction n as [|n IH]; intros k nr0 H0; simpl; [done|].
    destruct (has_execute node); [|done]. destruct (calls k); [done|]. by apply IH. }
  unfold execute_node. specialize (Ha (max_attempts node) 0 (new_result (dag_id node)) eq_refl).
  destruct (attempt _ _ _ _ _) as [nr0 [|]]; intros [= <- <-]; naive_solver.
Qed.

Lemma sched_inv_initial mode n : sched_inv mode (initial_state nodes n).
Proof.
  assert (Hin : ∀ k, in_flight (replicate k Idle) = []).
  { intros k. induction k as [|k IH]; [done|]. simpl. apply IH. }
  split; simpl; try done.
  - rewrite Hin, dom_empty_L. apply graph_inv_initial.
  - intros x. split; [set_solver|]. intros (r & Hr & _). by rewrite lookup_empty in Hr.
  - by apply Forall_replicate.
  - intros Hx%elem_of_replicate. by destruct Hx.
Qed.

(** A node in flight either has only completed dependencies or a failed one. *)
Lemma checked_deps mode sh ts i p x :
  sched_inv mode (mkState sh ts) → ts !! i = Some p → x ∈ phase_ids p →
  if any_failed (deps x) (failed_nodes sh) then dirty (results_map sh) x
  else clean (results_map sh) x.
Proof.
  intros Hinv Hi Hx. destruct (in_flight_spec _ _ _ _ _ _ Hinv Hi Hx) as (_ & _ & Hd).
  pose proof (si_failed _ _ Hinv) as Hf. simpl in Hf.
  destruct (any_failed _ _) eqn:Ha.
  - apply any_failed_spec in Ha as (d & Hd1 & Hd2). exists d. split; [done|]. by apply Hf.
  - intros d Hdep. destruct (Hd d Hdep) as [r Hr]. exists r. split; [done|].
    destruct (decide (node_status r = NodeStatus.Completed)) as [|Hs]; [done|]. exfalso.
    assert (Ht : any_failed (deps x) (failed_nodes sh) = true); [|congruence].
    apply any_failed_spec. exists d. split; [done|]. apply Hf. by exists r.
Qed.

Lemma sched_inv_step mode s s' :
  NoDup ids → sched_inv mode s → step nodes mode s s' → sched_inv mode s'.
Proof.
  intros Hnd Hinv Hs. revert Hinv. destruct Hs as [i p p' sh sh' ts Hi Hstep]. intros Hinv.
  destruct Hstep.
  - destruct s. apply (sched_inv_phase _ _ _ _ _ Exited _ Hinv Hi); [by left|done|done].
  - apply (sched_inv_phase _ _ _ _ _ (Picked id) _ Hinv Hi); [by right|done|done].
  - destruct s. apply (sched_inv_phase _ _ _ _ _ _ _ Hinv Hi);
      [left; by destruct (any_failed _ _) | | by destruct (any_failed _ _)].
    pose proof (checked_deps _ _ _ _ _ id Hinv Hi) as Hc. simpl in Hc.
    destruct (node_of_spec _ _ Hnd H) as [_ ->]. specialize (Hc ltac:(left)).
    by destruct (any_failed _ _).
  - pose proof (Forall_lookup_1 _ _ _ _ (si_threads _ _ Hinv) Hi) as Hok.
    unfold commit_skip. destruct (release_successors _ _ _ _) as [deg q] eqn:Hr.
    apply (sched_inv_commit _ _ _ _ _ Idle id (skipped_result id) _ _ _ Hinv Hi);
      [done|done|by split; [|right]| |by left|by intros [|]].
    intros rest Hg%graph_inv_commit. unfold graph in Hr. by rewrite Hr in Hg.
  - destruct s. apply (sched_inv_phase _ _ _ _ _ _ _ Hinv Hi); [by left| |done].
    pose proof (Forall_lookup_1 _ _ _ _ (si_threads _ _ Hinv) Hi) as Hok.
    destruct (execute_node_spec _ _ _ _ H0) as [Hn1 Hn2].
    destruct (node_of_spec _ _ Hnd H) as [Hid _]. simpl. by rewrite Hn1, Hid.
  - pose proof (Forall_lookup_1 _ _ _ _ (si_threads _ _ Hinv) Hi) as (Hc & Hid & Hs).
    unfold commit_result. destruct (release_successors _ _ _ _) as [deg q] eqn:Hr.
    replace (if ok then _ else _) with
      (if bool_decide (node_status nr = NodeStatus.Completed) then failed_nodes s
       else {[id]} ∪ failed_nodes s) by (rewrite Hs; by destruct ok).
    apply (sched_inv_commit _ _ _ _ _ Idle id nr _ _ _ Hinv Hi);
      [done|done|split; [done|left]| |by left|by intros [|]].
    + split; [rewrite Hs; destruct ok; tauto|done].
    + intros rest Hg%graph_inv_commit. unfold graph in Hr. by rewrite Hr in Hg.
  - pose proof (Forall_lookup_1 _ _ _ _ (si_threads _ _ Hinv) Hi) as (Hc & Hid & Hs).
    unfold commit_stop.
    replace ({[id]} ∪ failed_nodes s) with
      (if bool_decide (node_status nr = NodeStatus.Completed) then failed_nodes s
       else {[id]} ∪ failed_nodes s) by (by rewrite Hs).
    apply (sched_inv_commit _ _ _ _ _ Exited id nr _ _ _ Hinv Hi);
      [done|done|split; [done|left; split; [rewrite Hs; tauto|done]]| | |done].
    + intros rest Hg. by eapply graph_inv_stop.
    + intros _. right. split; [|by rewrite Hs]. by apply bool_decide_eq_true in H.
Qed.

Lemma sched_inv_reachable mode n s :
  NoDup ids → rtc (step nodes mode) (initial_state nodes n) s → sched_inv mode s.
Proof.
  intros Hnd. apply (rtc_ind_r (sched_inv mode)); [apply sched_inv_initial|].
  intros s1 s2 _ Hs Hinv. by eapply sched_inv_step.
Qed.

(** ** Progress *)
Lemma thread_progress mode sh ts i p :
  sched_inv mode (mkState sh ts) → ts !! i = Some p →
  (∃ s', step nodes mode (mkState sh ts) s') ∨ p = Exited ∨
  p = Idle ∧ finished nodes sh = false ∧ ready_queue sh = [].
Proof.
  intros Hinv Hi.
  assert (Hnode : ∀ x, x ∈ phase_ids p → ∃ node, node_of nodes x = Some node).
  { intros x Hx. apply node_of_some. by destruct (in_flight_spec _ _ _ _ _ _ Hinv Hi Hx). }
  assert (Hstep : ∀ p' sh', thread_step nodes mode p sh p' sh' →
    ∃ s', step nodes mode (mkState sh ts) s') by (intros; eexists; by eapply step_thread).
  destruct p as [|x|x|x|x nr ok|]; simpl in Hnode.
  - destruct (finished nodes sh) eqn:Hf; [left; eapply Hstep; by constructor|].
    destruct (ready_queue sh) eqn:Hq; [by auto|]. left. eapply Hstep. by econstructor.
  - destruct (Hnode x) as [node Hn]; [left|]. left. eapply Hstep. by econstructor.
  - left. eapply Hstep. by constructor.
  - destruct (Hnode x) as [node Hn]; [left|].
    destruct (execute_node node (λ _, inl ""%string)) as [nr ok] eqn:He. left. eapply Hstep.
    by econstructor.
  - left. destruct (ok || negb (fails_fast mode)) eqn:Hc; [eapply Hstep; by constructor|].
    apply orb_false_iff in Hc as [-> Hc]. apply negb_false_iff in Hc. eapply Hstep. by constructor.
  - by auto.
Qed.

Lemma all_committed mode sh ts order :
  sched_inv mode (mkState sh ts) → order ≡ₚ ids → before order → NoDup ids →
  Forall (λ p, p = Idle) ts → ready_queue sh = [] → finished nodes sh = true.
Proof.
  intros Hinv Hperm Hb Hnd Hidle Hq. unfold finished.
  destruct (stop_requested sh) eqn:Hs; [done|]. simpl. apply bool_decide_eq_true.
  assert (Hfl : in_flight ts = []).
  { clear Hinv. induction Hidle as [|p ts -> _ IH]; [done|]. apply IH. }
  destruct Hinv as [Hg Hc _ _ _ _ _]. simpl in *. rewrite Hs, Hq, Hfl in Hg.
  assert (Hsub : list_to_set ids ⊆ dom (results_map sh)).
  { intros x Hx%elem_of_list_to_set. by eapply graph_inv_all. }
  assert (Hsup : dom (results_map sh) ⊆ list_to_set ids).
  { intros x Hx. apply elem_of_list_to_set. by apply (gi_closed _ _ _ _ _ Hg). }
  rewrite Hc, <- (size_dom (D:=gset string)), <- (length_fmap dag_id nodes).
  rewrite <- (size_list_to_set (C:=gset string)) by exact Hnd.
  by apply Nat.le_antisymm; apply subseteq_size.
Qed.

(** Some thread can step, or every thread is gone. *)
Lemma progress mode s order :
  sched_inv mode s → order ≡ₚ ids → before order → NoDup ids →
  (∃ s', step nodes mode s s') ∨ Forall (λ p, p = Exited) (threads s).
Proof.
  destruct s as [sh ts]. intros Hinv Hperm Hb Hnd. simpl.
  destruct (decide (Exists (λ p, phase_ids p ≠ []) ts)) as [Hex|Hex].
  { apply Exists_exists in Hex as (p & (i & Hi)%list_elem_of_lookup & Hp).
    destruct (thread_progress _ _ _ _ _ Hinv Hi) as [?|[->|[-> _]]]; [by left|done..]. }
  destruct (decide (Exited ∈ ts)) as [Hin|Hin].
  - destruct (decide (Idle ∈ ts)) as [Hidle|Hidle].
    + apply list_elem_of_lookup in Hidle as [i Hi].
      destruct (thread_progress _ _ _ _ _ Hinv Hi) as [?|[?|(_ & Hf & _)]]; [by left|done|].
      pose proof (si_exited _ _ Hinv Hin) as Hf'. simpl in Hf'. congruence.
    + right. apply Forall_forall. intros p Hp.
      destruct p; [done|..|done]; exfalso; apply Hex, Exists_exists; by eexists.
  - destruct ts as [|p0 ts0] eqn:Hts; [by right|]. rewrite <- Hts in *. left.
    assert (Hidle : Forall (λ p, p = Idle) ts).
    { apply Forall_forall. intros p Hp.
      destruct p; [done|..|done]; exfalso; apply Hex, Exists_exists; by eexists. }
    assert (Hi : ts !! 0 = Some Idle).
    { rewrite Hts in *. simpl. f_equal. by inversion Hidle. }
    destruct (thread_progress _ _ _ _ _ Hinv Hi) as [?|[?|(_ & Hf & Hq)]]; [done|done|].
    pose proof (all_committed _ _ _ _ Hinv Hperm Hb Hnd Hidle Hq). congruence.
Qed.

(** ** Termination: every step lowers the measure *)
Definition weight (p : Phase) : nat :=
  match p with
  | Idle => 1
  | Picked _ => 4
  | Executing _ => 3
  | Skipping _ | Executed _ _ _ => 2
  | Exited => 0
  end.
Definition measure (s : State) : nat :=
  4 * (length nodes - size (results_map (shared s)) - length (in_flight (threads s)))
  + sum_list_with weight (threads s).

Lemma sum_update ts i p p' :
  ts !! i = Some p →
  ∃ w, sum_list_with weight ts = weight p + w ∧ sum_list_with weight (<[i := p']> ts) = weight p' + w.
Proof.
  revert i. induction ts as [|q ts IH]; intros [|i] Hi; simplify_eq/=; [by eexists|].
  destruct (IH i Hi) as (w & H1 & H2). exists (weight q + w). lia.
Qed.

Lemma flight_bound mode sh ts :
  sched_inv mode (mkState sh ts) →
  size (results_map sh) + length (in_flight ts) ≤ length nodes.
Proof.
  intros [Hg _ _ _ _ _ _]. simpl in *. destruct Hg as [_ Hr Hc Hnd _ _].
  rewrite <- (size_dom (D:=gset string)), <- (length_fmap dag_id nodes).
  apply NoDup_app in Hnd as (_ & _ & Hnd).
  rewrite <- (size_list_to_set (C:=gset string) (in_flight ts)) by done.
  rewrite <- size_union.
  - etransitivity; [|apply size_list_to_set_le]. apply subseteq_size.
    intros x [Hx|Hx%elem_of_list_to_set]%elem_of_union; apply elem_of_list_to_set; [by apply Hc|].
    apply Hr, elem_of_app. by right.
  - intros x Hx Hf%elem_of_list_to_set. destruct (Hr x) as (_ & Hp & _); [|done].
    apply elem_of_app. by right.
Qed.

Lemma measure_step mode s s' :
  NoDup ids → sched_inv mode s → step nodes mode s s' → measure s' < measure s.
Proof.
  intros Hnd Hinv Hs. pose proof (sched_inv_step _ _ _ Hnd Hinv Hs) as Hinv'. revert Hinv Hinv'.
  destruct Hs as [i p p' sh sh' ts Hi Hstep]. intros Hinv Hinv'.
  pose proof (flight_bound _ _ _ Hinv) as Hb. pose proof (flight_bound _ _ _ Hinv') as Hb'.
  destruct (sum_update ts i p p' Hi) as (w & Hw & Hw').
  destruct (in_flight_update ts i p p' Hi) as (rest & Hf%Permutation_length & Hf'%Permutation_length).
  assert (Hsize : ∀ x r, x ∈ phase_ids p →
    size (<[x := r]> (results_map sh)) = S (size (results_map sh))).
  { intros x r Hx. destruct (in_flight_spec _ _ _ _ _ _ Hinv Hi Hx) as (_ & Hn & _).
    by apply map_size_insert_None. }
  unfold measure. simpl in *. rewrite Hw, Hw'. rewrite length_app in Hf, Hf'.
  destruct Hstep; simpl in *; try lia.
  - destruct (any_failed _ _); simpl in *; lia.
  - unfold commit_skip in *. destruct (release_successors _ _ _ _) as [deg q]. simpl in *.
    rewrite Hsize in * by left. lia.
  - unfold commit_result in *. destruct (release_successors _ _ _ _) as [deg q]. simpl in *.
    rewrite Hsize in * by left. lia.
  - unfold commit_stop in *. simpl in *. rewrite Hsize in * by left. lia.
Qed.

Lemma measure_initial n : measure (initial_state nodes n) ≤ 4 * length nodes + max 1 n.
Proof.
  unfold measure. simpl.
  assert (Hs : ∀ k, sum_list_with weight (replicate k Idle) = k).
  { intros k. induction k as [|k IH]; [done|]. simpl. by rewrite IH. }
  rewrite Hs, map_size_empty. lia.
Qed.

Lemma nsteps_measure mode k s s' :
  NoDup ids → sched_inv mode s → nsteps (step nodes mode) k s s' → k + measure s' ≤ measure s.
Proof.
  intros Hnd Hinv Hk. induction Hk as [s|k s1 s2 s3 Hs Hk IH]; [done|].
  pose proof (measure_step _ _ _ Hnd Hinv Hs).
  specialize (IH (sched_inv_step _ _ _ Hnd Hinv Hs)). lia.
Qed.

Lemma reaches_end mode order s :
  NoDup ids → order ≡ₚ ids → before order → sched_inv mode s →
  ∃ s', rtc (step nodes mode) s s' ∧ Forall (λ p, p = Exited) (threads s').
Proof.
  intros Hnd Hperm Hb. remember (measure s) as m eqn:Hm. revert s Hm.
  induction (lt_wf m) as [m _ IH]. intros s -> Hinv.
  destruct (progress _ _ _ Hinv Hperm Hb Hnd) as [[s1 Hs]|Hdone]; [|by exists s].
  destruct (IH (measure s1)) with (s := s1) as (s2 & Hr & Hf);
    [by eapply measure_step|done|by eapply sched_inv_step|].
  exists s2. split; [by eapply rtc_l|done].
Qed.
End Graph.

(** What an accepted DAG gives. *)
Lemma validated nodes :
  validate_dag nodes ⇓ true →
  NoDup (node_ids nodes) ∧ ∃ order, order ≡ₚ node_ids nodes ∧ before nodes order.
Proof.
  intros Hv. destruct (validate_spec nodes) as (b & Hb & Hiff). apply Hiff.
  rewrite Hb in Hv. by injection Hv.
Qed.

Lemma results_extended nodes mode s s' :
  NoDup (node_ids nodes) → sched_inv nodes mode s → step nodes mode s s' →
  results_map (shared s) ⊆ results_map (shared s').
Proof.
  intros Hnd Hinv Hs. revert Hinv. destruct Hs as [i p p' sh sh' ts Hi Hstep]. intros Hinv.
  assert (Hins : ∀ x r, x ∈ phase_ids p → results_map sh ⊆ <[x := r]> (results_map sh)).
  { intros x r Hx. destruct (in_flight_spec _ _ _ _ _ _ _ Hinv Hi Hx) as (_ & Hn & _).
    by apply insert_subseteq. }
  destruct Hstep; simpl in *; try done.
  - unfold commit_skip. destruct (release_successors _ _ _ _). apply Hins. left.
  - unfold commit_result. destruct (release_successors _ _ _ _). apply Hins. left.
  - apply Hins. left.
Qed.

(** ** The final state *)
Section Final.
Context (nodes : list DagNode) (mode : FailurePropagationMode.t) (n : nat) (s : State).
Hypothesis Hnd : NoDup (node_ids nodes).
Hypothesis Hr : rtc (step nodes mode) (initial_state nodes n) s.
Hypothesis Hexit : Forall (λ p, p = Exited) (threads s).

Lemma final_inv : sched_inv nodes mode s.
Proof. by eapply sched_inv_reachable. Qed.

Lemma threads_length : length (threads s) = Nat.min (Nat.max 1 n) (length nodes).
Proof.
  clear Hexit. revert s Hr. apply (rtc_ind_r (λ s, length (threads s) = _)).
  - simpl. by rewrite length_replicate.
  - intros s1 s2 _ [i p p' sh sh' ts _ _] IH. simpl in *. by rewrite length_insert.
Qed.

Lemma final_committed x :
  stop_requested (shared s) = false → x ∈ node_ids nodes →
  ∃ r, results_map (shared s) !! x = Some r.
Proof.
  intros Hs Hx. pose proof final_inv as Hinv.
  assert (Hin : Exited ∈ threads s).
  { pose proof threads_length as Hl. destruct nodes as [|m ns]; [by apply elem_of_nil in Hx|].
    destruct (threads s) as [|p ts]; [simpl in Hl; lia|]. 
    rewrite (Forall_inv Hexit). left. }
  apply (si_exited _ _ _ Hinv) in Hin. unfold finished in Hin. rewrite Hs in Hin. simpl in Hin.
  apply bool_decide_eq_true in Hin. rewrite (si_count _ _ _ Hinv) in Hin.
  destruct (decide (x ∈ dom (results_map (shared s)))) as [Hd|Hd]; [by apply elem_of_dom in Hd|].
  pose proof (committed_size _ _ _ _ _ _ _ (si_graph _ _ _ Hinv) Hx Hd) as Hlt.
  rewrite size_dom in Hlt. lia.
Qed.

Lemma collected x r :
  x ∈ node_ids nodes → results_map (shared s) !! x = Some r → r ∈ collect nodes (shared s).
Proof.
  intros (m & -> & Hm)%list_elem_of_fmap Hx. apply list_elem_of_fmap. exists m.
  by rewrite Hx.
Qed.

Lemma committed_id x r : results_map (shared s) !! x = Some r → x ∈ node_ids nodes ∧ node_id r = x.
Proof.
  intros Hx. pose proof final_inv as Hinv. split.
  - apply (gi_closed _ _ _ _ _ _ (si_graph _ _ _ Hinv)). by apply elem_of_dom.
  - by apply (si_results _ _ _ Hinv).
Qed.

(** A collected result was committed, or is the placeholder. *)
Lemma elem_of_collect r :
  r ∈ collect nodes (shared s) →
  node_id r ∈ node_ids nodes ∧
  (results_map (shared s) !! node_id r = Some r ∨
   results_map (shared s) !! node_id r = None ∧ r = never_scheduled (node_id r)).
Proof.
  intros (m & -> & Hm)%list_elem_of_fmap.
  destruct (results_map (shared s) !! dag_id m) as [r|] eqn:Hl; simpl.
  - destruct (committed_id _ _ Hl) as [? Hid]. rewrite Hid. by auto.
  - split; [by apply list_elem_of_fmap_2|]. by right.
Qed.

Lemma collect_ids : node_id <$> collect nodes (shared s) = node_ids nodes.
Proof.
  unfold collect. rewrite <- list_fmap_compose. apply list_fmap_ext. intros i m Hi. simpl.
  destruct (results_map (shared s) !! dag_id m) as [r|] eqn:Hl; [|done].
  by destruct (committed_id _ _ Hl).
Qed.

Lemma completed_collected d :
  completed_in (results_map (shared s)) d →
  ∃ y, y ∈ collect nodes (shared s) ∧ node_id y = d ∧ node_status y = NodeStatus.Completed.
Proof.
  intros (y & Hy & Hs). destruct (committed_id _ _ Hy) as [Hin Hid]. exists y.
  split; [by eapply collected|done].
Qed.

Lemma success_spec :
  success (shared s) = true ↔
  ∀ r, r ∈ collect nodes (shared s) → node_status r = NodeStatus.Completed.
Proof.
  pose proof final_inv as Hinv. unfold success. rewrite bool_decide_eq_true. split.
  - intros Hf r [Hin Hr']%elem_of_collect.
    destruct (stop_requested (shared s)) eqn:Hs; [by apply (si_stop _ _ _ Hinv) in Hs as [_ ?]|].
    destruct (final_committed _ Hs Hin) as [r' Hr1]. rewrite Hr1 in Hr'.
    destruct Hr' as [[= ->]|[? _]]; [|done].
    destruct (decide (node_status r = NodeStatus.Completed)) as [|Hn]; [done|]. exfalso.
    apply (not_elem_of_empty (C:=gset string) (node_id r)). rewrite <- Hf.
    apply (si_failed _ _ _ Hinv). by exists r.
  - intros Hall. apply set_eq. intros x. split; [|set_solver].
    intros (r & Hx & Hs)%(si_failed _ _ _ Hinv). destruct (committed_id _ _ Hx) as [Hin _].
    exfalso. apply Hs, Hall. by eapply collected.
Qed.

Lemma ran_spec r :
  r ∈ collect nodes (shared s) → node_status r ≠ NodeStatus.Skipped →
  (node_status r = NodeStatus.Completed ∨ node_status r = NodeStatus.Failed) ∧
  clean nodes (results_map (shared s)) (node_id r).
Proof.
  intros [Hin [Hc|[_ He]]]%elem_of_collect Hs; [|by rewrite He in Hs].
  destruct (si_results _ _ _ final_inv _ _ Hc) as [_ [?|[? _]]]; done.
Qed.

Lemma skipped_spec r :
  mode ≠ FailurePropagationMode.FailFast →
  r ∈ collect nodes (shared s) →
  (node_status r = NodeStatus.Skipped ↔
   ∃ y, y ∈ collect nodes (shared s) ∧ node_id y ∈ deps_of nodes (node_id r) ∧
        node_status y ≠ NodeStatus.Completed).
Proof.
  intros Hmode Hc. destruct (elem_of_collect _ Hc) as [Hin Hr'].
  assert (Hs : stop_requested (shared s) = false).
  { apply not_true_is_false. intros Hs. by apply (si_stop _ _ _ final_inv) in Hs as [? _]. }
  assert (Hlook : ∀ y, y ∈ collect nodes (shared s) → results_map (shared s) !! node_id y = Some y).
  { intros y [Hy Hl]%elem_of_collect. destruct (final_committed _ Hs Hy) as [y' Hy'].
    rewrite Hy' in *. by destruct Hl as [?|[? _]]. }
  destruct (si_results _ _ _ final_inv _ _ (Hlook r Hc)) as [_ Hres]. split.
  - intros Hsk. destruct Hres as [[[?|?] _]|[_ (d & Hd & y & Hy & Hys)]]; [congruence..|].
    destruct (committed_id _ _ Hy) as [Hyin Hyid]. exists y.
    split; [by eapply collected|]. by rewrite Hyid.
  - intros (y & Hy & Hd & Hys). destruct Hres as [[_ Hclean]|[? _]]; [|done]. exfalso.
    destruct (Hclean _ Hd) as (y' & Hy' & Hc'). rewrite (Hlook y Hy) in Hy'. congruence.
Qed.
End Final.

(** ** Example: a diamond without its bottom, run by one thread *)
Definition fork : list DagNode :=
  [mkDagNode "a" [] true 2; mkDagNode "b" ["a"] true 1; mkDagNode "c" ["a"; "b"] true 1].

Lemma run_thread nodes mode s i p p' sh' s' :
  threads s !! i = Some p → thread_step nodes mode p (shared s) p' sh' →
  rtc (step nodes mode) (mkState sh' (<[i := p']> (threads s))) s' →
  rtc (step nodes mode) s s'.
Proof. destruct s as [sh ts]. intros Hi Hs. apply rtc_l. by eapply step_thread. Qed.

Lemma fork_running mode :
  rtc (step fork mode) (initial_state fork 1)
    (mkState (mkShared [] (in_degree (build_graph fork)) ∅ ∅ 0 false) [Executing "a"]).
Proof.
  eapply (run_thread _ _ _ 0); [reflexivity|eapply (step_take _ _ _ "a" []); vm_compute; reflexivity|].
  eapply (run_thread _ _ _ 0); [reflexivity|eapply step_check; vm_compute; reflexivity|].
  apply rtc_refl.
Qed.

(** Cycle detection is exact: the scheduler accepts a list of nodes when,
    and only when, their names are distinct and can be ordered with every
    dependency before the node that names it (so a dependency on an unknown
    node, and a cycle, are rejected); the check terminates. *)
Theorem validate_dag_correct nodes :
  ∃ b, validate_dag nodes ⇓ b ∧
    (b = true ↔
     NoDup (node_ids nodes) ∧
     ∃ order, order ≡ₚ node_ids nodes ∧
       ∀ i n d, n ∈ nodes → order !! i = Some (dag_id n) → d ∈ dependencies n →
       ∃ j, j < i ∧ order !! j = Some d).
Proof.
  destruct (validate_spec nodes) as (b & Hb & Hiff). exists b. split; [done|]. rewrite Hiff.
  split; intros [Hnd (order & Hperm & Ho)]; (split; [done|]); exists order; (split; [done|]).
  - intros i n d Hn Hi Hd. apply (Ho i (dag_id n) d Hi). by rewrite deps_of_elem.
  - intros i x d Hi Hd. pose proof (elem_of_deps _ _ _ Hd) as Hx.
    apply list_elem_of_fmap in Hx as (n & -> & Hn). rewrite deps_of_elem in Hd by done.
    by eapply Ho.
Qed.

(** C13: in every interleaving of the worker threads, in every mode, a node
    executes only when all its dependencies completed, no node is taken by two
    threads or taken again after its result was committed, and no result is
    ever overwritten; a committed node completed or failed with all its
    dependencies completed, or was skipped because one of them did not. *)
Theorem scheduler_safety nodes mode n s
    (Hv : validate_dag nodes ⇓ true)
    (Hr : rtc (step nodes mode) (initial_state nodes n) s) :
  let rs := results_map (shared s) in
  (∀ x, Executing x ∈ threads s → clean nodes rs x) ∧
  NoDup (in_flight (threads s)) ∧
  (∀ x, x ∈ in_flight (threads s) → x ∈ node_ids nodes ∧ rs !! x = None) ∧
  (∀ x r, rs !! x = Some r → result_ok nodes rs x r) ∧
  (∀ s', step nodes mode s s' → rs ⊆ results_map (shared s')).
Proof.
  apply validated in Hv as [Hnd _]. pose proof (sched_inv_reachable _ _ _ _ Hnd Hr) as Hinv.
  split; [|split; [|split; [|split]]].
  - intros x Hx. exact (proj1 (Forall_forall _ _) (si_threads _ _ _ Hinv) _ Hx).
  - pose proof (gi_nodup _ _ _ _ _ _ (si_graph _ _ _ Hinv)) as (_ & _ & H)%NoDup_app.
    exact H.
  - intros x Hx. destruct (gi_ready _ _ _ _ _ _ (si_graph _ _ _ Hinv) x) as (H1 & H2 & _);
      [apply elem_of_app; by right|]. split; [done|]. by apply not_elem_of_dom.
  - apply (si_results _ _ _ Hinv).
  - intros s' Hs. by eapply results_extended.
Qed.

Lemma scheduler_safety_witness :
  clean fork ∅ "a" ∧ NoDup (in_flight [Executing "a"]).
Proof.
  pose proof (scheduler_safety fork FailurePropagationMode.FailFast 1 _
    (ltac:(vm_compute; reflexivity)) (fork_running _)) as (H1 & H2 & _).
  split; [apply H1; left | exact H2].
Defined.

(** C14: the scheduler cannot deadlock and terminates: in an accepted DAG every
    state that some interleaving reaches either has a next step or has lost all
    its threads; no interleaving takes more than four steps per node and one
    per thread; and from every reachable state the end is reachable. *)
Theorem scheduler_terminates nodes mode n s k
    (Hv : validate_dag nodes ⇓ true)
    (Hk : nsteps (step nodes mode) k (initial_state nodes n) s) :
  ((∃ s', step nodes mode s s') ∨ Forall (λ p, p = Exited) (threads s)) ∧
  k ≤ 4 * length nodes + max 1 n ∧
  (∃ s', rtc (step nodes mode) s s' ∧ Forall (λ p, p = Exited) (threads s')).
Proof.
  apply validated in Hv as [Hnd (order & Hperm & Hb)].
  pose proof (nsteps_measure _ _ _ _ _ Hnd (sched_inv_initial _ _ n) Hk) as Hm.
  pose proof (measure_initial nodes n) as Hi.
  assert (Hinv : sched_inv nodes mode s).
  { eapply sched_inv_reachable; [done|]. apply rtc_nsteps. by exists k. }
  split; [by eapply progress|]. split; [lia|]. by eapply reaches_end.
Qed.

Lemma scheduler_terminates_witness :
  ∃ s', rtc (step fork FailurePropagationMode.FailFast) (initial_state fork 1) s' ∧
        Forall (λ p, p = Exited) (threads s').
Proof.
  apply (scheduler_terminates fork FailurePropagationMode.FailFast 1 _ 0
    (ltac:(vm_compute; reflexivity)) (nsteps_O _ _)).
Defined.


Definition single : list DagNode := [mkDagNode "a" [] true 0].
Definition single_end : State :=
  mkState (mkShared [] (in_degree (build_graph single)) {["a"]}
             {["a" := mkNodeResult "a" NodeStatus.Failed "" "" 0]} 1 true) [Exited].
Lemma single_executes :
  executes single FailurePropagationMode.FailFast 4
    (mkSchedulerResult false [mkNodeResult "a" NodeStatus.Failed "" "" 0]).
Proof.
  apply (executes_valid single FailurePropagationMode.FailFast 4 single_end);
    [vm_compute; reflexivity| |by constructor].
  eapply (run_thread _ _ _ 0); [reflexivity|eapply (step_take _ _ _ "a" []); vm_compute; reflexivity|].
  eapply (run_thread _ _ _ 0); [reflexivity|eapply step_check; vm_compute; reflexivity|].
  eapply (run_thread _ _ _ 0);
    [reflexivity|eapply (step_execute _ _ _ _ _ (λ _, inl ""%string)); vm_compute; reflexivity|].
  eapply (run_thread _ _ _ 0); [reflexivity|eapply step_stop; vm_compute; reflexivity|].
  vm_compute. apply rtc_refl.
Qed.

(** [FailGraceful] is not implemented: it allows exactly the results of
    [ContinueOnError] (the header says the scheduler completes the running
    tasks and then stops). *)
Theorem graceful_is_continue nodes n r :
  executes nodes FailurePropagationMode.FailGraceful n r ↔
  executes nodes FailurePropagationMode.ContinueOnError n r.
Proof.
  assert (Hstep : ∀ s s', step nodes FailurePropagationMode.FailGraceful s s' ↔
                          step nodes FailurePropagationMode.ContinueOnError s s').
  { intros s s'. split; intros [i p p' sh sh' ts Hi Hs]; (eapply step_thread; [done|]);
      destruct Hs; econstructor; eauto. }
  assert (Hrtc : ∀ m1 m2 s s', (∀ a b, step nodes m1 a b → step nodes m2 a b) →
    rtc (step nodes m1) s s' → rtc (step nodes m2) s s').
  { intros m1 m2 s s' Hm. apply rtc_subrel. done. }
  split; intros [|s]; try (by apply executes_invalid); apply executes_valid; try done;
    (eapply Hrtc; [intros a b Hab; by apply Hstep|done]).
Qed.

(** Retries: a node completes with its first call that returns, after as
    many attempts (an error of an earlier attempt stays in its result); it
    fails, with the last error, when all its [max_attempts] calls throw, and
    without a call when [max_attempts] is zero. *)
Theorem execute_node_retries node calls :
  has_execute node = true →
  (∀ k out, k < max_attempts node → calls k = inl out →
     (∀ j, j < k → ∃ e, calls j = inr e) →
     ∃ e, execute_node node calls =
            (mkNodeResult (dag_id node) NodeStatus.Completed out e (S k), true) ∧
          match k with 0 => e = ""%string | S j => calls j = inr e end) ∧
  ((∀ j, j < max_attempts node → ∃ e, calls j = inr e) →
   ∃ e, execute_node node calls =
          (mkNodeResult (dag_id node) NodeStatus.Failed "" e (max_attempts node), false) ∧
        match max_attempts node with 0 => e = ""%string | S j => calls j = inr e end).
Proof.
  intros Hex.
  assert (Hskip : ∀ j n k nr, (∀ i, i < j → ∃ e, calls (k + i) = inr e) → j ≤ n →
    node_attempts nr = k →
    ∃ e, attempt n k node calls nr =
      attempt (n - j) (k + j) node calls
        (mkNodeResult (node_id nr) (node_status nr) (node_output nr) e (k + j)) ∧
      match j with 0 => e = node_error nr | S i => calls (k + i) = inr e end).
  { intros j. induction j as [|j IH]; intros n k nr Herr Hle Hk.
    - exists (node_error nr). rewrite Nat.add_0_r, Nat.sub_0_r. split; [|done]. subst k. by destruct nr.
    - destruct n as [|n]; [lia|]. simpl. rewrite Hex.
      destruct (Herr 0) as [e He]; [lia|]. rewrite Nat.add_0_r in He. rewrite He.
      destruct (IH n (S k) (mkNodeResult (node_id nr) (node_status nr) (node_output nr) e (S k)))
        as (e' & -> & He'); [|lia|done|].
      + intros i Hi. destruct (Herr (S i)) as [e' He']; [lia|]. exists e'.
        by rewrite <- Nat.add_succ_comm in He'.
      + exists e'. rewrite <- Nat.add_succ_comm. split; [done|]. destruct j as [|i].
        * simpl in *. subst e'. by rewrite Nat.add_0_r.
        * by rewrite <- Nat.add_succ_comm. }
  unfold execute_node. split.
  - intros k out Hk Hc Herr.
    destruct (Hskip k (max_attempts node) 0 (new_result (dag_id node))) as (e & -> & He);
      [done|lia|done|]. exists e. split; [|done].
    destruct (max_attempts node - k) as [|m] eqn:Hm; [lia|]. simpl. by rewrite Hex, Hc.
  - intros Herr.
    destruct (Hskip (max_attempts node) (max_attempts node) 0 (new_result (dag_id node)))
      as (e & -> & He); [done|lia|done|]. exists e. split; [|done]. by rewrite Nat.sub_diag.
Qed.

Lemma execute_node_retries_witness :
  ∃ e, execute_node (mkDagNode "a" [] true 2) (λ k, if decide (k = 0) then inr "x" else inl "y")%string
       = (mkNodeResult "a" NodeStatus.Completed "y" e 2, true).
Proof.
  destruct (execute_node_retries (mkDagNode "a" [] true 2)
    (λ k, if decide (k = 0) then inr "x" else inl "y")%string eq_refl) as [H _].
  destruct (H 1 "y"%string) as (e & He & _); [simpl; lia|reflexivity| |by exists e].
  intros [|j] Hj; [by exists "x"%string | lia].
Defined.
