(* ===== verification/Passes.v ===== *)
(** * The transformation passes (src/compiler/passes/)

    Dead state elimination, simplification of temporal formulas and of
    workflow dependencies, and canonicalization of contract expressions.  A
    pass returns the new program and whether it reports a modification.
    Handles are followed as values: no two parts of a lowered program share a
    temporal formula (they are owned) or an expression. *)
From S2P Require Import Prelude Ir.
Open Scope nat_scope.

(** ** Running a pass over the declarations *)
Fixpoint map_modified {A} (f : A → cxx (A * bool)) (l : list A) : cxx (list A * bool) :=
  match l with
  | [] => Ret ([], false)
  | x :: l =>
      xm ← f x;
      lm ← map_modified f l;
      Ret (xm.1 :: lm.1, xm.2 || lm.2)
  end.
Definition run_on_declarations (f : Decl → cxx (Decl * bool)) (p : Program)
    : cxx (Program * bool) :=
  dm ← map_modified f (declarations p);
  Ret (mkProgram (format_version p) (phase p) (analysis_revision p) dm.1, dm.2).

(** ** Dead states (dead_state_elimination.cpp) *)
(** One transition of the inner loop: the target of an edge out of [current]
    that has not been reached yet. *)
Definition visit_transition (current : string) (st : gset string * list string)
    (t : TransitionDecl) : gset string * list string :=
  if bool_decide (from_state t = current) && negb (bool_decide (to_state t ∈ st.1))
  then ({[to_state t]} ∪ st.1, st.2 ++ [to_state t]) else st.
Fixpoint reach_loop (fuel : nat) (ts : list TransitionDecl) (work : list string)
    (reachable : gset string) : cxx (gset string) :=
  match work with
  | [] => Ret reachable
  | current :: work =>
      match fuel with
      | O => NoFuel
      | S fuel =>
          let '(reachable, work) := fold_left (visit_transition current) ts (reachable, work) in
          reach_loop fuel ts work reachable
      end
  end.
(** The initial state and each transition's target are queued at most once. *)
Definition reachable_states (a : AgentDecl) : cxx (gset string) :=
  reach_loop (S (length (transitions a))) (transitions a) [initial_state a] {[initial_state a]}.

Definition with_states (a : AgentDecl) (ss : list string) (ts : list TransitionDecl) : AgentDecl :=
  mkAgentDecl (agent_provenance a) (agent_name a) ss (initial_state a) (final_states a)
    (agent_quota a) ts (agent_input_type_ref a) (agent_context_type_ref a)
    (agent_output_type_ref a) (agent_capability_refs a) (agent_symbol_ref a).
Definition keep_state (reachable : gset string) (s : string) : Prop := s ∈ reachable.
Definition keep_transition (reachable : gset string) (t : TransitionDecl) : Prop :=
  from_state t ∈ reachable ∧ to_state t ∈ reachable.
#[export] Instance keep_state_dec R s : Decision (keep_state R s).
Proof. unfold keep_state. apply _. Defined.
#[export] Instance keep_transition_dec R t : Decision (keep_transition R t).
Proof. unfold keep_transition. apply _. Defined.

Definition eliminate_dead_states (a : AgentDecl) : cxx (AgentDecl * bool) :=
  if bool_decide (states a = []) || bool_decide (initial_state a = "") then Ret (a, false)
  else
    reachable ← reachable_states a;
    let reachable := reachable ∪ list_to_set (final_states a) in
    if bool_decide (size reachable = length (states a)) then Ret (a, false)
    else
      let ss := base.filter (keep_state reachable) (states a) in
      let ts := base.filter (keep_transition reachable) (transitions a) in
      Ret (with_states a ss ts, negb (bool_decide (length ss = length (states a)))).
Definition dead_state_decl (d : Decl) : cxx (Decl * bool) :=
  match d with
  | DAgent a => am ← eliminate_dead_states a; Ret (DAgent am.1, am.2)
  | d => Ret (d, false)
  end.
Definition run_dead_state_elimination : Program → cxx (Program * bool) :=
  run_on_declarations dead_state_decl.

(** ** Temporal formulas (temporal_simplification.cpp) *)
Definition is_always_or_eventually (op : TemporalUnaryOp.t) : bool :=
  match op with TemporalUnaryOp.Always | TemporalUnaryOp.Eventually => true | _ => false end.

(** A unary formula after its operand: dereferencing a null operand is
    undefined; the unmodified formula keeps the flag of the operand. *)
Definition simplify_unary (op : TemporalUnaryOp.t) (operand : option TemporalExpr)
    (modified : bool) (sr : option SourceRange) : cxx (option TemporalExpr * bool) :=
  let unchanged := (Some (mkTemporalExpr (TemporalUnaryExpr op operand) sr), modified) in
  match op with
  | TemporalUnaryOp.Always | TemporalUnaryOp.Eventually =>
      match operand with
      | None => UB
      | Some (mkTemporalExpr (TemporalUnaryExpr op' inner) _) =>
          if bool_decide (op' = op)
          then Ret (Some (mkTemporalExpr (TemporalUnaryExpr op inner) sr), true)
          else Ret unchanged
      | Some _ => Ret unchanged
      end
  | TemporalUnaryOp.Not =>
      match operand with
      | None => UB
      | Some (mkTemporalExpr (TemporalUnaryExpr TemporalUnaryOp.Not inner) _) => Ret (inner, true)
      | Some _ => Ret unchanged
      end
  | TemporalUnaryOp.Next => Ret unchanged
  end.
Fixpoint simplify_temporal_expr (t : TemporalExpr) : cxx (option TemporalExpr * bool) :=
  let simplify := λ o, match o with Some t => simplify_temporal_expr t | None => Ret (None, false) end in
  match t with
  | mkTemporalExpr n sr =>
      match n with
      | TemporalUnaryExpr op operand =>
          om ← simplify operand;
          simplify_unary op om.1 om.2 sr
      | TemporalBinaryExpr op lhs rhs =>
          lm ← simplify lhs;
          rm ← simplify rhs;
          Ret (Some (mkTemporalExpr (TemporalBinaryExpr op lm.1 rm.1) sr), lm.2 || rm.2)
      | _ => Ret (Some t, false)
      end
  end.
Definition simplify_temporal (o : option TemporalExpr) : cxx (option TemporalExpr * bool) :=
  match o with Some t => simplify_temporal_expr t | None => Ret (None, false) end.

Definition temporal_clause (c : ContractClause) : cxx (ContractClause * bool) :=
  match clause_value c with
  | ClauseTemporal t =>
      tm ← simplify_temporal t;
      Ret (mkContractClause (clause_kind c) (ClauseTemporal tm.1) (clause_source_range c), tm.2)
  | ClauseExpr _ => Ret (c, false)
  end.
Definition temporal_decl (d : Decl) : cxx (Decl * bool) :=
  match d with
  | DContract c =>
      cm ← map_modified temporal_clause (clauses c);
      Ret (DContract (mkContractDecl (contract_provenance c) cm.1 (contract_target_ref c)), cm.2)
  | DWorkflow w =>
      sm ← map_modified simplify_temporal (wf_safety w);
      lm ← map_modified simplify_temporal (wf_liveness w);
      Ret (DWorkflow (mkWorkflowDecl (wf_provenance w) (wf_name w) (wf_nodes w) sm.1 lm.1
             (wf_return_value w) (wf_input_type_ref w) (wf_output_type_ref w) (wf_symbol_ref w)),
           sm.2 || lm.2)
  | d => Ret (d, false)
  end.
Definition run_temporal_simplification : Program → cxx (Program * bool) :=
  run_on_declarations temporal_decl.

(** ** Contract expressions (expr_canonicalization.cpp) *)
Definition is_bool_literal (e : ExprRef) (value : bool) : bool :=
  match e with
  | Some (mkExpr (BoolLiteralExpr b) _ _ _) => bool_decide (b = value)
  | _ => false
  end.
Definition canonicalize_not (operand : ExprRef) (modified : bool) (e : ExprRef)
    : cxx (ExprRef * bool) :=
  match operand with
  | None => UB
  | Some (mkExpr (UnaryExpr ExprUnaryOp.Not inner) _ _ _) => Ret (inner, true)
  | Some _ => Ret (e, modified)
  end.
(** [e && unit]: [unit] is the neutral literal of the operator. *)
Definition fold_literals (unit : bool) (lhs rhs : ExprRef) (modified : bool) (e : ExprRef)
    : ExprRef * bool :=
  if is_bool_literal lhs unit then (rhs, true)
  else if is_bool_literal rhs unit then (lhs, true)
  else if is_bool_literal lhs (negb unit) then (lhs, true)
  else if is_bool_literal rhs (negb unit) then (rhs, true)
  else (e, modified).
Fixpoint canonicalize (e : Expr) : cxx (ExprRef * bool) :=
  let canon := λ o, match o with Some e => canonicalize e | None => Ret (None, false) end in
  match e with
  | mkExpr n sr t i =>
      match n with
      | UnaryExpr op operand =>
          om ← canon operand;
          let e := Some (mkExpr (UnaryExpr op om.1) sr t i) in
          if bool_decide (op = ExprUnaryOp.Not) then canonicalize_not om.1 om.2 e
          else Ret (e, om.2)
      | BinaryExpr op lhs rhs =>
          lm ← canon lhs;
          rm ← canon rhs;
          let e := Some (mkExpr (BinaryExpr op lm.1 rm.1) sr t i) in
          match op with
          | ExprBinaryOp.And => Ret (fold_literals true lm.1 rm.1 (lm.2 || rm.2) e)
          | ExprBinaryOp.Or => Ret (fold_literals false lm.1 rm.1 (lm.2 || rm.2) e)
          | _ => Ret (e, lm.2 || rm.2)
          end
      | _ => Ret (Some e, false)
      end
  end.
Definition canonicalize_expr (o : ExprRef) : cxx (ExprRef * bool) :=
  match o with Some e => canonicalize e | None => Ret (None, false) end.
Definition canonical_clause (c : ContractClause) : cxx (ContractClause * bool) :=
  match clause_value c with
  | ClauseExpr e =>
      em ← canonicalize_expr e;
      Ret (mkContractClause (clause_kind c) (ClauseExpr em.1) (clause_source_range c), em.2)
  | ClauseTemporal _ => Ret (c, false)
  end.
Definition canonical_decl (d : Decl) : cxx (Decl * bool) :=
  match d with
  | DContract c =>
      cm ← map_modified canonical_clause (clauses c);
      Ret (DContract (mkContractDecl (contract_provenance c) cm.1 (contract_target_ref c)), cm.2)
  | d => Ret (d, false)
  end.
Definition run_expr_canonicalization : Program → cxx (Program * bool) :=
  run_on_declarations canonical_decl.

(** ** Workflow dependencies (workflow_simplification.cpp) *)
Definition direct_dependencies (nodes : list WorkflowNode) : gmap string (list string) :=
  fold_left (λ m n, <[wn_name n := wn_after n]> m) nodes ∅.
(** The stack grows at its end in the source; here its top is the head. *)
Fixpoint dependency_loop (fuel : nat) (deps : gmap string (list string)) (stack : list string)
    (reach : gset string) : cxx (gset string) :=
  match stack with
  | [] => Ret reach
  | current :: stack =>
      match fuel with
      | O => NoFuel
      | S fuel =>
          if bool_decide (current ∈ reach) then dependency_loop fuel deps stack reach
          else
            let reach := {[current]} ∪ reach in
            let next := base.filter (λ d, d ∉ reach) (default [] (deps !! current)) in
            dependency_loop fuel deps (reverse next ++ stack) reach
      end
  end.
(** Every dependency list is pushed at most once, and the first one twice. *)
Definition dependency_fuel (nodes : list WorkflowNode) (n : WorkflowNode) : nat :=
  length (wn_after n) + sum_list_with (λ n, length (wn_after n)) nodes.
Definition add_transitive (nodes : list WorkflowNode) (reachable : cxx (gmap string (gset string)))
    (n : WorkflowNode) : cxx (gmap string (gset string)) :=
  reachable ← reachable;
  reach ← dependency_loop (dependency_fuel nodes n) (direct_dependencies nodes)
            (reverse (wn_after n)) (default ∅ (reachable !! wn_name n));
  Ret (<[wn_name n := reach]> reachable).
Definition compute_transitive_reachable (nodes : list WorkflowNode)
    : cxx (gmap string (gset string)) :=
  fold_left (add_transitive nodes) nodes (Ret ∅).

Definition redundant (reachable : gmap string (gset string)) (after : list string) (dep : string)
    : bool :=
  existsb (λ other, negb (bool_decide (other = dep)) &&
                    bool_decide (dep ∈ default ∅ (reachable !! other))) after.
Definition reduce_after (reachable : gmap string (gset string)) (after : list string)
    : list string :=
  base.filter (λ d, redundant reachable after d = false) after.
Definition simplify_node (reachable : gmap string (gset string)) (n : WorkflowNode)
    : WorkflowNode * bool :=
  if bool_decide (length (wn_after n) < 2) then (n, false)
  else
    let reduced := reduce_after reachable (wn_after n) in
    if bool_decide (length reduced < length (wn_after n))
    then (mkWorkflowNode (wn_name n) (wn_input n) reduced (wn_target_ref n) (wn_source_range n), true)
    else (n, false).
Definition simplify_workflow (w : WorkflowDecl) : cxx (WorkflowDecl * bool) :=
  if bool_decide (length (wf_nodes w) < 2) then Ret (w, false)
  else
    reachable ← compute_transitive_reachable (wf_nodes w);
    nm ← map_modified (λ n, Ret (simplify_node reachable n)) (wf_nodes w);
    Ret (mkWorkflowDecl (wf_provenance w) (wf_name w) nm.1 (wf_safety w) (wf_liveness w)
           (wf_return_value w) (wf_input_type_ref w) (wf_output_type_ref w) (wf_symbol_ref w),
         nm.2).
Definition workflow_decl (d : Decl) : cxx (Decl * bool) :=
  match d with
  | DWorkflow w => wm ← simplify_workflow w; Ret (DWorkflow wm.1, wm.2)
  | d => Ret (d, false)
  end.
Definition run_workflow_simplification : Program → cxx (Program * bool) :=
  run_on_declarations workflow_decl.
