(* ===== verification/DeadStateProps.v ===== *)
(** * Dead state elimination is correct

    The search ends and finds exactly the states that transitions reach from
    the initial one; the pass keeps these and the final states; no run of the
    agent changes. *)
From S2P Require Import Prelude Numeric Ir ProgramIndex Diagnostics Value EvalContext.
From S2P Require Import Evaluator EvaluatorProps Executor CapabilityBridge CapabilityEval.
From S2P Require Import AgentRuntime Passes.
Open Scope nat_scope.

(** ** The search *)
Definition edge (ts : list TransitionDecl) (x y : string) : Prop :=
  ∃ t, t ∈ ts ∧ from_state t = x ∧ to_state t = y.

Lemma edge_cons t ts x y :
  edge (t :: ts) x y ↔ from_state t = x ∧ to_state t = y ∨ edge ts x y.
Proof.
  unfold edge. split.
  - intros (t' & [->|Ht]%elem_of_cons & H); [by left | right; eauto].
  - intros [H|(t' & Ht & H)]; eexists; (split; [|exact H]); [left | by right].
Qed.

Lemma visit_transitions_spec ts current R work :
  let r := fold_left (visit_transition current) ts (R, work) in
  ∃ new, r.2 = work ++ new ∧ r.1 = R ∪ list_to_set new ∧ NoDup new ∧
    (∀ y, y ∈ new → edge ts current y ∧ y ∉ R) ∧
    (∀ y, edge ts current y → y ∈ R ∨ y ∈ new).
Proof.
  revert R work. induction ts as [|t ts IH]; intros R work; simpl.
  - exists []. rewrite app_nil_r. split; [done|]. split; [simpl; set_solver|]. split; [constructor|].
    split; [by intros y ?%elem_of_nil|]. intros y (t & Ht & _). by apply elem_of_nil in Ht.
  - unfold visit_transition at 2 4. simpl.
    destruct (bool_decide (from_state t = current) && negb (bool_decide (to_state t ∈ R))) eqn:E.
    + apply andb_true_iff in E as [E1 E2]. apply bool_decide_eq_true in E1.
      apply negb_true_iff, bool_decide_eq_false in E2.
      destruct (IH ({[to_state t]} ∪ R) (work ++ [to_state t])) as (new & H1 & H2 & Hnd & H3 & H4).
      exists (to_state t :: new). split; [by rewrite H1, <- app_assoc|].
      split; [rewrite H2; simpl; set_solver|]. split.
      { constructor; [|done]. intros Hin. apply H3 in Hin as [_ Hn]. apply Hn. set_solver. }
      split.
      * intros y [->|Hy]%elem_of_cons; [split; [apply edge_cons; by left|done]|].
        destruct (H3 y Hy) as [He Hn]. split; [apply edge_cons; by right | set_solver].
      * intros y [[_ <-]|He]%edge_cons; [right; left|].
        destruct (H4 y He) as [Hy|Hy]; [|right; by right].
        apply elem_of_union in Hy as [->%elem_of_singleton|Hy]; [right; left | by left].
    + destruct (IH R work) as (new & H1 & H2 & Hnd & H3 & H4). exists new.
      split; [done|]. split; [done|]. split; [done|]. split.
      * intros y Hy. destruct (H3 y Hy). split; [apply edge_cons; by right | done].
      * intros y [[Hf <-]|He]%edge_cons; [left|by apply H4].
        apply andb_false_iff in E as [E|E]; [by apply bool_decide_eq_false in E|].
        by apply negb_false_iff, bool_decide_eq_true in E.
Qed.

(** Reached states were reached; a reached state is queued or has its targets
    reached. *)
Record searching (ts : list TransitionDecl) (init : string) (work : list string) (R : gset string)
    : Prop := {
  sr_initial : init ∈ R;
  sr_sound : ∀ x, x ∈ R → rtc (edge ts) init x;
  sr_work : ∀ x, x ∈ work → x ∈ R;
  sr_closed : ∀ x y, x ∈ R → edge ts x y → x ∈ work ∨ y ∈ R }.

Definition targets (ts : list TransitionDecl) : gset string := list_to_set (to_state <$> ts).

Lemma edge_target ts x y : edge ts x y → y ∈ targets ts.
Proof. intros (t & Ht & _ & <-). apply elem_of_list_to_set. by apply list_elem_of_fmap_2. Qed.

Lemma searching_step ts init current work R :
  searching ts init (current :: work) R →
  let r := fold_left (visit_transition current) ts (R, work) in
  searching ts init r.2 r.1 ∧
  length r.2 + size (targets ts ∖ r.1) = length work + size (targets ts ∖ R).
Proof.
  intros [H1 H2 H3 H4]. cbv zeta. destruct (visit_transitions_spec ts current R work)
    as (new & -> & -> & Hnd & Hn1 & Hn2).
  assert (Hc : current ∈ R) by (apply H3; left). split; [split|].
  - set_solver.
  - intros x [Hx|Hx%elem_of_list_to_set]%elem_of_union; [by apply H2|].
    eapply rtc_r; [by apply H2 | by apply Hn1].
  - intros x [Hx|Hx]%elem_of_app; apply elem_of_union; [left; apply H3; by right|right].
    by apply elem_of_list_to_set.
  - intros x y [Hx|Hx%elem_of_list_to_set]%elem_of_union He;
      [|left; apply elem_of_app; by right].
    destruct (H4 x y Hx He) as [[->|Hw]%elem_of_cons|Hy].
    + right. destruct (Hn2 y He) as [|Hy]; apply elem_of_union; [by left|right].
      by apply elem_of_list_to_set.
    + left. apply elem_of_app. by left.
    + right. apply elem_of_union. by left.
  - assert (Heq : targets ts ∖ R =
      (list_to_set new : gset string) ∪ targets ts ∖ (R ∪ list_to_set new)).
    { apply set_eq. intros x. rewrite elem_of_union, !elem_of_difference, elem_of_union.
      destruct (decide (x ∈ (list_to_set new : gset string))) as [Hx|Hx]; [|tauto].
      pose proof Hx as Hx'. apply elem_of_list_to_set in Hx' as [He Hn]%Hn1.
      apply edge_target in He. tauto. }
    pose proof (size_union (C:=gset string) (list_to_set new)
      (targets ts ∖ (R ∪ list_to_set new))) as Hu.
    pose proof (size_list_to_set (C:=gset string) new Hnd) as Hl.
    rewrite Heq, Hu, Hl by set_solver. rewrite length_app. lia.
Qed.

Lemma reach_loop_spec fuel ts init work R :
  searching ts init work R → length work + size (targets ts ∖ R) ≤ fuel →
  ∃ R', reach_loop fuel ts work R ⇓ R' ∧ searching ts init [] R'.
Proof.
  revert work R. induction fuel as [|fuel IH]; intros [|current work] R Hs Hf; simpl in *;
    [by exists R | lia | by exists R |].
  destruct (searching_step _ _ _ _ _ Hs) as [Hs' Hm].
  destruct (fold_left _ _ _) as [R1 work1]. apply IH; [done|]. simpl in Hm. lia.
Qed.

(** The states reached from the initial one. *)
Lemma reachable_states_spec a :
  ∃ R, reachable_states a ⇓ R ∧
    ∀ x, x ∈ R ↔ rtc (edge (transitions a)) (initial_state a) x.
Proof.
  destruct (reach_loop_spec (S (length (transitions a))) (transitions a) (initial_state a)
    [initial_state a] {[initial_state a]}) as (R & Hr & [H1 H2 H3 H4]).
  - split; [set_solver|by intros x ->%elem_of_singleton|set_solver|].
    intros x y ->%elem_of_singleton _. left. left.
  - assert (Hle : size (targets (transitions a) ∖ {[initial_state a]}) ≤ length (transitions a)).
    { etransitivity; [apply subseteq_size, subseteq_difference_l; reflexivity|].
      rewrite <- (length_fmap to_state). unfold targets. generalize (to_state <$> transitions a).
      intros l. induction l as [|x l IH]; simpl; [done|].
      rewrite size_union_alt, size_singleton.
      assert (Hs : list_to_set l ∖ {[x]} ⊆ (list_to_set l : gset string)) by set_solver.
      apply subseteq_size in Hs. lia. }
    simpl. lia.
  - exists R. split; [done|]. intros x. split; [apply H2|]. intros Hx.
    revert x Hx. apply (rtc_ind_r (λ x, x ∈ R)); [done|]. intros y z _ Hyz IH.
    destruct (H4 _ _ IH Hyz) as [Hn|]; [by apply elem_of_nil in Hn | done].
Qed.

(** ** The pass *)
Definition alive (a : AgentDecl) (s : string) : Prop :=
  rtc (edge (transitions a)) (initial_state a) s ∨ s ∈ final_states a.

(** The agents that the validator accepts. *)
Record agent_wf (a : AgentDecl) : Prop := {
  wf_nodup : NoDup (states a);
  wf_initial : initial_state a ∈ states a;
  wf_named : initial_state a ≠ "";
  wf_finals : ∀ s, s ∈ final_states a → s ∈ states a;
  wf_transitions : ∀ x y, edge (transitions a) x y → x ∈ states a ∧ y ∈ states a }.

Lemma eliminate_spec a :
  ∃ a' b, eliminate_dead_states a ⇓ (a', b) ∧
    ((a' = a ∧ b = false) ∨
     ∃ R, (∀ x, x ∈ R ↔ alive a x) ∧ size R ≠ length (states a) ∧
       a' = with_states a (base.filter (keep_state R) (states a))
              (base.filter (keep_transition R) (transitions a)) ∧
       b = negb (bool_decide (length (states a') = length (states a)))).
Proof.
  unfold eliminate_dead_states. destruct (_ || _); [by exists a, false; eauto|].
  destruct (reachable_states_spec a) as (R & -> & HR). simpl.
  destruct (bool_decide _) eqn:E; [by exists a, false; eauto|].
  eexists _, _. split; [reflexivity|]. right.
  exists (R ∪ list_to_set (final_states a)). split.
  - intros x. unfold alive. by rewrite elem_of_union, elem_of_list_to_set, HR.
  - split; [by apply bool_decide_eq_false in E | done].
Qed.

Lemma alive_state a s : agent_wf a → alive a s → s ∈ states a.
Proof.
  intros [_ Hi _ Hf Ht] [Hr|Hs]; [|by apply Hf]. revert s Hr.
  apply (rtc_ind_r (λ s, s ∈ states a)); [done|]. intros x y _ He _. by apply (Ht x y).
Qed.

(** With as many live states as declared ones every state is alive. *)
Lemma all_alive a (R : gset string) :
  agent_wf a → (∀ x, x ∈ R ↔ alive a x) → size R = length (states a) →
  ∀ s, s ∈ states a → alive a s.
Proof.
  intros Hwf HR Hsize s Hs. apply HR.
  assert (Hsub : R ⊆ list_to_set (states a)).
  { intros x Hx. apply elem_of_list_to_set. by apply alive_state, HR. }
  assert (Hn : size (list_to_set (states a) : gset string) = length (states a))
    by apply size_list_to_set, Hwf.
  assert (Heq : R = list_to_set (states a)).
  { apply set_eq. intros x. split; [apply Hsub|]. intros Hx.
    destruct (decide (x ∈ R)) as [|Hnx]; [done|]. exfalso.
    assert (Hss : R ⊂ list_to_set (states a)) by (split; [done | intros H'; by apply Hnx, H']).
    apply subset_size in Hss. lia. }
  rewrite Heq. by apply elem_of_list_to_set.
Qed.

(** What the pass does to a well-formed agent. *)
Record eliminated (a a' : AgentDecl) : Prop := {
  el_states : ∀ s, s ∈ states a' ↔ s ∈ states a ∧ alive a s;
  el_transitions : ∀ t, t ∈ transitions a' ↔
    t ∈ transitions a ∧ alive a (from_state t) ∧ alive a (to_state t);
  el_order : states a' `sublist_of` states a ∧ transitions a' `sublist_of` transitions a;
  el_rest : a' = with_states a (states a') (transitions a') }.

Lemma eliminate_wf a :
  agent_wf a →
  ∃ a' b, eliminate_dead_states a ⇓ (a', b) ∧ eliminated a a' ∧
    (b = true ↔ ∃ s, s ∈ states a ∧ ¬ alive a s) ∧ (b = false → a' = a).
Proof.
  intros Hwf. unfold eliminate_dead_states.
  assert (Hguard : bool_decide (states a = []) || bool_decide (initial_state a = "") = false).
  { apply orb_false_iff. split; apply bool_decide_eq_false; [|apply Hwf].
    intros H. pose proof (wf_initial _ Hwf) as Hi. rewrite H in Hi. by apply elem_of_nil in Hi. }
  rewrite Hguard. destruct (reachable_states_spec a) as (R0 & -> & HR0). simpl.
  set (R := R0 ∪ list_to_set (final_states a)).
  assert (HR : ∀ x, x ∈ R ↔ alive a x).
  { intros x. unfold R, alive. by rewrite elem_of_union, elem_of_list_to_set, HR0. }
  destruct (bool_decide (size R = _)) eqn:E.
  - apply bool_decide_eq_true in E. pose proof (all_alive a R Hwf HR E) as Hall.
    exists a, false. split; [done|]. split; [|split; [|done]].
    + split; [by naive_solver| |done|by destruct a].
      intros t. split; [|tauto]. intros Ht. split; [done|].
      assert (He : edge (transitions a) (from_state t) (to_state t)) by (by exists t).
      apply (wf_transitions _ Hwf) in He as [? ?]. by split; apply Hall.
    + split; [done|]. intros (s & Hs & Hn). by destruct (Hn (Hall s Hs)).
  - eexists _, _. split; [reflexivity|]. split; [|split].
    + split; [| | |by destruct a].
      * intros s. simpl. rewrite list_elem_of_filter. unfold keep_state. rewrite HR. tauto.
      * intros t. simpl. rewrite list_elem_of_filter. unfold keep_transition. rewrite !HR. tauto.
      * split; apply sublist_filter.
    + simpl. rewrite negb_true_iff, bool_decide_eq_false. split.
      * intros Hl. destruct (decide (Forall (keep_state R) (states a))) as [Hall|Hn].
        { exfalso. apply Hl. f_equal. apply filter_all. by apply Forall_forall. }
        apply not_Forall_Exists, Exists_exists in Hn as (s & Hs & Hn); [|apply _].
        exists s. split; [done|]. by rewrite <- HR.
      * intros (s & Hs & Hn) Hl. apply Hn, HR. by apply (filter_length_eq _ _ Hl).
    + simpl. intros Hb. apply negb_false_iff, bool_decide_eq_true in Hb.
      pose proof (filter_length_eq _ _ Hb) as Hall. unfold keep_state in Hall. destruct a. simpl in *.
      unfold with_states. simpl. f_equal; apply filter_all; [done|].
      intros t Ht. assert (He : edge transitions (from_state t) (to_state t)) by (by exists t).
      apply (wf_transitions _ Hwf) in He as [? ?]. split; by apply Hall.
Qed.

(** ** Runs of the smaller agent *)
Definition with_agent {W} (a : AgentDecl) (rt : AgentRuntime W) : AgentRuntime W :=
  mkRuntime a (flow_ rt) (quota_ rt) (capability_invoker_ rt) (contextual_capability_invoker_ rt)
    (invocation_context_ rt).

Section Simulation.
Context {W : Type} `{Clock W} (rt : AgentRuntime W) (R : gset string).
Abbreviation a := (agent_ rt).
Context (HR : ∀ x, x ∈ R ↔ alive a x).
Abbreviation a' := (with_states a (base.filter (keep_state R) (states a))
                      (base.filter (keep_transition R) (transitions a))).
Abbreviation rt' := (with_agent a' rt).
(** The states a run can be in. *)
Abbreviation current_ok r := (rtc (edge (transitions a)) (initial_state a) (current_state r)).

Lemma valid_transition_edge ts_agent x y :
  is_valid_transition ts_agent x y = true ↔ edge (transitions ts_agent) x y.
Proof.
  unfold is_valid_transition. rewrite existsb_exists. split.
  - intros (t & Ht & [H1%bool_decide_eq_true H2%bool_decide_eq_true]%andb_true_iff).
    exists t. by rewrite list_elem_of_In.
  - intros (t & Ht & <- & <-). exists t. rewrite <- list_elem_of_In.
    split; [done|]. by rewrite !bool_decide_eq_true_2.
Qed.

Lemma valid_transition_same x y :
  rtc (edge (transitions a)) (initial_state a) x →
  is_valid_transition a' x y = is_valid_transition a x y.
Proof.
  intros Hx. apply eq_true_iff_eq. rewrite !valid_transition_edge. simpl. split.
  - intros (t & Ht & He). apply list_elem_of_filter in Ht as [_ Ht]. by exists t.
  - intros (t & Ht & <- & <-). exists t. split; [|done]. apply list_elem_of_filter.
    split; [|done]. split; apply HR; left; [done|]. eapply rtc_r; [exact Hx|]. by exists t.
Qed.

Lemma handle_outcome_same r visits x :
  current_ok r → handle_outcome rt' r visits x = handle_outcome rt r visits x.
Proof.
  intros Hr. unfold handle_outcome. simpl.
  destruct (exec_has_errors x); [done|]. destruct (outcome x); [done| |done|done].
  by rewrite (valid_transition_same _ _ Hr).
Qed.

Lemma handle_outcome_reaches r visits x r1 visits1 :
  current_ok r → handle_outcome rt r visits x = inr (r1, visits1) → current_ok r1.
Proof.
  intros Hr. unfold handle_outcome. destruct (exec_has_errors x); [done|].
  destruct (outcome x); try (by destruct (is_final_state _ _)); [|done].
  destruct (is_valid_transition _ _ _) eqn:E; simpl; [|done].
  destruct (_ <? _)%Z; [done|]. intros [= <- <-]. simpl.
  eapply rtc_r; [exact Hr|]. by apply valid_transition_edge.
Qed.

Lemma run_loop_same fuel r ctx visits w :
  current_ok r → run_loop rt' fuel r ctx visits w = run_loop rt fuel r ctx visits w.
Proof.
  revert r ctx visits w. induction fuel as [|fuel IH]; intros r ctx visits w Hr; [done|]. simpl.
  change (transitions_exhausted rt' r) with (transitions_exhausted rt r).
  destruct (transitions_exhausted rt r); [done|].
  change (time_exceeded rt') with (time_exceeded rt).
  apply eff_bind_cong. intros late w1 _. destruct late; [done|].
  destruct (find_handler _ _) as [h|]; [|done].
  change (agent_expr_eval rt') with (agent_expr_eval rt).
  apply eff_bind_cong. intros [x c] w2 _. simpl. rewrite handle_outcome_same by done.
  destruct (handle_outcome rt r visits x) as [r'|[r' visits']] eqn:E; [done|].
  apply IH. by eapply handle_outcome_reaches.
Qed.

Lemma fewer_targets : run_fuel rt' ≤ run_fuel rt.
Proof.
  unfold run_fuel. apply le_n_S, Nat.mul_le_mono_l. simpl.
  apply submseteq_length, NoDup_submseteq; [apply NoDup_remove_dups|].
  intros x Hx. rewrite elem_of_remove_dups in Hx. rewrite elem_of_remove_dups.
  apply list_elem_of_fmap in Hx as (t & -> & Ht). apply list_elem_of_filter in Ht as [_ Ht].
  by apply list_elem_of_fmap_2.
Qed.

Lemma initial_fuel (rt0 : AgentRuntime W) : visits_left rt0 {[initial_state a := 1%Z]} < run_fuel rt0.
Proof.
  unfold run_fuel. apply Nat.lt_succ_r, visits_left_bound. intros t.
  destruct (decide (initial_state a = t)) as [->|].
  - by rewrite lookup_singleton_eq.
  - by rewrite lookup_singleton_ne.
Qed.

Lemma run_same input w : invokers_ok rt → value_ok input → run rt' input w = run rt input w.
Proof.
  intros Hok Hv. unfold run, run_from_state.
  change (initial_state (agent_ rt')) with (initial_state a).
  apply eff_bind_cong. intros t0 w0 _. apply eff_bind_eq_l.
  rewrite <- run_loop_same by apply rtc_refl.
  eapply run_loop_fuel; [by destruct Hok|apply initial_running|by apply inject_input_ok|apply initial_fuel|].
  eapply Nat.lt_le_trans; [apply initial_fuel|apply fewer_targets].
Qed.
End Simulation.

Lemma with_same_agent {W} (rt : AgentRuntime W) : with_agent (agent_ rt) rt = rt.
Proof. by destruct rt. Qed.

(** Dead state elimination of a well-formed agent keeps, in order, exactly
    the declared states that some path of transitions reaches from the initial
    one and the final states, and the transitions between kept states; it
    reports a modification exactly when it removes a state, and a second run
    changes nothing. *)
Theorem dead_states_removed a :
  agent_wf a →
  ∃ a' b, eliminate_dead_states a ⇓ (a', b) ∧ eliminated a a' ∧
    (b = true ↔ ∃ s, s ∈ states a ∧ ¬ alive a s).
Proof.
  intros Hwf. destruct (eliminate_wf a Hwf) as (a' & b & H1 & H2 & H3 & _). by exists a', b.
Qed.

(** C16: dead state elimination does not change what an agent does: for every
    agent, flow, quota and world, a run of the smaller agent is the run of the
    original one. *)
Theorem dead_state_elimination_preserves_runs {W} `{Clock W} (rt : AgentRuntime W) a' b input w :
  invokers_ok rt → value_ok input →
  eliminate_dead_states (agent_ rt) ⇓ (a', b) →
  run (with_agent a' rt) input w = run rt input w.
Proof.
  intros Hok Hv He. destruct (eliminate_spec (agent_ rt)) as (a1 & b1 & He1 & Hcase).
  rewrite He in He1. injection He1 as <- <-.
  destruct Hcase as [[-> _]|(R & HR & _ & -> & _)]; [by rewrite with_same_agent|].
  by apply run_same.
Qed.

(** ** A concrete agent with a dead state *)
Definition haunted : AgentDecl :=
  with_states Example.agent ["Init"; "Dead"; "Done"]
    [mkTransition "Init" "Done"; mkTransition "Dead" "Done"].
Lemma haunted_edges x y :
  edge (transitions haunted) x y → (x = "Init" ∨ x = "Dead") ∧ y = "Done".
Proof.
  intros (t & Ht & <- & <-). simpl in Ht.
  apply elem_of_cons in Ht as [->|Ht]; [by auto|]. apply list_elem_of_singleton in Ht as ->. by auto.
Qed.
Lemma haunted_wf : agent_wf haunted.
Proof.
  split; [by apply (bool_decide_unpack (NoDup ["Init"; "Dead"; "Done"]))|left|done| |].
  - intros s Hs. simpl in *. apply list_elem_of_singleton in Hs as ->. right. right. left.
  - intros x y [Hx ->]%haunted_edges. split; [|right; right; left].
    destruct Hx as [->| ->]; [left | right; left].
Qed.

Lemma dead_states_removed_witness :
  ∃ a' b, eliminate_dead_states haunted ⇓ (a', b) ∧ eliminated haunted a' ∧ states a' = ["Init"; "Done"].
Proof.
  destruct (dead_states_removed haunted haunted_wf) as (a' & b & He & Hel & _).
  exists a', b. split; [exact He|]. split; [exact Hel|]. vm_compute in He. by injection He as <- _.
Defined.

Definition haunted_runtime : AgentRuntime Z :=
  mkRuntime haunted Example.flow no_quota None None default_invocation_context.
Lemma dead_state_elimination_preserves_runs_witness :
  ∃ a', eliminate_dead_states haunted ⇓ (a', true) ∧ length (transitions a') = 1 ∧
    @run Z Example.clock (with_agent a' haunted_runtime) NoneValue 0%Z =
    @run Z Example.clock haunted_runtime NoneValue 0%Z.
Proof.
  eexists. split; [vm_compute; reflexivity|]. split; [reflexivity|].
  apply (@dead_state_elimination_preserves_runs Z Example.clock haunted_runtime _ true);
    [split; intros f Hf; discriminate Hf | constructor | vm_compute; reflexivity].
Defined.
