(* ===== verification/TemporalProps.v ===== *)
(** * Temporal simplification is correct

    The rewrites of the pass preserve the meaning of formulas in linear
    temporal logic over infinite traces; the result has no redex, so a second
    run changes nothing; the reported flag is exact. *)
From S2P Require Import Prelude Ir Passes.
From Stdlib Require Import Classical_Prop.
Open Scope nat_scope.

(** ** Meaning of formulas at a position of a trace

    [atom] says where the event, state and embedded atoms hold. *)
Section Meaning.
Context (atom : TemporalExprNode → nat → Prop).
Fixpoint holds (t : TemporalExpr) (i : nat) : Prop :=
  let at_ := λ (o : option TemporalExpr) i, match o with Some t => holds t i | None => False end in
  match t with
  | mkTemporalExpr n _ =>
      match n with
      | TemporalUnaryExpr TemporalUnaryOp.Always o => ∀ j, i ≤ j → at_ o j
      | TemporalUnaryExpr TemporalUnaryOp.Eventually o => ∃ j, i ≤ j ∧ at_ o j
      | TemporalUnaryExpr TemporalUnaryOp.Next o => at_ o (S i)
      | TemporalUnaryExpr TemporalUnaryOp.Not o => ¬ at_ o i
      | TemporalBinaryExpr TemporalBinaryOp.Implies l r => at_ l i → at_ r i
      | TemporalBinaryExpr TemporalBinaryOp.Or l r => at_ l i ∨ at_ r i
      | TemporalBinaryExpr TemporalBinaryOp.And l r => at_ l i ∧ at_ r i
      | TemporalBinaryExpr TemporalBinaryOp.Until l r =>
          ∃ j, i ≤ j ∧ at_ r j ∧ ∀ k, i ≤ k < j → at_ l k
      | n => atom n i
      end
  end.
End Meaning.
Definition same_meaning (t t' : TemporalExpr) : Prop := ∀ atom i, holds atom t i ↔ holds atom t' i.
#[export] Instance same_meaning_equiv : Equivalence same_meaning.
Proof.
  split; [by intros t atom i | by intros t t' Ht atom i; rewrite (Ht atom i) |].
  intros t1 t2 t3 H1 H2 atom i. by rewrite (H1 atom i).
Qed.

Abbreviation unary op t sr := (mkTemporalExpr (TemporalUnaryExpr op (Some t)) sr).
Abbreviation binary op l r sr := (mkTemporalExpr (TemporalBinaryExpr op (Some l) (Some r)) sr).

Lemma unary_meaning op t t' sr : same_meaning t t' → same_meaning (unary op t sr) (unary op t' sr).
Proof. intros Ht atom i. destruct op; simpl; setoid_rewrite (Ht atom); done. Qed.
Lemma binary_meaning op l l' r r' sr :
  same_meaning l l' → same_meaning r r' → same_meaning (binary op l r sr) (binary op l' r' sr).
Proof. intros Hl Hr atom i. destruct op; simpl; setoid_rewrite (Hl atom); setoid_rewrite (Hr atom); done. Qed.

(** The three rewrites. *)
Lemma collapse_meaning op t sr sr' :
  is_always_or_eventually op = true → same_meaning (unary op (unary op t sr') sr) (unary op t sr).
Proof.
  intros Hop atom i. destruct op; try done; simpl.
  - split; intros H j Hj; [by apply (H j Hj) | intros k Hk; apply H; lia].
  - split; [intros (j & Hj & k & Hk & H); exists k; split; [lia|done] | intros (j & Hj & H); eauto].
Qed.
Lemma double_negation_meaning t sr sr' :
  same_meaning (unary TemporalUnaryOp.Not (unary TemporalUnaryOp.Not t sr') sr) t.
Proof. intros atom i. simpl. split; [apply NNPP | tauto]. Qed.

(** ** Induction over formulas without null operands *)
Inductive formula_wf : TemporalExpr → Prop :=
  | wf_unary op t sr : formula_wf t → formula_wf (unary op t sr)
  | wf_binary op l r sr : formula_wf l → formula_wf r → formula_wf (binary op l r sr)
  | wf_embedded e sr : formula_wf (mkTemporalExpr (EmbeddedTemporalExpr e) sr)
  | wf_called c sr : formula_wf (mkTemporalExpr (CalledTemporalExpr c) sr)
  | wf_in_state s sr : formula_wf (mkTemporalExpr (InStateTemporalExpr s) sr)
  | wf_running n sr : formula_wf (mkTemporalExpr (RunningTemporalExpr n) sr)
  | wf_completed n s sr : formula_wf (mkTemporalExpr (CompletedTemporalExpr n s) sr).

Fixpoint formula_size (t : TemporalExpr) : nat :=
  let size := λ o : option TemporalExpr, match o with Some t => formula_size t | None => 0 end in
  match t with
  | mkTemporalExpr n _ =>
      match n with
      | TemporalUnaryExpr _ o => S (size o)
      | TemporalBinaryExpr _ l r => S (size l + size r)
      | _ => 1
      end
  end.

(** ** Normal forms *)
Definition redex (op : TemporalUnaryOp.t) (t : TemporalExpr) : bool :=
  match op, temporal_node t with
  | TemporalUnaryOp.Next, _ => false
  | _, TemporalUnaryExpr op' _ => bool_decide (op' = op)
  | _, _ => false
  end.
Inductive normal : TemporalExpr → Prop :=
  | normal_unary op t sr : normal t → redex op t = false → normal (unary op t sr)
  | normal_binary op l r sr : normal l → normal r → normal (binary op l r sr)
  | normal_embedded e sr : normal (mkTemporalExpr (EmbeddedTemporalExpr e) sr)
  | normal_called c sr : normal (mkTemporalExpr (CalledTemporalExpr c) sr)
  | normal_in_state s sr : normal (mkTemporalExpr (InStateTemporalExpr s) sr)
  | normal_running n sr : normal (mkTemporalExpr (RunningTemporalExpr n) sr)
  | normal_completed n s sr : normal (mkTemporalExpr (CompletedTemporalExpr n s) sr).

Lemma unary_no_redex op t m sr :
  redex op t = false → simplify_unary op (Some t) m sr ⇓ (Some (unary op t sr), m).
Proof.
  destruct t as [n sr']. unfold redex. simpl.
  destruct op; [..|done|]; destruct n as [| | | | |op' o|]; try done; simpl; [..|by destruct op'];
    intros E; by rewrite E.
Qed.

Lemma normal_unchanged t : normal t → simplify_temporal_expr t ⇓ (Some t, false).
Proof.
  induction 1 as [op t sr _ IH Hr|op l r sr _ IHl _ IHr| | | | |]; simpl; try done.
  - rewrite IH. by apply unary_no_redex.
  - by rewrite IHl, IHr.
Qed.

(** One simplified operand. *)
Record simplified (t t' : TemporalExpr) (b : bool) : Prop := {
  sf_meaning : same_meaning t t';
  sf_normal : normal t';
  sf_size : if b then formula_size t' < formula_size t else t' = t }.

Lemma unary_redex op t m sr :
  redex op t = true → normal t →
  ∃ t', simplify_unary op (Some t) m sr ⇓ (Some t', true) ∧
    same_meaning (unary op t sr) t' ∧ normal t' ∧ formula_size t' < formula_size (unary op t sr).
Proof.
  intros Hr Hn. destruct Hn as [op' t sr' Hn Hr'| | | | | |];
    try (unfold redex in Hr; simpl in Hr; by destruct op).
  assert (op' = op) as ->.
  { unfold redex in Hr. simpl in Hr. destruct op; try done; by apply bool_decide_eq_true in Hr. }
  destruct op; simpl; [eexists..|done|].
  - split; [reflexivity|]. split; [by apply collapse_meaning|]. split; [by constructor|]. simpl. lia.
  - split; [reflexivity|]. split; [by apply collapse_meaning|]. split; [by constructor|]. simpl. lia.
  - exists t. split; [done|]. split; [apply double_negation_meaning|]. split; [done|]. lia.
Qed.

Lemma simplify_spec t :
  formula_wf t → ∃ t' b, simplify_temporal_expr t ⇓ (Some t', b) ∧ simplified t t' b.
Proof.
  induction 1 as [op t sr _ (t1 & b & Ht & [Hm Hn Hs])
    |op l r sr _ (l1 & b1 & Hl & [Hml Hnl Hsl]) _ (r1 & b2 & Hr & [Hmr Hnr Hsr])| | | | |];
    try (eexists _, false; split; [reflexivity|]; split; [done|constructor|done]).
  - simpl. rewrite Ht. simpl.
    assert (Hu : same_meaning (unary op t sr) (unary op t1 sr)) by by apply unary_meaning.
    destruct (redex op t1) eqn:Hr.
    + destruct (unary_redex op t1 b sr Hr Hn) as (t' & H1 & H2 & H3 & H4). exists t', true.
      split; [done|]. split; [by etrans|done|]. simpl in *. destruct b; [lia|by subst].
    + exists (unary op t1 sr), b. split; [by apply unary_no_redex|].
      split; [done|by constructor|]. simpl. destruct b; [lia|by subst].
  - simpl. rewrite Hl, Hr. simpl. eexists _, _. split; [reflexivity|].
    split; [by apply binary_meaning|by constructor|].
    destruct b1, b2; simpl; subst; lia || done.
Qed.

(** C17: simplifying a temporal formula (without null operands) returns a
    formula that holds at the same positions of every trace; the result
    contains no double [always], [eventually] or negation, so a second run
    returns it unchanged; the flag is set exactly when the formula shrank. *)
Theorem temporal_simplification_correct t :
  formula_wf t →
  ∃ t' b, simplify_temporal_expr t ⇓ (Some t', b) ∧
    (∀ atom i, holds atom t i ↔ holds atom t' i) ∧
    simplify_temporal_expr t' ⇓ (Some t', false) ∧
    (b = false → t' = t) ∧ (b = true → formula_size t' < formula_size t).
Proof.
  intros Ht. destruct (simplify_spec t Ht) as (t' & b & H & [Hm Hn Hs]). exists t', b.
  split; [done|]. split; [done|]. split; [by apply normal_unchanged|].
  split; intros ->; done.
Qed.

Lemma temporal_simplification_correct_witness :
  ∃ t', simplify_temporal_expr
    (unary TemporalUnaryOp.Not (unary TemporalUnaryOp.Not (unary TemporalUnaryOp.Always
      (unary TemporalUnaryOp.Always (mkTemporalExpr (CalledTemporalExpr "pay") None) None) None)
      None) None) ⇓ (Some t', true) ∧ formula_size t' = 2.
Proof.
  destruct (temporal_simplification_correct
    (unary TemporalUnaryOp.Not (unary TemporalUnaryOp.Not (unary TemporalUnaryOp.Always
      (unary TemporalUnaryOp.Always (mkTemporalExpr (CalledTemporalExpr "pay") None) None) None)
      None) None)) as (t' & b & H & _); [repeat constructor|].
  exists t'. vm_compute in H. injection H as <- <-. split; reflexivity.
Defined.
