(* ===== verification/CanonicalProps.v ===== *)
(** * Canonicalization of contract expressions is correct

    Where an expression has a value, its canonical form has the same value (the
    converse fails: the rewrites drop operands whose evaluation can fail); a
    canonical form has no redex. *)
From S2P Require Import Prelude Numeric Ir Diagnostics Value EvalContext.
From S2P Require Import Evaluator EvaluatorProps Passes.
Open Scope nat_scope.

(** ** Values of expressions *)
Section Yields.
Context {W : Type} (ctx : EvalContext) (w : W).

Definition yields (e : Expr) (v : Value) : Prop :=
  ∃ r, eval_expr e ctx w ⇓ (r, w) ∧ has_errors r = false ∧ er_value r = v.

Lemma eval_same_world e r w' : eval_expr e ctx w ⇓ (r, w') → w' = w.
Proof.
  apply pure_run, (eval_expr_closed (λ A, @pure_eff W A)). intros. apply pure_ret.
Qed.

Lemma yields_run e r w' :
  eval_expr e ctx w ⇓ (r, w') → has_errors r = false → yields e (er_value r).
Proof. intros He Hr. pose proof (eval_same_world _ _ _ He) as ->. by exists r. Qed.

(** The value of an operator depends on the values of its operands only. *)
Lemma unary_op_value op r r' x v :
  er_value r' = er_value r → has_errors r' = false →
  eval_unary_op op r ⇓ x → has_errors x = false → er_value x = v →
  ∃ x', eval_unary_op op r' ⇓ x' ∧ has_errors x' = false ∧ er_value x' = v.
Proof.
  intros Hv He Hx Hxe Hxv. unfold eval_unary_op in *. rewrite Hv.
  destruct op; [by eauto|by eauto|]. destruct (er_value r) eqn:E; try (by eauto);
    injection Hx as <-; eexists; split; try reflexivity; (split; [done|]); congruence.
Qed.

Lemma yields_unary op e sr t i v :
  yields (mkExpr (UnaryExpr op (Some e)) sr t i) v ↔
  ∃ v0 x, yields e v0 ∧ eval_unary_op op (value_result v0) ⇓ x ∧ has_errors x = false ∧
    er_value x = v.
Proof.
  split.
  - intros (r & Hr & He & Hv). unfold eval_expr in Hr. simpl in Hr. inv_eff Hr.
    destruct (has_errors r0) eqn:E0; [by injection Hr as <- <-; congruence|].
    pose proof (eval_same_world _ _ _ E) as ->. unfold lift in Hr.
    destruct (eval_unary_op op r0) as [x| |] eqn:Ex; try done. injection Hr as ->.
    destruct (unary_op_value op r0 (value_result (er_value r0)) r v eq_refl eq_refl Ex He Hv)
      as (x' & H1 & H2 & H3).
    exists (er_value r0), x'. split; [by exists r0 | done].
  - intros (v0 & x & (r0 & Hr0 & He0 & <-) & Hx & Hxe & Hxv).
    destruct (unary_op_value op (value_result (er_value r0)) r0 x v eq_refl He0 Hx Hxe Hxv)
      as (x' & H1 & H2 & H3).
    exists x'. split; [|done]. unfold eval_expr in *. simpl.
    rewrite (eff_bind_eq _ _ _ _ _ Hr0), He0. unfold lift. by rewrite H1.
Qed.

Lemma yields_binary op e1 e2 sr t i v :
  yields (mkExpr (BinaryExpr op (Some e1) (Some e2)) sr t i) v ↔
  ∃ v1 v2 x, yields e1 v1 ∧ yields e2 v2 ∧ eval_binary_op op v1 v2 ⇓ x ∧
    has_errors x = false ∧ er_value x = v.
Proof.
  split.
  - intros (r & Hr & He & Hv). unfold eval_expr in Hr. simpl in Hr. inv_eff Hr.
    destruct (has_errors r0) eqn:E0; [by injection Hr as <- <-; congruence|].
    pose proof (eval_same_world _ _ _ E) as ->. inv_eff Hr.
    destruct (has_errors r1) eqn:E1'; [by injection Hr as <- <-; congruence|].
    pose proof (eval_same_world _ _ _ E1) as ->. unfold lift in Hr.
    destruct (eval_binary_op _ _ _) as [x| |] eqn:Ex; try done. injection Hr as ->.
    exists (er_value r0), (er_value r1), r.
    split; [by exists r0|]. split; [by exists r1 | done].
  - intros (v1 & v2 & x & (r1 & Hr1 & He1 & <-) & (r2 & Hr2 & He2 & <-) & Hx & Hxe & Hxv).
    exists x. split; [|done]. unfold eval_expr in *. simpl.
    rewrite (eff_bind_eq _ _ _ _ _ Hr1), He1, (eff_bind_eq _ _ _ _ _ Hr2), He2.
    unfold lift. by rewrite Hx.
Qed.

Lemma yields_null_unary op sr t i v : ¬ yields (mkExpr (UnaryExpr op None) sr t i) v.
Proof. intros (r & Hr & He & _). unfold eval_expr in Hr. injection Hr as <-. discriminate He. Qed.
Lemma yields_null_binary op o1 o2 sr t i v :
  o1 = None ∨ o2 = None → ¬ yields (mkExpr (BinaryExpr op o1 o2) sr t i) v.
Proof.
  intros Ho (r & Hr & He & _). unfold eval_expr in Hr. simpl in Hr. unfold eval_binary_expr in Hr.
  assert (Hm : (mret (make_error "BinaryExpr has null operand") : eff W EvalResult) w ⇓ (r, w))
    by (destruct o1, o2; [by destruct Ho|done..]).
  injection Hm as <-. discriminate He.
Qed.

Lemma yields_literal e b v :
  is_bool_literal (Some e) b = true → yields e v ↔ v = BoolValue b.
Proof.
  destruct e as [[] ? ? ?]; simpl; try done. intros ->%bool_decide_eq_true. split.
  - intros (r & Hr & _ & <-). unfold eval_expr in Hr. by injection Hr as <-.
  - intros ->. by eexists.
Qed.
End Yields.

(** ** Refinement *)
Section Refines.
Context {W : Type} (ctx : EvalContext) (w : W).

(** The new expression has every value the old one has. *)
Definition refines (o o' : ExprRef) : Prop :=
  ∀ e v, o = Some e → yields ctx w e v → ∃ e', o' = Some e' ∧ yields ctx w e' v.

Lemma refines_refl o : refines o o.
Proof. intros e v -> Hv. by exists e. Qed.

Lemma refines_unary op o o' sr t i :
  refines o o' →
  refines (Some (mkExpr (UnaryExpr op o) sr t i)) (Some (mkExpr (UnaryExpr op o') sr t i)).
Proof.
  intros Ho e v [= <-] Hv. eexists. split; [done|]. destruct o as [e|];
    [|by apply yields_null_unary in Hv].
  apply yields_unary in Hv as (v0 & x & H0 & Hx). destruct (Ho e v0 eq_refl H0) as (e' & -> & H').
  apply yields_unary. by exists v0, x.
Qed.

Lemma refines_binary op l l' r r' sr t i :
  refines l l' → refines r r' →
  refines (Some (mkExpr (BinaryExpr op l r) sr t i)) (Some (mkExpr (BinaryExpr op l' r') sr t i)).
Proof.
  intros Hl Hr e v [= <-] Hv. eexists. split; [done|].
  destruct l as [el|]; [|apply yields_null_binary in Hv; [done|by left]].
  destruct r as [er|]; [|apply yields_null_binary in Hv; [done|by right]].
  apply yields_binary in Hv as (v1 & v2 & x & H1 & H2 & Hx).
  destruct (Hl el v1 eq_refl H1) as (el' & -> & H1').
  destruct (Hr er v2 eq_refl H2) as (er' & -> & H2').
  apply yields_binary. by exists v1, v2, x.
Qed.

Lemma refines_trans o1 o2 o3 : refines o1 o2 → refines o2 o3 → refines o1 o3.
Proof. intros H12 H23 e v He Hv. destruct (H12 e v He Hv) as (e' & He' & Hv'). eauto. Qed.

Lemma refines_not inner sr t i sr' t' i' :
  refines (Some (mkExpr (UnaryExpr ExprUnaryOp.Not
             (Some (mkExpr (UnaryExpr ExprUnaryOp.Not inner) sr' t' i'))) sr t i)) inner.
Proof.
  intros e v [= <-] Hv. apply yields_unary in Hv as (v1 & x1 & H1 & Hx1 & He1 & Hv1).
  destruct inner as [e|]; [|by apply yields_null_unary in H1].
  apply yields_unary in H1 as (v0 & x0 & H0 & Hx0 & He0 & Hv0).
  exists e. split; [done|]. simpl in Hx0, Hx1.
  destruct v0; try (injection Hx0 as <-; discriminate He0). injection Hx0 as <-. simpl in Hv0.
  subst v1. simpl in Hx1. injection Hx1 as <-. simpl in Hv1. subst v. by rewrite negb_involutive.
Qed.

(** [and] and [or] with a literal; [u] is the neutral one. *)
Definition logical (u : bool) : ExprBinaryOp.t := if u then ExprBinaryOp.And else ExprBinaryOp.Or.

Lemma yields_logical u e1 e2 sr t i v :
  yields ctx w (mkExpr (BinaryExpr (logical u) (Some e1) (Some e2)) sr t i) v →
  ∃ b1 b2, yields ctx w e1 (BoolValue b1) ∧ yields ctx w e2 (BoolValue b2) ∧
    v = BoolValue (if u then b1 && b2 else b1 || b2).
Proof.
  intros (v1 & v2 & x & H1 & H2 & Hx & He & Hv)%yields_binary.
  destruct u; simpl in Hx; destruct v1; try (injection Hx as <-; discriminate He);
    destruct v2; try (injection Hx as <-; discriminate He);
    injection Hx as <-; simpl in Hv; eauto 6.
Qed.

Lemma refines_fold u l r m sr t i :
  let e := Some (mkExpr (BinaryExpr (logical u) l r) sr t i) in
  refines e (fold_literals u l r m e).1.
Proof.
  intros e. unfold fold_literals.
  destruct l as [l|], r as [r|];
    try (intros e0 v [= <-] Hv; exfalso; revert Hv; apply yields_null_binary; by auto).
  destruct (is_bool_literal (Some l) u) eqn:E1;
    [|destruct (is_bool_literal (Some r) u) eqn:E2;
      [|destruct (is_bool_literal (Some l) (negb u)) eqn:E3;
        [|destruct (is_bool_literal (Some r) (negb u)) eqn:E4; [|apply refines_refl]]]];
    intros e0 v [= <-] (b1 & b2 & H1 & H2 & ->)%yields_logical; eexists; (split; [reflexivity|]).
  - apply (yields_literal ctx w _ _ _ E1) in H1 as [= ->]. by destruct u.
  - apply (yields_literal ctx w _ _ _ E2) in H2 as [= ->]. by destruct u, b1.
  - pose proof H1 as H1'. apply (yields_literal ctx w _ _ _ E3) in H1' as [= ->]. by destruct u.
  - pose proof H2 as H2'. apply (yields_literal ctx w _ _ _ E4) in H2' as [= ->]. by destruct u, b1.
Qed.
End Refines.

(** ** Canonical forms *)
Definition is_not (o : ExprRef) : bool :=
  match o with Some (mkExpr (UnaryExpr ExprUnaryOp.Not _) _ _ _) => true | _ => false end.
Definition is_literal (o : ExprRef) : bool := is_bool_literal o true || is_bool_literal o false.
Definition logical_op (op : ExprBinaryOp.t) : bool :=
  match op with ExprBinaryOp.And | ExprBinaryOp.Or => true | _ => false end.
Fixpoint canonical (e : Expr) : bool :=
  let canon := λ o, match o with Some e => canonical e | None => true end in
  match e with
  | mkExpr n _ _ _ =>
      match n with
      | UnaryExpr op o =>
          canon o && (negb (bool_decide (op = ExprUnaryOp.Not)) ||
                      bool_decide (o ≠ None) && negb (is_not o))
      | BinaryExpr op l r =>
          canon l && canon r && negb (logical_op op && (is_literal l || is_literal r))
      | _ => true
      end
  end.
Definition canonical_ref (o : ExprRef) : bool := match o with Some e => canonical e | None => true end.

Lemma canonical_unary op o sr t i :
  canonical_ref (Some (mkExpr (UnaryExpr op o) sr t i)) =
  canonical_ref o && (negb (bool_decide (op = ExprUnaryOp.Not)) ||
                      bool_decide (o ≠ None) && negb (is_not o)).
Proof. done. Qed.
Lemma canonical_binary op l r sr t i :
  canonical_ref (Some (mkExpr (BinaryExpr op l r) sr t i)) =
  canonical_ref l && canonical_ref r && negb (logical_op op && (is_literal l || is_literal r)).
Proof. done. Qed.

Lemma canonical_unchanged e : canonical e = true → canonicalize e ⇓ (Some e, false).
Proof.
  induction e as [[n sr t i] IH] using expr_induction. simpl in IH.
  assert (Hc : ∀ o, Forall (λ e, canonical e = true → canonicalize e ⇓ (Some e, false)) (option_list o) →
    canonical_ref o = true → canonicalize_expr o ⇓ (o, false)).
  { intros [e|] Ho He; [|done]. by apply (Forall_inv Ho). }
  destruct n as [| | | | | | | | | | | | | | |op o|op l r| |]; try done; simpl in *.
  - intros [Ho Hn]%andb_true_iff. specialize (Hc o IH Ho).
    change (match o with Some e => canonicalize e | None => Ret (None, false) end)
      with (canonicalize_expr o). rewrite Hc. simpl.
    destruct (bool_decide (op = ExprUnaryOp.Not)); [|done]. simpl in Hn.
    apply andb_true_iff in Hn as [Hs Hn]. apply bool_decide_eq_true in Hs.
    destruct o as [[[] ? ? ?]|]; try done. simpl in Hn. by destruct op0.
  - intros [[Hl Hr]%andb_true_iff Hn]%andb_true_iff. apply Forall_app in IH as [IHl IHr].
    change (match l with Some e => canonicalize e | None => Ret (None, false) end)
      with (canonicalize_expr l).
    change (match r with Some e => canonicalize e | None => Ret (None, false) end)
      with (canonicalize_expr r).
    rewrite (Hc l IHl Hl), (Hc r IHr Hr). simpl.
    assert (Hf : logical_op op = true →
      (is_bool_literal l true = false ∧ is_bool_literal l false = false) ∧
      (is_bool_literal r true = false ∧ is_bool_literal r false = false)).
    { intros Ho. rewrite Ho in Hn. apply negb_true_iff, orb_false_iff in Hn as [H1 H2].
      split; by apply orb_false_iff. }
    unfold fold_literals. destruct op; try done; cbn [negb logical_op] in *;
      destruct (Hf eq_refl) as [[-> ->] [-> ->]]; done.
Qed.

Record canonicalized (o o' : ExprRef) : Prop := {
  cn_refines : ∀ W ctx (w : W), refines ctx w o o';
  cn_canonical : canonical_ref o' = true }.

Lemma canonicalized_fold (u : bool) o l r m sr t i :
  (∀ W ctx (w : W), refines ctx w o (Some (mkExpr (BinaryExpr (logical u) l r) sr t i))) →
  canonical_ref l = true → canonical_ref r = true →
  canonicalized o (fold_literals u l r m (Some (mkExpr (BinaryExpr (logical u) l r) sr t i))).1.
Proof.
  intros Ho Hl Hr. split.
  - intros W ctx w. eapply refines_trans; [apply Ho|]. apply refines_fold.
  - unfold fold_literals.
    destruct (is_bool_literal l u) eqn:E1; [done|]. destruct (is_bool_literal r u) eqn:E2; [done|].
    destruct (is_bool_literal l (negb u)) eqn:E3; [done|].
    destruct (is_bool_literal r (negb u)) eqn:E4; [done|].
    cbn [fst]. rewrite canonical_binary, Hl, Hr. unfold is_literal.
    destruct u; cbn [negb] in *; by rewrite E1, E2, E3, E4.
Qed.

Lemma canonicalize_spec e o b : canonicalize e ⇓ (o, b) → canonicalized (Some e) o.
Proof.
  revert o b. induction e as [[n sr t i] IH] using expr_induction. intros o' b. simpl in IH.
  assert (Hc : ∀ o o1 b1, Forall (λ e, ∀ o b, canonicalize e ⇓ (o, b) → canonicalized (Some e) o)
      (option_list o) → canonicalize_expr o ⇓ (o1, b1) → canonicalized o o1).
  { intros [e|] o1 b1 Ho He; [by eapply (Forall_inv Ho)|]. injection He as <- <-.
    split; [|done]. intros W ctx w. apply refines_refl. }
  destruct n as [| | | | | | | | | | | | | | |op o|op l r| |];
    try (intros [= <- <-]; split; [intros W ctx w; apply refines_refl | done]); simpl in *.
  - change (match o with Some e => canonicalize e | None => Ret (None, false) end)
      with (canonicalize_expr o).
    intros ([o1 b1] & Ho & H)%cxx_bind_ret. simpl in H. destruct (Hc _ _ _ IH Ho) as [Hr Hn].
    assert (Hu : ∀ W ctx (w : W), refines ctx w (Some (mkExpr (UnaryExpr op o) sr t i))
                                      (Some (mkExpr (UnaryExpr op o1) sr t i))).
    { intros W ctx w. apply refines_unary, Hr. }
    destruct (bool_decide (op = ExprUnaryOp.Not)) eqn:Eop.
    + apply bool_decide_eq_true in Eop as ->. unfold canonicalize_not in H.
      destruct o1 as [[n1 sr1 t1 i1]|]; [|done].
      destruct (is_not (Some (mkExpr n1 sr1 t1 i1))) eqn:En.
      * destruct n1 as [| | | | | | | | | | | | | | |[] inner| | |]; try done.
        injection H as <- <-. split.
        { intros W ctx w. eapply refines_trans; [apply Hu | apply refines_not]. }
        simpl in Hn. by apply andb_true_iff in Hn as [Hn _].
      * assert (Hs : o' = Some (mkExpr (UnaryExpr ExprUnaryOp.Not (Some (mkExpr n1 sr1 t1 i1))) sr t i)).
        { destruct n1 as [| | | | | | | | | | | | | | |[] inner| | |]; try done; by injection H as <- <-. }
        subst o'. split; [apply Hu|]. by rewrite canonical_unary, Hn, En.
    + injection H as <- <-. split; [apply Hu|]. by rewrite canonical_unary, Hn, Eop.
  - apply Forall_app in IH as [IHl IHr].
    change (match l with Some e => canonicalize e | None => Ret (None, false) end)
      with (canonicalize_expr l).
    change (match r with Some e => canonicalize e | None => Ret (None, false) end)
      with (canonicalize_expr r).
    intros ([l1 b1] & Hl & ([r1 b2] & Hr & H)%cxx_bind_ret)%cxx_bind_ret. simpl in H.
    destruct (Hc _ _ _ IHl Hl) as [Hrl Hnl], (Hc _ _ _ IHr Hr) as [Hrr Hnr].
    assert (Hu : ∀ W ctx (w : W), refines ctx w (Some (mkExpr (BinaryExpr op l r) sr t i))
                                      (Some (mkExpr (BinaryExpr op l1 r1) sr t i))).
    { intros W ctx w. by apply refines_binary. }
    destruct (logical_op op) eqn:Eop.
    + destruct op; try done; injection H as H;
        [pose proof (canonicalized_fold false _ _ _ (b1 || b2) _ _ _ Hu Hnl Hnr) as Hf
        |pose proof (canonicalized_fold true _ _ _ (b1 || b2) _ _ _ Hu Hnl Hnr) as Hf];
        simpl in Hf; by rewrite H in Hf.
    + assert (Hs : o' = Some (mkExpr (BinaryExpr op l1 r1) sr t i)) by (destruct op; try discriminate Eop; by injection H as <- <-).
      subst o'. split; [apply Hu|]. by rewrite canonical_binary, Hnl, Hnr, Eop.
Qed.

(** C18: canonicalizing an expression keeps its value: in every context where
    the expression evaluates to a value, its canonical form evaluates to that
    value too.  The canonical form has no double negation and no boolean
    literal as an operand of [and] or [or], and a second run returns it
    unchanged.  (The converse does not hold: [false and p] has no value where
    [p] fails, its canonical form [false] has one.) *)
Theorem canonicalization_keeps_values {W} e o b ctx (w w' : W) r :
  canonicalize e ⇓ (o, b) →
  eval_expr e ctx w ⇓ (r, w') → has_errors r = false →
  ∃ e' r', o = Some e' ∧ canonicalize e' ⇓ (Some e', false) ∧
    eval_expr e' ctx w ⇓ (r', w') ∧ has_errors r' = false ∧ er_value r' = er_value r.
Proof.
  intros Hc He Hr. destruct (canonicalize_spec _ _ _ Hc) as [Href Hn].
  pose proof (eval_same_world _ _ _ _ _ He) as ->.
  destruct (Href W ctx w e (er_value r) eq_refl) as (e' & -> & r' & Hr' & He' & Hv);
    [by exists r|].
  exists e', r'. split; [done|]. split; [by apply canonical_unchanged | done].
Qed.

Definition padded : Expr :=
  bare (BinaryExpr ExprBinaryOp.And (Some (bare (BoolLiteralExpr true)))
    (Some (bare (UnaryExpr ExprUnaryOp.Not (Some (bare (UnaryExpr ExprUnaryOp.Not
      (Some (bare (BinaryExpr ExprBinaryOp.Equal (Some (bare (IntegerLiteralExpr "1")))
        (Some (bare (IntegerLiteralExpr "1"))))))))))))).
Lemma canonicalization_keeps_values_witness :
  ∃ e' r', canonicalize padded ⇓ (Some e', true) ∧
    eval_expr e' empty_context tt ⇓ (r', tt) ∧ er_value r' = BoolValue true.
Proof.
  destruct (canonicalization_keeps_values padded _ true empty_context tt tt
    (value_result (BoolValue true)) eq_refl) as (e' & r' & Ho & _ & Hr & _ & Hv);
    [vm_compute; reflexivity | reflexivity |].
  exists e', r'. split; [injection Ho as <-; reflexivity|]. split; [exact Hr | exact Hv].
Defined.
