(* ===== verification/SimplifyProps.v ===== *)
(** * Workflow simplification is correct

    The search computes the transitive dependencies; in an acyclic workflow the
    dependencies that are dropped are implied by the ones that are kept. *)
From S2P Require Import Prelude Ir Passes.
Open Scope nat_scope.

(** ** The dependency relation *)
Section Search.
Context (deps : gmap string (list string)).

Definition dep (x d : string) : Prop := d ∈ default [] (deps !! x).

(** The dependencies of [n] lie in the stack or were reached; those of a
    reached name, too. *)
Record exploring (n : string) (stack : list string) (reach : gset string) : Prop := {
  ex_sound : ∀ x, x ∈ stack ∨ x ∈ reach → tc dep n x;
  ex_start : ∀ d, dep n d → d ∈ stack ∨ d ∈ reach;
  ex_closed : ∀ x d, x ∈ reach → dep x d → d ∈ stack ∨ d ∈ reach }.

Lemma exploring_skip n x stack reach :
  x ∈ reach → exploring n (x :: stack) reach → exploring n stack reach.
Proof.
  intros Hx [H1 H2 H3].
  assert (Hmove : ∀ d, d ∈ x :: stack ∨ d ∈ reach → d ∈ stack ∨ d ∈ reach).
  { intros d [[->|Hd]%elem_of_cons|Hd]; auto. }
  split; [|by auto|by eauto]. intros d [Hd|Hd]; apply H1; [left; by right | by right].
Qed.

Lemma exploring_step n x stack reach :
  exploring n (x :: stack) reach →
  let reach' := {[x]} ∪ reach in
  exploring n (reverse (base.filter (λ d, d ∉ reach') (default [] (deps !! x))) ++ stack) reach'.
Proof.
  intros [H1 H2 H3] reach'.
  assert (Hx : tc dep n x) by (apply H1; left; left).
  assert (Hmove : ∀ d s, d ∈ x :: stack ∨ d ∈ reach → d ∈ s ++ stack ∨ d ∈ reach').
  { intros d s [[->|Hd]%elem_of_cons|Hd]; unfold reach'; [right; set_solver|left|right; set_solver].
    apply elem_of_app. by right. }
  split.
  - intros d [[Hd|Hd]%elem_of_app|[->%elem_of_singleton|Hd]%elem_of_union].
    + apply elem_of_reverse, list_elem_of_filter in Hd as [_ Hd]. eapply tc_r; [exact Hx|done].
    + apply H1. left. by right.
    + done.
    + apply H1. by right.
  - intros d Hd. by apply Hmove, H2.
  - intros y d [->%elem_of_singleton|Hy]%elem_of_union Hd; [|by apply Hmove; eapply H3].
    destruct (decide (d ∈ reach')) as [Hin|Hn]; [by right|]. left. apply elem_of_app. left.
    apply elem_of_reverse, list_elem_of_filter. by split.
Qed.

(** When the stack is empty all transitive dependencies were reached. *)
Lemma exploring_done n reach : exploring n [] reach → ∀ x, x ∈ reach ↔ tc dep n x.
Proof.
  intros [H1 H2 H3] x. split; [by auto|]. intros Hx.
  assert (Hs : ∀ d, d ∈ ([] : list string) ∨ d ∈ reach → d ∈ reach)
    by (intros d [Hd%elem_of_nil|]; done).
  assert (Hall : ∀ y z, tc dep y z → (∀ d, dep y d → d ∈ reach) → z ∈ reach).
  { intros y z' Hy. induction Hy as [y d Hd|y d z Hd _ IH]; intros Hdirect; [by auto|].
    apply IH. intros d' Hd'. eapply Hs, H3; [|exact Hd']. by apply Hdirect. }
  apply (Hall n x Hx). by auto.
Qed.

(** The work that is left: the lists of the names not reached. *)
Definition unexplored (reach : gset string) (l : list (string * list string)) : nat :=
  sum_list_with (λ p, if decide (p.1 ∈ reach) then 0 else length p.2) l.

Lemma unexplored_step x l reach :
  x ∉ reach → (x, default [] (deps !! x)) ∈ l ∨ deps !! x = None →
  unexplored ({[x]} ∪ reach) l + length (default [] (deps !! x)) ≤ unexplored reach l.
Proof.
  intros Hx Hl.
  assert (Hmono : ∀ l, unexplored ({[x]} ∪ reach) l ≤ unexplored reach l).
  { intros l'. induction l' as [|p l' IH]; simpl; [done|].
    destruct (decide (p.1 ∈ reach)) as [Hp|Hp].
    - rewrite decide_True by set_solver. lia.
    - destruct (decide (p.1 ∈ {[x]} ∪ reach)); lia. }
  destruct Hl as [Hl|Hl]; [|rewrite Hl; simpl; specialize (Hmono l); lia].
  induction l as [|p l IH]; [by apply elem_of_nil in Hl|]. simpl.
  apply elem_of_cons in Hl as [<-|Hl]; [|specialize (IH Hl)].
  - simpl. rewrite decide_True by set_solver. rewrite decide_False by done. specialize (Hmono l). lia.
  - destruct (decide (p.1 ∈ reach)) as [Hp|Hp].
    + rewrite decide_True by set_solver. lia.
    + destruct (decide (p.1 ∈ {[x]} ∪ reach)); lia.
Qed.

Lemma dependency_loop_spec fuel n l stack reach :
  exploring n stack reach →
  (∀ x, deps !! x ≠ None → (x, default [] (deps !! x)) ∈ l) →
  length stack + unexplored reach l ≤ fuel →
  ∃ R, dependency_loop fuel deps stack reach ⇓ R ∧ ∀ x, x ∈ R ↔ tc dep n x.
Proof.
  intros He Hl. revert stack reach He. induction fuel as [|fuel IH]; intros [|x stack] reach He Hf;
    simpl in *; try lia; try (exists reach; split; [done|by apply exploring_done]).
  destruct (bool_decide (x ∈ reach)) eqn:E.
  - apply bool_decide_eq_true in E. apply IH; [by eapply exploring_skip | lia].
  - apply bool_decide_eq_false in E. apply IH; [by apply exploring_step|].
    rewrite length_app, length_reverse.
    pose proof (length_filter (λ d, d ∉ {[x]} ∪ reach) (default [] (deps !! x))) as Hlen.
    assert (Hcase : (x, default [] (deps !! x)) ∈ l ∨ deps !! x = None).
    { destruct (deps !! x) eqn:Ed; [|by right]. left. specialize (Hl x). rewrite Ed in Hl. by apply Hl. }
    pose proof (unexplored_step x l reach E Hcase). lia.
Qed.
End Search.

(** ** The transitive dependencies of a workflow *)
Section Workflow.
Context (nodes : list WorkflowNode) (Hnd : NoDup (wn_name <$> nodes)).
Abbreviation deps := (direct_dependencies nodes).

Lemma direct_dependencies_snoc l n :
  direct_dependencies (l ++ [n]) = <[wn_name n := wn_after n]> (direct_dependencies l).
Proof. unfold direct_dependencies. by rewrite fold_left_app. Qed.

Lemma direct_dependencies_in l x ds :
  direct_dependencies l !! x = Some ds → ∃ n, n ∈ l ∧ wn_name n = x ∧ wn_after n = ds.
Proof.
  induction l as [|n l IH] using rev_ind; [done|]. rewrite direct_dependencies_snoc.
  intros [[<- <-]|[_ Hx]]%lookup_insert_Some.
  - exists n. split; [|done]. apply elem_of_app. right. left.
  - destruct (IH Hx) as (m & Hm & H). exists m. split; [|done]. apply elem_of_app. by left.
Qed.

Lemma direct_dependencies_elem n :
  n ∈ nodes → deps !! wn_name n = Some (wn_after n).
Proof.
  induction nodes as [|m l IH] using rev_ind; [by intros ?%elem_of_nil|].
  rewrite direct_dependencies_snoc. rewrite fmap_app in Hnd. simpl in Hnd.
  apply NoDup_app in Hnd as (Hl & Hm & _). intros [Hn| ->%list_elem_of_singleton]%elem_of_app.
  - rewrite lookup_insert_ne; [by apply IH|]. intros Heq. apply (Hm (wn_name n)).
    + by apply list_elem_of_fmap_2.
    + rewrite Heq. left.
  - by rewrite lookup_insert_eq.
Qed.

Lemma dep_elem n d : n ∈ nodes → dep deps (wn_name n) d ↔ d ∈ wn_after n.
Proof. intros Hn. unfold dep. by rewrite direct_dependencies_elem. Qed.

Lemma dependencies_from_spec n :
  n ∈ nodes →
  ∃ R, dependency_loop (dependency_fuel nodes n) deps (reverse (wn_after n)) ∅ ⇓ R ∧
    ∀ x, x ∈ R ↔ tc (dep deps) (wn_name n) x.
Proof.
  intros Hn. apply (dependency_loop_spec deps _ _ ((λ n, (wn_name n, wn_after n)) <$> nodes)).
  - split.
    + intros x [Hx|Hx]; [rewrite elem_of_reverse in Hx|set_solver]. apply tc_once. by apply (dep_elem n x Hn).
    + intros d Hd. left. apply elem_of_reverse. by apply (dep_elem n d Hn).
    + intros x d Hx. set_solver.
  - intros x Hx. destruct (deps !! x) as [ds|] eqn:Ed; [|done].
    apply direct_dependencies_in in Ed as (m & Hm & <- & <-). simpl.
    by apply (list_elem_of_fmap_2 (λ n, (wn_name n, wn_after n))).
  - rewrite length_reverse. unfold dependency_fuel, unexplored.
    assert (Hle : ∀ l, sum_list_with (λ p, if decide (p.1 ∈ (∅ : gset string)) then 0 else length p.2)
      ((λ n, (wn_name n, wn_after n)) <$> l) ≤ sum_list_with (λ n, length (wn_after n)) l).
    { intros l. induction l as [|m l IH]; [done|]. rewrite fmap_cons. cbn -[fmap]. case_decide; lia. }
    specialize (Hle nodes). lia.
Qed.

Lemma compute_spec :
  ∃ reachable, compute_transitive_reachable nodes ⇓ reachable ∧
    (∀ n x, n ∈ nodes → x ∈ default ∅ (reachable !! wn_name n) ↔ tc (dep deps) (wn_name n) x) ∧
    (∀ x, is_Some (reachable !! x) → x ∈ wn_name <$> nodes).
Proof.
  assert (Hgen : ∀ l1 l2 reachable, l1 ++ l2 = nodes →
    (∀ n x, n ∈ l1 → x ∈ default ∅ (reachable !! wn_name n) ↔ tc (dep deps) (wn_name n) x) →
    (∀ n, n ∈ l2 → reachable !! wn_name n = None) →
    (∀ x, is_Some (reachable !! x) → x ∈ wn_name <$> nodes) →
    ∃ r, fold_left (add_transitive nodes) l2 (Ret reachable) ⇓ r ∧
      (∀ n x, n ∈ nodes → x ∈ default ∅ (r !! wn_name n) ↔ tc (dep deps) (wn_name n) x) ∧
      (∀ x, is_Some (r !! x) → x ∈ wn_name <$> nodes)).
  { intros l1 l2. revert l1. induction l2 as [|m l2 IH]; intros l1 reachable Hl H1 H2 H3; cbn [fold_left].
    - rewrite app_nil_r in Hl. subst l1. by exists reachable.
    - assert (Hm : m ∈ nodes) by (rewrite <- Hl; apply elem_of_app; right; left).
      destruct (dependencies_from_spec m Hm) as (R & Hrun & HR).
      assert (Hs : add_transitive nodes (Ret reachable) m = Ret (<[wn_name m := R]> reachable)).
      { unfold add_transitive. simpl. rewrite H2 by left. simpl. by rewrite Hrun. }
      rewrite Hs.
      assert (Hdiff : ∀ n, n ∈ l1 ++ l2 → wn_name n ≠ wn_name m).
      { intros n Hn Heq. rewrite <- Hl in Hnd. rewrite <- Permutation_middle in Hnd. simpl in Hnd.
        apply NoDup_cons in Hnd as [Hnm _]. apply Hnm. rewrite <- Heq. by apply list_elem_of_fmap_2. }
      apply (IH (l1 ++ [m])).
      + by rewrite <- app_assoc.
      + intros n x [Hn| ->%list_elem_of_singleton]%elem_of_app.
        * rewrite lookup_insert_ne; [by apply H1|]. symmetry. apply Hdiff, elem_of_app. by left.
        * rewrite lookup_insert_eq. apply HR.
      + intros n Hn. rewrite lookup_insert_ne; [apply H2; by right|]. symmetry.
        apply Hdiff, elem_of_app. by right.
      + intros x. destruct (decide (wn_name m = x)) as [<-|Hne].
        * intros _. by apply list_elem_of_fmap_2.
        * rewrite lookup_insert_ne by done. apply H3. }
  apply (Hgen []); [done|by intros n x ?%elem_of_nil| |].
  - intros n _. apply lookup_empty.
  - intros x. rewrite lookup_empty. by intros [].
Qed.
End Workflow.

(** ** The reduced dependencies *)
(** An order of names in which dependencies come first. *)
Definition respects (nodes : list WorkflowNode) (order : list string) : Prop :=
  ∀ i n d, n ∈ nodes → order !! i = Some (wn_name n) → d ∈ wn_after n →
  ∃ j, j < i ∧ order !! j = Some d.

(** [order]: some order of all the names that respects the dependencies. *)
Section Acyclic.
Context (nodes : list WorkflowNode) (order : list string).
Context (Hnd : NoDup (wn_name <$> nodes)).
Context (Hperm : order ≡ₚ wn_name <$> nodes) (Hresp : respects nodes order).
Abbreviation R := (dep (direct_dependencies nodes)).

Definition rank (x : string) : nat := default 0 (fst <$> list_find (λ y, y = x) order).

Lemma rank_lookup i x : order !! i = Some x → rank x = i.
Proof.
  intros Hi. unfold rank.
  destruct (list_find_elem_of (λ y, y = x) order x) as [[j y] Hj];
    [by eapply list_elem_of_lookup_2|done|].
  rewrite Hj. simpl. apply list_find_Some in Hj as (Hj & -> & _).
  eapply NoDup_lookup; [|done..]. by rewrite Hperm.
Qed.

Lemma dep_node x d : R x d → ∃ n, n ∈ nodes ∧ wn_name n = x ∧ d ∈ wn_after n.
Proof.
  unfold dep. destruct (direct_dependencies nodes !! x) as [ds|] eqn:E; [|by intros ?%elem_of_nil].
  apply direct_dependencies_in in E as (n & Hn & <- & <-). eauto.
Qed.

Lemma dep_rank x d : R x d → rank d < rank x.
Proof.
  intros (n & Hn & <- & Hd)%dep_node.
  assert (Hin : wn_name n ∈ order) by (rewrite Hperm; by apply list_elem_of_fmap_2).
  apply list_elem_of_lookup in Hin as [i Hi]. destruct (Hresp i n d Hn Hi Hd) as (j & Hj & Hd').
  rewrite (rank_lookup _ _ Hi), (rank_lookup _ _ Hd'). done.
Qed.
Lemma tc_rank x d : tc R x d → rank d < rank x.
Proof. induction 1 as [x d H|x y d H _ IH]; [by apply dep_rank|]. apply dep_rank in H. lia. Qed.

Context (reachable : gmap string (gset string)).
Context (Hreach : ∀ n x, n ∈ nodes →
  x ∈ default ∅ (reachable !! wn_name n) ↔ tc R (wn_name n) x).

(** Outside the workflow nothing is recorded. *)
Context (Hdom : ∀ x, is_Some (reachable !! x) → x ∈ wn_name <$> nodes).

Lemma reach_tc o d : d ∈ default ∅ (reachable !! o) ↔ tc R o d.
Proof.
  destruct (decide (o ∈ wn_name <$> nodes)) as [Ho|Ho].
  - apply list_elem_of_fmap in Ho as (n & -> & Hn). by apply Hreach.
  - split.
    + destruct (reachable !! o) eqn:E; [|simpl; set_solver]. destruct Ho. by apply Hdom.
    + intros Htc. destruct Ho. assert (∃ y, R o y) as [y Hy] by (destruct Htc; eauto).
      apply dep_node in Hy as (n & Hn & <- & _). by apply list_elem_of_fmap_2.
Qed.

Lemma redundant_spec after d :
  redundant reachable after d = true ↔ ∃ o, o ∈ after ∧ o ≠ d ∧ tc R o d.
Proof.
  unfold redundant. rewrite existsb_exists. split.
  - intros (o & Ho & [H1 H2]%andb_true_iff). exists o. rewrite list_elem_of_In. split; [done|].
    apply negb_true_iff, bool_decide_eq_false in H1. apply bool_decide_eq_true, reach_tc in H2. done.
  - intros (o & Ho & H1 & H2). exists o. rewrite <- list_elem_of_In. split; [done|].
    apply andb_true_iff. split; [by apply negb_true_iff, bool_decide_eq_false|].
    by apply bool_decide_eq_true, reach_tc.
Qed.

Lemma elem_of_reduce after d :
  d ∈ reduce_after reachable after ↔ d ∈ after ∧ ¬ ∃ o, o ∈ after ∧ o ≠ d ∧ tc R o d.
Proof.
  unfold reduce_after. rewrite list_elem_of_filter, <- redundant_spec, not_true_iff_false. tauto.
Qed.

(** Every dependency is kept or implied by one that is kept. *)
Lemma kept_or_implied after d :
  d ∈ after → ∃ k, k ∈ reduce_after reachable after ∧ (k = d ∨ tc R k d).
Proof.
  (* descend in [m - rank d], for a bound m of the ranks *)
  assert (Hbound : ∃ m, ∀ x, x ∈ after → rank x < m).
  { clear. induction after as [|y l [m IH]]; [exists 0; by intros x ?%elem_of_nil|].
    exists (S (rank y `max` m)). intros x [->|Hx]%elem_of_cons; [lia|]. specialize (IH x Hx). lia. }
  destruct Hbound as [m Hm]. remember (m - rank d) as k eqn:Hk. revert d Hk.
  induction (lt_wf k) as [k _ IH]. intros d -> Hd.
  destruct (redundant reachable after d) eqn:E.
  - apply redundant_spec in E as (o & Ho & Hne & Htc). pose proof (tc_rank _ _ Htc) as Hr.
    pose proof (Hm o Ho). destruct (IH (m - rank o)) with (d := o) as (k & Hk & Hkd); [lia|done|done|].
    exists k. split; [done|]. right. destruct Hkd as [->|Hkd]; [done|]. by etrans.
  - exists d. split; [|by left]. apply elem_of_reduce. split; [done|].
    rewrite <- redundant_spec. by rewrite E.
Qed.

(** An order that respects the kept dependencies respects all of them. *)
Lemma respects_implied (order' : list string) :
  (∀ i n d, n ∈ nodes → order' !! i = Some (wn_name n) →
     d ∈ reduce_after reachable (wn_after n) → ∃ j, j < i ∧ order' !! j = Some d) →
  ∀ i x d, order' !! i = Some x → tc R x d → ∃ j, j < i ∧ order' !! j = Some d.
Proof.
  intros Hkept.
  assert (Hgen : ∀ k i x d, rank x = k → order' !! i = Some x → tc R x d →
    ∃ j, j < i ∧ order' !! j = Some d).
  { intros k. induction (lt_wf k) as [k _ IH]. intros i x d Hk Hi Htc.
    assert (Hdirect : ∀ d, R x d → ∃ j, j < i ∧ order' !! j = Some d).
    { intros d' Hd'. pose proof Hd' as (n & Hn & <- & Hin)%dep_node.
      destruct (kept_or_implied _ _ Hin) as (y & Hy & Hyd).
      destruct (Hkept i n y Hn Hi Hy) as (j & Hj & Hyj).
      destruct Hyd as [->|Hyd]; [by eauto|].
      assert (Hxy : R (wn_name n) y) 
        by (apply dep_elem; [done..|]; by destruct (proj1 (elem_of_reduce _ _) Hy)).
      destruct (IH (rank y)) with (i := j) (x := y) (d := d') as (j' & Hj' & Hd'j); try done;
        [rewrite <- Hk; by apply dep_rank|]. exists j'. split; [lia|done]. }
    destruct Htc as [x d Hd|x y d Hd Htc]; [by apply Hdirect|].
    destruct (Hdirect y Hd) as (j & Hj & Hy).
    destruct (IH (rank y)) with (i := j) (x := y) (d := d) as (j' & Hj' & Hdj); try done;
      [rewrite <- Hk; by apply dep_rank|]. exists j'. split; [lia|done]. }
  intros i x d. by apply (Hgen (rank x)).
Qed.
End Acyclic.

(** ** The pass *)
Lemma map_modified_pure {A} (f : A → A * bool) l :
  map_modified (λ x, Ret (f x)) l ⇓ (fst ∘ f <$> l, existsb (snd ∘ f) l).
Proof. induction l as [|x l IH]; simpl; [done|]. by rewrite IH. Qed.

Lemma reduce_after_single reachable after :
  length after < 2 → reduce_after reachable after = after.
Proof.
  intros Hl. destruct after as [|d [|? ?]]; [done| |simpl in Hl; lia].
  unfold reduce_after. rewrite filter_cons, decide_True; [done|]. unfold redundant. simpl.
  by rewrite bool_decide_true.
Qed.

(** In every case the node gets its reduced dependencies. *)
Lemma simplify_node_spec reachable n :
  (simplify_node reachable n).1 =
    mkWorkflowNode (wn_name n) (wn_input n) (reduce_after reachable (wn_after n))
      (wn_target_ref n) (wn_source_range n) ∧
  ((simplify_node reachable n).2 = false → (simplify_node reachable n).1 = n).
Proof.
  unfold simplify_node. destruct (bool_decide (_ < 2)) eqn:E.
  - apply bool_decide_eq_true in E. rewrite reduce_after_single by done. by destruct n.
  - destruct (bool_decide (length (reduce_after _ _) < _)) eqn:E'; simpl; [done|].
    apply bool_decide_eq_false in E'. split; [|done]. unfold reduce_after in *.
    pose proof (length_filter (λ d, redundant reachable (wn_after n) d = false) (wn_after n)).
    rewrite filter_all; [by destruct n|]. refine (filter_length_eq _ _ _). lia.
Qed.

Lemma simplify_names reachable (l : list WorkflowNode) :
  wn_name <$> (fst ∘ simplify_node reachable <$> l) = wn_name <$> l.
Proof.
  rewrite <- list_fmap_compose. apply list_fmap_ext. intros i n _. simpl.
  by rewrite (proj1 (simplify_node_spec reachable n)).
Qed.

Lemma simplify_after reachable (l : list WorkflowNode) n' :
  n' ∈ (fst ∘ simplify_node reachable) <$> l ↔
  ∃ n, n ∈ l ∧ n' = mkWorkflowNode (wn_name n) (wn_input n) (reduce_after reachable (wn_after n))
                      (wn_target_ref n) (wn_source_range n).
Proof.
  rewrite list_elem_of_fmap. split; intros (n & H1 & H2); exists n.
  - split; [done|]. by rewrite H1, <- (proj1 (simplify_node_spec reachable n)).
  - split; [|done]. rewrite H2. symmetry. apply simplify_node_spec.
Qed.

Lemma small_respects w order' :
  (∃ order, order ≡ₚ wn_name <$> wf_nodes w ∧ respects (wf_nodes w) order) →
  length (wf_nodes w) < 2 → respects (wf_nodes w) order'.
Proof.
  intros (order & Hperm & Hr) Hl i n d Hn Hi Hd. exfalso.
  destruct (wf_nodes w) as [|m [|? ?]]; [by apply elem_of_nil in Hn| |simpl in Hl; lia].
  apply list_elem_of_singleton in Hn as ->. simpl in Hperm.
  apply Permutation_singleton_r in Hperm as ->.
  destruct (Hr 0 m d) as (j & Hj & _); [left|done|done|lia].
Qed.

(** Simplifying an acyclic workflow (distinct names, and some order of the
    nodes respects the dependencies, as the validator guarantees) only drops
    dependencies, reports whether it dropped any, and changes nothing else in a
    node; exactly the same orders of execution respect the dependencies before
    and after; and no dependency that is left is implied by another one. *)
Theorem workflow_simplification_keeps_orders w
    (Hnd : NoDup (wn_name <$> wf_nodes w))
    (Hacyclic : ∃ order, order ≡ₚ wn_name <$> wf_nodes w ∧ respects (wf_nodes w) order) :
  ∃ w' b, simplify_workflow w ⇓ (w', b) ∧
    (b = false → w' = w) ∧
    Forall2 (λ n n', wn_name n' = wn_name n ∧ wn_target_ref n' = wn_target_ref n ∧
               wn_input n' = wn_input n ∧ wn_after n' `sublist_of` wn_after n)
      (wf_nodes w) (wf_nodes w') ∧
    (∀ order', respects (wf_nodes w) order' ↔ respects (wf_nodes w') order') ∧
    (2 ≤ length (wf_nodes w) → ∀ n' o d, n' ∈ wf_nodes w' → o ∈ wn_after n' → d ∈ wn_after n' →
       o ≠ d → ¬ tc (dep (direct_dependencies (wf_nodes w))) o d).
Proof.
  unfold simplify_workflow. destruct (bool_decide (length _ < 2)) eqn:Esmall.
  { apply bool_decide_eq_true in Esmall. exists w, false. split; [done|]. split; [done|].
    split; [|split; [done|lia]]. apply Forall2_same_length_lookup_2; [done|]. naive_solver. }
  destruct (compute_spec (wf_nodes w) Hnd) as (reachable & -> & Hreach & Hdom). simpl.
  rewrite map_modified_pure. simpl. eexists _, _. split; [reflexivity|].
  destruct Hacyclic as (order & Hperm & Hresp). split; [|split; [|split]].
  - intros Hb. destruct w as [wp wn ns ? ? ? ? ? ?]. simpl in *. f_equal.
    rewrite <- (list_fmap_id ns) at 2. apply list_fmap_ext. intros i n Hn. simpl.
    apply simplify_node_spec. apply not_true_iff_false. intros Ht.
    apply not_true_iff_false in Hb. apply Hb, existsb_exists. exists n.
    split; [|done]. by apply list_elem_of_In, (list_elem_of_lookup_2 _ i).
  - apply Forall2_fmap_r, Forall_Forall2_diag, Forall_forall. intros n _. simpl.
    rewrite (proj1 (simplify_node_spec reachable n)). simpl.
    do 3 (split; [done|]). apply sublist_filter.
  - intros order'. split.
    + intros Ho i n' d Hn' Hi Hd. apply simplify_after in Hn' as (n & Hn & ->). simpl in *.
      apply (Ho i n d Hn Hi). by apply list_elem_of_filter in Hd as [_ ?].
    + intros Ho i n d Hn Hi Hd.
      apply (respects_implied _ _ Hnd Hperm Hresp _ Hreach Hdom order') with (x := wn_name n);
        [|done|by apply tc_once, dep_elem].
      intros i' m d' Hm Hi' Hd'.
      apply (Ho i' (mkWorkflowNode (wn_name m) (wn_input m) (reduce_after reachable (wn_after m))
                      (wn_target_ref m) (wn_source_range m)) d'); [|done..].
      apply simplify_after. by exists m.
  - intros _ n' o d Hn' Ho Hd Hne Htc. apply simplify_after in Hn' as (n & Hn & ->). simpl in *.
    
    apply (elem_of_reduce _ _ Hnd Hperm Hresp reachable Hreach Hdom) in Hd as [_ Hd].
    apply Hd. exists o. split; [|done].
    by apply (elem_of_reduce _ _ Hnd Hperm Hresp reachable Hreach Hdom) in Ho as [? _].
Qed.

(** ** Concrete workflows *)
Definition sample_node (n : string) (after : list string) : WorkflowNode :=
  mkWorkflowNode n None after (mkSymbolRef SymbolRefKind.Agent "agent" "agent" "" None) None.
Definition sample_workflow (nodes : list WorkflowNode) : WorkflowDecl :=
  mkWorkflowDecl (mkProvenance "" "" None 0%Z) "w" nodes [] [] None default_type_ref default_type_ref
    (mkSymbolRef SymbolRefKind.Workflow "w" "w" "" None).
Definition triangle : WorkflowDecl :=
  sample_workflow [sample_node "a" []; sample_node "b" ["a"]; sample_node "c" ["a"; "b"]].

Lemma triangle_acyclic :
  NoDup (wn_name <$> wf_nodes triangle) ∧
  ∃ order, order ≡ₚ wn_name <$> wf_nodes triangle ∧ respects (wf_nodes triangle) order.
Proof.
  split; [by apply (bool_decide_unpack (NoDup ["a"; "b"; "c"]))|].
  exists ["a"; "b"; "c"]. split; [done|]. intros i n d Hn Hi Hd. simpl in Hn.
  rewrite !elem_of_cons, elem_of_nil in Hn. destruct Hn as [->|[->|[->|[]]]]; simpl in *.
  - by apply elem_of_nil in Hd.
  - apply list_elem_of_singleton in Hd as ->. destruct i as [|i]; [done|]. exists 0. split; [lia|done].
  - destruct i as [|[|i]]; [done..|].
    rewrite !elem_of_cons, elem_of_nil in Hd. destruct Hd as [->|[->|[]]].
    + exists 0. split; [lia|done].
    + exists 1. split; [lia|done].
Qed.
Lemma workflow_simplification_keeps_orders_witness :
  ∃ w', simplify_workflow triangle ⇓ (w', true) ∧ wn_after <$> wf_nodes w' = [[]; ["a"]; ["b"]] ∧
    ∀ order', respects (wf_nodes triangle) order' ↔ respects (wf_nodes w') order'.
Proof.
  destruct (workflow_simplification_keeps_orders triangle (proj1 triangle_acyclic)
    (proj2 triangle_acyclic)) as (w' & b & Hs & _ & _ & Ho & _).
  exists w'. split; [|split; [|exact Ho]]; vm_compute in Hs; injection Hs as <- <-; reflexivity.
Defined.

(** Without acyclicity the pass is wrong: here every dependency of [b] is
    implied by another one, and the cycle through [b] disappears.  (The
    validator rejects such workflows before they are lowered.) *)
Example cyclic_workflow_loses_its_cycle :
  ∃ w', simplify_workflow (sample_workflow
    [sample_node "b" ["c"; "d"]; sample_node "c" ["b"]; sample_node "d" ["c"]]) ⇓ (w', true) ∧
    wn_after <$> wf_nodes w' = [[]; ["b"]; ["c"]].
Proof. eexists. split; vm_compute; reflexivity. Qed.
