(* ===== verification/Json.v ===== *)
(** * JSON values (src/base/json/json_value.{hpp,cpp})

    The DOM node, its accessors and mutators, the recursive-descent parser and
    the serializer.  A node is the struct of the source with all its members,
    of which its [kind] selects one; a [unique_ptr] is an [option].  The
    parser's position is kept together with the text that is left.  Its
    recursion is bounded by fuel that the text's length supplies; the depth of
    the machine's stack is not modelled. *)
From S2P Require Import Prelude Numeric.
From Stdlib Require Import Ascii.
Open Scope nat_scope.

(** ** Nodes *)
Module JsonKind.
Inductive t := Null | Bool | Int | Float | String_ | Array | Object.
End JsonKind.
#[export] Instance json_kind_eq_dec : EqDecision JsonKind.t.
Proof. solve_decision. Defined.

Inductive JsonValue := mkJson {
  kind : JsonKind.t;
  begin_offset : nat;
  end_offset : nat;
  bool_val : bool;
  int_val : Z;
  float_val : double;
  string_val : string;
  array_items : list (option JsonValue);
  object_fields : list (string * option JsonValue) }.

Definition find_key {A} (key : string) (l : list (string * A)) : option A :=
  snd <$> head (base.filter (λ f, f.1 = key) l).
(** [get] and [get_mut]: the pointer found, null when there is none. *)
Definition get (v : JsonValue) (key : string) : option JsonValue :=
  if bool_decide (kind v = JsonKind.Object) then default None (find_key key (object_fields v))
  else None.
Definition as_string (v : JsonValue) : option string :=
  if bool_decide (kind v = JsonKind.String_) then Some (string_val v) else None.
Definition as_int (v : JsonValue) : option Z :=
  if bool_decide (kind v = JsonKind.Int) then Some (int_val v) else None.
Definition as_float (v : JsonValue) : option double :=
  if bool_decide (kind v = JsonKind.Float) then Some (float_val v)
  else if bool_decide (kind v = JsonKind.Int) then Some (d_of_Z (int_val v)) else None.
Definition as_bool (v : JsonValue) : option bool :=
  if bool_decide (kind v = JsonKind.Bool) then Some (bool_val v) else None.

Definition json_node (k : JsonKind.t) : JsonValue := mkJson k 0 0 false 0 d_zero "" [] [].
Definition json_null : JsonValue := json_node JsonKind.Null.
Definition json_bool (b : bool) : JsonValue := mkJson JsonKind.Bool 0 0 b 0 d_zero "" [] [].
Definition json_int (i : Z) : JsonValue := mkJson JsonKind.Int 0 0 false i d_zero "" [] [].
Definition json_float (d : double) : JsonValue := mkJson JsonKind.Float 0 0 false 0 d "" [] [].
Definition json_string (s : string) : JsonValue := mkJson JsonKind.String_ 0 0 false 0 d_zero s [] [].
Definition json_array : JsonValue := json_node JsonKind.Array.
Definition json_object : JsonValue := json_node JsonKind.Object.

Definition with_offsets (b e : nat) (v : JsonValue) : JsonValue :=
  mkJson (kind v) b e (bool_val v) (int_val v) (float_val v) (string_val v) (array_items v)
    (object_fields v).
Definition push (v : JsonValue) (item : option JsonValue) : JsonValue :=
  mkJson (kind v) (begin_offset v) (end_offset v) (bool_val v) (int_val v) (float_val v)
    (string_val v) (array_items v ++ [item]) (object_fields v).
(** Replace the first field with the key, or add one. *)
Fixpoint set_field {A} (key : string) (x : A) (l : list (string * A)) : list (string * A) :=
  match l with
  | [] => [(key, x)]
  | (k, y) :: l => if bool_decide (k = key) then (k, x) :: l else (k, y) :: set_field key x l
  end.
Definition set (v : JsonValue) (key : string) (x : option JsonValue) : JsonValue :=
  mkJson (kind v) (begin_offset v) (end_offset v) (bool_val v) (int_val v) (float_val v)
    (string_val v) (array_items v) (set_field key x (object_fields v)).

(** ** Characters *)
Definition chr (n : nat) : ascii := ascii_of_nat n.
Definition quote : ascii := chr 34.
Definition backslash : ascii := chr 92.
Definition is_digit (c : ascii) : bool := match digit_of c with Some _ => true | None => false end.
Definition is_json_space (c : ascii) : bool :=
  bool_decide (c = chr 32) || bool_decide (c = chr 9) || bool_decide (c = chr 10)
  || bool_decide (c = chr 13).
Definition is_control (c : ascii) : bool := bool_decide (nat_of_ascii c < 32).

(** ** The cursor *)
Record cursor := mkCursor { pos : nat; rest : string }.
Definition at_end (c : cursor) : bool := bool_decide (rest c = "").
(** At the end [peek] is the NUL character. *)
Definition peek (c : cursor) : ascii := match rest c with String a _ => a | EmptyString => chr 0 end.
Definition skip (n : nat) (c : cursor) : cursor :=
  mkCursor (pos c + n) (String.substring n (String.length (rest c) - n) (rest c)).
Definition next (c : cursor) : cursor :=
  match rest c with String _ r => mkCursor (S (pos c)) r | EmptyString => c end.
Definition consume (expected : ascii) (c : cursor) : option cursor :=
  match rest c with
  | String a r => if bool_decide (a = expected) then Some (mkCursor (S (pos c)) r) else None
  | EmptyString => None
  end.
Fixpoint skip_while (p : ascii → bool) (n : nat) (s : string) : cursor :=
  match s with
  | String a r => if p a then skip_while p (S n) r else mkCursor n s
  | EmptyString => mkCursor n s
  end.
Definition skip_whitespace (c : cursor) : cursor := skip_while is_json_space (pos c) (rest c).
Definition skip_digits (c : cursor) : cursor := skip_while is_digit (pos c) (rest c).
Definition starts_with (p : string) (c : cursor) : bool :=
  bool_decide (String.substring 0 (String.length p) (rest c) = p).
(** The text between two cursors. *)
Definition text_between (c c' : cursor) : string := String.substring 0 (pos c' - pos c) (rest c).

(** ** Scalars *)
Definition parse_null (c : cursor) : option (JsonValue * cursor) :=
  if starts_with "null" c
  then let c' := skip 4 c in Some (with_offsets (pos c) (pos c') json_null, c')
  else None.
Definition parse_bool (c : cursor) : option (JsonValue * cursor) :=
  if starts_with "true" c
  then let c' := skip 4 c in Some (with_offsets (pos c) (pos c') (json_bool true), c')
  else if starts_with "false" c
  then let c' := skip 5 c in Some (with_offsets (pos c) (pos c') (json_bool false), c')
  else None.

(** The parts of a number; the flag is [is_float]. *)
Definition parse_integer_part (c : cursor) : option cursor :=
  let c := if bool_decide (peek c = "-"%char) then next c else c in
  if at_end c || negb (is_digit (peek c)) then None
  else if bool_decide (peek c = "0"%char) then Some (next c)
  else Some (skip_digits c).
Definition parse_fraction (c : cursor) : option (bool * cursor) :=
  if negb (at_end c) && bool_decide (peek c = "."%char) then
    let c := next c in
    if at_end c || negb (is_digit (peek c)) then None else Some (true, skip_digits c)
  else Some (false, c).
Definition parse_exponent (c : cursor) : option (bool * cursor) :=
  if negb (at_end c) && (bool_decide (peek c = "e"%char) || bool_decide (peek c = "E"%char)) then
    let c := next c in
    let c := if negb (at_end c) && (bool_decide (peek c = "+"%char) || bool_decide (peek c = "-"%char))
             then next c else c in
    if at_end c || negb (is_digit (peek c)) then None else Some (true, skip_digits c)
  else Some (false, c).
Definition float_node (text : string) (b e : nat) : option JsonValue :=
  d ← stream_double text; Some (with_offsets b e (json_float d)).
Definition parse_number (start : cursor) : option (JsonValue * cursor) :=
  c ← parse_integer_part start;
  '(is_float1, c) ← parse_fraction c;
  '(is_float2, c) ← parse_exponent c;
  let text := text_between start c in
  let as_float := v ← float_node text (pos start) (pos c); Some (v, c) in
  if (is_float1 : bool) || is_float2 then as_float
  else match from_chars_int64 text with
       | ConvOk (v, EmptyString) => Some (with_offsets (pos start) (pos c) (json_int v), c)
       | _ => as_float
       end.

(** ** Strings *)
Definition hex_digit_of (c : ascii) : option Z :=
  let n := char_code c in
  if ((48 <=? n) && (n <=? 57))%Z then Some (n - 48)%Z
  else if ((97 <=? n) && (n <=? 102))%Z then Some (n - 97 + 10)%Z
  else if ((65 <=? n) && (n <=? 70))%Z then Some (n - 65 + 10)%Z
  else None.
Fixpoint parse_hex (n : nat) (code : Z) (c : cursor) : option (Z * cursor) :=
  match n with
  | O => Some (code, c)
  | S n =>
      match hex_digit_of (peek c) with
      | Some d => parse_hex n (Z.lor (Z.shiftl code 4) d) (next c)
      | None => None
      end
  end.
Definition is_high_surrogate (code : Z) : bool := ((0xD800 <=? code) && (code <=? 0xDBFF))%Z.
Definition is_low_surrogate (code : Z) : bool := ((0xDC00 <=? code) && (code <=? 0xDFFF))%Z.
(** Four hexadecimal digits; after a high surrogate another escape, which
    recursively must be a low one. *)
Fixpoint parse_unicode_escape (fuel : nat) (c : cursor) : cxx (option (Z * cursor)) :=
  match fuel with
  | O => NoFuel
  | S fuel =>
      if bool_decide (String.length (rest c) < 4) then Ret None
      else match parse_hex 4 0 c with
      | None => Ret None
      | Some (code, c) =>
          if is_high_surrogate code then
            if bool_decide (String.length (rest c) < 6)
               || negb (bool_decide (peek c = backslash))
               || negb (bool_decide (peek (next c) = "u"%char)) then Ret None
            else
              low ← parse_unicode_escape fuel (next (next c));
              Ret (match low with
                   | Some (low, c) =>
                       if is_low_surrogate low
                       then Some (0x10000 + Z.shiftl (code - 0xD800) 10 + (low - 0xDC00), c)%Z
                       else None
                   | None => None
                   end)
          else Ret (Some (code, c))
      end
  end.
Definition byte (z : Z) : ascii := ascii_of_N (Z.to_N z).
Definition encode_utf8 (code : Z) (out : string) : string :=
  let cont z := String (byte (Z.lor 0x80 (Z.land z 0x3F))) EmptyString in
  if (code <=? 0x7F)%Z then out +:+ String (byte code) EmptyString
  else if (code <=? 0x7FF)%Z then
    out +:+ String (byte (Z.lor 0xC0 (Z.shiftr code 6))) (cont code)
  else if (code <=? 0xFFFF)%Z then
    out +:+ String (byte (Z.lor 0xE0 (Z.shiftr code 12))) (cont (Z.shiftr code 6) +:+ cont code)
  else if (code <=? 0x10FFFF)%Z then
    out +:+ String (byte (Z.lor 0xF0 (Z.shiftr code 18)))
      (cont (Z.shiftr code 12) +:+ cont (Z.shiftr code 6) +:+ cont code)
  else out.
(** The escapes of one character. *)
Definition unescape (c : ascii) : option ascii :=
  if bool_decide (c = quote) then Some quote
  else if bool_decide (c = backslash) then Some backslash
  else if bool_decide (c = "/"%char) then Some "/"%char
  else if bool_decide (c = "b"%char) then Some (chr 8)
  else if bool_decide (c = "f"%char) then Some (chr 12)
  else if bool_decide (c = "n"%char) then Some (chr 10)
  else if bool_decide (c = "r"%char) then Some (chr 13)
  else if bool_decide (c = "t"%char) then Some (chr 9)
  else None.
Definition snoc (s : string) (c : ascii) : string := s +:+ String c EmptyString.
(** The loop after the opening quote. *)
Fixpoint parse_string_loop (fuel : nat) (result : string) (c : cursor)
    : cxx (option (string * cursor)) :=
  match fuel with
  | O => NoFuel
  | S fuel =>
      if at_end c then Ret None
      else
        let ch := peek c in
        let c := next c in
        if bool_decide (ch = quote) then Ret (Some (result, c))
        else if bool_decide (ch = backslash) then
          if at_end c then Ret None
          else
            let esc := peek c in
            let c := next c in
            if bool_decide (esc = "u"%char) then
              code ← parse_unicode_escape (S (String.length (rest c))) c;
              match code with
              | Some (code, c) => parse_string_loop fuel (encode_utf8 code result) c
              | None => Ret None
              end
            else match unescape esc with
                 | Some x => parse_string_loop fuel (snoc result x) c
                 | None => Ret None
                 end
        else if is_control ch then Ret None
        else parse_string_loop fuel (snoc result ch) c
  end.
Definition parse_string (c : cursor) : cxx (option (string * cursor)) :=
  match consume quote c with
  | Some c => parse_string_loop (S (String.length (rest c))) "" c
  | None => Ret None
  end.
Definition parse_string_value (start : cursor) : cxx (option (JsonValue * cursor)) :=
  s ← parse_string start;
  Ret (match s with
       | Some (s, c) => Some (with_offsets (pos start) (pos c) (json_string s), c)
       | None => None
       end).

(** ** Values: arrays and objects recurse *)
Fixpoint parse_value (fuel : nat) (c : cursor) : cxx (option (JsonValue * cursor)) :=
  match fuel with
  | O => NoFuel
  | S fuel =>
      let c := skip_whitespace c in
      if at_end c then Ret None
      else
        let ch := peek c in
        if bool_decide (ch = quote) then parse_string_value c
        else if bool_decide (ch = "{"%char) then
          match consume "{"%char c with
          | None => Ret None
          | Some c' =>
              let c' := skip_whitespace c' in
              match consume "}"%char c' with
              | Some c' => Ret (Some (with_offsets (pos c) (pos c') json_object, c'))
              | None => parse_fields fuel (pos c) json_object c'
              end
          end
        else if bool_decide (ch = "["%char) then
          match consume "["%char c with
          | None => Ret None
          | Some c' =>
              let c' := skip_whitespace c' in
              match consume "]"%char c' with
              | Some c' => Ret (Some (with_offsets (pos c) (pos c') json_array, c'))
              | None => parse_items fuel (pos c) json_array c'
              end
          end
        else if bool_decide (ch = "t"%char) || bool_decide (ch = "f"%char) then Ret (parse_bool c)
        else if bool_decide (ch = "n"%char) then Ret (parse_null c)
        else if bool_decide (ch = "-"%char) || is_digit ch then Ret (parse_number c)
        else Ret None
  end
with parse_items (fuel : nat) (start : nat) (arr : JsonValue) (c : cursor)
    : cxx (option (JsonValue * cursor)) :=
  match fuel with
  | O => NoFuel
  | S fuel =>
      item ← parse_value fuel c;
      match item with
      | None => Ret None
      | Some (item, c) =>
          let arr := push arr (Some item) in
          let c := skip_whitespace c in
          match consume "]"%char c with
          | Some c => Ret (Some (with_offsets start (pos c) arr, c))
          | None =>
              match consume ","%char c with
              | Some c => parse_items fuel start arr c
              | None => Ret None
              end
          end
      end
  end
with parse_fields (fuel : nat) (start : nat) (obj : JsonValue) (c : cursor)
    : cxx (option (JsonValue * cursor)) :=
  match fuel with
  | O => NoFuel
  | S fuel =>
      key ← parse_string (skip_whitespace c);
      match key with
      | None => Ret None
      | Some (key, c) =>
          match consume ":"%char (skip_whitespace c) with
          | None => Ret None
          | Some c =>
              val ← parse_value fuel c;
              match val with
              | None => Ret None
              | Some (val, c) =>
                  if bool_decide (get obj key = None) then
                    let obj := set obj key (Some val) in
                    let c := skip_whitespace c in
                    match consume "}"%char c with
                    | Some c => Ret (Some (with_offsets start (pos c) obj, c))
                    | None =>
                        match consume ","%char c with
                        | Some c => parse_fields fuel start obj c
                        | None => Ret None
                        end
                    end
                  else Ret None
              end
          end
      end
  end.
(** Each call consumes a character for every two units of fuel. *)
Definition parse_fuel (s : string) : nat := S (2 * String.length s).
Definition parse_json (input : string) : cxx (option JsonValue) :=
  let c := skip_whitespace (mkCursor 0 input) in
  r ← parse_value (parse_fuel input) c;
  Ret (match r with
       | Some (v, c) => if at_end (skip_whitespace c) then Some v else None
       | None => None
       end).

(** ** Serialization *)
Definition hex_digit (n : Z) : ascii :=
  ascii_of_N (Z.to_N (if (n <? 10)%Z then 48 + n else 87 + n)%Z).
Definition backslashed (c : ascii) : string := String backslash (String c EmptyString).
Definition escape_char (c : ascii) : string :=
  if bool_decide (c = backslash) then backslashed backslash
  else if bool_decide (c = quote) then backslashed quote
  else if bool_decide (c = chr 8) then backslashed "b"%char
  else if bool_decide (c = chr 12) then backslashed "f"%char
  else if bool_decide (c = chr 10) then backslashed "n"%char
  else if bool_decide (c = chr 13) then backslashed "r"%char
  else if bool_decide (c = chr 9) then backslashed "t"%char
  else if is_control c then
    let b := char_code c in
    backslashed "u"%char +:+ "00" +:+
      String (hex_digit (Z.land (Z.shiftr b 4) 0x0F)) (String (hex_digit (Z.land b 0x0F)) EmptyString)
  else String c EmptyString.
(** Keys: only the backslash and the quote are escaped. *)
Definition escape_key_char (c : ascii) : string :=
  if bool_decide (c = backslash) then backslashed backslash
  else if bool_decide (c = quote) then backslashed quote
  else String c EmptyString.
Fixpoint escape (f : ascii → string) (s : string) : string :=
  match s with EmptyString => EmptyString | String c r => f c +:+ escape f r end.
Definition quoted (s : string) : string := String quote s +:+ String quote EmptyString.

Fixpoint separated (l : list string) : string :=
  match l with
  | [] => ""
  | [s] => s
  | s :: l => s +:+ "," +:+ separated l
  end.
(** A null child is dereferenced. *)
Fixpoint serialize_impl (v : JsonValue) : cxx string :=
  match v with
  | mkJson k _ _ b i d s items fields =>
      match k with
      | JsonKind.Null => Ret "null"
      | JsonKind.Bool => Ret (if b then "true" else "false")
      | JsonKind.Int => Ret (to_string i)
      | JsonKind.Float => Ret (d_to_chars d)
      | JsonKind.String_ => Ret (quoted (escape escape_char s))
      | JsonKind.Array =>
          l ← (fix go l := match l with
               | [] => Ret []
               | None :: _ => UB
               | Some v :: l => x ← serialize_impl v; xs ← go l; Ret (x :: xs)
               end) items;
          Ret ("[" +:+ separated l +:+ "]")
      | JsonKind.Object =>
          l ← (fix go l := match l with
               | [] => Ret []
               | (_, None) :: _ => UB
               | (key, Some v) :: l =>
                   x ← serialize_impl v; xs ← go l;
                   Ret ((quoted (escape escape_key_char key) +:+ ":" +:+ x) :: xs)
               end) fields;
          Ret ("{" +:+ separated l +:+ "}")
      end
  end.
Definition serialize_json (v : JsonValue) : cxx string := serialize_impl v.
