(* ===== verification/JsonProps.v ===== *)
(** * Properties of the JSON parser and serializer

    The parser terminates and what it returns is well-formed; serialized values
    parse to the same content; the serializer's output for some keys does not
    parse. *)
From S2P Require Import Prelude Numeric Json.
From Stdlib Require Import Ascii.
Open Scope nat_scope.

(** ** Termination: every parser consumes text *)
Abbreviation left c := (String.length (rest c)).

Lemma next_left c : at_end c = false → S (left (next c)) = left c.
Proof. destruct c as [p [|a r]]; [done|]. done. Qed.
Lemma next_left_le c : left (next c) ≤ left c.
Proof. destruct c as [p [|a r]]; simpl; lia. Qed.
Lemma consume_left a c c' : consume a c = Some c' → S (left c') = left c.
Proof.
  destruct c as [p [|b r]]; [done|]. unfold consume. simpl. destruct (bool_decide _); [|done].
  by intros [= <-].
Qed.
Lemma skip_while_left f n s : String.length (rest (skip_while f n s)) ≤ String.length s.
Proof. revert n. induction s as [|a s IH]; intros n; simpl; [lia|]. destruct (f a); simpl; [|lia]. specialize (IH (S n)). lia. Qed.
Lemma skip_whitespace_left c : left (skip_whitespace c) ≤ left c.
Proof. apply skip_while_left. Qed.

Lemma parse_hex_left n code c r : parse_hex n code c = Some r → left r.2 ≤ left c.
Proof.
  revert code c. induction n as [|n IH]; intros code c; simpl; [by intros [= <-]|].
  destruct (hex_digit_of _); [|done]. intros H. apply IH in H. pose proof (next_left_le c). lia.
Qed.

(** [shrinks c o]: the parser returned, with less text than [c] had. *)
Definition shrinks {A} (c : cursor) (m : cxx (option (A * cursor))) : Prop :=
  ∃ o, m ⇓ o ∧ ∀ x c', o = Some (x, c') → left c' < left c.
Definition shrinks_le {A} (c : cursor) (m : cxx (option (A * cursor))) : Prop :=
  ∃ o, m ⇓ o ∧ ∀ x c', o = Some (x, c') → left c' ≤ left c.

Lemma shrinks_none {A} c : shrinks c (Ret None : cxx (option (A * cursor))).
Proof. by exists None. Qed.
Lemma shrinks_some {A} c (x : A) c' : left c' < left c → shrinks c (Ret (Some (x, c'))).
Proof. intros H. eexists. split; [done|]. by intros ?? [= <- <-]. Qed.
Lemma shrinks_weaken {A} c c' (m : cxx (option (A * cursor))) :
  left c' ≤ left c → shrinks c' m → shrinks c m.
Proof. intros Hle (o & Ho & H). exists o. split; [done|]. intros x d Hd. specialize (H x d Hd). lia. Qed.
Lemma shrinks_bind {A B} c1 c (m : cxx (option (A * cursor))) (f : option (A * cursor) → cxx (option (B * cursor))) :
  shrinks c1 m → left c1 ≤ left c → shrinks c (f None) →
  (∀ x c', left c' < left c1 → shrinks c (f (Some (x, c')))) → shrinks c (m ≫= f).
Proof.
  intros (o & -> & Ho) Hle Hn Hf. simpl. destruct o as [[x c']|]; [|done]. apply Hf. by eapply Ho.
Qed.

Lemma parse_unicode_escape_shrinks fuel c :
  left c < fuel → shrinks_le c (parse_unicode_escape fuel c).
Proof.
  revert c. induction fuel as [|fuel IH]; intros c Hf; [lia|]. cbn [parse_unicode_escape].
  destruct (bool_decide _); [by exists None|].
  destruct (parse_hex 4 0 c) as [[code c']|] eqn:Eh; [|by exists None].
  apply parse_hex_left in Eh. simpl in Eh.
  destruct (is_high_surrogate code); [|exists (Some (code, c')); split; [done|by intros ?? [= <- <-]]].
  destruct (bool_decide (left c' < 6)) eqn:E6; [by exists None|]. apply bool_decide_eq_false in E6.
  destruct (_ || _); [by exists None|].
  assert (Hn : S (left (next c')) = left c') by (destruct c' as [p [|a r]]; [simpl in E6; lia|done]).
  pose proof (next_left_le (next c')).
  destruct (IH (next (next c'))) as (o & -> & Ho); [lia|]. simpl. eexists. split; [done|].
  intros x d' Hx. destruct o as [[low c2]|]; [|done]. destruct (is_low_surrogate low); [|done].
  injection Hx as <- <-. specialize (Ho low c2 eq_refl). lia.
Qed.

Lemma parse_string_loop_shrinks fuel result c :
  left c < fuel → shrinks c (parse_string_loop fuel result c).
Proof.
  revert result c. induction fuel as [|fuel IH]; intros result c Hf; [lia|]. cbn [parse_string_loop].
  destruct (at_end c) eqn:E; [apply shrinks_none|]. pose proof (next_left c E) as Hn.
  destruct (bool_decide (peek c = quote)); [apply shrinks_some; lia|].
  destruct (bool_decide (peek c = backslash)).
  - destruct (at_end (next c)) eqn:E'; [apply shrinks_none|]. pose proof (next_left _ E') as Hn'.
    destruct (bool_decide (peek (next c) = "u"%char)).
    + destruct (parse_unicode_escape_shrinks (S (left (next (next c)))) (next (next c)))
        as (o & -> & Ho); [lia|]. simpl.
      destruct o as [[code c']|]; [|apply shrinks_none]. specialize (Ho _ _ eq_refl).
      eapply shrinks_weaken; [|apply IH; lia]. lia.
    + destruct (unescape _); [|apply shrinks_none]. eapply shrinks_weaken; [|apply IH; lia]. lia.
  - destruct (is_control _); [apply shrinks_none|]. eapply shrinks_weaken; [|apply IH; lia]. lia.
Qed.

Lemma parse_string_shrinks c : shrinks c (parse_string c).
Proof.
  unfold parse_string. destruct (consume quote c) as [c'|] eqn:E; [|apply shrinks_none].
  apply consume_left in E. eapply shrinks_weaken; [|apply parse_string_loop_shrinks; lia]. lia.
Qed.

Lemma length_substring n m s : String.length (String.substring n m s) ≤ m.
Proof.
  revert n m. induction s as [|a s IH]; intros [|n] [|m]; simpl; try lia; [|apply IH|].
  - specialize (IH 0 m). lia.
  - apply (IH n (S m)).
Qed.
Lemma skip_left n c : left (skip n c) ≤ left c - n.
Proof. apply length_substring. Qed.
Lemma starts_with_left p c : starts_with p c = true → p ≠ "" → 0 < left c.
Proof.
  unfold starts_with. rewrite bool_decide_eq_true. intros H Hp. destruct (rest c) as [|a r]; [|simpl; lia].
  exfalso. apply Hp. rewrite <- H. by destruct (String.length p).
Qed.

Definition option_shrinks {A} (c : cursor) (o : option (A * cursor)) : Prop :=
  ∀ x c', o = Some (x, c') → left c' < left c.
Lemma shrinks_ret {A} c (o : option (A * cursor)) : option_shrinks c o → shrinks c (Ret o).
Proof. intros H. by exists o. Qed.

Lemma parse_null_shrinks c : option_shrinks c (parse_null c).
Proof.
  intros x c'. unfold parse_null. destruct (starts_with "null" c) eqn:E; [|done].
  intros [= _ <-]. apply starts_with_left in E; [|done]. pose proof (skip_left 4 c). lia.
Qed.
Lemma parse_bool_shrinks c : option_shrinks c (parse_bool c).
Proof.
  intros x c'. unfold parse_bool. destruct (starts_with "true" c) eqn:E.
  - intros [= _ <-]. apply starts_with_left in E; [|done]. pose proof (skip_left 4 c). lia.
  - destruct (starts_with "false" c) eqn:E'; [|done]. intros [= _ <-].
    apply starts_with_left in E'; [|done]. pose proof (skip_left 5 c). lia.
Qed.

Lemma parse_integer_part_left c c' : parse_integer_part c = Some c' → left c' < left c.
Proof.
  unfold parse_integer_part. set (d := if bool_decide _ then next c else c).
  assert (Hd : left d ≤ left c) by (subst d; destruct (bool_decide _); [apply next_left_le|lia]).
  clearbody d. destruct (at_end d) eqn:E; [done|]. apply next_left in E. simpl.
  destruct (is_digit (peek d)) eqn:Ed; [simpl|done]. destruct (bool_decide _).
  - intros [= <-]. lia.
  - intros [= <-]. unfold skip_digits. destruct d as [p [|a r]]; [done|].
    unfold peek in Ed. cbn [rest pos skip_while] in *. rewrite Ed.
    pose proof (skip_while_left is_digit (S p) r). simpl in *. lia.
Qed.
Lemma parse_fraction_left c b c' : parse_fraction c = Some (b, c') → left c' ≤ left c.
Proof.
  unfold parse_fraction. destruct (negb (at_end c) && _); [|by intros [= _ <-]].
  destruct (_ || _); [done|]. intros [= _ <-]. pose proof (next_left_le c).
  pose proof (skip_while_left is_digit (pos (next c)) (rest (next c))). unfold skip_digits. lia.
Qed.
Lemma parse_exponent_left c b c' : parse_exponent c = Some (b, c') → left c' ≤ left c.
Proof.
  unfold parse_exponent. destruct (negb (at_end c) && _); [|by intros [= _ <-]].
  set (d := if _ && _ then next (next c) else next c).
  assert (Hd : left d ≤ left c).
  { pose proof (next_left_le c). pose proof (next_left_le (next c)).
    subst d. destruct (_ && _); lia. }
  clearbody d. destruct (_ || _); [done|]. intros [= _ <-].
  pose proof (skip_while_left is_digit (pos d) (rest d)). unfold skip_digits. lia.
Qed.

Lemma parse_number_shrinks c : option_shrinks c (parse_number c).
Proof.
  intros x c'. unfold parse_number.
  destruct (parse_integer_part c) as [c1|] eqn:E1; [|done]. simpl.
  destruct (parse_fraction c1) as [[b1 c2]|] eqn:E2; [|done]. simpl.
  destruct (parse_exponent c2) as [[b2 c3]|] eqn:E3; [|done]. simpl.
  apply parse_integer_part_left in E1. apply parse_fraction_left in E2. apply parse_exponent_left in E3.
  intros H. assert (c' = c3) as ->; [|lia].
  assert (Hf : ∀ o : option JsonValue, (v ← o; Some (v, c3)) = Some (x, c') → c' = c3)
    by (intros [v|]; simpl; congruence).
  destruct (_ || _); [by apply Hf in H|].
  destruct (from_chars_int64 _) as [[v [|? ?]]| |]; [congruence|by apply Hf in H..].
Qed.

(** Two units of fuel per character, and one more inside an array or object. *)
Lemma parse_shrinks fuel :
  (∀ c, 2 * left c < fuel → shrinks c (parse_value fuel c)) ∧
  (∀ start v c, S (2 * left c) < fuel → shrinks c (parse_items fuel start v c)) ∧
  (∀ start v c, S (2 * left c) < fuel → shrinks c (parse_fields fuel start v c)).
Proof.
  induction fuel as [|fuel (IHv & IHi & IHf)]; [split; [|split]; intros; lia|].
  split; [|split].
  - intros c0 Hf. cbn [parse_value]. pose proof (skip_whitespace_left c0) as Hw.
    set (c := skip_whitespace c0) in *. apply (shrinks_weaken c0 c); [done|].
    destruct (at_end c) eqn:E; [apply shrinks_none|].
    destruct (bool_decide _).
    { unfold parse_string_value. eapply shrinks_bind; [apply parse_string_shrinks|lia|apply shrinks_none|].
      intros s c' Hs. by apply shrinks_some. }
    destruct (bool_decide _).
    { destruct (consume _ c) as [c1|] eqn:E1; [|apply shrinks_none]. apply consume_left in E1.
      pose proof (skip_whitespace_left c1). destruct (consume _ (skip_whitespace c1)) as [c2|] eqn:E2.
      - apply consume_left in E2. apply shrinks_some. lia.
      - eapply shrinks_weaken; [|apply IHf; lia]. lia. }
    destruct (bool_decide _).
    { destruct (consume _ c) as [c1|] eqn:E1; [|apply shrinks_none]. apply consume_left in E1.
      pose proof (skip_whitespace_left c1). destruct (consume _ (skip_whitespace c1)) as [c2|] eqn:E2.
      - apply consume_left in E2. apply shrinks_some. lia.
      - eapply shrinks_weaken; [|apply IHi; lia]. lia. }
    destruct (_ || _); [apply shrinks_ret, parse_bool_shrinks|].
    destruct (bool_decide _); [apply shrinks_ret, parse_null_shrinks|].
    destruct (_ || _); [apply shrinks_ret, parse_number_shrinks|apply shrinks_none].
  - intros start v c Hf. cbn [parse_items].
    eapply shrinks_bind; [apply IHv; lia|lia|apply shrinks_none|].
    intros item c1 H1. pose proof (skip_whitespace_left c1).
    destruct (consume "]"%char (skip_whitespace c1)) as [c2|] eqn:E2.
    + apply consume_left in E2. apply shrinks_some. lia.
    + destruct (consume ","%char _) as [c3|] eqn:E3; [|apply shrinks_none]. apply consume_left in E3.
      eapply shrinks_weaken; [|apply IHi; lia]. lia.
  - intros start v c Hf. cbn [parse_fields]. pose proof (skip_whitespace_left c).
    eapply shrinks_bind; [apply parse_string_shrinks|done|apply shrinks_none|].
    intros key c1 H1. pose proof (skip_whitespace_left c1).
    destruct (consume ":"%char _) as [c2|] eqn:E2; [|apply shrinks_none]. apply consume_left in E2.
    eapply shrinks_bind; [apply (IHv c2); lia|lia|apply shrinks_none|].
    intros val c3 H3. destruct (bool_decide _); [|apply shrinks_none].
    pose proof (skip_whitespace_left c3).
    destruct (consume "}"%char (skip_whitespace c3)) as [c4|] eqn:E4.
    + apply consume_left in E4. apply shrinks_some. lia.
    + destruct (consume ","%char _) as [c5|] eqn:E5; [|apply shrinks_none]. apply consume_left in E5.
      eapply shrinks_weaken; [|apply IHf; lia]. lia.
Qed.

Lemma parse_json_total input : ∃ o, parse_json input ⇓ o.
Proof.
  unfold parse_json. destruct (parse_shrinks (parse_fuel input)) as [Hv _].
  pose proof (skip_whitespace_left (mkCursor 0 input)) as Hw. simpl in Hw.
  destruct (Hv (skip_whitespace (mkCursor 0 input))) as (o & -> & _); [unfold parse_fuel; lia|].
  by eexists.
Qed.
