(* ===== verification/JsonRoundtrip.v ===== *)
(** * Printing JSON and parsing it back

    The abstract content of a node, its text, and the proof that the parser
    finds the content again: number by number, character by character, then by
    induction on the content.  Object keys take the escaping of the printer as
    a parameter, because the two printers of the program escape keys
    differently. *)
From S2P Require Import Prelude Numeric Json JsonProps.
From Stdlib Require Import Ascii.
Open Scope nat_scope.

(** ** Decimal digits *)
Definition digit_char (d : Z) : ascii := pretty_N_char (Z.to_N d).
Fixpoint digit_string (ds : list Z) : string :=
  match ds with [] => "" | d :: ds => String (digit_char d) (digit_string ds) end.
Abbreviation are_digits ds := (Forall (λ d, 0 ≤ d < 10)%Z ds).
(** The text does not go on with a digit. *)
Definition no_digit (r : string) : Prop :=
  match r with String c _ => is_digit c = false | EmptyString => True end.

Lemma digit_cases (P : Z → Prop) d :
  (0 ≤ d < 10)%Z → P 0%Z → P 1%Z → P 2%Z → P 3%Z → P 4%Z → P 5%Z → P 6%Z → P 7%Z → P 8%Z → P 9%Z → P d.
Proof.
  intros Hd. assert (d = 0 ∨ d = 1 ∨ d = 2 ∨ d = 3 ∨ d = 4 ∨ d = 5 ∨ d = 6 ∨ d = 7 ∨ d = 8 ∨ d = 9)%Z as H by lia.
  naive_solver.
Qed.
Lemma digit_of_char d : (0 ≤ d < 10)%Z → digit_of (digit_char d) = Some d.
Proof. intros Hd. pattern d. by apply digit_cases. Qed.

Lemma digit_string_app l1 l2 : digit_string (l1 ++ l2) = digit_string l1 +:+ digit_string l2.
Proof. induction l1 as [|d l IH]; [done|]. simpl. by rewrite string_cons_app, IH. Qed.
Lemma span_digits_string ds r :
  are_digits ds → no_digit r → span_digits (digit_string ds +:+ r) = (ds, r).
Proof.
  intros Hds Hr. induction Hds as [|d ds Hd Hds IH]; cbn [digit_string]; rewrite ?string_cons_app, ?string_nil_app.
  - destruct r as [|c r]; [done|]. simpl in *. unfold is_digit in Hr. by destruct (digit_of c).
  - simpl. rewrite digit_of_char by done. by rewrite IH.
Qed.
Lemma skip_digits_string ds r p :
  are_digits ds → no_digit r →
  skip_while is_digit p (digit_string ds +:+ r) = mkCursor (p + String.length (digit_string ds)) r.
Proof.
  intros Hds Hr. revert p. induction Hds as [|d ds Hd Hds IH]; cbn [digit_string String.length]; intros p; rewrite ?string_cons_app, ?string_nil_app.
  - rewrite Nat.add_0_r. destruct r as [|c r]; [done|]. simpl in *. by rewrite Hr.
  - cbn [skip_while]. unfold is_digit at 1. rewrite digit_of_char by done. rewrite IH. f_equal. lia.
Qed.

Lemma digits_value_snoc ds d : digits_value 10 (ds ++ [d]) = (digits_value 10 ds * 10 + d)%Z.
Proof. unfold digits_value. by rewrite fold_left_app. Qed.

(** No leading zero, but for 0 itself. *)
Definition canonical (ds : list Z) : Prop := ∃ d l, ds = d :: l ∧ (d = 0%Z → l = []).

Lemma pretty_N_go_digits x : (0 < x)%N → ∀ s, ∃ ds,
  pretty_N_go x s = digit_string ds +:+ s ∧ are_digits ds ∧ digits_value 10 ds = Z.of_N x ∧
  ∃ d l, ds = d :: l ∧ d ≠ 0%Z.
Proof.
  induction (N.lt_wf_0 x) as [x _ IH]; intros Hx s. rewrite pretty_N_go_step by done.
  assert (Hm : (0 ≤ Z.of_N (x `mod` 10) < 10)%Z) by (pose proof (N.mod_lt x 10 ltac:(done)) as Hm; revert Hm; generalize (x `mod` 10)%N; lia).
  assert (Hc : pretty_N_char (x `mod` 10) = digit_char (Z.of_N (x `mod` 10)))
    by (unfold digit_char; by rewrite N2Z.id).
  rewrite Hc. pose proof (N.div_mod x 10 ltac:(done)) as Hdm. destruct (decide (x `div` 10 = 0)%N) as [H0|H0].
  - rewrite H0, pretty_N_go_0. exists [Z.of_N (x `mod` 10)]. split; [done|].
    split; [by constructor|]. split; [unfold digits_value; simpl; lia|]. eexists _, _. split; [done|]. lia.
  - destruct (IH (x `div` 10)%N) with (s := String (digit_char (Z.of_N (x `mod` 10))) s)
      as (ds & -> & Hds & Hv & d & l & Hl & Hd); [apply N.div_lt; lia|lia|].
    exists (ds ++ [Z.of_N (x `mod` 10)]). split; [by rewrite digit_string_app, string_app_assoc|].
    split; [apply Forall_app; by split; [|constructor]|]. split; [rewrite digits_value_snoc, Hv; lia|].
    subst ds. by eexists _, _.
Qed.
Lemma pretty_N_digits x : ∃ ds,
  pretty x = digit_string ds ∧ are_digits ds ∧ digits_value 10 ds = Z.of_N x ∧ canonical ds.
Proof.
  unfold pretty, pretty_N. case_decide as H0.
  - exists [0%Z]. subst. repeat split; [by constructor|]. by eexists _, _.
  - destruct (pretty_N_go_digits x) with (s := "") as (ds & -> & Hds & Hv & d & l & Hl & Hd); [lia|].
    exists ds. rewrite string_app_nil. repeat split; [done..|]. subst ds. eexists _, _. split; [done|]. done.
Qed.
(** The text of an integer. *)
Definition sign_string (neg : bool) : string := if neg then "-" else "".
Lemma to_string_digits z : ∃ neg ds,
  to_string z = sign_string neg +:+ digit_string ds ∧ are_digits ds ∧ canonical ds ∧
  z = (if neg then - digits_value 10 ds else digits_value 10 ds)%Z.
Proof.
  unfold to_string. destruct z as [|x|x].
  - exists false. destruct (pretty_N_digits 0) as (ds & H & Hds & Hv & Hc). exists ds.
    repeat split; [done..|]. by rewrite Hv.
  - exists false. destruct (pretty_N_digits (N.pos x)) as (ds & H & Hds & Hv & Hc). exists ds.
    repeat split; [done..|]. by rewrite Hv.
  - exists true. destruct (pretty_N_digits (N.pos x)) as (ds & H & Hds & Hv & Hc). exists ds.
    repeat split; [simpl; by rewrite <- H|done..|]. by rewrite Hv.
Qed.

(** ** Content: a node without its offsets and its unused members *)
Inductive Json :=
  | JNull
  | JBool (b : bool)
  | JInt (i : Z)
  | JFloat (d : double)
  | JString (s : string)
  | JArray (items : list Json)
  | JObject (fields : list (string * Json)).

(** None when a child is null. *)
Fixpoint content (v : JsonValue) : option Json :=
  match v with
  | mkJson k _ _ b i d s items fields =>
      match k with
      | JsonKind.Null => Some JNull
      | JsonKind.Bool => Some (JBool b)
      | JsonKind.Int => Some (JInt i)
      | JsonKind.Float => Some (JFloat d)
      | JsonKind.String_ => Some (JString s)
      | JsonKind.Array =>
          JArray <$> (fix go (l : list (option JsonValue)) := match l with
            | [] => Some []
            | None :: _ => None
            | Some v :: l => x ← content v; xs ← go l; Some (x :: xs)
            end) items
      | JsonKind.Object =>
          JObject <$> (fix go (l : list (string * option JsonValue)) := match l with
            | [] => Some []
            | (_, None) :: _ => None
            | (key, Some v) :: l => x ← content v; xs ← go l; Some ((key, x) :: xs)
            end) fields
      end
  end.

Definition item_content (o : option JsonValue) : option Json := o ≫= content.
Definition field_content (f : string * option JsonValue) : option (string * Json) :=
  x ← item_content f.2; Some (f.1, x).

Lemma content_array v : kind v = JsonKind.Array →
  content v = JArray <$> mapM item_content (array_items v).
Proof.
  destruct v as [k b e x i d s items fields]. simpl. intros ->. f_equal.
  induction items as [|[y|] l IH]; [done| |done]. simpl. by destruct (content y); simpl; rewrite ?IH.
Qed.
Lemma content_object v : kind v = JsonKind.Object →
  content v = JObject <$> mapM field_content (object_fields v).
Proof.
  destruct v as [k b e x i d s items fields]. simpl. intros ->. f_equal.
  induction fields as [|[key [y|]] l IH]; [done| |done]. unfold field_content at 1. simpl.
  by destruct (content y); simpl; rewrite ?IH.
Qed.
Lemma content_offsets b e v : content (with_offsets b e v) = content v.
Proof. by destruct v as [[] ? ? ? ? ? ? ? ?]. Qed.

(** Induction on the content. *)
Section JsonInduction.
Context (P : Json → Prop).
Context (scalar : ∀ j, (∀ l, j ≠ JArray l) → (∀ l, j ≠ JObject l) → P j).
Context (array : ∀ l, Forall P l → P (JArray l)).
Context (object : ∀ l, Forall (λ f, P f.2) l → P (JObject l)).
Lemma json_induction : ∀ j, P j.
Proof.
  fix IH 1. intros [|b|i|d|s|l|l]; try by apply scalar.
  - apply array. induction l as [|x l IHl]; constructor; [apply IH|exact IHl].
  - apply object. induction l as [|[k x] l IHl]; constructor; [apply IH|exact IHl].
Qed.
End JsonInduction.

(** ** Numbers *)
(** What may follow a value. *)
Definition delimited (r : string) : Prop :=
  match r with String c _ => c = ","%char ∨ c = "]"%char ∨ c = "}"%char | EmptyString => True end.
Lemma delimited_no_digit r : delimited r → no_digit r.
Proof. destruct r as [|c r]; [done|]. by intros [->|[->| ->]]. Qed.

Lemma substring_app a b : String.substring 0 (String.length a) (a +:+ b) = a.
Proof.
  induction a as [|x a IH]; [by destruct b|]. rewrite string_cons_app. simpl. by rewrite IH.
Qed.

Lemma at_end_cons p c r : at_end (mkCursor p (String c r)) = false.
Proof. done. Qed.

(** The text of an integer is a number token of the grammar. *)
Lemma parse_integer_part_string neg ds p r :
  are_digits ds → canonical ds → no_digit r →
  let s := sign_string neg +:+ digit_string ds in
  parse_integer_part (mkCursor p (s +:+ r)) = Some (mkCursor (p + String.length s) r).
Proof.
  intros Hds (d & l & -> & Hl) Hr s. unfold parse_integer_part.
  apply Forall_cons in Hds as [Hd Hds].
  assert (Hstart : (if bool_decide (peek (mkCursor p (s +:+ r)) = "-"%char)
                    then next (mkCursor p (s +:+ r)) else mkCursor p (s +:+ r))
                   = mkCursor (p + String.length (sign_string neg)) (digit_string (d :: l) +:+ r)).
  { subst s. destruct neg; cbn [sign_string].
    - rewrite string_app_assoc, string_cons_app. unfold next. simpl. f_equal. lia.
    - rewrite string_nil_app. cbn [digit_string]. rewrite string_cons_app. cbn [peek rest].
      rewrite bool_decide_false; [by rewrite Nat.add_0_r|].
      pattern d. by apply digit_cases. }
  rewrite Hstart. subst s. rewrite length_string_app. set (q := String.length (sign_string neg)).
  cbn [digit_string]. rewrite string_cons_app. rewrite at_end_cons. cbn [peek rest orb].
  unfold is_digit at 1. rewrite digit_of_char by done. cbn [negb].
  destruct (decide (d = 0%Z)) as [->|H0].
  - rewrite (Hl eq_refl). cbn [digit_string String.length]. unfold next. cbn [pos rest].
    rewrite string_nil_app. do 2 f_equal. lia.
  - rewrite bool_decide_false by (revert H0; pattern d; by apply digit_cases).
    unfold skip_digits. cbn [pos rest skip_while].
    unfold is_digit at 1. rewrite digit_of_char by done.
    rewrite skip_digits_string by done. cbn [String.length]. do 2 f_equal. lia.
Qed.

Lemma parse_fraction_delimited p r : delimited r → parse_fraction (mkCursor p r) = Some (false, mkCursor p r).
Proof. destruct r as [|c r]; [done|]. by intros [->|[->| ->]]. Qed.
Lemma parse_exponent_delimited p r : delimited r → parse_exponent (mkCursor p r) = Some (false, mkCursor p r).
Proof. destruct r as [|c r]; [done|]. by intros [->|[->| ->]]. Qed.

Lemma from_chars_to_string z : in_int64 z = true → from_chars_int64 (to_string z) = ConvOk (z, "").
Proof.
  intros Hz. destruct (to_string_digits z) as (neg & ds & -> & Hds & Hc & Hv).
  destruct Hc as (d & l & -> & _). unfold from_chars_int64.
  assert (Hspan : span_digits (digit_string (d :: l)) = (d :: l, ""))
    by (rewrite <- (string_app_nil (digit_string _)); by apply span_digits_string).
  destruct neg; cbn [sign_string].
  - rewrite string_cons_app, string_nil_app, bool_decide_true by done. cbv iota beta zeta.
    rewrite Hspan. rewrite <- Hv, Hz. done.
  - rewrite string_nil_app. apply Forall_cons in Hds as [Hd _]. cbn [digit_string].
    rewrite bool_decide_false by (pattern d; by apply digit_cases). cbv iota beta zeta.
    cbn [digit_string] in Hspan. rewrite Hspan, <- Hv, Hz. done.
Qed.

Lemma parse_number_to_string z p r :
  in_int64 z = true → delimited r →
  ∃ v p', parse_number (mkCursor p (to_string z +:+ r)) = Some (v, mkCursor p' r) ∧
          content v = Some (JInt z).
Proof.
  intros Hz Hr. destruct (to_string_digits z) as (neg & ds & Hs & Hds & Hc & _).
  exists (with_offsets p (p + String.length (to_string z)) (json_int z)),
         (p + String.length (to_string z)).
  split; [|done]. unfold parse_number. rewrite Hs at 1.
  rewrite parse_integer_part_string by (try done; by apply delimited_no_digit).
  rewrite <- Hs. cbn [mbind option_bind].
  rewrite parse_fraction_delimited by done. cbn [mbind option_bind].
  rewrite parse_exponent_delimited by done. cbn [mbind option_bind orb].
  unfold text_between. cbn [pos rest].
  replace (p + String.length (to_string z) - p) with (String.length (to_string z)) by lia.
  by rewrite substring_app, from_chars_to_string.
Qed.

(** ** Strings *)
(** The parser reads the escape of a character back, in one round of its loop. *)
Definition escapes (f : ascii → string) (c : ascii) : Prop :=
  0 < String.length (f c) ∧ ∀ fuel acc p r, ∃ p',
    parse_string_loop (S fuel) acc (mkCursor p (f c +:+ r)) =
    parse_string_loop fuel (snoc acc c) (mkCursor p' r).
Definition escapes_all (f : ascii → string) (s : string) : Prop :=
  ∀ fuel acc p r, String.length (escape f s +:+ r) < fuel → ∃ fuel' p',
    String.length r < fuel' ∧
    parse_string_loop fuel acc (mkCursor p (escape f s +:+ r)) =
    parse_string_loop fuel' (acc +:+ s) (mkCursor p' r).

Fixpoint all_chars (P : ascii → Prop) (s : string) : Prop :=
  match s with EmptyString => True | String c s => P c ∧ all_chars P s end.

Lemma snoc_app acc c s : snoc acc c +:+ s = acc +:+ String c s.
Proof. unfold snoc. by rewrite string_app_assoc. Qed.

Lemma escapes_all_of f s : all_chars (escapes f) s → escapes_all f s.
Proof.
  induction s as [|c s IH]; cbn [all_chars escape].
  - intros _ fuel acc p r Hf. exists fuel, p. by rewrite string_app_nil.
  - intros ((Hlen & Hc) & Hs) fuel acc p r. cbn [escape]. rewrite string_app_assoc, length_string_app. intros Hf.
    destruct fuel as [|fuel]; [lia|]. destruct (Hc fuel acc p (escape f s +:+ r)) as (p1 & ->).
    rewrite <- snoc_app. apply IH; [done|]. lia.
Qed.

Lemma escapes_plain f c :
  f c = String c EmptyString → c ≠ quote → c ≠ backslash → is_control c = false → escapes f c.
Proof.
  intros Hf Hq Hb Hc. split; [rewrite Hf; simpl; lia|]. intros fuel acc p r. exists (S p).
  rewrite Hf, string_cons_app, string_nil_app. cbn [parse_string_loop]. rewrite at_end_cons.
  unfold peek, next. cbn [rest pos]. rewrite !bool_decide_false by done. by rewrite Hc.
Qed.
Lemma escapes_backslashed f c x :
  f c = backslashed x → x ≠ "u"%char → unescape x = Some c → escapes f c.
Proof.
  intros Hf Hu Hx. split; [rewrite Hf; simpl; lia|]. intros fuel acc p r. exists (S (S p)).
  rewrite Hf. unfold backslashed. rewrite !string_cons_app, string_nil_app. cbn [parse_string_loop].
  rewrite at_end_cons. unfold peek at 1 2, next at 1 2 3. cbn [rest pos].
  rewrite bool_decide_false by done. rewrite bool_decide_true by done.
  rewrite at_end_cons. cbn [peek next rest pos]. rewrite bool_decide_false by done. by rewrite Hx.
Qed.

(** A control character becomes four hexadecimal digits, which are read back. *)
Definition hex_escape (c : ascii) (r : string) : string :=
  let b := char_code c in
  String "0"%char (String "0"%char
    (String (hex_digit (Z.land (Z.shiftr b 4) 0x0F)) (String (hex_digit (Z.land b 0x0F)) r))).
Definition hex_escape_of (c : ascii) : string := backslashed "u"%char +:+ hex_escape c "".
Lemma parse_hex_escape c p r :
  is_control c = true →
  parse_hex 4 0 (mkCursor p (hex_escape c r)) = Some (char_code c, mkCursor (S (S (S (S p)))) r).
Proof. destruct c as [[] [] [] [] [] [] [] []]; intros H; try discriminate H; reflexivity. Qed.
Lemma encode_control c acc : is_control c = true → encode_utf8 (char_code c) acc = snoc acc c.
Proof. destruct c as [[] [] [] [] [] [] [] []]; intros H; try discriminate H; reflexivity. Qed.
Lemma control_not_surrogate c : is_control c = true → is_high_surrogate (char_code c) = false.
Proof. destruct c as [[] [] [] [] [] [] [] []]; intros H; try discriminate H; reflexivity. Qed.

Lemma escapes_control f c :
  (∀ r, f c +:+ r = backslashed "u"%char +:+ hex_escape c r) → is_control c = true → escapes f c.
Proof.
  intros Hf Hc. split.
  - specialize (Hf ""). rewrite string_app_nil in Hf. rewrite Hf. unfold backslashed.
    rewrite !string_cons_app. simpl. lia.
  - intros fuel acc p r. exists (S (S (S (S (S (S p)))))). rewrite Hf. unfold backslashed.
    rewrite !string_cons_app, string_nil_app. cbn [parse_string_loop].
    rewrite at_end_cons. unfold peek at 1 2, next at 1 2 3. cbn [rest pos].
    rewrite bool_decide_false by done. rewrite bool_decide_true by done.
    rewrite at_end_cons. cbn [peek next rest pos]. rewrite bool_decide_true by done.
    cbn [parse_unicode_escape rest]. rewrite bool_decide_false by (simpl; lia).
    rewrite parse_hex_escape, control_not_surrogate by done. cbn [mbind cxx_bind].
    by rewrite encode_control.
Qed.

(** The escaping of strings suits every character, that of keys all but the
    control characters. *)
Lemma escape_char_escapes c : escapes escape_char c.
Proof.
  destruct (decide (c = backslash)) as [->|]; [by apply (escapes_backslashed _ _ backslash)|].
  destruct (decide (c = quote)) as [->|]; [by apply (escapes_backslashed _ _ quote)|].
  destruct (decide (c = chr 8)) as [->|]; [by apply (escapes_backslashed _ _ "b"%char)|].
  destruct (decide (c = chr 12)) as [->|]; [by apply (escapes_backslashed _ _ "f"%char)|].
  destruct (decide (c = chr 10)) as [->|]; [by apply (escapes_backslashed _ _ "n"%char)|].
  destruct (decide (c = chr 13)) as [->|]; [by apply (escapes_backslashed _ _ "r"%char)|].
  destruct (decide (c = chr 9)) as [->|]; [by apply (escapes_backslashed _ _ "t"%char)|].
  assert (Hd : escape_char c = if is_control c then hex_escape_of c else String c EmptyString).
  { unfold escape_char. by rewrite !bool_decide_false by done. }
  destruct (is_control c) eqn:Ec.
  - apply escapes_control; [|done]. intros r. rewrite Hd. unfold hex_escape_of, hex_escape.
    by rewrite !string_app_assoc, !string_cons_app, !string_nil_app.
  - by apply escapes_plain.
Qed.
Lemma escape_key_char_escapes c : is_control c = false → escapes escape_key_char c.
Proof.
  intros Hc.
  destruct (decide (c = backslash)) as [->|]; [by apply (escapes_backslashed _ _ backslash)|].
  destruct (decide (c = quote)) as [->|]; [by apply (escapes_backslashed _ _ quote)|].
  apply escapes_plain; try done. unfold escape_key_char. by rewrite !bool_decide_false by done.
Qed.

Lemma parse_string_quoted f s p r :
  all_chars (escapes f) s → ∃ p',
  parse_string (mkCursor p (quoted (escape f s) +:+ r)) ⇓ Some (s, mkCursor p' r).
Proof.
  intros Hs. unfold parse_string, quoted. rewrite string_app_assoc, !string_cons_app, string_nil_app.
  unfold consume. cbn [rest pos]. rewrite bool_decide_true by done. cbn [rest].
  destruct (escapes_all_of f s Hs (S (String.length (escape f s +:+ String quote r))) "" (S p)
    (String quote r)) as (fuel & p' & Hf & ->); [lia|].
  exists (S p'). destruct fuel as [|fuel]; [lia|]. cbn [parse_string_loop].
  rewrite at_end_cons. unfold peek, next. cbn [rest pos]. by rewrite bool_decide_true, string_nil_app.
Qed.

(** ** Printers *)
(** How the two printers of the program differ: in the escaping of keys, which
    suits the characters that [key_ok] accepts, and in the text of floats. *)
Class Printer := {
  key_char : ascii → string;
  key_ok : ascii → Prop;
  float_text : double → string;
  key_ok_escapes c : key_ok c → escapes key_char c }.

#[export] Instance dom_printer : Printer := {|
  key_char := escape_key_char;
  key_ok := λ c, is_control c = false;
  float_text := d_to_chars;
  key_ok_escapes := escape_key_char_escapes |}.

Section Printing.
Context {printer : Printer}.

Fixpoint print (j : Json) : string :=
  match j with
  | JNull => "null"
  | JBool b => if b then "true" else "false"
  | JInt i => to_string i
  | JFloat d => float_text d
  | JString s => quoted (escape escape_char s)
  | JArray l => "[" +:+ separated (map print l) +:+ "]"
  | JObject l =>
      "{" +:+ separated (map (λ f, quoted (escape key_char f.1) +:+ ":" +:+ print f.2) l) +:+ "}"
  end.
Definition print_field (f : string * Json) : string :=
  quoted (escape key_char f.1) +:+ ":" +:+ print f.2.

(** What is printed and read back: integers in the machine's range, distinct
    keys of characters that the printer escapes well, no floats. *)
Inductive printable : Json → Prop :=
  | printable_null : printable JNull
  | printable_bool b : printable (JBool b)
  | printable_int i : in_int64 i = true → printable (JInt i)
  | printable_string s : printable (JString s)
  | printable_array l : Forall printable l → printable (JArray l)
  | printable_object l :
      NoDup l.*1 → Forall (λ f, all_chars key_ok f.1) l → Forall (λ f, printable f.2) l →
      printable (JObject l).

Lemma substring_whole n s : String.length s ≤ n → String.substring 0 n s = s.
Proof.
  revert n. induction s as [|a s IH]; intros [|n] H; simpl in *; [done|done|lia|]. rewrite IH by lia. done.
Qed.
Lemma skip_app a p r n : String.length a = n → skip n (mkCursor p (a +:+ r)) = mkCursor (p + n) r.
Proof.
  unfold skip. cbn [rest pos]. intros Hn. f_equal. revert n Hn.
  induction a as [|x a IH]; intros [|n] Hn; try done.
  - rewrite string_nil_app. by apply substring_whole; lia.
  - rewrite string_cons_app. simpl in *. apply IH. lia.
Qed.
Lemma starts_with_app a p r : starts_with a (mkCursor p (a +:+ r)) = true.
Proof. unfold starts_with. cbn [rest]. by rewrite substring_app, bool_decide_true. Qed.

Lemma skip_nonspace p c s :
  is_json_space c = false → skip_whitespace (mkCursor p (String c s)) = mkCursor p (String c s).
Proof. unfold skip_whitespace. cbn [rest pos skip_while]. by intros ->. Qed.

Definition number_head (c : ascii) : Prop := c = "-"%char ∨ ∃ d, (0 ≤ d < 10)%Z ∧ c = digit_char d.
Lemma to_string_head z : ∃ c s, to_string z = String c s ∧ number_head c.
Proof.
  destruct (to_string_digits z) as (neg & ds & -> & Hds & (d & l & -> & _) & _).
  destruct neg; cbn [sign_string].
  - eexists _, _. split; [by rewrite string_cons_app|]. by left.
  - eexists _, _. split; [by rewrite string_nil_app|]. right. apply Forall_cons in Hds as [Hd _]. eauto.
Qed.
Lemma number_head_elim (P : ascii → Prop) c :
  number_head c → P "-"%char → (∀ d, (0 ≤ d < 10)%Z → P (digit_char d)) → P c.
Proof. intros [->|(d & Hd & ->)]; auto. Qed.

(** ** The parser reads what is printed *)
Definition parses (j : Json) : Prop := ∀ fuel p r,
  delimited r → 2 * String.length (print j +:+ r) < fuel →
  ∃ v p', parse_value fuel (mkCursor p (print j +:+ r)) ⇓ Some (v, mkCursor p' r) ∧
          content v = Some j.

Lemma parse_value_S fuel p c s :
  is_json_space c = false → parse_value (S fuel) (mkCursor p (String c s)) =
  let x := mkCursor p (String c s) in
  if bool_decide (c = quote) then parse_string_value x
  else if bool_decide (c = "{"%char) then
    match consume "}"%char (skip_whitespace (mkCursor (S p) s)) with
    | Some c' => Ret (Some (with_offsets p (pos c') json_object, c'))
    | None => parse_fields fuel p json_object (skip_whitespace (mkCursor (S p) s))
    end
  else if bool_decide (c = "["%char) then
    match consume "]"%char (skip_whitespace (mkCursor (S p) s)) with
    | Some c' => Ret (Some (with_offsets p (pos c') json_array, c'))
    | None => parse_items fuel p json_array (skip_whitespace (mkCursor (S p) s))
    end
  else if bool_decide (c = "t"%char) || bool_decide (c = "f"%char) then Ret (parse_bool x)
  else if bool_decide (c = "n"%char) then Ret (parse_null x)
  else if bool_decide (c = "-"%char) || is_digit c then Ret (parse_number x)
  else Ret None.
Proof.
  intros Hc. cbn [parse_value]. rewrite skip_nonspace, at_end_cons by done. cbn [peek rest].
  destruct (bool_decide (c = quote)); [done|].
  destruct (decide (c = "{"%char)) as [->|Hb]; [done|]. rewrite bool_decide_false by done.
  destruct (decide (c = "["%char)) as [->|Ha]; [done|]. by rewrite bool_decide_false by done.
Qed.

Lemma parses_null : parses JNull.
Proof.
  intros [|fuel] p r Hr Hf; [lia|]. cbn [print]. exists (with_offsets p (p + 4) json_null), (p + 4).
  split; [|done]. rewrite !string_cons_app, parse_value_S by done. cbv zeta. simpl. f_equal.
  unfold parse_null. change (String "n" (String "u" (String "l" (String "l" ("" +:+ r))))) with ("null" +:+ r).
  rewrite starts_with_app, skip_app by done. done.
Qed.
Lemma parses_bool b : parses (JBool b).
Proof.
  intros [|fuel] p r Hr Hf; [lia|]. cbn [print].
  exists (with_offsets p (p + if b then 4 else 5) (json_bool b)), (p + if b then 4 else 5).
  split; [|done]. destruct b.
  - rewrite !string_cons_app, parse_value_S by done. cbv zeta. simpl. f_equal. unfold parse_bool.
    change (String "t" (String "r" (String "u" (String "e" ("" +:+ r))))) with ("true" +:+ r).
    rewrite starts_with_app, skip_app by done. done.
  - rewrite !string_cons_app, parse_value_S by done. cbv zeta. simpl. f_equal. unfold parse_bool.
    change (String "f" (String "a" (String "l" (String "s" (String "e" ("" +:+ r)))))) with ("false" +:+ r).
    replace (starts_with "true" _) with false by done. rewrite starts_with_app, skip_app by done. done.
Qed.
Lemma parses_int i : in_int64 i = true → parses (JInt i).
Proof.
  intros Hi [|fuel] p r Hr Hf; [lia|]. cbn [print] in *.
  destruct (parse_number_to_string i p r Hi Hr) as (v & p' & Hv & Hc). exists v, p'. split; [|done].
  destruct (to_string_head i) as (c & s & Hs & Hh). rewrite Hs in *. rewrite string_cons_app in *.
  rewrite parse_value_S by (pattern c; by apply (number_head_elim _ c Hh); [|intros d Hd; pattern d; apply digit_cases]).
  cbv zeta. rewrite <- Hv. revert Hh. generalize s. intros s0 Hh.
  pattern c. apply (number_head_elim _ c Hh); [done|]. intros d Hd. pattern d. by apply digit_cases.
Qed.
Lemma parses_string s : parses (JString s).
Proof.
  intros [|fuel] p r Hr Hf; [lia|]. cbn [print] in *.
  destruct (parse_string_quoted escape_char s p r) as (p' & Hs).
  { clear. induction s; simpl; [done|]. split; [apply escape_char_escapes|done]. }
  exists (with_offsets p p' (json_string s)), p'. split; [|done].
  unfold quoted in *. rewrite !string_app_assoc, !string_cons_app in *.
  rewrite parse_value_S by done. cbv zeta. rewrite bool_decide_true by done.
  unfold parse_string_value. by rewrite Hs.
Qed.
End Printing.
