(* ===== verification/JsonCorrect.v ===== *)
(** * Correctness of the JSON parser and serializer

    Printed content parses back, whatever follows it; the round trip of the
    serializer; the keys for which its output is not JSON. *)
From S2P Require Import Prelude Numeric Json JsonProps JsonRoundtrip.
From Stdlib Require Import Ascii.
Open Scope nat_scope.

Lemma mapM_snoc {A B} (f : A → option B) (l : list A) x ys y :
  mapM f l = Some ys → f x = Some y → mapM f (l ++ [x]) = Some (ys ++ [y]).
Proof.
  intros Hl Hx. apply mapM_Some in Hl. apply mapM_Some.
  apply Forall2_app; [done|]. by constructor.
Qed.

Lemma consume_eq p c s : consume c (mkCursor p (String c s)) = Some (mkCursor (S p) s).
Proof. unfold consume. cbn [rest pos]. by rewrite bool_decide_true. Qed.
Lemma consume_ne p c d s : d ≠ c → consume c (mkCursor p (String d s)) = None.
Proof. intros H. unfold consume. cbn [rest pos]. by rewrite bool_decide_false. Qed.

Section Printing.
Context {printer : Printer}.

(** ** Arrays *)
Lemma print_head j : printable j →
  ∃ c s, print j = String c s ∧ is_json_space c = false ∧ c ≠ "]"%char.
Proof.
  intros Hj. destruct Hj as [|[]|i Hi|s|l Hl|l Hnd Hk Hl]; cbn [print];
    try (by eexists _, _; split; [reflexivity|]).
  destruct (to_string_head i) as (c & s & Hs & Hh). exists c, s. split; [done|].
  pattern c. apply (number_head_elim _ c Hh); [done|]. intros d Hd. pattern d. by apply digit_cases.
Qed.

Lemma separated_cons s l : l ≠ [] → separated (s :: l) = s +:+ "," +:+ separated l.
Proof. by destruct l. Qed.

Lemma parse_items_print l :
  Forall parses l → l ≠ [] → ∀ fuel start arr js p r,
  kind arr = JsonKind.Array → mapM item_content (array_items arr) = Some js →
  S (2 * String.length (separated (map print l) +:+ "]" +:+ r)) < fuel →
  ∃ v p', parse_items fuel start arr (mkCursor p (separated (map print l) +:+ "]" +:+ r))
            ⇓ Some (v, mkCursor p' r) ∧ content v = Some (JArray (js ++ l)).
Proof.
  induction 1 as [|j l Hj Hl IH]; [done|]. intros _ [|fuel] start arr js p r Hk Hjs Hf; [lia|].
  cbn [map parse_items] in *. destruct (decide (l = [])) as [->|Hne].
  - cbn [map separated] in *.
    destruct (Hj fuel p ("]" +:+ r)) as (v & p' & -> & Hv); [by right; left|lia|].
    cbn [mbind cxx_bind]. rewrite string_cons_app, skip_nonspace, consume_eq by done.
    eexists _, _. split; [done|]. rewrite content_offsets, content_array by done. simpl.
    by rewrite (mapM_snoc _ _ _ js j).
  - rewrite separated_cons in * by (by destruct l). rewrite !string_app_assoc in *.
    destruct (Hj fuel p ("," +:+ separated (map print l) +:+ "]" +:+ r)) as (v & p' & -> & Hv);
      [by left|lia|].
    cbn [mbind cxx_bind]. rewrite string_cons_app, skip_nonspace, consume_ne, consume_eq by done.
    rewrite !length_string_app in Hf.
    destruct (IH Hne fuel start (push arr (Some v)) (js ++ [j]) (S p') r) as (w & q & Hw & Hc);
      [done|by apply mapM_snoc|rewrite !length_string_app; simpl in *; lia|].
    exists w, q. split; [done|]. by rewrite Hc, <- app_assoc.
Qed.

Lemma parse_value_array fuel p s : parse_value (S fuel) (mkCursor p (String "[" s)) =
  match consume "]"%char (skip_whitespace (mkCursor (S p) s)) with
  | Some c' => Ret (Some (with_offsets p (pos c') json_array, c'))
  | None => parse_items fuel p json_array (skip_whitespace (mkCursor (S p) s))
  end.
Proof. by rewrite parse_value_S. Qed.
Lemma parse_value_object fuel p s : parse_value (S fuel) (mkCursor p (String "{" s)) =
  match consume "}"%char (skip_whitespace (mkCursor (S p) s)) with
  | Some c' => Ret (Some (with_offsets p (pos c') json_object, c'))
  | None => parse_fields fuel p json_object (skip_whitespace (mkCursor (S p) s))
  end.
Proof. by rewrite parse_value_S. Qed.

Lemma parses_array l : Forall printable l → Forall parses l → parses (JArray l).
Proof.
  intros Hp Hl [|fuel] p r Hr Hf; [lia|]. cbn [print] in *.
  rewrite !string_app_assoc, string_cons_app, string_nil_app in *. rewrite parse_value_array.
  destruct l as [|j l].
  - cbn [map separated]. rewrite !string_nil_app, string_cons_app, skip_nonspace, consume_eq by done.
    by eexists _, _.
  - set (txt := separated (map print (j :: l))) in *.
    assert (Ht : ∃ c s, txt +:+ "]" +:+ r = String c s ∧ is_json_space c = false ∧ c ≠ "]"%char).
    { apply Forall_cons in Hp as [Hj _]. destruct (print_head j Hj) as (c & s & Hs & Hc).
      subst txt. cbn [map]. destruct (map print l) eqn:El.
      - exists c, (s +:+ "]" +:+ r). cbn [separated]. rewrite Hs. by rewrite string_cons_app.
      - rewrite separated_cons, Hs by done. rewrite !string_cons_app. by eexists _, _. }
    destruct Ht as (c & s & Ht & Hc & Hn).
    rewrite Ht, skip_nonspace, consume_ne by done. rewrite <- Ht. subst txt.
    destruct (parse_items_print (j :: l) Hl) with (fuel := fuel) (start := p) (arr := json_array)
      (js := @nil Json) (p := S p) (r := r) as (v & q & Hv & Hcv); try done.
    { cbn [String.length] in Hf. lia. }
    by exists v, q.
Qed.

(** ** Objects *)
Lemma set_field_fresh {A} key (x : A) l : key ∉ l.*1 → set_field key x l = l ++ [(key, x)].
Proof.
  induction l as [|[k y] l IH]; simpl; intros Hk; [done|]. apply not_elem_of_cons in Hk as [Hne Hk].
  rewrite bool_decide_false by done. by rewrite IH.
Qed.
Lemma find_key_None {A} key (l : list (string * A)) : key ∉ l.*1 → find_key key l = None.
Proof.
  unfold find_key. induction l as [|[k y] l IH]; simpl; intros Hk; [done|].
  apply not_elem_of_cons in Hk as [Hne Hk]. rewrite filter_cons, decide_False by done. by apply IH.
Qed.
Lemma field_contents_keys l js : mapM field_content l = Some js → l.*1 = js.*1.
Proof.
  intros H. apply mapM_Some in H. induction H as [|[k o] [k' j] l js Hf _ IH]; [done|].
  rewrite !fmap_cons. f_equal; [|done]. unfold field_content in Hf. simpl in *.
  by destruct (item_content o); simplify_eq/=.
Qed.

(** One field, with whatever follows it. *)
Lemma parse_field_print key j fuel start obj p x :
  all_chars (escapes key_char) key → parses j → delimited x →
  get obj key = None → 2 * String.length (print_field (key, j) +:+ x) < fuel →
  ∃ v p', content v = Some j ∧
    parse_fields (S fuel) start obj (mkCursor p (print_field (key, j) +:+ x)) =
    match consume "}"%char (skip_whitespace (mkCursor p' x)) with
    | Some c => Ret (Some (with_offsets start (pos c) (set obj key (Some v)), c))
    | None =>
        match consume ","%char (skip_whitespace (mkCursor p' x)) with
        | Some c => parse_fields fuel start (set obj key (Some v)) c
        | None => Ret None
        end
    end.
Proof.
  intros Hkey Hj Hx Hget Hf. unfold print_field in *. cbn [fst snd] in *. rewrite !string_app_assoc in *.
  destruct (parse_string_quoted key_char key p (":" +:+ print j +:+ x) Hkey) as (p1 & Hs).
  destruct (Hj fuel (S p1) x Hx) as (v & p' & Hv & Hc).
  { rewrite !length_string_app in Hf. rewrite length_string_app. lia. }
  exists v, p'. split; [done|]. cbn [parse_fields].
  assert (Hq : skip_whitespace (mkCursor p (quoted (escape key_char key) +:+ ":" +:+ print j +:+ x))
               = mkCursor p (quoted (escape key_char key) +:+ ":" +:+ print j +:+ x)).
  { unfold quoted. rewrite !string_app_assoc, string_cons_app. by apply skip_nonspace. }
  rewrite Hq, Hs. cbn [mbind cxx_bind]. rewrite string_cons_app, string_nil_app.
  rewrite skip_nonspace, consume_eq by done. rewrite Hv. cbn [mbind cxx_bind].
  by rewrite bool_decide_true.
Qed.

Lemma parse_fields_print l :
  Forall (λ f, all_chars (escapes key_char) f.1) l → Forall (λ f, parses f.2) l → l ≠ [] →
  ∀ fuel start obj js p r,
  kind obj = JsonKind.Object → mapM field_content (object_fields obj) = Some js →
  NoDup (js.*1 ++ l.*1) →
  S (2 * String.length (separated (map print_field l) +:+ "}" +:+ r)) < fuel →
  ∃ v p', parse_fields fuel start obj (mkCursor p (separated (map print_field l) +:+ "}" +:+ r))
            ⇓ Some (v, mkCursor p' r) ∧ content v = Some (JObject (js ++ l)).
Proof.
  intros Hkeys Hl. induction Hl as [|[key j] l Hj Hl IH]; [done|].
  apply Forall_cons in Hkeys as [Hkey Hkeys]. simpl in Hkey, Hj.
  intros _ [|fuel] start obj js p r Hk Hjs Hnd Hf; [lia|].
  assert (Hfresh : key ∉ (object_fields obj).*1).
  { rewrite (field_contents_keys _ _ Hjs). intros Hin. apply NoDup_app in Hnd as (_ & Hd & _).
    apply (Hd key Hin). left. }
  assert (Hget : get obj key = None).
  { unfold get. by rewrite bool_decide_true, find_key_None by done. }
  assert (Hset : ∀ v, content v = Some j →
    mapM field_content (object_fields (set obj key (Some v))) = Some (js ++ [(key, j)])).
  { intros v Hv. simpl. rewrite set_field_fresh by done. apply mapM_snoc; [done|].
    unfold field_content. simpl. by rewrite Hv. }
  cbn [map] in *. destruct (decide (l = [])) as [->|Hne].
  - cbn [map separated] in *.
    destruct (parse_field_print key j fuel start obj p ("}" +:+ r)) as (v & p' & Hv & ->);
      [done|done|by right; right|done|lia|].
    rewrite string_cons_app, skip_nonspace, consume_eq by done.
    eexists _, _. split; [done|]. rewrite content_offsets, content_object by done.
    by rewrite (Hset v Hv).
  - rewrite separated_cons in * by (by destruct l). rewrite !string_app_assoc in *.
    destruct (parse_field_print key j fuel start obj p ("," +:+ separated (map print_field l) +:+ "}" +:+ r))
      as (v & p' & Hv & ->); [done|done|by left|done|lia|].
    rewrite string_cons_app, skip_nonspace, consume_ne, consume_eq by done.
    rewrite !length_string_app in Hf.
    destruct (IH Hkeys Hne fuel start (set obj key (Some v)) (js ++ [(key, j)]) (S p') r)
      as (w & q & Hw & Hc).
    { done. } { by apply Hset. } { rewrite fmap_app, <- app_assoc. done. }
    { rewrite !length_string_app; simpl in *; lia. }
    exists w, q. split; [done|]. by rewrite Hc, <- app_assoc.
Qed.

Lemma parses_object l :
  NoDup l.*1 → Forall (λ f, all_chars key_ok f.1) l → Forall (λ f, parses f.2) l →
  parses (JObject l).
Proof.
  intros Hnd Hk Hl [|fuel] p r Hr Hf; [lia|]. cbn [print] in *.
  change (map _ l) with (map print_field l) in *.
  rewrite !string_app_assoc, string_cons_app, string_nil_app in *. rewrite parse_value_object. destruct l as [|f l].
  - cbn [map separated]. rewrite !string_nil_app, string_cons_app, skip_nonspace, consume_eq by done.
    by eexists _, _.
  - set (txt := separated (map print_field (f :: l))) in *.
    assert (Ht : ∃ s, txt +:+ "}" +:+ r = String quote s).
    { subst txt. cbn [map]. unfold print_field at 1, quoted. destruct (map print_field l) eqn:El.
      - cbn [separated]. rewrite !string_app_assoc, string_cons_app. by eexists.
      - rewrite separated_cons, !string_app_assoc, string_cons_app by done. by eexists. }
    destruct Ht as (s & Ht).
    rewrite Ht, skip_nonspace, consume_ne by done. rewrite <- Ht. subst txt.
    destruct (parse_fields_print (f :: l)) with (fuel := fuel) (start := p) (obj := json_object)
      (js := @nil (string * Json)) (p := S p) (r := r) as (v & q & Hv & Hcv); try done.
    { eapply Forall_impl; [exact Hk|]. intros [k j] Hok. simpl in *. clear -Hok.
      induction k; simpl in *; [done|]. destruct Hok. split; [by apply key_ok_escapes|auto]. }
    { cbn [String.length] in Hf. lia. }
    by exists v, q.
Qed.

Lemma printable_parses j : printable j → parses j.
Proof.
  induction j as [j Ha Ho|l IH|l IH] using json_induction; intros Hj; inversion Hj; subst.
  - apply parses_null.
  - apply parses_bool.
  - by apply parses_int.
  - apply parses_string.
  - by destruct (Ha l).
  - by destruct (Ho l).
  - apply parses_array; [done|]. apply Forall_forall. intros x Hx.
    rewrite Forall_forall in IH. rewrite Forall_forall in H0. auto.
  - apply parses_object; [done|done|]. apply Forall_forall. intros x Hx.
    rewrite Forall_forall in IH. rewrite Forall_forall in H2. auto.
Qed.

Lemma printable_reads j : printable j → ∃ v, parse_json (print j) ⇓ Some v ∧ content v = Some j.
Proof.
  intros Hj. unfold parse_json. destruct (print_head j Hj) as (c & s & Hs & Hc & _).
  assert (Hw : skip_whitespace (mkCursor 0 (print j)) = mkCursor 0 (print j))
    by (rewrite Hs; by apply skip_nonspace).
  destruct (printable_parses j Hj (parse_fuel (print j)) 0 "") as (v' & p & Hp & Hc'); [done| |].
  { rewrite string_app_nil. unfold parse_fuel. lia. }
  rewrite string_app_nil in Hp. exists v'. by rewrite Hw, Hp.
Qed.
End Printing.

(** ** The serializer prints the content *)
Definition serialize_item (o : option JsonValue) : cxx string :=
  match o with Some v => serialize_impl v | None => UB end.
Definition serialize_field (f : string * option JsonValue) : cxx string :=
  x ← serialize_item f.2; Ret (quoted (escape escape_key_char f.1) +:+ ":" +:+ x).
Fixpoint serialize_list {A} (f : A → cxx string) (l : list A) : cxx (list string) :=
  match l with [] => Ret [] | a :: l => x ← f a; xs ← serialize_list f l; Ret (x :: xs) end.

Lemma serialize_array v : kind v = JsonKind.Array →
  serialize_impl v = (l ← serialize_list serialize_item (array_items v); Ret ("[" +:+ separated l +:+ "]")).
Proof.
  destruct v as [k b e x i d s items fields]. cbn [kind]. intros ->. cbn [serialize_impl array_items].
  f_equal. induction items as [|[y|] l IH]; [done| |done].
  cbn [serialize_list serialize_item]. by rewrite <- IH.
Qed.
Lemma serialize_object v : kind v = JsonKind.Object →
  serialize_impl v = (l ← serialize_list serialize_field (object_fields v); Ret ("{" +:+ separated l +:+ "}")).
Proof.
  destruct v as [k b e x i d s items fields]. cbn [kind]. intros ->. cbn [serialize_impl object_fields].
  f_equal. induction fields as [|[key [y|]] l IH]; [done| |done].
  cbn [serialize_list]. rewrite <- IH. unfold serialize_field. cbn [fst snd serialize_item].
  by destruct (serialize_impl y).
Qed.
Lemma serialize_list_map {A B} (f : A → cxx string) (c : A → option B) g l js :
  mapM c l = Some js → (∀ a j, a ∈ l → c a = Some j → j ∈ js → f a ⇓ g j) →
  serialize_list f l ⇓ map g js.
Proof.
  intros H Hf. apply mapM_Some in H. induction H as [|a j l js Ha _ IH]; [done|]. cbn [serialize_list].
  rewrite (Hf a j) by (done || left). simpl. rewrite IH; [done|]. intros b i Hb Hc Hi. apply Hf; [by right|done|by right].
Qed.

Lemma content_kind v j : content v = Some j →
  kind v = match j with
           | JNull => JsonKind.Null | JBool _ => JsonKind.Bool | JInt _ => JsonKind.Int
           | JFloat _ => JsonKind.Float | JString _ => JsonKind.String_
           | JArray _ => JsonKind.Array | JObject _ => JsonKind.Object
           end.
Proof.
  destruct v as [[] ? ? ? ? ? ? items fields]; simpl; try (by intros [= <-]);
    intros H; apply fmap_Some in H as (? & _ & ->); done.
Qed.
Lemma content_items v l : content v = Some (JArray l) → mapM item_content (array_items v) = Some l.
Proof.
  intros H. pose proof (content_kind _ _ H) as Hk. rewrite content_array in H by done.
  apply fmap_Some in H as (l' & -> & [= ->]). done.
Qed.
Lemma content_fields v l : content v = Some (JObject l) → mapM field_content (object_fields v) = Some l.
Proof.
  intros H. pose proof (content_kind _ _ H) as Hk. rewrite content_object in H by done.
  apply fmap_Some in H as (l' & -> & [= ->]). done.
Qed.

Lemma serialize_prints j : ∀ v, content v = Some j → serialize_impl v ⇓ print j.
Proof.
  induction j as [j Ha Ho|l IH|l IH] using json_induction; intros v Hv;
    pose proof (content_kind _ _ Hv) as Hk.
  - destruct v as [k ? ? ? ? ? ? items fields]. simpl in Hk. subst k.
    destruct j as [| | | | |l|l]; simplify_eq/=; try done; [by destruct (Ha l)|by destruct (Ho l)].
  - rewrite serialize_array by done.
    rewrite (serialize_list_map _ _ print _ _ (content_items _ _ Hv)); [done|].
    intros [x|] j _ Hx Hj; [|done]. rewrite Forall_forall in IH. by apply (IH j Hj).
  - rewrite serialize_object by done.
    rewrite (serialize_list_map _ _ print_field _ _ (content_fields _ _ Hv)); [done|].
    intros [key o] [key' j] _ Hf Hj. rewrite Forall_forall in IH. specialize (IH _ Hj).
    unfold field_content in Hf. cbn [fst snd] in *. destruct (item_content o) eqn:Eo; simplify_eq/=.
    destruct o as [x|]; [|done]. unfold serialize_field. cbn [fst snd serialize_item].
    rewrite (IH x Eo). done.
Qed.

(** ** The round trip *)
(** C19: the serializer's text of a value whose content has only integers in
    range, strings, booleans, nulls, arrays, and objects with distinct keys
    without control characters, parses to a value of the same content. *)
Theorem json_roundtrip v j :
  content v = Some j → printable j →
  ∃ text v', serialize_json v ⇓ text ∧ parse_json text ⇓ Some v' ∧ content v' = Some j.
Proof.
  intros Hv Hj. destruct (printable_reads j Hj) as (v' & Hp & Hc). exists (print j), v'.
  split; [by apply serialize_prints|done].
Qed.

Definition sample : JsonValue :=
  set (set json_object "a" (Some (push (push json_array (Some (json_int (-12)))) (Some json_null))))
    "b" (Some (json_string (String (chr 7) (String quote "x")))).
Definition sample_content : Json :=
  JObject [("a", JArray [JInt (-12); JNull]); ("b", JString (String (chr 7) (String quote "x")))].
Lemma json_roundtrip_witness :
  ∃ text v', serialize_json sample ⇓ text ∧ parse_json text ⇓ Some v' ∧ content v' = Some sample_content.
Proof.
  apply json_roundtrip; [reflexivity|]. apply printable_object.
  - repeat (constructor; [vm_compute; set_solver|]). constructor.
  - repeat constructor.
  - repeat constructor.
Defined.

(** ** What the parser returns *)
(** Integers in the machine's range, and the keys of an object distinct. *)
Inductive well_formed : Json → Prop :=
  | wf_null : well_formed JNull
  | wf_bool b : well_formed (JBool b)
  | wf_int i : in_int64 i = true → well_formed (JInt i)
  | wf_float d : well_formed (JFloat d)
  | wf_string s : well_formed (JString s)
  | wf_array l : Forall well_formed l → well_formed (JArray l)
  | wf_object l : NoDup l.*1 → Forall (λ f, well_formed f.2) l → well_formed (JObject l).
Lemma printable_well_formed `{Printer} j : printable j → well_formed j.
Proof.
  induction j as [j Ha Ho|l IH|l IH] using json_induction; intros Hj; inversion Hj; subst;
    try by constructor.
  - by destruct (Ha l).
  - by destruct (Ho l).
  - constructor. rewrite Forall_forall in IH |- *. rewrite Forall_forall in H1. auto.
  - constructor; [done|]. rewrite Forall_forall in IH |- *. rewrite Forall_forall in H3. auto.
Qed.
Definition good (v : JsonValue) : Prop := ∃ j, content v = Some j ∧ well_formed j.
Definition good_result (m : cxx (option (JsonValue * cursor))) : Prop :=
  ∀ v c, m ⇓ Some (v, c) → good v.

Lemma good_offsets b e v : good v → good (with_offsets b e v).
Proof. intros (j & Hv & Hj). exists j. by rewrite content_offsets. Qed.

Lemma from_chars_int64_range s z t : from_chars_int64 s = ConvOk (z, t) → in_int64 z = true.
Proof.
  unfold from_chars_int64. destruct (match s with EmptyString => _ | String _ _ => _ end) as [neg r].
  destruct (span_digits r) as [[|d ds] u]; [done|]. cbv zeta.
  destruct (in_int64 _) eqn:E; [|done]. by intros [= <- _].
Qed.
Lemma parse_number_good c : good_result (Ret (parse_number c)).
Proof.
  intros v c' [= H]. unfold parse_number in H.
  apply bind_Some in H as (c1 & _ & H). apply bind_Some in H as ([b1 c2] & _ & H).
  apply bind_Some in H as ([b2 c3] & _ & H).
  assert (Hf : ∀ o, (w ← float_node (text_between c c3) (pos c) o; Some (w, c3)) = Some (v, c') → good v).
  { intros o Ho. apply bind_Some in Ho as (w & Hw & [= <- _]).
    unfold float_node in Hw. apply bind_Some in Hw as (d & _ & [= <-]). eexists. split; [done|]. constructor. }
  destruct (b1 || b2); [by eapply Hf|].
  destruct (from_chars_int64 _) as [[z [|? ?]]| |] eqn:E; try by eapply Hf in H.
  injection H as <- _. apply from_chars_int64_range in E. eexists. split; [done|]. by constructor.
Qed.

Lemma get_None_fresh obj key js :
  kind obj = JsonKind.Object → mapM field_content (object_fields obj) = Some js →
  get obj key = None → key ∉ (object_fields obj).*1.
Proof.
  unfold get. intros Hk Hjs. rewrite bool_decide_true by done. apply mapM_Some in Hjs.
  unfold find_key. induction Hjs as [|[k o] f l js Hf Hjs IH]; [intros _; apply not_elem_of_nil|].
  rewrite filter_cons, fmap_cons. simpl. unfold field_content in Hf. simpl in Hf.
  case_decide as Hkey; simpl; [by destruct o|]. intros H. apply not_elem_of_cons.
  split; [congruence|by apply IH].
Qed.

Lemma parse_good fuel :
  (∀ c, good_result (parse_value fuel c)) ∧
  (∀ start arr js c, kind arr = JsonKind.Array → mapM item_content (array_items arr) = Some js →
     Forall well_formed js → good_result (parse_items fuel start arr c)) ∧
  (∀ start obj js c, kind obj = JsonKind.Object → mapM field_content (object_fields obj) = Some js →
     NoDup js.*1 → Forall (λ f, well_formed f.2) js → good_result (parse_fields fuel start obj c)).
Proof.
  induction fuel as [|fuel (IHv & IHi & IHf)]; [by repeat split; intros; intros ???|].
  split; [|split].
  - intros c0 v c'. cbn [parse_value]. set (c := skip_whitespace c0).
    destruct (at_end c); [done|]. destruct (bool_decide _).
    { unfold parse_string_value. intros (s & _ & H)%cxx_bind_ret. destruct s as [[s d]|]; [|done].
      injection H as <- _. eexists. split; [done|]. constructor. }
    destruct (bool_decide _).
    { destruct (consume "{"%char c) as [c1|]; [|done]. destruct (consume _ _) as [c2|].
      - intros [= <- _]. exists (JObject []). split; [done|]. constructor; [apply NoDup_nil_2|constructor].
      - apply (IHf _ _ []); [done|done|apply NoDup_nil_2|constructor]. }
    destruct (bool_decide _).
    { destruct (consume "["%char c) as [c1|]; [|done]. destruct (consume _ _) as [c2|].
      - intros [= <- _]. exists (JArray []). split; [done|]. by repeat constructor.
      - apply (IHi _ _ []); [done|done|constructor]. }
    destruct (_ || _).
    { unfold parse_bool. destruct (starts_with "true" c); [|destruct (starts_with "false" c); [|done]];
        intros [= <- _]; (eexists; split; [done|]); constructor. }
    destruct (bool_decide _).
    { unfold parse_null. destruct (starts_with _ _); [|done]. intros [= <- _].
      eexists. split; [done|]. constructor. }
    destruct (_ || _); [apply parse_number_good|done].
  - intros start arr js c Hk Hjs Hw v c'. cbn [parse_items]. intros (item & Hi & H)%cxx_bind_ret.
    destruct item as [[item c1]|]; [|done]. apply IHv in Hi as (j & Hj & Hwj).
    pose proof (mapM_snoc item_content _ (Some item) _ j Hjs Hj) as Hjs'.
    assert (Forall well_formed (js ++ [j])) as Hw' by (apply Forall_app; by split; [|constructor]).
    destruct (consume "]"%char _) as [c2|].
    + injection H as <- _. apply good_offsets. exists (JArray (js ++ [j])).
      split; [|by constructor]. rewrite content_array by done. simpl. by rewrite Hjs'.
    + destruct (consume ","%char _) as [c2|]; [|done]. by eapply IHi in H.
  - intros start obj js c Hk Hjs Hnd Hw v c'. cbn [parse_fields]. intros (key & _ & H)%cxx_bind_ret.
    destruct key as [[key c1]|]; [|done]. destruct (consume _ _) as [c2|]; [|done].
    apply cxx_bind_ret in H as (val & Hval & H). destruct val as [[val c3]|]; [|done].
    apply IHv in Hval as (j & Hj & Hwj).
    destruct (bool_decide (get obj key = None)) eqn:Eg; [|done]. apply bool_decide_eq_true in Eg.
    assert (Hfresh : key ∉ (object_fields obj).*1) by (eapply get_None_fresh; eauto).
    assert (Hjs' : mapM field_content (object_fields (set obj key (Some val))) = Some (js ++ [(key, j)])).
    { simpl. rewrite set_field_fresh by done. apply mapM_snoc; [done|].
      unfold field_content. simpl. by rewrite Hj. }
    assert (Hnd' : NoDup (js ++ [(key, j)]).*1).
    { rewrite fmap_app. apply NoDup_app. split; [done|]. split; [|apply NoDup_singleton].
      intros x Hx ->%list_elem_of_singleton. rewrite (field_contents_keys _ _ Hjs) in Hfresh. done. }
    assert (Forall (λ f, well_formed f.2) (js ++ [(key, j)])) as Hw'
      by (apply Forall_app; by split; [|constructor]).
    destruct (consume "}"%char _) as [c4|].
    + injection H as <- _. apply good_offsets. exists (JObject (js ++ [(key, j)])).
      split; [|by constructor]. rewrite content_object by done. by rewrite Hjs'.
    + destruct (consume ","%char _) as [c4|]; [|done]. by eapply IHf in H.
Qed.

Lemma parse_json_good input : ∃ o, parse_json input ⇓ o ∧ ∀ v, o = Some v → good v.
Proof.
  destruct (parse_json_total input) as (o & Ho). exists o. split; [done|]. intros v ->.
  unfold parse_json in Ho. apply cxx_bind_ret in Ho as (r & Hr & H). destruct r as [[w c]|]; [|done].
  destruct (at_end _); [|done]. injection H as <-. by apply (proj1 (parse_good _)) in Hr.
Qed.
(** Every text is accepted or rejected, and an accepted one is a value
    without null children, its integers in the range of [int64_t], the keys of
    every object distinct. *)
Theorem parse_json_well_formed input :
  ∃ o, parse_json input ⇓ o ∧ ∀ v, o = Some v → good v.
Proof. apply parse_json_good. Qed.

(** ** Keys with control characters *)
Lemma parse_string_loop_control s :
  ¬ all_chars (λ c, is_control c = false) s → ∀ fuel acc p r,
  String.length (escape escape_key_char s +:+ r) < fuel →
  parse_string_loop fuel acc (mkCursor p (escape escape_key_char s +:+ r)) ⇓ None.
Proof.
  induction s as [|c s IH]; cbn [all_chars escape]; intros Hs fuel acc p r Hf; [by destruct Hs|].
  rewrite string_app_assoc in *. destruct fuel as [|fuel]; [lia|].
  destruct (is_control c) eqn:Ec.
  - assert (Hq : c ≠ quote) by (by intros ->). assert (Hb : c ≠ backslash) by (by intros ->).
    unfold escape_key_char at 1. rewrite !bool_decide_false by done.
    rewrite string_cons_app, string_nil_app. cbn [parse_string_loop].
    rewrite at_end_cons. unfold peek. cbn [rest]. by rewrite !bool_decide_false, Ec by done.
  - destruct (escape_key_char_escapes c Ec) as (Hlen & Hc).
    destruct (Hc fuel acc p (escape escape_key_char s +:+ r)) as (p' & ->).
    rewrite length_string_app in Hf. apply IH; [naive_solver|lia].
Qed.

(** The serializer does not escape the control characters of keys: an
    object whose first key has one serializes to a text that the parser
    rejects. *)
Theorem control_key_is_rejected v key j l :
  content v = Some (JObject ((key, j) :: l)) → ¬ all_chars (λ c, is_control c = false) key →
  ∃ text, serialize_json v ⇓ text ∧ parse_json text ⇓ None.
Proof.
  intros Hv Hkey. exists (print (JObject ((key, j) :: l))). split; [by apply serialize_prints|].
  cbn [print map]. set (tl := map _ l).
  assert (Ht : ∃ r, separated ((quoted (escape key_char key) +:+ ":" +:+ print j) :: tl) +:+ "}"
                    = String quote (escape escape_key_char key +:+ r)).
  { unfold quoted. destruct tl as [|t tl].
    - cbn [separated]. rewrite !string_app_assoc, string_cons_app. by eexists.
    - rewrite separated_cons by done. rewrite !string_app_assoc, string_cons_app. by eexists. }
  destruct Ht as (r & Ht). cbn [fst snd]. rewrite Ht, string_cons_app, string_nil_app.
  unfold parse_json. rewrite skip_nonspace by done. unfold parse_fuel.
  set (n := 2 * _). rewrite parse_value_object, skip_nonspace, consume_ne by done.
  assert (Hn : n = S (S (2 * String.length (String quote (escape escape_key_char key +:+ r)))))
    by (subst n; simpl; lia).
  rewrite Hn. cbn [parse_fields]. rewrite skip_nonspace by done. unfold parse_string.
  rewrite consume_eq. by rewrite parse_string_loop_control by (done || simpl; lia).
Qed.

Lemma control_key_is_rejected_witness :
  ∃ text, serialize_json (set json_object (String (chr 10) "") (Some (json_int 1))) ⇓ text ∧
          parse_json text ⇓ None.
Proof. apply (control_key_is_rejected _ (String (chr 10) "") (JInt 1) []); [reflexivity|by intros []]. Defined.

(** A float of integral value is printed without a fraction, and read back as
    an integer. *)
Example integral_float_becomes_int :
  serialize_json (json_float (d_of_Z 1)) ⇓ "1" ∧
  ∃ v, parse_json "1" ⇓ Some v ∧ kind v = JsonKind.Int.
Proof. split; [vm_compute; reflexivity|]. eexists. split; vm_compute; reflexivity. Qed.
