(* ===== verification/ValueJson.v ===== *)
(** * Values as JSON (src/runtime/evaluator/value_json.cpp, src/base/support/json.hpp,
      src/runtime/engine/wire_value.cpp)

    The text of a value, the value of a text, and the argument lists that are
    sent to a capability.  The entries of a struct are written in the iteration
    order of its map, which is the order of the list here. *)
From S2P Require Import JsonProps JsonRoundtrip JsonCorrect.
From S2P Require Import Prelude Numeric Value Json.
From Stdlib Require Import Ascii SpecFloat.
Open Scope nat_scope.

(** ** Writing *)
Definition write_escaped_json_string (s : string) : string := quoted (escape escape_char s).
Fixpoint has_char (c : ascii) (s : string) : bool :=
  match s with String a r => bool_decide (a = c) || has_char c r | EmptyString => false end.
Definition write_float (d : double) : string :=
  match d with
  | S754_nan | S754_infinity _ => "null"
  | _ =>
      let sv := d_to_chars d in
      if negb (has_char "."%char sv) && negb (has_char "e"%char sv) && negb (has_char "E"%char sv)
      then sv +:+ ".0" else sv
  end.
Fixpoint write_json_impl (v : Value) : string :=
  match v with
  | NoneValue => "null"
  | BoolValue b => if b then "true" else "false"
  | IntValue i => to_string i
  | FloatValue d => write_float d
  | StringValue s | DecimalValue s | DurationValue s => write_escaped_json_string s
  | StructValue type_name fields =>
      "{" +:+ write_escaped_json_string "_type" +:+ ":" +:+ write_escaped_json_string type_name +:+
      (fix go (l : list (string * option Value)) := match l with
       | [] => ""
       | (name, val) :: l =>
           "," +:+ write_escaped_json_string name +:+ ":" +:+
           match val with Some x => write_json_impl x | None => "null" end +:+ go l
       end) fields +:+ "}"
  | ListValue items =>
      "[" +:+
      (fix go (first : bool) (l : list (option Value)) := match l with
       | [] => ""
       | val :: l =>
           (if first then "" else ",") +:+
           match val with Some x => write_json_impl x | None => "null" end +:+ go false l
       end) true items +:+ "]"
  | EnumValue enum_name variant =>
      "{" +:+ write_escaped_json_string "_enum" +:+ ":" +:+ write_escaped_json_string enum_name +:+
      "," +:+ write_escaped_json_string "_variant" +:+ ":" +:+ write_escaped_json_string variant +:+ "}"
  | OptionalValue (Some x) => write_json_impl x
  | OptionalValue None => "null"
  end.
Definition value_to_json (v : Value) : string := write_json_impl v.

(** ** Reading *)
Definition string_field_value (object : JsonValue) (field_name : string) : option string :=
  match get object field_name with
  | Some field => if bool_decide (kind field = JsonKind.String_) then Some (string_val field) else None
  | None => None
  end.
(** [value_from_json_value] and [struct_or_enum_from_json_object], which call
    each other. *)
Fixpoint value_from_json_value (v : JsonValue) : option Value :=
  match v with
  | mkJson k _ _ b i d s items fields =>
      match k with
      | JsonKind.Null => Some NoneValue
      | JsonKind.Bool => Some (BoolValue b)
      | JsonKind.Int => Some (IntValue i)
      | JsonKind.Float => Some (FloatValue d)
      | JsonKind.String_ => Some (StringValue s)
      | JsonKind.Array =>
          ListValue <$> (fix go (l : list (option JsonValue)) := match l with
            | [] => Some []
            | None :: _ => None
            | Some x :: l => x ← value_from_json_value x; xs ← go l; Some (Some x :: xs)
            end) items
      | JsonKind.Object =>
          match string_field_value v "_enum", string_field_value v "_variant" with
          | Some enum_name, Some variant_name => Some (EnumValue enum_name variant_name)
          | _, _ =>
              let type_name := default "" (string_field_value v "_type") in
              StructValue type_name <$>
              (fix go (l : list (string * option JsonValue)) acc := match l with
               | [] => Some acc
               | (key, json_field) :: l =>
                   if bool_decide (key = "_type") then go l acc
                   else match json_field with
                        | None => None
                        | Some x =>
                            x ← value_from_json_value x;
                            go l (emplace key (Some x) acc)
                        end
               end) fields []
          end
      end
  end.
Definition value_from_json (json : string) : cxx (option Value) :=
  parsed ← parse_json json;
  Ret (match parsed with Some v => value_from_json_value v | None => None end).

(** ** Argument lists on the wire *)
Definition serialize_value_for_wire_json (v : Value) : string := value_to_json v.
Definition is_struct (v : Value) : bool := match v with StructValue _ _ => true | _ => false end.
Definition serialize_args_for_wire_json (args : list Value) : string :=
  match args with
  | [] => "{}"
  | [v] =>
      if is_struct v then serialize_value_for_wire_json v
      else "{" +:+ quoted "value" +:+ ":" +:+ serialize_value_for_wire_json v +:+ "}"
  | _ =>
      "{" +:+ quoted "args" +:+ ":[" +:+ separated (map serialize_value_for_wire_json args) +:+ "]}"
  end.
Definition parse_value_from_wire_json (json : string) : cxx (option Value) := value_from_json json.

(** ** Values survive their JSON text

    What a value's text reads back as, by way of the abstract JSON content. *)

(** ** The text of a value is the printed form of its content *)
#[export] Instance value_printer : Printer := {|
  key_char := escape_char;
  key_ok := λ _, True;
  float_text := write_float;
  key_ok_escapes c _ := escape_char_escapes c |}.

Fixpoint json_of (v : Value) : Json :=
  match v with
  | NoneValue => JNull
  | BoolValue b => JBool b
  | IntValue i => JInt i
  | FloatValue d => JFloat d
  | StringValue s | DecimalValue s | DurationValue s => JString s
  | StructValue t fs =>
      JObject (("_type", JString t) ::
        map (λ f, (f.1, match f.2 with Some x => json_of x | None => JNull end)) fs)
  | ListValue l => JArray (map (λ o, match o with Some x => json_of x | None => JNull end) l)
  | EnumValue e s => JObject [("_enum", JString e); ("_variant", JString s)]
  | OptionalValue (Some x) => json_of x
  | OptionalValue None => JNull
  end.
Definition child_json (o : option Value) : Json := match o with Some x => json_of x | None => JNull end.
Definition field_json (f : string * option Value) : string * Json := (f.1, child_json f.2).
Definition child_text (o : option Value) : string :=
  match o with Some x => write_json_impl x | None => "null" end.

Lemma write_list_eq l :
  write_json_impl (ListValue l) = "[" +:+ separated (map child_text l) +:+ "]".
Proof.
  cbn [write_json_impl]. f_equal. f_equal.
  assert (Hgo : ∀ o l, (fix go (first : bool) (l : list (option Value)) := match l with
       | [] => ""
       | val :: l =>
           (if first then "" else ",") +:+
           match val with Some x => write_json_impl x | None => "null" end +:+ go false l
       end) true (o :: l) = separated (map child_text (o :: l))).
  { intros o l0. revert o. induction l0 as [|o' l0 IH]; intros o.
    - cbn [map separated]. by rewrite string_nil_app, string_app_nil.
    - change (map child_text (o :: o' :: l0)) with (child_text o :: map child_text (o' :: l0)).
      rewrite separated_cons by done. rewrite <- IH. by rewrite !string_nil_app. }
  destruct l as [|o l]; [done|]. apply Hgo.
Qed.
Definition field_text (f : string * option Value) : string :=
  write_escaped_json_string f.1 +:+ ":" +:+ child_text f.2.
Lemma write_struct_eq t fs :
  write_json_impl (StructValue t fs) =
  "{" +:+ separated ((write_escaped_json_string "_type" +:+ ":" +:+ write_escaped_json_string t)
                     :: map field_text fs) +:+ "}".
Proof.
  cbn [write_json_impl].
  assert (Hgo : ∀ a, separated (a :: map field_text fs) =
    a +:+ (fix go (l : list (string * option Value)) := match l with
       | [] => ""
       | (name, val) :: l =>
           "," +:+ write_escaped_json_string name +:+ ":" +:+
           match val with Some x => write_json_impl x | None => "null" end +:+ go l
       end) fs).
  { induction fs as [|[name o] l IH]; intros a; [by rewrite string_app_nil|].
    cbn [map]. rewrite separated_cons by done. rewrite IH. unfold field_text. cbn [fst snd].
    by rewrite !string_app_assoc. }
  rewrite Hgo. by rewrite !string_app_assoc.
Qed.

Lemma value_text v : write_json_impl v = print (json_of v).
Proof.
  induction v as [v IH] using value_induction.
  destruct v as [|b|i|d|s|s|s|t fs|l|e s|[x|]]; try done.
  - rewrite write_struct_eq. cbn [json_of print map]. do 3 f_equal. f_equal. rewrite map_map.
    simpl in IH. induction fs as [|[k [x|]] fs IHfs]; [done| |]; simpl in IH.
    + apply Forall_cons in IH as [Hx IH]. cbn [map]. rewrite (IHfs IH). f_equal.
      unfold field_text. cbn [fst snd child_text]. by rewrite Hx.
    + cbn [map]. by rewrite (IHfs IH).
  - rewrite write_list_eq. cbn [json_of print]. do 2 f_equal. f_equal. rewrite map_map. simpl in IH.
    induction l as [|[x|] l IHl]; [done| |]; simpl in IH.
    + apply Forall_cons in IH as [Hx IH]. cbn [map]. rewrite (IHl IH). f_equal. exact Hx.
    + cbn [map]. by rewrite (IHl IH).
  - cbn [write_json_impl json_of print map separated fst snd]. by rewrite !string_app_assoc.
  - simpl in IH. apply Forall_cons in IH as [Hx _]. exact Hx.
Qed.

(** ** What a content reads as *)
Definition json_string_field (l : list (string * Json)) (name : string) : option string :=
  match find_field name l with Some (JString s) => Some s | _ => None end.
Fixpoint value_of (j : Json) : Value :=
  match j with
  | JNull => NoneValue
  | JBool b => BoolValue b
  | JInt i => IntValue i
  | JFloat d => FloatValue d
  | JString s => StringValue s
  | JArray l => ListValue (map (λ x, Some (value_of x)) l)
  | JObject l =>
      match json_string_field l "_enum", json_string_field l "_variant" with
      | Some e, Some s => EnumValue e s
      | _, _ =>
          StructValue (default "" (json_string_field l "_type"))
            (base.filter (λ f, f.1 ≠ "_type") (map (λ f, (f.1, Some (value_of f.2))) l))
      end
  end.

Lemma find_key_content key fs l :
  mapM field_content fs = Some l →
  match find_key key fs with
  | Some o => ∃ x j, o = Some x ∧ content x = Some j ∧ find_field key l = Some j
  | None => find_field key l = None
  end.
Proof.
  intros H. apply mapM_Some in H. unfold find_key.
  induction H as [|[k o] [k' j] fs l Hf _ IH]; [done|]. unfold field_content in Hf. cbn [fst snd] in Hf.
  destruct o as [x|]; [|done]. simpl in Hf. destruct (content x) eqn:Ex; simplify_eq/=.
  rewrite filter_cons. cbn [fst find_field]. case_decide; simpl.
  - rewrite bool_decide_true by done. eauto.
  - rewrite bool_decide_false by done. exact IH.
Qed.

Lemma string_field_content v l name :
  content v = Some (JObject l) → string_field_value v name = json_string_field l name.
Proof.
  intros Hv. pose proof (content_kind _ _ Hv) as Hk. pose proof (content_fields _ _ Hv) as Hf.
  pose proof (find_key_content name _ _ Hf) as H.
  unfold string_field_value, json_string_field, get. rewrite bool_decide_true by done.
  destruct (find_key name (object_fields v)) as [o|]; simpl.
  - destruct H as (x & j & -> & Hx & ->). pose proof (content_kind _ _ Hx) as Hkx. rewrite Hkx.
    destruct x as [k ? ? ? ? ? s ? ?]. cbn [kind string_val] in *. subst k.
    destruct j; try done. simpl in *. by simplify_eq.
  - by rewrite H.
Qed.

Lemma value_from_items items l :
  mapM item_content items = Some l →
  (∀ x j, j ∈ l → content x = Some j → value_from_json_value x = Some (value_of j)) →
  (fix go (l : list (option JsonValue)) := match l with
            | [] => Some []
            | None :: _ => None
            | Some x :: l => x ← value_from_json_value x; xs ← go l; Some (Some x :: xs)
            end) items = Some (map (λ x, Some (value_of x)) l).
Proof.
  intros H IH. apply mapM_Some in H. induction H as [|o j items l Ho _ IHl]; [done|].
  destruct o as [x|]; [|done]. cbn [map]. rewrite (IH x j) by (done || left). simpl.
  rewrite IHl; [done|]. intros y i Hi. apply IH. by right.
Qed.
Lemma value_from_fields fs l acc :
  mapM field_content fs = Some l →
  (∀ x j, j ∈ l.*2 → content x = Some j → value_from_json_value x = Some (value_of j)) →
  NoDup (acc.*1 ++ l.*1) →
  (fix go (l : list (string * option JsonValue)) acc := match l with
     | [] => Some acc
     | (key, json_field) :: l =>
         if bool_decide (key = "_type") then go l acc
         else match json_field with
              | None => None
              | Some x => x ← value_from_json_value x; go l (emplace key (Some x) acc)
              end
     end) fs acc =
  Some (acc ++ base.filter (λ f, f.1 ≠ "_type") (map (λ f, (f.1, Some (value_of f.2))) l)).
Proof.
  intros H. revert acc. apply mapM_Some in H.
  induction H as [|[key o] [key' j] fs l Hf _ IH]; intros acc Hval Hnd; [by rewrite app_nil_r|].
  unfold field_content in Hf. cbn [fst snd] in Hf. destruct o as [x|]; [|done]. simpl in Hf.
  destruct (content x) as [jx|] eqn:Ex; simplify_eq/=. rewrite filter_cons. cbn [fst snd].
  assert (Hval' : ∀ y i, i ∈ l.*2 → content y = Some i → value_from_json_value y = Some (value_of i))
    by (intros y i Hi; apply Hval; by right).
  apply NoDup_app in Hnd as Hnd'. destruct Hnd' as (Ha & Hd & Hl). apply NoDup_cons in Hl as [Hk Hl].
  destruct (decide (key' = "_type")) as [->|Hne].
  - rewrite bool_decide_true by done. rewrite decide_False by naive_solver. apply IH; [done|].
    apply NoDup_app. split; [done|]. split; [|done]. intros y Hy Hy'. apply (Hd y Hy). by right.
  - rewrite bool_decide_false by done. rewrite decide_True by done.
    rewrite (Hval x j) by (done || left). simpl. rewrite IH.
    + unfold emplace. assert (find_field key' acc = None) as ->.
      { apply find_field_None. intros Hin. apply (Hd key' Hin). left. }
      by rewrite <- app_assoc.
    + done.
    + apply NoDup_app. split; [by apply emplace_NoDup|]. split; [|done].
      intros y Hy Hy'. apply list_elem_of_fmap in Hy as (f & -> & Hf).
      apply emplace_elem in Hf as [Hf| ->].
      * apply (Hd f.1); [by apply list_elem_of_fmap_2|by right].
      * done.
Qed.

Lemma value_from_content j : ∀ v,
  content v = Some j → well_formed j → value_from_json_value v = Some (value_of j).
Proof.
  induction j as [j Ha Ho|l IH|l IH] using json_induction; intros v Hv Hw;
    pose proof (content_kind _ _ Hv) as Hk.
  - destruct v as [k ? ? ? ? ? ? items fields]. simpl in Hk. subst k.
    destruct j as [| | | | |l|l]; simplify_eq/=; try done; [by destruct (Ha l)|by destruct (Ho l)].
  - pose proof (content_items _ _ Hv) as Hi. destruct v as [k ? ? ? ? ? ? items fields].
    simpl in Hk, Hi. subst k. cbn [value_from_json_value]. inversion Hw as [| | | | |? Hws|]; subst.
    rewrite (value_from_items items l Hi); [done|]. intros x j Hj Hx.
    rewrite Forall_forall in IH. rewrite Forall_forall in Hws. by apply IH; [| |apply Hws].
  - pose proof (content_fields _ _ Hv) as Hf. pose proof (string_field_content v l) as Hs.
    destruct v as [k ? ? ? ? ? ? items fields]. simpl in Hk, Hf. subst k.
    cbn [value_from_json_value value_of]. rewrite !Hs by done.
    inversion Hw as [| | | | | |? Hnd Hws]; subst.
    rewrite (value_from_fields fields l [] Hf); [|intros x j Hj Hx|done].
    + by destruct (json_string_field l "_enum"), (json_string_field l "_variant").
    + apply list_elem_of_fmap in Hj as ([k j'] & -> & Hj). rewrite Forall_forall in IH.
      rewrite Forall_forall in Hws. by apply (IH _ Hj), (Hws _ Hj).
Qed.

(** ** The value that comes back *)
(** Decimals and durations come back as strings, an optional as what it holds,
    an absent one and a null entry as none. *)
Fixpoint normalize (v : Value) : Value :=
  match v with
  | DecimalValue s | DurationValue s => StringValue s
  | StructValue t fs =>
      StructValue t
        (map (λ f, (f.1, Some match f.2 with Some x => normalize x | None => NoneValue end)) fs)
  | ListValue l => ListValue (map (λ o, Some match o with Some x => normalize x | None => NoneValue end) l)
  | OptionalValue (Some x) => normalize x
  | OptionalValue None => NoneValue
  | _ => v
  end.
Definition normalize_child (o : option Value) : Value :=
  match o with Some x => normalize x | None => NoneValue end.
Definition is_string (v : Value) : bool := match v with StringValue _ => true | _ => false end.
Definition string_field (fs : list (string * option Value)) (name : string) : bool :=
  match find_field name fs with Some o => is_string (normalize_child o) | None => false end.

(** What the text distinguishes: integers in range, no floats, structs with
    distinct fields that neither use the name [_type] nor look like an enum. *)
Inductive transportable : Value → Prop :=
  | transportable_none : transportable NoneValue
  | transportable_bool b : transportable (BoolValue b)
  | transportable_int i : in_int64 i = true → transportable (IntValue i)
  | transportable_string s : transportable (StringValue s)
  | transportable_decimal s : transportable (DecimalValue s)
  | transportable_duration s : transportable (DurationValue s)
  | transportable_enum e s : transportable (EnumValue e s)
  | transportable_struct t fs :
      NoDup fs.*1 → "_type" ∉ fs.*1 → string_field fs "_enum" && string_field fs "_variant" = false →
      Forall (λ f, transportable_child f.2) fs → transportable (StructValue t fs)
  | transportable_list l : Forall transportable_child l → transportable (ListValue l)
  | transportable_optional o : transportable_child o → transportable (OptionalValue o)
with transportable_child : option Value → Prop :=
  | transportable_null : transportable_child None
  | transportable_some x : transportable x → transportable_child (Some x).

Lemma find_field_map {A B} (f : A → B) name (l : list (string * A)) :
  find_field name (map (λ p, (p.1, f p.2)) l) = f <$> find_field name l.
Proof. induction l as [|[k a] l IH]; [done|]. simpl. by case_bool_decide. Qed.

Lemma json_string_iff v : transportable v →
  (∀ s, json_of v = JString s ↔ normalize v = StringValue s).
Proof.
  induction v as [v IH] using value_induction. intros Hv s.
  destruct Hv as [| | | | | | |t fs _ _ _ _|l _|[x|] Ho]; simpl; try naive_solver.
  simpl in IH. apply Forall_cons in IH as [Hx _]. inversion Ho; subst. by apply Hx.
Qed.
Lemma child_string_iff o : transportable_child o →
  ∀ s, child_json o = JString s ↔ normalize_child o = StringValue s.
Proof. destruct 1 as [|x Hx]; [naive_solver|]. by apply json_string_iff. Qed.

Lemma string_field_json fs name t :
  Forall (λ f, transportable_child f.2) fs → name ≠ "_type" →
  is_Some (json_string_field (("_type", JString t) :: map field_json fs) name) →
  string_field fs name = true.
Proof.
  intros Hfs Hne. unfold json_string_field, string_field. cbn [find_field].
  rewrite bool_decide_false by congruence. unfold field_json. rewrite (find_field_map child_json).
  destruct (find_field name fs) as [o|] eqn:Ef; simpl; [|by intros [? ?]].
  apply find_field_Some in Ef. rewrite Forall_forall in Hfs. specialize (Hfs _ Ef). simpl in Hfs.
  destruct (child_json o) eqn:Ec; try by intros [? ?]. intros _.
  apply (child_string_iff o Hfs) in Ec. by rewrite Ec.
Qed.

Lemma json_of_printable v : transportable v → printable (json_of v).
Proof.
  assert (Hchild : ∀ o, transportable_child o →
    (∀ x, o = Some x → transportable x → printable (json_of x)) → printable (child_json o)).
  { intros o [|x Hx] H; [constructor|]. by apply H. }
  induction v as [v IH] using value_induction. rewrite Forall_forall in IH. intros Hv.
  destruct Hv as [| | | | | | |t fs Hnd Ht He Hfs|l Hl|o Ho]; simpl; try by constructor.
  - apply printable_object; repeat constructor; simpl; set_solver.
  - apply printable_object.
    + rewrite fmap_cons. simpl. replace (map _ fs).*1 with fs.*1; [by constructor|].
      clear. induction fs as [|f fs IH]; [done|]. cbn [map]. by rewrite !fmap_cons, IH.
    + apply Forall_true. by intros [k j]; induction k.
    + constructor; [constructor|]. apply Forall_forall. intros f Hf.
      apply list_elem_of_In, in_map_iff in Hf as (g & <- & Hg). simpl.
      rewrite Forall_forall in Hfs. apply list_elem_of_In in Hg. apply (Hchild g.2 (Hfs _ Hg)).
      intros x Hx Hp. apply IH; [|done]. simpl. apply list_elem_of_bind. exists g.
      split; [|done]. rewrite Hx. by left.
  - apply printable_array. apply Forall_forall. intros j Hj.
    apply list_elem_of_In, in_map_iff in Hj as (o & <- & Ho). rewrite Forall_forall in Hl.
    apply list_elem_of_In in Ho. apply (Hchild o (Hl _ Ho)). intros x -> Hp. apply IH; [|done].
    simpl. apply list_elem_of_bind. exists (Some x). split; [by left|done].
  - destruct Ho as [|x Hx]; [constructor|]. apply IH; [by left|done].
Qed.

Lemma value_of_json v : transportable v → value_of (json_of v) = normalize v.
Proof.
  induction v as [v IH] using value_induction. rewrite Forall_forall in IH. intros Hv.
  assert (Hchild : ∀ o, transportable_child o → (∀ x, o = Some x → x ∈ value_children v) →
    value_of (child_json o) = normalize_child o).
  { intros o [|x Hx] H; [done|]. simpl. apply IH; [by apply H|done]. }
  destruct Hv as [| | | | | | |t fs Hnd Ht He Hfs|l Hl|o Ho]; try done.
  - cbn [json_of value_of normalize].
    change (map (λ f, (f.1, match f.2 with Some x => json_of x | None => JNull end)) fs)
      with (map field_json fs).
    pose proof (string_field_json fs "_enum" t Hfs ltac:(done)) as H1.
    pose proof (string_field_json fs "_variant" t Hfs ltac:(done)) as H2.
    assert (Hstruct : StructValue (default "" (json_string_field (("_type", JString t) :: map field_json fs) "_type"))
      (base.filter (λ f, f.1 ≠ "_type")
        (map (λ f, (f.1, Some (value_of f.2))) (("_type", JString t) :: map field_json fs)))
      = StructValue t (map (λ f, (f.1, Some (normalize_child f.2))) fs)).
    { f_equal. cbn [map]. rewrite filter_cons, decide_False by (simpl; naive_solver).
      rewrite map_map. rewrite filter_all.
      - apply map_ext_in. intros f Hf. simpl. do 2 f_equal. apply list_elem_of_In in Hf.
        rewrite Forall_forall in Hfs. apply (Hchild _ (Hfs _ Hf)). intros x Hx.
        simpl. apply list_elem_of_bind. exists f. split; [|done]. rewrite Hx. by left.
      - intros f Hf. apply list_elem_of_In, in_map_iff in Hf as (g & <- & Hg). simpl. intros He'.
        apply Ht. rewrite <- He'. apply list_elem_of_fmap_2. by apply list_elem_of_In. }
    destruct (json_string_field _ "_enum"); [|exact Hstruct].
    destruct (json_string_field _ "_variant"); [|exact Hstruct].
    rewrite H1, H2 in He by eauto. done.
  - cbn [json_of value_of normalize]. rewrite map_map. f_equal. apply map_ext_in. intros o Ho.
    apply list_elem_of_In in Ho. rewrite Forall_forall in Hl. f_equal.
    apply (Hchild o (Hl _ Ho)). intros x ->. simpl. apply list_elem_of_bind. exists (Some x).
    split; [by left|done].
  - destruct Ho as [|x Hx]; [done|]. cbn [json_of normalize]. apply IH; [by left|done].
Qed.

Lemma value_reads v : transportable v → value_from_json (value_to_json v) ⇓ Some (normalize v).
Proof.
  intros Hv. unfold value_to_json. rewrite value_text.
  destruct (printable_reads _ (json_of_printable v Hv)) as (w & Hw & Hc).
  unfold value_from_json. rewrite Hw. simpl.
  rewrite (value_from_content _ _ Hc) by (apply printable_well_formed, json_of_printable, Hv).
  by rewrite value_of_json.
Qed.

(** A value's text reads back as the value, up to the kinds that JSON does
    not keep (decimals and durations become strings, optionals what they hold,
    null entries none), for every value without floats whose structs have
    distinct fields, none called [_type], and do not look like an enum. *)
Theorem value_json_roundtrip v :
  transportable v → value_from_json (value_to_json v) ⇓ Some (normalize v).
Proof. apply value_reads. Qed.

Definition sample_value : Value :=
  StructValue "Order" [("total", Some (DecimalValue "9.50")); ("tags", Some (ListValue [None;
    Some (EnumValue "State" "Open"); Some (OptionalValue (Some (IntValue (-7))))]))].
Lemma value_json_roundtrip_witness :
  value_from_json (value_to_json sample_value) ⇓
  Some (StructValue "Order" [("total", Some (StringValue "9.50")); ("tags", Some (ListValue
    [Some NoneValue; Some (EnumValue "State" "Open"); Some (IntValue (-7))]))]).
Proof.
  apply (value_json_roundtrip sample_value). constructor.
  - repeat (constructor; [vm_compute; set_solver|]). constructor.
  - vm_compute. set_solver.
  - reflexivity.
  - repeat constructor.
Defined.

(** ** Argument lists *)
Definition args_value (args : list Value) : Value :=
  match args with
  | [] => StructValue "" []
  | [v] => if is_struct v then normalize v else StructValue "" [("value", Some (normalize v))]
  | _ => StructValue "" [("args", Some (ListValue (map (λ v, Some (normalize v)) args)))]
  end.
Lemma printed_object_reads l :
  NoDup l.*1 → Forall (λ f, printable f.2) l →
  value_from_json (print (JObject l)) ⇓ Some (value_of (JObject l)).
Proof.
  intros Hnd Hl. assert (Hp : printable (JObject l)).
  { apply printable_object; [done| |done]. apply Forall_true. by intros [k j]; induction k. }
  destruct (printable_reads _ Hp) as (w & Hw & Hc).
  unfold value_from_json. rewrite Hw. simpl.
  by rewrite (value_from_content _ _ Hc) by by apply printable_well_formed.
Qed.

Lemma named_object_text v :
  "{" +:+ quoted "value" +:+ ":" +:+ serialize_value_for_wire_json v +:+ "}" =
  print (JObject [("value", json_of v)]).
Proof.
  unfold serialize_value_for_wire_json, value_to_json. rewrite value_text.
  cbn [print map separated fst snd]. by rewrite !string_app_assoc.
Qed.
Lemma args_object_text args :
  "{" +:+ quoted "args" +:+ ":[" +:+ separated (map serialize_value_for_wire_json args) +:+ "]}" =
  print (JObject [("args", JArray (map json_of args))]).
Proof.
  cbn [print map separated fst snd]. rewrite map_map, !string_app_assoc.
  rewrite (map_ext _ _ value_text). done.
Qed.

Lemma values_of_json args : Forall transportable args →
  map (λ x, Some (value_of x)) (map json_of args) = map (λ v, Some (normalize v)) args.
Proof.
  intros Hargs. rewrite map_map. apply map_ext_in. intros x Hx. f_equal.
  apply value_of_json. rewrite Forall_forall in Hargs. apply Hargs. by apply list_elem_of_In.
Qed.

(** The arguments of a call, whatever their number, are read from their
    text as one struct: a single struct as itself, another single value as the
    field [value], several as the list [args]. *)
Theorem wire_arguments_roundtrip args :
  Forall transportable args →
  parse_value_from_wire_json (serialize_args_for_wire_json args) ⇓ Some (args_value args).
Proof.
  intros Hargs. unfold parse_value_from_wire_json, serialize_value_for_wire_json.
  destruct args as [|v [|w l]].
  - apply (printed_object_reads []); [apply NoDup_nil_2|constructor].
  - apply Forall_cons in Hargs as [Hv _]. cbn [serialize_args_for_wire_json args_value].
    destruct (is_struct v) eqn:Es; [by apply value_reads|].
    rewrite named_object_text, printed_object_reads;
      [|apply NoDup_singleton|by repeat constructor; apply json_of_printable].
    simpl. by rewrite value_of_json.
  - cbn [serialize_args_for_wire_json args_value]. rewrite args_object_text, printed_object_reads.
    + rewrite <- values_of_json by done. done.
    + apply NoDup_singleton.
    + constructor; [|constructor]. cbn [snd]. apply printable_array. apply Forall_forall. intros j Hj.
      apply list_elem_of_In, in_map_iff in Hj as (x & <- & Hx). apply json_of_printable.
      rewrite Forall_forall in Hargs. apply Hargs. by apply list_elem_of_In.
Qed.

Lemma wire_arguments_roundtrip_witness :
  parse_value_from_wire_json (serialize_args_for_wire_json [IntValue 1; StringValue "x"]) ⇓
  Some (StructValue "" [("args", Some (ListValue [Some (IntValue 1); Some (StringValue "x")]))]).
Proof.
  apply (wire_arguments_roundtrip [IntValue 1; StringValue "x"]). repeat constructor.
Defined.
