(* ===== verification/Types.v ===== *)
(** * Semantic types and their hash-consing context
      (include/ahfl/compiler/semantics/types.hpp, type_context.hpp,
       src/compiler/semantics/types.cpp)

    A [TypePtr] is the index of a [Type] in the storage of the context that
    interned it; [None] is the null pointer.  The pool maps the key of a type
    to its pointer: it is a hash map in the source, and no operation iterates
    over it.  The mutex of the context is not modelled: every operation holds it
    from its first to its last step. *)
From S2P Require Import Prelude.
Open Scope nat_scope.

Module TypeKind.
Inductive t :=
  | Any | Never | Error
  | Unit | Bool | Int | Float | String_ | BoundedString | UUID | Timestamp | Duration | Decimal
  | Struct | Enum | EnumVariant
  | Optional | List_ | Set_ | Map_.
End TypeKind.
#[export] Instance TypeKind_eq_dec : EqDecision TypeKind.t.
Proof. solve_decision. Defined.
Definition type_kind_index (k : TypeKind.t) : nat :=
  match k with
  | TypeKind.Any => 0 | TypeKind.Never => 1 | TypeKind.Error => 2 | TypeKind.Unit => 3
  | TypeKind.Bool => 4 | TypeKind.Int => 5 | TypeKind.Float => 6 | TypeKind.String_ => 7
  | TypeKind.BoundedString => 8 | TypeKind.UUID => 9 | TypeKind.Timestamp => 10
  | TypeKind.Duration => 11 | TypeKind.Decimal => 12 | TypeKind.Struct => 13
  | TypeKind.Enum => 14 | TypeKind.EnumVariant => 15 | TypeKind.Optional => 16
  | TypeKind.List_ => 17 | TypeKind.Set_ => 18 | TypeKind.Map_ => 19
  end.
Definition type_kinds : list TypeKind.t :=
  [TypeKind.Any; TypeKind.Never; TypeKind.Error; TypeKind.Unit; TypeKind.Bool; TypeKind.Int;
   TypeKind.Float; TypeKind.String_; TypeKind.BoundedString; TypeKind.UUID; TypeKind.Timestamp;
   TypeKind.Duration; TypeKind.Decimal; TypeKind.Struct; TypeKind.Enum; TypeKind.EnumVariant;
   TypeKind.Optional; TypeKind.List_; TypeKind.Set_; TypeKind.Map_].
#[export] Program Instance TypeKind_countable : Countable TypeKind.t :=
  inj_countable type_kind_index (λ n, type_kinds !! n) _.
Next Obligation. by intros []. Qed.

Abbreviation TypePtr := nat.
(** [SymbolId::value]. *)
Abbreviation SymbolId := nat.

(** ** Types *)
Inductive Payload :=
  | AnyT | NeverT | ErrorT | UnitT | BoolT | IntT | FloatT | StringT
  | BoundedStringT (minimum maximum : Z)
  | UUIDT | TimestampT | DurationT
  | DecimalT (scale : Z)
  | StructT (canonical_name : string) (symbol : option SymbolId)
  | EnumT (canonical_name : string) (symbol : option SymbolId)
  | EnumVariantT (canonical_name : string) (symbol : option SymbolId) (variant_name : string)
  | OptionalT (inner : option TypePtr)
  | ListT (element : option TypePtr)
  | SetT (element : option TypePtr)
  | MapT (key value : option TypePtr).
#[export] Instance Payload_eq_dec : EqDecision Payload.
Proof. solve_decision. Defined.

Record TypeKey := mkTypeKey {
  tk_kind : TypeKind.t;
  tk_name : string;
  tk_variant_name : string;
  tk_string_bounds : option (Z * Z);
  tk_decimal_scale : option Z;
  tk_first : option TypePtr;
  tk_second : option TypePtr;
  tk_nominal_symbol : option SymbolId }.
#[export] Instance TypeKey_eq_dec : EqDecision TypeKey.
Proof. solve_decision. Defined.
#[export] Program Instance TypeKey_countable : Countable TypeKey :=
  inj_countable'
    (λ k, (tk_kind k, tk_name k, tk_variant_name k, tk_string_bounds k, tk_decimal_scale k,
           tk_first k, tk_second k, tk_nominal_symbol k))
    (λ '(a, b, c, d, e, f, g, h), mkTypeKey a b c d e f g h) _.
Next Obligation. by intros []. Qed.

(** ** The context *)
Record TypeContext := mkTypeContext {
  storage : list Payload;
  pool : gmap TypeKey TypePtr }.
Definition empty_types : TypeContext := mkTypeContext [] ∅.

Definition build_payload (key : TypeKey) : Payload :=
  match tk_kind key with
  | TypeKind.Any => AnyT
  | TypeKind.Never => NeverT
  | TypeKind.Error => ErrorT
  | TypeKind.Unit => UnitT
  | TypeKind.Bool => BoolT
  | TypeKind.Int => IntT
  | TypeKind.Float => FloatT
  | TypeKind.String_ => StringT
  | TypeKind.BoundedString =>
      BoundedStringT (match tk_string_bounds key with Some b => b.1 | None => 0 end)
                     (match tk_string_bounds key with Some b => b.2 | None => 0 end)
  | TypeKind.UUID => UUIDT
  | TypeKind.Timestamp => TimestampT
  | TypeKind.Duration => DurationT
  | TypeKind.Decimal => DecimalT (default 0%Z (tk_decimal_scale key))
  | TypeKind.Struct => StructT (tk_name key) (tk_nominal_symbol key)
  | TypeKind.Enum => EnumT (tk_name key) (tk_nominal_symbol key)
  | TypeKind.EnumVariant => EnumVariantT (tk_name key) (tk_nominal_symbol key) (tk_variant_name key)
  | TypeKind.Optional => OptionalT (tk_first key)
  | TypeKind.List_ => ListT (tk_first key)
  | TypeKind.Set_ => SetT (tk_first key)
  | TypeKind.Map_ => MapT (tk_first key) (tk_second key)
  end.
Definition intern (key : TypeKey) (c : TypeContext) : TypePtr * TypeContext :=
  match pool c !! key with
  | Some p => (p, c)
  | None =>
      let raw := length (storage c) in
      (raw, mkTypeContext (storage c ++ [build_payload key]) (<[key := raw]> (pool c)))
  end.

(** ** The factories *)
Definition make (kind : TypeKind.t) : TypeContext → TypePtr * TypeContext :=
  intern (mkTypeKey kind "" "" None None None None None).
Definition error_type : TypeContext → TypePtr * TypeContext := make TypeKind.Error.
Definition string_type : TypeContext → TypePtr * TypeContext := make TypeKind.String_.
Definition bounded_string (minimum maximum : Z) : TypeContext → TypePtr * TypeContext :=
  intern (mkTypeKey TypeKind.BoundedString "" "" (Some (minimum, maximum)) None None None None).
Definition decimal (scale : Z) : TypeContext → TypePtr * TypeContext :=
  intern (mkTypeKey TypeKind.Decimal "" "" None (Some scale) None None None).
Definition struct_type (canonical_name : string) (symbol : option SymbolId)
    : TypeContext → TypePtr * TypeContext :=
  intern (mkTypeKey TypeKind.Struct canonical_name "" None None None None symbol).
Definition enum_type (canonical_name : string) (symbol : option SymbolId)
    : TypeContext → TypePtr * TypeContext :=
  intern (mkTypeKey TypeKind.Enum canonical_name "" None None None None symbol).
Definition enum_variant_type (canonical_name variant_name : string) (symbol : option SymbolId)
    : TypeContext → TypePtr * TypeContext :=
  intern (mkTypeKey TypeKind.EnumVariant canonical_name variant_name None None None None symbol).
Definition optional (value_type : option TypePtr) : TypeContext → TypePtr * TypeContext :=
  intern (mkTypeKey TypeKind.Optional "" "" None None value_type None None).
Definition list_type (element_type : option TypePtr) : TypeContext → TypePtr * TypeContext :=
  intern (mkTypeKey TypeKind.List_ "" "" None None element_type None None).
Definition set_type (element_type : option TypePtr) : TypeContext → TypePtr * TypeContext :=
  intern (mkTypeKey TypeKind.Set_ "" "" None None element_type None None).
Definition map_type (key_type value_type : option TypePtr) : TypeContext → TypePtr * TypeContext :=
  intern (mkTypeKey TypeKind.Map_ "" "" None None key_type value_type None).

(** [payload.index()]. *)
Definition payload_index (p : Payload) : nat :=
  match p with
  | AnyT => 0 | NeverT => 1 | ErrorT => 2 | UnitT => 3 | BoolT => 4 | IntT => 5 | FloatT => 6
  | StringT => 7 | BoundedStringT _ _ => 8 | UUIDT => 9 | TimestampT => 10 | DurationT => 11
  | DecimalT _ => 12 | StructT _ _ => 13 | EnumT _ _ => 14 | EnumVariantT _ _ _ => 15
  | OptionalT _ => 16 | ListT _ => 17 | SetT _ => 18 | MapT _ _ => 19
  end.
