(* ===== verification/TypeRelations.v ===== *)
(** * Relations between types (src/compiler/semantics/type_relations.cpp)

    Equivalence, subtyping and what is defined by them, computed by a solver
    that memoizes the pairs it has seen, assumes a pair that it is just
    visiting, and gives up below a depth.  The solver is a computation over
    its own state.  The traces and the constraint skeleton that a caller can
    ask for are records of the run beside it: they do not influence the
    answer and are not modelled. *)
From S2P Require Import Prelude Types.
Open Scope nat_scope.

Module TypeRelationKind.
Inductive t := Equivalent | Subtype | Assignable | ExactSchema.
End TypeRelationKind.
#[export] Instance TypeRelationKind_eq_dec : EqDecision TypeRelationKind.t.
Proof. solve_decision. Defined.
#[export] Program Instance TypeRelationKind_countable : Countable TypeRelationKind.t :=
  inj_countable
    (λ k, match k with
          | TypeRelationKind.Equivalent => 0 | TypeRelationKind.Subtype => 1
          | TypeRelationKind.Assignable => 2 | TypeRelationKind.ExactSchema => 3
          end)
    (λ n, [TypeRelationKind.Equivalent; TypeRelationKind.Subtype; TypeRelationKind.Assignable;
           TypeRelationKind.ExactSchema] !! n) _.
Next Obligation. by intros []. Qed.

(** The options that matter for the answer. *)
Record TypeRelationOptions := mkTypeRelationOptions {
  allow_bounded_string_relaxation : bool;
  allow_numeric_widening : bool;
  max_solver_depth : Z }.
Definition default_options : TypeRelationOptions := mkTypeRelationOptions true false 256.

Record RelationKey := mkRelationKey {
  rk_kind : TypeRelationKind.t;
  rk_source : TypePtr;
  rk_target : TypePtr;
  rk_allow_bounded_string_relaxation : bool;
  rk_allow_numeric_widening : bool }.
#[export] Instance RelationKey_eq_dec : EqDecision RelationKey.
Proof. solve_decision. Defined.
#[export] Program Instance RelationKey_countable : Countable RelationKey :=
  inj_countable'
    (λ k, (rk_kind k, rk_source k, rk_target k, rk_allow_bounded_string_relaxation k,
           rk_allow_numeric_widening k))
    (λ '(a, b, c, d, e), mkRelationKey a b c d e) _.
Next Obligation. by intros []. Qed.

Module RelationState.
Inductive t := Visiting | Proven | Disproven.
End RelationState.
Record RelationSolverStats := mkStats {
  queries : Z; cache_hits : Z; proven : Z; disproven : Z;
  coinductive_assumptions : Z; depth_guard_rejections : Z }.
Definition zero_stats : RelationSolverStats := mkStats 0 0 0 0 0 0.
Record MemoizedRelationSolver := mkSolver {
  memo_ : gmap RelationKey RelationState.t;
  stats_ : RelationSolverStats;
  recursion_depth_ : Z }.
Definition new_solver : MemoizedRelationSolver := mkSolver ∅ zero_stats 0.

Abbreviation solver_eff := (eff MemoizedRelationSolver).
Definition get_solver : solver_eff MemoizedRelationSolver := λ s, Ret (s, s).
Definition put_solver (s : MemoizedRelationSolver) : solver_eff unit := λ _, Ret (tt, s).
Definition count_query (st : RelationSolverStats) : RelationSolverStats :=
  mkStats (queries st + 1) (cache_hits st) (proven st) (disproven st)
    (coinductive_assumptions st) (depth_guard_rejections st).
Definition count_hit (st : RelationSolverStats) : RelationSolverStats :=
  mkStats (queries st) (cache_hits st + 1) (proven st) (disproven st)
    (coinductive_assumptions st) (depth_guard_rejections st).
Definition count_assumption (st : RelationSolverStats) : RelationSolverStats :=
  mkStats (queries st) (cache_hits st) (proven st) (disproven st)
    (coinductive_assumptions st + 1) (depth_guard_rejections st).
Definition count_rejection (st : RelationSolverStats) : RelationSolverStats :=
  mkStats (queries st) (cache_hits st) (proven st) (disproven st + 1)
    (coinductive_assumptions st) (depth_guard_rejections st + 1).
Definition count_result (result : bool) (st : RelationSolverStats) : RelationSolverStats :=
  mkStats (queries st) (cache_hits st) (if result then proven st + 1 else proven st)
    (if result then disproven st else disproven st + 1)
    (coinductive_assumptions st) (depth_guard_rejections st).

Section Solver.
Context (types : list Payload) (options : TypeRelationOptions).
(** Following a pointer out of the storage is undefined. *)
Definition deref (p : TypePtr) : solver_eff Payload :=
  ⌊ match types !! p with Some t => Ret t | None => UB end ⌋.

Definition nominal_name_matches (lhs_symbol : option SymbolId) (lhs_name : string)
    (rhs_symbol : option SymbolId) (rhs_name : string) : bool :=
  match lhs_symbol, rhs_symbol with
  | Some l, Some r => bool_decide (l = r)
  | _, _ => bool_decide (lhs_name = rhs_name)
  end.

(** [solver.solve] is a parameter of the two traversals that call it. *)
Abbreviation solver_fn := (TypeRelationKind.t → TypePtr → TypePtr → solver_eff bool).

Definition equivalent_child (solve : solver_fn) (l r : option TypePtr) : solver_eff bool :=
  match l, r with
  | Some l, Some r => solve TypeRelationKind.Equivalent l r
  | _, _ => mret false
  end.
Definition equivalent_impl (solve : solver_fn) (lhs rhs : TypePtr) : solver_eff bool :=
  if bool_decide (lhs = rhs) then mret true
  else
    l ← deref lhs;
    r ← deref rhs;
    if negb (bool_decide (payload_index l = payload_index r)) then mret false
    else
      match l with
      | AnyT | NeverT | ErrorT | UnitT | BoolT | IntT | FloatT | StringT | UUIDT | TimestampT
      | DurationT => mret true
      | BoundedStringT lmin lmax =>
          match r with
          | BoundedStringT rmin rmax => mret (bool_decide (lmin = rmin) && bool_decide (lmax = rmax))
          | _ => mret false
          end
      | DecimalT ls => match r with DecimalT rs => mret (bool_decide (ls = rs)) | _ => mret false end
      | StructT ln ls =>
          match r with StructT rn rs => mret (nominal_name_matches ls ln rs rn) | _ => mret false end
      | EnumT ln ls =>
          match r with EnumT rn rs => mret (nominal_name_matches ls ln rs rn) | _ => mret false end
      | EnumVariantT ln ls lv =>
          match r with
          | EnumVariantT rn rs rv => mret (bool_decide (lv = rv) && nominal_name_matches ls ln rs rn)
          | _ => mret false
          end
      | OptionalT li => match r with OptionalT ri => equivalent_child solve li ri | _ => mret false end
      | ListT le => match r with ListT re => equivalent_child solve le re | _ => mret false end
      | SetT le => match r with SetT re => equivalent_child solve le re | _ => mret false end
      | MapT (Some lk) (Some lv) =>
          match r with
          | MapT (Some rk) (Some rv) =>
              ok_a ← solve TypeRelationKind.Equivalent lk rk;
              ok_b ← solve TypeRelationKind.Equivalent lv rv;
              mret (ok_a && ok_b)
          | _ => mret false
          end
      | MapT _ _ => mret false
      end.

(** What is left for a pair that no other rule covers. *)
Definition relaxations (s t : Payload) : bool :=
  match s with
  | BoundedStringT smin smax =>
      match t with
      | StringT => allow_bounded_string_relaxation options
      | BoundedStringT tmin tmax =>
          allow_bounded_string_relaxation options && (tmin <=? smin)%Z && (smax <=? tmax)%Z
      | _ => false
      end
  | IntT => match t with FloatT | DecimalT _ => allow_numeric_widening options | _ => false end
  | DecimalT s => match t with DecimalT t => allow_numeric_widening options && (s <=? t)%Z | _ => false end
  | _ => false
  end.
Definition is_error (t : Payload) : bool := match t with ErrorT => true | _ => false end.
Definition is_any (t : Payload) : bool := match t with AnyT => true | _ => false end.
Definition is_never (t : Payload) : bool := match t with NeverT => true | _ => false end.
(** A container with a null part falls through to the relaxations, which do not
    apply to containers. *)
Definition subtype_child (solve : solver_fn) (s t : option TypePtr) : solver_eff bool :=
  match s, t with
  | Some s, Some t => solve TypeRelationKind.Subtype s t
  | _, _ => mret false
  end.
Definition subtype_structure (solve : solver_fn) (s t : Payload) : solver_eff bool :=
  match s with
  | EnumVariantT sn ss _ =>
      match t with EnumT tn ts => mret (nominal_name_matches ss sn ts tn) | _ => mret false end
  | OptionalT s => match t with OptionalT t => subtype_child solve s t | _ => mret false end
  | ListT s => match t with ListT t => subtype_child solve s t | _ => mret false end
  | SetT s => match t with SetT t => subtype_child solve s t | _ => mret false end
  | MapT (Some sk) (Some sv) =>
      match t with
      | MapT (Some tk) (Some tv) =>
          keys ← solve TypeRelationKind.Equivalent sk tk;
          if (keys : bool) then solve TypeRelationKind.Subtype sv tv else mret false
      | _ => mret false
      end
  | _ => mret (relaxations s t)
  end.
Definition subtype_impl (solve : solver_fn) (source target : TypePtr) : solver_eff bool :=
  if bool_decide (source = target) then mret true
  else
    s ← deref source;
    t ← deref target;
    if is_error s || is_error t then mret true
    else if is_any t then mret true
    else if is_never s then mret true
    else
      eq ← solve TypeRelationKind.Equivalent source target;
      if (eq : bool) then mret true else subtype_structure solve s t.

Definition make_key (kind : TypeRelationKind.t) (source target : TypePtr) : RelationKey :=
  mkRelationKey kind source target (allow_bounded_string_relaxation options)
    (allow_numeric_widening options).
Definition relation_impl (solve : solver_fn) (kind : TypeRelationKind.t)
    : TypePtr → TypePtr → solver_eff bool :=
  match kind with
  | TypeRelationKind.Equivalent | TypeRelationKind.ExactSchema => equivalent_impl solve
  | TypeRelationKind.Subtype | TypeRelationKind.Assignable => subtype_impl solve
  end.

(** Before the traversal: the answer that is known, or the entry [Visiting]. *)
Definition begin_visit (key : RelationKey) : solver_eff (option bool) :=
  s ← get_solver;
  let st := count_query (stats_ s) in
  match memo_ s !! key with
  | Some RelationState.Proven =>
      _ ← put_solver (mkSolver (memo_ s) (count_hit st) (recursion_depth_ s)); mret (Some true)
  | Some RelationState.Disproven =>
      _ ← put_solver (mkSolver (memo_ s) (count_hit st) (recursion_depth_ s)); mret (Some false)
  | Some RelationState.Visiting =>
      _ ← put_solver (mkSolver (memo_ s) (count_assumption st) (recursion_depth_ s));
      mret (Some true)
  | None =>
      if (max_solver_depth options <=? recursion_depth_ s)%Z then
        _ ← put_solver (mkSolver (<[key := RelationState.Disproven]> (memo_ s))
              (count_rejection st) (recursion_depth_ s));
        mret (Some false)
      else
        _ ← put_solver (mkSolver (<[key := RelationState.Visiting]> (memo_ s)) st
              (recursion_depth_ s + 1));
        mret None
  end.
Definition end_visit (key : RelationKey) (result : bool) : solver_eff unit :=
  s ← get_solver;
  put_solver (mkSolver
    (<[key := if result then RelationState.Proven else RelationState.Disproven]> (memo_ s))
    (count_result result (stats_ s)) (recursion_depth_ s - 1)).
Fixpoint solve (fuel : nat) (kind : TypeRelationKind.t) (source target : TypePtr)
    : solver_eff bool :=
  match fuel with
  | O => λ _, NoFuel
  | S fuel =>
      let key := make_key kind source target in
      known ← begin_visit key;
      match known with
      | Some result => mret result
      | None =>
          result ← relation_impl (solve fuel) kind source target;
          _ ← end_visit key result;
          mret result
      end
  end.
(** The depth guard bounds the recursion. *)
Definition solver_fuel : nat := S (Z.to_nat (max_solver_depth options)).
Definition run_solver (kind : TypeRelationKind.t) (source target : TypePtr) : cxx bool :=
  match solve solver_fuel kind source target new_solver with
  | Ret (result, _) => Ret result
  | UB => UB
  | NoFuel => NoFuel
  end.
End Solver.

(** ** The public relations *)
Definition are_types_equivalent (types : list Payload) (o : TypeRelationOptions)
    : TypePtr → TypePtr → cxx bool := run_solver types o TypeRelationKind.Equivalent.
Definition is_subtype_of (types : list Payload) (o : TypeRelationOptions)
    : TypePtr → TypePtr → cxx bool := run_solver types o TypeRelationKind.Subtype.
Definition is_assignable_to (types : list Payload) (o : TypeRelationOptions)
    : TypePtr → TypePtr → cxx bool := run_solver types o TypeRelationKind.Assignable.
Definition is_exact_schema_match (types : list Payload) (o : TypeRelationOptions)
    : TypePtr → TypePtr → cxx bool := run_solver types o TypeRelationKind.ExactSchema.

(** ** Correctness of the relation solver

    The types that pointers stand for as trees, the relations on trees as a
    reference, and the proof that the memoizing, depth-bounded solver computes
    them: a positive answer is always right, a negative one is right unless the
    depth guard fired, and the guard does not fire for types below its depth. *)

(** ** Types as trees *)
Inductive Ty :=
  | TAtom (p : Payload)
  | TOptional (t : Ty)
  | TList (t : Ty)
  | TSet (t : Ty)
  | TMap (k v : Ty).
Definition is_atom (p : Payload) : bool :=
  match p with OptionalT _ | ListT _ | SetT _ | MapT _ _ => false | _ => true end.
Fixpoint height (t : Ty) : nat :=
  match t with
  | TAtom _ => 1
  | TOptional t | TList t | TSet t => S (height t)
  | TMap k v => S (Nat.max (height k) (height v))
  end.

(** The type a pointer stands for: no part is missing, and parts were interned
    before the whole. *)
Inductive views (types : list Payload) : TypePtr → Ty → Prop :=
  | views_atom p a : types !! p = Some a → is_atom a = true → views types p (TAtom a)
  | views_optional p q t : types !! p = Some (OptionalT (Some q)) → q < p →
      views types q t → views types p (TOptional t)
  | views_list p q t : types !! p = Some (ListT (Some q)) → q < p →
      views types q t → views types p (TList t)
  | views_set p q t : types !! p = Some (SetT (Some q)) → q < p →
      views types q t → views types p (TSet t)
  | views_map p q r k v : types !! p = Some (MapT (Some q) (Some r)) → q < p → r < p →
      views types q k → views types r v → views types p (TMap k v).

Lemma views_fun types p t u : views types p t → views types p u → t = u.
Proof. intros H. revert u. induction H; intros u Hu; inversion Hu; simplify_eq; f_equal; auto. Qed.

(** ** The reference relations *)
Definition atom_equiv (l r : Payload) : bool :=
  bool_decide (payload_index l = payload_index r) &&
  match l, r with
  | BoundedStringT lmin lmax, BoundedStringT rmin rmax =>
      bool_decide (lmin = rmin) && bool_decide (lmax = rmax)
  | DecimalT ls, DecimalT rs => bool_decide (ls = rs)
  | StructT ln ls, StructT rn rs => nominal_name_matches ls ln rs rn
  | EnumT ln ls, EnumT rn rs => nominal_name_matches ls ln rs rn
  | EnumVariantT ln ls lv, EnumVariantT rn rs rv =>
      bool_decide (lv = rv) && nominal_name_matches ls ln rs rn
  | _, _ => true
  end.
Fixpoint ty_equiv (a b : Ty) : bool :=
  match a, b with
  | TAtom l, TAtom r => atom_equiv l r
  | TOptional a, TOptional b => ty_equiv a b
  | TList a, TList b => ty_equiv a b
  | TSet a, TSet b => ty_equiv a b
  | TMap k v, TMap k' v' => ty_equiv k k' && ty_equiv v v'
  | _, _ => false
  end.
Definition atom_of (t : Ty) : option Payload := match t with TAtom p => Some p | _ => None end.
Definition ty_is (f : Payload → bool) (t : Ty) : bool :=
  match atom_of t with Some p => f p | None => false end.
(** The rules between two different atoms. *)
Definition atom_subtype (o : TypeRelationOptions) (s t : Payload) : bool :=
  match s with
  | EnumVariantT sn ss _ =>
      match t with EnumT tn ts => nominal_name_matches ss sn ts tn | _ => false end
  | _ => relaxations o s t
  end.
Definition extreme (s t : Ty) : bool :=
  ty_is is_error s || ty_is is_error t || ty_is is_any t || ty_is is_never s.
Fixpoint ty_subtype (o : TypeRelationOptions) (s t : Ty) : bool :=
  extreme s t || ty_equiv s t ||
  match s, t with
  | TAtom s, TAtom t => atom_subtype o s t
  | TOptional s, TOptional t => ty_subtype o s t
  | TList s, TList t => ty_subtype o s t
  | TSet s, TSet t => ty_subtype o s t
  | TMap sk sv, TMap tk tv => ty_equiv sk tk && ty_subtype o sv tv
  | _, _ => false
  end.
Definition related (o : TypeRelationOptions) (kind : TypeRelationKind.t) : Ty → Ty → bool :=
  match kind with
  | TypeRelationKind.Equivalent | TypeRelationKind.ExactSchema => ty_equiv
  | TypeRelationKind.Subtype | TypeRelationKind.Assignable => ty_subtype o
  end.

Lemma nominal_refl s n : nominal_name_matches s n s n = true.
Proof. destruct s; simpl; by rewrite bool_decide_true. Qed.
Lemma atom_equiv_refl p : atom_equiv p p = true.
Proof.
  unfold atom_equiv. rewrite bool_decide_true by done.
  destruct p; simpl; rewrite ?nominal_refl; repeat rewrite bool_decide_true by done; done.
Qed.
Lemma ty_equiv_refl t : ty_equiv t t = true.
Proof. induction t; simpl; rewrite ?atom_equiv_refl; try done. by rewrite IHt1, IHt2. Qed.
Lemma related_refl o kind t : related o kind t t = true.
Proof.
  destruct kind; simpl; try apply ty_equiv_refl; destruct t; cbn [ty_subtype];
    by rewrite ty_equiv_refl, orb_true_r.
Qed.

(** ** What a call of the solver guarantees *)
Section Solver.
Context (types : list Payload) (o : TypeRelationOptions).
Implicit Types (s : MemoizedRelationSolver).

Definition kind_rank (kind : TypeRelationKind.t) : nat :=
  match kind with
  | TypeRelationKind.Equivalent | TypeRelationKind.ExactSchema => 0
  | TypeRelationKind.Subtype | TypeRelationKind.Assignable => 1
  end.
(** Nested queries have a smaller rank. *)
Definition rank (kind : TypeRelationKind.t) (p : TypePtr) : nat := 2 * p + kind_rank kind.
Definition rejections s : Z := depth_guard_rejections (stats_ s).
Record memo_ok s : Prop := {
  memo_proven kind p q a b : memo_ s !! make_key o kind p q = Some RelationState.Proven →
    views types p a → views types q b → related o kind a b = true;
  memo_disproven kind p q a b : memo_ s !! make_key o kind p q = Some RelationState.Disproven →
    views types p a → views types q b → related o kind a b = false ∨ (0 < rejections s)%Z;
  memo_rejections : (0 ≤ rejections s)%Z }.
Definition visiting_from (r : nat) s : Prop := ∀ key,
  memo_ s !! key = Some RelationState.Visiting → r ≤ rank (rk_kind key) (rk_source key).
Record advances s s' : Prop := {
  advances_ok : memo_ok s';
  advances_visiting key : memo_ s' !! key = Some RelationState.Visiting →
    memo_ s !! key = Some RelationState.Visiting;
  advances_depth : recursion_depth_ s' = recursion_depth_ s;
  advances_rejections : (rejections s ≤ rejections s')%Z;
  advances_assumptions :
    coinductive_assumptions (stats_ s') = coinductive_assumptions (stats_ s) }.
Definition answers (fuel : nat) (m : eff MemoizedRelationSolver bool) (truth : bool)
    (need : nat) (r : nat) : Prop := ∀ s,
  memo_ok s → visiting_from r s → Z.to_nat (max_solver_depth o - recursion_depth_ s) < fuel →
  ∃ b s', m s ⇓ (b, s') ∧ advances s s' ∧
    (b = true → truth = true) ∧ (b = false → truth = false ∨ (0 < rejections s')%Z) ∧
    (Z.of_nat need + recursion_depth_ s ≤ max_solver_depth o → rejections s' = rejections s)%Z.

Lemma advances_refl s : memo_ok s → advances s s.
Proof. by constructor. Qed.
Lemma advances_trans s1 s2 s3 : advances s1 s2 → advances s2 s3 → advances s1 s3.
Proof. intros [] []. constructor; auto; try congruence; lia. Qed.
Lemma visiting_advances r s s' : visiting_from r s → advances s s' → visiting_from r s'.
Proof. intros Hv [] key Hk. apply Hv. auto. Qed.

Lemma answers_ret fuel b need r : answers fuel (mret b) b need r.
Proof. intros s Hs _ _. exists b, s. split; [done|]. split; [by apply advances_refl|]. auto. Qed.
Lemma answers_weaken fuel m truth need need' r r' :
  answers fuel m truth need r → need ≤ need' → r ≤ r' → answers fuel m truth need' r'.
Proof.
  intros Hm Hn Hr s Hs Hv Hf. destruct (Hm s Hs) as (b & s' & H & Ha & Ht & Hf' & Hrej); [|done|].
  - intros key Hk. specialize (Hv key Hk). lia.
  - exists b, s'. repeat split; try done; try apply Ha. intros Hd. apply Hrej. lia.
Qed.
(** A query, and what is done with a positive and a negative answer. *)
Lemma answers_bind fuel m f truth need r truth' :
  answers fuel m truth need r →
  answers fuel (f true) (truth' true) need r → answers fuel (f false) (truth' false) need r →
  (truth' false = true → truth' true = true) →
  answers fuel (m ≫= f) (if truth then truth' true else truth' false) need r.
Proof.
  intros Hm Ht Hf Hp s Hs Hv Hfuel.
  destruct (Hm s Hs Hv Hfuel) as (b & s1 & H1 & Ha1 & Htrue1 & Hfalse1 & Hrej1).
  assert (Hnext : answers fuel (f b) (truth' b) need r) by by destruct b.
  destruct (Hnext s1) as (b' & s2 & H2 & Ha2 & Htrue2 & Hfalse2 & Hrej2);
    [apply Ha1|by eapply visiting_advances|by rewrite (advances_depth _ _ Ha1)|].
  exists b', s2. split; [by rewrite (eff_bind_eq _ _ _ _ _ H1)|].
  split; [by eapply advances_trans|]. split; [|split].
  - intros Hb. specialize (Htrue2 Hb). destruct b; [by rewrite Htrue1|]. destruct truth; auto.
  - intros Hb. destruct (Hfalse2 Hb) as [Hf2|Hr]; [|by right]. destruct b; [left; by rewrite Htrue1|].
    destruct (Hfalse1 eq_refl) as [->|Hr]; [by left|]. right. pose proof (advances_rejections _ _ Ha2). lia.
  - intros Hd. rewrite Hrej2; [by apply Hrej1|]. by rewrite (advances_depth _ _ Ha1).
Qed.

Lemma answers_deref fuel p t (f : Payload → eff MemoizedRelationSolver bool) truth need r :
  types !! p = Some t → answers fuel (f t) truth need r →
  answers fuel (x ← deref types p; f x) truth need r.
Proof.
  intros Hp Hf s Hs Hv Hfuel. destruct (Hf s Hs Hv Hfuel) as (b & s' & H & Hrest). exists b, s'.
  split; [|done]. rewrite (eff_bind_eq _ _ _ t s); [done|]. unfold deref. by rewrite Hp.
Qed.
Lemma answers_eq fuel (m m' : eff MemoizedRelationSolver bool) truth truth' need r :
  m = m' → truth = truth' → answers fuel m' truth' need r → answers fuel m truth need r.
Proof. by intros -> ->. Qed.

Definition ty_index (t : Ty) : nat :=
  match t with TAtom p => payload_index p | TOptional _ => 16 | TList _ => 17 | TSet _ => 18 | TMap _ _ => 19 end.
(** The payload at the root of a tree. *)
Lemma views_payload p a : views types p a → ∃ t, types !! p = Some t ∧ payload_index t = ty_index a ∧
  match a with
  | TAtom x => t = x ∧ is_atom x = true
  | TOptional u => ∃ q, t = OptionalT (Some q) ∧ q < p ∧ views types q u
  | TList u => ∃ q, t = ListT (Some q) ∧ q < p ∧ views types q u
  | TSet u => ∃ q, t = SetT (Some q) ∧ q < p ∧ views types q u
  | TMap k v => ∃ q r, t = MapT (Some q) (Some r) ∧ q < p ∧ r < p ∧ views types q k ∧ views types r v
  end.
Proof. destruct 1; eauto 12. Qed.

(** The nested queries are answered. *)
Definition answers_below (fuel : nat) (solve : TypeRelationKind.t → TypePtr → TypePtr → eff MemoizedRelationSolver bool)
    (r : nat) : Prop := ∀ kind p q a b, views types p a → views types q b → rank kind p < r →
  answers fuel (solve kind p q) (related o kind a b) (height a + kind_rank kind) (S (rank kind p)).

Definition compare_payloads (solve : TypeRelationKind.t → TypePtr → TypePtr → eff MemoizedRelationSolver bool)
    (l r : Payload) : eff MemoizedRelationSolver bool :=
  if negb (bool_decide (payload_index l = payload_index r)) then mret false
  else
    match l with
    | AnyT | NeverT | ErrorT | UnitT | BoolT | IntT | FloatT | StringT | UUIDT | TimestampT
    | DurationT => mret true
    | BoundedStringT lmin lmax =>
        match r with
        | BoundedStringT rmin rmax => mret (bool_decide (lmin = rmin) && bool_decide (lmax = rmax))
        | _ => mret false
        end
    | DecimalT ls => match r with DecimalT rs => mret (bool_decide (ls = rs)) | _ => mret false end
    | StructT ln ls =>
        match r with StructT rn rs => mret (nominal_name_matches ls ln rs rn) | _ => mret false end
    | EnumT ln ls =>
        match r with EnumT rn rs => mret (nominal_name_matches ls ln rs rn) | _ => mret false end
    | EnumVariantT ln ls lv =>
        match r with
        | EnumVariantT rn rs rv => mret (bool_decide (lv = rv) && nominal_name_matches ls ln rs rn)
        | _ => mret false
        end
    | OptionalT li => match r with OptionalT ri => equivalent_child solve li ri | _ => mret false end
    | ListT le => match r with ListT re => equivalent_child solve le re | _ => mret false end
    | SetT le => match r with SetT re => equivalent_child solve le re | _ => mret false end
    | MapT (Some lk) (Some lv) =>
        match r with
        | MapT (Some rk) (Some rv) =>
            ok_a ← solve TypeRelationKind.Equivalent lk rk;
            ok_b ← solve TypeRelationKind.Equivalent lv rv;
            mret (ok_a && ok_b)
        | _ => mret false
        end
    | MapT _ _ => mret false
    end.
Lemma compare_atoms solve l r : is_atom l = true → compare_payloads solve l r = mret (atom_equiv l r).
Proof. destruct l; try done; intros _; destruct r; done. Qed.
Lemma compare_other solve l r :
  payload_index l ≠ payload_index r → compare_payloads solve l r = mret false.
Proof. intros H. unfold compare_payloads. by rewrite bool_decide_false. Qed.

Lemma is_atom_index p : is_atom p = true ↔ payload_index p < 16.
Proof. destruct p; simpl; intuition (try lia; try done). Qed.

Lemma ty_equiv_index a b : ty_index a ≠ ty_index b → ty_equiv a b = false.
Proof.
  destruct a, b; simpl; intros H; try done. unfold atom_equiv. by rewrite bool_decide_false.
Qed.
Lemma answers_and fuel (m1 m2 : eff MemoizedRelationSolver bool) t1 t2 need r :
  answers fuel m1 t1 need r → answers fuel m2 t2 need r →
  answers fuel (x ← m1; y ← m2; mret (x && y)) (t1 && t2) need r.
Proof.
  intros H1 H2. replace (t1 && t2) with (if t1 then t2 else false) by by destruct t1.
  apply (answers_bind fuel m1 (λ x, y ← m2; mret (x && y)) t1 need r (λ b, b && t2));
    [done| | |done].
  - replace (true && t2) with (if t2 then true else false) by by destruct t2.
    apply (answers_bind fuel m2 (λ y, mret (true && y)) t2 need r (λ b, b));
      [done|apply answers_ret|apply answers_ret|done].
  - replace (false && t2) with (if t2 then false else false) by by destruct t2.
    apply (answers_bind fuel m2 (λ y, mret (false && y)) t2 need r (λ b, false));
      [done|apply answers_ret|apply answers_ret|done].
Qed.

Lemma equivalent_child_ok fuel solve p q q' a b :
  views types q a → views types q' b → q < p → answers_below fuel solve (2 * p) →
  answers fuel (equivalent_child solve (Some q) (Some q')) (ty_equiv a b) (height a) (2 * p).
Proof.
  intros Ha Hb Hq Hsolve. simpl.
  eapply answers_weaken; [apply (Hsolve TypeRelationKind.Equivalent _ _ a b Ha Hb)|..];
    unfold rank; simpl; lia.
Qed.

Lemma equivalent_impl_ok fuel solve p q a b :
  views types p a → views types q b → answers_below fuel solve (2 * p) →
  answers fuel (equivalent_impl types solve p q) (ty_equiv a b) (height a - 1) (2 * p).
Proof.
  intros Ha Hb Hsolve. unfold equivalent_impl. case_bool_decide as Hpq.
  { subst q. rewrite (views_fun _ _ _ _ Ha Hb), ty_equiv_refl. apply answers_ret. }
  destruct (views_payload p a Ha) as (l & Hl & Hli & Hla).
  destruct (views_payload q b Hb) as (r & Hr & Hri & Hrb).
  eapply answers_deref; [exact Hl|]. eapply answers_deref; [exact Hr|].
  change (answers fuel (compare_payloads solve l r) (ty_equiv a b) (height a - 1) (2 * p)).
  destruct (decide (ty_index a = ty_index b)) as [Hi|Hi].
  2: { rewrite compare_other by congruence. rewrite ty_equiv_index by done. apply answers_ret. }
  assert (Hatom : ∀ x, is_atom x = true → payload_index x ≠ 16 ∧ payload_index x ≠ 17 ∧
    payload_index x ≠ 18 ∧ payload_index x ≠ 19) by (intros x Hx%is_atom_index; lia).
  destruct a as [x|u|u|u|k v], b as [y|w|w|w|k' v']; simpl in Hi; try done;
    try (destruct Hla as [_ Hx%Hatom]; lia); try (destruct Hrb as [_ Hx%Hatom]; lia).
  - destruct Hla as [-> Hx], Hrb as [-> _]. rewrite compare_atoms by done. apply answers_ret.
  - destruct Hla as (q1 & -> & Hq & Hu), Hrb as (q2 & -> & _ & Hw).
    eapply answers_weaken; [by apply (equivalent_child_ok fuel solve p q1 q2 u w)|simpl; lia|done].
  - destruct Hla as (q1 & -> & Hq & Hu), Hrb as (q2 & -> & _ & Hw).
    eapply answers_weaken; [by apply (equivalent_child_ok fuel solve p q1 q2 u w)|simpl; lia|done].
  - destruct Hla as (q1 & -> & Hq & Hu), Hrb as (q2 & -> & _ & Hw).
    eapply answers_weaken; [by apply (equivalent_child_ok fuel solve p q1 q2 u w)|simpl; lia|done].
  - destruct Hla as (q1 & q2 & -> & Hq1 & Hq2 & Hk & Hv), Hrb as (q3 & q4 & -> & _ & _ & Hk' & Hv').
    apply (answers_and fuel (solve TypeRelationKind.Equivalent q1 q3)
             (solve TypeRelationKind.Equivalent q2 q4)).
    + eapply answers_weaken; [by apply (equivalent_child_ok fuel solve p q1 q3 k k')|simpl; lia|done].
    + eapply answers_weaken; [by apply (equivalent_child_ok fuel solve p q2 q4 v v')|simpl; lia|done].
Qed.

(** ** Subtyping *)
Lemma subtype_child_ok fuel solve p q q' a b :
  views types q a → views types q' b → q < p → answers_below fuel solve (S (2 * p)) →
  answers fuel (subtype_child solve (Some q) (Some q')) (ty_subtype o a b) (S (height a)) (S (2 * p)).
Proof.
  intros Ha Hb Hq Hsolve. simpl.
  eapply answers_weaken; [apply (Hsolve TypeRelationKind.Subtype _ _ a b Ha Hb)|..];
    unfold rank; simpl; lia.
Qed.
Definition ty_structure (s t : Ty) : bool :=
  match s, t with
  | TAtom s, TAtom t => atom_subtype o s t
  | TOptional s, TOptional t => ty_subtype o s t
  | TList s, TList t => ty_subtype o s t
  | TSet s, TSet t => ty_subtype o s t
  | TMap sk sv, TMap tk tv => ty_equiv sk tk && ty_subtype o sv tv
  | _, _ => false
  end.
Lemma ty_subtype_unfold (s t : Ty) : ty_subtype o s t = extreme s t || ty_equiv s t || ty_structure s t.
Proof. by destruct s. Qed.

Lemma structure_atoms solve (s t : Payload) : is_atom s = true → is_atom t = true →
  subtype_structure o solve s t = mret (atom_subtype o s t).
Proof. destruct s; try done; destruct t; done. Qed.
Lemma structure_other solve (s t : Payload) :
  is_atom s = false ∨ is_atom t = false → payload_index s ≠ payload_index t →
  subtype_structure o solve s t = mret false.
Proof.
  intros [Hs|Ht] Hi; destruct s; try done; destruct t; try done; simpl in *; try lia;
    by repeat match goal with x : option _ |- _ => destruct x end.
Qed.

Definition is_leaf (t : Ty) : bool := match t with TAtom _ => true | _ => false end.
Lemma views_leaf p a (s : Payload) : views types p a → types !! p = Some s → is_atom s = is_leaf a.
Proof. destruct 1; intros; simplify_eq; done. Qed.
Lemma ty_structure_other (s t : Ty) : ty_index s ≠ ty_index t →
  is_leaf s && is_leaf t = false → ty_structure s t = false.
Proof. by destruct s, t. Qed.

Lemma subtype_structure_ok fuel solve p q a b (s t : Payload) :
  types !! p = Some s → types !! q = Some t →
  views types p a → views types q b → answers_below fuel solve (S (2 * p)) →
  answers fuel (subtype_structure o solve s t) (ty_structure a b) (height a) (S (2 * p)).
Proof.
  intros Hs Ht Ha Hb Hsolve.
  pose proof (views_leaf _ _ _ Ha Hs) as Hsl. pose proof (views_leaf _ _ _ Hb Ht) as Htl.
  destruct (views_payload p a Ha) as (l & Hl & Hli & Hla).
  destruct (views_payload q b Hb) as (r & Hr & Hri & Hrb). simplify_eq.
  destruct (is_leaf a && is_leaf b) eqn:Eleaf.
  { destruct a as [x| | | |], b as [y| | | |]; try done. destruct Hla as [-> _], Hrb as [-> _].
    rewrite structure_atoms by done. apply answers_ret. }
  destruct (decide (ty_index a = ty_index b)) as [Hi|Hi].
  2: { rewrite structure_other; [|by rewrite Hsl, Htl; destruct (is_leaf a); [right|left]|congruence].
       rewrite ty_structure_other by done. apply answers_ret. }
  assert (Hatom : ∀ x, is_atom x = true → payload_index x < 16) by (intros x; apply is_atom_index).
  destruct a as [x|u|u|u|k v], b as [y|w|w|w|k' v']; simpl in Hi; try done;
    try (destruct Hla as [_ Hx%Hatom]; lia); try (destruct Hrb as [_ Hx%Hatom]; lia).
  - destruct Hla as (q1 & -> & Hq & Hu), Hrb as (q2 & -> & _ & Hw).
    eapply answers_weaken; [by apply (subtype_child_ok fuel solve p q1 q2 u w)|simpl; lia|done].
  - destruct Hla as (q1 & -> & Hq & Hu), Hrb as (q2 & -> & _ & Hw).
    eapply answers_weaken; [by apply (subtype_child_ok fuel solve p q1 q2 u w)|simpl; lia|done].
  - destruct Hla as (q1 & -> & Hq & Hu), Hrb as (q2 & -> & _ & Hw).
    eapply answers_weaken; [by apply (subtype_child_ok fuel solve p q1 q2 u w)|simpl; lia|done].
  - destruct Hla as (q1 & q2 & -> & Hq1 & Hq2 & Hk & Hv), Hrb as (q3 & q4 & -> & _ & _ & Hk' & Hv').
    simpl. replace (ty_equiv k k' && ty_subtype o v v')
      with (if ty_equiv k k' then ty_subtype o v v' else false) by by destruct (ty_equiv k k').
    apply (answers_bind fuel (solve TypeRelationKind.Equivalent q1 q3)
      (λ b : bool, if b then solve TypeRelationKind.Subtype q2 q4 else mret false) (ty_equiv k k')
      _ _ (λ b : bool, if b then ty_subtype o v v' else false)).
    + eapply answers_weaken; [apply (Hsolve TypeRelationKind.Equivalent _ _ k k' Hk Hk')|..];
        unfold rank; simpl; lia.
    + eapply answers_weaken; [apply (subtype_child_ok fuel solve p q2 q4 v v' Hv Hv' Hq2 Hsolve)|lia|done].
    + apply answers_ret.
    + done.
Qed.

Lemma ty_is_payload p a (s : Payload) f : views types p a → types !! p = Some s →
  (∀ x, is_atom x = false → f x = false) → f s = ty_is f a.
Proof. destruct 1; intros; simplify_eq; simpl; auto. Qed.
Lemma subtype_impl_ok fuel solve p q a b :
  views types p a → views types q b → answers_below fuel solve (S (2 * p)) →
  answers fuel (subtype_impl types o solve p q) (ty_subtype o a b) (height a) (S (2 * p)).
Proof.
  intros Ha Hb Hsolve. unfold subtype_impl. case_bool_decide as Hpq.
  { subst q. rewrite (views_fun _ _ _ _ Ha Hb).
    pose proof (related_refl o TypeRelationKind.Subtype b) as Hr. simpl in Hr. rewrite Hr. apply answers_ret. }
  destruct (views_payload p a Ha) as (l & Hl & _). destruct (views_payload q b Hb) as (r & Hr & _).
  eapply answers_deref; [exact Hl|]. eapply answers_deref; [exact Hr|].
  rewrite ty_subtype_unfold. unfold extreme.
  rewrite <- (ty_is_payload p a l is_error Ha Hl), <- (ty_is_payload q b r is_error Hb Hr),
    <- (ty_is_payload q b r is_any Hb Hr), <- (ty_is_payload p a l is_never Ha Hl) by by intros [].
  destruct (is_error l || is_error r); [apply answers_ret|].
  destruct (is_any r); [apply answers_ret|]. destruct (is_never l); [apply answers_ret|].
  cbn [orb]. replace (ty_equiv a b || ty_structure a b)
    with (if ty_equiv a b then true else ty_structure a b) by by destruct (ty_equiv a b).
  apply (answers_bind fuel (solve TypeRelationKind.Equivalent p q)
    (λ b : bool, if b then mret true else subtype_structure o solve l r) (ty_equiv a b)
    _ _ (λ b' : bool, if b' then true else ty_structure a b)).
  - eapply answers_weaken; [apply (Hsolve TypeRelationKind.Equivalent _ _ a b Ha Hb)|..];
      unfold rank; simpl; lia.
  - apply answers_ret.
  - by eapply subtype_structure_ok.
  - done.
Qed.

(** ** One query *)
Lemma make_key_inj k p q k' p' q' : make_key o k p q = make_key o k' p' q' → k = k' ∧ p = p' ∧ q = q'.
Proof. unfold make_key. by intros [= -> -> ->]. Qed.

Lemma memo_ok_insert s st d key v :
  memo_ok s → (depth_guard_rejections st = rejections s ∨ (0 < depth_guard_rejections st)%Z) →
  (v = RelationState.Proven → ∀ kind p q a b, key = make_key o kind p q → views types p a →
     views types q b → related o kind a b = true) →
  (v = RelationState.Disproven → ∀ kind p q a b, key = make_key o kind p q → views types p a →
     views types q b → related o kind a b = false ∨ (0 < depth_guard_rejections st)%Z) →
  memo_ok (mkSolver (<[key := v]> (memo_ s)) st d).
Proof.
  intros [Hp Hd Hr] Hst Hvp Hvd. unfold rejections in *. constructor; simpl; unfold rejections; simpl.
  - intros kind p q a b Hk. rewrite lookup_insert in Hk. case_decide; [|by eapply Hp].
    injection Hk as ->. eauto.
  - intros kind p q a b Hk Ha Hb. rewrite lookup_insert in Hk. case_decide; [|].
    + injection Hk as ->. eauto.
    + destruct (Hd kind p q a b Hk Ha Hb); [by left|]. right. lia.
  - lia.
Qed.
Lemma memo_ok_same s st d :
  memo_ok s → depth_guard_rejections st = rejections s → memo_ok (mkSolver (memo_ s) st d).
Proof.
  intros [Hp Hd Hr] Hst. unfold rejections in *.
  constructor; simpl; unfold rejections; simpl; rewrite ?Hst; auto.
Qed.

Lemma solve_unfold fuel kind p q s :
  let key := make_key o kind p q in let st := count_query (stats_ s) in
  solve types o (S fuel) kind p q s =
  match memo_ s !! key with
  | Some RelationState.Proven =>
      Ret (true, mkSolver (memo_ s) (count_hit st) (recursion_depth_ s))
  | Some RelationState.Disproven =>
      Ret (false, mkSolver (memo_ s) (count_hit st) (recursion_depth_ s))
  | Some RelationState.Visiting =>
      Ret (true, mkSolver (memo_ s) (count_assumption st) (recursion_depth_ s))
  | None =>
      if (max_solver_depth o <=? recursion_depth_ s)%Z
      then Ret (false, mkSolver (<[key := RelationState.Disproven]> (memo_ s)) (count_rejection st)
                         (recursion_depth_ s))
      else
        (relation_impl types o (solve types o fuel) kind p q ≫= λ result,
           end_visit key result ≫= λ _, mret result)
          (mkSolver (<[key := RelationState.Visiting]> (memo_ s)) st (recursion_depth_ s + 1))
  end.
Proof.
  intros key st. cbn [solve]. unfold begin_visit, get_solver, put_solver, mret, eff_ret, mbind, eff_bind.
  cbv zeta. fold key. destruct (memo_ s !! key) as [[| |]|]; [done..|].
  by destruct (max_solver_depth o <=? recursion_depth_ s)%Z.
Qed.

Lemma solve_ok fuel kind p q a b :
  views types p a → views types q b →
  answers fuel (solve types o fuel kind p q) (related o kind a b) (height a + kind_rank kind)
    (S (rank kind p)).
Proof.
  revert kind p q a b. induction fuel as [|fuel IH]; intros kind p q a b Ha Hb s Hs Hv Hfuel; [lia|].
  assert (Himpl : answers fuel (relation_impl types o (solve types o fuel) kind p q)
    (related o kind a b) (height a + kind_rank kind - 1) (rank kind p)).
  { assert (Hbelow : ∀ r, answers_below fuel (solve types o fuel) r) by (intros r ??????? _; by apply IH).
    unfold rank. destruct kind; cbn [relation_impl related kind_rank].
    - rewrite !Nat.add_0_r. by apply equivalent_impl_ok.
    - replace (2 * p + 1) with (S (2 * p)) by lia. rewrite Nat.add_sub. by apply subtype_impl_ok.
    - replace (2 * p + 1) with (S (2 * p)) by lia. rewrite Nat.add_sub. by apply subtype_impl_ok.
    - rewrite !Nat.add_0_r. by apply equivalent_impl_ok. }
  assert (Hneed : 1 ≤ height a) by (destruct a; simpl; lia).
  rewrite solve_unfold. cbv zeta. set (key := make_key o kind p q).
  destruct (memo_ s !! key) as [[| |]|] eqn:Ek.
  - specialize (Hv key Ek). simpl in Hv. lia.
  - eexists true, _. split; [reflexivity|]. split.
    { constructor; try done. by apply memo_ok_same. }
    split; [|split; [done|done]]. intros _. by eapply memo_proven.
  - eexists false, _. split; [reflexivity|]. split.
    { constructor; try done. by apply memo_ok_same. }
    split; [done|]. split; [|done]. intros _. unfold rejections. simpl. by eapply memo_disproven.
  - pose proof (memo_rejections _ Hs) as Hr. destruct (Z.leb_spec (max_solver_depth o) (recursion_depth_ s)).
    + eexists false, _. split; [reflexivity|]. split; [|split; [done|split; [|lia]]].
      * constructor; try done; [|..].
        -- apply memo_ok_insert; [done|right; unfold rejections in Hr; simpl; lia|done|].
           intros _ ????????. right. unfold rejections in Hr. simpl. lia.
        -- intros k Hk. simpl in Hk. rewrite lookup_insert in Hk. by case_decide.
        -- unfold rejections. simpl. lia.
      * intros _. right. unfold rejections in *. simpl. lia.
    + set (s1 := mkSolver (<[key := RelationState.Visiting]> (memo_ s)) (count_query (stats_ s))
                   (recursion_depth_ s + 1)).
      destruct (Himpl s1) as (r & s2 & H2 & Hadv & Ht & Hf & Hrej).
      { apply memo_ok_insert; [done|by left|done|done]. }
      { intros k Hk. simpl in Hk. rewrite lookup_insert in Hk. case_decide as Hkk.
        - subst k. done.
        - specialize (Hv k Hk). lia. }
      { simpl. lia. }
      eexists r, _. split.
      { fold s1. rewrite (eff_bind_eq _ _ _ _ _ H2). reflexivity. }
      destruct Hadv as [Hok Hvis Hdep Hmono Hass]. split; [|split; [done|split]].
      * constructor.
        -- apply memo_ok_insert; [done|by left; destruct r| |].
           ++ destruct r; [|done]. intros _ kind' p' q' a' b' Hk' Ha' Hb'.
              apply make_key_inj in Hk' as (<- & <- & <-).
              rewrite (views_fun _ _ _ _ Ha' Ha), (views_fun _ _ _ _ Hb' Hb). by apply Ht.
           ++ destruct r; [done|]. intros _ kind' p' q' a' b' Hk' Ha' Hb'.
              apply make_key_inj in Hk' as (<- & <- & <-).
              rewrite (views_fun _ _ _ _ Ha' Ha), (views_fun _ _ _ _ Hb' Hb). by apply Hf.
        -- intros k Hk. simpl in Hk. rewrite lookup_insert in Hk. case_decide as Hkk; [by destruct r|].
           apply Hvis in Hk. simpl in Hk. by rewrite lookup_insert_ne in Hk.
        -- simpl. rewrite Hdep. simpl. lia.
        -- unfold rejections in *. simpl in *. by destruct r.
        -- simpl. rewrite Hass. done.
      * intros Hr'. destruct (Hf Hr'); [by left|]. right. done.
      * intros Hd. unfold rejections in *. simpl. rewrite Hrej; [done|]. simpl. lia.
Qed.
End Solver.

Lemma run_solver_ok types o kind p q a b :
  views types p a → views types q b →
  ∃ r s, solve types o (solver_fuel o) kind p q new_solver ⇓ (r, s) ∧
    (r = true → related o kind a b = true) ∧
    (rejections s = 0%Z → r = related o kind a b) ∧
    coinductive_assumptions (stats_ s) = 0%Z ∧
    (Z.of_nat (height a + kind_rank kind) ≤ max_solver_depth o → rejections s = 0)%Z.
Proof.
  intros Ha Hb. destruct (solve_ok types o (solver_fuel o) kind p q a b Ha Hb new_solver)
    as (r & s & H & Hadv & Ht & Hf & Hrej).
  - constructor; simpl; [intros ???????; by rewrite lookup_empty in *..|done].
  - intros key Hk. simpl in Hk. by rewrite lookup_empty in Hk.
  - unfold solver_fuel. simpl. rewrite Z.sub_0_r. lia.
  - exists r, s. split; [done|]. split; [done|]. split; [|split].
    + intros Hr. destruct r; [by rewrite Ht|]. destruct (Hf eq_refl) as [->|Hp]; [done|]. lia.
    + by rewrite (advances_assumptions _ _ _ _ Hadv).
    + intros Hd. rewrite Hrej; [done|]. simpl. lia.
Qed.

(** C20: for types that are complete, every relation the solver decides is
    answered: a positive answer holds for the types as trees, and a type less
    deep than the limit is answered exactly, whatever was memoized on the way;
    no pair is ever assumed while it is being visited. *)
Theorem relation_solver_correct types o kind p q a b :
  views types p a → views types q b →
  ∃ r, run_solver types o kind p q ⇓ r ∧
    (r = true → related o kind a b = true) ∧
    ((Z.of_nat (height a + kind_rank kind) ≤ max_solver_depth o)%Z → r = related o kind a b) ∧
    ∀ r' s, solve types o (solver_fuel o) kind p q new_solver ⇓ (r', s) →
      coinductive_assumptions (stats_ s) = 0%Z.
Proof.
  intros Ha Hb. destruct (run_solver_ok types o kind p q a b Ha Hb) as (r & s & H & Ht & Hx & Hc & Hr).
  exists r. unfold run_solver. rewrite H. split; [done|]. split; [done|].
  split; [by intros Hd; apply Hx, Hr|]. by intros r' s' [= <- <-].
Qed.

Definition sample_types : list Payload :=
  [BoundedStringT 0 5; ListT (Some 0); StringT; ListT (Some 2)].
Lemma relation_solver_correct_witness :
  ∃ r, run_solver sample_types default_options TypeRelationKind.Subtype 1 3 ⇓ r ∧
    (r = true → related default_options TypeRelationKind.Subtype
                  (TList (TAtom (BoundedStringT 0 5))) (TList (TAtom StringT)) = true) ∧
    ((Z.of_nat (2 + 1) ≤ 256)%Z → r = true) ∧
    ∀ r' s, solve sample_types default_options (solver_fuel default_options)
              TypeRelationKind.Subtype 1 3 new_solver ⇓ (r', s) →
      coinductive_assumptions (stats_ s) = 0%Z.
Proof.
  apply (relation_solver_correct sample_types default_options TypeRelationKind.Subtype 1 3
           (TList (TAtom (BoundedStringT 0 5))) (TList (TAtom StringT))).
  - eapply views_list; [reflexivity|lia|]. by constructor.
  - eapply views_list; [reflexivity|lia|]. by constructor.
Defined.
