(* ===== verification/TypeProps.v ===== *)
(** * Interned types: canonical pointers and the order of subtyping

    A context that the factories built holds every type once, parts before
    wholes; where each symbol has one name, two types are equivalent exactly
    when they are the same pointer, and subtyping orders the types that do not
    contain the error type. *)
From S2P Require Import Prelude Types TypeRelations.
Open Scope nat_scope.

(** ** What the factories build *)
Definition has_no_payload (k : TypeKind.t) : bool :=
  match k with
  | TypeKind.BoundedString | TypeKind.Decimal | TypeKind.Struct | TypeKind.Enum
  | TypeKind.EnumVariant | TypeKind.Optional | TypeKind.List_ | TypeKind.Set_ | TypeKind.Map_ => false
  | _ => true
  end.
(** A call of a factory on types of the context. *)
Inductive factory (c : TypeContext) : (TypeContext → TypePtr * TypeContext) → Prop :=
  | factory_make k : has_no_payload k = true → factory c (make k)
  | factory_bounded_string minimum maximum : factory c (bounded_string minimum maximum)
  | factory_decimal scale : factory c (decimal scale)
  | factory_struct n s : factory c (struct_type n s)
  | factory_enum n s : factory c (enum_type n s)
  | factory_enum_variant n v s : factory c (enum_variant_type n v s)
  | factory_optional p : p < length (storage c) → factory c (optional (Some p))
  | factory_list p : p < length (storage c) → factory c (list_type (Some p))
  | factory_set p : p < length (storage c) → factory c (set_type (Some p))
  | factory_map p q : p < length (storage c) → q < length (storage c) →
      factory c (map_type (Some p) (Some q)).
Inductive built : TypeContext → Prop :=
  | built_empty : built empty_types
  | built_call c f : built c → factory c f → built (f c).2.

(** The key of a payload: the factories use no other. *)
Definition key_of (p : Payload) : TypeKey :=
  let plain k := mkTypeKey k "" "" None None None None None in
  match p with
  | AnyT => plain TypeKind.Any | NeverT => plain TypeKind.Never | ErrorT => plain TypeKind.Error
  | UnitT => plain TypeKind.Unit | BoolT => plain TypeKind.Bool | IntT => plain TypeKind.Int
  | FloatT => plain TypeKind.Float | StringT => plain TypeKind.String_ | UUIDT => plain TypeKind.UUID
  | TimestampT => plain TypeKind.Timestamp | DurationT => plain TypeKind.Duration
  | BoundedStringT a b => mkTypeKey TypeKind.BoundedString "" "" (Some (a, b)) None None None None
  | DecimalT s => mkTypeKey TypeKind.Decimal "" "" None (Some s) None None None
  | StructT n s => mkTypeKey TypeKind.Struct n "" None None None None s
  | EnumT n s => mkTypeKey TypeKind.Enum n "" None None None None s
  | EnumVariantT n s v => mkTypeKey TypeKind.EnumVariant n v None None None None s
  | OptionalT t => mkTypeKey TypeKind.Optional "" "" None None t None None
  | ListT t => mkTypeKey TypeKind.List_ "" "" None None t None None
  | SetT t => mkTypeKey TypeKind.Set_ "" "" None None t None None
  | MapT k v => mkTypeKey TypeKind.Map_ "" "" None None k v None
  end.
Lemma build_key_of p : build_payload (key_of p) = p.
Proof. by destruct p. Qed.

(** The parts of a type are below a bound. *)
Definition parts_below (n : nat) (p : Payload) : Prop :=
  match p with
  | OptionalT t | ListT t | SetT t => ∃ q, t = Some q ∧ q < n
  | MapT k v => ∃ q r, k = Some q ∧ v = Some r ∧ q < n ∧ r < n
  | _ => True
  end.
Lemma factory_intern c f : factory c f → ∃ p, f = intern (key_of p) ∧ parts_below (length (storage c)) p.
Proof.
  destruct 1 as [k Hk| | | | | |p Hp|p Hp|p Hp|p q Hp Hq].
  - destruct k; try done; unfold make;
      [exists AnyT|exists NeverT|exists ErrorT|exists UnitT|exists BoolT|exists IntT|exists FloatT
      |exists StringT|exists UUIDT|exists TimestampT|exists DurationT]; done.
  - by exists (BoundedStringT minimum maximum).
  - by exists (DecimalT scale).
  - by exists (StructT n s).
  - by exists (EnumT n s).
  - by exists (EnumVariantT n s v).
  - exists (OptionalT (Some p)). simpl. eauto.
  - exists (ListT (Some p)). simpl. eauto.
  - exists (SetT (Some p)). simpl. eauto.
  - exists (MapT (Some p) (Some q)). simpl. eauto 10.
Qed.

Record context_ok (c : TypeContext) : Prop := {
  ok_pool key p : pool c !! key = Some p → ∃ t, key = key_of t ∧ storage c !! p = Some t;
  ok_storage p t : storage c !! p = Some t → pool c !! key_of t = Some p ∧ parts_below p t }.

Lemma parts_below_weaken n m p : parts_below n p → n ≤ m → parts_below m p.
Proof.
  destruct p; simpl; try done.
  - intros (q & -> & Hq) Hm. exists q. split; [done|lia].
  - intros (q & -> & Hq) Hm. exists q. split; [done|lia].
  - intros (q & -> & Hq) Hm. exists q. split; [done|lia].
  - intros (q & r & -> & -> & Hq & Hr) Hm. exists q, r. repeat split; lia.
Qed.

Lemma intern_ok c t : context_ok c → parts_below (length (storage c)) t →
  let p := (intern (key_of t) c).1 in let c' := (intern (key_of t) c).2 in
  context_ok c' ∧ storage c' !! p = Some t ∧ storage c `prefix_of` storage c' ∧
  intern (key_of t) c' = (p, c').
Proof.
  intros Hc Ht. unfold intern. destruct (pool c !! key_of t) as [p|] eqn:Ep; simpl.
  - split; [done|]. destruct (ok_pool c Hc _ _ Ep) as (t' & Hk & Hs).
    assert (t = t') as <- by (rewrite <- (build_key_of t), Hk; apply build_key_of).
    split; [done|]. split; [done|]. by rewrite Ep.
  - rewrite build_key_of. split; [constructor; simpl|split; [|split]].
    + intros key p. rewrite lookup_insert. case_decide as Hk.
      * intros [= <-]. exists t. split; [done|]. by rewrite lookup_app_r, Nat.sub_diag by lia.
      * intros Hp. destruct (ok_pool c Hc _ _ Hp) as (t' & -> & Hs). exists t'. split; [done|].
        apply lookup_app_l_Some. exact Hs.
    + intros p u Hp. apply lookup_app_Some in Hp as [Hp|(Hle & Hp)].
      * destruct (ok_storage c Hc _ _ Hp) as [Hpool Hb]. split; [|done].
        rewrite lookup_insert_ne; [done|]. intros Hk. rewrite Hk in Ep. congruence.
      * apply list_lookup_singleton_Some in Hp as [Hp <-].
        assert (p = length (storage c)) as -> by lia. split; [by rewrite lookup_insert_eq|done].
    + by rewrite lookup_app_r, Nat.sub_diag by lia.
    + by eexists.
    + by rewrite lookup_insert_eq.
Qed.
Lemma built_ok c : built c → context_ok c.
Proof.
  induction 1 as [|c f Hc IH Hf].
  - constructor; simpl; [intros key p; by rewrite lookup_empty|done].
  - destruct (factory_intern c f Hf) as (t & -> & Ht). by apply intern_ok.
Qed.

Lemma storage_inj c p q t : context_ok c → storage c !! p = Some t → storage c !! q = Some t → p = q.
Proof. intros Hc Hp Hq. destruct (ok_storage c Hc _ _ Hp), (ok_storage c Hc _ _ Hq). congruence. Qed.
Lemma views_total c p : context_ok c → p < length (storage c) → ∃ t, views (storage c) p t.
Proof.
  intros Hc. induction (lt_wf p) as [p _ IH]. intros Hp.
  destruct (lookup_lt_is_Some_2 _ _ Hp) as (t & Ht). destruct (ok_storage c Hc _ _ Ht) as [_ Hparts].
  destruct (is_atom t) eqn:Ea; [by exists (TAtom t); constructor|].
  destruct t; try done; simpl in Hparts.
  - destruct Hparts as (q & -> & Hq). destruct (IH q Hq) as (u & Hu); [lia|]. by exists (TOptional u); econstructor.
  - destruct Hparts as (q & -> & Hq). destruct (IH q Hq) as (u & Hu); [lia|]. by exists (TList u); econstructor.
  - destruct Hparts as (q & -> & Hq). destruct (IH q Hq) as (u & Hu); [lia|]. by exists (TSet u); econstructor.
  - destruct Hparts as (q & r & -> & -> & Hq & Hr). destruct (IH q Hq) as (u & Hu); [lia|].
    destruct (IH r Hr) as (v & Hv); [lia|]. exists (TMap u v). by eapply (views_map _ p q r).
Qed.
Lemma views_inj c p q t : context_ok c → views (storage c) p t → views (storage c) q t → p = q.
Proof.
  intros Hc Hp. revert q. induction Hp; intros q' Hq; inversion Hq; subst;
    try (by eapply storage_inj);
    repeat match goal with
    | IH : ∀ q, views _ q ?t → ?x = q, H : views _ ?y ?t |- _ => apply IH in H; subst
    end; by eapply storage_inj.
Qed.

(** ** Types with consistent names *)
(** Every nominal type carries its symbol, and [name] is the canonical name of
    each symbol. *)
Definition nominal_ok (name : SymbolId → string) (p : Payload) : Prop :=
  match p with
  | StructT n s | EnumT n s | EnumVariantT n s _ => ∃ i, s = Some i ∧ n = name i
  | _ => True
  end.
Fixpoint all_atoms (P : Payload → Prop) (t : Ty) : Prop :=
  match t with
  | TAtom p => P p
  | TOptional t | TList t | TSet t => all_atoms P t
  | TMap k v => all_atoms P k ∧ all_atoms P v
  end.
Lemma views_all_atoms (P : Payload → Prop) types p t :
  (∀ q x, types !! q = Some x → P x) → views types p t → all_atoms P t.
Proof. intros HP Hv. induction Hv; simpl; eauto. Qed.

Lemma atom_equiv_eq name l r :
  nominal_ok name l → nominal_ok name r → atom_equiv l r = true → is_atom l = true → l = r.
Proof.
  unfold atom_equiv. intros Hl Hr H Ha. apply andb_true_iff in H as [Hi H]. apply bool_decide_eq_true in Hi.
  destruct l; try done; destruct r; try done; simpl in *;
    repeat match goal with
    | H : _ && _ = true |- _ => apply andb_true_iff in H as [? ?]
    | H : bool_decide _ = true |- _ => apply bool_decide_eq_true in H
    | H : ∃ _, _ ∧ _ |- _ => destruct H as (? & -> & ->)
    end; unfold nominal_name_matches in *;
    repeat match goal with H : bool_decide _ = true |- _ => apply bool_decide_eq_true in H end;
    congruence.
Qed.
Lemma ty_equiv_eq name types p q a b :
  (∀ r x, types !! r = Some x → nominal_ok name x) →
  views types p a → views types q b → ty_equiv a b = true → a = b.
Proof.
  intros Hn Hp. revert q b. induction Hp; intros q' b Hq Hab; inversion Hq; subst; simpl in Hab; try done.
  - f_equal. eapply (atom_equiv_eq name); eauto.
  - f_equal. eauto.
  - f_equal. eauto.
  - f_equal. eauto.
  - apply andb_true_iff in Hab as [? ?]. f_equal; eauto.
Qed.

(** ** Interning *)
(** C21: in a context built by the factories, a call of a factory returns a
    pointer to the type it names and keeps all earlier types where they are;
    the same call in any later context returns the same pointer and changes
    nothing; two pointers to equal types are equal. *)
Theorem interning_is_canonical c f :
  built c → factory c f →
  (∀ c', built c' → storage (f c).2 `prefix_of` storage c' → f c' = ((f c).1, c')) ∧
  storage c `prefix_of` storage (f c).2 ∧ (f c).1 < length (storage (f c).2) ∧
  (∀ p q t, storage (f c).2 !! p = Some t → storage (f c).2 !! q = Some t → p = q).
Proof.
  intros Hc Hf. pose proof (built_ok _ (built_call c f Hc Hf)) as Hok'.
  destruct (factory_intern c f Hf) as (t & -> & Ht).
  destruct (intern_ok c t (built_ok c Hc) Ht) as (_ & Hp & Hpre & _).
  split; [|split; [done|split; [by eapply lookup_lt_Some|intros p q u; by apply storage_inj]]].
  intros c' Hc' [tl Htl].
  assert (Hp' : storage c' !! (intern (key_of t) c).1 = Some t) by (rewrite Htl; by apply lookup_app_l_Some).
  destruct (ok_storage c' (built_ok c' Hc') _ _ Hp') as [Hpool _]. unfold intern at 1. by rewrite Hpool.
Qed.

(** Where every nominal type carries its symbol and each symbol has one
    name, comparing pointers is comparing types: the solver finds two interned
    types equivalent exactly when they are the same pointer. *)
Theorem pointer_identity_is_equivalence c name o p q :
  built c → (∀ r x, storage c !! r = Some x → nominal_ok name x) →
  p < length (storage c) → q < length (storage c) → (0 < max_solver_depth o)%Z →
  are_types_equivalent (storage c) o p q ⇓ bool_decide (p = q).
Proof.
  intros Hc Hn Hp Hq Ho. pose proof (built_ok c Hc) as Hok.
  destruct (views_total c p Hok Hp) as (a & Ha). destruct (views_total c q Hok Hq) as (b & Hb).
  destruct (run_solver_ok (storage c) o TypeRelationKind.Equivalent p q a b Ha Hb)
    as (r & s & H & Ht & _). unfold are_types_equivalent, run_solver. rewrite H. f_equal.
  case_bool_decide as Hpq.
  - subst q. unfold solver_fuel in H. rewrite solve_unfold in H. simpl in H.
    rewrite lookup_empty in H. destruct (Z.leb_spec (max_solver_depth o) 0); [lia|].
    unfold equivalent_impl in H. rewrite bool_decide_true in H by done. by injection H as <-.
  - destruct r; [|done]. exfalso. apply Hpq. eapply views_inj; [done|exact Ha|].
    rewrite (ty_equiv_eq name (storage c) p q a b Hn Ha Hb); [done|by apply Ht].
Qed.

(** ** Subtyping between types that agree on names *)
Definition error_free : Ty → Prop := all_atoms (λ p, p ≠ ErrorT).
(** The proper subtypings between atoms. *)
Inductive atom_step (o : TypeRelationOptions) : Payload → Payload → Prop :=
  | step_variant n s v m t : nominal_name_matches s n t m = true →
      atom_step o (EnumVariantT n s v) (EnumT m t)
  | step_string a b : allow_bounded_string_relaxation o = true →
      atom_step o (BoundedStringT a b) StringT
  | step_bounds a b a' b' : allow_bounded_string_relaxation o = true → (a' ≤ a)%Z → (b ≤ b')%Z →
      atom_step o (BoundedStringT a b) (BoundedStringT a' b')
  | step_float : allow_numeric_widening o = true → atom_step o IntT FloatT
  | step_int_decimal s : allow_numeric_widening o = true → atom_step o IntT (DecimalT s)
  | step_decimal s s' : allow_numeric_widening o = true → (s ≤ s')%Z →
      atom_step o (DecimalT s) (DecimalT s').
Lemma atom_subtype_step o s t : atom_subtype o s t = true ↔ atom_step o s t.
Proof.
  split.
  - destruct s; try done; destruct t; try done; simpl;
      rewrite ?andb_true_iff, ?Z.leb_le; intros; destruct_and?; by constructor.
  - destruct 1; simpl; rewrite ?andb_true_iff, ?Z.leb_le; tauto.
Qed.

(** Subtyping of trees with consistent names, as rules. *)
Inductive sub (o : TypeRelationOptions) : Ty → Ty → Prop :=
  | sub_refl t : sub o t t
  | sub_any s : sub o s (TAtom AnyT)
  | sub_never t : sub o (TAtom NeverT) t
  | sub_atom s t : atom_step o s t → sub o (TAtom s) (TAtom t)
  | sub_optional s t : sub o s t → sub o (TOptional s) (TOptional t)
  | sub_list s t : sub o s t → sub o (TList s) (TList t)
  | sub_set s t : sub o s t → sub o (TSet s) (TSet t)
  | sub_map k s t : sub o s t → sub o (TMap k s) (TMap k t).

Lemma step_trans o s t u : atom_step o s t → atom_step o t u → atom_step o s u.
Proof. intros H1 H2. destruct H1; inversion H2; subst; try (constructor; done); constructor; (done || lia). Qed.
Lemma sub_any_inv o t : sub o (TAtom AnyT) t → t = TAtom AnyT.
Proof. inversion 1 as [| | |? ? Hs| | | |]; subst; try done. inversion Hs. Qed.
Lemma sub_never_inv o t : sub o t (TAtom NeverT) → t = TAtom NeverT.
Proof. inversion 1 as [| | |? ? Hs| | | |]; subst; try done. inversion Hs. Qed.

Lemma sub_trans o s t u : sub o s t → sub o t u → sub o s u.
Proof.
  intros Hst. revert u. induction Hst as [t|s|t|s t Hst|s t Hst IH|s t Hst IH|s t Hst IH|k s t Hst IH];
    intros u Htu; try done.
  - apply sub_any_inv in Htu as ->. constructor.
  - constructor.
  - inversion Htu as [| | |? ? Hs| | | |]; subst; try (by constructor).
    + inversion Hst.
    + constructor. by eapply step_trans.
  - inversion Htu; subst; constructor; auto.
  - inversion Htu; subst; constructor; auto.
  - inversion Htu; subst; constructor; auto.
  - inversion Htu; subst; constructor; auto.
Qed.
Lemma sub_antisym o s t : sub o s t → sub o t s → s = t.
Proof.
  induction 1 as [t|s|t|s t Hst|s t Hst IH|s t Hst IH|s t Hst IH|k s t Hst IH]; intros Hts; try done.
  - by apply sub_any_inv in Hts.
  - by apply sub_never_inv in Hts.
  - inversion Hts as [| | |? ? Hs| | | |]; subst; try done; try (by inversion Hst).
    destruct Hst; inversion Hs; subst; repeat f_equal; lia.
  - inversion Hts; subst; f_equal; auto.
  - inversion Hts; subst; f_equal; auto.
  - inversion Hts; subst; f_equal; auto.
  - inversion Hts; subst; f_equal; auto.
Qed.

(** The decision procedure and the rules agree on types without errors. *)
Lemma ty_is_inv f t : ty_is f t = true → ∃ p, t = TAtom p ∧ f p = true.
Proof. destruct t; unfold ty_is; simpl; try done. eauto. Qed.
Lemma extreme_sub o s t : error_free s → error_free t → extreme s t = true → sub o s t.
Proof.
  intros Hs Ht. unfold extreme. rewrite !orb_true_iff.
  intros [[[H|H]|H]|H]; apply ty_is_inv in H as (p & -> & Hp); destruct p; try done; constructor.
Qed.
Lemma sub_subtype o s t : sub o s t → ty_subtype o s t = true.
Proof.
  induction 1; rewrite ty_subtype_unfold; unfold extreme.
  - apply (related_refl o TypeRelationKind.Subtype) || (rewrite ty_equiv_refl; by rewrite orb_true_r).
  - unfold ty_is at 3. simpl. by rewrite orb_true_r.
  - unfold ty_is at 4. simpl. by rewrite orb_true_r.
  - simpl. rewrite (proj2 (atom_subtype_step o s t)) by done. by rewrite !orb_true_r.
  - simpl. rewrite IHsub. by rewrite !orb_true_r.
  - simpl. rewrite IHsub. by rewrite !orb_true_r.
  - simpl. rewrite IHsub. by rewrite !orb_true_r.
  - simpl. rewrite IHsub, ty_equiv_refl. by rewrite !orb_true_r.
Qed.
Lemma subtype_sub o types name p q s t :
  (∀ r x, types !! r = Some x → nominal_ok name x) →
  views types p s → views types q t → error_free s → error_free t →
  ty_subtype o s t = true → sub o s t.
Proof.
  intros Hn Hs. revert q t. induction Hs as [p s Hp Ha|p q' s Hp Hlt Hs IH|p q' s Hp Hlt Hs IH
    |p q' s Hp Hlt Hs IH|p q' r' k s Hp Hlt1 Hlt2 Hk IHk Hs IH]; intros q t Ht Hes Het;
    rewrite ty_subtype_unfold, !orb_true_iff; intros [[H|H]|H]; try (by apply extreme_sub);
    try (eapply (ty_equiv_eq name) in H; [subst; constructor|exact Hn| |exact Ht]; by econstructor);
    destruct Ht; try done; simpl in *.
  - constructor. by apply atom_subtype_step.
  - constructor. eauto.
  - constructor. eauto.
  - constructor. eauto.
  - apply andb_true_iff in H as [Hkeys H]. destruct Hes, Het.
    eapply (ty_equiv_eq name) in Hkeys; [|done..]. subst. constructor. eauto.
Qed.

Section Subtyping.
Context (c : TypeContext) (name : SymbolId → string) (o : TypeRelationOptions).
Context (Hbuilt : built c) (Hnames : ∀ r x, storage c !! r = Some x → nominal_ok name x).

(** A type of the context, without errors and less deep than the limit. *)
Definition regular (p : TypePtr) : Prop :=
  ∃ t, views (storage c) p t ∧ error_free t ∧ (Z.of_nat (height t) < max_solver_depth o)%Z.
Definition subtype (p q : TypePtr) : Prop := is_subtype_of (storage c) o p q ⇓ true.

Lemma subtype_rules p q s t :
  views (storage c) p s → views (storage c) q t → error_free s → error_free t →
  (Z.of_nat (height s) < max_solver_depth o)%Z → subtype p q ↔ sub o s t.
Proof.
  intros Hs Ht Hes Het Hh. unfold subtype, is_subtype_of.
  destruct (run_solver_ok (storage c) o TypeRelationKind.Subtype p q s t Hs Ht)
    as (r & st & H & Hr & Hx & _ & Hd).
  unfold run_solver. rewrite H. rewrite (Hx (Hd ltac:(simpl; lia))). simpl. split.
  - intros [= Hsub]. by eapply subtype_sub.
  - intros Hsub. f_equal. by apply sub_subtype.
Qed.
End Subtyping.

(** On the types of a context where each symbol has one name, that contain
    no error type and are less deep than the limit, subtyping is a partial
    order, whichever relaxations are allowed: reflexive, transitive, and mutual
    subtypes are the same pointer; [Any] is above and [Never] below all. *)
Theorem subtyping_is_a_partial_order c name o :
  built c → (∀ r x, storage c !! r = Some x → nominal_ok name x) →
  (∀ p, regular c o p → subtype c o p p) ∧
  (∀ p q r, regular c o p → regular c o q → regular c o r →
     subtype c o p q → subtype c o q r → subtype c o p r) ∧
  (∀ p q, regular c o p → regular c o q → subtype c o p q → subtype c o q p → p = q) ∧
  (∀ p q, regular c o p → storage c !! q = Some AnyT → subtype c o p q) ∧
  (∀ p q, regular c o q → storage c !! p = Some NeverT → (1 < max_solver_depth o)%Z → subtype c o p q).
Proof.
  intros Hc Hn. pose proof (built_ok c Hc) as Hok. split; [|split; [|split; [|split]]].
  - intros p (t & Ht & He & Hh). eapply subtype_rules; eauto. constructor.
  - intros p q r (s & Hs & Hes & Hhs) (t & Ht & Het & Hht) (u & Hu & Heu & Hhu) Hpq Hqr.
    eapply (subtype_rules c name o Hn p q) in Hpq; eauto. eapply (subtype_rules c name o Hn q r) in Hqr; eauto.
    eapply subtype_rules; eauto. by eapply sub_trans.
  - intros p q (s & Hs & Hes & Hhs) (t & Ht & Het & Hht) Hpq Hqp.
    eapply (subtype_rules c name o Hn p q) in Hpq; eauto. eapply (subtype_rules c name o Hn q p) in Hqp; eauto.
    pose proof (sub_antisym _ _ _ Hpq Hqp) as ->. by eapply views_inj.
  - intros p q (s & Hs & Hes & Hhs) Hq. eapply (subtype_rules c name o Hn p q s (TAtom AnyT)); eauto.
    + by constructor.
    + done.
    + constructor.
  - intros p q (t & Ht & Het & Hht) Hp Ho.
    eapply (subtype_rules c name o Hn p q (TAtom NeverT) t); eauto.
    + by constructor.
    + done.
    + constructor.
Qed.

(** ** A concrete context *)
Definition context1 : TypeContext := (bounded_string 0 5 empty_types).2.
Definition context2 : TypeContext := (list_type (Some 0) context1).2.
Definition context3 : TypeContext := (struct_type "app::Order" (Some 7) context2).2.
Definition sample_context : TypeContext := (list_type (Some 2) context3).2.
Definition sample_name (i : SymbolId) : string := "app::Order".
Lemma sample_built1 : built context1.
Proof. exact (built_call _ _ built_empty (factory_bounded_string _ 0 5)). Defined.
Lemma sample_built2 : built context2.
Proof. unfold context2. apply built_call; [apply sample_built1|]. apply factory_list. vm_compute. lia. Defined.
Lemma sample_built3 : built context3.
Proof. unfold context3. apply built_call; [apply sample_built2|apply factory_struct]. Defined.
Lemma sample_built : built sample_context.
Proof. unfold sample_context. apply built_call; [apply sample_built3|]. apply factory_list. vm_compute. lia. Defined.
Lemma sample_storage : storage sample_context =
  [BoundedStringT 0 5; ListT (Some 0); StructT "app::Order" (Some 7); ListT (Some 2)].
Proof. vm_compute. reflexivity. Defined.
Lemma sample_nominal : ∀ r x, storage sample_context !! r = Some x → nominal_ok sample_name x.
Proof.
  intros r x. rewrite sample_storage. intros Hr.
  destruct r as [|[|[|[|r]]]]; [injection Hr as <-; (done || by exists 7)..|done].
Defined.

Lemma interning_is_canonical_witness :
  built sample_context ∧ factory sample_context (list_type (Some 0)) ∧
  (list_type (Some 0) sample_context).1 = 1.
Proof.
  split; [apply sample_built|]. split; [apply factory_list; vm_compute; lia|].
  rewrite (proj1 (interning_is_canonical context1 (list_type (Some 0)) sample_built1
    (factory_list context1 0 ltac:(vm_compute; lia))) sample_context sample_built); [reflexivity|].
  by exists [StructT "app::Order" (Some 7); ListT (Some 2)].
Defined.
Lemma pointer_identity_is_equivalence_witness :
  are_types_equivalent (storage sample_context) default_options 1 3 ⇓ false.
Proof.
  apply (pointer_identity_is_equivalence sample_context sample_name default_options 1 3
           sample_built sample_nominal); vm_compute; try lia; reflexivity.
Defined.
Lemma subtyping_is_a_partial_order_witness : subtype sample_context default_options 1 1.
Proof.
  apply (proj1 (subtyping_is_a_partial_order sample_context sample_name default_options
                  sample_built sample_nominal)).
  exists (TList (TAtom (BoundedStringT 0 5))). split; [|split; [done|vm_compute; reflexivity]].
  eapply views_list; [reflexivity|lia|]. by constructor.
Defined.

(** With the error type the order is lost: it is below and above everything. *)
Example errors_break_transitivity :
  let types := [IntT; ErrorT; StringT] in
  is_subtype_of types default_options 0 1 ⇓ true ∧ is_subtype_of types default_options 1 2 ⇓ true ∧
  is_subtype_of types default_options 0 2 ⇓ false.
Proof. by vm_compute. Qed.
(** A nominal type without a symbol is equivalent to different types of its name. *)
Example missing_symbols_break_transitivity :
  let types := [StructT "A" (Some 1); StructT "A" None; StructT "A" (Some 2)] in
  are_types_equivalent types default_options 0 1 ⇓ true ∧
  are_types_equivalent types default_options 1 2 ⇓ true ∧
  are_types_equivalent types default_options 0 2 ⇓ false.
Proof. by vm_compute. Qed.
(** Below the depth limit the solver says no, whatever the types. *)
Example depth_guard_fails_closed :
  let o := mkTypeRelationOptions true false 2 in
  let types := [BoundedStringT 0 5; ListT (Some 0); StringT; ListT (Some 2)] in
  is_subtype_of types o 0 2 ⇓ true ∧ is_subtype_of types o 1 3 ⇓ true ∧
  is_subtype_of (types ++ [ListT (Some 1); ListT (Some 3)]) o 4 5 ⇓ false.
Proof. by vm_compute. Qed.
