(* ===== verification/OptIr.v ===== *)
(** * The optimization IR (include/ahfl/compiler/ir/opt/opt_ir.hpp)

    Functions of basic blocks over numbered locals.  References to locals and
    blocks are [std::uint32_t], here [N]; [kNoLocal] is the largest one.  The
    records keep every field of the source, also those that a given kind of
    statement, operand or terminator does not use. *)
From S2P Require Import Prelude Numeric Ir.
From Stdlib Require Import NArith.
Open Scope N_scope.

Abbreviation LocalRef := N.
Abbreviation BlockId := N.
Definition kNoLocal : LocalRef := 4294967295.
(** [static_cast<std::uint32_t>(v.size())]. *)
Definition u32 (n : nat) : N := N.of_nat n mod 4294967296.

Module Opt.
Record Local_ := mkLocal {
  local_id : LocalRef;
  local_name : string;
  local_type : TypeRef;
  is_temp : bool;
  local_source_range : option SourceRange }.

Inductive Constant :=
  | CMonostate
  | CBool (b : bool)
  | CInt (z : Z)
  | CFloat (d : double)
  | CString (s : string).

Module OperandKind.
Inductive t := Local_ | Constant | Arg.
End OperandKind.
Record Operand := mkOperand {
  op_kind : OperandKind.t;
  op_local : LocalRef;
  op_constant : Constant;
  op_arg_index : N }.

Module RvalueKind.
Inductive t := Use | BinaryOp | UnaryOp | Call | Aggregate | Field | Index.
End RvalueKind.
Record Rvalue := mkRvalue {
  rv_kind : RvalueKind.t;
  rv_op : string;
  rv_callee : string;
  rv_field_name : string;
  operands : list Operand;
  result_type : TypeRef }.
Definition default_rvalue (k : RvalueKind.t) : Rvalue := mkRvalue k "" "" "" [] default_type_ref.

Module StatementKind.
Inductive t := Assign | StorageLive | StorageDead | Nop.
End StatementKind.
Record Statement := mkStatement {
  st_kind : StatementKind.t;
  dest : LocalRef;
  rvalue : Rvalue;
  st_source_range : option SourceRange }.

Module TerminatorKind.
Inductive t := Goto | SwitchBool | Return | Call | Assert | Unreachable.
End TerminatorKind.
Record Terminator := mkTerminator {
  tm_kind : TerminatorKind.t;
  condition : LocalRef;
  return_value : LocalRef;
  target : BlockId;
  then_block : BlockId;
  else_block : BlockId;
  tm_callee : string;
  args : list Operand;
  call_dest : LocalRef;
  call_resume : BlockId;
  tm_source_range : option SourceRange }.
Definition default_terminator (k : TerminatorKind.t) : Terminator :=
  mkTerminator k kNoLocal kNoLocal 0 0 0 "" [] kNoLocal 0 None.

Record BasicBlock := mkBasicBlock {
  block_id : BlockId;
  block_label : string;
  block_statements : list Statement;
  terminator : Terminator }.
Record OptFunction := mkOptFunction {
  fn_name : string;
  locals : list Local_;
  arg_count : N;
  blocks : list BasicBlock;
  return_type : TypeRef;
  fn_source_range : option SourceRange }.
Record SkippedTemporalFragment := mkSkipped {
  scope : string;
  skipped_kind : string;
  reason : string;
  skipped_source_range : option SourceRange }.
Record OptProgram := mkOptProgram {
  functions : list OptFunction;
  skipped_temporal_fragments : list SkippedTemporalFragment;
  source_program_version : string }.

#[export] Instance OperandKind_eq_dec : EqDecision OperandKind.t.
Proof. solve_decision. Defined.
#[export] Instance RvalueKind_eq_dec : EqDecision RvalueKind.t.
Proof. solve_decision. Defined.
#[export] Instance StatementKind_eq_dec : EqDecision StatementKind.t.
Proof. solve_decision. Defined.
#[export] Instance TerminatorKind_eq_dec : EqDecision TerminatorKind.t.
Proof. solve_decision. Defined.
End Opt.
