(* ===== verification/OptVerify.v ===== *)
(** * The verifier of the optimization IR (src/compiler/ir/opt/opt_verify.cpp)

    [FunctionVerifier] walks over a function, collects diagnostics and marks
    which locals are defined and used.  Its state is passed explicitly. *)
From S2P Require Import Prelude Numeric Ir OptIr.
From Stdlib Require Import NArith.
Import Opt.
Open Scope N_scope.

(** ** Results (opt_verify.hpp) *)
Module VerificationSeverity.
Inductive t := Error | Warning.
End VerificationSeverity.
#[export] Instance VerificationSeverity_eq_dec : EqDecision VerificationSeverity.t.
Proof. solve_decision. Defined.
Record VerificationDiagnostic := mkVerificationDiagnostic {
  vd_severity : VerificationSeverity.t;
  vd_function_name : string;
  vd_block_id : option BlockId;
  vd_message : string }.
Abbreviation VerificationResult := (list VerificationDiagnostic).
Definition result_has_errors (r : VerificationResult) : bool :=
  existsb (λ d, bool_decide (vd_severity d = VerificationSeverity.Error)) r.
Definition result_has_warnings (r : VerificationResult) : bool :=
  existsb (λ d, bool_decide (vd_severity d = VerificationSeverity.Warning)) r.

(** ** Types and ranges *)
Definition is_resolved (type : TypeRef) : bool :=
  negb (bool_decide (type_kind type = TypeRefKind.Unresolved)).
(** Two strings or options that are both given differ. *)
Definition names_clash (lhs rhs : string) : bool :=
  negb (bool_decide (lhs = "")) && negb (bool_decide (rhs = "")) && negb (bool_decide (lhs = rhs)).
Definition values_clash {A} `{EqDecision A} (lhs rhs : option A) : bool :=
  match lhs, rhs with Some a, Some b => negb (bool_decide (a = b)) | _, _ => false end.
Fixpoint type_refs_compatible (lhs rhs : TypeRef) : bool :=
  if negb (is_resolved lhs) || negb (is_resolved rhs) then true
  else if negb (bool_decide (type_kind lhs = type_kind rhs)) then false
  else if names_clash (type_canonical lhs) (type_canonical rhs) then false
  else if names_clash (type_variant_name lhs) (type_variant_name rhs) then false
  else if values_clash (type_string_bounds lhs) (type_string_bounds rhs) then false
  else if values_clash (type_decimal_scale lhs) (type_decimal_scale rhs) then false
  else
    match lhs with
    | mkTypeRef _ _ _ _ _ _ _ lfirst lsecond =>
        (match lfirst, type_first rhs with
         | Some l, Some r => type_refs_compatible l r | _, _ => true end) &&
        (match lsecond, type_second rhs with
         | Some l, Some r => type_refs_compatible l r | _, _ => true end)
    end.
Definition source_range_has_valid_order (range : SourceRange) : bool :=
  (begin_offset range <=? end_offset range)%Z.

(** ** The verifier *)
Record Verifier := mkVerifier {
  result_ : VerificationResult;
  definitions_ : list bool;
  uses_ : list bool }.
Definition new_verifier : Verifier := mkVerifier [] [] [].

Section Verify.
Context (function : OptFunction).
Implicit Types (v : Verifier) (local : LocalRef) (id : option BlockId).

Definition add (severity : VerificationSeverity.t) (message : string) id v : Verifier :=
  mkVerifier (result_ v ++ [mkVerificationDiagnostic severity (fn_name function) id message])
    (definitions_ v) (uses_ v).
Definition add_error (message : string) id : Verifier → Verifier :=
  add VerificationSeverity.Error message id.
Definition add_warning (message : string) id : Verifier → Verifier :=
  add VerificationSeverity.Warning message id.
(** [if (bad) { add_error(message, id); }] *)
Definition error_if (bad : bool) (message : string) id v : Verifier :=
  if bad then add_error message id v else v.

Definition local_count : N := N.of_nat (length (locals function)).
Definition valid_block_ref (block : BlockId) : bool :=
  block <? N.of_nat (length (blocks function)).
Definition valid_local_ref local : bool :=
  negb (bool_decide (local = kNoLocal)) && (local <? local_count).
Definition valid_optional_local_ref local : bool :=
  bool_decide (local = kNoLocal) || (local <? local_count).
Definition type_of_local local : option TypeRef :=
  if valid_local_ref local then local_type <$> locals function !! N.to_nat local else None.

(** [marks[local] = true] in a vector of booleans. *)
Definition mark local (marks : list bool) : list bool :=
  if negb (bool_decide (local = kNoLocal)) && (local <? N.of_nat (length marks)) then
    <[N.to_nat local := true]> marks
  else marks.
Definition mark_local_definition local v : Verifier :=
  mkVerifier (result_ v) (mark local (definitions_ v)) (uses_ v).
Definition mark_local_use local v : Verifier :=
  mkVerifier (result_ v) (definitions_ v) (mark local (uses_ v)).

Definition verify_source_range (range : option SourceRange) (label : string) id v : Verifier :=
  match range with
  | Some r => error_if (negb (source_range_has_valid_order r)) (label +:+ " has end before begin") id v
  | None => v
  end.
Definition verify_block_target (block : BlockId) (label : string) id : Verifier → Verifier :=
  error_if (negb (valid_block_ref block)) (label +:+ " is out of range") id.

Definition verify_required_bool_local local (label : string) id v : Verifier :=
  match type_of_local local with
  | None => add_error (label +:+ " local is invalid") id v
  | Some type =>
      error_if (is_resolved type && negb (bool_decide (type_kind type = TypeRefKind.Bool)))
        (label +:+ " must have Bool type") id (mark_local_use local v)
  end.

Definition verify_operand (operand : Operand) id v : Verifier :=
  match op_kind operand with
  | OperandKind.Local_ =>
      if valid_local_ref (op_local operand) then mark_local_use (op_local operand) v
      else add_error "operand local is invalid" id v
  | OperandKind.Arg =>
      error_if (arg_count function <=? op_arg_index operand)
        "argument operand index is out of range" id v
  | OperandKind.Constant => v
  end.
Definition verify_operands (l : list Operand) id v : Verifier :=
  foldl (λ v operand, verify_operand operand id v) v l.
Definition expect_operand_count (rv : Rvalue) (expected : nat) (label : string) id : Verifier → Verifier :=
  error_if (negb (bool_decide (length (operands rv) = expected)))
    (label +:+ " has " +:+ to_string (Z.of_nat (length (operands rv))) +:+ " operands; expected " +:+
     to_string (Z.of_nat expected)) id.
Definition verify_rvalue (rv : Rvalue) id v : Verifier :=
  let v :=
    match rv_kind rv with
    | RvalueKind.Use => expect_operand_count rv 1 "use rvalue" id v
    | RvalueKind.BinaryOp =>
        error_if (bool_decide (rv_op rv = "")) "binary rvalue has no operator" id
          (expect_operand_count rv 2 "binary rvalue" id v)
    | RvalueKind.UnaryOp =>
        error_if (bool_decide (rv_op rv = "")) "unary rvalue has no operator" id
          (expect_operand_count rv 1 "unary rvalue" id v)
    | RvalueKind.Call => error_if (bool_decide (rv_callee rv = "")) "call rvalue has no callee" id v
    | RvalueKind.Aggregate => v
    | RvalueKind.Field =>
        error_if (bool_decide (rv_field_name rv = "")) "field rvalue has no field name" id
          (expect_operand_count rv 1 "field rvalue" id v)
    | RvalueKind.Index => expect_operand_count rv 2 "index rvalue" id v
    end in
  verify_operands (operands rv) id v.

Definition verify_statement (stmt : Statement) id v : Verifier :=
  let v := verify_source_range (st_source_range stmt) "statement source range" id v in
  match st_kind stmt with
  | StatementKind.Assign =>
      let v :=
        match type_of_local (dest stmt) with
        | None => add_error "assignment destination local is invalid" id v
        | Some type =>
            error_if (negb (type_refs_compatible type (result_type (rvalue stmt))))
              "assignment result type does not match destination local type" id
              (mark_local_definition (dest stmt) v)
        end in
      verify_rvalue (rvalue stmt) id v
  | StatementKind.StorageLive | StatementKind.StorageDead =>
      error_if (negb (valid_local_ref (dest stmt))) "storage statement local is invalid" id v
  | StatementKind.Nop => v
  end.

Definition verify_terminator (t : Terminator) id v : Verifier :=
  let v := verify_source_range (tm_source_range t) "terminator source range" id v in
  match tm_kind t with
  | TerminatorKind.Goto => verify_block_target (target t) "goto target" id v
  | TerminatorKind.SwitchBool =>
      let v := verify_required_bool_local (condition t) "switch condition" id v in
      let v := verify_block_target (then_block t) "switch then target" id v in
      verify_block_target (else_block t) "switch else target" id v
  | TerminatorKind.Return =>
      if negb (valid_optional_local_ref (return_value t)) then
        add_error "return value local is invalid" id v
      else if negb (bool_decide (return_value t = kNoLocal)) then
        let v := mark_local_use (return_value t) v in
        match type_of_local (return_value t) with
        | Some type =>
            error_if (negb (type_refs_compatible (return_type function) type))
              "return value type does not match function return type" id v
        | None => v
        end
      else v
  | TerminatorKind.Call =>
      let v := error_if (bool_decide (tm_callee t = "")) "call terminator has no callee" id v in
      let v := verify_operands (args t) id v in
      let v :=
        if negb (valid_optional_local_ref (call_dest t)) then
          add_error "call destination local is invalid" id v
        else if negb (bool_decide (call_dest t = kNoLocal)) then mark_local_definition (call_dest t) v
        else v in
      verify_block_target (call_resume t) "call resume target" id v
  | TerminatorKind.Assert =>
      let v := verify_required_bool_local (condition t) "assert condition" id v in
      verify_block_target (target t) "assert resume target" id v
  | TerminatorKind.Unreachable => v
  end.

Definition verify_block (block : BasicBlock) v : Verifier :=
  let id := Some (block_id block) in
  verify_terminator (terminator block) id
    (foldl (λ v stmt, verify_statement stmt id v) v (block_statements block)).

Definition verify_function_shape v : Verifier :=
  let v := error_if (bool_decide (fn_name function = "")) "function name is empty" None v in
  let v := error_if (local_count <? arg_count function) "arg_count exceeds local count" None v in
  let v := error_if (bool_decide (blocks function = [])) "function has no entry block" None v in
  let v := verify_source_range (fn_source_range function) "function source range" None v in
  mkVerifier (result_ v)
    (imap (λ i _, N.of_nat i <? arg_count function) (locals function))
    (replicate (length (locals function)) false).

(** The loops over locals and blocks, with the identifiers already seen.  The
    counter of the loops is a [std::uint32_t]: it is compared as one. *)
Fixpoint verify_locals_from (index : nat) (ids : gset N) (l : list Local_) v : Verifier :=
  match l with
  | [] => v
  | local :: l =>
      let v := error_if (negb (bool_decide (local_id local = u32 index)))
                 "local id does not match its vector index" None v in
      let v := error_if (bool_decide (local_id local ∈ ids))
                 ("duplicate local id " +:+ to_string (Z.of_N (local_id local))) None v in
      let v := verify_source_range (local_source_range local) "local source range" None v in
      verify_locals_from (S index) ({[local_id local]} ∪ ids) l v
  end.
Definition verify_locals : Verifier → Verifier := verify_locals_from 0 ∅ (locals function).

Fixpoint verify_blocks_from (index : nat) (ids : gset N) (l : list BasicBlock) v : Verifier :=
  match l with
  | [] => v
  | block :: l =>
      let id := Some (block_id block) in
      let v := error_if (negb (bool_decide (block_id block = u32 index)))
                 "basic block id does not match its vector index" id v in
      let v := error_if (bool_decide (block_id block ∈ ids))
                 ("duplicate basic block id " +:+ to_string (Z.of_N (block_id block))) id v in
      verify_blocks_from (S index) ({[block_id block]} ∪ ids) l (verify_block block v)
  end.
(** [for (index = arg_count; index < uses_.size(); ++index)] *)
Definition verify_uses v : Verifier :=
  foldl (λ v index,
           error_if (default false (uses_ v !! index) && negb (default false (definitions_ v !! index)))
             ("local %" +:+ to_string (Z.of_nat index) +:+ " is used without a definition") None v)
    v (filter (λ index, (arg_count function <=? N.of_nat index) = true)
         (seq 0 (length (locals function)))).
Definition verify_blocks v : Verifier := verify_uses (verify_blocks_from 0 ∅ (blocks function) v).

(** ** Unreachable blocks *)
Definition terminator_targets (t : Terminator) : list BlockId :=
  match tm_kind t with
  | TerminatorKind.Goto => [target t]
  | TerminatorKind.SwitchBool => [then_block t; else_block t]
  | TerminatorKind.Call => [call_resume t]
  | TerminatorKind.Assert => [target t]
  | TerminatorKind.Return | TerminatorKind.Unreachable => []
  end.
(** One target of the block that was popped. *)
Definition reach_target (s : list BlockId * list bool) (b : BlockId) : list BlockId * list bool :=
  let (worklist, reachable) := s in
  if (b <? N.of_nat (length reachable)) && negb (default false (reachable !! N.to_nat b)) then
    (b :: worklist, <[N.to_nat b := true]> reachable)
  else s.
(** [while (!worklist.empty())]; the top of the stack is the head of the list. *)
Fixpoint reach_blocks (fuel : nat) (s : list BlockId * list bool) : cxx (list bool) :=
  match s.1, fuel with
  | [], _ => Ret s.2
  | _, O => NoFuel
  | b :: worklist, S fuel =>
      match blocks function !! N.to_nat b with
      | None => UB
      | Some block =>
          reach_blocks fuel (foldl reach_target (worklist, s.2) (terminator_targets (terminator block)))
      end
  end.
(** A block enters the worklist at most once. *)
Definition reachable_blocks : cxx (list bool) :=
  reach_blocks (S (length (blocks function)))
    ([0], <[0%nat := true]> (replicate (length (blocks function)) false)).
Definition verify_unreachable_blocks v : cxx Verifier :=
  if bool_decide (blocks function = []) then Ret v
  else
    reachable ← reachable_blocks;
    Ret (foldl (λ v index,
           if default true (reachable !! index) then v
           else add_warning "basic block is unreachable" (Some (u32 index)) v)
           v (seq 0 (length reachable))).

Definition run_verifier : cxx VerificationResult :=
  v ← verify_unreachable_blocks (verify_blocks (verify_locals (verify_function_shape new_verifier)));
  Ret (result_ v).
End Verify.

Definition verify_opt_function (function : OptFunction) : cxx VerificationResult :=
  run_verifier function.

(** ** Programs *)
Definition fragment_error (function_name message : string) : VerificationDiagnostic :=
  mkVerificationDiagnostic VerificationSeverity.Error function_name None message.
Definition verify_fragment (fragment : SkippedTemporalFragment) : VerificationResult :=
  (if bool_decide (scope fragment = "")
   then [fragment_error "opt_program" "skipped temporal fragment scope is empty"] else []) ++
  (if bool_decide (skipped_kind fragment = "")
   then [fragment_error "opt_program" "skipped temporal fragment kind is empty"] else []) ++
  (if bool_decide (reason fragment = "")
   then [fragment_error "opt_program" "skipped temporal fragment reason is empty"] else []) ++
  match skipped_source_range fragment with
  | Some r =>
      if negb (source_range_has_valid_order r) then
        [fragment_error (if bool_decide (scope fragment = "") then "opt_program" else scope fragment)
           "skipped temporal fragment source range has end before begin"]
      else []
  | None => []
  end.
Fixpoint verify_functions (l : list OptFunction) : cxx VerificationResult :=
  match l with
  | [] => Ret []
  | f :: l => r ← verify_opt_function f; rs ← verify_functions l; Ret (r ++ rs)
  end.
Definition verify_opt_program (program : OptProgram) : cxx VerificationResult :=
  r ← verify_functions (functions program);
  Ret ((skipped_temporal_fragments program ≫= verify_fragment) ++ r).
