(* ===== verification/OptVerifyProps.v ===== *)
(** * What the verifier of the optimization IR accepts

    The verifier reports no error exactly for the well-formed functions, and
    warns exactly of the blocks that cannot be reached from the entry. *)
From S2P Require Import Prelude Numeric Ir OptIr OptVerify.
From Stdlib Require Import NArith.
Import Opt.
Open Scope N_scope.

(** ** Well-formed functions *)
Section WellFormed.
Context (f : OptFunction).

Definition valid_local (x : LocalRef) : Prop := x ≠ kNoLocal ∧ x < local_count f.
Definition valid_block (b : BlockId) : Prop := b < N.of_nat (length (blocks f)).
Definition type_at (x : LocalRef) : option TypeRef := local_type <$> locals f !! N.to_nat x.
Definition ordered (range : option SourceRange) : Prop :=
  ∀ r, range = Some r → source_range_has_valid_order r = true.

Definition operand_valid (op : Operand) : Prop :=
  match op_kind op with
  | OperandKind.Local_ => valid_local (op_local op)
  | OperandKind.Arg => op_arg_index op < arg_count f
  | OperandKind.Constant => True
  end.
Definition arity (kind : RvalueKind.t) : option nat :=
  match kind with
  | RvalueKind.Use | RvalueKind.UnaryOp | RvalueKind.Field => Some 1%nat
  | RvalueKind.BinaryOp | RvalueKind.Index => Some 2%nat
  | RvalueKind.Call | RvalueKind.Aggregate => None
  end.
Definition rvalue_structured (rv : Rvalue) : Prop :=
  (∀ n, arity (rv_kind rv) = Some n → length (operands rv) = n) ∧
  ∀ op, op ∈ operands rv → operand_valid op.
Definition rvalue_named (rv : Rvalue) : Prop :=
  match rv_kind rv with
  | RvalueKind.BinaryOp | RvalueKind.UnaryOp => rv_op rv ≠ ""
  | RvalueKind.Call => rv_callee rv ≠ ""
  | RvalueKind.Field => rv_field_name rv ≠ ""
  | _ => True
  end.

Definition statement_structured (s : Statement) : Prop :=
  match st_kind s with
  | StatementKind.Assign => valid_local (dest s) ∧ rvalue_structured (rvalue s)
  | StatementKind.StorageLive | StatementKind.StorageDead => valid_local (dest s)
  | StatementKind.Nop => True
  end.
Definition statement_named (s : Statement) : Prop :=
  st_kind s = StatementKind.Assign → rvalue_named (rvalue s).
Definition statement_typed (s : Statement) : Prop := st_kind s = StatementKind.Assign →
  ∀ type, type_at (dest s) = Some type → type_refs_compatible type (result_type (rvalue s)) = true.

Definition terminator_structured (t : Terminator) : Prop :=
  match tm_kind t with
  | TerminatorKind.Goto => valid_block (target t)
  | TerminatorKind.SwitchBool =>
      valid_local (condition t) ∧ valid_block (then_block t) ∧ valid_block (else_block t)
  | TerminatorKind.Return => return_value t = kNoLocal ∨ valid_local (return_value t)
  | TerminatorKind.Call =>
      (∀ op, op ∈ args t → operand_valid op) ∧ (call_dest t = kNoLocal ∨ valid_local (call_dest t)) ∧
      valid_block (call_resume t)
  | TerminatorKind.Assert => valid_local (condition t) ∧ valid_block (target t)
  | TerminatorKind.Unreachable => True
  end.
Definition terminator_named (t : Terminator) : Prop :=
  tm_kind t = TerminatorKind.Call → tm_callee t ≠ "".
Definition bool_typed (x : LocalRef) : Prop := ∀ type, type_at x = Some type →
  is_resolved type = true → type_kind type = TypeRefKind.Bool.
Definition terminator_typed (t : Terminator) : Prop :=
  match tm_kind t with
  | TerminatorKind.SwitchBool | TerminatorKind.Assert => bool_typed (condition t)
  | TerminatorKind.Return => return_value t ≠ kNoLocal → ∀ type, type_at (return_value t) = Some type →
      type_refs_compatible (return_type f) type = true
  | _ => True
  end.

(** Definitions and uses, as the verifier counts them. *)
Definition operand_reads (op : Operand) (x : LocalRef) : Prop :=
  op_kind op = OperandKind.Local_ ∧ op_local op = x.
Definition statement_defines (s : Statement) (x : LocalRef) : Prop :=
  st_kind s = StatementKind.Assign ∧ dest s = x.
Definition statement_reads (s : Statement) (x : LocalRef) : Prop :=
  st_kind s = StatementKind.Assign ∧ ∃ op, op ∈ operands (rvalue s) ∧ operand_reads op x.
Definition terminator_defines (t : Terminator) (x : LocalRef) : Prop :=
  tm_kind t = TerminatorKind.Call ∧ call_dest t = x.
Definition terminator_reads (t : Terminator) (x : LocalRef) : Prop :=
  match tm_kind t with
  | TerminatorKind.SwitchBool | TerminatorKind.Assert => condition t = x
  | TerminatorKind.Return => return_value t = x
  | TerminatorKind.Call => ∃ op, op ∈ args t ∧ operand_reads op x
  | TerminatorKind.Goto | TerminatorKind.Unreachable => False
  end.

(** [all_code P Q]: all statements satisfy [P] and all terminators [Q]. *)
Definition all_code (P : Statement → Prop) (Q : Terminator → Prop) : Prop :=
  ∀ b, b ∈ blocks f → (∀ s, s ∈ block_statements b → P s) ∧ Q (terminator b).
Definition some_code (P : Statement → Prop) (Q : Terminator → Prop) : Prop :=
  ∃ b, b ∈ blocks f ∧ ((∃ s, s ∈ block_statements b ∧ P s) ∨ Q (terminator b)).

Record structured : Prop := {
  has_entry : blocks f ≠ [];
  has_arguments : arg_count f ≤ local_count f;
  local_ids : ∀ i l, locals f !! i = Some l → local_id l = u32 i;
  block_ids : ∀ i b, blocks f !! i = Some b → block_id b = u32 i;
  code_structured : all_code statement_structured terminator_structured }.
Definition named : Prop := fn_name f ≠ "" ∧ all_code statement_named terminator_named.
Definition typed : Prop := all_code statement_typed terminator_typed.
Definition ranged : Prop := ordered (fn_source_range f) ∧
  (∀ l, l ∈ locals f → ordered (local_source_range l)) ∧
  all_code (λ s, ordered (st_source_range s)) (λ t, ordered (tm_source_range t)).
Definition defined : Prop := ∀ x, valid_local x → arg_count f ≤ x →
  some_code (λ s, statement_reads s x) (λ t, terminator_reads t x) →
  some_code (λ s, statement_defines s x) (λ t, terminator_defines t x).
Record well_formed : Prop := {
  wf_structured : structured; wf_named : named; wf_typed : typed; wf_ranged : ranged; wf_defined : defined }.
End WellFormed.

(** ** What a step of the verifier does

    [tracks m Q D U]: the step [m] reports no error exactly when [Q] holds, and
    marks the locals in [D] as defined and those in [U] as used. *)
Section Tracks.
Context (f : OptFunction).
Definition accepts (v : Verifier) : Prop := result_has_errors (result_ v) = false.
Definition marked (marks : list bool) (x : LocalRef) : Prop := marks !! N.to_nat x = Some true.
Definition sized (v : Verifier) : Prop :=
  length (definitions_ v) = length (locals f) ∧ length (uses_ v) = length (locals f).
Definition quiet (v : Verifier) : Prop := result_has_warnings (result_ v) = false.
Record effect (v v' : Verifier) (Q : Prop) (D U : LocalRef → Prop) : Prop := {
  effect_sized : sized v';
  effect_quiet : quiet v → quiet v';
  effect_accepts : accepts v' ↔ accepts v ∧ Q;
  effect_defines : ∀ x, valid_local f x → marked (definitions_ v') x ↔ marked (definitions_ v) x ∨ D x;
  effect_uses : ∀ x, valid_local f x → marked (uses_ v') x ↔ marked (uses_ v) x ∨ U x }.
Definition tracks (m : Verifier → Verifier) (Q : Prop) (D U : LocalRef → Prop) : Prop :=
  ∀ v, sized v → effect v (m v) Q D U.
Definition nothing : LocalRef → Prop := λ _, False.

Lemma tracks_comp m m' Q Q' D D' U U' : tracks m Q D U → tracks m' Q' D' U' →
  tracks (λ v, m' (m v)) (Q ∧ Q') (λ x, D x ∨ D' x) (λ x, U x ∨ U' x).
Proof.
  intros H H' v Hv. destruct (H v Hv) as [Hs Hq Ha Hd Hu]. destruct (H' _ Hs) as [Hs' Hq' Ha' Hd' Hu'].
  split; [done|auto|rewrite Ha', Ha; tauto| |]; intros x Hx.
  - rewrite Hd', Hd by done. tauto.
  - rewrite Hu', Hu by done. tauto.
Qed.
Lemma tracks_iff m Q Q' D D' U U' : tracks m Q D U → (Q ↔ Q') →
  (∀ x, valid_local f x → D x ↔ D' x) → (∀ x, valid_local f x → U x ↔ U' x) → tracks m Q' D' U'.
Proof.
  intros H HQ HD HU v Hv. destruct (H v Hv) as [Hs Hq Ha Hd Hu].
  split; [done|done|by rewrite Ha, HQ| |]; intros x Hx; [rewrite Hd, HD|rewrite Hu, HU]; done.
Qed.
Lemma tracks_id : tracks (λ v, v) True nothing nothing.
Proof. intros v Hv. split; [done|done|tauto|unfold nothing; tauto..]. Qed.
Lemma tracks_foldl {A} (step : Verifier → A → Verifier) Q D U l :
  (∀ a, tracks (λ v, step v a) (Q a) (D a) (U a)) →
  tracks (λ v, foldl step v l) (∀ a, a ∈ l → Q a) (λ x, ∃ a, a ∈ l ∧ D a x) (λ x, ∃ a, a ∈ l ∧ U a x).
Proof.
  intros Hs. induction l as [|a l IH]; cbn [foldl].
  - eapply tracks_iff; [apply tracks_id|..].
    + split; [intros _ b Hb; by apply elem_of_nil in Hb | done].
    + intros x _. split; [done | intros (b & Hb & _); by apply elem_of_nil in Hb].
    + intros x _. split; [done | intros (b & Hb & _); by apply elem_of_nil in Hb].
  - eapply tracks_iff; [exact (tracks_comp _ _ _ _ _ _ _ _ (Hs a) IH)|..].
    + setoid_rewrite elem_of_cons. naive_solver.
    + intros x _. setoid_rewrite elem_of_cons. naive_solver.
    + intros x _. setoid_rewrite elem_of_cons. naive_solver.
Qed.

(** ** The basic steps *)
Lemma has_errors_app a b : result_has_errors (a ++ b) = result_has_errors a || result_has_errors b.
Proof. apply existsb_app. Qed.
Lemma has_warnings_app a b : result_has_warnings (a ++ b) = result_has_warnings a || result_has_warnings b.
Proof. apply existsb_app. Qed.
Lemma add_error_quiet message id v : quiet v → quiet (add_error f message id v).
Proof.
  unfold quiet, add_error, add. cbn [result_]. intros Hv. by rewrite has_warnings_app, Hv.
Qed.
Lemma tracks_error message id : tracks (add_error f message id) False nothing nothing.
Proof.
  intros v Hv. split; [done|apply add_error_quiet| |unfold nothing; tauto..]. unfold accepts, add_error, add.
  cbn [result_]. rewrite has_errors_app. cbn. rewrite orb_true_r. naive_solver.
Qed.
Lemma tracks_error_if bad message id : tracks (error_if f bad message id) (bad = false) nothing nothing.
Proof.
  unfold error_if. destruct bad.
  - eapply tracks_iff; [apply tracks_error|split; [done|by intros]|done|done].
  - eapply tracks_iff; [apply tracks_id|split; done|done|done].
Qed.
Lemma mark_length x l : length (mark x l) = length l.
Proof. unfold mark. destruct (_ && _); [apply length_insert|done]. Qed.
Lemma marked_mark x y l : valid_local f x → length l = length (locals f) →
  marked (mark x l) y ↔ marked l y ∨ x = y.
Proof.
  intros [Hn Hx] Hl. unfold mark, marked, local_count in *. rewrite Hl, bool_decide_false by done.
  rewrite (proj2 (N.ltb_lt _ _)) by done. cbn.
  destruct (decide (x = y)) as [<-|Hne]; [rewrite list_lookup_insert_eq by lia; tauto|].
  rewrite list_lookup_insert_ne by lia. naive_solver.
Qed.
Lemma tracks_definition x : valid_local f x → tracks (mark_local_definition x) True (λ y, x = y) nothing.
Proof.
  intros Hx v [Hd Hu]. split; [split; cbn; by rewrite ?mark_length|done| unfold accepts; cbn; tauto| |].
  - intros y _. by apply marked_mark.
  - intros y _. unfold nothing. tauto.
Qed.
Lemma tracks_use x : valid_local f x → tracks (mark_local_use x) True nothing (λ y, x = y).
Proof.
  intros Hx v [Hd Hu]. split; [split; cbn; by rewrite ?mark_length|done| unfold accepts; cbn; tauto| |].
  - intros y _. unfold nothing. tauto.
  - intros y _. by apply marked_mark.
Qed.

(** ** The steps of the verifier *)
Lemma valid_local_ref_spec x : valid_local_ref f x = true ↔ valid_local f x.
Proof.
  unfold valid_local_ref, valid_local. rewrite andb_true_iff, negb_true_iff, bool_decide_eq_false, N.ltb_lt.
  done.
Qed.
Lemma valid_optional_spec x : valid_optional_local_ref f x = true ↔ x = kNoLocal ∨ valid_local f x.
Proof.
  unfold valid_optional_local_ref, valid_local. rewrite orb_true_iff, bool_decide_eq_true, N.ltb_lt.
  destruct (decide (x = kNoLocal)); naive_solver.
Qed.
Lemma type_of_local_valid x : valid_local f x → type_of_local f x = type_at f x.
Proof. intros Hx. unfold type_of_local. by rewrite (proj2 (valid_local_ref_spec x)). Qed.
Lemma type_of_local_invalid x : ¬ valid_local f x → type_of_local f x = None.
Proof.
  intros Hx. unfold type_of_local. destruct (valid_local_ref f x) eqn:E; [|done].
  by apply valid_local_ref_spec in E.
Qed.
Lemma type_at_valid x : valid_local f x → ∃ type, type_at f x = Some type.
Proof.
  intros [_ Hx]. unfold type_at, local_count in *.
  destruct (locals f !! N.to_nat x) as [l|] eqn:E; [by eexists|]. apply lookup_ge_None in E. lia.
Qed.

Lemma tracks_range range label id :
  tracks (verify_source_range f range label id) (ordered range) nothing nothing.
Proof.
  unfold verify_source_range, ordered. destruct range as [r|].
  - eapply tracks_iff; [apply tracks_error_if|..]; try done. rewrite negb_false_iff. naive_solver.
  - eapply tracks_iff; [apply tracks_id|..]; naive_solver.
Qed.
Lemma tracks_block b label id :
  tracks (verify_block_target f b label id) (valid_block f b) nothing nothing.
Proof.
  eapply tracks_iff; [apply tracks_error_if|..]; try done.
  unfold valid_block_ref, valid_block. by rewrite negb_false_iff, N.ltb_lt.
Qed.
Lemma tracks_bool_local x label id : tracks (verify_required_bool_local f x label id)
  (valid_local f x ∧ bool_typed f x) nothing (λ y, x = y).
Proof.
  unfold verify_required_bool_local. destruct (decide (valid_local f x)) as [Hx|Hx].
  - rewrite type_of_local_valid by done. destruct (type_at_valid x Hx) as [type E]. rewrite E.
    eapply tracks_iff; [exact (tracks_comp _ _ _ _ _ _ _ _ (tracks_use x Hx) (tracks_error_if _ _ _))|..].
    + unfold bool_typed. rewrite E, andb_false_iff, negb_false_iff, bool_decide_eq_true.
      split; [intros [_ H]; split; [done|]|intros [_ H]; split; [done|]].
      * intros ? [= <-] Hr. destruct H; congruence.
      * destruct (is_resolved type) eqn:Er; auto.
    + unfold nothing. naive_solver.
    + unfold nothing. naive_solver.
  - rewrite type_of_local_invalid by done. eapply tracks_iff; [apply tracks_error|..].
    + naive_solver.
    + done.
    + unfold nothing. naive_solver.
Qed.
Lemma tracks_operand op id :
  tracks (verify_operand f op id) (operand_valid f op) nothing (operand_reads op).
Proof.
  unfold verify_operand, operand_valid, operand_reads. destruct (op_kind op).
  - destruct (valid_local_ref f (op_local op)) eqn:E.
    + apply valid_local_ref_spec in E. eapply tracks_iff; [by apply tracks_use|..]; naive_solver.
    + assert (¬ valid_local f (op_local op)) by (rewrite <-valid_local_ref_spec; congruence).
      eapply tracks_iff; [apply tracks_error|..]; unfold nothing; naive_solver.
  - eapply tracks_iff; [apply tracks_id|..]; unfold nothing; naive_solver.
  - eapply tracks_iff; [apply tracks_error_if|..]; unfold nothing; [|naive_solver..].
    by rewrite N.leb_gt.
Qed.
Lemma tracks_operands l id : tracks (verify_operands f l id) (∀ op, op ∈ l → operand_valid f op) nothing
  (λ x, ∃ op, op ∈ l ∧ operand_reads op x).
Proof.
  eapply tracks_iff; [apply (tracks_foldl (λ v op, verify_operand f op id v)); intros op; apply tracks_operand|..];
    unfold nothing; naive_solver.
Qed.
Lemma tracks_count rv n label id : tracks (expect_operand_count f rv n label id)
  (length (operands rv) = n) nothing nothing.
Proof. eapply tracks_iff; [apply tracks_error_if|..]; try done. by rewrite negb_false_iff, bool_decide_eq_true. Qed.
Lemma tracks_nonempty s message id : tracks (error_if f (bool_decide (s = "")) message id) (s ≠ "") nothing nothing.
Proof. eapply tracks_iff; [apply tracks_error_if|..]; try done. by rewrite bool_decide_eq_false. Qed.

Lemma tracks_rvalue rv id : tracks (verify_rvalue f rv id)
  (rvalue_structured f rv ∧ rvalue_named rv) nothing (λ x, ∃ op, op ∈ operands rv ∧ operand_reads op x).
Proof.
  assert (Hc : ∀ m Q, tracks m Q nothing nothing →
    tracks (λ v, verify_operands f (operands rv) id (m v)) (Q ∧ ∀ op, op ∈ operands rv → operand_valid f op)
      nothing (λ x, ∃ op, op ∈ operands rv ∧ operand_reads op x)).
  { intros m Q Hm. eapply tracks_iff; [exact (tracks_comp _ _ _ _ _ _ _ _ Hm (tracks_operands _ _))|..];
      unfold nothing; naive_solver. }
  assert (Hn : ∀ m m' Q Q', tracks m Q nothing nothing → tracks m' Q' nothing nothing →
    tracks (λ v, m' (m v)) (Q ∧ Q') nothing nothing).
  { intros m m' Q Q' Hm Hm'. eapply tracks_iff; [exact (tracks_comp _ _ _ _ _ _ _ _ Hm Hm')|..];
      unfold nothing; naive_solver. }
  unfold verify_rvalue, rvalue_structured, rvalue_named. destruct (rv_kind rv); cbn [arity].
  - eapply tracks_iff; [apply Hc, tracks_count|..]; naive_solver.
  - eapply tracks_iff; [apply Hc, Hn; [apply tracks_count|apply tracks_nonempty]|..]; naive_solver.
  - eapply tracks_iff; [apply Hc, Hn; [apply tracks_count|apply tracks_nonempty]|..]; naive_solver.
  - eapply tracks_iff; [apply Hc, tracks_nonempty|..]; naive_solver.
  - eapply tracks_iff; [apply Hc, tracks_id|..]; naive_solver.
  - eapply tracks_iff; [apply Hc, Hn; [apply tracks_count|apply tracks_nonempty]|..]; naive_solver.
  - eapply tracks_iff; [apply Hc, tracks_count|..]; naive_solver.
Qed.

Lemma tracks_statement s id : tracks (verify_statement f s id)
  (statement_structured f s ∧ statement_named s ∧ statement_typed f s ∧ ordered (st_source_range s))
  (statement_defines s) (statement_reads s).
Proof.
  unfold verify_statement, statement_structured, statement_named, statement_typed, statement_defines,
    statement_reads.
  assert (Hr := tracks_range (st_source_range s) "statement source range" id).
  destruct (st_kind s) eqn:Hk.
  - destruct (decide (valid_local f (dest s))) as [Hx|Hx].
    + rewrite type_of_local_valid by done. destruct (type_at_valid _ Hx) as [type E]. rewrite E.
      eapply tracks_iff;
        [exact (tracks_comp _ _ _ _ _ _ _ _ (tracks_comp _ _ _ _ _ _ _ _ (tracks_comp _ _ _ _ _ _ _ _ Hr
          (tracks_definition _ Hx)) (tracks_error_if _ _ _)) (tracks_rvalue (rvalue s) id))|..];
        unfold nothing; [|naive_solver..]. rewrite negb_false_iff. naive_solver.
    + rewrite type_of_local_invalid by done.
      eapply tracks_iff; [exact (tracks_comp _ _ _ _ _ _ _ _ (tracks_comp _ _ _ _ _ _ _ _ Hr
          (tracks_error _ _)) (tracks_rvalue (rvalue s) id))|..]; unfold nothing; naive_solver.
  - eapply tracks_iff; [exact (tracks_comp _ _ _ _ _ _ _ _ Hr (tracks_error_if _ _ _))|..];
      unfold nothing; [|naive_solver..]. rewrite negb_false_iff, valid_local_ref_spec. naive_solver.
  - eapply tracks_iff; [exact (tracks_comp _ _ _ _ _ _ _ _ Hr (tracks_error_if _ _ _))|..];
      unfold nothing; [|naive_solver..]. rewrite negb_false_iff, valid_local_ref_spec. naive_solver.
  - eapply tracks_iff; [exact Hr|..]; unfold nothing; naive_solver.
Qed.

(** The optional destination and value of a terminator. *)
Lemma tracks_call_dest x id :
  tracks (λ v, if negb (valid_optional_local_ref f x) then add_error f "call destination local is invalid" id v
               else if negb (bool_decide (x = kNoLocal)) then mark_local_definition x v else v)
    (x = kNoLocal ∨ valid_local f x) (λ y, x = y) nothing.
Proof.
  destruct (valid_optional_local_ref f x) eqn:E; cbn [negb].
  - apply valid_optional_spec in E. case_bool_decide as Hn; cbn [negb].
    + eapply tracks_iff; [apply tracks_id|naive_solver| |naive_solver]. unfold nothing.
      intros y [Hy _]. naive_solver.
    + destruct E as [|E]; [done|]. eapply tracks_iff; [by apply tracks_definition|..]; naive_solver.
  - assert (¬ (x = kNoLocal ∨ valid_local f x)) by (rewrite <-valid_optional_spec; congruence).
    eapply tracks_iff; [apply tracks_error|..]; unfold nothing; naive_solver.
Qed.
Lemma tracks_return x id :
  tracks (λ v, if negb (valid_optional_local_ref f x) then add_error f "return value local is invalid" id v
               else if negb (bool_decide (x = kNoLocal)) then
                 match type_of_local f x with
                 | Some type => error_if f (negb (type_refs_compatible (return_type f) type))
                     "return value type does not match function return type" id (mark_local_use x v)
                 | None => mark_local_use x v
                 end
               else v)
    ((x = kNoLocal ∨ valid_local f x) ∧ (x ≠ kNoLocal → ∀ type, type_at f x = Some type →
       type_refs_compatible (return_type f) type = true)) nothing (λ y, x = y).
Proof.
  destruct (valid_optional_local_ref f x) eqn:E; cbn [negb].
  - apply valid_optional_spec in E. case_bool_decide as Hn; cbn [negb].
    + eapply tracks_iff; [apply tracks_id|naive_solver|naive_solver|]. unfold nothing.
      intros y [Hy _]. naive_solver.
    + destruct E as [|E]; [done|]. rewrite type_of_local_valid by done.
      destruct (type_at_valid x E) as [type Ht]. rewrite Ht.
      eapply tracks_iff; [exact (tracks_comp _ _ _ _ _ _ _ _ (tracks_use _ E) (tracks_error_if _ _ _))|..];
        unfold nothing; [|naive_solver..]. rewrite negb_false_iff. naive_solver.
  - assert (¬ (x = kNoLocal ∨ valid_local f x)) by (rewrite <-valid_optional_spec; congruence).
    eapply tracks_iff; [apply tracks_error|..]; unfold nothing; naive_solver.
Qed.

Lemma tracks_terminator t id : tracks (verify_terminator f t id)
  (terminator_structured f t ∧ terminator_named t ∧ terminator_typed f t ∧ ordered (tm_source_range t))
  (terminator_defines t) (terminator_reads t).
Proof.
  unfold verify_terminator, terminator_structured, terminator_named, terminator_typed,
    terminator_defines, terminator_reads.
  assert (Hr := tracks_range (tm_source_range t) "terminator source range" id).
  destruct (tm_kind t) eqn:Hk.
  - eapply tracks_iff; [exact (tracks_comp _ _ _ _ _ _ _ _ Hr (tracks_block _ _ _))|..];
      unfold nothing; naive_solver.
  - eapply tracks_iff; [exact (tracks_comp _ _ _ _ _ _ _ _ (tracks_comp _ _ _ _ _ _ _ _
      (tracks_comp _ _ _ _ _ _ _ _ Hr (tracks_bool_local _ _ _)) (tracks_block _ _ _))
      (tracks_block _ _ _))|..]; unfold nothing; naive_solver.
  - eapply tracks_iff; [exact (tracks_comp _ _ _ _ _ _ _ _ Hr (tracks_return (return_value t) id))|..];
      unfold nothing; naive_solver.
  - eapply tracks_iff; [exact (tracks_comp _ _ _ _ _ _ _ _ (tracks_comp _ _ _ _ _ _ _ _
      (tracks_comp _ _ _ _ _ _ _ _ (tracks_comp _ _ _ _ _ _ _ _ Hr (tracks_nonempty _ _ _))
        (tracks_operands _ _)) (tracks_call_dest (call_dest t) id)) (tracks_block _ _ _))|..];
      unfold nothing; naive_solver.
  - eapply tracks_iff; [exact (tracks_comp _ _ _ _ _ _ _ _ (tracks_comp _ _ _ _ _ _ _ _ Hr
      (tracks_bool_local _ _ _)) (tracks_block _ _ _))|..]; unfold nothing; naive_solver.
  - eapply tracks_iff; [exact Hr|..]; unfold nothing; naive_solver.
Qed.

(** What is required of a block, and what it defines and reads. *)
Definition block_accepted (b : BasicBlock) : Prop :=
  (∀ s, s ∈ block_statements b → statement_structured f s ∧ statement_named s ∧ statement_typed f s ∧
     ordered (st_source_range s)) ∧
  terminator_structured f (terminator b) ∧ terminator_named (terminator b) ∧
  terminator_typed f (terminator b) ∧ ordered (tm_source_range (terminator b)).
Definition block_code (P : Statement → Prop) (Q : Terminator → Prop) (b : BasicBlock) : Prop :=
  (∃ s, s ∈ block_statements b ∧ P s) ∨ Q (terminator b).
Lemma tracks_verify_block b : tracks (verify_block f b) (block_accepted b)
  (λ x, block_code (λ s, statement_defines s x) (λ t, terminator_defines t x) b)
  (λ x, block_code (λ s, statement_reads s x) (λ t, terminator_reads t x) b).
Proof.
  unfold verify_block. eapply tracks_iff; [exact (tracks_comp _ _ _ _ _ _ _ _
    (tracks_foldl (λ v s, verify_statement f s (Some (block_id b)) v) _ _ _ (block_statements b)
       (λ s, tracks_statement s _)) (tracks_terminator (terminator b) _))|..].
  - done.
  - unfold block_code. naive_solver.
  - unfold block_code. naive_solver.
Qed.

(** ** The loops over locals and blocks *)
Fixpoint ids_ok (index : nat) (ids : gset N) (l : list N) : Prop :=
  match l with
  | [] => True
  | n :: l => n = u32 index ∧ n ∉ ids ∧ ids_ok (S index) ({[n]} ∪ ids) l
  end.
Lemma u32_small n : N.of_nat n < 4294967296 → u32 n = N.of_nat n.
Proof. intros Hn. by apply N.mod_small. Qed.
Lemma ids_ok_from index ids l : N.of_nat (index + length l) ≤ 4294967296 →
  (∀ n, n ∈ ids → n < N.of_nat index) →
  ids_ok index ids l ↔ ∀ i n, l !! i = Some n → n = u32 (index + i).
Proof.
  revert index ids. induction l as [|n l IH]; intros index ids Hlen Hids; [done|]. cbn [ids_ok length] in *.
  assert (Hstep : n = u32 index →
    ids_ok (S index) ({[n]} ∪ ids) l ↔ ∀ i n, l !! i = Some n → n = u32 (S index + i)).
  { intros ->. apply IH; [lia|]. intros m [->%elem_of_singleton|Hm]%elem_of_union.
    - rewrite u32_small; lia.
    - specialize (Hids m Hm). lia. }
  split.
  - intros (-> & _ & Hl) [|i] m; cbn; [intros [= <-]; by rewrite Nat.add_0_r|].
    intros Hm. apply (proj1 (Hstep eq_refl) Hl) in Hm as ->. by rewrite Nat.add_succ_r.
  - intros H. assert (Hn := H 0%nat n eq_refl). rewrite Nat.add_0_r in Hn. split_and!; [done| |].
    + intros Hin%Hids. rewrite Hn, u32_small in Hin by lia. lia.
    + apply Hstep; [done|]. intros i m Hm. by rewrite (H (S i) m Hm), Nat.add_succ_r.
Qed.
Lemma ids_ok_all l : N.of_nat (length l) ≤ 4294967296 →
  ids_ok 0 ∅ l ↔ ∀ i n, l !! i = Some n → n = u32 i.
Proof. intros Hl. apply (ids_ok_from 0); [done|]. intros n Hn. set_solver. Qed.

Lemma tracks_locals_from index ids l : tracks (verify_locals_from f index ids l)
  (ids_ok index ids (local_id <$> l) ∧ ∀ a, a ∈ l → ordered (local_source_range a)) nothing nothing.
Proof.
  revert index ids. induction l as [|a l IH]; intros index ids; cbn [verify_locals_from].
  - eapply tracks_iff; [apply tracks_id| |done|done]. split; [|done]. intros _. split; [done|].
    intros a Ha. by apply elem_of_nil in Ha.
  - eapply tracks_iff; [exact (tracks_comp _ _ _ _ _ _ _ _ (tracks_comp _ _ _ _ _ _ _ _
      (tracks_comp _ _ _ _ _ _ _ _ (tracks_error_if _ _ _) (tracks_error_if _ _ _))
      (tracks_range _ _ _)) (IH _ _))|..]; unfold nothing; [|naive_solver..].
    cbn [fmap list_fmap ids_ok]. rewrite negb_false_iff, bool_decide_eq_true, bool_decide_eq_false.
    setoid_rewrite elem_of_cons. naive_solver.
Qed.
Lemma tracks_blocks_from index ids l : tracks (verify_blocks_from f index ids l)
  (ids_ok index ids (block_id <$> l) ∧ ∀ b, b ∈ l → block_accepted b)
  (λ x, ∃ b, b ∈ l ∧ block_code (λ s, statement_defines s x) (λ t, terminator_defines t x) b)
  (λ x, ∃ b, b ∈ l ∧ block_code (λ s, statement_reads s x) (λ t, terminator_reads t x) b).
Proof.
  revert index ids. induction l as [|b l IH]; intros index ids; cbn [verify_blocks_from].
  - eapply tracks_iff; [apply tracks_id|..].
    + split; [|done]. intros _. split; [done|]. intros b Hb. by apply elem_of_nil in Hb.
    + intros x _. split; [done|]. intros (b & Hb & _). by apply elem_of_nil in Hb.
    + intros x _. split; [done|]. intros (b & Hb & _). by apply elem_of_nil in Hb.
  - eapply tracks_iff; [exact (tracks_comp _ _ _ _ _ _ _ _ (tracks_comp _ _ _ _ _ _ _ _
      (tracks_comp _ _ _ _ _ _ _ _ (tracks_error_if _ _ _) (tracks_error_if _ _ _))
      (tracks_verify_block b)) (IH _ _))|..]; unfold nothing; setoid_rewrite elem_of_cons.
    + cbn [fmap list_fmap ids_ok]. rewrite negb_false_iff, bool_decide_eq_true, bool_decide_eq_false.
      naive_solver.
    + intros x _. naive_solver.
    + intros x _. naive_solver.
Qed.
End Tracks.

(** ** The verifier reports no error for well-formed functions *)
Section Accepts.
Context (f : OptFunction).
Context (Hlocals : N.of_nat (length (locals f)) < 4294967296).
Context (Hblocks : N.of_nat (length (blocks f)) < 4294967296).

Lemma accepts_error_if bad message id v : accepts (error_if f bad message id v) ↔ accepts v ∧ bad = false.
Proof.
  unfold error_if, accepts. destruct bad; [|naive_solver]. cbn. rewrite has_errors_app. cbn.
  rewrite orb_true_r. naive_solver.
Qed.
Lemma shape_effect : let v := verify_function_shape f new_verifier in
  sized f v ∧
  (accepts v ↔ fn_name f ≠ "" ∧ arg_count f ≤ local_count f ∧ blocks f ≠ [] ∧ ordered (fn_source_range f)) ∧
  (∀ x, valid_local f x → marked (definitions_ v) x ↔ x < arg_count f) ∧
  (∀ x, ¬ marked (uses_ v) x) ∧ quiet v.
Proof.
  intros v. unfold v, verify_function_shape, sized, marked. cbn [definitions_ uses_]. split_and!.
  - by rewrite length_imap.
  - by rewrite length_replicate.
  - unfold accepts at 1. cbn [result_].
    match goal with |- context [result_ ?v'] => change (accepts v' ↔ fn_name f ≠ "" ∧
      arg_count f ≤ local_count f ∧ blocks f ≠ [] ∧ ordered (fn_source_range f)) end.
    assert (Hr : ∀ v, accepts (verify_source_range f (fn_source_range f) "function source range" None v) ↔
      accepts v ∧ ordered (fn_source_range f)).
    { intros v'. unfold verify_source_range, ordered. destruct (fn_source_range f) as [r|]; [|naive_solver].
      rewrite accepts_error_if, negb_false_iff. naive_solver. }
    rewrite Hr, !accepts_error_if, !bool_decide_eq_false, N.ltb_ge. unfold accepts. cbn. naive_solver.
  - intros x [_ Hx]. unfold local_count in Hx. rewrite list_lookup_imap.
    destruct (locals f !! N.to_nat x) as [l|] eqn:E; [|apply lookup_ge_None in E; lia]. cbn.
    rewrite N2Nat.id, <-N.ltb_lt. split; [by intros [=] | by intros ->].
  - intros x [? _]%lookup_replicate. done.
  - unfold quiet at 1. cbn [result_]. unfold verify_source_range, error_if.
    repeat case_match; repeat apply add_error_quiet; done.
Qed.

Lemma accepts_uses v : sized f v → accepts (verify_uses f v) ↔ accepts v ∧
  ∀ i, (i < length (locals f))%nat → arg_count f ≤ N.of_nat i →
    uses_ v !! i = Some true → definitions_ v !! i = Some true.
Proof.
  intros [Hd Hu]. unfold verify_uses.
  set (step := λ v index, error_if f (default false (uses_ v !! index) && negb (default false (definitions_ v !! index)))
             ("local %" +:+ to_string (Z.of_nat index) +:+ " is used without a definition") None v).
  assert (Hm : ∀ v i, uses_ (step v i) = uses_ v ∧ definitions_ (step v i) = definitions_ v)
    by (intros v' i; unfold step, error_if; by destruct (_ && _)).
  assert (Hfold : ∀ l v', uses_ v' = uses_ v → definitions_ v' = definitions_ v →
    (∀ i, i ∈ l → (i < length (locals f))%nat) →
    accepts (foldl step v' l) ↔ accepts v' ∧ ∀ i, i ∈ l → uses_ v !! i = Some true → definitions_ v !! i = Some true).
  { induction l as [|i l IH]; intros v' Hu' Hd' Hl; cbn [foldl].
    - split; [|tauto]. intros H. split; [done|]. intros i Hi. by apply elem_of_nil in Hi.
    - assert (Hl' : ∀ j, j ∈ l → (j < length (locals f))%nat) by (intros; apply Hl; by right).
      destruct (Hm v' i) as [Hmu Hmd]. rewrite IH by (congruence || done).
      unfold step at 1. rewrite accepts_error_if, Hu', Hd', andb_false_iff, negb_false_iff.
      assert (Hi : (i < length (locals f))%nat) by (apply Hl; by left).
      destruct (lookup_lt_is_Some_2 (uses_ v) i) as [u Eu]; [lia|].
      destruct (lookup_lt_is_Some_2 (definitions_ v) i) as [d Ed]; [lia|].
      setoid_rewrite elem_of_cons. rewrite Eu, Ed. cbn.
      split; [intros [ [Hacc Hud] Hrest]|intros [Hacc Hrest] ]; (split; [try done|]).
      + intros j [->|Hj]; [|by apply Hrest]. rewrite Eu, Ed. intros [= ->]. by destruct Hud as [| ->].
      + split; [done|]. specialize (Hrest i (or_introl eq_refl)). rewrite Eu, Ed in Hrest.
        destruct u; [|by left]. right. by injection (Hrest eq_refl) as ->.
      + intros j Hj. apply Hrest. by right. }
  rewrite Hfold; [|done|done|].
  - split; intros [? H]; (split; [done|]).
    + intros i Hi Ha. apply H, list_elem_of_filter. split; [by apply N.leb_le|]. apply elem_of_seq. lia.
    + intros i [Ha Hi]%list_elem_of_filter. apply elem_of_seq in Hi. apply H; [lia|by apply N.leb_le].
  - intros i [_ Hi]%list_elem_of_filter. apply elem_of_seq in Hi. lia.
Qed.

Lemma all_quiet : quiet (verify_blocks f (verify_locals f (verify_function_shape f new_verifier))).
Proof.
  destruct shape_effect as (Hs & _ & _ & _ & Hq). set (v0 := verify_function_shape f new_verifier) in *.
  destruct (tracks_comp f _ _ _ _ _ _ _ _ (tracks_locals_from f 0 ∅ (locals f))
    (tracks_blocks_from f 0 ∅ (blocks f)) v0 Hs) as [_ Hq1 _ _ _].
  specialize (Hq1 Hq). unfold verify_blocks, verify_locals, verify_uses. revert Hq1.
  generalize (verify_blocks_from f 0 ∅ (blocks f) (verify_locals_from f 0 ∅ (locals f) v0)).
  generalize (base.filter (λ index, (arg_count f <=? N.of_nat index) = true) (seq 0 (length (locals f)))).
  induction l as [|i l IH]; intros v Hv; [done|]. cbn [foldl]. apply IH. unfold error_if.
  destruct (_ && _); [by apply add_error_quiet|done].
Qed.

Lemma accepted_well_formed :
  accepts (verify_blocks f (verify_locals f (verify_function_shape f new_verifier))) ↔ well_formed f.
Proof.
  destruct shape_effect as (Hs & Ha & Hd & Hu & _). set (v0 := verify_function_shape f new_verifier) in *.
  destruct (tracks_comp f _ _ _ _ _ _ _ _ (tracks_locals_from f 0 ∅ (locals f))
    (tracks_blocks_from f 0 ∅ (blocks f)) v0 Hs) as [Hs1 _ Ha1 Hd1 Hu1].
  unfold verify_blocks, verify_locals. rewrite accepts_uses by done. rewrite Ha1, Ha.
  rewrite !ids_ok_all by (rewrite length_fmap; lia).
  setoid_rewrite list_lookup_fmap_Some.
  assert (Hdef : ∀ x, valid_local f x → arg_count f ≤ x →
    marked (definitions_ (verify_blocks_from f 0 ∅ (blocks f) (verify_locals_from f 0 ∅ (locals f) v0))) x ↔
    some_code f (λ s, statement_defines s x) (λ t, terminator_defines t x)).
  { intros x Hx Hax. rewrite Hd1, Hd by done. unfold nothing, some_code, block_code.
    split; [|naive_solver]. intros [?|[[]|?]]; [lia|done]. }
  assert (Huse : ∀ x, valid_local f x →
    marked (uses_ (verify_blocks_from f 0 ∅ (blocks f) (verify_locals_from f 0 ∅ (locals f) v0))) x ↔
    some_code f (λ s, statement_reads s x) (λ t, terminator_reads t x)).
  { intros x Hx. rewrite Hu1 by done. unfold nothing, some_code, block_code.
    split; [intros [?|[[]|?]]; [by destruct (Hu x)|done] | naive_solver]. }
  split.
  - intros [((Hn & Harg & Hb & Hr) & (Hli & Hlr) & Hbi & Hbk) Huses]. split.
    + split; [done|done|naive_solver|naive_solver|]. intros b Hin. destruct (Hbk b Hin) as (? & ? & _). naive_solver.
    + split; [done|]. intros b Hin. destruct (Hbk b Hin) as (? & ? & ? & _). naive_solver.
    + intros b Hin. destruct (Hbk b Hin) as (? & ? & ? & ? & _). naive_solver.
    + split_and!; [done|done|]. intros b Hin. destruct (Hbk b Hin) as (? & ? & ? & ? & ?). naive_solver.
    + intros x Hx Hax Hreads. apply Hdef; [done|done|]. apply Huses; [|lia|by apply Huse].
      destruct Hx as [_ Hx]. unfold local_count in Hx. lia.
  - intros [[Hb Harg Hli Hbi Hcs] [Hn Hcn] Hct (Hr & Hlr & Hcr) Hdf]. split_and!; try done.
    + intros i n (l & -> & Hl). by apply Hli.
    + intros i n (b & -> & Hl). by apply Hbi.
    + intros b Hin. destruct (Hcs b Hin), (Hcn b Hin), (Hct b Hin), (Hcr b Hin). unfold block_accepted. naive_solver.
    + intros i Hi Hai Hui. rewrite <-(Nat2N.id i) in Hui |- *.
      assert (Hx : valid_local f (N.of_nat i)).
      { split; [|unfold local_count; lia]. unfold kNoLocal. lia. }
      apply Hdef; [done|done|]. apply Hdf; [done|done|]. by apply Huse.
Qed.
End Accepts.

(** ** Unreachable blocks *)
Section Reach.
Context (f : OptFunction).

(** An edge between existing blocks. *)
Definition flows (b c : BlockId) : Prop := ∃ block, blocks f !! N.to_nat b = Some block ∧
  c ∈ terminator_targets (terminator block) ∧ valid_block f c.
Definition reachable (b : BlockId) : Prop := rtc flows 0 b.

(** The state of the search: marked blocks are reachable, and the targets of a
    marked block that is not waiting are marked. *)
Record searching (waiting : BlockId → Prop) (s : list BlockId * list bool) : Prop := {
  search_length : length s.2 = length (blocks f);
  search_entry : marked s.2 0;
  search_waits : ∀ b, b ∈ s.1 → marked s.2 b;
  search_sound : ∀ b, marked s.2 b → reachable b;
  search_closed : ∀ b c, marked s.2 b → b ∉ s.1 → ¬ waiting b → flows b c → marked s.2 c }.
Definition unmarked (l : list bool) : nat := length (base.filter (λ b, b = false) l).
Lemma unmarked_insert l i : l !! i = Some false → unmarked l = S (unmarked (<[i := true]> l)).
Proof.
  revert i. induction l as [|b l IH]; intros [|i]; [done|done|..]; unfold unmarked in *;
    cbn [lookup list_lookup insert list_insert].
  - intros [= ->]. rewrite !filter_cons. by rewrite decide_True, decide_False by done.
  - intros Hi. rewrite !filter_cons. destruct (decide (b = false)); cbn; rewrite (IH i Hi); done.
Qed.
Lemma marked_lt l b : marked l b → b < N.of_nat (length l).
Proof. intros Hb%lookup_lt_Some. lia. Qed.
Lemma marked_insert l b c : marked l c → marked (<[N.to_nat b := true]> l) c.
Proof.
  unfold marked. intros Hc. destruct (decide (b = c)) as [->|Hne].
  - apply list_lookup_insert_eq. by eapply lookup_lt_Some.
  - by rewrite list_lookup_insert_ne by lia.
Qed.

(** One target of the block [b] that was popped. *)
Lemma reach_target_step w s c : searching w s → reachable c ∨ ¬ valid_block f c →
  let s' := reach_target s c in
  searching w s' ∧ (valid_block f c → marked s'.2 c) ∧ (∀ d, marked s.2 d → marked s'.2 d) ∧
  (length s'.1 + unmarked s'.2 = length s.1 + unmarked s.2)%nat.
Proof.
  intros Hs Hc. destruct s as [l r]. cbn. destruct Hs as [Hl He Hw Hsd Hcl]. cbn in *.
  destruct (c <? N.of_nat (length r)) eqn:E; cbn.
  - apply N.ltb_lt in E. destruct (lookup_lt_is_Some_2 r (N.to_nat c)) as [m Em]; [lia|]. rewrite Em. cbn.
    destruct m; cbn.
    { split_and!; [by split|by intros|done|done]. }
    assert (Hv : valid_block f c) by (unfold valid_block; lia). destruct Hc as [Hc|]; [|done].
    assert (Hmc : marked (<[N.to_nat c := true]> r) c) by (apply list_lookup_insert_eq; lia).
    split_and!; [|done|intros; by apply marked_insert|
      pose proof (unmarked_insert r _ Em); unfold unmarked in *; cbn in *; lia].
    split; cbn; [by rewrite length_insert|by apply marked_insert| | |].
    + intros b [->|Hb]%elem_of_cons; [done|]. by apply marked_insert, Hw.
    + intros b Hb. destruct (decide (b = c)) as [->|Hne]; [done|]. apply Hsd.
      unfold marked in Hb. by rewrite list_lookup_insert_ne in Hb by lia.
    + intros b d Hb [Hbc Hbl]%not_elem_of_cons Hnw Hbd. apply marked_insert, (Hcl b); [|done|done|done].
      unfold marked in Hb. by rewrite list_lookup_insert_ne in Hb by lia.
  - apply N.ltb_ge in E. split_and!; [by split| |done|done]. intros Hv. unfold valid_block in Hv. lia.
Qed.
Lemma reach_targets w l s : searching w s → (∀ c, c ∈ l → reachable c ∨ ¬ valid_block f c) →
  let s' := foldl reach_target s l in
  searching w s' ∧ (∀ c, c ∈ l → valid_block f c → marked s'.2 c) ∧ (∀ d, marked s.2 d → marked s'.2 d) ∧
  (length s'.1 + unmarked s'.2 = length s.1 + unmarked s.2)%nat.
Proof.
  revert s. induction l as [|c l IH]; intros s Hs Hl; cbn.
  { split_and!; [done| |done|done]. intros c Hc. by apply elem_of_nil in Hc. }
  destruct (reach_target_step w s c Hs) as (Hs' & Hc & Hm & Hn); [apply Hl; by left|].
  destruct (IH _ Hs') as (Hs2 & Hc2 & Hm2 & Hn2); [intros; apply Hl; by right|].
  split_and!; [done| |auto|lia]. intros d [->|Hd]%elem_of_cons; auto.
Qed.

Lemma reach_blocks_ok fuel s : searching (λ _, False) s → (length s.1 + unmarked s.2 ≤ fuel)%nat →
  ∃ r, reach_blocks f fuel s ⇓ r ∧ searching (λ _, False) ([], r).
Proof.
  revert s. induction fuel as [|fuel IH]; intros [l r] Hs Hf; destruct l as [|b l]; cbn in Hf |- *; try lia;
    [by exists r..|].
  assert (Hb : marked r b) by (apply (search_waits _ _ Hs); by left).
  destruct (lookup_lt_is_Some_2 (blocks f) (N.to_nat b)) as [block Eb].
  { rewrite <-(search_length _ _ Hs). by eapply lookup_lt_Some. }
  rewrite Eb.
  assert (Hs0 : searching (λ c, c = b) (l, r)).
  { destruct Hs as [Hl He Hw Hsd Hcl]. cbn in *. split; cbn; [done|done| |done|].
    - intros c Hc. apply Hw. by right.
    - intros c d Hc Hcl' Hne Hf'. apply (Hcl c); [done| |tauto|done]. by apply not_elem_of_cons. }
  destruct (reach_targets _ (terminator_targets (terminator block)) _ Hs0) as (Hs1 & Hc1 & Hm1 & Hn1).
  { intros c Hc. destruct (decide (c < N.of_nat (length (blocks f)))) as [Hv|]; [left|by right].
    eapply rtc_r; [by apply (search_sound _ _ Hs)|]. exists block. done. }
  apply IH; [|cbn in *; lia].
  destruct Hs1 as [Hl He Hw Hsd Hcl]. split; [done|done|done|done|].
  intros c d Hc Hnl _ Hcd. destruct (decide (c = b)) as [->|Hne]; [|by apply (Hcl c)].
  destruct Hcd as (block' & Eb' & Hd & Hv). rewrite Eb in Eb'. injection Eb' as <-. by apply Hc1.
Qed.
Lemma reachable_blocks_ok : blocks f ≠ [] → ∃ r, reachable_blocks f ⇓ r ∧ length r = length (blocks f) ∧
  ∀ b, marked r b ↔ reachable b.
Proof.
  intros Hne. destruct (blocks f) as [|b0 bs] eqn:Eb; [done|].
  unfold reachable_blocks. rewrite Eb. cbn [length replicate].
  destruct (reach_blocks_ok (S (S (length bs))) ([0], true :: replicate (length bs) false)) as (r & Hr & Hs).
  - split; cbn; [by rewrite length_replicate, Eb|done| | |].
    + by intros b ->%list_elem_of_singleton.
    + intros b. unfold marked. destruct (N.to_nat b) as [|n] eqn:En.
      * intros _. replace b with 0 by lia. by apply rtc_refl.
      * cbn. intros [? _]%lookup_replicate. done.
    + intros b c Hb Hn. unfold marked in Hb. destruct (N.to_nat b) as [|n] eqn:En.
      * exfalso. apply Hn, list_elem_of_singleton. lia.
      * cbn in Hb. apply lookup_replicate in Hb as [? _]. done.
  - cbn [fst snd length]. unfold unmarked. rewrite filter_cons, decide_False by done.
    pose proof (length_filter (λ b, b = false) (replicate (length bs) false)) as Hlen.
    rewrite length_replicate in Hlen. lia.
  - exists r. split; [exact Hr|]. destruct Hs as [Hl He _ Hsd Hcl]. cbn in *.
    split; [by rewrite Hl, Eb|]. intros b. split; [apply Hsd|]. unfold reachable. revert b.
    apply (rtc_ind_r (λ b, marked r b)); [done|]. intros b c _ Hbc Hb.
    apply (Hcl b); [done|by apply not_elem_of_nil|tauto|done].
Qed.
End Reach.

Lemma add_warning_errors f message id v : accepts (add_warning f message id v) ↔ accepts v.
Proof. unfold accepts, add_warning, add. cbn. rewrite has_errors_app. cbn. by rewrite orb_false_r. Qed.

(** The warnings of the last step. *)
Definition warns_of (r : VerificationResult) (b : BlockId) : Prop :=
  ∃ d, d ∈ r ∧ vd_severity d = VerificationSeverity.Warning ∧ vd_block_id d = Some b.
Lemma quiet_warns v b : quiet v → ¬ warns_of (result_ v) b.
Proof.
  unfold quiet, result_has_warnings. intros Hq (d & Hd & Hs & _).
  assert (H : existsb (λ d, bool_decide (vd_severity d = VerificationSeverity.Warning)) (result_ v) = true).
  { apply existsb_exists. exists d. split; [by apply list_elem_of_In|by apply bool_decide_eq_true]. }
  congruence.
Qed.
Lemma unreachable_warnings f l r v : (∀ i, i ∈ l → (i < length r)%nat) →
  let v' := foldl (λ v index, if default true (r !! index) then v
             else add_warning f "basic block is unreachable" (Some (u32 index)) v) v l in
  (accepts v' ↔ accepts v) ∧
  ∀ b, warns_of (result_ v') b ↔ warns_of (result_ v) b ∨ ∃ i, i ∈ l ∧ r !! i = Some false ∧ b = u32 i.
Proof.
  revert v. induction l as [|i l IH]; intros v Hl; cbn [foldl].
  { split; [done|]. intros b. split; [auto|]. intros [?|(i & Hi & _)]; [done|by apply elem_of_nil in Hi]. }
  destruct (lookup_lt_is_Some_2 r i) as [m Em]; [apply Hl; by left|]. rewrite Em. cbn [default id].
  assert (Hl' : ∀ i, i ∈ l → (i < length r)%nat) by (intros; apply Hl; by right).
  destruct m; [destruct (IH v Hl') as [Ha Hw] | destruct (IH (add_warning f "basic block is unreachable" (Some (u32 i)) v) Hl') as [Ha Hw] ]; rewrite Ha.
  - split; [done|]. intros b. rewrite Hw. setoid_rewrite elem_of_cons. naive_solver.
  - split; [apply add_warning_errors|]. intros b. rewrite Hw.
    assert (Hadd : warns_of (result_ (add_warning f "basic block is unreachable" (Some (u32 i)) v)) b ↔
      warns_of (result_ v) b ∨ b = u32 i).
    { unfold warns_of, add_warning, add. cbn [result_]. setoid_rewrite elem_of_app.
      setoid_rewrite list_elem_of_singleton. split.
      - intros (d & [Hd| ->] & Hs & Hb); [left; eauto|right]. by injection Hb as <-.
      - intros [(d & ? & ? & ?)| ->]; [eauto 7|]. eexists. split; [by right|done]. }
    rewrite Hadd. setoid_rewrite elem_of_cons. naive_solver.
Qed.

(** ** The property *)

(** C22: The verifier decides well-formedness.  It always returns; it reports
    no error exactly for functions with valid references, arities, names,
    types, ranges and a definition for every local that is read; and it warns
    of a block exactly when no path from the entry block leads to it. *)
Theorem verifier_decides f :
  N.of_nat (length (locals f)) < 4294967296 → N.of_nat (length (blocks f)) < 4294967296 →
  ∃ r, verify_opt_function f ⇓ r ∧ (result_has_errors r = false ↔ well_formed f) ∧
    ∀ b, warns_of r b ↔ valid_block f b ∧ ¬ reachable f b.
Proof.
  intros Hl Hb. unfold verify_opt_function, run_verifier.
  pose proof (accepted_well_formed f Hl Hb) as Ha. pose proof (all_quiet f Hl Hb) as Hq.
  revert Ha Hq. generalize (verify_blocks f (verify_locals f (verify_function_shape f new_verifier))).
  intros v Ha Hq. unfold verify_unreachable_blocks. case_bool_decide as He.
  { exists (result_ v). split; [done|]. split; [exact Ha|]. intros b. unfold valid_block. rewrite He.
    split; [by intros ?%(quiet_warns v b Hq)|]. intros [? _]. cbn in *. lia. }
  destruct (reachable_blocks_ok f He) as (r & -> & Hlen & Hr).
  destruct (unreachable_warnings f (seq 0 (length r)) r v) as [Hacc Hw].
  { intros i Hi. apply elem_of_seq in Hi. lia. }
  eexists. split; [reflexivity|]. split; [by rewrite <-Ha, <-Hacc|]. intros b. rewrite Hw. split.
  - intros [?%(quiet_warns v b Hq)|(i & Hi & Hm & ->)]; [done|]. apply elem_of_seq in Hi.
    rewrite u32_small by lia. split; [unfold valid_block; lia|]. rewrite <-Hr. unfold marked.
    rewrite Nat2N.id, Hm. by intros [=].
  - intros [Hv Hnr]. right. unfold valid_block in Hv. exists (N.to_nat b).
    destruct (lookup_lt_is_Some_2 r (N.to_nat b)) as [m Em]; [lia|].
    split; [apply elem_of_seq; lia|]. rewrite u32_small by lia. rewrite N2Nat.id. split; [|done].
    destruct m; [|done]. by destruct Hnr; apply Hr.
Qed.

Definition two_blocks : OptFunction :=
  mkOptFunction "sample" [mkLocal 0 "x" default_type_ref false None] 1
    [mkBasicBlock 0 "entry" []
       (mkTerminator TerminatorKind.Return kNoLocal 0 0 0 0 "" [] kNoLocal 0 None);
     mkBasicBlock 1 "after.return" [] (default_terminator TerminatorKind.Return)] default_type_ref None.
Lemma verifier_decides_witness : ∃ r, verify_opt_function two_blocks ⇓ r ∧
  (result_has_errors r = false ↔ well_formed two_blocks) ∧
  ∀ b, warns_of r b ↔ valid_block two_blocks b ∧ ¬ reachable two_blocks b.
Proof. apply (verifier_decides two_blocks); by vm_compute. Defined.
Example after_return_is_unreachable : verify_opt_function two_blocks ⇓
  [mkVerificationDiagnostic VerificationSeverity.Warning "sample" (Some 1) "basic block is unreachable"].
Proof. by vm_compute. Qed.
