(* ===== verification/OptPasses.v ===== *)
(** * The passes of the optimization IR (src/compiler/ir/opt/opt_passes.cpp)

    Constant propagation, copy propagation and dead store elimination change a
    function in place and report whether they changed it; [optimize] repeats
    them until none does.  The hash maps of the source are only looked up. *)
From S2P Require Import Prelude Numeric Ir OptIr.
From Stdlib Require Import NArith.
Import Opt.
Open Scope N_scope.

Definition with_operands (l : list Operand) (rv : Rvalue) : Rvalue :=
  mkRvalue (rv_kind rv) (rv_op rv) (rv_callee rv) (rv_field_name rv) l (result_type rv).
Definition with_rvalue (rv : Rvalue) (s : Statement) : Statement :=
  mkStatement (st_kind s) (dest s) rv (st_source_range s).
Definition with_uses (c r : LocalRef) (l : list Operand) (t : Terminator) : Terminator :=
  mkTerminator (tm_kind t) c r (target t) (then_block t) (else_block t) (tm_callee t) l
    (call_dest t) (call_resume t) (tm_source_range t).
Definition with_blocks (l : list BasicBlock) (f : OptFunction) : OptFunction :=
  mkOptFunction (fn_name f) (locals f) (arg_count f) l (return_type f) (fn_source_range f).
(** A loop that changes the elements in place and accumulates [changed]. *)
Definition visit {A} (f : A → A * bool) (l : list A) : list A * bool :=
  (fst <$> (f <$> l), existsb snd (f <$> l)).
(** The operands of a statement, the operands and locals of a terminator. *)
Definition visit_statement (f : Operand → Operand * bool) (s : Statement) : Statement * bool :=
  let (l, changed) := visit f (operands (rvalue s)) in
  (with_rvalue (with_operands l (rvalue s)) s, changed).
Definition visit_block (f : Operand → Operand * bool) (g : Terminator → Terminator * bool)
    (b : BasicBlock) : BasicBlock * bool :=
  let (stmts, changed) := visit (visit_statement f) (block_statements b) in
  let (term, changed') := g (terminator b) in
  (mkBasicBlock (block_id b) (block_label b) stmts term, changed || changed').
Definition visit_function (f : Operand → Operand * bool) (g : Terminator → Terminator * bool)
    (function : OptFunction) : OptFunction * bool :=
  let (l, changed) := visit (visit_block f g) (blocks function) in
  (with_blocks l function, changed).

(** ** Uses *)
Definition operand_uses_local (op : Operand) (ref : LocalRef) : bool :=
  bool_decide (op_kind op = OperandKind.Local_) && bool_decide (op_local op = ref).
Definition replace_operand (from : LocalRef) (replacement op : Operand) : Operand * bool :=
  if operand_uses_local op from then (replacement, true) else (op, false).
Definition replace_in_terminator (from : LocalRef) (replacement : Operand) (t : Terminator)
    : Terminator * bool :=
  let is_local := bool_decide (op_kind replacement = OperandKind.Local_) in
  let replaces r := bool_decide (r = from) && is_local in
  let (l, changed) := visit (replace_operand from replacement) (args t) in
  (with_uses (if replaces (condition t) then op_local replacement else condition t)
     (if replaces (return_value t) then op_local replacement else return_value t) l t,
   replaces (condition t) || replaces (return_value t) || changed).
Definition replace_all_uses (from : LocalRef) (replacement : Operand) : OptFunction → OptFunction * bool :=
  visit_function (replace_operand from replacement) (replace_in_terminator from replacement).

Definition operand_uses (op : Operand) : list LocalRef :=
  if bool_decide (op_kind op = OperandKind.Local_) then [op_local op] else [].
Definition optional_use (ref : LocalRef) : list LocalRef :=
  if negb (bool_decide (ref = kNoLocal)) then [ref] else [].
Definition statement_uses (s : Statement) : list LocalRef := operands (rvalue s) ≫= operand_uses.
Definition terminator_uses (t : Terminator) : list LocalRef :=
  optional_use (condition t) ++ optional_use (return_value t) ++ (args t ≫= operand_uses).
Definition block_uses (b : BasicBlock) : list LocalRef :=
  (block_statements b ≫= statement_uses) ++ terminator_uses (terminator b).
Definition function_uses (f : OptFunction) : list LocalRef := blocks f ≫= block_uses.
(** [counts[ref]++] for every use; a [std::uint32_t] wraps. *)
Definition count_use (counts : gmap LocalRef N) (ref : LocalRef) : gmap LocalRef N :=
  <[ref := (default 0 (counts !! ref) + 1) mod 4294967296]> counts.
Definition build_use_counts (f : OptFunction) : gmap LocalRef N :=
  foldl count_use ∅ (function_uses f).

(** ** Copies and constants *)
Definition is_constant_use (rv : Rvalue) : option Constant :=
  if negb (bool_decide (rv_kind rv = RvalueKind.Use)) then None
  else match operands rv with
       | [op] => if bool_decide (op_kind op = OperandKind.Constant) then Some (op_constant op) else None
       | _ => None
       end.
Definition is_local_copy (rv : Rvalue) : option LocalRef :=
  if negb (bool_decide (rv_kind rv = RvalueKind.Use)) then None
  else match operands rv with
       | [op] => if bool_decide (op_kind op = OperandKind.Local_) then Some (op_local op) else None
       | _ => None
       end.
Definition is_assign (s : Statement) : bool := bool_decide (st_kind s = StatementKind.Assign).
Definition function_statements (f : OptFunction) : list Statement := blocks f ≫= block_statements.

(** ** Constant propagation *)
Definition record_constant (known : gmap LocalRef Constant) (s : Statement) : gmap LocalRef Constant :=
  if negb (is_assign s) then known
  else match is_constant_use (rvalue s) with
       | Some c => <[dest s := c]> known
       | None => known
       end.
Definition known_constants (f : OptFunction) : gmap LocalRef Constant :=
  foldl record_constant ∅ (function_statements f).
Definition propagate_operand (known : gmap LocalRef Constant) (op : Operand) : Operand * bool :=
  if bool_decide (op_kind op = OperandKind.Local_) then
    match known !! op_local op with
    | Some c => (mkOperand OperandKind.Constant kNoLocal c (op_arg_index op), true)
    | None => (op, false)
    end
  else (op, false).
Definition propagate_in_terminator (known : gmap LocalRef Constant) (t : Terminator)
    : Terminator * bool :=
  let (l, changed) := visit (propagate_operand known) (args t) in
  (with_uses (condition t) (return_value t) l t, changed).
Definition constant_propagation (f : OptFunction) : OptFunction * bool :=
  let known := known_constants f in
  visit_function (propagate_operand known) (propagate_in_terminator known) f.

(** ** Dead store elimination *)
Definition is_dead_store (counts : gmap LocalRef N) (s : Statement) : bool :=
  is_assign s && negb (bool_decide (dest s = kNoLocal)) &&
  negb (0 <? default 0 (counts !! dest s)) &&
  negb (bool_decide (rv_kind (rvalue s) = RvalueKind.Call)).
Definition eliminate_in_block (counts : gmap LocalRef N) (b : BasicBlock) : BasicBlock * bool :=
  (mkBasicBlock (block_id b) (block_label b)
     (filter (λ s, is_dead_store counts s = false) (block_statements b)) (terminator b),
   existsb (is_dead_store counts) (block_statements b)).
Definition dead_store_elimination (f : OptFunction) : OptFunction * bool :=
  let (l, changed) := visit (eliminate_in_block (build_use_counts f)) (blocks f) in
  (with_blocks l f, changed).

(** ** Copy propagation *)
Definition copies (f : OptFunction) : list (LocalRef * LocalRef) :=
  function_statements f ≫= λ s,
    if negb (is_assign s) then []
    else match is_local_copy (rvalue s) with Some source => [(dest s, source)] | None => [] end.
(** The default constant and argument index of [Operand]. *)
Definition local_operand (ref : LocalRef) : Operand :=
  mkOperand OperandKind.Local_ ref CMonostate 0.
Definition replace_copy (s : OptFunction * bool) (copy : LocalRef * LocalRef) : OptFunction * bool :=
  let (f, changed) := replace_all_uses copy.1 (local_operand copy.2) s.1 in (f, s.2 || changed).
Definition copy_propagation (f : OptFunction) : OptFunction * bool :=
  foldl replace_copy (f, false) (copies f).

(** ** The fixpoint loop *)
Definition optimize_round (f : OptFunction) : OptFunction * bool :=
  let (f, c1) := constant_propagation f in
  let (f, c2) := copy_propagation f in
  let (f, c3) := dead_store_elimination f in
  (f, c1 || c2 || c3).
Fixpoint optimize (fuel : nat) (f : OptFunction) : cxx (OptFunction * bool) :=
  match fuel with
  | O => NoFuel
  | S fuel =>
      let (f, changed) := optimize_round f in
      if changed then '(f, _) ← optimize fuel f; Ret (f, true) else Ret (f, false)
  end.
