(* ===== verification/OptSemantics.v ===== *)
(** * A semantics of the optimization IR

    The source prints functions of this IR and does not run them; its header
    says what each form computes.  This file states that as a semantics, so
    that the passes have something to preserve: what an operator, an
    aggregate, a field or a call computes is a parameter ([Operations]), a
    local that was never assigned cannot be read, and a computation that the
    IR does not define is stuck ([UB]). *)
From S2P Require Import Prelude Numeric Ir OptIr.
From Stdlib Require Import NArith.
Import Opt.
Open Scope N_scope.

(** Every operation but a call is a function of its operands; a call may
    change the world. *)
Record Operations (V W : Type) := mkOperations {
  constant_value : Constant → V;
  truth : V → option bool;
  pure_operation : RvalueKind.t → string → string → TypeRef → list V → option V;
  call_operation : string → list V → eff W V }.
Arguments constant_value {V W} _ _.
Arguments truth {V W} _ _.
Arguments pure_operation {V W} _ _ _ _ _ _.
Arguments call_operation {V W} _ _ _.

Inductive Outcome (V : Type) :=
  | Returned (v : option V)
  | AssertionFailed.
Arguments Returned {V} v.
Arguments AssertionFailed {V}.

Definition stuck_unless {W A} (o : option A) : eff W A :=
  ⌊ match o with Some a => Ret a | None => UB end ⌋.

Section Semantics.
Context {V W : Type} (ops : Operations V W) (arguments : list V).
Abbreviation Env := (gmap LocalRef V).
Implicit Types env : Env.

Definition eval_operand env (op : Operand) : option V :=
  match op_kind op with
  | OperandKind.Local_ => env !! op_local op
  | OperandKind.Constant => Some (constant_value ops (op_constant op))
  | OperandKind.Arg => arguments !! N.to_nat (op_arg_index op)
  end.
Definition eval_operands env (l : list Operand) : eff W (list V) :=
  stuck_unless (mapM (eval_operand env) l).
Definition eval_rvalue env (rv : Rvalue) : eff W V :=
  vs ← eval_operands env (operands rv);
  match rv_kind rv with
  | RvalueKind.Use => stuck_unless (match vs with [v] => Some v | _ => None end)
  | RvalueKind.Call => call_operation ops (rv_callee rv) vs
  | kind => stuck_unless (pure_operation ops kind (rv_op rv) (rv_field_name rv) (result_type rv) vs)
  end.
Definition run_statement env (s : Statement) : eff W Env :=
  match st_kind s with
  | StatementKind.Assign => v ← eval_rvalue env (rvalue s); mret (<[dest s := v]> env)
  | _ => mret env
  end.
Fixpoint run_statements env (l : list Statement) : eff W Env :=
  match l with
  | [] => mret env
  | s :: l => env ← run_statement env s; run_statements env l
  end.

(** Where control goes: the next block with its environment, or the outcome. *)
Definition eval_condition env (ref : LocalRef) : eff W bool :=
  stuck_unless (env !! ref ≫= truth ops).
Definition run_terminator env (t : Terminator) : eff W (BlockId * Env + Outcome V) :=
  match tm_kind t with
  | TerminatorKind.Goto => mret (inl (target t, env))
  | TerminatorKind.SwitchBool =>
      c ← eval_condition env (condition t);
      mret (inl (if (c : bool) then then_block t else else_block t, env))
  | TerminatorKind.Return =>
      if bool_decide (return_value t = kNoLocal) then mret (inr (Returned None))
      else v ← stuck_unless (env !! return_value t); mret (inr (Returned (Some v)))
  | TerminatorKind.Call =>
      vs ← eval_operands env (args t);
      v ← call_operation ops (tm_callee t) vs;
      mret (inl (call_resume t,
                 if bool_decide (call_dest t = kNoLocal) then env else <[call_dest t := v]> env))
  | TerminatorKind.Assert =>
      c ← eval_condition env (condition t);
      mret (if (c : bool) then inl (target t, env) else inr AssertionFailed)
  | TerminatorKind.Unreachable => stuck_unless None
  end.
Fixpoint run_block (fuel : nat) (f : OptFunction) (b : BlockId) env : eff W (Outcome V) :=
  match fuel with
  | O => λ _, NoFuel
  | S fuel =>
      match blocks f !! N.to_nat b with
      | None => stuck_unless None
      | Some block =>
          env ← run_statements env (block_statements block);
          next ← run_terminator env (terminator block);
          match next with
          | inl (b, env) => run_block fuel f b env
          | inr outcome => mret outcome
          end
      end
  end.
(** The parameters are the first locals. *)
Definition initial_env : Env := list_to_map (imap (λ i v, (N.of_nat i, v)) arguments).
Definition run_function (fuel : nat) (f : OptFunction) : eff W (Outcome V) :=
  run_block fuel f 0 initial_env.
End Semantics.
