(* ===== verification/OptPropagation.v ===== *)
(** * Constant and copy propagation preserve results

    A function in SSA form assigns each local that it reads at one place and
    has no cycle of blocks.  Along a run, a local with a recorded constant has
    that constant, and a copy has the value of its source; so a pass that
    replaces an operand by a recorded one does not change what it evaluates
    to. *)
From S2P Require Import Prelude Numeric Ir OptIr OptPasses OptSemantics.
From Stdlib Require Import NArith.
Import Opt.
Open Scope N_scope.

(** ** Definitions of locals *)
Definition statement_defs (s : Statement) : list LocalRef := if is_assign s then [dest s] else [].
Definition terminator_defs (t : Terminator) : list LocalRef :=
  if bool_decide (tm_kind t = TerminatorKind.Call) && negb (bool_decide (call_dest t = kNoLocal))
  then [call_dest t] else [].
Definition block_defs (b : BasicBlock) : list LocalRef :=
  (block_statements b ≫= statement_defs) ++ terminator_defs (terminator b).
Definition function_defs (f : OptFunction) : list LocalRef := blocks f ≫= block_defs.
Definition parameters (f : OptFunction) : list LocalRef := N.of_nat <$> seq 0 (N.to_nat (arg_count f)).
(** The targets of a terminator (as [terminator_targets] of the verifier). *)
Definition successors (t : Terminator) : list BlockId :=
  match tm_kind t with
  | TerminatorKind.Goto | TerminatorKind.Assert => [target t]
  | TerminatorKind.SwitchBool => [then_block t; else_block t]
  | TerminatorKind.Call => [call_resume t]
  | TerminatorKind.Return | TerminatorKind.Unreachable => []
  end.

(** Each local that is read has one definition, which is not [kNoLocal]; the
    blocks are ordered by a rank that decreases along every edge. *)
Record ssa (f : OptFunction) : Prop := {
  ssa_single : NoDup (filter (λ x, x ∈ function_uses f) (parameters f ++ function_defs f));
  ssa_real : kNoLocal ∉ parameters f ++ function_defs f;
  ssa_acyclic : ∃ rank : BlockId → nat, ∀ b block t, blocks f !! N.to_nat b = Some block →
    t ∈ successors (terminator block) → (rank t < rank b)%nat }.

(** The elements of a list whose definitions contain [x] are one element. *)
Lemma NoDup_bind_inv {A B} (P : B → Prop) `{∀ x, Decision (P x)} (g : A → list B) l i j a b x :
  NoDup (base.filter P (l ≫= g)) → l !! i = Some a → l !! j = Some b →
  P x → x ∈ g a → x ∈ g b → i = j.
Proof.
  intros Hl Hi Hj HP Ha Hb. revert Hi Hj Hl. revert i j. induction l as [|c l IH]; intros [|i] [|j]; try done.
  - simpl. intros [= ->] Hj. rewrite filter_app, NoDup_app. intros (_ & Hd & _). exfalso.
    apply (Hd x); apply list_elem_of_filter; (split; [done|]); [done|].
    apply list_elem_of_bind. exists b. split; [done|]. by apply list_elem_of_lookup_2 in Hj.
  - simpl. intros Hi [= ->]. rewrite filter_app, NoDup_app. intros (_ & Hd & _). exfalso.
    apply (Hd x); apply list_elem_of_filter; (split; [done|]); [done|].
    apply list_elem_of_bind. exists a. split; [done|]. by apply list_elem_of_lookup_2 in Hi.
  - simpl. intros Hi Hj. rewrite filter_app, NoDup_app. intros (_ & _ & Hl). f_equal. by apply IH.
Qed.
Lemma NoDup_bind_elem {A B} (P : B → Prop) `{∀ x, Decision (P x)} (g : A → list B) l a :
  NoDup (base.filter P (l ≫= g)) → a ∈ l → NoDup (base.filter P (g a)).
Proof.
  intros Hl Ha. induction l as [|b l IH]; [by apply elem_of_nil in Ha|]. simpl in Hl.
  rewrite filter_app, NoDup_app in Hl. destruct Hl as (? & _ & ?).
  apply elem_of_cons in Ha as [->|Ha]; auto.
Qed.

(** ** Visiting a function *)
Section Visit.
Lemma visit_fst {A} (f : A → A * bool) l : (visit f l).1 = (λ a, (f a).1) <$> l.
Proof. unfold visit. cbn [fst]. by rewrite <-list_fmap_compose. Qed.
Lemma visit_snd {A} (f : A → A * bool) l : (visit f l).2 = existsb (λ a, (f a).2) l.
Proof. unfold visit. cbn [snd]. induction l as [|a l IH]; [done|]. cbn. by rewrite <-IH. Qed.
Lemma visit_unchanged {A} (f : A → A * bool) l :
  (∀ a, a ∈ l → (f a).2 = false → (f a).1 = a) → (visit f l).2 = false → (visit f l).1 = l.
Proof.
  rewrite visit_fst, visit_snd. induction l as [|a l IH]; intros Hf Hl; [done|]. simpl in *.
  apply orb_false_iff in Hl as [Ha Hl]. rewrite (Hf a) by (done || left).
  f_equal. apply IH; [|done]. intros b Hb. apply Hf. by right.
Qed.
Context (f : Operand → Operand * bool) (g : Terminator → Terminator * bool).
Lemma visit_statement_fst s : (visit_statement f s).1 =
  with_rvalue (with_operands ((λ o, (f o).1) <$> operands (rvalue s)) (rvalue s)) s.
Proof. unfold visit_statement. by rewrite (surjective_pairing (visit _ _)), visit_fst. Qed.
Lemma visit_statement_snd s : (visit_statement f s).2 = existsb (λ o, (f o).2) (operands (rvalue s)).
Proof. unfold visit_statement. by rewrite (surjective_pairing (visit _ _)), visit_snd. Qed.
Lemma visit_block_fst b : (visit_block f g b).1 =
  mkBasicBlock (block_id b) (block_label b) ((λ s, (visit_statement f s).1) <$> block_statements b)
    (g (terminator b)).1.
Proof.
  unfold visit_block. rewrite (surjective_pairing (visit _ _)), visit_fst.
  by rewrite (surjective_pairing (g _)).
Qed.
Lemma visit_block_snd b : (visit_block f g b).2 =
  existsb (λ s, (visit_statement f s).2) (block_statements b) || (g (terminator b)).2.
Proof.
  unfold visit_block. rewrite (surjective_pairing (visit _ _)), visit_snd.
  by rewrite (surjective_pairing (g _)).
Qed.
Lemma visit_function_fst fn : (visit_function f g fn).1 =
  with_blocks ((λ b, (visit_block f g b).1) <$> blocks fn) fn.
Proof. unfold visit_function. by rewrite (surjective_pairing (visit _ _)), visit_fst. Qed.
Lemma visit_function_snd fn : (visit_function f g fn).2 = existsb (λ b, (visit_block f g b).2) (blocks fn).
Proof. unfold visit_function. by rewrite (surjective_pairing (visit _ _)), visit_snd. Qed.
End Visit.

(** ** Matching functions

    Two functions match under an invariant of environments when they differ
    only in operands, and every operand of the first that has a value has the
    same value in the second. *)
Section Matching.
Context {V W : Type} (ops : Operations V W) (arguments : list V).
Context (Inv : gmap LocalRef V → Prop).

Definition operand_matches (op op' : Operand) : Prop := ∀ env v, Inv env →
  eval_operand ops arguments env op = Some v → eval_operand ops arguments env op' = Some v.
Definition local_matches (x x' : LocalRef) : Prop := ∀ env v, Inv env →
  env !! x = Some v → env !! x' = Some v ∧ x' ≠ kNoLocal.
Record statement_matches (s s' : Statement) : Prop := {
  matches_header : s' = with_rvalue (with_operands (operands (rvalue s')) (rvalue s)) s;
  matches_operands : Forall2 operand_matches (operands (rvalue s)) (operands (rvalue s')) }.
Record terminator_matches (t t' : Terminator) : Prop := {
  matches_terminator : t' = with_uses (condition t') (return_value t') (args t') t;
  matches_condition : local_matches (condition t) (condition t');
  matches_return : if decide (return_value t = kNoLocal) then return_value t' = kNoLocal
                   else local_matches (return_value t) (return_value t');
  matches_args : Forall2 operand_matches (args t) (args t') }.
Record block_matches (b b' : BasicBlock) : Prop := {
  matches_statements : Forall2 statement_matches (block_statements b) (block_statements b');
  matches_end : terminator_matches (terminator b) (terminator b') }.
Definition function_matches (f f' : OptFunction) : Prop := Forall2 block_matches (blocks f) (blocks f').

#[export] Instance operand_matches_preorder : PreOrder operand_matches.
Proof. split; [by intros ? ? ?|]. intros a b c Hab Hbc env v HI H. auto. Qed.
#[export] Instance local_matches_trans : Transitive local_matches.
Proof. intros a b c Hab Hbc env v HI H. destruct (Hab _ _ HI H). eauto. Qed.
Lemma statement_matches_refl s : statement_matches s s.
Proof. split; [by destruct s as [k d [] r] | reflexivity]. Qed.
Lemma statement_matches_trans s1 s2 s3 :
  statement_matches s1 s2 → statement_matches s2 s3 → statement_matches s1 s3.
Proof.
  intros [H1 F1] [H2 F2]. split; [|by etrans].
  rewrite H2 at 1. rewrite H1. by destruct s1 as [? ? [] ?], s2 as [? ? [] ?], s3 as [? ? [] ?].
Qed.
Lemma terminator_matches_trans t1 t2 t3 :
  terminator_matches t1 t2 → terminator_matches t2 t3 → terminator_matches t1 t3.
Proof.
  intros [H1 C1 R1 F1] [H2 C2 R2 F2]. split.
  - rewrite H2 at 1. rewrite H1. by destruct t1, t2, t3.
  - by etrans.
  - destruct (decide (return_value t1 = kNoLocal)) as [E|E]; [by rewrite R1, decide_True in R2 by done|].
    destruct (decide (return_value t2 = kNoLocal)) as [E2|E2]; [|by etrans].
    intros env v HI Hv. by destruct (R1 env v HI Hv).
  - by etrans.
Qed.
#[export] Instance statement_matches_transitive : Transitive statement_matches.
Proof. intros ???. apply statement_matches_trans. Qed.
#[export] Instance block_matches_trans : Transitive block_matches.
Proof.
  intros b1 b2 b3 [S1 T1] [S2 T2]. split; [by etrans | by eapply terminator_matches_trans].
Qed.
#[export] Instance function_matches_trans : Transitive function_matches.
Proof. intros f1 f2 f3. unfold function_matches. intros H1 H2. by etrans. Qed.

(** A pass that visits a function and replaces operands soundly. *)
Lemma visit_matches (f : Operand → Operand * bool) (g : Terminator → Terminator * bool) fn U :
  (∀ op, operand_uses op ⊆ U → operand_matches op (f op).1) →
  (∀ t, terminator_uses t ⊆ U → terminator_matches t (g t).1) →
  function_uses fn ⊆ U → function_matches fn (visit_function f g fn).1.
Proof.
  intros Hf Hg HU. unfold function_matches. rewrite visit_function_fst. cbn [with_blocks blocks].
  apply Forall2_fmap_r, Forall_Forall2_diag, Forall_forall. intros b Hb.
  assert (Hu : block_uses b ⊆ U).
  { etrans; [|done]. intros x Hx. apply list_elem_of_bind. eauto. }
  unfold block_uses in Hu. unfold compose. rewrite visit_block_fst.
  split; cbn [block_statements terminator]; [|apply Hg; set_solver].
  apply Forall2_fmap_r, Forall_Forall2_diag, Forall_forall. intros s Hs.
  assert (Hus : statement_uses s ⊆ U).
  { intros x Hx. apply Hu, elem_of_app. left. apply list_elem_of_bind. eauto. }
  unfold compose. rewrite visit_statement_fst. split; [done|]. cbn [with_rvalue with_operands operands rvalue].
  apply Forall2_fmap_r, Forall_Forall2_diag, Forall_forall. intros o Ho. apply Hf.
  etrans; [|done]. intros x Hx. apply list_elem_of_bind. eauto.
Qed.
End Matching.

Lemma statement_defs_elem s x : x ∈ statement_defs s ↔ is_assign s = true ∧ x = dest s.
Proof. unfold statement_defs. destruct (is_assign s); set_solver. Qed.
Lemma function_statements_elem f s : s ∈ function_statements f ↔
  ∃ i b, blocks f !! i = Some b ∧ s ∈ block_statements b.
Proof.
  unfold function_statements. rewrite list_elem_of_bind. split.
  - intros (b & Hs & (i & Hi)%list_elem_of_lookup). eauto.
  - intros (i & b & Hi & Hs). exists b. split; [done | by eapply list_elem_of_lookup_2].
Qed.

(** ** Runs of a function in SSA form *)
Section Runs.
Context {V W : Type} (ops : Operations V W) (arguments : list V).
Context (f : OptFunction) (U : list LocalRef).
Context (Hssa : ssa f) (HU : U = function_uses f).
Implicit Types env : gmap LocalRef V.

(** What a run knows: constants and copies that were assigned still hold. *)
Record consistent env : Prop := {
  no_local : env !! kNoLocal = None;
  constants_hold : ∀ s c v, s ∈ function_statements f → is_assign s = true →
    is_constant_use (rvalue s) = Some c → dest s ∈ U → env !! dest s = Some v →
    v = constant_value ops c;
  copies_hold : ∀ s y v, s ∈ function_statements f → is_assign s = true →
    is_local_copy (rvalue s) = Some y → dest s ∈ U → env !! dest s = Some v → env !! y = Some v }.

Lemma defs_distinct i j b b' x : x ∈ U → blocks f !! i = Some b → blocks f !! j = Some b' →
  x ∈ block_defs b → x ∈ block_defs b' → i = j.
Proof.
  intros Hx Hi Hj Hb Hb'. pose proof (ssa_single _ Hssa) as Hn. rewrite filter_app, NoDup_app in Hn.
  destruct Hn as (_ & _ & Hn). rewrite <-HU in Hn.
  by apply (NoDup_bind_inv (λ x, x ∈ U) block_defs _ i j b b' x Hn).
Qed.
Lemma block_defs_NoDup b : b ∈ blocks f → NoDup (base.filter (λ x, x ∈ U) (block_defs b)).
Proof.
  intros Hb. pose proof (ssa_single _ Hssa) as Hn. rewrite filter_app, NoDup_app, <-HU in Hn.
  destruct Hn as (_ & _ & Hn). by apply (NoDup_bind_elem (λ x, x ∈ U) block_defs _ b Hn).
Qed.
Lemma same_dest s s' : s ∈ function_statements f → s' ∈ function_statements f →
  is_assign s = true → is_assign s' = true → dest s ∈ U → dest s = dest s' → s = s'.
Proof.
  intros (i & b & Hi & Hs)%function_statements_elem (j & b' & Hj & Hs')%function_statements_elem Ha Ha' Hu E.
  assert (Hd : ∀ s b, s ∈ block_statements b → is_assign s = true → dest s ∈ block_defs b).
  { intros s0 b0 Hs0 Ha0. apply elem_of_app. left. apply list_elem_of_bind.
    exists s0. split; [by apply statement_defs_elem | done]. }
  assert (i = j) as <-.
  { eapply (defs_distinct _ _ _ _ (dest s)); eauto. rewrite E. eauto. }
  rewrite Hi in Hj. injection Hj as <-.
  apply list_elem_of_lookup in Hs as [m Hm]. apply list_elem_of_lookup in Hs' as [n Hn].
  assert (m = n) as <-; [|congruence].
  pose proof (block_defs_NoDup b (list_elem_of_lookup_2 _ _ _ Hi)) as Hnd.
  unfold block_defs in Hnd. rewrite filter_app, NoDup_app in Hnd. destruct Hnd as (Hnd & _ & _).
  by apply (NoDup_bind_inv (λ x, x ∈ U) statement_defs _ m n s s' (dest s) Hnd Hm Hn Hu);
    apply statement_defs_elem.
Qed.
Lemma dest_real s : s ∈ function_statements f → is_assign s = true → dest s ≠ kNoLocal.
Proof.
  intros (i & b & Hi & Hs)%function_statements_elem Ha E. apply (ssa_real _ Hssa), elem_of_app. right.
  apply list_elem_of_bind. exists b. split; [|by eapply list_elem_of_lookup_2].
  apply elem_of_app. left. apply list_elem_of_bind. exists s. split; [|done].
  by apply statement_defs_elem.
Qed.
Lemma copy_source_used s y : s ∈ function_statements f → is_local_copy (rvalue s) = Some y → y ∈ U.
Proof using HU.
  clear Hssa. intros (i & b & Hi & Hs)%function_statements_elem Hc. subst U. apply list_elem_of_bind. exists b.
  split; [|by eapply list_elem_of_lookup_2]. apply elem_of_app. left. apply list_elem_of_bind. exists s.
  split; [|done]. unfold statement_uses. revert Hc. unfold is_local_copy.
  destruct (negb _); [done|]. destruct (operands (rvalue s)) as [|o [|]]; [done| |done].
  case_bool_decide; [|done]. intros [= <-]. simpl. unfold operand_uses.
  rewrite bool_decide_true by done. set_solver.
Qed.

(** What the right-hand side of an assignment evaluates to. *)
Lemma eval_use env rv (op : Operand) w v w' : rv_kind rv = RvalueKind.Use → operands rv = [op] →
  eval_rvalue ops arguments env rv w ⇓ (v, w') → eval_operand ops arguments env op = Some v.
Proof.
  intros Hk Ho. unfold eval_rvalue, eval_operands, stuck_unless, mbind, eff_bind. rewrite Hk, Ho. simpl.
  destruct (eval_operand _ _ env op) as [v'|]; simpl; [|done]. by intros [= -> _].
Qed.
Lemma eval_constant env rv c w v w' : is_constant_use rv = Some c →
  eval_rvalue ops arguments env rv w ⇓ (v, w') → v = constant_value ops c.
Proof.
  unfold is_constant_use. case_bool_decide as Hk; simpl; [|done].
  destruct (operands rv) as [|o [|]] eqn:Ho; [done| |done]. case_bool_decide as Hc; [|done].
  intros [= <-] Hv. eapply eval_use in Hv; [|done|done]. unfold eval_operand in Hv. rewrite Hc in Hv.
  by injection Hv as <-.
Qed.
Lemma eval_copy env rv y w v w' : is_local_copy rv = Some y →
  eval_rvalue ops arguments env rv w ⇓ (v, w') → env !! y = Some v.
Proof.
  unfold is_local_copy. case_bool_decide as Hk; simpl; [|done].
  destruct (operands rv) as [|o [|]] eqn:Ho; [done| |done]. case_bool_decide as Hc; [|done].
  intros [= <-] Hv. eapply eval_use in Hv; [|done|done]. unfold eval_operand in Hv. by rewrite Hc in Hv.
Qed.

Lemma consistent_assign env s w v w' :
  s ∈ function_statements f → is_assign s = true → (dest s ∈ U → env !! dest s = None) →
  eval_rvalue ops arguments env (rvalue s) w ⇓ (v, w') → consistent env →
  consistent (<[dest s := v]> env).
Proof.
  intros Hs Ha Hd Hv [Hn Hc Hy]. split.
  - rewrite lookup_insert_ne; [done | by apply dest_real].
  - intros s0 c v0 Hs0 Ha0 Hc0 Hu Hv0. destruct (decide (dest s0 = dest s)) as [E|E].
    + assert (s0 = s) as -> by (apply same_dest; auto). rewrite lookup_insert_eq in Hv0.
      injection Hv0 as <-. by eapply eval_constant.
    + rewrite lookup_insert_ne in Hv0 by done. eauto.
  - intros s0 y v0 Hs0 Ha0 Hc0 Hu Hv0. pose proof (copy_source_used _ _ Hs0 Hc0) as Hyu.
    assert (Hyv : env !! y = Some v0).
    { destruct (decide (dest s0 = dest s)) as [E|E]; [|rewrite lookup_insert_ne in Hv0 by done; eauto].
      assert (s0 = s) as -> by (apply same_dest; auto). rewrite lookup_insert_eq in Hv0.
      injection Hv0 as <-. by eapply eval_copy. }
    rewrite lookup_insert_ne; [done|]. intros <-. rewrite Hd in Hyv by done. done.
Qed.
Lemma consistent_call env x v : x ≠ kNoLocal →
  (∀ s, s ∈ function_statements f → is_assign s = true → dest s ∈ U → dest s ≠ x) →
  (x ∈ U → env !! x = None) → consistent env → consistent (<[x := v]> env).
Proof.
  intros Hx Hs Hu [Hn Hc Hy]. split.
  - by rewrite lookup_insert_ne.
  - intros s0 c v0 Hs0 Ha0 Hc0 Hu0 Hv0. rewrite lookup_insert_ne in Hv0 by (intros ->; naive_solver). eauto.
  - intros s0 y v0 Hs0 Ha0 Hc0 Hu0 Hv0. pose proof (copy_source_used _ _ Hs0 Hc0) as Hyu.
    rewrite lookup_insert_ne in Hv0 by (intros ->; naive_solver).
    specialize (Hy _ _ _ Hs0 Ha0 Hc0 Hu0 Hv0). rewrite lookup_insert_ne; [done|]. intros <-.
    by rewrite Hu in Hy.
Qed.

(** Matching statements compute the same environment. *)
Lemma eval_operands_matches env l l' w vs w' : consistent env →
  Forall2 (operand_matches ops arguments consistent) l l' →
  eval_operands (W:=W) ops arguments env l w ⇓ (vs, w') →
  eval_operands (W:=W) ops arguments env l' w ⇓ (vs, w').
Proof.
  intros Hc Hl. unfold eval_operands, stuck_unless, lift.
  destruct (mapM _ l) as [vs0|] eqn:E; [|done]. intros [= -> ->].
  cut (mapM (eval_operand ops arguments env) l' = Some vs); [by intros ->|].
  revert vs E. induction Hl as [|o o' l l' Ho Hl IH]; intros vs; simpl; [done|].
  destruct (eval_operand _ _ env o) as [v|] eqn:Ev; [|done]. simpl.
  destruct (mapM _ l) as [vs1|]; simpl; [|done]. intros [= <-].
  by rewrite (Ho env v Hc Ev), (IH vs1).
Qed.
Lemma eval_rvalue_matches env s s' w v w' : consistent env →
  statement_matches ops arguments consistent s s' →
  eval_rvalue ops arguments env (rvalue s) w ⇓ (v, w') →
  eval_rvalue ops arguments env (rvalue s') w ⇓ (v, w').
Proof.
  intros Hc [Hh Ho]. unfold eval_rvalue. intros H. inv_eff H.
  rewrite (eff_bind_eq _ _ _ _ _ (eval_operands_matches _ _ _ _ _ _ Hc Ho E)).
  rewrite Hh. destruct s as [? ? [] ?]; exact H.
Qed.

(** The invariant of a run: [A] holds of the locals that are defined later. *)
Definition undefined (A : LocalRef → Prop) env : Prop := ∀ x, x ∈ U → A x → env !! x = None.

Lemma run_statements_matches (A : LocalRef → Prop) l l' env w env1 w1 :
  Forall2 (statement_matches ops arguments consistent) l l' →
  (∀ s, s ∈ l → s ∈ function_statements f) →
  NoDup (base.filter (λ x, x ∈ U) (l ≫= statement_defs)) →
  (∀ x, x ∈ U → x ∈ l ≫= statement_defs → ¬ A x) →
  consistent env → undefined (λ x, x ∈ l ≫= statement_defs ∨ A x) env →
  run_statements ops arguments env l w ⇓ (env1, w1) →
  run_statements ops arguments env l' w ⇓ (env1, w1) ∧ consistent env1 ∧ undefined A env1.
Proof.
  intros Hl. revert env w. induction Hl as [|s s' l l' Hs Hl IH]; intros env w Hin Hnd HA Hc Hu.
  { intros [= <- <-]. split_and!; [done|done|]. intros x Hx HAx. apply Hu; auto. }
  cbn [run_statements]. intros H. inv_eff H. simpl in Hnd, HA. unfold undefined in Hu. simpl in Hu.
  rewrite filter_app, NoDup_app in Hnd. destruct Hnd as (_ & Hd & Hnd).
  assert (Hin' : ∀ s, s ∈ l → s ∈ function_statements f) by (intros; apply Hin; by right).
  assert (Hk : st_kind s' = st_kind s) by by rewrite (matches_header _ _ _ _ _ Hs).
  unfold run_statement in E. unfold run_statement at 1. rewrite Hk.
  destruct (is_assign s) eqn:Ha.
  - pose proof Ha as Hka. unfold is_assign in Hka. apply bool_decide_eq_true in Hka.
    rewrite Hka in E |- *. inv_eff E. injection E as <- <-.
    rename r0 into v. pose proof (eval_rvalue_matches _ _ _ _ _ _ Hc Hs E0) as Ev.
    assert (Hd' : dest s' = dest s) by by rewrite (matches_header _ _ _ _ _ Hs).
    assert (Hsd : dest s ∈ statement_defs s) by by apply statement_defs_elem.
    assert (Hfresh : dest s ∈ U → env !! dest s = None) by (intros; apply Hu; [done|left; set_solver]).
    unfold mbind at 1, eff_bind at 1. unfold mbind at 1, eff_bind at 1. rewrite Ev. simpl. rewrite Hd'.
    apply IH; auto.
    + intros x Hx Hx'. apply HA; [done|]. set_solver.
    + eapply consistent_assign; eauto. apply Hin. by left.
    + intros x Hx HAx. rewrite lookup_insert_ne; [apply Hu; [done|]; set_solver|]. intros <-.
      destruct HAx as [Hxl|HAx]; [|by apply (HA (dest s)); [|apply elem_of_app; left|]].
      apply (Hd (dest s)); by apply list_elem_of_filter.
  - unfold is_assign in Ha. assert (Er : r = env ∧ w0 = w) by (destruct (st_kind s); [by rewrite bool_decide_true in Ha by done|..];
      by injection E as <- <-). destruct Er as [-> ->].
    assert (En : ∀ w, (match st_kind s with
      | StatementKind.Assign => v ← eval_rvalue ops arguments env (rvalue s'); mret (<[dest s':=v]> env)
      | _ => mret env end : eff W (gmap LocalRef V)) w = Ret (env, w))
      by (destruct (st_kind s); [by rewrite bool_decide_true in Ha by done|..]; done).
    rewrite (eff_bind_eq _ _ _ _ _ (En w)). apply IH; auto.
    + intros x Hx Hx'. apply HA; [done|]. set_solver.
    + intros x Hx HAx. apply Hu; [done|]. set_solver.
Qed.

Lemma call_dest_distinct i b x s : blocks f !! i = Some b → x ∈ terminator_defs (terminator b) →
  s ∈ function_statements f → is_assign s = true → dest s ∈ U → dest s ≠ x.
Proof.
  intros Hi Hx (j & b' & Hj & Hs)%function_statements_elem Ha Hu <-.
  assert (Hd : dest s ∈ block_statements b' ≫= statement_defs).
  { apply list_elem_of_bind. exists s. split; [by apply statement_defs_elem|done]. }
  assert (j = i) as -> by (eapply (defs_distinct _ _ _ _ (dest s)); eauto; apply elem_of_app; auto).
  rewrite Hi in Hj. injection Hj as <-.
  pose proof (block_defs_NoDup b (list_elem_of_lookup_2 _ _ _ Hi)) as Hnd.
  unfold block_defs in Hnd. rewrite filter_app, NoDup_app in Hnd. destruct Hnd as (_ & Hnd & _).
  apply (Hnd (dest s)); by apply list_elem_of_filter.
Qed.
Lemma eval_condition_matches env x x' w c w' : consistent env →
  local_matches consistent x x' → eval_condition (W:=W) ops env x w ⇓ (c, w') →
  eval_condition (W:=W) ops env x' w ⇓ (c, w').
Proof.
  intros Hc Hx. unfold eval_condition. destruct (env !! x) as [v|] eqn:E; [|done].
  by destruct (Hx env v Hc E) as [-> _].
Qed.

Lemma run_terminator_matches (A : LocalRef → Prop) i b t' env w next w1 :
  let t := terminator b in
  blocks f !! i = Some b → terminator_matches ops arguments consistent t t' →
  (∀ x, x ∈ U → x ∈ terminator_defs t → ¬ A x) →
  consistent env → undefined (λ x, x ∈ terminator_defs t ∨ A x) env →
  run_terminator ops arguments env t w ⇓ (next, w1) →
  run_terminator ops arguments env t' w ⇓ (next, w1) ∧
  match next with
  | inl (c, env1) => c ∈ successors t ∧ consistent env1 ∧ undefined A env1
  | inr _ => True
  end.
Proof.
  intros t Hi [Ht Hcond Hret Hargs] HA Hc Hu. rewrite Ht.
  assert (HuA : undefined A env) by (intros x Hx HAx; apply Hu; auto).
  unfold run_terminator, successors. cbn [with_uses tm_kind target then_block else_block tm_callee
    args call_dest call_resume condition return_value].
  destruct (tm_kind t) eqn:Hk; intros H.
  - injection H as <- <-. split_and!; [done|by left|done|done].
  - inv_eff H. injection H as <- <-.
    rewrite (eff_bind_eq _ _ _ _ _ (eval_condition_matches _ _ _ _ _ _ Hc Hcond E)).
    split_and!; [done | destruct r; [by left | by right; left] | done | done].
  - destruct (decide (return_value t = kNoLocal)) as [E|E].
    + rewrite bool_decide_true in H by done. rewrite bool_decide_true by done. by injection H as <- <-.
    + rewrite bool_decide_false in H by done. inv_eff H. injection H as <- <-.
      unfold stuck_unless, lift in E0. destruct (env !! return_value t) as [v|] eqn:Ev; [|done].
      injection E0 as <- <-. destruct (Hret env v Hc Ev) as [Ev' Hn].
      rewrite bool_decide_false by done. unfold stuck_unless. by rewrite Ev'.
  - inv_eff H. inv_eff H. injection H as <- <-.
    rewrite (eff_bind_eq _ _ _ _ _ (eval_operands_matches _ _ _ _ _ _ Hc Hargs E)).
    rewrite (eff_bind_eq _ _ _ _ _ E0). split; [done|]. split; [by left|].
    unfold terminator_defs in HA, Hu. rewrite bool_decide_true in HA, Hu by done.
    case_bool_decide as Hn; [done|]. simpl in HA, Hu.
    assert (Hd : call_dest t ∈ terminator_defs t).
    { unfold terminator_defs. rewrite bool_decide_true, bool_decide_false by done. by left. }
    split.
    + apply consistent_call; [done| |intros; apply Hu; [done|left; by left]|done].
      intros s Hs Ha Hsu. by eapply (call_dest_distinct i b).
    + intros x Hx HAx. rewrite lookup_insert_ne; [by apply HuA|]. intros <-.
      by apply (HA (call_dest t)); [|left|].
  - inv_eff H. injection H as <- <-.
    rewrite (eff_bind_eq _ _ _ _ _ (eval_condition_matches _ _ _ _ _ _ Hc Hcond E)).
    split; [done|]. destruct r; [|done]. split_and!; [by left|done|done].
  - done.
Qed.

(** ** The simulation *)
Context (f' : OptFunction) (Hff : function_matches ops arguments consistent f f').
Context (rank : BlockId → nat).
Context (Hrank : ∀ b block t, blocks f !! N.to_nat b = Some block →
  t ∈ successors (terminator block) → (rank t < rank b)%nat).

(** What blocks of a smaller rank define. *)
Definition later (r : nat) (x : LocalRef) : Prop := ∃ b block,
  blocks f !! N.to_nat b = Some block ∧ (rank b < r)%nat ∧ x ∈ block_defs block.
Lemma run_block_matches fuel b env w r : consistent env → undefined (later (S (rank b))) env →
  run_block ops arguments fuel f b env w ⇓ r → run_block ops arguments fuel f' b env w ⇓ r.
Proof.
  revert b env w. induction fuel as [|fuel IH]; intros b env w Hc Hu; [done|]. cbn [run_block].
  destruct (blocks f !! N.to_nat b) as [block|] eqn:Eb; [|done].
  destruct (Forall2_lookup_l _ _ _ _ _ Hff Eb) as (block' & Eb' & [Hs Ht]). rewrite Eb'.
  intros H. inv_eff H. inv_eff H.
  assert (Hdef : ∀ x, x ∈ U → x ∈ block_defs block → ¬ later (rank b) x).
  { intros x Hx Hxb (b' & block'' & Hb' & Hr & Hd).
    assert (N.to_nat b = N.to_nat b') as Hbb by by eapply defs_distinct.
    apply N2Nat.inj in Hbb as <-. lia. }
  destruct (run_statements_matches (λ x, x ∈ terminator_defs (terminator block) ∨ later (rank b) x)
    _ _ env w r0 w0 Hs) as (E' & Hc1 & Hu1).
  - intros s Hs'. apply function_statements_elem. eauto.
  - pose proof (block_defs_NoDup block (list_elem_of_lookup_2 _ _ _ Eb)) as Hnd.
    unfold block_defs in Hnd. rewrite filter_app, NoDup_app in Hnd. by destruct Hnd as (? & _ & _).
  - intros x Hx Hd [Ht'|Hl]; [|by apply (Hdef x); [|apply elem_of_app; left|]].
    pose proof (block_defs_NoDup block (list_elem_of_lookup_2 _ _ _ Eb)) as Hnd.
    unfold block_defs in Hnd. rewrite filter_app, NoDup_app in Hnd. destruct Hnd as (_ & Hnd & _).
    by apply (Hnd x); apply list_elem_of_filter.
  - done.
  - intros x Hx Hd. apply Hu; [done|]. assert (Hd' : x ∈ block_defs block ∨ later (rank b) x).
    { unfold block_defs. rewrite elem_of_app. naive_solver. }
    destruct Hd' as [Hd'|(b' & bl & ? & ? & ?)]; [exists b, block | exists b', bl]; split_and!; auto; lia.
  - done.
  - rewrite (eff_bind_eq _ _ _ _ _ E').
    destruct (run_terminator_matches (later (rank b)) _ _ _ r0 w0 r1 w1 Eb Ht) as [E0' Hnext];
      [|done|done|exact E0|].
    { intros x Hx Hd. apply Hdef; [done|]. apply elem_of_app. by right. }
    rewrite (eff_bind_eq _ _ _ _ _ E0'). destruct r1 as [[c env1]|o]; [|done].
    destruct Hnext as (Hsucc & Hc' & Hu'). apply IH; [done| |done].
    intros x Hx (b' & bl & ? & ? & ?). apply Hu'; [done|]. exists b', bl.
    split_and!; [done| |done]. pose proof (Hrank _ _ _ Eb Hsucc). lia.
Qed.

Lemma initial_env_lookup x v : initial_env arguments !! x = Some v → x ∈ N.of_nat <$> seq 0 (length arguments).
Proof.
  intros H%elem_of_list_to_map_2. apply elem_of_lookup_imap in H as (i & y & [= -> ->] & Hi).
  apply list_elem_of_fmap. exists i. split; [done|]. apply elem_of_seq.
  apply lookup_lt_Some in Hi. lia.
Qed.
End Runs.

(** ** Matching functions return the same *)
Section Preservation.
Context {V W : Type} (ops : Operations V W) (arguments : list V).

Abbreviation invariant f := (consistent (V:=V) (W:=W) ops f (function_uses f)).

Lemma initial_consistent f : ssa f → N.of_nat (length arguments) = arg_count f →
  (∀ x, x ∈ function_uses f → x ∈ function_defs f → initial_env arguments !! x = None) ∧
  invariant f (initial_env arguments).
Proof.
  intros Hs Hlen.
  assert (Hp : ∀ x v, initial_env arguments !! x = Some v → x ∈ parameters f).
  { intros x v Hx. apply initial_env_lookup in Hx. unfold parameters. by rewrite <-Hlen, Nat2N.id. }
  assert (Hd : ∀ x, x ∈ function_uses f → x ∈ function_defs f → initial_env arguments !! x = None).
  { intros x Hu Hx. destruct (initial_env arguments !! x) as [v|] eqn:E; [|done]. apply Hp in E.
    pose proof (ssa_single _ Hs) as Hn. rewrite filter_app, NoDup_app in Hn. destruct Hn as (_ & Hn & _).
    exfalso. by apply (Hn x); apply list_elem_of_filter. }
  assert (Hs' : ∀ s, s ∈ function_statements f → is_assign s = true → dest s ∈ function_defs f).
  { intros s (i & b & Hi & Hsb)%function_statements_elem Ha. apply list_elem_of_bind. exists b.
    split; [|by eapply list_elem_of_lookup_2]. apply elem_of_app. left. apply list_elem_of_bind.
    exists s. split; [by apply statement_defs_elem | done]. }
  split; [done|]. split.
  - destruct (initial_env arguments !! kNoLocal) as [v|] eqn:E; [|done]. apply Hp in E.
    exfalso. apply (ssa_real _ Hs), elem_of_app. by left.
  - intros s c v Hst Ha _ Hu. rewrite Hd; auto; done.
  - intros s y v Hst Ha _ Hu. rewrite Hd; auto; done.
Qed.

Lemma matches_preserves f f' fuel w r : ssa f → N.of_nat (length arguments) = arg_count f →
  function_matches ops arguments (invariant f) f f' →
  run_function ops arguments fuel f w ⇓ r → run_function ops arguments fuel f' w ⇓ r.
Proof.
  intros Hs Hlen Hm. destruct (initial_consistent f Hs Hlen) as [Hd Hc].
  destruct (ssa_acyclic _ Hs) as [rank Hrank].
  apply (run_block_matches ops arguments f (function_uses f) Hs eq_refl f' Hm rank Hrank); [done|].
  intros x Hx (b & block & Hb & _ & Hxb). apply Hd; [done|]. apply list_elem_of_bind.
  exists block. split; [done|by eapply list_elem_of_lookup_2].
Qed.

(** ** Constant propagation *)
Lemma record_constants_elem l known x c : foldl record_constant known l !! x = Some c →
  known !! x = Some c ∨
  ∃ s, s ∈ l ∧ is_assign s = true ∧ is_constant_use (rvalue s) = Some c ∧ dest s = x.
Proof.
  revert known. induction l as [|s l IH]; intros known; simpl; [by left|].
  intros [H|(s' & ? & ?)]%IH; [|right; exists s'; by split; [right|]]. revert H.
  unfold record_constant. destruct (is_assign s) eqn:Ha; simpl; [|by left].
  destruct (is_constant_use (rvalue s)) as [c'|] eqn:Ec; [|by left].
  destruct (decide (dest s = x)) as [<-|Hne].
  - rewrite lookup_insert_eq. intros [= ->]. right. exists s. by split_and!; [left|..].
  - rewrite lookup_insert_ne by done. by left.
Qed.
Lemma known_constants_elem f x c : known_constants f !! x = Some c →
  ∃ s, s ∈ function_statements f ∧ is_assign s = true ∧ is_constant_use (rvalue s) = Some c ∧ dest s = x.
Proof.
  unfold known_constants. intros [H|?]%record_constants_elem; [|done]. by rewrite lookup_empty in H.
Qed.

Lemma propagate_operand_matches f op : operand_uses op ⊆ function_uses f →
  operand_matches ops arguments (invariant f) op (propagate_operand (known_constants f) op).1.
Proof.
  intros Hu env v Hc. unfold operand_uses in Hu. unfold propagate_operand.
  case_bool_decide as Hk; [|done].
  destruct (known_constants f !! op_local op) as [c|] eqn:Ec; [|done].
  apply known_constants_elem in Ec as (s & Hs & Ha & Hcu & Hd).
  unfold eval_operand. rewrite Hk. simpl. intros Hv. f_equal. symmetry.
  rewrite <-Hd in Hv. eapply constants_hold; eauto. rewrite Hd. apply Hu. by left.
Qed.
Lemma local_matches_refl (Inv : gmap LocalRef V → Prop) x :
  (∀ env, Inv env → env !! kNoLocal = None) → local_matches Inv x x.
Proof. intros Hn env v HI Hv. split; [done|]. intros ->. by rewrite Hn in Hv. Qed.
Lemma constant_propagation_matches f :
  function_matches ops arguments (invariant f) f (constant_propagation f).1.
Proof.
  assert (Hr : ∀ x, local_matches (invariant f) x x)
    by (intros; apply local_matches_refl; intros env []; done).
  apply visit_matches with (U := function_uses f); [apply propagate_operand_matches | | done].
  intros t Hu. unfold propagate_in_terminator.
  rewrite (surjective_pairing (visit _ _)), visit_fst. split; [done|apply Hr| |]; simpl.
  - by destruct (decide _).
  - apply Forall2_fmap_r, Forall_Forall2_diag, Forall_forall. intros o Ho.
    apply propagate_operand_matches. etrans; [|done]. unfold terminator_uses.
    intros x Hx. rewrite !elem_of_app. right. right. apply list_elem_of_bind. eauto.
Qed.

(** ** Copy propagation *)
Lemma copies_elem f x y : (x, y) ∈ copies f ↔
  ∃ s, s ∈ function_statements f ∧ is_assign s = true ∧ is_local_copy (rvalue s) = Some y ∧ dest s = x.
Proof.
  unfold copies. rewrite list_elem_of_bind. split.
  - intros (s & Hs & Hin). exists s. destruct (is_assign s); simpl in Hs; [|by apply elem_of_nil in Hs].
    destruct (is_local_copy (rvalue s)) as [z|]; [|by apply elem_of_nil in Hs].
    apply list_elem_of_singleton in Hs. by injection Hs as -> ->.
  - intros (s & Hin & Ha & Hc & <-). exists s. rewrite Ha, Hc. simpl. split; [by left|done].
Qed.
Lemma replace_operand_matches f x y op : (x, y) ∈ copies f → operand_uses op ⊆ function_uses f →
  operand_matches ops arguments (invariant f) op (replace_operand x (local_operand y) op).1.
Proof.
  intros (s & Hs & Ha & Hc & Hd)%copies_elem Hu env v HI. unfold replace_operand, operand_uses_local.
  unfold operand_uses in Hu. case_bool_decide as Hk; simpl; [|done].
  case_bool_decide as Hx; [|done]. unfold eval_operand. rewrite Hk. simpl. rewrite Hx, <-Hd.
  intros Hv. eapply copies_hold; eauto. rewrite Hd, <-Hx. apply Hu. by left.
Qed.
Lemma replace_local_matches f x y z : ssa f → (x, y) ∈ copies f → (z ≠ kNoLocal → z ∈ function_uses f) →
  local_matches (invariant f) z (if bool_decide (z = x) && true then y else z).
Proof.
  intros Hssa Hxy Hu env v HI Hv. case_bool_decide as Hz; simpl; [subst z|].
  - assert (x ≠ kNoLocal) by (intros ->; by rewrite (no_local _ _ _ _ HI) in Hv).
    apply copies_elem in Hxy as (s & Hs & Ha & Hc & Hd). rewrite <-Hd in Hv, Hu.
    assert (Hy : env !! y = Some v) by (eapply copies_hold; eauto; apply Hu; congruence).
    split; [done|]. intros ->. by rewrite (no_local _ _ _ _ HI) in Hy.
  - split; [done|]. intros ->. by rewrite (no_local _ _ _ _ HI) in Hv.
Qed.
Lemma optional_use_elem x U : optional_use x ⊆ U → x ≠ kNoLocal → x ∈ U.
Proof. unfold optional_use. intros Hu Hx. rewrite bool_decide_false in Hu by done. set_solver. Qed.
Lemma copy_dest_real f x y : ssa f → (x, y) ∈ copies f → x ≠ kNoLocal.
Proof.
  intros Hs (s & Hst & Ha & _ & <-)%copies_elem. by eapply (dest_real f).
Qed.
Lemma replace_all_uses_matches f g x y : ssa f → (x, y) ∈ copies f → function_uses g ⊆ function_uses f →
  function_matches ops arguments (invariant f) g (replace_all_uses x (local_operand y) g).1.
Proof.
  intros Hssa Hxy Hg. apply visit_matches with (U := function_uses f); [| |done].
  { intros op Hu. by apply replace_operand_matches. }
  intros t Hu. unfold terminator_uses in Hu. apply list_subseteq_app_iff_l in Hu as [Hu1 Hu].
  apply list_subseteq_app_iff_l in Hu as [Hu2 Hu3].
  unfold replace_in_terminator. rewrite (surjective_pairing (visit _ _)), visit_fst.
  split; cbn [with_uses condition return_value args fst op_kind op_local local_operand]; [done| | |].
  - apply (replace_local_matches f); [done|done|]. by apply optional_use_elem.
  - destruct (decide (return_value t = kNoLocal)) as [E|E].
    + rewrite E. rewrite bool_decide_false; [done|]. intros <-. by apply (copy_dest_real f _ y Hssa Hxy).
    + apply (replace_local_matches f); [done|done|]. by apply optional_use_elem.
  - apply Forall2_fmap_r, Forall_Forall2_diag, Forall_forall. intros o Ho.
    apply replace_operand_matches; [done|]. etrans; [|done]. intros z Hz. apply list_elem_of_bind. eauto.
Qed.
End Preservation.
