(* ===== verification/OptPassesProps.v ===== *)
(** * The optimizer of the optimization IR: results, SSA form, termination

    Each pass keeps the results and the SSA form of a function; every reported
    change makes the function smaller in a measure that counts its statements
    and weighs its uses by a rank that decreases along copies. *)
From S2P Require Import Prelude Numeric Ir OptIr OptPasses OptSemantics OptPropagation.
From Stdlib Require Import NArith.
Import Opt.
Open Scope N_scope.

(** ** How a pass changes the uses of locals *)
Section Improves.
Context (rank : LocalRef → nat) (U : list LocalRef).

Definition weight (l : list LocalRef) : nat := sum_list ((λ x, S (rank x)) <$> l).
(** From uses within [U] to fewer or lighter uses within [U]. *)
Definition improves (l l' : list LocalRef) (changed : bool) : Prop := l ⊆ U →
  l' ⊆ U ∧ (length l' ≤ length l)%nat ∧ (weight l' + (if changed then 1 else 0) ≤ weight l)%nat.

Lemma weight_app l l' : weight (l ++ l') = (weight l + weight l')%nat.
Proof. unfold weight. by rewrite fmap_app, sum_list_with_app || rewrite fmap_app, sum_list_app. Qed.
Lemma improves_refl l : improves l l false.
Proof. intros Hl. split_and!; [done|lia|lia]. Qed.
Lemma improves_app l1 l1' c1 l2 l2' c2 : improves l1 l1' c1 → improves l2 l2' c2 →
  improves (l1 ++ l2) (l1' ++ l2') (c1 || c2).
Proof.
  intros H1 H2 [Hl1 Hl2]%list_subseteq_app_iff_l. destruct (H1 Hl1) as (? & ? & ?).
  destruct (H2 Hl2) as (? & ? & ?). rewrite !length_app, !weight_app.
  split_and!; [by apply list_subseteq_app_iff_l | lia | destruct c1, c2; simpl; lia].
Qed.
Lemma improves_trans l1 l2 l3 c1 c2 : improves l1 l2 c1 → improves l2 l3 c2 → improves l1 l3 (c1 || c2).
Proof.
  intros H1 H2 Hl. destruct (H1 Hl) as (Hl2 & ? & ?). destruct (H2 Hl2) as (? & ? & ?).
  split_and!; [done | lia | destruct c1, c2; simpl; lia].
Qed.
Lemma improves_bind {A} (f : A → A * bool) (g : A → list LocalRef) l :
  (∀ a, a ∈ l → improves (g a) (g (f a).1) (f a).2) →
  improves (l ≫= g) (((λ a, (f a).1) <$> l) ≫= g) (existsb (λ a, (f a).2) l).
Proof.
  induction l as [|a l IH]; intros Hl; [apply improves_refl|]. simpl. apply improves_app.
  - apply Hl. by left.
  - apply IH. intros b Hb. apply Hl. by right.
Qed.

Context (f : Operand → Operand * bool) (g : Terminator → Terminator * bool).
Context (Hf : ∀ op, improves (operand_uses op) (operand_uses (f op).1) (f op).2).
Context (Hg : ∀ t, improves (terminator_uses t) (terminator_uses (g t).1) (g t).2).
Lemma improves_visit fn : improves (function_uses fn) (function_uses (visit_function f g fn).1)
  (visit_function f g fn).2.
Proof.
  rewrite visit_function_fst, visit_function_snd. apply improves_bind. intros b _.
  rewrite visit_block_fst, visit_block_snd. apply improves_app; [|apply Hg].
  apply improves_bind. intros s _. rewrite visit_statement_fst, visit_statement_snd.
  apply improves_bind. intros o _. apply Hf.
Qed.
End Improves.

Lemma bind_fmap_ext {A B C} (f : A → B) (g : B → list C) (h : A → list C) l :
  (∀ a, g (f a) = h a) → (f <$> l) ≫= g = l ≫= h.
Proof. intros H. induction l as [|a l IH]; [done|]. by rewrite fmap_cons, !bind_cons, H, IH. Qed.
Lemma bind_fmap_fmap {A B C D} (f : A → B) (g : B → list C) (h : A → list D) (k : D → C) l :
  (∀ a, g (f a) = k <$> h a) → (f <$> l) ≫= g = k <$> (l ≫= h).
Proof. intros H. induction l as [|a l IH]; [done|]. by rewrite fmap_cons, !bind_cons, H, IH, fmap_app. Qed.

(** What a visit keeps. *)
Section VisitKeeps.
Context (f : Operand → Operand * bool) (g : Terminator → Terminator * bool).
Context (Hg : ∀ t, (g t).1 = with_uses (condition (g t).1) (return_value (g t).1) (args (g t).1) t).

Lemma visit_statement_defs s : statement_defs (visit_statement f s).1 = statement_defs s.
Proof. by rewrite visit_statement_fst. Qed.
Lemma visit_block_defs b : block_defs (visit_block f g b).1 = block_defs b.
Proof.
  rewrite visit_block_fst. unfold block_defs. cbn [block_statements terminator]. f_equal.
  - apply bind_fmap_ext, visit_statement_defs.
  - by rewrite Hg.
Qed.
Lemma visit_function_defs fn : function_defs (visit_function f g fn).1 = function_defs fn.
Proof.
  rewrite visit_function_fst. unfold function_defs. cbn [blocks with_blocks].
  apply bind_fmap_ext, visit_block_defs.
Qed.
Lemma visit_function_statements fn : function_statements (visit_function f g fn).1 =
  (λ s, (visit_statement f s).1) <$> function_statements fn.
Proof.
  rewrite visit_function_fst. unfold function_statements. cbn [blocks with_blocks].
  apply bind_fmap_fmap. intros b. by rewrite visit_block_fst.
Qed.
Lemma visit_successors fn i b : blocks (visit_function f g fn).1 !! i = Some b →
  ∃ b0, blocks fn !! i = Some b0 ∧ successors (terminator b) = successors (terminator b0).
Proof.
  rewrite visit_function_fst. cbn [blocks with_blocks]. rewrite list_lookup_fmap.
  destruct (blocks fn !! i) as [b0|]; [|done]. intros [= <-]. exists b0. split; [done|].
  rewrite visit_block_fst. cbn [terminator]. by rewrite Hg.
Qed.
End VisitKeeps.

(** ** SSA form is kept *)
Definition counted (f : OptFunction) : Prop := N.of_nat (length (function_uses f)) < 4294967296.
(** What the passes need: SSA form, and as many uses as a counter can count. *)
Definition optimizable (f : OptFunction) : Prop := ssa f ∧ counted f.

Lemma filter_sublist {A} (P Q : A → Prop) `{∀ x, Decision (P x)} `{∀ x, Decision (Q x)} l l' :
  l' `sublist_of` l → (∀ x, P x → Q x) → base.filter P l' `sublist_of` base.filter Q l.
Proof.
  intros Hl HPQ. induction Hl as [|x l l' _ IH|x l l' _ IH]; [done|..]; rewrite !filter_cons.
  - destruct (decide (P x)) as [HP|HP]; [rewrite decide_True by auto; by constructor|].
    destruct (decide (Q x)); [by constructor|done].
  - destruct (decide (Q x)); [by constructor|done].
Qed.
Lemma ssa_weaken f f' : ssa f → arg_count f' = arg_count f → function_uses f' ⊆ function_uses f →
  function_defs f' `sublist_of` function_defs f →
  (∀ i b, blocks f' !! i = Some b →
    ∃ b0, blocks f !! i = Some b0 ∧ successors (terminator b) = successors (terminator b0)) →
  ssa f'.
Proof.
  intros [Hn Hr (rank & Hrank)] Ha Hu Hd Hb.
  assert (Hp : parameters f' ++ function_defs f' `sublist_of` parameters f ++ function_defs f)
    by (unfold parameters; rewrite Ha; by apply sublist_app).
  split.
  - eapply sublist_NoDup; [exact Hn|]. by apply filter_sublist.
  - intros Hk. apply Hr. by eapply elem_of_submseteq, sublist_submseteq.
  - exists rank. intros b block t Hblock Ht. destruct (Hb _ _ Hblock) as (b0 & Hb0 & E).
    eapply Hrank; [done|]. by rewrite <-E.
Qed.

(** ** Constant propagation *)
Section Passes.
Context (rank : LocalRef → nat) (U : list LocalRef).
Lemma propagate_operand_improves known op :
  improves rank U (operand_uses op) (operand_uses (propagate_operand known op).1)
    (propagate_operand known op).2.
Proof.
  unfold propagate_operand. case_bool_decide as Hk; [|apply improves_refl].
  destruct (known !! op_local op) as [c|]; [|apply improves_refl]. intros _.
  unfold operand_uses. cbn [op_kind fst snd]. rewrite (bool_decide_true (op_kind op = _)) by done.
  rewrite bool_decide_false by done. unfold weight. cbn. split_and!; [set_solver|lia|lia].
Qed.
Lemma propagate_in_terminator_improves known t :
  improves rank U (terminator_uses t) (terminator_uses (propagate_in_terminator known t).1)
    (propagate_in_terminator known t).2.
Proof.
  unfold propagate_in_terminator. rewrite (surjective_pairing (visit _ _)), visit_fst, visit_snd.
  unfold terminator_uses. cbn [fst snd with_uses condition return_value args].
  apply (improves_app _ _ _ _ false); [apply improves_refl|].
  apply (improves_app _ _ _ _ false); [apply improves_refl|].
  apply improves_bind. intros o _. apply propagate_operand_improves.
Qed.
Lemma constant_propagation_improves f :
  improves rank U (function_uses f) (function_uses (constant_propagation f).1)
    (constant_propagation f).2.
Proof.
  apply improves_visit; [apply propagate_operand_improves | apply propagate_in_terminator_improves].
Qed.

(** ** Copy propagation *)
Lemma replace_operand_improves x y op : y ∈ U → (x ∈ U → (rank y < rank x)%nat) →
  improves rank U (operand_uses op) (operand_uses (replace_operand x (local_operand y) op).1)
    (replace_operand x (local_operand y) op).2.
Proof.
  intros Hy Hr. unfold replace_operand, operand_uses_local. case_bool_decide as Hk; [|apply improves_refl].
  case_bool_decide as Hx; [|apply improves_refl]. cbn [fst snd andb].
  unfold operand_uses. rewrite (bool_decide_true (op_kind op = _)) by done.
  cbn [op_kind local_operand op_local]. rewrite bool_decide_true by done. rewrite Hx. intros Hu. assert (x ∈ U) by (apply Hu; by left). specialize (Hr H).
  unfold weight. cbn. split_and!; [set_solver|lia|lia].
Qed.
Lemma replace_local_improves x y z : x ≠ kNoLocal → y ∈ U → (x ∈ U → (rank y < rank x)%nat) →
  improves rank U (optional_use z) (optional_use (if bool_decide (z = x) && true then y else z))
    (bool_decide (z = x) && true).
Proof.
  intros Hx Hy Hr. case_bool_decide as Hz; [|apply improves_refl]. subst z. cbn [andb].
  unfold optional_use. rewrite (bool_decide_false (x = _)) by done. cbn. intros Hu.
  assert (x ∈ U) by (apply Hu; by left). specialize (Hr H).
  case_bool_decide; cbn; (split_and!; [set_solver|lia|unfold weight; cbn; lia]).
Qed.
Lemma replace_all_uses_improves x y f : x ≠ kNoLocal → y ∈ U → (x ∈ U → (rank y < rank x)%nat) →
  improves rank U (function_uses f) (function_uses (replace_all_uses x (local_operand y) f).1)
    (replace_all_uses x (local_operand y) f).2.
Proof.
  intros Hx Hy Hr. apply improves_visit; [intros; by apply replace_operand_improves|].
  intros t. unfold replace_in_terminator. rewrite (surjective_pairing (visit _ _)), visit_fst, visit_snd.
  unfold terminator_uses. cbn [fst snd with_uses condition return_value args local_operand op_kind op_local].
  rewrite <-orb_assoc. apply improves_app; [by apply replace_local_improves|].
  apply improves_app; [by apply replace_local_improves|].
  apply improves_bind. intros o _. by apply replace_operand_improves.
Qed.

(** The copies of a function, given by uses in [U], lead to a smaller rank. *)
Definition ranked (f : OptFunction) : Prop := ∀ x y, (x, y) ∈ copies f →
  y ∈ U ∧ x ≠ kNoLocal ∧ (x ∈ U → (rank y < rank x)%nat).

Lemma copy_propagation_improves f : ranked f →
  improves rank U (function_uses f) (function_uses (copy_propagation f).1) (copy_propagation f).2.
Proof.
  unfold copy_propagation, ranked. generalize (copies f). intros l Hl.
  cut (∀ g c, improves rank U (function_uses f) (function_uses g) c →
         improves rank U (function_uses f) (function_uses (foldl replace_copy (g, c) l).1)
           (foldl replace_copy (g, c) l).2).
  { intros H. apply H, improves_refl. }
  induction l as [|[x y] l IH]; intros g c Hg; [done|]. cbn [foldl].
  unfold replace_copy at 2 4. cbn [fst snd]. rewrite (surjective_pairing (replace_all_uses _ _ _)).
  apply IH; [intros; apply Hl; by right|]. destruct (Hl x y) as (? & ? & ?); [by left|].
  eapply improves_trans; [exact Hg|]. by apply replace_all_uses_improves.
Qed.
End Passes.

(** ** Dead store elimination *)
Lemma use_counts_from l counts x : default 0 (foldl count_use counts l !! x) mod 4294967296 =
  (default 0 (counts !! x) + N.of_nat (length (base.filter (λ y, y = x) l))) mod 4294967296.
Proof.
  revert counts. induction l as [|y l IH]; intros counts; cbn [foldl].
  { cbn. by rewrite N.add_0_r. }
  rewrite IH, filter_cons. unfold count_use. destruct (decide (y = x)) as [->|Hne].
  - rewrite lookup_insert_eq. cbn [default length id]. rewrite N.Div0.add_mod_idemp_l.
    f_equal. rewrite Nat2N.inj_succ. lia.
  - by rewrite lookup_insert_ne.
Qed.
Lemma use_counts_small l counts x : default 0 (counts !! x) < 4294967296 →
  default 0 (foldl count_use counts l !! x) < 4294967296.
Proof.
  revert counts. induction l as [|y l IH]; intros counts Hc; [done|]. apply IH. unfold count_use.
  destruct (decide (y = x)) as [->|Hne].
  - rewrite lookup_insert_eq. cbn. by apply N.mod_lt.
  - by rewrite lookup_insert_ne.
Qed.
(** With few enough uses, a count is positive exactly for the locals used. *)
Lemma build_use_counts_spec f x : counted f →
  0 < default 0 (build_use_counts f !! x) ↔ x ∈ function_uses f.
Proof.
  intros Hc. unfold build_use_counts. set (l := function_uses f) in *.
  pose proof (use_counts_from l ∅ x) as H. rewrite lookup_empty in H. cbn [default] in H.
  rewrite N.mod_small in H by (apply use_counts_small; by rewrite lookup_empty).
  pose proof (length_filter (λ y, y = x) l).
  rewrite H, N.mod_small by (unfold counted in Hc; fold l in Hc; lia).
  assert (Hx : x ∈ l ↔ x ∈ base.filter (λ y, y = x) l) by (rewrite list_elem_of_filter; naive_solver).
  rewrite Hx. destruct (base.filter (λ y, y = x) l) as [|z k] eqn:E; cbn.
  - rewrite elem_of_nil. lia.
  - assert (z = x) as -> by (assert (Hz : z ∈ z :: k) by (by left); rewrite <-E in Hz;
      by apply list_elem_of_filter in Hz as [-> _]).
    split; [intros _; by left | lia].
Qed.

Lemma dead_store_elimination_fst f : (dead_store_elimination f).1 =
  with_blocks ((λ b, (eliminate_in_block (build_use_counts f) b).1) <$> blocks f) f.
Proof. unfold dead_store_elimination. by rewrite (surjective_pairing (visit _ _)), visit_fst. Qed.
Lemma dead_store_elimination_snd f : (dead_store_elimination f).2 =
  existsb (λ b, existsb (is_dead_store (build_use_counts f)) (block_statements b)) (blocks f).
Proof. unfold dead_store_elimination. by rewrite (surjective_pairing (visit _ _)), visit_snd. Qed.

Lemma bind_sublist_ext {A B} (f : A → A) (g : A → list B) l :
  (∀ a, g (f a) `sublist_of` g a) → (f <$> l) ≫= g `sublist_of` l ≫= g.
Proof. intros H. induction l as [|a l IH]; [done|]. rewrite fmap_cons, !bind_cons. by apply sublist_app. Qed.
Lemma dead_store_uses f : function_uses (dead_store_elimination f).1 `sublist_of` function_uses f.
Proof.
  rewrite dead_store_elimination_fst. apply bind_sublist_ext. intros b. unfold block_uses.
  cbn [eliminate_in_block fst block_statements terminator]. apply sublist_app; [|done].
  apply bind_sublist, sublist_filter.
Qed.
Lemma dead_store_defs f : function_defs (dead_store_elimination f).1 `sublist_of` function_defs f.
Proof.
  rewrite dead_store_elimination_fst. apply bind_sublist_ext. intros b. unfold block_defs.
  cbn [eliminate_in_block fst block_statements terminator]. apply sublist_app; [|done].
  apply bind_sublist, sublist_filter.
Qed.
Lemma dead_store_statements f :
  function_statements (dead_store_elimination f).1 `sublist_of` function_statements f.
Proof. rewrite dead_store_elimination_fst. apply bind_sublist_ext. intros b. apply sublist_filter. Qed.
Lemma filter_length_exists {A} (p : A → bool) l :
  (length (base.filter (λ a, p a = false) l) + (if existsb p l then 1 else 0) ≤ length l)%nat.
Proof.
  induction l as [|a l IH]; [done|]. rewrite filter_cons. cbn [existsb].
  destruct (p a) eqn:E; [rewrite decide_False by done | rewrite decide_True by done]; cbn [orb length].
  - pose proof (length_filter (λ a, p a = false) l). lia.
  - lia.
Qed.
Lemma dead_store_shrinks f :
  (length (function_statements (dead_store_elimination f).1) +
   (if (dead_store_elimination f).2 then 1 else 0) ≤ length (function_statements f))%nat.
Proof.
  rewrite dead_store_elimination_snd, dead_store_elimination_fst. unfold function_statements.
  cbn [blocks with_blocks]. generalize (build_use_counts f). intros counts.
  induction (blocks f) as [|b l IH]; [done|]. rewrite fmap_cons, !bind_cons, !length_app.
  cbn [eliminate_in_block fst block_statements existsb] in IH |- *.
  pose proof (filter_length_exists (is_dead_store counts) (block_statements b)).
  destruct (existsb (is_dead_store counts) (block_statements b)),
    (existsb (λ b, existsb (is_dead_store counts) (block_statements b)) l); cbn [orb]; lia.
Qed.

Section DeadStores.
Context {V W : Type} (ops : Operations V W) (arguments : list V).
Context (f : OptFunction) (Hcount : counted f).
Implicit Types env : gmap LocalRef V.

Definition agree env env' : Prop := ∀ x, x ∈ function_uses f ∨ x = kNoLocal → env !! x = env' !! x.
Lemma eval_operands_agree env env' l : agree env env' → l ≫= operand_uses ⊆ function_uses f →
  eval_operands (W:=W) ops arguments env l = eval_operands ops arguments env' l.
Proof.
  intros Ha Hu. unfold eval_operands. f_equal. induction l as [|o l IH]; [done|].
  cbn. rewrite bind_cons in Hu. apply list_subseteq_app_iff_l in Hu as [Ho Hl]. rewrite (IH Hl).
  assert (E : eval_operand ops arguments env o = eval_operand ops arguments env' o); [|by rewrite E].
  unfold eval_operand. destruct (op_kind o) eqn:Hk; [|done|done]. apply Ha. left. apply Ho.
  unfold operand_uses. rewrite bool_decide_true by done. by left.
Qed.
Lemma eval_rvalue_agree env env' s : agree env env' → statement_uses s ⊆ function_uses f →
  eval_rvalue (W:=W) ops arguments env (rvalue s) = eval_rvalue ops arguments env' (rvalue s).
Proof. intros Ha Hu. unfold eval_rvalue. by rewrite (eval_operands_agree env env'). Qed.
Lemma agree_insert env env' x v : agree env env' → agree (<[x := v]> env) (<[x := v]> env').
Proof.
  intros Ha y Hy. destruct (decide (x = y)) as [->|]; [by rewrite !lookup_insert_eq|].
  rewrite !lookup_insert_ne by done. auto.
Qed.
Lemma dead_store_spec s : is_dead_store (build_use_counts f) s = true →
  is_assign s = true ∧ dest s ≠ kNoLocal ∧ dest s ∉ function_uses f ∧
  rv_kind (rvalue s) ≠ RvalueKind.Call.
Proof.
  unfold is_dead_store. rewrite !andb_true_iff, !negb_true_iff, !bool_decide_eq_false, N.ltb_ge.
  intros [[[Ha Hn] Hu] Hc]. split_and!; [done|done| |done].
  rewrite <-(build_use_counts_spec f) by done. lia.
Qed.
Lemma pure_rvalue env rv w v w' : rv_kind rv ≠ RvalueKind.Call →
  eval_rvalue ops arguments env rv w ⇓ (v, w') → w' = w.
Proof.
  intros Hk. unfold eval_rvalue, eval_operands, stuck_unless. intros H. inv_eff H.
  assert (w0 = w) as -> by (unfold lift in E; destruct (mapM _ _); by simplify_eq).
  unfold lift in H. destruct (rv_kind rv); try done; by repeat case_match; simplify_eq.
Qed.

Lemma run_statements_dead env env' l : agree env env' → (∀ s, s ∈ l → statement_uses s ⊆ function_uses f) →
  sim agree (run_statements (W:=W) ops arguments env l)
    (run_statements ops arguments env' (base.filter (λ s, is_dead_store (build_use_counts f) s = false) l)).
Proof.
  revert env env'. induction l as [|s l IH]; intros env env' Ha Hu; [by apply sim_ret|].
  assert (Hl : ∀ s, s ∈ l → statement_uses s ⊆ function_uses f) by (intros; apply Hu; by right).
  rewrite filter_cons. destruct (is_dead_store (build_use_counts f) s) eqn:Ed.
  - rewrite decide_False by done. apply dead_store_spec in Ed as (Has & Hn & Hd & Hc).
    cbn [run_statements]. intros w env1 w1 H. inv_eff H. unfold run_statement in E.
    unfold is_assign in Has. apply bool_decide_eq_true in Has. rewrite Has in E. inv_eff E.
    injection E as <- <-. apply pure_rvalue in E0 as ->; [|done]. eapply IH; [|done|exact H].
    intros x Hx. rewrite lookup_insert_ne; [by apply Ha|]. intros <-. naive_solver.
  - rewrite decide_True by done. cbn [run_statements]. apply sim_bind with (R := agree); [|auto].
    unfold run_statement. destruct (st_kind s); try by apply sim_ret.
    apply sim_bind with (R := eq).
    + rewrite (eval_rvalue_agree env env'); [apply sim_refl|done|]. apply Hu. by left.
    + intros v ? <-. by apply sim_ret, agree_insert.
Qed.
Lemma run_terminator_agree env env' t : agree env env' → terminator_uses t ⊆ function_uses f →
  sim (λ r r', match r, r' with
               | inl (b, e), inl (b', e') => b = b' ∧ agree e e'
               | inr o, inr o' => o = o'
               | _, _ => False end)
    (run_terminator (W:=W) ops arguments env t) (run_terminator ops arguments env' t).
Proof.
  intros Ha Hu. unfold terminator_uses in Hu. apply list_subseteq_app_iff_l in Hu as [Hu1 Hu].
  apply list_subseteq_app_iff_l in Hu as [Hu2 Hu3].
  assert (Hl : ∀ x, optional_use x ⊆ function_uses f → env !! x = env' !! x).
  { intros x Hx. apply Ha. destruct (decide (x = kNoLocal)); [by right|left]. by apply optional_use_elem. }
  unfold run_terminator. destruct (tm_kind t); try (by apply sim_ret).
  - unfold eval_condition. rewrite (Hl (condition t)) by done.
    eapply sim_bind; [apply sim_refl|]. intros c ? <-. by apply sim_ret.
  - case_bool_decide; [by apply sim_ret|]. rewrite (Hl (return_value t)) by done.
    eapply sim_bind; [apply sim_refl|]. intros c ? <-. by apply sim_ret.
  - rewrite (eval_operands_agree env env') by done. eapply sim_bind; [apply sim_refl|]. intros vs ? <-.
    eapply sim_bind; [apply sim_refl|]. intros v ? <-. apply sim_ret. split; [done|].
    case_bool_decide; [done|by apply agree_insert].
  - unfold eval_condition. rewrite (Hl (condition t)) by done.
    eapply sim_bind; [apply sim_refl|]. intros [] ? <-; by apply sim_ret.
  - by intros ? ? ?.
Qed.
Lemma run_block_dead fuel b env env' : agree env env' →
  sim eq (run_block ops arguments fuel f b env)
    (run_block ops arguments fuel (dead_store_elimination f).1 b env' : eff W _).
Proof.
  revert b env env'. induction fuel as [|fuel IH]; intros b env env' Ha; [done|]. cbn [run_block].
  assert (Eb' : blocks (dead_store_elimination f).1 !! N.to_nat b =
    (λ b, (eliminate_in_block (build_use_counts f) b).1) <$> blocks f !! N.to_nat b)
    by (rewrite dead_store_elimination_fst; apply list_lookup_fmap).
  rewrite Eb'. destruct (blocks f !! N.to_nat b) as [block|] eqn:Eb; [|done].
  cbn [fmap option_fmap option_map eliminate_in_block fst block_statements terminator].
  assert (Hu : block_uses block ⊆ function_uses f).
  { intros x Hx. apply list_elem_of_bind. exists block. split; [done|by eapply list_elem_of_lookup_2]. }
  unfold block_uses in Hu. apply list_subseteq_app_iff_l in Hu as [Hs Ht].
  eapply sim_bind.
  - apply run_statements_dead; [done|]. intros s Hin. etrans; [|exact Hs]. intros x Hx.
    apply list_elem_of_bind. eauto.
  - intros env1 env1' Ha1. eapply sim_bind; [by apply run_terminator_agree|].
    intros [[c e]|o] [[c' e']|o']; try done; [|intros ->; apply sim_refl].
    intros [<- He]. by apply IH.
Qed.
Lemma dead_store_preserves fuel w r :
  run_function ops arguments fuel f w ⇓ r →
  run_function (W:=W) ops arguments fuel (dead_store_elimination f).1 w ⇓ r.
Proof.
  destruct r as [o w1]. intros H. apply run_block_dead with (env' := initial_env arguments) in H; [|done].
  by destruct H as (? & ? & <-).
Qed.
End DeadStores.
