(* ===== verification/OptimizeProps.v ===== *)
(** * The optimizer loop: it returns, with an equivalent function

    [optimize] on a function whose copies do not form a cycle of used locals
    returns; on any function in SSA form, what it returns has the results of
    the original.  The examples show that both conditions are needed. *)
From S2P Require Import Prelude Numeric Ir OptIr OptPasses OptSemantics OptPropagation OptPassesProps.
From Stdlib Require Import NArith.
Import Opt.
Open Scope N_scope.

(** ** Copies after a pass *)
Lemma is_local_copy_spec rv y : is_local_copy rv = Some y ↔
  rv_kind rv = RvalueKind.Use ∧ ∃ op, operands rv = [op] ∧ op_kind op = OperandKind.Local_ ∧ op_local op = y.
Proof.
  unfold is_local_copy. case_bool_decide as Hk; simpl; [|naive_solver].
  destruct (operands rv) as [|o [|]]; [naive_solver| |naive_solver].
  case_bool_decide; naive_solver.
Qed.
Section VisitCopies.
Context (f : Operand → Operand * bool) (g : Terminator → Terminator * bool).
Context (Hg : ∀ t, (g t).1 = with_uses (condition (g t).1) (return_value (g t).1) (args (g t).1) t).
Lemma visit_copies fn x y : (x, y) ∈ copies (visit_function f g fn).1 →
  ∃ s op, s ∈ function_statements fn ∧ is_assign s = true ∧ dest s = x ∧
    rv_kind (rvalue s) = RvalueKind.Use ∧ operands (rvalue s) = [op] ∧
    op_kind (f op).1 = OperandKind.Local_ ∧ op_local (f op).1 = y.
Proof.
  intros (s' & Hs & Ha & (Hk & op' & Ho & Hl & <-)%is_local_copy_spec & <-)%copies_elem.
  rewrite visit_function_statements in Hs by done. apply list_elem_of_fmap in Hs as (s & -> & Hs).
  rewrite visit_statement_fst in *. cbn [rvalue with_rvalue with_operands operands rv_kind] in *.
  destruct (operands (rvalue s)) as [|op [|]] eqn:E; [done| |done]. injection Ho as <-.
  exists s, op. by split_and!.
Qed.
Lemma visit_ssa rank U fn c :
  improves rank U (function_uses fn) (function_uses (visit_function f g fn).1) c →
  U = function_uses fn → optimizable fn → optimizable (visit_function f g fn).1.
Proof.
  intros Hi HU [Hs Hc]. destruct Hi as (Hsub & Hlen & _); [by rewrite HU|]. split; [|unfold counted in *; lia].
  apply (ssa_weaken fn); [done| | | |].
  - by rewrite visit_function_fst.
  - by rewrite <-HU.
  - by rewrite visit_function_defs.
  - by apply visit_successors.
Qed.
End VisitCopies.

Lemma propagate_keeps known t : (propagate_in_terminator known t).1 =
  with_uses (condition (propagate_in_terminator known t).1) (return_value (propagate_in_terminator known t).1)
    (args (propagate_in_terminator known t).1) t.
Proof. unfold propagate_in_terminator. by rewrite (surjective_pairing (visit _ _)). Qed.
Lemma replace_keeps x op t : (replace_in_terminator x op t).1 =
  with_uses (condition (replace_in_terminator x op t).1) (return_value (replace_in_terminator x op t).1)
    (args (replace_in_terminator x op t).1) t.
Proof. unfold replace_in_terminator. by rewrite (surjective_pairing (visit _ _)). Qed.

(** ** Each pass keeps the form that the passes need *)
Definition trivial_rank (_ : LocalRef) : nat := 0.
Lemma constant_propagation_optimizable f : optimizable f → optimizable (constant_propagation f).1.
Proof.
  eapply (visit_ssa _ _ (propagate_keeps _) trivial_rank (function_uses f)); [|done].
  apply constant_propagation_improves.
Qed.
Lemma dead_store_optimizable f : optimizable f → optimizable (dead_store_elimination f).1.
Proof.
  intros [Hs Hc]. pose proof (dead_store_uses f) as Hu. split.
  - apply (ssa_weaken f); [done| | | |].
    + by rewrite dead_store_elimination_fst.
    + intros x Hx. by eapply elem_of_submseteq, sublist_submseteq.
    + apply dead_store_defs.
    + intros i b. rewrite dead_store_elimination_fst. cbn [blocks with_blocks]. rewrite list_lookup_fmap.
      destruct (blocks f !! i) as [b0|]; [|done]. intros [= <-]. by exists b0.
  - unfold counted in *. apply sublist_length in Hu. lia.
Qed.

(** The intermediate functions of copy propagation. *)
Record copying (f g : OptFunction) : Prop := {
  copying_uses : function_uses g ⊆ function_uses f;
  copying_count : (length (function_uses g) ≤ length (function_uses f))%nat;
  copying_defs : function_defs g = function_defs f;
  copying_args : arg_count g = arg_count f;
  copying_successors : ∀ i b, blocks g !! i = Some b →
    ∃ b0, blocks f !! i = Some b0 ∧ successors (terminator b) = successors (terminator b0) }.
Lemma copying_refl f : copying f f.
Proof. split; [done|done|done|done|]. eauto. Qed.
(** Whatever the source of a copy, replacing adds no uses. *)
Lemma visit_function_ext f f' g g' fn : (∀ op, (f op).1 = (f' op).1) → (∀ t, (g t).1 = (g' t).1) →
  (visit_function f g fn).1 = (visit_function f' g' fn).1.
Proof.
  intros Hf Hg. rewrite !visit_function_fst. f_equal. apply list_fmap_ext. intros i b _.
  rewrite !visit_block_fst, Hg. f_equal. apply list_fmap_ext. intros j s _.
  rewrite !visit_statement_fst. do 2 f_equal. apply list_fmap_ext. intros k o _. apply Hf.
Qed.
Lemma replace_all_uses_contained U x y f : x ≠ kNoLocal → y ∈ U →
  improves trivial_rank U (function_uses f) (function_uses (replace_all_uses x (local_operand y) f).1) false.
Proof.
  intros Hx Hy. set (fo := λ op, ((replace_operand x (local_operand y) op).1, false)).
  set (go := λ t, ((replace_in_terminator x (local_operand y) t).1, false)).
  unfold replace_all_uses. rewrite (visit_function_ext _ fo _ go) by done.
  assert (Hf : ∀ op, improves trivial_rank U (operand_uses op) (operand_uses (fo op).1) (fo op).2).
  { intros op. unfold fo, replace_operand. cbn [fst snd]. destruct (operand_uses_local op x) eqn:E;
      [|apply improves_refl]. unfold operand_uses_local in E. apply andb_true_iff in E as [E _].
    intros _. unfold operand_uses. rewrite E. cbn [op_kind local_operand op_local].
    rewrite bool_decide_true by done. unfold weight. cbn. split_and!; [set_solver|lia|lia]. }
  assert (Hl : ∀ z, improves trivial_rank U (optional_use z)
    (optional_use (if bool_decide (z = x) && true then y else z)) false).
  { intros z. case_bool_decide as Hz; [|apply improves_refl]. subst z. cbn [andb]. intros Hu.
    unfold optional_use. rewrite (bool_decide_false (x = _)) by done. unfold weight.
    case_bool_decide; cbn; (split_and!; [set_solver|lia|lia]). }
  assert (Hg : ∀ t, improves trivial_rank U (terminator_uses t) (terminator_uses (go t).1) (go t).2).
  { intros t. unfold go, replace_in_terminator. rewrite (surjective_pairing (visit _ _)), visit_fst.
    unfold terminator_uses. cbn [fst snd with_uses condition return_value args local_operand op_kind op_local].
    apply (improves_app _ _ _ _ false _ _ false); [apply Hl|].
    apply (improves_app _ _ _ _ false _ _ false); [apply Hl|].
    pose proof (improves_bind trivial_rank U fo operand_uses (args t) (λ o _, Hf o)) as H.
    intros Hu. destruct (H Hu) as (? & ? & H3). split_and!; [done|done|]. etrans; [|exact H3].
    apply Nat.add_le_mono; [done|apply Nat.le_0_l]. }
  intros Hu. destruct (improves_visit trivial_rank U fo go Hf Hg f Hu) as (? & ? & H3).
  split_and!; [done|done|]. etrans; [|exact H3]. apply Nat.add_le_mono; [done|apply Nat.le_0_l].
Qed.
Lemma copying_replace f g x y : x ≠ kNoLocal → y ∈ function_uses f → copying f g →
  copying f (replace_all_uses x (local_operand y) g).1.
Proof.
  intros Hx Hy [Hu Hc Hd Ha Hs].
  destruct (replace_all_uses_contained (function_uses f) x y g Hx Hy Hu) as (Hu' & Hc' & _).
  unfold replace_all_uses in *. split; [done|lia| | |].
  - rewrite visit_function_defs; [done|]. apply replace_keeps.
  - by rewrite visit_function_fst.
  - intros i b Hb. apply visit_successors in Hb as (b0 & Hb0 & E); [|apply replace_keeps].
    destruct (Hs _ _ Hb0) as (b1 & ? & ?). exists b1. split; [done|congruence].
Qed.
Lemma copy_source f x y : (x, y) ∈ copies f → y ∈ function_uses f.
Proof. intros (s & Hs & Ha & Hc & _)%copies_elem. by apply (copy_source_used f _ eq_refl s). Qed.
Lemma copy_propagation_copying f : ssa f → copying f (copy_propagation f).1.
Proof.
  intros Hssa. unfold copy_propagation.
  assert (Hl : ∀ x y, (x, y) ∈ copies f → x ≠ kNoLocal ∧ y ∈ function_uses f)
    by (intros x y Hxy; split; [by eapply copy_dest_real | by eapply copy_source]).
  revert Hl. generalize (copies f). intros l Hl. pose proof (copying_refl f) as Hf.
  revert Hf. generalize f at 2 4 as g. generalize false.
  induction l as [|[x y] l IH]; intros c g Hg; [done|]. cbn [foldl].
  unfold replace_copy at 2. cbn [fst snd]. rewrite (surjective_pairing (replace_all_uses _ _ _)).
  apply IH; [intros; apply Hl; by right|]. destruct (Hl x y); [by left|]. by apply copying_replace.
Qed.
Lemma copy_propagation_optimizable f : optimizable f → optimizable (copy_propagation f).1.
Proof.
  intros [Hs Hc]. destruct (copy_propagation_copying f Hs) as [Hu Hn Hd Ha Hb].
  split; [|unfold counted in *; lia]. by apply (ssa_weaken f); [| | |rewrite Hd|].
Qed.

(** ** An unchanged function *)
Lemma visit_function_unchanged f g fn : (∀ op, (f op).2 = false → (f op).1 = op) →
  (∀ t, (g t).2 = false → (g t).1 = t) →
  (visit_function f g fn).2 = false → (visit_function f g fn).1 = fn.
Proof.
  intros Hf Hg. unfold visit_function. rewrite (surjective_pairing (visit _ _)). cbn [fst snd].
  intros H. rewrite visit_unchanged; [by destruct fn| |done]. intros b _. unfold visit_block.
  rewrite (surjective_pairing (visit _ _)), (surjective_pairing (g _)). cbn [fst snd].
  intros [Hs Ht]%orb_false_iff. rewrite (Hg _ Ht). rewrite visit_unchanged; [by destruct b| |done].
  intros s _. unfold visit_statement. rewrite (surjective_pairing (visit _ _)). cbn [fst snd].
  intros Ho. rewrite visit_unchanged; [by destruct s as [? ? [] ?]| |done]. intros o _. apply Hf.
Qed.
Lemma constant_propagation_unchanged f : (constant_propagation f).2 = false → (constant_propagation f).1 = f.
Proof.
  apply visit_function_unchanged.
  - intros op. unfold propagate_operand. case_bool_decide; [|done]. by destruct (_ !! _).
  - intros t. unfold propagate_in_terminator. rewrite (surjective_pairing (visit _ _)). cbn [fst snd].
    intros H. rewrite visit_unchanged; [by destruct t| |done]. intros op _. unfold propagate_operand.
    case_bool_decide; [|done]. by destruct (_ !! _).
Qed.
Lemma replace_unchanged x y f : (replace_all_uses x (local_operand y) f).2 = false →
  (replace_all_uses x (local_operand y) f).1 = f.
Proof.
  apply visit_function_unchanged.
  - intros op. unfold replace_operand. by destruct (operand_uses_local op x).
  - intros t. unfold replace_in_terminator. rewrite (surjective_pairing (visit _ _)). cbn [fst snd].
    intros [[Hc Hr]%orb_false_iff Ha]%orb_false_iff. rewrite Hc, Hr.
    rewrite visit_unchanged; [by destruct t| |done]. intros op _. unfold replace_operand.
    by destruct (operand_uses_local op x).
Qed.
Lemma copy_propagation_unchanged f : (copy_propagation f).2 = false → (copy_propagation f).1 = f.
Proof.
  unfold copy_propagation. generalize (copies f). intros l.
  cut (∀ g c, (foldl replace_copy (g, c) l).2 = false → (foldl replace_copy (g, c) l).1 = g ∧ c = false).
  { intros H ?. by apply H. }
  induction l as [|[x y] l IH]; intros g c; [done|]. cbn [foldl]. unfold replace_copy at 2 4.
  cbn [fst snd]. rewrite (surjective_pairing (replace_all_uses _ _ _)). intros [-> Hc]%IH.
  apply orb_false_iff in Hc as [-> Hc]. by rewrite replace_unchanged.
Qed.
Lemma dead_store_unchanged f : (dead_store_elimination f).2 = false → (dead_store_elimination f).1 = f.
Proof.
  unfold dead_store_elimination. rewrite (surjective_pairing (visit _ _)). cbn [fst snd].
  intros H. rewrite visit_unchanged; [by destruct f| |done]. intros b _. unfold eliminate_in_block.
  cbn [fst snd]. intros Hb. rewrite filter_all; [by destruct b|]. intros s Hs.
  destruct (is_dead_store _ s) eqn:E; [|done]. rewrite <-Hb. symmetry. apply existsb_exists.
  exists s. split; [by apply list_elem_of_In|done].
Qed.

(** ** One round *)
Definition const_pass f := (constant_propagation f).1.
Definition copy_pass f := (copy_propagation f).1.
Definition store_pass f := (dead_store_elimination f).1.
Lemma optimize_round_eq f : optimize_round f =
  (store_pass (copy_pass (const_pass f)),
   (constant_propagation f).2 || (copy_propagation (const_pass f)).2 ||
   (dead_store_elimination (copy_pass (const_pass f))).2).
Proof.
  unfold optimize_round, store_pass, copy_pass, const_pass.
  rewrite (surjective_pairing (constant_propagation f)). cbn [fst snd].
  rewrite (surjective_pairing (copy_propagation _)). cbn [fst snd].
  by rewrite (surjective_pairing (dead_store_elimination _)).
Qed.
Lemma optimize_round_unchanged f : (optimize_round f).2 = false → optimize_round f = (f, false).
Proof.
  rewrite optimize_round_eq. cbn [snd]. intros [[H1 H2]%orb_false_iff H3]%orb_false_iff.
  rewrite H1, H2, H3. unfold store_pass. rewrite dead_store_unchanged by done.
  unfold copy_pass. rewrite copy_propagation_unchanged by done.
  unfold const_pass. by rewrite constant_propagation_unchanged.
Qed.

(** ** Termination *)
Section Measure.
Context (rank : LocalRef → nat) (U : list LocalRef).

Lemma const_pass_ranked f : ranked rank U f → ranked rank U (const_pass f).
Proof.
  intros Hr x y Hxy. apply visit_copies in Hxy as (s & op & Hs & Ha & Hd & Hk & Ho & Hl & Hy).
  apply Hr, copies_elem. exists s. split_and!; [done|done| |done]. apply is_local_copy_spec.
  split; [done|]. exists op. revert Hl Hy. unfold propagate_operand. case_bool_decide; [|done].
  by destruct (_ !! _).
Qed.
Lemma replace_ranked f x y : ranked rank U f → y ∈ U → (x ∈ U → (rank y < rank x)%nat) →
  ranked rank U (replace_all_uses x (local_operand y) f).1.
Proof.
  intros Hr Hy Hxy a b Hab. apply visit_copies in Hab as (s & op & Hs & Ha & Hd & Hk & Ho & Hl & Hb).
  assert (Hc : ∀ z, op_kind op = OperandKind.Local_ → op_local op = z → (a, z) ∈ copies f).
  { intros z Hop Hz. apply copies_elem. exists s. split_and!; [done|done| |done].
    apply is_local_copy_spec. eauto. }
  revert Hl Hb. unfold replace_operand. destruct (operand_uses_local op x) eqn:E; cbn; [|intros; by apply Hr, Hc].
  intros _ <-. unfold operand_uses_local in E. apply andb_true_iff in E as [E1 E2].
  apply bool_decide_eq_true in E1, E2. destruct (Hr a x (Hc x E1 E2)) as (Hx & Hn & Hlt).
  split_and!; [done|done|]. intros Ha'. specialize (Hlt Ha'). specialize (Hxy Hx). lia.
Qed.
Lemma copy_pass_ranked f : ranked rank U f → ranked rank U (copy_pass f).
Proof.
  intros Hf. unfold copy_pass, copy_propagation. pose proof Hf as Hl. unfold ranked in Hl.
  revert Hl. generalize (copies f). intros l Hl. revert Hf. generalize f at 1 2 as g. generalize false.
  induction l as [|[x y] l IH]; intros c g Hg; [done|]. cbn [foldl]. unfold replace_copy at 2.
  cbn [fst snd]. rewrite (surjective_pairing (replace_all_uses _ _ _)).
  apply IH; [intros; apply Hl; by right|]. destruct (Hl x y) as (? & ? & ?); [by left|].
  by apply replace_ranked.
Qed.
Lemma store_pass_ranked f : ranked rank U f → ranked rank U (store_pass f).
Proof.
  intros Hf x y (s & Hs & H)%copies_elem. apply Hf, copies_elem. exists s. split; [|done].
  eapply elem_of_submseteq; [done|]. apply sublist_submseteq, dead_store_statements.
Qed.

Definition measure (f : OptFunction) : nat :=
  weight rank (function_uses f) + length (function_statements f).
Lemma weight_sublist l l' : l `sublist_of` l' → (weight rank l ≤ weight rank l')%nat.
Proof. unfold weight. induction 1; rewrite ?fmap_cons; cbn; lia. Qed.
Lemma visit_length f g fn : length (function_statements (visit_function f g fn).1) =
  length (function_statements fn).
Proof.
  rewrite visit_function_fst. unfold function_statements. cbn [blocks with_blocks].
  induction (blocks fn) as [|b l IH]; [done|]. rewrite fmap_cons, !bind_cons, !length_app, IH.
  by rewrite visit_block_fst; cbn [block_statements]; rewrite length_fmap.
Qed.
Lemma copy_pass_length f : length (function_statements (copy_pass f)) = length (function_statements f).
Proof.
  unfold copy_pass, copy_propagation. generalize (copies f) as l. intros l.
  generalize false. generalize f as g. induction l as [|[x y] l IH]; intros g c; [done|].
  cbn [foldl]. unfold replace_copy at 2. rewrite (surjective_pairing (replace_all_uses _ _ _)), IH.
  apply visit_length.
Qed.

Lemma optimize_round_shrinks f : function_uses f ⊆ U → ranked rank U f →
  function_uses (optimize_round f).1 ⊆ U ∧ ranked rank U (optimize_round f).1 ∧
  (measure (optimize_round f).1 + (if (optimize_round f).2 then 1 else 0) ≤ measure f)%nat.
Proof.
  intros Hu Hr. rewrite optimize_round_eq. cbn [fst snd]. unfold measure.
  destruct (constant_propagation_improves rank U f Hu) as (Hu1 & _ & H1). fold (const_pass f) in *.
  pose proof (const_pass_ranked f Hr) as Hr1.
  destruct (copy_propagation_improves rank U (const_pass f) Hr1 Hu1) as (Hu2 & _ & H2).
  fold (copy_pass (const_pass f)) in *. pose proof (copy_pass_ranked _ Hr1) as Hr2.
  pose proof (dead_store_uses (copy_pass (const_pass f))) as Hs.
  pose proof (dead_store_shrinks (copy_pass (const_pass f))) as H3.
  fold (store_pass (copy_pass (const_pass f))) in *.
  split_and!; [|by apply store_pass_ranked|].
  - intros x Hx. apply Hu2. by eapply elem_of_submseteq, sublist_submseteq.
  - apply weight_sublist in Hs. rewrite copy_pass_length in H3.
    assert (length (function_statements (const_pass f)) = length (function_statements f)) by apply visit_length.
    destruct (constant_propagation f).2, (copy_propagation (const_pass f)).2,
      (dead_store_elimination (copy_pass (const_pass f))).2; simpl in *; lia.
Qed.
Lemma optimize_returns fuel f : function_uses f ⊆ U → ranked rank U f → (measure f < fuel)%nat →
  ∃ f' c, optimize fuel f ⇓ (f', c) ∧ optimize_round f' = (f', false).
Proof.
  revert f. induction fuel as [|fuel IH]; intros f Hu Hr Hm; [lia|]. cbn [optimize].
  destruct (optimize_round_shrinks f Hu Hr) as (Hu' & Hr' & Hm').
  rewrite (surjective_pairing (optimize_round f)). destruct (optimize_round f).2 eqn:E.
  - destruct (IH (optimize_round f).1 Hu' Hr') as (f' & c & -> & Hf'); [lia|]. simpl. eauto.
  - apply optimize_round_unchanged in E. rewrite E. simpl. eauto.
Qed.
End Measure.

(** ** Results *)
Section Results.
Context {V W : Type} (ops : Operations V W) (arguments : list V).

Lemma copy_propagation_matches f : ssa f →
  function_matches ops arguments (consistent (W:=W) ops f (function_uses f)) f (copy_pass f).
Proof.
  intros Hssa. unfold copy_pass, copy_propagation.
  set (R := function_matches ops arguments (consistent (W:=W) ops f (function_uses f))).
  assert (HR : R f f).
  { unfold R, function_matches. apply Forall_Forall2_diag, Forall_forall. intros b _. split.
    - apply Forall_Forall2_diag, Forall_forall. intros s _. apply statement_matches_refl.
    - assert (Hl : ∀ z, local_matches (consistent (W:=W) ops f (function_uses f)) z z)
        by (intros z; apply local_matches_refl; by intros env []).
      split; [by destruct (terminator b)|done| |by apply Forall_Forall2_diag, Forall_forall].
      by destruct (decide _). }
  assert (Hin : ∀ x y, (x, y) ∈ copies f → (x, y) ∈ copies f) by done. revert Hin.
  generalize (copies f) at 1 3 as l. intros l Hin.
  pose proof (copying_refl f) as Hc. revert HR Hc. generalize false. generalize f at 2 4 6 as g.
  induction l as [|[x y] l IH]; intros g c HR Hc; [done|]. cbn [foldl].
  unfold replace_copy at 2. rewrite (surjective_pairing (replace_all_uses _ _ _)). cbn [fst snd].
  assert (Hxy : (x, y) ∈ copies f) by (apply Hin; by left).
  apply IH; [intros; apply Hin; by right| |].
  - unfold R in *. etrans; [exact HR|]. apply replace_all_uses_matches; [done|done|]. apply Hc.
  - apply copying_replace; [by eapply copy_dest_real | by eapply copy_source | done].
Qed.

Lemma round_preserves f fuel w r : optimizable f → N.of_nat (length arguments) = arg_count f →
  run_function ops arguments fuel f w ⇓ r →
  run_function ops arguments fuel (optimize_round f).1 w ⇓ r.
Proof.
  intros Hf Hlen H. rewrite optimize_round_eq. cbn [fst].
  pose proof (constant_propagation_optimizable f Hf) as Hf1. fold (const_pass f) in Hf1.
  pose proof (copy_propagation_optimizable _ Hf1) as Hf2. fold (copy_pass (const_pass f)) in Hf2.
  apply dead_store_preserves; [apply Hf2|].
  apply (matches_preserves _ _ (const_pass f)); [apply Hf1| |by apply copy_propagation_matches, Hf1|].
  - rewrite Hlen. unfold const_pass, constant_propagation. by rewrite visit_function_fst.
  - apply (matches_preserves _ _ f); [apply Hf|done|apply constant_propagation_matches|done].
Qed.
Lemma round_args f : arg_count (optimize_round f).1 = arg_count f.
Proof.
  rewrite optimize_round_eq. cbn [fst]. unfold store_pass. rewrite dead_store_elimination_fst.
  cbn [arg_count with_blocks]. unfold copy_pass.
  assert (Hc : ∀ g, arg_count (copy_propagation g).1 = arg_count g).
  { intros g. unfold copy_propagation. generalize (copies g) as l. intros l. generalize false.
    revert g. induction l as [|[x y] l IH]; intros g c; [done|]. cbn [foldl]. unfold replace_copy at 2.
    rewrite (surjective_pairing (replace_all_uses _ _ _)), IH. unfold replace_all_uses.
    by rewrite visit_function_fst. }
  rewrite Hc. unfold const_pass, constant_propagation. by rewrite visit_function_fst.
Qed.
Lemma round_optimizable f : optimizable f → optimizable (optimize_round f).1.
Proof.
  intros Hf. rewrite optimize_round_eq. cbn [fst].
  by apply dead_store_optimizable, copy_propagation_optimizable, constant_propagation_optimizable.
Qed.
End Results.

Lemma optimize_optimizable rounds f f' changed :
  optimizable f → optimize rounds f ⇓ (f', changed) → optimizable f'.
Proof.
  revert f changed. induction rounds as [|rounds IH]; intros f changed Hf; [done|]. cbn [optimize].
  rewrite (surjective_pairing (optimize_round f)). apply round_optimizable in Hf. destruct (optimize_round f).2.
  - intros H. destruct (optimize rounds (optimize_round f).1) as [[g c]| |] eqn:E; [|done|done].
    injection H as -> <-. by eapply IH.
  - by intros [= <- <-].
Qed.
Lemma optimize_keeps_results {V W} (ops : Operations V W) arguments f f' changed rounds fuel w r :
  optimizable f → N.of_nat (length arguments) = arg_count f →
  optimize rounds f ⇓ (f', changed) →
  run_function ops arguments fuel f w ⇓ r →
  optimizable f' ∧ run_function ops arguments fuel f' w ⇓ r.
Proof.
  revert f changed. induction rounds as [|rounds IH]; intros f changed Hf Hlen; [done|]. cbn [optimize].
  rewrite (surjective_pairing (optimize_round f)). destruct (optimize_round f).2.
  - intros H Hr. destruct (optimize rounds (optimize_round f).1) as [[g c]| |] eqn:E; [|done|done].
    injection H as -> <-. apply (IH _ c (round_optimizable f Hf)); [by rewrite round_args|done|].
    by apply round_preserves.
  - intros [= <- <-] Hr. split; [by apply round_optimizable | by apply round_preserves].
Qed.

(** ** The properties *)

(** The optimizer loop returns.  If a rank of the locals decreases along
    every copy [x = y] of a used local [x], then as many rounds as the sum of
    the uses, each weighed by its rank, and of the statements are enough, and
    the function it returns is one that no pass changes any more. *)
Theorem optimize_terminates (rank : LocalRef → nat) f fuel :
  (∀ x y, (x, y) ∈ copies f → x ≠ kNoLocal ∧ (x ∈ function_uses f → (rank y < rank x)%nat)) →
  (measure rank f < fuel)%nat →
  ∃ f' changed, optimize fuel f ⇓ (f', changed) ∧ optimize_round f' = (f', false).
Proof.
  intros Hr Hm. apply (optimize_returns rank (function_uses f)); [done| |done].
  intros x y Hxy. destruct (Hr x y Hxy) as [? ?]. eauto using copy_source.
Qed.

(** C23: The optimizer keeps results: whatever operators, calls and constants
    mean, if a function in SSA form returns or fails an assertion, the
    function that the optimizer makes of it does the same, with the same calls
    made in the same order; it is in SSA form again. *)
Theorem optimize_preserves_results {V W} (ops : Operations V W) arguments f f' changed rounds fuel w r :
  optimizable f → N.of_nat (length arguments) = arg_count f →
  optimize rounds f ⇓ (f', changed) →
  run_function ops arguments fuel f w ⇓ r →
  optimizable f' ∧ run_function ops arguments fuel f' w ⇓ r.
Proof. apply optimize_keeps_results. Qed.

(** ** Witnesses: a function that branches on its argument *)
Definition use_of (ref : LocalRef) : Operand := local_operand ref.
Definition constant (c : Constant) : Operand := mkOperand OperandKind.Constant kNoLocal c 0.
Definition rvalue_of (kind : RvalueKind.t) (op callee : string) (l : list Operand) : Rvalue :=
  mkRvalue kind op callee "" l default_type_ref.
Definition assign (x : LocalRef) (rv : Rvalue) : Statement := mkStatement StatementKind.Assign x rv None.
Definition returning (x : LocalRef) : Terminator :=
  mkTerminator TerminatorKind.Return kNoLocal x 0 0 0 "" [] kNoLocal 0 None.
Definition branching (x : LocalRef) (b c : BlockId) : Terminator :=
  mkTerminator TerminatorKind.SwitchBool x kNoLocal 0 b c "" [] kNoLocal 0 None.
Definition going (b : BlockId) : Terminator :=
  mkTerminator TerminatorKind.Goto kNoLocal kNoLocal b 0 0 "" [] kNoLocal 0 None.
Definition with_code (l : list (list Statement * Terminator)) : OptFunction :=
  mkOptFunction "sample" [] 1 (imap (λ i c, mkBasicBlock (N.of_nat i) "" c.1 c.2) l) default_type_ref None.
Definition sample_function : OptFunction := with_code
  [([assign 1 (rvalue_of RvalueKind.Use "" "" [constant (CInt 7)]);
     assign 2 (rvalue_of RvalueKind.Use "" "" [use_of 1]);
     assign 3 (rvalue_of RvalueKind.BinaryOp "eq" "" [use_of 0; use_of 2])], branching 3 1 2);
   ([assign 4 (rvalue_of RvalueKind.BinaryOp "add" "" [use_of 0; use_of 2])], returning 4);
   ([assign 5 (rvalue_of RvalueKind.Call "" "tick" [use_of 2])], returning 5)].
(** Integers, with a call that counts its runs in the world. *)
Definition sample_operations : Operations Z Z := mkOperations Z Z
  (λ c, match c with CInt z => z | _ => 0 end)%Z
  (λ v, Some (negb (v =? 0)%Z))
  (λ _ op _ _ vs, match vs with
                  | [a; b] => Some (if bool_decide (op = "eq") then (if (a =? b)%Z then 1 else 0)
                                    else a + b)%Z
                  | _ => None
                  end)
  (λ _ _ w, Ret (w, w + 1)%Z).

Lemma optimize_terminates_witness : ∃ f' changed,
  optimize 40 sample_function ⇓ (f', changed) ∧ optimize_round f' = (f', false).
Proof.
  apply (optimize_terminates N.to_nat).
  - intros x y Hxy. vm_compute in Hxy. apply list_elem_of_singleton in Hxy. injection Hxy as -> ->.
    split; [done|]. intros _. lia.
  - vm_compute. lia.
Defined.
Lemma sample_optimizable : optimizable sample_function.
Proof.
  split; [split|].
  - apply (bool_decide_unpack (NoDup _)). by vm_compute.
  - apply (bool_decide_unpack (¬ _)). by vm_compute.
  - exists (λ b, 4 - N.to_nat b)%nat. intros b block t Hb Ht.
    destruct (N.to_nat b) as [|[|[|n]]] eqn:E; simpl in Hb; try done; injection Hb as <-; set_solver by lia.
  - by vm_compute.
Qed.
Lemma optimize_preserves_results_witness : ∃ f',
  optimize 20 sample_function ⇓ (f', true) ∧ f' ≠ sample_function ∧
  run_function sample_operations [5%Z] 9 f' 40%Z ⇓ (Returned (Some 40%Z), 41%Z).
Proof.
  eexists. split; [by vm_compute|]. split; [by intros [=]|].
  eapply (optimize_preserves_results sample_operations [5%Z] sample_function _ true 20);
    [exact sample_optimizable | by vm_compute | by vm_compute | by vm_compute].
Defined.

(** Without a single definition, constant propagation picks the last one: the
    pass does not check what its comment says. *)
Definition twice_defined : OptFunction := with_code
  [([], branching 0 1 2);
   ([assign 1 (rvalue_of RvalueKind.Use "" "" [constant (CInt 10)])], going 3);
   ([assign 1 (rvalue_of RvalueKind.Use "" "" [constant (CInt 20)])], going 3);
   ([assign 2 (rvalue_of RvalueKind.BinaryOp "add" "" [use_of 1; use_of 1])], returning 2)].
Example two_definitions_break_propagation :
  run_function sample_operations [1%Z] 9 twice_defined 0%Z ⇓ (Returned (Some 20%Z), 0%Z) ∧
  run_function sample_operations [1%Z] 9 (constant_propagation twice_defined).1 0%Z
    ⇓ (Returned (Some 40%Z), 0%Z).
Proof. by vm_compute. Qed.

(** A copy of a local to itself is replaced by itself for ever. *)
Definition self_copy : OptFunction := with_code
  [([assign 0 (rvalue_of RvalueKind.Use "" "" [use_of 0])], returning 0)].
Example self_copy_never_ends fuel : optimize fuel self_copy = NoFuel.
Proof.
  induction fuel as [|fuel IH]; [done|]. cbn [optimize].
  assert (E : optimize_round self_copy = (self_copy, true)) by by vm_compute. rewrite E. by rewrite IH.
Qed.
