(* ===== verification/OptLower.v ===== *)
(** * Lowering to the optimization IR (src/compiler/ir/opt/opt_lower.cpp)

    A [LoweringContext] builds one function: blocks and locals are appended to
    its vectors, statements to its current block.  It is the state of the
    lowering.  Indexing the blocks out of range would be undefined; that it
    never happens is a lemma of [OptLowerProps].  [clone_type_ref] makes a deep
    copy: types are immutable values here and need none. *)
From S2P Require Import Prelude Numeric Ir OptIr.
From Stdlib Require Import NArith.
Import Opt.
Open Scope N_scope.

Record RootTypeHints := mkRootTypeHints {
  hint_input : option TypeRef;
  hint_context : option TypeRef;
  hint_output : option TypeRef;
  extra_arguments : list (string * TypeRef) }.
Definition no_hints : RootTypeHints := mkRootTypeHints None None None [].

Definition has_resolved_type (type : TypeRef) : bool :=
  negb (bool_decide (type_kind type = TypeRefKind.Unresolved)).
Definition resolved_type (e : Expr) : TypeRef := match e with mkExpr _ _ t _ => t end.
Definition expr_source_range (e : Expr) : option SourceRange := match e with mkExpr _ r _ _ => r end.
Definition type_or_unresolved (expr : ExprRef) : TypeRef :=
  match expr with Some e => resolved_type e | None => default_type_ref end.
Definition string_type_ref : TypeRef := mkTypeRef TypeRefKind.String "String" "" "" None None None None None.

(** ** The context *)
Record LoweringContext := mkLoweringContext {
  lc_function_name : string;
  lc_locals : list Local_;
  lc_blocks : list BasicBlock;
  lc_source_range : option SourceRange;
  lc_hints : RootTypeHints;
  current_block : BlockId;
  temp_counter : N;
  lc_arg_count : N }.
Abbreviation low := (eff LoweringContext).
Definition get_context : low LoweringContext := λ c, Ret (c, c).
Definition put_context (c : LoweringContext) : low unit := λ _, Ret (tt, c).
Definition with_locals (l : list Local_) (c : LoweringContext) : LoweringContext :=
  mkLoweringContext (lc_function_name c) l (lc_blocks c) (lc_source_range c) (lc_hints c)
    (current_block c) (temp_counter c) (lc_arg_count c).
Definition with_lc_blocks (l : list BasicBlock) (c : LoweringContext) : LoweringContext :=
  mkLoweringContext (lc_function_name c) (lc_locals c) l (lc_source_range c) (lc_hints c)
    (current_block c) (temp_counter c) (lc_arg_count c).
Definition with_current (b : BlockId) (c : LoweringContext) : LoweringContext :=
  mkLoweringContext (lc_function_name c) (lc_locals c) (lc_blocks c) (lc_source_range c) (lc_hints c)
    b (temp_counter c) (lc_arg_count c).
Definition with_counters (temps arguments : N) (c : LoweringContext) : LoweringContext :=
  mkLoweringContext (lc_function_name c) (lc_locals c) (lc_blocks c) (lc_source_range c) (lc_hints c)
    (current_block c) temps arguments.
Definition u32_succ (n : N) : N := (n + 1) mod 4294967296.

(** ** Blocks *)
Definition new_block (label : string) : low BlockId :=
  c ← get_context;
  let id := u32 (length (lc_blocks c)) in
  _ ← put_context (with_lc_blocks
        (lc_blocks c ++ [mkBasicBlock id label [] (default_terminator TerminatorKind.Unreachable)]) c);
  mret id.
Definition set_current_block (id : BlockId) : low unit :=
  c ← get_context; put_context (with_current id c).
(** [current_block()], read or changed. *)
Definition read_current_block : low BasicBlock :=
  c ← get_context;
  ⌊ match lc_blocks c !! N.to_nat (current_block c) with Some b => Ret b | None => UB end ⌋.
Definition update_current_block (f : BasicBlock → BasicBlock) : low unit :=
  b ← read_current_block;
  c ← get_context;
  put_context (with_lc_blocks (<[N.to_nat (current_block c) := f b]> (lc_blocks c)) c).

(** ** Locals *)
Definition new_local (name : string) (type : TypeRef) (temp : bool) (range : option SourceRange)
    : low LocalRef :=
  c ← get_context;
  let id := u32 (length (lc_locals c)) in
  _ ← put_context (with_locals (lc_locals c ++ [mkLocal id name type temp range]) c);
  mret id.
Definition new_temp (type : TypeRef) (range : option SourceRange) : low LocalRef :=
  c ← get_context;
  _ ← put_context (with_counters (u32_succ (temp_counter c)) (lc_arg_count c) c);
  new_local ("_tmp" +:+ to_string (Z.of_N (temp_counter c))) type true range.
Definition new_argument_local (name : string) (type : TypeRef) : low unit :=
  _ ← new_local name type false None;
  c ← get_context;
  put_context (with_counters (temp_counter c) (u32_succ (lc_arg_count c)) c).
Definition find_local_in (name : string) (l : list Local_) : LocalRef :=
  match list_find (λ local, local_name local = name) l with
  | Some (i, _) => u32 i
  | None => kNoLocal
  end.
Definition find_local (name : string) : low LocalRef :=
  c ← get_context; mret (find_local_in name (lc_locals c)).
Definition or_else {A} (o o' : option A) : option A := match o with Some _ => o | None => o' end.
Definition refined (type : TypeRef) (range : option SourceRange) (local : Local_) : Local_ :=
  mkLocal (local_id local) (local_name local)
    (if negb (has_resolved_type (local_type local)) && has_resolved_type type then type
     else local_type local)
    (is_temp local) (or_else (local_source_range local) range).
Definition refine_local (ref : LocalRef) (type : TypeRef) (range : option SourceRange) : low unit :=
  c ← get_context;
  if bool_decide (ref = kNoLocal) || (N.of_nat (length (lc_locals c)) <=? ref) then mret tt
  else put_context (with_locals (alter (refined type range) (N.to_nat ref) (lc_locals c)) c).
(** An argument without a hint is not seeded; extra ones not twice. *)
Fixpoint seed_extra_arguments (l : list (string * TypeRef)) : low unit :=
  match l with
  | [] => mret tt
  | (name, type) :: l =>
      ref ← find_local name;
      _ ← (if bool_decide (ref = kNoLocal) then new_argument_local name type else mret tt);
      seed_extra_arguments l
  end.
Definition seed_argument (name : string) (type : option TypeRef) : low unit :=
  match type with Some type => new_argument_local name type | None => mret tt end.
Definition seed_root_argument_locals : low unit :=
  c ← get_context;
  _ ← seed_argument "input" (hint_input (lc_hints c));
  _ ← seed_argument "ctx" (hint_context (lc_hints c));
  _ ← seed_argument "output" (hint_output (lc_hints c));
  seed_extra_arguments (extra_arguments (lc_hints c)).
Definition root_type_hint (hints : RootTypeHints) (path : Path) : TypeRef :=
  default default_type_ref
    match root_kind path with
    | PathRootKind.Input => hint_input hints
    | PathRootKind.Output => hint_output hints
    | PathRootKind.Context => hint_context hints
    | _ => None
    end.

(** ** Statements *)
Definition push_statement (s : Statement) (b : BasicBlock) : BasicBlock :=
  mkBasicBlock (block_id b) (block_label b) (block_statements b ++ [s]) (terminator b).
Definition replace_terminator (t : Terminator) (b : BasicBlock) : BasicBlock :=
  mkBasicBlock (block_id b) (block_label b) (block_statements b) t.
Definition emit_assign (d : LocalRef) (rv : Rvalue) (range : option SourceRange) : low unit :=
  _ ← refine_local d (result_type rv) range;
  update_current_block (push_statement (mkStatement StatementKind.Assign d rv range)).
Definition emit_nop (range : option SourceRange) : low unit :=
  update_current_block (push_statement
    (mkStatement StatementKind.Nop kNoLocal (default_rvalue RvalueKind.Use) range)).
Definition set_terminator (t : Terminator) : low unit := update_current_block (replace_terminator t).

(** ** Expressions *)
Definition make_constant (c : Constant) : Operand := mkOperand OperandKind.Constant kNoLocal c 0.
Definition make_local (ref : LocalRef) : Operand := mkOperand OperandKind.Local_ ref CMonostate 0.
Definition make_rvalue (kind : RvalueKind.t) (l : list Operand) (type : TypeRef) : Rvalue :=
  mkRvalue kind "" "" "" l type.
Definition unary_op_name (op : ExprUnaryOp.t) : string :=
  match op with
  | ExprUnaryOp.Not => "not" | ExprUnaryOp.Negate => "neg" | ExprUnaryOp.Positive => "pos"
  end.
Definition binary_op_name (op : ExprBinaryOp.t) : string :=
  match op with
  | ExprBinaryOp.Implies => "implies" | ExprBinaryOp.Or => "or" | ExprBinaryOp.And => "and"
  | ExprBinaryOp.Equal => "eq" | ExprBinaryOp.NotEqual => "ne" | ExprBinaryOp.Less => "lt"
  | ExprBinaryOp.LessEqual => "le" | ExprBinaryOp.Greater => "gt" | ExprBinaryOp.GreaterEqual => "ge"
  | ExprBinaryOp.Add => "add" | ExprBinaryOp.Subtract => "sub" | ExprBinaryOp.Multiply => "mul"
  | ExprBinaryOp.Divide => "div" | ExprBinaryOp.Modulo => "mod"
  end.
(** [std::stoll] and [std::stod]; an exception keeps the spelling. *)
Definition integer_constant (spelling : string) : Constant :=
  match stoll spelling with ConvOk z => CInt z | _ => CString spelling end.
Definition float_constant (spelling : string) : Constant :=
  match stod spelling with ConvOk d => CFloat d | _ => CString spelling end.

(** A temporary for the value of an expression. *)
Definition assign_temp (rv : Rvalue) (range : option SourceRange) : low LocalRef :=
  d ← new_temp (result_type rv) range;
  _ ← emit_assign d rv range;
  mret d.
Definition emit_temp (rv : Rvalue) (range : option SourceRange) : low Operand :=
  d ← assign_temp rv range; mret (make_local d).
(** The chain of [Field] rvalues of a path. *)
Fixpoint lower_members (current : LocalRef) (type : TypeRef) (range : option SourceRange)
    (l : list string) : low LocalRef :=
  match l with
  | [] => mret current
  | member :: l =>
      let final := bool_decide (l = []) in
      let member_type := if final then type else default_type_ref in
      let member_range := if final then range else None in
      tmp ← assign_temp (mkRvalue RvalueKind.Field "" "" member [make_local current] member_type)
              member_range;
      lower_members tmp type range l
  end.
Definition lower_path (path : Path) (type : TypeRef) (range : option SourceRange) : low Operand :=
  ref ← find_local (root_name path);
  let whole := bool_decide (members path = []) in
  ref ← (if bool_decide (ref = kNoLocal) then
           c ← get_context;
           new_local (root_name path) (if whole then type else root_type_hint (lc_hints c) path) false
             (if whole then range else None)
         else _ ← (if whole then refine_local ref type range else mret tt); mret ref);
  current ← lower_members ref type range (members path);
  mret (make_local current).

Section LowerExpr.
Context (lower_expr : Expr → low Operand).
Definition lower_ref (expr : ExprRef) : low Operand :=
  match expr with Some e => lower_expr e | None => mret (make_constant CMonostate) end.
Fixpoint lower_refs (l : list ExprRef) : low (list Operand) :=
  match l with
  | [] => mret []
  | e :: l => o ← lower_ref e; os ← lower_refs l; mret (o :: os)
  end.
Fixpoint lower_fields (l : list (string * ExprRef)) : low (list Operand) :=
  match l with
  | [] => mret []
  | (_, e) :: l => o ← lower_ref e; os ← lower_fields l; mret (o :: os)
  end.
Fixpoint lower_entries (l : list (ExprRef * ExprRef)) : low (list Operand) :=
  match l with
  | [] => mret []
  | (k, v) :: l => ko ← lower_ref k; vo ← lower_ref v; os ← lower_entries l; mret (ko :: vo :: os)
  end.
Definition lower_expr_node (node : ExprNode) (type : TypeRef) (range : option SourceRange) : low Operand :=
  match node with
  | NoneLiteralExpr => mret (make_constant CMonostate)
  | BoolLiteralExpr b => mret (make_constant (CBool b))
  | IntegerLiteralExpr s => mret (make_constant (integer_constant s))
  | FloatLiteralExpr s => mret (make_constant (float_constant s))
  | DecimalLiteralExpr s | StringLiteralExpr s | DurationLiteralExpr s => mret (make_constant (CString s))
  | SomeExpr e => o ← lower_ref e; emit_temp (make_rvalue RvalueKind.Use [o] type) range
  | PathExpr path => lower_path path type range
  | QualifiedValueExpr v => mret (make_constant (CString v))
  | CallExpr callee l =>
      os ← lower_refs l; emit_temp (mkRvalue RvalueKind.Call "" callee "" os type) range
  | StructLiteralExpr _ l =>
      os ← lower_fields l; emit_temp (make_rvalue RvalueKind.Aggregate os type) range
  | ListLiteralExpr l | SetLiteralExpr l =>
      os ← lower_refs l; emit_temp (make_rvalue RvalueKind.Aggregate os type) range
  | MapLiteralExpr l =>
      os ← lower_entries l; emit_temp (make_rvalue RvalueKind.Aggregate os type) range
  | UnaryExpr op e =>
      o ← lower_ref e;
      emit_temp (mkRvalue RvalueKind.UnaryOp (unary_op_name op) "" "" [o] type) range
  | BinaryExpr op l r =>
      lo ← lower_ref l; ro ← lower_ref r;
      emit_temp (mkRvalue RvalueKind.BinaryOp (binary_op_name op) "" "" [lo; ro] type) range
  | MemberAccessExpr base member =>
      o ← lower_ref base; emit_temp (mkRvalue RvalueKind.Field "" "" member [o] type) range
  | IndexAccessExpr base index =>
      o ← lower_ref base; i ← lower_ref index;
      emit_temp (make_rvalue RvalueKind.Index [o; i] type) range
  end.
End LowerExpr.
Fixpoint lower_expr (e : Expr) : low Operand :=
  match e with mkExpr node range type _ => lower_expr_node lower_expr node type range end.
Definition lower_expr_ref : ExprRef → low Operand := lower_ref lower_expr.

(** ** Statements *)
Definition use_rvalue (o : Operand) (type : TypeRef) : Rvalue := make_rvalue RvalueKind.Use [o] type.
Definition goto_terminator (b : BlockId) (range : option SourceRange) : Terminator :=
  mkTerminator TerminatorKind.Goto kNoLocal kNoLocal b 0 0 "" [] kNoLocal 0 range.
Definition switch_terminator (c : LocalRef) (t e : BlockId) (range : option SourceRange) : Terminator :=
  mkTerminator TerminatorKind.SwitchBool c kNoLocal 0 t e "" [] kNoLocal 0 range.
Definition return_terminator (r : LocalRef) (range : option SourceRange) : Terminator :=
  mkTerminator TerminatorKind.Return kNoLocal r 0 0 0 "" [] kNoLocal 0 range.
Definition assert_terminator (c : LocalRef) (b : BlockId) (range : option SourceRange) : Terminator :=
  mkTerminator TerminatorKind.Assert c kNoLocal b 0 0 "" [] kNoLocal 0 range.

Fixpoint path_storage_suffix (l : list string) : string :=
  match l with [] => "" | m :: l => "." +:+ m +:+ path_storage_suffix l end.
Definition path_storage_name (path : Path) : string := root_name path +:+ path_storage_suffix (members path).

Definition lower_let (name : string) (type_ref : TypeRef) (initializer : ExprRef)
    (range : option SourceRange) : low unit :=
  init ← lower_expr_ref initializer;
  let binding_type := if has_resolved_type type_ref then type_ref else type_or_unresolved initializer in
  local ← new_local name binding_type false range;
  emit_assign local (use_rvalue init binding_type) range.
Definition lower_assign (path : Path) (value : ExprRef) (range : option SourceRange) : low unit :=
  operand ← lower_expr_ref value;
  let value_type := type_or_unresolved value in
  found ← find_local (path_storage_name path);
  target ← (if bool_decide (found = kNoLocal) then
              new_local (path_storage_name path) value_type false range
            else _ ← refine_local found value_type range; mret found);
  emit_assign target (use_rvalue operand value_type) range.
(** The local that a branch or an assertion tests. *)
Definition lower_condition (condition : ExprRef) (range : option SourceRange) : low LocalRef :=
  operand ← lower_expr_ref condition;
  let cond_range := match condition with Some e => expr_source_range e | None => range end in
  assign_temp (use_rvalue operand (type_or_unresolved condition)) cond_range.
(** Close the current block unless a statement has. *)
Definition close_block (t : Terminator) : low unit :=
  b ← read_current_block;
  if bool_decide (tm_kind (terminator b) = TerminatorKind.Unreachable) then set_terminator t else mret tt.
Definition lower_goto (state : string) (range : option SourceRange) : low unit :=
  local ← assign_temp (use_rvalue (make_constant (CString state)) string_type_ref) range;
  _ ← set_terminator (return_terminator local range);
  next ← new_block "after.goto";
  set_current_block next.
Definition lower_return (value : ExprRef) (range : option SourceRange) : low unit :=
  operand ← lower_expr_ref value;
  local ← assign_temp (use_rvalue operand (type_or_unresolved value)) range;
  _ ← set_terminator (return_terminator local range);
  next ← new_block "after.return";
  set_current_block next.
Definition lower_assert (condition : ExprRef) (range : option SourceRange) : low unit :=
  local ← lower_condition condition range;
  continue ← new_block "after.assert";
  _ ← set_terminator (assert_terminator local continue range);
  set_current_block continue.
Definition lower_expr_statement (expr : ExprRef) (range : option SourceRange) : low unit :=
  match expr with
  | Some e => _ ← lower_expr e; mret tt
  | None => emit_nop range
  end.

Section LowerBlock.
Context (lower_statement : Ir.Statement → low unit).
Fixpoint lower_statements (l : list (option Ir.Statement)) : low unit :=
  match l with
  | [] => mret tt
  | None :: l => lower_statements l
  | Some s :: l => _ ← lower_statement s; lower_statements l
  end.
Definition lower_block_with (b : Block) : low unit :=
  match b with mkBlock l _ => lower_statements l end.
Definition lower_optional_block (b : option Block) : low unit :=
  match b with Some b => lower_block_with b | None => mret tt end.
Definition lower_if (condition : ExprRef) (then_b else_b : option Block) (range : option SourceRange)
    : low unit :=
  cond ← lower_condition condition range;
  then_id ← new_block "if.then";
  else_id ← new_block "if.else";
  merge_id ← new_block "if.merge";
  _ ← set_terminator (switch_terminator cond then_id else_id range);
  _ ← set_current_block then_id;
  _ ← lower_optional_block then_b;
  _ ← close_block (goto_terminator merge_id range);
  _ ← set_current_block else_id;
  _ ← lower_optional_block else_b;
  _ ← close_block (goto_terminator merge_id range);
  set_current_block merge_id.
End LowerBlock.
Fixpoint lower_statement (s : Ir.Statement) : low unit :=
  match s with
  | Ir.mkStatement node range _ =>
      match node with
      | LetStatement name type e => lower_let name type e range
      | AssignStatement path e => lower_assign path e range
      | IfStatement c t e => lower_if lower_statement c t e range
      | GotoStatement state => lower_goto state range
      | ReturnStatement e => lower_return e range
      | AssertStatement c => lower_assert c range
      | ExprStatement e => lower_expr_statement e range
      end
  end.
Definition lower_block : Block → low unit := lower_block_with lower_statement.

(** ** Functions *)
Definition empty_context (name : string) (range : option SourceRange) (hints : RootTypeHints)
    : LoweringContext := mkLoweringContext name [] [] range hints 0 0 0.
(** The constructor of the context. *)
Definition start_context : low unit := _ ← new_block "entry"; seed_root_argument_locals.
Definition finish (type : TypeRef) (c : LoweringContext) : OptFunction :=
  mkOptFunction (lc_function_name c) (lc_locals c) (lc_arg_count c) (lc_blocks c) type (lc_source_range c).
Definition build_function (name : string) (range : option SourceRange) (hints : RootTypeHints)
    (body : low TypeRef) : cxx OptFunction :=
  match (_ ← start_context; body) (empty_context name range hints) with
  | Ret (type, c) => Ret (finish type c)
  | UB => UB
  | NoFuel => NoFuel
  end.
Definition set_return_terminator_for_operand (operand : Operand) (type : TypeRef)
    (range : option SourceRange) : low unit :=
  local ← (if bool_decide (op_kind operand = OperandKind.Local_) then mret (op_local operand)
           else assign_temp (use_rvalue operand type) range);
  set_terminator (return_terminator local range).
Definition lower_expr_function (name : string) (expr : ExprRef) (range : option SourceRange)
    (hints : RootTypeHints) : cxx OptFunction :=
  build_function name range hints (
    let type := type_or_unresolved expr in
    operand ← lower_expr_ref expr;
    _ ← set_return_terminator_for_operand operand type
          (match expr with Some e => expr_source_range e | None => None end);
    mret type).
Definition lower_handler (name : string) (handler : StateHandler) (hints : RootTypeHints) : cxx OptFunction :=
  build_function name (handler_source_range handler) hints (
    _ ← lower_block (handler_body handler);
    _ ← close_block (return_terminator kNoLocal (handler_source_range handler));
    mret default_type_ref).

(** ** Agents and type hints *)
Definition resolve_flow_agent_name (flow : FlowDecl) : string :=
  if negb (bool_decide (sym_canonical_name (flow_target_ref flow) = "")) then
    sym_canonical_name (flow_target_ref flow)
  else if negb (bool_decide (sym_local_name (flow_target_ref flow) = "")) then
    sym_local_name (flow_target_ref flow)
  else "unknown_agent".
Definition symbol_refs_match (lhs rhs : SymbolRef) : bool :=
  match sym_id lhs, sym_id rhs with
  | Some l, Some r => bool_decide (l = r)
  | _, _ =>
      if negb (bool_decide (sym_canonical_name lhs = "")) && negb (bool_decide (sym_canonical_name rhs = ""))
      then bool_decide (sym_canonical_name lhs = sym_canonical_name rhs)
      else negb (bool_decide (sym_local_name lhs = "")) && negb (bool_decide (sym_local_name rhs = "")) &&
           bool_decide (sym_local_name lhs = sym_local_name rhs)
  end.
Fixpoint find_agent_by_ref (l : list Decl) (agent_ref : SymbolRef) : option AgentDecl :=
  match l with
  | [] => None
  | DAgent agent :: l =>
      if symbol_refs_match (agent_symbol_ref agent) agent_ref then Some agent
      else find_agent_by_ref l agent_ref
  | _ :: l => find_agent_by_ref l agent_ref
  end.
Definition hint_of (type : TypeRef) : option TypeRef := if has_resolved_type type then Some type else None.
Definition root_type_hints_for_agent (agent : option AgentDecl) : RootTypeHints :=
  match agent with
  | None => no_hints
  | Some a => mkRootTypeHints (hint_of (agent_input_type_ref a)) (hint_of (agent_context_type_ref a))
                (hint_of (agent_output_type_ref a)) []
  end.
Definition root_type_hints_for_flow (program : Program) (flow : FlowDecl) : RootTypeHints :=
  root_type_hints_for_agent (find_agent_by_ref (declarations program) (flow_target_ref flow)).
Definition root_type_hints_for_contract (program : Program) (contract : ContractDecl) : RootTypeHints :=
  root_type_hints_for_agent (find_agent_by_ref (declarations program) (contract_target_ref contract)).
Definition output_type_for_workflow_node (program : Program) (node : WorkflowNode) : TypeRef :=
  match find_agent_by_ref (declarations program) (wn_target_ref node) with
  | None => default_type_ref
  | Some a =>
      if has_resolved_type (agent_output_type_ref a) then agent_output_type_ref a else default_type_ref
  end.
Definition root_type_hints_for_workflow_expr (program : Program) (workflow : WorkflowDecl) : RootTypeHints :=
  let nodes := omap (λ node, if bool_decide (wn_name node = "") then None
                             else Some (wn_name node, output_type_for_workflow_node program node))
                 (wf_nodes workflow) in
  if has_resolved_type (wf_input_type_ref workflow) then
    mkRootTypeHints (Some (wf_input_type_ref workflow)) None None nodes
  else mkRootTypeHints None None None (("input", default_type_ref) :: nodes).

(** ** Temporal formulas: the expressions embedded in them *)
Record TemporalFragments := mkFragments {
  tf_functions : list OptFunction;
  tf_skipped : list SkippedTemporalFragment;
  embedded_index : N }.
Definition record_skipped_temporal_fragment (prefix kind : string) (range : option SourceRange)
    (s : TemporalFragments) : TemporalFragments :=
  mkFragments (tf_functions s)
    (tf_skipped s ++ [mkSkipped prefix kind "temporal atom is not a pure expression fragment" range])
    (embedded_index s).
Section Temporal.
Context (prefix : string) (hints : RootTypeHints).
Fixpoint lower_temporal (t : TemporalExpr) (s : TemporalFragments) : cxx TemporalFragments :=
  let lower_optional := λ (t : option TemporalExpr) s,
    match t with Some t => lower_temporal t s | None => Ret s end in
  match t with
  | mkTemporalExpr node range =>
      match node with
      | EmbeddedTemporalExpr (Some e) =>
          f ← lower_expr_function
                (prefix +:+ "::embedded::" +:+ to_string (Z.of_N (embedded_index s)))
                (Some e) (expr_source_range e) hints;
          Ret (mkFragments (tf_functions s ++ [f]) (tf_skipped s) (u32_succ (embedded_index s)))
      | EmbeddedTemporalExpr None => Ret s
      | CalledTemporalExpr _ => Ret (record_skipped_temporal_fragment prefix "called" range s)
      | InStateTemporalExpr _ => Ret (record_skipped_temporal_fragment prefix "in_state" range s)
      | RunningTemporalExpr _ => Ret (record_skipped_temporal_fragment prefix "running" range s)
      | CompletedTemporalExpr _ _ => Ret (record_skipped_temporal_fragment prefix "completed" range s)
      | TemporalUnaryExpr _ t => lower_optional t s
      | TemporalBinaryExpr _ l r => s ← lower_optional l s; lower_optional r s
      end
  end.
Definition lower_temporal_embedded_exprs (t : option TemporalExpr) (p : OptProgram) : cxx OptProgram :=
  s ← match t with
      | Some t => lower_temporal t (mkFragments (functions p) (skipped_temporal_fragments p) 0)
      | None => Ret (mkFragments (functions p) (skipped_temporal_fragments p) 0)
      end;
  Ret (mkOptProgram (tf_functions s) (tf_skipped s) (source_program_version p)).
End Temporal.

(** ** Programs *)
Definition push_function (f : OptFunction) (p : OptProgram) : OptProgram :=
  mkOptProgram (functions p ++ [f]) (skipped_temporal_fragments p) (source_program_version p).
Fixpoint lower_all {A} (lower : A → OptProgram → cxx OptProgram) (l : list A) (p : OptProgram)
    : cxx OptProgram :=
  match l with
  | [] => Ret p
  | a :: l => p ← lower a p; lower_all lower l p
  end.
(** [for (std::uint32_t index = 0; index < l.size(); ++index)] *)
Fixpoint lower_indexed {A} (lower : N → A → OptProgram → cxx OptProgram) (index : N) (l : list A)
    (p : OptProgram) : cxx OptProgram :=
  match l with
  | [] => Ret p
  | a :: l => p ← lower index a p; lower_indexed lower (index + 1) l p
  end.
Section LowerProgram.
Context (program : Program).
Definition lower_flow (d : Decl) (p : OptProgram) : cxx OptProgram :=
  match d with
  | DFlow flow =>
      let hints := root_type_hints_for_flow program flow in
      lower_all (λ handler p,
        f ← lower_handler ("flow::" +:+ resolve_flow_agent_name flow +:+ "::" +:+
                           handler_state_name handler) handler hints;
        Ret (push_function f p)) (state_handlers flow) p
  | _ => Ret p
  end.
Definition lower_clause (owner : string) (hints : RootTypeHints) (index : N) (clause : ContractClause)
    (p : OptProgram) : cxx OptProgram :=
  let prefix := "contract::" +:+ owner +:+ "::clause::" +:+ to_string (Z.of_N index) in
  match clause_value clause with
  | ClauseExpr (Some e) =>
      f ← lower_expr_function prefix (Some e) (clause_source_range clause) hints; Ret (push_function f p)
  | ClauseExpr None => Ret p
  | ClauseTemporal t => lower_temporal_embedded_exprs prefix hints t p
  end.
Definition lower_contract (d : Decl) (p : OptProgram) : cxx OptProgram :=
  match d with
  | DContract contract =>
      let ref := contract_target_ref contract in
      let owner := if negb (bool_decide (sym_canonical_name ref = "")) then sym_canonical_name ref
                   else sym_local_name ref in
      lower_indexed (lower_clause owner (root_type_hints_for_contract program contract)) 0
        (clauses contract) p
  | _ => Ret p
  end.
Definition lower_workflow (d : Decl) (p : OptProgram) : cxx OptProgram :=
  match d with
  | DWorkflow workflow =>
      let hints := root_type_hints_for_workflow_expr program workflow in
      let name := if bool_decide (wf_name workflow = "") then "unknown_workflow" else wf_name workflow in
      p ← lower_all (λ node p,
            match wn_input node with
            | None => Ret p
            | Some e =>
                f ← lower_expr_function ("workflow::" +:+ name +:+ "::node::" +:+ wn_name node +:+ "::input")
                      (Some e) (wn_source_range node) hints;
                Ret (push_function f p)
            end) (wf_nodes workflow) p;
      p ← match wf_return_value workflow with
          | None => Ret p
          | Some e =>
              f ← lower_expr_function ("workflow::" +:+ name +:+ "::return") (Some e)
                    (expr_source_range e) hints;
              Ret (push_function f p)
          end;
      p ← lower_indexed (λ index, lower_temporal_embedded_exprs
            ("workflow::" +:+ name +:+ "::safety::" +:+ to_string (Z.of_N index)) hints)
            0 (wf_safety workflow) p;
      lower_indexed (λ index, lower_temporal_embedded_exprs
            ("workflow::" +:+ name +:+ "::liveness::" +:+ to_string (Z.of_N index)) hints)
            0 (wf_liveness workflow) p
  | _ => Ret p
  end.
Definition lower_to_opt : cxx OptProgram :=
  p ← lower_all lower_flow (declarations program) (mkOptProgram [] [] (format_version program));
  p ← lower_all lower_contract (declarations program) p;
  lower_all lower_workflow (declarations program) p.
End LowerProgram.
