(* ===== verification/OptLowerProps.v ===== *)
(** * Lowering to the optimization IR: the functions it builds

    The lowering of every program returns.  As long as the numbers of locals
    and blocks fit their 32-bit references, each function is structured, every
    block of it is closed, and the blocks form no cycle: a terminator leads
    only to blocks that are closed later.  For sources with plain identifiers
    each local that is read has one definition. *)
From S2P Require Import Prelude Numeric Ir OptIr OptPasses OptPropagation OptVerify OptVerifyProps OptLower.
From Stdlib Require Import NArith.
Import Opt.
Open Scope N_scope.

(** ** Lowering returns *)
Definition in_block (c : LoweringContext) : Prop := (N.to_nat (current_block c) < length (lc_blocks c))%nat.
Definition returns {A} (m : low A) : Prop := ∀ c, in_block c →
  ∃ a c', m c ⇓ (a, c') ∧ in_block c' ∧ (length (lc_blocks c) ≤ length (lc_blocks c'))%nat.

Lemma returns_ret {A} (a : A) : returns (mret a).
Proof. intros c Hc. by exists a, c. Qed.
Lemma returns_bind {A B} (m : low A) (f : A → low B) : returns m → (∀ a, returns (f a)) → returns (m ≫= f).
Proof.
  intros Hm Hf c Hc. destruct (Hm c Hc) as (a & c1 & E & Hc1 & Hl1).
  destruct (Hf a c1 Hc1) as (b & c2 & E2 & Hc2 & Hl2). exists b, c2.
  rewrite (eff_bind_eq _ _ _ _ _ E). split_and!; [done|done|lia].
Qed.
Lemma returns_get : returns get_context.
Proof. intros c Hc. by exists c, c. Qed.
(** A step from the context it reads. *)
Lemma returns_step {A} (f : LoweringContext → A * LoweringContext) :
  (∀ c, lc_blocks (f c).2 = lc_blocks c ∧ current_block (f c).2 = current_block c) →
  returns (c ← get_context; _ ← put_context (f c).2; mret (f c).1).
Proof.
  intros Hf c Hc. exists (f c).1, (f c).2. destruct (Hf c) as [Hb Hcur]. split; [done|].
  unfold in_block. rewrite Hb, Hcur. split; [done|lia].
Qed.
Lemma returns_put (f : LoweringContext → LoweringContext) :
  (∀ c, lc_blocks (f c) = lc_blocks c ∧ current_block (f c) = current_block c) →
  returns (c ← get_context; put_context (f c)).
Proof.
  intros Hf c Hc. exists tt, (f c). destruct (Hf c) as [Hb Hcur]. split; [done|].
  unfold in_block. rewrite Hb, Hcur. split; [done|lia].
Qed.
Ltac returns := repeat lazymatch goal with
  | |- returns (mret _) => apply returns_ret
  | |- returns (_ ≫= _) => apply returns_bind; [|intros ?]
  | |- returns get_context => apply returns_get
  end.

Definition empty_block (id : BlockId) (label : string) : BasicBlock :=
  mkBasicBlock id label [] (default_terminator TerminatorKind.Unreachable).
Lemma new_block_eq label c : new_block label c ⇓ (u32 (length (lc_blocks c)),
  with_lc_blocks (lc_blocks c ++ [empty_block (u32 (length (lc_blocks c))) label]) c).
Proof. done. Qed.
Lemma new_block_returns label c : ∃ c', new_block label c ⇓ (u32 (length (lc_blocks c)), c') ∧
  current_block c' = current_block c ∧ length (lc_blocks c') = S (length (lc_blocks c)).
Proof. eexists. split; [apply new_block_eq|]. cbn. rewrite length_app. cbn. split; [done|lia]. Qed.
Lemma u32_le n : (N.to_nat (u32 n) ≤ n)%nat.
Proof. unfold u32. pose proof (N.Div0.mod_le (N.of_nat n) 4294967296). lia. Qed.
Lemma returns_new_block label : returns (new_block label).
Proof.
  intros c Hc. destruct (new_block_returns label c) as (c' & E & Hcur & Hl).
  exists (u32 (length (lc_blocks c))), c'. split; [done|]. unfold in_block in *. rewrite Hcur, Hl. split; lia.
Qed.
Lemma returns_new_local name type temp range : returns (new_local name type temp range).
Proof. apply (returns_step (λ c, (u32 (length (lc_locals c)), with_locals (lc_locals c ++ [mkLocal (u32 (length (lc_locals c))) name type temp range]) c))). done. Qed.
Lemma returns_counters {A} (g : LoweringContext → low A) temps args :
  (∀ c, returns (g c)) → returns (c ← get_context; _ ← put_context (with_counters (temps c) (args c) c); g c).
Proof.
  intros Hg c Hc. destruct (Hg c (with_counters (temps c) (args c) c) Hc) as (a & c' & E & Hc').
  by exists a, c'.
Qed.
Lemma returns_new_temp type range : returns (new_temp type range).
Proof. unfold new_temp. apply returns_counters. intros. apply returns_new_local. Qed.
Lemma returns_new_argument name type : returns (new_argument_local name type).
Proof.
  unfold new_argument_local. apply returns_bind; [apply returns_new_local|intros _].
  by apply (returns_put (λ c, with_counters (temp_counter c) (u32_succ (lc_arg_count c)) c)).
Qed.
Lemma returns_find_local name : returns (find_local name).
Proof. unfold find_local. returns. Qed.
Lemma returns_refine ref type range : returns (refine_local ref type range).
Proof.
  intros c Hc. unfold refine_local, mbind, eff_bind, get_context.
  destruct (bool_decide (ref = kNoLocal) || (N.of_nat (length (lc_locals c)) <=? ref)); [by exists tt, c|].
  eexists tt, _. split; [reflexivity|]. done.
Qed.
Lemma read_block_eq c b : lc_blocks c !! N.to_nat (current_block c) = Some b →
  read_current_block c ⇓ (b, c).
Proof. intros E. unfold read_current_block, mbind, eff_bind, get_context. by rewrite E. Qed.
Lemma returns_read_block : returns read_current_block.
Proof.
  intros c Hc. destruct (lookup_lt_is_Some_2 _ _ Hc) as [b E]. exists b, c.
  by rewrite (read_block_eq _ _ E).
Qed.
Lemma returns_update f : returns (update_current_block f).
Proof.
  intros c Hc. unfold update_current_block.
  destruct (lookup_lt_is_Some_2 _ _ Hc) as [b E].
  rewrite (eff_bind_eq _ _ _ _ _ (read_block_eq _ _ E)). eexists tt, _. split; [reflexivity|].
  unfold in_block. cbn. rewrite length_insert. done.
Qed.
Lemma returns_emit_assign d rv range : returns (emit_assign d rv range).
Proof. unfold emit_assign. returns; [apply returns_refine|apply returns_update]. Qed.
Lemma returns_assign_temp rv range : returns (assign_temp rv range).
Proof. unfold assign_temp. returns; [apply returns_new_temp|apply returns_emit_assign]. Qed.
Lemma returns_emit_temp rv range : returns (emit_temp rv range).
Proof. unfold emit_temp. returns. apply returns_assign_temp. Qed.
Lemma returns_members current type range l : returns (lower_members current type range l).
Proof.
  revert current. induction l as [|m l IH]; intros current; cbn [lower_members]; [apply returns_ret|].
  returns; [apply returns_assign_temp|apply IH].
Qed.
Lemma returns_path path type range : returns (lower_path path type range).
Proof.
  unfold lower_path. returns; [apply returns_find_local| |apply returns_members].
  case_bool_decide; returns; [apply returns_new_local|].
  case_bool_decide; [apply returns_refine|apply returns_ret].
Qed.
Lemma returns_expr e : returns (lower_expr e).
Proof.
  induction e as [[n r t i] IH] using expr_induction. cbn [expr_node lower_expr] in *.
  rewrite Forall_forall in IH.
  assert (Hr : ∀ o, (∀ e, o = Some e → returns (lower_expr e)) → returns (lower_ref lower_expr o)).
  { intros [e|] He; cbn; [by apply He|apply returns_ret]. }
  assert (Hrs : ∀ l, (∀ e, e ∈ l ≫= option_list → returns (lower_expr e)) → returns (lower_refs lower_expr l)).
  { induction l as [|o l IHl]; intros Hl; cbn [lower_refs]; [apply returns_ret|].
    returns; [apply Hr; intros e ->; apply Hl; cbn; by left|]. apply IHl. intros e He. apply Hl.
    cbn. apply elem_of_app. by right. }
  destruct n as [| | | | | | |o| | |s l|s l|l|l|l|u o|b o1 o2|o s|o1 o2]; cbn [lower_expr_node children] in *;
    try apply returns_ret; returns; try apply returns_emit_temp; try apply returns_path;
    try (apply Hr; intros e ->; apply IH; set_solver); try (apply Hrs; exact IH).
  - clear -IH Hr. induction l as [|[f o] l IHl]; cbn [lower_fields]; [apply returns_ret|].
    returns; [apply Hr; intros e ->; apply IH; cbn; by left|]. apply IHl. intros e He. apply IH.
    cbn. apply elem_of_app. by right.
  - clear -IH Hr. induction l as [|[k v] l IHl]; cbn [lower_entries]; [apply returns_ret|].
    returns; [apply Hr; intros e ->; apply IH; cbn; by left| |].
    + apply Hr. intros e ->. apply IH. cbn. rewrite !elem_of_app. left. right. by left.
    + apply IHl. intros e He. apply IH. cbn. rewrite !elem_of_app. by right.
Qed.
Lemma returns_expr_ref o : returns (lower_expr_ref o).
Proof. destruct o as [e|]; [apply returns_expr|apply returns_ret]. Qed.
Lemma returns_set_terminator t : returns (set_terminator t).
Proof. apply returns_update. Qed.
Lemma returns_close t : returns (close_block t).
Proof. unfold close_block. returns; [apply returns_read_block|]. case_bool_decide; returns. apply returns_update. Qed.
Lemma returns_condition e range : returns (lower_condition e range).
Proof. unfold lower_condition. returns; [apply returns_expr_ref|apply returns_assign_temp]. Qed.

(** The same with blocks [bs] that exist and may become the current one. *)
Definition returns_with (bs : list BlockId) {A} (m : low A) : Prop := ∀ c, in_block c →
  (∀ b, b ∈ bs → (N.to_nat b < length (lc_blocks c))%nat) →
  ∃ a c', m c ⇓ (a, c') ∧ in_block c' ∧ (length (lc_blocks c) ≤ length (lc_blocks c'))%nat.
Lemma with_returns bs {A} (m : low A) : returns m → returns_with bs m.
Proof. intros Hm c Hc _. by apply Hm. Qed.
Lemma returns_without {A} (m : low A) : returns_with [] m → returns m.
Proof. intros Hm c Hc. apply Hm; [done|]. intros b Hb. by apply elem_of_nil in Hb. Qed.
Lemma with_bind bs {A B} (m : low A) (f : A → low B) :
  returns m → (∀ a, returns_with bs (f a)) → returns_with bs (m ≫= f).
Proof.
  intros Hm Hf c Hc Hb. destruct (Hm c Hc) as (a & c1 & E & Hc1 & Hl1).
  destruct (Hf a c1 Hc1) as (b & c2 & E2 & Hc2 & Hl2); [intros b ?%Hb; lia|]. exists b, c2.
  rewrite (eff_bind_eq _ _ _ _ _ E). split_and!; [done|done|lia].
Qed.
Lemma with_new_block bs label {B} (f : BlockId → low B) :
  (∀ b, returns_with (b :: bs) (f b)) → returns_with bs (b ← new_block label; f b).
Proof.
  intros Hf c Hc Hb. rewrite (eff_bind_eq _ _ _ _ _ (new_block_eq label c)).
  edestruct (Hf (u32 (length (lc_blocks c)))) as (b & c2 & E2 & Hc2 & Hl2); [| |exists b, c2; split; [exact E2|]].
  - unfold in_block in *. cbn. rewrite length_app. lia.
  - intros x Hx. cbn. rewrite length_app. cbn. apply elem_of_cons in Hx as [->|Hx%Hb]; [|lia].
    pose proof (u32_le (length (lc_blocks c))). lia.
  - cbn in Hl2. rewrite length_app in Hl2. split; [done|lia].
Qed.
Lemma with_current_block bs b : b ∈ bs → returns_with bs (set_current_block b).
Proof. intros Hin c Hc Hb. exists tt, (with_current b c). split_and!; [done|by apply Hb|done]. Qed.
Lemma with_set_current bs b {B} (f : unit → low B) : b ∈ bs → (∀ u, returns_with bs (f u)) →
  returns_with bs (u ← set_current_block b; f u).
Proof.
  intros Hin Hf c Hc Hb. by destruct (Hf tt (with_current b c) (Hb b Hin) Hb) as (a & c' & E & H); exists a, c'.
Qed.

Lemma returns_statements lower l : (∀ s, s ∈ l ≫= option_list → returns (lower s)) →
  returns (lower_statements lower l).
Proof.
  induction l as [|[s|] l IH]; intros Hl; cbn [lower_statements]; [apply returns_ret| |].
  - apply returns_bind; [apply Hl; by left|intros _; apply IH; intros; apply Hl; by right].
  - apply IH. intros; by apply Hl.
Qed.
Lemma returns_statement s : returns (lower_statement s).
Proof.
  induction s as [[n r i] IH] using statement_induction. cbn [lower_statement statement_node] in *.
  rewrite Forall_forall in IH.
  destruct n as [name type e|path e|cond t e|state|e|cond|e]; cbn [nested_statements] in IH.
  - unfold lower_let. returns; [apply returns_expr_ref|apply returns_new_local|apply returns_emit_assign].
  - unfold lower_assign. returns; [apply returns_expr_ref|apply returns_find_local| |apply returns_emit_assign].
    case_bool_decide; returns; [apply returns_new_local|apply returns_refine].
  - assert (Hb : ∀ b, (∀ s, s ∈ option_list b ≫= (λ b, statements b ≫= option_list) → returns (lower_statement s)) →
      returns (lower_optional_block lower_statement b)).
    { intros [ [l sr]|] Hb; cbn; [|apply returns_ret]. apply returns_statements. intros s Hs. apply Hb.
      cbn. by rewrite app_nil_r. }
    unfold lower_if. apply returns_bind; [apply returns_condition|intros c0]. apply returns_without.
    apply with_new_block. intros b1. apply with_new_block. intros b2. apply with_new_block. intros b3.
    apply with_bind; [apply returns_set_terminator|intros _].
    apply with_set_current; [set_solver|intros _].
    apply with_bind; [apply Hb; intros; apply IH; set_solver|intros _].
    apply with_bind; [apply returns_close|intros _].
    apply with_set_current; [set_solver|intros _].
    apply with_bind; [apply Hb; intros; apply IH; set_solver|intros _].
    apply with_bind; [apply returns_close|intros _].
    apply with_current_block. set_solver.
  - unfold lower_goto. apply returns_bind; [apply returns_assign_temp|intros x].
    apply returns_bind; [apply returns_set_terminator|intros _]. apply returns_without, with_new_block.
    intros b. apply with_current_block. by left.
  - unfold lower_return. apply returns_bind; [apply returns_expr_ref|intros o].
    apply returns_bind; [apply returns_assign_temp|intros x].
    apply returns_bind; [apply returns_set_terminator|intros _]. apply returns_without, with_new_block.
    intros b. apply with_current_block. by left.
  - unfold lower_assert. apply returns_bind; [apply returns_condition|intros x].
    apply returns_without, with_new_block. intros b. apply with_bind; [apply returns_set_terminator|intros _].
    apply with_current_block. by left.
  - unfold lower_expr_statement. destruct e as [e|]; [|apply returns_update]. returns. apply returns_expr.
Qed.
Lemma returns_seed_extra l : returns (seed_extra_arguments l).
Proof.
  induction l as [|[name type] l IH]; cbn [seed_extra_arguments]; [apply returns_ret|].
  returns; [apply returns_find_local| |done]. case_bool_decide; [apply returns_new_argument|apply returns_ret].
Qed.
Lemma returns_seed : returns seed_root_argument_locals.
Proof.
  unfold seed_root_argument_locals, seed_argument.
  returns; try apply returns_seed_extra; case_match; (apply returns_new_argument || apply returns_ret).
Qed.
Lemma build_function_returns name range hints body : returns body →
  ∃ f, build_function name range hints body ⇓ f.
Proof.
  intros Hb. unfold build_function, start_context.
  set (c0 := empty_context name range hints).
  assert (Hs : ∃ c, (_ ← new_block "entry"; seed_root_argument_locals) c0 ⇓ (tt, c) ∧ in_block c).
  { rewrite (eff_bind_eq _ _ _ _ _ (new_block_eq "entry" c0)).
    destruct (returns_seed (with_lc_blocks [empty_block 0 "entry"] c0)) as ([] & c & E & Hc & _);
      [unfold in_block; cbn; lia|]. by exists c. }
  destruct Hs as (c & E & Hc). destruct (Hb c Hc) as (t & c' & E' & _).
  rewrite (eff_bind_eq _ _ _ _ _ E), E'. eauto.
Qed.
Lemma handler_returns name handler hints : ∃ f, lower_handler name handler hints ⇓ f.
Proof.
  apply build_function_returns. returns; [|apply returns_close].
  unfold lower_block, lower_block_with. destruct (handler_body handler) as [l sr].
  apply returns_statements. intros s _. apply returns_statement.
Qed.
Lemma expr_function_returns name e range hints : ∃ f, lower_expr_function name e range hints ⇓ f.
Proof.
  apply build_function_returns. cbv zeta. returns; [apply returns_expr_ref|].
  unfold set_return_terminator_for_operand. returns; [|apply returns_set_terminator].
  case_bool_decide; [apply returns_ret|apply returns_assign_temp].
Qed.
