(* ===== verification/OptLowerForm.v ===== *)
(** * Lowering to the optimization IR: the invariant of the context

    [good] says what holds of the function under construction between two
    operations of the lowering; each operation keeps it while the locals and
    blocks fit their references.  The facts about single definitions hold
    under [T], the assumption that the source has plain identifiers: then no
    operand is a local whose name contains a dot, and only such locals are
    assigned more than once. *)
From S2P Require Import Prelude Numeric Ir OptIr OptPasses OptPropagation OptVerify OptVerifyProps OptLower.
From S2P Require Import OptLowerProps JsonRoundtrip.
From Stdlib Require Import NArith Ascii.
Import Opt.
Open Scope N_scope.

(** ** Names *)
Definition dot : ascii := ascii_of_nat 46.
Fixpoint dotless (s : string) : bool :=
  match s with String c s => negb (bool_decide (c = dot)) && dotless s | "" => true end.
Lemma dotless_app a b : dotless (a +:+ b) = dotless a && dotless b.
Proof. induction a as [|c a IH]; [done|]. rewrite string_cons_app. cbn. by rewrite IH, andb_assoc. Qed.
Lemma dotless_number z : dotless (to_string z) = true.
Proof.
  destruct (to_string_digits z) as (neg & ds & -> & Hds & _). rewrite dotless_app.
  assert (H : dotless (digit_string ds) = true).
  { induction Hds as [|d ds Hd Hds IH]; [done|]. cbn. rewrite IH, andb_true_r, negb_true_iff, bool_decide_eq_false.
    intros E. pose proof (digit_of_char d) as Hdc. rewrite E in Hdc. by specialize (Hdc Hd). }
  rewrite H. by destruct neg.
Qed.
Lemma dotless_storage path : members path ≠ [] → dotless (path_storage_name path) = false.
Proof.
  intros Hm. unfold path_storage_name. rewrite dotless_app. destruct (members path) as [|m l]; [done|].
  cbn [path_storage_suffix]. rewrite dotless_app. cbn. by rewrite andb_false_r.
Qed.

(** ** The invariant *)
Section Form.
Context (T : Prop).
Implicit Types c : LoweringContext.

Definition local_total c : N := N.of_nat (length (lc_locals c)).
Definition block_total c : N := N.of_nat (length (lc_blocks c)).
Definition fits c : Prop := local_total c < 4294967296 ∧ block_total c < 4294967296.
(** A local whose name has no dot. *)
Definition plain (l : list Local_) (x : LocalRef) : bool :=
  match l !! N.to_nat x with Some a => dotless (local_name a) | None => false end.
Definition ref_ok c (x : LocalRef) : Prop := x < local_total c ∧ (T → plain (lc_locals c) x = true).
Definition operand_ok c (op : Operand) : Prop :=
  match op_kind op with
  | OperandKind.Local_ => ref_ok c (op_local op)
  | OperandKind.Constant => True
  | OperandKind.Arg => False
  end.
(** An assignment to [d]: older operands, unless [d] is never read. *)
Record assign_ok c (d : LocalRef) (rv : Rvalue) : Prop := {
  assign_dest : d < local_total c;
  assign_arity : ∀ n, arity (rv_kind rv) = Some n → length (operands rv) = n;
  assign_operands : ∀ op, op ∈ operands rv → operand_ok c op;
  assign_older : T → plain (lc_locals c) d = true →
    ∀ op, op ∈ operands rv → op_kind op = OperandKind.Local_ → op_local op < d }.
Definition code_ok c (s : Statement) : Prop :=
  match st_kind s with
  | StatementKind.Assign => assign_ok c (dest s) (rvalue s)
  | StatementKind.Nop => operands (rvalue s) = []
  | _ => False
  end.
Definition optional_ok c (x : LocalRef) : Prop := x = kNoLocal ∨ ref_ok c x.
Record end_ok c (t : Terminator) : Prop := {
  end_args : args t = [];
  end_condition : optional_ok c (condition t);
  end_return : optional_ok c (return_value t);
  end_tested : tm_kind t = TerminatorKind.SwitchBool ∨ tm_kind t = TerminatorKind.Assert →
    ref_ok c (condition t);
  end_targets : ∀ b, b ∈ successors t → b < block_total c;
  end_kind : tm_kind t ≠ TerminatorKind.Call }.
Definition context_defs c : list LocalRef := lc_blocks c ≫= block_defs.

Definition is_open (t : Terminator) : bool := bool_decide (tm_kind t = TerminatorKind.Unreachable).
Definition open c (b : BlockId) : Prop := ∃ block,
  lc_blocks c !! N.to_nat b = Some block ∧ is_open (terminator block) = true.
(** The time at which a block was closed: later than the blocks that lead to it. *)
Definition timed c : Prop := ∃ (time : nat → nat) (now : nat), ∀ i b,
  lc_blocks c !! i = Some b → is_open (terminator b) = false → (time i < now)%nat ∧
  ∀ t b', t ∈ successors (terminator b) → lc_blocks c !! N.to_nat t = Some b' →
    is_open (terminator b') = false → (time i < time (N.to_nat t))%nat.
Record good c : Prop := {
  good_locals : ∀ i l, lc_locals c !! i = Some l → local_id l = u32 i;
  good_blocks : ∀ i b, lc_blocks c !! i = Some b → block_id b = u32 i;
  good_args : lc_arg_count c ≤ local_total c;
  good_code : ∀ b, b ∈ lc_blocks c → ∀ s, s ∈ block_statements b → code_ok c s;
  good_ends : ∀ b, b ∈ lc_blocks c → end_ok c (terminator b);
  good_single : T → NoDup (base.filter (λ x, plain (lc_locals c) x = true) (context_defs c));
  good_fresh : T → ∀ d, d ∈ context_defs c → plain (lc_locals c) d = true → lc_arg_count c ≤ d;
  good_timed : timed c }.

(** ** How the context grows *)
Record extends c c' : Prop := {
  ext_locals : ∀ i l, lc_locals c !! i = Some l →
    ∃ l', lc_locals c' !! i = Some l' ∧ local_name l' = local_name l;
  ext_blocks : (length (lc_blocks c) ≤ length (lc_blocks c'))%nat;
  ext_args : lc_arg_count c' = lc_arg_count c }.
#[export] Instance extends_preorder : PreOrder extends.
Proof.
  split; [intros c; split; [eauto|done|done]|]. intros a b c [L1 B1 A1] [L2 B2 A2].
  split; [|lia|congruence]. intros i l Hl. destruct (L1 i l Hl) as (l1 & Hl1 & E1).
  destruct (L2 i l1 Hl1) as (l2 & Hl2 & E2). exists l2. split; [done|congruence].
Qed.
Lemma extends_total c c' : extends c c' → (length (lc_locals c) ≤ length (lc_locals c'))%nat.
Proof.
  intros [L _ _]. destruct (Nat.le_gt_cases (length (lc_locals c)) (length (lc_locals c'))) as [|Hlt]; [done|].
  destruct (lookup_lt_is_Some_2 _ _ Hlt) as [l Hl]. destruct (L _ _ Hl) as (l' & Hl' & _).
  apply lookup_lt_Some in Hl'. lia.
Qed.
Lemma extends_fits c c' : extends c c' → fits c' → fits c.
Proof.
  intros He [H1 H2]. pose proof (extends_total _ _ He). pose proof (ext_blocks _ _ He).
  unfold fits, local_total, block_total in *. lia.
Qed.
Lemma extends_plain c c' x : extends c c' → x < local_total c →
  plain (lc_locals c') x = plain (lc_locals c) x.
Proof.
  intros He Hx. unfold plain, local_total in *.
  destruct (lookup_lt_is_Some_2 (lc_locals c) (N.to_nat x)) as [l Hl]; [lia|].
  destruct (ext_locals _ _ He _ _ Hl) as (l' & Hl' & E). by rewrite Hl, Hl', E.
Qed.
Lemma extends_ref c c' x : extends c c' → ref_ok c x → ref_ok c' x.
Proof.
  intros He [Hx Hp]. pose proof (extends_total _ _ He). split; [unfold local_total in *; lia|].
  intros HT. by rewrite (extends_plain c), Hp.
Qed.
Lemma extends_operand c c' op : extends c c' → operand_ok c op → operand_ok c' op.
Proof. unfold operand_ok. destruct (op_kind op); [apply extends_ref|done..]. Qed.
Lemma extends_assign c c' d rv : extends c c' → assign_ok c d rv → assign_ok c' d rv.
Proof.
  intros He [Hd Ha Ho Hy]. pose proof (extends_total _ _ He). split; [unfold local_total in *; lia|done| |].
  - intros op Hop. by eapply extends_operand; [|apply Ho].
  - intros HT Hp. rewrite (extends_plain c) in Hp by done. auto.
Qed.
Lemma extends_code c c' s : extends c c' → code_ok c s → code_ok c' s.
Proof. unfold code_ok. destruct (st_kind s); [apply extends_assign|done..]. Qed.
Lemma extends_end c c' t : extends c c' → end_ok c t → end_ok c' t.
Proof.
  intros He [Ha Hc Hr Hk Ht Hn]. pose proof (ext_blocks _ _ He).
  assert (Ho : ∀ x, optional_ok c x → optional_ok c' x).
  { intros x [->|Hx]; [by left|right]. by eapply extends_ref. }
  split; auto.
  - intros Hk'. eapply extends_ref; eauto.
  - intros b Hb. specialize (Ht b Hb). unfold block_total in *. lia.
Qed.

(** Contexts with the same control flow. *)
Record same_flow c c' : Prop := {
  same_current : current_block c' = current_block c;
  same_ends : terminator <$> lc_blocks c' = terminator <$> lc_blocks c }.
#[export] Instance same_flow_preorder : PreOrder same_flow.
Proof. split; [done|]. intros a b c [] []. split; congruence. Qed.
Lemma same_flow_lookup c c' i b : same_flow c c' → lc_blocks c' !! i = Some b →
  ∃ b0, lc_blocks c !! i = Some b0 ∧ terminator b0 = terminator b.
Proof.
  intros [_ He] Hb. assert (H : (terminator <$> lc_blocks c') !! i = Some (terminator b))
    by by rewrite list_lookup_fmap, Hb.
  rewrite He, list_lookup_fmap in H. destruct (lc_blocks c !! i) as [b0|]; [|done].
  injection H as H. eauto.
Qed.
Lemma same_flow_sym c c' : same_flow c c' → same_flow c' c.
Proof. by intros []. Qed.
Lemma same_flow_open c c' b : same_flow c c' → open c' b ↔ open c b.
Proof.
  intros Hs. split; intros (block & Hb & Ho).
  - destruct (same_flow_lookup _ _ _ _ Hs Hb) as (b0 & Hb0 & E). exists b0. by rewrite E.
  - destruct (same_flow_lookup _ _ _ _ (same_flow_sym _ _ Hs) Hb) as (b0 & Hb0 & E). exists b0. by rewrite E.
Qed.
Lemma same_flow_timed c c' : same_flow c c' → timed c → timed c'.
Proof.
  intros Hs (time & now & Ht). exists time, now. intros i b Hb Ho.
  destruct (same_flow_lookup _ _ _ _ Hs Hb) as (b0 & Hb0 & E). rewrite <-E in Ho |- *.
  destruct (Ht i b0 Hb0 Ho) as [Hn Hlt]. split; [done|]. intros t b' Hts Hb' Ho'.
  destruct (same_flow_lookup _ _ _ _ Hs Hb') as (b1 & Hb1 & E1). rewrite <-E1 in Ho'. eauto.
Qed.

(** ** Good contexts that differ in locals or in one block *)
Lemma filter_ext_elem {A} (P Q : A → Prop) `{∀ x, Decision (P x)} `{∀ x, Decision (Q x)} (l : list A) :
  (∀ x, x ∈ l → P x ↔ Q x) → base.filter P l = base.filter Q l.
Proof.
  induction l as [|x l IH]; intros Hl; [done|]. rewrite !filter_cons.
  rewrite (IH (λ y Hy, Hl y (list_elem_of_further _ _ _ Hy))).
  destruct (decide (P x)) as [Hx|Hx], (decide (Q x)) as [Hy|Hy]; try done;
    destruct (Hl x (list_elem_of_here _ _)); tauto.
Qed.
Lemma end_defs c t : end_ok c t → terminator_defs t = [].
Proof. intros Ht. unfold terminator_defs. by rewrite bool_decide_false by apply (end_kind _ _ Ht). Qed.
Lemma defs_older c d : good c → d ∈ context_defs c → d < local_total c.
Proof.
  intros Hg Hd. apply list_elem_of_bind in Hd as (b & Hd & Hb). unfold block_defs in Hd.
  rewrite (end_defs c), app_nil_r in Hd by (by apply good_ends).
  apply list_elem_of_bind in Hd as (s & Hd & Hs). pose proof (good_code _ Hg b Hb s Hs) as Hok.
  unfold statement_defs, is_assign, code_ok in *. destruct (st_kind s); cbn in *; try done;
    [|by apply elem_of_nil in Hd..]. apply list_elem_of_singleton in Hd as ->. apply Hok.
Qed.
Lemma good_extends c c' : good c → extends c c' → lc_blocks c' = lc_blocks c →
  (∀ i l, lc_locals c' !! i = Some l → local_id l = u32 i) → good c'.
Proof.
  intros Hg He Hb Hl. pose proof (extends_total _ _ He) as Ht.
  assert (Hd : context_defs c' = context_defs c) by (unfold context_defs; by rewrite Hb).
  assert (Hp : ∀ d, d ∈ context_defs c → plain (lc_locals c') d = plain (lc_locals c) d).
  { intros d Hin. apply extends_plain; [done|]. by apply defs_older. }
  split; rewrite ?Hb, ?Hd, ?(ext_args _ _ He).
  - done.
  - apply Hg.
  - pose proof (good_args _ Hg). unfold local_total in *. lia.
  - intros b Hin s Hs. eapply extends_code; [done|]. by eapply good_code.
  - intros b Hin. eapply extends_end; [done|]. by apply good_ends.
  - intros HT. rewrite (filter_ext_elem _ (λ x, plain (lc_locals c) x = true)).
    + by apply good_single.
    + intros x Hx. by rewrite Hp.
  - intros HT d Hin. rewrite Hp by done. by apply good_fresh.
  - unfold timed. rewrite Hb. apply Hg.
Qed.

(** Changing the current block. *)
Lemma bind_insert_perm {A B} (g : A → list B) l i x x' extra : l !! i = Some x → g x' ≡ₚ extra ++ g x →
  (<[i:=x']> l) ≫= g ≡ₚ extra ++ (l ≫= g).
Proof.
  revert i. induction l as [|y l IH]; intros [|i]; [done..| |]; cbn [lookup list_lookup list_insert insert].
  - intros [= ->] Hg. rewrite !bind_cons, Hg. by rewrite app_assoc.
  - intros Hi Hg. rewrite !bind_cons, (IH i Hi Hg). rewrite !app_assoc. f_equiv. apply Permutation_app_comm.
Qed.
Definition with_block (b : BasicBlock) c : LoweringContext :=
  with_lc_blocks (<[N.to_nat (current_block c) := b]> (lc_blocks c)) c.
Lemma update_block_eq f c c' : update_current_block f c ⇓ (tt, c') →
  ∃ b, lc_blocks c !! N.to_nat (current_block c) = Some b ∧ c' = with_block (f b) c.
Proof.
  unfold update_current_block, read_current_block, mbind, eff_bind, get_context, lift. intros H.
  destruct (lc_blocks c !! N.to_nat (current_block c)) as [b|]; [|done]. injection H as <-. by exists b.
Qed.
Lemma with_block_extends b c : extends c (with_block b c).
Proof. split; [eauto| |done]. unfold with_block. cbn. by rewrite length_insert. Qed.
Lemma with_block_good b0 b d c : good c → lc_blocks c !! N.to_nat (current_block c) = Some b0 →
  block_id b = block_id b0 → block_defs b ≡ₚ d ++ block_defs b0 → timed (with_block b c) →
  (∀ s, s ∈ block_statements b → code_ok c s) → end_ok c (terminator b) → NoDup d →
  (T → ∀ x, x ∈ d → plain (lc_locals c) x = true → x ∉ context_defs c ∧ lc_arg_count c ≤ x) →
  good (with_block b c).
Proof.
  intros Hg Hb Hid Hdefs Htimed Hcode Hend Hnd Hfresh. pose proof (with_block_extends b c) as He.
  assert (Hin : ∀ x, x ∈ lc_blocks (with_block b c) → x = b ∨ x ∈ lc_blocks c).
  { intros x Hx. unfold with_block in Hx. cbn in Hx. apply list_elem_of_lookup in Hx as [i Hi].
    apply list_lookup_insert_Some in Hi as [(_ & <- & _)|[_ Hi]]; [by left|right].
    by eapply list_elem_of_lookup_2. }
  assert (Hd : context_defs (with_block b c) ≡ₚ d ++ context_defs c) by by eapply bind_insert_perm.
  split.
  - apply Hg.
  - intros i x Hx. unfold with_block in Hx. cbn in Hx.
    apply list_lookup_insert_Some in Hx as [(<- & <- & _)|[_ Hx]]; [|by apply Hg].
    rewrite Hid. by eapply good_blocks.
  - apply Hg.
  - intros x Hx s Hs. eapply extends_code; [done|]. apply Hin in Hx as [->|Hx]; [auto|by eapply good_code].
  - intros x Hx. eapply extends_end; [done|]. apply Hin in Hx as [->|Hx]; [auto|by eapply good_ends].
  - intros HT. rewrite Hd, filter_app. apply NoDup_app. split_and!.
    + by apply NoDup_filter.
    + intros x Hx Hx'. apply list_elem_of_filter in Hx as [Hp Hx]. apply list_elem_of_filter in Hx' as [_ Hx'].
      by destruct (Hfresh HT x Hx Hp).
    + by apply (good_single _ Hg).
  - intros HT x Hx. rewrite Hd in Hx. apply elem_of_app in Hx as [Hx|Hx]; [intros; by apply Hfresh|].
    by apply (good_fresh _ Hg).
  - done.
Qed.
End Form.
