(* ===== verification/OptLowerSpecs.v ===== *)
(** * Lowering to the optimization IR: what its operations keep

    A triple [spec P m Q] says that an operation only extends the context,
    and that it keeps the invariant of [OptLowerForm] as long as the numbers
    of locals and blocks fit their references.  An expression leaves the
    control flow alone and gives an operand that may be read; a statement
    leaves the current block open and closes no other open block. *)
From S2P Require Import Prelude Numeric Ir OptIr OptPasses OptPropagation OptVerify OptVerifyProps OptLower.
From S2P Require Import OptLowerProps OptLowerForm.
From Stdlib Require Import NArith.
Import Opt.
Open Scope N_scope.

(** ** Tidy sources: identifiers without dots, and only members are assigned *)
Inductive tidy_expr (e : Expr) : Prop := tidy_expr_intro :
  (∀ p, expr_node e = PathExpr p → dotless (root_name p) = true) →
  (∀ e', e' ∈ children (expr_node e) → tidy_expr e') → tidy_expr e.
Definition statement_exprs (n : StatementNode) : list Expr :=
  match n with
  | LetStatement _ _ e | AssignStatement _ e | IfStatement e _ _ | ReturnStatement e
  | AssertStatement e | ExprStatement e => option_list e
  | GotoStatement _ => []
  end.
Inductive tidy_statement (s : Ir.Statement) : Prop := tidy_statement_intro :
  (∀ p e, statement_node s = AssignStatement p e → members p ≠ []) →
  (∀ e, e ∈ statement_exprs (statement_node s) → tidy_expr e) →
  (∀ s', s' ∈ nested_statements (statement_node s) → tidy_statement s') → tidy_statement s.

Section Specs.
Context (T : Prop).
Implicit Types c : LoweringContext.

Definition spec {A} (P : LoweringContext → Prop) (m : low A) (Q : A → LoweringContext → Prop) : Prop :=
  ∀ c a c', m c ⇓ (a, c') →
    extends c c' ∧ (fits c' → good T c → P c → good T c' ∧ Q a c').

Lemma spec_ret {A} P (a : A) : spec P (mret a) (λ _, P).
Proof. intros c b c' [= <- <-]. done. Qed.
Lemma spec_bind {A B} P (m : low A) R (f : A → low B) Q :
  spec P m R → (∀ a, spec (R a) (f a) Q) → spec P (m ≫= f) Q.
Proof.
  intros Hm Hf c b c' H. inv_eff H. destruct (Hm _ _ _ E) as [X1 G1]. destruct (Hf _ _ _ _ H) as [X2 G2].
  split; [by etrans|]. intros Hfit Hg HP. destruct G1 as [Hg1 HR]; [by eapply extends_fits|done|done|].
  by apply G2.
Qed.
Lemma spec_weaken {A} (P P' : LoweringContext → Prop) (m : low A) (Q Q' : A → LoweringContext → Prop) :
  spec P m Q → (∀ c, good T c → P' c → P c) → (∀ a c, Q a c → Q' a c) → spec P' m Q'.
Proof.
  intros Hm HP HQ c a c' H. destruct (Hm _ _ _ H) as [X G]. split; [done|]. intros Hf Hg Hc.
  destruct (G Hf Hg (HP c Hg Hc)). auto.
Qed.
(** Facts of the context before survive if they survive extensions. *)
Lemma spec_frame {A} (F P : LoweringContext → Prop) (m : low A) Q :
  (∀ c c', extends c c' → F c → F c') → spec P m Q →
  spec (λ c, F c ∧ P c) m (λ a c, F c ∧ Q a c).
Proof.
  intros HF Hm c a c' H. destruct (Hm _ _ _ H) as [X G]. split; [done|]. intros Hf Hg [HFc HPc].
  destruct (G Hf Hg HPc). eauto.
Qed.
(** Facts that do not mention the context move out of the precondition. *)
Definition grows {A} (m : low A) : Prop := ∀ c a c', m c ⇓ (a, c') → extends c c'.
Lemma spec_grows {A} P (m : low A) Q : spec P m Q → grows m.
Proof. intros Hm c a c' H. apply (Hm _ _ _ H). Qed.
Lemma grows_bind {A B} (m : low A) (f : A → low B) : grows m → (∀ a, grows (f a)) → grows (m ≫= f).
Proof. intros Hm Hf c b c' H. inv_eff H. etrans; [by eapply Hm|by eapply Hf]. Qed.
Lemma spec_prove {A} (D : Prop) P (m : low A) Q : grows m → (D → spec P m Q) → spec (λ c, D ∧ P c) m Q.
Proof.
  intros He Hm c a c' H. split; [by eapply He|]. intros Hf Hg [HD HP]. by apply (Hm HD _ _ _ H).
Qed.

(** ** Steps that leave the control flow alone *)
Definition stable (F : LoweringContext → Prop) : Prop := ∀ c c',
  extends c c' → same_flow c c' → F c → F c'.
Definition calm {A} (P : LoweringContext → Prop) (m : low A) (Q : A → LoweringContext → Prop) : Prop :=
  ∀ F, stable F → spec (λ c, F c ∧ P c) m (λ a c, F c ∧ Q a c).
Definition readable (l : list Operand) c : Prop := ∀ op, op ∈ l → operand_ok T c op.
Lemma readable_stable l : stable (readable l).
Proof. intros c c' He _ Hl op Hop. by eapply extends_operand; [|apply Hl]. Qed.
Lemma stable_and F G : stable F → stable G → stable (λ c, F c ∧ G c).
Proof. intros HF HG c c' He Hs []. split; eauto. Qed.
Lemma stable_true : stable (λ _, True).
Proof. done. Qed.
Lemma calm_ret {A} P Q (a : A) : (∀ c, good T c → P c → Q a c) → calm P (mret a) Q.
Proof. intros HPQ F HF c b c' [= <- <-]. split; [done|]. intros _ Hg []. auto. Qed.
Lemma calm_bind {A B} P (m : low A) R (f : A → low B) Q :
  calm P m R → (∀ a, calm (R a) (f a) Q) → calm P (m ≫= f) Q.
Proof. intros Hm Hf F HF. eapply spec_bind; [by apply Hm|]. intros a. by apply Hf. Qed.
Lemma calm_frame {A} (G P : LoweringContext → Prop) (m : low A) Q : stable G → calm P m Q →
  calm (λ c, G c ∧ P c) m (λ a c, G c ∧ Q a c).
Proof.
  intros HG Hm F HF. eapply spec_weaken; [apply (Hm (λ c, F c ∧ G c)); by apply stable_and| |]; cbn; tauto.
Qed.
Lemma calm_weaken {A} (P P' : LoweringContext → Prop) (m : low A) (Q Q' : A → LoweringContext → Prop) :
  calm P m Q → (∀ c, good T c → P' c → P c) → (∀ a c, Q a c → Q' a c) → calm P' m Q'.
Proof.
  intros Hm HP HQ F HF. eapply spec_weaken; [by apply Hm| |]; cbn; [|naive_solver].
  intros c Hg []. auto.
Qed.
(** From what a step does to the context. *)
Lemma calm_intro {A} P (m : low A) Q : (∀ c a c', m c ⇓ (a, c') →
    extends c c' ∧ same_flow c c' ∧ (fits c' → good T c → P c → good T c' ∧ Q a c')) → calm P m Q.
Proof.
  intros Hm F HF c a c' H. destruct (Hm _ _ _ H) as (X & S & G). split; [done|]. intros Hf Hg [HFc HPc].
  destruct (G Hf Hg HPc). eauto.
Qed.
Lemma calm_spec {A} P (m : low A) Q : calm P m Q → spec P m Q.
Proof.
  intros Hm. eapply spec_weaken; [apply (Hm (λ _, True)), stable_true| |]; cbn; tauto.
Qed.
Lemma get_context_calm P : calm P get_context (λ c0 c, c0 = c ∧ P c).
Proof. apply calm_intro. intros c a c' [= <- <-]. done. Qed.

(** ** Locals *)
Lemma fits_u32 c : fits c → u32 (length (lc_locals c)) = local_total c ∧ u32 (length (lc_blocks c)) = block_total c.
Proof. intros [H1 H2]. unfold u32, local_total, block_total in *. by rewrite !N.mod_small. Qed.
Definition with_new_local name type temp range c : LoweringContext :=
  with_locals (lc_locals c ++ [mkLocal (u32 (length (lc_locals c))) name type temp range]) c.
Lemma new_local_extends name type temp range c : extends c (with_new_local name type temp range c).
Proof.
  split; [|done|done]. intros i l Hl. exists l. split; [|done]. cbn. by apply lookup_app_l_Some.
Qed.
Lemma new_local_good name type temp range c : good T c → good T (with_new_local name type temp range c).
Proof.
  intros Hg. apply (good_extends _ c); [done|apply new_local_extends|done|].
  intros i l Hl. cbn in Hl. apply lookup_app_Some in Hl as [Hl|[Hi Hl]]; [by apply Hg|].
  apply list_lookup_singleton_Some in Hl as [Hi' <-]. cbn. f_equal. lia.
Qed.
(** A fresh local [d]: younger than the operands [l]. *)
Record fresh_local (name : string) (l : list Operand) (d : LocalRef) c : Prop := {
  fresh_bound : d < local_total c;
  fresh_name : plain (lc_locals c) d = dotless name;
  fresh_undefined : d ∉ context_defs c;
  fresh_no_argument : lc_arg_count c ≤ d;
  fresh_younger : ∀ op, op ∈ l → operand_ok T c op ∧ (op_kind op = OperandKind.Local_ → op_local op < d) }.
Lemma new_local_calm name type temp range l :
  calm (readable l) (new_local name type temp range) (fresh_local name l).
Proof.
  apply calm_intro. intros c a c' [= <- <-]. fold (with_new_local name type temp range c).
  pose proof (new_local_extends name type temp range c) as He. split_and!; [done|done|].
  intros Hf Hg Hl. pose proof (extends_fits _ _ He Hf) as Hfc. destruct (fits_u32 c Hfc) as [-> _].
  split; [by apply new_local_good|]. unfold local_total. split.
  - unfold local_total. cbn. rewrite length_app. cbn. lia.
  - unfold plain. cbn [lc_locals with_new_local with_locals]. rewrite Nat2N.id, list_lookup_middle by done. done.
  - intros Hd. apply (defs_older T c _ Hg) in Hd. unfold local_total in Hd. lia.
  - apply (good_args _ _ Hg).
  - intros op Hop. split; [eapply extends_operand; [done|by apply Hl]|]. intros Hk.
    pose proof (Hl op Hop) as Hok. unfold operand_ok in Hok. rewrite Hk in Hok. apply Hok.
Qed.
(** Facts that survive when only locals change. *)
Definition steady (P : LoweringContext → Prop) : Prop := ∀ c c',
  extends c c' → lc_blocks c' = lc_blocks c → P c → P c'.
Lemma refined_same type range local : local_id (refined type range local) = local_id local ∧
  local_name (refined type range local) = local_name local.
Proof. done. Qed.
Lemma refine_calm P ref type range : steady P → calm P (refine_local ref type range) (λ _, P).
Proof.
  intros HP. apply calm_intro. intros c a c' H. unfold refine_local, mbind, eff_bind, get_context in H.
  destruct (bool_decide (ref = kNoLocal) || (N.of_nat (length (lc_locals c)) <=? ref)).
  { injection H as <- <-. done. }
  injection H as <- <-.
  assert (He : extends c (with_locals (alter (refined type range) (N.to_nat ref) (lc_locals c)) c)).
  { split; [|done|done]. intros i l Hl. cbn [lc_locals with_locals]. rewrite list_lookup_alter.
    destruct (decide (N.to_nat ref = i)) as [->|Hn]; [|eauto]. rewrite Hl. by eexists. }
  split_and!; [done|done|]. intros Hf Hg Hc. split; [|by eapply HP].
  apply (good_extends _ c); [done|done|done|]. intros i l Hl. cbn [lc_locals with_locals] in Hl.
  rewrite list_lookup_alter in Hl. destruct (decide (N.to_nat ref = i)) as [<-|Hn]; [|by apply Hg].
  destruct (lc_locals c !! N.to_nat ref) as [l'|] eqn:E; [|done]. injection Hl as <-. apply (good_locals _ _ Hg _ _ E).
Qed.
Lemma counters_calm P temps : steady P →
  calm P (c ← get_context; put_context (with_counters (temps c) (lc_arg_count c) c)) (λ _, P).
Proof.
  intros HP. apply calm_intro. intros c a c' [= <- <-].
  assert (He : extends c (with_counters (temps c) (lc_arg_count c) c)) by by split; [eauto|..].
  split_and!; [done|done|]. intros _ Hg Hc. split; [|by eapply HP].
  apply (good_extends _ c); try done. apply Hg.
Qed.

(** ** Assignments *)
Definition undefined c (d : LocalRef) : Prop :=
  T → plain (lc_locals c) d = true → d ∉ context_defs c ∧ lc_arg_count c ≤ d.
Definition assignable (d : LocalRef) (rv : Rvalue) c : Prop := assign_ok T c d rv ∧ undefined c d.
Lemma assignable_steady d rv : steady (assignable d rv).
Proof.
  intros c c' He Hb [Ha Hu]. split; [by eapply extends_assign|]. unfold undefined, context_defs in *.
  rewrite Hb, (ext_args _ _ He), (extends_plain c) by (done || apply Ha). done.
Qed.
Lemma push_calm s : calm (λ c, code_ok T c s ∧ ∀ d, d ∈ statement_defs s → undefined c d)
  (update_current_block (push_statement s)) (λ _ _, True).
Proof.
  apply calm_intro. intros c [] c' H. apply update_block_eq in H as (b & Hb & ->).
  assert (Hs : same_flow c (with_block (push_statement s b) c)).
  { split; [done|]. unfold with_block. cbn [lc_blocks with_lc_blocks].
    rewrite list_fmap_insert. apply list_insert_id. rewrite list_lookup_fmap, Hb. done. }
  split_and!; [apply with_block_extends|done|]. intros Hf Hg [Hc Hu]. split; [|done].
  eapply (with_block_good _ b _ (statement_defs s)); try done.
  - unfold block_defs. cbn. rewrite bind_app, bind_cons. cbn. rewrite app_nil_r.
    rewrite (Permutation_app_comm _ (statement_defs s)). by rewrite app_assoc.
  - eapply same_flow_timed; [done|apply Hg].
  - intros s' Hs'. cbn in Hs'. apply elem_of_app in Hs' as [Hs'|Hs']; [|by apply list_elem_of_singleton in Hs' as ->].
    eapply good_code; [done|by eapply list_elem_of_lookup_2|done].
  - cbn. eapply good_ends; [done|by eapply list_elem_of_lookup_2].
  - unfold statement_defs. destruct (is_assign s); [apply NoDup_singleton|constructor].
  - intros HT x Hx. by apply Hu.
Qed.
Lemma emit_assign_calm d rv range :
  calm (assignable d rv) (emit_assign d rv range) (λ _ c, d < local_total c).
Proof.
  unfold emit_assign. eapply calm_bind; [apply refine_calm, assignable_steady|intros ?; cbv beta].
  eapply calm_weaken; [apply (calm_frame (λ c, d < local_total c)); [|apply push_calm]| |cbn; tauto].
  - intros c c' He _ Hd. pose proof (extends_total _ _ He). unfold local_total in *. lia.
  - intros c _ [Ha Hu]. cbn. split_and!; [apply Ha|done|]. intros x Hx. unfold statement_defs in Hx. cbn in Hx.
    by apply list_elem_of_singleton in Hx as ->.
Qed.
Definition well_shaped (rv : Rvalue) : Prop := ∀ n, arity (rv_kind rv) = Some n → length (operands rv) = n.
(** A new local [name] that is assigned at once. *)
Lemma define_calm name rv temp range range' type : well_shaped rv →
  calm (readable (operands rv)) (d ← new_local name type temp range; _ ← emit_assign d rv range'; mret d)
    (λ d c, ref_ok T c d ∨ dotless name = false).
Proof.
  intros Hn. eapply calm_bind; [apply (new_local_calm _ _ _ _ (operands rv))|intros d].
  apply (calm_bind _ _ (λ _ c, plain (lc_locals c) d = dotless name ∧ d < local_total c)); [|intros _; apply calm_ret].
  - eapply calm_weaken; [apply (calm_frame (λ c, plain (lc_locals c) d = dotless name ∧ d < local_total c));
      [|apply emit_assign_calm]| |cbn; tauto].
    + intros c c' He _ [Hp Hd]. pose proof (extends_total _ _ He). rewrite (extends_plain c) by done.
      split; [done|]. unfold local_total in *. lia.
    + intros c Hg Hf. split; [split; apply Hf|]. split; [split|].
      * apply Hf.
      * done.
      * intros op Hop. apply (fresh_younger _ _ _ _ Hf op Hop).
      * intros _ _ op Hop. by apply (fresh_younger _ _ _ _ Hf op Hop).
      * intros _ _. split; apply Hf.
  - intros c _ [Hp Hd]. destruct (dotless name); [left|by right]. by split.
Qed.
Lemma counters_then_calm {A} P temps (m : low A) Q : steady P → calm P m Q →
  calm P (c ← get_context; _ ← put_context (with_counters (temps c) (lc_arg_count c) c); m) Q.
Proof.
  intros HP Hm F HF c a c' H.
  exact (calm_bind P (c ← get_context; put_context (with_counters (temps c) (lc_arg_count c) c))
    (λ _, P) (λ _, m) Q (counters_calm P temps HP) (λ _, Hm) F HF c a c' H).
Qed.
Lemma stable_steady l : steady (readable l).
Proof. intros c c' He _ Hl op Hop. by eapply extends_operand; [|apply Hl]. Qed.
Lemma assign_temp_calm rv range : well_shaped rv →
  calm (readable (operands rv)) (assign_temp rv range) (λ d c, ref_ok T c d).
Proof.
  intros Hn F HF c d c' H. unfold assign_temp, new_temp in H.
  set (name := "_tmp" +:+ to_string (Z.of_N (temp_counter c))).
  assert (Hd : dotless name = true) by (unfold name; rewrite dotless_app, dotless_number; done).
  cut (spec (λ c, F c ∧ readable (operands rv) c)
    (c ← get_context; _ ← put_context (with_counters (u32_succ (temp_counter c)) (lc_arg_count c) c);
     d ← new_local name (result_type rv) true range; _ ← emit_assign d rv range; mret d)
    (λ d c, F c ∧ ref_ok T c d)); [intros Hs; exact (Hs c d c' H)|].
  apply (counters_then_calm _ (λ c, u32_succ (temp_counter c))); [apply stable_steady| |done].
  eapply calm_weaken; [by apply define_calm|done|]. rewrite Hd. by intros ? ? [|].
Qed.
Lemma emit_temp_calm rv range : well_shaped rv →
  calm (readable (operands rv)) (emit_temp rv range) (λ op c, operand_ok T c op).
Proof. intros Hn. eapply calm_bind; [by apply assign_temp_calm|intros d]. by apply calm_ret. Qed.

(** ** Paths *)
Lemma find_local_calm P name :
  calm P (find_local name) (λ d c, P c ∧ (d = kNoLocal ∨ d < local_total c ∧ plain (lc_locals c) d = dotless name)).
Proof.
  apply calm_intro. intros c d c' [= <- <-]. split_and!; [done|done|]. intros Hf Hg HP.
  split_and!; [done|done|]. unfold find_local_in.
  destruct (list_find _ (lc_locals c)) as [[i l]|] eqn:E; [|by left].
  apply list_find_Some in E as (Hl & Hn & _). right.
  assert (u32 i = N.of_nat i) as ->.
  { unfold u32. apply N.mod_small. apply lookup_lt_Some in Hl. destruct Hf. unfold local_total in *. lia. }
  unfold plain, local_total. rewrite Nat2N.id, Hl, Hn. split; [|done]. apply lookup_lt_Some in Hl. lia.
Qed.
Lemma ref_stable x : stable (λ c, ref_ok T c x).
Proof. intros c c' He _. by apply extends_ref. Qed.
Lemma ref_steady x : steady (λ c, ref_ok T c x).
Proof. intros c c' He _. by apply extends_ref. Qed.
Lemma readable_local x c : ref_ok T c x → readable [make_local x] c.
Proof. by intros Hx op ->%list_elem_of_singleton. Qed.
Lemma lower_members_calm current type range l :
  calm (λ c, ref_ok T c current) (lower_members current type range l) (λ d c, ref_ok T c d).
Proof.
  revert current. induction l as [|m l IH]; intros current; cbn [lower_members]; [by apply calm_ret|].
  eapply calm_bind; [|intros d; apply IH]. eapply calm_weaken; [apply assign_temp_calm| |done].
  - by intros n [= <-].
  - intros c _. apply readable_local.
Qed.
Lemma new_plain_calm P name type temp range : (T → dotless name = true) →
  calm P (new_local name type temp range) (λ d c, ref_ok T c d).
Proof.
  intros Hn. eapply calm_weaken; [apply (new_local_calm _ _ _ _ [])| |].
  - intros c _ _ op Hop. by apply elem_of_nil in Hop.
  - intros d c Hf. split; [apply Hf|]. intros HT. rewrite (fresh_name _ _ _ _ Hf). auto.
Qed.
Lemma lower_path_calm path type range : (T → dotless (root_name path) = true) →
  calm (λ _, True) (lower_path path type range) (λ op c, operand_ok T c op).
Proof.
  intros Hn. unfold lower_path. eapply calm_bind; [apply find_local_calm|intros d; cbv beta].
  eapply calm_bind; [|intros x; eapply calm_bind; [apply lower_members_calm|intros y; by apply calm_ret]].
  case_bool_decide as Hd.
  - eapply calm_bind; [apply get_context_calm|intros c0]. by apply new_plain_calm.
  - apply (calm_bind _ _ (λ _ c, ref_ok T c d)); [|intros _; by apply calm_ret].
    apply (calm_weaken (λ c, ref_ok T c d) _ _ (λ _ c, ref_ok T c d)); [| |done].
    + case_bool_decide; [apply refine_calm, ref_steady|by apply calm_ret].
    + intros c _ (_ & [->|[Hb Hp]]); [done|]. split; [done|]. intros HT. rewrite Hp. auto.
Qed.

(** ** Expressions *)
Lemma readable_cons op l c : operand_ok T c op → readable l c → readable (op :: l) c.
Proof. intros Ho Hl x [->|Hx]%elem_of_cons; auto. Qed.
Lemma operand_stable op : stable (λ c, operand_ok T c op).
Proof. intros c c' He _. by apply extends_operand. Qed.
Section Parts.
Context (lower : Expr → low Operand) (parts : list Expr).
Context (Hl : ∀ e, e ∈ parts → calm (λ _, True) (lower e) (λ op c, operand_ok T c op)).
Lemma lower_ref_calm o P : option_list o ⊆ parts → calm P (lower_ref lower o) (λ op c, operand_ok T c op).
Proof.
  intros Ho. destruct o as [e|]; cbn [lower_ref]; [|by apply calm_ret].
  eapply calm_weaken; [apply Hl, Ho; by left|done|done].
Qed.
(** One more operand in front of those of [m]. *)
Lemma lower_cons_calm o (m : low (list Operand)) P : option_list o ⊆ parts →
  (∀ P, calm P m readable) → calm P (op ← lower_ref lower o; l ← m; mret (op :: l)) readable.
Proof.
  intros Ho Hm. eapply calm_bind; [by apply lower_ref_calm|intros op].
  apply (calm_bind _ _ (λ l c, operand_ok T c op ∧ readable l c)).
  - eapply calm_weaken; [apply (calm_frame (λ c, operand_ok T c op)), (Hm (λ _, True)); apply operand_stable|..];
      cbn; tauto.
  - intros l. apply calm_ret. intros c _ []. by apply readable_cons.
Qed.
Lemma nil_calm P : calm P (mret []) readable.
Proof. apply calm_ret. intros c _ _ op Hop. by apply elem_of_nil in Hop. Qed.
Lemma lower_refs_calm l P : l ≫= option_list ⊆ parts → calm P (lower_refs lower l) readable.
Proof.
  revert P. induction l as [|o l IH]; intros P Hp; cbn [lower_refs]; [apply nil_calm|].
  rewrite bind_cons in Hp. apply list_subseteq_app_iff_l in Hp as [? ?]. apply lower_cons_calm; auto.
Qed.
Lemma lower_fields_calm (l : list (string * ExprRef)) P :
  l ≫= (λ f, option_list f.2) ⊆ parts → calm P (lower_fields lower l) readable.
Proof.
  revert P. induction l as [|[f o] l IH]; intros P Hp; cbn [lower_fields]; [apply nil_calm|].
  rewrite bind_cons in Hp. apply list_subseteq_app_iff_l in Hp as [? ?]. apply lower_cons_calm; auto.
Qed.
Lemma lower_entries_calm (l : list (ExprRef * ExprRef)) P :
  l ≫= (λ f, option_list f.1 ++ option_list f.2) ⊆ parts → calm P (lower_entries lower l) readable.
Proof.
  revert P. induction l as [|[k v] l IH]; intros P Hp; cbn [lower_entries]; [apply nil_calm|].
  rewrite bind_cons in Hp. apply list_subseteq_app_iff_l in Hp as [Hp ?].
  apply list_subseteq_app_iff_l in Hp as [? ?].
  intros F HF c a c' Hrun.
  refine (lower_cons_calm k (vo ← lower_ref lower v; os ← lower_entries lower l; mret (vo :: os)) P
    _ (λ P, lower_cons_calm v _ P _ _) F HF c a c' _); auto.
  revert Hrun. unfold mbind, eff_bind, mret, eff_ret. destruct (lower_ref lower k c) as [[ko c1]| |]; [|done|done].
  destruct (lower_ref lower v c1) as [[vo c2]| |]; [|done|done].
  by destruct (lower_entries lower l c2) as [[os c3]| |].
Qed.
End Parts.

Lemma emit_readable (m : low (list Operand)) (rv : list Operand → Rvalue) range P :
  calm P m readable → (∀ l, operands (rv l) = l ∧ arity (rv_kind (rv l)) = None) →
  calm P (l ← m; emit_temp (rv l) range) (λ op c, operand_ok T c op).
Proof.
  intros Hm Hrv. eapply calm_bind; [done|intros l]. destruct (Hrv l) as [E Ha].
  eapply calm_weaken; [apply emit_temp_calm; unfold well_shaped; by rewrite Ha|by rewrite E|done].
Qed.
Lemma emit_one (m : low Operand) (rv : Operand → Rvalue) range P :
  calm P m (λ op c, operand_ok T c op) → (∀ op, operands (rv op) = [op] ∧ arity (rv_kind (rv op)) = Some 1%nat) →
  calm P (op ← m; emit_temp (rv op) range) (λ op c, operand_ok T c op).
Proof.
  intros Hm Hrv. eapply calm_bind; [done|intros op]. destruct (Hrv op) as [E Ha].
  eapply calm_weaken; [apply emit_temp_calm; unfold well_shaped| |done].
  - rewrite Ha, E. by intros n [= <-].
  - intros c _ Ho. rewrite E. apply readable_cons; [done|]. intros x Hx. by apply elem_of_nil in Hx.
Qed.
Lemma emit_two (m m' : low Operand) (rv : Operand → Operand → Rvalue) range P :
  calm P m (λ op c, operand_ok T c op) → calm (λ _, True) m' (λ op c, operand_ok T c op) →
  (∀ op op', operands (rv op op') = [op; op'] ∧ arity (rv_kind (rv op op')) = Some 2%nat) →
  calm P (op ← m; op' ← m'; emit_temp (rv op op') range) (λ op c, operand_ok T c op).
Proof.
  intros Hm Hm' Hrv. eapply calm_bind; [done|intros op].
  apply (calm_bind _ _ (λ op' c, operand_ok T c op ∧ operand_ok T c op')).
  - eapply calm_weaken; [apply (calm_frame (λ c, operand_ok T c op)), Hm'; apply operand_stable|..]; cbn; tauto.
  - intros op'. destruct (Hrv op op') as [E Ha].
    eapply calm_weaken; [apply emit_temp_calm; unfold well_shaped| |done].
    + rewrite Ha, E. by intros n [= <-].
    + intros c _ []. rewrite E. repeat (apply readable_cons; [done|]). intros x Hx. by apply elem_of_nil in Hx.
Qed.
Lemma lower_expr_calm e : (T → tidy_expr e) → calm (λ _, True) (lower_expr e) (λ op c, operand_ok T c op).
Proof.
  induction e as [[n r t i] IH] using expr_induction. intros Ht. cbn [expr_node lower_expr] in *.
  rewrite Forall_forall in IH.
  assert (Hl : ∀ e, e ∈ children n → calm (λ _, True) (lower_expr e) (λ op c, operand_ok T c op)).
  { intros e He. apply IH; [done|]. intros HT. destruct (Ht HT) as [_ Hc]. by apply Hc. }
  assert (Hp : ∀ p, n = PathExpr p → T → dotless (root_name p) = true).
  { intros p -> HT. destruct (Ht HT) as [Hc _]. by apply Hc. }
  clear IH Ht.
  destruct n as [| | | | | | |o|p| |s l|s l|l|l|l|u o|b o1 o2|o s|o1 o2]; cbn [lower_expr_node];
    try by apply calm_ret.
  - apply (emit_one _ (λ op, make_rvalue _ [op] t)); [|done]. by eapply lower_ref_calm.
  - apply lower_path_calm. by apply Hp.
  - apply (emit_readable _ (λ l, mkRvalue _ _ _ _ l t)); [|done]. by eapply lower_refs_calm.
  - apply (emit_readable _ (λ l, make_rvalue _ l t)); [|done]. by eapply lower_fields_calm.
  - apply (emit_readable _ (λ l, make_rvalue _ l t)); [|done]. by eapply lower_refs_calm.
  - apply (emit_readable _ (λ l, make_rvalue _ l t)); [|done]. by eapply lower_refs_calm.
  - apply (emit_readable _ (λ l, make_rvalue _ l t)); [|done]. by eapply lower_entries_calm.
  - apply (emit_one _ (λ op, mkRvalue _ _ _ _ [op] t)); [|done]. by eapply lower_ref_calm.
  - cbn [children] in Hl. apply (emit_two _ _ (λ op op', mkRvalue _ _ _ _ [op; op'] t)); [| |done];
      (eapply lower_ref_calm; [exact Hl|]); [apply list_subseteq_app_l|apply list_subseteq_app_r]; done.
  - apply (emit_one _ (λ op, mkRvalue _ _ _ _ [op] t)); [|done]. by eapply lower_ref_calm.
  - cbn [children] in Hl. apply (emit_two _ _ (λ op op', make_rvalue _ [op; op'] t)); [| |done];
      (eapply lower_ref_calm; [exact Hl|]); [apply list_subseteq_app_l|apply list_subseteq_app_r]; done.
Qed.
Definition tidy_ref (o : ExprRef) : Prop := ∀ e, o = Some e → tidy_expr e.
Lemma lower_expr_ref_calm o P : (T → tidy_ref o) → calm P (lower_expr_ref o) (λ op c, operand_ok T c op).
Proof.
  intros Ht. eapply lower_ref_calm; [|done]. intros e He. apply lower_expr_calm. intros HT.
  apply Ht; [done|]. destruct o; [|by apply elem_of_nil in He]. by apply list_elem_of_singleton in He as ->.
Qed.
Lemma use_shaped op type : well_shaped (use_rvalue op type).
Proof. by intros n [= <-]. Qed.
Lemma assign_use_calm op type range :
  calm (λ c, operand_ok T c op) (assign_temp (use_rvalue op type) range) (λ d c, ref_ok T c d).
Proof.
  eapply calm_weaken; [apply assign_temp_calm, use_shaped| |done]. intros c _ Ho.
  apply readable_cons; [done|]. intros x Hx. by apply elem_of_nil in Hx.
Qed.
Lemma lower_condition_calm o range P : (T → tidy_ref o) →
  calm P (lower_condition o range) (λ d c, ref_ok T c d).
Proof.
  intros Ht. eapply calm_bind; [by apply lower_expr_ref_calm|intros op]. apply assign_use_calm.
Qed.
Lemma readable_one op c : operand_ok T c op → readable [op] c.
Proof. intros Ho x. by intros ->%list_elem_of_singleton. Qed.
(** Assigning a single operand to a local [d] that is fresh or whose name has a dot. *)
Lemma assign_op_calm op d type range name :
  calm (λ c, fresh_local name [op] d c ∨
             (operand_ok T c op ∧ d < local_total c ∧ (T → plain (lc_locals c) d = false)))
    (emit_assign d (use_rvalue op type) range) (λ _ _, True).
Proof.
  eapply calm_weaken; [apply emit_assign_calm| |done]. intros c Hg [Hf|(Ho & Hd & Hp)].
  - split; [split|].
    + apply Hf.
    + apply use_shaped.
    + intros op' Hop. apply (fresh_younger _ _ _ _ Hf op' Hop).
    + intros _ _ op' Hop. by apply (fresh_younger _ _ _ _ Hf op' Hop).
    + intros _ _. split; apply Hf.
  - split; [split|].
    + done.
    + apply use_shaped.
    + intros op' ->%list_elem_of_singleton. done.
    + intros HT Hp'. by rewrite Hp in Hp'.
    + intros HT Hp'. by rewrite Hp in Hp'.
Qed.
Lemma lower_let_calm name type o range P : (T → tidy_ref o) →
  calm P (lower_let name type o range) (λ _ _, True).
Proof.
  intros Ht. unfold lower_let. eapply calm_bind; [by apply lower_expr_ref_calm|intros op]. cbv zeta.
  eapply calm_bind; [eapply calm_weaken; [apply (new_local_calm _ _ _ _ [op])|intros c _; apply readable_one|done]|].
  intros d. eapply calm_weaken; [apply (assign_op_calm op d _ _ name)|intros c _ Hf; by left|done].
Qed.
Lemma lower_assign_calm path o range P : (T → tidy_ref o) → (T → members path ≠ []) →
  calm P (lower_assign path o range) (λ _ _, True).
Proof.
  intros Ht Hm. unfold lower_assign. eapply calm_bind; [by apply lower_expr_ref_calm|intros op]. cbv zeta.
  eapply calm_bind; [apply find_local_calm|intros d; cbv beta].
  assert (Hdot : T → dotless (path_storage_name path) = false) by (intros; apply dotless_storage; auto).
  apply (calm_bind _ _ (λ d c, fresh_local (path_storage_name path) [op] d c ∨
    (operand_ok T c op ∧ d < local_total c ∧ (T → plain (lc_locals c) d = false)))).
  - case_bool_decide as Hd.
    + eapply calm_weaken; [apply (new_local_calm _ _ _ _ [op])| |].
      * intros c _ []. by apply readable_one.
      * intros x c Hf. by left.
    + apply (calm_bind _ _ (λ _ c, operand_ok T c op ∧ d < local_total c ∧ (T → plain (lc_locals c) d = false)));
        [|intros _; apply calm_ret; by right].
      apply (calm_weaken (λ c, operand_ok T c op ∧ d < local_total c ∧ (T → plain (lc_locals c) d = false)) _ _
        (λ _ c, operand_ok T c op ∧ d < local_total c ∧ (T → plain (lc_locals c) d = false))); [| |done].
      * apply refine_calm. intros c c' He _ (Ho & Hb & Hp). pose proof (extends_total _ _ He).
        rewrite (extends_plain c) by done. split_and!; [by eapply extends_operand| |done].
        unfold local_total in *. lia.
      * intros c _ (Ho & [->|[Hb Hp]]); [done|]. split_and!; [done|done|]. intros HT. rewrite Hp. auto.
  - intros x. apply (assign_op_calm op x _ _ (path_storage_name path)).
Qed.
End Specs.
