(* ===== verification/OptLowerFlow.v ===== *)
(** * Lowering to the optimization IR: control flow

    [flow D c]: the current block of [c] is open, and the other open blocks
    are those in [D].  Every statement keeps [flow D]: it closes the current
    block only to continue in a new one, and the blocks that an [if] opens are
    all closed but the one after it.  A block is closed after the blocks that
    lead to it, so the blocks form no cycle. *)
From S2P Require Import Prelude Numeric Ir OptIr OptPasses OptPropagation OptVerify OptVerifyProps OptLower.
From S2P Require Import OptLowerProps OptLowerForm OptLowerSpecs.
From Stdlib Require Import NArith.
Import Opt.
Open Scope N_scope.

Section Flow.
Context (T : Prop).
Implicit Types (c : LoweringContext) (D : BlockId → Prop).

Definition others c (b : BlockId) : Prop := open c b ∧ b ≠ current_block c.
Definition flow D c : Prop := open c (current_block c) ∧ ∀ b, others c b ↔ D b.
Definition shut D c : Prop :=
  current_block c < block_total c ∧ ¬ open c (current_block c) ∧ ∀ b, others c b ↔ D b.
Lemma open_bound c b : open c b → b < block_total c.
Proof. intros (x & Hx & _). apply lookup_lt_Some in Hx. unfold block_total. lia. Qed.
Lemma flow_stable D : stable (flow D).
Proof.
  intros c c' He Hs [Ho Hd]. unfold flow, others in *. rewrite (same_current _ _ Hs).
  by setoid_rewrite (λ b, same_flow_open c c' b Hs).
Qed.
Lemma flow_iff D D' c : (∀ b, D b ↔ D' b) → flow D c → flow D' c.
Proof. intros Hd [Ho H]. split; [done|]. intros b. by rewrite H. Qed.

(** ** A new block *)
Definition with_new_block label c : LoweringContext :=
  with_lc_blocks (lc_blocks c ++ [empty_block (u32 (length (lc_blocks c))) label]) c.
Lemma new_block_extends label c : extends c (with_new_block label c).
Proof. split; [eauto| |done]. cbn. rewrite length_app. lia. Qed.
Lemma new_block_good label c : good T c → good T (with_new_block label c).
Proof.
  intros Hg. pose proof (new_block_extends label c) as He.
  assert (Hd : context_defs (with_new_block label c) = context_defs c).
  { unfold context_defs. cbn. rewrite bind_app. cbn. by rewrite app_nil_r. }
  assert (Hin : ∀ b, b ∈ lc_blocks (with_new_block label c) → b ∈ lc_blocks c ∨
    b = empty_block (u32 (length (lc_blocks c))) label).
  { intros b. cbn. rewrite elem_of_app, list_elem_of_singleton. done. }
  split; rewrite ?Hd; cbn [lc_locals with_new_block with_lc_blocks lc_arg_count].
  - apply Hg.
  - intros i b Hb. apply lookup_app_Some in Hb as [Hb|[Hi Hb]]; [by apply Hg|].
    apply list_lookup_singleton_Some in Hb as [Hi' <-]. cbn. f_equal. lia.
  - apply (good_args _ _ Hg).
  - intros b [Hb| ->]%Hin s Hs; [|by apply elem_of_nil in Hs].
    eapply extends_code; [done|]. by eapply good_code.
  - intros b [Hb| ->]%Hin; [eapply extends_end; [done|]; by eapply good_ends|].
    split; cbn; try done; [by left|by left|by intros []|by intros b Hb%elem_of_nil].
  - apply (good_single _ _ Hg).
  - apply (good_fresh _ _ Hg).
  - destruct (good_timed _ _ Hg) as (time & now & Ht). exists time, now. intros i b Hb Ho.
    cbn in Hb. apply lookup_app_Some in Hb as [Hb|[_ Hb]];
      [|apply list_lookup_singleton_Some in Hb as [_ <-]; done].
    destruct (Ht i b Hb Ho) as [Hn Hlt]. split; [done|]. intros t b' Hts Hb' Ho'. cbn in Hb'.
    apply lookup_app_Some in Hb' as [Hb'|[_ Hb']]; [eauto|].
    apply list_lookup_singleton_Some in Hb' as [_ <-]. done.
Qed.
Lemma new_block_open label c b : fits (with_new_block label c) →
  open (with_new_block label c) b ↔ open c b ∨ b = block_total c.
Proof.
  intros Hf. unfold open, block_total. cbn. split.
  - intros (x & Hx & Ho). apply lookup_app_Some in Hx as [Hx|[Hi Hx]]; [by left; exists x|right].
    apply list_lookup_singleton_Some in Hx as [Hi' _]. lia.
  - intros [(x & Hx & Ho)| ->].
    + exists x. split; [by apply lookup_app_l_Some|done].
    + eexists. rewrite Nat2N.id, list_lookup_middle by done. by split.
Qed.
Lemma new_block_others label c b : fits (with_new_block label c) → current_block c < block_total c →
  others (with_new_block label c) b ↔ others c b ∨ b = block_total c.
Proof.
  intros Hf Hcur. unfold others. rewrite new_block_open by done. cbn. split.
  - intros [[Hb| ->] Hne]; [by left|by right].
  - intros [[Hb Hne]| ->]; [auto|]. split; [by right|]. lia.
Qed.
Lemma new_block_step label c b c' : new_block label c ⇓ (b, c') → c' = with_new_block label c ∧ extends c c' ∧
  (fits c' → good T c → good T c' ∧ b = block_total c).
Proof.
  intros H. rewrite new_block_eq in H. fold (with_new_block label c) in H. injection H as <- <-.
  pose proof (new_block_extends label c) as He. split_and!; [done|done|]. intros Hf Hg.
  split; [by apply new_block_good|]. by destruct (fits_u32 c (extends_fits _ _ He Hf)).
Qed.
Lemma new_block_spec D label :
  spec T (flow D) (new_block label) (λ b c, flow (λ x, D x ∨ x = b) c ∧ ¬ D b).
Proof.
  intros c b c' H. apply new_block_step in H as (-> & He & Hs). split; [done|]. intros Hf Hg [Ho Hd].
  destruct (Hs Hf Hg) as [Hg' ->]. pose proof (open_bound _ _ Ho) as Hcur. split_and!; [done| |].
  - split; [by apply new_block_open; [|left]|]. intros x. by rewrite new_block_others, Hd.
  - rewrite <-Hd. intros [Hb%open_bound _]. lia.
Qed.
Lemma new_block_shut D label :
  spec T (shut D) (new_block label) (λ b c, shut (λ x, D x ∨ x = b) c ∧ ¬ D b).
Proof.
  intros c b c' H. apply new_block_step in H as (-> & He & Hs). split; [done|]. intros Hf Hg (Hcur & Ho & Hd).
  destruct (Hs Hf Hg) as [Hg' ->]. split_and!; [done|split_and!|].
  - pose proof (ext_blocks _ _ He). unfold block_total in *. cbn in *. lia.
  - rewrite new_block_open by done. cbn. intros [|]; [done|lia].
  - intros x. by rewrite new_block_others, Hd.
  - rewrite <-Hd. intros [Hb%open_bound _]. lia.
Qed.

(** ** Closing the current block *)
Lemma close_timed b t c : good T c → lc_blocks c !! N.to_nat (current_block c) = Some b →
  is_open (terminator b) = true →
  (∀ x, x ∈ successors t → others c x) → timed (with_block (replace_terminator t b) c).
Proof.
  intros Hg Hb Ho Ht. destruct (good_timed _ _ Hg) as (time & now & Htime).
  exists (λ i, if decide (i = N.to_nat (current_block c)) then now else time i), (S now).
  intros i x Hx Hxo. unfold with_block in *. cbn in Hx. setoid_rewrite list_lookup_insert_Some.
  apply list_lookup_insert_Some in Hx as [(<- & <- & _)|[Hne Hx]].
  - rewrite decide_True by done. split; [lia|]. intros y z Hy.
    intros [(Heq & <- & _)|[Hne Hz]] Hzo.
    + cbn in Hy. destruct (Ht y Hy) as [_ Hc]. apply N2Nat.inj in Heq. by subst y.
    + cbn in Hy. destruct (Ht y Hy) as [(w & Hw & Hwo) _]. rewrite Hw in Hz. injection Hz as ->.
      by rewrite Hwo in Hzo.
  - rewrite decide_False by done. destruct (Htime i x Hx Hxo) as [Hn Hlt]. split; [lia|].
    intros y z Hy [(Heq & <- & _)|[Hne' Hz]] Hzo.
    + rewrite decide_True by done. done.
    + rewrite decide_False by done. eauto.
Qed.
Lemma replace_open b t c x : lc_blocks c !! N.to_nat (current_block c) = Some b → is_open t = false →
  open (with_block (replace_terminator t b) c) x ↔ open c x ∧ x ≠ current_block c.
Proof.
  intros Hb Ht. unfold open, with_block. cbn. setoid_rewrite list_lookup_insert_Some. split.
  - intros (y & [(Heq & <- & _)|[Hne Hy]] & Ho); [cbn in Ho; by rewrite Ht in Ho|].
    split; [by exists y|]. intros ->. done.
  - intros [(y & Hy & Ho) Hne]. exists y. split; [right|done]. split; [|done].
    intros Heq. apply N2Nat.inj in Heq. by subst.
Qed.
Definition closing D t c : Prop :=
  end_ok T c t ∧ is_open t = false ∧ ∀ b, b ∈ successors t → D b.
Lemma set_terminator_spec D t :
  spec T (λ c, flow D c ∧ closing D t c) (set_terminator t) (λ _, shut D).
Proof.
  intros c [] c' H. apply update_block_eq in H as (b & Hb & ->).
  pose proof (with_block_extends (replace_terminator t b) c) as He. split; [done|].
  intros Hf Hg [[Ho Hd] (Hend & Ht & Hs)].
  assert (Hbo : is_open (terminator b) = true).
  { destruct Ho as (b' & Hb' & Ho). rewrite Hb in Hb'. by injection Hb' as ->. }
  split.
  - apply (with_block_good _ b _ []); try done.
    + unfold block_defs. cbn. rewrite (end_defs T c t Hend), (end_defs T c (terminator b)); [done|].
      eapply good_ends; [done|by eapply list_elem_of_lookup_2].
    + apply close_timed; [done..|]. intros x Hx. by apply Hd, Hs.
    + intros s Hs'. eapply good_code; [done|by eapply list_elem_of_lookup_2|done].
    + constructor.
    + by intros _ x Hx%elem_of_nil.
  - pose proof (ext_blocks _ _ He). apply open_bound in Ho.
    unfold shut, others. setoid_rewrite (λ x, replace_open b t c x Hb Ht).
    cbn [current_block with_block with_lc_blocks]. split; [unfold block_total in *; cbn in *; lia|]. split; [tauto|]. intros x. rewrite <-Hd.
    unfold others. tauto.
Qed.
Lemma set_current_spec D D' b : (∀ x, D' x ↔ D x ∨ x = b) → ¬ D b →
  spec T (shut D') (set_current_block b) (λ _, flow D).
Proof.
  intros HD Hb c [] c' H. injection H as <-. split; [by split; [eauto|..]|].
  intros Hf Hg (_ & Hns & Hd). split; [apply (good_extends T c); try done; [by split; [eauto|..]|apply Hg]|].
  unfold flow, others in *. cbn.
  assert (Hop : ∀ x, open (with_current b c) x ↔ D' x).
  { intros x. rewrite <-Hd. unfold open at 1. cbn. fold (open c x). split; [|tauto].
    intros Hx. split; [done|]. by intros ->. }
  split; [apply Hop, HD; by right|]. intros x. rewrite Hop, HD. split; [|naive_solver].
  intros [[Hx| ->] Hne]; done.
Qed.
Lemma close_block_spec D t :
  spec T (λ c, flow D c ∧ closing D t c) (close_block t) (λ _, shut D).
Proof.
  intros c a c' H. unfold close_block in H. inv_eff H.
  assert (Hr : w = c ∧ lc_blocks c !! N.to_nat (current_block c) = Some r).
  { unfold read_current_block, mbind, eff_bind, get_context, lift in E.
    destruct (lc_blocks c !! N.to_nat (current_block c)); [|done]. by injection E as -> ->. }
  destruct Hr as [-> Hb]. fold (is_open (terminator r)) in H. destruct (is_open (terminator r)) eqn:Eo.
  - exact (set_terminator_spec D t c a c' H).
  - injection H as <- <-. split; [done|]. intros _ _ [[(b & Hb' & Ho) _] _].
    rewrite Hb in Hb'. injection Hb' as ->. by rewrite Eo in Ho.
Qed.

(** ** Statements *)
(** A calm step keeps [flow D]. *)
Lemma calm_flow D {A} P (m : low A) Q : calm T P m Q →
  spec T (λ c, flow D c ∧ P c) m (λ a c, flow D c ∧ Q a c).
Proof. intros Hm. apply Hm, flow_stable. Qed.
Definition keeps_flow (m : low unit) : Prop := ∀ D, spec T (flow D) m (λ _, flow D).
Lemma keeps_ret : keeps_flow (mret tt).
Proof. intros D. apply spec_ret. Qed.
Lemma keeps_bind m m' : keeps_flow m → keeps_flow m' → keeps_flow (_ ← m; m').
Proof. intros Hm Hm' D. apply (spec_bind _ _ _ (λ _, flow D)); [apply Hm|intros _; apply Hm']. Qed.
Lemma keeps_calm (m : low unit) : (∀ P, calm T P m (λ _ _, True)) → keeps_flow m.
Proof.
  intros Hm D. eapply spec_weaken; [apply (calm_flow D (λ _, True)), Hm|cbn; tauto|cbn; tauto].
Qed.
(** Close the current block and continue in the new block [b]. *)
Lemma close_and_continue D b t :
  spec T (λ c, flow (λ x, D x ∨ x = b) c ∧ ¬ D b ∧ closing (λ x, D x ∨ x = b) t c)
    (_ ← set_terminator t; set_current_block b) (λ _, flow D).
Proof.
  intros c a c' H. inv_eff H. injection H as <- <-. destruct (set_terminator_spec (λ x, D x ∨ x = b) t _ _ _ E) as [He Hs].
  assert (Hc : extends w (with_current b w)) by by split; [eauto|..].
  split; [by etrans|]. intros Hf Hg (Hfl & Hb & Hcl). destruct Hs as [Hg' Hsh]; [done..|].
  by apply (set_current_spec D _ b (λ x, reflexivity _) Hb w tt (with_current b w)).
Qed.
Lemma closing_return D x range c : ref_ok T c x ∨ x = kNoLocal → closing D (return_terminator x range) c.
Proof.
  intros Hx. split; [|split; [done|by intros b Hb%elem_of_nil]].
  split; cbn; try done; [by left| |by intros []|by intros b Hb%elem_of_nil].
  destruct Hx as [Hx|Hx]; [by right|by left].
Qed.
Lemma flow_bound D c b : flow D c → D b → b < block_total c.
Proof. intros [_ Hd] [Ho _]%Hd. by apply open_bound. Qed.
Lemma closing_goto D b range c : flow D c → D b → closing D (goto_terminator b range) c.
Proof.
  intros Hf Hb. split; [|split; [done|by intros x ->%list_elem_of_singleton]].
  split; cbn; try done; [by left|by left|by intros []|intros x ->%list_elem_of_singleton; by eapply flow_bound].
Qed.
Lemma closing_assert D x b range c : flow D c → D b → ref_ok T c x → closing D (assert_terminator x b range) c.
Proof.
  intros Hf Hb Hx. split; [|split; [done|by intros y ->%list_elem_of_singleton]].
  split; cbn; try done; [by right|by left|intros y ->%list_elem_of_singleton; by eapply flow_bound].
Qed.
Lemma closing_switch D x b b' range c : flow D c → D b → D b' → ref_ok T c x →
  closing D (switch_terminator x b b' range) c.
Proof.
  intros Hf Hb Hb' Hx.
  assert (Hs : ∀ y, y ∈ [b; b'] → D y).
  { intros y [->|Hy]%elem_of_cons; [done|]. by apply list_elem_of_singleton in Hy as ->. }
  split; [|done]. split; cbn; try done; [by right|by left|intros y Hy%Hs; by eapply flow_bound].
Qed.
(** Return [d] and go on in a fresh, unreachable block. *)
Lemma return_and_continue D d label range :
  spec T (λ c, flow D c ∧ ref_ok T c d)
    (_ ← set_terminator (return_terminator d range); next ← new_block label; set_current_block next)
    (λ _, flow D).
Proof.
  apply (spec_bind _ _ _ (λ _, shut D)); [|intros _].
  - eapply spec_weaken; [apply (set_terminator_spec D)| |done]. cbn. intros c _ [Hf Hd].
    split; [done|]. apply closing_return. by left.
  - eapply spec_bind; [apply new_block_shut|intros b; cbv beta]. intros c a c' H. split.
    + injection H as <- <-. by split; [eauto|..].
    + intros Hfit Hg [Hs Hb]. by apply (set_current_spec D _ b (λ x, reflexivity _) Hb c a c').
Qed.

Lemma keeps_goto state range : keeps_flow (lower_goto state range).
Proof.
  intros D. unfold lower_goto. eapply spec_bind; [|intros d; apply return_and_continue].
  eapply spec_weaken; [apply (calm_flow D), assign_use_calm|cbn; by intros|done].
Qed.
Lemma keeps_return o range : (T → tidy_ref o) → keeps_flow (lower_return o range).
Proof.
  intros Ht D. unfold lower_return. eapply spec_bind; [|intros op; cbv beta].
  { eapply spec_weaken; [apply (calm_flow D (λ _, True)), lower_expr_ref_calm, Ht|cbn; by intros|by intros ? ? H; apply H]. }
  eapply spec_bind; [apply (calm_flow D), assign_use_calm|intros d; apply return_and_continue].
Qed.
Lemma condition_spec D o range : (T → tidy_ref o) →
  spec T (flow D) (lower_condition o range) (λ d c, ref_ok T c d ∧ flow D c).
Proof.
  intros Ht. eapply spec_weaken; [apply (calm_flow D (λ _, True)), lower_condition_calm, Ht|cbn; by intros|].
  cbn. tauto.
Qed.
Lemma ref_extends x c c' : extends c c' → ref_ok T c x → ref_ok T c' x.
Proof. apply extends_ref. Qed.
Lemma keeps_assert o range : (T → tidy_ref o) → keeps_flow (lower_assert o range).
Proof.
  intros Ht D. unfold lower_assert. eapply spec_bind; [by apply condition_spec|intros d].
  eapply spec_bind; [apply (spec_frame T (λ c, ref_ok T c d)); [apply ref_extends|apply new_block_spec]|intros b].
  eapply spec_weaken; [apply (close_and_continue D b)| |done]. cbn. intros c _ (Hd & Hf & Hb).
  split_and!; [done|done|]. apply closing_assert; [done|by right|done].
Qed.
Lemma keeps_statements lower l : (∀ s, s ∈ l ≫= option_list → keeps_flow (lower s)) →
  keeps_flow (lower_statements lower l).
Proof.
  induction l as [|[s|] l IH]; intros Hl; cbn [lower_statements]; [apply keeps_ret| |].
  - apply keeps_bind; [apply Hl; by left|]. apply IH. intros; apply Hl; by right.
  - apply IH. intros; by apply Hl.
Qed.
Lemma grows_set_current b : grows (set_current_block b).
Proof. intros c a c' H. injection H as <- <-. by split; [eauto|..]. Qed.
Lemma keeps_grows m : keeps_flow m → grows m.
Proof. intros Hm. apply (spec_grows T _ _ _ (Hm (λ _, True))). Qed.
Lemma grows_set_terminator t : grows (set_terminator t).
Proof. apply (spec_grows T _ _ _ (set_terminator_spec (λ _, True) t)). Qed.
Lemma grows_close t : grows (close_block t).
Proof. apply (spec_grows T _ _ _ (close_block_spec (λ _, True) t)). Qed.
(** Lower a branch in the open block [b] and lead it to the open block [m]. *)
Lemma branch_spec D D' (body rest : low unit) b m range Q : keeps_flow body →
  (∀ x, D' x ↔ D x ∨ x = b) → ¬ D b → D m → spec T (shut D) rest Q →
  spec T (shut D') (_ ← set_current_block b; _ ← body; _ ← close_block (goto_terminator m range); rest) Q.
Proof.
  intros Hb HD Hn Hm Hr. apply (spec_bind _ _ _ (λ _, flow D)); [by apply (set_current_spec D D')|intros _].
  apply (spec_bind _ _ _ (λ _, flow D)); [apply Hb|intros _].
  apply (spec_bind _ _ _ (λ _, shut D)); [|by intros _].
  eapply spec_weaken; [apply (close_block_spec D)| |done]. intros c _ Hf. split; [done|]. by apply closing_goto.
Qed.
Lemma three_blocks_spec D d l1 l2 l3 {A} (m : BlockId → BlockId → BlockId → low A) Q :
  (∀ b1 b2 b3, grows (m b1 b2 b3)) →
  (∀ b1 b2 b3, ¬ D b1 → ¬ D b2 → ¬ D b3 → b1 ≠ b2 → b1 ≠ b3 → b2 ≠ b3 →
    spec T (λ c, ref_ok T c d ∧ flow (λ x, ((D x ∨ x = b1) ∨ x = b2) ∨ x = b3) c) (m b1 b2 b3) Q) →
  spec T (λ c, ref_ok T c d ∧ flow D c)
    (b1 ← new_block l1; b2 ← new_block l2; b3 ← new_block l3; m b1 b2 b3) Q.
Proof.
  intros Hg Hm.
  assert (Hnew : ∀ D l, spec T (λ c, ref_ok T c d ∧ flow D c) (new_block l)
    (λ b c, ¬ D b ∧ ref_ok T c d ∧ flow (λ x, D x ∨ x = b) c)).
  { intros D' l. eapply spec_weaken; [apply (spec_frame T (λ c, ref_ok T c d)); [apply ref_extends|apply (new_block_spec D')]|done|].
    cbn. tauto. }
  assert (Hgn : ∀ l, grows (new_block l)) by (intros l; apply (spec_grows T _ _ _ (new_block_spec D l))).
  eapply spec_bind; [apply Hnew|intros b1; cbv beta].
  apply spec_prove; [repeat (apply grows_bind; [apply Hgn|intros ?]); apply Hg|intros N1].
  eapply spec_bind; [apply Hnew|intros b2; cbv beta].
  apply spec_prove; [repeat (apply grows_bind; [apply Hgn|intros ?]); apply Hg|intros N2].
  eapply spec_bind; [apply Hnew|intros b3; cbv beta]. apply spec_prove; [apply Hg|intros N3].
  apply Hm; naive_solver.
Qed.
Lemma keeps_if lower o tb eb range : (T → tidy_ref o) → keeps_flow (lower_optional_block lower tb) →
  keeps_flow (lower_optional_block lower eb) → keeps_flow (lower_if lower o tb eb range).
Proof.
  intros Ht Htb Heb D. unfold lower_if. eapply spec_bind; [by apply condition_spec|intros d].
  apply three_blocks_spec.
  { intros b1 b2 b3. repeat (apply grows_bind; [|intros _]); first
      [apply grows_set_terminator | apply grows_close | apply grows_set_current | by apply keeps_grows]. }
  intros b1 b2 b3 N1 N2 N3 N12 N13 N23.
  set (D3 := λ x, ((D x ∨ x = b1) ∨ x = b2) ∨ x = b3).
  apply (spec_bind _ _ _ (λ _, shut D3)); [|intros _].
  { eapply spec_weaken; [apply (set_terminator_spec D3)| |done]. cbn. intros c _ [Hd Hf].
    split; [done|]. apply closing_switch; unfold D3; tauto. }
  apply (branch_spec (λ x, (D x ∨ x = b2) ∨ x = b3)); [done|unfold D3; tauto|tauto|tauto|].
  apply (branch_spec (λ x, D x ∨ x = b3)); [done|tauto|naive_solver|tauto|]. by apply set_current_spec.
Qed.
Lemma tidy_ref_of n o : (∀ e, e ∈ statement_exprs n → tidy_expr e) → statement_exprs n = option_list o → tidy_ref o.
Proof. intros H E e ->. apply H. rewrite E. by left. Qed.
Lemma lower_statement_keeps s : (T → tidy_statement s) → keeps_flow (lower_statement s).
Proof.
  induction s as [[n r i] IH] using statement_induction. intros Ht. cbn [lower_statement statement_node] in *.
  rewrite Forall_forall in IH.
  assert (He : ∀ o, statement_exprs n = option_list o → T → tidy_ref o).
  { intros o E HT. destruct (Ht HT) as [_ H _]. by eapply tidy_ref_of. }
  assert (Hs : ∀ s, s ∈ nested_statements n → keeps_flow (lower_statement s)).
  { intros s Hs. apply IH; [done|]. intros HT. destruct (Ht HT) as [_ _ H]. by apply H. }
  destruct n as [name type e|path e|cond t e|state|e|cond|e]; cbn [nested_statements] in Hs.
  - apply keeps_calm. intros P. apply lower_let_calm. by apply He.
  - apply keeps_calm. intros P. apply lower_assign_calm; [by apply He|]. intros HT.
    destruct (Ht HT) as [H _ _]. by eapply H.
  - assert (Hb : ∀ b, (∀ s, s ∈ option_list b ≫= (λ b, statements b ≫= option_list) → keeps_flow (lower_statement s)) →
      keeps_flow (lower_optional_block lower_statement b)).
    { intros [ [l sr]|] Hb; cbn; [|apply keeps_ret]. apply keeps_statements. intros x Hx. apply Hb.
      cbn. by rewrite app_nil_r. }
    apply keeps_if; [by apply He|..]; apply Hb; intros s Hin; apply Hs, elem_of_app; [by left|by right].
  - apply keeps_goto.
  - apply keeps_return. by apply He.
  - apply keeps_assert. by apply He.
  - destruct e as [e|]; cbn [lower_expr_statement].
    + apply keeps_calm. intros P. eapply calm_bind; [|intros x; by apply calm_ret].
      eapply calm_weaken; [apply lower_expr_calm|done|done]. intros HT. by apply (He (Some e)).
    + apply keeps_calm. intros P. unfold emit_nop. eapply calm_weaken; [apply push_calm|cbn|done].
      intros c _ _. split; [done|]. intros d Hd. by apply elem_of_nil in Hd.
Qed.
End Flow.
