(* ===== verification/OptLowerCorrect.v ===== *)
(** * Lowering to the optimization IR: correctness

    Every program lowers to functions that the verifier finds structured, and
    that the optimizer, if the source is tidy, takes to a fixed point without
    changing what they return. *)
From S2P Require Import Prelude Numeric Ir OptIr OptPasses OptPropagation OptVerify OptVerifyProps OptSemantics.
From S2P Require Import OptPassesProps OptimizeProps OptLower OptLowerProps OptLowerForm OptLowerSpecs OptLowerFlow.
From Stdlib Require Import NArith.
Import Opt.
Open Scope N_scope.

(** ** The arguments of a function *)
Record seeded (c : LoweringContext) : Prop := {
  seeded_blocks : lc_blocks c = [empty_block 0 "entry"];
  seeded_current : current_block c = 0;
  seeded_locals : ∀ i l, lc_locals c !! i = Some l → local_id l = u32 i;
  seeded_args : lc_arg_count c ≤ local_total c }.
Definition seeds {A} (m : low A) : Prop := ∀ c a c', m c ⇓ (a, c') → seeded c → seeded c'.
Lemma seeds_ret {A} (a : A) : seeds (mret a).
Proof. by intros c b c' [= <- <-]. Qed.
Lemma seeds_bind {A B} (m : low A) (f : A → low B) : seeds m → (∀ a, seeds (f a)) → seeds (m ≫= f).
Proof. intros Hm Hf c b c' H Hs. inv_eff H. by eapply Hf, Hm. Qed.
Lemma seeds_argument name type : seeds (new_argument_local name type).
Proof.
  intros c a c' [= <- <-] [Hb Hc Hl Ha]. split; [done|done| |].
  - intros i l Hi. cbn in Hi. apply lookup_app_Some in Hi as [Hi|[Hle Hi]]; [by apply Hl|].
    apply list_lookup_singleton_Some in Hi as [Hi <-]. cbn. f_equal. lia.
  - unfold local_total in *. cbn. rewrite length_app. cbn. unfold u32_succ.
    pose proof (N.Div0.mod_le (lc_arg_count c + 1) 4294967296). lia.
Qed.
Lemma seeds_root : seeds seed_root_argument_locals.
Proof.
  assert (Hx : ∀ l, seeds (seed_extra_arguments l)).
  { induction l as [|[name type] l IH]; cbn [seed_extra_arguments]; [apply seeds_ret|].
    apply seeds_bind; [by intros c a c' [= <- <-]|intros ref].
    apply seeds_bind; [|done]. case_bool_decide; [apply seeds_argument|apply seeds_ret]. }
  assert (Ha : ∀ name o, seeds (seed_argument name o)).
  { intros name [t|]; [apply seeds_argument|apply seeds_ret]. }
  unfold seed_root_argument_locals. apply seeds_bind; [by intros c a c' [= <- <-]|intros c].
  do 3 (apply seeds_bind; [apply Ha|intros _]). apply Hx.
Qed.
Lemma start_seeded name range hints c u : start_context (empty_context name range hints) ⇓ (u, c) → seeded c.
Proof.
  intros H. unfold start_context in H. inv_eff H. rewrite new_block_eq in E. injection E as _ <-.
  eapply seeds_root; [done|]. split; [done|done|by intros i l Hi|]. cbn. unfold local_total. cbn. lia.
Qed.

Section Functions.
Context (T : Prop).
Definition nowhere (b : BlockId) : Prop := False.
Lemma seeded_good c : seeded c → good T c ∧ flow nowhere c.
Proof.
  intros [Hb Hc Hl Ha].
  assert (Hd : context_defs c = []) by (unfold context_defs; by rewrite Hb).
  assert (Hi : ∀ i b, lc_blocks c !! i = Some b → i = 0%nat ∧ b = empty_block 0 "entry").
  { intros i b. rewrite Hb. intros H. by apply list_lookup_singleton_Some in H as [-> <-]. }
  split; [split|split].
  - done.
  - by intros i b [-> ->]%Hi.
  - done.
  - rewrite Hb. intros b ->%list_elem_of_singleton s Hs. by apply elem_of_nil in Hs.
  - rewrite Hb. intros b ->%list_elem_of_singleton.
    split; cbn; try done; [by left|by left|by intros []|by intros x Hx%elem_of_nil].
  - intros _. rewrite Hd. constructor.
  - intros _ d. rewrite Hd. by intros Hx%elem_of_nil.
  - exists (λ _, 0%nat), 0%nat. by intros i b [-> ->]%Hi.
  - rewrite Hc. eexists. by rewrite Hb.
  - intros b. unfold others, nowhere. rewrite Hc. split; [|done]. intros [(x & Hx & _) Hne].
    apply Hi in Hx as [Hx _]. lia.
Qed.
Definition fits_function (f : OptFunction) : Prop :=
  N.of_nat (length (locals f)) < 4294967296 ∧ N.of_nat (length (blocks f)) < 4294967296.
Lemma build_function_good name range hints (body : low TypeRef) f :
  spec T (flow nowhere) body (λ _, shut nowhere) → build_function name range hints body ⇓ f →
  fits_function f → ∃ c type, f = finish type c ∧ good T c ∧ shut nowhere c ∧ fits c.
Proof.
  intros Hb H. unfold build_function in H.
  destruct ((_ ← start_context; body) (empty_context name range hints)) as [[type c]| |] eqn:E; [|done|done].
  injection H as <-. inv_eff E. apply start_seeded in E0. apply seeded_good in E0 as [Hg Hf].
  intros Hfit. exists c, type. destruct (Hb _ _ _ E) as [He Hs].
  assert (Hc : fits c) by apply Hfit. destruct (Hs Hc Hg Hf). done.
Qed.
Lemma expr_function_spec e range type : (T → tidy_expr e) →
  spec T (flow nowhere) (operand ← lower_expr_ref (Some e);
    _ ← set_return_terminator_for_operand operand type range; mret type) (λ _, shut nowhere).
Proof.
  intros Ht. eapply spec_bind; [|intros op; cbv beta].
  { eapply spec_weaken; [apply (calm_flow T nowhere (λ _, True)), lower_expr_ref_calm|cbn; by intros|].
    - intros HT e' [= <-]. auto.
    - intros ? ? H; apply H. }
  apply (spec_bind _ _ _ (λ _, shut nowhere)); [|intros _; apply spec_ret].
  unfold set_return_terminator_for_operand.
  apply (spec_bind _ _ _ (λ d c, flow nowhere c ∧ (ref_ok T c d ∨ d = kNoLocal))).
  - case_bool_decide as Hk.
    + intros c a c' [= <- <-]. split; [done|]. intros _ Hg [Hf Ho]. split_and!; [done|done|left].
      unfold operand_ok in Ho. by rewrite Hk in Ho.
    + eapply spec_weaken; [apply (calm_flow T nowhere), assign_use_calm|done|]. cbn. intros a c [Hf Hr].
      split; [done|by left].
  - intros d. eapply spec_weaken; [apply (set_terminator_spec T nowhere)| |done]. cbn. intros c _ [Hf Hr].
    split; [done|]. by apply closing_return.
Qed.
Lemma handler_spec handler :
  (T → ∀ s, s ∈ statements (handler_body handler) ≫= option_list → tidy_statement s) →
  spec T (flow nowhere) (_ ← lower_block (handler_body handler);
    _ ← close_block (return_terminator kNoLocal (handler_source_range handler)); mret default_type_ref)
    (λ _, shut nowhere).
Proof.
  intros Ht. apply (spec_bind _ _ _ (λ _, flow nowhere)); [|intros _].
  - unfold lower_block, lower_block_with. destruct (handler_body handler) as [l sr].
    apply (keeps_statements T). intros s Hs. apply lower_statement_keeps. intros HT. by apply Ht.
  - apply (spec_bind _ _ _ (λ _, shut nowhere)); [|intros _; apply spec_ret].
    eapply spec_weaken; [apply (close_block_spec T nowhere)| |done]. cbn. intros c _ Hf. split; [done|].
    apply closing_return. by right.
Qed.

(** ** Finished functions *)
Lemma shut_closed c b : shut nowhere c → b ∈ lc_blocks c → is_open (terminator b) = false.
Proof.
  intros (_ & Ho & Hd) Hb. apply list_elem_of_lookup in Hb as [i Hi].
  destruct (is_open (terminator b)) eqn:E; [|done]. exfalso.
  assert (Hop : open c (N.of_nat i)) by (exists b; by rewrite Nat2N.id).
  destruct (decide (N.of_nat i = current_block c)) as [Heq|Hne]; [by rewrite Heq in Hop|].
  exact (proj1 (Hd (N.of_nat i)) (conj Hop Hne)).
Qed.
Definition acyclic (f : OptFunction) : Prop := ∃ rank : BlockId → nat, ∀ b block t,
  blocks f !! N.to_nat b = Some block → t ∈ successors (terminator block) → (rank t < rank b)%nat.
Section Finished.
Context (c : LoweringContext) (type : TypeRef).
Context (Hg : good T c) (Hs : shut nowhere c) (Hf : fits c).
Notation f := (finish type c).
Lemma real_local x : x < local_total c → valid_local f x.
Proof.
  intros Hx. split; [|done]. destruct Hf as [Hl _]. unfold kNoLocal. intros ->. lia.
Qed.
Lemma finished_operand op : operand_ok T c op → operand_valid f op.
Proof. unfold operand_ok, operand_valid. destruct (op_kind op); [intros [Hx _]; by apply real_local|done..]. Qed.
Lemma finished_acyclic : acyclic f.
Proof.
  destruct (good_timed _ _ Hg) as (time & now & Ht). exists (λ b, now - time (N.to_nat b))%nat.
  intros b block t Hb Hts. cbn in Hb. pose proof (shut_closed c) as Hcl.
  destruct (Ht _ _ Hb) as [Hn Hlt]; [by eapply Hcl, list_elem_of_lookup_2|].
  assert (Htb : t < block_total c) by (eapply (end_targets _ _ _ (good_ends _ _ Hg block (list_elem_of_lookup_2 _ _ _ Hb))), Hts).
  destruct (lookup_lt_is_Some_2 (lc_blocks c) (N.to_nat t)) as [b' Hb']; [unfold block_total in Htb; lia|].
  specialize (Hlt t b' Hts Hb'). rewrite (Hcl b' Hs) in Hlt by by eapply list_elem_of_lookup_2.
  specialize (Hlt eq_refl). lia.
Qed.
Lemma finished_structured : structured f.
Proof.
  split.
  - cbn. destruct Hs as [Hb _]. unfold block_total in Hb. intros E. rewrite E in Hb. cbn in Hb. lia.
  - apply (good_args _ _ Hg).
  - apply (good_locals _ _ Hg).
  - apply (good_blocks _ _ Hg).
  - intros b Hb. cbn in Hb. split.
    + intros s Hst. pose proof (good_code _ _ Hg b Hb s Hst) as Hc. unfold code_ok, statement_structured in *.
      destruct (st_kind s); try done. destruct Hc as [Hd Ha Ho _]. split; [by apply real_local|].
      split; [done|]. intros op Hop. by apply finished_operand, Ho.
    + destruct (good_ends _ _ Hg b Hb) as [Ha Hc Hr Hk Ht Hn].
      assert (Hx : ∀ x, ref_ok T c x → valid_local f x) by (intros x [Hx _]; by apply real_local).
      assert (Hblk : ∀ x, x < block_total c → valid_block f x) by done.
      unfold terminator_structured, successors in *. destruct (tm_kind (terminator b)) eqn:Ek; try done.
      * apply Hblk, Ht. by left.
      * split_and!; [apply Hx, Hk; by left|apply Hblk, Ht; by left|apply Hblk, Ht; right; by left].
      * destruct Hr as [Hr|Hr]; [by left|right]. by apply Hx.
      * split; [apply Hx, Hk; by right|apply Hblk, Ht; by left].
Qed.
Lemma finished_closed b : b ∈ blocks f → tm_kind (terminator b) ≠ TerminatorKind.Unreachable.
Proof.
  intros Hb E. pose proof (shut_closed c b Hs Hb) as Hc. unfold is_open in Hc. by rewrite E in Hc.
Qed.
Lemma finished_uses (HT : T) x : x ∈ function_uses f → plain (lc_locals c) x = true ∧ x < local_total c.
Proof.
  assert (Hr : ∀ y, ref_ok T c y → plain (lc_locals c) y = true ∧ y < local_total c) by (intros y []; auto).
  assert (Ho : ∀ op, operand_ok T c op → x ∈ operand_uses op → plain (lc_locals c) x = true ∧ x < local_total c).
  { intros op Hop. unfold operand_uses. case_bool_decide as Hk; [|by intros ?%elem_of_nil].
    intros ->%list_elem_of_singleton. apply Hr. unfold operand_ok in Hop. by rewrite Hk in Hop. }
  assert (Hopt : ∀ y, optional_ok T c y → x ∈ optional_use y → plain (lc_locals c) x = true ∧ x < local_total c).
  { intros y Hy. unfold optional_use. case_bool_decide as Hk; cbn; [by intros ?%elem_of_nil|].
    intros ->%list_elem_of_singleton. destruct Hy as [Hy|Hy]; [done|]. by apply Hr. }
  unfold function_uses. intros Hx. apply list_elem_of_bind in Hx as (b & Hx & Hb). cbn in Hb.
  unfold block_uses in Hx. apply elem_of_app in Hx as [Hx|Hx].
  - apply list_elem_of_bind in Hx as (st & Hx & Hst). pose proof (good_code _ _ Hg b Hb st Hst) as Hok.
    unfold code_ok, statement_uses in *. destruct (st_kind st); try done.
    + apply list_elem_of_bind in Hx as (op & Hx & Hop). eapply Ho; [|done]. by apply Hok.
    + rewrite Hok in Hx. by apply elem_of_nil in Hx.
  - destruct (good_ends _ _ Hg b Hb) as [Ha Hc Hr' _ _ _]. unfold terminator_uses in Hx.
    rewrite Ha, app_nil_r in Hx. apply elem_of_app in Hx as [Hx|Hx]; eauto.
Qed.
Lemma finished_ssa : T → ssa f.
Proof.
  intros HT. pose proof (good_args _ _ Hg) as Ha. destruct Hf as [Hl _]. split.
  - rewrite filter_app. change (function_defs f) with (context_defs c). apply NoDup_app. split_and!.
    + apply NoDup_filter, NoDup_fmap_2, NoDup_seq. apply _.
    + intros x Hp Hd. apply list_elem_of_filter in Hp as [Hu Hp]. apply list_elem_of_filter in Hd as [_ Hd].
      apply finished_uses in Hu as [Hu _]; [|done]. pose proof (good_fresh _ _ Hg HT x Hd Hu) as Hge.
      apply list_elem_of_fmap in Hp as (i & -> & Hi). apply elem_of_seq in Hi. cbn in Hi. lia.
    + pose proof (good_single _ _ Hg HT) as Hn. eapply sublist_NoDup; [exact Hn|].
      apply filter_sublist; [done|]. intros x Hx. by apply finished_uses.
  - unfold kNoLocal. intros Hx. apply elem_of_app in Hx as [Hx|Hx].
    + apply list_elem_of_fmap in Hx as (i & Hi & Hs'). apply elem_of_seq in Hs'. cbn in Hs'. lia.
    + apply (defs_older T c _ Hg) in Hx. lia.
  - apply finished_acyclic.
Qed.
(** Copies lead from younger to older locals. *)
Lemma finished_ranked x y : T → (x, y) ∈ copies f →
  x ≠ kNoLocal ∧ (x ∈ function_uses f → (N.to_nat y < N.to_nat x)%nat).
Proof.
  intros HT Hxy. apply copies_elem in Hxy as (st & Hst & Hassign & Hcopy & <-).
  apply function_statements_elem in Hst as (i & b & Hb & Hst). apply list_elem_of_lookup_2 in Hb. cbn in Hb.
  pose proof (good_code _ _ Hg b Hb st Hst) as Hok. unfold code_ok, is_assign in *.
  destruct (st_kind st); try done. apply is_local_copy_spec in Hcopy as (Hk & op & Hops & Hlocal & <-).
  destruct Hok as [Hd _ Ho Hy]. split.
  - destruct Hf as [Hl _]. unfold kNoLocal. lia.
  - intros Hu. apply finished_uses in Hu as [Hp _]; [|done].
    assert (op_local op < dest st); [|lia]. apply Hy; [done|done| |done]. rewrite Hops. by left.
Qed.
End Finished.
End Functions.

(** ** The expressions and statements of a program that are lowered *)
Fixpoint embedded_exprs (t : TemporalExpr) : list Expr :=
  let of_optional := λ t : option TemporalExpr, match t with Some t => embedded_exprs t | None => [] end in
  match t with
  | mkTemporalExpr node _ =>
      match node with
      | EmbeddedTemporalExpr e => option_list e
      | TemporalUnaryExpr _ t => of_optional t
      | TemporalBinaryExpr _ l r => of_optional l ++ of_optional r
      | _ => []
      end
  end.
Definition optional_embedded (t : option TemporalExpr) : list Expr := option_list t ≫= embedded_exprs.
Definition clause_exprs (c : ContractClause) : list Expr :=
  match clause_value c with ClauseExpr e => option_list e | ClauseTemporal t => optional_embedded t end.
Definition decl_exprs (d : Decl) : list Expr :=
  match d with
  | DContract c => clauses c ≫= clause_exprs
  | DWorkflow w => (wf_nodes w ≫= λ n, option_list (wn_input n)) ++ option_list (wf_return_value w) ++
      (wf_safety w ≫= optional_embedded) ++ (wf_liveness w ≫= optional_embedded)
  | _ => []
  end.
Definition decl_handlers (d : Decl) : list StateHandler :=
  match d with DFlow f => state_handlers f | _ => [] end.
Definition handler_statements (h : StateHandler) : list Ir.Statement :=
  statements (handler_body h) ≫= option_list.
Record tidy_program (program : Program) : Prop := {
  tidy_exprs : ∀ d e, d ∈ declarations program → e ∈ decl_exprs d → tidy_expr e;
  tidy_handlers : ∀ d h s, d ∈ declarations program → h ∈ decl_handlers d →
    s ∈ handler_statements h → tidy_statement s }.

(** ** All the functions of a lowered program *)
Section Programs.
Context (program : Program) (Φ : OptFunction → Prop).
Context (Hexpr : ∀ d e name range hints, d ∈ declarations program → e ∈ decl_exprs d →
  ∃ f, lower_expr_function name (Some e) range hints ⇓ f ∧ Φ f).
Context (Hhandler : ∀ d h name hints, d ∈ declarations program → h ∈ decl_handlers d →
  ∃ f, lower_handler name h hints ⇓ f ∧ Φ f).
Definition adds (step : OptProgram → cxx OptProgram) : Prop := ∀ p, Forall Φ (functions p) →
  ∃ p', step p ⇓ p' ∧ Forall Φ (functions p').
Lemma adds_ret : adds (λ p, Ret p).
Proof. intros p Hp. by exists p. Qed.
Lemma adds_bind step step' : adds step → adds step' → adds (λ p, p ← step p; step' p).
Proof. intros H1 H2 p Hp. destruct (H1 p Hp) as (p1 & E & Hp1). rewrite E. by apply H2. Qed.
Lemma adds_all {A} (lower : A → OptProgram → cxx OptProgram) l :
  (∀ a, a ∈ l → adds (lower a)) → adds (lower_all lower l).
Proof.
  induction l as [|a l IH]; intros Hl; [apply adds_ret|]. cbn [lower_all].
  apply adds_bind; [apply Hl; by left|]. apply IH. intros; apply Hl; by right.
Qed.
Lemma adds_indexed {A} (lower : N → A → OptProgram → cxx OptProgram) i l :
  (∀ i a, a ∈ l → adds (lower i a)) → adds (lower_indexed lower i l).
Proof.
  revert i. induction l as [|a l IH]; intros i Hl; [apply adds_ret|]. cbn [lower_indexed].
  apply adds_bind; [apply Hl; by left|]. apply IH. intros; apply Hl; by right.
Qed.
Lemma adds_function (lowered : cxx OptFunction) : (∃ f, lowered ⇓ f ∧ Φ f) →
  adds (λ p, f ← lowered; Ret (push_function f p)).
Proof.
  intros (f & E & Hf) p Hp. rewrite E. eexists. split; [done|]. cbn. apply Forall_app. split; [done|].
  by apply Forall_singleton.
Qed.
Lemma temporal_adds prefix hints t s : (∀ e, e ∈ embedded_exprs t → ∃ d, d ∈ declarations program ∧ e ∈ decl_exprs d) →
  Forall Φ (tf_functions s) → ∃ s', lower_temporal prefix hints t s ⇓ s' ∧ Forall Φ (tf_functions s').
Proof.
  revert t s. fix IH 1. intros [node range] s Ht Hs.
  destruct node as [[e|]| | | | |op [t|]|op l r]; cbn [lower_temporal embedded_exprs] in *; try by eexists.
  - destruct (Ht e) as (d & Hd & He); [by left|].
    destruct (Hexpr d e (prefix +:+ "::embedded::" +:+ to_string (Z.of_N (embedded_index s)))
      (expr_source_range e) hints Hd He) as (f & -> & Hf).
    eexists. split; [done|]. cbn. apply Forall_app. split; [done|]. by apply Forall_singleton.
  - by apply IH.
  - assert (Hl : ∃ s', match l with Some t => lower_temporal prefix hints t s | None => Ret s end ⇓ s' ∧
      Forall Φ (tf_functions s')).
    { destruct l as [l|]; [|by eexists]. apply IH; [|done]. intros e He. apply Ht, elem_of_app. by left. }
    destruct Hl as (s1 & -> & Hs1). cbn.
    destruct r as [r|]; [|by eexists]. apply IH; [|done]. intros e He. apply Ht, elem_of_app. by right.
Qed.
Lemma adds_temporal prefix hints t :
  (∀ e, e ∈ optional_embedded t → ∃ d, d ∈ declarations program ∧ e ∈ decl_exprs d) →
  adds (lower_temporal_embedded_exprs prefix hints t).
Proof.
  intros Ht p Hp. unfold lower_temporal_embedded_exprs. destruct t as [t|].
  - destruct (temporal_adds prefix hints t (mkFragments (functions p) (skipped_temporal_fragments p) 0)) as (s & -> & Hs);
      [|done|by eexists]. intros e He. apply Ht. unfold optional_embedded. cbn. by rewrite app_nil_r.
  - by eexists.
Qed.
Lemma adds_flow d : d ∈ declarations program → adds (lower_flow program d).
Proof.
  intros Hd. destruct d; cbn [lower_flow]; try apply adds_ret. apply adds_all. intros h Hh.
  apply adds_function. by eapply Hhandler.
Qed.
Lemma adds_contract d : d ∈ declarations program → adds (lower_contract program d).
Proof.
  intros Hd. destruct d as [| | | | | | | | |c| |]; cbn [lower_contract]; try apply adds_ret.
  apply adds_indexed. intros i cl Hcl. unfold lower_clause.
  assert (He : ∀ e, e ∈ clause_exprs cl → e ∈ decl_exprs (DContract c)).
  { intros e He. apply list_elem_of_bind. by exists cl. }
  unfold clause_exprs in He. destruct (clause_value cl) as [[e|]|t].
  - apply adds_function. apply (Hexpr (DContract c)); [done|]. apply He. by left.
  - apply adds_ret.
  - apply adds_temporal. intros e Hin. exists (DContract c). auto.
Qed.
Lemma adds_workflow d : d ∈ declarations program → adds (lower_workflow program d).
Proof.
  intros Hd. destruct d as [| | | | | | | | | | |w]; cbn [lower_workflow]; try apply adds_ret.
  assert (Hin : ∀ e l, e ∈ l → l ⊆ decl_exprs (DWorkflow w) → ∃ d, d ∈ declarations program ∧ e ∈ decl_exprs d)
    by (intros e l He Hl; exists (DWorkflow w); auto).
  assert (Hone : ∀ e name range hints, e ∈ decl_exprs (DWorkflow w) →
    adds (λ p, f ← lower_expr_function name (Some e) range hints; Ret (push_function f p))).
  { intros e name range hints He. apply adds_function. by apply (Hexpr (DWorkflow w)). }
  apply adds_bind; [|apply adds_bind; [|apply adds_bind]].
  - apply adds_all. intros n Hn. destruct (wn_input n) as [e|] eqn:E; [|apply adds_ret]. apply Hone.
    cbn. apply elem_of_app. left. apply list_elem_of_bind. exists n. rewrite E. split; [by left|done].
  - destruct (wf_return_value w) as [e|] eqn:E; [|apply adds_ret]. apply Hone.
    cbn. rewrite E. apply elem_of_app. right. by left.
  - apply adds_indexed. intros i t Ht. apply adds_temporal. intros e He. apply (Hin e _ He).
    intros x Hx. cbn. rewrite !elem_of_app, !list_elem_of_bind. right. right. left. eauto.
  - apply adds_indexed. intros i t Ht. apply adds_temporal. intros e He. apply (Hin e _ He).
    intros x Hx. cbn. rewrite !elem_of_app, !list_elem_of_bind. right. right. right. eauto.
Qed.
Lemma lower_to_opt_all : ∃ p, lower_to_opt program ⇓ p ∧ ∀ f, f ∈ functions p → Φ f.
Proof.
  destruct (adds_bind (lower_all (lower_flow program) (declarations program)) (λ p,
    p ← lower_all (lower_contract program) (declarations program) p;
    lower_all (lower_workflow program) (declarations program) p)) with (mkOptProgram [] [] (format_version program))
    as (p & E & Hp).
  - apply adds_all, adds_flow.
  - apply adds_bind; apply adds_all; [apply adds_contract|apply adds_workflow].
  - constructor.
  - exists p. split; [done|]. by apply Forall_forall.
Qed.
End Programs.

(** The finished functions, for an assumption [T] that makes the source tidy. *)
Lemma lowered_functions T program : (T → tidy_program program) →
  ∃ p, lower_to_opt program ⇓ p ∧ ∀ f, f ∈ functions p → fits_function f →
    ∃ c type, f = finish type c ∧ good T c ∧ shut nowhere c ∧ fits c.
Proof.
  intros HT. apply lower_to_opt_all.
  - intros d e name range hints Hd He. destruct (expr_function_returns name (Some e) range hints) as [f E].
    exists f. split; [done|]. eapply build_function_good; [|exact E]. apply expr_function_spec.
    intros Ht. by eapply tidy_exprs, He; [apply HT|].
  - intros d h name hints Hd Hh. destruct (handler_returns name h hints) as [f E].
    exists f. split; [done|]. eapply build_function_good; [|exact E]. apply handler_spec.
    intros Ht s Hs. by eapply tidy_handlers, Hs; [apply HT| |].
Qed.

(** ** The properties *)

(** Lowering returns for every program, and each function it gives (whose
    locals and blocks fit their 32-bit references) is structured as the
    verifier demands: it has an entry, ids are positions, every operand,
    destination and target exists and every operator has its operands.  No
    block is left open, and the blocks form no cycle. *)
Theorem lower_to_opt_well_built program : ∃ p, lower_to_opt program ⇓ p ∧
  ∀ f, f ∈ functions p → fits_function f →
    structured f ∧ (∀ b, b ∈ blocks f → tm_kind (terminator b) ≠ TerminatorKind.Unreachable) ∧ acyclic f.
Proof.
  destruct (lowered_functions False program) as (p & E & Hp); [done|]. exists p. split; [done|].
  intros f Hf Hfit. destruct (Hp f Hf Hfit) as (c & type & -> & Hg & Hs & Hc).
  split_and!; [by eapply finished_structured|by eapply finished_closed|by eapply finished_acyclic].
Qed.


(** ** Witness: a state handler with a branch, an assignment and an assertion *)
Definition expr (n : ExprNode) : ExprRef := Some (mkExpr n None default_type_ref 0).
Definition var (x : string) : ExprRef := expr (PathExpr (mkPath PathRootKind.Identifier x [])).
Definition stmt (n : StatementNode) : option Ir.Statement := Some (Ir.mkStatement n None 0).
Definition code_block (l : list (option Ir.Statement)) : Block := mkBlock l None.
Definition sample_body : Block := code_block [
  stmt (LetStatement "x" default_type_ref (expr (PathExpr (mkPath PathRootKind.Input "input" ["n"]))));
  stmt (IfStatement (expr (BinaryExpr ExprBinaryOp.Less (var "x") (expr (IntegerLiteralExpr "3"))))
          (Some (code_block [stmt (AssignStatement (mkPath PathRootKind.Context "ctx" ["total"]) (var "x"))]))
          (Some (code_block [stmt (AssertStatement (var "x"))])));
  stmt (LetStatement "y" default_type_ref (var "x"));
  stmt (ReturnStatement (var "y"))].
Definition no_symbol : SymbolRef := mkSymbolRef SymbolRefKind.Unknown "" "" "" None.
Definition sample_program : Program := mkProgram "v1" ProgramPhase.Lowered 0
  [DFlow (mkFlowDecl (mkProvenance "" "" None 0) [mkStateHandler "Run" [] sample_body None] no_symbol)].
Lemma tidy_leaf n r t i : children n = [] → (∀ p, n = PathExpr p → dotless (root_name p) = true) →
  tidy_expr (mkExpr n r t i).
Proof. intros Hc Hp. split; cbn; [done|]. rewrite Hc. by intros e He%elem_of_nil. Qed.
(** Go through the elements of a concrete list. *)
Ltac each x := let H := fresh in intros x H; cbn in H; rewrite ?elem_of_cons, elem_of_nil in H;
  repeat match goal with H : _ ∨ _ |- _ => destruct H as [H|H] end; [subst x..|destruct H].
Lemma sample_tidy : tidy_program sample_program.
Proof.
  assert (Hx : ∀ p, dotless (root_name p) = true → tidy_expr (mkExpr (PathExpr p) None default_type_ref 0)).
  { intros p Hp. apply tidy_leaf; [done|]. by intros q [= <-]. }
  split.
  - intros d e ->%list_elem_of_singleton He. by apply elem_of_nil in He.
  - intros d h s ->%list_elem_of_singleton ->%list_elem_of_singleton. revert s.
    assert (Hs : ∀ n r i, (∀ p e, n ≠ AssignStatement p e) → nested_statements n = [] →
      (∀ e, e ∈ statement_exprs n → tidy_expr e) → tidy_statement (Ir.mkStatement n r i)).
    { intros n r i Ha Hn He. constructor; cbn; [by intros p e ?%Ha|done|]. rewrite Hn. by intros s ?%elem_of_nil. }
    each s.
    + apply Hs; [done|done|]. each e. by apply Hx.
    + constructor; cbn; [discriminate| |].
      * each e. constructor; [discriminate|]. each e; [by apply Hx|]. by apply tidy_leaf.
      * each s.
        -- constructor; [by intros ? ? [= <- _]| |by intros s ?%elem_of_nil]. each e. by apply Hx.
        -- apply Hs; [done|done|]. each e. by apply Hx.
    + apply Hs; [done|done|]. each e. by apply Hx.
    + apply Hs; [done|done|]. each e. by apply Hx.
Qed.

(** ** Two behaviours of the source that these properties do not exclude *)
Definition assigns (name : string) (f : OptFunction) : bool :=
  existsb (λ s, is_assign s && bool_decide (local_name <$> locals f !! N.to_nat (dest s) = Some name))
    (function_statements f).
Definition optimized (f : OptFunction) : OptFunction :=
  match optimize 100 f with Ret (f', _) => f' | _ => f end.
Definition first_function (p : cxx OptProgram) : option OptFunction :=
  match p with Ret p => functions p !! 0%nat | _ => None end.
(** An assignment to a member of the context assigns a local of its own, that
    no later access reads, so the optimizer removes it. *)
Example member_assignment_is_removed : ∃ f, first_function (lower_to_opt sample_program) = Some f ∧
  assigns "ctx.total" f = true ∧ assigns "ctx.total" (optimized f) = false.
Proof. eexists. split; [vm_compute; reflexivity|]. by vm_compute. Qed.
(** [some(x)] is a copy of [x] at another type: once the copy is propagated
    the verifier rejects the function that it accepted before. *)
Definition int_type : TypeRef := mkTypeRef TypeRefKind.Int "Int" "" "" None None None None None.
Definition optional_int_type : TypeRef :=
  mkTypeRef TypeRefKind.Optional "Optional<Int>" "" "" None None None (Some int_type) None.
Definition some_x : Expr := mkExpr (SomeExpr (Some (mkExpr
  (PathExpr (mkPath PathRootKind.Identifier "x" [])) None int_type 0))) None optional_int_type 1.
Example some_is_not_a_copy : ∃ f,
  lower_expr_function "some" (Some some_x) None (mkRootTypeHints None None None [("x", int_type)]) ⇓ f ∧
  (∃ r, verify_opt_function f ⇓ r ∧ result_has_errors r = false) ∧
  (∃ r, verify_opt_function (optimized f) ⇓ r ∧ result_has_errors r = true).
Proof. eexists. split; [vm_compute; reflexivity|]. split; eexists; (split; [vm_compute; reflexivity|done]). Qed.
