(* ===== verification/Analysis.v ===== *)
(** * Derived analyses (src/compiler/ir/analysis.cpp, ir_lower.cpp)

    Summaries of state handlers and of workflow expressions, the observations
    of formal verification, and when a program's summaries are fresh.  A
    dereferenced null handle is undefined behaviour.  A handler or node is
    looked up by its address in the declaration that owns it: its position
    here.  The hash index of the collected observations is only looked up. *)
From S2P Require Import Prelude Numeric Ir.
From Stdlib Require Import Ascii.
Open Scope Z_scope.

#[export] Instance Path_eq_dec : EqDecision Path.
Proof. solve_decision. Defined.

(** ** Summaries (decl.hpp, program.hpp) *)
Module WorkflowValueSourceKind.
Inductive t := WorkflowInput | WorkflowNodeOutput.
End WorkflowValueSourceKind.
#[export] Instance WorkflowValueSourceKind_eq_dec : EqDecision WorkflowValueSourceKind.t.
Proof. solve_decision. Defined.

Record Summary := mkSummary {
  goto_targets : list string;
  may_return : bool;
  may_fallthrough : bool;
  assigned_paths : list Path;
  called_targets : list string;
  assert_count : Z }.
Definition empty_summary : Summary := mkSummary [] false true [] [] 0.
Record WorkflowValueRead := mkRead {
  read_kind : WorkflowValueSourceKind.t;
  read_root : string;
  read_members : list string }.
#[export] Instance WorkflowValueRead_eq_dec : EqDecision WorkflowValueRead.
Proof. solve_decision. Defined.
Record WorkflowExprSummary := mkExprSummary { reads : list WorkflowValueRead }.

Module FormalObservationScopeKind.
Inductive t := ContractClause | WorkflowSafetyClause | WorkflowLivenessClause.
End FormalObservationScopeKind.
Record FormalObservationScope := mkScope {
  scope_kind : FormalObservationScopeKind.t;
  scope_owner : string;
  scope_clause : Z;
  scope_atom : Z }.
Inductive FormalObservationNode :=
  | CalledCapabilityObservation (agent capability : string)
  | EmbeddedBoolObservation (scope : FormalObservationScope).
Record FormalObservation := mkObservation { symbol : string; observation_node : FormalObservationNode }.

Record StateHandlerSummaryAnalysis := mkHandlerEntry {
  he_flow_target : string; he_state_name : string; he_index : Z; he_summary : Summary }.
Record WorkflowNodeExprSummaryAnalysis := mkNodeEntry {
  ne_workflow_name : string; ne_node_name : string; ne_index : Z; ne_summary : WorkflowExprSummary }.
Record WorkflowReturnExprSummaryAnalysis := mkReturnEntry {
  re_workflow_name : string; re_summary : WorkflowExprSummary }.
Record AnalysisBundle := mkBundle {
  source_program_revision : Z;
  state_handler_summaries : list StateHandlerSummaryAnalysis;
  workflow_node_input_summaries : list WorkflowNodeExprSummaryAnalysis;
  workflow_return_summaries : list WorkflowReturnExprSummaryAnalysis;
  formal_observations : list FormalObservation }.
(** A program with its analyses, the rest of [ir::Program]. *)
Record AnalyzedProgram := mkAnalyzed { program : Program; analyses : AnalysisBundle }.

(** ** Called capabilities *)
Definition push_unique {A} `{EqDecision A} (l : list A) (a : A) : list A :=
  if decide (a ∈ l) then l else l ++ [a].

(** The sub-expressions of a node, collected from left to right. *)
Section Collect.
Context {A : Type} (collect : Expr → A → cxx A).
Definition collect_ref (e : ExprRef) (acc : A) : cxx A :=
  match e with Some e => collect e acc | None => UB end.
Fixpoint collect_refs (l : list ExprRef) (acc : A) : cxx A :=
  match l with
  | [] => Ret acc
  | e :: l => acc ← collect_ref e acc; collect_refs l acc
  end.
Fixpoint collect_fields (l : list (string * ExprRef)) (acc : A) : cxx A :=
  match l with
  | [] => Ret acc
  | (_, e) :: l => acc ← collect_ref e acc; collect_fields l acc
  end.
Fixpoint collect_entries (l : list (ExprRef * ExprRef)) (acc : A) : cxx A :=
  match l with
  | [] => Ret acc
  | (k, v) :: l => acc ← collect_ref k acc; acc ← collect_ref v acc; collect_entries l acc
  end.
Definition collect_children (node : ExprNode) (acc : A) : cxx A :=
  match node with
  | SomeExpr e | UnaryExpr _ e | MemberAccessExpr e _ => collect_ref e acc
  | CallExpr _ l | ListLiteralExpr l | SetLiteralExpr l => collect_refs l acc
  | StructLiteralExpr _ l => collect_fields l acc
  | MapLiteralExpr l => collect_entries l acc
  | BinaryExpr _ a b | IndexAccessExpr a b => acc ← collect_ref a acc; collect_ref b acc
  | _ => Ret acc
  end.
End Collect.
Fixpoint collect_called_targets_from_expr (expr : Expr) (called_targets : list string) : cxx (list string) :=
  match expr with
  | mkExpr node _ _ _ =>
      let called_targets := match node with
                            | CallExpr callee _ => push_unique called_targets callee
                            | _ => called_targets
                            end in
      collect_children collect_called_targets_from_expr node called_targets
  end.

(** ** Summaries of handlers *)
Definition merge_flow_summary (target other : Summary) : Summary :=
  mkSummary (foldl push_unique (goto_targets target) (goto_targets other))
    (may_return target || may_return other) (may_fallthrough target)
    (foldl push_unique (assigned_paths target) (assigned_paths other))
    (foldl push_unique (called_targets target) (called_targets other))
    (to_size (assert_count target + assert_count other)).
Definition with_fallthrough (b : bool) (s : Summary) : Summary :=
  mkSummary (goto_targets s) (may_return s) b (assigned_paths s) (called_targets s) (assert_count s).
Definition with_called (l : list string) (s : Summary) : Summary :=
  mkSummary (goto_targets s) (may_return s) (may_fallthrough s) (assigned_paths s) l (assert_count s).
Definition collect_called (e : ExprRef) (s : Summary) : cxx Summary :=
  l ← collect_ref collect_called_targets_from_expr e (called_targets s); Ret (with_called l s).

Section SummarizeBlock.
Context (summarize_statement : Statement → cxx Summary).
(** The loop of [summarize_block]: it ends when control cannot continue. *)
Fixpoint summarize_statements (l : list (option Statement)) (summary : Summary) : cxx Summary :=
  match l with
  | [] => Ret summary
  | s :: l =>
      if may_fallthrough summary then
        match s with
        | None => UB
        | Some s =>
            statement_summary ← summarize_statement s;
            summarize_statements l
              (with_fallthrough (may_fallthrough statement_summary)
                 (merge_flow_summary summary statement_summary))
        end
      else Ret summary
  end.
Definition summarize_block_with (b : Block) : cxx Summary :=
  match b with mkBlock l _ => summarize_statements l empty_summary end.
Definition summarize_if (condition : ExprRef) (then_block else_block : option Block) : cxx Summary :=
  summary ← collect_called condition empty_summary;
  then_summary ← match then_block with Some b => summarize_block_with b | None => UB end;
  let summary := merge_flow_summary summary then_summary in
  match else_block with
  | Some b =>
      else_summary ← summarize_block_with b;
      Ret (with_fallthrough (may_fallthrough then_summary || may_fallthrough else_summary)
             (merge_flow_summary summary else_summary))
  | None => Ret (with_fallthrough true summary)
  end.
End SummarizeBlock.
Fixpoint summarize_statement (statement : Statement) : cxx Summary :=
  match statement with
  | mkStatement node _ _ =>
      match node with
      | LetStatement _ _ e | ExprStatement e => collect_called e empty_summary
      | AssignStatement target e =>
          collect_called e (mkSummary [] false true [target] [] 0)
      | IfStatement c t e => summarize_if summarize_statement c t e
      | GotoStatement t => Ret (mkSummary [t] false false [] [] 0)
      | ReturnStatement e =>
          let returns := mkSummary [] true false [] [] 0 in
          match e with Some _ => collect_called e returns | None => Ret returns end
      | AssertStatement c => s ← collect_called c empty_summary;
          Ret (mkSummary [] false true [] (called_targets s) 1)
      end
  end.
Definition summarize_block : Block → cxx Summary := summarize_block_with summarize_statement.

(** ** Values read by workflow expressions *)
Section Reads.
Context (workflow_node_names : list string).
Definition read_path (path : Path) (reads : list WorkflowValueRead) : list WorkflowValueRead :=
  match root_kind path with
  | PathRootKind.Input =>
      push_unique reads (mkRead WorkflowValueSourceKind.WorkflowInput (root_name path) (members path))
  | PathRootKind.Identifier =>
      if bool_decide (root_name path ∈ workflow_node_names) then
        push_unique reads (mkRead WorkflowValueSourceKind.WorkflowNodeOutput (root_name path) (members path))
      else reads
  | _ => reads
  end.
Fixpoint collect_workflow_value_reads (expr : Expr) (reads : list WorkflowValueRead)
    : cxx (list WorkflowValueRead) :=
  match expr with
  | mkExpr node _ _ _ =>
      let reads := match node with PathExpr path => read_path path reads | _ => reads end in
      collect_children collect_workflow_value_reads node reads
  end.
Definition summarize_workflow_expr (expr : Expr) : cxx WorkflowExprSummary :=
  reads ← collect_workflow_value_reads expr []; Ret (mkExprSummary reads).
Definition summarize_workflow_ref (e : ExprRef) : cxx WorkflowExprSummary :=
  match e with Some e => summarize_workflow_expr e | None => Ret (mkExprSummary []) end.
End Reads.

(** ** Formal observations (ir_lower.cpp) *)
(** [std::isalnum] and [std::isdigit] in the C locale. *)
Definition is_alnum (c : ascii) : bool :=
  let n := N.to_nat (N_of_ascii c) in
  ((48 <=? n) && (n <=? 57) || (65 <=? n) && (n <=? 90) || (97 <=? n) && (n <=? 122))%nat.
Definition is_decimal (c : ascii) : bool :=
  let n := N.to_nat (N_of_ascii c) in ((48 <=? n) && (n <=? 57))%nat.
Definition underscore : ascii := ascii_of_nat 95.
Fixpoint replace_symbols (s : string) : string :=
  match s with
  | EmptyString => ""
  | String c s => String (if is_alnum c then c else underscore) (replace_symbols s)
  end.
(** Replacing the first double underscore until there is none. *)
Fixpoint collapse_underscores (s : string) : string :=
  match s with
  | EmptyString => ""
  | String c s =>
      match collapse_underscores s with
      | String c' s' =>
          if bool_decide (c = underscore) && bool_decide (c' = underscore) then String c' s'
          else String c (String c' s')
      | EmptyString => String c ""
      end
  end.
Definition sanitize_identifier (name : string) : string :=
  let sanitized := collapse_underscores (replace_symbols name) in
  match sanitized with
  | EmptyString => "id"
  | String c _ => if is_decimal c then "n_" +:+ sanitized else sanitized
  end.
Definition called_observation_symbol (agent_name capability_name : string) : string :=
  "agent__" +:+ sanitize_identifier agent_name +:+ "__called__" +:+ sanitize_identifier capability_name.
Definition observation_scope_base_name (scope : FormalObservationScope) : string :=
  match scope_kind scope with
  | FormalObservationScopeKind.ContractClause =>
      "contract__" +:+ scope_owner scope +:+ "__" +:+ to_string (scope_clause scope)
  | FormalObservationScopeKind.WorkflowSafetyClause =>
      "workflow__" +:+ scope_owner scope +:+ "__safety__" +:+ to_string (scope_clause scope)
  | FormalObservationScopeKind.WorkflowLivenessClause =>
      "workflow__" +:+ scope_owner scope +:+ "__liveness__" +:+ to_string (scope_clause scope)
  end.
Definition embedded_observation_symbol (scope : FormalObservationScope) : string :=
  sanitize_identifier (observation_scope_base_name scope +:+ "__atom__" +:+ to_string (scope_atom scope)).

Definition add_observation (o : FormalObservation) (l : list FormalObservation) : list FormalObservation :=
  if bool_decide (symbol o ∈ symbol <$> l) then l else l ++ [o].
Definition add_called_observation (agent_name capability_name : string)
    : list FormalObservation → list FormalObservation :=
  add_observation (mkObservation (called_observation_symbol agent_name capability_name)
    (CalledCapabilityObservation agent_name capability_name)).
Definition add_embedded_observation (scope : FormalObservationScope)
    : list FormalObservation → list FormalObservation :=
  add_observation (mkObservation (embedded_observation_symbol scope) (EmbeddedBoolObservation scope)).

Definition collect_agent (agent : AgentDecl) (l : list FormalObservation) : list FormalObservation :=
  foldl (λ l capability,
    let name := symbol_canonical_name capability "" in
    if bool_decide (name = "") then l else add_called_observation (agent_name agent) name l)
    l (agent_capability_refs agent).
(** The atoms of a formula are numbered from left to right; [called] is what a
    [called] atom adds: an observation in a contract, nothing in a workflow. *)
Section Formula.
Context (kind : FormalObservationScopeKind.t) (owner : string) (clause_index : Z).
Context (called : string → list FormalObservation → list FormalObservation).
Fixpoint collect_formula (expr : TemporalExpr) (atom_index : Z) (l : list FormalObservation)
    : cxx (Z * list FormalObservation) :=
  let collect_operand := λ (e : option TemporalExpr) atom_index l,
    match e with Some e => collect_formula e atom_index l | None => UB end in
  match expr with
  | mkTemporalExpr node _ =>
      match node with
      | EmbeddedTemporalExpr _ =>
          Ret (size_succ atom_index, add_embedded_observation (mkScope kind owner clause_index atom_index) l)
      | CalledTemporalExpr capability => Ret (atom_index, called capability l)
      | TemporalUnaryExpr _ e => collect_operand e atom_index l
      | TemporalBinaryExpr _ a b =>
          al ← collect_operand a atom_index l; collect_operand b al.1 al.2
      | _ => Ret (atom_index, l)
      end
  end.
Definition collect_clause_formula (t : option TemporalExpr) (l : list FormalObservation)
    : cxx (list FormalObservation) :=
  match t with
  | Some t => al ← collect_formula t 0 l; Ret al.2
  | None => UB
  end.
End Formula.
Definition collect_contract_formula (agent : string) (clause_index : Z) :=
  collect_clause_formula FormalObservationScopeKind.ContractClause agent clause_index
    (add_called_observation agent).
Definition collect_workflow_formula (kind : FormalObservationScopeKind.t) (workflow : string) (clause_index : Z) :=
  collect_clause_formula kind workflow clause_index (λ _ l, l).
(** [for (index = 0; index < l.size(); ++index)] *)
Fixpoint collect_indexed {A S} (collect : Z → A → S → cxx S) (index : Z) (l : list A) (acc : S) : cxx S :=
  match l with
  | [] => Ret acc
  | a :: l => acc ← collect index a acc; collect_indexed collect (index + 1) l acc
  end.
Definition collect_clause (target : string) (index : Z) (clause : Ir.ContractClause) (l : list FormalObservation)
    : cxx (list FormalObservation) :=
  match clause_value clause with
  | ClauseExpr _ =>
      Ret (add_embedded_observation (mkScope FormalObservationScopeKind.ContractClause target index 0) l)
  | ClauseTemporal t => collect_contract_formula target index t l
  end.
Definition collect_contract (contract : ContractDecl) : list FormalObservation → cxx (list FormalObservation) :=
  collect_indexed (collect_clause (symbol_canonical_name (contract_target_ref contract) "")) 0 (clauses contract).
Definition collect_workflow (workflow : WorkflowDecl) (l : list FormalObservation)
    : cxx (list FormalObservation) :=
  l ← collect_indexed (collect_workflow_formula FormalObservationScopeKind.WorkflowSafetyClause (wf_name workflow))
        0 (wf_safety workflow) l;
  collect_indexed (collect_workflow_formula FormalObservationScopeKind.WorkflowLivenessClause (wf_name workflow))
    0 (wf_liveness workflow) l.
Definition collect_observations (d : Decl) (l : list FormalObservation) : cxx (list FormalObservation) :=
  match d with
  | DAgent agent => Ret (collect_agent agent l)
  | DContract contract => collect_contract contract l
  | DWorkflow workflow => collect_workflow workflow l
  | _ => Ret l
  end.
(** A loop over the declarations that extends a vector. *)
Fixpoint for_declarations {S} (step : Decl → S → cxx S) (l : list Decl) (acc : S) : cxx S :=
  match l with
  | [] => Ret acc
  | d :: l => acc ← step d acc; for_declarations step l acc
  end.
Definition collect_formal_observations (p : Program) : cxx (list FormalObservation) :=
  for_declarations collect_observations (declarations p) [].

(** ** Recomputing the analyses *)
Definition flow_target_name (flow : FlowDecl) : string := symbol_canonical_name (flow_target_ref flow) "".
Definition workflow_name (workflow : WorkflowDecl) : string :=
  symbol_canonical_name (wf_symbol_ref workflow) (wf_name workflow).
Definition summarize_handlers (d : Decl) (l : list StateHandlerSummaryAnalysis)
    : cxx (list StateHandlerSummaryAnalysis) :=
  match d with
  | DFlow flow =>
      collect_indexed (λ index handler l,
        s ← summarize_block (handler_body handler);
        Ret (l ++ [mkHandlerEntry (flow_target_name flow) (handler_state_name handler) index s]))
        0 (state_handlers flow) l
  | _ => Ret l
  end.
Definition recompute_state_handler_summaries (p : Program) : cxx (list StateHandlerSummaryAnalysis) :=
  for_declarations summarize_handlers (declarations p) [].
Definition summarize_workflow (d : Decl)
    (s : list WorkflowNodeExprSummaryAnalysis * list WorkflowReturnExprSummaryAnalysis)
    : cxx (list WorkflowNodeExprSummaryAnalysis * list WorkflowReturnExprSummaryAnalysis) :=
  match d with
  | DWorkflow workflow =>
      let node_names := wn_name <$> wf_nodes workflow in
      let owner := workflow_name workflow in
      nodes ← collect_indexed (λ index node l,
        s ← summarize_workflow_ref node_names (wn_input node);
        Ret (l ++ [mkNodeEntry owner (wn_name node) index s])) 0 (wf_nodes workflow) s.1;
      s' ← summarize_workflow_ref node_names (wf_return_value workflow);
      Ret (nodes, s.2 ++ [mkReturnEntry owner s'])
  | _ => Ret s
  end.
Definition recompute_workflow_expr_summaries (p : Program)
    : cxx (list WorkflowNodeExprSummaryAnalysis * list WorkflowReturnExprSummaryAnalysis) :=
  for_declarations summarize_workflow (declarations p) ([], []).
Definition with_phase (ph : ProgramPhase.t) (p : Program) : Program :=
  mkProgram (format_version p) ph (analysis_revision p) (declarations p).
Definition recompute_derived_analyses (phase : ProgramPhase.t) (p : AnalyzedProgram) : cxx AnalyzedProgram :=
  handlers ← recompute_state_handler_summaries (program p);
  exprs ← recompute_workflow_expr_summaries (program p);
  observations ← collect_formal_observations (program p);
  Ret (mkAnalyzed (with_phase phase (program p))
         (mkBundle (analysis_revision (program p)) handlers exprs.1 exprs.2 observations)).

(** ** Freshness *)
Module DerivedAnalysisKind.
Inductive t := StateHandlerSummaries | WorkflowExprSummaries | FormalObservations.
End DerivedAnalysisKind.
Definition all_derived_analysis_kinds : list DerivedAnalysisKind.t :=
  [DerivedAnalysisKind.StateHandlerSummaries; DerivedAnalysisKind.WorkflowExprSummaries;
   DerivedAnalysisKind.FormalObservations].
Definition requires_state_handler_summaries (p : Program) : bool :=
  existsb (λ d, match d with DFlow flow => negb (bool_decide (length (state_handlers flow) = 0%nat)) | _ => false end)
    (declarations p).
Definition requires_workflow_expr_summaries (p : Program) : bool :=
  existsb (λ d, match d with DWorkflow _ => true | _ => false end) (declarations p).
Definition has_required_analysis_entries (p : AnalyzedProgram) (kind : DerivedAnalysisKind.t) : bool :=
  match kind with
  | DerivedAnalysisKind.StateHandlerSummaries =>
      negb (requires_state_handler_summaries (program p)) ||
      negb (bool_decide (length (state_handler_summaries (analyses p)) = 0%nat))
  | DerivedAnalysisKind.WorkflowExprSummaries =>
      negb (requires_workflow_expr_summaries (program p)) ||
      negb (bool_decide (length (workflow_return_summaries (analyses p)) = 0%nat))
  | DerivedAnalysisKind.FormalObservations => true
  end.
(** [++analysis_revision] on [std::uint64_t]. *)
Definition mark_derived_analyses_stale (p : AnalyzedProgram) : AnalyzedProgram :=
  mkAnalyzed (mkProgram (format_version (program p)) (phase (program p))
                (size_succ (analysis_revision (program p))) (declarations (program p))) (analyses p).
Definition has_fresh_derived_analyses (p : AnalyzedProgram) (required : list DerivedAnalysisKind.t) : bool :=
  if bool_decide (length required = 0%nat) then true
  else match phase (program p) with
  | ProgramPhase.Lowered => false
  | _ =>
      bool_decide (source_program_revision (analyses p) = analysis_revision (program p)) &&
      forallb (has_required_analysis_entries p) required
  end.
Definition ensure_derived_analyses (required : list DerivedAnalysisKind.t) (phase : ProgramPhase.t)
    (p : AnalyzedProgram) : cxx AnalyzedProgram :=
  if has_fresh_derived_analyses p required then Ret p else recompute_derived_analyses phase p.

(** ** Lookups: [None] is the null pointer *)
Definition find_state_handler_summary (p : AnalyzedProgram) (flow : FlowDecl) (index : nat) (handler : StateHandler)
    : option Summary :=
  he_summary <$> (snd <$> list_find (λ e, he_flow_target e = flow_target_name flow ∧ he_index e = Z.of_nat index ∧
    he_state_name e = handler_state_name handler) (state_handler_summaries (analyses p))).
Definition find_workflow_node_input_summary (p : AnalyzedProgram) (workflow : WorkflowDecl) (index : nat)
    (node : WorkflowNode) : option WorkflowExprSummary :=
  ne_summary <$> (snd <$> list_find (λ e, ne_workflow_name e = workflow_name workflow ∧
    ne_index e = Z.of_nat index ∧ ne_node_name e = wn_name node) (workflow_node_input_summaries (analyses p))).
Definition find_workflow_return_summary (p : AnalyzedProgram) (workflow : WorkflowDecl)
    : option WorkflowExprSummary :=
  re_summary <$> (snd <$> list_find (λ e, re_workflow_name e = workflow_name workflow)
    (workflow_return_summaries (analyses p))).
