(* ===== verification/AnalysisProps.v ===== *)
(** * What the derived analyses say of runs

    The summary of a state handler covers every run of its body: where control
    can go, which context fields change and which capabilities are invoked.
    The reads of a workflow expression determine its value. *)
From S2P Require Import Prelude Numeric Ir Diagnostics Value EvalContext Evaluator EvaluatorProps Executor.
From S2P Require Import CapabilityEval Analysis.
Open Scope nat_scope.

(** ** Collecting without duplicates *)
Section PushUnique.
Context {A : Type} `{EqDecision A}.
Implicit Types l : list A.
Lemma push_unique_elem l a x : x ∈ push_unique l a ↔ x ∈ l ∨ x = a.
Proof. unfold push_unique. case_decide; [set_solver|]. rewrite elem_of_app, list_elem_of_singleton. done. Qed.
Lemma push_unique_NoDup l a : NoDup l → NoDup (push_unique l a).
Proof.
  intros Hl. unfold push_unique. case_decide; [done|]. apply NoDup_app. split_and!; [done| |apply NoDup_singleton].
  by intros x Hx ->%list_elem_of_singleton.
Qed.
Lemma push_all_elem l l' x : x ∈ foldl push_unique l l' ↔ x ∈ l ∨ x ∈ l'.
Proof.
  revert l. induction l' as [|a l' IH]; intros l; cbn [foldl]; [rewrite elem_of_nil; tauto|].
  rewrite IH, push_unique_elem, elem_of_cons. tauto.
Qed.
End PushUnique.

(** What collecting over the sub-expressions adds, given what it adds for each:
    [adds e x] says that [e] contributes [x]. *)
Section CollectSpec.
Context {B : Type} (collect : Expr → list B → cxx (list B)) (adds : Expr → B → Prop).
Definition collects (e : Expr) : Prop := ∀ acc acc', collect e acc ⇓ acc' →
  ∀ x, x ∈ acc' ↔ x ∈ acc ∨ adds e x.
Definition collects_all (m : list B → cxx (list B)) (l : list Expr) : Prop := ∀ acc acc', m acc ⇓ acc' →
  ∀ x, x ∈ acc' ↔ x ∈ acc ∨ ∃ e, e ∈ l ∧ adds e x.
Lemma collects_nil : collects_all (λ acc, Ret acc) [].
Proof. intros acc acc' [= <-] x. split; [by left|]. intros [|(e & He & _)]; [done|]. by apply elem_of_nil in He. Qed.
Lemma collects_app m m' l l' : collects_all m l → collects_all m' l' →
  collects_all (λ acc, acc ← m acc; m' acc) (l ++ l').
Proof.
  intros Hm Hm' acc acc' H x. apply cxx_bind_ret in H as (a & E & H).
  rewrite (Hm' _ _ H), (Hm _ _ E). setoid_rewrite elem_of_app. naive_solver.
Qed.
Lemma collects_ref o : (∀ e, o = Some e → collects e) → collects_all (collect_ref collect o) (option_list o).
Proof.
  intros Ho acc acc' H x. destruct o as [e|]; [|done]. rewrite (Ho e eq_refl _ _ H). cbn.
  setoid_rewrite list_elem_of_singleton. naive_solver.
Qed.
Lemma collects_children node : Forall collects (children node) →
  collects_all (collect_children collect node) (children node).
Proof.
  rewrite Forall_forall. intros Hc.
  assert (Hone : ∀ o, option_list o ⊆ children node → collects_all (collect_ref collect o) (option_list o)).
  { intros o Ho. apply collects_ref. intros e ->. apply Hc, Ho. by left. }
  assert (Hrefs : ∀ l, l ≫= option_list ⊆ children node → collects_all (collect_refs collect l) (l ≫= option_list)).
  { induction l as [|o l IH]; intros Hl; [apply collects_nil|]. rewrite bind_cons in *.
    apply list_subseteq_app_iff_l in Hl as [Ho Hl]. apply (collects_app _ _ _ _ (Hone o Ho) (IH Hl)). }
  destruct node as [| | | | | | |o| | |s l|s l|l|l|l|u o|b o1 o2|o s|o1 o2]; cbn [collect_children children] in *;
    try apply collects_nil; try (apply Hone; reflexivity); try (apply Hrefs; reflexivity).
  - clear Hrefs Hc. set (all := l ≫= (λ f, option_list f.2)) in Hone.
    assert (Hl : l ≫= (λ f, option_list f.2) ⊆ all) by reflexivity. clearbody all.
    induction l as [|[f o] l IH]; [apply collects_nil|]. rewrite bind_cons in *.
    apply list_subseteq_app_iff_l in Hl as [Ho Hl]. apply (collects_app _ _ _ _ (Hone o Ho) (IH Hl)).
  - clear Hrefs Hc. set (all := l ≫= (λ f, option_list f.1 ++ option_list f.2)) in Hone.
    assert (Hl : l ≫= (λ f, option_list f.1 ++ option_list f.2) ⊆ all) by reflexivity. clearbody all.
    induction l as [|[a b] l IH]; [apply collects_nil|]. rewrite bind_cons in *.
    apply list_subseteq_app_iff_l in Hl as [Hab Hl]. apply list_subseteq_app_iff_l in Hab as [Ha Hb].
    intros acc acc' H. cbn [fst snd]. rewrite <-app_assoc.
    apply (collects_app _ _ _ _ (Hone a Ha) (collects_app _ _ _ _ (Hone b Hb) (IH Hl)) acc acc').
    exact H.
  - apply collects_app; apply Hone; [apply list_subseteq_app_l|apply list_subseteq_app_r]; reflexivity.
  - apply collects_app; apply Hone; [apply list_subseteq_app_l|apply list_subseteq_app_r]; reflexivity.
Qed.
End CollectSpec.

(** [occurs P e]: a node of [e] satisfies [P]. *)
Inductive occurs (P : ExprNode → Prop) (e : Expr) : Prop :=
  | occurs_here : P (expr_node e) → occurs P e
  | occurs_inside e' : e' ∈ children (expr_node e) → occurs P e' → occurs P e.
Definition calls (callee : string) : Expr → Prop := occurs (λ n, ∃ args, n = CallExpr callee args).
Definition mentions (path : Path) : Expr → Prop := occurs (λ n, n = PathExpr path).
Lemma occurs_spec P e :
  occurs P e ↔ P (expr_node e) ∨ ∃ e', e' ∈ children (expr_node e) ∧ occurs P e'.
Proof.
  split; [intros [H|e' He H]; eauto|]. intros [H|(e' & He & H)]; [by left|by eright].
Qed.
Lemma collect_called_spec e : collects collect_called_targets_from_expr (λ e x, calls x e) e.
Proof.
  induction e as [[n r t i] IH] using expr_induction. cbn [expr_node] in IH. intros acc acc' H x.
  cbn [collect_called_targets_from_expr] in H. cbv zeta in H.
  rewrite (collects_children _ _ n IH _ _ H). unfold calls. rewrite occurs_spec. cbn [expr_node].
  destruct n; try (naive_solver; fail).
  rewrite push_unique_elem. naive_solver.
Qed.

(** ** Agreement: an expression depends on the paths it mentions and the
    capabilities it calls *)
Section Agreement.
Context {W : Type} (i1 i2 : InvokeCall W) (c1 c2 : EvalContext).
Definition same_paths (e : Expr) : Prop := ∀ p, mentions p e → eval_path_expr p c1 = eval_path_expr p c2.
Definition same_calls (e : Expr) : Prop := ∀ callee, calls callee e → ∀ vs w, i1 callee vs w = i2 callee vs w.
Lemma eval_agrees e n w : same_paths e → same_calls e →
  eval_expr_calls e c1 (call_handler n i1) w = eval_expr_calls e c2 (call_handler n i2) w.
Proof.
  revert n w. induction e as [[nd r t i] IH] using expr_induction. intros n w Hp Hc. cbn [expr_node] in IH.
  rewrite Forall_forall in IH.
  assert (Hch : ∀ e', e' ∈ children nd → ∀ n w,
    eval_expr_calls e' c1 (call_handler n i1) w = eval_expr_calls e' c2 (call_handler n i2) w).
  { intros e' He n' w'. apply IH; [done|intros p Hm; apply Hp|intros callee Hm; apply Hc]; by eright. }
  apply eval_expr_contexts.
  - apply Forall_forall. intros e' He w'. by apply Hch.
  - intros p ->. apply Hp. by left.
  - intros callee args -> w'. destruct n as [|n]; [done|]. cbn [eval_call_expr call_handler].
    apply eff_bind_ext.
    + apply eval_args_ext, Forall_forall. intros e' He w''. by apply Hch.
    + intros [x|vs] w''; [done|]. apply Hc. left. by exists args.
Qed.
Lemma eval_handler_agrees e w : same_paths e → same_calls e →
  eval_expr_with_capability_call_handler e c1 i1 w = eval_expr_with_capability_call_handler e c2 i2 w.
Proof. apply eval_agrees. Qed.
End Agreement.

(** ** Summaries cover runs *)
Definition evaluator {W} (invoke : InvokeCall W) : ExprEvalFn W :=
  λ e ctx, eval_expr_with_capability_call_handler e ctx invoke.
Definition calling {W} (invoke : InvokeCall W) (ctx : EvalContext) : ExecContext W :=
  mkExecContext ctx (Some (evaluator invoke)).
(** [assigns s x]: an assigned path of [s] names the context field [x]. *)
Definition assigns (s : Summary) (x : string) : Prop :=
  ∃ p rest, p ∈ assigned_paths s ∧ root_kind p = PathRootKind.Context ∧ members p = x :: rest.
(** What a summary says of the result of a run that started in [c]. *)
Record covers (s : Summary) (c : EvalContext) (r : ExecResult) (c' : EvalContext) : Prop := {
  covers_goto : ∀ t, outcome r = ExecGoto t → t ∈ goto_targets s;
  covers_return : ∀ v, outcome r = ExecReturn v → may_return s = true;
  covers_assigned : ∀ x, ¬ assigns s x → ctx_scope c' !! x = ctx_scope c !! x;
  covers_inputs : input_scope c' = input_scope c ∧ node_output_scope c' = node_output_scope c }.
Record within (s s' : Summary) : Prop := {
  within_gotos : goto_targets s ⊆ goto_targets s';
  within_return : may_return s = true → may_return s' = true;
  within_assigned : assigned_paths s ⊆ assigned_paths s';
  within_called : called_targets s ⊆ called_targets s' }.
#[export] Instance within_preorder : PreOrder within.
Proof. split; [by split|]. intros a b c [] []. split; auto; by etrans. Qed.
Lemma covers_within s s' c r c' : within s s' → covers s c r c' → covers s' c r c'.
Proof.
  intros [Hg Hr Ha _] [Cg Cr Ca Ci]. split; [eauto|eauto| |done].
  intros x Hx. apply Ca. intros (p & rest & Hp & ? & ?). apply Hx. exists p, rest. auto.
Qed.
Lemma covers_trans s c c1 r1 r c2 : covers s c r1 c1 → covers s c1 r c2 → covers s c r c2.
Proof.
  intros [_ _ A1 [I1 N1]] [G R A2 [I2 N2]]. split; [done|done| |split; congruence].
  intros x Hx. by rewrite A2, A1.
Qed.
Lemma merge_within_l s o : within s (merge_flow_summary s o).
Proof.
  split; cbn; [| intros ->; done | |]; intros x Hx; apply push_all_elem; by left.
Qed.
Lemma merge_within_r s o : within o (merge_flow_summary s o).
Proof.
  split; cbn; [|intros ->; by rewrite orb_true_r| |]; intros x Hx; apply push_all_elem; by right.
Qed.
Lemma fallthrough_within b s : within s (with_fallthrough b s) ∧ within (with_fallthrough b s) s.
Proof. done. Qed.
Lemma summarize_statements_within f l acc s : summarize_statements f l acc ⇓ s → within acc s.
Proof.
  revert acc. induction l as [|o l IH]; intros acc; cbn [summarize_statements]; [by intros [= <-]|].
  destruct (may_fallthrough acc); [|by intros [= <-]]. destruct o as [st|]; [|done].
  intros H. apply cxx_bind_ret in H as (sm & _ & H). etrans; [|by apply IH].
  etrans; [apply (merge_within_l acc sm)|apply fallthrough_within].
Qed.

(** One run of two executions that differ in the invoked capabilities. *)
Section Cover.
Context {W : Type} (i1 i2 : InvokeCall W).
Definition same_results (s : Summary) (ctx : EvalContext) (rc rc' : ExecResult * ExecContext W) : Prop :=
  ∃ r ctx', rc = (r, calling i1 ctx') ∧ rc' = (r, calling i2 ctx') ∧ covers s ctx r ctx' ∧
    (stops r = false → may_fallthrough s = true).
Definition agreeing (s : Summary) : Prop := ∀ callee, callee ∈ called_targets s →
  ∀ vs w, i1 callee vs w = i2 callee vs w.
Definition covered (s : Summary) (m : ExecContext W → eff W (ExecResult * ExecContext W)) : Prop :=
  agreeing s → ∀ ctx, sim (same_results s ctx) (m (calling i1 ctx)) (m (calling i2 ctx)).
Lemma agreeing_within s s' : within s s' → agreeing s' → agreeing s.
Proof. intros Hs Ha callee Hc. by apply Ha, Hs. Qed.

Lemma covers_stay s ctx r : (∀ t, outcome r = ExecGoto t → t ∈ goto_targets s) →
  (∀ v, outcome r = ExecReturn v → may_return s = true) → covers s ctx r ctx.
Proof. intros Hg Hr. split; [done|done| |done]. intros x Hx. done. Qed.
(** A statement that ends without transferring control. *)
Lemma same_stay s ctx r : outcome r = ExecContinue → (stops r = false → may_fallthrough s = true) →
  same_results s ctx (r, calling i1 ctx) (r, calling i2 ctx).
Proof.
  intros Ho Hs. exists r, ctx. split_and!; [done|done| |done]. apply covers_stay; intros ?; by rewrite Ho.
Qed.
Lemma eval_sim e s0 s1 s ctx (k1 k2 : EvalResult → eff W (ExecResult * ExecContext W)) :
  collect_called (Some e) s0 ⇓ s1 → within s1 s → agreeing s →
  (∀ r, sim (same_results s ctx) (k1 r) (k2 r)) →
  sim (same_results s ctx)
    (r ← eval_expression e (calling i1 ctx); if has_errors r then mret (eval_failed r, calling i1 ctx) else k1 r)
    (r ← eval_expression e (calling i2 ctx); if has_errors r then mret (eval_failed r, calling i2 ctx) else k2 r).
Proof.
  intros Hcol Hw Hag Hk. apply (sim_bind eq).
  - intros w r w' H. exists r. split; [|done]. rewrite <-H. symmetry. apply eval_handler_agrees; [done|].
    intros callee Hc. apply Hag, Hw. unfold collect_called in Hcol. cbn [collect_ref] in Hcol.
    apply cxx_bind_ret in Hcol as (l & Hl & [= <-]). cbn. apply (collect_called_spec e _ _ Hl). by right.
  - intros r _ <-. destruct (has_errors r) eqn:E; [|apply Hk]. apply sim_ret, same_stay; [done|].
    unfold stops, exec_has_errors. cbn. unfold has_errors in E. by rewrite E.
Qed.
Lemma collect_called_within e s0 s1 : collect_called e s0 ⇓ s1 → within s0 s1 ∧
  may_fallthrough s1 = may_fallthrough s0 ∧ assigned_paths s1 = assigned_paths s0 ∧ may_return s1 = may_return s0 ∧
  goto_targets s1 = goto_targets s0.
Proof.
  unfold collect_called. intros H. apply cxx_bind_ret in H as (l & Hl & [= <-]). split; [|done].
  split; cbn; [done|done|done|]. intros x Hx. destruct e as [e|]; [|done].
  apply (collect_called_spec e _ _ Hl). by left.
Qed.
Lemma same_within s s' ctx rc rc' : within s s' → (may_fallthrough s = true → may_fallthrough s' = true) →
  same_results s ctx rc rc' → same_results s' ctx rc rc'.
Proof.
  intros Hw Hf (r & c' & -> & -> & Hc & Hs). exists r, c'. split_and!; [done|done| |auto].
  by eapply covers_within.
Qed.
Lemma covered_statements f exec1 l acc s :
  Forall (λ st, ∀ s, f st ⇓ s → covered s (exec1 st)) (l ≫= option_list) →
  may_fallthrough acc = true → summarize_statements f l acc ⇓ s →
  covered s (exec_statements exec1 l).
Proof.
  intros Hl. revert acc. induction l as [|[st|] l IH]; intros acc; cbn [summarize_statements exec_statements].
  - intros Hacc [= <-] Hag ctx. apply sim_ret, same_stay; done.
  - intros Hacc. rewrite Hacc. intros H. apply cxx_bind_ret in H as (sm & E & H).
    simpl in Hl. apply Forall_cons in Hl as [Hst Hl].
    pose proof (summarize_statements_within _ _ _ _ H) as Hw.
    assert (Hsm : within sm s).
    { etrans; [|exact Hw]. etrans; [apply (merge_within_r acc sm)|apply fallthrough_within]. }
    intros Hag ctx. eapply sim_bind; [apply (Hst sm E (agreeing_within _ _ Hsm Hag) ctx)|].
    intros rc rc' (r & c1 & -> & -> & Hc & Hs). cbn [fst snd]. destruct (stops r) eqn:Er.
    + apply sim_ret. exists r, c1. split_and!; [done|done|by eapply covers_within|by rewrite Er].
    + eapply sim_weaken; [eapply (IH Hl); [|exact H|done]|].
      * cbn. by apply Hs.
      * intros rc rc' (r2 & c2 & -> & -> & Hc2 & Hs2). exists r2, c2. split_and!; [done|done| |done].
        eapply covers_trans; [|exact Hc2]. by eapply covers_within.
  - intros Hacc. by rewrite Hacc.
Qed.
Lemma covered_block f exec1 (b : Block) s :
  Forall (λ st, ∀ s, f st ⇓ s → covered s (exec1 st)) (statements b ≫= option_list) →
  summarize_block_with f b ⇓ s → covered s (exec_block_with exec1 b).
Proof. destruct b as [l sr]. intros Hl. by apply covered_statements. Qed.
Lemma covered_within s s' m : within s s' → (may_fallthrough s = true → may_fallthrough s' = true) →
  covered s m → covered s' m.
Proof.
  intros Hw Hf Hm Hag ctx. eapply sim_weaken; [apply Hm; by eapply agreeing_within|].
  intros rc rc'. by apply same_within.
Qed.
Lemma covered_skip s : may_fallthrough s = true → covered s (λ c, mret (make_continue, c)).
Proof. intros Hs _ ctx. by apply sim_ret, same_stay. Qed.
Lemma covered_error s msg ctx : sim (W:=W) (same_results s ctx)
  (mret (make_exec_error msg, calling i1 ctx)) (mret (make_exec_error msg, calling i2 ctx)).
Proof. by apply sim_ret, same_stay. Qed.
Lemma covered_if f exec1 c (t e : option Block) s :
  Forall (λ st, ∀ s, f st ⇓ s → covered s (exec1 st))
    ((option_list t ≫= λ b, statements b ≫= option_list) ++ (option_list e ≫= λ b, statements b ≫= option_list)) →
  summarize_if f c t e ⇓ s → covered s (exec_if exec1 c t e).
Proof.
  intros Hl H. apply Forall_app in Hl as [Ht He]. unfold summarize_if in H.
  apply cxx_bind_ret in H as (s0 & E0 & H). apply cxx_bind_ret in H as (s1 & E1 & H).
  destruct t as [t|]; [|done]. cbn in Ht. rewrite app_nil_r in Ht.
  destruct c as [c|]; [|done]. cbn [exec_if exec_opt_block].
  assert (within (merge_flow_summary s0 s1) s ∧ (may_fallthrough s1 = true → may_fallthrough s = true) ∧
    covered s (exec_opt_block exec1 e)) as (Hw & Hf & Helse).
  { destruct e as [e|].
    - cbn in He. rewrite app_nil_r in He. apply cxx_bind_ret in H as (s2 & E2 & [= <-]). cbn [exec_opt_block].
      split_and!; [etrans; [apply merge_within_l|apply fallthrough_within]|intros Hs1; cbn; by rewrite Hs1|].
      eapply covered_within; [|cbn|by eapply covered_block].
      + etrans; [apply merge_within_r|apply fallthrough_within].
      + intros ->. by rewrite orb_true_r.
    - injection H as <-. split_and!; [done|done|]. by apply covered_skip. }
  assert (Hthen : covered s (exec_block_with exec1 t)).
  { eapply covered_within; [|exact Hf|by eapply covered_block].
    etrans; [apply merge_within_r|exact Hw]. }
  intros Hag ctx. eapply eval_sim; [exact E0| |done|].
  - etrans; [apply merge_within_l|exact Hw].
  - intros r. destruct (er_value r) as [|[]| | | | | | | | |]; try apply covered_error; [by apply Hthen|by apply Helse].
Qed.
Lemma covered_statement st s : summarize_statement st ⇓ s → covered s (exec_statement st).
Proof.
  revert s. induction st as [[n sr i] IH] using statement_induction. intros s. cbn [statement_node] in IH.
  destruct n as [x ty e|p e|c t e|tgt|e|c|e]; cbn [summarize_statement exec_statement nested_statements] in *.
  - intros H Hag ctx. destruct e as [e|]; [|done]. eapply eval_sim; [exact H|done|done|]. intros r.
    apply collect_called_within in H as (_ & Hf & _). apply sim_ret.
    exists make_continue, (bind_local x (er_value r) ctx). split_and!; [done|done| |by rewrite Hf].
    split; [done|done|done|done].
  - intros H Hag ctx. pose proof (collect_called_within _ _ _ H) as (Hw & Hf & Ha & _). cbn in Ha.
    unfold exec_assign. case_bool_decide as Hr; cbn [negb]; [|apply sim_ret, same_stay; [done|by rewrite Hf]].
    destruct (members p) as [|m rest] eqn:Em; [apply sim_ret, same_stay; [done|by rewrite Hf]|].
    destruct e as [e|]; [|done]. eapply eval_sim; [exact H|done|done|]. intros r. apply sim_ret.
    exists make_continue, (set_ctx m (er_value r) ctx). split_and!; [done|done| |by rewrite Hf].
    split; [done|done| |done]. intros y Hy. cbn. apply lookup_insert_ne. intros ->. apply Hy.
    exists p, rest. split_and!; [rewrite Ha; by left|done|done].
  - by apply covered_if.
  - intros [= <-] Hag ctx. apply sim_ret. exists (mkExecResult (ExecGoto tgt) empty_bag), ctx.
    split_and!; [done|done| |done]. apply covers_stay; cbn; [|done]. intros t [= ->]. by left.
  - intros H Hag ctx. destruct e as [e|].
    + eapply eval_sim; [exact H|done|done|]. intros r. apply collect_called_within in H as (_ & _ & _ & Hm & _).
      apply sim_ret. exists (mkExecResult (ExecReturn (er_value r)) empty_bag), ctx.
      split_and!; [done|done| |done]. by apply covers_stay.
    + injection H as <-. apply sim_ret. exists (mkExecResult (ExecReturn make_none) empty_bag), ctx.
      split_and!; [done|done| |done]. by apply covers_stay.
  - intros H Hag ctx. apply cxx_bind_ret in H as (s0 & H & [= <-]).
    destruct c as [c|]; [|done]. pose proof (collect_called_within _ _ _ H) as (Hw & Hf & Ha & Hm & Hg).
    eapply eval_sim; [exact H| |done|].
    + split; cbn; [by rewrite Hg|by rewrite Hm|by rewrite Ha|done].
    + intros r. destruct (er_value r) as [|[]| | | | | | | | |]; try (by apply sim_ret, same_stay).
      apply sim_ret. eexists _, ctx. split_and!; [done|done| |done]. by apply covers_stay.
  - intros H Hag ctx. destruct e as [e|]; [|done]. eapply eval_sim; [exact H|done|done|]. intros r.
    apply collect_called_within in H as (_ & Hf & _). apply sim_ret, same_stay; [done|by rewrite Hf].
Qed.
End Cover.

Lemma covered_run {W} (invoke invoke' : InvokeCall W) body s ctx w r c' w' :
  summarize_block body ⇓ s →
  (∀ callee, callee ∈ called_targets s → ∀ vs w, invoke callee vs w = invoke' callee vs w) →
  exec_block body (calling invoke ctx) w ⇓ (r, c', w') →
  ∃ ctx', c' = calling invoke ctx' ∧ exec_block body (calling invoke' ctx) w ⇓ (r, calling invoke' ctx', w') ∧
    covers s ctx r ctx' ∧ (stops r = false → may_fallthrough s = true).
Proof.
  intros Hs Hag Hrun.
  assert (Hc : covered invoke invoke' s (exec_block body)).
  { apply (covered_block _ _ summarize_statement); [|done]. apply Forall_forall. intros st _ s'. apply covered_statement. }
  destruct (Hc Hag ctx w (r, c') w' Hrun) as (rc & Hrun' & r2 & ctx' & [= <- ->] & -> & ? & ?). eauto 6.
Qed.

(** C25: The summary of a state handler covers every run of its body.  A run
    jumps only to the summary's targets, returns only if the summary says so,
    reaches the end only if it may fall through, changes only context fields
    that an assigned path names, and leaves the inputs alone; and it invokes
    only the called capabilities: with others that agree on these, it makes
    the same run. *)
Theorem handler_summary_sound {W} (invoke invoke' : InvokeCall W) body s ctx w r c' w' :
  summarize_block body ⇓ s →
  (∀ callee, callee ∈ called_targets s → ∀ vs w, invoke callee vs w = invoke' callee vs w) →
  exec_block body (calling invoke ctx) w ⇓ (r, c', w') →
  ∃ ctx', c' = calling invoke ctx' ∧ exec_block body (calling invoke' ctx) w ⇓ (r, calling invoke' ctx', w') ∧
    covers s ctx r ctx' ∧ (stops r = false → may_fallthrough s = true).
Proof. apply covered_run. Qed.

(** [if (check()) { ctx.total = 1 } else { goto Done }  return true] *)
Definition plain (n : ExprNode) : ExprRef := Some (bare n).
Definition plain_statement (n : StatementNode) : option Ir.Statement := Some (mkStatement n None 0).
Definition sample_handler : Block := mkBlock [
  plain_statement (IfStatement (plain (CallExpr "check" []))
    (Some (mkBlock [plain_statement (AssignStatement (mkPath PathRootKind.Context "ctx" ["total"])
                                       (plain (IntegerLiteralExpr "1")))] None))
    (Some (mkBlock [plain_statement (GotoStatement "Done")] None)));
  plain_statement (ReturnStatement (plain (BoolLiteralExpr true)))] None.
Definition sample_summary : Summary :=
  mkSummary ["Done"] true false [mkPath PathRootKind.Context "ctx" ["total"]] ["check"] 0.
(** Capabilities that return [b]; the world records what is invoked. *)
Definition answering (b : bool) : InvokeCall (list string) :=
  λ callee _ w, Ret (value_result (BoolValue b), (w ++ [callee])%list).
Lemma handler_summary_sound_witness : ∃ r ctx',
  exec_block sample_handler (calling (answering true) empty_context) [] ⇓
    (r, calling (answering true) ctx', ["check"]) ∧
  covers sample_summary empty_context r ctx' ∧ outcome r = ExecReturn (BoolValue true) ∧
  ctx_scope ctx' !! "total" = Some (IntValue 1).
Proof.
  assert (Hobs : match exec_block sample_handler (calling (answering true) empty_context) [] with
    | Ret (r, c', w') => outcome r = ExecReturn (BoolValue true) ∧
        ctx_scope (eval_ctx c') !! "total" = Some (IntValue 1) ∧ w' = ["check"]
    | _ => False
    end) by (vm_compute; auto).
  destruct (exec_block sample_handler _ []) as [[[r c'] w']| |] eqn:E; [|destruct Hobs..].
  destruct Hobs as (Hr & Ht & ->).
  destruct (handler_summary_sound (answering true) (answering true) sample_handler sample_summary empty_context []
    r c' ["check"]) as (ctx' & -> & _ & Hc & _); [vm_compute; reflexivity|reflexivity|exact E|].
  exists r, ctx'. split_and!; [reflexivity|assumption..].
Defined.

(** ** The reads of a workflow expression *)
Section ReadsSpec.
Context (names : list string).
(** The paths whose values come from the input or from a node of the workflow. *)
Definition tracked (p : Path) : Prop :=
  root_kind p = PathRootKind.Input ∨ (root_kind p = PathRootKind.Identifier ∧ root_name p ∈ names).
Definition read_of (p : Path) : WorkflowValueRead :=
  mkRead (match root_kind p with
          | PathRootKind.Input => WorkflowValueSourceKind.WorkflowInput
          | _ => WorkflowValueSourceKind.WorkflowNodeOutput
          end) (root_name p) (members p).
Lemma read_path_elem p l x : x ∈ read_path names p l ↔ x ∈ l ∨ (tracked p ∧ x = read_of p).
Proof.
  unfold read_path, tracked, read_of. destruct (root_kind p); try (rewrite push_unique_elem; naive_solver); try naive_solver.
  case_bool_decide; [rewrite push_unique_elem; naive_solver|naive_solver].
Qed.
Lemma collect_reads_spec e :
  collects (collect_workflow_value_reads names) (λ e x, ∃ p, mentions p e ∧ tracked p ∧ x = read_of p) e.
Proof.
  induction e as [[n r t i] IH] using expr_induction. cbn [expr_node] in IH. intros acc acc' H x.
  cbn [collect_workflow_value_reads] in H. cbv zeta in H. rewrite (collects_children _ _ n IH _ _ H).
  assert (Hocc : ∀ p, mentions p (mkExpr n r t i) ↔ n = PathExpr p ∨ ∃ e', e' ∈ children n ∧ mentions p e').
  { intros p. unfold mentions. apply occurs_spec. }
  setoid_rewrite Hocc. destruct n; try (naive_solver; fail). rewrite read_path_elem. naive_solver.
Qed.
End ReadsSpec.
(** Where the value of a read is found. *)
Definition path_of (r : WorkflowValueRead) : Path :=
  mkPath (match read_kind r with
          | WorkflowValueSourceKind.WorkflowInput => PathRootKind.Input
          | WorkflowValueSourceKind.WorkflowNodeOutput => PathRootKind.Identifier
          end) (read_root r) (read_members r).

(** The reads of a workflow expression determine its value: if all its
    paths lead to the input or to nodes of the workflow, evaluation in two
    contexts that agree on the reads gives the same result and makes the same
    capability calls. *)
Theorem workflow_reads_determine_value {W} (invoke : InvokeCall W) names e s c1 c2 w :
  summarize_workflow_expr names e ⇓ s →
  (∀ p, mentions p e → tracked names p) →
  (∀ r, r ∈ reads s → eval_path_expr (path_of r) c1 = eval_path_expr (path_of r) c2) →
  eval_expr_with_capability_call_handler e c1 invoke w = eval_expr_with_capability_call_handler e c2 invoke w.
Proof.
  intros Hs Ht Hr. apply cxx_bind_ret in Hs as (l & Hl & [= <-]). cbn in Hr.
  apply eval_handler_agrees; [|done]. intros p Hp.
  apply (Hr (read_of p)). apply (collect_reads_spec names e _ _ Hl). right. exists p. auto.
Qed.
(** [{order: input.order, status: Charge.status}], read in a
    workflow with a node [Charge]. *)
Definition sample_return : Expr := bare (ListLiteralExpr
  [plain (PathExpr (mkPath PathRootKind.Input "input" ["order"]));
   plain (PathExpr (mkPath PathRootKind.Identifier "Charge" ["status"]))]).
Definition sample_reads : list WorkflowValueRead :=
  [mkRead WorkflowValueSourceKind.WorkflowInput "input" ["order"];
   mkRead WorkflowValueSourceKind.WorkflowNodeOutput "Charge" ["status"]].
Lemma workflow_reads_determine_value_witness : ∃ s, summarize_workflow_expr ["Charge"] sample_return ⇓ s ∧
  reads s = sample_reads ∧ ∀ c, 
    (∀ r, r ∈ sample_reads → eval_path_expr (path_of r) empty_context = eval_path_expr (path_of r) c) →
    eval_expr_with_capability_call_handler sample_return empty_context (answering true) [] =
    eval_expr_with_capability_call_handler sample_return c (answering true) [].
Proof.
  eexists. split; [vm_compute; reflexivity|]. split; [reflexivity|]. intros c Hc.
  refine (workflow_reads_determine_value (answering true) ["Charge"] sample_return (mkExprSummary sample_reads)
    empty_context c [] _ _ Hc); [vm_compute; reflexivity|].
  intros p Hp. unfold mentions in Hp. apply occurs_spec in Hp as [Hp|(e & He & Hp)]; [discriminate Hp|].
  cbn in He. apply elem_of_cons in He as [->|He].
  - apply occurs_spec in Hp as [[= <-]|(e & He & _)]; [by left|by apply elem_of_nil in He].
  - apply list_elem_of_singleton in He as ->.
    apply occurs_spec in Hp as [[= <-]|(e & He & _)]; [right; split; [done|by left]|by apply elem_of_nil in He].
Defined.
