(* ===== verification/AnalysisFresh.v ===== *)
(** * Recomputing the derived analyses

    After [recompute_derived_analyses] every analysis is fresh and the lookups
    give each handler, node and return value its own summary; the formal
    observations cover the program, with distinct symbols; and it succeeds on a
    program without null handles. *)
From S2P Require Import Prelude Numeric Ir Passes TemporalProps Analysis AnalysisProps.
Open Scope nat_scope.

(** ** Recomputed analyses *)
Section Loops.
Context {A B : Type}.
Lemma collect_indexed_elem (step : Z → A → list B → cxx (list B)) (P : Z → A → B → Prop) i l acc acc' :
  (∀ i a acc acc', step i a acc ⇓ acc' → ∀ x, x ∈ acc' ↔ x ∈ acc ∨ P i a x) →
  collect_indexed step i l acc ⇓ acc' →
  ∀ x, x ∈ acc' ↔ x ∈ acc ∨ ∃ j a, l !! j = Some a ∧ P (i + Z.of_nat j)%Z a x.
Proof.
  intros Hs. revert i acc. induction l as [|a l IH]; intros i acc; cbn [collect_indexed].
  - intros [= <-] x. split; [by left|]. by intros [|(j & a & Hj & _)].
  - intros H x. apply cxx_bind_ret in H as (acc1 & E & H). rewrite (IH _ _ H), (Hs _ _ _ _ E). split.
    + intros [[|Hx]|(j & a' & Hj & Hx)]; [by left| |].
      * right. exists 0%nat, a. split; [done|]. by rewrite Z.add_0_r.
      * right. exists (S j), a'. split; [done|]. by replace (i + Z.of_nat (S j))%Z with (i + 1 + Z.of_nat j)%Z by lia.
    + intros [|(j & a' & Hj & Hx)]; [by left; left|]. destruct j as [|j].
      * injection Hj as <-. left. right. by rewrite Z.add_0_r in Hx.
      * right. exists j, a'. split; [done|]. by replace (i + 1 + Z.of_nat j)%Z with (i + Z.of_nat (S j))%Z by lia.
Qed.
Lemma collect_indexed_inv {S} (step : Z → A → S → cxx S) (I : S → Prop) i l acc acc' :
  (∀ i a acc acc', step i a acc ⇓ acc' → I acc → I acc') → collect_indexed step i l acc ⇓ acc' → I acc → I acc'.
Proof.
  intros Hs. revert i acc. induction l as [|a l IH]; intros i acc; cbn [collect_indexed]; [by intros [= <-]|].
  intros H HI. apply cxx_bind_ret in H as (acc1 & E & H). eauto.
Qed.
(** The step at an index ran, and what the steps preserve holds in the end if
    it holds after that step. *)
Lemma collect_indexed_ran {T} (step : Z → A → T → cxx T) i l acc acc' j a :
  collect_indexed step i l acc ⇓ acc' → l !! j = Some a →
  ∃ acc1 acc2, step (i + Z.of_nat j)%Z a acc1 ⇓ acc2 ∧ ∀ I : T → Prop,
    (∀ i a acc acc', step i a acc ⇓ acc' → I acc → I acc') → I acc2 → I acc'.
Proof.
  revert i acc j. induction l as [|b l IH]; intros i acc j; cbn [collect_indexed]; [done|].
  intros H Hj. apply cxx_bind_ret in H as (acc1 & E & H). destruct j as [|j].
  - injection Hj as ->. rewrite Z.add_0_r. exists acc, acc1. split; [done|]. intros I HI.
    by apply (collect_indexed_inv step I (i + 1) l).
  - replace (i + Z.of_nat (S j))%Z with (i + 1 + Z.of_nat j)%Z by lia. by apply (IH _ acc1).
Qed.
End Loops.
Lemma for_declarations_elem {B S} (proj : S → list B) (step : Decl → S → cxx S) (P : Decl → B → Prop) l acc acc' :
  (∀ d acc acc', step d acc ⇓ acc' → ∀ x, x ∈ proj acc' ↔ x ∈ proj acc ∨ P d x) →
  for_declarations step l acc ⇓ acc' → ∀ x, x ∈ proj acc' ↔ x ∈ proj acc ∨ ∃ d, d ∈ l ∧ P d x.
Proof.
  intros Hs. revert acc. induction l as [|d l IH]; intros acc; cbn [for_declarations].
  - intros [= <-] x. split; [by left|]. intros [|(d & Hd & _)]; [done|]. by apply elem_of_nil in Hd.
  - intros H x. apply cxx_bind_ret in H as (acc1 & E & H). rewrite (IH _ H), (Hs _ _ _ E).
    setoid_rewrite elem_of_cons. naive_solver.
Qed.
Lemma for_declarations_inv {S} (step : Decl → S → cxx S) (I : S → Prop) l acc acc' :
  (∀ d acc acc', step d acc ⇓ acc' → I acc → I acc') → for_declarations step l acc ⇓ acc' → I acc → I acc'.
Proof.
  intros Hs. revert acc. induction l as [|d l IH]; intros acc; cbn [for_declarations]; [by intros [= <-]|].
  intros H HI. apply cxx_bind_ret in H as (acc1 & E & H). eauto.
Qed.
Lemma for_declarations_ran {S} (step : Decl → S → cxx S) l acc acc' d :
  for_declarations step l acc ⇓ acc' → d ∈ l →
  ∃ acc1 acc2, step d acc1 ⇓ acc2 ∧ ∀ I : S → Prop,
    (∀ d acc acc', step d acc ⇓ acc' → I acc → I acc') → I acc2 → I acc'.
Proof.
  revert acc. induction l as [|b l IH]; intros acc; cbn [for_declarations].
  - by intros _ ?%elem_of_nil.
  - intros H [->|Hd]%elem_of_cons; apply cxx_bind_ret in H as (acc1 & E & H); [|eauto].
    exists acc, acc1. split; [done|]. intros I HI. by apply (for_declarations_inv step I l).
Qed.

Definition handler_entry (d : Decl) (x : StateHandlerSummaryAnalysis) : Prop := ∃ flow j handler s,
  d = DFlow flow ∧ state_handlers flow !! j = Some handler ∧ summarize_block (handler_body handler) ⇓ s ∧
  x = mkHandlerEntry (flow_target_name flow) (handler_state_name handler) (Z.of_nat j) s.
(** The entry that the result of a computation adds. *)
Lemma added_elem {B S} (m : cxx S) s (f : S → B) acc x : m ⇓ s →
  x ∈ acc ++ [f s] ↔ x ∈ acc ∨ ∃ s, m ⇓ s ∧ x = f s.
Proof.
  intros Hm. rewrite elem_of_app, list_elem_of_singleton. split; intros [|H]; try by left.
  - right. by exists s.
  - right. destruct H as (s' & Hm' & ->). rewrite Hm in Hm'. by injection Hm' as ->.
Qed.
Ltac other_declaration H := injection H as <-; split; [by left|]; intros [|Hx]; [done|naive_solver].
Lemma recompute_handlers_elem p l x : recompute_state_handler_summaries p ⇓ l →
  x ∈ l ↔ ∃ d, d ∈ declarations p ∧ handler_entry d x.
Proof.
  intros H. refine (iff_trans (for_declarations_elem id _ handler_entry _ _ _ _ H x) _); [|cbn; set_solver].
  clear. intros d acc acc' H x. cbn [id]. destruct d as [| | | | | | | | | |flow|]; cbn [summarize_handlers] in H;
    try (unfold handler_entry; other_declaration H).
  refine (iff_trans (collect_indexed_elem _ (λ i h y, ∃ s, summarize_block (handler_body h) ⇓ s ∧
    y = mkHandlerEntry (flow_target_name flow) (handler_state_name h) i s) _ _ _ _ _ H x) _).
  - clear. intros i h acc acc' H x. apply cxx_bind_ret in H as (s & E & [= <-]).
    by apply (added_elem _ s (mkHandlerEntry _ _ _)).
  - unfold handler_entry. cbn. naive_solver.
Qed.
Definition node_names (workflow : WorkflowDecl) : list string := wn_name <$> wf_nodes workflow.
Definition node_entry (d : Decl) (x : WorkflowNodeExprSummaryAnalysis) : Prop := ∃ workflow j node s,
  d = DWorkflow workflow ∧ wf_nodes workflow !! j = Some node ∧
  summarize_workflow_ref (node_names workflow) (wn_input node) ⇓ s ∧
  x = mkNodeEntry (workflow_name workflow) (wn_name node) (Z.of_nat j) s.
Definition return_entry (d : Decl) (x : WorkflowReturnExprSummaryAnalysis) : Prop := ∃ workflow s,
  d = DWorkflow workflow ∧ summarize_workflow_ref (node_names workflow) (wf_return_value workflow) ⇓ s ∧
  x = mkReturnEntry (workflow_name workflow) s.
Lemma recompute_exprs_elem p l : recompute_workflow_expr_summaries p ⇓ l →
  (∀ x, x ∈ l.1 ↔ ∃ d, d ∈ declarations p ∧ node_entry d x) ∧
  (∀ x, x ∈ l.2 ↔ ∃ d, d ∈ declarations p ∧ return_entry d x).
Proof.
  intros H. split; intros x.
  - refine (iff_trans (for_declarations_elem fst _ node_entry _ _ _ _ H x) _); [|cbn; set_solver].
    clear. intros d acc acc' H x. destruct d as [| | | | | | | | | | |wf]; cbn [summarize_workflow] in H;
      try (unfold node_entry; other_declaration H).
    apply cxx_bind_ret in H as (nodes & E & H). apply cxx_bind_ret in H as (r & _ & [= <-]).
    refine (iff_trans (collect_indexed_elem _ (λ i node y, ∃ s,
      summarize_workflow_ref (node_names wf) (wn_input node) ⇓ s ∧
      y = mkNodeEntry (workflow_name wf) (wn_name node) i s) _ _ _ _ _ E x) _).
    + clear. intros i h acc acc' H x. apply cxx_bind_ret in H as (s & E & [= <-]).
      by apply (added_elem _ s (mkNodeEntry _ _ _)).
    + unfold node_entry. cbn. naive_solver.
  - refine (iff_trans (for_declarations_elem snd _ return_entry _ _ _ _ H x) _); [|cbn; set_solver].
    clear. intros d acc acc' H x. destruct d as [| | | | | | | | | | |wf]; cbn [summarize_workflow] in H;
      try (unfold return_entry; other_declaration H).
    apply cxx_bind_ret in H as (nodes & _ & H). apply cxx_bind_ret in H as (r & E & [= <-]).
    cbn [snd]. rewrite (added_elem _ r (mkReturnEntry _) _ _ E). unfold return_entry. naive_solver.
Qed.
(** The first entry that satisfies [P]. *)
Lemma find_entry {B C} (P : B → Prop) `{!∀ x, Decision (P x)} (f : B → C) (Q : C → Prop) l :
  (∃ x, x ∈ l ∧ P x) → (∀ x, x ∈ l → P x → Q (f x)) → ∃ y, f <$> (snd <$> list_find P l) = Some y ∧ Q y.
Proof.
  intros (x & Hx & HP) HQ. destruct (list_find_elem_of P l x Hx HP) as [[i y] Hy]. rewrite Hy.
  apply list_find_Some in Hy as (Hy & HPy & _). exists (f y). split; [done|]. apply HQ; [|done].
  by eapply list_elem_of_lookup_2.
Qed.

(** The summaries that the lookups find are those of the handlers, nodes and
    return values of the program. *)
Record describes (p : AnalyzedProgram) : Prop := {
  describes_handlers flow j handler : DFlow flow ∈ declarations (program p) →
    state_handlers flow !! j = Some handler →
    ∃ s, find_state_handler_summary p flow j handler = Some s ∧ summarize_block (handler_body handler) ⇓ s;
  describes_nodes workflow j node : DWorkflow workflow ∈ declarations (program p) →
    wf_nodes workflow !! j = Some node →
    ∃ s, find_workflow_node_input_summary p workflow j node = Some s ∧
      summarize_workflow_ref (node_names workflow) (wn_input node) ⇓ s;
  describes_returns workflow : DWorkflow workflow ∈ declarations (program p) →
    ∃ s, find_workflow_return_summary p workflow = Some s ∧
      summarize_workflow_ref (node_names workflow) (wf_return_value workflow) ⇓ s }.
(** No two flows have the same target, no two workflows the same name. *)
Record distinct_names (p : Program) : Prop := {
  distinct_flows f f' : DFlow f ∈ declarations p → DFlow f' ∈ declarations p →
    flow_target_name f = flow_target_name f' → f = f';
  distinct_workflows w w' : DWorkflow w ∈ declarations p → DWorkflow w' ∈ declarations p →
    workflow_name w = workflow_name w' → w = w' }.
(** The analyses are what recomputation gives. *)
Definition current (p : AnalyzedProgram) : Prop :=
  recompute_state_handler_summaries (program p) ⇓ state_handler_summaries (analyses p) ∧
  recompute_workflow_expr_summaries (program p) ⇓
    (workflow_node_input_summaries (analyses p), workflow_return_summaries (analyses p)) ∧
  collect_formal_observations (program p) ⇓ formal_observations (analyses p).
Lemma handlers_summarized p l flow j handler : recompute_state_handler_summaries p ⇓ l →
  DFlow flow ∈ declarations p → state_handlers flow !! j = Some handler →
  ∃ s, summarize_block (handler_body handler) ⇓ s.
Proof.
  intros H Hd Hj. destruct (for_declarations_ran _ _ _ _ _ H Hd) as (? & ? & H1 & _).
  destruct (collect_indexed_ran _ _ _ _ _ _ _ H1 Hj) as (? & ? & H2 & _).
  apply cxx_bind_ret in H2 as (s & E & _). by exists s.
Qed.
Lemma workflows_summarized p l workflow : recompute_workflow_expr_summaries p ⇓ l →
  DWorkflow workflow ∈ declarations p →
  (∀ j node, wf_nodes workflow !! j = Some node →
    ∃ s, summarize_workflow_ref (node_names workflow) (wn_input node) ⇓ s) ∧
  ∃ s, summarize_workflow_ref (node_names workflow) (wf_return_value workflow) ⇓ s.
Proof.
  intros H Hd. destruct (for_declarations_ran _ _ _ _ _ H Hd) as (? & ? & H1 & _).
  cbn [summarize_workflow] in H1. apply cxx_bind_ret in H1 as (? & Hn & H1).
  apply cxx_bind_ret in H1 as (r & Er & _). split; [|by exists r].
  intros j node Hj. destruct (collect_indexed_ran _ _ _ _ _ _ _ Hn Hj) as (? & ? & H2 & _).
  apply cxx_bind_ret in H2 as (s & E & _). by exists s.
Qed.
Lemma current_describes p : current p → distinct_names (program p) → describes p.
Proof.
  intros (Hh & He & _) [Hf Hw]. pose proof (λ x, recompute_handlers_elem _ _ x Hh) as Eh.
  destruct (recompute_exprs_elem _ _ He) as [En Er]. cbn [fst snd] in En, Er. split.
  - intros flow j handler Hd Hj. destruct (handlers_summarized _ _ _ _ _ Hh Hd Hj) as [s Hs].
    apply find_entry.
    + eexists. split; [apply Eh; exists (DFlow flow); split; [done|]; by exists flow, j, handler, s|done].
    + intros x (d & Hd' & flow' & j' & handler' & s' & -> & Hj' & Hs' & ->)%Eh (Ht & Hi & _). cbn in *.
      apply Hf in Ht as ->; [|done..]. apply Nat2Z.inj in Hi as ->. by simplify_eq.
  - intros wf j node Hd Hj. destruct (proj1 (workflows_summarized _ _ _ He Hd) _ _ Hj) as [s Hs].
    apply find_entry.
    + eexists. split; [apply En; exists (DWorkflow wf); split; [done|]; by exists wf, j, node, s|done].
    + intros x (d & Hd' & wf' & j' & node' & s' & -> & Hj' & Hs' & ->)%En (Ht & Hi & _). cbn in *.
      apply Hw in Ht as ->; [|done..]. apply Nat2Z.inj in Hi as ->. by simplify_eq.
  - intros wf Hd. destruct (proj2 (workflows_summarized _ _ _ He Hd)) as [s Hs]. apply find_entry.
    + eexists. split; [apply Er; exists (DWorkflow wf); split; [done|]; by exists wf, s|done].
    + intros x (d & Hd' & wf' & s' & -> & Hs' & ->)%Er Ht. cbn in *. by apply Hw in Ht as ->.
Qed.
Lemma recompute_current ph p p' : recompute_derived_analyses ph p ⇓ p' →
  program p' = with_phase ph (program p) ∧ current p' ∧
  source_program_revision (analyses p') = analysis_revision (program p').
Proof.
  intros H. unfold recompute_derived_analyses in H. apply cxx_bind_ret in H as (hs & Hh & H).
  apply cxx_bind_ret in H as ([ns rs] & He & H). apply cxx_bind_ret in H as (os & Ho & [= <-]). done.
Qed.
Lemma current_required p kind : current p → has_required_analysis_entries p kind = true.
Proof.
  intros (Hh & He & _). destruct kind; cbn [has_required_analysis_entries]; [| |done].
  - destruct (requires_state_handler_summaries _) eqn:Hr; [|done]. apply existsb_exists in Hr as (d & Hd & Hr).
    destruct d as [| | | | | | | | | |flow|]; try done. apply list_elem_of_In in Hd.
    destruct (state_handlers flow) as [|handler ?] eqn:El; [done|].
    destruct (handlers_summarized _ _ flow 0 handler Hh Hd) as [s Hs]; [by rewrite El|].
    apply negb_true_iff, bool_decide_eq_false. intros Hl%length_zero_iff_nil.
    apply (elem_of_nil (mkHandlerEntry (flow_target_name flow) (handler_state_name handler) 0 s)). rewrite <-Hl.
    apply (recompute_handlers_elem _ _ _ Hh). exists (DFlow flow). split; [done|].
    exists flow, 0%nat, handler, s. by rewrite El.
  - destruct (requires_workflow_expr_summaries _) eqn:Hr; [|done]. apply existsb_exists in Hr as (d & Hd & Hr).
    destruct d as [| | | | | | | | | | |wf]; try done. apply list_elem_of_In in Hd.
    destruct (proj2 (workflows_summarized _ _ _ He Hd)) as [s Hs].
    apply negb_true_iff, bool_decide_eq_false. intros Hl%length_zero_iff_nil.
    apply (elem_of_nil (mkReturnEntry (workflow_name wf) s)). rewrite <-Hl.
    apply (proj2 (recompute_exprs_elem _ _ He)). exists (DWorkflow wf). split; [done|]. by exists wf, s.
Qed.

Lemma current_fresh p required : current p →
  source_program_revision (analyses p) = analysis_revision (program p) →
  phase (program p) ≠ ProgramPhase.Lowered → has_fresh_derived_analyses p required = true.
Proof.
  intros Hc Hr Hph. unfold has_fresh_derived_analyses. case_bool_decide; [done|].
  rewrite bool_decide_eq_true_2 by done. cbn [andb].
  assert (forallb (has_required_analysis_entries p) required = true) as ->.
  { apply forallb_forall. intros k _. by apply current_required. }
  by destruct (phase (program p)).
Qed.

(** ** Formal observations *)
Definition observation_symbol (n : FormalObservationNode) : string :=
  match n with
  | CalledCapabilityObservation agent capability => called_observation_symbol agent capability
  | EmbeddedBoolObservation scope => embedded_observation_symbol scope
  end.
(** What every collector preserves, if adding an observation does. *)
Section Observations.
Context (I : list FormalObservation → Prop).
Hypothesis (add_I : ∀ n l, I l → I (add_observation (mkObservation (observation_symbol n) n) l)).
Lemma collect_agent_inv agent l : I l → I (collect_agent agent l).
Proof.
  unfold collect_agent. revert l. induction (agent_capability_refs agent) as [|c cs IH]; intros l Hl; [done|].
  cbn [foldl]. apply IH. case_bool_decide; [done|]. by apply (add_I (CalledCapabilityObservation _ _)).
Qed.
Section Formula.
Context (k : FormalObservationScopeKind.t) (owner : string) (clause : Z).
Context (called : string → list FormalObservation → list FormalObservation).
Hypothesis (called_I : ∀ c l, I l → I (called c l)).
Fixpoint collect_formula_inv t i l r {struct t} : collect_formula k owner clause called t i l ⇓ r → I l → I r.2.
Proof.
  destruct t as [n sr]. cbn [collect_formula]. intros H Hl.
  destruct n as [e|c|a|a|a b|op o|op o1 o2]; try (injection H as <-; cbn; auto; fail).
  - injection H as <-. by apply (add_I (EmbeddedBoolObservation _)).
  - destruct o as [t|]; [|done]. by apply (collect_formula_inv t i l).
  - destruct o1 as [t1|]; [|done]. apply cxx_bind_ret in H as (r1 & H1 & H2).
    destruct o2 as [t2|]; [|done]. apply (collect_formula_inv t2 r1.1 r1.2 _ H2).
    by apply (collect_formula_inv t1 i l).
Qed.
Lemma collect_clause_formula_inv t l l' : collect_clause_formula k owner clause called t l ⇓ l' → I l → I l'.
Proof.
  intros H Hl. destruct t as [t|]; [|done]. apply cxx_bind_ret in H as (r & H & [= <-]).
  by eapply collect_formula_inv.
Qed.
End Formula.
Lemma collect_declaration_inv d l l' : collect_observations d l ⇓ l' → I l → I l'.
Proof.
  intros H Hl. destruct d as [| | | | | | | |agent|contract| |wf]; cbn [collect_observations] in H;
    try (by injection H as <-).
  - injection H as <-. by apply collect_agent_inv.
  - revert H Hl. apply collect_indexed_inv. intros i c acc acc' H Hacc. unfold collect_clause in H.
    destruct (clause_value c); [injection H as <-; by apply (add_I (EmbeddedBoolObservation _))|].
    revert H Hacc. apply collect_clause_formula_inv. intros c' l0 Hl0. by apply (add_I (CalledCapabilityObservation _ _)).
  - apply cxx_bind_ret in H as (l1 & H1 & H2).
    assert (H0 : ∀ k i t acc acc', collect_workflow_formula k (wf_name wf) i t acc ⇓ acc' → I acc → I acc').
    { intros k i t acc acc'. by apply collect_clause_formula_inv. }
    eapply collect_indexed_inv; [intros ? ? ? ?; apply H0|exact H2|].
    eapply collect_indexed_inv; [intros ? ? ? ?; apply H0|exact H1|done].
Qed.
Lemma collect_declarations_inv ds l l' : for_declarations collect_observations ds l ⇓ l' → I l → I l'.
Proof. apply for_declarations_inv. intros d acc acc'. apply collect_declaration_inv. Qed.
End Observations.
Lemma add_observation_NoDup n l : NoDup (symbol <$> l) → NoDup (symbol <$> add_observation n l).
Proof.
  intros Hl. unfold add_observation. case_bool_decide; [done|]. rewrite fmap_app. apply NoDup_app.
  split_and!; [done| |apply NoDup_singleton]. intros x Hx. cbn. by intros ->%list_elem_of_singleton.
Qed.
Lemma add_observation_keeps n l x : x ∈ symbol <$> l → x ∈ symbol <$> add_observation n l.
Proof. unfold add_observation. case_bool_decide; [done|]. rewrite fmap_app. set_solver. Qed.
Lemma add_observation_here n l : symbol n ∈ symbol <$> add_observation n l.
Proof. unfold add_observation. case_bool_decide; [done|]. rewrite fmap_app. set_solver. Qed.
Lemma called_here agent capability l :
  called_observation_symbol agent capability ∈ symbol <$> add_called_observation agent capability l.
Proof. exact (add_observation_here (mkObservation _ _) l). Qed.
Lemma embedded_here scope l : embedded_observation_symbol scope ∈ symbol <$> add_embedded_observation scope l.
Proof. exact (add_observation_here (mkObservation _ _) l). Qed.
(** The atoms of a formula: its embedded expressions are counted from left to
    right, its [called] atoms name a capability. *)
Fixpoint embedded_atoms (t : TemporalExpr) : nat :=
  match t with
  | mkTemporalExpr node _ =>
      match node with
      | EmbeddedTemporalExpr _ => 1
      | TemporalUnaryExpr _ (Some a) => embedded_atoms a
      | TemporalBinaryExpr _ a b =>
          match a with Some a => embedded_atoms a | None => 0 end +
          match b with Some b => embedded_atoms b | None => 0 end
      | _ => 0
      end
  end.
Fixpoint called_atoms (t : TemporalExpr) : list string :=
  match t with
  | mkTemporalExpr node _ =>
      match node with
      | CalledTemporalExpr c => [c]
      | TemporalUnaryExpr _ (Some a) => called_atoms a
      | TemporalBinaryExpr _ a b =>
          match a with Some a => called_atoms a | None => [] end ++
          match b with Some b => called_atoms b | None => [] end
      | _ => []
      end
  end.
(** What a clause, an agent, a workflow has to observe. *)
Inductive formula_observed (k : FormalObservationScopeKind.t) (owner : string) (i : nat) (t : TemporalExpr)
    : FormalObservationNode → Prop :=
  | observed_atom a : a < embedded_atoms t →
      formula_observed k owner i t (EmbeddedBoolObservation (mkScope k owner (Z.of_nat i) (to_size (Z.of_nat a)))).
Inductive observed : Decl → FormalObservationNode → Prop :=
  | observed_capability agent ref : ref ∈ agent_capability_refs agent → symbol_canonical_name ref "" ≠ "" →
      observed (DAgent agent) (CalledCapabilityObservation (agent_name agent) (symbol_canonical_name ref ""))
  | observed_expression contract i c e : clauses contract !! i = Some c → clause_value c = ClauseExpr e →
      observed (DContract contract) (EmbeddedBoolObservation (mkScope FormalObservationScopeKind.ContractClause
        (symbol_canonical_name (contract_target_ref contract) "") (Z.of_nat i) 0))
  | observed_clause_atom contract i c t n : clauses contract !! i = Some c →
      clause_value c = ClauseTemporal (Some t) →
      formula_observed FormalObservationScopeKind.ContractClause
        (symbol_canonical_name (contract_target_ref contract) "") i t n → observed (DContract contract) n
  | observed_called contract i c t capability : clauses contract !! i = Some c →
      clause_value c = ClauseTemporal (Some t) → capability ∈ called_atoms t →
      observed (DContract contract)
        (CalledCapabilityObservation (symbol_canonical_name (contract_target_ref contract) "") capability)
  | observed_safety wf i t n : wf_safety wf !! i = Some (Some t) →
      formula_observed FormalObservationScopeKind.WorkflowSafetyClause (wf_name wf) i t n → observed (DWorkflow wf) n
  | observed_liveness wf i t n : wf_liveness wf !! i = Some (Some t) →
      formula_observed FormalObservationScopeKind.WorkflowLivenessClause (wf_name wf) i t n →
      observed (DWorkflow wf) n.
Section FormulaObservations.
Context (k : FormalObservationScopeKind.t) (owner : string) (clause : Z).
Context (called : string → list FormalObservation → list FormalObservation).
Hypothesis (called_keeps : ∀ c l x, x ∈ symbol <$> l → x ∈ symbol <$> called c l).
Definition atom_symbol (a : nat) : string :=
  embedded_observation_symbol (mkScope k owner clause (to_size (Z.of_nat a))).
Lemma formula_keeps t i l r x : collect_formula k owner clause called t i l ⇓ r →
  x ∈ symbol <$> l → x ∈ symbol <$> r.2.
Proof.
  apply (collect_formula_inv (λ l, x ∈ symbol <$> l)); [intros n l0; apply add_observation_keeps|].
  intros c l0. apply called_keeps.
Qed.
Fixpoint collect_formula_complete t a l r {struct t} :
  collect_formula k owner clause called t (to_size (Z.of_nat a)) l ⇓ r →
  r.1 = to_size (Z.of_nat (a + embedded_atoms t)) ∧
  (∀ n, n < embedded_atoms t → atom_symbol (a + n) ∈ symbol <$> r.2) ∧
  (∀ c s, (∀ l, s c ∈ symbol <$> called c l) → c ∈ called_atoms t → s c ∈ symbol <$> r.2).
Proof.
  destruct t as [n sr]. cbn [collect_formula embedded_atoms called_atoms]. intros H.
  destruct n as [e|c|st|nd|nd st|op o|op o1 o2]; try (injection H as <-; cbn; rewrite Nat.add_0_r; split_and!;
    [done|lia|try (intros ? ? ? []%elem_of_nil); intros ? ? ? ->%list_elem_of_singleton; auto]; fail).
  - injection H as <-. cbn. rewrite size_succ_to_size. split_and!; [f_equal; lia| |by intros ? ? ? ?%elem_of_nil].
    intros n Hn. replace (a + n) with a by lia. apply embedded_here.
  - destruct o as [t|]; [|done]. by apply (collect_formula_complete t a l).
  - destruct o1 as [t1|]; [|done]. apply cxx_bind_ret in H as (r1 & H1 & H2).
    destruct o2 as [t2|]; [|done]. apply collect_formula_complete in H1 as (E1 & A1 & C1).
    rewrite E1 in H2. pose proof (λ x, formula_keeps _ _ _ _ x H2) as Hk.
    apply collect_formula_complete in H2 as (E2 & A2 & C2). split_and!.
    + rewrite E2. do 2 f_equal. lia.
    + intros n Hn. destruct (decide (n < embedded_atoms t1)); [by apply Hk, A1|].
      replace (a + n) with (a + embedded_atoms t1 + (n - embedded_atoms t1)) by lia. apply A2. lia.
    + intros c s Hs [Hc|Hc]%elem_of_app; [apply Hk|]; eauto.
Qed.
End FormulaObservations.
Lemma clause_formula_complete k owner (i : nat) called t l l' n :
  (∀ c l x, x ∈ symbol <$> l → x ∈ symbol <$> called c l) →
  collect_clause_formula k owner (Z.of_nat i) called (Some t) l ⇓ l' →
  formula_observed k owner i t n → observation_symbol n ∈ symbol <$> l'.
Proof.
  intros Hk H Hn. apply cxx_bind_ret in H as (r & H & [= <-]).
  apply (collect_formula_complete _ _ _ _ Hk t 0) in H as (_ & Ha & _). destruct Hn as [a Hn]. by apply Ha.
Qed.
Lemma agent_complete agent ref l : ref ∈ agent_capability_refs agent → symbol_canonical_name ref "" ≠ "" →
  called_observation_symbol (agent_name agent) (symbol_canonical_name ref "") ∈ symbol <$> collect_agent agent l.
Proof.
  unfold collect_agent. revert l. induction (agent_capability_refs agent) as [|c cs IH]; intros l.
  - by intros ?%elem_of_nil.
  - intros [->|Hc]%elem_of_cons Hn; cbn [foldl]; [|by apply IH]. rewrite bool_decide_eq_false_2 by done. clear IH.
    assert (Hl : called_observation_symbol (agent_name agent) (symbol_canonical_name c "") ∈
      symbol <$> add_called_observation (agent_name agent) (symbol_canonical_name c "") l)
      by apply called_here.
    revert Hl. generalize (add_called_observation (agent_name agent) (symbol_canonical_name c "") l).
    induction cs as [|c' cs IH]; intros l' Hl; [done|]. cbn [foldl]. apply IH.
    case_bool_decide; [done|]. by apply add_observation_keeps.
Qed.
Lemma indexed_complete {A} (step : Z → A → list FormalObservation → cxx (list FormalObservation)) x l acc acc' j a :
  (∀ i a acc acc', step i a acc ⇓ acc' → x ∈ symbol <$> acc → x ∈ symbol <$> acc') →
  (∀ acc acc', step (Z.of_nat j) a acc ⇓ acc' → x ∈ symbol <$> acc') →
  collect_indexed step 0 l acc ⇓ acc' → l !! j = Some a → x ∈ symbol <$> acc'.
Proof.
  intros Hk Hx H Hj. destruct (collect_indexed_ran _ _ _ _ _ _ _ H Hj) as (l1 & l2 & H2 & HI).
  apply (HI (λ l, x ∈ symbol <$> l)); [done|]. by apply (Hx l1).
Qed.
Lemma clause_keeps target i c l l' x : collect_clause target i c l ⇓ l' → x ∈ symbol <$> l → x ∈ symbol <$> l'.
Proof.
  unfold collect_clause. destruct (clause_value c).
  - intros [= <-]. apply add_observation_keeps.
  - apply (collect_clause_formula_inv (λ l, x ∈ symbol <$> l)); intros; by apply add_observation_keeps.
Qed.
Lemma workflow_formula_keeps k owner i t l l' x : collect_workflow_formula k owner i t l ⇓ l' →
  x ∈ symbol <$> l → x ∈ symbol <$> l'.
Proof.
  apply (collect_clause_formula_inv (λ l, x ∈ symbol <$> l)); [|done]. intros; by apply add_observation_keeps.
Qed.
Lemma contract_complete contract l l' n : collect_contract contract l ⇓ l' → observed (DContract contract) n →
  observation_symbol n ∈ symbol <$> l'.
Proof.
  intros H Hn. inversion Hn as [|c' i c e Hi He|c' i c t n' Hi Ht Hf|c' i c t capability Hi Ht Hc| |]; subst;
    refine (indexed_complete _ _ _ _ _ _ _ (λ i c l l', clause_keeps _ i c l l' _) _ H Hi);
    unfold collect_clause; intros acc acc'.
  - rewrite He. intros [= <-]. apply embedded_here.
  - rewrite Ht. intros Hr. refine (clause_formula_complete _ _ _ _ _ _ _ _ _ Hr Hf).
    intros; by apply add_observation_keeps.
  - rewrite Ht. intros Hr. apply cxx_bind_ret in Hr as (r & Hr & [= <-]).
    refine (proj2 (proj2 (collect_formula_complete _ _ _ _ _ t 0 _ _ Hr)) _ _ _ Hc).
    + intros; by apply add_observation_keeps.
    + intros l0. apply called_here.
Qed.
Lemma workflow_complete wf l l' n : collect_workflow wf l ⇓ l' → observed (DWorkflow wf) n →
  observation_symbol n ∈ symbol <$> l'.
Proof.
  intros H Hn. apply cxx_bind_ret in H as (l1 & H1 & H2).
  inversion Hn as [| | | |w i t n' Hi Hf|w i t n' Hi Hf]; subst.
  - apply (collect_indexed_inv _ (λ l, observation_symbol n ∈ symbol <$> l) _ _ _ _
      (λ i t l l', workflow_formula_keeps _ _ i t l l' _) H2).
    refine (indexed_complete _ _ _ _ _ _ _ (λ i t l l', workflow_formula_keeps _ _ i t l l' _) _ H1 Hi).
    intros acc acc' Hr. by refine (clause_formula_complete _ _ _ _ _ _ _ _ _ Hr Hf).
  - refine (indexed_complete _ _ _ _ _ _ _ (λ i t l l', workflow_formula_keeps _ _ i t l l' _) _ H2 Hi).
    intros acc acc' Hr. by refine (clause_formula_complete _ _ _ _ _ _ _ _ _ Hr Hf).
Qed.

(** The formal observations of a program have distinct symbols, each the
    symbol of what it observes; and every capability of an agent, embedded
    expression of a contract or of a workflow's formulas, and [called] atom of
    a contract has its symbol among them. *)
Theorem formal_observations_correct p l : collect_formal_observations p ⇓ l →
  NoDup (symbol <$> l) ∧ (∀ o, o ∈ l → symbol o = observation_symbol (observation_node o)) ∧
  (∀ d n, d ∈ declarations p → observed d n → observation_symbol n ∈ symbol <$> l).
Proof.
  intros H. split_and!.
  - apply (collect_declarations_inv (λ l, NoDup (symbol <$> l)) (λ n l, add_observation_NoDup _ l) _ _ _ H), NoDup_nil_2.
  - refine (collect_declarations_inv (λ l, ∀ o, o ∈ l → symbol o = observation_symbol (observation_node o)) _ _ _ _ H _).
    + intros n l0 Hl o. unfold add_observation. case_bool_decide; [apply Hl|].
      intros [Ho| ->%list_elem_of_singleton]%elem_of_app; [by apply Hl|done].
    + by intros o ?%elem_of_nil.
  - intros d n Hd Hn. destruct (for_declarations_ran _ _ _ _ _ H Hd) as (l1 & l2 & H1 & HI).
    apply (HI (λ l, observation_symbol n ∈ symbol <$> l)).
    { intros d' a a'. apply (collect_declaration_inv (λ l, observation_symbol n ∈ symbol <$> l)).
      intros; by apply add_observation_keeps. }
    clear H HI. destruct d; try by inversion Hn.
    + injection H1 as <-. inversion Hn; subst. by apply agent_complete.
    + by apply (contract_complete d l1 l2).
    + by apply (workflow_complete d l1 l2).
Qed.

(** ** Totality: without null handles nothing is undefined *)
Definition handles (n : ExprNode) : list ExprRef :=
  match n with
  | SomeExpr e | UnaryExpr _ e | MemberAccessExpr e _ => [e]
  | CallExpr _ l | ListLiteralExpr l | SetLiteralExpr l => l
  | StructLiteralExpr _ l => snd <$> l
  | MapLiteralExpr l => l ≫= λ kv, [kv.1; kv.2]
  | BinaryExpr _ a b | IndexAccessExpr a b => [a; b]
  | _ => []
  end.
Inductive full_expr : Expr → Prop :=
  | full_expr_intro n r t i : (∀ o, o ∈ handles n → ∃ e, o = Some e ∧ full_expr e) → full_expr (mkExpr n r t i).
Definition full_ref (o : ExprRef) : Prop := ∃ e, o = Some e ∧ full_expr e.
Section CollectTotal.
Context {A : Type} (collect : Expr → A → cxx A).
Lemma collect_children_total n acc :
  (∀ o, o ∈ handles n → ∃ e, o = Some e ∧ ∀ acc, defined (collect e acc)) → defined (collect_children collect n acc).
Proof.
  intros Hh. assert (Hone : ∀ o, o ∈ handles n → ∀ acc, defined (collect_ref collect o acc)).
  { intros o (e & -> & He)%Hh. apply He. }
  clear Hh. assert (Hrefs : ∀ l, l ⊆ handles n → ∀ acc, defined (collect_refs collect l acc)).
  { induction l as [|o l IH]; intros Hl acc'; cbn [collect_refs]; [apply defined_ret|].
    apply defined_bind; [apply Hone, Hl; by left|]. intros a. apply IH. intros x Hx. apply Hl. by right. }
  destruct n as [| | | | | | |o| | |s l|s l|l|l|l|u o|b o1 o2|o s|o1 o2]; cbn [collect_children handles] in *; try apply defined_ret;
    try (apply Hone; by left); try (apply Hrefs; reflexivity).
  - clear Hrefs. revert acc. induction l as [|[f o] l IH]; intros acc; cbn [collect_fields]; [apply defined_ret|].
    apply defined_bind; [apply Hone; by left|]. intros a. apply IH. intros x Hx. apply Hone. by right.
  - clear Hrefs. revert acc. induction l as [|[k v] l IH]; intros acc; cbn [collect_entries]; [apply defined_ret|].
    rewrite bind_cons in Hone. apply defined_bind; [apply Hone; by left|]. intros a.
    apply defined_bind; [apply Hone; by right; left|]. intros a'. apply IH. intros x Hx. apply Hone.
    apply elem_of_app. by right.
  - apply defined_bind; [apply Hone; by left|]. intros a. apply Hone. by right; left.
  - apply defined_bind; [apply Hone; by left|]. intros a. apply Hone. by right; left.
Qed.
End CollectTotal.
Fixpoint called_total e acc (H : full_expr e) {struct H} : defined (collect_called_targets_from_expr e acc).
Proof.
  destruct H as [n r t i Hn]. cbn [collect_called_targets_from_expr]. apply collect_children_total.
  intros o Ho. destruct (Hn o Ho) as (e & -> & He). exists e. split; [done|]. intros acc'. by apply called_total.
Qed.
Fixpoint reads_total names e acc (H : full_expr e) {struct H} : defined (collect_workflow_value_reads names e acc).
Proof.
  destruct H as [n r t i Hn]. cbn [collect_workflow_value_reads]. apply collect_children_total.
  intros o Ho. destruct (Hn o Ho) as (e & -> & He). exists e. split; [done|]. intros acc'. by apply reads_total.
Qed.
Lemma collect_called_total o s : full_ref o → defined (collect_called o s).
Proof. intros (e & -> & He). apply defined_bind; [by apply called_total|intros ?; apply defined_ret]. Qed.
Lemma summarize_ref_total names o : (∀ e, o = Some e → full_expr e) → defined (summarize_workflow_ref names o).
Proof.
  destruct o as [e|]; intros He; [|apply defined_ret]. apply defined_bind; [by apply reads_total, He|].
  intros a. apply defined_ret.
Qed.
Definition statement_handles (n : StatementNode) : list ExprRef :=
  match n with
  | LetStatement _ _ e | AssignStatement _ e | IfStatement e _ _ | AssertStatement e | ExprStatement e => [e]
  | ReturnStatement (Some e) => [Some e]
  | _ => []
  end.
Definition branches (n : StatementNode) : list Block :=
  match n with IfStatement _ t e => option_list t ++ option_list e | _ => [] end.
Inductive full_statement : Ir.Statement → Prop :=
  | full_statement_intro n r i : (∀ o, o ∈ statement_handles n → full_ref o) →
      (∀ c t e, n = IfStatement c t e → t ≠ None) →
      (∀ b o, b ∈ branches n → o ∈ statements b → ∃ s, o = Some s ∧ full_statement s) →
      full_statement (mkStatement n r i).
Definition full_block (b : Block) : Prop := ∀ o, o ∈ statements b → ∃ s, o = Some s ∧ full_statement s.
Definition full_formula (o : option TemporalExpr) : Prop := ∃ t, o = Some t ∧ formula_wf t.
(** No null handle where the analyses look. *)
Definition full_declaration (d : Decl) : Prop :=
  match d with
  | DFlow flow => Forall (λ h, full_block (handler_body h)) (state_handlers flow)
  | DContract contract => Forall (λ c, ∀ t, clause_value c = ClauseTemporal t → full_formula t) (clauses contract)
  | DWorkflow wf =>
      Forall (λ n, ∀ e, wn_input n = Some e → full_expr e) (wf_nodes wf) ∧
      (∀ e, wf_return_value wf = Some e → full_expr e) ∧
      Forall full_formula (wf_safety wf) ∧ Forall full_formula (wf_liveness wf)
  | _ => True
  end.
Lemma summarize_statements_total f l s :
  (∀ o, o ∈ l → ∃ s, o = Some s ∧ defined (f s)) → defined (summarize_statements f l s).
Proof.
  revert s. induction l as [|o l IH]; intros s Hl; cbn [summarize_statements]; [apply defined_ret|].
  destruct (may_fallthrough s); [|apply defined_ret]. destruct (Hl o) as (st & -> & Hs); [by left|].
  apply defined_bind; [done|]. intros a. apply IH. intros o Ho. apply Hl. by right.
Qed.
Fixpoint summarize_total st (H : full_statement st) {struct H} : defined (summarize_statement st).
Proof.
  destruct H as [n r i Hh Ht Hb].
  assert (Hblock : ∀ b, b ∈ branches n → defined (summarize_block_with summarize_statement b)).
  { intros [l sr] Hin. apply summarize_statements_total. intros o Ho.
    destruct (Hb _ o Hin Ho) as (s & -> & Hs). exists s. split; [done|]. by apply summarize_total. }
  clear Hb summarize_total. destruct n as [x ty e|p e|c t e|tgt|e|c|e]; cbn [summarize_statement statement_handles branches] in *;
    try apply defined_ret.
  - apply collect_called_total, Hh. by left.
  - apply collect_called_total, Hh. by left.
  - unfold summarize_if. apply defined_bind; [apply collect_called_total, Hh; by left|]. intros s.
    destruct t as [t|]; [|by destruct (Ht _ _ _ eq_refl)].
    apply defined_bind; [apply Hblock; by left|]. intros s1. destruct e as [e|]; [|apply defined_ret].
    apply defined_bind; [apply Hblock; by right; left|]. intros s2. apply defined_ret.
  - destruct e as [e|]; [|apply defined_ret]. apply collect_called_total, Hh. by left.
  - apply defined_bind; [apply collect_called_total, Hh; by left|]. intros s. apply defined_ret.
  - apply collect_called_total, Hh. by left.
Qed.
Lemma formula_total k owner c called t i l : formula_wf t → defined (collect_formula k owner c called t i l).
Proof.
  intros H. revert i l. induction H as [op t sr _ IH|op a b sr _ IHa _ IHb| | | | |]; intros i l;
    try apply defined_ret; cbn [collect_formula]; [apply IH|].
  apply defined_bind; [apply IHa|]. intros r1. apply IHb.
Qed.
Lemma clause_total k owner c called t l : full_formula t → defined (collect_clause_formula k owner c called t l).
Proof. intros (t' & -> & Ht). apply defined_bind; [by apply formula_total|]. intros r. apply defined_ret. Qed.
Lemma indexed_total {A S} (step : Z → A → S → cxx S) (P : A → Prop) i l acc :
  (∀ i a acc, P a → defined (step i a acc)) → Forall P l → defined (collect_indexed step i l acc).
Proof.
  intros Hs Hl. revert i acc. induction Hl as [|a l Ha Hl IH]; intros i acc; cbn [collect_indexed]; [apply defined_ret|].
  apply defined_bind; auto.
Qed.
Lemma declarations_total {S} (step : Decl → S → cxx S) l acc :
  (∀ d acc, full_declaration d → defined (step d acc)) → Forall full_declaration l →
  defined (for_declarations step l acc).
Proof.
  intros Hs Hl. revert acc. induction Hl as [|a l Ha Hl IH]; intros acc; cbn [for_declarations]; [apply defined_ret|].
  apply defined_bind; auto.
Qed.
Lemma recompute_total ph p : Forall full_declaration (declarations (program p)) →
  defined (recompute_derived_analyses ph p).
Proof.
  intros Hp. unfold recompute_derived_analyses. repeat (apply defined_bind; [|intros ?]); [| | |apply defined_ret];
    (apply declarations_total; [|done]); intros d acc Hd;
    destruct d as [| | | | | | | | |contract|flow|wf]; try apply defined_ret.
  - refine (indexed_total _ _ _ _ _ _ Hd). intros i h l Hh. apply defined_bind; [|intros s; apply defined_ret].
    destruct (handler_body h) as [ss sr]. apply summarize_statements_total. intros o Ho.
    destruct (Hh o Ho) as (s & -> & Hs). exists s. split; [done|]. by apply summarize_total.
  - destruct Hd as (Hn & Hr & _). apply defined_bind; [|intros ns; apply defined_bind; [|intros r; apply defined_ret]].
    + refine (indexed_total _ _ _ _ _ _ Hn). intros i n l Hi. apply defined_bind; [|intros s; apply defined_ret].
      by apply summarize_ref_total.
    + by apply summarize_ref_total.
  - refine (indexed_total _ _ _ _ _ _ Hd). intros i c l Hc. unfold collect_clause.
    destruct (clause_value c) as [e|t]; [apply defined_ret|]. by apply clause_total, Hc.
  - destruct Hd as (_ & _ & Hs & Hl).
    apply defined_bind; [refine (indexed_total _ _ _ _ _ _ Hs)|intros l; refine (indexed_total _ _ _ _ _ _ Hl)];
      intros i t l' Ht; by apply clause_total.
Qed.

(** Recomputing the analyses of a program without null handles succeeds,
    keeps the declarations, makes every kind of analysis fresh unless the phase
    is [Lowered], and when the flows and workflows have distinct names the
    lookups give each handler, node and return value the summary of its own
    code. *)
Theorem recompute_derived_analyses_correct ph p : Forall full_declaration (declarations (program p)) →
  ∃ p', recompute_derived_analyses ph p ⇓ p' ∧ declarations (program p') = declarations (program p) ∧
    (ph ≠ ProgramPhase.Lowered → ∀ required, has_fresh_derived_analyses p' required = true) ∧
    (distinct_names (program p) → describes p').
Proof.
  intros Hfull. destruct (recompute_total ph p Hfull) as [p' H]. exists p'. split; [done|].
  destruct (recompute_current _ _ _ H) as (Hp & Hc & Hr). split_and!; [by rewrite Hp| |].
  - intros Hph required. apply current_fresh; [done|done|]. by rewrite Hp.
  - intros Hd. apply current_describes; [done|]. rewrite Hp. by destruct Hd.
Qed.

(** ** Witnesses *)
Definition named (name : string) : SymbolRef := mkSymbolRef SymbolRefKind.Unknown name name "" None.
Definition nowhere : DeclarationProvenance := mkProvenance "" "" None 0.
(** An agent that declares [check] and [store], a flow that calls [check], a
    contract and a workflow with formulas. *)
Definition sample_declarations : list Decl := [
  DAgent (mkAgentDecl nowhere "A" ["Init"; "Orphan"; "Done"] "Init" ["Done"] [] [mkTransition "Init" "Done"]
    default_type_ref default_type_ref default_type_ref [named "check"; named "store"] (named "A"));
  DFlow (mkFlowDecl nowhere [mkStateHandler "Init" [] sample_handler None] (named "A"));
  DContract (mkContractDecl nowhere [mkContractClause ContractClauseKind.Invariant (ClauseTemporal
    (Some (unary TemporalUnaryOp.Always (binary TemporalBinaryOp.Implies
      (mkTemporalExpr (CalledTemporalExpr "check") None)
      (mkTemporalExpr (EmbeddedTemporalExpr (plain (BoolLiteralExpr true))) None) None) None))) None] (named "A"));
  DWorkflow (mkWorkflowDecl nowhere "W" [mkWorkflowNode "Charge" (Some sample_return) [] (named "A") None]
    [Some (mkTemporalExpr (EmbeddedTemporalExpr (plain (BoolLiteralExpr true))) None)] []
    (Some sample_return) default_type_ref default_type_ref (named "W"))].
Definition unanalyzed (ds : list Decl) : AnalyzedProgram :=
  mkAnalyzed (mkProgram "v1" ProgramPhase.Lowered 0 ds) (mkBundle 0 [] [] [] []).
Ltac go_through := match goal with |- ∀ x, x ∈ _ → _ =>
  let x := fresh "x" in let H := fresh in
  intros x H; cbn in H; repeat (apply elem_of_cons in H as [->|H]); [..|by apply elem_of_nil in H] end.
Lemma plain_full n : handles n = [] → full_ref (plain n).
Proof. intros Hn. eexists. split; [reflexivity|]. constructor. rewrite Hn. by intros o ?%elem_of_nil. Qed.
Lemma sample_return_full : full_expr sample_return.
Proof. constructor. go_through; by apply plain_full. Qed.
Lemma plain_statement_full n : (∀ c t e, n ≠ IfStatement c t e) → (∀ o, o ∈ statement_handles n → full_ref o) →
  ∃ s, plain_statement n = Some s ∧ full_statement s.
Proof.
  intros Hb Hh. eexists. split; [reflexivity|]. constructor; [done|by intros c t e Hn%Hb|].
  intros b o Hin. exfalso. destruct n; try by apply elem_of_nil in Hin. by eapply Hb.
Qed.
Lemma sample_handler_full : full_block sample_handler.
Proof.
  unfold full_block. go_through.
  - eexists. split; [reflexivity|]. constructor; [by go_through; apply plain_full|by intros c t e [= _ <- _]|].
    intros b o Hb. revert o. revert b Hb. go_through; go_through; (apply plain_statement_full; [done|]);
      [by go_through; apply plain_full|by intros o ?%elem_of_nil].
  - apply plain_statement_full; [done|]. by go_through; apply plain_full.
Qed.
Lemma sample_full : Forall full_declaration sample_declarations.
Proof.
  repeat apply Forall_cons_2; try apply Forall_nil_2; cbn [full_declaration].
  - done.
  - exact sample_handler_full.
  - intros t [= <-]. eexists. split; [reflexivity|]. repeat constructor.
  - split_and!; [|intros e [= <-]; exact sample_return_full| |apply Forall_nil_2].
    + apply Forall_singleton. intros e [= <-]. exact sample_return_full.
    + apply Forall_singleton. eexists. split; [reflexivity|]. constructor.
Qed.
Lemma sample_distinct : distinct_names (program (unanalyzed sample_declarations)).
Proof.
  split; intros a b Ha Hb _; cbn [program unanalyzed declarations] in Ha, Hb; unfold sample_declarations in Ha, Hb; rewrite !elem_of_cons, elem_of_nil in Ha, Hb; naive_solver.
Qed.
Lemma recompute_derived_analyses_correct_witness : ∃ p',
  recompute_derived_analyses ProgramPhase.Analyzed (unanalyzed sample_declarations) ⇓ p' ∧
  has_fresh_derived_analyses p' all_derived_analysis_kinds = true ∧ describes p' ∧
  length (state_handler_summaries (analyses p')) = 1.
Proof.
  destruct (recompute_derived_analyses_correct ProgramPhase.Analyzed (unanalyzed sample_declarations) sample_full)
    as (p' & E & _ & Hfresh & Hd).
  exists p'. split_and!; [exact E|by apply Hfresh|apply Hd, sample_distinct|].
  vm_compute in E. injection E as <-. reflexivity.
Defined.
Lemma formal_observations_correct_witness : ∃ l,
  collect_formal_observations (program (unanalyzed sample_declarations)) ⇓ l ∧
  symbol <$> l = ["agent__A__called__check"; "agent__A__called__store"; "contract_A_0_atom_0";
    "workflow_W_safety_0_atom_0"] ∧ NoDup (symbol <$> l).
Proof.
  eexists. split; [vm_compute; reflexivity|]. split; [reflexivity|].
  refine (proj1 (formal_observations_correct (program (unanalyzed sample_declarations)) _ _)).
  vm_compute. reflexivity.
Defined.
(** Sanitizing is not injective: of two capabilities with the same symbol only
    the first is observed. *)
Definition colliding : Decl :=
  DAgent (mkAgentDecl nowhere "A" ["Init"] "Init" ["Init"] [] [] default_type_ref default_type_ref default_type_ref
    [named "pay::check"; named "pay_check"] (named "A")).
Example observation_symbols_collide : ∃ o,
  collect_formal_observations (program (unanalyzed [colliding])) ⇓ [o] ∧
  observation_node o = CalledCapabilityObservation "A" "pay::check" ∧
  called_observation_symbol "A" "pay_check" = symbol o.
Proof. eexists. split; [vm_compute; reflexivity|]. by vm_compute. Qed.
