(* ===== verification/PassManager.v ===== *)
(** * The pass manager (src/compiler/passes/pass_manager.cpp)

    Registration, the pass filter, one run, the fixpoint loop and the two
    analysis passes.  A pass is a record of operations, as the source has an
    abstract class.  The timings of a run are not modelled. *)
From S2P Require Import Prelude Numeric Ir Passes Analysis.
Open Scope nat_scope.

(** ** Results of the analysis passes *)
Record UnusedCapability := mkUnused { unused_agent_name : string; unused_capability_name : string }.
Record DuplicateClause := mkDuplicate { contract_target : string; first_index : nat; second_index : nat }.
Inductive AnalysisResult :=
  | CapabilityReachabilityResult (unused : list UnusedCapability)
  | ContractRedundancyResult (duplicates : list DuplicateClause).

(** ** Capability reachability (capability_reachability.cpp) *)
(** The handlers of a flow with their positions: the source finds a position
    again from the address. *)
Definition handler_calls (p : AnalyzedProgram) (flow : FlowDecl) (i : nat) (handler : StateHandler) : list string :=
  match find_state_handler_summary p flow i handler with
  | None => []
  | Some summary => called_targets summary
  end.
Definition called_capabilities (p : AnalyzedProgram) : gset string :=
  list_to_set (declarations (program p) ≫= λ d,
    match d with
    | DFlow flow => mjoin (imap (handler_calls p flow) (state_handlers flow))
    | _ => []
    end).
Definition unused_of_agent (called : gset string) (agent : AgentDecl) : list UnusedCapability :=
  agent_capability_refs agent ≫= λ ref,
    let cap := symbol_canonical_name ref "" in
    if bool_decide (cap = "") then []
    else if bool_decide (cap ∉ called) then [mkUnused (agent_name agent) cap] else [].
Definition run_capability_reachability (p : AnalyzedProgram) : cxx AnalysisResult :=
  let called := called_capabilities p in
  Ret (CapabilityReachabilityResult (declarations (program p) ≫= λ d,
    match d with DAgent agent => unused_of_agent called agent | _ => [] end)).

(** ** Contract redundancy (contract_redundancy.cpp) *)
Section Redundancy.
(** The address of the expression or formula that a clause points to, given
    the position of the contract and of the clause. *)
Context (address : nat → nat → Z).
Definition same_alternative (a b : ContractClause) : bool :=
  match clause_value a, clause_value b with
  | ClauseExpr _, ClauseExpr _ | ClauseTemporal _, ClauseTemporal _ => true
  | _, _ => false
  end.
Definition clauses_structurally_equal (contract : nat) (i j : nat) (a b : ContractClause) : bool :=
  if negb (bool_decide (clause_kind a = clause_kind b)) then false
  else if negb (same_alternative a b) then false
  else bool_decide (address contract i = address contract j).
Definition duplicates_of (contract : nat) (target : string) (cs : list ContractClause) : list DuplicateClause :=
  mjoin (imap (λ i a,
    mjoin (imap (λ k b,
      let j := i + 1 + k in
      if clauses_structurally_equal contract i j a b then [mkDuplicate target i j] else [])
      (drop (i + 1) cs))) cs).
Definition run_contract_redundancy (p : AnalyzedProgram) : cxx AnalysisResult :=
  Ret (ContractRedundancyResult (mjoin (imap (λ n d,
    match d with
    | DContract contract =>
        duplicates_of n (symbol_canonical_name (contract_target_ref contract) "") (clauses contract)
    | _ => []
    end) (declarations (program p))))).
End Redundancy.

(** ** Passes *)
Record Pass := mkPass {
  pass_name : string;
  pass_run : AnalyzedProgram → cxx (AnalyzedProgram * bool);
  required_analyses : list string;
  required_derived_analyses : list DerivedAnalysisKind.t;
  invalidated_analyses : list string;
  invalidated_derived_analyses : list DerivedAnalysisKind.t }.
Record AnalysisPass := mkAnalysisPass {
  analysis_name : string;
  analysis_run : AnalyzedProgram → cxx AnalysisResult }.

Record PassManager := mkPassManager {
  passes_ : list Pass;
  analyses_ : list AnalysisPass;
  analysis_results_ : list (option AnalysisResult);
  pass_filter_ : gset string;
  analysis_index_ : gmap string nat }.
Definition empty_manager : PassManager := mkPassManager [] [] [] ∅ ∅.
Definition with_results (l : list (option AnalysisResult)) (pm : PassManager) : PassManager :=
  mkPassManager (passes_ pm) (analyses_ pm) l (pass_filter_ pm) (analysis_index_ pm).

Definition add_pass (pass : Pass) (pm : PassManager) : PassManager :=
  mkPassManager (passes_ pm ++ [pass]) (analyses_ pm) (analysis_results_ pm) (pass_filter_ pm) (analysis_index_ pm).
Definition add_analysis (a : AnalysisPass) (pm : PassManager) : PassManager :=
  mkPassManager (passes_ pm) (analyses_ pm ++ [a]) (analysis_results_ pm) (pass_filter_ pm)
    (<[analysis_name a := length (analyses_ pm)]> (analysis_index_ pm)).
Definition set_pass_filter (names : list string) (pm : PassManager) : PassManager :=
  mkPassManager (passes_ pm) (analyses_ pm) (analysis_results_ pm) (list_to_set names) (analysis_index_ pm).
Definition registered_pass_names (pm : PassManager) : list string := pass_name <$> passes_ pm.
Definition registered_analysis_names (pm : PassManager) : list string := analysis_name <$> analyses_ pm.

Definition ensure_analysis (name : string) (p : AnalyzedProgram) (pm : PassManager) : cxx PassManager :=
  match analysis_index_ pm !! name with
  | None => Ret pm
  | Some idx =>
      match analysis_results_ pm !! idx with
      | Some (Some _) => Ret pm
      | _ =>
          let results := if bool_decide (length (analysis_results_ pm) ≤ idx)
                         then resize (length (analyses_ pm)) None (analysis_results_ pm)
                         else analysis_results_ pm in
          match analyses_ pm !! idx with
          | None => UB
          | Some a => r ← analysis_run a p; Ret (with_results (<[idx := Some r]> results) pm)
          end
      end
  end.
Definition invalidate_analysis (name : string) (pm : PassManager) : PassManager :=
  match analysis_index_ pm !! name with
  | Some idx => with_results (<[idx := None]> (analysis_results_ pm)) pm
  | None => pm
  end.
Fixpoint ensure_all (names : list string) (p : AnalyzedProgram) (pm : PassManager) : cxx PassManager :=
  match names with
  | [] => Ret pm
  | name :: names => pm ← ensure_analysis name p pm; ensure_all names p pm
  end.

Record RunResult := mkRunResult { any_modified : bool; executed : list string }.
(** The state of a run: the manager, the program and the result so far. *)
Record RunState := mkRunState { rs_manager : PassManager; rs_program : AnalyzedProgram; rs_result : RunResult }.

Definition set_phase (ph : ProgramPhase.t) (p : AnalyzedProgram) : AnalyzedProgram :=
  mkAnalyzed (with_phase ph (program p)) (analyses p).
Definition skipped (pm : PassManager) (pass : Pass) : bool :=
  negb (bool_decide (pass_filter_ pm = ∅)) && negb (bool_decide (pass_name pass ∈ pass_filter_ pm)).
Definition after_modification (pass : Pass) (p : AnalyzedProgram) : cxx AnalyzedProgram :=
  if bool_decide (invalidated_derived_analyses pass = []) then Ret (set_phase ProgramPhase.Optimized p)
  else ensure_derived_analyses (invalidated_derived_analyses pass) ProgramPhase.Optimized
         (mark_derived_analyses_stale p).
Definition run_pass (pass : Pass) (st : RunState) : cxx RunState :=
  let pm := rs_manager st in
  if skipped pm pass then Ret st
  else
    p ← ensure_derived_analyses (required_derived_analyses pass) ProgramPhase.Analyzed (rs_program st);
    pm ← ensure_all (required_analyses pass) p pm;
    pb ← pass_run pass p;
    let names := executed (rs_result st) ++ [pass_name pass] in
    if pb.2 : bool then
      p ← after_modification pass pb.1;
      Ret (mkRunState (foldr invalidate_analysis pm (reverse (invalidated_analyses pass))) p (mkRunResult true names))
    else Ret (mkRunState pm pb.1 (mkRunResult (any_modified (rs_result st)) names)).
Fixpoint run_passes (l : list Pass) (st : RunState) : cxx RunState :=
  match l with
  | [] => Ret st
  | pass :: l => st ← run_pass pass st; run_passes l st
  end.
(** The analyses that have no result yet, from index [i] on. *)
Fixpoint run_analyses (i : nat) (l : list AnalysisPass) (st : RunState) : cxx RunState :=
  match l with
  | [] => Ret st
  | a :: l =>
      match analysis_results_ (rs_manager st) !! i with
      | None => UB
      | Some (Some _) => run_analyses (S i) l st
      | Some None =>
          r ← analysis_run a (rs_program st);
          run_analyses (S i) l
            (mkRunState (with_results (<[i := Some r]> (analysis_results_ (rs_manager st))) (rs_manager st))
               (rs_program st)
               (mkRunResult (any_modified (rs_result st)) (executed (rs_result st) ++ [analysis_name a])))
      end
  end.
Definition run (pm : PassManager) (p : AnalyzedProgram) : cxx RunState :=
  let pm := with_results (resize (length (analyses_ pm)) None (analysis_results_ pm)) pm in
  st ← run_passes (passes_ pm) (mkRunState pm p (mkRunResult false []));
  p ← ensure_derived_analyses all_derived_analysis_kinds ProgramPhase.Analyzed (rs_program st);
  run_analyses 0 (analyses_ pm) (mkRunState (rs_manager st) p (rs_result st)).

Definition combine_results (combined result : RunResult) : RunResult :=
  mkRunResult (any_modified combined || any_modified result) (executed combined ++ executed result).
Fixpoint fixpoint_loop (iterations : nat) (st : RunState) : cxx RunState :=
  match iterations with
  | O => Ret st
  | S iterations =>
      st' ← run (rs_manager st) (rs_program st);
      let combined := mkRunState (rs_manager st') (rs_program st') (combine_results (rs_result st) (rs_result st')) in
      if any_modified (rs_result st') then fixpoint_loop iterations combined else Ret combined
  end.
Definition run_to_fixpoint (max_iterations : nat) (pm : PassManager) (p : AnalyzedProgram) : cxx RunState :=
  fixpoint_loop max_iterations (mkRunState pm p (mkRunResult false [])).

(** ** The default pipeline *)
(** A pass that rewrites the declarations and declares nothing. *)
Definition rewriting_pass (name : string) (rewrite : Program → cxx (Program * bool)) : Pass :=
  mkPass name (λ p, pm ← rewrite (program p); Ret (mkAnalyzed pm.1 (analyses p), pm.2))
    [] [] [] all_derived_analysis_kinds.
Definition DeadStateEliminationPass := rewriting_pass "dead-state-elimination" run_dead_state_elimination.
Definition WorkflowSimplificationPass := rewriting_pass "workflow-simplification" run_workflow_simplification.
Definition ExprCanonicalizationPass := rewriting_pass "expr-canonicalization" run_expr_canonicalization.
Definition TemporalSimplificationPass := rewriting_pass "temporal-simplification" run_temporal_simplification.
Definition CapabilityReachabilityPass := mkAnalysisPass "capability-reachability" run_capability_reachability.
Definition ContractRedundancyPass (address : nat → nat → Z) :=
  mkAnalysisPass "contract-redundancy" (run_contract_redundancy address).
Definition create_default_pipeline (address : nat → nat → Z) : PassManager :=
  add_analysis (ContractRedundancyPass address) (add_analysis CapabilityReachabilityPass
    (add_pass TemporalSimplificationPass (add_pass ExprCanonicalizationPass
      (add_pass WorkflowSimplificationPass (add_pass DeadStateEliminationPass empty_manager))))).
