(* ===== verification/PassManagerProps.v ===== *)
(** * A run of the pass manager

    A run rewrites the declarations by the selected passes in their order,
    reports whether one of them changed something, leaves every derived
    analysis fresh, and computes the analyses that had no result.  The four
    passes keep the laws that this needs. *)
From S2P Require Import Prelude Numeric Ir Passes DeadStateProps TemporalProps SimplifyProps CanonicalProps.
From S2P Require Import Value EvalContext Evaluator Executor CapabilityEval Analysis AnalysisProps AnalysisFresh PassManager.
Open Scope nat_scope.

(** ** Declarations that the analyses and the passes accept *)
Record sound_declaration (d : Decl) : Prop := {
  sound_full : full_declaration d;
  sound_contract contract c e : d = DContract contract → c ∈ clauses contract → clause_value c = ClauseExpr e → full_ref e;
  sound_workflow wf : d = DWorkflow wf → NoDup (wn_name <$> wf_nodes wf) }.
(** Two declarations that the analyses cannot tell apart. *)
Record same_analyses (d d' : Decl) : Prop := {
  same_handlers acc : summarize_handlers d' acc = summarize_handlers d acc;
  same_workflow acc : summarize_workflow d' acc = summarize_workflow d acc;
  same_observations acc : collect_observations d' acc = collect_observations d acc }.
#[export] Instance same_analyses_refl : Reflexive same_analyses.
Proof. done. Qed.

(** The laws of a rewrite of declarations: it accepts and returns sound
    declarations, and what it does not report the analyses do not see. *)
Class LawfulRewrite (f : Decl → cxx (Decl * bool)) : Prop := {
  rewrite_sound d : sound_declaration d → ∃ d' b, f d ⇓ (d', b) ∧ sound_declaration d';
  rewrite_unreported d d' : f d ⇓ (d', false) → same_analyses d d' }.

(** ** The four passes *)
Lemma map_modified_spec {A} (f : A → cxx (A * bool)) (P Q : A → Prop) l :
  (∀ a, P a → ∃ a' b, f a ⇓ (a', b) ∧ Q a') → Forall P l → ∃ l' b, map_modified f l ⇓ (l', b) ∧ Forall Q l'.
Proof.
  intros Hf Hl. induction Hl as [|a l Ha Hl (l' & b & IH & Hq)]; cbn [map_modified]; [by exists [], false|].
  destruct (Hf a Ha) as (a' & b' & E & Hq'). rewrite E. cbn. rewrite IH. cbn. eauto.
Qed.
Lemma map_modified_unreported {A} (f : A → cxx (A * bool)) l l' :
  (∀ a a', f a ⇓ (a', false) → a' = a) → map_modified f l ⇓ (l', false) → l' = l.
Proof.
  intros Hf. revert l'. induction l as [|a l IH]; intros l'; cbn [map_modified]; [by intros [= <-]|].
  intros ([a' b] & E & ([l1 b1] & E1 & H)%cxx_bind_ret)%cxx_bind_ret. injection H as <- Hb.
  apply orb_false_iff in Hb as [-> ->]. cbn. by rewrite (Hf _ _ E), (IH _ E1).
Qed.
Lemma unreported_other d d' : Ret (d, false) ⇓ (d', false) → same_analyses d d'.
Proof. by intros [= <-]. Qed.

#[export] Instance dead_state_lawful : LawfulRewrite dead_state_decl.
Proof.
  split.
  - intros d Hd. destruct d as [| | | | | | | |agent| | |]; try (by eexists _, _; split; [reflexivity|]).
    cbn [dead_state_decl]. destruct (eliminate_spec agent) as (a' & b & -> & _). cbn.
    eexists _, _. split; [reflexivity|]. by split; [|intros ? ? ? [=]|intros ? [=]].
  - intros d d'. destruct d as [| | | | | | | |agent| | |]; try apply unreported_other. cbn [dead_state_decl].
    destruct (eliminate_spec agent) as (a' & b & -> & Ha). cbn. intros [= <- ->].
    destruct Ha as [[-> _]|(R & _ & _ & -> & _)]; done.
Qed.

Fixpoint simplify_unreported t o {struct t} : simplify_temporal_expr t ⇓ (o, false) → o = Some t.
Proof.
  destruct t as [n sr]. cbn [simplify_temporal_expr].
  destruct n as [e|c|st|nd|nd st|op a|op a b]; try (by intros [= <-]).
  - intros ([a' m] & E & H)%cxx_bind_ret. cbn [fst snd] in H.
    assert (m = false ∧ o = Some (mkTemporalExpr (TemporalUnaryExpr op a') sr)) as [-> ->].
    { destruct op; cbn in H; try (by injection H as <- ->);
        destruct a' as [[[| | | | |op' inner|] ?]|]; try done; try (by injection H as <- ->);
        destruct op'; first [discriminate H|by injection H as <- ->]. }
    do 3 f_equal. destruct a as [t|]; [by apply simplify_unreported|by injection E].
  - intros ([a' m] & Ea & ([b' m'] & Eb & H)%cxx_bind_ret)%cxx_bind_ret. injection H as <- Hm.
    apply orb_false_iff in Hm as [-> ->]. cbn [fst]. do 2 f_equal. f_equal.
    + destruct a as [t|]; [by apply simplify_unreported|by injection Ea].
    + destruct b as [t|]; [by apply simplify_unreported|by injection Eb].
Qed.
Lemma simplified_wf t o b : simplify_temporal_expr t ⇓ (o, b) → formula_wf t → full_formula o.
Proof.
  intros H Ht. destruct (simplify_spec t Ht) as (t' & b' & E & [_ Hn _]). rewrite E in H. injection H as <- <-.
  exists t'. split; [done|]. clear E. by induction Hn; constructor.
Qed.
Lemma simplify_sound o : full_formula o → ∃ o' b, simplify_temporal o ⇓ (o', b) ∧ full_formula o'.
Proof.
  intros (t & -> & Ht). destruct (simplify_spec t Ht) as (t' & b & E & _). exists (Some t'), b.
  split; [done|]. by apply (simplified_wf t _ b).
Qed.
Lemma simplify_temporal_unreported o o' : simplify_temporal o ⇓ (o', false) → o' = o.
Proof. destruct o as [t|]; [apply simplify_unreported|by intros [= <-]]. Qed.
Definition sound_clause (c : ContractClause) : Prop :=
  match clause_value c with ClauseExpr e => full_ref e | ClauseTemporal t => full_formula t end.
Lemma sound_contract_iff contract : sound_declaration (DContract contract) ↔ Forall sound_clause (clauses contract).
Proof.
  rewrite Forall_forall. split.
  - intros [Hf Hc _] c Hin. unfold sound_clause. destruct (clause_value c) eqn:E; [by eapply Hc|].
    cbn in Hf. rewrite Forall_forall in Hf. by eapply Hf.
  - intros Hc. split; [|intros ? c e [= <-] Hin He; specialize (Hc c Hin); unfold sound_clause in Hc; by rewrite He in Hc|done].
    cbn. apply Forall_forall. intros c Hin t Ht. specialize (Hc c Hin). unfold sound_clause in Hc. by rewrite Ht in Hc.
Qed.
#[export] Instance temporal_lawful : LawfulRewrite temporal_decl.
Proof.
  split.
  - intros d Hd. destruct d as [| | | | | | | | |contract| |wf]; try (by eexists _, _; split; [reflexivity|]).
    + apply sound_contract_iff in Hd. cbn [temporal_decl].
      destruct (map_modified_spec temporal_clause sound_clause sound_clause (clauses contract)) as (cs & b & -> & Hcs);
        [|done|].
      * intros c Hc. unfold temporal_clause, sound_clause in *. destruct (clause_value c) eqn:E.
        -- exists c, false. by rewrite E.
        -- destruct (simplify_sound _ Hc) as (o & b & -> & Ho). cbn. by eexists _, _.
      * eexists _, _. split; [reflexivity|]. by apply sound_contract_iff.
    + destruct Hd as [(Hn & Hr & Hs & Hl) _ Hw]. cbn [temporal_decl].
      destruct (map_modified_spec simplify_temporal full_formula full_formula _ simplify_sound Hs) as (ss & b & -> & Hss).
      destruct (map_modified_spec simplify_temporal full_formula full_formula _ simplify_sound Hl) as (ls & b' & -> & Hls).
      eexists _, _. split; [reflexivity|]. split; [done|done|]. intros ? [= <-]. by apply (Hw wf).
  - intros d d'. destruct d as [| | | | | | | | |contract| |wf]; try apply unreported_other; cbn [temporal_decl].
    + intros ([cs b] & E & H)%cxx_bind_ret. injection H as <- ->. apply map_modified_unreported in E as ->.
      * by destruct contract.
      * intros c c'. unfold temporal_clause. destruct (clause_value c) eqn:Ec; [by intros [= <-]|].
        intros ([o b] & E1 & H)%cxx_bind_ret. injection H as <- ->. apply simplify_temporal_unreported in E1 as ->.
        destruct c. cbn in *. by subst.
    + intros ([ss b] & Es & ([ls b'] & El & H)%cxx_bind_ret)%cxx_bind_ret. injection H as <- Hb.
      apply orb_false_iff in Hb as [-> ->].
      apply map_modified_unreported in Es as ->; [|apply simplify_temporal_unreported].
      apply map_modified_unreported in El as ->; [|apply simplify_temporal_unreported]. by destruct wf.
Qed.

Fixpoint canonicalize_unreported e o {struct e} : canonicalize e ⇓ (o, false) → o = Some e.
Proof.
  destruct e as [n sr t i]. cbn [canonicalize].
  destruct n as [| | | | | | | | | | | | | | |op a|op a b| |]; try (by intros [= <-]).
  - intros ([a' m] & E & H)%cxx_bind_ret. cbn [fst snd] in H.
    assert (m = false ∧ o = Some (mkExpr (UnaryExpr op a') sr t i)) as [-> ->].
    { case_bool_decide; [|by injection H as <- ->]. destruct a' as [[n' ? ? ?]|]; [|done].
      destruct n' as [| | | | | | | | | | | | | | |[] ?| | |]; first [discriminate H|by injection H as <- ->]. }
    do 3 f_equal. destruct a as [e|]; [by apply canonicalize_unreported|by injection E].
  - intros ([a' m] & Ea & ([b' m'] & Eb & H)%cxx_bind_ret)%cxx_bind_ret. cbn [fst snd] in H.
    assert ((m || m') = false ∧ o = Some (mkExpr (BinaryExpr op a' b') sr t i)) as [[-> ->]%orb_false_iff ->].
    { unfold fold_literals in H. destruct op; try (by injection H as <- ->);
        repeat match type of H with context [is_bool_literal ?x ?y] => destruct (is_bool_literal x y) end;
        first [discriminate H|by injection H as <- ->]. }
    do 2 f_equal. f_equal.
    + destruct a as [e|]; [by apply canonicalize_unreported|by injection Ea].
    + destruct b as [e|]; [by apply canonicalize_unreported|by injection Eb].
Qed.
Lemma full_unary op o sr t i : full_ref o ↔ full_expr (mkExpr (UnaryExpr op o) sr t i).
Proof.
  split.
  - intros Ho. constructor. by intros o' ->%list_elem_of_singleton.
  - intros H. inversion H as [? ? ? ? Hh]; subst. apply Hh. by left.
Qed.
Lemma full_binary op a b sr t i : full_ref a → full_ref b → full_expr (mkExpr (BinaryExpr op a b) sr t i).
Proof. intros Ha Hb. constructor. by intros o [->|[->|[]%elem_of_nil]%elem_of_cons]%elem_of_cons. Qed.
Lemma fold_literals_full u a b m e : full_ref a → full_ref b → full_ref e → full_ref (fold_literals u a b m e).1.
Proof. intros Ha Hb He. unfold fold_literals. by repeat case_match. Qed.
Fixpoint canonicalize_full e (H : full_expr e) {struct H} : ∃ o b, canonicalize e ⇓ (o, b) ∧ full_ref o.
Proof.
  assert (Hfull := H). destruct H as [n r t i Hn]. cbn [canonicalize].
  assert (Hc : ∀ o, o ∈ handles n → ∃ o' b,
    match o with Some e => canonicalize e | None => Ret (None, false) end ⇓ (o', b) ∧ full_ref o').
  { intros o Ho. destruct (Hn o Ho) as (e & -> & He). by apply canonicalize_full. }
  clear canonicalize_full Hn.
  destruct n as [| | | | | | | | | | | | | | |op a|op a b| |]; try (by eexists _, _; split; [reflexivity|eexists]).
  - destruct (Hc a) as (a' & m & -> & Ha); [by left|]. cbn [fst snd mbind cxx_bind].
    case_bool_decide; [|eexists _, _; split; [reflexivity|eexists; split; [done|by apply full_unary]]].
    destruct Ha as ([n' ? ? ?] & -> & He). unfold canonicalize_not.
    destruct n' as [| | | | | | | | | | | | | | |[] ?| | |];
      (eexists _, _; split; [reflexivity|]);
      first [by apply full_unary in He|eexists; split; [done|apply full_unary; by eexists]].
  - destruct (Hc a) as (a' & m & -> & Ha); [by left|]. destruct (Hc b) as (b' & m' & -> & Hb); [by right; left|].
    cbn [fst snd mbind cxx_bind].
    assert (He : full_ref (Some (mkExpr (BinaryExpr op a' b') r t i))) by (eexists; split; [done|by apply full_binary]).
    destruct op; try (by eexists _, _; split; [reflexivity|]);
      (eexists _, _; split; [by rewrite <-surjective_pairing|by apply fold_literals_full]).
Qed.
#[export] Instance canonical_lawful : LawfulRewrite canonical_decl.
Proof.
  split.
  - intros d Hd. destruct d as [| | | | | | | | |contract| |wf]; try (by eexists _, _; split; [reflexivity|]).
    apply sound_contract_iff in Hd. cbn [canonical_decl].
    destruct (map_modified_spec canonical_clause sound_clause sound_clause (clauses contract)) as (cs & b & -> & Hcs);
      [|done|].
    + intros c Hc. unfold canonical_clause, sound_clause in *. destruct (clause_value c) eqn:E.
      * destruct Hc as (e1 & -> & He1). cbn [canonicalize_expr].
        destruct (canonicalize_full e1 He1) as (o & b & -> & Ho). cbn. by eexists _, _.
      * exists c, false. by rewrite E.
    + eexists _, _. split; [reflexivity|]. by apply sound_contract_iff.
  - intros d d'. destruct d as [| | | | | | | | |contract| |wf]; try apply unreported_other. cbn [canonical_decl].
    intros ([cs b] & E & H)%cxx_bind_ret. injection H as <- ->. apply map_modified_unreported in E as ->.
    + by destruct contract.
    + intros c c'. unfold canonical_clause. destruct (clause_value c) as [o|] eqn:Ec; [|by intros [= <-]].
      intros ([o' b] & E1 & H)%cxx_bind_ret. injection H as <- ->.
      assert (o' = o) as -> by (destruct o; [by apply canonicalize_unreported|by injection E1]).
      destruct c. cbn in *. by subst.
Qed.
#[export] Instance workflow_lawful : LawfulRewrite workflow_decl.
Proof.
  split.
  - intros d Hd. destruct d as [| | | | | | | | | | |wf]; try (by eexists _, _; split; [reflexivity|]).
    destruct Hd as [(Hn & Hr & Hs & Hl) _ Hw]. specialize (Hw wf eq_refl). cbn [workflow_decl].
    unfold simplify_workflow. case_bool_decide; [by eexists _, _; split; [reflexivity|split; [done|done|intros ? [= <-]]]|].
    destruct (compute_spec _ Hw) as (reachable & -> & _). cbn [mbind cxx_bind].
    rewrite map_modified_pure. cbn [fst snd]. eexists _, _. split; [reflexivity|].
    split; [|done|].
    + split_and!; [|done|done|done]. cbn. apply Forall_fmap, Forall_forall. intros n Hin. cbn.
      unfold simplify_node. rewrite Forall_forall in Hn. repeat case_match; cbn; by apply Hn.
    + intros ? [= <-]. cbn. by rewrite simplify_names.
  - intros d d'. destruct d as [| | | | | | | | | | |wf]; try apply unreported_other. cbn [workflow_decl].
    intros ([wf' b] & E & H)%cxx_bind_ret. injection H as <- ->. unfold simplify_workflow in E.
    case_bool_decide; [by injection E as <-|].
    apply cxx_bind_ret in E as (reachable & _ & E). apply cxx_bind_ret in E as ([ns b] & E & Hb).
    injection Hb as <- ->. apply map_modified_unreported in E as ->; [by destruct wf|].
    intros n n' [= Hn]. revert Hn. unfold simplify_node. by repeat case_match; intros [= <-].
Qed.

(** ** Running the passes *)
Definition rewrites := list (string * (Decl → cxx (Decl * bool))).
Definition pass_of (r : string * (Decl → cxx (Decl * bool))) : Pass := rewriting_pass r.1 (run_on_declarations r.2).
(** The rewrites whose name is selected, one after the other. *)
Fixpoint apply_rewrites (selected : string → bool) (l : rewrites) (ds : list Decl) : cxx (list Decl * bool) :=
  match l with
  | [] => Ret (ds, false)
  | (name, f) :: l =>
      if selected name then
        dm ← map_modified f ds;
        rm ← apply_rewrites selected l dm.1;
        Ret (rm.1, dm.2 || rm.2)
      else apply_rewrites selected l ds
  end.
Definition selected (pm : PassManager) (name : string) : bool :=
  bool_decide (pass_filter_ pm = ∅) || bool_decide (name ∈ pass_filter_ pm).
(** The analyses are there, of this revision, and a further change shows. *)
Record fresh (p : AnalyzedProgram) : Prop := {
  fresh_current : current p;
  fresh_revision : source_program_revision (analyses p) = analysis_revision (program p);
  fresh_phase : phase (program p) ≠ ProgramPhase.Lowered;
  fresh_range : to_size (analysis_revision (program p)) = analysis_revision (program p) }.
Abbreviation sound p := (Forall sound_declaration (declarations (program p))).

Lemma same_declarations {S} (step : Decl → S → cxx S) ds ds' acc :
  Forall2 (λ d d', ∀ acc, step d' acc = step d acc) ds ds' →
  for_declarations step ds' acc = for_declarations step ds acc.
Proof.
  intros H. revert acc. induction H as [|d d' ds ds' Hd _ IH]; intros acc; cbn [for_declarations]; [done|].
  rewrite Hd. destruct (step d acc); [apply IH|done..].
Qed.
Lemma current_rewritten p ds : Forall2 same_analyses (declarations (program p)) ds → current p →
  current (mkAnalyzed (mkProgram (format_version (program p)) (phase (program p)) (analysis_revision (program p)) ds)
    (analyses p)).
Proof.
  intros Hs (H1 & H2 & H3).
  unfold current, recompute_state_handler_summaries, recompute_workflow_expr_summaries, collect_formal_observations.
  cbn [program analyses declarations].
  rewrite !(same_declarations _ (declarations (program p)) ds); [done|..];
    (eapply Forall2_impl; [exact Hs|]); by intros d d' [].
Qed.
Lemma map_modified_same f `{!LawfulRewrite f} ds ds' : map_modified f ds ⇓ (ds', false) → Forall2 same_analyses ds ds'.
Proof.
  revert ds'. induction ds as [|d ds IH]; intros ds'; cbn [map_modified]; [by intros [= <-]|].
  intros ([d' b] & E & ([l1 b1] & E1 & H)%cxx_bind_ret)%cxx_bind_ret. injection H as <- Hb.
  apply orb_false_iff in Hb as [-> ->]. constructor; [by eapply rewrite_unreported|by apply IH].
Qed.
Lemma size_succ_other n : size_succ n ≠ n.
Proof.
  unfold size_succ, to_size. intros H. pose proof (Z.mod_pos_bound (n + 1) (2 ^ 64) eq_refl).
  assert ((n + 1) mod 2 ^ 64 = (n mod 2 ^ 64))%Z by (rewrite H; by rewrite Z.mod_small by lia).
  rewrite (Z.mod_small n) in * by lia.
  pose proof (Z.mod_unique_pos (n + 1) (2 ^ 64) 0 (n + 1)). destruct (decide (n + 1 < 2 ^ 64)%Z).
  - rewrite Z.mod_small in H by lia. lia.
  - assert (n + 1 = 2 ^ 64)%Z as Hn by lia. rewrite Hn, Z.mod_same in H by lia. lia.
Qed.
Lemma stale_recomputed kinds ph p : Forall full_declaration (declarations (program p)) → kinds ≠ [] →
  ph ≠ ProgramPhase.Lowered → source_program_revision (analyses p) = analysis_revision (program p) →
  ∃ p', ensure_derived_analyses kinds ph (mark_derived_analyses_stale p) ⇓ p' ∧ fresh p' ∧
    declarations (program p') = declarations (program p).
Proof.
  intros Hfull Hk Hph Hr. unfold ensure_derived_analyses.
  assert (has_fresh_derived_analyses (mark_derived_analyses_stale p) kinds = false) as ->.
  { unfold has_fresh_derived_analyses. rewrite bool_decide_eq_false_2 by by destruct kinds.
    cbn [program mark_derived_analyses_stale phase analyses analysis_revision].
    rewrite (bool_decide_eq_false_2 (source_program_revision _ = _)); [by destruct (phase _)|].
    rewrite Hr. intros H. by apply (size_succ_other (analysis_revision (program p))). }
  destruct (recompute_total ph (mark_derived_analyses_stale p) Hfull) as [p' Hp']. exists p'. split; [done|].
  destruct (recompute_current _ _ _ Hp') as (Hp & Hc & Hr'). rewrite Hp. split; [|done].
  split; [done|done|by rewrite Hp|]. rewrite Hp. cbn. unfold size_succ, to_size. by rewrite Zmod_mod.
Qed.
Lemma sound_all_full ds : Forall sound_declaration ds → Forall full_declaration ds.
Proof. intros H. by eapply Forall_impl; [exact H|intros d []]. Qed.
Lemma run_pass_spec name f `{!LawfulRewrite f} st : fresh (rs_program st) → sound (rs_program st) →
  selected (rs_manager st) name = true →
  ∃ p b, map_modified f (declarations (program (rs_program st))) ⇓ (declarations (program p), b) ∧ fresh p ∧ sound p ∧
    run_pass (pass_of (name, f)) st ⇓ mkRunState (rs_manager st) p
      (mkRunResult (any_modified (rs_result st) || b) (executed (rs_result st) ++ [name])).
Proof.
  intros Hfr Hs Hsel. destruct st as [pm p res]. cbn [rs_program rs_manager rs_result] in *.
  destruct (map_modified_spec f _ _ _ rewrite_sound Hs) as (ds & b & E & Hds).
  unfold run_pass. cbn [rs_manager pass_of fst snd rewriting_pass pass_name required_derived_analyses
    required_analyses pass_run rs_program rs_result].
  assert (skipped pm (pass_of (name, f)) = false) as ->.
  { unfold skipped, selected in *. cbn. by destruct (bool_decide (_ = _)), (bool_decide (_ ∈ _)). }
  assert (ensure_derived_analyses [] ProgramPhase.Analyzed p = Ret p) as -> by done.
  cbn [mbind cxx_bind ensure_all]. unfold run_on_declarations. rewrite E. cbn [mbind cxx_bind fst snd].
  set (p1 := mkAnalyzed _ _). destruct b.
  - unfold after_modification. cbn [invalidated_derived_analyses pass_of fst snd rewriting_pass invalidated_analyses].
    rewrite bool_decide_eq_false_2 by done.
    destruct (stale_recomputed all_derived_analysis_kinds ProgramPhase.Optimized p1) as (p' & -> & Hp' & Hd).
    + by apply sound_all_full.
    + done.
    + done.
    + apply Hfr.
    + exists p', true. rewrite Hd. rewrite orb_true_r. done.
  - exists p1, false. rewrite orb_false_r. split_and!; [done| |done|by destruct res].
    destruct Hfr as [Hc Hr Hph Hz]. split; [|done|done|done]. apply current_rewritten; [|done].
    by apply (map_modified_same f).
Qed.
Lemma run_passes_spec (l : rewrites) st : Forall (λ r, LawfulRewrite r.2) l → fresh (rs_program st) →
  sound (rs_program st) →
  ∃ p b, apply_rewrites (selected (rs_manager st)) l (declarations (program (rs_program st))) ⇓
      (declarations (program p), b) ∧ fresh p ∧ sound p ∧
    run_passes (pass_of <$> l) st ⇓ mkRunState (rs_manager st) p (mkRunResult (any_modified (rs_result st) || b)
      (executed (rs_result st) ++ base.filter (λ n, selected (rs_manager st) n = true) l.*1)).
Proof.
  intros Hl. revert st. induction Hl as [|[name f] l Hf _ IH]; intros st Hfr Hs.
  - exists (rs_program st), false. split_and!; [done|done|done|]. cbn. rewrite app_nil_r, orb_false_r.
    by destruct st as [? ? []].
  - cbn [snd] in Hf. rewrite !fmap_cons. cbn [run_passes apply_rewrites fst]. rewrite filter_cons.
    destruct (selected (rs_manager st) name) eqn:Hsel.
    + destruct (run_pass_spec name f st Hfr Hs Hsel) as (p & b & E & Hp & Hsp & ->).
      destruct (IH (mkRunState (rs_manager st) p (mkRunResult (any_modified (rs_result st) || b)
        (executed (rs_result st) ++ [name]))) Hp Hsp) as (p' & b' & E' & Hp' & Hsp' & Er).
      exists p', (b || b'). cbn [rs_program rs_manager rs_result any_modified executed] in *.
      rewrite E. cbn [mbind cxx_bind fst snd]. rewrite E'. cbn [fst snd]. split_and!; [done|done|done|].
      rewrite Er, decide_True by done. by rewrite orb_assoc, <-app_assoc.
    + assert (run_pass (pass_of (name, f)) st = Ret st) as ->.
      { unfold run_pass. assert (skipped (rs_manager st) (pass_of (name, f)) = true) as ->; [|done].
        unfold skipped, selected in *. cbn. by destruct (bool_decide (_ = _)), (bool_decide (_ ∈ _)). }
      cbn [mbind cxx_bind]. rewrite decide_False by done. by apply IH.
Qed.
(** The names of the analyses that have no result yet. *)
Fixpoint missing (i : nat) (l : list AnalysisPass) (results : list (option AnalysisResult)) : list string :=
  match l with
  | [] => []
  | a :: l =>
      match results !! i with
      | Some (Some _) => missing (S i) l results
      | _ => analysis_name a :: missing (S i) l results
      end
  end.
Lemma missing_insert i j r l results : j < i → missing i l (<[j := r]> results) = missing i l results.
Proof.
  revert i. induction l as [|a l IH]; intros i Hj; cbn [missing]; [done|].
  rewrite list_lookup_insert_ne by lia. by rewrite IH by lia.
Qed.
Lemma run_analyses_spec i l st : (∀ a, a ∈ l → ∀ p, defined (analysis_run a p)) →
  i + length l = length (analysis_results_ (rs_manager st)) →
  ∃ results, run_analyses i l st ⇓ mkRunState (with_results results (rs_manager st)) (rs_program st)
      (mkRunResult (any_modified (rs_result st))
        (executed (rs_result st) ++ missing i l (analysis_results_ (rs_manager st)))) ∧
    (∀ j, j < i → results !! j = analysis_results_ (rs_manager st) !! j) ∧
    ∀ j a, l !! j = Some a → ∃ r, results !! (i + j) = Some (Some r) ∧
      (analysis_results_ (rs_manager st) !! (i + j) = Some (Some r) ∨
       analysis_results_ (rs_manager st) !! (i + j) = Some None ∧ analysis_run a (rs_program st) ⇓ r).
Proof.
  revert i st. induction l as [|a l IH]; intros i st Ha Hlen; cbn [run_analyses missing].
  - exists (analysis_results_ (rs_manager st)). split_and!; [|done|done]. rewrite app_nil_r.
    by destruct st as [[] ? []].
  - cbn [length] in Hlen. destruct (analysis_results_ (rs_manager st) !! i) as [[r|]|] eqn:Ei.
    + destruct (IH (S i) st) as (results & E & H1 & H2); [intros b Hb; apply Ha; by right|lia|].
      exists results. split_and!; [done|intros j Hj; apply H1; lia|]. intros [|j] b Hb.
      * injection Hb as <-. rewrite Nat.add_0_r. exists r. rewrite H1 by lia. auto.
      * replace (i + S j) with (S i + j) by lia. by apply H2.
    + destruct (Ha a) with (p := rs_program st) as [r Er]; [by left|]. rewrite Er. cbn [mbind cxx_bind].
      edestruct (IH (S i)) as (results & E & H1 & H2); [intros b Hb; apply Ha; by right| |].
      2: { exists results. rewrite E. cbn [rs_manager rs_program rs_result any_modified executed] in *.
        unfold with_results in H1, H2 |- *. cbn [analysis_results_] in *. split_and!.
        - rewrite missing_insert by lia. by rewrite <-app_assoc.
        - intros j Hj. rewrite H1 by lia. by rewrite list_lookup_insert_ne by lia.
        - intros [|j] b Hb.
          + injection Hb as <-. rewrite Nat.add_0_r. exists r. rewrite H1 by lia.
            rewrite list_lookup_insert_eq by lia. auto.
          + replace (i + S j) with (S i + j) by lia. destruct (H2 j b Hb) as (r' & Hr' & Hc). exists r'.
            split; [done|]. by rewrite list_lookup_insert_ne in Hc by lia. }
      cbn [rs_manager with_results analysis_results_]. rewrite length_insert. lia.
    + apply lookup_ge_None in Ei. lia.
Qed.
Lemma fresh_ensured p kinds ph : fresh p → ensure_derived_analyses kinds ph p = Ret p.
Proof.
  intros []. unfold ensure_derived_analyses. by rewrite current_fresh.
Qed.
Lemma resize_result (results : list (option AnalysisResult)) n j : j < n →
  resize n None results !! j = Some (mjoin (results !! j)).
Proof.
  intros Hj. destruct (decide (j < length results)) as [Hl|Hl].
  - rewrite lookup_resize by lia. destruct (lookup_lt_is_Some_2 results j Hl) as [r ->]. done.
  - rewrite lookup_resize_new by lia. by rewrite lookup_ge_None_2 by lia.
Qed.
Lemma missing_resize l i results : missing i l (resize (i + length l) None results) = missing i l results.
Proof.
  assert (Hgen : ∀ l i n, i + length l ≤ n → missing i l (resize n None results) = missing i l results).
  { clear. intros l. induction l as [|a l IH]; intros i n Hn; cbn [missing length] in *; [done|].
    rewrite resize_result by lia. rewrite IH by lia. by destruct (results !! i) as [[?|]|]. }
  by apply Hgen.
Qed.
(** A manager whose passes are lawful rewrites and whose analyses return. *)
Record lawful_manager (l : rewrites) (pm : PassManager) : Prop := {
  lm_passes : passes_ pm = pass_of <$> l;
  lm_lawful : Forall (λ r, LawfulRewrite r.2) l;
  lm_analyses a p : a ∈ analyses_ pm → defined (analysis_run a p) }.
Lemma run_spec l pm p : lawful_manager l pm → fresh p → sound p →
  ∃ results p' b,
    run pm p ⇓ mkRunState (with_results results pm) p' (mkRunResult b
      (base.filter (λ n, selected pm n = true) l.*1 ++ missing 0 (analyses_ pm) (analysis_results_ pm))) ∧
    apply_rewrites (selected pm) l (declarations (program p)) ⇓ (declarations (program p'), b) ∧
    fresh p' ∧ sound p' ∧
    ∀ j a, analyses_ pm !! j = Some a → ∃ r, results !! j = Some (Some r) ∧
      (mjoin (analysis_results_ pm !! j) = Some r ∨
       mjoin (analysis_results_ pm !! j) = None ∧ analysis_run a p' ⇓ r).
Proof.
  intros [Hpass Hl Ha] Hfr Hs. unfold run.
  set (pm1 := with_results (resize (length (analyses_ pm)) None (analysis_results_ pm)) pm).
  destruct (run_passes_spec l (mkRunState pm1 p (mkRunResult false [])) Hl Hfr Hs) as (p' & b & E & Hp' & Hsp' & Er).
  cbn [rs_manager rs_program rs_result any_modified executed app orb] in *.
  change (passes_ pm1) with (passes_ pm). rewrite Hpass, Er. cbn [mbind cxx_bind rs_program rs_manager rs_result].
  rewrite (fresh_ensured p') by done. cbn [mbind cxx_bind].
  destruct (run_analyses_spec 0 (analyses_ pm) (mkRunState pm1 p' (mkRunResult b
    (base.filter (λ n, selected pm1 n = true) l.*1)))) as (results & Ea & _ & Hres).
  { intros a Hin q. by apply Ha. }
  { cbn. by rewrite length_resize. }
  cbn [rs_manager rs_program rs_result any_modified executed] in Ea, Hres.
  exists results, p', b. change (analyses_ pm1) with (analyses_ pm). rewrite Ea. split_and!; [|done|done|done|].
  - unfold pm1, with_results. cbn [analysis_results_]. do 3 f_equal.
    rewrite (missing_resize (analyses_ pm) 0). done.
  - intros j a Hj. destruct (Hres j a Hj) as (r & Hr & Hor). exists r. split; [done|].
    unfold pm1, with_results in Hor. cbn [analysis_results_] in Hor. cbn [plus] in Hor.
    rewrite resize_result in Hor by by eapply lookup_lt_Some.
    destruct Hor as [[= Hor]|[[= Hor] Hrun]]; auto.
Qed.

(** ** Capability reachability *)
Lemma join_imap_elem {A B} (f : nat → A → list B) l x :
  x ∈ mjoin (imap f l) ↔ ∃ i a, l !! i = Some a ∧ x ∈ f i a.
Proof.
  rewrite list_elem_of_join. split.
  - intros (l' & Hx & (i & a & -> & Hi)%elem_of_lookup_imap_1). eauto.
  - intros (i & a & Hi & Hx). exists (f i a). split; [done|]. by apply elem_of_lookup_imap_2.
Qed.
(** Some handler of the program calls [cap] where a run may reach it. *)
Definition called_somewhere (p : Program) (cap : string) : Prop := ∃ flow handler s,
  DFlow flow ∈ declarations p ∧ handler ∈ state_handlers flow ∧
  summarize_block (handler_body handler) ⇓ s ∧ cap ∈ called_targets s.
Lemma called_capabilities_elem p cap : describes p → cap ∈ called_capabilities p ↔ called_somewhere (program p) cap.
Proof.
  intros Hd. unfold called_capabilities. rewrite elem_of_list_to_set, list_elem_of_bind. split.
  - intros (d & Hcap & Hin). destruct d as [| | | | | | | | | |flow|]; try by apply elem_of_nil in Hcap.
    apply join_imap_elem in Hcap as (i & handler & Hi & Hcap). unfold handler_calls in Hcap.
    destruct (describes_handlers p Hd flow i handler Hin Hi) as (s & E & Hs). rewrite E in Hcap.
    exists flow, handler, s. split_and!; [done| |done|done]. by eapply list_elem_of_lookup_2.
  - intros (flow & handler & s & Hin & (i & Hi)%list_elem_of_lookup_1 & Hs & Hcap).
    exists (DFlow flow). split; [|done]. apply join_imap_elem. exists i, handler. split; [done|].
    unfold handler_calls. destruct (describes_handlers p Hd flow i handler Hin Hi) as (s' & -> & Hs').
    rewrite Hs in Hs'. by injection Hs' as <-.
Qed.
Lemma unused_elem called agent x : x ∈ unused_of_agent called agent ↔
  ∃ ref, ref ∈ agent_capability_refs agent ∧ symbol_canonical_name ref "" ≠ "" ∧
    symbol_canonical_name ref "" ∉ called ∧ x = mkUnused (agent_name agent) (symbol_canonical_name ref "").
Proof.
  unfold unused_of_agent. rewrite list_elem_of_bind. split.
  - intros (ref & Hx & Hin). exists ref. case_bool_decide; [by apply elem_of_nil in Hx|].
    case_bool_decide; [|by apply elem_of_nil in Hx]. by apply list_elem_of_singleton in Hx as ->.
  - intros (ref & Hin & Hne & Hnot & ->). exists ref. split; [|done].
    rewrite bool_decide_eq_false_2, bool_decide_eq_true_2 by done. by left.
Qed.

(** C26: A run of the pass manager, on a program whose analyses are fresh,
    returns; the selected passes have rewritten its declarations in their
    order, [any_modified] tells whether one of them reported a change, and the
    derived analyses are fresh again.  Every analysis pass has a result: the
    one it had before the run, or else its result on the final program. *)
Theorem pass_manager_run_correct l pm p : lawful_manager l pm → fresh p → sound p →
  ∃ st, run pm p ⇓ st ∧
    apply_rewrites (selected pm) l (declarations (program p)) ⇓
      (declarations (program (rs_program st)), any_modified (rs_result st)) ∧
    fresh (rs_program st) ∧
    executed (rs_result st) =
      base.filter (λ n, selected pm n = true) l.*1 ++ missing 0 (analyses_ pm) (analysis_results_ pm) ∧
    ∀ j a, analyses_ pm !! j = Some a → ∃ r, analysis_results_ (rs_manager st) !! j = Some (Some r) ∧
      (mjoin (analysis_results_ pm !! j) = Some r ∨
       mjoin (analysis_results_ pm !! j) = None ∧ analysis_run a (rs_program st) ⇓ r).
Proof.
  intros Hm Hfr Hs. destruct (run_spec l pm p Hm Hfr Hs) as (results & p' & b & E & Ha & Hp' & _ & Hres).
  eexists. split; [exact E|]. cbn [rs_program rs_result any_modified executed rs_manager]. done.
Qed.

(** The analysis of capability reachability reports a capability exactly
    when an agent declares it and no handler calls it where a run may reach the
    call; and then no run of a handler invokes it: whatever answers its calls,
    the run is the same. *)
Theorem unused_capabilities_correct {W} p unused : current p → distinct_names (program p) →
  run_capability_reachability p ⇓ CapabilityReachabilityResult unused → ∀ agent_name cap,
  (mkUnused agent_name cap ∈ unused ↔ ¬ called_somewhere (program p) cap ∧ cap ≠ "" ∧
     ∃ agent ref, DAgent agent ∈ declarations (program p) ∧ Ir.agent_name agent = agent_name ∧
       ref ∈ agent_capability_refs agent ∧ symbol_canonical_name ref "" = cap) ∧
  (mkUnused agent_name cap ∈ unused → ∀ (invoke invoke' : InvokeCall W) flow handler ctx w r c' w',
     DFlow flow ∈ declarations (program p) → handler ∈ state_handlers flow →
     (∀ callee, callee ≠ cap → ∀ vs w, invoke callee vs w = invoke' callee vs w) →
     exec_block (handler_body handler) (calling invoke ctx) w ⇓ (r, c', w') →
     ∃ ctx', c' = calling invoke ctx' ∧
       exec_block (handler_body handler) (calling invoke' ctx) w ⇓ (r, calling invoke' ctx', w')).
Proof.
  intros Hc Hd [= <-] agent_name cap. pose proof (current_describes p Hc Hd) as Hdesc.
  assert (Hiff : mkUnused agent_name cap ∈ (declarations (program p) ≫= λ d,
      match d with DAgent agent => unused_of_agent (called_capabilities p) agent | _ => [] end) ↔
    ¬ called_somewhere (program p) cap ∧ cap ≠ "" ∧
     ∃ agent ref, DAgent agent ∈ declarations (program p) ∧ Ir.agent_name agent = agent_name ∧
       ref ∈ agent_capability_refs agent ∧ symbol_canonical_name ref "" = cap).
  { rewrite list_elem_of_bind, <-called_capabilities_elem by done. split.
    - intros (d & Hx & Hin). destruct d; try by apply elem_of_nil in Hx.
      apply unused_elem in Hx as (ref & Hr & Hne & Hnot & [= -> ->]). eauto 10.
    - intros (Hnot & Hne & agent & ref & Hin & <- & Hr & <-). exists (DAgent agent). split; [|done].
      apply unused_elem. eauto 10. }
  split; [exact Hiff|]. intros (Hnot & _)%Hiff invoke invoke' flow handler ctx w r c' w' Hin Hh Hag Hrun.
  destruct (list_elem_of_lookup_1 _ _ Hh) as [i Hi].
  destruct (describes_handlers p Hdesc flow i handler Hin Hi) as (s & _ & Hs).
  destruct (covered_run invoke invoke' _ s ctx w r c' w' Hs) as (ctx' & -> & Hrun' & _); [|done|eauto].
  intros callee Hcallee. apply Hag. intros ->. apply Hnot. by exists flow, handler, s.
Qed.

(** ** The default pipeline *)
Definition default_rewrites : rewrites := [
  ("dead-state-elimination", dead_state_decl); ("workflow-simplification", workflow_decl);
  ("expr-canonicalization", canonical_decl); ("temporal-simplification", temporal_decl)].
Lemma default_pipeline_lawful address : lawful_manager default_rewrites (create_default_pipeline address).
Proof.
  split; [reflexivity|repeat apply Forall_cons_2; try apply Forall_nil_2; apply _|].
  intros a p [->|[->|[]%elem_of_nil]%elem_of_cons]%elem_of_cons; apply defined_ret.
Qed.
Definition analyzed (ds : list Decl) : AnalyzedProgram :=
  match recompute_derived_analyses ProgramPhase.Analyzed (unanalyzed ds) with
  | Ret p => p
  | _ => unanalyzed ds
  end.
Lemma sample_analyzed : recompute_derived_analyses ProgramPhase.Analyzed (unanalyzed sample_declarations) ⇓
  analyzed sample_declarations.
Proof. vm_compute. reflexivity. Qed.
Lemma sample_fresh : fresh (analyzed sample_declarations).
Proof.
  destruct (recompute_current _ _ _ sample_analyzed) as (Hp & Hc & Hr).
  split; [done|done|by rewrite Hp|by rewrite Hp].
Qed.
Lemma sample_sound : sound (analyzed sample_declarations).
Proof.
  destruct (recompute_current _ _ _ sample_analyzed) as (-> & _). cbn [with_phase declarations program unanalyzed].
  apply Forall_forall. intros d Hd. split.
  - pose proof sample_full as H. rewrite Forall_forall in H. by apply H.
  - intros contract c e -> Hc He. unfold sample_declarations in Hd. rewrite !elem_of_cons, elem_of_nil in Hd.
    destruct Hd as [Hd|[Hd|[Hd|[Hd|[]]]]]; try discriminate Hd. injection Hd as ->.
    cbn [clauses] in Hc. apply list_elem_of_singleton in Hc as ->. discriminate He.
  - intros wf ->. unfold sample_declarations in Hd. rewrite !elem_of_cons, elem_of_nil in Hd.
    destruct Hd as [Hd|[Hd|[Hd|[Hd|[]]]]]; try discriminate Hd. injection Hd as ->. apply NoDup_singleton.
Qed.
Definition one_address (contract clause : nat) : Z := Z.of_nat clause.
Definition unused_store : AnalysisResult := CapabilityReachabilityResult [mkUnused "A" "store"].
Lemma pass_manager_run_correct_witness : ∃ st,
  run (create_default_pipeline one_address) (analyzed sample_declarations) ⇓ st ∧
  any_modified (rs_result st) = true ∧ fresh (rs_program st) ∧
  executed (rs_result st) = ["dead-state-elimination"; "workflow-simplification"; "expr-canonicalization";
    "temporal-simplification"; "capability-reachability"; "contract-redundancy"] ∧
  analysis_results_ (rs_manager st) = [Some unused_store; Some (ContractRedundancyResult [])].
Proof.
  destruct (pass_manager_run_correct default_rewrites (create_default_pipeline one_address)
    (analyzed sample_declarations) (default_pipeline_lawful one_address) sample_fresh sample_sound)
    as (st & E & _ & Hf & He & _).
  assert (Hobs : match run (create_default_pipeline one_address) (analyzed sample_declarations) with
    | Ret st => (any_modified (rs_result st), analysis_results_ (rs_manager st))
    | _ => (false, [])
    end = (true, [Some unused_store; Some (ContractRedundancyResult [])])) by (vm_compute; reflexivity).
  rewrite E in Hobs. injection Hobs as Hm Hr. exists st. split_and!; [exact E|exact Hm|exact Hf| |exact Hr].
  rewrite He. vm_compute. reflexivity.
Defined.
(** A manager keeps its results: of a second program it reports the unused
    capabilities of the first. *)
Example second_program_gets_first_results : ∃ results,
  match run (create_default_pipeline one_address) (analyzed sample_declarations) with
  | Ret st => match run (rs_manager st) (analyzed [colliding]) with
              | Ret st' => Some (analysis_results_ (rs_manager st'))
              | _ => None
              end
  | _ => None
  end = Some (Some unused_store :: results) ∧
  run_capability_reachability (analyzed [colliding]) ⇓
    CapabilityReachabilityResult [mkUnused "A" "pay::check"; mkUnused "A" "pay_check"].
Proof. eexists. by split; vm_compute. Qed.
(** Answers that differ for [store] only. *)
Definition answering_store : InvokeCall (list string) :=
  λ callee vs w, answering (bool_decide (callee ≠ "store")) callee vs w.
Lemma unused_capabilities_correct_witness : ∃ r ctx',
  exec_block sample_handler (calling (answering true) empty_context) [] ⇓ (r, calling (answering true) ctx', ["check"]) ∧
  exec_block sample_handler (calling answering_store empty_context) [] ⇓ (r, calling answering_store ctx', ["check"]).
Proof.
  destruct (recompute_current _ _ _ sample_analyzed) as (Hp & Hc & _).
  assert (Hw : match exec_block sample_handler (calling (answering true) empty_context) [] with
    | Ret (_, _, w) => w = ["check"] | _ => False end) by (vm_compute; reflexivity).
  destruct (exec_block sample_handler (calling (answering true) empty_context) []) as [[[r c'] w]| |] eqn:E;
    [subst w|destruct Hw..].
  assert (Hd : distinct_names (program (analyzed sample_declarations))) by (rewrite Hp; destruct sample_distinct as [H1 H2]; split; [exact H1|exact H2]).
  destruct (unused_capabilities_correct (W := list string) (analyzed sample_declarations) [mkUnused "A" "store"]
    Hc Hd eq_refl "A" "store") as [_ H].
  destruct (H ltac:(left) (answering true) answering_store
    (mkFlowDecl nowhere [mkStateHandler "Init" [] sample_handler None] (named "A"))
    (mkStateHandler "Init" [] sample_handler None) empty_context [] r c' ["check"]) as (ctx' & -> & Hrun).
  - rewrite Hp. right. left.
  - left.
  - intros callee Hne vs w. unfold answering_store. by rewrite bool_decide_eq_true_2.
  - exact E.
  - exists r, ctx'. split; [reflexivity|exact Hrun].
Defined.
