(* ===== verification/Checks.v ===== *)
(** * Validators

    A validator of the pipeline emits an error for every rule that its argument
    breaks and goes on.  Here it is a [checker], a function on the bag of
    diagnostics, composed as the statements of the source are; [checks f P]
    says that [f] adds an error exactly when [P] fails. *)
From S2P Require Import Prelude Diagnostics.
Open Scope nat_scope.

Definition checker : Type := DiagnosticBag → DiagnosticBag.
Definition no_check : checker := λ b, b.
Definition error_if (bad : bool) (msg : string) : checker := λ b, if bad then emit_error msg b else b.
Definition error_code_if (bad : bool) (msg code : string) : checker := λ b,
  if bad then emit_error_code msg code b else b.
Definition andthen (f g : checker) : checker := λ b, g (f b).
Infix "&>" := andthen (at level 60, right associativity) : ahfl_scope.
Open Scope ahfl_scope.

(** [for (const auto &x : l)] *)
Fixpoint each {A} (f : A → checker) (l : list A) : checker :=
  match l with
  | [] => no_check
  | x :: l => f x &> each f l
  end.
(** ... with local variables [s] that the loop updates. *)
Fixpoint each_from {S A} (step : S → A → S) (f : S → A → checker) (s : S) (l : list A) : checker :=
  match l with
  | [] => no_check
  | x :: l => f s x &> each_from step f (step s x) l
  end.
(** [for (i = 0; i < l.size(); ++i)] *)
Fixpoint each_index {A} (f : nat → A → checker) (i : nat) (l : list A) : checker :=
  match l with
  | [] => no_check
  | x :: l => f i x &> each_index f (S i) l
  end.
(** Names that must not be empty or occur twice: the loop with an
    [unordered_set] that most validators have. *)
Definition insert_name (seen : gset string) (x : string) : gset string :=
  if bool_decide (x = "") then seen else {[x]} ∪ seen.
Definition check_names (empty_msg : string) (dup_msg : string → string) : list string → checker :=
  each_from insert_name (λ seen x,
    if bool_decide (x = "") then error_if true empty_msg
    else error_if (bool_decide (x ∈ seen)) (dup_msg x)) ∅.

(** ** What a checker checks *)
Definition checks (f : checker) (P : Prop) : Prop := ∀ b, has_error (f b) = false ↔ has_error b = false ∧ P.

Lemma checks_run f P : checks f P → has_error (f empty_bag) = false ↔ P.
Proof. intros Hf. rewrite (Hf empty_bag). by rewrite has_error_empty; intuition. Qed.
Lemma checks_iff f P Q : checks f P → (P ↔ Q) → checks f Q.
Proof. intros Hf HPQ b. by rewrite (Hf b), HPQ. Qed.
Lemma checks_nothing : checks no_check True.
Proof. intros b. unfold no_check. tauto. Qed.
Lemma checks_error_if bad msg : checks (error_if bad msg) (bad = false).
Proof. intros b. unfold error_if. destruct bad; [rewrite has_error_emit|]; intuition congruence. Qed.
Lemma checks_error_code_if bad msg code : checks (error_code_if bad msg code) (bad = false).
Proof. intros b. unfold error_code_if. destruct bad; [rewrite has_error_emit_code|]; intuition congruence. Qed.
Lemma checks_error_unless P `{Decision P} msg : checks (error_if (negb (bool_decide P)) msg) P.
Proof. eapply checks_iff; [apply checks_error_if|]. by rewrite negb_false_iff, bool_decide_eq_true. Qed.
Lemma checks_error_when P `{Decision P} msg : checks (error_if (bool_decide P) msg) (¬ P).
Proof. eapply checks_iff; [apply checks_error_if|]. by rewrite bool_decide_eq_false. Qed.
Lemma checks_andthen f g P Q : checks f P → checks g Q → checks (f &> g) (P ∧ Q).
Proof. intros Hf Hg b. unfold andthen. rewrite (Hg (f b)), (Hf b). tauto. Qed.
Lemma checks_if (c : bool) f g P Q : checks f P → checks g Q → checks (if c then f else g) (if c then P else Q).
Proof. by destruct c. Qed.
Lemma checks_each {A} (f : A → checker) (P : A → Prop) l :
  (∀ x, checks (f x) (P x)) → checks (each f l) (∀ x, x ∈ l → P x).
Proof.
  intros Hf. induction l as [|x l IH]; cbn [each].
  - eapply checks_iff; [apply checks_nothing|]. split; [|done]. by intros _ x ?%elem_of_nil.
  - eapply checks_iff; [by apply checks_andthen|]. setoid_rewrite elem_of_cons. naive_solver.
Qed.
Lemma checks_each_from {S A} (step : S → A → S) (f : S → A → checker) (P : S → A → Prop) s l :
  (∀ s x, checks (f s x) (P s x)) →
  checks (each_from step f s l) (∀ i x, l !! i = Some x → P (foldl step s (take i l)) x).
Proof.
  intros Hf. revert s. induction l as [|x l IH]; intros s; cbn [each_from].
  - eapply checks_iff; [apply checks_nothing|]. split; [|done]. by intros _ [].
  - eapply checks_iff; [apply checks_andthen; [apply Hf|apply IH]|]. split.
    + intros [H1 H2] [|i] y Hy; [by injection Hy as <-|]. by apply (H2 i).
    + intros H. split; [by apply (H 0)|]. intros i y Hy. by apply (H (Datatypes.S i)).
Qed.
Lemma checks_each_index {A} (f : nat → A → checker) (P : nat → A → Prop) k l :
  (∀ i x, checks (f i x) (P i x)) → checks (each_index f k l) (∀ i x, l !! i = Some x → P (k + i) x).
Proof.
  intros Hf. revert k. induction l as [|x l IH]; intros k; cbn [each_index].
  - eapply checks_iff; [apply checks_nothing|]. split; [|done]. by intros _ [].
  - eapply checks_iff; [apply checks_andthen; [apply Hf|apply IH]|]. split.
    + intros [H1 H2] [|i] y Hy; [injection Hy as <-; by rewrite Nat.add_0_r|].
      replace (k + S i) with (S k + i) by lia. by apply (H2 i).
    + intros H. split; [rewrite <-(Nat.add_0_r k); by apply (H 0)|]. intros i y Hy.
      replace (S k + i) with (k + S i) by lia. by apply (H (S i)).
Qed.

(** A set that collects the elements seen so far finds the duplicates. *)
Lemma collected_elem {A B} `{Countable B} (key : A → B) s l y :
  y ∈ foldl (λ s x, {[key x]} ∪ s) s l ↔ y ∈ (s : gset B) ∨ y ∈ key <$> l.
Proof.
  revert s. induction l as [|x l IH]; intros s; cbn [foldl].
  - rewrite fmap_nil, elem_of_nil. tauto.
  - rewrite IH, fmap_cons, elem_of_cons. set_solver.
Qed.
Lemma collected_NoDup {A B} `{Countable B} (key : A → B) l :
  (∀ i x, l !! i = Some x → key x ∉ foldl (λ s x, {[key x]} ∪ s) (∅ : gset B) (take i l)) ↔ NoDup (key <$> l).
Proof.
  setoid_rewrite collected_elem. split.
  - intros Hl. apply NoDup_alt. intros i j y Hi Hj.
    assert (Hlt : ∀ i j, i < j → (key <$> l) !! i = Some y → (key <$> l) !! j = Some y → False).
    { clear i j Hi Hj. intros i j Hij Hi Hj. rewrite list_lookup_fmap in Hj.
      destruct (l !! j) as [x|] eqn:Ej; [|done]. injection Hj as <-. apply (Hl j x Ej). right.
      rewrite fmap_take. apply list_elem_of_lookup_2 with i. by rewrite lookup_take_lt by lia. }
    destruct (decide (i = j)) as [->|Hne]; [done|]. exfalso. destruct (decide (i < j)).
    + by apply (Hlt i j).
    + apply (Hlt j i); [lia|done..].
  - intros Hnd i x Hx [Hin|Hin]; [set_solver|]. rewrite fmap_take in Hin.
    apply list_elem_of_lookup_1 in Hin as [j Hj].
    assert (j < i) by (apply lookup_lt_Some in Hj; rewrite length_take in Hj; lia).
    rewrite lookup_take_lt in Hj by lia.
    assert (Hi : (key <$> l) !! i = Some (key x)) by by rewrite list_lookup_fmap, Hx.
    pose proof (NoDup_lookup _ _ _ _ Hnd Hi Hj). lia.
Qed.
Lemma checks_each_seen {A B} `{Countable B} (key : A → B) (f : gset B → A → checker) (P : A → Prop) l :
  (∀ s x, checks (f s x) (key x ∉ s ∧ P x)) →
  checks (each_from (λ s x, {[key x]} ∪ s) f ∅ l) (NoDup (key <$> l) ∧ ∀ x, x ∈ l → P x).
Proof.
  intros Hf. eapply checks_iff; [by apply (checks_each_from _ _ (λ s x, key x ∉ s ∧ P x))|]. rewrite <-(collected_NoDup key). split.
  - intros Hl. split; [intros i x Hx; by apply Hl|]. intros x [i Hx]%list_elem_of_lookup_1. by apply (Hl i).
  - intros [H1 H2] i x Hx. split; [by apply H1|]. apply H2. by eapply list_elem_of_lookup_2.
Qed.
Lemma insert_name_foldl s l : Forall (λ x, x ≠ "") l → foldl insert_name s l = foldl (λ s x, {[x]} ∪ s) s l.
Proof.
  intros Hl. revert s. induction Hl as [|x l Hx _ IH]; intros s; cbn [foldl]; [done|].
  rewrite <-IH. unfold insert_name at 2. by rewrite bool_decide_eq_false_2.
Qed.
Lemma checks_names empty_msg dup_msg l :
  checks (check_names empty_msg dup_msg l) (Forall (λ x, x ≠ "") l ∧ NoDup l).
Proof.
  eapply checks_iff; [apply (checks_each_from _ _ (λ seen x, x ≠ "" ∧ x ∉ seen))|].
  - intros s x. case_bool_decide.
    + eapply checks_iff; [apply checks_error_if|]. naive_solver.
    + eapply checks_iff; [apply checks_error_if|]. rewrite bool_decide_eq_false. naive_solver.
  - assert (NoDup l ↔ NoDup (id <$> l)) as -> by by rewrite list_fmap_id. rewrite <-(collected_NoDup id). split.
    + intros H. assert (Hne : Forall (λ x, x ≠ "") l).
      { apply Forall_lookup_2. intros i x Hx. by apply (H i). }
      split; [done|]. intros i x Hx. destruct (H i x Hx) as [_ Hn].
      rewrite insert_name_foldl in Hn; [done|by apply Forall_take].
    + intros [Hne Hnd] i x Hx. split; [exact (Forall_lookup_1 _ _ _ _ Hne Hx)|].
      rewrite insert_name_foldl by by apply Forall_take. by apply Hnd.
Qed.

(** A checker never removes an error. *)
Definition grows (f : checker) : Prop := ∀ b, has_error b = true → has_error (f b) = true.
Lemma checks_grows f P : checks f P → grows f.
Proof. intros Hf b Hb. apply not_false_iff_true. intros H. apply Hf in H as [H _]. congruence. Qed.
Lemma grows_andthen f g : grows f → grows g → grows (f &> g).
Proof. intros Hf Hg b Hb. apply Hg, Hf, Hb. Qed.
(** The second checker may rely on what the first one checks. *)
Lemma checks_then f g P Q : checks f P → grows g → (P → checks g Q) → checks (f &> g) (P ∧ Q).
Proof.
  intros Hf Hg HQ b. unfold andthen. split.
  - intros H. assert (Hfb : has_error (f b) = false).
    { destruct (has_error (f b)) eqn:E; [|done]. rewrite (Hg _ E) in H. done. }
    apply Hf in Hfb as [Hb HP]. split; [done|]. split; [done|]. by apply HQ in H as [_ ?].
  - intros (Hb & HP & HQ'). apply (HQ HP). split; [|done]. by apply Hf.
Qed.
#[export] Hint Resolve checks_nothing checks_error_if checks_error_unless checks_error_when checks_error_code_if checks_andthen checks_each checks_names : ahfl.
