(* ===== verification/Plan.v ===== *)
(** * Execution plans and their validation (src/compiler/handoff/package.cpp)

    The data of an execution plan (include/ahfl/compiler/handoff/package.hpp)
    and [validate_execution_plan].  Sets and maps that are only looked up are
    [gset] and [gmap]; the queue of the cycle check is seeded in the iteration
    order of an unordered map, here the order of [gmap]: the number of visited
    nodes does not depend on it. *)
From S2P Require Import Prelude Diagnostics Checks.
From Stdlib Require Import Ascii.
Open Scope nat_scope.
Open Scope ahfl_scope.

Definition kFormatVersion : string := "ahfl.native-package.v1".
Definition kExecutionPlanFormatVersion : string := "ahfl.execution-plan.v1".

Module WorkflowNodeStartConditionKind.
Inductive t := Immediate | AfterDependenciesCompleted.
End WorkflowNodeStartConditionKind.
#[export] Instance WorkflowNodeStartConditionKind_eq_dec : EqDecision WorkflowNodeStartConditionKind.t.
Proof. solve_decision. Defined.
Module WorkflowNodeCompletionConditionKind.
Inductive t := TargetReachedFinalState.
End WorkflowNodeCompletionConditionKind.
Module ValueSourceKind.
Inductive t := WorkflowInput | WorkflowNodeOutput.
End ValueSourceKind.

Record PackageIdentity := mkIdentity {
  id_format_version : string; id_name : string; id_version : string }.
#[export] Instance PackageIdentity_eq_dec : EqDecision PackageIdentity.
Proof. solve_decision. Defined.
Record ValueRead := mkValueRead {
  vr_kind : ValueSourceKind.t; vr_root_name : string; vr_members : list string }.
Record WorkflowValueSummary := mkValueSummary { vs_reads : list ValueRead }.
Record WorkflowDependencyEdge := mkEdge { edge_from : string; edge_to : string }.
Record WorkflowNodeLifecycleSummary := mkLifecycle {
  start_condition : WorkflowNodeStartConditionKind.t;
  completion_condition : WorkflowNodeCompletionConditionKind.t;
  completion_latched : bool;
  target_initial_state : string;
  target_final_states : list string }.
Record CapabilityBindingReference := mkBinding { binding_capability_name : string; binding_key : string }.
#[export] Instance CapabilityBindingReference_eq_dec : EqDecision CapabilityBindingReference.
Proof. solve_decision. Defined.
Record WorkflowNodePlan := mkNodePlan {
  np_name : string;
  np_target : string;
  np_after : list string;
  np_lifecycle : WorkflowNodeLifecycleSummary;
  np_input_summary : WorkflowValueSummary;
  np_capability_bindings : list CapabilityBindingReference }.
Record WorkflowPlan := mkWorkflowPlan {
  wp_canonical_name : string;
  wp_input_type : string;
  wp_output_type : string;
  wp_entry_nodes : list string;
  wp_dependency_edges : list WorkflowDependencyEdge;
  wp_nodes : list WorkflowNodePlan;
  wp_return_summary : WorkflowValueSummary }.
Record ExecutionPlan := mkPlan {
  plan_format_version : string;
  source_package_identity : option PackageIdentity;
  entry_workflow_canonical_name : option string;
  plan_workflows : list WorkflowPlan }.

(** [from_node + '\0' + to_node] *)
Definition edge_key (from_node to_node : string) : string := from_node +:+ String (ascii_of_nat 0) to_node.

Definition validate_workflow_value_summary (summary : WorkflowValueSummary) (node_names : gset string)
    (owner : string) : checker :=
  each (λ read,
    match vr_kind read with
    | ValueSourceKind.WorkflowInput =>
        error_if (negb (bool_decide (vr_root_name read = "input")))
          ("execution plan validation " +:+ owner +:+ " reads workflow input root '" +:+ vr_root_name read +:+
           "' instead of 'input'")
    | ValueSourceKind.WorkflowNodeOutput =>
        error_if (negb (bool_decide (vr_root_name read ∈ node_names)))
          ("execution plan validation " +:+ owner +:+ " reads unknown workflow node output '" +:+
           vr_root_name read +:+ "'")
    end) (vs_reads summary).

(** ** The maps that the validation builds *)
(** [nodes_by_name]: the first node of each name that is not empty. *)
Definition index_nodes (nodes : list WorkflowNodePlan) : gmap string WorkflowNodePlan :=
  foldl (λ m n,
    if bool_decide (np_name n = "") then m
    else match m !! np_name n with Some _ => m | None => <[np_name n := n]> m end) ∅ nodes.
Definition names_of (nodes : list WorkflowNodePlan) : gset string := foldl insert_name ∅ (np_name <$> nodes).
(** Edges between nodes of the workflow; the others are reported and skipped. *)
Definition known_edge (node_names : gset string) (e : WorkflowDependencyEdge) : bool :=
  bool_decide (edge_from e ∈ node_names) && bool_decide (edge_to e ∈ node_names).
Definition add_edge_key (node_names : gset string) (keys : gset string) (e : WorkflowDependencyEdge) : gset string :=
  if known_edge node_names e then {[edge_key (edge_from e) (edge_to e)]} ∪ keys else keys.
Definition add_outgoing (node_names : gset string) (m : gmap string (list string)) (e : WorkflowDependencyEdge)
    : gmap string (list string) :=
  if known_edge node_names e
  then <[edge_from e := default [] (m !! edge_from e) ++ [edge_to e]]> m else m.
Definition add_incoming (node_names : gset string) (m : gmap string nat) (e : WorkflowDependencyEdge)
    : gmap string nat :=
  if known_edge node_names e then <[edge_to e := S (default 0 (m !! edge_to e))]> m else m.
Definition initial_incoming (node_names : gset string) : gmap string nat := gset_to_gmap 0 node_names.

(** ** The cycle check *)
(** One edge out of the node that is visited. *)
Definition release_edge (st : gmap string nat * list string) (to_node : string) : gmap string nat * list string :=
  match default 0 (st.1 !! to_node) with
  | O => (<[to_node := 0]> st.1, st.2)
  | S n => (<[to_node := n]> st.1, if bool_decide (n = 0) then st.2 ++ [to_node] else st.2)
  end.
(** The loop over the queue; it returns the number of visited nodes. *)
Fixpoint visit_loop (fuel : nat) (outgoing : gmap string (list string)) (incoming : gmap string nat)
    (queue : list string) (visited : nat) : cxx nat :=
  match queue with
  | [] => Ret visited
  | node :: queue =>
      match fuel with
      | O => NoFuel
      | S fuel =>
          let '(incoming, queue) := foldl release_edge (incoming, queue) (default [] (outgoing !! node)) in
          visit_loop fuel outgoing incoming queue (S visited)
      end
  end.
Definition initial_queue (incoming : gmap string nat) : list string :=
  (map_to_list (filter (λ kv, kv.2 = 0) incoming)).*1.
(** Every node enters the queue at most once. *)
Definition visited_node_count (node_names : gset string) (edges : list WorkflowDependencyEdge) : cxx nat :=
  let outgoing := foldl (add_outgoing node_names) ∅ edges in
  let incoming := foldl (add_incoming node_names) (initial_incoming node_names) edges in
  visit_loop (size node_names) outgoing incoming (initial_queue incoming) 0.

(** ** Validation *)
Section Workflow.
Context (workflow : WorkflowPlan).
Definition workflow_label : string :=
  if bool_decide (wp_canonical_name workflow = "") then "<unknown>" else wp_canonical_name workflow.
Definition in_workflow (msg : string) : string :=
  "execution plan validation workflow '" +:+ workflow_label +:+ "' " +:+ msg.
Definition in_node (n : WorkflowNodePlan) (msg : string) : string :=
  in_workflow ("node '" +:+ np_name n +:+ "' " +:+ msg).
Definition validate_entry_node (nodes_by_name : gmap string WorkflowNodePlan) (seen : gset string)
    (entry_node : string) : checker :=
  error_if (bool_decide (entry_node ∈ seen)) (in_workflow ("contains duplicate entry node '" +:+ entry_node +:+ "'")) &>
  match nodes_by_name !! entry_node with
  | None => error_if true (in_workflow ("entry node '" +:+ entry_node +:+ "' does not exist"))
  | Some n => error_if (negb (bool_decide (np_after n = [])))
      (in_workflow ("entry node '" +:+ entry_node +:+ "' has dependencies"))
  end.
Definition validate_edge (node_names : gset string) (nodes_by_name : gmap string WorkflowNodePlan)
    (edge_keys : gset string) (e : WorkflowDependencyEdge) : checker :=
  let shown := edge_from e +:+ " -> " +:+ edge_to e in
  if negb (known_edge node_names e) then
    error_if true (in_workflow ("dependency edge '" +:+ shown +:+ "' refers to unknown node"))
  else
    error_if (bool_decide (edge_key (edge_from e) (edge_to e) ∈ edge_keys))
      (in_workflow ("contains duplicate dependency edge '" +:+ shown +:+ "'")) &>
    match nodes_by_name !! edge_to e with
    | Some target => error_if (negb (bool_decide (edge_from e ∈ np_after target)))
        (in_workflow ("dependency edge '" +:+ shown +:+ "' is not mirrored by node '" +:+ edge_to e +:+ "' after list"))
    | None => no_check
    end.
Definition validate_dependency (node_names edge_keys : gset string) (n : WorkflowNodePlan) (seen : gset string)
    (dependency : string) : checker :=
  error_if (bool_decide (dependency ∈ seen))
    (in_node n ("contains duplicate after dependency '" +:+ dependency +:+ "'")) &>
  if negb (bool_decide (dependency ∈ node_names)) then
    error_if true (in_node n ("depends on unknown node '" +:+ dependency +:+ "'"))
  else error_if (negb (bool_decide (edge_key dependency (np_name n) ∈ edge_keys)))
    (in_node n ("after dependency '" +:+ dependency +:+ "' is missing dependency edge")).
Definition validate_binding (n : WorkflowNodePlan) (seen : gset string) (b : CapabilityBindingReference) : checker :=
  error_if (bool_decide (binding_capability_name b = ""))
    (in_node n "has capability binding with empty capability name") &>
  error_if (bool_decide (binding_key b = "")) (in_node n "has capability binding with empty binding key") &>
  error_if (bool_decide (edge_key (binding_capability_name b) (binding_key b) ∈ seen))
    (in_node n ("contains duplicate capability binding '" +:+ binding_capability_name b +:+ "'")).
Definition expected_start_condition (n : WorkflowNodePlan) : WorkflowNodeStartConditionKind.t :=
  if bool_decide (np_after n = []) then WorkflowNodeStartConditionKind.Immediate
  else WorkflowNodeStartConditionKind.AfterDependenciesCompleted.
Definition validate_node_plan (node_names edge_keys : gset string) (n : WorkflowNodePlan) : checker :=
  error_if (bool_decide (np_target n = "")) (in_node n "has empty target") &>
  error_if (negb (bool_decide (start_condition (np_lifecycle n) = expected_start_condition n)))
    (in_node n "start condition does not match dependencies") &>
  error_if (bool_decide (target_final_states (np_lifecycle n) = []))
    (in_node n "lifecycle has no target final state") &>
  each (λ s, error_if (bool_decide (s = "")) (in_node n "lifecycle contains empty target final state"))
    (target_final_states (np_lifecycle n)) &>
  each_from (λ seen d, {[d]} ∪ seen) (validate_dependency node_names edge_keys n) ∅ (np_after n) &>
  each_from (λ seen b, {[edge_key (binding_capability_name b) (binding_key b)]} ∪ seen) (validate_binding n) ∅
    (np_capability_bindings n) &>
  validate_workflow_value_summary (np_input_summary n) node_names
    ("workflow '" +:+ workflow_label +:+ "' node '" +:+ np_name n +:+ "' input_summary").
Definition validate_workflow_plan : cxx checker :=
  let nodes := wp_nodes workflow in
  let node_names := names_of nodes in
  let nodes_by_name := index_nodes nodes in
  let edge_keys := foldl (add_edge_key node_names) ∅ (wp_dependency_edges workflow) in
  visited ← visited_node_count node_names (wp_dependency_edges workflow);
  Ret (
    error_if (bool_decide (wp_canonical_name workflow = ""))
      "execution plan validation contains workflow with empty canonical name" &>
    check_names (in_workflow "contains node with empty name")
      (λ name, in_workflow ("contains duplicate node '" +:+ name +:+ "'")) (np_name <$> nodes) &>
    error_if (bool_decide (nodes = [])) (in_workflow "contains no nodes") &>
    each_from (λ seen x, {[x]} ∪ seen) (validate_entry_node nodes_by_name) ∅ (wp_entry_nodes workflow) &>
    each_from (add_edge_key node_names) (validate_edge node_names nodes_by_name) ∅ (wp_dependency_edges workflow) &>
    each (validate_node_plan node_names edge_keys) nodes &>
    error_if (negb (bool_decide (visited = size node_names))) (in_workflow "dependency graph contains a cycle") &>
    validate_workflow_value_summary (wp_return_summary workflow) node_names
      ("workflow '" +:+ workflow_label +:+ "' return_summary")).
End Workflow.

Fixpoint validate_workflow_plans (l : list WorkflowPlan) : cxx checker :=
  match l with
  | [] => Ret no_check
  | w :: l => f ← validate_workflow_plan w; g ← validate_workflow_plans l; Ret (f &> g)
  end.
(** The names of the workflows: empty ones are left to [validate_workflow_plan]. *)
Definition validate_workflow_name (seen : gset string) (w : WorkflowPlan) : checker :=
  if bool_decide (wp_canonical_name w = "") then no_check
  else error_if (bool_decide (wp_canonical_name w ∈ seen))
    ("execution plan validation contains duplicate workflow '" +:+ wp_canonical_name w +:+ "'").
Definition workflow_names_of (l : list WorkflowPlan) : gset string := foldl insert_name ∅ (wp_canonical_name <$> l).
Definition validate_execution_plan (plan : ExecutionPlan) : cxx DiagnosticBag :=
  workflows ← validate_workflow_plans (plan_workflows plan);
  Ret ((error_if (negb (bool_decide (plan_format_version plan = kExecutionPlanFormatVersion)))
          ("execution plan validation encountered unsupported format_version '" +:+
           plan_format_version plan +:+ "'") &>
        each_from (λ seen w, insert_name seen (wp_canonical_name w)) validate_workflow_name ∅ (plan_workflows plan) &>
        error_if (bool_decide (plan_workflows plan = [])) "execution plan validation contains no workflows" &>
        match entry_workflow_canonical_name plan with
        | Some name => error_if (negb (bool_decide (name ∈ workflow_names_of (plan_workflows plan))))
            ("execution plan validation entry workflow '" +:+ name +:+ "' does not exist in workflows")
        | None => no_check
        end &>
        workflows) empty_bag).
