(* ===== verification/PlanProps.v ===== *)
(** * What the validation of execution plans accepts

    The cycle check is exact, and a plan passes exactly when it is well-formed:
    then its workflows are acyclic graphs whose edges are the dependencies of
    their nodes. *)
From S2P Require Import Prelude Diagnostics Checks Plan.
Open Scope nat_scope.
Open Scope ahfl_scope.

(** ** Topological orders *)
(** [order] lists [nodes], every node after the ones with an edge to it. *)
Record topological (nodes : gset string) (edge : string → string → Prop) (order : list string) : Prop := {
  topological_nodup : NoDup order;
  topological_nodes x : x ∈ order ↔ x ∈ nodes;
  topological_before i u v : order !! i = Some v → edge u v → u ∈ take i order }.
Definition acyclic (nodes : gset string) (edge : string → string → Prop) : Prop :=
  ∃ order, topological nodes edge order.
(** A set of nodes that is closed under ready nodes holds all of them. *)
Lemma topological_induction nodes edge order (P : string → Prop) : topological nodes edge order →
  (∀ v, v ∈ nodes → (∀ u, edge u v → P u) → P v) → ∀ v, v ∈ nodes → P v.
Proof.
  intros [Hnd Hn Hb] HP v Hv. apply Hn in Hv. apply list_elem_of_lookup_1 in Hv as [i Hi]. revert v Hi.
  induction i as [i IH] using lt_wf_ind. intros v Hi. apply HP.
  - apply Hn. by eapply list_elem_of_lookup_2.
  - intros u Hu. destruct (list_elem_of_lookup_1 _ _ (Hb _ _ _ Hi Hu)) as [j Hj].
    assert (j < i) by (apply lookup_lt_Some in Hj; rewrite length_take in Hj; lia).
    apply (IH j); [done|]. by rewrite lookup_take_lt in Hj by lia.
Qed.
(** A list of different nodes, each after its predecessors, is a topological
    order as soon as it is as long as there are nodes. *)
Lemma topological_full (nodes : gset string) (edge : string → string → Prop) order : NoDup order → (∀ x, x ∈ order → x ∈ nodes) →
  (∀ i u v, order !! i = Some v → edge u v → u ∈ take i order) → length order = size nodes →
  topological nodes edge order.
Proof.
  intros Hnd Hsub Hb Hlen. split; [done| |done]. intros x. split; [apply Hsub|]. intros Hx.
  assert (Heq : list_to_set order = nodes).
  { apply set_subseteq_size_eq; [intros y Hy; apply Hsub; by apply elem_of_list_to_set in Hy|].
    rewrite size_list_to_set by done. lia. }
  rewrite <-Heq in Hx. by apply elem_of_list_to_set in Hx.
Qed.

(** ** The cycle check *)
Definition pairs (node_names : gset string) (l : list WorkflowDependencyEdge) : list (string * string) :=
  (λ e, (edge_from e, edge_to e)) <$> base.filter (λ e, known_edge node_names e = true) l.
Definition into (l : list (string * string)) (x : string) : nat := length (base.filter (λ e, e.2 = x) l).
Lemma into_cons e l x : into (e :: l) x = (if decide (e.2 = x) then 1 else 0) + into l x.
Proof. unfold into. rewrite filter_cons. by case_decide. Qed.
Lemma into_app l l' x : into (l ++ l') x = into l x + into l' x.
Proof. unfold into. by rewrite filter_app, length_app. Qed.
Lemma into_0 l x : into l x = 0 ↔ ∀ u, (u, x) ∉ l.
Proof.
  unfold into. rewrite length_zero_iff_nil. split.
  - intros H u Hu. assert (Hin : (u, x) ∈ base.filter (λ e, e.2 = x) l) by by apply list_elem_of_filter.
    rewrite H in Hin. by apply elem_of_nil in Hin.
  - intros H. destruct (base.filter (λ e, e.2 = x) l) as [|[u y] l'] eqn:E; [done|]. exfalso.
    assert (Hin : (u, y) ∈ base.filter (λ e, e.2 = x) l) by (rewrite E; left).
    apply list_elem_of_filter in Hin as [<- Hin]. by apply (H u).
Qed.
#[export] Instance into_perm : Proper (Permutation ==> eq ==> eq) into.
Proof. intros l l' Hl x _ <-. unfold into. by rewrite Hl. Qed.

Lemma pairs_cons N e l :
  pairs N (e :: l) = (if known_edge N e then [(edge_from e, edge_to e)] else []) ++ pairs N l.
Proof.
  unfold pairs. rewrite filter_cons. destruct (known_edge N e); [by rewrite decide_True|by rewrite decide_False].
Qed.
Lemma pairs_known N l u v : (u, v) ∈ pairs N l → u ∈ N ∧ v ∈ N.
Proof.
  intros (e & [= -> ->] & (He & _)%list_elem_of_filter)%list_elem_of_fmap_1.
  unfold known_edge in He. apply andb_true_iff in He as [H1 H2]. by apply bool_decide_eq_true in H1, H2.
Qed.
Lemma outgoing_spec N l u m : default [] (foldl (add_outgoing N) m l !! u) =
  default [] (m !! u) ++ (base.filter (λ e, e.1 = u) (pairs N l)).*2.
Proof.
  revert m. induction l as [|e l IH]; intros m; cbn [foldl]; [by rewrite app_nil_r|].
  rewrite IH, pairs_cons. unfold add_outgoing. destruct (known_edge N e); [|done].
  cbn [app]. rewrite filter_cons. cbn [fst]. case_decide as Heq.
  - subst u. rewrite lookup_insert_eq, fmap_cons. cbn [default from_option id]. by rewrite <-app_assoc.
  - by rewrite lookup_insert_ne.
Qed.
Lemma incoming_spec N l x m : default 0 (foldl (add_incoming N) m l !! x) = default 0 (m !! x) + into (pairs N l) x.
Proof.
  revert m. induction l as [|e l IH]; intros m; cbn [foldl]; [cbn; lia|].
  rewrite IH, pairs_cons, into_app. unfold add_incoming. destruct (known_edge N e); [|done].
  rewrite into_cons. change (into [] x) with 0. cbn [snd]. case_decide as Heq.
  - subst x. rewrite lookup_insert_eq. cbn [default from_option id]. lia.
  - rewrite lookup_insert_ne by done. lia.
Qed.
Lemma incoming_dom N l m : dom m = N → dom (foldl (add_incoming N) m l) = N.
Proof.
  revert m. induction l as [|e l IH]; intros m Hm; cbn [foldl]; [done|]. apply IH. unfold add_incoming, known_edge.
  destruct (bool_decide (edge_from e ∈ N)); [|done]. case_bool_decide; cbn [andb]; [|done]. rewrite dom_insert_L. set_solver.
Qed.

Section Kahn.
Context (N : gset string) (E : list (string * string)).
Hypothesis (E_known : ∀ u v, (u, v) ∈ E → u ∈ N ∧ v ∈ N).
(** The visited nodes [P], the queue [Q], and the edges [R] that are not yet
    released: those out of nodes that are not visited. *)
Record kahn (P Q : list string) (inc : gmap string nat) (R : list (string * string)) : Prop := {
  kahn_nodup : NoDup (P ++ Q);
  kahn_nodes x : x ∈ P ++ Q ↔ x ∈ N ∧ into R x = 0;
  kahn_incoming x : x ∈ N → default 0 (inc !! x) = into R x;
  kahn_before i u v : P !! i = Some v → (u, v) ∈ E → u ∈ take i P }.
Lemma release_edges P Q n T R inc : kahn P Q inc (((λ v, (n, v)) <$> T) ++ R) → (∀ v, v ∈ T → v ∈ N) →
  ∃ inc' Q', foldl release_edge (inc, Q) T = (inc', Q') ∧ kahn P Q' inc' R.
Proof.
  revert Q inc. induction T as [|v T IH]; intros Q inc HK HT; [by exists inc, Q|].
  cbn [foldl]. rewrite fmap_cons in HK. cbn [app] in HK. set (R1 := ((λ v, (n, v)) <$> T) ++ R) in *.
  destruct HK as [Hnd Hn Hi Hb]. assert (Hv : v ∈ N) by (apply HT; left).
  unfold release_edge at 2. cbn [fst snd]. rewrite (Hi v Hv), into_cons. cbn [snd]. rewrite decide_True by done.
  cbn [plus]. assert (Hout : v ∉ P ++ Q) by (rewrite Hn, into_cons, decide_True by done; lia).
  apply IH; [|intros w Hw; apply HT; by right]. split; [| | |done].
  - case_bool_decide; [|done]. rewrite app_assoc. apply NoDup_app. split_and!; [done| |apply NoDup_singleton].
    by intros x Hx ->%list_elem_of_singleton.
  - intros x. assert (Hrec : x ∈ P ++ Q ↔ x ∈ N ∧ (if decide (v = x) then 1 else 0) + into R1 x = 0)
      by (by rewrite Hn, into_cons).
    destruct (decide (v = x)) as [->|Hne]; cbn [plus] in Hrec.
    + case_bool_decide as H0; [|split; [tauto|intros [_ ?]; lia]]. rewrite app_assoc, elem_of_app, list_elem_of_singleton. tauto.
    + case_bool_decide as H0; [|done]. rewrite app_assoc, elem_of_app, list_elem_of_singleton, Hrec. naive_solver.
  - intros x Hx. destruct (decide (v = x)) as [->|Hne]; [by rewrite lookup_insert_eq|].
    rewrite lookup_insert_ne by done. rewrite (Hi x Hx), into_cons. cbn [snd]. by rewrite decide_False.
Qed.
Context (outgoing : gmap string (list string)).
Hypothesis (outgoing_E : ∀ u, default [] (outgoing !! u) = (base.filter (λ e, e.1 = u) E).*2).
Definition unreleased (P : list string) : list (string * string) := base.filter (λ e, e.1 ∉ P) E.
Lemma unreleased_step P n : n ∉ P →
  unreleased P ≡ₚ ((λ v, (n, v)) <$> (base.filter (λ e, e.1 = n) E).*2) ++ unreleased (P ++ [n]).
Proof.
  intros Hn. unfold unreleased. clear E_known outgoing_E. induction E as [|[u v] l IH]; [done|].
  rewrite !filter_cons. cbn [fst].
  destruct (decide (u = n)) as [->|Hne].
  - rewrite decide_True by done. rewrite (decide_False (P := n ∉ P ++ [n])) by (intros H; apply H, elem_of_app; right; left).
    rewrite !fmap_cons. cbn [app snd]. constructor. exact IH.
  - destruct (decide (u ∉ P)) as [Hu|Hu].
    + rewrite decide_True by (rewrite elem_of_app, list_elem_of_singleton; tauto). rewrite IH. by rewrite Permutation_middle.
    + rewrite decide_False by (rewrite elem_of_app; tauto). done.
Qed.
Lemma kahn_perm P Q inc R R' : R ≡ₚ R' → kahn P Q inc R → kahn P Q inc R'.
Proof.
  intros HR [H1 H2 H3 H4]. split; [done| | |done].
  - intros x. by rewrite H2, HR.
  - intros x Hx. by rewrite H3, HR.
Qed.
Lemma visit_node P n Q inc : kahn P (n :: Q) inc (unreleased P) → kahn (P ++ [n]) Q inc (unreleased P).
Proof.
  intros [H1 H2 H3 H4]. split.
  - by rewrite <-app_assoc.
  - intros x. by rewrite <-app_assoc, <-H2.
  - done.
  - intros i u v Hi Hu. destruct (decide (i < length P)) as [Hlt|Hge].
    + rewrite lookup_app_l in Hi by lia. rewrite take_app_le by lia. by apply (H4 i u v).
    + rewrite lookup_app_r in Hi by lia. destruct (i - length P) as [|k] eqn:Ei; [|by destruct k].
      injection Hi as <-. rewrite take_app_ge by lia. apply elem_of_app. left.
      destruct (proj1 (H2 n)) as [_ H0]; [apply elem_of_app; right; left|]. rewrite into_0 in H0.
      destruct (decide (u ∈ P)) as [|Hout]; [done|]. exfalso. apply (H0 u). by apply list_elem_of_filter.
Qed.
Lemma visit_loop_spec fuel P Q inc : kahn P Q inc (unreleased P) → size N ≤ length P + fuel →
  ∃ P' inc', visit_loop fuel outgoing inc Q (length P) ⇓ length P' ∧ kahn P' [] inc' (unreleased P').
Proof.
  revert P Q inc. induction fuel as [|fuel IH]; intros P [|n Q] inc HK Hf; cbn [visit_loop];
    try (by exists P, inc).
  - exfalso. assert (Hsub : list_to_set (P ++ n :: Q) ⊆ N).
    { intros x Hx. apply elem_of_list_to_set in Hx. by apply (kahn_nodes _ _ _ _ HK). }
    apply subseteq_size in Hsub. rewrite size_list_to_set, length_app in Hsub by apply HK. cbn in Hsub. lia.
  - rewrite outgoing_E. assert (Hn : n ∉ P).
    { pose proof (kahn_nodup _ _ _ _ HK) as Hnd. apply NoDup_app in Hnd as (_ & Hd & _).
      intros Hin. apply (Hd n Hin). left. }
    destruct (release_edges (P ++ [n]) Q n (base.filter (λ e, e.1 = n) E).*2 (unreleased (P ++ [n])) inc)
      as (inc' & Q' & -> & HK').
    + apply (kahn_perm _ _ _ (unreleased P)); [by apply unreleased_step|]. by apply visit_node.
    + intros v ([u w] & -> & (_ & Hin)%list_elem_of_filter)%list_elem_of_fmap_1. by apply (E_known u w).
    + destruct (IH _ _ _ HK') as (P' & inc2 & Hr & HK2); [rewrite length_app; cbn; lia|].
      exists P', inc2. split; [|done]. rewrite length_app in Hr. by rewrite Nat.add_1_r in Hr.
Qed.
Lemma kahn_end P inc : kahn P [] inc (unreleased P) →
  length P = size N ↔ acyclic N (λ u v, (u, v) ∈ E).
Proof.
  intros [H1 H2 H3 H4]. rewrite app_nil_r in *. split.
  - intros Hlen. exists P. apply topological_full; [done|intros x Hx; by apply H2|done|done].
  - intros [order Ho]. assert (Hall : ∀ v, v ∈ N → v ∈ P).
    { apply (topological_induction _ _ _ _ Ho). intros v Hv Hpred. apply H2. split; [done|].
      apply into_0. intros u (Hu & Hin)%list_elem_of_filter. by apply Hu, Hpred. }
    assert (Heq : list_to_set P = N).
    { apply set_eq. intros x. rewrite elem_of_list_to_set. split; [intros Hx; by apply H2|apply Hall]. }
    rewrite <-Heq. by rewrite size_list_to_set.
Qed.
End Kahn.

(** The cycle check returns, and counts every node exactly when the known
    edges form no cycle. *)
Lemma visited_node_count_spec N l : ∃ n, visited_node_count N l ⇓ n ∧
  (n = size N ↔ acyclic N (λ u v, (u, v) ∈ pairs N l)).
Proof.
  unfold visited_node_count. set (inc := foldl (add_incoming N) (initial_incoming N) l).
  assert (Hinc : ∀ x, x ∈ N → default 0 (inc !! x) = into (pairs N l) x).
  { intros x Hx. unfold inc. rewrite incoming_spec. unfold initial_incoming.
    by rewrite lookup_gset_to_gmap, option_guard_True by done. }
  assert (Hdom : dom inc = N) by (apply incoming_dom; unfold initial_incoming; by rewrite dom_gset_to_gmap).
  destruct (visit_loop_spec N (pairs N l) (λ u v, pairs_known N l u v)
    (foldl (add_outgoing N) ∅ l) ltac:(intros u; by rewrite outgoing_spec, lookup_empty)
    (size N) [] (initial_queue inc) inc) as (P & inc' & Hr & HK); [|cbn; lia|].
  - assert (Hun : unreleased (pairs N l) [] = pairs N l).
    { unfold unreleased. apply filter_all. intros e _. apply not_elem_of_nil. }
    assert (HQ : ∀ x, x ∈ initial_queue inc ↔ inc !! x = Some 0).
    { intros x. unfold initial_queue. rewrite list_elem_of_fmap. split.
      - intros ([y k] & -> & Hy). apply elem_of_map_to_list, map_lookup_filter_Some in Hy as [Hy Hk].
        cbn in *. by subst k.
      - intros Hx. exists (x, 0). split; [done|]. by apply elem_of_map_to_list, map_lookup_filter_Some. }
    rewrite Hun. split.
    + cbn [app]. apply NoDup_fst_map_to_list.
    + intros x. cbn [app]. rewrite HQ. split.
      * intros Hx. assert (HxN : x ∈ N) by (rewrite <-Hdom; by eapply elem_of_dom_2).
        split; [done|]. rewrite <-Hinc by done. by rewrite Hx.
      * intros [HxN H0]. rewrite <-Hdom in HxN. apply elem_of_dom in HxN as [k Hk].
        rewrite Hk. f_equal. rewrite <-H0, <-Hinc; [by rewrite Hk|]. rewrite <-Hdom. by eapply elem_of_dom_2.
    + done.
    + done.
  - exists (length P). split; [exact Hr|]. by apply (kahn_end _ _ P inc').
Qed.

(** ** Keys of edges *)
Fixpoint nul_free (s : string) : bool :=
  match s with
  | EmptyString => true
  | String c s => negb (bool_decide (c = Ascii.ascii_of_nat 0)) && nul_free s
  end.
Lemma edge_key_inj a b a' b' : nul_free a = true → nul_free a' = true → edge_key a b = edge_key a' b' → a = a' ∧ b = b'.
Proof.
  unfold edge_key. revert a'. induction a as [|c a IH]; intros [|c' a']; cbn [nul_free]; intros Ha Ha' Heq.
  - by injection Heq.
  - apply andb_true_iff in Ha' as [Hc _]. apply negb_true_iff, bool_decide_eq_false in Hc. by injection Heq as <-.
  - apply andb_true_iff in Ha as [Hc _]. apply negb_true_iff, bool_decide_eq_false in Hc. by injection Heq as ->.
  - apply andb_true_iff in Ha as [_ Ha], Ha' as [_ Ha']. injection Heq as <- Heq.
    destruct (IH a' Ha Ha' Heq) as [-> ->]. done.
Qed.

(** ** Well-formed plans *)
Definition read_ok (names : list string) (r : ValueRead) : Prop :=
  match vr_kind r with
  | ValueSourceKind.WorkflowInput => vr_root_name r = "input"
  | ValueSourceKind.WorkflowNodeOutput => vr_root_name r ∈ names
  end.
Definition reads_ok (names : list string) (s : WorkflowValueSummary) : Prop := ∀ r, r ∈ vs_reads s → read_ok names r.
Definition node_names (w : WorkflowPlan) : list string := np_name <$> wp_nodes w.
(** [v] waits for [u]. *)
Definition depends (w : WorkflowPlan) (u v : string) : Prop := ∃ n, n ∈ wp_nodes w ∧ np_name n = v ∧ u ∈ np_after n.
Definition binding_ref (b : CapabilityBindingReference) : string := edge_key (binding_capability_name b) (binding_key b).
Record well_formed_node (names : list string) (n : WorkflowNodePlan) : Prop := {
  wfn_target : np_target n ≠ "";
  wfn_start : start_condition (np_lifecycle n) = expected_start_condition n;
  wfn_finals : target_final_states (np_lifecycle n) ≠ [];
  wfn_final s : s ∈ target_final_states (np_lifecycle n) → s ≠ "";
  wfn_after : NoDup (np_after n);
  wfn_known d : d ∈ np_after n → d ∈ names;
  wfn_bindings : NoDup (binding_ref <$> np_capability_bindings n);
  wfn_binding b : b ∈ np_capability_bindings n → binding_capability_name b ≠ "" ∧ binding_key b ≠ "";
  wfn_input : reads_ok names (np_input_summary n) }.
Record well_formed_workflow (w : WorkflowPlan) : Prop := {
  wfw_named : wp_canonical_name w ≠ "";
  wfw_names : Forall (λ x, x ≠ "") (node_names w);
  wfw_distinct : NoDup (node_names w);
  wfw_nonempty : wp_nodes w ≠ [];
  wfw_entries : NoDup (wp_entry_nodes w);
  wfw_entry x : x ∈ wp_entry_nodes w → ∃ n, n ∈ wp_nodes w ∧ np_name n = x ∧ np_after n = [];
  wfw_edges : NoDup ((λ e, (edge_from e, edge_to e)) <$> wp_dependency_edges w);
  wfw_edge u v : (∃ e, e ∈ wp_dependency_edges w ∧ edge_from e = u ∧ edge_to e = v) ↔ depends w u v;
  wfw_nodes n : n ∈ wp_nodes w → well_formed_node (node_names w) n;
  wfw_acyclic : acyclic (list_to_set (node_names w)) (depends w);
  wfw_return : reads_ok (node_names w) (wp_return_summary w) }.
Record well_formed_plan (plan : ExecutionPlan) : Prop := {
  wfp_version : plan_format_version plan = kExecutionPlanFormatVersion;
  wfp_nonempty : plan_workflows plan ≠ [];
  wfp_distinct : NoDup (wp_canonical_name <$> plan_workflows plan);
  wfp_entry x : entry_workflow_canonical_name plan = Some x → x ∈ wp_canonical_name <$> plan_workflows plan;
  wfp_workflows w : w ∈ plan_workflows plan → well_formed_workflow w }.

(** ** What the parts of the validation check *)
Lemma names_of_spec nodes : Forall (λ x, x ≠ "") (np_name <$> nodes) → names_of nodes = list_to_set (np_name <$> nodes).
Proof.
  intros Hne. unfold names_of. rewrite insert_name_foldl by done. apply set_eq. intros x.
  rewrite (collected_elem id), list_fmap_id, elem_of_list_to_set. set_solver.
Qed.
Lemma index_nodes_spec nodes x n : Forall (λ x, x ≠ "") (np_name <$> nodes) → NoDup (np_name <$> nodes) →
  index_nodes nodes !! x = Some n ↔ n ∈ nodes ∧ np_name n = x.
Proof.
  induction nodes as [|m nodes IH] using rev_ind.
  - intros _ _. cbn. rewrite lookup_empty, elem_of_nil. naive_solver.
  - unfold index_nodes in *. rewrite foldl_app, fmap_app. cbn [foldl fmap list_fmap].
    intros [Hne Hm]%Forall_app Hnd. apply Forall_cons in Hm as [Hm _].
    apply NoDup_app in Hnd as (Hnd & Hout & _). specialize (IH Hne Hnd).
    rewrite bool_decide_eq_false_2 by done. set (idx := foldl _ ∅ nodes) in *.
    assert (Hfree : idx !! np_name m = None).
    { destruct (idx !! np_name m) as [k|] eqn:Ek; [|done]. exfalso.
      assert (Hk : ∀ y k, idx !! y = Some k → k ∈ nodes ∧ np_name k = y).
      { intros y. clear -Hne Hnd. revert y. unfold idx. induction nodes as [|a l IHl] using rev_ind; intros y k'.
        - cbn. by rewrite lookup_empty.
        - rewrite foldl_app. cbn [foldl]. rewrite fmap_app in Hne, Hnd. apply Forall_app in Hne as [Hne _].
          apply NoDup_app in Hnd as (Hnd & _ & _). intros Hk'.
          case_bool_decide; [destruct (IHl Hne Hnd _ _ Hk'); set_solver|].
          destruct (foldl _ ∅ l !! np_name a) eqn:Ea; [destruct (IHl Hne Hnd _ _ Hk'); set_solver|].
          apply lookup_insert_Some in Hk' as [[<- <-]|[_ Hk']]; [set_solver|destruct (IHl Hne Hnd _ _ Hk'); set_solver]. }
      destruct (Hk _ _ Ek) as [Hin Hname]. apply (Hout (np_name m)); [|left]. rewrite <-Hname.
      by apply list_elem_of_fmap_2. }
    rewrite Hfree, lookup_insert_Some, elem_of_app, list_elem_of_singleton. split.
    + intros [[<- <-]|[Hne' Hk]]; [by split; [right|]|]. apply IH in Hk as [? ?]. split; [by left|done].
    + intros [[Hin| ->] <-]; [|by left]. right. split; [|by apply IH].
      intros Heq. apply (Hout (np_name n)); [by apply list_elem_of_fmap_2|]. rewrite <-Heq. left.
Qed.

Lemma value_summary_checks s names owner :
  checks (validate_workflow_value_summary s (list_to_set names) owner) (reads_ok names s).
Proof.
  apply (checks_each _ (read_ok names)). intros r. unfold read_ok.
  destruct (vr_kind r); eapply checks_iff; try apply checks_error_unless; [done|]. by rewrite elem_of_list_to_set.
Qed.
Section WorkflowChecks.
Context (w : WorkflowPlan).
Lemma entry_nodes_checks idx l :
  checks (each_from (λ seen x, {[x]} ∪ seen) (validate_entry_node w idx) ∅ l)
    (NoDup l ∧ ∀ x, x ∈ l → ∃ n, idx !! x = Some n ∧ np_after n = []).
Proof.
  rewrite <-(list_fmap_id l) at 2. apply (checks_each_seen id). intros seen x. unfold validate_entry_node.
  apply checks_andthen; [apply checks_error_when|]. destruct (idx !! x) as [n|].
  - eapply checks_iff; [apply checks_error_unless|]. naive_solver.
  - eapply checks_iff; [apply checks_error_if|]. naive_solver.
Qed.
Lemma bindings_checks n l :
  checks (each_from (λ seen b, {[edge_key (binding_capability_name b) (binding_key b)]} ∪ seen) (validate_binding w n) ∅ l)
    (NoDup (binding_ref <$> l) ∧ ∀ b, b ∈ l → binding_capability_name b ≠ "" ∧ binding_key b ≠ "").
Proof.
  apply (checks_each_seen binding_ref). intros seen b. unfold validate_binding.
  eapply checks_iff; [repeat apply checks_andthen; apply checks_error_when|]. unfold binding_ref. tauto.
Qed.
Lemma dependencies_checks names keys n l :
  checks (each_from (λ seen d, {[d]} ∪ seen) (validate_dependency w (list_to_set names) keys n) ∅ l)
    (NoDup l ∧ ∀ d, d ∈ l → d ∈ names ∧ edge_key d (np_name n) ∈ keys).
Proof.
  rewrite <-(list_fmap_id l) at 2. apply (checks_each_seen id). intros seen d. unfold validate_dependency.
  apply checks_andthen; [apply checks_error_when|]. case_bool_decide as Hd; rewrite elem_of_list_to_set in Hd; cbn [negb].
  - eapply checks_iff; [apply checks_error_unless|]. tauto.
  - eapply checks_iff; [apply checks_error_if|]. naive_solver.
Qed.
Lemma node_plan_checks names keys n :
  checks (validate_node_plan w (list_to_set names) keys n)
    (well_formed_node names n ∧ ∀ d, d ∈ np_after n → edge_key d (np_name n) ∈ keys).
Proof.
  unfold validate_node_plan. eapply checks_iff.
  - apply checks_andthen; [apply checks_error_when|]. apply checks_andthen; [apply checks_error_unless|].
    apply checks_andthen; [apply checks_error_when|].
    apply checks_andthen; [apply checks_each; intros; apply checks_error_when|].
    apply checks_andthen; [apply dependencies_checks|]. apply checks_andthen; [apply bindings_checks|].
    apply value_summary_checks.
  - split.
    + intros (?&?&?&?&[? H1]&[??]&?). split; [split; try done; intros; by apply H1|]. intros; by apply H1.
    + intros [[] ?]. naive_solver.
Qed.
End WorkflowChecks.
Section Edges.
Context (w : WorkflowPlan) (N : gset string).
Definition edge_pair (e : WorkflowDependencyEdge) : string * string := (edge_from e, edge_to e).
Definition pair_key (e : WorkflowDependencyEdge) : string := edge_key (edge_from e) (edge_to e).
Lemma known_edge_iff (M : gset string) e : known_edge M e = true ↔ edge_from e ∈ M ∧ edge_to e ∈ M.
Proof. unfold known_edge. by rewrite andb_true_iff, !bool_decide_eq_true. Qed.
Lemma edge_keys_known (M s : gset string) l : (∀ e, e ∈ l → known_edge M e = true) →
  foldl (add_edge_key M) s l = foldl (λ s e, {[pair_key e]} ∪ s) s l.
Proof.
  revert s. induction l as [|e l IH]; intros s Hl; cbn [foldl]; [done|].
  rewrite IH by (intros; apply Hl; by right). unfold add_edge_key at 1. by rewrite (Hl e) by left.
Qed.
Lemma pairs_all (M : gset string) l : (∀ e, e ∈ l → known_edge M e = true) → pairs M l = edge_pair <$> l.
Proof. intros Hl. unfold pairs. by rewrite (filter_all _ l) by done. Qed.
Lemma edges_checks idx l :
  checks (each_from (add_edge_key N) (validate_edge w N idx) ∅ l)
    (NoDup (pair_key <$> l) ∧ ∀ e, e ∈ l → known_edge N e = true ∧
       ∀ n, idx !! edge_to e = Some n → edge_from e ∈ np_after n).
Proof.
  eapply checks_iff.
  - apply (checks_each_from _ _ (λ seen e, known_edge N e = true ∧ pair_key e ∉ seen ∧
      ∀ n, idx !! edge_to e = Some n → edge_from e ∈ np_after n)).
    intros seen e. unfold validate_edge. destruct (known_edge N e); cbn [negb].
    + destruct (idx !! edge_to e) as [n|].
      * eapply checks_iff; [apply checks_andthen; [apply checks_error_when|apply checks_error_unless]|].
        unfold pair_key. naive_solver.
      * eapply checks_iff; [apply checks_andthen; [apply checks_error_when|apply checks_nothing]|].
        unfold pair_key. naive_solver.
    + eapply checks_iff; [apply checks_error_if|]. naive_solver.
  - rewrite <-(collected_NoDup pair_key). split.
    + intros Hl. assert (Hk : ∀ e, e ∈ l → known_edge N e = true).
      { intros e [i Hi]%list_elem_of_lookup_1. by apply (Hl i). }
      split.
      * intros i e Hi. destruct (Hl i e Hi) as (_ & Hn & _). rewrite edge_keys_known in Hn; [done|].
        intros e' He'. apply Hk. apply elem_of_take in He' as (j & Hj & _); by eapply list_elem_of_lookup_2.
      * intros e [i Hi]%list_elem_of_lookup_1. by destruct (Hl i e Hi) as (? & _ & ?).
    + intros [H1 H2] i e Hi. split; [by apply H2; eapply list_elem_of_lookup_2|].
      rewrite edge_keys_known.
      * split; [by apply H1|]. apply H2. by eapply list_elem_of_lookup_2.
      * intros e' He'. apply H2. apply elem_of_take in He' as (j & Hj & _); by eapply list_elem_of_lookup_2.
Qed.
End Edges.
Lemma acyclic_iff nodes edge edge' : (∀ u v, edge u v ↔ edge' u v) → acyclic nodes edge ↔ acyclic nodes edge'.
Proof.
  intros He. split; intros [order [H1 H2 H3]]; exists order; (split; [done..|]); intros i u v Hi Hu; apply (H3 i u v Hi); by apply He.
Qed.
Lemma NoDup_key l : (∀ e, e ∈ l → nul_free (edge_from e) = true) → NoDup (pair_key <$> l) ↔ NoDup (edge_pair <$> l).
Proof.
  intros Hn. split.
  - intros H. apply (NoDup_fmap_1 (λ p : string * string, edge_key p.1 p.2)). by rewrite <-list_fmap_compose.
  - induction l as [|e l IH]; [intros; apply NoDup_nil_2|]. rewrite !fmap_cons, !NoDup_cons.
    intros [Hout Hnd]. split; [|apply IH; [intros; apply Hn; by right|done]].
    intros (e' & Heq & He')%list_elem_of_fmap_1. apply Hout. apply edge_key_inj in Heq as [H1 H2]; [|apply Hn; left|apply Hn; by right].
    apply list_elem_of_fmap. exists e'. unfold edge_pair. by rewrite H1, H2.
Qed.
Definition nul_free_names (w : WorkflowPlan) : Prop := ∀ x, x ∈ node_names w → nul_free x = true.
Lemma nodes_indexed w x n : Forall (λ x, x ≠ "") (node_names w) → NoDup (node_names w) →
  index_nodes (wp_nodes w) !! x = Some n ↔ n ∈ wp_nodes w ∧ np_name n = x.
Proof. apply index_nodes_spec. Qed.
(** The edges and the [after] lists agree exactly when each finds the other. *)
Lemma edges_mirror w (N := list_to_set (node_names w) : gset string) :
  nul_free_names w → Forall (λ x, x ≠ "") (node_names w) → NoDup (node_names w) →
  (∀ n d, n ∈ wp_nodes w → d ∈ np_after n → d ∈ node_names w) →
  (∀ e, e ∈ wp_dependency_edges w → known_edge N e = true ∧
     ∀ n, index_nodes (wp_nodes w) !! edge_to e = Some n → edge_from e ∈ np_after n) ∧
  (∀ n d, n ∈ wp_nodes w → d ∈ np_after n →
     edge_key d (np_name n) ∈ foldl (add_edge_key N) ∅ (wp_dependency_edges w)) ↔
  ∀ u v, (∃ e, e ∈ wp_dependency_edges w ∧ edge_from e = u ∧ edge_to e = v) ↔ depends w u v.
Proof.
  intros Hnul Hne Hnd Hd. unfold depends. split.
  - intros [H1 H2] u v. split.
    + intros (e & He & <- & <-). destruct (H1 e He) as [[_ Hk]%known_edge_iff Hn].
      apply elem_of_list_to_set, list_elem_of_fmap in Hk as (n & Heq & Hin). exists n. split_and!; [done..|].
      apply Hn. by apply nodes_indexed.
    + intros (n & Hin & <- & Hu). specialize (H2 n u Hin Hu). rewrite edge_keys_known in H2 by (intros e He; by apply H1).
      rewrite collected_elem, elem_of_empty in H2. destruct H2 as [[]|(e & Hkey & He)%list_elem_of_fmap_1].
      exists e. split; [done|]. apply edge_key_inj in Hkey as [-> ->]; [done|by apply Hnul, (Hd n u Hin Hu)|].
      destruct (H1 e He) as [[Hk _]%known_edge_iff _]. apply Hnul. by apply elem_of_list_to_set in Hk.
  - intros Hiff. assert (Hk : ∀ e, e ∈ wp_dependency_edges w → known_edge N e = true).
    { intros e He. destruct (proj1 (Hiff (edge_from e) (edge_to e))) as (n & Hin & Hname & Hu); [by exists e|].
      apply known_edge_iff. unfold N. rewrite !elem_of_list_to_set. split; [by apply (Hd n)|].
      rewrite <-Hname. by apply list_elem_of_fmap_2. }
    split.
    + intros e He. split; [by apply Hk|]. intros n [Hin Hname]%nodes_indexed; [|done..].
      destruct (proj1 (Hiff (edge_from e) (edge_to e))) as (n' & Hin' & Hname' & Hu); [by exists e|].
      assert (Some n' = Some n) as [= <-]; [|done].
      trans (index_nodes (wp_nodes w) !! edge_to e); [symmetry|]; by apply nodes_indexed.
    + intros n d Hin Hu. destruct (proj2 (Hiff d (np_name n))) as (e & He & <- & <-); [by exists n|].
      rewrite edge_keys_known by done. rewrite collected_elem. right. by apply (list_elem_of_fmap_2 pair_key).
Qed.
(** ** The validation is exact *)
Lemma workflow_parts names keys k w :
  checks (
    error_if (bool_decide (wp_canonical_name w = ""))
      "execution plan validation contains workflow with empty canonical name" &>
    check_names (in_workflow w "contains node with empty name")
      (λ name, in_workflow w ("contains duplicate node '" +:+ name +:+ "'")) (node_names w) &>
    error_if (bool_decide (wp_nodes w = [])) (in_workflow w "contains no nodes") &>
    each_from (λ seen x, {[x]} ∪ seen) (validate_entry_node w (index_nodes (wp_nodes w))) ∅ (wp_entry_nodes w) &>
    each_from (add_edge_key (list_to_set names)) (validate_edge w (list_to_set names) (index_nodes (wp_nodes w))) ∅
      (wp_dependency_edges w) &>
    each (validate_node_plan w (list_to_set names) keys) (wp_nodes w) &>
    error_if (negb (bool_decide (k = size (list_to_set names : gset string)))) (in_workflow w "dependency graph contains a cycle") &>
    validate_workflow_value_summary (wp_return_summary w) (list_to_set names)
      ("workflow '" +:+ workflow_label w +:+ "' return_summary"))
  ((Forall (λ x, x ≠ "") (node_names w) ∧ NoDup (node_names w)) ∧
   wp_canonical_name w ≠ "" ∧ wp_nodes w ≠ [] ∧
   (NoDup (wp_entry_nodes w) ∧ ∀ x, x ∈ wp_entry_nodes w → ∃ n, index_nodes (wp_nodes w) !! x = Some n ∧ np_after n = []) ∧
   (NoDup (pair_key <$> wp_dependency_edges w) ∧ ∀ e, e ∈ wp_dependency_edges w →
      known_edge (list_to_set names) e = true ∧ ∀ n, index_nodes (wp_nodes w) !! edge_to e = Some n → edge_from e ∈ np_after n) ∧
   (∀ n, n ∈ wp_nodes w → well_formed_node names n ∧ ∀ d, d ∈ np_after n → edge_key d (np_name n) ∈ keys) ∧
   k = size (list_to_set names : gset string) ∧ reads_ok names (wp_return_summary w)).
Proof.
  eapply checks_iff.
  - apply checks_andthen; [apply checks_error_when|]. apply checks_andthen; [apply checks_names|].
    apply checks_andthen; [apply checks_error_when|]. apply checks_andthen; [apply entry_nodes_checks|].
    apply checks_andthen; [apply edges_checks|].
    apply checks_andthen; [apply checks_each; intros; apply node_plan_checks|].
    apply checks_andthen; [apply checks_error_unless|]. apply value_summary_checks.
  - tauto.
Qed.
Lemma workflow_parts_iff k w (N := list_to_set (node_names w) : gset string) : nul_free_names w →
  Forall (λ x, x ≠ "") (node_names w) → NoDup (node_names w) →
  (k = size N ↔ acyclic N (λ u v, (u, v) ∈ pairs N (wp_dependency_edges w))) →
  (wp_canonical_name w ≠ "" ∧ wp_nodes w ≠ [] ∧
   (NoDup (wp_entry_nodes w) ∧ ∀ x, x ∈ wp_entry_nodes w → ∃ n, index_nodes (wp_nodes w) !! x = Some n ∧ np_after n = []) ∧
   (NoDup (pair_key <$> wp_dependency_edges w) ∧ ∀ e, e ∈ wp_dependency_edges w →
      known_edge N e = true ∧ ∀ n, index_nodes (wp_nodes w) !! edge_to e = Some n → edge_from e ∈ np_after n) ∧
   (∀ n, n ∈ wp_nodes w → well_formed_node (node_names w) n ∧
      ∀ d, d ∈ np_after n → edge_key d (np_name n) ∈ foldl (add_edge_key N) ∅ (wp_dependency_edges w)) ∧
   k = size N ∧ reads_ok (node_names w) (wp_return_summary w)) ↔ well_formed_workflow w.
Proof.
  intros Hnul Hne Hnd Hk.
  assert (Hmirror : (∀ n d, n ∈ wp_nodes w → d ∈ np_after n → d ∈ node_names w) →
    (∀ e, e ∈ wp_dependency_edges w → known_edge N e = true) →
    (∀ u v, (∃ e, e ∈ wp_dependency_edges w ∧ edge_from e = u ∧ edge_to e = v) ↔ depends w u v) →
    (NoDup (pair_key <$> wp_dependency_edges w) ↔ NoDup (edge_pair <$> wp_dependency_edges w)) ∧
    (acyclic N (λ u v, (u, v) ∈ pairs N (wp_dependency_edges w)) ↔ acyclic N (depends w))).
  { intros Hd Hke Hiff. split.
    - apply NoDup_key. intros e He. apply Hnul. destruct (proj1 (known_edge_iff _ _) (Hke e He)) as [H _].
      by apply elem_of_list_to_set in H.
    - apply acyclic_iff. intros u v. rewrite pairs_all by done. rewrite list_elem_of_fmap, <-Hiff. unfold edge_pair. naive_solver. }
  split.
  - intros (Hn & Hnodes & (He1 & He2) & (Hg1 & Hg2) & Hp & Hsz & Hr).
    assert (Hd : ∀ n d, n ∈ wp_nodes w → d ∈ np_after n → d ∈ node_names w).
    { intros n d Hin Hu. destruct (Hp n Hin) as [[] _]. auto. }
    assert (Hiff : ∀ u v, (∃ e, e ∈ wp_dependency_edges w ∧ edge_from e = u ∧ edge_to e = v) ↔ depends w u v).
    { apply edges_mirror; [done..|]. split; [done|]. intros n d Hin. by apply Hp. }
    destruct (Hmirror Hd (λ e He, proj1 (Hg2 e He)) Hiff) as [Hm1 Hm2].
    split; try done.
    + intros x Hx. destruct (He2 x Hx) as (n & [Hin Hname]%nodes_indexed & Ha); [|done..]. by exists n.
    + by apply Hm1.
    + intros n Hin. by apply Hp.
    + by apply Hm2, Hk.
  - intros [Hn _ _ Hnodes He1 He2 Hg1 Hiff Hp Hac Hr].
    assert (Hd : ∀ n d, n ∈ wp_nodes w → d ∈ np_after n → d ∈ node_names w).
    { intros n d Hin Hu. destruct (Hp n Hin). auto. }
    destruct (proj2 (edges_mirror w Hnul Hne Hnd Hd) Hiff) as [Hg2 Hg3].
    destruct (Hmirror Hd (λ e He, proj1 (Hg2 e He)) Hiff) as [Hm1 Hm2]. split_and!; try done.
    + intros x Hx. destruct (He2 x Hx) as (n & Hin & Hname & Ha). exists n. split; [|done]. by apply nodes_indexed.
    + by apply Hm1.
    + intros n Hin. split; [by apply Hp|]. intros d. by apply Hg3.
    + by apply Hk, Hm2.
Qed.
Lemma validate_workflow_plan_checks w : nul_free_names w →
  ∃ f, validate_workflow_plan w ⇓ f ∧ checks f (well_formed_workflow w).
Proof.
  intros Hnul. unfold validate_workflow_plan.
  destruct (visited_node_count_spec (names_of (wp_nodes w)) (wp_dependency_edges w)) as (k & Hk & Hac).
  eexists. split; [by rewrite Hk|].
  destruct (decide (Forall (λ x, x ≠ "") (node_names w) ∧ NoDup (node_names w))) as [[Hne Hnd]|Hbad].
  - rewrite names_of_spec in * by done. eapply checks_iff; [apply (workflow_parts (node_names w))|].
    rewrite <-(workflow_parts_iff k w) by done. by unfold node_names in *; intuition.
  - rewrite <-(list_to_set_elements_L (names_of (wp_nodes w))).
    eapply checks_iff; [apply workflow_parts|]. split; [tauto|]. intros []. tauto.
Qed.
Lemma workflow_plans_checks l : (∀ w, w ∈ l → nul_free_names w) →
  ∃ f, validate_workflow_plans l ⇓ f ∧ checks f (∀ w, w ∈ l → well_formed_workflow w).
Proof.
  induction l as [|w l IH]; intros Hnul; cbn [validate_workflow_plans].
  - exists no_check. split; [done|]. eapply checks_iff; [apply checks_nothing|]. split; [|done].
    by intros _ w ?%elem_of_nil.
  - destruct (validate_workflow_plan_checks w) as (f & Hf & Cf); [apply Hnul; left|].
    destruct IH as (g & Hg & Cg); [intros; apply Hnul; by right|].
    exists (f &> g). split; [by rewrite Hf, Hg|].
    eapply checks_iff; [by apply checks_andthen|]. setoid_rewrite elem_of_cons. naive_solver.
Qed.
(** Empty names are skipped here. *)
Lemma workflow_name_checks l :
  ∃ P, checks (each_from (λ seen w, insert_name seen (wp_canonical_name w)) validate_workflow_name ∅ l) P ∧
    (Forall (λ x, x ≠ "") (wp_canonical_name <$> l) → P ↔ NoDup (wp_canonical_name <$> l)).
Proof.
  eexists. split.
  - apply (checks_each_from _ _ (λ seen w, wp_canonical_name w = "" ∨ wp_canonical_name w ∉ seen)).
    intros seen w. unfold validate_workflow_name. case_bool_decide.
    + eapply checks_iff; [apply checks_nothing|]. naive_solver.
    + eapply checks_iff; [apply checks_error_when|]. naive_solver.
  - intros Hne. rewrite <-(collected_NoDup wp_canonical_name).
    assert (Hf : ∀ i, foldl (λ seen w, insert_name seen (wp_canonical_name w)) ∅ (take i l) =
      foldl (λ s w, {[wp_canonical_name w]} ∪ s) ∅ (take i l)).
    { intros i. generalize (∅ : gset string).
      assert (Ht : Forall (λ w, wp_canonical_name w ≠ "") (take i l)) by (apply Forall_take; by rewrite Forall_fmap in Hne).
      induction Ht as [|w l' Hw _ IH]; intros s; cbn [foldl]; [done|]. rewrite <-IH. f_equal.
      unfold insert_name. by rewrite bool_decide_eq_false_2. }
    split.
    + intros H i w Hw. rewrite <-Hf. destruct (H i w Hw) as [He|?]; [|done]. exfalso.
      rewrite Forall_fmap in Hne. by apply (Forall_lookup_1 _ _ _ _ Hne Hw).
    + intros H i w Hw. right. rewrite Hf. by apply H.
Qed.
Lemma workflow_names_elem l x : Forall (λ x, x ≠ "") (wp_canonical_name <$> l) →
  x ∈ workflow_names_of l ↔ x ∈ wp_canonical_name <$> l.
Proof.
  intros Hne. unfold workflow_names_of. rewrite insert_name_foldl by done.
  rewrite (collected_elem id), list_fmap_id. set_solver.
Qed.
Lemma plan_validated plan : (∀ w, w ∈ plan_workflows plan → nul_free_names w) →
  ∃ diagnostics, validate_execution_plan plan ⇓ diagnostics ∧
    (has_error diagnostics = false ↔ well_formed_plan plan).
Proof.
  intros Hnul. unfold validate_execution_plan. destruct (workflow_plans_checks _ Hnul) as (f & Hf & Cf).
  eexists. split; [by rewrite Hf|]. destruct (workflow_name_checks (plan_workflows plan)) as (P & HP & HPiff).
  erewrite checks_run.
  2:{ apply checks_andthen; [apply checks_error_unless|]. apply checks_andthen; [apply HP|].
      apply checks_andthen; [apply checks_error_when|].
      apply checks_andthen; [|apply Cf].
      apply (checks_iff _ (∀ x, entry_workflow_canonical_name plan = Some x → x ∈ workflow_names_of (plan_workflows plan)));
        [|reflexivity].
      destruct (entry_workflow_canonical_name plan) as [x|].
      - eapply checks_iff; [apply checks_error_unless|]. naive_solver.
      - eapply checks_iff; [apply checks_nothing|]. naive_solver. }
  assert (Hne : (∀ w, w ∈ plan_workflows plan → well_formed_workflow w) →
    Forall (λ x, x ≠ "") (wp_canonical_name <$> plan_workflows plan)).
  { intros Hw. rewrite Forall_fmap. apply Forall_forall. intros w Hin. by destruct (Hw w Hin). }
  split.
  - intros (Hv & Hd & Hnonempty & Hentry & Hw). specialize (Hne Hw). split; try done; [by apply HPiff|].
    intros x Hx. apply workflow_names_elem; auto.
  - intros [Hv Hnonempty Hd Hentry Hw]. specialize (Hne Hw). split_and!; try done; [by apply HPiff|].
    intros x Hx. apply workflow_names_elem; auto.
Qed.
(** [validate_execution_plan] returns for every plan, and reports an error
    exactly when the plan is not well-formed: the format version, the names,
    that edges and [after] lists mirror each other, the start conditions, the
    reads, and that no workflow has a dependency cycle.  Names of nodes hold no
    NUL, the separator of the keys of edges. *)
Theorem validate_execution_plan_exact plan : (∀ w, w ∈ plan_workflows plan → nul_free_names w) →
  ∃ diagnostics, validate_execution_plan plan ⇓ diagnostics ∧
    (has_error diagnostics = false ↔ well_formed_plan plan).
Proof. apply plan_validated. Qed.

(** A workflow of two nodes, the second of which reads the first one's output. *)
Definition sample_lifecycle (start : WorkflowNodeStartConditionKind.t) : WorkflowNodeLifecycleSummary :=
  mkLifecycle start WorkflowNodeCompletionConditionKind.TargetReachedFinalState true "Start" ["Done"].
Definition sample_fetch : WorkflowNodePlan :=
  mkNodePlan "fetch" "app::Fetch" [] (sample_lifecycle WorkflowNodeStartConditionKind.Immediate)
    (mkValueSummary [mkValueRead ValueSourceKind.WorkflowInput "input" []]) [mkBinding "Http" "http"].
Definition sample_score : WorkflowNodePlan :=
  mkNodePlan "score" "app::Score" ["fetch"] (sample_lifecycle WorkflowNodeStartConditionKind.AfterDependenciesCompleted)
    (mkValueSummary [mkValueRead ValueSourceKind.WorkflowNodeOutput "fetch" []]) [].
Definition sample_workflow : WorkflowPlan :=
  mkWorkflowPlan "app::Main" "In" "Out" ["fetch"] [mkEdge "fetch" "score"] [sample_fetch; sample_score]
    (mkValueSummary [mkValueRead ValueSourceKind.WorkflowNodeOutput "score" []]).
Definition sample_plan : ExecutionPlan := mkPlan kExecutionPlanFormatVersion None (Some "app::Main") [sample_workflow].
Definition sample_cycle : ExecutionPlan :=
  mkPlan kExecutionPlanFormatVersion None None
    [mkWorkflowPlan "app::Main" "In" "Out" [] [mkEdge "score" "score"]
       [mkNodePlan "score" "app::Score" ["score"] (sample_lifecycle WorkflowNodeStartConditionKind.AfterDependenciesCompleted)
          (mkValueSummary []) []] (mkValueSummary [])].
Lemma sample_nul_free w : w ∈ plan_workflows sample_plan ∨ w ∈ plan_workflows sample_cycle → nul_free_names w.
Proof. intros [->%list_elem_of_singleton| ->%list_elem_of_singleton] x Hx; cbn in Hx; set_unfold; naive_solver. Qed.
Lemma validate_execution_plan_exact_witness : well_formed_plan sample_plan ∧ ¬ well_formed_plan sample_cycle.
Proof.
  split.
  - destruct (validate_execution_plan_exact sample_plan) as (d & Hd & Hiff); [auto using sample_nul_free|].
    apply Hiff. assert (Hr : (match validate_execution_plan sample_plan with Ret d => has_error d | _ => true end) = false)
      by by vm_compute. by rewrite Hd in Hr.
  - destruct (validate_execution_plan_exact sample_cycle) as (d & Hd & Hiff); [auto using sample_nul_free|].
    intros Hw%Hiff. assert (Hr : (match validate_execution_plan sample_cycle with Ret d => has_error d | _ => false end) = true)
      by by vm_compute. by rewrite Hd, Hw in Hr.
Defined.
