(* ===== verification/DryRun.v ===== *)
(** * The local dry run (src/pipeline/execution/dry_run/runner.{hpp,cpp})

    It runs the nodes of a workflow in dependency order against capability
    mocks.  The lookups and the release of waiting nodes are also those of
    [build_runtime_session], whose file repeats the code.  A pointer to a node
    or a mock is the node or the mock: they are not changed. *)
From S2P Require Import Prelude Diagnostics Checks Plan.
Open Scope nat_scope.
Open Scope ahfl_scope.

Definition kTraceFormatVersion : string := "ahfl.dry-run-trace.v1".
Definition kCapabilityMockSetFormatVersion : string := "ahfl.capability-mocks.v0.6".

Module DryRunStatus.
Inductive t := Completed.
End DryRunStatus.
Record DryRunRequest := mkRequest {
  req_workflow_canonical_name : string;
  req_input_fixture : string;
  req_run_id : option string }.
Record CapabilityMock := mkMock {
  mock_capability_name : option string;
  mock_binding_key : option string;
  mock_result_fixture : string;
  mock_invocation_label : option string }.
Record CapabilityMockSet := mkMockSet { mocks_format_version : string; mocks : list CapabilityMock }.
Record DryRunNodeTrace := mkNodeTrace {
  nt_node_name : string;
  nt_target : string;
  nt_execution_index : nat;
  nt_satisfied_dependencies : list string;
  nt_lifecycle : WorkflowNodeLifecycleSummary;
  nt_input_summary : WorkflowValueSummary;
  nt_capability_bindings : list CapabilityBindingReference;
  nt_mock_results : list CapabilityMock }.
Record DryRunTrace := mkTrace {
  tr_format_version : string;
  tr_source_execution_plan_format_version : string;
  tr_source_package_identity : option PackageIdentity;
  tr_workflow_canonical_name : string;
  tr_status : DryRunStatus.t;
  tr_input_fixture : string;
  tr_run_id : option string;
  tr_execution_order : list string;
  tr_node_traces : list DryRunNodeTrace;
  tr_return_summary : WorkflowValueSummary }.
Record DryRunResult := mkDryRunResult { dr_trace : option DryRunTrace; dr_diagnostics : DiagnosticBag }.

(** ** Lookups *)
Definition find_workflow_plan (plan : ExecutionPlan) (name : string) : option WorkflowPlan :=
  head (base.filter (λ w, wp_canonical_name w = name) (plan_workflows plan)).
Definition mock_selector_key (m : CapabilityMock) : string :=
  match mock_binding_key m, mock_capability_name m with
  | Some key, _ => "binding:" +:+ key
  | None, Some name => "capability:" +:+ name
  | None, None => ""
  end.
(** A mock for the binding key comes before one for the capability. *)
Definition find_mock_for_binding (ms : CapabilityMockSet) (b : CapabilityBindingReference) : option CapabilityMock :=
  match head (base.filter (λ m, mock_binding_key m = Some (binding_key b)) (mocks ms)) with
  | Some m => Some m
  | None => head (base.filter (λ m, mock_capability_name m = Some (binding_capability_name b)) (mocks ms))
  end.

(** ** The mock set *)
Definition has_value {A} (o : option A) : bool := match o with Some _ => true | None => false end.
(** [capability_name.has_value() == binding_key.has_value()] *)
Definition ambiguous (m : CapabilityMock) : bool :=
  Bool.eqb (has_value (mock_capability_name m)) (has_value (mock_binding_key m)).
Definition insert_selector (seen : gset string) (m : CapabilityMock) : gset string :=
  if ambiguous m then seen else insert_name seen (mock_selector_key m).
Definition validate_mock (seen : gset string) (m : CapabilityMock) : checker :=
  if ambiguous m then error_if true
    "capability mock must specify exactly one of 'capability_name' or 'binding_key'"
  else
    error_if (bool_decide (mock_result_fixture m = "")) "capability mock result_fixture must not be empty" &>
    error_if (negb (bool_decide (mock_selector_key m = "")) && bool_decide (mock_selector_key m ∈ seen))
      ("capability mock set contains duplicate mock selector '" +:+ mock_selector_key m +:+ "'").
Definition bindings_of (w : WorkflowPlan) : list CapabilityBindingReference := wp_nodes w ≫= np_capability_bindings.
Definition use_mock (ms : CapabilityMockSet) (used : gset string) (b : CapabilityBindingReference) : gset string :=
  match find_mock_for_binding ms b with Some m => {[mock_selector_key m]} ∪ used | None => used end.
Definition validate_bound (ms : CapabilityMockSet) (b : CapabilityBindingReference) : checker :=
  error_if (negb (has_value (find_mock_for_binding ms b)))
    ("local dry-run missing capability mock for binding key '" +:+ binding_key b +:+ "' capability '" +:+
     binding_capability_name b +:+ "'").
Definition validate_used (used : gset string) (m : CapabilityMock) : checker :=
  error_if (negb (bool_decide (mock_selector_key m = "")) && negb (bool_decide (mock_selector_key m ∈ used)))
    ("capability mock set contains unused mock selector '" +:+ mock_selector_key m +:+ "'").
Definition validate_capability_mock_set (ms : CapabilityMockSet) (w : WorkflowPlan) : checker :=
  error_if (negb (bool_decide (mocks_format_version ms = kCapabilityMockSetFormatVersion)))
    ("capability mock set encountered unsupported format_version '" +:+ mocks_format_version ms +:+ "'") &>
  each_from insert_selector validate_mock ∅ (mocks ms) &>
  each (validate_bound ms) (bindings_of w) &>
  each (validate_used (foldl (use_mock ms) ∅ (bindings_of w))) (mocks ms).

(** ** Scheduling *)
(** The ready queue holds the nodes that wait for nothing. *)
Definition initial_ready_nodes (nodes : list WorkflowNodePlan) : list WorkflowNodePlan :=
  base.filter (λ n, np_after n = []) nodes.
(** [emplace] keeps the first entry of a name. *)
Definition add_remaining (m : gmap string nat) (n : WorkflowNodePlan) : gmap string nat :=
  match m !! np_name n with Some _ => m | None => <[np_name n := length (np_after n)]> m end.
Definition initial_remaining (nodes : list WorkflowNodePlan) : gmap string nat := foldl add_remaining ∅ nodes.
(** One dependency of a candidate: [remaining] and [newly_satisfied]. *)
Definition satisfy (name candidate : string) (st : gmap string nat * bool) (dependency : string) : gmap string nat * bool :=
  if bool_decide (dependency = name)
  then (<[candidate := pred (default 0 (st.1 !! candidate))]> st.1, true) else st.
(** One candidate after the node [name] was executed. *)
Definition release_candidate (name : string) (executed : gset string)
    (st : gmap string nat * list WorkflowNodePlan) (candidate : WorkflowNodePlan) : gmap string nat * list WorkflowNodePlan :=
  if bool_decide (np_name candidate ∈ executed) then st
  else
    let '(remaining, newly_satisfied) := foldl (satisfy name (np_name candidate)) (st.1, false) (np_after candidate) in
    (remaining, if newly_satisfied && bool_decide (default 0 (remaining !! np_name candidate) = 0)
                then st.2 ++ [candidate] else st.2).
Definition release_candidates (name : string) (executed : gset string) (nodes : list WorkflowNodePlan)
    (remaining : gmap string nat) (ready : list WorkflowNodePlan) : gmap string nat * list WorkflowNodePlan :=
  foldl (release_candidate name executed) (remaining, ready) nodes.

(** ** The run *)
Definition trace_node (ms : CapabilityMockSet) (index : nat) (n : WorkflowNodePlan) : DryRunNodeTrace :=
  mkNodeTrace (np_name n) (np_target n) index (np_after n) (np_lifecycle n) (np_input_summary n)
    (np_capability_bindings n) (omap (find_mock_for_binding ms) (np_capability_bindings n)).
Fixpoint dry_run_loop (fuel : nat) (nodes : list WorkflowNodePlan) (ms : CapabilityMockSet)
    (remaining : gmap string nat) (ready : list WorkflowNodePlan) (executed : gset string)
    (order : list string) (traces : list DryRunNodeTrace)
    : cxx (gset string * list string * list DryRunNodeTrace) :=
  match ready with
  | [] => Ret (executed, order, traces)
  | node :: ready =>
      match fuel with
      | O => NoFuel
      | S fuel =>
          if bool_decide (np_name node ∈ executed)
          then dry_run_loop fuel nodes ms remaining ready executed order traces
          else
            let executed := {[np_name node]} ∪ executed in
            let '(remaining, ready) := release_candidates (np_name node) executed nodes remaining ready in
            dry_run_loop fuel nodes ms remaining ready executed (order ++ [np_name node])
              (traces ++ [trace_node ms (length traces) node])
      end
  end.
Definition run_local_dry_run (plan : ExecutionPlan) (request : DryRunRequest) (ms : CapabilityMockSet) : cxx DryRunResult :=
  plan_diagnostics ← validate_execution_plan plan;
  let d := append empty_bag plan_diagnostics in
  if has_error d then Ret (mkDryRunResult None d) else
  match find_workflow_plan plan (req_workflow_canonical_name request) with
  | None => Ret (mkDryRunResult None
      (emit_error ("local dry-run request workflow '" +:+ req_workflow_canonical_name request +:+
                   "' does not exist in execution plan") d))
  | Some workflow =>
      let d := validate_capability_mock_set ms workflow d in
      if has_error d then Ret (mkDryRunResult None d) else
      '(executed, order, traces) ← dry_run_loop (length (wp_nodes workflow)) (wp_nodes workflow) ms
        (initial_remaining (wp_nodes workflow)) (initial_ready_nodes (wp_nodes workflow)) ∅ [] [];
      if negb (bool_decide (size executed = length (wp_nodes workflow))) then
        Ret (mkDryRunResult None
          (emit_error ("local dry-run could not schedule all workflow nodes for '" +:+
                       wp_canonical_name workflow +:+ "'") d))
      else Ret (mkDryRunResult
        (Some (mkTrace kTraceFormatVersion (plan_format_version plan) (source_package_identity plan)
          (wp_canonical_name workflow) DryRunStatus.Completed (req_input_fixture request) (req_run_id request)
          order traces (wp_return_summary workflow))) d)
  end.
