(* ===== verification/Schedule.v ===== *)
(** * Scheduling follows the dependencies

    The release of candidates is one step of the cycle check of the plan's
    validation: the executed nodes always list the dependencies of a node
    before it, and all nodes are executed when the workflow is acyclic. *)
From S2P Require Import Prelude Diagnostics Checks Plan PlanProps DryRun.
Open Scope nat_scope.
Open Scope ahfl_scope.

Lemma NoDup_fmap_filter {A B} (f : A → B) (P : A → Prop) `{∀ x, Decision (P x)} l :
  NoDup (f <$> l) → NoDup (f <$> base.filter P l).
Proof.
  induction l as [|x l IH]; [done|]. rewrite fmap_cons, NoDup_cons, filter_cons. intros [Hx Hnd].
  destruct (decide (P x)); [|auto]. rewrite fmap_cons, NoDup_cons. split; [|auto].
  intros (y & Heq & [_ Hy]%list_elem_of_filter)%list_elem_of_fmap. apply Hx. rewrite Heq. by apply list_elem_of_fmap_2.
Qed.

(** ** The edges of the [after] lists *)
Definition after_edges (nodes : list WorkflowNodePlan) : list (string * string) :=
  nodes ≫= λ n, (λ d, (d, np_name n)) <$> np_after n.
Lemma after_edges_spec nodes u v :
  (u, v) ∈ after_edges nodes ↔ ∃ n, n ∈ nodes ∧ np_name n = v ∧ u ∈ np_after n.
Proof.
  unfold after_edges. rewrite list_elem_of_bind. split.
  - intros (n & Hu & Hn). apply list_elem_of_fmap in Hu as (d & [= -> ->] & Hd). by exists n.
  - intros (n & Hn & <- & Hu). exists n. split; [|done]. apply list_elem_of_fmap. by exists u.
Qed.
Lemma into_fmap l x y : into ((λ d, (d, y)) <$> l) x = if decide (y = x) then length l else 0.
Proof.
  induction l as [|d l IH]; [by case_decide|]. rewrite fmap_cons, into_cons, IH. cbn [snd length].
  by case_decide.
Qed.
Lemma into_fresh nodes x : x ∉ np_name <$> nodes → into (after_edges nodes) x = 0.
Proof.
  intros Hx. apply into_0. intros u (n & Hn & <- & _)%after_edges_spec. by apply Hx, list_elem_of_fmap_2.
Qed.
Lemma into_after nodes n : NoDup (np_name <$> nodes) → n ∈ nodes →
  into (after_edges nodes) (np_name n) = length (np_after n).
Proof.
  induction nodes as [|m nodes IH]; [by intros _ ?%elem_of_nil|]. rewrite fmap_cons, NoDup_cons.
  intros [Hm Hnd] Hn. unfold after_edges. cbn [mbind list_bind]. fold (after_edges nodes).
  rewrite into_app, into_fmap. apply elem_of_cons in Hn as [->|Hn].
  - rewrite decide_True by done. rewrite into_fresh by done. lia.
  - rewrite decide_False; [by apply IH|]. intros Heq. apply Hm. rewrite Heq. by apply list_elem_of_fmap_2.
Qed.
(** The nodes that [name] releases. *)
Definition released (name : string) (nodes : list WorkflowNodePlan) : list (string * string) :=
  (λ c, (name, np_name c)) <$> base.filter (λ c, name ∈ np_after c) nodes.
Lemma edges_out name nodes : (∀ n, n ∈ nodes → NoDup (np_after n)) →
  (λ v, (name, v)) <$> (base.filter (λ e, e.1 = name) (after_edges nodes)).*2 = released name nodes.
Proof.
  intros Hnd. unfold released. induction nodes as [|n nodes IH]; [done|].
  unfold after_edges. cbn [mbind list_bind]. fold (after_edges nodes). rewrite filter_app, !fmap_app, filter_cons.
  assert (Hone : (λ v, (name, v)) <$> (base.filter (λ e : string * string, e.1 = name) ((λ d, (d, np_name n)) <$> np_after n)).*2 =
    if decide (name ∈ np_after n) then [(name, np_name n)] else []).
  { specialize (Hnd n ltac:(left)). clear IH. induction Hnd as [|d l Hd _ IH]; [done|].
    rewrite fmap_cons, filter_cons. cbn [fst]. destruct (decide (d = name)) as [->|Hne].
    - rewrite decide_False in IH by done. rewrite !fmap_cons, IH. cbn [snd].
      by rewrite decide_True by left.
    - rewrite IH. destruct (decide (name ∈ l)) as [Hin|Hin].
      + by rewrite decide_True by by right.
      + rewrite decide_False; [done|]. rewrite elem_of_cons. naive_solver. }
  rewrite Hone, IH by (intros m Hm; apply Hnd; by right). by case_decide.
Qed.

(** ** The release of one candidate *)
Lemma satisfy_skip name c st l : name ∉ l → foldl (satisfy name c) st l = st.
Proof.
  revert st. induction l as [|d l IH]; intros st Hn; cbn [foldl]; [done|].
  rewrite elem_of_cons in Hn. unfold satisfy at 2. rewrite bool_decide_eq_false_2 by naive_solver. apply IH. naive_solver.
Qed.
Lemma satisfy_once name c rem l : NoDup l → name ∈ l →
  foldl (satisfy name c) (rem, false) l = (<[c := pred (default 0 (rem !! c))]> rem, true).
Proof.
  intros Hnd. induction Hnd as [|d l Hd Hnd IH]; [by intros ?%elem_of_nil|].
  intros Hin. cbn [foldl]. unfold satisfy at 2. cbn [fst snd]. case_bool_decide as Heq.
  - subst d. by apply satisfy_skip.
  - apply IH. apply elem_of_cons in Hin as [?|?]; [by subst|done].
Qed.

Section Scheduling.
Context (nodes : list WorkflowNodePlan).
Hypothesis (names_distinct : NoDup (np_name <$> nodes)).
Hypothesis (after_distinct : ∀ n, n ∈ nodes → NoDup (np_after n)).
Hypothesis (after_known : ∀ n d, n ∈ nodes → d ∈ np_after n → d ∈ np_name <$> nodes).
Let N : gset string := list_to_set (np_name <$> nodes).
Let E : list (string * string) := after_edges nodes.
(** The order [P] of the executed nodes, the queue and the counters. *)
Record scheduled (P : list string) (ready : list WorkflowNodePlan) (remaining : gmap string nat) : Prop := {
  scheduled_kahn : kahn N E P (np_name <$> ready) remaining (unreleased E P);
  scheduled_ready n : n ∈ ready → n ∈ nodes }.
Lemma edges_known u v : (u, v) ∈ E → u ∈ N ∧ v ∈ N.
Proof.
  intros (n & Hn & <- & Hu)%after_edges_spec. unfold N. rewrite !elem_of_list_to_set.
  split; [by apply (after_known n)|]. by apply list_elem_of_fmap_2.
Qed.
Lemma release_candidates_kahn name P R l remaining ready :
  (∀ c, c ∈ l → c ∈ nodes) → (∀ q, q ∈ ready → q ∈ nodes) →
  kahn N E P (np_name <$> ready) remaining (released name l ++ R) →
  ∃ remaining' ready', release_candidates name (list_to_set P) l remaining ready = (remaining', ready') ∧
    kahn N E P (np_name <$> ready') remaining' R ∧ ∀ q, q ∈ ready' → q ∈ nodes.
Proof.
  unfold release_candidates. revert remaining ready.
  induction l as [|c l IH]; intros remaining ready Hl Hq HK; [by exists remaining, ready|].
  cbn [foldl]. assert (Hc : c ∈ nodes) by (apply Hl; left).
  assert (Hl' : ∀ c, c ∈ l → c ∈ nodes) by (intros; apply Hl; by right).
  unfold released in HK. rewrite filter_cons in HK. unfold release_candidate at 2. cbn [fst snd].
  destruct (decide (name ∈ np_after c)) as [Hin|Hout].
  - rewrite fmap_cons in HK. cbn [app] in HK. fold (released name l) in HK.
    set (R1 := released name l ++ R) in *. set (v := np_name c) in *.
    assert (Hv : v ∈ N) by (unfold N; apply elem_of_list_to_set; by apply list_elem_of_fmap_2).
    assert (HvP : v ∉ P).
    { intros Hin'. destruct (proj1 (kahn_nodes _ _ _ _ _ _ HK v)) as [_ H0]; [apply elem_of_app; by left|].
      rewrite into_cons in H0. cbn [snd] in H0. rewrite decide_True in H0 by done. lia. }
    rewrite bool_decide_eq_false_2 by by rewrite elem_of_list_to_set.
    rewrite satisfy_once by auto. rewrite lookup_insert_eq. cbn [default from_option id].
    pose proof (kahn_incoming _ _ _ _ _ _ HK v Hv) as Hi. rewrite into_cons in Hi. cbn [snd] in Hi.
    rewrite decide_True in Hi by done. cbn [plus] in Hi. rewrite Hi. cbn [pred andb].
    destruct (release_edges N E edges_known P (np_name <$> ready) name [v] R1 remaining HK) as (i' & Q' & Hr & HK').
    { intros w ->%list_elem_of_singleton. done. }
    cbn [foldl] in Hr. unfold release_edge in Hr. cbn [fst snd] in Hr. rewrite Hi in Hr. injection Hr as <- <-.
    apply IH; [done| |].
    + case_bool_decide; [|done]. intros q [?|?%list_elem_of_singleton]%elem_of_app; [auto|by subst].
    + case_bool_decide; [|done]. by rewrite fmap_app.
  - fold (released name l) in HK. rewrite satisfy_skip by done. cbn [andb].
    case_bool_decide; by apply IH.
Qed.
Lemma scheduled_step P n ready remaining : scheduled P (n :: ready) remaining →
  np_name n ∉ P ∧ n ∈ nodes ∧ ∃ remaining' ready',
    release_candidates (np_name n) ({[np_name n]} ∪ list_to_set P) nodes remaining ready = (remaining', ready') ∧
    scheduled (P ++ [np_name n]) ready' remaining'.
Proof.
  intros [HK Hq]. rewrite fmap_cons in HK. assert (Hn : n ∈ nodes) by (apply Hq; left).
  assert (HnP : np_name n ∉ P).
  { pose proof (kahn_nodup _ _ _ _ _ _ HK) as Hnd. apply NoDup_app in Hnd as (_ & Hd & _).
    intros Hin. apply (Hd _ Hin). left. }
  split; [done|]. split; [done|].
  destruct (release_candidates_kahn (np_name n) (P ++ [np_name n]) (unreleased E (P ++ [np_name n])) nodes remaining ready)
    as (rem' & ready' & Hr & HK' & Hq'); [done|intros; apply Hq; by right| |].
  - rewrite <-edges_out by done. apply (kahn_perm _ _ _ _ _ (unreleased E P)); [by apply unreleased_step|].
    apply visit_node; [done..|].
    exact HK.
  - exists rem', ready'. split; [|done]. rewrite <-Hr. f_equal. apply set_eq. intros x.
    rewrite elem_of_union, elem_of_singleton, !elem_of_list_to_set, elem_of_app, list_elem_of_singleton. tauto.
Qed.
Lemma initial_remaining_spec n : n ∈ nodes → initial_remaining nodes !! np_name n = Some (length (np_after n)).
Proof.
  clear after_distinct after_known N E. intros Hn. unfold initial_remaining.
  assert (Hgen : ∀ l m, NoDup (np_name <$> l) → (∀ x, x ∈ l → m !! np_name x = None) →
    (∀ x, x ∈ l → foldl add_remaining m l !! np_name x = Some (length (np_after x))) ∧
    (∀ y k, m !! y = Some k → foldl add_remaining m l !! y = Some k)).
  { clear Hn n. induction l as [|a l IH]; intros m Hnd Hfree; cbn [foldl].
    - split; [by intros x ?%elem_of_nil|done].
    - rewrite fmap_cons, NoDup_cons in Hnd. destruct Hnd as [Ha Hnd]. unfold add_remaining at 2 4. rewrite (Hfree a) by left.
      destruct (IH (<[np_name a := length (np_after a)]> m) Hnd) as [H1 H2].
      { intros x Hx. rewrite lookup_insert_ne; [apply Hfree; by right|]. intros Heq. apply Ha. rewrite Heq.
        by apply list_elem_of_fmap_2. }
      split.
      + intros x [->|Hx]%elem_of_cons; [|by apply H1]. apply H2. by rewrite lookup_insert_eq.
      + intros y k Hy. apply H2. rewrite lookup_insert_ne; [done|]. intros <-. rewrite (Hfree a) in Hy by left. done. }
  destruct (Hgen nodes ∅ names_distinct) as [H _]; [intros; apply lookup_empty|]. by apply H.
Qed.
Lemma scheduled_initial : scheduled [] (initial_ready_nodes nodes) (initial_remaining nodes).
Proof.
  assert (Hun : unreleased E [] = E) by (apply filter_all; intros e _; apply not_elem_of_nil).
  assert (HE : ∀ n, n ∈ nodes → into E (np_name n) = length (np_after n)) by (intros; by apply into_after).
  split; [|by intros n [_ ?]%list_elem_of_filter]. rewrite Hun. unfold initial_ready_nodes. split.
  - cbn [app]. by apply NoDup_fmap_filter.
  - intros x. cbn [app]. unfold N. rewrite elem_of_list_to_set. split.
    + intros (n & -> & [Ha Hn]%list_elem_of_filter)%list_elem_of_fmap. split; [by apply list_elem_of_fmap_2|].
      by rewrite HE, Ha.
    + intros [(n & -> & Hn)%list_elem_of_fmap H0]. apply list_elem_of_fmap. exists n. split; [done|].
      apply list_elem_of_filter. split; [|done]. rewrite HE in H0 by done. by apply length_zero_iff_nil.
  - intros x. unfold N. rewrite elem_of_list_to_set. intros (n & -> & Hn)%list_elem_of_fmap.
    rewrite initial_remaining_spec, HE by done. done.
  - done.
Qed.
Lemma scheduled_end P remaining : scheduled P [] remaining →
  acyclic N (λ u v, (u, v) ∈ E) → topological N (λ u v, (u, v) ∈ E) P.
Proof.
  intros [HK _] Hac. apply (kahn_end N E P remaining HK) in Hac as Hlen. destruct HK as [H1 H2 H3 H4].
  cbn [fmap list_fmap] in *. rewrite app_nil_r in *. apply topological_full; [done|intros x Hx; by apply H2|done|done].
Qed.
(** Executed nodes are different nodes, each after its dependencies. *)
Lemma scheduled_prefix P ready remaining : scheduled P ready remaining →
  NoDup P ∧ (∀ x, x ∈ P → x ∈ np_name <$> nodes) ∧ length P + length ready ≤ length nodes ∧
  ∀ i u n, P !! i = Some (np_name n) → n ∈ nodes → u ∈ np_after n → u ∈ take i P.
Proof.
  intros [[H1 H2 H3 H4] Hq]. pose proof H1 as Hnd. apply NoDup_app in Hnd as (Hnd & _ & _). split_and!; [done| | |].
  - intros x Hx. destruct (proj1 (H2 x)) as [HxN _]; [apply elem_of_app; by left|].
    unfold N in HxN. by apply elem_of_list_to_set in HxN.
  - rewrite <-(length_fmap np_name ready), <-length_app, <-(length_fmap np_name nodes).
    apply submseteq_length, NoDup_submseteq; [done|]. intros x Hx. apply H2 in Hx as [Hx _]. unfold N in Hx.
    by apply elem_of_list_to_set in Hx.
  - intros i u n Hi Hn Hu. apply (H4 i u (np_name n) Hi). unfold E. apply after_edges_spec. by exists n.
Qed.
End Scheduling.
