(* ===== verification/DryRunProps.v ===== *)
(** * The dry run of a valid plan

    A dry run returns a trace exactly when the plan is well-formed, names the
    workflow, and the mocks fit it; the trace executes every node once, after
    its dependencies, and every capability binding has its mock. *)
From S2P Require Import Prelude Diagnostics Checks Plan PlanProps DryRun Schedule.
Open Scope nat_scope.
Open Scope ahfl_scope.

(** ** Mock sets *)
Record mocks_ok (ms : CapabilityMockSet) (w : WorkflowPlan) : Prop := {
  mk_version : mocks_format_version ms = kCapabilityMockSetFormatVersion;
  mk_selector m : m ∈ mocks ms → ambiguous m = false;
  mk_fixture m : m ∈ mocks ms → mock_result_fixture m ≠ "";
  mk_distinct : NoDup (mock_selector_key <$> mocks ms);
  mk_bound b : b ∈ bindings_of w → is_Some (find_mock_for_binding ms b);
  mk_used m : m ∈ mocks ms → ∃ b m', b ∈ bindings_of w ∧ find_mock_for_binding ms b = Some m' ∧
    mock_selector_key m' = mock_selector_key m }.
Lemma selector_nonempty m : ambiguous m = false → mock_selector_key m ≠ "".
Proof. unfold ambiguous, mock_selector_key. by destruct (mock_capability_name m), (mock_binding_key m). Qed.
Lemma selectors_foldl s l : (∀ m, m ∈ l → ambiguous m = false) →
  foldl insert_selector s l = foldl (λ s m, {[mock_selector_key m]} ∪ s) s l.
Proof.
  revert s. induction l as [|m l IH]; intros s Hl; cbn [foldl]; [done|].
  rewrite <-IH by (intros; apply Hl; by right). f_equal. unfold insert_selector, insert_name.
  rewrite (Hl m) by left. rewrite bool_decide_eq_false_2; [done|]. apply selector_nonempty, Hl. left.
Qed.
(** The loop over the mocks, shared by the dry run and the session. *)
Lemma mocks_seen (P : CapabilityMock → Prop) l :
  (∀ i m, l !! i = Some m → ambiguous m = false ∧ P m ∧ mock_selector_key m ∉ foldl insert_selector ∅ (take i l)) ↔
  (∀ m, m ∈ l → ambiguous m = false) ∧ (∀ m, m ∈ l → P m) ∧ NoDup (mock_selector_key <$> l).
Proof.
  rewrite <-(collected_NoDup mock_selector_key). split.
  - intros Hl. assert (Ha : ∀ m, m ∈ l → ambiguous m = false).
    { intros m [i Hi]%list_elem_of_lookup_1. by apply (Hl i). }
    split_and!; [done|intros m [i Hi]%list_elem_of_lookup_1; by apply (Hl i)|].
    intros i m Hi. destruct (Hl i m Hi) as (_ & _ & Hn). rewrite selectors_foldl in Hn; [done|].
    intros m' (j & Hj & _)%elem_of_take. apply Ha. by eapply list_elem_of_lookup_2.
  - intros (Ha & Hp & Hn) i m Hi. assert (Hm : m ∈ l) by by eapply list_elem_of_lookup_2. split_and!; [auto..|].
    rewrite selectors_foldl; [by apply Hn|]. intros m' (j & Hj & _)%elem_of_take. apply Ha.
    by eapply list_elem_of_lookup_2.
Qed.
Lemma used_elem ms l s x : x ∈ foldl (use_mock ms) s l ↔
  x ∈ s ∨ ∃ b m, b ∈ l ∧ find_mock_for_binding ms b = Some m ∧ mock_selector_key m = x.
Proof.
  revert s. induction l as [|b l IH]; intros s; cbn [foldl]; [set_solver|]. rewrite IH. unfold use_mock.
  destruct (find_mock_for_binding ms b) as [m|] eqn:E; set_unfold; naive_solver.
Qed.
Lemma mock_set_checks ms w : checks (validate_capability_mock_set ms w) (mocks_ok ms w).
Proof.
  unfold validate_capability_mock_set. eapply checks_iff.
  - apply checks_andthen; [apply checks_error_unless|]. apply checks_andthen.
    { apply (checks_each_from _ _ (λ seen m, ambiguous m = false ∧ mock_result_fixture m ≠ "" ∧ mock_selector_key m ∉ seen)).
      intros seen m. unfold validate_mock. destruct (ambiguous m) eqn:Ea.
      - eapply checks_iff; [apply checks_error_if|]. naive_solver.
      - eapply checks_iff; [apply checks_andthen; [apply checks_error_when|apply checks_error_if]|].
        rewrite bool_decide_eq_false_2 by by apply selector_nonempty. cbn [negb andb].
        rewrite bool_decide_eq_false. naive_solver. }
    apply checks_andthen.
    { apply (checks_each _ (λ b, is_Some (find_mock_for_binding ms b))). intros b. unfold validate_bound.
      eapply checks_iff; [apply checks_error_if|]. destruct (find_mock_for_binding ms b); cbn [has_value negb].
      - split; [by eexists|done].
      - split; [done|]. by intros [? ?]. }
    apply (checks_each _ (λ m, mock_selector_key m = "" ∨ mock_selector_key m ∈ foldl (use_mock ms) ∅ (bindings_of w))).
    intros m. eapply checks_iff; [apply checks_error_if|].
    rewrite andb_false_iff, !negb_false_iff, !bool_decide_eq_true. done.
  - rewrite mocks_seen. split.
    + intros (Hv & (Ha & Hf & Hd) & Hb & Hu). split; [done..|]. intros m Hm.
      destruct (Hu m Hm) as [He|Hin]; [by destruct (selector_nonempty m (Ha m Hm))|].
      apply used_elem in Hin. set_solver.
    + intros [Hv Ha Hf Hd Hb Hu]. split_and!; [done..|]. intros m Hm. right. apply used_elem. right.
      destruct (Hu m Hm) as (b & m' & ? & ? & ?). by exists b, m'.
Qed.

(** ** The loop *)
(** The traces of the executed nodes. *)
Definition traced (ms : CapabilityMockSet) (nodes : list WorkflowNodePlan) (order : list string)
    (traces : list DryRunNodeTrace) : Prop :=
  length traces = length order ∧
  ∀ i t, traces !! i = Some t → ∃ n, n ∈ nodes ∧ order !! i = Some (np_name n) ∧ t = trace_node ms i n.
Lemma traced_snoc ms nodes order traces n : traced ms nodes order traces → n ∈ nodes →
  traced ms nodes (order ++ [np_name n]) (traces ++ [trace_node ms (length traces) n]).
Proof.
  intros [Hlen Ht] Hn. split; [rewrite !length_app; cbn; lia|]. intros i t Hi.
  apply lookup_app_Some in Hi as [Hi|[Hge Hi]].
  - destruct (Ht i t Hi) as (n' & Hn' & Ho & ->). exists n'. split_and!; [done| |done]. by apply lookup_app_l_Some.
  - assert (i = length traces) as -> by (apply lookup_lt_Some in Hi; cbn in Hi; lia).
    rewrite Nat.sub_diag in Hi. injection Hi as <-. exists n. split_and!; [done| |done].
    rewrite Hlen. by rewrite lookup_app_r, Nat.sub_diag by lia.
Qed.
Section Loop.
Context (w : WorkflowPlan) (ms : CapabilityMockSet).
Hypothesis (wf : well_formed_workflow w).
Lemma after_distinct n : n ∈ wp_nodes w → NoDup (np_after n).
Proof. intros Hn. by destruct (wfw_nodes _ wf n Hn). Qed.
Lemma after_known n d : n ∈ wp_nodes w → d ∈ np_after n → d ∈ np_name <$> wp_nodes w.
Proof. intros Hn Hd. by apply (wfn_known _ _ (wfw_nodes _ wf n Hn)). Qed.
Definition step_of_workflow := scheduled_step (wp_nodes w) after_distinct after_known.
Lemma dry_run_loop_spec fuel remaining ready order traces :
  scheduled (wp_nodes w) order ready remaining → traced ms (wp_nodes w) order traces →
  length (wp_nodes w) ≤ length order + fuel →
  ∃ order' traces' remaining',
    dry_run_loop fuel (wp_nodes w) ms remaining ready (list_to_set order) order traces ⇓
      (list_to_set order', order', traces') ∧
    scheduled (wp_nodes w) order' [] remaining' ∧ traced ms (wp_nodes w) order' traces'.
Proof.
  revert remaining ready order traces. induction fuel as [|fuel IH]; intros remaining [|n ready] order traces HS HT Hf;
    cbn [dry_run_loop]; try (by exists order, traces, remaining).
  - exfalso. destruct (scheduled_prefix _ _ _ _ HS) as (_ & _ & Hlen & _). cbn in Hlen. lia.
  - destruct (step_of_workflow _ _ _ _ HS) as (Hn & Hin & rem' & ready' & Hr & HS').
    rewrite bool_decide_eq_false_2 by by rewrite elem_of_list_to_set. rewrite Hr.
    destruct (IH rem' ready' (order ++ [np_name n]) (traces ++ [trace_node ms (length traces) n]) HS')
      as (order' & traces' & rem2 & Hl & HS2 & HT2); [by apply traced_snoc|rewrite length_app; cbn; lia|].
    exists order', traces', rem2. split; [|done]. rewrite <-Hl. f_equal. apply set_eq. intros x.
    rewrite elem_of_union, elem_of_singleton, !elem_of_list_to_set, elem_of_app, list_elem_of_singleton. tauto.
Qed.
Lemma schedule_topological order remaining : scheduled (wp_nodes w) order [] remaining →
  topological (list_to_set (node_names w)) (depends w) order.
Proof.
  intros HS. assert (Hac : acyclic (list_to_set (node_names w)) (λ u v, (u, v) ∈ after_edges (wp_nodes w))).
  { apply (acyclic_iff _ (depends w)); [|apply wf]. intros u v. by rewrite after_edges_spec. }
  destruct (scheduled_end _ _ _ HS Hac) as [H1 H2 H3]. split; [done..|]. intros i u v Hi Hu.
  apply (H3 i u v Hi). by apply after_edges_spec.
Qed.
Lemma topological_length order : topological (list_to_set (node_names w)) (depends w) order →
  length order = length (wp_nodes w).
Proof.
  intros [H1 H2 _]. rewrite <-(length_fmap np_name). apply Permutation_length, NoDup_Permutation; [done|apply wf|].
  intros x. by rewrite H2, elem_of_list_to_set.
Qed.
End Loop.

(** ** The run *)
Record dry_trace (plan : ExecutionPlan) (request : DryRunRequest) (ms : CapabilityMockSet) (w : WorkflowPlan)
    (t : DryRunTrace) : Prop := {
  dt_order : topological (list_to_set (node_names w)) (depends w) (tr_execution_order t);
  dt_nodes : traced ms (wp_nodes w) (tr_execution_order t) (tr_node_traces t);
  dt_mocks n : n ∈ tr_node_traces t →
    Forall2 (λ b m, find_mock_for_binding ms b = Some m) (nt_capability_bindings n) (nt_mock_results n);
  dt_workflow : tr_workflow_canonical_name t = req_workflow_canonical_name request;
  dt_input : tr_input_fixture t = req_input_fixture request ∧ tr_run_id t = req_run_id request;
  dt_source : tr_source_execution_plan_format_version t = kExecutionPlanFormatVersion ∧
    tr_source_package_identity t = source_package_identity plan }.
Lemma find_workflow_plan_spec plan name w : find_workflow_plan plan name = Some w →
  w ∈ plan_workflows plan ∧ wp_canonical_name w = name.
Proof.
  unfold find_workflow_plan. intros H. assert (Hin : w ∈ base.filter (λ w, wp_canonical_name w = name) (plan_workflows plan)).
  { destruct (base.filter _ _); [done|]. injection H as ->. left. }
  by apply list_elem_of_filter in Hin as [? ?].
Qed.
Lemma bound_mocks ms l : (∀ b, b ∈ l → is_Some (find_mock_for_binding ms b)) →
  Forall2 (λ b m, find_mock_for_binding ms b = Some m) l (omap (find_mock_for_binding ms) l).
Proof.
  induction l as [|b l IH]; intros Hl; [constructor|]. destruct (Hl b) as [m Hm]; [left|]. cbn [omap list_omap].
  rewrite Hm. constructor; [done|]. apply IH. intros; apply Hl; by right.
Qed.
(** C32: a dry run always returns.  It returns a trace, and no error, exactly
    when the plan is well-formed, has the workflow and the mocks fit the
    workflow; then the trace lists all nodes in a topological order, with their
    data from the plan and a mock for each of their bindings. *)
Theorem run_local_dry_run_exact plan request ms : (∀ w, w ∈ plan_workflows plan → nul_free_names w) →
  ∃ r, run_local_dry_run plan request ms ⇓ r ∧
    match dr_trace r with
    | Some t => has_error (dr_diagnostics r) = false ∧ well_formed_plan plan ∧
        ∃ w, find_workflow_plan plan (req_workflow_canonical_name request) = Some w ∧ mocks_ok ms w ∧
             dry_trace plan request ms w t
    | None => has_error (dr_diagnostics r) = true ∧
        ¬ (well_formed_plan plan ∧
           ∃ w, find_workflow_plan plan (req_workflow_canonical_name request) = Some w ∧ mocks_ok ms w)
    end.
Proof.
  intros Hnul. unfold run_local_dry_run.
  destruct (plan_validated plan Hnul) as (d & Hd & Hiff). rewrite Hd. cbn [mbind cxx_bind].
  rewrite append_empty_l. destruct (has_error d) eqn:Ed.
  { eexists. split; [done|]. cbn [dr_trace dr_diagnostics]. split; [done|]. intros [Hw _]. apply Hiff in Hw. congruence. }
  assert (Hwf : well_formed_plan plan) by by apply Hiff.
  destruct (find_workflow_plan plan (req_workflow_canonical_name request)) as [w|] eqn:Ew.
  2:{ eexists. split; [done|]. cbn [dr_trace dr_diagnostics]. rewrite has_error_emit. split; [done|]. by intros (_ & w & ? & _). }
  destruct (find_workflow_plan_spec _ _ _ Ew) as [Hin Hname]. pose proof (wfp_workflows _ Hwf w Hin) as Hww.
  destruct (has_error (validate_capability_mock_set ms w d)) eqn:Em.
  { eexists. split; [done|]. cbn [dr_trace dr_diagnostics]. split; [done|]. intros (_ & w' & [= <-] & Hok).
    assert (has_error (validate_capability_mock_set ms w d) = false) by by apply mock_set_checks. congruence. }
  apply mock_set_checks in Em as Hok. destruct Hok as [_ Hok].
  destruct (dry_run_loop_spec w ms Hww (length (wp_nodes w)) (initial_remaining (wp_nodes w)) (initial_ready_nodes (wp_nodes w)) [] [])
    as (order & traces & rem & Hl & HS & HT).
  { apply scheduled_initial, Hww. }
  { by split. }
  { cbn. lia. }
  change (list_to_set [] : gset string) with (∅ : gset string) in Hl. rewrite Hl. cbn [mbind cxx_bind].
  pose proof (schedule_topological w Hww order rem HS) as Htop.
  rewrite size_list_to_set by apply Htop. rewrite (topological_length w Hww order Htop), bool_decide_eq_true_2 by done.
  eexists. split; [done|]. cbn [dr_trace dr_diagnostics]. split_and!; [done..|]. exists w. split_and!; [done..|]. split; cbn; try done.
  - intros t [i Hi]%list_elem_of_lookup_1. destruct HT as [_ HT]. destruct (HT i t Hi) as (n & Hn & _ & ->).
    cbn. apply bound_mocks. intros b Hb. apply (mk_bound _ _ Hok). unfold bindings_of. apply list_elem_of_bind. by exists n.
  - split; [apply Hwf|done].
Qed.

(** ** Example *)
Definition sample_mocks : CapabilityMockSet := mkMockSet kCapabilityMockSetFormatVersion [mkMock None (Some "http") "ok.json" None].
Definition sample_request : DryRunRequest := mkRequest "app::Main" "input.json" None.
Lemma run_local_dry_run_exact_witness :
  ∃ t d, run_local_dry_run sample_plan sample_request sample_mocks ⇓ mkDryRunResult (Some t) d ∧
    tr_execution_order t = ["fetch"; "score"] ∧
    topological (list_to_set (node_names sample_workflow)) (depends sample_workflow) (tr_execution_order t).
Proof.
  destruct (run_local_dry_run_exact sample_plan sample_request sample_mocks) as (r & Hr & Hm);
    [auto using sample_nul_free|].
  assert (Ht : match run_local_dry_run sample_plan sample_request sample_mocks with
    | Ret (mkDryRunResult (Some t) _) => tr_execution_order t = ["fetch"; "score"] | _ => False end) by by vm_compute.
  rewrite Hr in Ht. destruct r as [[t|] d]; [|destruct Ht]. exists t, d. split; [exact Hr|]. split; [exact Ht|].
  destruct Hm as (_ & _ & w & Hw & _ & Hd). change (find_workflow_plan _ _) with (Some sample_workflow) in Hw.
  apply (inj Some) in Hw. rewrite <-Hw in Hd. apply Hd.
Defined.
