(* ===== verification/MockJson.v ===== *)
(** * Reading capability mocks (src/pipeline/execution/dry_run/mock.cpp)

    The reader of the JSON document that holds the mocks of a dry run, and the
    theorem that what it accepts passes the checks of the runner on the mocks
    alone.  Reading stops at the first error: the readers return nothing then. *)
From S2P Require Import Prelude Diagnostics Checks Numeric Json JsonProps JsonRoundtrip JsonCorrect Plan DryRun DryRunProps.
Open Scope nat_scope.
Open Scope ahfl_scope.

Definition add_error (message : string) : checker := emit_error message.
Record CapabilityMockSetParseResult := mkParseResult {
  ps_mock_set : option CapabilityMockSet; ps_diagnostics : DiagnosticBag }.
(** [*value] for a child of a node. *)
Definition child (o : option JsonValue) : cxx JsonValue := match o with Some v => Ret v | None => UB end.
Fixpoint first_char_object (content : string) : bool :=
  match content with
  | EmptyString => false
  | String c content => if is_json_space c then first_char_object content else bool_decide (c = chr 123)
  end.
Definition starts_with_object (content : string) : bool := first_char_object content.
Definition read_string_field (field : JsonValue) (message : string) (d : DiagnosticBag)
    : option string * DiagnosticBag :=
  match as_string field with
  | Some value => (Some value, d)
  | None => (None, add_error message d)
  end.
(** A reader: a value, none after an early return, and the diagnostics. *)
Notation reading A := (cxx (option A * DiagnosticBag)).

(** The locals of [read_mock_object]. *)
Record MockFields := mkMockFields {
  mf_capability_name : option string; mf_binding_key : option string;
  mf_result_fixture : option string; mf_invocation_label : option string }.
Definition no_mock_fields : MockFields := mkMockFields None None None None.
(** The variable that a key is read into, with the message when it is no string. *)
Definition mock_field (key : string) : option (string * (option string → MockFields → MockFields)) :=
  if bool_decide (key = "capability_name") then Some ("capability mock field 'capability_name' must be a string",
    λ s f, mkMockFields s (mf_binding_key f) (mf_result_fixture f) (mf_invocation_label f))
  else if bool_decide (key = "binding_key") then Some ("capability mock field 'binding_key' must be a string",
    λ s f, mkMockFields (mf_capability_name f) s (mf_result_fixture f) (mf_invocation_label f))
  else if bool_decide (key = "result_fixture") then Some ("capability mock field 'result_fixture' must be a string",
    λ s f, mkMockFields (mf_capability_name f) (mf_binding_key f) s (mf_invocation_label f))
  else if bool_decide (key = "invocation_label") then Some ("capability mock field 'invocation_label' must be a string",
    λ s f, mkMockFields (mf_capability_name f) (mf_binding_key f) (mf_result_fixture f) s)
  else None.
Fixpoint read_mock_fields (fields : list (string * option JsonValue)) (f : MockFields) (d : DiagnosticBag)
    : reading MockFields :=
  match fields with
  | [] => Ret (Some f, d)
  | (key, value) :: fields =>
      match mock_field key with
      | None => Ret (None, add_error ("unsupported capability mock field 'mocks[]." +:+ key +:+ "'") d)
      | Some (message, set_field) =>
          v ← child value;
          let '(s, d) := read_string_field v message d in
          if has_error d then Ret (None, d) else read_mock_fields fields (set_field s f) d
      end
  end.
Definition read_mock_object (object : JsonValue) (d : DiagnosticBag) : reading CapabilityMock :=
  if negb (bool_decide (kind object = JsonKind.Object)) then
    Ret (None, add_error "capability mock set field 'mocks[]' must be an object" d)
  else
    '(o, d) ← read_mock_fields (object_fields object) no_mock_fields d;
    match o with
    | None => Ret (None, d)
    | Some f =>
        match mf_result_fixture f with
        | None => Ret (None, add_error "capability mock is missing required field 'result_fixture'" d)
        | Some fixture => Ret (Some (mkMock (mf_capability_name f) (mf_binding_key f) fixture (mf_invocation_label f)), d)
        end
    end.
Fixpoint read_mock_items (items : list (option JsonValue)) (ms : list CapabilityMock) (d : DiagnosticBag)
    : reading (list CapabilityMock) :=
  match items with
  | [] => Ret (Some ms, d)
  | item :: items =>
      v ← child item;
      '(o, d) ← read_mock_object v d;
      match o with
      | None => Ret (None, d)
      | Some m => read_mock_items items (ms ++ [m]) d
      end
  end.
Definition read_mock_array (array : JsonValue) (ms : list CapabilityMock) (d : DiagnosticBag)
    : reading (list CapabilityMock) :=
  if negb (bool_decide (kind array = JsonKind.Array)) then
    Ret (None, add_error "capability mock set field 'mocks' must be an array" d)
  else read_mock_items (array_items array) ms d.
(** The loop of [parse]: [format_version] and [mocks] are its locals. *)
Fixpoint read_set_fields (fields : list (string * option JsonValue)) (version : option string)
    (ms : list CapabilityMock) (d : DiagnosticBag) : reading (option string * list CapabilityMock) :=
  match fields with
  | [] => Ret (Some (version, ms), d)
  | (key, value) :: fields =>
      if bool_decide (key = "format_version") then
        v ← child value;
        let '(s, d) := read_string_field v "capability mock set field 'format_version' must be a string" d in
        if has_error d then Ret (None, d) else read_set_fields fields s ms d
      else if bool_decide (key = "mocks") then
        v ← child value;
        '(o, d) ← read_mock_array v ms d;
        match o with
        | None => Ret (None, d)
        | Some ms => if has_error d then Ret (None, d) else read_set_fields fields version ms d
        end
      else Ret (None, add_error ("unsupported capability mock set field '" +:+ key +:+ "'") d)
  end.
Definition read_mock_semantics (selectors : gset string) (m : CapabilityMock) : checker :=
  if ambiguous m then
    error_if true "capability mock must specify exactly one of 'capability_name' or 'binding_key'"
  else
    error_if (bool_decide (mock_capability_name m = Some "")) "capability mock field 'capability_name' must not be empty" &>
    error_if (bool_decide (mock_binding_key m = Some "")) "capability mock field 'binding_key' must not be empty" &>
    error_if (bool_decide (mock_result_fixture m = "")) "capability mock field 'result_fixture' must not be empty" &>
    error_if (bool_decide (mock_selector_key m ∈ selectors))
      ("capability mock set contains duplicate mock selector '" +:+ mock_selector_key m +:+ "'").
Definition validate_mock_semantics (ms : list CapabilityMock) : checker :=
  each_from insert_selector read_mock_semantics ∅ ms.
Definition parse_mock_set (root : JsonValue) (d : DiagnosticBag) : reading CapabilityMockSet :=
  if negb (bool_decide (kind root = JsonKind.Object)) then
    Ret (None, add_error "capability mock set must begin with '{'" d)
  else
    '(o, d) ← read_set_fields (object_fields root) None [] d;
    match o with
    | None => Ret (None, d)
    | Some (None, _) => Ret (None, add_error "capability mock set is missing required field 'format_version'" d)
    | Some (Some version, ms) =>
        if has_error d then Ret (None, d)
        else if negb (bool_decide (version = kCapabilityMockSetFormatVersion)) then
          Ret (None, add_error ("unsupported capability mock set format_version '" +:+ version +:+ "'") d)
        else
          let d := validate_mock_semantics ms d in
          if has_error d then Ret (None, d) else Ret (Some (mkMockSet version ms), d)
    end.
Definition parse_capability_mock_set_json (content : string) : cxx CapabilityMockSetParseResult :=
  root ← parse_json content;
  match root with
  | None => Ret (mkParseResult None (add_error
      (if starts_with_object content then "capability mock set must be valid JSON"
       else "capability mock set must begin with '{'") empty_bag))
  | Some root =>
      '(o, d) ← parse_mock_set root empty_bag;
      Ret (mkParseResult o d)
  end.

(** ** What is accepted *)
Record readable (ms : CapabilityMockSet) : Prop := {
  rd_version : mocks_format_version ms = kCapabilityMockSetFormatVersion;
  rd_selector m : m ∈ mocks ms → ambiguous m = false;
  rd_named m : m ∈ mocks ms → mock_capability_name m ≠ Some "" ∧ mock_binding_key m ≠ Some "" ∧ mock_result_fixture m ≠ "";
  rd_distinct : NoDup (mock_selector_key <$> mocks ms) }.
(** The document that spells a mock set: absent members are left out. *)
Definition string_member (key : string) (o : option string) : list (string * Json) :=
  match o with Some s => [(key, JString s)] | None => [] end.
Definition mock_content (m : CapabilityMock) : Json :=
  JObject (string_member "capability_name" (mock_capability_name m) ++ string_member "binding_key" (mock_binding_key m) ++
           [("result_fixture", JString (mock_result_fixture m))] ++ string_member "invocation_label" (mock_invocation_label m)).
Definition mock_set_content (ms : CapabilityMockSet) : Json :=
  JObject [("format_version", JString (mocks_format_version ms)); ("mocks", JArray (mock_content <$> mocks ms))].

(** A reader that starts without errors: it returns a value, or an error. *)
Definition reads {A} (P : A → Prop) (r : reading A) : Prop :=
  ∃ o d, r ⇓ (o, d) ∧ match o with Some a => has_error d = false ∧ P a | None => has_error d = true end.
Lemma reads_value {A} (P : A → Prop) a d : has_error d = false → P a → reads P (Ret (Some a, d)).
Proof. intros Hd HP. by exists (Some a), d. Qed.
Lemma reads_error {A} (P : A → Prop) message d : reads P (Ret (None, add_error message d)).
Proof. exists None. eexists. split; [done|]. apply has_error_emit. Qed.
Lemma reads_nothing {A} (P : A → Prop) d : has_error d = true → reads P (Ret (None, d)).
Proof. intros Hd. by exists None, d. Qed.
Lemma reads_bind {A B} (P : A → Prop) (Q : B → Prop) (r : reading A) (k : option A → DiagnosticBag → reading B) :
  reads P r → (∀ a d, has_error d = false → P a → reads Q (k (Some a) d)) →
  (∀ d, has_error d = true → reads Q (k None d)) → reads Q ('(o, d) ← r; k o d).
Proof. intros (o & d & -> & Ho) Hs Hn. cbn [mbind cxx_bind]. destruct o as [a|]; [destruct Ho; by apply Hs|by apply Hn]. Qed.
Definition fields_good (fields : list (string * option JsonValue)) : Prop :=
  Forall (λ f, ∃ v j, f.2 = Some v ∧ content v = Some j) fields.
Lemma fields_of_content v j : content v = Some j → kind v = JsonKind.Object → fields_good (object_fields v).
Proof.
  intros Hc Hk. rewrite content_object in Hc by done. apply fmap_Some in Hc as (js & Hc & _).
  apply mapM_Some in Hc. unfold fields_good. clear Hk. induction Hc as [|[k o] j' l js' H _ IH]; [constructor|].
  constructor; [|done]. unfold field_content, item_content in H. cbn in *. destruct o as [w|]; [|done]. cbn in H.
  destruct (content w) as [jw|] eqn:E; [|done]. by exists w, jw.
Qed.
Lemma read_mock_fields_reads fields f d : fields_good fields → has_error d = false →
  reads (λ _, True) (read_mock_fields fields f d).
Proof.
  intros Hc. revert f d. induction Hc as [|[key value] fields (v & jv & Hv & _) _ IH]; intros f d Hd; cbn [read_mock_fields].
  - by apply reads_value.
  - destruct (mock_field key) as [[message set_field]|]; [|apply reads_error]. cbn in Hv. subst value.
    cbn [child mbind cxx_bind]. unfold read_string_field. destruct (as_string v) as [s|].
    + rewrite Hd. by apply IH.
    + unfold add_error. rewrite has_error_emit. apply reads_nothing, has_error_emit.
Qed.
Definition items_good (items : list (option JsonValue)) : Prop := Forall (λ o, ∃ v j, o = Some v ∧ content v = Some j) items.
Lemma items_of_content v j : content v = Some j → kind v = JsonKind.Array → items_good (array_items v).
Proof.
  intros Hc Hk. rewrite content_array in Hc by done. apply fmap_Some in Hc as (js & Hc & _).
  apply mapM_Some in Hc. unfold items_good. clear Hk. induction Hc as [|o j' l js' H _ IH]; [constructor|].
  constructor; [|done]. unfold item_content in H. destruct o as [v'|]; [|done]. cbn in H. by exists v', j'.
Qed.
Lemma read_mock_object_reads v j d : content v = Some j → has_error d = false → reads (λ _, True) (read_mock_object v d).
Proof.
  intros Hc Hd. unfold read_mock_object. case_bool_decide as Hk; cbn [negb]; [|apply reads_error].
  eapply reads_bind; [apply read_mock_fields_reads; [exact (fields_of_content v j Hc Hk)|done]| |intros; by apply reads_nothing].
  intros f d' Hd' _. destruct (mf_result_fixture f); [by apply reads_value|apply reads_error].
Qed.
Lemma read_mock_array_reads v j ms d : content v = Some j → has_error d = false → reads (λ _, True) (read_mock_array v ms d).
Proof.
  intros Hc Hd. unfold read_mock_array. case_bool_decide as Hk; cbn [negb]; [|apply reads_error].
  pose proof (items_of_content v j Hc Hk) as Hi. clear Hc Hk. revert ms d Hd.
  induction Hi as [|o items (w & jw & -> & Hw) _ IH]; intros ms d Hd; cbn [read_mock_items]; [by apply reads_value|].
  cbn [child mbind cxx_bind]. eapply reads_bind; [exact (read_mock_object_reads w jw d Hw Hd)| |intros; by apply reads_nothing].
  intros m d' Hd' _. by apply IH.
Qed.
Lemma read_set_fields_reads fields version ms d : fields_good fields → has_error d = false →
  reads (λ _, True) (read_set_fields fields version ms d).
Proof.
  intros Hc. revert version ms d.
  induction Hc as [|[key value] fields (v & j & Hv & Hj) _ IH]; intros version ms d Hd; cbn [read_set_fields].
  - by apply reads_value.
  - cbn in Hv. subst value. case_bool_decide; [|case_bool_decide; [|apply reads_error]]; cbn [child mbind cxx_bind].
    + unfold read_string_field. destruct (as_string v) as [s|].
      * rewrite Hd. by apply IH.
      * unfold add_error. rewrite has_error_emit. apply reads_nothing, has_error_emit.
    + eapply reads_bind; [exact (read_mock_array_reads v j ms d Hj Hd)| |intros; by apply reads_nothing].
      intros ms' d' Hd' _. rewrite Hd'. by apply IH.
Qed.
Lemma mock_semantics_checks version ms : version = kCapabilityMockSetFormatVersion →
  checks (validate_mock_semantics ms) (readable (mkMockSet version ms)).
Proof.
  intros Hv. eapply checks_iff.
  - apply (checks_each_from _ _ (λ seen m, ambiguous m = false ∧
      (mock_capability_name m ≠ Some "" ∧ mock_binding_key m ≠ Some "" ∧ mock_result_fixture m ≠ "") ∧
      mock_selector_key m ∉ seen)).
    intros seen m. unfold read_mock_semantics. destruct (ambiguous m).
    + eapply checks_iff; [apply checks_error_if|]. naive_solver.
    + eapply checks_iff; [repeat apply checks_andthen; apply checks_error_when|]. naive_solver.
  - rewrite mocks_seen. split; [intros (?&?&?); by split|]. intros []. done.
Qed.
(** the reader returns for every text: with a mock set and no error, or
    with an error and no mock set.  A mock set it returns has the version that
    the runner asks for, mocks that each select by exactly one nonempty member,
    and different selectors. *)
Theorem parse_capability_mock_set_json_total text :
  ∃ r, parse_capability_mock_set_json text ⇓ r ∧
    match ps_mock_set r with
    | Some ms => has_error (ps_diagnostics r) = false ∧ readable ms
    | None => has_error (ps_diagnostics r) = true
    end.
Proof.
  unfold parse_capability_mock_set_json. destruct (parse_json_good text) as (o & -> & Hgood). cbn [mbind cxx_bind].
  destruct o as [root|]; [|by eexists]. destruct (Hgood root eq_refl) as (j & Hj & _).
  assert (Hr : reads readable (parse_mock_set root empty_bag)).
  { unfold parse_mock_set. case_bool_decide as Hk; cbn [negb]; [|apply reads_error].
    eapply reads_bind; [apply read_set_fields_reads; [exact (fields_of_content root j Hj Hk)|apply has_error_empty]| |intros; by apply reads_nothing].
    intros [version ms] d Hd _. destruct version as [version|]; [|apply reads_error]. rewrite Hd.
    case_bool_decide as Hv; cbn [negb]; [|apply reads_error].
    pose proof (mock_semantics_checks version ms Hv d) as Hs. destruct (has_error (validate_mock_semantics ms d)) eqn:E.
    - by apply reads_nothing.
    - apply reads_value; [done|]. by apply Hs. }
  destruct Hr as (o & d & -> & Ho). eexists. split; [done|]. done.
Qed.

(** ** What is read *)
Lemma content_string v s : content v = Some (JString s) → as_string v = Some s.
Proof.
  destruct v as [[] ? ? ? ? ? ? items fields]; try done.
  - by intros [= ->].
  - rewrite content_array by done. by destruct (mapM _ _).
  - rewrite content_object by done. by destruct (mapM _ _).
Qed.
Lemma kind_of_content v j : content v = Some j →
  match j with JArray _ => kind v = JsonKind.Array | JObject _ => kind v = JsonKind.Object | _ => True end.
Proof.
  destruct v as [[] ? ? ? ? ? ? items fields]; try (by intros [= <-]).
  - rewrite content_array by done. destruct (mapM _ _); [by intros [= <-]|done].
  - rewrite content_object by done. destruct (mapM _ _); [by intros [= <-]|done].
Qed.
(** The children of a node, by their contents. *)
Definition spells (f : string * option JsonValue) (j : string * Json) : Prop :=
  ∃ v, f = (j.1, Some v) ∧ content v = Some j.2.
Lemma content_object_fields v js : content v = Some (JObject js) →
  kind v = JsonKind.Object ∧ Forall2 spells (object_fields v) js.
Proof.
  intros Hc. pose proof (kind_of_content v _ Hc) as Hk. split; [done|]. rewrite content_object in Hc by done.
  apply fmap_Some in Hc as (js' & Hc & [= <-]). apply mapM_Some in Hc. clear Hk.
  induction Hc as [|[k o] j l js' H _ IH]; constructor; [|done]. unfold field_content, item_content in H. cbn in H.
  destruct o as [w|]; [|done]. cbn in H. destruct (content w) as [jw|] eqn:E; [|done]. injection H as <-. by exists w.
Qed.
Lemma content_array_items v js : content v = Some (JArray js) →
  kind v = JsonKind.Array ∧ Forall2 (λ o j, ∃ w, o = Some w ∧ content w = Some j) (array_items v) js.
Proof.
  intros Hc. pose proof (kind_of_content v _ Hc) as Hk. split; [done|]. rewrite content_array in Hc by done.
  apply fmap_Some in Hc as (js' & Hc & [= <-]). apply mapM_Some in Hc. clear Hk.
  induction Hc as [|o j l js' H _ IH]; constructor; [|done]. unfold item_content in H.
  destruct o as [w|]; [|done]. by exists w.
Qed.
(** The members of a mock that its document has. *)
Fixpoint spelled_fields (js : list (string * Json)) (f : MockFields) : option MockFields :=
  match js with
  | [] => Some f
  | (key, JString s) :: js =>
      match mock_field key with Some (_, set_field) => spelled_fields js (set_field (Some s) f) | None => None end
  | _ => None
  end.
Lemma read_mock_fields_spelled fields js f f' d : Forall2 spells fields js → has_error d = false →
  spelled_fields js f = Some f' → read_mock_fields fields f d ⇓ (Some f', d).
Proof.
  intros Hs Hd. revert f. induction Hs as [|x [key j] fields js (v & -> & Hv) _ IH]; intros f Hf; cbn in Hf.
  - by injection Hf as ->.
  - cbn [read_mock_fields fst]. destruct j; try done. destruct (mock_field key) as [[message set_field]|]; [|done].
    cbn [child mbind cxx_bind]. unfold read_string_field. rewrite (content_string v _ Hv), Hd. by apply IH.
Qed.
Lemma read_mock_object_spelled v m d : content v = Some (mock_content m) → has_error d = false →
  read_mock_object v d ⇓ (Some m, d).
Proof.
  intros (Hk & Hs)%content_object_fields Hd. unfold read_mock_object. rewrite bool_decide_eq_true_2 by done. cbn [negb].
  rewrite (read_mock_fields_spelled _ _ no_mock_fields
    (mkMockFields (mock_capability_name m) (mock_binding_key m) (Some (mock_result_fixture m)) (mock_invocation_label m)) d Hs Hd).
  - by destruct m.
  - by destruct m as [[] [] ? []].
Qed.
Lemma read_mock_array_spelled v l ms d : content v = Some (JArray (mock_content <$> l)) → has_error d = false →
  read_mock_array v ms d ⇓ (Some (ms ++ l), d).
Proof.
  intros (Hk & Hs)%content_array_items Hd. unfold read_mock_array. rewrite bool_decide_eq_true_2 by done. cbn [negb].
  clear Hk. revert ms Hs. generalize (array_items v). induction l as [|m l IH]; intros items ms Hs.
  - inversion Hs. cbn. by rewrite app_nil_r.
  - rewrite fmap_cons in Hs. inversion Hs as [|o j items' js (w & -> & Hw) Hs']; subst. cbn [read_mock_items child mbind cxx_bind].
    rewrite (read_mock_object_spelled w m d Hw Hd). cbn [mbind cxx_bind]. rewrite (IH _ _ Hs').
    by rewrite <-app_assoc.
Qed.
(** The reader accepts every mock set that it may return, and reads it
    back: a text that spells a readable mock set is read as that mock set. *)
Theorem parse_capability_mock_set_json_reads text v ms :
  parse_json text ⇓ Some v → content v = Some (mock_set_content ms) → readable ms →
  ∃ d, parse_capability_mock_set_json text ⇓ mkParseResult (Some ms) d ∧ has_error d = false.
Proof.
  intros Hp (Hk & Hs)%content_object_fields Hr. unfold parse_capability_mock_set_json, parse_mock_set.
  rewrite Hp. cbn [mbind cxx_bind]. rewrite bool_decide_eq_true_2 by done. cbn [negb].
  inversion Hs as [|f1 j1 l1 js1 (v1 & -> & Hv1) Hs1 E1]; subst.
  inversion Hs1 as [|f2 j2 l2 js2 (v2 & -> & Hv2) Hs2 E2]; subst. inversion Hs2; subst.
  cbn in Hv1, Hv2. cbn [read_set_fields fst]. rewrite bool_decide_eq_true_2 by done. cbn [child mbind cxx_bind].
  unfold read_string_field. rewrite (content_string v1 _ Hv1), has_error_empty. cbn [read_set_fields].
  rewrite bool_decide_eq_false_2, bool_decide_eq_true_2 by done. cbn [child mbind cxx_bind].
  rewrite (read_mock_array_spelled v2 _ [] empty_bag Hv2 has_error_empty). cbn [mbind cxx_bind].
  rewrite has_error_empty. cbn [app read_set_fields mbind cxx_bind]. rewrite has_error_empty.
  rewrite bool_decide_eq_true_2 by apply Hr. cbn [negb].
  assert (Hok : has_error (validate_mock_semantics (mocks ms) empty_bag) = false).
  { apply (mock_semantics_checks (mocks_format_version ms)); [apply Hr|]. split; [done|]. by destruct ms. }
  rewrite Hok. exists (validate_mock_semantics (mocks ms) empty_bag). split; [|done]. by destruct ms.
Qed.
(** A text with single quotes for the double ones. *)
Fixpoint double_quoted (s : string) : string :=
  match s with
  | EmptyString => EmptyString
  | String c s => String (if bool_decide (c = chr 39) then quote else c) (double_quoted s)
  end.
Definition sample_mocks_text : string := double_quoted
  "{'format_version': 'ahfl.capability-mocks.v0.6', 'mocks': [{'binding_key': 'http', 'result_fixture': 'ok.json'}]}".
Lemma sample_mocks_readable : readable sample_mocks.
Proof.
  split; [done|..].
  - by intros m ->%list_elem_of_singleton.
  - by intros m ->%list_elem_of_singleton.
  - cbn. apply NoDup_singleton.
Qed.
Lemma parse_capability_mock_set_json_reads_witness :
  ∃ d, parse_capability_mock_set_json sample_mocks_text ⇓ mkParseResult (Some sample_mocks) d ∧ has_error d = false.
Proof.
  assert (Hp : match parse_json sample_mocks_text with
    | Ret (Some v) => content v = Some (mock_set_content sample_mocks) | _ => False end) by by vm_compute.
  destruct (parse_json sample_mocks_text) as [[v|]| |] eqn:E; [|destruct Hp..].
  exact (parse_capability_mock_set_json_reads sample_mocks_text v sample_mocks E Hp sample_mocks_readable).
Defined.
