(* ===== verification/Session.v ===== *)
(** * Runtime sessions (src/pipeline/execution/runtime_session/session.{hpp,cpp})

    [build_runtime_session] runs the nodes of a workflow in dependency order,
    stops at a failing or pending mock, and validates what it has built.  The
    lookups and the release of waiting nodes repeat the dry run's and are its
    definitions here. *)
From S2P Require Import Prelude Diagnostics Checks Numeric Plan DryRun.
Open Scope nat_scope.
Open Scope ahfl_scope.

Definition kRuntimeSessionFormatVersion : string := "ahfl.runtime-session.v2".
Module WorkflowSessionStatus.
Inductive t := Completed | Failed | Partial.
End WorkflowSessionStatus.
#[export] Instance WorkflowSessionStatus_eq_dec : EqDecision WorkflowSessionStatus.t.
Proof. solve_decision. Defined.
Module NodeSessionStatus.
Inductive t := Blocked | Ready | Completed | Failed | Skipped.
End NodeSessionStatus.
#[export] Instance NodeSessionStatus_eq_dec : EqDecision NodeSessionStatus.t.
Proof. solve_decision. Defined.
Module RuntimeFailureKind.
Inductive t := MockMissing | NodeFailed | WorkflowFailed.
End RuntimeFailureKind.
#[export] Instance RuntimeFailureKind_eq_dec : EqDecision RuntimeFailureKind.t.
Proof. solve_decision. Defined.
Record RuntimeFailureSummary := mkFailure {
  fs_kind : RuntimeFailureKind.t; fs_node_name : option string; fs_message : string }.
#[export] Instance RuntimeFailureSummary_eq_dec : EqDecision RuntimeFailureSummary.
Proof. solve_decision. Defined.
Record RuntimeSessionOptions := mkSessionOptions { sequential_mode : bool }.
Record RuntimeSessionMockUsage := mkUsage {
  mu_selector : string; mu_capability_name : option string; mu_binding_key : option string;
  mu_result_fixture : string; mu_invocation_label : option string }.
Record RuntimeSessionNode := mkSessionNode {
  sn_node_name : string;
  sn_target : string;
  sn_status : NodeSessionStatus.t;
  sn_execution_index : nat;
  sn_failure_summary : option RuntimeFailureSummary;
  sn_satisfied_dependencies : list string;
  sn_lifecycle : WorkflowNodeLifecycleSummary;
  sn_input_summary : WorkflowValueSummary;
  sn_capability_bindings : list CapabilityBindingReference;
  sn_used_mocks : list RuntimeSessionMockUsage }.
Record RuntimeSession := mkSession {
  rs_format_version : string;
  rs_source_execution_plan_format_version : string;
  rs_source_package_identity : option PackageIdentity;
  rs_workflow_canonical_name : string;
  rs_session_id : string;
  rs_run_id : option string;
  rs_workflow_status : WorkflowSessionStatus.t;
  rs_failure_summary : option RuntimeFailureSummary;
  rs_input_fixture : string;
  rs_options : RuntimeSessionOptions;
  rs_execution_order : list string;
  rs_nodes : list RuntimeSessionNode;
  rs_return_summary : WorkflowValueSummary }.
Record RuntimeSessionResult := mkSessionResult {
  sr_session : option RuntimeSession; sr_diagnostics : DiagnosticBag }.

(** ** Failure summaries (src/pipeline/validation/common.hpp) *)
Definition scoped_message (scope message : string) : string :=
  if bool_decide (scope = "") then message else scope +:+ " " +:+ message.
Definition validate_failure_summary_owner (summary : RuntimeFailureSummary) (owner_name scope : string) : checker :=
  error_code_if (bool_decide (fs_message summary = ""))
    (scoped_message scope (owner_name +:+ " contains failure summary with empty message"))
    "validation.FAILURE_SUMMARY_EMPTY_MESSAGE" &>
  error_code_if (bool_decide (fs_node_name summary = Some ""))
    (scoped_message scope (owner_name +:+ " contains failure summary with empty node_name"))
    "validation.FAILURE_SUMMARY_EMPTY_NODE_NAME".
Definition package_identity_equals (lhs rhs : option PackageIdentity) : bool := bool_decide (lhs = rhs).
Definition failure_summary_equals (lhs rhs : option RuntimeFailureSummary) : bool := bool_decide (lhs = rhs).

(** ** Mock usages *)
Definition workflow_references_mock_selector (w : WorkflowPlan) (m : CapabilityMock) : bool :=
  existsb (λ b, bool_decide (mock_binding_key m = Some (binding_key b)) ||
                bool_decide (mock_capability_name m = Some (binding_capability_name b))) (bindings_of w).
Definition make_mock_usage (m : CapabilityMock) : RuntimeSessionMockUsage :=
  mkUsage (mock_selector_key m) (mock_capability_name m) (mock_binding_key m) (mock_result_fixture m)
    (mock_invocation_label m).
Definition is_binding_selector (u : RuntimeSessionMockUsage) : bool :=
  match mu_binding_key u with Some key => bool_decide (mu_selector u = "binding:" +:+ key) | None => false end.
Definition is_capability_selector (u : RuntimeSessionMockUsage) : bool :=
  match mu_capability_name u with Some name => bool_decide (mu_selector u = "capability:" +:+ name) | None => false end.
Definition mock_usage_matches_binding (u : RuntimeSessionMockUsage) (b : CapabilityBindingReference) : bool :=
  if is_binding_selector u then bool_decide (mu_binding_key u = Some (binding_key b))
  else if is_capability_selector u then bool_decide (mu_capability_name u = Some (binding_capability_name b))
  else false.
Definition node_status_is_executed (s : NodeSessionStatus.t) : bool :=
  match s with NodeSessionStatus.Completed | NodeSessionStatus.Failed => true | _ => false end.
Definition workflow_status_is_terminal (s : WorkflowSessionStatus.t) : bool :=
  match s with WorkflowSessionStatus.Completed | WorkflowSessionStatus.Failed => true | _ => false end.
Fixpoint ends_with (suffix s : string) : bool :=
  bool_decide (s = suffix) || match s with EmptyString => false | String _ s => ends_with suffix s end.
Definition mock_result_fixture_requests_failure (fixture : string) : bool :=
  ends_with ".fail" fixture || ends_with ".failed" fixture.
Definition mock_result_fixture_requests_partial (fixture : string) : bool :=
  ends_with ".pending" fixture || ends_with ".partial" fixture.
Definition validate_session_mock (w : WorkflowPlan) (seen : gset string) (m : CapabilityMock) : checker :=
  if ambiguous m then error_if true
    "runtime session capability mock must specify exactly one of 'capability_name' or 'binding_key'"
  else
    error_if (bool_decide (mock_result_fixture m = ""))
      "runtime session capability mock result_fixture must not be empty" &>
    error_if (negb (bool_decide (mock_selector_key m = "")) && bool_decide (mock_selector_key m ∈ seen))
      ("runtime session capability mock set contains duplicate mock selector '" +:+ mock_selector_key m +:+ "'") &>
    error_if (negb (workflow_references_mock_selector w m))
      ("runtime session capability mock set contains unused mock selector '" +:+ mock_selector_key m +:+ "'").
Definition validate_session_mock_set (ms : CapabilityMockSet) (w : WorkflowPlan) : checker :=
  error_if (negb (bool_decide (mocks_format_version ms = kCapabilityMockSetFormatVersion)))
    ("runtime session encountered unsupported capability mock set format_version '" +:+ mocks_format_version ms +:+ "'") &>
  each_from insert_selector (validate_session_mock w) ∅ (mocks ms).
Definition default_session_id (request : DryRunRequest) : string :=
  match req_run_id request with
  | Some id => id
  | None => "runtime-session:" +:+ req_workflow_canonical_name request
  end.

(** ** Validation of a node *)
Definition session_says (msg : string) : string := "runtime session validation " +:+ msg.
Section Node.
Context (session : RuntimeSession) (order_names : gset string) (n : RuntimeSessionNode).
Definition node_says (msg : string) : string := session_says ("node '" +:+ sn_node_name n +:+ "' " +:+ msg).
Definition validate_node_failure : checker :=
  match sn_failure_summary n with
  | Some summary =>
      validate_failure_summary_owner summary ("node '" +:+ sn_node_name n +:+ "'") "runtime session validation" &>
      error_if (has_value (fs_node_name summary) && negb (bool_decide (fs_node_name summary = Some (sn_node_name n))))
        (node_says "failure summary node_name does not match node")
  | None => no_check
  end.
Definition session_binding_ref (b : CapabilityBindingReference) : string :=
  binding_capability_name b +:+ "#" +:+ binding_key b.
Definition validate_session_binding (seen : gset string) (b : CapabilityBindingReference) : checker :=
  error_if (bool_decide (binding_capability_name b = "")) (node_says "has capability binding with empty capability name") &>
  error_if (bool_decide (binding_key b = "")) (node_says "has capability binding with empty binding key") &>
  error_if (bool_decide (session_binding_ref b ∈ seen))
    (node_says ("contains duplicate capability binding '" +:+ session_binding_ref b +:+ "'")).
Definition validate_usage (seen : gset string) (u : RuntimeSessionMockUsage) : checker :=
  (if bool_decide (mu_selector u = "") then error_if true (node_says "contains mock usage with empty selector")
   else error_if (bool_decide (mu_selector u ∈ seen))
     (node_says ("contains duplicate mock selector '" +:+ mu_selector u +:+ "'"))) &>
  error_if (bool_decide (mu_result_fixture u = "")) (node_says "contains mock usage with empty result_fixture") &>
  if Bool.eqb (has_value (mu_capability_name u)) (has_value (mu_binding_key u)) then
    error_if true (node_says "mock usage must specify exactly one of 'capability_name' or 'binding_key'")
  else if negb (is_binding_selector u) && negb (is_capability_selector u) then
    error_if true (node_says ("contains mock usage selector '" +:+ mu_selector u +:+
      "' inconsistent with binding reference fields"))
  else error_if (negb (existsb (mock_usage_matches_binding u) (sn_capability_bindings n)))
    (node_says ("contains mock usage selector '" +:+ mu_selector u +:+ "' not referenced by capability_bindings")).
Definition validate_bound_usage (b : CapabilityBindingReference) : checker :=
  error_if (bool_decide (sn_status n = NodeSessionStatus.Completed) &&
            negb (existsb (λ u, mock_usage_matches_binding u b) (sn_used_mocks n)))
    (node_says ("missing used mock for binding key '" +:+ binding_key b +:+ "'")).
(** The checks of an executed node on its index. *)
Definition validate_execution_index (indices : gset nat) : checker :=
  let index := sn_execution_index n in
  error_if (bool_decide (index ∈ indices))
    (node_says ("reuses execution_index " +:+ to_string (Z.of_nat index))) &>
  match rs_execution_order session !! index with
  | None => error_if true (node_says ("execution_index " +:+ to_string (Z.of_nat index) +:+ " is outside execution_order"))
  | Some name => error_if (negb (bool_decide (name = sn_node_name n)))
      (node_says "execution_index does not match execution_order")
  end.
Definition validate_not_executed : checker :=
  error_if (has_value (sn_failure_summary n)) (node_says "must not carry failure summary unless status is Failed") &>
  error_if (negb (bool_decide (length (sn_used_mocks n) = 0)))
    (node_says "must not carry used_mocks unless node was executed").
Definition validate_not_ordered : checker :=
  error_if (bool_decide (sn_node_name n ∈ order_names)) (node_says "appears in execution_order but is not executed").
Definition validate_node_status (indices : gset nat) : checker :=
  match sn_status n with
  | NodeSessionStatus.Completed =>
      error_if (has_value (sn_failure_summary n)) (node_says "must not carry failure summary while status is Completed") &>
      validate_execution_index indices
  | NodeSessionStatus.Failed =>
      match sn_failure_summary n with
      | None => error_if true (node_says "is Failed but has no failure summary")
      | Some summary => error_if (bool_decide (fs_kind summary = RuntimeFailureKind.WorkflowFailed))
          (node_says "failure summary must not use WorkflowFailed kind")
      end &> validate_execution_index indices
  | NodeSessionStatus.Blocked | NodeSessionStatus.Ready =>
      validate_not_executed &>
      error_if (workflow_status_is_terminal (rs_workflow_status session))
        (node_says "is not executable-complete while workflow status is terminal") &>
      validate_not_ordered
  | NodeSessionStatus.Skipped =>
      validate_not_executed &>
      error_if (negb (bool_decide (rs_workflow_status session = WorkflowSessionStatus.Failed)))
        (node_says "is Skipped but workflow status is not Failed") &>
      validate_not_ordered
  end.
Definition validate_session_node (indices : gset nat) : checker :=
  error_if (bool_decide (sn_target n = "")) (node_says "has empty target") &>
  validate_node_failure &>
  check_names (node_says "contains empty satisfied dependency")
    (λ d, node_says ("contains duplicate satisfied dependency '" +:+ d +:+ "'")) (sn_satisfied_dependencies n) &>
  each_from (λ seen b, {[session_binding_ref b]} ∪ seen) validate_session_binding ∅ (sn_capability_bindings n) &>
  each_from (λ seen u, insert_name seen (mu_selector u)) validate_usage ∅ (sn_used_mocks n) &>
  each validate_bound_usage (sn_capability_bindings n) &>
  validate_node_status indices.
End Node.

(** ** Validation of a session *)
(** What the loop over the nodes has collected: [nodes_by_name], the indices
    and the counters. *)
Record SessionScan := mkScan {
  sc_nodes_by_name : gmap string RuntimeSessionNode;
  sc_indices : gset nat;
  sc_failed : nat;
  sc_non_completed : nat;
  sc_skipped : nat }.
Definition empty_scan : SessionScan := mkScan ∅ ∅ 0 0 0.
(** Nodes without a name and repeated nodes are reported and skipped. *)
Definition skipped_node (sc : SessionScan) (n : RuntimeSessionNode) : bool :=
  bool_decide (sn_node_name n = "") || has_value (sc_nodes_by_name sc !! sn_node_name n).
Definition scan_node (sc : SessionScan) (n : RuntimeSessionNode) : SessionScan :=
  if skipped_node sc n then sc
  else
    let executed := node_status_is_executed (sn_status n) in
    mkScan (<[sn_node_name n := n]> (sc_nodes_by_name sc))
      (if executed then {[sn_execution_index n]} ∪ sc_indices sc else sc_indices sc)
      (if bool_decide (sn_status n = NodeSessionStatus.Failed) then S (sc_failed sc) else sc_failed sc)
      (if bool_decide (sn_status n = NodeSessionStatus.Completed) then sc_non_completed sc else S (sc_non_completed sc))
      (if bool_decide (sn_status n = NodeSessionStatus.Skipped) then S (sc_skipped sc) else sc_skipped sc).
Definition validate_scanned (session : RuntimeSession) (order_names : gset string) (sc : SessionScan)
    (n : RuntimeSessionNode) : checker :=
  if bool_decide (sn_node_name n = "") then error_if true (session_says "contains node with empty node_name")
  else if has_value (sc_nodes_by_name sc !! sn_node_name n) then
    error_if true (session_says ("contains duplicate node '" +:+ sn_node_name n +:+ "'"))
  else validate_session_node session order_names n (sc_indices sc).
Definition validate_ordered (nodes_by_name : gmap string RuntimeSessionNode) (index : nat) (name : string) : checker :=
  match nodes_by_name !! name with
  | None => error_if true (session_says ("execution_order references unknown node '" +:+ name +:+ "'"))
  | Some n =>
      error_if (negb (node_status_is_executed (sn_status n)))
        (session_says ("execution_order node '" +:+ name +:+ "' is not executed")) &>
      error_if (negb (bool_decide (sn_execution_index n = index)))
        (session_says ("execution_order node '" +:+ name +:+ "' index does not match node execution_index"))
  end.
Definition validate_workflow_status (session : RuntimeSession) (sc : SessionScan) : checker :=
  match rs_workflow_status session with
  | WorkflowSessionStatus.Completed =>
      error_if (has_value (rs_failure_summary session))
        (session_says "completed workflow must not carry failure summary") &>
      error_if (negb (bool_decide (length (rs_execution_order session) = length (rs_nodes session))))
        (session_says "completed workflow must include every node in execution_order") &>
      error_if (negb (bool_decide (sc_non_completed sc = 0)))
        (session_says "completed workflow must not contain non-completed nodes")
  | WorkflowSessionStatus.Failed =>
      error_if (negb (has_value (rs_failure_summary session)))
        (session_says "failed workflow must carry failure summary") &>
      error_if (bool_decide (sc_failed sc = 0)) (session_says "failed workflow must contain at least one Failed node")
  | WorkflowSessionStatus.Partial =>
      error_if (negb (bool_decide (sc_failed sc = 0))) (session_says "partial workflow must not contain Failed nodes") &>
      error_if (negb (bool_decide (sc_skipped sc = 0))) (session_says "partial workflow must not contain Skipped nodes") &>
      error_if (bool_decide (sc_non_completed sc = 0))
        (session_says "partial workflow must contain at least one non-completed node")
  end.
Definition validate_runtime_session_from (session : RuntimeSession) : checker :=
  let order_names := foldl insert_name ∅ (rs_execution_order session) in
  let sc := foldl scan_node empty_scan (rs_nodes session) in
  error_if (negb (bool_decide (rs_format_version session = kRuntimeSessionFormatVersion)))
    (session_says ("encountered unsupported format_version '" +:+ rs_format_version session +:+ "'")) &>
  error_if (negb (bool_decide (rs_source_execution_plan_format_version session = kExecutionPlanFormatVersion)))
    (session_says ("encountered unsupported source_execution_plan_format_version '" +:+
                   rs_source_execution_plan_format_version session +:+ "'")) &>
  error_if (bool_decide (rs_workflow_canonical_name session = "")) (session_says "contains empty workflow_canonical_name") &>
  error_if (bool_decide (rs_session_id session = "")) (session_says "contains empty session_id") &>
  error_if (bool_decide (rs_input_fixture session = "")) (session_says "contains empty input_fixture") &>
  match rs_failure_summary session with
  | Some summary => validate_failure_summary_owner summary "workflow" "runtime session validation"
  | None => no_check
  end &>
  error_if (negb (sequential_mode (rs_options session))) (session_says "currently requires sequential_mode=true") &>
  check_names (session_says "execution_order contains empty node name")
    (λ name, session_says ("execution_order contains duplicate node '" +:+ name +:+ "'")) (rs_execution_order session) &>
  each_from scan_node (validate_scanned session order_names) empty_scan (rs_nodes session) &>
  each_index (validate_ordered (sc_nodes_by_name sc)) 0 (rs_execution_order session) &>
  validate_workflow_status session sc.
Definition validate_runtime_session (session : RuntimeSession) : DiagnosticBag :=
  validate_runtime_session_from session empty_bag.

(** ** The run *)
(** The loop over the bindings of a node: the usages, the failure that stops
    it, and whether a mock is pending. *)
Fixpoint use_mocks (ms : CapabilityMockSet) (name : string) (bindings : list CapabilityBindingReference)
    (used : list RuntimeSessionMockUsage) (partial : bool)
    : list RuntimeSessionMockUsage * option RuntimeFailureSummary * bool :=
  match bindings with
  | [] => (used, None, partial)
  | b :: bindings =>
      match find_mock_for_binding ms b with
      | None => (used, Some (mkFailure RuntimeFailureKind.MockMissing (Some name)
          ("runtime session node '" +:+ name +:+ "' is missing capability mock for binding key '" +:+
           binding_key b +:+ "' capability '" +:+ binding_capability_name b +:+ "'")), partial)
      | Some m =>
          if mock_result_fixture_requests_partial (mock_result_fixture m) then use_mocks ms name bindings used true
          else
            let used := used ++ [make_mock_usage m] in
            if mock_result_fixture_requests_failure (mock_result_fixture m) then
              (used, Some (mkFailure RuntimeFailureKind.NodeFailed (Some name)
                ("runtime session node '" +:+ name +:+ "' failed with mock result_fixture '" +:+
                 mock_result_fixture m +:+ "'")), partial)
            else use_mocks ms name bindings used partial
      end
  end.
Definition executed_node (n : WorkflowNodePlan) (status : NodeSessionStatus.t) (index : nat)
    (failure : option RuntimeFailureSummary) (used : list RuntimeSessionMockUsage) : RuntimeSessionNode :=
  mkSessionNode (np_name n) (np_target n) status index failure (np_after n) (np_lifecycle n) (np_input_summary n)
    (np_capability_bindings n) used.
(** The run so far; [ru_status] stays [Completed] until it stops. *)
Record SessionRun := mkRun {
  ru_remaining : gmap string nat;
  ru_executed : gset string;
  ru_order : list string;
  ru_nodes : list RuntimeSessionNode;
  ru_status : WorkflowSessionStatus.t;
  ru_failure : option RuntimeFailureSummary }.
Fixpoint session_loop (fuel : nat) (w : WorkflowPlan) (ms : CapabilityMockSet) (ready : list WorkflowNodePlan)
    (r : SessionRun) : cxx SessionRun :=
  match ready with
  | [] => Ret r
  | node :: ready =>
      match fuel with
      | O => NoFuel
      | S fuel =>
          let name := np_name node in
          if bool_decide (name ∈ ru_executed r) then session_loop fuel w ms ready r
          else
            let '(used, failure, partial) := use_mocks ms name (np_capability_bindings node) [] false in
            let index := length (ru_order r) in
            match failure with
            | Some summary =>
                Ret (mkRun (ru_remaining r) ({[name]} ∪ ru_executed r) (ru_order r ++ [name])
                  (ru_nodes r ++ [executed_node node NodeSessionStatus.Failed index (Some summary) used])
                  WorkflowSessionStatus.Failed
                  (Some (mkFailure RuntimeFailureKind.WorkflowFailed (Some name)
                    ("runtime session workflow '" +:+ wp_canonical_name w +:+ "' failed at node '" +:+ name +:+ "'"))))
            | None =>
                if partial then
                  Ret (mkRun (ru_remaining r) (ru_executed r) (ru_order r) (ru_nodes r)
                    WorkflowSessionStatus.Partial (ru_failure r))
                else
                  let executed := {[name]} ∪ ru_executed r in
                  let '(remaining, ready) := release_candidates name executed (wp_nodes w) (ru_remaining r) ready in
                  session_loop fuel w ms ready
                    (mkRun remaining executed (ru_order r ++ [name])
                      (ru_nodes r ++ [executed_node node NodeSessionStatus.Completed index None used])
                      (ru_status r) (ru_failure r))
            end
      end
  end.
(** A node that was not executed when the run stopped. *)
Definition unexecuted_node (r : SessionRun) (n : WorkflowNodePlan) : RuntimeSessionNode :=
  let status :=
    if bool_decide (ru_status r = WorkflowSessionStatus.Failed) then NodeSessionStatus.Skipped
    else if bool_decide (default 0 (ru_remaining r !! np_name n) = 0) then NodeSessionStatus.Ready
    else NodeSessionStatus.Blocked in
  mkSessionNode (np_name n) (np_target n) status 0 None
    (base.filter (λ d, d ∈ ru_executed r) (np_after n)) (np_lifecycle n) (np_input_summary n)
    (np_capability_bindings n) [].
Definition unexecuted_nodes (r : SessionRun) (w : WorkflowPlan) : list RuntimeSessionNode :=
  unexecuted_node r <$> base.filter (λ n, np_name n ∉ ru_executed r) (wp_nodes w).
Definition session_of_run (plan : ExecutionPlan) (request : DryRunRequest) (options : RuntimeSessionOptions)
    (w : WorkflowPlan) (r : SessionRun) (nodes : list RuntimeSessionNode) : RuntimeSession :=
  mkSession kRuntimeSessionFormatVersion (plan_format_version plan) (source_package_identity plan)
    (wp_canonical_name w) (default_session_id request) (req_run_id request) (ru_status r) (ru_failure r)
    (req_input_fixture request) options (ru_order r) nodes (wp_return_summary w).
Definition initial_run (w : WorkflowPlan) : SessionRun :=
  mkRun (initial_remaining (wp_nodes w)) ∅ [] [] WorkflowSessionStatus.Completed None.
Definition build_runtime_session (plan : ExecutionPlan) (request : DryRunRequest) (ms : CapabilityMockSet)
    (options : RuntimeSessionOptions) : cxx RuntimeSessionResult :=
  if negb (sequential_mode options) then
    Ret (mkSessionResult None
      (emit_error "runtime session bootstrap currently requires sequential_mode=true" empty_bag))
  else
  plan_diagnostics ← validate_execution_plan plan;
  let d := append empty_bag plan_diagnostics in
  if has_error d then Ret (mkSessionResult None d) else
  match find_workflow_plan plan (req_workflow_canonical_name request) with
  | None => Ret (mkSessionResult None
      (emit_error ("runtime session request workflow '" +:+ req_workflow_canonical_name request +:+
                   "' does not exist in execution plan") d))
  | Some w =>
      let d := validate_session_mock_set ms w d in
      if has_error d then Ret (mkSessionResult None d) else
      r ← session_loop (length (wp_nodes w)) w ms (initial_ready_nodes (wp_nodes w)) (initial_run w);
      let stopped := negb (bool_decide (ru_status r = WorkflowSessionStatus.Completed)) in
      if negb stopped && negb (bool_decide (size (ru_executed r) = length (wp_nodes w))) then
        Ret (mkSessionResult None
          (emit_error ("runtime session could not schedule all workflow nodes for '" +:+ wp_canonical_name w +:+ "'") d))
      else
        let session := session_of_run plan request options w r
          (ru_nodes r ++ (if stopped then unexecuted_nodes r w else [])) in
        let d := append d (validate_runtime_session session) in
        if has_error d then Ret (mkSessionResult None d) else Ret (mkSessionResult (Some session) d)
  end.
