(* ===== verification/SessionProps.v ===== *)
(** * What the validation of sessions accepts

    A session passes exactly when it is valid: its execution order lists the
    executed nodes at their indices, and its status agrees with its nodes. *)
From S2P Require Import Prelude Diagnostics Checks Numeric Plan PlanProps DryRun DryRunProps Session.
Open Scope nat_scope.
Open Scope ahfl_scope.

(** ** Valid sessions *)
Definition failure_ok (f : RuntimeFailureSummary) : Prop := fs_message f ≠ "" ∧ fs_node_name f ≠ Some "".
Definition names_ok (l : list string) : Prop := Forall (λ x, x ≠ "") l ∧ NoDup l.
Record valid_usage (bindings : list CapabilityBindingReference) (u : RuntimeSessionMockUsage) : Prop := {
  vu_fixture : mu_result_fixture u ≠ "";
  vu_one : has_value (mu_capability_name u) ≠ has_value (mu_binding_key u);
  vu_selector : is_binding_selector u = true ∨ is_capability_selector u = true;
  vu_binding : ∃ b, b ∈ bindings ∧ mock_usage_matches_binding u b = true }.
Definition valid_status (s : RuntimeSession) (n : RuntimeSessionNode) : Prop :=
  match sn_status n with
  | NodeSessionStatus.Completed =>
      sn_failure_summary n = None ∧ rs_execution_order s !! sn_execution_index n = Some (sn_node_name n)
  | NodeSessionStatus.Failed =>
      (∃ f, sn_failure_summary n = Some f ∧ fs_kind f ≠ RuntimeFailureKind.WorkflowFailed) ∧
      rs_execution_order s !! sn_execution_index n = Some (sn_node_name n)
  | NodeSessionStatus.Blocked | NodeSessionStatus.Ready =>
      sn_failure_summary n = None ∧ sn_used_mocks n = [] ∧ rs_workflow_status s = WorkflowSessionStatus.Partial ∧
      sn_node_name n ∉ rs_execution_order s
  | NodeSessionStatus.Skipped =>
      sn_failure_summary n = None ∧ sn_used_mocks n = [] ∧ rs_workflow_status s = WorkflowSessionStatus.Failed ∧
      sn_node_name n ∉ rs_execution_order s
  end.
Record valid_session_node (s : RuntimeSession) (n : RuntimeSessionNode) : Prop := {
  vn_target : sn_target n ≠ "";
  vn_failure f : sn_failure_summary n = Some f →
    failure_ok f ∧ ∀ x, fs_node_name f = Some x → x = sn_node_name n;
  vn_dependencies : names_ok (sn_satisfied_dependencies n);
  vn_bindings : NoDup (session_binding_ref <$> sn_capability_bindings n);
  vn_binding b : b ∈ sn_capability_bindings n → binding_capability_name b ≠ "" ∧ binding_key b ≠ "";
  vn_selectors : NoDup (mu_selector <$> sn_used_mocks n);
  vn_usage u : u ∈ sn_used_mocks n → valid_usage (sn_capability_bindings n) u;
  vn_bound b : sn_status n = NodeSessionStatus.Completed → b ∈ sn_capability_bindings n →
    ∃ u, u ∈ sn_used_mocks n ∧ mock_usage_matches_binding u b = true;
  vn_status : valid_status s n }.
Definition session_node_names (s : RuntimeSession) : list string := sn_node_name <$> rs_nodes s.
Definition valid_workflow_status (s : RuntimeSession) : Prop :=
  match rs_workflow_status s with
  | WorkflowSessionStatus.Completed =>
      rs_failure_summary s = None ∧ length (rs_execution_order s) = length (rs_nodes s) ∧
      ∀ n, n ∈ rs_nodes s → sn_status n = NodeSessionStatus.Completed
  | WorkflowSessionStatus.Failed =>
      is_Some (rs_failure_summary s) ∧ ∃ n, n ∈ rs_nodes s ∧ sn_status n = NodeSessionStatus.Failed
  | WorkflowSessionStatus.Partial =>
      (∀ n, n ∈ rs_nodes s → sn_status n ≠ NodeSessionStatus.Failed ∧ sn_status n ≠ NodeSessionStatus.Skipped) ∧
      ∃ n, n ∈ rs_nodes s ∧ sn_status n ≠ NodeSessionStatus.Completed
  end.
Record valid_session (s : RuntimeSession) : Prop := {
  vs_version : rs_format_version s = kRuntimeSessionFormatVersion;
  vs_plan_version : rs_source_execution_plan_format_version s = kExecutionPlanFormatVersion;
  vs_workflow : rs_workflow_canonical_name s ≠ "";
  vs_id : rs_session_id s ≠ "";
  vs_input : rs_input_fixture s ≠ "";
  vs_failure f : rs_failure_summary s = Some f → failure_ok f;
  vs_sequential : sequential_mode (rs_options s) = true;
  vs_order : names_ok (rs_execution_order s);
  vs_names : names_ok (session_node_names s);
  vs_nodes n : n ∈ rs_nodes s → valid_session_node s n;
  vs_executed i x : rs_execution_order s !! i = Some x →
    ∃ n, n ∈ rs_nodes s ∧ sn_node_name n = x ∧ node_status_is_executed (sn_status n) = true ∧ sn_execution_index n = i;
  vs_status : valid_workflow_status s }.

(** ** What the parts check *)
Lemma has_value_false {A} (o : option A) : has_value o = false ↔ o = None.
Proof. by destruct o. Qed.
Lemma has_value_true {A} (o : option A) : has_value o = true ↔ is_Some o.
Proof. destruct o; [split; [by eexists|done]|]. split; [done|]. by intros [? ?]. Qed.
Lemma existsb_bool {A} (f : A → bool) l : existsb f l = true ↔ ∃ x, x ∈ l ∧ f x = true.
Proof. rewrite existsb_exists. by setoid_rewrite list_elem_of_In. Qed.
Lemma failure_checks f owner scope : checks (validate_failure_summary_owner f owner scope) (failure_ok f).
Proof.
  eapply checks_iff; [apply checks_andthen; apply checks_error_code_if|]. by rewrite !bool_decide_eq_false.
Qed.
Lemma option_checks {A} (o : option A) (f : A → checker) (P : A → Prop) : (∀ x, checks (f x) (P x)) →
  checks (match o with Some x => f x | None => no_check end) (∀ x, o = Some x → P x).
Proof.
  intros Hf. destruct o as [x|].
  - eapply checks_iff; [apply Hf|]. naive_solver.
  - eapply checks_iff; [apply checks_nothing|]. naive_solver.
Qed.
Lemma selector_named u : is_binding_selector u = true ∨ is_capability_selector u = true → mu_selector u ≠ "".
Proof.
  unfold is_binding_selector, is_capability_selector. intros [H|H].
  - destruct (mu_binding_key u); [|done]. apply bool_decide_eq_true in H. by rewrite H.
  - destruct (mu_capability_name u); [|done]. apply bool_decide_eq_true in H. by rewrite H.
Qed.
Section NodeChecks.
Context (s : RuntimeSession) (n : RuntimeSessionNode).
Lemma node_failure_checks : checks (validate_node_failure n)
  (∀ f, sn_failure_summary n = Some f → failure_ok f ∧ ∀ x, fs_node_name f = Some x → x = sn_node_name n).
Proof.
  apply option_checks. intros f. apply checks_andthen; [apply failure_checks|].
  eapply checks_iff; [apply checks_error_if|]. destruct (fs_node_name f) as [x|]; cbn [has_value andb]; [|naive_solver].
  rewrite negb_false_iff, bool_decide_eq_true. naive_solver.
Qed.
Lemma session_bindings_checks l :
  checks (each_from (λ seen b, {[session_binding_ref b]} ∪ seen) (validate_session_binding n) ∅ l)
    (NoDup (session_binding_ref <$> l) ∧ ∀ b, b ∈ l → binding_capability_name b ≠ "" ∧ binding_key b ≠ "").
Proof.
  apply (checks_each_seen session_binding_ref). intros seen b.
  eapply checks_iff; [repeat apply checks_andthen; apply checks_error_when|]. tauto.
Qed.
Lemma usage_checks seen u :
  checks (validate_usage n seen u) (mu_selector u ≠ "" ∧ mu_selector u ∉ seen ∧ valid_usage (sn_capability_bindings n) u).
Proof.
  eapply checks_iff.
  - apply checks_andthen; [apply checks_if; [apply checks_error_if|apply checks_error_when]|].
    apply checks_andthen; [apply checks_error_when|].
    apply checks_if; [apply checks_error_if|]. apply checks_if; apply checks_error_if.
  - case_bool_decide as H1; [naive_solver|]. destruct (Bool.eqb _ _) eqn:E1.
    { apply eqb_prop in E1. split; [naive_solver|]. intros (_ & _ & []). naive_solver. }
    apply eqb_false_iff in E1. destruct (negb _ && negb _) eqn:E2.
    + apply andb_true_iff in E2 as [Ha Hb]. apply negb_true_iff in Ha, Hb.
      split; [naive_solver|]. intros (_ & _ & [_ _ Hs _]). rewrite Ha, Hb in Hs. naive_solver.
    + apply andb_false_iff in E2. rewrite !negb_false_iff in E2. rewrite negb_false_iff, existsb_bool. split.
      * intros (? & ? & ?). split_and!; [done..|]. by split.
      * intros (_ & ? & []). done.
Qed.
Lemma usages_checks l : checks (each_from (λ seen u, insert_name seen (mu_selector u)) (validate_usage n) ∅ l)
  (NoDup (mu_selector <$> l) ∧ ∀ u, u ∈ l → valid_usage (sn_capability_bindings n) u).
Proof.
  eapply checks_iff; [apply (checks_each_from _ _ _ _ _ usage_checks)|].
  rewrite <-(collected_NoDup mu_selector).
  assert (Hf : ∀ s l, (∀ u, u ∈ l → mu_selector u ≠ "") → foldl (λ seen u, insert_name seen (mu_selector u)) s l =
    foldl (λ s u, {[mu_selector u]} ∪ s) s l).
  { clear. intros s l. revert s. induction l as [|u l IH]; intros s Hl; cbn [foldl]; [done|].
    rewrite <-IH by (intros; apply Hl; by right). f_equal. unfold insert_name.
    rewrite bool_decide_eq_false_2; [done|]. apply Hl. left. }
  split.
  - intros H. assert (Hne : ∀ u, u ∈ l → mu_selector u ≠ "").
    { intros u [i Hi]%list_elem_of_lookup_1. by apply (H i). }
    split.
    + intros i u Hi. destruct (H i u Hi) as (_ & Hn & _). rewrite Hf in Hn; [done|].
      intros u' (j & Hj & _)%elem_of_take. apply Hne. by eapply list_elem_of_lookup_2.
    + intros u [i Hi]%list_elem_of_lookup_1. by apply (H i).
  - intros [H1 H2] i u Hi. assert (Hne : ∀ u, u ∈ l → mu_selector u ≠ "").
    { intros u' Hu'. by apply selector_named, (H2 u' Hu'). }
    assert (Hu : u ∈ l) by by eapply list_elem_of_lookup_2.
    split; [by apply Hne|]. split; [|by apply H2]. rewrite Hf; [by apply H1|].
    intros u' (j & Hj & _)%elem_of_take. apply Hne. by eapply list_elem_of_lookup_2.
Qed.
Lemma bound_usages_checks l : checks (each (validate_bound_usage n) l)
  (∀ b, b ∈ l → sn_status n = NodeSessionStatus.Completed → ∃ u, u ∈ sn_used_mocks n ∧ mock_usage_matches_binding u b = true).
Proof.
  apply checks_each. intros b. eapply checks_iff; [apply checks_error_if|].
  rewrite andb_false_iff, bool_decide_eq_false, negb_false_iff, existsb_bool.
  destruct (decide (sn_status n = NodeSessionStatus.Completed)); naive_solver.
Qed.
Lemma execution_index_checks indices : checks (validate_execution_index s n indices)
  (sn_execution_index n ∉ indices ∧ rs_execution_order s !! sn_execution_index n = Some (sn_node_name n)).
Proof.
  apply checks_andthen; [apply checks_error_when|]. destruct (rs_execution_order s !! sn_execution_index n) as [x|].
  - eapply checks_iff; [apply checks_error_unless|]. naive_solver.
  - eapply checks_iff; [apply checks_error_if|]. naive_solver.
Qed.
Lemma not_executed_checks : checks (validate_not_executed n) (sn_failure_summary n = None ∧ sn_used_mocks n = []).
Proof.
  eapply checks_iff; [apply checks_andthen; [apply checks_error_if|apply checks_error_unless]|].
  by rewrite has_value_false, length_zero_iff_nil.
Qed.
Lemma status_checks (order_names : gset string) indices :
  (sn_node_name n ∈ order_names ↔ sn_node_name n ∈ rs_execution_order s) →
  checks (validate_node_status s order_names n indices)
    (valid_status s n ∧ (node_status_is_executed (sn_status n) = true → sn_execution_index n ∉ indices)).
Proof.
  intros Ho. unfold validate_node_status, valid_status. destruct (sn_status n); cbn [node_status_is_executed].
  3: { eapply checks_iff; [apply checks_andthen; [apply checks_error_if|apply execution_index_checks]|].
       rewrite has_value_false. naive_solver. }
  3: { eapply checks_iff; [apply checks_andthen; [|apply execution_index_checks]|].
       - instantiate (1 := ∃ f, sn_failure_summary n = Some f ∧ fs_kind f ≠ RuntimeFailureKind.WorkflowFailed).
         destruct (sn_failure_summary n) as [f|].
         + eapply checks_iff; [apply checks_error_when|]. naive_solver.
         + eapply checks_iff; [apply checks_error_if|]. naive_solver.
       - naive_solver. }
  3: { eapply checks_iff; [apply checks_andthen; [apply not_executed_checks|apply checks_andthen; [apply checks_error_unless|apply checks_error_when]]|].
       rewrite Ho. naive_solver. }
  all: eapply checks_iff; [apply checks_andthen; [apply not_executed_checks|apply checks_andthen; [apply checks_error_if|apply checks_error_when]]|];
    rewrite Ho; destruct (rs_workflow_status s); cbn [workflow_status_is_terminal]; naive_solver.
Qed.
Lemma session_node_checks (order_names : gset string) indices :
  (sn_node_name n ∈ order_names ↔ sn_node_name n ∈ rs_execution_order s) →
  checks (validate_session_node s order_names n indices)
    (valid_session_node s n ∧ (node_status_is_executed (sn_status n) = true → sn_execution_index n ∉ indices)).
Proof.
  intros Ho. eapply checks_iff.
  - apply checks_andthen; [apply checks_error_when|]. apply checks_andthen; [apply node_failure_checks|].
    apply checks_andthen; [apply checks_names|]. apply checks_andthen; [apply session_bindings_checks|].
    apply checks_andthen; [apply usages_checks|]. apply checks_andthen; [apply bound_usages_checks|].
    by apply status_checks.
  - split.
    + intros (?&?&?&[??]&[??]&Hb&?&?). split; [|done]. split; try done. intros b Hc Hin. by apply Hb.
    + intros [[H1 H2 H3 H4 H5 H6 H7 H8 H9] ?]. destruct H3. split_and!; try done. intros b Hin Hc. by apply H8.
Qed.
End NodeChecks.

(** ** The scan of the nodes *)
Lemma filter_snoc_length (P : RuntimeSessionNode → Prop) `{∀ n, Decision (P n)} l n :
  length (base.filter P (l ++ [n])) = if decide (P n) then S (length (base.filter P l)) else length (base.filter P l).
Proof. rewrite filter_app, length_app, filter_cons, filter_nil. case_decide; cbn; lia. Qed.
Record scanned (l : list RuntimeSessionNode) (sc : SessionScan) : Prop := {
  scanned_nodes x n : sc_nodes_by_name sc !! x = Some n ↔ n ∈ l ∧ sn_node_name n = x;
  scanned_indices i : i ∈ sc_indices sc ↔ ∃ n, n ∈ l ∧ node_status_is_executed (sn_status n) = true ∧ sn_execution_index n = i;
  scanned_failed : sc_failed sc = length (base.filter (λ n, sn_status n = NodeSessionStatus.Failed) l);
  scanned_non_completed : sc_non_completed sc = length (base.filter (λ n, sn_status n ≠ NodeSessionStatus.Completed) l);
  scanned_skipped : sc_skipped sc = length (base.filter (λ n, sn_status n = NodeSessionStatus.Skipped) l) }.
Lemma scan_spec l : names_ok (sn_node_name <$> l) → scanned l (foldl scan_node empty_scan l).
Proof.
  induction l as [|n l IH] using rev_ind.
  - intros _. split; cbn; [| |done..].
    + intros x n. rewrite lookup_empty, elem_of_nil. naive_solver.
    + intros i. setoid_rewrite elem_of_nil. set_solver.
  - rewrite fmap_app. intros [[Hne Hn]%Forall_app Hnd]. apply Forall_cons in Hn as [Hn _].
    apply NoDup_app in Hnd as (Hnd & Hout & _). destruct IH as [H1 H2 H3 H4 H5]; [by split|].
    rewrite foldl_app. cbn [foldl]. set (sc := foldl scan_node empty_scan l) in *.
    assert (Hfree : sc_nodes_by_name sc !! sn_node_name n = None).
    { destruct (sc_nodes_by_name sc !! sn_node_name n) as [m|] eqn:E; [|done]. apply H1 in E as [Hm Hname].
      exfalso. apply (Hout (sn_node_name n)); [|left]. rewrite <-Hname. by apply list_elem_of_fmap_2. }
    unfold scan_node, skipped_node. rewrite Hfree. rewrite bool_decide_eq_false_2 by done. cbn [orb has_value].
    split; cbn [sc_nodes_by_name sc_indices sc_failed sc_non_completed sc_skipped].
    + intros x m. rewrite lookup_insert_Some, H1, elem_of_app, list_elem_of_singleton. split.
      * intros [[<- <-]|[? [??]]]; [by split; [right|]|]. by split; [left|].
      * intros [[Hin| ->] <-]; [|by left]. right. split; [|done]. intros Heq. apply (Hout (sn_node_name m)).
        -- by apply list_elem_of_fmap_2.
        -- rewrite <-Heq. left.
    + intros i. setoid_rewrite elem_of_app. setoid_rewrite list_elem_of_singleton.
      destruct (node_status_is_executed (sn_status n)) eqn:E.
      * rewrite elem_of_union, elem_of_singleton, H2. split.
        -- intros [->|(m & ? & ? & ?)]; [exists n|exists m]; naive_solver.
        -- intros (m & [?| ->] & ? & ?); [right; by exists m|by left].
      * rewrite H2. split; [intros (m & ? & ? & ?); exists m; naive_solver|].
        intros (m & [?| ->] & ? & ?); [by exists m|congruence].
    + rewrite filter_snoc_length, H3. case_bool_decide; case_decide; done.
    + rewrite filter_snoc_length, H4. case_bool_decide; case_decide; done.
    + rewrite filter_snoc_length, H5. case_bool_decide; case_decide; done.
Qed.
Lemma names_prefix l i : names_ok l → names_ok (take i l).
Proof. intros [H1 H2]. split; [by apply Forall_take|]. eapply sublist_NoDup; [exact H2|]. apply sublist_take. Qed.
(** Every node is new exactly when the names are different and not empty. *)
Lemma scan_names l :
  (∀ i n, l !! i = Some n → sn_node_name n ≠ "" ∧ sc_nodes_by_name (foldl scan_node empty_scan (take i l)) !! sn_node_name n = None) ↔
  names_ok (sn_node_name <$> l).
Proof.
  split.
  - induction l as [|n l IH] using rev_ind; [by split; [|apply NoDup_nil_2]|]. intros H.
    assert (Hl : names_ok (sn_node_name <$> l)).
    { apply IH. intros i m Hi. assert (i < length l) by by apply lookup_lt_Some in Hi.
      specialize (H i m). rewrite lookup_app_l, take_app_le in H by lia. by apply H. }
    destruct (H (length l) n) as [Hn Hfree]; [by rewrite lookup_app_r, Nat.sub_diag|].
    rewrite take_app_length in Hfree. destruct Hl as [Hne Hnd]. rewrite fmap_app. split.
    + apply Forall_app. split; [done|]. by apply Forall_singleton.
    + apply NoDup_app. split_and!; [done| |apply NoDup_singleton]. intros x Hx ->%list_elem_of_singleton.
      apply list_elem_of_fmap in Hx as (m & Hm & Hin).
      destruct (scan_spec l) as [Hs _ _ _ _]; [by split|]. assert (Hsome : sc_nodes_by_name (foldl scan_node empty_scan l) !! sn_node_name n = Some m).
      { apply Hs. by rewrite Hm. }
      congruence.
  - intros Hl i n Hi. split.
    + destruct Hl as [Hl _]. rewrite Forall_fmap in Hl. by apply (Forall_lookup_1 _ _ _ _ Hl Hi).
    + destruct (scan_spec (take i l)) as [Hs _ _ _ _]; [rewrite fmap_take; by apply names_prefix|].
      destruct (_ !! sn_node_name n) as [m|] eqn:E; [|done]. exfalso. apply Hs in E as [Hm Hname].
      apply elem_of_take in Hm as (j & Hj & Hji). destruct Hl as [_ Hnd].
      assert (j = i); [|lia]. eapply (NoDup_lookup _ _ _ (sn_node_name n) Hnd); rewrite list_lookup_fmap.
      * rewrite Hj. cbn. by rewrite Hname.
      * by rewrite Hi.
Qed.

(** ** The validation of a session *)
Lemma insert_names_elem s l x : x ∈ foldl insert_name s l ↔ x ∈ s ∨ (x ∈ l ∧ x ≠ "").
Proof.
  revert s. induction l as [|y l IH]; intros s; cbn [foldl]; [set_solver|]. rewrite IH. unfold insert_name.
  case_bool_decide; set_unfold; naive_solver.
Qed.
Lemma filter_none {A} (P : A → Prop) `{∀ x, Decision (P x)} l : length (base.filter P l) = 0 ↔ ∀ x, x ∈ l → ¬ P x.
Proof.
  rewrite length_zero_iff_nil. split.
  - intros Hf x Hx Hp. assert (Hin : x ∈ base.filter P l) by by apply list_elem_of_filter.
    rewrite Hf in Hin. by apply elem_of_nil in Hin.
  - intros Hn. destruct (base.filter P l) as [|x l'] eqn:E; [done|]. exfalso.
    assert (Hin : x ∈ base.filter P l) by (rewrite E; left). apply list_elem_of_filter in Hin as [? ?]. by apply (Hn x).
Qed.
Lemma filter_some {A} (P : A → Prop) `{∀ x, Decision (P x)} l : length (base.filter P l) ≠ 0 ↔ ∃ x, x ∈ l ∧ P x.
Proof.
  split.
  - intros Hne. destruct (base.filter P l) as [|x l'] eqn:E; [done|]. exists x.
    assert (Hin : x ∈ base.filter P l) by (rewrite E; left). by apply list_elem_of_filter in Hin as [? ?].
  - intros (x & Hx & Hp) H0. rewrite filter_none in H0. by apply (H0 x).
Qed.
Lemma scanned_checks s sc n :
  checks (validate_scanned s (foldl insert_name ∅ (rs_execution_order s)) sc n)
    ((sn_node_name n ≠ "" ∧ sc_nodes_by_name sc !! sn_node_name n = None) ∧ valid_session_node s n ∧
     (node_status_is_executed (sn_status n) = true → sn_execution_index n ∉ sc_indices sc)).
Proof.
  unfold validate_scanned. case_bool_decide as Hn; [eapply checks_iff; [apply checks_error_if|]; naive_solver|].
  destruct (sc_nodes_by_name sc !! sn_node_name n) eqn:E; cbn [has_value].
  - eapply checks_iff; [apply checks_error_if|]. naive_solver.
  - eapply checks_iff; [apply session_node_checks|tauto]. rewrite insert_names_elem. set_solver.
Qed.
Lemma ordered_checks nodes_by_name index name :
  checks (validate_ordered nodes_by_name index name) (∃ n, nodes_by_name !! name = Some n ∧
    node_status_is_executed (sn_status n) = true ∧ sn_execution_index n = index).
Proof.
  unfold validate_ordered. destruct (nodes_by_name !! name) as [n|].
  - eapply checks_iff; [apply checks_andthen; [apply checks_error_if|apply checks_error_unless]|].
    rewrite negb_false_iff. naive_solver.
  - eapply checks_iff; [apply checks_error_if|]. naive_solver.
Qed.
Lemma workflow_status_checks s sc : scanned (rs_nodes s) sc → checks (validate_workflow_status s sc) (valid_workflow_status s).
Proof.
  intros [_ _ Hf Hc Hk]. unfold validate_workflow_status, valid_workflow_status. rewrite Hf, Hc, Hk.
  destruct (rs_workflow_status s).
  - eapply checks_iff; [apply checks_andthen; [apply checks_error_if|apply checks_andthen; apply checks_error_unless]|].
    rewrite has_value_false, filter_none.
    assert (Hnn : ∀ n, ¬ (sn_status n ≠ NodeSessionStatus.Completed) ↔ sn_status n = NodeSessionStatus.Completed).
    { intros n. destruct (decide (sn_status n = NodeSessionStatus.Completed)); naive_solver. }
    by setoid_rewrite Hnn.
  - eapply checks_iff; [apply checks_andthen; [apply checks_error_if|apply checks_error_when]|].
    by rewrite negb_false_iff, has_value_true, filter_some.
  - eapply checks_iff; [repeat (apply checks_andthen; [apply checks_error_unless|]); apply checks_error_when|].
    rewrite filter_some, !filter_none. naive_solver.
Qed.
Lemma session_checks s : checks (validate_runtime_session_from s) (valid_session s).
Proof.
  unfold validate_runtime_session_from. set (sc := foldl scan_node empty_scan (rs_nodes s)).
  assert (Hstatus : ∃ P, checks (validate_workflow_status s sc) P ∧
    (names_ok (session_node_names s) → P ↔ valid_workflow_status s)).
  { destruct (decide (names_ok (session_node_names s))) as [Hok|Hno].
    - exists (valid_workflow_status s). split; [|done]. apply workflow_status_checks. by apply scan_spec.
    - destruct (rs_workflow_status s) eqn:E; unfold validate_workflow_status; rewrite E; eexists; (split; [|intros Hn; by destruct (Hno Hn)]).
      + apply checks_andthen; [apply checks_error_if|apply checks_andthen; apply checks_error_if].
      + apply checks_andthen; apply checks_error_if.
      + apply checks_andthen; [apply checks_error_if|apply checks_andthen; apply checks_error_if]. }
  destruct Hstatus as (P & HP & Hiff). eapply checks_iff.
  - apply checks_andthen; [apply checks_error_unless|]. apply checks_andthen; [apply checks_error_unless|].
    apply checks_andthen; [apply checks_error_when|]. apply checks_andthen; [apply checks_error_when|].
    apply checks_andthen; [apply checks_error_when|]. apply checks_andthen.
    { apply (option_checks _ (λ f, validate_failure_summary_owner f _ _)). intros f. apply failure_checks. }
    apply checks_andthen; [apply checks_error_if|]. apply checks_andthen; [apply checks_names|].
    apply checks_andthen; [apply (checks_each_from _ _ _ _ _ (scanned_checks s))|].
    apply checks_andthen; [apply (checks_each_index _ _ _ _ (ordered_checks (sc_nodes_by_name sc)))|exact HP].
  - cbn [plus]. rewrite negb_false_iff. split.
    + intros (?&?&?&?&?&?&?&?&Hscan&Hord&Hst).
      assert (Hnames : names_ok (session_node_names s)) by (apply scan_names; intros i n Hi; by apply (Hscan i)).
      destruct (scan_spec _ Hnames) as [Hmap _ _ _ _]. split; try done.
      * intros n [i Hi]%list_elem_of_lookup_1. by apply (Hscan i).
      * intros i x Hi. destruct (Hord i x Hi) as (n & [??]%Hmap & ? & ?). by exists n.
      * by apply Hiff.
    + intros [H1 H2 H3 H4 H5 H6 H7 H8 Hnames Hnodes Hexec Hst].
      destruct (scan_spec _ Hnames) as [Hmap _ _ _ _]. destruct H8. split_and!; try done.
      * intros i n Hi. assert (Hin : n ∈ rs_nodes s) by by eapply list_elem_of_lookup_2.
        split; [by apply scan_names|]. split; [by apply Hnodes|]. intros He Hidx.
        destruct (scan_spec (take i (rs_nodes s))) as [_ Hi2 _ _ _]; [rewrite fmap_take; by apply names_prefix|].
        apply Hi2 in Hidx as (m & (j & Hj & Hji)%elem_of_take & Hme & Heq).
        assert (Hname : ∀ k, k ∈ rs_nodes s → node_status_is_executed (sn_status k) = true →
          rs_execution_order s !! sn_execution_index k = Some (sn_node_name k)).
        { intros k Hk Hke. destruct (Hnodes k Hk) as [_ _ _ _ _ _ _ _ Hv]. unfold valid_status in Hv.
          destruct (sn_status k); try done; apply Hv. }
        assert (Hmn : Some (sn_node_name m) = Some (sn_node_name n)).
        { rewrite <-(Hname n Hin He), <-(Hname m); [by rewrite Heq|by eapply list_elem_of_lookup_2|done]. }
        injection Hmn as Hmn. destruct Hnames as [_ Hnd]. assert (j = i); [|lia].
        eapply (NoDup_lookup _ _ _ (sn_node_name n) Hnd); unfold session_node_names; rewrite list_lookup_fmap.
        -- rewrite Hj. cbn. by rewrite Hmn.
        -- by rewrite Hi.
      * intros i x Hi. destruct (Hexec i x Hi) as (n & ? & ? & ? & ?). exists n. split; [|done]. by apply Hmap.
      * by apply Hiff.
Qed.
(** the validation reports no error exactly for the valid sessions. *)
Theorem validate_runtime_session_exact s : has_error (validate_runtime_session s) = false ↔ valid_session s.
Proof. apply checks_run, session_checks. Qed.
