(* ===== verification/SessionRun.v ===== *)
(** * Sessions of valid plans

    The run of a well-formed workflow executes its nodes after their
    dependencies, and the session that it builds passes its own validation
    unless two bindings of a node share a mock or a reference. *)
From S2P Require Import Prelude Diagnostics Checks Numeric Plan PlanProps DryRun Schedule DryRunProps Session SessionProps.
Open Scope nat_scope.
Open Scope ahfl_scope.

(** ** Mock sets *)
Record session_mocks_ok (ms : CapabilityMockSet) (w : WorkflowPlan) : Prop := {
  sk_version : mocks_format_version ms = kCapabilityMockSetFormatVersion;
  sk_selector m : m ∈ mocks ms → ambiguous m = false;
  sk_fixture m : m ∈ mocks ms → mock_result_fixture m ≠ "" ∧ workflow_references_mock_selector w m = true;
  sk_distinct : NoDup (mock_selector_key <$> mocks ms) }.
Lemma session_mock_set_checks ms w : checks (validate_session_mock_set ms w) (session_mocks_ok ms w).
Proof.
  unfold validate_session_mock_set. eapply checks_iff.
  - apply checks_andthen; [apply checks_error_unless|].
    apply (checks_each_from _ _ (λ seen m, ambiguous m = false ∧
      (mock_result_fixture m ≠ "" ∧ workflow_references_mock_selector w m = true) ∧ mock_selector_key m ∉ seen)).
    intros seen m. unfold validate_session_mock. destruct (ambiguous m) eqn:Ea.
    + eapply checks_iff; [apply checks_error_if|]. naive_solver.
    + eapply checks_iff; [apply checks_andthen; [apply checks_error_when|apply checks_andthen; apply checks_error_if]|].
      rewrite bool_decide_eq_false_2 by by apply selector_nonempty. cbn [negb andb].
      rewrite bool_decide_eq_false, negb_false_iff. naive_solver.
  - rewrite (mocks_seen (λ m, mock_result_fixture m ≠ "" ∧ workflow_references_mock_selector w m = true)).
    split; [intros (?&?&?&?); by split|]. by intros [].
Qed.
Lemma find_mock_elem ms b m : find_mock_for_binding ms b = Some m →
  m ∈ mocks ms ∧ (mock_binding_key m = Some (binding_key b) ∨ mock_capability_name m = Some (binding_capability_name b)).
Proof.
  assert (Hh : ∀ (P : CapabilityMock → Prop) `{∀ m, Decision (P m)} m, head (base.filter P (mocks ms)) = Some m → m ∈ mocks ms ∧ P m).
  { intros P ? m' H. assert (Hin : m' ∈ base.filter P (mocks ms)) by (destruct (base.filter P _); [done|]; injection H as ->; left).
    by apply list_elem_of_filter in Hin as [? ?]. }
  unfold find_mock_for_binding. destruct (head _) as [m'|] eqn:E; intros H.
  - injection H as ->. apply Hh in E as [? ?]. auto.
  - apply Hh in H as [? ?]. auto.
Qed.
Lemma usage_of_mock ms bindings b m : (∀ m, m ∈ mocks ms → ambiguous m = false ∧ mock_result_fixture m ≠ "") →
  find_mock_for_binding ms b = Some m → b ∈ bindings →
  mock_usage_matches_binding (make_mock_usage m) b = true ∧ valid_usage bindings (make_mock_usage m).
Proof.
  intros Hms Hf Hb. apply find_mock_elem in Hf as [Hm Hsel]. destruct (Hms m Hm) as [Ha Hfix].
  assert (Hmatch : mock_usage_matches_binding (make_mock_usage m) b = true ∧
    (is_binding_selector (make_mock_usage m) = true ∨ is_capability_selector (make_mock_usage m) = true)).
  { unfold ambiguous in Ha. unfold mock_usage_matches_binding, is_binding_selector, is_capability_selector, make_mock_usage, mock_selector_key.
    destruct (mock_binding_key m) as [k|], (mock_capability_name m) as [c|]; try done; cbn [mu_binding_key mu_capability_name mu_selector].
    - rewrite (bool_decide_eq_true_2 (_ = _)) by done. destruct Hsel as [Hsel|]; [|done]. rewrite Hsel. split; [|by left]. by apply bool_decide_eq_true_2.
    - rewrite (bool_decide_eq_true_2 (_ = _)) by done. destruct Hsel as [|Hsel]; [done|]. rewrite Hsel. split; [|by right]. by apply bool_decide_eq_true_2. }
  destruct Hmatch as [Hmatch Hone]. split; [done|]. split; [done| |done|by exists b].
  cbn. unfold ambiguous in Ha. intros He. rewrite He in Ha. by destruct (has_value _).
Qed.

(** ** The mocks of a node *)
Definition usage_of (ms : CapabilityMockSet) (b : CapabilityBindingReference) : option RuntimeSessionMockUsage :=
  make_mock_usage <$> find_mock_for_binding ms b.
Record used_ok (ms : CapabilityMockSet) (bindings : list CapabilityBindingReference)
    (used : list RuntimeSessionMockUsage) : Prop := {
  us_sublist : sublist used (omap (usage_of ms) bindings);
  us_valid u : u ∈ used → valid_usage bindings u }.
Definition node_failure (name : string) (f : RuntimeFailureSummary) : Prop :=
  fs_message f ≠ "" ∧ fs_node_name f = Some name ∧ fs_kind f ≠ RuntimeFailureKind.WorkflowFailed.
Lemma use_mocks_spec ms name all bindings used partial r :
  (∀ m, m ∈ mocks ms → ambiguous m = false ∧ mock_result_fixture m ≠ "") →
  (∀ b, b ∈ bindings → b ∈ all) →
  use_mocks ms name bindings used partial = r →
  ∃ more, r.1.1 = used ++ more ∧ sublist more (omap (usage_of ms) bindings) ∧ (∀ u, u ∈ more → valid_usage all u) ∧
    match r.1.2 with
    | Some f => node_failure name f
    | None => r.2 = false → partial = false ∧ ∀ b, b ∈ bindings → ∃ u, u ∈ more ∧ mock_usage_matches_binding u b = true
    end.
Proof.
  intros Hms. revert used partial r. induction bindings as [|b bindings IH]; intros used partial r Hall <-; cbn [use_mocks].
  - exists []. rewrite app_nil_r. split_and!; [done..|by intros u ?%elem_of_nil|]. intros Hp. split; [done|]. by intros b ?%elem_of_nil.
  - assert (Hb : b ∈ all) by (apply Hall; left).
    assert (Hall' : ∀ b, b ∈ bindings → b ∈ all) by (intros; apply Hall; by right).
    cbn [omap list_omap]. unfold usage_of at 1. destruct (find_mock_for_binding ms b) as [m|] eqn:E; cbn [fmap option_fmap option_map].
    2:{ exists []. rewrite app_nil_r. split_and!; [done|apply sublist_nil_l|by intros u ?%elem_of_nil|done]. }
    destruct (usage_of_mock ms all b m Hms E Hb) as [Hmatch Hvalid].
    destruct (mock_result_fixture_requests_partial _).
    { destruct (IH used true _ Hall' eq_refl) as (more & H1 & H2 & H3 & H4). exists more.
      split_and!; [done|by apply sublist_cons|done|]. destruct (_.1.2); [done|]. intros Hp. by destruct (H4 Hp). }
    destruct (mock_result_fixture_requests_failure _).
    { exists [make_mock_usage m]. split_and!; [done|apply sublist_skip, sublist_nil_l| |done].
      by intros u ->%list_elem_of_singleton. }
    destruct (IH (used ++ [make_mock_usage m]) partial _ Hall' eq_refl) as (more & H1 & H2 & H3 & H4).
    exists (make_mock_usage m :: more). split_and!.
    + by rewrite H1, <-app_assoc.
    + by apply sublist_skip.
    + intros u [->|Hu]%elem_of_cons; auto.
    + destruct (_.1.2); [done|]. intros Hp. destruct (H4 Hp) as [? Hbs]. split; [done|].
      intros b' [->|Hb']%elem_of_cons; [exists (make_mock_usage m); split; [left|done]|].
      destruct (Hbs b' Hb') as (u & ? & ?). exists u. split; [by right|done].
Qed.

(** ** The run *)
(** A node of the session for the node [n] executed at index [i]. *)
Definition executed_entry (ms : CapabilityMockSet) (n : WorkflowNodePlan) (i : nat) (sn : RuntimeSessionNode) : Prop :=
  ∃ used, used_ok ms (np_capability_bindings n) used ∧
    ((sn = executed_node n NodeSessionStatus.Completed i None used ∧
      ∀ b, b ∈ np_capability_bindings n → ∃ u, u ∈ used ∧ mock_usage_matches_binding u b = true) ∨
     ∃ f, node_failure (np_name n) f ∧ sn = executed_node n NodeSessionStatus.Failed i (Some f) used).
Section Run.
Context (w : WorkflowPlan) (ms : CapabilityMockSet).
Hypothesis (wf : well_formed_workflow w).
Hypothesis (mocks_usable : ∀ m, m ∈ mocks ms → ambiguous m = false ∧ mock_result_fixture m ≠ "").
Definition entries (r : SessionRun) : Prop :=
  length (ru_nodes r) = length (ru_order r) ∧
  ∀ i sn, ru_nodes r !! i = Some sn → ∃ n, n ∈ wp_nodes w ∧ ru_order r !! i = Some (np_name n) ∧ executed_entry ms n i sn.
Definition all_completed (l : list RuntimeSessionNode) : Prop := ∀ sn, sn ∈ l → sn_status sn = NodeSessionStatus.Completed.
(** The executed nodes, each after its dependencies. *)
Record ordered (r : SessionRun) : Prop := {
  or_nodup : NoDup (ru_order r);
  or_executed : ru_executed r = list_to_set (ru_order r);
  or_nodes x : x ∈ ru_order r → x ∈ node_names w;
  or_before i u n : ru_order r !! i = Some (np_name n) → n ∈ wp_nodes w → u ∈ np_after n → u ∈ take i (ru_order r);
  or_entries : entries r }.
Record running (ready : list WorkflowNodePlan) (r : SessionRun) : Prop := {
  rn_scheduled : scheduled (wp_nodes w) (ru_order r) ready (ru_remaining r);
  rn_executed : ru_executed r = list_to_set (ru_order r);
  rn_entries : entries r;
  rn_completed : all_completed (ru_nodes r);
  rn_status : ru_status r = WorkflowSessionStatus.Completed ∧ ru_failure r = None }.
Record ended (r : SessionRun) : Prop := {
  en_ordered : ordered r;
  en_status : match ru_status r with
    | WorkflowSessionStatus.Completed =>
        ru_failure r = None ∧ all_completed (ru_nodes r) ∧ topological (list_to_set (node_names w)) (depends w) (ru_order r)
    | WorkflowSessionStatus.Failed =>
        (∃ f, ru_failure r = Some f ∧ failure_ok f ∧ fs_kind f = RuntimeFailureKind.WorkflowFailed) ∧
        ∃ l sn, ru_nodes r = l ++ [sn] ∧ all_completed l ∧ sn_status sn = NodeSessionStatus.Failed
    | WorkflowSessionStatus.Partial =>
        ru_failure r = None ∧ all_completed (ru_nodes r) ∧ ∃ n, n ∈ wp_nodes w ∧ np_name n ∉ ru_order r
    end }.
Lemma running_ordered ready r : running ready r → ordered r.
Proof.
  intros [HS He Hn _ _]. destruct (scheduled_prefix _ _ _ _ HS) as (H1 & H2 & _ & H4). by split.
Qed.
Lemma entries_snoc r n sn remaining executed status failure :
  entries r → n ∈ wp_nodes w → executed_entry ms n (length (ru_order r)) sn →
  entries (mkRun remaining executed (ru_order r ++ [np_name n]) (ru_nodes r ++ [sn]) status failure).
Proof.
  intros [Hlen He] Hn Hsn. split; cbn [ru_nodes ru_order]; [rewrite !length_app; cbn; lia|].
  intros i x [Hi|[Hge Hi]]%lookup_app_Some.
  - destruct (He i x Hi) as (n' & ? & ? & ?). exists n'. split_and!; [done| |done]. by apply lookup_app_l_Some.
  - assert (i = length (ru_nodes r)) as -> by (apply lookup_lt_Some in Hi; cbn in Hi; lia).
    rewrite Nat.sub_diag in Hi. injection Hi as <-. rewrite Hlen. exists n. split_and!; [done| |done].
    by rewrite lookup_app_r, Nat.sub_diag by lia.
Qed.
Lemma all_completed_snoc l sn : all_completed l → sn_status sn = NodeSessionStatus.Completed → all_completed (l ++ [sn]).
Proof. intros Hl Hs x [?| ->%list_elem_of_singleton]%elem_of_app; auto. Qed.
(** The dependencies of the node at the head of the queue are executed. *)
Lemma head_ready P n ready remaining u : scheduled (wp_nodes w) P (n :: ready) remaining → u ∈ np_after n → u ∈ P.
Proof.
  intros HS Hu. destruct (step_of_workflow w wf _ _ _ _ HS) as (HnP & Hn & rem' & ready' & _ & HS').
  destruct (scheduled_prefix _ _ _ _ HS') as (_ & _ & _ & Hb).
  specialize (Hb (length P) u n). rewrite lookup_app_r, Nat.sub_diag, take_app_length in Hb by lia. by apply Hb.
Qed.
Lemma ordered_snoc r n sn remaining status failure ready : running (n :: ready) r →
  executed_entry ms n (length (ru_order r)) sn →
  ordered (mkRun remaining ({[np_name n]} ∪ ru_executed r) (ru_order r ++ [np_name n]) (ru_nodes r ++ [sn]) status failure).
Proof.
  intros HR Hsn. destruct HR as [HS He Hen _ _].
  destruct (step_of_workflow w wf _ _ _ _ HS) as (HnP & Hn & rem' & ready' & _ & HS').
  destruct (scheduled_prefix _ _ _ _ HS') as (H1 & H2 & _ & H4). split; cbn [ru_order ru_executed]; try done.
  - rewrite He. apply set_eq. intros x.
    rewrite elem_of_union, elem_of_singleton, !elem_of_list_to_set, elem_of_app, list_elem_of_singleton. tauto.
  - by apply entries_snoc.
Qed.
Lemma session_loop_spec fuel ready r : running ready r → length (wp_nodes w) ≤ length (ru_order r) + fuel →
  ∃ r', session_loop fuel w ms ready r ⇓ r' ∧ ended r'.
Proof.
  revert ready r. induction fuel as [|fuel IH]; intros [|n ready] r HR Hf; cbn [session_loop].
  1,3: exists r; split; [done|]; split; [by eapply running_ordered|]; destruct HR as [HS _ _ Hc [Hst Hfl]]; rewrite Hst;
    split_and!; [done..|]; by eapply schedule_topological.
  - exfalso. destruct HR as [HS _ _ _ _]. destruct (scheduled_prefix _ _ _ _ HS) as (_ & _ & Hlen & _). cbn in Hlen. lia.
  - pose proof HR as [HS He Hen Hc [Hst Hfl]].
    destruct (step_of_workflow w wf _ _ _ _ HS) as (HnP & Hn & rem' & ready' & Hrel & HS').
    rewrite bool_decide_eq_false_2 by by rewrite He, elem_of_list_to_set.
    destruct (use_mocks ms (np_name n) (np_capability_bindings n) [] false) as [[used failure] partial] eqn:E.
    destruct (use_mocks_spec _ _ (np_capability_bindings n) _ _ _ _ mocks_usable (λ b Hb, Hb) E) as (more & H1 & H2 & H3 & H4).
    cbn [fst snd app] in H1, H4. subst more.
    destruct failure as [f|]; [|destruct partial].
    + eexists. split; [done|].
      assert (Hentry : executed_entry ms n (length (ru_order r))
        (executed_node n NodeSessionStatus.Failed (length (ru_order r)) (Some f) used)).
      { exists used. split; [by split|]. right. by exists f. }
      split; [by eapply ordered_snoc|]. cbn [ru_status ru_failure ru_nodes]. split.
      * eexists. split; [done|]. split; [|done]. split; [done|]. cbn [fs_node_name].
        pose proof (wfw_names _ wf) as Hne. rewrite Forall_forall in Hne. intros [= Hname]. apply (Hne (np_name n)); [|done].
        by apply list_elem_of_fmap_2.
      * eexists _, _. split_and!; [done..|]. done.
    + eexists. split; [done|]. split.
      * pose proof (running_ordered _ _ HR) as [? ? ? ? ?]. by split.
      * cbn [ru_status ru_failure ru_nodes ru_order]. split_and!; [done..|]. by exists n.
    + destruct (H4 eq_refl) as [_ Hbound]. rewrite He, Hrel.
      assert (Hset : {[np_name n]} ∪ list_to_set (ru_order r) = (list_to_set (ru_order r ++ [np_name n]) : gset string)).
      { apply set_eq. intros x. rewrite elem_of_union, elem_of_singleton, !elem_of_list_to_set, elem_of_app, list_elem_of_singleton. tauto. }
      rewrite Hset. apply IH; [|cbn [ru_order]; rewrite length_app; cbn; lia]. split; cbn [ru_order ru_remaining ru_executed ru_nodes ru_status ru_failure]; [done..| | |done].
      * apply entries_snoc; [done..|]. exists used. split; [by split|]. by left.
      * by apply all_completed_snoc.
Qed.
End Run.

(** ** The session *)
(** What the validation asks of a node's bindings beyond the plan's: their
    references with the separator ['#'] differ, and so do their mocks. *)
Record session_fits (ms : CapabilityMockSet) (n : WorkflowNodePlan) : Prop := {
  sf_refs : NoDup (session_binding_ref <$> np_capability_bindings n);
  sf_mocks : NoDup (mu_selector <$> omap (usage_of ms) (np_capability_bindings n)) }.
(** The node of the session for a node of the plan. *)
Record node_follows (s : RuntimeSession) (n : WorkflowNodePlan) (sn : RuntimeSessionNode) : Prop := {
  nf_name : sn_node_name sn = np_name n;
  nf_target : sn_target sn = np_target n;
  nf_lifecycle : sn_lifecycle sn = np_lifecycle n;
  nf_input : sn_input_summary sn = np_input_summary n;
  nf_bindings : sn_capability_bindings sn = np_capability_bindings n;
  nf_satisfied : sn_satisfied_dependencies sn = base.filter (λ d, d ∈ rs_execution_order s) (np_after n);
  nf_executed : node_status_is_executed (sn_status sn) = true → sn_satisfied_dependencies sn = np_after n }.
Record session_follows (plan : ExecutionPlan) (w : WorkflowPlan) (s : RuntimeSession) : Prop := {
  so_names : session_node_names s ≡ₚ node_names w;
  so_before i u n : rs_execution_order s !! i = Some (np_name n) → n ∈ wp_nodes w → u ∈ np_after n →
    u ∈ take i (rs_execution_order s);
  so_completed : rs_workflow_status s = WorkflowSessionStatus.Completed →
    topological (list_to_set (node_names w)) (depends w) (rs_execution_order s);
  so_nodes sn : sn ∈ rs_nodes s → ∃ n, n ∈ wp_nodes w ∧ node_follows s n sn;
  so_workflow : rs_workflow_canonical_name s = wp_canonical_name w;
  so_source : rs_source_package_identity s = source_package_identity plan ∧
    rs_source_execution_plan_format_version s = plan_format_version plan ∧ rs_format_version s = kRuntimeSessionFormatVersion;
  so_failure f : rs_failure_summary s = Some f → fs_kind f = RuntimeFailureKind.WorkflowFailed ∧
    rs_workflow_status s = WorkflowSessionStatus.Failed }.
Section Session.
Context (plan : ExecutionPlan) (request : DryRunRequest) (ms : CapabilityMockSet) (options : RuntimeSessionOptions).
Context (w : WorkflowPlan) (r : SessionRun).
Hypothesis (wf : well_formed_workflow w).
Hypothesis (end_r : ended w ms r).
Let stopped := negb (bool_decide (ru_status r = WorkflowSessionStatus.Completed)).
Let nodes := ru_nodes r ++ (if stopped then unexecuted_nodes r w else []).
Let s := session_of_run plan request options w r nodes.
Lemma run_names : sn_node_name <$> ru_nodes r = ru_order r.
Proof.
  destruct (or_entries _ _ _ (en_ordered _ _ _ end_r)) as [Hlen He]. apply list_eq_same_length with (length (ru_order r)).
  - done.
  - by rewrite length_fmap.
  - intros i x y _ Hx Hy. rewrite list_lookup_fmap in Hx. destruct (ru_nodes r !! i) as [sn|] eqn:Ei; [|done].
    injection Hx as <-. destruct (He i sn Ei) as (n & _ & Ho & used & _ & [[-> _]|(f & _ & ->)]); cbn; congruence.
Qed.
Lemma unexecuted_names : sn_node_name <$> unexecuted_nodes r w = base.filter (λ x, x ∉ ru_executed r) (node_names w).
Proof.
  unfold unexecuted_nodes, node_names. rewrite <-list_fmap_compose.
  induction (wp_nodes w) as [|n l IH]; [done|]. rewrite fmap_cons, !filter_cons.
  case_decide; [|exact IH]. rewrite fmap_cons. f_equal. exact IH.
Qed.
Lemma session_names_perm : sn_node_name <$> nodes ≡ₚ node_names w.
Proof.
  destruct (en_ordered _ _ _ end_r) as [Hnd He Hin _ _].
  assert (Hall : stopped = false → ∀ x, x ∈ node_names w → x ∈ ru_order r).
  { unfold stopped. rewrite negb_false_iff, bool_decide_eq_true. intros Hst x Hx.
    pose proof (en_status _ _ _ end_r) as H. rewrite Hst in H. destruct H as (_ & _ & Ht).
    apply (topological_nodes _ _ _ Ht). by apply elem_of_list_to_set. }
  assert (Hnames : sn_node_name <$> nodes =
    ru_order r ++ if stopped then base.filter (λ x, x ∉ ru_executed r) (node_names w) else []).
  { unfold nodes. rewrite fmap_app, run_names. f_equal. destruct stopped; [apply unexecuted_names|done]. }
  rewrite Hnames. apply NoDup_Permutation.
  - apply NoDup_app. split_and!; [done| |].
    + intros x Hx. destruct stopped; [|apply not_elem_of_nil]. intros [Hout _]%list_elem_of_filter. apply Hout.
      rewrite He. by apply elem_of_list_to_set.
    + destruct stopped; [apply NoDup_filter, wf|apply NoDup_nil_2].
  - apply wf.
  - intros x. rewrite elem_of_app. destruct stopped.
    + rewrite list_elem_of_filter, He, elem_of_list_to_set. split; [intros [?|[??]]; auto|].
      intros Hx. destruct (decide (x ∈ ru_order r)); auto.
    + rewrite elem_of_nil. split; [intros [?|[]]; auto|]. intros Hx. left. by apply Hall.
Qed.
(** The nodes: executed ones, and the others when the run stopped. *)
Lemma session_node_cases sn : sn ∈ nodes →
  (∃ i n, ru_nodes r !! i = Some sn ∧ n ∈ wp_nodes w ∧ ru_order r !! i = Some (np_name n) ∧ executed_entry ms n i sn) ∨
  (ru_status r ≠ WorkflowSessionStatus.Completed ∧
   ∃ n, n ∈ wp_nodes w ∧ np_name n ∉ ru_order r ∧ sn = unexecuted_node r n).
Proof.
  destruct (en_ordered _ _ _ end_r) as [_ He _ _ [_ Hen]]. unfold nodes. intros [Hin|Hin]%elem_of_app.
  - left. apply list_elem_of_lookup_1 in Hin as [i Hi]. destruct (Hen i sn Hi) as (n & ? & ? & ?). by exists i, n.
  - right. unfold stopped in Hin. case_bool_decide; cbn [negb] in Hin; [by apply elem_of_nil in Hin|]. split; [done|].
    apply list_elem_of_fmap in Hin as (n & -> & [Hout Hn]%list_elem_of_filter). exists n. split_and!; [done| |done].
    rewrite He in Hout. by rewrite elem_of_list_to_set in Hout.
Qed.
Lemma after_nonempty n d : n ∈ wp_nodes w → d ∈ np_after n → d ≠ "".
Proof.
  intros Hn Hd. pose proof (wfw_names _ wf) as Hne. rewrite Forall_forall in Hne. apply Hne.
  exact (wfn_known _ _ (wfw_nodes _ wf n Hn) d Hd).
Qed.
Lemma executed_satisfied i n : ru_order r !! i = Some (np_name n) → n ∈ wp_nodes w →
  base.filter (λ d, d ∈ ru_order r) (np_after n) = np_after n.
Proof.
  intros Hi Hn. apply filter_all. intros d Hd.
  pose proof (or_before _ _ _ (en_ordered _ _ _ end_r) i d n Hi Hn Hd) as Ht.
  apply elem_of_take in Ht as (j & Hj & _). by eapply list_elem_of_lookup_2.
Qed.
Lemma built_follows : session_follows plan w s.
Proof.
  destruct (en_ordered _ _ _ end_r) as [Hnd He Hin Hb Hen]. split; cbn; try done.
  - apply session_names_perm.
  - intros Hst. pose proof (en_status _ _ _ end_r) as H. rewrite Hst in H. apply H.
  - intros sn Hsn. destruct (session_node_cases sn Hsn) as [(i & n & Hi & Hn & Ho & used & _ & Hc)|(_ & n & Hn & Hout & ->)];
      exists n; (split; [done|]).
    + pose proof (executed_satisfied i n Ho Hn) as Hs. by destruct Hc as [[-> _]|(f & _ & ->)].
    + split; try done; cbn.
      * rewrite He. apply list_filter_iff. intros d. by rewrite elem_of_list_to_set.
      * by repeat case_bool_decide.
  - intros f Hf. pose proof (en_status _ _ _ end_r) as H. destruct (ru_status r); [naive_solver| |naive_solver].
    destruct H as [(f' & Hf' & _ & Hk) _]. assert (f' = f) by congruence. by subst.
Qed.
Lemma entry_status i n sn : ru_order r !! i = Some (np_name n) → executed_entry ms n i sn →
  valid_status s sn ∧ node_status_is_executed (sn_status sn) = true ∧ sn_node_name sn = np_name n ∧ sn_execution_index sn = i.
Proof.
  intros Ho (used & _ & [[-> _]|(f & (_ & _ & Hk) & ->)]); unfold valid_status; cbn; split_and!; try done. by exists f.
Qed.
Lemma built_nodes_valid : (∀ n, n ∈ wp_nodes w → session_fits ms n) → ∀ sn, sn ∈ nodes → valid_session_node s sn.
Proof.
  intros Hfits sn Hsn. destruct (en_ordered _ _ _ end_r) as [Hnd He Hin Hb Hen].
  destruct (session_node_cases sn Hsn) as [(i & n & Hi & Hn & Ho & Hc)|(Hst & n & Hn & Hout & ->)].
  - destruct (entry_status i n sn Ho Hc) as [Hv _]. destruct (Hfits n Hn) as [Hr Hm].
    pose proof (wfw_nodes _ wf n Hn) as Hwn. destruct Hc as (used & [Hu1 Hu2] & Hc).
    assert (Hsel : NoDup (mu_selector <$> used)).
    { eapply sublist_NoDup; [exact Hm|]. clear -Hu1. induction Hu1; [done|by apply sublist_skip|by apply sublist_cons]. }
    assert (Hafter : names_ok (np_after n)).
    { split; [|apply Hwn]. apply Forall_forall. intros d. by apply after_nonempty. }
    destruct Hc as [[-> Hbound]|(f & (Hf1 & Hf2 & Hf3) & ->)]; split; try done; cbn; try apply Hwn.
    + intros b _. apply Hbound.
    + intros f' [= <-]. split; [split; [done|]|].
      * rewrite Hf2. intros [= Hname]. pose proof (wfw_names _ wf) as Hne. rewrite Forall_forall in Hne.
        apply (Hne (np_name n)); [|done]. by apply list_elem_of_fmap_2.
      * rewrite Hf2. congruence.
  - pose proof (wfw_nodes _ wf n Hn) as Hwn. destruct (Hfits n Hn) as [Hr _]. split; try done; cbn; try apply Hwn; try done.
    + split; [|apply NoDup_filter, Hwn]. apply Forall_forall. intros d [_ Hd]%list_elem_of_filter. by apply (after_nonempty n).
    + apply NoDup_nil_2.
    + by intros u ?%elem_of_nil.
    + by repeat case_bool_decide.
    + unfold valid_status, unexecuted_node. cbn. pose proof (en_status _ _ _ end_r) as H.
      destruct (ru_status r); [done| |]; (case_bool_decide; [|try done]); try done. case_bool_decide; done.
Qed.
Lemma run_length : length (ru_nodes r) = length (ru_order r).
Proof. by destruct (or_entries _ _ _ (en_ordered _ _ _ end_r)). Qed.
Lemma failed_stays : ru_status r = WorkflowSessionStatus.Failed → ∃ n, n ∈ nodes ∧ sn_status n = NodeSessionStatus.Failed.
Proof.
  intros Hst. pose proof (en_status _ _ _ end_r) as H. rewrite Hst in H. destruct H as (_ & l & sn & Hl & _ & Hsn).
  exists sn. split; [|done]. unfold nodes. rewrite Hl. apply elem_of_app. left. apply elem_of_app. right. left.
Qed.
Lemma nodes_completed : ru_status r = WorkflowSessionStatus.Completed → nodes = ru_nodes r.
Proof. intros Hst. unfold nodes, stopped. rewrite bool_decide_eq_true_2 by done. cbn [negb]. by rewrite app_nil_r. Qed.
Lemma nodes_stopped : ru_status r ≠ WorkflowSessionStatus.Completed → nodes = ru_nodes r ++ unexecuted_nodes r w.
Proof. intros Hst. unfold nodes, stopped. by rewrite bool_decide_eq_false_2. Qed.
Lemma built_status : valid_workflow_status s.
Proof.
  pose proof (en_status _ _ _ end_r) as H. revert H. unfold valid_workflow_status. cbn.
  case_eq (ru_status r); intros E H.
  - destruct H as (Hf & Hc & _). rewrite nodes_completed, run_length by done. by split_and!.
  - destruct H as ((f & Hf & _) & _). split; [by rewrite Hf|]. by apply failed_stays.
  - destruct H as (_ & Hc & n & Hn & Hout). split.
    + intros sn Hsn. destruct (session_node_cases sn Hsn) as [(i & m & Hi & _)|(_ & m & _ & _ & ->)].
      * rewrite (Hc sn) by by eapply list_elem_of_lookup_2. done.
      * unfold unexecuted_node. cbn. rewrite E. by repeat case_bool_decide.
    + exists (unexecuted_node r n). split.
      * rewrite nodes_stopped by by rewrite E. apply elem_of_app. right.
        apply list_elem_of_fmap_2, list_elem_of_filter. split; [|done].
        rewrite (or_executed _ _ _ (en_ordered _ _ _ end_r)). by rewrite elem_of_list_to_set.
      * unfold unexecuted_node. cbn. by repeat case_bool_decide.
Qed.
Lemma built_valid : plan_format_version plan = kExecutionPlanFormatVersion → default_session_id request ≠ "" →
  req_input_fixture request ≠ "" → sequential_mode options = true →
  (∀ n, n ∈ wp_nodes w → session_fits ms n) → valid_session s.
Proof.
  intros Hv Hid Hin Hseq Hfits. destruct (en_ordered _ _ _ end_r) as [Hnd He Hsub Hb Hen].
  assert (Hnames : names_ok (node_names w)) by (split; apply wf).
  split; try done; cbn.
  - apply wf.
  - intros f Hf. pose proof (en_status _ _ _ end_r) as H. destruct (ru_status r); [naive_solver| |naive_solver].
    destruct H as [(f' & Hf' & ? & _) _]. assert (f' = f) by congruence. by subst.
  - split; [|done]. apply Forall_forall. intros x Hx. destruct Hnames as [Hne _]. rewrite Forall_forall in Hne. auto.
  - unfold session_node_names. cbn. destruct Hnames. pose proof session_names_perm as Hp. split; by rewrite Hp.
  - by apply built_nodes_valid.
  - intros i x Hi. destruct (ru_nodes r !! i) as [sn|] eqn:Ei.
    2:{ exfalso. apply lookup_ge_None in Ei. apply lookup_lt_Some in Hi. rewrite run_length in Ei. lia. }
    destruct Hen as [_ Hen]. destruct (Hen i sn Ei) as (n & Hn & Ho & Hc). exists sn.
    destruct (entry_status i n sn Ho Hc) as (_ & ? & ? & ?). split_and!; [|congruence|done..].
    unfold nodes. apply elem_of_app. left. by eapply list_elem_of_lookup_2.
  - apply built_status.
Qed.
End Session.

(** What a session needs: a valid plan with the workflow, usable mocks, and an
    input and an id that are not empty. *)
Record session_ready (plan : ExecutionPlan) (request : DryRunRequest) (ms : CapabilityMockSet)
    (options : RuntimeSessionOptions) (w : WorkflowPlan) : Prop := {
  sy_plan : well_formed_plan plan;
  sy_workflow : find_workflow_plan plan (req_workflow_canonical_name request) = Some w;
  sy_mocks : session_mocks_ok ms w;
  sy_sequential : sequential_mode options = true;
  sy_input : req_input_fixture request ≠ "" ∧ default_session_id request ≠ "";
  sy_fits n : n ∈ wp_nodes w → session_fits ms n }.
Lemma build_session_spec plan request ms options : (∀ w, w ∈ plan_workflows plan → nul_free_names w) →
  ∃ res, build_runtime_session plan request ms options ⇓ res ∧
    match sr_session res with
    | Some s => has_error (sr_diagnostics res) = false ∧ valid_session s ∧
        well_formed_plan plan ∧
        ∃ w, find_workflow_plan plan (req_workflow_canonical_name request) = Some w ∧ session_follows plan w s
    | None => has_error (sr_diagnostics res) = true ∧ ∀ w, ¬ session_ready plan request ms options w
    end.
Proof.
  intros Hnul. unfold build_runtime_session. destruct (sequential_mode options) eqn:Eseq; cbn [negb].
  2:{ eexists. split; [done|]. cbn [sr_session sr_diagnostics]. rewrite has_error_emit. split; [done|]. intros w []. congruence. }
  destruct (plan_validated plan Hnul) as (d & Hd & Hiff). rewrite Hd. cbn [mbind cxx_bind].
  rewrite append_empty_l. destruct (has_error d) eqn:Ed.
  { eexists. split; [done|]. cbn [sr_session sr_diagnostics]. split; [done|]. intros w [Hw _ _ _ _ _]. apply Hiff in Hw. congruence. }
  assert (Hwf : well_formed_plan plan) by by apply Hiff.
  destruct (find_workflow_plan plan (req_workflow_canonical_name request)) as [w|] eqn:Ew.
  2:{ eexists. split; [done|]. cbn [sr_session sr_diagnostics]. rewrite has_error_emit. split; [done|]. intros w []. congruence. }
  destruct (find_workflow_plan_spec _ _ _ Ew) as [Hin Hname]. pose proof (wfp_workflows _ Hwf w Hin) as Hww.
  destruct (has_error (validate_session_mock_set ms w d)) eqn:Em.
  { eexists. split; [done|]. cbn [sr_session sr_diagnostics]. split; [done|]. intros w' [_ Hw' Hok _ _ _].
    assert (w' = w) as -> by congruence.
    assert (has_error (validate_session_mock_set ms w d) = false) by by apply session_mock_set_checks. congruence. }
  apply session_mock_set_checks in Em as Hok. destruct Hok as [_ Hok].
  assert (Husable : ∀ m, m ∈ mocks ms → ambiguous m = false ∧ mock_result_fixture m ≠ "").
  { intros m Hm. split; [by apply (sk_selector _ _ Hok)|by apply (sk_fixture _ _ Hok)]. }
  destruct (session_loop_spec w ms Hww Husable (length (wp_nodes w)) (initial_ready_nodes (wp_nodes w)) (initial_run w)) as (r & Hr & Hend).
  { split; cbn; try done; [apply scheduled_initial, Hww|]. by intros sn ?%elem_of_nil. }
  { cbn. lia. }
  rewrite Hr. cbn [mbind cxx_bind].
  assert (Hsched : negb (negb (bool_decide (ru_status r = WorkflowSessionStatus.Completed))) &&
    negb (bool_decide (size (ru_executed r) = length (wp_nodes w))) = false).
  { rewrite negb_involutive. case_bool_decide as Hst; [|done]. cbn [andb]. apply negb_false_iff, bool_decide_eq_true.
    pose proof (en_status _ _ _ Hend) as H. rewrite Hst in H. destruct H as (_ & _ & Htop).
    rewrite (or_executed _ _ _ (en_ordered _ _ _ Hend)), size_list_to_set by apply Htop. by apply topological_length. }
  rewrite Hsched. cbv zeta. set (s := session_of_run _ _ _ _ _ _).
  rewrite has_error_append. destruct (has_error (validate_runtime_session s)) eqn:Ev.
  - rewrite orb_true_r. eexists. split; [done|]. cbn [sr_session sr_diagnostics].
    rewrite has_error_append, Ev, orb_true_r. split; [done|]. intros w' [_ Hw' _ _ [? ?] Hfits].
    assert (w' = w) as -> by congruence. assert (Hvs : valid_session s) by (apply (built_valid plan request ms); try done; apply Hwf).
    apply (checks_run _ _ (session_checks s)) in Hvs. unfold validate_runtime_session in Ev. congruence.
  - assert (Em' : has_error (validate_session_mock_set ms w d) = false) by by apply session_mock_set_checks.
    rewrite Em'. cbn [orb]. eexists. split; [done|]. cbn [sr_session sr_diagnostics].
    rewrite has_error_append, Ev, Em'. split; [done|]. split; [by apply (checks_run _ _ (session_checks s))|].
    split; [done|]. exists w. split; [done|]. by apply (built_follows plan request ms).
Qed.
(** Building a session always returns.  A session that is returned is
    valid and follows the plan: its nodes are the plan's, executed nodes come
    after their dependencies, and a completed session lists them all in a
    topological order.  When none is returned there is an error, and something
    that a session needs was missing. *)
Theorem build_runtime_session_correct plan request ms options : (∀ w, w ∈ plan_workflows plan → nul_free_names w) →
  ∃ res, build_runtime_session plan request ms options ⇓ res ∧
    match sr_session res with
    | Some s => has_error (sr_diagnostics res) = false ∧ valid_session s ∧
        well_formed_plan plan ∧
        ∃ w, find_workflow_plan plan (req_workflow_canonical_name request) = Some w ∧ session_follows plan w s
    | None => has_error (sr_diagnostics res) = true ∧ ∀ w, ¬ session_ready plan request ms options w
    end.
Proof. apply build_session_spec. Qed.

(** ** Examples *)
Definition sample_options : RuntimeSessionOptions := mkSessionOptions true.
Definition with_bindings (bindings : list CapabilityBindingReference) : ExecutionPlan :=
  mkPlan kExecutionPlanFormatVersion None None
    [mkWorkflowPlan "app::Main" "In" "Out" ["fetch"] []
       [mkNodePlan "fetch" "app::Fetch" [] (sample_lifecycle WorkflowNodeStartConditionKind.Immediate)
          (mkValueSummary []) bindings] (mkValueSummary [])].
Definition dry_run_succeeds (plan : ExecutionPlan) (ms : CapabilityMockSet) : bool :=
  match run_local_dry_run plan sample_request ms with Ret r => has_value (dr_trace r) | _ => false end.
Definition session_succeeds (plan : ExecutionPlan) (ms : CapabilityMockSet) : bool :=
  match build_runtime_session plan sample_request ms sample_options with Ret r => has_value (sr_session r) | _ => false end.
Lemma build_runtime_session_correct_witness :
  ∃ s d, build_runtime_session sample_plan sample_request sample_mocks sample_options ⇓ mkSessionResult (Some s) d ∧
    rs_execution_order s = ["fetch"; "score"] ∧ valid_session s.
Proof.
  destruct (build_runtime_session_correct sample_plan sample_request sample_mocks sample_options) as (r & Hr & Hm);
    [auto using sample_nul_free|].
  assert (Ht : match build_runtime_session sample_plan sample_request sample_mocks sample_options with
    | Ret (mkSessionResult (Some s) _) => rs_execution_order s = ["fetch"; "score"] | _ => False end) by by vm_compute.
  rewrite Hr in Ht. destruct r as [[s|] d]; [|destruct Ht]. exists s, d. split; [exact Hr|]. split; [exact Ht|]. apply Hm.
Defined.
(** one mock serves two bindings of a node by the capability's name: the
    dry run accepts it, and the session is rejected by its own validation,
    which reports the selector as used twice. *)
Example shared_mock_rejected :
  dry_run_succeeds (with_bindings [mkBinding "Http" "a"; mkBinding "Http" "b"])
    (mkMockSet kCapabilityMockSetFormatVersion [mkMock (Some "Http") None "ok.json" None]) = true ∧
  session_succeeds (with_bindings [mkBinding "Http" "a"; mkBinding "Http" "b"])
    (mkMockSet kCapabilityMockSetFormatVersion [mkMock (Some "Http") None "ok.json" None]) = false.
Proof. by vm_compute. Qed.
(** a mock for the capability behind one for the binding key is unused for
    the dry run and used for the session; a binding without a mock fails the
    dry run's checks and only its node in the session. *)
Example mock_checks_differ :
  (let ms := mkMockSet kCapabilityMockSetFormatVersion
     [mkMock None (Some "a") "ok.json" None; mkMock (Some "Http") None "ok.json" None] in
   dry_run_succeeds (with_bindings [mkBinding "Http" "a"]) ms = false ∧
   session_succeeds (with_bindings [mkBinding "Http" "a"]) ms = true) ∧
  (let ms := mkMockSet kCapabilityMockSetFormatVersion [] in
   dry_run_succeeds (with_bindings [mkBinding "Http" "a"]) ms = false ∧
   session_succeeds (with_bindings [mkBinding "Http" "a"]) ms = true).
Proof. by vm_compute. Qed.
