(* ===== verification/Journal.v ===== *)
(** * Execution journals (src/pipeline/execution/execution_journal/journal.{hpp,cpp})

    The events of a session and their validation: a state machine per node,
    keyed by the node's name and index, and one for the workflow. *)
From S2P Require Import JsonProps JsonRoundtrip SessionProps.
From Stdlib Require Import Ascii.
From S2P Require Import Prelude Diagnostics Checks Numeric Plan DryRun Session.
Open Scope nat_scope.
Open Scope ahfl_scope.

Definition kExecutionJournalFormatVersion : string := "ahfl.execution-journal.v2".
Module EventKind.
Inductive t :=
  | SessionStarted | NodeBecameReady | NodeStarted | NodeCompleted | MockMissing | NodeFailed
  | WorkflowCompleted | WorkflowFailed.
End EventKind.
#[export] Instance EventKind_eq_dec : EqDecision EventKind.t.
Proof. solve_decision. Defined.
Record ExecutionJournalEvent := mkEvent {
  ev_kind : EventKind.t;
  ev_workflow_canonical_name : string;
  ev_node_name : option string;
  ev_execution_index : option nat;
  ev_failure_summary : option RuntimeFailureSummary;
  ev_satisfied_dependencies : list string;
  ev_used_mock_selectors : list string }.
Record ExecutionJournal := mkJournal {
  ej_format_version : string;
  ej_source_runtime_session_format_version : string;
  ej_source_execution_plan_format_version : string;
  ej_source_package_identity : option PackageIdentity;
  ej_workflow_canonical_name : string;
  ej_session_id : string;
  ej_run_id : option string;
  ej_events : list ExecutionJournalEvent }.
Record ExecutionJournalResult := mkJournalResult { jr_journal : option ExecutionJournal; jr_diagnostics : DiagnosticBag }.

Definition event_kind_name (k : EventKind.t) : string :=
  match k with
  | EventKind.SessionStarted => "session_started"
  | EventKind.NodeBecameReady => "node_became_ready"
  | EventKind.NodeStarted => "node_started"
  | EventKind.NodeCompleted => "node_completed"
  | EventKind.MockMissing => "mock_missing"
  | EventKind.NodeFailed => "node_failed"
  | EventKind.WorkflowCompleted => "workflow_completed"
  | EventKind.WorkflowFailed => "workflow_failed"
  end.
Module NodeEventPhase.
Inductive t := None_ | BecameReady | Started | Completed | Failed.
End NodeEventPhase.
#[export] Instance NodeEventPhase_eq_dec : EqDecision NodeEventPhase.t.
Proof. solve_decision. Defined.
Definition index_key (name : string) (index : nat) : string := name +:+ "#" +:+ to_string (Z.of_nat index).

(** ** The locals of the validation *)
Record JournalScan := mkJournalScan {
  js_phases : gmap string NodeEventPhase.t;
  js_completed : gset string;
  js_failed : gset string;
  js_previous : option nat;
  js_terminal : option EventKind.t }.
Definition empty_journal_scan : JournalScan := mkJournalScan ∅ ∅ ∅ None None.
Definition phase_of (st : JournalScan) (key : string) : NodeEventPhase.t := default NodeEventPhase.None_ (js_phases st !! key).
(** The phase that an event of a node leads to. *)
Definition next_phase (k : EventKind.t) : NodeEventPhase.t :=
  match k with
  | EventKind.NodeBecameReady => NodeEventPhase.BecameReady
  | EventKind.NodeStarted => NodeEventPhase.Started
  | EventKind.NodeCompleted => NodeEventPhase.Completed
  | EventKind.MockMissing | EventKind.NodeFailed => NodeEventPhase.Failed
  | _ => NodeEventPhase.None_
  end.
(** The name and index of an event of a node, when it has both. *)
Definition node_and_index (e : ExecutionJournalEvent) : option (string * nat) :=
  match ev_node_name e, ev_execution_index e with
  | Some name, Some index => if bool_decide (name = "") then None else Some (name, index)
  | _, _ => None
  end.
Definition scan_event (st : JournalScan) (e : ExecutionJournalEvent) : JournalScan :=
  match ev_kind e with
  | EventKind.SessionStarted => st
  | EventKind.WorkflowCompleted | EventKind.WorkflowFailed =>
      mkJournalScan (js_phases st) (js_completed st) (js_failed st) (js_previous st) (Some (ev_kind e))
  | k =>
      match node_and_index e with
      | None => st
      | Some (name, index) =>
          let key := index_key name index in
          mkJournalScan (<[key := next_phase k]> (js_phases st))
            (if bool_decide (k = EventKind.NodeCompleted) then {[key]} ∪ js_completed st else js_completed st)
            (if bool_decide (next_phase k = NodeEventPhase.Failed) then {[key]} ∪ js_failed st else js_failed st)
            (Some index) (js_terminal st)
      end
  end.
(** The loop stops at the first event after the end of the workflow. *)
Fixpoint scan_events (st : JournalScan) (events : list ExecutionJournalEvent) : JournalScan :=
  match events with
  | [] => st
  | e :: events => match js_terminal st with Some _ => st | None => scan_events (scan_event st e) events end
  end.

(** ** Validation of an event *)
Definition journal_says (msg : string) : string := "execution journal validation " +:+ msg.
Section Event.
Context (e : ExecutionJournalEvent).
Definition event_says (msg : string) : string :=
  journal_says ("event '" +:+ event_kind_name (ev_kind e) +:+ "' " +:+ msg).
Definition validate_event_fields (journal : ExecutionJournal) : checker :=
  (if bool_decide (ev_workflow_canonical_name e = "") then
     error_if true (event_says "contains empty workflow_canonical_name")
   else error_if (negb (bool_decide (ev_workflow_canonical_name e = ej_workflow_canonical_name journal)))
     (event_says "workflow_canonical_name does not match journal")) &>
  check_names (event_says "contains empty satisfied dependency")
    (λ d, event_says ("contains duplicate satisfied dependency '" +:+ d +:+ "'")) (ev_satisfied_dependencies e) &>
  check_names (event_says "contains empty used mock selector")
    (λ s, event_says ("contains duplicate used mock selector '" +:+ s +:+ "'")) (ev_used_mock_selectors e) &>
  match ev_failure_summary e with
  | Some summary => validate_failure_summary_owner summary ("event '" +:+ event_kind_name (ev_kind e) +:+ "'")
      "execution journal validation"
  | None => no_check
  end.
Definition kind_says (msg : string) : string := journal_says ("'" +:+ event_kind_name (ev_kind e) +:+ "' " +:+ msg).
Definition validate_no_node : checker :=
  error_if (has_value (ev_node_name e)) (kind_says "must not contain node_name") &>
  error_if (has_value (ev_execution_index e)) (kind_says "must not contain execution_index").
Definition validate_no_failure : checker :=
  error_if (has_value (ev_failure_summary e)) (event_says "must not contain failure_summary").
Definition expected_failure_kind : RuntimeFailureKind.t :=
  if bool_decide (ev_kind e = EventKind.MockMissing) then RuntimeFailureKind.MockMissing else RuntimeFailureKind.NodeFailed.
Definition validate_node_event (st : JournalScan) (name : string) (index : nat) : checker :=
  let key := index_key name index in
  let phase := phase_of st key in
  let node_says msg := journal_says ("node '" +:+ name +:+ "' " +:+ msg) in
  error_if (match js_previous st with Some previous => bool_decide (index < previous) | None => false end)
    (event_says "decreases execution_index ordering") &>
  error_if (match ev_failure_summary e with
            | Some f => has_value (fs_node_name f) && negb (bool_decide (fs_node_name f = Some name))
            | None => false
            end) (event_says "failure_summary node_name does not match node_name") &>
  match ev_kind e with
  | EventKind.NodeBecameReady =>
      error_if (negb (bool_decide (phase = NodeEventPhase.None_))) (node_says "duplicates 'node_became_ready' phase") &>
      validate_no_failure
  | EventKind.NodeStarted =>
      error_if (negb (bool_decide (phase = NodeEventPhase.BecameReady))) (node_says "starts before 'node_became_ready'") &>
      validate_no_failure
  | EventKind.NodeCompleted =>
      error_if (negb (bool_decide (phase = NodeEventPhase.Started))) (node_says "completes before 'node_started'") &>
      error_if (bool_decide (key ∈ js_completed st)) (node_says "duplicates 'node_completed' phase") &>
      validate_no_failure
  | EventKind.MockMissing | EventKind.NodeFailed =>
      error_if (negb (bool_decide (phase = NodeEventPhase.Started))) (node_says "fails before 'node_started'") &>
      match ev_failure_summary e with
      | None => error_if true (event_says "requires failure_summary")
      | Some f => error_if (negb (bool_decide (fs_kind f = expected_failure_kind)))
          (event_says "failure_summary kind does not match event kind")
      end &>
      error_if (bool_decide (key ∈ js_failed st)) (node_says "duplicates failure terminal phase")
  | _ => no_check
  end.
Definition validate_event (st : JournalScan) : checker :=
  match ev_kind e with
  | EventKind.SessionStarted =>
      validate_no_node &> error_if (has_value (ev_failure_summary e)) (kind_says "must not contain failure_summary")
  | EventKind.WorkflowCompleted =>
      validate_no_node &> error_if (has_value (ev_failure_summary e)) (kind_says "must not contain failure_summary")
  | EventKind.WorkflowFailed =>
      validate_no_node &>
      match ev_failure_summary e with
      | None => error_if true (kind_says "requires failure_summary")
      | Some f => error_if (negb (bool_decide (fs_kind f = RuntimeFailureKind.WorkflowFailed)))
          (kind_says "failure_summary kind must be WorkflowFailed")
      end
  | _ =>
      match ev_node_name e, ev_execution_index e with
      | None, _ => error_if true (event_says "requires non-empty node_name")
      | Some name, index =>
          if bool_decide (name = "") then error_if true (event_says "requires non-empty node_name")
          else match index with
          | None => error_if true (event_says "requires execution_index")
          | Some index => validate_node_event st name index
          end
      end
  end.
End Event.
Fixpoint validate_events (journal : ExecutionJournal) (st : JournalScan) (events : list ExecutionJournalEvent) : checker :=
  match events with
  | [] => no_check
  | e :: events =>
      validate_event_fields e journal &>
      match js_terminal st with
      | Some kind => error_if true (journal_says ("contains events after '" +:+ event_kind_name kind +:+ "'"))
      | None => validate_event e st &> validate_events journal (scan_event st e) events
      end
  end.
Definition terminal_phase (p : NodeEventPhase.t) : bool :=
  match p with NodeEventPhase.Completed | NodeEventPhase.Failed => true | _ => false end.
(** The checks after the loop; the phases are visited in the order of the
    unordered map, here the order of [gmap]. *)
Definition validate_end (st : JournalScan) : checker :=
  each (λ kp, error_if (negb (terminal_phase kp.2))
    (journal_says ("node event sequence '" +:+ kp.1 +:+ "' does not reach terminal node phase")))
    (map_to_list (js_phases st)) &>
  error_if (bool_decide (js_terminal st = Some EventKind.WorkflowCompleted) && negb (bool_decide (js_failed st = ∅)))
    (journal_says "'workflow_completed' must not follow failed node events") &>
  error_if (bool_decide (js_terminal st = Some EventKind.WorkflowFailed) && bool_decide (js_failed st = ∅))
    (journal_says "'workflow_failed' must follow at least one failed node event") &>
  error_if (bool_decide (js_terminal st = None) && negb (bool_decide (js_failed st = ∅)))
    (journal_says "contains failed node events but does not end with 'workflow_failed'").
Definition validate_journal_header (journal : ExecutionJournal) : checker :=
  error_if (negb (bool_decide (ej_format_version journal = kExecutionJournalFormatVersion)))
    (journal_says ("encountered unsupported format_version '" +:+ ej_format_version journal +:+ "'")) &>
  error_if (negb (bool_decide (ej_source_runtime_session_format_version journal = kRuntimeSessionFormatVersion)))
    (journal_says ("encountered unsupported source_runtime_session_format_version '" +:+
                   ej_source_runtime_session_format_version journal +:+ "'")) &>
  error_if (negb (bool_decide (ej_source_execution_plan_format_version journal = kExecutionPlanFormatVersion)))
    (journal_says ("encountered unsupported source_execution_plan_format_version '" +:+
                   ej_source_execution_plan_format_version journal +:+ "'")) &>
  error_if (bool_decide (ej_workflow_canonical_name journal = "")) (journal_says "contains empty workflow_canonical_name") &>
  error_if (bool_decide (ej_session_id journal = "")) (journal_says "contains empty session_id").
Definition validate_execution_journal_from (journal : ExecutionJournal) : checker :=
  validate_journal_header journal &>
  match ej_events journal with
  | [] => error_if true (journal_says "contains no events")
  | first :: _ =>
      error_if (negb (bool_decide (ev_kind first = EventKind.SessionStarted)))
        (journal_says "must begin with 'session_started'") &>
      validate_events journal empty_journal_scan (ej_events journal) &>
      validate_end (scan_events empty_journal_scan (ej_events journal))
  end.
Definition validate_execution_journal (journal : ExecutionJournal) : DiagnosticBag :=
  validate_execution_journal_from journal empty_bag.

(** ** The journal of a session *)
Definition workflow_event (session : RuntimeSession) (k : EventKind.t) (f : option RuntimeFailureSummary) : ExecutionJournalEvent :=
  mkEvent k (rs_workflow_canonical_name session) None None f [] [].
Definition node_event (session : RuntimeSession) (n : RuntimeSessionNode) (k : EventKind.t)
    (f : option RuntimeFailureSummary) (used : list string) : ExecutionJournalEvent :=
  mkEvent k (rs_workflow_canonical_name session) (Some (sn_node_name n)) (Some (sn_execution_index n)) f
    (sn_satisfied_dependencies n) used.
(** The first node of each name. *)
Definition add_session_node (m : gmap string RuntimeSessionNode) (n : RuntimeSessionNode) : gmap string RuntimeSessionNode :=
  match m !! sn_node_name n with Some _ => m | None => <[sn_node_name n := n]> m end.
Definition index_session_nodes (nodes : list RuntimeSessionNode) : gmap string RuntimeSessionNode :=
  foldl add_session_node ∅ nodes.
Definition failed_event_kind (n : RuntimeSessionNode) : EventKind.t :=
  if bool_decide (fs_kind <$> sn_failure_summary n = Some RuntimeFailureKind.MockMissing)
  then EventKind.MockMissing else EventKind.NodeFailed.
(** The events of an executed node; none when it is not executed. *)
Definition node_events (session : RuntimeSession) (n : RuntimeSessionNode) : option (list ExecutionJournalEvent) :=
  let used := mu_selector <$> sn_used_mocks n in
  let start := [node_event session n EventKind.NodeBecameReady None []; node_event session n EventKind.NodeStarted None []] in
  match sn_status n with
  | NodeSessionStatus.Completed => Some (start ++ [node_event session n EventKind.NodeCompleted None used])
  | NodeSessionStatus.Failed => Some (start ++ [node_event session n (failed_event_kind n) (sn_failure_summary n) used])
  | _ => None
  end.
(** The loop over the execution order: the events, or the message of the
    error that returns. *)
Fixpoint order_events (session : RuntimeSession) (nodes_by_name : gmap string RuntimeSessionNode) (order : list string)
    : list ExecutionJournalEvent + string :=
  match order with
  | [] => inl []
  | name :: order =>
      match nodes_by_name !! name with
      | None => inr ("execution journal bootstrap execution_order node '" +:+ name +:+ "' does not exist in runtime session")
      | Some n =>
          match node_events session n with
          | None => inr ("execution journal bootstrap execution_order node '" +:+ name +:+ "' is not in executable terminal status")
          | Some events =>
              match order_events session nodes_by_name order with
              | inl more => inl (events ++ more)
              | inr message => inr message
              end
          end
      end
  end.
Definition end_events (session : RuntimeSession) : list ExecutionJournalEvent :=
  match rs_workflow_status session with
  | WorkflowSessionStatus.Completed => [workflow_event session EventKind.WorkflowCompleted None]
  | WorkflowSessionStatus.Failed => [workflow_event session EventKind.WorkflowFailed (rs_failure_summary session)]
  | WorkflowSessionStatus.Partial => []
  end.
Definition journal_of (session : RuntimeSession) (events : list ExecutionJournalEvent) : ExecutionJournal :=
  mkJournal kExecutionJournalFormatVersion (rs_format_version session) (rs_source_execution_plan_format_version session)
    (rs_source_package_identity session) (rs_workflow_canonical_name session) (rs_session_id session) (rs_run_id session) events.
Definition build_execution_journal (session : RuntimeSession) : ExecutionJournalResult :=
  let d := append empty_bag (validate_runtime_session session) in
  if has_error d then mkJournalResult None d else
  match order_events session (index_session_nodes (rs_nodes session)) (rs_execution_order session) with
  | inr message => mkJournalResult None (emit_error message d)
  | inl events =>
      let journal := journal_of session
        (workflow_event session EventKind.SessionStarted None :: events ++ end_events session) in
      let d := append d (validate_execution_journal journal) in
      if has_error d then mkJournalResult None d else mkJournalResult (Some journal) d
  end.

(** ** What the validation of journals accepts

    The journals that pass are the complete traces of a machine: every node
    event moves the node's phase along ready, started, and completed or failed,
    and the workflow ends last, failed exactly when a node failed. *)

(** ** Keys of node events *)
Fixpoint hash_free (s : string) : bool :=
  match s with EmptyString => true | String c s => negb (bool_decide (c = ascii_of_nat 35)) && hash_free s end.
Lemma hash_free_app_no a b : hash_free (a +:+ String (ascii_of_nat 35) b) = false.
Proof. induction a as [|c a IH]; [done|]. rewrite string_cons_app. cbn [hash_free]. rewrite IH. by rewrite andb_false_r. Qed.
Lemma app_hash_inj a a' d d' : hash_free d = true → hash_free d' = true →
  a +:+ String (ascii_of_nat 35) d = a' +:+ String (ascii_of_nat 35) d' → a = a' ∧ d = d'.
Proof.
  intros Hd Hd'. revert a'. induction a as [|c a IH]; intros [|c' a'] H.
  - by injection H.
  - injection H as _ H. subst d. by rewrite hash_free_app_no in Hd.
  - injection H as _ H. subst d'. by rewrite hash_free_app_no in Hd'.
  - injection H as -> H. by destruct (IH a' H) as [-> ->].
Qed.
Lemma hash_free_digits ds : are_digits ds → hash_free (digit_string ds) = true.
Proof.
  induction 1 as [|d ds Hd _ IH]; [done|]. cbn [digit_string hash_free]. rewrite IH, andb_true_r.
  assert (H : ∀ n, n < 10 → bool_decide (digit_char (Z.of_nat n) = ascii_of_nat 35) = false).
  { intros n Hn. do 10 (destruct n as [|n]; [done|]). lia. }
  rewrite <-(Z2Nat.id d) by lia. rewrite H by lia. done.
Qed.
Lemma hash_free_index i : hash_free (to_string (Z.of_nat i)) = true.
Proof.
  destruct (to_string_digits (Z.of_nat i)) as (neg & ds & -> & Hds & _).
  destruct neg; cbn [sign_string]; [rewrite string_cons_app; cbn [hash_free]; apply andb_true_iff; split; [done|]|];
    rewrite string_nil_app; by apply hash_free_digits.
Qed.
Lemma index_key_inj n i n' i' : index_key n i = index_key n' i' → n = n' ∧ i = i'.
Proof.
  unfold index_key. intros H. destruct (app_hash_inj n n' (to_string (Z.of_nat i)) (to_string (Z.of_nat i'))) as [-> Hi];
    [apply hash_free_index..|exact H|]. split; [done|]. apply (inj pretty) in Hi. lia.
Qed.

(** ** The machine *)
(** Phases by name and index, the last index, and how the workflow ended. *)
Record JournalState := mkJState {
  ja_phases : gmap (string * nat) NodeEventPhase.t;
  ja_previous : option nat;
  ja_terminal : option EventKind.t }.
Definition start_state : JournalState := mkJState ∅ None None.
Definition phase_at (a : JournalState) (name : string) (i : nat) : NodeEventPhase.t :=
  default NodeEventPhase.None_ (ja_phases a !! (name, i)).
Record event_ok (workflow : string) (e : ExecutionJournalEvent) : Prop := {
  eo_workflow : ev_workflow_canonical_name e ≠ "" ∧ ev_workflow_canonical_name e = workflow;
  eo_dependencies : names_ok (ev_satisfied_dependencies e);
  eo_selectors : names_ok (ev_used_mock_selectors e);
  eo_failure f : ev_failure_summary e = Some f → failure_ok f }.
Definition no_node (e : ExecutionJournalEvent) : Prop := ev_node_name e = None ∧ ev_execution_index e = None.
Record about_node (e : ExecutionJournalEvent) (name : string) (i : nat) : Prop := {
  an_name : ev_node_name e = Some name ∧ name ≠ "";
  an_index : ev_execution_index e = Some i;
  an_failure f x : ev_failure_summary e = Some f → fs_node_name f = Some x → x = name }.
Inductive phase_step (e : ExecutionJournalEvent) : NodeEventPhase.t → NodeEventPhase.t → Prop :=
  | phase_ready : ev_kind e = EventKind.NodeBecameReady → ev_failure_summary e = None →
      phase_step e NodeEventPhase.None_ NodeEventPhase.BecameReady
  | phase_started : ev_kind e = EventKind.NodeStarted → ev_failure_summary e = None →
      phase_step e NodeEventPhase.BecameReady NodeEventPhase.Started
  | phase_completed : ev_kind e = EventKind.NodeCompleted → ev_failure_summary e = None →
      phase_step e NodeEventPhase.Started NodeEventPhase.Completed
  | phase_mock_missing f : ev_kind e = EventKind.MockMissing → ev_failure_summary e = Some f →
      fs_kind f = RuntimeFailureKind.MockMissing → phase_step e NodeEventPhase.Started NodeEventPhase.Failed
  | phase_failed f : ev_kind e = EventKind.NodeFailed → ev_failure_summary e = Some f →
      fs_kind f = RuntimeFailureKind.NodeFailed → phase_step e NodeEventPhase.Started NodeEventPhase.Failed.
Inductive journal_step (workflow : string) (e : ExecutionJournalEvent) : JournalState → JournalState → Prop :=
  | step_session a : ja_terminal a = None → event_ok workflow e → ev_kind e = EventKind.SessionStarted →
      no_node e → ev_failure_summary e = None → journal_step workflow e a a
  | step_node a name i p : ja_terminal a = None → event_ok workflow e → about_node e name i →
      (∀ previous, ja_previous a = Some previous → previous ≤ i) → phase_step e (phase_at a name i) p →
      journal_step workflow e a (mkJState (<[(name, i) := p]> (ja_phases a)) (Some i) None)
  | step_completed a : ja_terminal a = None → event_ok workflow e → ev_kind e = EventKind.WorkflowCompleted →
      no_node e → ev_failure_summary e = None →
      journal_step workflow e a (mkJState (ja_phases a) (ja_previous a) (Some EventKind.WorkflowCompleted))
  | step_failed a f : ja_terminal a = None → event_ok workflow e → ev_kind e = EventKind.WorkflowFailed →
      no_node e → ev_failure_summary e = Some f → fs_kind f = RuntimeFailureKind.WorkflowFailed →
      journal_step workflow e a (mkJState (ja_phases a) (ja_previous a) (Some EventKind.WorkflowFailed)).
Inductive journal_trace (workflow : string) : JournalState → list ExecutionJournalEvent → JournalState → Prop :=
  | trace_nil a : journal_trace workflow a [] a
  | trace_cons a e a' events a'' : journal_step workflow e a a' → journal_trace workflow a' events a'' →
      journal_trace workflow a (e :: events) a''.
Definition some_failed (a : JournalState) : Prop := ∃ k, ja_phases a !! k = Some NodeEventPhase.Failed.
(** Every started node ended, and the workflow ended as its nodes did. *)
Record accepting (a : JournalState) : Prop := {
  ac_phases k p : ja_phases a !! k = Some p → terminal_phase p = true;
  ac_completed : ja_terminal a = Some EventKind.WorkflowCompleted → ¬ some_failed a;
  ac_failed : ja_terminal a = Some EventKind.WorkflowFailed → some_failed a;
  ac_open : ja_terminal a = None → ¬ some_failed a }.
Record valid_journal (j : ExecutionJournal) : Prop := {
  vj_version : ej_format_version j = kExecutionJournalFormatVersion;
  vj_session_version : ej_source_runtime_session_format_version j = kRuntimeSessionFormatVersion;
  vj_plan_version : ej_source_execution_plan_format_version j = kExecutionPlanFormatVersion;
  vj_workflow : ej_workflow_canonical_name j ≠ "";
  vj_session : ej_session_id j ≠ "";
  vj_first : ∃ e events, ej_events j = e :: events ∧ ev_kind e = EventKind.SessionStarted;
  vj_trace : ∃ a, journal_trace (ej_workflow_canonical_name j) start_state (ej_events j) a ∧ accepting a }.

(** ** The scan follows the machine *)
Record follows (st : JournalScan) (a : JournalState) : Prop := {
  fo_phases n i : js_phases st !! index_key n i = ja_phases a !! (n, i);
  fo_keys k p : js_phases st !! k = Some p → ∃ n i, k = index_key n i;
  fo_completed k : k ∈ js_completed st ↔ js_phases st !! k = Some NodeEventPhase.Completed;
  fo_failed k : k ∈ js_failed st ↔ js_phases st !! k = Some NodeEventPhase.Failed;
  fo_previous : js_previous st = ja_previous a;
  fo_terminal : js_terminal st = ja_terminal a }.
Lemma follows_initial : follows empty_journal_scan start_state.
Proof.
  split; cbn; [| | | |done..].
  - intros n i. by rewrite !lookup_empty.
  - intros k p. by rewrite lookup_empty.
  - intros k. rewrite lookup_empty, elem_of_empty. naive_solver.
  - intros k. rewrite lookup_empty, elem_of_empty. naive_solver.
Qed.
Lemma follows_phase st a n i : follows st a → phase_of st (index_key n i) = phase_at a n i.
Proof. intros Hf. unfold phase_of, phase_at. by rewrite (fo_phases _ _ Hf). Qed.
Lemma set_key_spec (P : NodeEventPhase.t) st a n i (b : bool) (s : gset string) q k :
  (∀ k, k ∈ s ↔ js_phases st !! k = Some P) → follows st a → phase_at a n i ≠ P →
  (b = true ↔ q = P) →
  k ∈ (if b then {[index_key n i]} ∪ s else s) ↔ <[index_key n i := q]> (js_phases st) !! k = Some P.
Proof.
  intros Hs Hf Hp Hb. rewrite <-(follows_phase st a n i Hf) in Hp. unfold phase_of in Hp.
  destruct (decide (k = index_key n i)) as [->|Hne].
  - rewrite lookup_insert_eq. destruct b.
    + rewrite elem_of_union, elem_of_singleton. split; [intros _; f_equal; by apply Hb|auto].
    + split; [|naive_solver]. intros Hin%Hs. exfalso. apply Hp. by rewrite Hin.
  - rewrite lookup_insert_ne by done. rewrite <-Hs. destruct b; [|done]. set_solver.
Qed.
Lemma phase_step_next e p q : phase_step e p q → q = next_phase (ev_kind e) ∧ p ≠ NodeEventPhase.Completed ∧
  p ≠ NodeEventPhase.Failed ∧ p = match ev_kind e with EventKind.NodeBecameReady => NodeEventPhase.None_
    | EventKind.NodeStarted => NodeEventPhase.BecameReady | _ => NodeEventPhase.Started end ∧
  match ev_kind e with EventKind.SessionStarted | EventKind.WorkflowCompleted | EventKind.WorkflowFailed => False | _ => True end.
Proof. intros H. by destruct H as [Hk _|Hk _|Hk _|f Hk _ _|f Hk _ _]; rewrite Hk. Qed.
Lemma about_node_index e name i : about_node e name i → node_and_index e = Some (name, i).
Proof. intros [[Hn Hne] Hi _]. unfold node_and_index. rewrite Hn, Hi. by rewrite bool_decide_eq_false_2. Qed.
Lemma follows_step workflow st a e a' : follows st a → journal_step workflow e a a' → follows (scan_event st e) a'.
Proof.
  intros Hf Hs. destruct Hs as [a _ _ Hk _ _|a name i p Ht _ Han _ Hp|a Ht _ Hk _ _|a f Ht _ Hk _ _ _].
  - unfold scan_event. by rewrite Hk.
  - destruct (phase_step_next _ _ _ Hp) as (-> & Hnc & Hnf & _ & Hkind).
    pose proof (about_node_index _ _ _ Han) as Hni.
    assert (Hscan : scan_event st e = mkJournalScan (<[index_key name i := next_phase (ev_kind e)]> (js_phases st))
      (if bool_decide (ev_kind e = EventKind.NodeCompleted) then {[index_key name i]} ∪ js_completed st else js_completed st)
      (if bool_decide (next_phase (ev_kind e) = NodeEventPhase.Failed) then {[index_key name i]} ∪ js_failed st else js_failed st)
      (Some i) (js_terminal st)).
    { unfold scan_event. rewrite Hni. by destruct (ev_kind e). }
    rewrite Hscan. split; cbn.
    + intros n' i'. destruct (decide ((name, i) = (n', i'))) as [[= <- <-]|Hne].
      * by rewrite !lookup_insert_eq.
      * rewrite lookup_insert_ne by (intros [-> ->]%index_key_inj; done). rewrite lookup_insert_ne by done. apply Hf.
    + intros k p [[<- _]|[_ Hk]]%lookup_insert_Some; [by exists name, i|]. by apply (fo_keys _ _ Hf k p).
    + intros k. eapply set_key_spec; [apply Hf|exact Hf|exact Hnc|]. rewrite bool_decide_eq_true. by destruct (ev_kind e).
    + intros k. eapply set_key_spec; [apply Hf|exact Hf|exact Hnf|]. by rewrite bool_decide_eq_true.
    + done.
    + rewrite (fo_terminal _ _ Hf). exact Ht.
  - unfold scan_event. rewrite Hk. destruct Hf. by split.
  - unfold scan_event. rewrite Hk. destruct Hf. by split.
Qed.

Lemma phase_step_deterministic e p q q' : phase_step e p q → phase_step e p q' → q = q'.
Proof. intros (-> & _)%phase_step_next (-> & _)%phase_step_next. done. Qed.
Lemma step_deterministic workflow e a a1 a2 : journal_step workflow e a a1 → journal_step workflow e a a2 → a1 = a2.
Proof.
  intros H1 H2. destruct H1 as [? _ _ Hk|a name i p _ _ Han _ Hp|? _ _ Hk|? ? _ _ Hk]; inversion H2 as [? _ _ Hk'|? name' i' p' _ _ Han' _ Hp'|? _ _ Hk'|? ? _ _ Hk'];
    subst; try congruence; try done;
    try (apply phase_step_next in Hp as (_ & _ & _ & _ & Hp); rewrite Hk' in Hp; done);
    try (apply phase_step_next in Hp' as (_ & _ & _ & _ & Hp'); rewrite Hk in Hp'; done).
  apply about_node_index in Han. apply about_node_index in Han'.
  assert (Heq : (name, i) = (name', i')) by congruence. injection Heq as -> ->.
  by rewrite (phase_step_deterministic _ _ _ _ Hp Hp').
Qed.

(** ** What the parts check *)
Lemma event_fields_checks e j : checks (validate_event_fields e j) (event_ok (ej_workflow_canonical_name j) e).
Proof.
  eapply checks_iff.
  - apply checks_andthen; [|apply checks_andthen; [apply checks_names|apply checks_andthen; [apply checks_names|]]].
    + apply (checks_iff _ (ev_workflow_canonical_name e ≠ "" ∧ ev_workflow_canonical_name e = ej_workflow_canonical_name j)); [|reflexivity].
      case_bool_decide.
      * eapply checks_iff; [apply checks_error_if|]. naive_solver.
      * eapply checks_iff; [apply checks_error_unless|]. naive_solver.
    + apply (option_checks _ (λ f, validate_failure_summary_owner f _ _)). intros f. apply failure_checks.
  - split; [intros (?&?&?&?); by split|]. by intros [].
Qed.
Lemma no_node_checks e : checks (validate_no_node e) (no_node e).
Proof.
  eapply checks_iff; [apply checks_andthen; apply checks_error_if|]. unfold no_node. by rewrite !has_value_false.
Qed.
Lemma no_failure_checks e : checks (validate_no_failure e) (ev_failure_summary e = None).
Proof. eapply checks_iff; [apply checks_error_if|]. apply has_value_false. Qed.
Lemma failure_kind_checks e (k : RuntimeFailureKind.t) m1 m2 : checks (match ev_failure_summary e with
    | None => error_if true m1 | Some f => error_if (negb (bool_decide (fs_kind f = k))) m2 end)
  (∃ f, ev_failure_summary e = Some f ∧ fs_kind f = k).
Proof.
  destruct (ev_failure_summary e) as [f|].
  - eapply checks_iff; [apply checks_error_unless|]. naive_solver.
  - eapply checks_iff; [apply checks_error_if|]. naive_solver.
Qed.
Lemma not_completed st a key : follows st a → phase_of st key = NodeEventPhase.Started → key ∉ js_completed st ∧ key ∉ js_failed st.
Proof.
  intros Hf Hp. unfold phase_of in Hp. split; [intros Hin%(fo_completed _ _ Hf)|intros Hin%(fo_failed _ _ Hf)];
    by rewrite Hin in Hp.
Qed.
Definition node_kind (k : EventKind.t) : bool :=
  match k with EventKind.SessionStarted | EventKind.WorkflowCompleted | EventKind.WorkflowFailed => false | _ => true end.
Lemma node_event_checks st a e name i : follows st a → node_kind (ev_kind e) = true →
  checks (validate_node_event e st name i)
    ((∀ previous, ja_previous a = Some previous → previous ≤ i) ∧
     (∀ f x, ev_failure_summary e = Some f → fs_node_name f = Some x → x = name) ∧
     ∃ p, phase_step e (phase_at a name i) p).
Proof.
  intros Hf Hk. unfold validate_node_event. rewrite <-(follows_phase _ _ _ _ Hf). set (key := index_key name i).
  pose proof (not_completed st a key Hf) as Hnc.
  apply checks_andthen; [|apply checks_andthen].
  - eapply checks_iff; [apply checks_error_if|]. rewrite (fo_previous _ _ Hf). destruct (ja_previous a) as [previous|].
    + rewrite bool_decide_eq_false. split; [intros ? ? [= <-]; lia|]. intros H. specialize (H previous eq_refl). lia.
    + naive_solver.
  - eapply checks_iff; [apply checks_error_if|]. destruct (ev_failure_summary e) as [f|]; [|naive_solver].
    destruct (fs_node_name f) as [x|] eqn:Ex; cbn [has_value andb]; [|naive_solver].
    rewrite negb_false_iff, bool_decide_eq_true. naive_solver.
  - destruct (ev_kind e) eqn:Ek; try done.
    + eapply checks_iff; [apply checks_andthen; [apply checks_error_unless|apply no_failure_checks]|]. split.
      * intros [-> ?]. eexists. by apply phase_ready.
      * intros [p Hp]. inversion Hp; try congruence; done.
    + eapply checks_iff; [apply checks_andthen; [apply checks_error_unless|apply no_failure_checks]|]. split.
      * intros [-> ?]. eexists. by apply phase_started.
      * intros [p Hp]. inversion Hp; try congruence; done.
    + eapply checks_iff; [apply checks_andthen; [apply checks_error_unless|apply checks_andthen; [apply checks_error_when|apply no_failure_checks]]|]. split.
      * intros (-> & _ & ?). eexists. by apply phase_completed.
      * intros [p Hp]. inversion Hp; try congruence. split_and!; [done| |done]. by apply Hnc.
    + eapply checks_iff; [apply checks_andthen; [apply checks_error_unless|apply checks_andthen; [apply failure_kind_checks|apply checks_error_when]]|].
      unfold expected_failure_kind. rewrite Ek, bool_decide_eq_true_2 by done. split.
      * intros (-> & (f & ? & ?) & _). eexists. by apply (phase_mock_missing e f).
      * intros [p Hp]. inversion Hp; try congruence. split_and!; [done|by exists f|]. by apply Hnc.
    + eapply checks_iff; [apply checks_andthen; [apply checks_error_unless|apply checks_andthen; [apply failure_kind_checks|apply checks_error_when]]|].
      unfold expected_failure_kind. rewrite Ek, bool_decide_eq_false_2 by done. split.
      * intros (-> & (f & ? & ?) & _). eexists. by apply (phase_failed e f).
      * intros [p Hp]. inversion Hp; try congruence. split_and!; [done|by exists f|]. by apply Hnc.
Qed.
Lemma node_kind_checks st a e : follows st a → node_kind (ev_kind e) = true →
  checks (validate_event e st)
    (∃ name i p, about_node e name i ∧ (∀ previous, ja_previous a = Some previous → previous ≤ i) ∧
       phase_step e (phase_at a name i) p).
Proof.
  intros Hf Hk.
  assert (Hv : validate_event e st = match ev_node_name e, ev_execution_index e with
      | None, _ => error_if true (event_says e "requires non-empty node_name")
      | Some name, index =>
          if bool_decide (name = "") then error_if true (event_says e "requires non-empty node_name")
          else match index with
          | None => error_if true (event_says e "requires execution_index")
          | Some index => validate_node_event e st name index
          end
      end) by (unfold validate_event; by destruct (ev_kind e)).
  rewrite Hv. destruct (ev_node_name e) as [name|] eqn:En.
  2:{ eapply checks_iff; [apply checks_error_if|]. split; [done|]. intros (?&?&?&[[] ? ?]&_). congruence. }
  case_bool_decide as Hne.
  { eapply checks_iff; [apply checks_error_if|]. split; [done|]. intros (?&?&?&[[] ? ?]&_). congruence. }
  destruct (ev_execution_index e) as [i|] eqn:Ei.
  2:{ eapply checks_iff; [apply checks_error_if|]. split; [done|]. intros (?&?&?&[[] ? ?]&_). congruence. }
  eapply checks_iff; [by apply node_event_checks|]. split.
  - intros (Hp & Hx & p & Hs). exists name, i, p. by split; [split|].
  - intros (name' & i' & p & [[Hn _] Hi Hx] & Hp & Hs). assert (name' = name) as -> by congruence.
    assert (i' = i) as -> by congruence. split_and!; [done..|]. by exists p.
Qed.
Lemma event_checks workflow st a e : follows st a → ja_terminal a = None → event_ok workflow e →
  checks (validate_event e st) (∃ a', journal_step workflow e a a').
Proof.
  intros Hf Ht Hok. destruct (node_kind (ev_kind e)) eqn:Ek.
  - eapply checks_iff; [by apply node_kind_checks|]. split.
    + intros (name & i & p & Han & Hp & Hs). eexists. by apply (step_node _ _ _ name i p).
    + intros [a' Hs]. destruct Hs as [? _ _ Hk|a name i p|? _ _ Hk|? ? _ _ Hk]; try by rewrite Hk in Ek. by exists name, i, p.
  - unfold validate_event. destruct (ev_kind e) eqn:E; try done.
    + eapply checks_iff; [apply checks_andthen; [apply no_node_checks|apply checks_error_if]|].
      rewrite has_value_false. split; [intros []; eexists; by apply step_session|].
      intros [a' Hs]. destruct Hs as [| a n i p _ _ _ _ Hs | |]; try done; try congruence.
      apply phase_step_next in Hs. rewrite E in Hs. by destruct Hs as (_ & _ & _ & _ & []).
    + eapply checks_iff; [apply checks_andthen; [apply no_node_checks|apply checks_error_if]|].
      rewrite has_value_false. split; [intros []; eexists; by apply step_completed|].
      intros [a' Hs]. destruct Hs as [| a n i p _ _ _ _ Hs | |]; try done; try congruence.
      apply phase_step_next in Hs. rewrite E in Hs. by destruct Hs as (_ & _ & _ & _ & []).
    + eapply checks_iff; [apply checks_andthen; [apply no_node_checks|apply failure_kind_checks]|].
      split; [intros [? (f & ? & ?)]; eexists; by apply (step_failed _ _ a f)|].
      intros [a' Hs]. destruct Hs as [| a n i p _ _ _ _ Hs | |a f]; try congruence; [|split; [done|by exists f]].
      apply phase_step_next in Hs. rewrite E in Hs. by destruct Hs as (_ & _ & _ & _ & []).
Qed.

(** ** The validation of a journal *)
Lemma validate_end_checks st a : follows st a → checks (validate_end st) (accepting a).
Proof.
  intros Hf. unfold validate_end. eapply checks_iff.
  - apply checks_andthen; [apply (checks_each _ (λ kp, terminal_phase kp.2 = true)); intros kp;
      eapply checks_iff; [apply checks_error_if|apply negb_false_iff]|].
    apply checks_andthen; [apply checks_error_if|]. apply checks_andthen; apply checks_error_if.
  - assert (Hfailed : js_failed st = ∅ ↔ ¬ some_failed a).
    { split.
      - intros He [[n i] Hk]. rewrite <-(fo_phases _ _ Hf) in Hk. apply (fo_failed _ _ Hf) in Hk. set_solver.
      - intros Hn. apply set_eq. intros k. split; [|set_solver]. intros Hk%(fo_failed _ _ Hf). exfalso. apply Hn.
        destruct (fo_keys _ _ Hf k _ Hk) as (n & i & ->). exists (n, i). by rewrite <-(fo_phases _ _ Hf). }
    assert (Hphases : (∀ kp, kp ∈ map_to_list (js_phases st) → terminal_phase kp.2 = true) ↔
      ∀ k p, ja_phases a !! k = Some p → terminal_phase p = true).
    { split.
      - intros H [n i] p Hk. rewrite <-(fo_phases _ _ Hf) in Hk. by apply (H (index_key n i, p)), elem_of_map_to_list.
      - intros H [k p] Hk%elem_of_map_to_list. destruct (fo_keys _ _ Hf k p Hk) as (n & i & ->).
        rewrite (fo_phases _ _ Hf) in Hk. by apply (H (n, i)). }
    rewrite Hphases, (fo_terminal _ _ Hf), !andb_false_iff, !negb_false_iff, !bool_decide_eq_false, !bool_decide_eq_true, Hfailed.
    assert (Hdec : ¬ (js_failed st = ∅) ↔ some_failed a).
    { rewrite Hfailed. split; [|tauto]. intros Hnn. destruct (decide (js_failed st = ∅)) as [He|Hne]; [tauto|].
      apply set_choose_L in Hne as [k Hk%(fo_failed _ _ Hf)]. destruct (fo_keys _ _ Hf k _ Hk) as (n & i & ->).
      exists (n, i). by rewrite <-(fo_phases _ _ Hf). }
    rewrite <-Hfailed, Hdec. split.
    + intros (? & H1 & H2 & H3). split; try done; rewrite <-?Hfailed; intros Ht; [by destruct H1|by destruct H2|by destruct H3].
    + intros [? H1 H2 H3]. rewrite <-Hfailed in H1, H3. split_and!; [done|..].
      * destruct (decide (ja_terminal a = Some EventKind.WorkflowCompleted)); auto.
      * destruct (decide (ja_terminal a = Some EventKind.WorkflowFailed)); auto.
      * destruct (decide (ja_terminal a = None)); auto.
Qed.
Lemma grows_nothing : grows no_check.
Proof. by intros b. Qed.
Lemma grows_error_if bad msg : grows (error_if bad msg).
Proof. eapply checks_grows, checks_error_if. Qed.
Ltac grow :=
  repeat match goal with
  | |- grows (_ &> _) => apply grows_andthen
  | |- grows (error_if _ _) => apply grows_error_if
  | |- grows no_check => apply grows_nothing
  | |- grows (match ?x with _ => _ end) => destruct x
  end.
Lemma grows_node_event e st name i : grows (validate_node_event e st name i).
Proof. unfold validate_node_event, validate_no_failure. cbv zeta. grow. Qed.
Lemma grows_event e st : grows (validate_event e st).
Proof. unfold validate_event, validate_no_node. grow; apply grows_node_event. Qed.
Lemma grows_events j st events : grows (validate_events j st events).
Proof.
  revert st. induction events as [|e events IH]; intros st; cbn [validate_events]; grow; try apply IH; try apply grows_event.
  eapply checks_grows, event_fields_checks.
Qed.
Lemma grows_end st : grows (validate_end st).
Proof. unfold validate_end. grow. eapply checks_grows, (checks_each _ _ _ (λ kp, checks_error_if _ _)). Qed.
Lemma trace_events j st a events : follows st a →
  checks (validate_events j st events &> validate_end (scan_events st events))
    (∃ a', journal_trace (ej_workflow_canonical_name j) a events a' ∧ accepting a').
Proof.
  revert st a. induction events as [|e events IH]; intros st a Hf; cbn [validate_events scan_events].
  - eapply checks_iff; [apply checks_andthen; [apply checks_nothing|by apply validate_end_checks]|]. split.
    + intros [_ Ha]. exists a. split; [constructor|done].
    + intros (a' & Ht & Ha). by inversion Ht; subst.
  - assert (Hassoc : ∀ f g h : checker, ((f &> g) &> h) = (f &> (g &> h))) by done.
    rewrite Hassoc. destruct (js_terminal st) as [k|] eqn:Et.
    { eapply checks_iff.
      - apply checks_then; [apply event_fields_checks|apply grows_andthen; [apply grows_error_if|apply grows_end]|]. intros _.
        apply checks_then; [apply checks_error_if|apply grows_end|]. intros [=].
        Unshelve. exact True.
      - split; [naive_solver|]. intros (a' & Ht & _). inversion Ht as [|? ? ? ? ? Hs]; subst. rewrite (fo_terminal _ _ Hf) in Et.
        destruct Hs; congruence. }
    assert (Hta : ja_terminal a = None) by by rewrite <-(fo_terminal _ _ Hf).
    eapply checks_iff.
    + eapply (checks_then _ _ _ (∃ a', journal_trace (ej_workflow_canonical_name j) a (e :: events) a' ∧ accepting a'));
        [apply event_fields_checks|grow; first [apply grows_event|apply grows_events|apply grows_end]|].
      intros Hok. rewrite Hassoc. eapply checks_iff.
      * eapply (checks_then _ _ _ (∃ a', journal_trace (ej_workflow_canonical_name j) a (e :: events) a' ∧ accepting a'));
          [by apply event_checks|apply grows_andthen; [apply grows_events|apply grows_end]|].
        intros [a1 Hs]. eapply checks_iff; [apply (IH _ a1); by eapply follows_step|]. split.
        -- intros (a' & Ht & Ha). exists a'. split; [|done]. by eapply trace_cons.
        -- intros (a' & Ht & Ha). inversion Ht as [|? ? a2 ? ? Hs2 Ht2]; subst. exists a'. split; [|done].
           by rewrite (step_deterministic _ _ _ _ _ Hs Hs2).
      * split; [by intros [_ ?]|]. intros (a' & Ht & Ha). split; [|by exists a'].
        inversion Ht as [|? ? a2 ? ? Hs2 Ht2]; subst. by exists a2.
    + split; [by intros [_ ?]|]. intros (a' & Ht & Ha). split; [|by exists a'].
      inversion Ht as [|? ? a2 ? ? Hs2 Ht2]; subst. by destruct Hs2.
Qed.
Lemma journal_checks j : checks (validate_execution_journal_from j) (valid_journal j).
Proof.
  unfold validate_execution_journal_from. eapply checks_iff.
  - apply checks_andthen.
    + unfold validate_journal_header. repeat (apply checks_andthen; [first [apply checks_error_unless|apply checks_error_when]|]).
      apply checks_error_when.
    + apply (checks_iff _ ((∃ e events, ej_events j = e :: events ∧ ev_kind e = EventKind.SessionStarted) ∧
        ∃ a, journal_trace (ej_workflow_canonical_name j) start_state (ej_events j) a ∧ accepting a)); [|reflexivity].
      destruct (ej_events j) as [|e events].
      * eapply checks_iff; [apply checks_error_if|]. naive_solver.
      * eapply checks_iff; [apply checks_andthen; [apply checks_error_unless|apply (trace_events _ _ _ _ follows_initial)]|].
        naive_solver.
  - split; [intros ((?&?&?&?&?)&?&?); by split|]. by intros [].
Qed.
(** The validation of a journal reports no error exactly when its events
    are a complete trace of the machine that begins with the session's start. *)
Theorem validate_execution_journal_exact j : has_error (validate_execution_journal j) = false ↔ valid_journal j.
Proof. apply checks_run, journal_checks. Qed.
