(* ===== verification/JournalBuild.v ===== *)
(** * The journal of a session

    A valid session has a journal, which is a trace of the machine, unless it
    failed with a summary of another kind than [WorkflowFailed]. *)
From S2P Require Import Prelude Diagnostics Checks Numeric Plan PlanProps DryRun DryRunProps Session SessionProps SessionRun Journal.
Open Scope nat_scope.
Open Scope ahfl_scope.

(** ** Nodes by name *)
Lemma index_session_nodes_sound l y k : index_session_nodes l !! y = Some k → k ∈ l ∧ sn_node_name k = y.
Proof.
  unfold index_session_nodes. revert y k. induction l as [|a l IH] using rev_ind; intros y k; [cbn; by rewrite lookup_empty|].
  rewrite foldl_app. cbn [foldl]. unfold add_session_node at 1. destruct (foldl _ ∅ l !! sn_node_name a); intros Hk.
  - destruct (IH _ _ Hk). split; [|done]. apply elem_of_app. by left.
  - apply lookup_insert_Some in Hk as [[<- <-]|[_ Hk]]; [split; [apply elem_of_app; right; left|done]|].
    destruct (IH _ _ Hk). split; [|done]. apply elem_of_app. by left.
Qed.
Lemma index_session_nodes_spec l x n : NoDup (sn_node_name <$> l) →
  index_session_nodes l !! x = Some n ↔ n ∈ l ∧ sn_node_name n = x.
Proof.
  induction l as [|m l IH] using rev_ind.
  - intros _. cbn. rewrite lookup_empty, elem_of_nil. naive_solver.
  - rewrite fmap_app. intros (Hnd & Hout & _)%NoDup_app. specialize (IH Hnd).
    unfold index_session_nodes. rewrite foldl_app. cbn [foldl]. fold (index_session_nodes l). unfold add_session_node.
    assert (Hfree : index_session_nodes l !! sn_node_name m = None).
    { destruct (index_session_nodes l !! sn_node_name m) as [k|] eqn:Ek; [|done]. exfalso.
      apply index_session_nodes_sound in Ek as [Hin Hname]. apply (Hout (sn_node_name m)); [|left]. rewrite <-Hname.
      by apply list_elem_of_fmap_2. }
    rewrite Hfree, lookup_insert_Some, elem_of_app, list_elem_of_singleton. split.
    + intros [[<- <-]|[Hne' Hk]]; [by split; [right|]|]. apply IH in Hk as [? ?]. split; [by left|done].
    + intros [[Hin| ->] <-]; [|by left]. right. split; [|by apply IH].
      intros Heq. apply (Hout (sn_node_name n)); [by apply list_elem_of_fmap_2|]. rewrite <-Heq. left.
Qed.

(** ** The events of a node are three steps *)
Definition final_phase (n : RuntimeSessionNode) : NodeEventPhase.t :=
  if bool_decide (sn_status n = NodeSessionStatus.Failed) then NodeEventPhase.Failed else NodeEventPhase.Completed.
Lemma trace_app w a l1 a1 l2 a2 : journal_trace w a l1 a1 → journal_trace w a1 l2 a2 → journal_trace w a (l1 ++ l2) a2.
Proof. induction 1 as [|a e a' l a'' Hs _ IH]; [done|]. intros H. eapply trace_cons; [exact Hs|]. by apply IH. Qed.
Lemma trace_split w a l1 l2 a2 : journal_trace w a (l1 ++ l2) a2 → ∃ a1, journal_trace w a l1 a1 ∧ journal_trace w a1 l2 a2.
Proof.
  revert a. induction l1 as [|e l1 IH]; intros a H; [exists a; split; [constructor|done]|].
  inversion H as [|? ? a' ? ? Hs Ht]; subst. destruct (IH a' Ht) as (a1 & H1 & H2). exists a1. split; [|done]. by eapply trace_cons.
Qed.
Section Build.
Context (s : RuntimeSession).
Hypothesis (valid : valid_session s).
Let workflow := rs_workflow_canonical_name s.
Lemma node_event_ok n k f used : valid_session_node s n → names_ok used → (∀ x, f = Some x → failure_ok x) →
  event_ok workflow (node_event s n k f used).
Proof. intros Hn Hu Hf. split; cbn; [split; [apply valid|done]|apply Hn|done|done]. Qed.
Lemma used_names n : valid_session_node s n → names_ok (mu_selector <$> sn_used_mocks n).
Proof.
  intros Hn. split; [|apply Hn]. apply Forall_forall. intros x (u & -> & Hu)%list_elem_of_fmap.
  by apply selector_named, (vn_usage _ _ Hn).
Qed.
Lemma node_about n k f used : sn_node_name n ≠ "" → (∀ x y, f = Some x → fs_node_name x = Some y → y = sn_node_name n) →
  about_node (node_event s n k f used) (sn_node_name n) (sn_execution_index n).
Proof. intros Hn Hf. by split. Qed.
Lemma nil_names_ok : names_ok [].
Proof. by split; [constructor|constructor]. Qed.
Lemma node_events_trace n a : n ∈ rs_nodes s → node_status_is_executed (sn_status n) = true →
  ja_terminal a = None → ja_phases a !! (sn_node_name n, sn_execution_index n) = None →
  (∀ previous, ja_previous a = Some previous → previous ≤ sn_execution_index n) →
  ∃ events, node_events s n = Some events ∧
    journal_trace workflow a events
      (mkJState (<[(sn_node_name n, sn_execution_index n) := final_phase n]> (ja_phases a)) (Some (sn_execution_index n)) None).
Proof.
  intros Hin Hex Ht Hfree Hprev. pose proof (vs_nodes _ valid n Hin) as Hn.
  assert (Hne : sn_node_name n ≠ "").
  { destruct (vs_names _ valid) as [Hne _]. rewrite Forall_forall in Hne. apply Hne. by apply list_elem_of_fmap_2. }
  set (key := (sn_node_name n, sn_execution_index n)) in *.
  assert (Hstart : ∀ last p, event_ok workflow last → about_node last key.1 key.2 → phase_step last NodeEventPhase.Started p →
    journal_trace workflow a ([node_event s n EventKind.NodeBecameReady None []; node_event s n EventKind.NodeStarted None []] ++ [last])
      (mkJState (<[key := p]> (ja_phases a)) (Some (sn_execution_index n)) None)).
  { intros last p Hok Habout Hp. eapply trace_cons; [|eapply trace_cons; [|eapply trace_cons; [|constructor]]].
    - apply (step_node _ _ _ (sn_node_name n) (sn_execution_index n) NodeEventPhase.BecameReady); [done| | |done|].
      + by apply node_event_ok; [|apply nil_names_ok|].
      + by apply node_about.
      + unfold phase_at. fold key. rewrite Hfree. by apply phase_ready.
    - apply (step_node _ _ _ (sn_node_name n) (sn_execution_index n) NodeEventPhase.Started); [done| | |by intros ? [= <-]|].
      + by apply node_event_ok; [|apply nil_names_ok|].
      + by apply node_about.
      + unfold phase_at. cbn [ja_phases]. fold key. rewrite lookup_insert_eq. by apply phase_started.
    - assert (Heq : <[key := p]> (ja_phases a) = <[key := p]> (<[key := NodeEventPhase.Started]> (<[key := NodeEventPhase.BecameReady]> (ja_phases a)))).
      { by rewrite !insert_insert_eq. }
      rewrite Heq. apply (step_node _ _ (mkJState _ _ _) (sn_node_name n) (sn_execution_index n) p); [done..|by intros ? [= <-]|].
      unfold phase_at. cbn [ja_phases]. fold key. by rewrite lookup_insert_eq. }
  pose proof (vn_status _ _ Hn) as Hst. unfold node_events, final_phase. unfold valid_status in Hst.
  destruct (sn_status n) eqn:E; try done; rewrite ?E in *.
  - eexists. split; [done|]. rewrite bool_decide_eq_false_2 by done. destruct Hst as [Hf _].
    apply Hstart; [by apply node_event_ok; [|apply used_names|]|by apply node_about|by apply phase_completed].
  - eexists. split; [done|]. rewrite bool_decide_eq_true_2 by done. destruct Hst as [(f & Hf & Hk) _].
    destruct (vn_failure _ _ Hn f Hf) as [Hfo Hfn].
    apply Hstart.
    + apply node_event_ok; [done|by apply used_names|]. rewrite Hf. by intros x [= <-].
    + apply node_about; [done|]. rewrite Hf. intros x y [= <-]. apply Hfn.
    + unfold failed_event_kind. rewrite Hf. cbn [fmap option_fmap option_map].
      destruct (fs_kind f) eqn:Ek; try done.
      * rewrite bool_decide_eq_true_2 by done. by apply (phase_mock_missing _ f).
      * rewrite bool_decide_eq_false_2 by done. by apply (phase_failed _ f).
Qed.

(** ** The events of the execution order *)
Let idx := index_session_nodes (rs_nodes s).
(** The machine after the nodes before index [k]. *)
Record ran_until (k : nat) (a : JournalState) : Prop := {
  ra_open : ja_terminal a = None;
  ra_phases x i p : ja_phases a !! (x, i) = Some p → i < k ∧ terminal_phase p = true;
  ra_previous previous : ja_previous a = Some previous → previous ≤ k }.
Definition runs_at (k : nat) (order : list string) (ns : list RuntimeSessionNode) : Prop :=
  Forall2 (λ x n, idx !! x = Some n ∧ n ∈ rs_nodes s ∧ sn_node_name n = x ∧
    node_status_is_executed (sn_status n) = true) order ns ∧
  ∀ i n, ns !! i = Some n → sn_execution_index n = k + i.
Lemma order_events_trace order ns k a : runs_at k order ns → ran_until k a →
  ∃ groups a', order_events s idx order = inl (mjoin groups) ∧
    Forall2 (λ n events, node_events s n = Some events) ns groups ∧
    journal_trace workflow a (mjoin groups) a' ∧ ran_until (k + length ns) a' ∧
    (some_failed a' ↔ some_failed a ∨ ∃ n, n ∈ ns ∧ sn_status n = NodeSessionStatus.Failed).
Proof.
  intros [Hns Hidx]. revert k a Hidx. induction Hns as [|x n order ns (Hx & Hin & Hname & Hex) _ IH]; intros k a Hidx [H1 H2 H3].
  - exists [], a. split_and!; [done|constructor|constructor|cbn; rewrite Nat.add_0_r; by split|].
    split; [auto|]. intros [?|(n & ?%elem_of_nil & _)]; done.
  - assert (Hi : sn_execution_index n = k) by (rewrite (Hidx 0 n eq_refl); lia).
    destruct (node_events_trace n a Hin Hex H1) as (events & He & Ht).
    { destruct (ja_phases a !! _) as [p|] eqn:E; [|done]. apply H2 in E as [? _]. lia. }
    { intros previous Hp. rewrite Hi. by apply H3. }
    set (a1 := mkJState _ _ _) in Ht.
    destruct (IH (S k) a1) as (groups & a' & Ho & Hg & Ht' & Hr & Hfail).
    { intros i m Hm. rewrite (Hidx (S i) m Hm). lia. }
    { split; cbn; [done| |intros ? [= <-]; lia]. intros y i p [[[= <- <-] <-]|[_ Hp]]%lookup_insert_Some.
      - split; [lia|]. unfold final_phase. by case_bool_decide.
      - apply H2 in Hp as [? ?]. split; [lia|done]. }
    exists (events :: groups), a'. split_and!.
    + cbn [order_events]. unfold idx in *. rewrite Hx, He, Ho. done.
    + by constructor.
    + cbn [mjoin list_join]. by eapply trace_app.
    + cbn [length]. by rewrite Nat.add_succ_r.
    + rewrite Hfail. setoid_rewrite elem_of_cons. unfold some_failed. cbn [ja_phases a1]. split.
      * intros [[key Hk]|(m & ? & ?)]; [|right; exists m; auto].
        apply lookup_insert_Some in Hk as [[_ Hk]|[_ Hk]]; [|left; by exists key]. right. exists n. split; [by left|].
        unfold final_phase in Hk. by case_bool_decide.
      * intros [[[y i] Hk]|(m & [->|Hm] & Hf)]; [| |right; by exists m].
        -- left. exists (y, i). rewrite lookup_insert_ne; [done|]. intros Heq. injection Heq as <- <-.
           apply H2 in Hk as [? _]. lia.
        -- left. exists (sn_node_name n, sn_execution_index n). rewrite lookup_insert_eq. unfold final_phase.
           by rewrite bool_decide_eq_true_2.
Qed.
(** The nodes of the execution order. *)
Lemma valid_runs : ∃ ns, runs_at 0 (rs_execution_order s) ns ∧
  ∀ n, n ∈ ns ↔ n ∈ rs_nodes s ∧ node_status_is_executed (sn_status n) = true.
Proof.
  assert (Hlook : ∀ i x, rs_execution_order s !! i = Some x → ∃ n, idx !! x = Some n ∧ n ∈ rs_nodes s ∧ sn_node_name n = x ∧
    node_status_is_executed (sn_status n) = true ∧ sn_execution_index n = i).
  { intros i x Hi. destruct (vs_executed _ valid i x Hi) as (n & Hn & Hx & He & Hi'). exists n.
    split_and!; [|done..]. apply index_session_nodes_spec; [apply (vs_names _ valid)|done]. }
  exists (omap (λ x, idx !! x) (rs_execution_order s)).
  assert (Hgen : ∀ l k, (∀ i x, l !! i = Some x → ∃ n, idx !! x = Some n ∧ n ∈ rs_nodes s ∧ sn_node_name n = x ∧
    node_status_is_executed (sn_status n) = true ∧ sn_execution_index n = k + i) → runs_at k l (omap (λ x, idx !! x) l)).
  { induction l as [|x l IH]; intros k Hl; [split; [constructor|done]|].
    destruct (Hl 0 x eq_refl) as (n & Hx & Hn & Hname & He & Hi). cbn [omap list_omap]. rewrite Hx.
    destruct (IH (S k)) as [IH1 IH2].
    { intros i y Hy. destruct (Hl (S i) y Hy) as (m & ?&?&?&?&?). exists m. split_and!; [done..|lia]. }
    split; [constructor; [done|exact IH1]|]. intros [|i] m Hm; [injection Hm as <-; lia|]. rewrite (IH2 i m Hm). lia. }
  split; [by apply Hgen|]. intros n. rewrite list_elem_of_omap. split.
  - intros (x & [i Hi]%list_elem_of_lookup_1 & Hx). destruct (Hlook i x Hi) as (m & Hm & ? & ? & ? & _).
    assert (m = n) as -> by congruence. done.
  - intros [Hn He]. exists (sn_node_name n). pose proof (vn_status _ _ (vs_nodes _ valid n Hn)) as Hst.
    split; [|by apply index_session_nodes_spec; [apply (vs_names _ valid)|]].
    apply list_elem_of_lookup_2 with (sn_execution_index n). unfold valid_status in Hst. destruct (sn_status n); try done; apply Hst.
Qed.
(** What the journal asks of a session beyond its own validation. *)
Definition failure_matches : Prop := rs_workflow_status s = WorkflowSessionStatus.Failed →
  ∀ f, rs_failure_summary s = Some f → fs_kind f = RuntimeFailureKind.WorkflowFailed.
Lemma workflow_event_ok k f : (∀ x, f = Some x → failure_ok x) → event_ok workflow (workflow_event s k f).
Proof. intros Hf. split; cbn; [split; [apply valid|done]|apply nil_names_ok..|done]. Qed.
Lemma session_order_events : ∃ ns groups, runs_at 0 (rs_execution_order s) ns ∧
  order_events s idx (rs_execution_order s) = inl (mjoin groups) ∧
  Forall2 (λ n events, node_events s n = Some events) ns groups ∧
  (failure_matches ↔ valid_journal (journal_of s
    (workflow_event s EventKind.SessionStarted None :: mjoin groups ++ end_events s))).
Proof.
  destruct valid_runs as (ns & Hruns & Hns).
  destruct (order_events_trace (rs_execution_order s) ns 0 start_state Hruns) as (groups & a & Ho & Hg & Ht & Hr & Hfail).
  { split; cbn; [done|intros x i p; by rewrite lookup_empty|done]. }
  exists ns, groups. split_and!; [done..|].
  assert (Hsf : some_failed a ↔ ∃ n, n ∈ rs_nodes s ∧ sn_status n = NodeSessionStatus.Failed).
  { rewrite Hfail. split.
    - intros [[k Hk]|(n & Hn & Hf)]; [cbn in Hk; by rewrite lookup_empty in Hk|]. apply Hns in Hn as [? _]. by exists n.
    - intros (n & Hn & Hf). right. exists n. split; [|done]. apply Hns. by rewrite Hf. }
  assert (Hfirst : journal_step workflow (workflow_event s EventKind.SessionStarted None) start_state start_state).
  { apply step_session; try done. by apply workflow_event_ok. }
  pose proof (vs_status _ valid) as Hst. unfold valid_workflow_status in Hst.
  destruct Hr as [Hopen Hph _]. split.
  - intros Hm. split; try apply valid; try done; [by eexists _, _|]. cbn [ej_events journal_of ej_workflow_canonical_name].
    assert (Hend : ∃ a', journal_trace workflow a (end_events s) a' ∧ accepting a').
    { unfold end_events. destruct (rs_workflow_status s) eqn:E.
      - eexists. split; [eapply trace_cons; [apply step_completed; try done; by apply workflow_event_ok|constructor]|].
        split; cbn; try done; [intros [x i] p Hp; by apply (Hph x i)|]. intros _. change (¬ some_failed a). rewrite Hsf.
        intros (n & Hn & Hf). destruct Hst as (_ & _ & Hc). by rewrite (Hc n Hn) in Hf.
      - destruct Hst as [[f Hf] Hex]. eexists. split.
        + eapply trace_cons; [apply (step_failed _ _ _ f); try done|constructor].
          * apply workflow_event_ok. intros x Hx. by apply (vs_failure _ valid).
          * by apply Hm.
        + split; cbn; try done; [intros [x i] p Hp; by apply (Hph x i)|]. intros _. change (some_failed a). by rewrite Hsf.
      - exists a. split; [constructor|]. split; [intros [x i] p Hp; by apply (Hph x i)| | |]; rewrite ?Hopen; try done.
        intros _. rewrite Hsf. intros (n & Hn & Hf). destruct Hst as [Hnone _]. by destruct (Hnone n Hn). }
    destruct Hend as (a' & Ht' & Ha). exists a'. split; [|done]. eapply trace_cons; [exact Hfirst|]. by eapply trace_app.
  - intros [_ _ _ _ _ _ (a' & Hj & Ha)] Hfs f Hf. cbn [ej_events journal_of ej_workflow_canonical_name] in Hj.
    inversion Hj as [|? ? a1 ? ? Hs1 Hj1]; subst. rewrite (step_deterministic _ _ _ _ _ Hs1 Hfirst) in Hj1.
    destruct (trace_split _ _ _ _ _ Hj1) as (a2 & Hj2 & Hj3). unfold end_events in Hj3. rewrite Hfs in Hj3.
    inversion Hj3 as [|? ? a3 ? ? Hs3 _]; subst. inversion Hs3; subst; try done.
    + by match goal with H : phase_step _ _ _ |- _ => apply phase_step_next in H as (_ & _ & _ & _ & []) end.
    + cbn in *. congruence.
Qed.
End Build.

(** ** The journal *)
Lemma build_journal_spec s :
  match jr_journal (build_execution_journal s) with
  | Some j => has_error (jr_diagnostics (build_execution_journal s)) = false ∧ valid_session s ∧ valid_journal j ∧
      ∃ ns groups, runs_at s 0 (rs_execution_order s) ns ∧
        Forall2 (λ n events, node_events s n = Some events) ns groups ∧
        j = journal_of s (workflow_event s EventKind.SessionStarted None :: mjoin groups ++ end_events s)
  | None => has_error (jr_diagnostics (build_execution_journal s)) = true ∧ ¬ (valid_session s ∧ failure_matches s)
  end.
Proof.
  unfold build_execution_journal. rewrite append_empty_l.
  pose proof (checks_run _ _ (session_checks s)) as Hs. fold (validate_runtime_session s) in Hs.
  destruct (has_error (validate_runtime_session s)) eqn:Ev.
  { split; [done|]. intros [Hv _]. apply Hs in Hv. congruence. }
  assert (Hv : valid_session s) by by apply Hs.
  destruct (session_order_events s Hv) as (ns & groups & Hruns & Ho & Hg & Hm). rewrite Ho. cbv zeta.
  set (j := journal_of s _) in *. pose proof (checks_run _ _ (journal_checks j)) as Hj.
  fold (validate_execution_journal j) in Hj. rewrite has_error_append, Ev. cbn [orb].
  destruct (has_error (validate_execution_journal j)) eqn:Ej; cbn [jr_journal jr_diagnostics]; rewrite has_error_append, Ev, Ej.
  - split; [done|]. intros [_ Hf]. apply Hm, Hj in Hf. congruence.
  - split; [done|]. split; [done|]. split; [by apply Hj|]. by exists ns, groups.
Qed.
(** [build_execution_journal] returns a journal exactly for the valid
    sessions whose failure, if they failed, is summarised as the workflow's;
    the journal is valid, and holds the ready, started and final events of the
    nodes in the execution order between the session's start and its end. *)
Theorem build_execution_journal_exact s :
  match jr_journal (build_execution_journal s) with
  | Some j => has_error (jr_diagnostics (build_execution_journal s)) = false ∧ valid_session s ∧ valid_journal j ∧
      ∃ ns groups, runs_at s 0 (rs_execution_order s) ns ∧
        Forall2 (λ n events, node_events s n = Some events) ns groups ∧
        j = journal_of s (workflow_event s EventKind.SessionStarted None :: mjoin groups ++ end_events s)
  | None => has_error (jr_diagnostics (build_execution_journal s)) = true ∧ ¬ (valid_session s ∧ failure_matches s)
  end.
Proof. apply build_journal_spec. Qed.
(** A failed session whose own summary repeats the node's. *)
Definition failed_session : RuntimeSession :=
  let failure := mkFailure RuntimeFailureKind.NodeFailed (Some "fetch") "failed" in
  mkSession kRuntimeSessionFormatVersion kExecutionPlanFormatVersion None "app::Main" "run" None WorkflowSessionStatus.Failed
    (Some failure) "input.json" (mkSessionOptions true) ["fetch"]
    [mkSessionNode "fetch" "app::Fetch" NodeSessionStatus.Failed 0 (Some failure) []
       (sample_lifecycle WorkflowNodeStartConditionKind.Immediate) (mkValueSummary []) [] []] (mkValueSummary []).
(** a session may pass its validation and have no journal: only the
    journal's validation asks for the kind of the workflow's failure. *)
Example valid_session_without_journal :
  has_error (validate_runtime_session failed_session) = false ∧
  jr_journal (build_execution_journal failed_session) = None.
Proof. by vm_compute. Qed.
