(* ===== verification/Replay.v ===== *)
(** * Replay views (src/pipeline/execution/replay_view/replay.{hpp,cpp})

    The comparison of a plan, a session and a journal, and the validation of
    the view that it builds. *)
From S2P Require Import PlanProps Schedule DryRunProps SessionProps SessionRun JournalBuild.
From S2P Require Import Prelude Diagnostics Checks Numeric Plan DryRun Session Journal.
Open Scope nat_scope.
Open Scope ahfl_scope.

Definition kReplayViewFormatVersion : string := "ahfl.replay-view.v2".
Module ReplayStatus.
Inductive t := Consistent | RuntimeFailed | Partial.
End ReplayStatus.
#[export] Instance ReplayStatus_eq_dec : EqDecision ReplayStatus.t.
Proof. solve_decision. Defined.
Record ReplayConsistencySummary := mkConsistency {
  plan_matches_session : bool; session_matches_journal : bool; journal_matches_execution_order : bool }.
Record ReplayNodeProgression := mkProgression {
  rp_node_name : string;
  rp_target : string;
  rp_execution_index : nat;
  rp_planned_dependencies : list string;
  rp_satisfied_dependencies : list string;
  rp_saw_node_became_ready : bool;
  rp_saw_node_started : bool;
  rp_saw_node_completed : bool;
  rp_saw_node_failed : bool;
  rp_failure_summary : option RuntimeFailureSummary;
  rp_used_mock_selectors : list string;
  rp_final_status : NodeSessionStatus.t }.
Record ReplayView := mkReplay {
  rv_format_version : string;
  rv_source_execution_plan_format_version : string;
  rv_source_runtime_session_format_version : string;
  rv_source_execution_journal_format_version : string;
  rv_source_package_identity : option PackageIdentity;
  rv_workflow_canonical_name : string;
  rv_session_id : string;
  rv_run_id : option string;
  rv_input_fixture : string;
  rv_workflow_status : WorkflowSessionStatus.t;
  rv_replay_status : ReplayStatus.t;
  rv_workflow_failure_summary : option RuntimeFailureSummary;
  rv_execution_order : list string;
  rv_nodes : list ReplayNodeProgression;
  rv_consistency : ReplayConsistencySummary }.
Record ReplayViewResult := mkReplayResult { vr_replay : option ReplayView; vr_diagnostics : DiagnosticBag }.

Definition find_workflow_node (w : WorkflowPlan) (name : string) : option WorkflowNodePlan :=
  head (base.filter (λ n, np_name n = name) (wp_nodes w)).

(** ** Validation *)
Definition replay_says (msg : string) : string := "replay view validation " +:+ msg.
Section ReplayNode.
Context (n : ReplayNodeProgression).
Definition progression_says (msg : string) : string := replay_says ("node '" +:+ rp_node_name n +:+ "' " +:+ msg).
(** A satisfied dependency: empty ones are reported and skipped. *)
Definition validate_satisfied (planned seen : gset string) (d : string) : checker :=
  if bool_decide (d = "") then error_if true (progression_says "contains empty satisfied dependency")
  else
    error_if (bool_decide (d ∈ seen)) (progression_says ("contains duplicate satisfied dependency '" +:+ d +:+ "'")) &>
    error_if (negb (bool_decide (d ∈ planned)))
      (progression_says ("contains satisfied dependency '" +:+ d +:+ "' not declared in planned_dependencies")).
Definition validate_progression_failure : checker :=
  match rp_failure_summary n with
  | Some summary =>
      validate_failure_summary_owner summary ("node '" +:+ rp_node_name n +:+ "'") "replay view validation" &>
      error_if (has_value (fs_node_name summary) && negb (bool_decide (fs_node_name summary = Some (rp_node_name n))))
        (progression_says "failure summary node_name does not match node")
  | None => no_check
  end.
Definition complete_progression : bool :=
  rp_saw_node_became_ready n && rp_saw_node_started n && rp_saw_node_completed n && negb (rp_saw_node_failed n).
Definition failed_progression : bool :=
  rp_saw_node_became_ready n && rp_saw_node_started n && negb (rp_saw_node_completed n) && rp_saw_node_failed n.
Definition validate_final_status : checker :=
  match rp_final_status n with
  | NodeSessionStatus.Completed =>
      error_if (negb complete_progression)
        (progression_says "does not contain a complete ready/start/completed progression") &>
      error_if (has_value (rp_failure_summary n))
        (progression_says "must not carry failure summary while final_status is Completed")
  | NodeSessionStatus.Failed =>
      error_if (negb failed_progression)
        (progression_says "does not contain a complete ready/start/failed progression") &>
      error_if (negb (has_value (rp_failure_summary n)))
        (progression_says "must carry failure summary while final_status is Failed")
  | _ => error_if true (progression_says "is not executable terminal in replay progression")
  end.
Definition validate_progression (indices : gset nat) : checker :=
  error_if (bool_decide (rp_target n = "")) (progression_says "has empty target") &>
  error_if (bool_decide (rp_execution_index n ∈ indices))
    (progression_says ("reuses execution_index " +:+ to_string (Z.of_nat (rp_execution_index n)))) &>
  check_names (progression_says "contains empty planned dependency")
    (λ d, progression_says ("contains duplicate planned dependency '" +:+ d +:+ "'")) (rp_planned_dependencies n) &>
  each_from insert_name (validate_satisfied (foldl insert_name ∅ (rp_planned_dependencies n))) ∅
    (rp_satisfied_dependencies n) &>
  check_names (progression_says "contains empty used mock selector")
    (λ s, progression_says ("contains duplicate used mock selector '" +:+ s +:+ "'")) (rp_used_mock_selectors n) &>
  validate_progression_failure &>
  validate_final_status.
End ReplayNode.
(** [nodes_by_name] and the indices of the nodes so far. *)
Definition ReplayScan : Type := gmap string ReplayNodeProgression * gset nat.
Definition skipped_progression (sc : ReplayScan) (n : ReplayNodeProgression) : bool :=
  bool_decide (rp_node_name n = "") || has_value (sc.1 !! rp_node_name n).
Definition scan_progression (sc : ReplayScan) (n : ReplayNodeProgression) : ReplayScan :=
  if skipped_progression sc n then sc
  else (<[rp_node_name n := n]> sc.1, {[rp_execution_index n]} ∪ sc.2).
Definition validate_scanned_progression (sc : ReplayScan) (n : ReplayNodeProgression) : checker :=
  if bool_decide (rp_node_name n = "") then error_if true (replay_says "contains node with empty node_name")
  else if has_value (sc.1 !! rp_node_name n) then
    error_if true (replay_says ("contains duplicate node '" +:+ rp_node_name n +:+ "'"))
  else validate_progression n sc.2.
Definition validate_replay_order (nodes_by_name : gmap string ReplayNodeProgression) (index : nat) (name : string) : checker :=
  match nodes_by_name !! name with
  | None => error_if true (replay_says ("execution_order references unknown node '" +:+ name +:+ "'"))
  | Some n => error_if (negb (bool_decide (rp_execution_index n = index)))
      (replay_says ("execution_order node '" +:+ name +:+ "' index does not match node execution_index"))
  end.
Definition validate_replay_status (r : ReplayView) : checker :=
  match rv_workflow_status r with
  | WorkflowSessionStatus.Completed =>
      error_if (negb (bool_decide (rv_replay_status r = ReplayStatus.Consistent)))
        (replay_says "completed workflow must use replay_status Consistent") &>
      error_if (has_value (rv_workflow_failure_summary r))
        (replay_says "completed workflow must not carry workflow failure summary")
  | WorkflowSessionStatus.Failed =>
      error_if (negb (bool_decide (rv_replay_status r = ReplayStatus.RuntimeFailed)))
        (replay_says "failed workflow must use replay_status RuntimeFailed") &>
      error_if (negb (has_value (rv_workflow_failure_summary r)))
        (replay_says "failed workflow must carry workflow failure summary")
  | WorkflowSessionStatus.Partial =>
      error_if (negb (bool_decide (rv_replay_status r = ReplayStatus.Partial)))
        (replay_says "partial workflow must use replay_status Partial") &>
      error_if (has_value (rv_workflow_failure_summary r))
        (replay_says "partial workflow must not carry workflow failure summary")
  end.
Definition validate_consistency (c : ReplayConsistencySummary) : checker :=
  error_if (negb (plan_matches_session c)) (replay_says "consistency.plan_matches_session must be true") &>
  error_if (negb (session_matches_journal c)) (replay_says "consistency.session_matches_journal must be true") &>
  error_if (negb (journal_matches_execution_order c))
    (replay_says "consistency.journal_matches_execution_order must be true").
Definition validate_replay_header (r : ReplayView) : checker :=
  error_if (negb (bool_decide (rv_format_version r = kReplayViewFormatVersion)))
    (replay_says ("encountered unsupported format_version '" +:+ rv_format_version r +:+ "'")) &>
  error_if (negb (bool_decide (rv_source_execution_plan_format_version r = kExecutionPlanFormatVersion)))
    (replay_says ("encountered unsupported source_execution_plan_format_version '" +:+
                  rv_source_execution_plan_format_version r +:+ "'")) &>
  error_if (negb (bool_decide (rv_source_runtime_session_format_version r = kRuntimeSessionFormatVersion)))
    (replay_says ("encountered unsupported source_runtime_session_format_version '" +:+
                  rv_source_runtime_session_format_version r +:+ "'")) &>
  error_if (negb (bool_decide (rv_source_execution_journal_format_version r = kExecutionJournalFormatVersion)))
    (replay_says ("encountered unsupported source_execution_journal_format_version '" +:+
                  rv_source_execution_journal_format_version r +:+ "'")) &>
  error_if (bool_decide (rv_workflow_canonical_name r = "")) (replay_says "contains empty workflow_canonical_name") &>
  error_if (bool_decide (rv_session_id r = "")) (replay_says "contains empty session_id") &>
  error_if (bool_decide (rv_input_fixture r = "")) (replay_says "contains empty input_fixture") &>
  match rv_workflow_failure_summary r with
  | Some summary => validate_failure_summary_owner summary "workflow" "replay view validation"
  | None => no_check
  end.
Definition validate_replay_view_from (r : ReplayView) : checker :=
  validate_replay_header r &>
  check_names (replay_says "execution_order contains empty node name")
    (λ name, replay_says ("execution_order contains duplicate node '" +:+ name +:+ "'")) (rv_execution_order r) &>
  each_from scan_progression validate_scanned_progression (∅, ∅) (rv_nodes r) &>
  each_index (validate_replay_order (foldl scan_progression (∅, ∅) (rv_nodes r)).1) 0 (rv_execution_order r) &>
  error_if (negb (bool_decide (length (rv_execution_order r) = length (rv_nodes r))))
    (replay_says "execution_order size must match replay node count") &>
  validate_replay_status r &>
  validate_consistency (rv_consistency r).
Definition validate_replay_view (r : ReplayView) : DiagnosticBag := validate_replay_view_from r empty_bag.

(** ** The comparison *)
Definition view_says (msg : string) : string := "replay view " +:+ msg.
(** The headers of the session and the journal. *)
Definition compare_headers (plan : ExecutionPlan) (s : RuntimeSession) (j : ExecutionJournal) : checker :=
  error_if (negb (bool_decide (rs_source_execution_plan_format_version s = plan_format_version plan)))
    (view_says "runtime session source_execution_plan_format_version does not match execution plan") &>
  error_if (negb (bool_decide (ej_source_execution_plan_format_version j = plan_format_version plan)))
    (view_says "execution journal source_execution_plan_format_version does not match execution plan") &>
  error_if (negb (bool_decide (ej_source_runtime_session_format_version j = rs_format_version s)))
    (view_says "execution journal source_runtime_session_format_version does not match runtime session") &>
  error_if (negb (package_identity_equals (source_package_identity plan) (rs_source_package_identity s)))
    (view_says "runtime session source_package_identity does not match execution plan") &>
  error_if (negb (package_identity_equals (source_package_identity plan) (ej_source_package_identity j)))
    (view_says "execution journal source_package_identity does not match execution plan") &>
  error_if (negb (bool_decide (rs_workflow_canonical_name s = ej_workflow_canonical_name j)))
    (view_says "workflow_canonical_name does not match between runtime session and execution journal") &>
  error_if (negb (bool_decide (rs_session_id s = ej_session_id j)))
    (view_says "session_id does not match between runtime session and execution journal") &>
  error_if (negb (bool_decide (rs_run_id s = ej_run_id j)))
    (view_says "run_id does not match between runtime session and execution journal").
(** [journal_events_by_node[key]] *)
Definition event_key (e : ExecutionJournalEvent) : option string :=
  match ev_node_name e, ev_execution_index e with
  | Some name, Some index => Some (index_key name index)
  | _, _ => None
  end.
Definition events_of (key : string) (events : list ExecutionJournalEvent) : list ExecutionJournalEvent :=
  base.filter (λ e, event_key e = Some key) events.
Definition journal_completed_order (events : list ExecutionJournalEvent) : list string :=
  omap (λ e, match ev_node_name e, ev_execution_index e with
    | Some name, Some _ => if bool_decide (ev_kind e = EventKind.NodeCompleted) then Some name else None
    | _, _ => None
    end) events.
Definition session_completed_order (nodes_by_name : gmap string RuntimeSessionNode) (order : list string) : list string :=
  base.filter (λ name, sn_status <$> nodes_by_name !! name = Some NodeSessionStatus.Completed) order.
(** One event of a node. *)
Definition see_event (p : ReplayNodeProgression) (e : ExecutionJournalEvent) : ReplayNodeProgression :=
  let p' ready started completed failed failure used :=
    mkProgression (rp_node_name p) (rp_target p) (rp_execution_index p) (rp_planned_dependencies p)
      (rp_satisfied_dependencies p) ready started completed failed failure used (rp_final_status p) in
  match ev_kind e with
  | EventKind.NodeBecameReady =>
      p' true (rp_saw_node_started p) (rp_saw_node_completed p) (rp_saw_node_failed p) (rp_failure_summary p)
        (rp_used_mock_selectors p)
  | EventKind.NodeStarted =>
      p' (rp_saw_node_became_ready p) true (rp_saw_node_completed p) (rp_saw_node_failed p) (rp_failure_summary p)
        (rp_used_mock_selectors p)
  | EventKind.NodeCompleted =>
      p' (rp_saw_node_became_ready p) (rp_saw_node_started p) true (rp_saw_node_failed p) (rp_failure_summary p)
        (ev_used_mock_selectors e)
  | EventKind.MockMissing | EventKind.NodeFailed =>
      p' (rp_saw_node_became_ready p) (rp_saw_node_started p) (rp_saw_node_completed p) true (ev_failure_summary e)
        (ev_used_mock_selectors e)
  | _ => p
  end.
Definition initial_progression (n : WorkflowNodePlan) (sn : RuntimeSessionNode) : ReplayNodeProgression :=
  mkProgression (sn_node_name sn) (sn_target sn) (sn_execution_index sn) (np_after n) (sn_satisfied_dependencies sn)
    false false false false None [] (sn_status sn).
(** The checks of a node against its events: whether it agrees, and the errors. *)
Definition compare_progression (name : string) (sn : RuntimeSessionNode) (p : ReplayNodeProgression) : checker * bool :=
  let node_says msg := view_says ("node '" +:+ name +:+ "' " +:+ msg) in
  match sn_status sn with
  | NodeSessionStatus.Completed =>
      (error_if (negb (complete_progression p)) (node_says "does not have a complete ready/start/completed event sequence"),
       complete_progression p)
  | NodeSessionStatus.Failed =>
      (error_if (negb (failed_progression p)) (node_says "does not have a complete ready/start/failed event sequence") &>
       error_if (negb (failure_summary_equals (rp_failure_summary p) (sn_failure_summary sn)))
         (node_says "failure summary does not match runtime session"),
       failed_progression p && failure_summary_equals (rp_failure_summary p) (sn_failure_summary sn))
  | _ => (error_if true (view_says ("execution_order node '" +:+ name +:+ "' is not executable terminal in runtime session")), false)
  end.
(** The loop over the execution order: the nodes and the consistency of the
    view, and the errors. *)
Record ReplayRun := mkReplayRun { ry_nodes : list ReplayNodeProgression; ry_consistency : ReplayConsistencySummary; ry_checks : checker }.
Definition plan_mismatch (c : ReplayConsistencySummary) : ReplayConsistencySummary :=
  mkConsistency false (session_matches_journal c) (journal_matches_execution_order c).
Definition journal_mismatch (c : ReplayConsistencySummary) : ReplayConsistencySummary :=
  mkConsistency (plan_matches_session c) false (journal_matches_execution_order c).
Definition replay_node (w : WorkflowPlan) (session_nodes : gmap string RuntimeSessionNode) (events : list ExecutionJournalEvent)
    (r : ReplayRun) (name : string) : ReplayRun :=
  let fail c f := mkReplayRun (ry_nodes r) c (ry_checks r &> f) in
  match session_nodes !! name with
  | None => fail (plan_mismatch (ry_consistency r))
      (error_if true (view_says ("runtime session execution_order references unknown node '" +:+ name +:+ "'")))
  | Some sn =>
      match find_workflow_node w name with
      | None => fail (plan_mismatch (ry_consistency r))
          (error_if true (view_says ("execution_order node '" +:+ name +:+ "' does not exist in execution plan workflow")))
      | Some n =>
          let same_target := bool_decide (np_target n = sn_target sn) in
          let c := if same_target then ry_consistency r else plan_mismatch (ry_consistency r) in
          let f := error_if (negb same_target) (view_says ("node '" +:+ name +:+ "' target does not match execution plan")) in
          match events_of (index_key name (sn_execution_index sn)) events with
          | [] => fail (journal_mismatch c) (f &>
              error_if true (view_says ("missing execution journal events for node '" +:+ name +:+ "' execution_index " +:+
                to_string (Z.of_nat (sn_execution_index sn)))))
          | node_events =>
              let p := foldl see_event (initial_progression n sn) node_events in
              let '(g, agrees) := compare_progression name sn p in
              mkReplayRun (ry_nodes r ++ [p]) (if agrees then c else journal_mismatch c) (ry_checks r &> f &> g)
          end
      end
  end.
Definition replay_status_of (s : WorkflowSessionStatus.t) : ReplayStatus.t :=
  match s with
  | WorkflowSessionStatus.Completed => ReplayStatus.Consistent
  | WorkflowSessionStatus.Failed => ReplayStatus.RuntimeFailed
  | WorkflowSessionStatus.Partial => ReplayStatus.Partial
  end.
Definition replay_of (plan : ExecutionPlan) (s : RuntimeSession) (j : ExecutionJournal) (nodes : list ReplayNodeProgression)
    (c : ReplayConsistencySummary) : ReplayView :=
  mkReplay kReplayViewFormatVersion (plan_format_version plan) (rs_format_version s) (ej_format_version j)
    (source_package_identity plan) (rs_workflow_canonical_name s) (rs_session_id s) (rs_run_id s) (rs_input_fixture s)
    (rs_workflow_status s) (replay_status_of (rs_workflow_status s)) (rs_failure_summary s) (rs_execution_order s) nodes c.
Definition build_replay_view (plan : ExecutionPlan) (s : RuntimeSession) (j : ExecutionJournal) : cxx ReplayViewResult :=
  plan_diagnostics ← validate_execution_plan plan;
  let d := append (append (append empty_bag plan_diagnostics) (validate_runtime_session s)) (validate_execution_journal j) in
  if has_error d then Ret (mkReplayResult None d) else
  let d := compare_headers plan s j d in
  match find_workflow_plan plan (rs_workflow_canonical_name s) with
  | None => Ret (mkReplayResult None
      (emit_error (view_says ("workflow '" +:+ rs_workflow_canonical_name s +:+ "' does not exist in execution plan")) d))
  | Some w =>
      if has_error d then Ret (mkReplayResult None d) else
      let session_nodes := index_session_nodes (rs_nodes s) in
      let same_order := bool_decide (journal_completed_order (ej_events j) =
        session_completed_order session_nodes (rs_execution_order s)) in
      let start := mkReplayRun [] (mkConsistency true true same_order)
        (error_if (negb same_order)
          (view_says "execution journal completed node order does not match runtime session completed execution_order")) in
      let r := foldl (replay_node w session_nodes (ej_events j)) start (rs_execution_order s) in
      let d := ry_checks r d in
      if has_error d then Ret (mkReplayResult None d) else
      let replay := replay_of plan s j (ry_nodes r) (ry_consistency r) in
      let d := append d (validate_replay_view replay) in
      if has_error d then Ret (mkReplayResult None d) else Ret (mkReplayResult (Some replay) d)
  end.

(** ** Replays of built sessions

    What the validation of views accepts, and that the comparison succeeds for
    a session built from a plan and the journal built from the session. *)

(** ** Valid views *)
Definition valid_final_status (n : ReplayNodeProgression) : Prop :=
  match rp_final_status n with
  | NodeSessionStatus.Completed => complete_progression n = true ∧ rp_failure_summary n = None
  | NodeSessionStatus.Failed => failed_progression n = true ∧ is_Some (rp_failure_summary n)
  | _ => False
  end.
Record valid_progression (n : ReplayNodeProgression) : Prop := {
  vp_target : rp_target n ≠ "";
  vp_planned : names_ok (rp_planned_dependencies n);
  vp_satisfied : names_ok (rp_satisfied_dependencies n) ∧
    ∀ d, d ∈ rp_satisfied_dependencies n → d ∈ rp_planned_dependencies n;
  vp_selectors : names_ok (rp_used_mock_selectors n);
  vp_failure f : rp_failure_summary n = Some f → failure_ok f ∧ ∀ x, fs_node_name f = Some x → x = rp_node_name n;
  vp_status : valid_final_status n }.
Definition valid_replay_status (r : ReplayView) : Prop :=
  rv_replay_status r = replay_status_of (rv_workflow_status r) ∧
  (rv_workflow_status r = WorkflowSessionStatus.Failed ↔ is_Some (rv_workflow_failure_summary r)).
Record valid_replay (r : ReplayView) : Prop := {
  vr_versions : rv_format_version r = kReplayViewFormatVersion ∧
    rv_source_execution_plan_format_version r = kExecutionPlanFormatVersion ∧
    rv_source_runtime_session_format_version r = kRuntimeSessionFormatVersion ∧
    rv_source_execution_journal_format_version r = kExecutionJournalFormatVersion;
  vr_named : rv_workflow_canonical_name r ≠ "" ∧ rv_session_id r ≠ "" ∧ rv_input_fixture r ≠ "";
  vr_failure f : rv_workflow_failure_summary r = Some f → failure_ok f;
  vr_order : names_ok (rv_execution_order r);
  vr_names : names_ok (rp_node_name <$> rv_nodes r);
  vr_indices : NoDup (rp_execution_index <$> rv_nodes r);
  vr_nodes n : n ∈ rv_nodes r → valid_progression n;
  vr_indexed i x : rv_execution_order r !! i = Some x → ∃ n, n ∈ rv_nodes r ∧ rp_node_name n = x ∧ rp_execution_index n = i;
  vr_length : length (rv_execution_order r) = length (rv_nodes r);
  vr_status : valid_replay_status r;
  vr_consistent : rv_consistency r = mkConsistency true true true }.

(** ** What the parts check *)
Lemma satisfied_checks n planned seen d :
  checks (validate_satisfied n planned seen d) (d ≠ "" ∧ d ∉ seen ∧ d ∈ planned).
Proof.
  unfold validate_satisfied. case_bool_decide.
  - eapply checks_iff; [apply checks_error_if|]. naive_solver.
  - eapply checks_iff; [apply checks_andthen; [apply checks_error_when|apply checks_error_unless]|]. naive_solver.
Qed.
Lemma satisfied_list_checks n planned l :
  checks (each_from insert_name (validate_satisfied n planned) ∅ l) (names_ok l ∧ ∀ d, d ∈ l → d ∈ planned).
Proof.
  eapply checks_iff; [apply (checks_each_from _ _ _ _ _ (satisfied_checks n planned))|]. split.
  - intros H. assert (Hne : Forall (λ x, x ≠ "") l) by (apply Forall_lookup_2; intros i x Hi; by apply (H i)).
    split; [split; [done|]|intros d [i Hi]%list_elem_of_lookup_1; by apply (H i)].
    rewrite <-(list_fmap_id l). apply (collected_NoDup id). intros i x Hi. destruct (H i x Hi) as (_ & Hn & _).
    rewrite insert_name_foldl in Hn; [done|by apply Forall_take].
  - intros [[Hne Hnd] Hp] i x Hi. split; [exact (Forall_lookup_1 _ _ _ _ Hne Hi)|]. split.
    + rewrite <-(list_fmap_id l) in Hnd. rewrite insert_name_foldl by by apply Forall_take.
      by apply (proj2 (collected_NoDup id l)).
    + apply Hp. by eapply list_elem_of_lookup_2.
Qed.
Lemma progression_failure_checks n : checks (validate_progression_failure n)
  (∀ f, rp_failure_summary n = Some f → failure_ok f ∧ ∀ x, fs_node_name f = Some x → x = rp_node_name n).
Proof.
  apply option_checks. intros f. apply checks_andthen; [apply failure_checks|].
  eapply checks_iff; [apply checks_error_if|]. destruct (fs_node_name f) as [x|]; cbn [has_value andb]; [|naive_solver].
  rewrite negb_false_iff, bool_decide_eq_true. naive_solver.
Qed.
Lemma final_status_checks n : checks (validate_final_status n) (valid_final_status n).
Proof.
  unfold validate_final_status, valid_final_status. destruct (rp_final_status n).
  1,2,5: eapply checks_iff; [apply checks_error_if|]; done.
  - eapply checks_iff; [apply checks_andthen; apply checks_error_if|]. by rewrite negb_false_iff, has_value_false.
  - eapply checks_iff; [apply checks_andthen; apply checks_error_if|]. by rewrite !negb_false_iff, has_value_true.
Qed.
Lemma progression_checks n indices :
  checks (validate_progression n indices) (rp_execution_index n ∉ indices ∧ valid_progression n).
Proof.
  eapply checks_iff.
  - apply checks_andthen; [apply checks_error_when|]. apply checks_andthen; [apply checks_error_when|].
    apply checks_andthen; [apply checks_names|]. apply checks_andthen; [apply satisfied_list_checks|].
    apply checks_andthen; [apply checks_names|]. apply checks_andthen; [apply progression_failure_checks|].
    apply final_status_checks.
  - assert (Hset : Forall (λ x, x ≠ "") (rp_planned_dependencies n) → ∀ d,
      d ∈ foldl insert_name ∅ (rp_planned_dependencies n) ↔ d ∈ rp_planned_dependencies n).
    { intros Hne d. rewrite insert_names_elem, elem_of_empty. rewrite Forall_forall in Hne. naive_solver. }
    split.
    + intros (?&?&Hp&[? Hs]&?&?&?). split; [done|]. split; try done. split; [done|]. intros d Hd. apply Hset; [apply Hp|auto].
    + intros [? [? Hp [[? ?] Hs] [? ?] ? ?]]. destruct Hp as [Hp1 Hp2]. split_and!; try done. intros d Hd. apply Hset; auto.
Qed.
(** The scan collects the nodes by name and their indices. *)
Lemma progressions_scanned l : names_ok (rp_node_name <$> l) →
  (∀ x n, (foldl scan_progression (∅, ∅) l).1 !! x = Some n ↔ n ∈ l ∧ rp_node_name n = x) ∧
  (∀ i, i ∈ (foldl scan_progression (∅, ∅) l).2 ↔ i ∈ rp_execution_index <$> l).
Proof.
  induction l as [|n l IH] using rev_ind; intros Hok.
  - split; [intros x n; cbn; rewrite lookup_empty, elem_of_nil; naive_solver|intros i; cbn; set_solver].
  - rewrite fmap_app in Hok. destruct Hok as [[Hne Hn]%Forall_app Hnd]. apply Forall_cons in Hn as [Hn _].
    apply NoDup_app in Hnd as (Hnd & Hout & _). destruct IH as [H1 H2]; [by split|]. rewrite foldl_app, !fmap_app. cbn [foldl].
    assert (Hfree : (foldl scan_progression (∅, ∅) l).1 !! rp_node_name n = None).
    { destruct (_ !! _) as [m|] eqn:E; [|done]. apply H1 in E as [Hm Hname]. exfalso. apply (Hout (rp_node_name n)); [|left].
      rewrite <-Hname. by apply list_elem_of_fmap_2. }
    unfold scan_progression at 1 3, skipped_progression. rewrite Hfree, bool_decide_eq_false_2 by done. cbn [orb has_value fst snd].
    split; [intros x m|intros i]; rewrite elem_of_app.
    + rewrite lookup_insert_Some, H1, list_elem_of_singleton. split.
      * intros [[<- <-]|[? [??]]]; [by split; [right|]|]. by split; [left|].
      * intros [[Hin| ->] <-]; [|by left]. right. split; [|done]. intros Heq. apply (Hout (rp_node_name m)).
        -- by apply list_elem_of_fmap_2.
        -- rewrite <-Heq. left.
    + rewrite elem_of_union, elem_of_singleton, H2. cbn. rewrite list_elem_of_singleton. tauto.
Qed.
Lemma scan_progressions l :
  (∀ i n, l !! i = Some n → (rp_node_name n ≠ "" ∧ (foldl scan_progression (∅, ∅) (take i l)).1 !! rp_node_name n = None) ∧
     rp_execution_index n ∉ (foldl scan_progression (∅, ∅) (take i l)).2) ↔
  names_ok (rp_node_name <$> l) ∧ NoDup (rp_execution_index <$> l).
Proof.
  assert (Hscan : ∀ l, names_ok (rp_node_name <$> l) →
    (∀ x, (foldl scan_progression (∅, ∅) l).1 !! x = None ↔ x ∉ rp_node_name <$> l) ∧
    ∀ i, i ∈ (foldl scan_progression (∅, ∅) l).2 ↔ i ∈ rp_execution_index <$> l).
  { clear l. intros l [H1 H2]%progressions_scanned. split; [|done]. intros x. rewrite eq_None_not_Some, list_elem_of_fmap.
    split; intros H (y & Hy); apply H.
    - destruct Hy as [-> Hy]. exists y. by apply H1.
    - apply H1 in Hy as [? <-]. by exists y. }
  induction l as [|n l IH] using rev_ind.
  - split; [intros _; split; [split|]; constructor|]. by intros _ [].
  - assert (Hpre : (∀ i m, (l ++ [n]) !! i = Some m → (rp_node_name m ≠ "" ∧ (foldl scan_progression (∅, ∅) (take i (l ++ [n]))).1 !! rp_node_name m = None) ∧
        rp_execution_index m ∉ (foldl scan_progression (∅, ∅) (take i (l ++ [n]))).2) ↔
      (names_ok (rp_node_name <$> l) ∧ NoDup (rp_execution_index <$> l)) ∧
      (rp_node_name n ≠ "" ∧ (foldl scan_progression (∅, ∅) l).1 !! rp_node_name n = None) ∧
      rp_execution_index n ∉ (foldl scan_progression (∅, ∅) l).2).
    { rewrite <-IH. split.
      - intros H. split.
        + intros i m Hi. assert (i < length l) by by apply lookup_lt_Some in Hi. specialize (H i m).
          rewrite lookup_app_l, take_app_le in H by lia. by apply H.
        + specialize (H (length l) n). rewrite lookup_app_r, Nat.sub_diag, take_app_length in H by lia. by apply H.
      - intros [H1 H2] i m [Hi|[Hge Hi]]%lookup_app_Some.
        + assert (i < length l) by by apply lookup_lt_Some in Hi. rewrite take_app_le by lia. by apply H1.
        + assert (i = length l) as -> by (apply lookup_lt_Some in Hi; cbn in Hi; lia).
          rewrite Nat.sub_diag in Hi. injection Hi as <-. by rewrite take_app_length. }
    rewrite Hpre, !fmap_app. cbn [fmap list_fmap]. unfold names_ok. rewrite Forall_app, !NoDup_app, Forall_singleton.
    split.
    + intros ([[Hne Hnd] Hi] & [Hn Hfree] & Hidx). destruct (Hscan l) as [H1 H2]; [done|]. rewrite H1 in Hfree. rewrite H2 in Hidx.
      split_and!; try done; try apply NoDup_singleton; by intros x Hx ->%list_elem_of_singleton.
    + intros [[[Hne Hn] (Hnd & Hout & _)] (Hi & Hout' & _)]. destruct (Hscan l) as [H1 H2]; [done|].
      split_and!; try done.
      * apply H1. intros Hin. apply (Hout _ Hin). left.
      * rewrite H2. intros Hin. apply (Hout' _ Hin). left.
Qed.
Lemma replay_order_checks nodes_by_name index name :
  checks (validate_replay_order nodes_by_name index name)
    (∃ n, nodes_by_name !! name = Some n ∧ rp_execution_index n = index).
Proof.
  unfold validate_replay_order. destruct (nodes_by_name !! name) as [n|].
  - eapply checks_iff; [apply checks_error_unless|]. naive_solver.
  - eapply checks_iff; [apply checks_error_if|]. naive_solver.
Qed.
Lemma replay_status_checks r : checks (validate_replay_status r) (valid_replay_status r).
Proof.
  unfold validate_replay_status, valid_replay_status. destruct (rv_workflow_status r); cbn [replay_status_of];
    (eapply checks_iff; [apply checks_andthen; [apply checks_error_unless|apply checks_error_if]|]);
    rewrite ?negb_false_iff, ?has_value_true, ?has_value_false; (split; [intros [? Hf]; split; [done|]|intros [? Hf]; split; [done|]]).
  - rewrite Hf. split; [done|by intros [? ?]].
  - apply eq_None_not_Some. intros Hs. by apply Hf in Hs.
  - tauto.
  - by apply Hf.
  - rewrite Hf. split; [done|by intros [? ?]].
  - apply eq_None_not_Some. intros Hs. by apply Hf in Hs.
Qed.
Lemma consistency_checks c : checks (validate_consistency c) (c = mkConsistency true true true).
Proof.
  eapply checks_iff; [repeat apply checks_andthen; apply checks_error_if|]. rewrite !negb_false_iff.
  destruct c; cbn. naive_solver.
Qed.
Lemma scanned_progression_checks sc n : checks (validate_scanned_progression sc n)
  (((rp_node_name n ≠ "" ∧ sc.1 !! rp_node_name n = None) ∧ rp_execution_index n ∉ sc.2) ∧ valid_progression n).
Proof.
  unfold validate_scanned_progression. case_bool_decide; [eapply checks_iff; [apply checks_error_if|]; naive_solver|].
  destruct (sc.1 !! rp_node_name n) eqn:E; cbn [has_value].
  - eapply checks_iff; [apply checks_error_if|]. naive_solver.
  - eapply checks_iff; [apply progression_checks|]. tauto.
Qed.
Lemma replay_checks r : checks (validate_replay_view_from r) (valid_replay r).
Proof.
  unfold validate_replay_view_from, validate_replay_header. eapply checks_iff.
  - apply checks_andthen.
    { repeat (apply checks_andthen; [first [apply checks_error_unless|apply checks_error_when]|]).
      apply (option_checks _ (λ f, validate_failure_summary_owner f _ _)). intros f. apply failure_checks. }
    apply checks_andthen; [apply checks_names|].
    apply checks_andthen; [apply (checks_each_from _ _ _ _ _ scanned_progression_checks)|].
    apply checks_andthen; [apply (checks_each_index _ _ _ _ (replay_order_checks _))|].
    apply checks_andthen; [apply checks_error_unless|]. apply checks_andthen; [apply replay_status_checks|apply consistency_checks].
  - cbn [plus]. split.
    + intros ((?&?&?&?&?&?&?&?)&?&Hscan&Hord&?&?&?).
      destruct (proj1 (scan_progressions (rv_nodes r))) as [Hnames Hidx]; [intros i n Hi; by apply (Hscan i)|].
      destruct (progressions_scanned _ Hnames) as [Hmap _]. split; try done.
      * intros n [i Hi]%list_elem_of_lookup_1. by apply (Hscan i).
      * intros i x Hi. destruct (Hord i x Hi) as (n & [??]%Hmap & ?). by exists n.
    + intros [(?&?&?&?) (?&?&?) ? Hok Hnames Hidx Hn Hi ? ? ?]. destruct (progressions_scanned _ Hnames) as [Hmap _].
      split; [done|]. split; [done|]. split; [|split; [|done]].
      * intros i n Hin. split; [by apply (proj2 (scan_progressions (rv_nodes r)))|]. apply Hn. by eapply list_elem_of_lookup_2.
      * intros i x Hx. destruct (Hi i x Hx) as (n & ? & ? & ?). exists n. split; [|done]. by apply Hmap.
Qed.

(** ** The events of a node *)
Lemma node_events_keys s n events e : node_events s n = Some events → e ∈ events →
  ev_node_name e = Some (sn_node_name n) ∧ ev_execution_index e = Some (sn_execution_index n).
Proof.
  unfold node_events. intros H He.
  destruct (sn_status n); try done; injection H as <-; cbn in He;
    repeat (apply elem_of_cons in He as [->|He]; [done|]); by apply elem_of_nil in He.
Qed.
Lemma filter_group s n events key : node_events s n = Some events →
  events_of key events = if decide (index_key (sn_node_name n) (sn_execution_index n) = key) then events else [].
Proof.
  intros Hn. unfold events_of.
  assert (Hk : ∀ e, e ∈ events → event_key e = Some (index_key (sn_node_name n) (sn_execution_index n))).
  { intros e He. destruct (node_events_keys s n events e Hn He) as [H1 H2]. unfold event_key. by rewrite H1, H2. }
  case_decide as Heq.
  - apply filter_all. intros e He. by rewrite (Hk e He), Heq.
  - destruct (base.filter _ events) as [|e l] eqn:E; [done|].
    assert (Hin : e ∈ e :: l) by left. rewrite <-E in Hin. apply list_elem_of_filter in Hin as [Hke He].
    rewrite (Hk e He) in Hke. by injection Hke.
Qed.
Lemma events_of_app key l l' : events_of key (l ++ l') = events_of key l ++ events_of key l'.
Proof. apply filter_app. Qed.
Lemma events_of_groups s ns groups k order i n : runs_at s k order ns →
  Forall2 (λ n events, node_events s n = Some events) ns groups → ns !! i = Some n →
  node_events s n = Some (events_of (index_key (sn_node_name n) (sn_execution_index n)) (mjoin groups)).
Proof.
  intros [_ Hidx] Hg. revert k i Hidx. induction Hg as [|m events ns groups Hm Hg IH]; intros k i Hidx Hi; [done|].
  cbn [mjoin list_join]. rewrite events_of_app, (filter_group s m) by done.
  assert (Hrest : ∀ key, (∀ j x, ns !! j = Some x → index_key (sn_node_name x) (sn_execution_index x) ≠ key) → events_of key (mjoin groups) = []).
  { clear -Hg. intros key Hne. induction Hg as [|x events ns groups Hx _ IH]; [done|]. cbn [mjoin list_join].
    rewrite events_of_app, (filter_group s x) by done. rewrite decide_False by by apply (Hne 0).
    apply IH. intros j. apply (Hne (S j)). }
  destruct i as [|i].
  - injection Hi as ->. rewrite decide_True by done. rewrite Hrest, app_nil_r; [done|].
    intros j x Hj [_ Heq]%index_key_inj. pose proof (Hidx (S j) x Hj) as H1. pose proof (Hidx 0 n eq_refl) as H2. lia.
  - rewrite decide_False.
    + apply (IH (S k) i); [|done]. intros j x Hj. rewrite (Hidx (S j) x Hj). lia.
    + intros [_ Heq]%index_key_inj. pose proof (Hidx (S i) n Hi) as H1. pose proof (Hidx 0 m eq_refl) as H2. lia.
Qed.
Lemma events_of_journal s ns groups order i n : runs_at s 0 order ns →
  Forall2 (λ n events, node_events s n = Some events) ns groups → ns !! i = Some n →
  node_events s n = Some (events_of (index_key (sn_node_name n) (sn_execution_index n))
    (workflow_event s EventKind.SessionStarted None :: mjoin groups ++ end_events s)).
Proof.
  intros Hr Hg Hi. rewrite (events_of_groups s ns groups 0 order i n Hr Hg Hi). f_equal.
  change (workflow_event s EventKind.SessionStarted None :: mjoin groups ++ end_events s)
    with ([workflow_event s EventKind.SessionStarted None] ++ mjoin groups ++ end_events s).
  rewrite !events_of_app. assert (Hend : ∀ key, events_of key (end_events s) = []).
  { intros key. unfold end_events. by destruct (rs_workflow_status s). }
  by rewrite Hend, app_nil_r.
Qed.

(** ** The progression of a node *)
Definition progression_of (n : WorkflowNodePlan) (sn : RuntimeSessionNode) : ReplayNodeProgression :=
  let failed := bool_decide (sn_status sn = NodeSessionStatus.Failed) in
  mkProgression (sn_node_name sn) (sn_target sn) (sn_execution_index sn) (np_after n) (sn_satisfied_dependencies sn)
    true true (bool_decide (sn_status sn = NodeSessionStatus.Completed)) failed
    (if failed then sn_failure_summary sn else None) (mu_selector <$> sn_used_mocks sn) (sn_status sn).
Lemma see_events s n sn events : node_events s sn = Some events →
  foldl see_event (initial_progression n sn) events = progression_of n sn.
Proof.
  unfold node_events, progression_of, failed_event_kind, initial_progression. destruct (sn_status sn) eqn:E; try done; intros [= <-].
  - done.
  - by case_bool_decide.
Qed.
Lemma compare_ok x n sn : node_status_is_executed (sn_status sn) = true →
  ∃ g, compare_progression x sn (progression_of n sn) = (g, true) ∧ checks g True.
Proof.
  unfold compare_progression, progression_of, complete_progression, failed_progression, failure_summary_equals.
  destruct (sn_status sn) eqn:E; try done; intros _.
  - eexists. split; [done|]. eapply checks_iff; [apply checks_error_if|done].
  - cbn [rp_failure_summary]. rewrite (bool_decide_eq_true_2 (NodeSessionStatus.Failed = NodeSessionStatus.Failed)) by done.
    rewrite (bool_decide_eq_true_2 (sn_failure_summary sn = _)) by done. eexists. split; [done|].
    eapply checks_iff; [apply checks_andthen; apply checks_error_if|done].
Qed.
Lemma completed_group s sn events : node_events s sn = Some events →
  journal_completed_order events = if bool_decide (sn_status sn = NodeSessionStatus.Completed) then [sn_node_name sn] else [].
Proof.
  unfold node_events, failed_event_kind, journal_completed_order. destruct (sn_status sn) eqn:E; try done; intros [= <-].
  - done.
  - case_bool_decide; done.
Qed.
Lemma completed_app l l' : journal_completed_order (l ++ l') = journal_completed_order l ++ journal_completed_order l'.
Proof. apply omap_app. Qed.
Lemma completed_orders s order ns groups k : runs_at s k order ns → Forall2 (λ n events, node_events s n = Some events) ns groups →
  journal_completed_order (mjoin groups) = session_completed_order (index_session_nodes (rs_nodes s)) order.
Proof.
  intros [Hr _] Hg. revert order Hr. induction Hg as [|n events ns groups Hn _ IH]; intros order Hr; inversion Hr as [|x ? order' ? (Hx & _ & Hname & _) Hr']; subst; [done|].
  change (mjoin (events :: groups)) with (events ++ mjoin groups). rewrite completed_app, (IH _ Hr'), (completed_group s n) by done.
  unfold session_completed_order. rewrite filter_cons, Hx. cbn [fmap option_fmap option_map].
  case_bool_decide as Hc; case_decide as Hd; try done; [by rewrite Hc in Hd|by injection Hd].
Qed.
Lemma journal_orders s order ns groups : runs_at s 0 order ns → Forall2 (λ n events, node_events s n = Some events) ns groups →
  journal_completed_order (workflow_event s EventKind.SessionStarted None :: mjoin groups ++ end_events s) =
    session_completed_order (index_session_nodes (rs_nodes s)) order.
Proof.
  intros Hr Hg. rewrite <-(completed_orders s order ns groups 0 Hr Hg).
  change (workflow_event s EventKind.SessionStarted None :: mjoin groups ++ end_events s)
    with ([workflow_event s EventKind.SessionStarted None] ++ mjoin groups ++ end_events s).
  rewrite !completed_app. assert (Hend : journal_completed_order (end_events s) = []).
  { unfold end_events. by destruct (rs_workflow_status s). }
  by rewrite Hend, app_nil_r.
Qed.

(** ** The replay of a built session *)
Section Built.
Context (plan : ExecutionPlan) (w : WorkflowPlan) (s : RuntimeSession).
Hypothesis (wf : well_formed_workflow w).
Hypothesis (valid : valid_session s).
Hypothesis (follows : session_follows plan w s).
Lemma plan_node sn : sn ∈ rs_nodes s → ∃ n, find_workflow_node w (sn_node_name sn) = Some n ∧ node_follows s n sn.
Proof.
  intros Hsn. destruct (so_nodes _ _ _ follows sn Hsn) as (n & Hn & Hf). exists n. split; [|done]. rewrite (nf_name _ _ _ Hf).
  unfold find_workflow_node. pose proof (wfw_distinct _ wf) as Hnd. unfold node_names in Hnd. clear -Hn Hnd.
  induction (wp_nodes w) as [|m l IH]; [by apply elem_of_nil in Hn|]. rewrite fmap_cons, NoDup_cons in Hnd.
  destruct Hnd as [Hout Hnd]. rewrite filter_cons. apply elem_of_cons in Hn as [<-|Hn]; [by rewrite decide_True|].
  rewrite decide_False; [by apply IH|]. intros Heq. apply Hout. rewrite Heq. by apply list_elem_of_fmap_2.
Qed.
Definition plan_node_of (sn : RuntimeSessionNode) : WorkflowNodePlan :=
  default (mkNodePlan "" "" [] (mkLifecycle WorkflowNodeStartConditionKind.Immediate
    WorkflowNodeCompletionConditionKind.TargetReachedFinalState false "" []) (mkValueSummary []) [])
    (find_workflow_node w (sn_node_name sn)).
Definition progressions (ns : list RuntimeSessionNode) : list ReplayNodeProgression :=
  (λ sn, progression_of (plan_node_of sn) sn) <$> ns.
Lemma replay_nodes events order ns k r : runs_at s k order ns →
  (∀ i sn, ns !! i = Some sn → node_events s sn = Some (events_of (index_key (sn_node_name sn) (sn_execution_index sn)) events)) →
  checks (ry_checks r) True →
  ∃ f, foldl (replay_node w (index_session_nodes (rs_nodes s)) events) r order =
    mkReplayRun (ry_nodes r ++ progressions ns) (ry_consistency r) f ∧ checks f True.
Proof.
  intros [Hr _]. revert r. induction Hr as [|x sn order ns (Hx & Hin & Hname & Hex) _ IH]; intros r He Hc.
  - exists (ry_checks r). cbn. rewrite app_nil_r. by destruct r.
  - cbn [foldl]. destruct (plan_node sn Hin) as (n & Hfind & Hf). subst x.
    pose proof (He 0 sn eq_refl) as Hev. destruct (compare_ok (sn_node_name sn) n sn Hex) as (g & Hg & Cg).
    assert (Hstep : ∃ f, replay_node w (index_session_nodes (rs_nodes s)) events r (sn_node_name sn) =
      mkReplayRun (ry_nodes r ++ [progression_of n sn]) (ry_consistency r) f ∧ checks f True).
    { unfold replay_node. rewrite Hx, Hfind. rewrite (bool_decide_eq_true_2 (np_target n = sn_target sn)) by (by rewrite (nf_target _ _ _ Hf)).
      destruct (events_of _ events) as [|e l] eqn:El.
      - exfalso. unfold node_events in Hev. destruct (sn_status sn); done.
      - rewrite <-El in *. rewrite (see_events s n sn _ Hev), Hg. eexists. split; [done|].
        eapply checks_iff; [apply checks_andthen; [exact Hc|apply checks_andthen; [apply checks_error_if|exact Cg]]|]. cbn. tauto. }
    destruct Hstep as (f & Hstep & Cf). rewrite Hstep.
    destruct (IH (mkReplayRun (ry_nodes r ++ [progression_of n sn]) (ry_consistency r) f)) as (f' & Hfold & Cf'); [|done|].
    { intros i sn' Hi. apply (He (S i) sn' Hi). }
    exists f'. split; [|done]. rewrite Hfold. cbn [ry_nodes ry_consistency]. f_equal. rewrite <-app_assoc. f_equal.
    unfold progressions. rewrite fmap_cons. cbn [app]. f_equal. unfold plan_node_of. by rewrite Hfind.
Qed.
Lemma progression_valid sn : sn ∈ rs_nodes s → node_status_is_executed (sn_status sn) = true →
  valid_progression (progression_of (plan_node_of sn) sn).
Proof.
  intros Hin Hex. pose proof (vs_nodes _ valid sn Hin) as Hn. destruct (plan_node sn Hin) as (n & Hfind & Hf).
  assert (Hp : plan_node_of sn = n) by (unfold plan_node_of; by rewrite Hfind). rewrite Hp.
  pose proof (nf_executed _ _ _ Hf Hex) as Hs. pose proof (vn_dependencies _ _ Hn) as Hd.
  pose proof (vn_status _ _ Hn) as Hst. unfold valid_status in Hst.
  split; cbn; try apply Hn.
  - by rewrite <-Hs.
  - rewrite Hs in *. by split.
  - by apply (used_names s).
  - intros f. case_bool_decide; [|done]. apply (vn_failure _ _ Hn).
  - unfold valid_final_status, complete_progression, failed_progression. cbn.
    destruct (sn_status sn); try done. destruct Hst as [(f & Hf' & _) _]. rewrite Hf'. by split.
Qed.
Lemma replay_valid ns j : runs_at s 0 (rs_execution_order s) ns → plan_format_version plan = kExecutionPlanFormatVersion →
  ej_format_version j = kExecutionJournalFormatVersion →
  valid_replay (replay_of plan s j (progressions ns) (mkConsistency true true true)).
Proof.
  intros [Hr Hidx] Hv Hj.
  assert (Hnames : rp_node_name <$> progressions ns = rs_execution_order s).
  { unfold progressions. rewrite <-list_fmap_compose. clear Hidx. induction Hr as [|x sn order ns (_ & _ & Hname & _) _ IH]; [done|].
    rewrite fmap_cons, IH. cbn. by rewrite Hname. }
  assert (Hns : ∀ sn, sn ∈ ns → sn ∈ rs_nodes s ∧ node_status_is_executed (sn_status sn) = true).
  { intros sn [i Hi]%list_elem_of_lookup_1. destruct (Forall2_lookup_r _ _ _ _ _ Hr Hi) as (x & _ & _ & ? & _ & ?). done. }
  assert (Hlook : ∀ i p, progressions ns !! i = Some p → rp_execution_index p = i).
  { intros i p Hi. unfold progressions in Hi. rewrite list_lookup_fmap in Hi. destruct (ns !! i) as [sn|] eqn:E; [|done].
    injection Hi as <-. cbn. rewrite (Hidx i sn E). done. }
  pose proof (vs_status _ valid) as Hst. unfold valid_workflow_status in Hst.
  split; cbn [replay_of rv_nodes rv_execution_order rv_workflow_failure_summary rv_consistency]; try apply valid; try done.
  - split_and!; try done. apply valid.
  - split_and!; apply valid.
  - rewrite Hnames. apply valid.
  - apply NoDup_alt. intros i i' k Hi Hi'. rewrite list_lookup_fmap in Hi, Hi'.
    destruct (progressions ns !! i) as [p|] eqn:E; [|done]. destruct (progressions ns !! i') as [p'|] eqn:E'; [|done].
    injection Hi as <-. injection Hi' as Heq. by rewrite <-(Hlook i p E), <-(Hlook i' p' E').
  - intros p (sn & -> & Hsn)%list_elem_of_fmap. destruct (Hns sn Hsn). by apply progression_valid.
  - intros i x Hi. rewrite <-Hnames, list_lookup_fmap in Hi. destruct (progressions ns !! i) as [p|] eqn:E; [|done].
    injection Hi as <-. exists p. split_and!; [by eapply list_elem_of_lookup_2|done|by apply Hlook].
  - rewrite <-Hnames. by rewrite length_fmap.
  - split; [done|]. cbn. split.
    + intros Hf. rewrite Hf in Hst. apply Hst.
    + intros [f Hf]. by apply (so_failure _ _ _ follows f).
Qed.
End Built.

(** ** The pipeline *)
Definition same_headers (plan : ExecutionPlan) (s : RuntimeSession) (j : ExecutionJournal) : Prop :=
  rs_source_execution_plan_format_version s = plan_format_version plan ∧
  ej_source_execution_plan_format_version j = plan_format_version plan ∧
  ej_source_runtime_session_format_version j = rs_format_version s ∧
  source_package_identity plan = rs_source_package_identity s ∧ source_package_identity plan = ej_source_package_identity j ∧
  rs_workflow_canonical_name s = ej_workflow_canonical_name j ∧ rs_session_id s = ej_session_id j ∧ rs_run_id s = ej_run_id j.
Lemma headers_checks plan s j : checks (compare_headers plan s j) (same_headers plan s j).
Proof.
  unfold compare_headers, package_identity_equals. repeat (apply checks_andthen; [apply checks_error_unless|]). apply checks_error_unless.
Qed.
Lemma session_replays_spec plan request ms options s d : (∀ w, w ∈ plan_workflows plan → nul_free_names w) →
  build_runtime_session plan request ms options ⇓ mkSessionResult (Some s) d →
  ∃ j, jr_journal (build_execution_journal s) = Some j ∧
    ∃ r d', build_replay_view plan s j ⇓ mkReplayResult (Some r) d' ∧ has_error d' = false ∧
      valid_replay r ∧ rp_node_name <$> rv_nodes r = rs_execution_order s ∧
      ∃ w, find_workflow_plan plan (req_workflow_canonical_name request) = Some w ∧
        ∀ p, p ∈ rv_nodes r → ∃ n, n ∈ wp_nodes w ∧ np_name n = rp_node_name p ∧ np_target n = rp_target p ∧
          rp_planned_dependencies p = np_after n ∧ rp_satisfied_dependencies p = np_after n.
Proof.
  intros Hnul Hb. destruct (build_session_spec plan request ms options Hnul) as (res & Hres & Hm).
  rewrite Hb in Hres. injection Hres as <-. cbn [sr_session] in Hm. destruct Hm as (_ & Hvs & Hwf & w & Hw & Hfollows).
  destruct (find_workflow_plan_spec _ _ _ Hw) as [Hin Hname]. pose proof (wfp_workflows _ Hwf w Hin) as Hww.
  assert (Hmatch : failure_matches s) by (intros _ f Hf; by apply (so_failure _ _ _ Hfollows f)).
  pose proof (build_journal_spec s) as Hj. destruct (jr_journal (build_execution_journal s)) as [j|]; [|by destruct Hj as [_ []]].
  exists j. split; [done|]. destruct Hj as (_ & _ & Hvj & ns & groups & Hruns & Hg & Hjeq).
  destruct (plan_validated plan Hnul) as (dp & Hdp & Hiff). unfold build_replay_view. rewrite Hdp. cbn [mbind cxx_bind].
  set (d0 := append (append (append empty_bag dp) (validate_runtime_session s)) (validate_execution_journal j)).
  assert (Hd0 : has_error d0 = false).
  { unfold d0. rewrite !has_error_append, has_error_empty. cbn [orb].
    assert (H1 : has_error (validate_runtime_session s) = false) by by apply (checks_run _ _ (session_checks s)).
    assert (H2 : has_error (validate_execution_journal j) = false) by by apply (checks_run _ _ (journal_checks j)).
    by rewrite (proj2 Hiff Hwf), H1, H2. }
  rewrite Hd0. assert (Hfind : find_workflow_plan plan (rs_workflow_canonical_name s) = Some w).
  { by rewrite (so_workflow _ _ _ Hfollows), Hname. }
  rewrite Hfind. cbv zeta. destruct (so_source _ _ _ Hfollows) as (Hs1 & Hs2 & Hs3).
  assert (Hd1 : has_error (compare_headers plan s j d0) = false).
  { apply headers_checks. split; [done|]. unfold same_headers. rewrite Hjeq. cbn. by rewrite Hs1, Hs2, Hs3. }
  rewrite Hd1. assert (Horder : bool_decide (journal_completed_order (ej_events j) =
    session_completed_order (index_session_nodes (rs_nodes s)) (rs_execution_order s)) = true).
  { apply bool_decide_eq_true. rewrite Hjeq. by apply (journal_orders s _ ns). }
  rewrite Horder.
  destruct (replay_nodes plan w s Hww Hfollows (ej_events j) (rs_execution_order s) ns 0
    (mkReplayRun [] (mkConsistency true true true) (error_if (negb true)
      (view_says "execution journal completed node order does not match runtime session completed execution_order"))) Hruns)
    as (f & Hfold & Cf).
  { intros i sn Hi. rewrite Hjeq. by apply (events_of_journal s ns groups (rs_execution_order s) i). }
  { eapply checks_iff; [apply checks_error_if|done]. }
  rewrite Hfold. cbn [ry_checks ry_nodes ry_consistency app].
  assert (Hd2 : has_error (f (compare_headers plan s j d0)) = false) by by apply Cf.
  rewrite Hd2. set (r := replay_of plan s j _ _).
  assert (Hr : valid_replay r).
  { apply (replay_valid plan w s Hww Hvs Hfollows); [done|apply Hwf|]. by rewrite Hjeq. }
  assert (Hd3 : has_error (append (f (compare_headers plan s j d0)) (validate_replay_view r)) = false).
  { rewrite has_error_append, Hd2. by apply (checks_run _ _ (replay_checks r)). }
  rewrite Hd3. exists r, (append (f (compare_headers plan s j d0)) (validate_replay_view r)).
  split; [done|]. split; [done|]. split; [done|].
  assert (Hnodes : ∀ sn, sn ∈ ns → sn ∈ rs_nodes s ∧ node_status_is_executed (sn_status sn) = true).
  { destruct Hruns as [Hr' _]. intros sn [i Hi]%list_elem_of_lookup_1. destruct (Forall2_lookup_r _ _ _ _ _ Hr' Hi) as (x & _ & _ & ? & _ & ?). done. }
  split.
  - cbn. unfold progressions. rewrite <-list_fmap_compose. destruct Hruns as [Hr' _].
    clear -Hr'. induction Hr' as [|x sn order ns (_ & _ & Hn & _) _ IH]; [done|]. rewrite fmap_cons, IH. cbn. by rewrite Hn.
  - exists w. split; [done|]. intros p (sn & -> & Hsn)%list_elem_of_fmap. destruct (Hnodes sn Hsn) as [Hsin Hex].
    destruct (plan_node plan w s Hww Hfollows sn Hsin) as (n & Hfn & Hf). exists n.
    assert (Hp : plan_node_of w sn = n) by (unfold plan_node_of; by rewrite Hfn). rewrite Hp. cbn.
    assert (Hnin : n ∈ wp_nodes w).
    { unfold find_workflow_node in Hfn. assert (Hin2 : n ∈ base.filter (λ n, np_name n = sn_node_name sn) (wp_nodes w)).
      { destruct (base.filter _ _); [done|]. injection Hfn as ->. left. }
      by apply list_elem_of_filter in Hin2 as [_ ?]. }
    split_and!; [done|symmetry; apply Hf|symmetry; apply Hf|done|]. by apply (nf_executed _ _ _ Hf).
Qed.
(** C31: the pipeline never loses a run: when [build_runtime_session] returns a
    session for a plan, [build_execution_journal] returns its journal, and
    [build_replay_view] of the three returns, without an error, a valid view
    that is consistent on all counts and shows the nodes of the execution
    order with the dependencies that the plan gives them. *)
Theorem session_replays plan request ms options s d : (∀ w, w ∈ plan_workflows plan → nul_free_names w) →
  build_runtime_session plan request ms options ⇓ mkSessionResult (Some s) d →
  ∃ j, jr_journal (build_execution_journal s) = Some j ∧
    ∃ r d', build_replay_view plan s j ⇓ mkReplayResult (Some r) d' ∧ has_error d' = false ∧
      valid_replay r ∧ rp_node_name <$> rv_nodes r = rs_execution_order s ∧
      ∃ w, find_workflow_plan plan (req_workflow_canonical_name request) = Some w ∧
        ∀ p, p ∈ rv_nodes r → ∃ n, n ∈ wp_nodes w ∧ np_name n = rp_node_name p ∧ np_target n = rp_target p ∧
          rp_planned_dependencies p = np_after n ∧ rp_satisfied_dependencies p = np_after n.
Proof. apply session_replays_spec. Qed.
(** the validation of views reports no error exactly for the valid views. *)
Theorem validate_replay_view_exact r : has_error (validate_replay_view r) = false ↔ valid_replay r.
Proof. apply checks_run, replay_checks. Qed.

(** ** Example *)
Lemma session_replays_witness :
  ∃ s d j r d', build_runtime_session sample_plan sample_request sample_mocks sample_options ⇓ mkSessionResult (Some s) d ∧
    jr_journal (build_execution_journal s) = Some j ∧
    build_replay_view sample_plan s j ⇓ mkReplayResult (Some r) d' ∧ rp_node_name <$> rv_nodes r = ["fetch"; "score"].
Proof.
  assert (Ht : match build_runtime_session sample_plan sample_request sample_mocks sample_options with
    | Ret (mkSessionResult (Some s) _) => rs_execution_order s = ["fetch"; "score"] | _ => False end) by by vm_compute.
  destruct (build_runtime_session sample_plan sample_request sample_mocks sample_options) as [[[s|] d]| |] eqn:E;
    [|destruct Ht..].
  destruct (session_replays sample_plan sample_request sample_mocks sample_options s d (λ w Hw, sample_nul_free w (or_introl Hw)) E)
    as (j & Hj & r & d' & Hr & _ & _ & Hn & _).
  exists s, d, j, r, d'. split; [done|]. split; [exact Hj|]. split; [exact Hr|]. rewrite Hn. exact Ht.
Defined.
