(* ===== verification/Package.v ===== *)
(** * Packages (src/compiler/handoff/package.cpp)

    The data of a package (include/ahfl/compiler/handoff/package.hpp), the
    validation of its metadata against a program, the lowering of a program,
    and the execution plan of a package.  Sets and maps that are only looked up
    are [gset] and [gmap].  The one map that is iterated, the binding keys of
    the metadata, comes with the order of its iteration as an argument.  A
    reference into the vector of binding slots is a position. *)
From S2P Require Import Prelude Numeric Diagnostics Ir Analysis Checks Plan.
From Stdlib Require Import Ascii.
Open Scope nat_scope.
Open Scope ahfl_scope.

(** ** Data *)
Module ExecutableKind.
Inductive t := Agent | Workflow.
End ExecutableKind.
#[export] Instance ExecutableKind_eq_dec : EqDecision ExecutableKind.t.
Proof. solve_decision. Defined.
Module PolicyObligationKind.
Inductive t := Requires | Ensures | Invariant | Forbid | WorkflowSafety | WorkflowLiveness.
End PolicyObligationKind.
#[export] Instance PolicyObligationKind_eq_dec : EqDecision PolicyObligationKind.t.
Proof. solve_decision. Defined.
Module ObservationScopeKind.
Inductive t := ContractClause | WorkflowSafetyClause | WorkflowLivenessClause.
End ObservationScopeKind.
#[export] Instance ObservationScopeKind_eq_dec : EqDecision ObservationScopeKind.t.
Proof. solve_decision. Defined.

Record ExecutableRef := mkRef { ref_kind : ExecutableKind.t; ref_canonical_name : string }.
#[export] Instance ExecutableRef_eq_dec : EqDecision ExecutableRef.
Proof. solve_decision. Defined.
Record PackageMetadata := mkMetadata {
  md_identity : option PackageIdentity;
  md_entry_target : option ExecutableRef;
  md_export_targets : list ExecutableRef;
  md_capability_binding_keys : gmap string string }.
Record Provenance := mkOrigin { origin_module_name : string; origin_source_path : string }.
Record ObservationScope := mkObservationScope {
  os_kind : ObservationScopeKind.t; os_owner : string; os_clause_index : Z; os_atom_index : Z }.
Inductive ObservationNode :=
  | CalledCapability (agent capability : string)
  | EmbeddedBool (scope : ObservationScope).
Record Observation := mkPackageObservation { ob_symbol : string; ob_node : ObservationNode }.
Record AgentExecutable := mkAgentExecutable {
  ae_provenance : Provenance;
  ae_canonical_name : string;
  ae_input_type : string;
  ae_context_type : string;
  ae_output_type : string;
  ae_states : list string;
  ae_initial_state : string;
  ae_final_states : list string;
  ae_capabilities : list string }.
Record WorkflowExecutionGraph := mkGraph {
  graph_entry_nodes : list string; graph_dependency_edges : list WorkflowDependencyEdge }.
Record WorkflowExecutionNode := mkExecutionNode {
  xn_name : string;
  xn_target : string;
  xn_input_summary : WorkflowValueSummary;
  xn_after : list string;
  xn_lifecycle : WorkflowNodeLifecycleSummary }.
Record WorkflowExecutable := mkWorkflowExecutable {
  we_provenance : Provenance;
  we_canonical_name : string;
  we_input_type : string;
  we_output_type : string;
  we_execution_graph : WorkflowExecutionGraph;
  we_nodes : list WorkflowExecutionNode;
  we_safety_clause_count : nat;
  we_liveness_clause_count : nat;
  we_return_summary : WorkflowValueSummary }.
Inductive ExecutableTarget :=
  | TargetAgent (agent : AgentExecutable)
  | TargetWorkflow (workflow : WorkflowExecutable).
Record CapabilityBindingSlot := mkSlot {
  slot_capability_name : string;
  slot_binding_key : string;
  slot_required_by_targets : list ExecutableRef }.
Record PolicyObligation := mkObligation {
  po_owner_target : ExecutableRef;
  po_kind : PolicyObligationKind.t;
  po_clause_index : nat;
  po_observation_symbols : list string }.
Record Package := mkPackage {
  pkg_metadata : PackageMetadata;
  pkg_executable_targets : list ExecutableTarget;
  pkg_capability_binding_slots : list CapabilityBindingSlot;
  pkg_policy_obligations : list PolicyObligation;
  pkg_formal_observations : list Observation }.
Record PackageReaderObservationSummary := mkObservationCounts {
  oc_total : nat; oc_called_capability : nat; oc_embedded_bool_expr : nat }.
Record PackageReaderSummary := mkReaderSummary {
  prs_format_version : string;
  prs_identity : option PackageIdentity;
  prs_entry_target : option ExecutableRef;
  prs_export_targets : list ExecutableRef;
  prs_capability_binding_slots : list CapabilityBindingSlot;
  prs_policy_obligations : list PolicyObligation;
  prs_formal_observations : PackageReaderObservationSummary }.
Record ExecutionPlannerBootstrapNode := mkBootstrapNode {
  bn_name : string;
  bn_target : string;
  bn_after : list string;
  bn_lifecycle : WorkflowNodeLifecycleSummary;
  bn_input_summary : WorkflowValueSummary }.
Record ExecutionPlannerBootstrap := mkBootstrap {
  bs_workflow_canonical_name : string;
  bs_input_type : string;
  bs_output_type : string;
  bs_entry_nodes : list string;
  bs_dependency_edges : list WorkflowDependencyEdge;
  bs_nodes : list ExecutionPlannerBootstrapNode;
  bs_return_summary : WorkflowValueSummary }.
Record PackageMetadataValidationResult := mkMetadataResult {
  mr_metadata : PackageMetadata; mr_diagnostics : DiagnosticBag }.
Record PackageReaderSummaryResult := mkReaderResult {
  rr_summary : PackageReaderSummary; rr_diagnostics : DiagnosticBag }.
Record ExecutionPlannerBootstrapResult := mkBootstrapResult {
  br_bootstrap : option ExecutionPlannerBootstrap; br_diagnostics : DiagnosticBag }.
Record ExecutionPlanResult := mkPlanResult {
  pr_plan : option ExecutionPlan; pr_diagnostics : DiagnosticBag }.

(** ** Indices of names *)
(** What follows the last ["::"]. *)
Definition colon : ascii := ascii_of_nat 58.
Fixpoint after_separator (s : string) : option string :=
  match s with
  | EmptyString => None
  | String c rest =>
      match after_separator rest with
      | Some name => Some name
      | None =>
          match rest with
          | String d name => if bool_decide (c = colon) && bool_decide (d = colon) then Some name else None
          | EmptyString => None
          end
      end
  end.
Definition display_name (canonical_name : string) : string :=
  default canonical_name (after_separator canonical_name).

Record ExecutableIndex := mkExecutableIndex {
  canonical_agents : gset string;
  canonical_workflows : gset string;
  display_agents : gmap string (list string);
  display_workflows : gmap string (list string) }.
Record CapabilityIndex := mkCapabilityIndex {
  ci_canonical : gset string; ci_display : gmap string (list string) }.
Definition add_unique_name (index : gmap string (list string)) (display canonical : string)
    : gmap string (list string) :=
  let values := default [] (index !! display) in
  <[display := if bool_decide (canonical ∈ values) then values else values ++ [canonical]]> index.
(** The canonical names of agents and capabilities; [workflow_name] of the
    analyses is the one of workflows. *)
Definition agent_canonical_name (agent : AgentDecl) : string :=
  symbol_canonical_name (agent_symbol_ref agent) (agent_name agent).
Definition capability_canonical_name (capability : CapabilityDecl) : string :=
  symbol_canonical_name (cap_symbol_ref capability) (cap_name capability).
Definition index_executable (index : ExecutableIndex) (d : Decl) : ExecutableIndex :=
  match d with
  | DAgent agent =>
      let canonical_name := agent_canonical_name agent in
      mkExecutableIndex ({[canonical_name]} ∪ canonical_agents index) (canonical_workflows index)
        (add_unique_name (display_agents index) (display_name canonical_name) canonical_name)
        (display_workflows index)
  | DWorkflow workflow =>
      let canonical_name := workflow_name workflow in
      mkExecutableIndex (canonical_agents index) ({[canonical_name]} ∪ canonical_workflows index)
        (display_agents index)
        (add_unique_name (display_workflows index) (display_name canonical_name) canonical_name)
  | _ => index
  end.
Definition build_executable_index (p : Program) : ExecutableIndex :=
  foldl index_executable (mkExecutableIndex ∅ ∅ ∅ ∅) (declarations p).
Definition index_capability (index : CapabilityIndex) (d : Decl) : CapabilityIndex :=
  match d with
  | DCapability capability =>
      let canonical_name := capability_canonical_name capability in
      mkCapabilityIndex ({[canonical_name]} ∪ ci_canonical index)
        (add_unique_name (ci_display index) (display_name canonical_name) canonical_name)
  | _ => index
  end.
Definition build_capability_index (p : Program) : CapabilityIndex :=
  foldl index_capability (mkCapabilityIndex ∅ ∅) (declarations p).

(** ** Resolving the names of the metadata *)
Definition executable_kind_name (kind : ExecutableKind.t) : string :=
  match kind with ExecutableKind.Agent => "agent" | ExecutableKind.Workflow => "workflow" end.
Definition index_canonical (index : ExecutableIndex) (kind : ExecutableKind.t) : gset string :=
  match kind with ExecutableKind.Agent => canonical_agents index | ExecutableKind.Workflow => canonical_workflows index end.
Definition index_display (index : ExecutableIndex) (kind : ExecutableKind.t) : gmap string (list string) :=
  match kind with ExecutableKind.Agent => display_agents index | ExecutableKind.Workflow => display_workflows index end.
Definition other_kind (kind : ExecutableKind.t) : ExecutableKind.t :=
  match kind with ExecutableKind.Agent => ExecutableKind.Workflow | ExecutableKind.Workflow => ExecutableKind.Agent end.
Definition resolve_executable_name (index : ExecutableIndex) (kind : ExecutableKind.t) (raw_name field_name : string)
    (diagnostics : DiagnosticBag) : option string * DiagnosticBag :=
  if bool_decide (raw_name ∈ index_canonical index kind) then (Some raw_name, diagnostics)
  else match index_display index kind !! raw_name with
  | Some [name] => (Some name, diagnostics)
  | Some _ => (None, emit_error ("package authoring field '" +:+ field_name +:+ "' is ambiguous for " +:+
      executable_kind_name kind +:+ " '" +:+ raw_name +:+ "'") diagnostics)
  | None =>
      if bool_decide (raw_name ∈ index_canonical index (other_kind kind)) ||
         bool_decide (is_Some (index_display index (other_kind kind) !! raw_name)) then
        (None, emit_error ("package authoring field '" +:+ field_name +:+ "' refers to '" +:+ raw_name +:+
           "' with wrong executable kind") diagnostics)
      else (None, emit_error ("unknown package authoring " +:+ executable_kind_name kind +:+ " target '" +:+
        raw_name +:+ "' in field '" +:+ field_name +:+ "'") diagnostics)
  end.
Definition resolve_capability_name (index : CapabilityIndex) (raw_name : string) (diagnostics : DiagnosticBag)
    : option string * DiagnosticBag :=
  if bool_decide (raw_name ∈ ci_canonical index) then (Some raw_name, diagnostics)
  else match ci_display index !! raw_name with
  | Some [name] => (Some name, diagnostics)
  | Some _ => (None, emit_error ("package authoring capability binding is ambiguous for capability '" +:+
      raw_name +:+ "'") diagnostics)
  | None => (None, emit_error ("unknown package authoring capability '" +:+ raw_name +:+ "'") diagnostics)
  end.

(** ** Validation of the metadata *)
Definition validate_entry_target (index : ExecutableIndex) (target : option ExecutableRef) (diagnostics : DiagnosticBag)
    : option ExecutableRef * DiagnosticBag :=
  match target with
  | None => (None, diagnostics)
  | Some target =>
      let '(name, diagnostics) :=
        resolve_executable_name index (ref_kind target) (ref_canonical_name target) "entry_target" diagnostics in
      (Some (match name with Some name => mkRef (ref_kind target) name | None => target end), diagnostics)
  end.
Definition export_key (target : ExecutableRef) : string :=
  match ref_kind target with ExecutableKind.Agent => "0" | ExecutableKind.Workflow => "1" end +:+ ":" +:+
  ref_canonical_name target.
Fixpoint validate_export_targets (index : ExecutableIndex) (seen : gset string) (targets : list ExecutableRef)
    (diagnostics : DiagnosticBag) : list ExecutableRef * DiagnosticBag :=
  match targets with
  | [] => ([], diagnostics)
  | target :: targets =>
      let '(name, diagnostics) :=
        resolve_executable_name index (ref_kind target) (ref_canonical_name target) "export_targets" diagnostics in
      match name with
      | None =>
          let '(rest, diagnostics) := validate_export_targets index seen targets diagnostics in
          (target :: rest, diagnostics)
      | Some name =>
          let target := mkRef (ref_kind target) name in
          let key := export_key target in
          let diagnostics := error_if (bool_decide (key ∈ seen))
            ("package authoring export target '" +:+ name +:+ "' is duplicated after semantic normalization")
            diagnostics in
          let '(rest, diagnostics) := validate_export_targets index ({[key]} ∪ seen) targets diagnostics in
          (target :: rest, diagnostics)
      end
  end.
Definition normalize_binding (index : CapabilityIndex) (st : gmap string string * DiagnosticBag)
    (binding : string * string) : gmap string string * DiagnosticBag :=
  let '(raw_capability_name, binding_key) := binding in
  let '(name, diagnostics) := resolve_capability_name index raw_capability_name st.2 in
  match name with
  | None => (st.1, diagnostics)
  | Some name =>
      match st.1 !! name with
      | Some _ => (st.1, emit_error ("package authoring capability binding for '" +:+ name +:+
          "' is duplicated after semantic normalization") diagnostics)
      | None => (<[name := binding_key]> st.1, diagnostics)
      end
  end.
(** [order] is the order in which the map of binding keys is iterated. *)
Definition validate_package_metadata (p : Program) (metadata : PackageMetadata) (order : list (string * string))
    : PackageMetadataValidationResult :=
  let executable_index := build_executable_index p in
  let capability_index := build_capability_index p in
  let '(entry_target, diagnostics) := validate_entry_target executable_index (md_entry_target metadata) empty_bag in
  let '(export_targets, diagnostics) :=
    validate_export_targets executable_index ∅ (md_export_targets metadata) diagnostics in
  let '(normalized_bindings, diagnostics) := foldl (normalize_binding capability_index) (∅, diagnostics) order in
  mkMetadataResult (mkMetadata (md_identity metadata) entry_target export_targets normalized_bindings) diagnostics.

(** ** Lowering a program *)
Definition lower_provenance (provenance : DeclarationProvenance) : Provenance :=
  mkOrigin (prov_module_name provenance) (prov_source_path provenance).
Definition lower_workflow_value_source_kind (kind : WorkflowValueSourceKind.t) : ValueSourceKind.t :=
  match kind with
  | WorkflowValueSourceKind.WorkflowInput => ValueSourceKind.WorkflowInput
  | WorkflowValueSourceKind.WorkflowNodeOutput => ValueSourceKind.WorkflowNodeOutput
  end.
Definition lower_workflow_value_summary (summary : WorkflowExprSummary) : WorkflowValueSummary :=
  mkValueSummary ((λ read, mkValueRead (lower_workflow_value_source_kind (read_kind read)) (read_root read)
    (read_members read)) <$> reads summary).
Definition lower_formal_observation_scope_kind (kind : FormalObservationScopeKind.t) : ObservationScopeKind.t :=
  match kind with
  | FormalObservationScopeKind.ContractClause => ObservationScopeKind.ContractClause
  | FormalObservationScopeKind.WorkflowSafetyClause => ObservationScopeKind.WorkflowSafetyClause
  | FormalObservationScopeKind.WorkflowLivenessClause => ObservationScopeKind.WorkflowLivenessClause
  end.
Definition lower_formal_observation_scope (scope : FormalObservationScope) : ObservationScope :=
  mkObservationScope (lower_formal_observation_scope_kind (scope_kind scope)) (scope_owner scope)
    (scope_clause scope) (scope_atom scope).
Definition lower_formal_observation (observation : FormalObservation) : Observation :=
  mkPackageObservation (symbol observation)
    match observation_node observation with
    | CalledCapabilityObservation agent capability => CalledCapability agent capability
    | EmbeddedBoolObservation scope => EmbeddedBool (lower_formal_observation_scope scope)
    end.
Definition lower_formal_observations (observations : list FormalObservation) : list Observation :=
  lower_formal_observation <$> observations.
Definition lower_symbol_names (refs : list SymbolRef) : list string :=
  base.filter (λ name, name ≠ "") ((λ ref, symbol_canonical_name ref "") <$> refs).

Definition lower_agent_executable (declaration : AgentDecl) : AgentExecutable :=
  mkAgentExecutable (lower_provenance (agent_provenance declaration)) (agent_canonical_name declaration)
    (type_canonical_name (agent_input_type_ref declaration) "Any")
    (type_canonical_name (agent_context_type_ref declaration) "Any")
    (type_canonical_name (agent_output_type_ref declaration) "Any")
    (states declaration) (initial_state declaration) (final_states declaration)
    (lower_symbol_names (agent_capability_refs declaration)).
Definition lower_workflow_node_lifecycle (node : WorkflowNode) (target_agent : option AgentDecl)
    : WorkflowNodeLifecycleSummary :=
  let start := if bool_decide (wn_after node = []) then WorkflowNodeStartConditionKind.Immediate
               else WorkflowNodeStartConditionKind.AfterDependenciesCompleted in
  let completion := WorkflowNodeCompletionConditionKind.TargetReachedFinalState in
  match target_agent with
  | None => mkLifecycle start completion true "" []
  | Some agent => mkLifecycle start completion true (initial_state agent) (final_states agent)
  end.
(** The entry nodes, with the names seen so far: a node counts once per name. *)
Fixpoint lower_entry_nodes (seen : gset string) (nodes : list WorkflowNode) : list string :=
  match nodes with
  | [] => []
  | node :: nodes =>
      if bool_decide (wn_after node = []) && bool_decide (wn_name node ∉ seen)
      then wn_name node :: lower_entry_nodes ({[wn_name node]} ∪ seen) nodes
      else lower_entry_nodes seen nodes
  end.
Definition lower_workflow_execution_graph (declaration : WorkflowDecl) : WorkflowExecutionGraph :=
  mkGraph (lower_entry_nodes ∅ (wf_nodes declaration))
    (wf_nodes declaration ≫= λ node, (λ dependency, mkEdge dependency (wn_name node)) <$> wn_after node).

(** The agents of a program by name: [emplace] keeps the first. *)
Definition index_agents {A} (value : AgentDecl → A) (l : list Decl) : gmap string A :=
  foldl (λ m d,
    match d with
    | DAgent agent =>
        match m !! agent_canonical_name agent with
        | Some _ => m
        | None => <[agent_canonical_name agent := value agent]> m
        end
    | _ => m
    end) ∅ l.
Definition lower_workflow_node (p : AnalyzedProgram) (declaration : WorkflowDecl) (agents_by_name : gmap string AgentDecl)
    (index : nat) (node : WorkflowNode) : WorkflowExecutionNode :=
  let target := symbol_canonical_name (wn_target_ref node) "" in
  mkExecutionNode (wn_name node) target
    (lower_workflow_value_summary
       (default (mkExprSummary []) (find_workflow_node_input_summary p declaration index node)))
    (wn_after node) (lower_workflow_node_lifecycle node (agents_by_name !! target)).
Definition lower_workflow_executable (p : AnalyzedProgram) (declaration : WorkflowDecl)
    (agents_by_name : gmap string AgentDecl) : WorkflowExecutable :=
  mkWorkflowExecutable (lower_provenance (wf_provenance declaration)) (workflow_name declaration)
    (type_canonical_name (wf_input_type_ref declaration) "Any")
    (type_canonical_name (wf_output_type_ref declaration) "Any")
    (lower_workflow_execution_graph declaration)
    (imap (lower_workflow_node p declaration agents_by_name) (wf_nodes declaration))
    (length (wf_safety declaration)) (length (wf_liveness declaration))
    (lower_workflow_value_summary (default (mkExprSummary []) (find_workflow_return_summary p declaration))).

(** ** Capability binding slots *)
Definition push_unique_target_ref (values : list ExecutableRef) (value : ExecutableRef) : list ExecutableRef :=
  if bool_decide (value ∈ values) then values else values ++ [value].
(** The slots and the position of the slot of the capability. *)
Definition get_or_create_capability_binding_slot (slots : list CapabilityBindingSlot) (metadata : PackageMetadata)
    (capability_name : string) : list CapabilityBindingSlot * nat :=
  match list_find (λ s, slot_capability_name s = capability_name) slots with
  | Some (i, _) => (slots, i)
  | None => (slots ++ [mkSlot capability_name
      (default capability_name (md_capability_binding_keys metadata !! capability_name)) []], length slots)
  end.
Definition require_slot (metadata : PackageMetadata) (required_by : ExecutableRef) (slots : list CapabilityBindingSlot)
    (capability : string) : list CapabilityBindingSlot :=
  let '(slots, i) := get_or_create_capability_binding_slot slots metadata capability in
  alter (λ s, mkSlot (slot_capability_name s) (slot_binding_key s)
    (push_unique_target_ref (slot_required_by_targets s) required_by)) i slots.
Definition add_capability_dependencies_for_agent (slots : list CapabilityBindingSlot) (metadata : PackageMetadata)
    (agent : AgentExecutable) : list CapabilityBindingSlot :=
  foldl (require_slot metadata (mkRef ExecutableKind.Agent (ae_canonical_name agent))) slots (ae_capabilities agent).
Definition add_capability_dependencies_for_workflow (slots : list CapabilityBindingSlot) (metadata : PackageMetadata)
    (workflow : WorkflowExecutable) (agent_capabilities : gmap string (list string)) : list CapabilityBindingSlot :=
  foldl (λ slots node,
    foldl (require_slot metadata (mkRef ExecutableKind.Workflow (we_canonical_name workflow))) slots
      (default [] (agent_capabilities !! xn_target node))) slots (we_nodes workflow).

(** ** Policy obligations *)
Definition policy_obligation_kind (kind : ContractClauseKind.t) : PolicyObligationKind.t :=
  match kind with
  | ContractClauseKind.Requires => PolicyObligationKind.Requires
  | ContractClauseKind.Ensures => PolicyObligationKind.Ensures
  | ContractClauseKind.Invariant => PolicyObligationKind.Invariant
  | ContractClauseKind.Forbid => PolicyObligationKind.Forbid
  end.
(** The symbols of the embedded observations of a clause, in order. *)
Definition index_formal_observation_symbols (observations : list Observation) (kind : ObservationScopeKind.t)
    (owner : string) (clause_index : nat) : list string :=
  omap (λ o,
    match ob_node o with
    | EmbeddedBool scope =>
        if bool_decide (os_kind scope = kind) && bool_decide (os_owner scope = owner) &&
           bool_decide (os_clause_index scope = Z.of_nat clause_index)
        then Some (ob_symbol o) else None
    | CalledCapability _ _ => None
    end) observations.
Definition add_contract_policy_obligations (observations : list Observation) (contract : ContractDecl)
    : list PolicyObligation :=
  let target := symbol_canonical_name (contract_target_ref contract) "" in
  imap (λ i clause, mkObligation (mkRef ExecutableKind.Agent target) (policy_obligation_kind (clause_kind clause)) i
    (index_formal_observation_symbols observations ObservationScopeKind.ContractClause target i)) (clauses contract).
Definition add_workflow_policy_obligations (observations : list Observation) (workflow : WorkflowDecl)
    : list PolicyObligation :=
  let owner_target := mkRef ExecutableKind.Workflow (wf_name workflow) in
  imap (λ i _, mkObligation owner_target PolicyObligationKind.WorkflowSafety i
    (index_formal_observation_symbols observations ObservationScopeKind.WorkflowSafetyClause (wf_name workflow) i))
    (wf_safety workflow) ++
  imap (λ i _, mkObligation owner_target PolicyObligationKind.WorkflowLiveness i
    (index_formal_observation_symbols observations ObservationScopeKind.WorkflowLivenessClause (wf_name workflow) i))
    (wf_liveness workflow).

(** ** The package *)
Definition stamp_identity (identity : PackageIdentity) : PackageIdentity :=
  mkIdentity kFormatVersion (id_name identity) (id_version identity).
Section LowerPackage.
Context (p : AnalyzedProgram) (agent_capabilities : gmap string (list string)) (agents_by_name : gmap string AgentDecl).
Definition lower_declaration (package : Package) (d : Decl) : Package :=
  let 'mkPackage metadata targets slots obligations observations := package in
  match d with
  | DAgent value =>
      let agent := lower_agent_executable value in
      mkPackage metadata (targets ++ [TargetAgent agent]) (add_capability_dependencies_for_agent slots metadata agent)
        obligations observations
  | DWorkflow value =>
      let workflow := lower_workflow_executable p value agents_by_name in
      mkPackage metadata (targets ++ [TargetWorkflow workflow])
        (add_capability_dependencies_for_workflow slots metadata workflow agent_capabilities)
        (obligations ++ add_workflow_policy_obligations observations value) observations
  | DContract value =>
      mkPackage metadata targets slots (obligations ++ add_contract_policy_obligations observations value) observations
  | _ => package
  end.
End LowerPackage.
Definition lower_package (p : AnalyzedProgram) (metadata : PackageMetadata) : Package :=
  let metadata := mkMetadata (stamp_identity <$> md_identity metadata) (md_entry_target metadata)
    (md_export_targets metadata) (md_capability_binding_keys metadata) in
  let l := declarations (program p) in
  foldl (lower_declaration p (index_agents (λ agent, lower_symbol_names (agent_capability_refs agent)) l)
    (index_agents id l))
    (mkPackage metadata [] [] [] (lower_formal_observations (formal_observations (analyses p)))) l.

(** ** Lookups: [None] is the null pointer *)
Definition agent_of (target : ExecutableTarget) : option AgentExecutable :=
  match target with TargetAgent agent => Some agent | TargetWorkflow _ => None end.
Definition workflow_of (target : ExecutableTarget) : option WorkflowExecutable :=
  match target with TargetWorkflow workflow => Some workflow | TargetAgent _ => None end.
Definition find_agent_executable (package : Package) (canonical_name : string) : option AgentExecutable :=
  snd <$> list_find (λ a, ae_canonical_name a = canonical_name) (omap agent_of (pkg_executable_targets package)).
Definition find_workflow_executable (package : Package) (canonical_name : string) : option WorkflowExecutable :=
  snd <$> list_find (λ w, we_canonical_name w = canonical_name) (omap workflow_of (pkg_executable_targets package)).
Definition find_capability_binding_slot (package : Package) (capability_name : string) : option CapabilityBindingSlot :=
  snd <$> list_find (λ s, slot_capability_name s = capability_name) (pkg_capability_binding_slots package).
Definition find_policy_obligation (package : Package) (owner_canonical_name : string) (kind : PolicyObligationKind.t)
    (clause_index : nat) : option PolicyObligation :=
  snd <$> list_find (λ o, ref_canonical_name (po_owner_target o) = owner_canonical_name ∧ po_kind o = kind ∧
    po_clause_index o = clause_index) (pkg_policy_obligations package).
Definition push_unique_binding_reference (values : list CapabilityBindingReference) (value : CapabilityBindingReference)
    : list CapabilityBindingReference :=
  if bool_decide (value ∈ values) then values else values ++ [value].
Definition build_node_capability_binding_refs (package : Package) (agent_canonical_name : string)
    : list CapabilityBindingReference :=
  foldl (λ references slot,
    if bool_decide (mkRef ExecutableKind.Agent agent_canonical_name ∈ slot_required_by_targets slot)
    then push_unique_binding_reference references (mkBinding (slot_capability_name slot) (slot_binding_key slot))
    else references) [] (pkg_capability_binding_slots package).

(** ** Reading a package *)
Definition agent_targets (package : Package) : gset string :=
  list_to_set (ae_canonical_name <$> omap agent_of (pkg_executable_targets package)).
Definition workflow_targets (package : Package) : gset string :=
  list_to_set (we_canonical_name <$> omap workflow_of (pkg_executable_targets package)).
Definition has_executable_target (package : Package) (target : ExecutableRef) : bool :=
  match ref_kind target with
  | ExecutableKind.Agent => bool_decide (ref_canonical_name target ∈ agent_targets package)
  | ExecutableKind.Workflow => bool_decide (ref_canonical_name target ∈ workflow_targets package)
  end.
Definition reader_error (msg : string) : string := "package reader summary " +:+ msg.
Definition in_targets (package : Package) (what : string) (target : ExecutableRef) : checker :=
  error_if (negb (has_executable_target package target))
    (reader_error (what +:+ " '" +:+ ref_canonical_name target +:+ "' does not exist in executable targets")).
Definition check_slot (package : Package) (seen : gset string) (slot : CapabilityBindingSlot) : checker :=
  error_if (bool_decide (slot_binding_key slot ∈ seen))
    (reader_error ("contains duplicate capability binding key '" +:+ slot_binding_key slot +:+ "'")) &>
  each (in_targets package "capability binding target") (slot_required_by_targets slot).
Definition check_package (package : Package) : checker :=
  let metadata := pkg_metadata package in
  match md_identity metadata with
  | Some identity => error_if (negb (bool_decide (id_format_version identity = kFormatVersion)))
      (reader_error ("encountered unsupported format_version '" +:+ id_format_version identity +:+ "'"))
  | None => no_check
  end &>
  match md_entry_target metadata with
  | Some target => in_targets package "entry target" target
  | None => no_check
  end &>
  each (in_targets package "export target") (md_export_targets metadata) &>
  each_from (λ seen s, {[slot_binding_key s]} ∪ seen) (check_slot package) ∅ (pkg_capability_binding_slots package) &>
  each (λ o, in_targets package "policy obligation owner" (po_owner_target o)) (pkg_policy_obligations package).
Definition count_observation (counts : PackageReaderObservationSummary) (o : Observation)
    : PackageReaderObservationSummary :=
  match ob_node o with
  | CalledCapability _ _ =>
      mkObservationCounts (oc_total counts) (S (oc_called_capability counts)) (oc_embedded_bool_expr counts)
  | EmbeddedBool _ =>
      mkObservationCounts (oc_total counts) (oc_called_capability counts) (S (oc_embedded_bool_expr counts))
  end.
Definition build_package_reader_summary (package : Package) : PackageReaderSummaryResult :=
  let metadata := pkg_metadata package in
  let observations := pkg_formal_observations package in
  mkReaderResult
    (mkReaderSummary kFormatVersion (md_identity metadata) (md_entry_target metadata) (md_export_targets metadata)
       (pkg_capability_binding_slots package) (pkg_policy_obligations package)
       (foldl count_observation (mkObservationCounts (length observations) 0 0) observations))
    (check_package package empty_bag).

(** ** The bootstrap of a workflow *)
Definition bootstrap_error (msg : string) : string := "execution planner bootstrap " +:+ msg.
Definition bootstrap_of (workflow : WorkflowExecutable) : ExecutionPlannerBootstrap :=
  mkBootstrap (we_canonical_name workflow) (we_input_type workflow) (we_output_type workflow)
    (graph_entry_nodes (we_execution_graph workflow)) (graph_dependency_edges (we_execution_graph workflow))
    ((λ n, mkBootstrapNode (xn_name n) (xn_target n) (xn_after n) (xn_lifecycle n) (xn_input_summary n))
       <$> we_nodes workflow)
    (we_return_summary workflow).
Definition check_bootstrap (package : Package) (bootstrap : ExecutionPlannerBootstrap) : checker :=
  let node_names : gset string := list_to_set (bn_name <$> bs_nodes bootstrap) in
  each (λ n, error_if (negb (bool_decide (is_Some (find_agent_executable package (bn_target n)))))
    (bootstrap_error ("node '" +:+ bn_name n +:+ "' targets unknown agent '" +:+ bn_target n +:+ "'")))
    (bs_nodes bootstrap) &>
  each (λ x, error_if (negb (bool_decide (x ∈ node_names)))
    (bootstrap_error ("entry node '" +:+ x +:+ "' does not exist in workflow '" +:+
       bs_workflow_canonical_name bootstrap +:+ "'"))) (bs_entry_nodes bootstrap) &>
  each (λ e, error_if (negb (known_edge node_names e))
    (bootstrap_error ("dependency '" +:+ edge_from e +:+ " -> " +:+ edge_to e +:+ "' refers to unknown workflow node")))
    (bs_dependency_edges bootstrap) &>
  each (λ n, each (λ d, error_if (negb (bool_decide (d ∈ node_names)))
    (bootstrap_error ("node '" +:+ bn_name n +:+ "' depends on unknown node '" +:+ d +:+ "'"))) (bn_after n))
    (bs_nodes bootstrap).
Definition build_execution_planner_bootstrap (package : Package) (workflow_canonical_name : string)
    : ExecutionPlannerBootstrapResult :=
  match find_workflow_executable package workflow_canonical_name with
  | None =>
      mkBootstrapResult None (emit_error
        (if bool_decide (is_Some (find_agent_executable package workflow_canonical_name))
         then bootstrap_error ("target '" +:+ workflow_canonical_name +:+ "' is not a workflow target")
         else "unknown execution planner workflow target '" +:+ workflow_canonical_name +:+ "'") empty_bag)
  | Some workflow =>
      mkBootstrapResult (Some (bootstrap_of workflow)) (check_bootstrap package (bootstrap_of workflow) empty_bag)
  end.
Definition build_entry_execution_planner_bootstrap (package : Package) : ExecutionPlannerBootstrapResult :=
  match md_entry_target (pkg_metadata package) with
  | None => mkBootstrapResult None (emit_error
      "package does not define a workflow entry target for execution planner bootstrap" empty_bag)
  | Some target =>
      match ref_kind target with
      | ExecutableKind.Agent => mkBootstrapResult None (emit_error
          ("package entry target '" +:+ ref_canonical_name target +:+
           "' is not a workflow target for execution planner bootstrap") empty_bag)
      | ExecutableKind.Workflow => build_execution_planner_bootstrap package (ref_canonical_name target)
      end
  end.

(** ** The execution plan *)
Definition plan_bootstrap (package : Package) (bootstrap : ExecutionPlannerBootstrap) : WorkflowPlan :=
  mkWorkflowPlan (bs_workflow_canonical_name bootstrap) (bs_input_type bootstrap) (bs_output_type bootstrap)
    (bs_entry_nodes bootstrap) (bs_dependency_edges bootstrap)
    ((λ n, mkNodePlan (bn_name n) (bn_target n) (bn_after n) (bn_lifecycle n) (bn_input_summary n)
       (build_node_capability_binding_refs package (bn_target n))) <$> bs_nodes bootstrap)
    (bs_return_summary bootstrap).
(** One executable target: the workflows planned so far and the diagnostics. *)
Definition plan_target (package : Package) (st : list WorkflowPlan * DiagnosticBag) (target : ExecutableTarget)
    : list WorkflowPlan * DiagnosticBag :=
  match target with
  | TargetAgent _ => st
  | TargetWorkflow workflow =>
      let result := build_execution_planner_bootstrap package (we_canonical_name workflow) in
      let diagnostics := append st.2 (br_diagnostics result) in
      match br_bootstrap result with
      | None => (st.1, diagnostics)
      | Some bootstrap => (st.1 ++ [plan_bootstrap package bootstrap], diagnostics)
      end
  end.
Definition plan_entry (package : Package) (diagnostics : DiagnosticBag) : option string * DiagnosticBag :=
  match md_entry_target (pkg_metadata package) with
  | None => (None, diagnostics)
  | Some _ =>
      let result := build_entry_execution_planner_bootstrap package in
      (bs_workflow_canonical_name <$> br_bootstrap result, append diagnostics (br_diagnostics result))
  end.
Definition build_execution_plan (package : Package) : cxx ExecutionPlanResult :=
  let diagnostics := append empty_bag (rr_diagnostics (build_package_reader_summary package)) in
  let '(entry, diagnostics) := plan_entry package diagnostics in
  let '(workflows, diagnostics) := foldl (plan_target package) ([], diagnostics) (pkg_executable_targets package) in
  let plan := mkPlan kExecutionPlanFormatVersion (md_identity (pkg_metadata package)) entry workflows in
  validation ← validate_execution_plan plan;
  let diagnostics := append diagnostics validation in
  Ret (mkPlanResult (if has_error diagnostics then None else Some plan) diagnostics).
