(* ===== verification/PackageProps.v ===== *)
(** * The metadata and the binding slots of a package

    The validation of the metadata accepts exactly the metadata that has a
    normal form, and returns it.  Lowering gives every capability that an agent
    requires one slot, which lists all that require it. *)
From S2P Require Import Prelude Diagnostics Ir Analysis Checks Plan Package.
Open Scope nat_scope.
Open Scope ahfl_scope.

(** ** Names of a program *)
Definition executable_name (kind : ExecutableKind.t) (d : Decl) : option string :=
  match kind, d with
  | ExecutableKind.Agent, DAgent agent => Some (agent_canonical_name agent)
  | ExecutableKind.Workflow, DWorkflow workflow => Some (workflow_name workflow)
  | _, _ => None
  end.
Definition capability_name (d : Decl) : option string :=
  match d with DCapability capability => Some (capability_canonical_name capability) | _ => None end.
Definition executables (p : Program) (kind : ExecutableKind.t) : list string :=
  omap (executable_name kind) (declarations p).
Definition capabilities (p : Program) : list string := omap capability_name (declarations p).
(** [raw] stands for [name]: it is the name, or no name at all and the display
    name of [name] alone. *)
Definition resolves (names : list string) (raw name : string) : Prop :=
  name ∈ names ∧ (name = raw ∨ raw ∉ names ∧ display_name name = raw ∧
    ∀ other, other ∈ names → display_name other = raw → other = name).
Lemma resolves_unique names raw name name' : resolves names raw name → resolves names raw name' → name = name'.
Proof. unfold resolves. naive_solver. Qed.
Lemma resolves_itself names name : name ∈ names → resolves names name name.
Proof. intros H. split; [done|by left]. Qed.

(** The index of display names. *)
Record displays (index : gmap string (list string)) (names : list string) : Prop := {
  displays_nonempty raw : index !! raw ≠ Some [];
  displays_nodup raw : NoDup (default [] (index !! raw));
  displays_elem raw x : x ∈ default [] (index !! raw) ↔ x ∈ names ∧ display_name x = raw }.
Lemma displays_empty : displays ∅ [].
Proof.
  split; intros raw; rewrite lookup_empty; [done|apply NoDup_nil_2|]. intros x. rewrite !elem_of_nil. tauto.
Qed.
Lemma displays_add index names name : displays index names →
  displays (add_unique_name index (display_name name) name) (names ++ [name]).
Proof.
  intros [Hne Hnd He]. unfold add_unique_name. split; intros raw.
  - destruct (decide (display_name name = raw)) as [<-|Hr]; [|by rewrite lookup_insert_ne].
    rewrite lookup_insert_eq. intros [= Heq]. case_bool_decide as Hin; [rewrite Heq in Hin; by apply elem_of_nil in Hin|].
    by destruct (default [] (index !! display_name name)).
  - destruct (decide (display_name name = raw)) as [<-|Hr]; [|by rewrite lookup_insert_ne].
    rewrite lookup_insert_eq. cbn [default from_option id]. case_bool_decide as Hin; [done|].
    apply NoDup_app. split_and!; [done|set_solver|apply NoDup_singleton].
  - intros x. destruct (decide (display_name name = raw)) as [<-|Hr].
    + rewrite lookup_insert_eq. cbn [default from_option id]. pose proof (He (display_name name) x) as Hx.
      pose proof (He (display_name name) name) as Hn. rewrite elem_of_app, list_elem_of_singleton.
      case_bool_decide as Hin; [|rewrite elem_of_app, list_elem_of_singleton]; naive_solver.
    + rewrite lookup_insert_ne by done. rewrite He. set_unfold. naive_solver.
Qed.
Lemma displays_unique index names raw name : displays index names → raw ∉ names →
  index !! raw = Some [name] ↔ resolves names raw name.
Proof.
  intros [Hne Hnd He] Hraw. specialize (Hne raw). specialize (Hnd raw). specialize (He raw). unfold resolves. split.
  - intros E. rewrite E in He. cbn [default from_option id] in He.
    assert (He' : ∀ x, x = name ↔ x ∈ names ∧ display_name x = raw).
    { intros x. by rewrite <-He, list_elem_of_singleton. }
    clear He. rename He' into He.
    destruct (proj1 (He name) eq_refl) as [Hin Hd]. split; [done|]. right. split_and!; [done..|].
    intros other Ho Hd'. by apply He.
  - intros [Hin [->|(_ & Hd & Hu)]]; [done|].
    assert (H : name ∈ default [] (index !! raw)) by by apply He.
    destruct (index !! raw) as [l|]; [|by apply elem_of_nil in H]. cbn in *.
    assert (Hall : ∀ x, x ∈ l → x = name) by (intros x [Hx Hdx]%He; by apply Hu). f_equal.
    destruct l as [|a [|b l]]; [by destruct Hne|by rewrite (Hall a) by left|].
    apply NoDup_cons in Hnd as [Hab _]. destruct Hab. rewrite (Hall a) by left. rewrite <-(Hall b) by (right; left). left.
Qed.

Lemma executables_indexed p kind : (∀ x, x ∈ index_canonical (build_executable_index p) kind ↔ x ∈ executables p kind) ∧
  displays (index_display (build_executable_index p) kind) (executables p kind).
Proof.
  unfold build_executable_index, executables. induction (declarations p) as [|d l [IHc IHd]] using rev_ind.
  - split; [by destruct kind; cbn; set_solver|]. destruct kind; apply displays_empty.
  - rewrite foldl_app, omap_app. cbn [foldl omap list_omap]. set (index := foldl _ _ l) in *.
    destruct kind, d; cbn in *; rewrite ?app_nil_r; (split; [|done||by apply displays_add]); set_solver.
Qed.
Lemma capabilities_indexed p : (∀ x, x ∈ ci_canonical (build_capability_index p) ↔ x ∈ capabilities p) ∧
  displays (ci_display (build_capability_index p)) (capabilities p).
Proof.
  unfold build_capability_index, capabilities. induction (declarations p) as [|d l [IHc IHd]] using rev_ind.
  - split; [by cbn; set_solver|]. apply displays_empty.
  - rewrite foldl_app, omap_app. cbn [foldl omap list_omap]. set (index := foldl _ _ l) in *.
    destruct d; cbn in *; rewrite ?app_nil_r; (split; [|done||by apply displays_add]); set_solver.
Qed.
(** What a resolution returns, and that it reports an error when it fails. *)
Definition resolution (names : list string) (raw : string) (b : DiagnosticBag) (r : option string * DiagnosticBag) : Prop :=
  match r.1 with
  | Some name => resolves names raw name ∧ r.2 = b
  | None => (∀ name, ¬ resolves names raw name) ∧ has_error r.2 = true
  end.
Lemma not_unique index names raw : displays index names → raw ∉ names → (∀ name, index !! raw ≠ Some [name]) →
  ∀ name, ¬ resolves names raw name.
Proof. intros Hd Hraw H name Hn. apply (H name). by apply (displays_unique _ names). Qed.
Lemma resolve_executable_spec p kind raw field b :
  resolution (executables p kind) raw b (resolve_executable_name (build_executable_index p) kind raw field b).
Proof.
  destruct (executables_indexed p kind) as [Hc Hd]. unfold resolve_executable_name. case_bool_decide as Hin.
  { apply Hc in Hin. split; [by apply resolves_itself|done]. }
  rewrite Hc in Hin. pose proof (not_unique _ _ raw Hd Hin) as Hno.
  destruct (index_display _ kind !! raw) as [[|name [|]]|] eqn:E.
  - by destruct (displays_nonempty _ _ Hd raw).
  - split; [|done]. by apply (displays_unique _ _ _ _ Hd Hin).
  - split; [by apply Hno|apply has_error_emit].
  - destruct (_ || _); (split; [by apply Hno|apply has_error_emit]).
Qed.
Lemma resolve_capability_spec p raw b :
  resolution (capabilities p) raw b (resolve_capability_name (build_capability_index p) raw b).
Proof.
  destruct (capabilities_indexed p) as [Hc Hd]. unfold resolve_capability_name. case_bool_decide as Hin.
  { apply Hc in Hin. split; [by apply resolves_itself|done]. }
  rewrite Hc in Hin. pose proof (not_unique _ _ raw Hd Hin) as Hno.
  destruct (ci_display _ !! raw) as [[|name [|]]|] eqn:E.
  - by destruct (displays_nonempty _ _ Hd raw).
  - split; [|done]. by apply (displays_unique _ _ _ _ Hd Hin).
  - split; [by apply Hno|apply has_error_emit].
  - split; [by apply Hno|apply has_error_emit].
Qed.

(** ** Normal forms of metadata *)
Definition normal_ref (p : Program) (t t' : ExecutableRef) : Prop :=
  ref_kind t' = ref_kind t ∧ resolves (executables p (ref_kind t)) (ref_canonical_name t) (ref_canonical_name t').
(** The binding keys [keys], by the names they resolve to. *)
Record normal_bindings (p : Program) (keys keys' : gmap string string) : Prop := {
  nb_resolves raw : is_Some (keys !! raw) → ∃ name, resolves (capabilities p) raw name;
  nb_distinct raw raw' name : is_Some (keys !! raw) → is_Some (keys !! raw') →
    resolves (capabilities p) raw name → resolves (capabilities p) raw' name → raw = raw';
  nb_lookup name key : keys' !! name = Some key ↔
    ∃ raw, keys !! raw = Some key ∧ resolves (capabilities p) raw name }.
Record normalizes (p : Program) (md md' : PackageMetadata) : Prop := {
  nm_identity : md_identity md' = md_identity md;
  nm_entry : option_Forall2 (normal_ref p) (md_entry_target md) (md_entry_target md');
  nm_exports : Forall2 (normal_ref p) (md_export_targets md) (md_export_targets md');
  nm_distinct : NoDup (md_export_targets md');
  nm_bindings : normal_bindings p (md_capability_binding_keys md) (md_capability_binding_keys md') }.

Lemma entry_spec p target b r : validate_entry_target (build_executable_index p) target b = r →
  ∀ target', has_error r.2 = false ∧ r.1 = target' ↔
    has_error b = false ∧ option_Forall2 (normal_ref p) target target'.
Proof.
  intros <- target'. destruct target as [t|]; cbn [validate_entry_target].
  2:{ split; [intros [? <-]; split; [done|constructor]|]. intros [? H]. by inversion H. }
  pose proof (resolve_executable_spec p (ref_kind t) (ref_canonical_name t) "entry_target" b) as Hr.
  destruct (resolve_executable_name _ _ _ _ _) as [[name|] b']; unfold resolution in Hr; cbn [fst snd] in *.
  - destruct Hr as [Hr ->]. split.
    + intros [? <-]. split; [done|]. by constructor.
    + intros [? H]. inversion H as [? t' [Hk Hn]|]; subst. split; [done|]. f_equal.
      destruct t' as [k' n']. cbn in *. subst k'. f_equal. by eapply resolves_unique.
  - destruct Hr as [Hr He]. split; [intros [? _]; congruence|]. intros [_ H]. inversion H as [? t' [Hk Hn]|]; subst.
    by apply Hr in Hn.
Qed.
Lemma export_key_inj t t' : export_key t = export_key t' → t = t'.
Proof. destruct t as [[] n], t' as [[] n']; intros H; vm_compute in H; congruence. Qed.
Lemma exports_spec p targets : ∀ seen b targets',
  let r := validate_export_targets (build_executable_index p) seen targets b in
  has_error r.2 = false ∧ r.1 = targets' ↔
  has_error b = false ∧ Forall2 (normal_ref p) targets targets' ∧ NoDup targets' ∧
  ∀ t, t ∈ targets' → export_key t ∉ seen.
Proof.
  induction targets as [|t targets IH]; intros seen b targets'; cbn [validate_export_targets].
  { split; [intros [? <-]; split_and!; [done|constructor|apply NoDup_nil_2|by intros ? ?%elem_of_nil]|].
    intros (? & H & _). by inversion H. }
  pose proof (resolve_executable_spec p (ref_kind t) (ref_canonical_name t) "export_targets" b) as Hr.
  destruct (resolve_executable_name _ _ _ _ _) as [[name|] b']; unfold resolution in Hr; cbn [fst snd] in Hr.
  - destruct Hr as [Hr ->]. set (t' := mkRef (ref_kind t) name). set (b' := error_if _ _ b).
    specialize (IH ({[export_key t']} ∪ seen) b').
    destruct (validate_export_targets _ _ targets b') as [rest b2]. cbn [fst snd] in *.
    assert (Hb' : has_error b' = false ↔ has_error b = false ∧ export_key t' ∉ seen) by apply checks_error_when.
    assert (Hu : ∀ u, normal_ref p t u → u = t').
    { intros [k n] [Hk Hn]. cbn in *. subst k. unfold t'. f_equal. by eapply resolves_unique. }
    split.
    + intros [He <-]. destruct (proj1 (IH rest)) as (Hb & Hf & Hn & Hs); [done|]. apply Hb' in Hb as [Hb Ht].
      split_and!; [done|by constructor| |].
      * apply NoDup_cons. split; [|done]. intros Hin. apply (Hs _ Hin). set_solver.
      * intros u [->|Hu']%elem_of_cons; [done|]. apply Hs in Hu'. set_solver.
    + intros (Hb & Hf & Hn & Hs). inversion Hf as [|? u ? rest' Hu' Hf']; subst. apply Hu in Hu' as ->.
      apply NoDup_cons in Hn as [Hout Hn]. destruct (proj2 (IH rest')) as [H1 H2]; [|by rewrite H2].
      split_and!; [apply Hb'; split; [done|apply Hs; left]|done..|].
      intros u Hin. rewrite not_elem_of_union, not_elem_of_singleton. split; [|apply Hs; by right].
      intros Heq. apply export_key_inj in Heq as ->. done.
  - destruct Hr as [Hno Herr]. specialize (IH seen b').
    destruct (validate_export_targets _ _ targets b') as [rest b2]. cbn [fst snd] in *. split.
    + intros [He _]. destruct (proj1 (IH rest)) as [? _]; [done|]. congruence.
    + intros (_ & Hf & _). inversion Hf as [|? u ? rest' [_ Hu'] Hf']; subst. by apply Hno in Hu'.
Qed.

(** The bindings that the loop has read, in its order. *)
Section Bindings.
Context (p : Program).
Abbreviation caps := (capabilities p).
Record normal_order (order : list (string * string)) : Prop := {
  no_resolves raw key : (raw, key) ∈ order → ∃ name, resolves caps raw name;
  no_distinct raw key raw' key' name : (raw, key) ∈ order → (raw', key') ∈ order →
    resolves caps raw name → resolves caps raw' name → raw = raw' }.
Lemma normal_order_prefix order l : normal_order (order ++ l) → normal_order order.
Proof. intros [H1 H2]. split; intros; [eapply H1|eapply H2]; rewrite ?elem_of_app; eauto. Qed.
Lemma bindings_spec order b : NoDup order.*1 →
  let r := foldl (normalize_binding (build_capability_index p)) (∅, b) order in
  (has_error r.2 = false ↔ has_error b = false ∧ normal_order order) ∧
  (normal_order order → ∀ name key, r.1 !! name = Some key ↔ ∃ raw, (raw, key) ∈ order ∧ resolves caps raw name).
Proof.
  induction order as [|[raw key] order IH] using rev_ind; intros Hnd; cbn zeta.
  { split.
    - split; [|by intros [? _]]. intros ?. split; [done|]. split; intros * ?%elem_of_nil; done.
    - intros _ name key. cbn [foldl fst]. rewrite lookup_empty. split; [done|]. by intros (? & ?%elem_of_nil & _). }
  rewrite fmap_app in Hnd. apply NoDup_app in Hnd as (Hnd & Hout & _). specialize (IH Hnd). cbn zeta in IH.
  rewrite foldl_app. set (st := foldl _ _ order) in *. destruct IH as [IHe IHl]. cbn [foldl]. unfold normalize_binding.
  assert (Hfresh : ∀ key', (raw, key') ∉ order).
  { intros key' Hin. apply (Hout raw); [|left]. by apply (list_elem_of_fmap_2 fst) in Hin. }
  pose proof (resolve_capability_spec p raw st.2) as Hr.
  destruct (resolve_capability_name _ _ _) as [[name|] b']; unfold resolution in Hr; cbn [fst snd] in Hr.
  2:{ destruct Hr as [Hno Herr]. cbn [fst snd]. split.
      - rewrite Herr. split; [done|]. intros [_ [H _]]. destruct (H raw key) as [name Hn]; [set_solver|]. by destruct (Hno name).
      - intros [H _]. destruct (H raw key) as [name Hn]; [set_solver|]. by destruct (Hno name). }
  destruct Hr as [Hr ->]. destruct (st.1 !! name) as [key'|] eqn:Em; cbn [fst snd].
  - assert (Hno : normal_order order → ¬ normal_order (order ++ [(raw, key)])).
    { intros Ho [_ H]. apply IHl in Em as (raw' & Hin & Hr'); [|done].
      assert (raw = raw') as <- by (eapply (H raw key raw' key' name); set_solver). by apply Hfresh in Hin. }
    split.
    + rewrite has_error_emit. split; [done|]. intros [_ H]. destruct (Hno (normal_order_prefix _ _ H) H).
    + intros H. destruct (Hno (normal_order_prefix _ _ H) H).
  - assert (Hiff : normal_order order → normal_order (order ++ [(raw, key)])).
    { intros Ho. assert (Hnew : ∀ raw' key', (raw', key') ∈ order → ¬ resolves caps raw' name).
      { intros raw' key' Hin Hr'. assert (Hs : st.1 !! name = Some key') by (apply IHl; eauto). congruence. }
      destruct Ho as [H1 H2]. split.
      - intros raw1 key1 [Hin|[= -> ->]%list_elem_of_singleton]%elem_of_app; [by eapply H1|by exists name].
      - intros raw1 key1 raw2 key2 n [Hin1|[= -> ->]%list_elem_of_singleton]%elem_of_app
          [Hin2|[= -> ->]%list_elem_of_singleton]%elem_of_app Hn1 Hn2.
        + by eapply H2.
        + rewrite (resolves_unique _ _ _ _ Hn2 Hr) in Hn1. by destruct (Hnew _ _ Hin1).
        + rewrite (resolves_unique _ _ _ _ Hn1 Hr) in Hn2. by destruct (Hnew _ _ Hin2).
        + done. }
    split.
    + rewrite IHe. split; [naive_solver|]. intros [? H]. split; [done|]. by eapply normal_order_prefix.
    + intros H n k. pose proof (normal_order_prefix _ _ H) as Ho. rewrite lookup_insert_Some, (IHl Ho). split.
      * intros [[<- <-]|[_ (raw' & Hin & Hr')]]; [exists raw|exists raw']; (split; [set_solver|done]).
      * intros (raw' & [Hin|[= -> ->]%list_elem_of_singleton]%elem_of_app & Hr').
        -- right. split; [|by exists raw']. intros <-.
           assert (Hs : st.1 !! name = Some k) by (apply IHl; eauto). congruence.
        -- left. split; [by eapply resolves_unique|done].
Qed.
End Bindings.

Lemma normal_order_bindings p keys order : order ≡ₚ map_to_list keys →
  normal_order p order ↔ (∀ raw, is_Some (keys !! raw) → ∃ name, resolves (capabilities p) raw name) ∧
    (∀ raw raw' name, is_Some (keys !! raw) → is_Some (keys !! raw') →
       resolves (capabilities p) raw name → resolves (capabilities p) raw' name → raw = raw').
Proof.
  intros Ho. assert (Hin : ∀ raw key, (raw, key) ∈ order ↔ keys !! raw = Some key).
  { intros raw key. by rewrite Ho, elem_of_map_to_list. }
  split.
  - intros [H1 H2]. split; [intros raw [key ?%Hin]; by eapply H1|].
    intros raw raw' name [key ?%Hin] [key' ?%Hin]. by eapply H2.
  - intros [H1 H2]. split; [intros raw key ?%Hin; by eapply H1|].
    intros raw key raw' key' name ?%Hin ?%Hin. by eapply H2.
Qed.
Lemma metadata_validated p md order md' : order ≡ₚ map_to_list (md_capability_binding_keys md) →
  let r := validate_package_metadata p md order in
  has_error (mr_diagnostics r) = false ∧ mr_metadata r = md' ↔ normalizes p md md'.
Proof.
  intros Ho. unfold validate_package_metadata.
  destruct (validate_entry_target _ _ _) as [entry b1] eqn:E1. pose proof (entry_spec _ _ _ _ E1) as H1.
  pose proof (exports_spec p (md_export_targets md) ∅ b1) as H2.
  destruct (validate_export_targets _ _ _ b1) as [exports b2].
  assert (Hnd : NoDup order.*1) by (rewrite Ho; apply NoDup_fst_map_to_list).
  destruct (bindings_spec p order b2 Hnd) as [H3e H3l].
  destruct (foldl _ _ order) as [keys b3]. cbn [fst snd mr_diagnostics mr_metadata] in *.
  rewrite (normal_order_bindings p _ order Ho) in H3e, H3l.
  assert (Hin : ∀ raw key, (raw, key) ∈ order ↔ md_capability_binding_keys md !! raw = Some key).
  { intros raw key. by rewrite Ho, elem_of_map_to_list. }
  setoid_rewrite Hin in H3l. split.
  - intros [He <-]. apply H3e in He as [He Hn]. destruct (proj1 (H2 exports)) as (He1 & Hx & Hd & _); [done|].
    destruct (proj1 (H1 entry)) as [_ Hen]; [done|]. split; cbn; try done.
    split; [apply Hn..|by apply H3l].
  - intros [Hid Hen Hx Hd [Hb1 Hb2 Hb3]]. assert (Hn := conj Hb1 Hb2).
    destruct (proj2 (H1 (md_entry_target md'))) as [He1 ->]; [by rewrite has_error_empty|].
    destruct (proj2 (H2 (md_export_targets md'))) as [He2 ->]; [split_and!; [done..|]; set_solver|].
    split; [by apply H3e|]. destruct md' as [i e x k]. cbn in *. subst i. f_equal. apply map_eq. intros name.
    apply option_eq. intros key. by rewrite Hb3, (H3l Hn).
Qed.
(** A normal form is its own normal form. *)
Lemma normalizes_idem p md md' : normalizes p md md' → normalizes p md' md'.
Proof.
  intros [_ Hen Hx Hd [Hb1 Hb2 Hb3]].
  assert (Hr : ∀ t t', normal_ref p t t' → normal_ref p t' t').
  { intros t t' [Hk [Hin _]]. split; [done|]. rewrite Hk. by apply resolves_itself. }
  assert (Hname : ∀ name, is_Some (md_capability_binding_keys md' !! name) → name ∈ capabilities p).
  { intros name [key (raw & _ & Hn & _)%Hb3]. done. }
  split; [done| | |done|].
  - inversion Hen; constructor. by eapply Hr.
  - clear Hd. induction Hx; constructor; [by eapply Hr|done].
  - split.
    + intros name Hn. exists name. by apply resolves_itself, Hname.
    + intros name name' n Hn Hn' H1 H2. apply Hname in Hn, Hn'.
      rewrite (resolves_unique _ _ _ _ H1 (resolves_itself _ _ Hn)) in H2.
      by rewrite (resolves_unique _ _ _ _ H2 (resolves_itself _ _ Hn')).
    + intros name key. split.
      * intros H. exists name. split; [done|]. apply resolves_itself, Hname. by eexists.
      * intros (raw & H & Hn). assert (Hin : raw ∈ capabilities p) by (apply Hname; by eexists).
        by rewrite (resolves_unique _ _ _ _ Hn (resolves_itself _ _ Hin)).
Qed.
(** C29: the validation of metadata, in whatever order it reads the bindings,
    reports no error exactly when the metadata has a normal form, in which
    every name is a canonical name of the program that the given name stands
    for, no export is listed twice and no two binding keys are for one
    capability; then it returns the normal form, which validates to itself. *)
Theorem validate_package_metadata_exact p md order : order ≡ₚ map_to_list (md_capability_binding_keys md) →
  let r := validate_package_metadata p md order in
  (∀ md', has_error (mr_diagnostics r) = false ∧ mr_metadata r = md' ↔ normalizes p md md') ∧
  (has_error (mr_diagnostics r) = false →
   ∀ order', order' ≡ₚ map_to_list (md_capability_binding_keys (mr_metadata r)) →
     let r' := validate_package_metadata p (mr_metadata r) order' in
     has_error (mr_diagnostics r') = false ∧ mr_metadata r' = mr_metadata r).
Proof.
  intros Ho r. assert (H : ∀ md', has_error (mr_diagnostics r) = false ∧ mr_metadata r = md' ↔ normalizes p md md')
    by (intros md'; by apply metadata_validated).
  split; [exact H|]. intros He order' Ho'. apply metadata_validated; [done|]. apply (normalizes_idem p md). by apply H.
Qed.

(** ** Binding slots *)
(** The first agent of a name. *)
Definition agent_decl (d : Decl) : option AgentDecl := match d with DAgent agent => Some agent | _ => None end.
Definition first_agent (l : list Decl) (name : string) : option AgentDecl :=
  snd <$> list_find (λ a, agent_canonical_name a = name) (omap agent_decl l).
Definition declared_capability (agent : AgentDecl) (c : string) : Prop :=
  c ≠ "" ∧ ∃ ref, ref ∈ agent_capability_refs agent ∧ symbol_canonical_name ref "" = c.
(** An agent requires the capabilities it declares; a workflow those of the
    agents that its nodes run. *)
Inductive requires (l : list Decl) : ExecutableRef → string → Prop :=
  | requires_agent agent c : DAgent agent ∈ l → declared_capability agent c →
      requires l (mkRef ExecutableKind.Agent (agent_canonical_name agent)) c
  | requires_workflow workflow node agent c : DWorkflow workflow ∈ l → node ∈ wf_nodes workflow →
      first_agent l (symbol_canonical_name (wn_target_ref node) "") = Some agent → declared_capability agent c →
      requires l (mkRef ExecutableKind.Workflow (workflow_name workflow)) c.
Lemma lower_symbol_names_elem agent c : c ∈ lower_symbol_names (agent_capability_refs agent) ↔ declared_capability agent c.
Proof.
  unfold lower_symbol_names, declared_capability. rewrite list_elem_of_filter, list_elem_of_fmap. naive_solver.
Qed.
Lemma find_snoc {A} (P : A → Prop) `{∀ x, Decision (P x)} l x :
  snd <$> list_find P (l ++ [x]) = (match snd <$> list_find P l with Some y => Some y | None => if decide (P x) then Some x else None end : option A).
Proof.
  induction l as [|y l IH]; cbn [app list_find]; [by case_decide|].
  destruct (decide (P y)); [done|]. destruct (list_find P l) as [[]|], (list_find P (l ++ [x])) as [[]|]; cbn in *; congruence.
Qed.
Lemma index_agents_spec {A} (value : AgentDecl → A) l name : index_agents value l !! name = value <$> first_agent l name.
Proof.
  unfold index_agents, first_agent. induction l as [|d l IH] using rev_ind; [by cbn; rewrite lookup_empty|].
  rewrite foldl_app, omap_app. set (m := foldl _ _ l) in *. cbn [foldl].
  destruct d as [| | | | | | | |agent| | |]; cbn [omap list_omap agent_decl]; rewrite ?app_nil_r; [exact IH..| |exact IH|exact IH|exact IH].
  rewrite find_snoc. assert (Hm : ∀ n, n = name → m !! n = value <$> (snd <$> list_find (λ a, agent_canonical_name a = name) (omap agent_decl l))) by by intros ? ->.
  destruct (decide (agent_canonical_name agent = name)) as [Heq|Hne].
  - rewrite (Hm _ Heq). destruct (snd <$> list_find _ _); cbn; [by rewrite IH|]. by rewrite Heq, lookup_insert_eq.
  - assert (Hsame : match m !! agent_canonical_name agent with Some _ => m | None => <[agent_canonical_name agent:=value agent]> m end !! name = m !! name).
    { destruct (m !! agent_canonical_name agent); [done|]. by rewrite lookup_insert_ne. }
    rewrite Hsame, IH. by destruct (snd <$> list_find _ _).
Qed.

(** The slots that a list of requirements makes. *)
Section Slots.
Context (md : PackageMetadata).
Definition key_of (c : string) : string := default c (md_capability_binding_keys md !! c).
Record slots_for (reqs : list (ExecutableRef * string)) (slots : list CapabilityBindingSlot) : Prop := {
  sf_distinct : NoDup (slot_capability_name <$> slots);
  sf_slot s : s ∈ slots → slot_binding_key s = key_of (slot_capability_name s) ∧
    NoDup (slot_required_by_targets s) ∧ slot_required_by_targets s ≠ [];
  sf_required t c : (∃ s, s ∈ slots ∧ slot_capability_name s = c ∧ t ∈ slot_required_by_targets s) ↔ (t, c) ∈ reqs }.
Definition add_required (t : ExecutableRef) (s : CapabilityBindingSlot) : CapabilityBindingSlot :=
  mkSlot (slot_capability_name s) (slot_binding_key s) (push_unique_target_ref (slot_required_by_targets s) t).
Lemma push_unique_spec t l : NoDup l → NoDup (push_unique_target_ref l t) ∧ push_unique_target_ref l t ≠ [] ∧
  ∀ u, u ∈ push_unique_target_ref l t ↔ u ∈ l ∨ u = t.
Proof.
  intros Hl. unfold push_unique_target_ref. case_bool_decide as Hin.
  - split_and!; [done|by intros ->; apply elem_of_nil in Hin|]. naive_solver.
  - split_and!; [apply NoDup_app; split_and!; [done|set_solver|apply NoDup_singleton]|by destruct l|]. set_solver.
Qed.
(** A slot that exists, and the slot that is changed. *)
Lemma require_slot_cases t slots c : NoDup (slot_capability_name <$> slots) →
  (∃ l s l', slots = l ++ s :: l' ∧ slot_capability_name s = c ∧ require_slot md t slots c = l ++ add_required t s :: l') ∨
  (c ∉ slot_capability_name <$> slots ∧ require_slot md t slots c = slots ++ [mkSlot c (key_of c) [t]]).
Proof.
  intros Hnd. unfold require_slot, get_or_create_capability_binding_slot.
  destruct (list_find _ slots) as [[i s]|] eqn:E.
  - left. apply list_find_Some in E as (Hi & Hc & _). exists (take i slots), s, (drop (S i) slots).
    split_and!; [by rewrite take_drop_middle|done|].
    assert (Hlen : length (take i slots) = i) by (apply lookup_lt_Some in Hi; rewrite length_take; lia).
    rewrite <-(take_drop_middle slots i s Hi) at 1. rewrite <-Hlen at 1. rewrite <-(Nat.add_0_r (length _)).
    by rewrite alter_app_r.
  - right. apply list_find_None in E. split.
    + intros (s & -> & Hs)%list_elem_of_fmap. rewrite Forall_forall in E. by apply (E s Hs).
    + rewrite alter_app_r_alt by lia. by rewrite Nat.sub_diag.
Qed.
Lemma require_slot_ok reqs slots t c : slots_for reqs slots → slots_for (reqs ++ [(t, c)]) (require_slot md t slots c).
Proof.
  intros [Hd Hs Hr]. destruct (require_slot_cases t slots c Hd) as [(l & s & l' & -> & Hc & ->)|[Hout ->]].
  - destruct (Hs s) as (Hk & Hn & _); [set_solver|]. destruct (push_unique_spec t _ Hn) as (Hn' & Hne & Hin). split.
    + by rewrite fmap_app, fmap_cons in Hd |- *.
    + intros s' [Hl|[->|Hl]%elem_of_cons]%elem_of_app; [apply Hs; set_solver| |apply Hs; set_solver]. done.
    + intros u c'. rewrite elem_of_app, <-Hr, list_elem_of_singleton. setoid_rewrite elem_of_app. setoid_rewrite elem_of_cons.
      split.
      * intros (s' & [Hl|[->|Hl]] & Hc' & Hu); [left; exists s'; naive_solver| |left; exists s'; naive_solver].
        cbn [add_required slot_capability_name slot_required_by_targets] in *. apply Hin in Hu as [Hu| ->]; [left; exists s; naive_solver|].
        right. congruence.
      * intros [(s' & [Hl|[->|Hl]] & Hc' & Hu)|[= -> ->]].
        -- exists s'. naive_solver.
        -- exists (add_required t s). split_and!; [by right; left|done|]. apply Hin. by left.
        -- exists s'. naive_solver.
        -- exists (add_required t s). split_and!; [by right; left|done|]. apply Hin. by right.
  - split.
    + rewrite fmap_app. apply NoDup_app. split_and!; [done|set_solver|apply NoDup_singleton].
    + intros s' [Hl| ->%list_elem_of_singleton]%elem_of_app; [by apply Hs|].
      split_and!; [done|apply NoDup_singleton|done].
    + intros u c'. rewrite elem_of_app, <-Hr, list_elem_of_singleton. split.
      * intros (s' & [Hl| ->%list_elem_of_singleton]%elem_of_app & Hc' & Hu); [left; exists s'; done|].
        cbn in Hc', Hu. apply list_elem_of_singleton in Hu as ->. right. by subst c'.
      * intros [(s' & Hl & Hc' & Hu)|[= -> ->]]; [exists s'; set_solver|].
        exists (mkSlot c (key_of c) [t]). set_solver.
Qed.
Lemma require_slots_ok t l reqs slots : slots_for reqs slots →
  slots_for (reqs ++ ((t,.) <$> l)) (foldl (require_slot md t) slots l).
Proof.
  revert reqs slots. induction l as [|c l IH]; intros reqs slots H; cbn [foldl]; [by rewrite app_nil_r|].
  rewrite fmap_cons. change (?x :: ?y) with ([x] ++ y). rewrite app_assoc. by apply IH, require_slot_ok.
Qed.
End Slots.

(** ** The parts of a lowered package *)
Section Parts.
Context (p : AnalyzedProgram) (md : PackageMetadata).
Abbreviation decls := (declarations (program p)).
Definition agent_capabilities : gmap string (list string) :=
  index_agents (λ agent, lower_symbol_names (agent_capability_refs agent)) decls.
Definition lowered_target (d : Decl) : option ExecutableTarget :=
  match d with
  | DAgent agent => Some (TargetAgent (lower_agent_executable agent))
  | DWorkflow workflow => Some (TargetWorkflow (lower_workflow_executable p workflow (index_agents id decls)))
  | _ => None
  end.
Definition requirements (d : Decl) : list (ExecutableRef * string) :=
  match d with
  | DAgent agent => (mkRef ExecutableKind.Agent (agent_canonical_name agent),.) <$> lower_symbol_names (agent_capability_refs agent)
  | DWorkflow workflow => wf_nodes workflow ≫= λ node,
      (mkRef ExecutableKind.Workflow (workflow_name workflow),.) <$>
        default [] (agent_capabilities !! symbol_canonical_name (wn_target_ref node) "")
  | _ => []
  end.
Definition lowered_obligations (observations : list Observation) (d : Decl) : list PolicyObligation :=
  match d with
  | DWorkflow workflow => add_workflow_policy_obligations observations workflow
  | DContract contract => add_contract_policy_obligations observations contract
  | _ => []
  end.
Lemma requirements_elem t c : (t, c) ∈ decls ≫= requirements ↔ requires decls t c.
Proof.
  rewrite list_elem_of_bind. split.
  - intros (d & Hin & Hd). destruct d as [| | | | | | | |agent| | |workflow]; cbn [requirements] in Hin; try by apply elem_of_nil in Hin.
    + apply list_elem_of_fmap in Hin as (c' & [= -> ->] & Hc). constructor; [done|]. by apply lower_symbol_names_elem.
    + apply list_elem_of_bind in Hin as (node & Hin & Hn). apply list_elem_of_fmap in Hin as (c' & [= -> ->] & Hc).
      unfold agent_capabilities in Hc. rewrite index_agents_spec in Hc.
      destruct (first_agent _ _) as [agent|] eqn:E; [|by apply elem_of_nil in Hc].
      apply lower_symbol_names_elem in Hc. by econstructor.
  - intros [agent c' Hd Hc|workflow node agent c' Hd Hn Ha Hc].
    + exists (DAgent agent). split; [|done]. apply list_elem_of_fmap. exists c'. split; [done|]. by apply lower_symbol_names_elem.
    + exists (DWorkflow workflow). split; [|done]. apply list_elem_of_bind. exists node. split; [|done].
      apply list_elem_of_fmap. exists c'. split; [done|]. unfold agent_capabilities. rewrite index_agents_spec, Ha.
      by apply lower_symbol_names_elem.
Qed.
Definition lowered_metadata : PackageMetadata :=
  mkMetadata (stamp_identity <$> md_identity md) (md_entry_target md) (md_export_targets md) (md_capability_binding_keys md).
Lemma node_slots_ok t l reqs slots : slots_for md reqs slots →
  slots_for md (reqs ++ (l ≫= λ x, (t,.) <$> default [] (agent_capabilities !! xn_target x)))
    (foldl (λ slots x, foldl (require_slot lowered_metadata t) slots (default [] (agent_capabilities !! xn_target x))) slots l).
Proof.
  revert reqs slots. induction l as [|x l IH]; intros reqs slots H; cbn [foldl]; [by rewrite app_nil_r|].
  rewrite bind_cons, app_assoc. apply IH. by apply (require_slots_ok md).
Qed.
Lemma nodes_lowered workflow : xn_target <$> we_nodes (lower_workflow_executable p workflow (index_agents id decls)) =
  (λ node, symbol_canonical_name (wn_target_ref node) "") <$> wf_nodes workflow.
Proof.
  cbn [lower_workflow_executable we_nodes]. rewrite fmap_imap. apply imap_const.
Qed.
Lemma lower_declaration_slots d package reqs :
  pkg_metadata package = lowered_metadata → slots_for md reqs (pkg_capability_binding_slots package) →
  slots_for md (reqs ++ requirements d) (pkg_capability_binding_slots
    (lower_declaration p agent_capabilities (index_agents id decls) package d)).
Proof.
  destruct package as [md' targets slots obligations observations]. cbn [pkg_metadata pkg_capability_binding_slots]. intros -> H.
  destruct d as [| | | | | | | |agent| | |workflow]; cbn [lower_declaration requirements pkg_capability_binding_slots]; rewrite ?app_nil_r; try exact H.
  - by apply (require_slots_ok md).
  - assert (Hn : ∀ t, (wf_nodes workflow ≫= λ node,
        (t : ExecutableRef,.) <$> default [] (agent_capabilities !! symbol_canonical_name (wn_target_ref node) "")) =
      (we_nodes (lower_workflow_executable p workflow (index_agents id decls)) ≫= λ x,
        (t,.) <$> default [] (agent_capabilities !! xn_target x))).
    { intros t. set (g := λ name : string, (t,.) <$> default [] (agent_capabilities !! name)).
      change (wf_nodes workflow ≫= g ∘ (λ node, symbol_canonical_name (wn_target_ref node) "") =
        we_nodes (lower_workflow_executable p workflow (index_agents id decls)) ≫= g ∘ xn_target).
      by rewrite <-!list_fmap_bind, nodes_lowered. }
    rewrite Hn. by apply node_slots_ok.
Qed.
Definition lowered_observations : list Observation := lower_formal_observations (formal_observations (analyses p)).
Lemma lower_package_parts :
  pkg_metadata (lower_package p md) = lowered_metadata ∧
  pkg_executable_targets (lower_package p md) = omap lowered_target decls ∧
  slots_for md (decls ≫= requirements) (pkg_capability_binding_slots (lower_package p md)) ∧
  pkg_policy_obligations (lower_package p md) = decls ≫= lowered_obligations lowered_observations ∧
  pkg_formal_observations (lower_package p md) = lowered_observations.
Proof.
  unfold lower_package. cbv zeta. fold agent_capabilities. fold lowered_metadata. fold lowered_observations.
  set (step := lower_declaration p agent_capabilities (index_agents id decls)).
  assert (H : ∀ l, let r := foldl step (mkPackage lowered_metadata [] [] [] lowered_observations) l in
    pkg_metadata r = lowered_metadata ∧ pkg_executable_targets r = omap lowered_target l ∧
    slots_for md (l ≫= requirements) (pkg_capability_binding_slots r) ∧
    pkg_policy_obligations r = l ≫= lowered_obligations lowered_observations ∧ pkg_formal_observations r = lowered_observations).
  2:{ apply H. }
  intros l. induction l as [|d l IH] using rev_ind; cbn zeta.
  { cbn. split_and!; [done..| |done|done]. split; [apply NoDup_nil_2|by intros ? ?%elem_of_nil|].
    intros t c. split; [by intros (? & ?%elem_of_nil & _)|by intros ?%elem_of_nil]. }
  rewrite foldl_app, omap_app, !bind_app. cbn [foldl]. cbn zeta in IH. destruct IH as (H1 & H2 & H3 & H4 & H5).
  pose proof (lower_declaration_slots d _ _ H1 H3) as Hs. fold step in Hs.
  assert (Hr : [d] ≫= requirements = requirements d) by (rewrite bind_cons; apply app_nil_r). rewrite Hr.
  assert (Ho : [d] ≫= lowered_obligations lowered_observations = lowered_obligations lowered_observations d) by (rewrite bind_cons; apply app_nil_r).
  rewrite Ho. clear Hr Ho. destruct (foldl step _ l) as [md' targets slots obligations observations].
  cbn [pkg_metadata pkg_executable_targets pkg_capability_binding_slots pkg_policy_obligations pkg_formal_observations] in *. subst.
  split_and!; [|  |done| |]; by destruct d; cbn; rewrite ?app_nil_r.
Qed.
End Parts.

(** The bindings of a node: the slots that its agent requires. *)
Lemma node_bindings_spec package agent : NoDup (slot_capability_name <$> pkg_capability_binding_slots package) →
  NoDup (binding_capability_name <$> build_node_capability_binding_refs package agent) ∧
  ∀ b, b ∈ build_node_capability_binding_refs package agent ↔ ∃ s, s ∈ pkg_capability_binding_slots package ∧
    mkRef ExecutableKind.Agent agent ∈ slot_required_by_targets s ∧ b = mkBinding (slot_capability_name s) (slot_binding_key s).
Proof.
  unfold build_node_capability_binding_refs. set (step := λ _ _, _). intros Hnd.
  induction (pkg_capability_binding_slots package) as [|s l IH] using rev_ind.
  { split; [apply NoDup_nil_2|]. intros b. cbn [foldl]. split; [by intros ?%elem_of_nil|by intros (? & ?%elem_of_nil & _)]. }
  rewrite fmap_app in Hnd. apply NoDup_app in Hnd as (Hnd & Hout & _). destruct (IH Hnd) as [IH1 IH2]. clear IH.
  rewrite foldl_app. cbn [foldl]. set (r := foldl step [] l) in *. unfold step, push_unique_binding_reference.
  set (b0 := mkBinding _ _). case_bool_decide as Hreq.
  - assert (Hfresh : slot_capability_name s ∉ binding_capability_name <$> r).
    { intros (b & Hc & (s' & Hs' & _ & ->)%IH2)%list_elem_of_fmap. apply (Hout (slot_capability_name s')); [by apply list_elem_of_fmap_2|].
      cbn [binding_capability_name] in Hc. rewrite <-Hc. apply list_elem_of_fmap_2. left. }
    assert (b0 ∉ r) by (intros Hb; by apply (list_elem_of_fmap_2 binding_capability_name) in Hb).
    rewrite bool_decide_eq_false_2 by done. split.
    + rewrite fmap_app. apply NoDup_app. split_and!; [done| |apply NoDup_singleton].
      intros x Hx ->%list_elem_of_singleton. done.
    + intros b. rewrite elem_of_app, IH2, list_elem_of_singleton. setoid_rewrite elem_of_app. setoid_rewrite list_elem_of_singleton.
      split; [naive_solver|]. intros (s' & [Hl| ->] & Hr' & ->); [left; eauto|by right].
  - split; [done|]. intros b. rewrite IH2. setoid_rewrite elem_of_app. setoid_rewrite list_elem_of_singleton. naive_solver.
Qed.
Lemma lowered_slots p md : NoDup (slot_capability_name <$> pkg_capability_binding_slots (lower_package p md)) ∧
  (∀ s, s ∈ pkg_capability_binding_slots (lower_package p md) → slot_binding_key s = key_of md (slot_capability_name s) ∧
     NoDup (slot_required_by_targets s) ∧ slot_required_by_targets s ≠ []) ∧
  (∀ t c, (∃ s, s ∈ pkg_capability_binding_slots (lower_package p md) ∧ slot_capability_name s = c ∧
     t ∈ slot_required_by_targets s) ↔ requires (declarations (program p)) t c).
Proof.
  destruct (lower_package_parts p md) as (_ & _ & [Hd Hs Hr] & _). split_and!; [done..|].
  intros t c. by rewrite Hr, requirements_elem.
Qed.
Lemma lowered_bindings p md agent :
  NoDup (binding_capability_name <$> build_node_capability_binding_refs (lower_package p md) agent) ∧
  ∀ b, b ∈ build_node_capability_binding_refs (lower_package p md) agent ↔
    requires (declarations (program p)) (mkRef ExecutableKind.Agent agent) (binding_capability_name b) ∧
    binding_key b = key_of md (binding_capability_name b).
Proof.
  destruct (lowered_slots p md) as (Hd & Hs & Hr). destruct (node_bindings_spec _ agent Hd) as [H1 H2].
  split; [done|]. intros b. rewrite H2, <-Hr. split.
  - intros (s & Hin & Ht & ->). split; [by exists s|]. by apply Hs.
  - intros [(s & Hin & Hc & Ht) Hk]. exists s. split_and!; [done..|]. destruct (Hs s Hin) as [Hk' _].
    destruct b as [c k]. cbn in *. by rewrite Hk, Hk', Hc.
Qed.
(** A lowered package has one binding slot for every capability that an
    agent or a workflow of the program requires, under the key that the
    metadata gives it (its own name otherwise), and the slot lists exactly the
    targets that require it, each once; the bindings of a node are the
    capabilities of the agent it runs. *)
Theorem binding_slots_correct p md :
  let slots := pkg_capability_binding_slots (lower_package p md) in
  NoDup (slot_capability_name <$> slots) ∧
  (∀ s, s ∈ slots → slot_binding_key s = key_of md (slot_capability_name s) ∧
     NoDup (slot_required_by_targets s) ∧ slot_required_by_targets s ≠ []) ∧
  (∀ t c, (∃ s, s ∈ slots ∧ slot_capability_name s = c ∧ t ∈ slot_required_by_targets s) ↔
     requires (declarations (program p)) t c) ∧
  ∀ agent, let bindings := build_node_capability_binding_refs (lower_package p md) agent in
    NoDup (binding_capability_name <$> bindings) ∧
    ∀ b, b ∈ bindings ↔
      requires (declarations (program p)) (mkRef ExecutableKind.Agent agent) (binding_capability_name b) ∧
      binding_key b = key_of md (binding_capability_name b).
Proof.
  intros slots. destruct (lowered_slots p md) as (? & ? & ?). split_and!; [done..|]. intros agent. apply lowered_bindings.
Qed.

(** ** Example *)
Definition sample_symbol (kind : SymbolRefKind.t) (name : string) : SymbolRef := mkSymbolRef kind name "" "app" None.
Definition sample_agent (name : string) (capabilities : list string) : AgentDecl :=
  mkAgentDecl (mkProvenance "app" "app.ahfl" None 0) name ["Start"; "Done"] "Start" ["Done"] [] [mkTransition "Start" "Done"]
    default_type_ref default_type_ref default_type_ref (sample_symbol SymbolRefKind.Capability <$> capabilities)
    (sample_symbol SymbolRefKind.Agent name).
Definition sample_wf_node (name target : string) (after : list string) : WorkflowNode :=
  mkWorkflowNode name None after (sample_symbol SymbolRefKind.Agent target) None.
Definition sample_workflow : WorkflowDecl :=
  mkWorkflowDecl (mkProvenance "app" "app.ahfl" None 0) "app::Main"
    [sample_wf_node "fetch" "app::Fetch" []; sample_wf_node "score" "app::Score" ["fetch"]] [] [] None
    default_type_ref default_type_ref (sample_symbol SymbolRefKind.Workflow "app::Main").
Definition sample_capability (name : string) : CapabilityDecl :=
  mkCapabilityDecl (mkProvenance "app" "app.ahfl" None 0) name [] default_type_ref
    (mkEffectSpec false CapabilityEffectKind.Unknown None None CapabilityReceiptMode.None_ CapabilityRetryMode.Unsafe None None [] None)
    (sample_symbol SymbolRefKind.Capability name).
Definition sample_program : AnalyzedProgram :=
  mkAnalyzed
    (mkProgram "ahfl.ir.v1" ProgramPhase.Analyzed 0
      [DCapability (sample_capability "app::Http"); DAgent (sample_agent "app::Fetch" ["app::Http"]);
       DAgent (sample_agent "app::Score" []); DWorkflow sample_workflow])
    (mkBundle 0 [] [mkNodeEntry "app::Main" "fetch" 0 (mkExprSummary [mkRead WorkflowValueSourceKind.WorkflowInput "input" []]);
       mkNodeEntry "app::Main" "score" 1 (mkExprSummary [mkRead WorkflowValueSourceKind.WorkflowNodeOutput "fetch" []])]
      [mkReturnEntry "app::Main" (mkExprSummary [mkRead WorkflowValueSourceKind.WorkflowNodeOutput "score" []])] []).
(** The metadata names its targets by their display names. *)
Definition sample_metadata : PackageMetadata :=
  mkMetadata (Some (mkIdentity "" "app" "1.0")) (Some (mkRef ExecutableKind.Workflow "Main"))
    [mkRef ExecutableKind.Agent "Fetch"; mkRef ExecutableKind.Workflow "app::Main"] {["Http" := "http"]}.
Definition sample_order : list (string * string) := [("Http", "http")].
Lemma sample_order_ok : sample_order ≡ₚ map_to_list (md_capability_binding_keys sample_metadata).
Proof. cbn [md_capability_binding_keys sample_metadata]. by rewrite map_to_list_singleton. Qed.
Lemma validate_package_metadata_exact_witness :
  mr_metadata (validate_package_metadata (program sample_program) sample_metadata sample_order) =
    mkMetadata (Some (mkIdentity "" "app" "1.0")) (Some (mkRef ExecutableKind.Workflow "app::Main"))
      [mkRef ExecutableKind.Agent "app::Fetch"; mkRef ExecutableKind.Workflow "app::Main"] {["app::Http" := "http"]} ∧
  normalizes (program sample_program) sample_metadata
    (mr_metadata (validate_package_metadata (program sample_program) sample_metadata sample_order)).
Proof.
  destruct (validate_package_metadata_exact (program sample_program) sample_metadata sample_order sample_order_ok) as [H _].
  split; [by vm_compute|]. apply H. split; [by vm_compute|done].
Defined.
(** Names that are ambiguous, unknown, of the other kind, or bound twice. *)
Example metadata_errors :
  let check entry exports keys order := has_error (mr_diagnostics
    (validate_package_metadata (program sample_program) (mkMetadata None entry exports keys) order)) in
  check (Some (mkRef ExecutableKind.Agent "Main")) [] ∅ [] = true ∧
  check (Some (mkRef ExecutableKind.Agent "Missing")) [] ∅ [] = true ∧
  check None [mkRef ExecutableKind.Agent "Fetch"; mkRef ExecutableKind.Agent "app::Fetch"] ∅ [] = true ∧
  check None [] {["Http" := "a"; "app::Http" := "b"]} [("app::Http", "b"); ("Http", "a")] = true.
Proof. by vm_compute. Qed.
