(* ===== verification/PackagePlan.v ===== *)
(** * The execution plan of a package

    A plan is built exactly for the packages that can be planned, and it is the
    plan that mirrors their workflows.  A program whose metadata validates and
    whose workflows are in order has such a package. *)
From S2P Require Import Prelude Diagnostics Ir Analysis Checks Plan PlanProps Package PackageProps.
Open Scope nat_scope.
Open Scope ahfl_scope.

(** ** The plan that a package stands for *)
Definition workflows_of (package : Package) : list WorkflowExecutable :=
  omap workflow_of (pkg_executable_targets package).
Definition agents_of (package : Package) : list AgentExecutable := omap agent_of (pkg_executable_targets package).
Definition plan_of_workflow (package : Package) (w : WorkflowExecutable) : WorkflowPlan :=
  plan_bootstrap package (bootstrap_of w).
Definition plan_of (package : Package) : ExecutionPlan :=
  mkPlan kExecutionPlanFormatVersion (md_identity (pkg_metadata package))
    (ref_canonical_name <$> md_entry_target (pkg_metadata package)) (plan_of_workflow package <$> workflows_of package).
Definition target_exists (package : Package) (t : ExecutableRef) : Prop :=
  match ref_kind t with
  | ExecutableKind.Agent => ref_canonical_name t ∈ ae_canonical_name <$> agents_of package
  | ExecutableKind.Workflow => ref_canonical_name t ∈ we_canonical_name <$> workflows_of package
  end.
Record readable (package : Package) : Prop := {
  rd_version identity : md_identity (pkg_metadata package) = Some identity → id_format_version identity = kFormatVersion;
  rd_entry t : md_entry_target (pkg_metadata package) = Some t → target_exists package t;
  rd_export t : t ∈ md_export_targets (pkg_metadata package) → target_exists package t;
  rd_keys : NoDup (slot_binding_key <$> pkg_capability_binding_slots package);
  rd_required s t : s ∈ pkg_capability_binding_slots package → t ∈ slot_required_by_targets s → target_exists package t;
  rd_owner o : o ∈ pkg_policy_obligations package → target_exists package (po_owner_target o) }.
Record plannable (package : Package) : Prop := {
  pl_readable : readable package;
  pl_entry t : md_entry_target (pkg_metadata package) = Some t → ref_kind t = ExecutableKind.Workflow;
  pl_agents w n : w ∈ workflows_of package → n ∈ we_nodes w → xn_target n ∈ ae_canonical_name <$> agents_of package;
  pl_plan : well_formed_plan (plan_of package) }.

(** ** The reader *)
Lemma has_target_iff package t : has_executable_target package t = true ↔ target_exists package t.
Proof.
  unfold has_executable_target, target_exists, agent_targets, workflow_targets. by destruct (ref_kind t); rewrite bool_decide_eq_true, elem_of_list_to_set.
Qed.
Lemma in_targets_checks package what t : checks (in_targets package what t) (target_exists package t).
Proof. eapply checks_iff; [apply checks_error_if|]. by rewrite negb_false_iff, has_target_iff. Qed.
Lemma package_checks package : checks (check_package package) (readable package).
Proof.
  unfold check_package. eapply checks_iff.
  - apply checks_andthen.
    { apply (checks_iff _ (∀ identity, md_identity (pkg_metadata package) = Some identity → id_format_version identity = kFormatVersion)).
      2: reflexivity.
      destruct (md_identity _) as [identity|]; [eapply checks_iff; [apply checks_error_unless|]|eapply checks_iff; [apply checks_nothing|]]; naive_solver. }
    apply checks_andthen.
    { apply (checks_iff _ (∀ t, md_entry_target (pkg_metadata package) = Some t → target_exists package t)).
      2: reflexivity.
      destruct (md_entry_target _) as [t|]; [eapply checks_iff; [apply in_targets_checks|]|eapply checks_iff; [apply checks_nothing|]]; naive_solver. }
    apply checks_andthen; [apply checks_each; intros; apply in_targets_checks|].
    apply checks_andthen.
    { apply (checks_each_seen slot_binding_key). intros seen s. apply checks_andthen; [apply checks_error_when|].
      apply checks_each. intros. apply in_targets_checks. }
    apply (checks_each _ (λ o, target_exists package (po_owner_target o))). intros. apply in_targets_checks.
  - split; [intros (?&?&?&[??]&?); split; naive_solver|]. intros []. naive_solver.
Qed.

(** ** Lookups and bootstraps *)
Lemma found_by {A} (f : A → string) (l : list A) name : is_Some (snd <$> list_find (λ x, f x = name) l) ↔ name ∈ f <$> l.
Proof.
  rewrite list_elem_of_fmap. split.
  - intros [x Hx]. apply fmap_Some in Hx as ([i y] & Hf & ->). apply list_find_Some in Hf as (Hi & Hy & _). exists y.
    split; [done|]. by eapply list_elem_of_lookup_2.
  - intros (x & -> & Hx). destruct (list_find (λ y, f y = f x) l) as [[i y]|] eqn:E; [by eexists|].
    apply list_find_None in E. rewrite Forall_forall in E. by destruct (E x Hx).
Qed.
Lemma find_by {A} (f : A → string) (l : list A) name x : snd <$> list_find (λ x, f x = name) l = Some x → x ∈ l ∧ f x = name.
Proof.
  intros ([i y] & Hf & ->)%fmap_Some. apply list_find_Some in Hf as (Hi & Hy & _). split; [|done].
  by eapply list_elem_of_lookup_2.
Qed.
Lemma find_unique {A} (f : A → string) (l : list A) x : NoDup (f <$> l) → x ∈ l → snd <$> list_find (λ y, f y = f x) l = Some x.
Proof.
  intros Hnd Hx. destruct (snd <$> list_find _ l) as [y|] eqn:E.
  - apply find_by in E as [Hy Hf]. f_equal. apply list_elem_of_lookup in Hx as [i Hi], Hy as [j Hj].
    assert (i = j) as ->; [|congruence].
    apply (NoDup_lookup (f <$> l) i j (f x) Hnd); rewrite list_lookup_fmap; [by rewrite Hi|by rewrite Hj; cbn; rewrite Hf].
  - assert (H : is_Some (snd <$> list_find (λ y, f y = f x) l)) by by apply found_by, list_elem_of_fmap_2.
    rewrite E in H. by destruct H.
Qed.
Definition bootstrap_ok (package : Package) (w : WorkflowExecutable) : Prop :=
  (∀ n, n ∈ we_nodes w → xn_target n ∈ ae_canonical_name <$> agents_of package) ∧
  (∀ x, x ∈ graph_entry_nodes (we_execution_graph w) → x ∈ xn_name <$> we_nodes w) ∧
  (∀ e, e ∈ graph_dependency_edges (we_execution_graph w) → edge_from e ∈ xn_name <$> we_nodes w ∧ edge_to e ∈ xn_name <$> we_nodes w) ∧
  (∀ n d, n ∈ we_nodes w → d ∈ xn_after n → d ∈ xn_name <$> we_nodes w).
Lemma bootstrap_checks package w : checks (check_bootstrap package (bootstrap_of w)) (bootstrap_ok package w).
Proof.
  unfold check_bootstrap. cbn [bootstrap_of bs_nodes bs_entry_nodes bs_dependency_edges bs_workflow_canonical_name].
  rewrite <-list_fmap_compose. set (names := list_to_set _).
  assert (Hn : ∀ x, x ∈ names ↔ x ∈ xn_name <$> we_nodes w).
  { intros x. unfold names. by rewrite elem_of_list_to_set. }
  eapply checks_iff.
  - apply checks_andthen; [apply checks_each; intros; apply checks_error_unless|].
    apply checks_andthen; [apply checks_each; intros; apply checks_error_unless|].
    apply checks_andthen; [apply checks_each; intros; apply checks_error_if|].
    apply (checks_each _ (λ n, ∀ d, d ∈ bn_after n → d ∈ names)). intros. apply checks_each. intros. apply checks_error_unless.
  - setoid_rewrite list_elem_of_fmap. setoid_rewrite negb_false_iff. setoid_rewrite known_edge_iff. setoid_rewrite Hn.
    unfold bootstrap_ok, find_agent_executable. setoid_rewrite found_by. split.
    + intros (H1 & H2 & H3 & H4). split_and!; [| done | done |].
      * intros n Hin. by apply (H1 (mkBootstrapNode (xn_name n) (xn_target n) (xn_after n) (xn_lifecycle n) (xn_input_summary n))); exists n.
      * intros n d Hin. by apply (H4 (mkBootstrapNode (xn_name n) (xn_target n) (xn_after n) (xn_lifecycle n) (xn_input_summary n))); exists n.
    + intros (H1 & H2 & H3 & H4). split_and!; [| done | done |].
      * intros ? (n & -> & Hin). by apply H1.
      * intros ? (n & -> & Hin) d. by apply H4.
Qed.

(** ** The loop over the targets *)
Section Plan.
Context (package : Package).
Definition looked_up (w : WorkflowExecutable) : WorkflowExecutable :=
  default w (find_workflow_executable package (we_canonical_name w)).
Lemma looked_up_spec w : w ∈ workflows_of package →
  find_workflow_executable package (we_canonical_name w) = Some (looked_up w) ∧
  looked_up w ∈ workflows_of package ∧ we_canonical_name (looked_up w) = we_canonical_name w.
Proof.
  intros Hw. unfold looked_up. assert (Hs : is_Some (find_workflow_executable package (we_canonical_name w))).
  { by apply found_by, list_elem_of_fmap_2. }
  destruct Hs as [w' Hw']. rewrite Hw'. split; [done|]. by apply find_by in Hw'.
Qed.
Lemma looked_up_unique w : NoDup (we_canonical_name <$> workflows_of package) → w ∈ workflows_of package → looked_up w = w.
Proof.
  intros Hnd Hw. unfold looked_up, find_workflow_executable. fold (workflows_of package).
  by rewrite (find_unique we_canonical_name).
Qed.
Lemma bootstrap_spec name w : find_workflow_executable package name = Some w →
  br_bootstrap (build_execution_planner_bootstrap package name) = Some (bootstrap_of w) ∧
  (has_error (br_diagnostics (build_execution_planner_bootstrap package name)) = false ↔ bootstrap_ok package w).
Proof.
  intros Hw. unfold build_execution_planner_bootstrap. rewrite Hw. split; [done|]. apply checks_run, bootstrap_checks.
Qed.
Lemma plan_targets_spec l : (∀ w, w ∈ omap workflow_of l → w ∈ workflows_of package) → ∀ st,
  let r := foldl (plan_target package) st l in
  r.1 = st.1 ++ (plan_of_workflow package ∘ looked_up <$> omap workflow_of l) ∧
  (has_error r.2 = false ↔ has_error st.2 = false ∧ ∀ w, w ∈ omap workflow_of l → bootstrap_ok package (looked_up w)).
Proof.
  induction l as [|t l IH]; intros Hl st; cbn zeta.
  { split; [by rewrite app_nil_r|]. cbn [foldl]. split; [|by intros [? _]]. intros ?. split; [done|].
    by intros ? ?%elem_of_nil. }
  cbn [foldl]. destruct t as [a|w]; [by apply IH|]. cbn [omap list_omap workflow_of] in Hl |- *.
  destruct (looked_up_spec w (Hl w ltac:(left))) as (Hf & _ & _). apply bootstrap_spec in Hf as [Hb He].
  destruct (IH (λ x Hx, Hl x (list_elem_of_further _ _ _ Hx)) (plan_target package st (TargetWorkflow w))) as [H1 H2]. split.
  - rewrite H1. cbn [plan_target]. rewrite Hb. cbn [fst]. rewrite fmap_cons, <-app_assoc. done.
  - rewrite H2. cbn [plan_target]. rewrite Hb. cbn [snd]. rewrite has_error_append, orb_false_iff, He.
    setoid_rewrite elem_of_cons. naive_solver.
Qed.
Lemma plan_entry_spec d (r := plan_entry package d) :
  (has_error r.2 = false ↔ has_error d = false ∧ ∀ t, md_entry_target (pkg_metadata package) = Some t →
     ref_kind t = ExecutableKind.Workflow ∧ ∃ w, find_workflow_executable package (ref_canonical_name t) = Some w ∧ bootstrap_ok package w) ∧
  (has_error r.2 = false → r.1 = ref_canonical_name <$> md_entry_target (pkg_metadata package)).
Proof.
  unfold r, plan_entry, build_entry_execution_planner_bootstrap. destruct (md_entry_target _) as [t|]; [|naive_solver].
  cbn [fst snd]. rewrite has_error_append, orb_false_iff. destruct (ref_kind t) eqn:Ek.
  { cbn [br_diagnostics]. rewrite has_error_emit. split; [|by intros [_ ?]]. split; [by intros [_ ?]|]. intros [_ H].
    destruct (H t eq_refl). congruence. }
  destruct (find_workflow_executable package (ref_canonical_name t)) as [w|] eqn:Ew.
  - destruct (bootstrap_spec _ _ Ew) as [Hb He]. rewrite Hb, He. split.
    + split; [intros [? Hok]; split; [done|]; intros ? [= <-]; split; [done|by exists w]|].
      intros [? H]. split; [done|]. destruct (H t eq_refl) as [_ (w' & Hw' & Hok)]. congruence.
    + intros _. apply find_by in Ew as [_ Hn]. cbn. by f_equal.
  - unfold build_execution_planner_bootstrap. rewrite Ew. cbn [br_diagnostics]. rewrite has_error_emit.
    split; [|by intros [_ ?]]. split; [by intros [_ ?]|]. intros [_ H].
    destruct (H t eq_refl) as [_ (w & Hw & _)]. congruence.
Qed.

Lemma planned_names w : node_names (plan_of_workflow package w) = xn_name <$> we_nodes w.
Proof.
  unfold node_names, plan_of_workflow, plan_bootstrap. cbn [wp_nodes bootstrap_of bs_nodes].
  by rewrite <-!list_fmap_compose.
Qed.
Lemma planned_nodes w n : n ∈ we_nodes w → ∃ m, m ∈ wp_nodes (plan_of_workflow package w) ∧ np_name m = xn_name n ∧
  np_target m = xn_target n ∧ np_after m = xn_after n.
Proof.
  intros Hn. exists (mkNodePlan (xn_name n) (xn_target n) (xn_after n) (xn_lifecycle n) (xn_input_summary n)
    (build_node_capability_binding_refs package (xn_target n))).
  split; [|done]. unfold plan_of_workflow, plan_bootstrap. cbn [wp_nodes bootstrap_of bs_nodes].
  rewrite <-list_fmap_compose. apply list_elem_of_fmap. by exists n.
Qed.
Lemma well_formed_bootstrap w : well_formed_workflow (plan_of_workflow package w) →
  (∀ n, n ∈ we_nodes w → xn_target n ∈ ae_canonical_name <$> agents_of package) → bootstrap_ok package w.
Proof.
  intros Hw Ha. pose proof (planned_names w) as Hnames.
  assert (Hafter : ∀ n d, n ∈ wp_nodes (plan_of_workflow package w) → d ∈ np_after n → d ∈ xn_name <$> we_nodes w).
  { intros n d Hn Hd. rewrite <-Hnames. by apply (wfn_known _ _ (wfw_nodes _ Hw n Hn)). }
  assert (Hname : ∀ n, n ∈ wp_nodes (plan_of_workflow package w) → np_name n ∈ xn_name <$> we_nodes w).
  { intros n Hn. rewrite <-Hnames. by apply list_elem_of_fmap_2. }
  split_and!; [done| | |].
  - intros x Hx. destruct (wfw_entry _ Hw x Hx) as (n & Hn & <- & _). by apply Hname.
  - intros e He. destruct (proj1 (wfw_edge _ Hw (edge_from e) (edge_to e))) as (n & Hn & <- & Hd); [by exists e|].
    split; [by eapply Hafter|by apply Hname].
  - intros n d Hn Hd. destruct (planned_nodes w n Hn) as (m & Hm & _ & _ & Hma). apply (Hafter m d Hm). by rewrite Hma.
Qed.
Definition nul_free_package : Prop := ∀ w n, w ∈ workflows_of package → n ∈ we_nodes w → nul_free (xn_name n) = true.
Lemma planned_nul_free w : nul_free_package → w ∈ workflows_of package → nul_free_names (plan_of_workflow package w).
Proof.
  intros Hnul Hw x. rewrite planned_names. intros (n & -> & Hn)%list_elem_of_fmap. by eapply Hnul.
Qed.
(** The plan that the code builds, by the names of the workflows. *)
Definition named_plan (entry : option string) : ExecutionPlan :=
  mkPlan kExecutionPlanFormatVersion (md_identity (pkg_metadata package)) entry
    (plan_of_workflow package ∘ looked_up <$> workflows_of package).
Abbreviation entry_name := (ref_canonical_name <$> md_entry_target (pkg_metadata package)).
Definition entry_ok : Prop := ∀ t, md_entry_target (pkg_metadata package) = Some t →
  ref_kind t = ExecutableKind.Workflow ∧
  ∃ w, find_workflow_executable package (ref_canonical_name t) = Some w ∧ bootstrap_ok package w.
Lemma named_plan_names entry :
  wp_canonical_name <$> plan_workflows (named_plan entry) = we_canonical_name <$> workflows_of package.
Proof.
  cbn [named_plan plan_workflows]. rewrite <-list_fmap_compose. apply list_fmap_ext. intros i w Hi. cbn.
  apply looked_up_spec. by eapply list_elem_of_lookup_2.
Qed.
Lemma named_plan_eq : NoDup (we_canonical_name <$> workflows_of package) → named_plan entry_name = plan_of package.
Proof.
  intros Hnd. unfold named_plan, plan_of. f_equal. apply list_fmap_ext. intros i w Hi. cbn. f_equal.
  apply looked_up_unique; [done|]. by eapply list_elem_of_lookup_2.
Qed.
Lemma plannable_names : plannable package → NoDup (we_canonical_name <$> workflows_of package).
Proof.
  intros [_ _ _ Hwell]. pose proof (wfp_distinct _ Hwell) as H. cbn [plan_of plan_workflows] in H.
  by rewrite <-list_fmap_compose in H.
Qed.
Lemma plannable_iff : readable package ∧ entry_ok ∧ (∀ w, w ∈ workflows_of package → bootstrap_ok package (looked_up w)) ∧
  well_formed_plan (named_plan entry_name) ↔ plannable package.
Proof.
  split.
  - intros (Hr & He & Hb & Hwell). assert (Hnd : NoDup (we_canonical_name <$> workflows_of package)).
    { rewrite <-(named_plan_names entry_name). apply (wfp_distinct _ Hwell). }
    split; [done|intros t Ht; by apply He| |by rewrite <-named_plan_eq].
    intros w n Hin Hn. apply Hb in Hin as Hok. rewrite (looked_up_unique w Hnd Hin) in Hok. by apply Hok.
  - intros Hp. pose proof (plannable_names Hp) as Hnd. destruct Hp as [Hr He Ha Hwell].
    assert (Hok : ∀ w, w ∈ workflows_of package → bootstrap_ok package w).
    { intros w Hin. apply well_formed_bootstrap; [|intros n; by apply (Ha w n)]. apply (wfp_workflows _ Hwell).
      cbn [plan_of plan_workflows]. by apply list_elem_of_fmap_2. }
    rewrite named_plan_eq by done. split; [done|]. split; [|split; [|done]].
    + intros t Ht. split; [by apply He|]. pose proof (rd_entry _ Hr t Ht) as Hex. unfold target_exists in Hex.
      rewrite (He t Ht) in Hex. apply list_elem_of_fmap in Hex as (w & Hn & Hin). exists w. split; [|by apply Hok].
      rewrite Hn. by apply (find_unique we_canonical_name).
    + intros w Hin. rewrite looked_up_unique by done. by apply Hok.
Qed.
Lemma execution_plan_built : nul_free_package → ∃ r, build_execution_plan package ⇓ r ∧
  (has_error (pr_diagnostics r) = false ↔ plannable package) ∧
  pr_plan r = if has_error (pr_diagnostics r) then None else Some (plan_of package).
Proof.
  intros Hnul. unfold build_execution_plan. cbv zeta.
  set (d0 := append empty_bag _). assert (Hd0 : has_error d0 = false ↔ readable package).
  { unfold d0. rewrite has_error_append, has_error_empty. cbn [orb build_package_reader_summary rr_diagnostics].
    apply checks_run, package_checks. }
  destruct (plan_entry_spec d0) as [Hee Hev]. destruct (plan_entry package d0) as [entry d1]. cbn [fst snd] in Hee, Hev.
  destruct (plan_targets_spec (pkg_executable_targets package) (λ w Hw, Hw) ([], d1)) as [Hw Hd2].
  destruct (foldl (plan_target package) _ _) as [ws d2]. cbn [fst snd app] in Hw, Hd2. fold (workflows_of package) in Hw, Hd2.
  subst ws. fold (named_plan entry). fold entry_ok in Hee. rewrite Hd0 in Hee.
  destruct (plan_validated (named_plan entry)) as (dv & Hv & Hwf).
  { intros w (x & -> & Hx)%list_elem_of_fmap. by apply planned_nul_free, looked_up_spec. }
  rewrite Hv. cbn [mbind cxx_bind]. eexists. split; [done|]. cbn [pr_diagnostics pr_plan].
  assert (Hiff : has_error (append d2 dv) = false ↔ plannable package).
  { rewrite has_error_append, orb_false_iff, Hd2, Hwf, <-plannable_iff. split.
    - intros [[H1 Hb] Hwell]. rewrite Hev in Hwell by done. apply Hee in H1 as [??]. done.
    - intros (Hr & He & Hb & Hwell). assert (H1 : has_error d1 = false) by by apply Hee.
      rewrite (Hev H1). done. }
  split; [done|]. destruct (has_error (append d2 dv)) eqn:E; [done|]. f_equal.
  rewrite <-(named_plan_eq (plannable_names (proj1 Hiff eq_refl))). f_equal.
  apply Hev. rewrite has_error_append, orb_false_iff in E. destruct E as [E _]. by apply Hd2 in E as [? _].
Qed.
End Plan.
(** C28: [build_execution_plan] returns, without an error, exactly for the
    packages whose references resolve, whose entry target (if any) is a
    workflow, whose nodes run known agents, and whose workflows are in order;
    then the plan is the one that mirrors the package, and with an error there
    is none. *)
Theorem build_execution_plan_exact package : nul_free_package package → ∃ r, build_execution_plan package ⇓ r ∧
  (has_error (pr_diagnostics r) = false ↔ plannable package) ∧
  ∀ plan, pr_plan r = Some plan ↔ plannable package ∧ plan = plan_of package.
Proof.
  intros Hnul. destruct (execution_plan_built package Hnul) as (r & Hr & Hiff & Hp). exists r. split_and!; [done..|].
  intros plan. rewrite Hp, <-Hiff. destruct (has_error _); naive_solver.
Qed.

(** ** Programs that are ready to deploy *)
Abbreviation node_target n := (symbol_canonical_name (wn_target_ref n) "").
Definition decl_names (w : WorkflowDecl) : list string := wn_name <$> wf_nodes w.
Definition waits_for (w : WorkflowDecl) (u v : string) : Prop := ∃ n, n ∈ wf_nodes w ∧ wn_name n = v ∧ u ∈ wn_after n.
Record workflow_ready (p : AnalyzedProgram) (w : WorkflowDecl) : Prop := {
  wr_named : workflow_name w ≠ "";
  wr_owner : wf_name w = workflow_name w;
  wr_nonempty : wf_nodes w ≠ [];
  wr_names : Forall (λ x, x ≠ "") (decl_names w);
  wr_distinct : NoDup (decl_names w);
  wr_nul_free x : x ∈ decl_names w → nul_free x = true;
  wr_after n : n ∈ wf_nodes w → NoDup (wn_after n);
  wr_known n d : n ∈ wf_nodes w → d ∈ wn_after n → d ∈ decl_names w;
  wr_acyclic : acyclic (list_to_set (decl_names w)) (waits_for w);
  wr_target n : n ∈ wf_nodes w → node_target n ≠ "" ∧
    ∃ agent, first_agent (declarations (program p)) (node_target n) = Some agent ∧
      final_states agent ≠ [] ∧ Forall (λ s, s ≠ "") (final_states agent);
  wr_input i n s : wf_nodes w !! i = Some n → find_workflow_node_input_summary p w i n = Some s →
    reads_ok (decl_names w) (lower_workflow_value_summary s);
  wr_return s : find_workflow_return_summary p w = Some s → reads_ok (decl_names w) (lower_workflow_value_summary s) }.
Record deployable (p : AnalyzedProgram) (md : PackageMetadata) : Prop := {
  dp_some : ∃ w, DWorkflow w ∈ declarations (program p);
  dp_workflow w : DWorkflow w ∈ declarations (program p) → workflow_ready p w;
  dp_distinct : NoDup (executables (program p) ExecutableKind.Workflow);
  dp_contract c : DContract c ∈ declarations (program p) →
    symbol_canonical_name (contract_target_ref c) "" ∈ executables (program p) ExecutableKind.Agent;
  dp_entry t : md_entry_target md = Some t → ref_kind t = ExecutableKind.Workflow;
  dp_capability t c : requires (declarations (program p)) t c → nul_free c = true ∧ key_of md c ≠ "";
  dp_keys t t' c c' : requires (declarations (program p)) t c → requires (declarations (program p)) t' c' →
    key_of md c = key_of md c' → c = c' }.

(** ** The lowering of a workflow *)
Lemma entry_nodes_spec nodes seen : NoDup (lower_entry_nodes seen nodes) ∧
  ∀ x, x ∈ lower_entry_nodes seen nodes ↔ x ∉ seen ∧ ∃ n, n ∈ nodes ∧ wn_name n = x ∧ wn_after n = [].
Proof.
  revert seen. induction nodes as [|n nodes IH]; intros seen; cbn [lower_entry_nodes].
  { split; [apply NoDup_nil_2|]. intros x. split; [by intros ?%elem_of_nil|by intros (_ & ? & ?%elem_of_nil & _)]. }
  destruct (bool_decide (wn_after n = []) && bool_decide (wn_name n ∉ seen)) eqn:E.
  - apply andb_true_iff in E as [H1%bool_decide_eq_true H2%bool_decide_eq_true].
    destruct (IH ({[wn_name n]} ∪ seen)) as [Hnd Hin]. split.
    + apply NoDup_cons. split; [|done]. rewrite Hin. set_solver.
    + intros x. rewrite elem_of_cons, Hin. setoid_rewrite elem_of_cons. destruct (decide (x = wn_name n)) as [->|Hne]; [naive_solver|].
      rewrite not_elem_of_union, not_elem_of_singleton. naive_solver.
  - apply andb_false_iff in E. rewrite !bool_decide_eq_false in E. destruct (IH seen) as [Hnd Hin].
    split; [done|]. intros x. rewrite Hin. setoid_rewrite elem_of_cons. split; [naive_solver|].
    intros [Hx (m & [->|Hm] & <- & Ha)]; [|naive_solver]. destruct E as [E|E]; [done|]. by destruct E.
Qed.
Lemma edges_spec w e : e ∈ graph_dependency_edges (lower_workflow_execution_graph w) ↔
  ∃ n, n ∈ wf_nodes w ∧ edge_to e = wn_name n ∧ edge_from e ∈ wn_after n.
Proof.
  cbn [lower_workflow_execution_graph graph_dependency_edges]. rewrite list_elem_of_bind. split.
  - intros (n & (d & -> & Hd)%list_elem_of_fmap & Hn). by exists n.
  - intros (n & Hn & Ht & Hf). exists n. split; [|done]. apply list_elem_of_fmap. exists (edge_from e).
    split; [|done]. destruct e. cbn in *. by subst.
Qed.
Lemma edges_nodup p w : workflow_ready p w →
  NoDup (edge_pair <$> graph_dependency_edges (lower_workflow_execution_graph w)).
Proof.
  intros Hw. cbn [lower_workflow_execution_graph graph_dependency_edges].
  apply NoDup_fmap_2; [intros [u v] [u' v'] [= -> ->]; done|].
  assert (Hnodes : ∀ n n', n ∈ wf_nodes w → n' ∈ wf_nodes w → wn_name n = wn_name n' → n = n').
  { intros n n' Hn Hn' Heq. pose proof (find_unique wn_name _ _ (wr_distinct _ _ Hw) Hn) as H1.
    pose proof (find_unique wn_name _ _ (wr_distinct _ _ Hw) Hn') as H2. rewrite Heq in H1. congruence. }
  apply NoDup_bind.
  - intros n n' e Hn Hn' (d & -> & _)%list_elem_of_fmap (d' & Heq & _)%list_elem_of_fmap. injection Heq as _ Heq. by apply Hnodes.
  - intros n Hn. apply NoDup_fmap_2; [by intros ? ? [= ->]|]. by apply (wr_after _ _ Hw).
  - eapply NoDup_fmap_1, (wr_distinct _ _ Hw).
Qed.

Definition as_workflow (d : Decl) : option WorkflowDecl := match d with DWorkflow w => Some w | _ => None end.
Definition workflow_decls (p : Program) : list WorkflowDecl := omap as_workflow (declarations p).
Lemma workflow_decls_elem p w : w ∈ workflow_decls p ↔ DWorkflow w ∈ declarations p.
Proof.
  unfold workflow_decls. rewrite list_elem_of_omap. split; [|by exists (DWorkflow w)]. intros (d & Hd & E).
  destruct d; try done. by injection E as ->.
Qed.
Lemma executables_elem p kind x : x ∈ executables p kind ↔ ∃ d, d ∈ declarations p ∧ executable_name kind d = Some x.
Proof. apply list_elem_of_omap. Qed.
Lemma workflow_names p : executables p ExecutableKind.Workflow = workflow_name <$> workflow_decls p.
Proof. unfold executables, workflow_decls. induction (declarations p) as [|[]] ; cbn; congruence. Qed.

Section Deploy.
Context (p : AnalyzedProgram) (md : PackageMetadata).
Abbreviation decls := (declarations (program p)).
Abbreviation pkg := (lower_package p md).
Definition lowered (w : WorkflowDecl) : WorkflowExecutable := lower_workflow_executable p w (index_agents id decls).
Definition planned (w : WorkflowDecl) : WorkflowPlan := plan_of_workflow pkg (lowered w).
Lemma lowered_workflows : workflows_of pkg = lowered <$> workflow_decls (program p).
Proof.
  unfold workflows_of, workflow_decls. destruct (lower_package_parts p md) as (_ & -> & _).
  assert (H : ∀ l : list Decl, omap workflow_of (omap (lowered_target p) l) = lowered <$> omap as_workflow l); [|apply H].
  intros l. induction l as [|[] l IH]; [done|exact IH..| |exact IH|exact IH|].
  - exact IH.
  - cbn [omap list_omap lowered_target workflow_of as_workflow]. by rewrite IH.
Qed.
Lemma lowered_agents : ae_canonical_name <$> agents_of pkg = executables (program p) ExecutableKind.Agent.
Proof.
  unfold agents_of, executables. destruct (lower_package_parts p md) as (_ & -> & _).
  assert (H : ∀ l : list Decl, ae_canonical_name <$> omap agent_of (omap (lowered_target p) l) = omap (executable_name ExecutableKind.Agent) l);
    [|apply H].
  intros l. induction l as [|[] l IH]; [done|exact IH..| |exact IH|exact IH|exact IH].
  cbn [omap list_omap lowered_target agent_of executable_name]. by rewrite fmap_cons, IH.
Qed.
Lemma lowered_target_exists t : target_exists pkg t ↔ ref_canonical_name t ∈ executables (program p) (ref_kind t).
Proof.
  unfold target_exists. destruct (ref_kind t); [by rewrite lowered_agents|].
  by rewrite lowered_workflows, workflow_names, <-list_fmap_compose.
Qed.
Definition node_plan (w : WorkflowDecl) (i : nat) (n : WorkflowNode) : WorkflowNodePlan :=
  mkNodePlan (wn_name n) (node_target n) (wn_after n)
    (lower_workflow_node_lifecycle n (first_agent decls (node_target n)))
    (lower_workflow_value_summary (default (mkExprSummary []) (find_workflow_node_input_summary p w i n)))
    (build_node_capability_binding_refs pkg (node_target n)).
Lemma planned_nodes_eq w : wp_nodes (planned w) = imap (node_plan w) (wf_nodes w).
Proof.
  unfold planned, plan_of_workflow, plan_bootstrap, lowered.
  cbn [wp_nodes bootstrap_of bs_nodes lower_workflow_executable we_nodes]. rewrite !fmap_imap. apply imap_ext.
  intros i n _. unfold node_plan. cbn. f_equal. rewrite index_agents_spec. by destruct (first_agent _ _).
Qed.
Lemma planned_node w m : m ∈ wp_nodes (planned w) ↔ ∃ i n, m = node_plan w i n ∧ wf_nodes w !! i = Some n.
Proof. rewrite planned_nodes_eq. apply elem_of_lookup_imap. Qed.
Lemma planned_node_names w : node_names (planned w) = decl_names w.
Proof. unfold node_names. rewrite planned_nodes_eq, fmap_imap. apply imap_const. Qed.
Lemma planned_depends w u v : depends (planned w) u v ↔ waits_for w u v.
Proof.
  unfold depends, waits_for. setoid_rewrite planned_node. split.
  - intros (m & (i & n & -> & Hn) & <- & Hu). exists n. split; [by eapply list_elem_of_lookup_2|done].
  - intros (n & [i Hi]%list_elem_of_lookup_1 & <- & Hu). exists (node_plan w i n). split; [by exists i, n|done].
Qed.
Lemma node_bindings_ok agent : deployable p md →
  NoDup (binding_ref <$> build_node_capability_binding_refs pkg agent) ∧
  ∀ b, b ∈ build_node_capability_binding_refs pkg agent → binding_capability_name b ≠ "" ∧ binding_key b ≠ "".
Proof.
  intros Hd. destruct (lowered_bindings p md agent) as [Hnd Hin].
  assert (Hne : ∀ t c, requires decls t c → c ≠ "") by (intros t c Hr; by destruct Hr as [? ? ? []|? ? ? ? ? ? ? []]).
  assert (Hb : ∀ b, b ∈ build_node_capability_binding_refs pkg agent → nul_free (binding_capability_name b) = true ∧
    binding_capability_name b ≠ "" ∧ binding_key b ≠ "").
  { intros b [Hr ->]%Hin. destruct (dp_capability _ _ Hd _ _ Hr). split_and!; [done|by eapply Hne|done]. }
  split; [|intros b Hbin; by apply Hb in Hbin as (_ & ?)]. clear Hin. induction (build_node_capability_binding_refs pkg agent) as [|b l IH].
  { apply NoDup_nil_2. }
  rewrite fmap_cons in Hnd |- *. apply NoDup_cons in Hnd as [Hout Hnd]. apply NoDup_cons. split.
  - intros (b' & Heq & Hb')%list_elem_of_fmap. apply Hout. apply edge_key_inj in Heq as [-> _]; [by apply list_elem_of_fmap_2| |];
      apply Hb; [left|by right].
  - apply IH; [done|]. intros b' Hb'. apply Hb. by right.
Qed.
Lemma planned_node_ok w i n : deployable p md → workflow_ready p w → wf_nodes w !! i = Some n →
  well_formed_node (decl_names w) (node_plan w i n).
Proof.
  intros Hd Hw Hi. assert (Hn : n ∈ wf_nodes w) by by eapply list_elem_of_lookup_2.
  destruct (wr_target _ _ Hw n Hn) as (Ht & agent & Ha & Hf & Hs). destruct (node_bindings_ok (node_target n) Hd) as [Hb1 Hb2].
  assert (Hl : np_lifecycle (node_plan w i n) = lower_workflow_node_lifecycle n (Some agent)) by (cbn; by rewrite Ha).
  split; rewrite ?Hl; try done.
  - intros s. rewrite Forall_forall in Hs. apply Hs.
  - by apply (wr_after _ _ Hw).
  - intros d. by apply (wr_known _ _ Hw).
  - cbn. destruct (find_workflow_node_input_summary p w i n) as [s|] eqn:Es; [by apply (wr_input _ _ Hw i n)|].
    cbn. intros r Hr. by apply elem_of_nil in Hr.
Qed.
Lemma planned_ok w : deployable p md → workflow_ready p w → well_formed_workflow (planned w).
Proof.
  intros Hd Hw. pose proof (planned_node_names w) as Hnames. split; rewrite ?Hnames.
  - exact (wr_named _ _ Hw).
  - exact (wr_names _ _ Hw).
  - exact (wr_distinct _ _ Hw).
  - rewrite planned_nodes_eq. intros H. apply (wr_nonempty _ _ Hw). apply length_zero_iff_nil. rewrite <-(length_imap (node_plan w)). by rewrite H.
  - apply entry_nodes_spec.
  - intros x (_ & n & [i Hi]%list_elem_of_lookup_1 & <- & Ha)%entry_nodes_spec. exists (node_plan w i n).
    split; [|done]. apply planned_node. by exists i, n.
  - by apply (edges_nodup p).
  - intros u v. rewrite planned_depends. split.
    + intros (e & (n & Hn & Ht & Hf)%edges_spec & <- & <-). by exists n.
    + intros (n & Hn & <- & Hu). exists (mkEdge u (wn_name n)). split; [|done]. apply edges_spec. by exists n.
  - intros m (i & n & -> & Hi)%planned_node. by apply planned_node_ok.
  - eapply acyclic_iff; [apply planned_depends|]. apply (wr_acyclic _ _ Hw).
  - cbn. destruct (find_workflow_return_summary p w) as [s|] eqn:Es; [exact (wr_return _ _ Hw s Es)|].
    cbn. intros r Hr. by apply elem_of_nil in Hr.
Qed.

(** The metadata is in normal form. *)
Lemma normal_exists md0 t : normalizes (program p) md0 md →
  md_entry_target md = Some t ∨ t ∈ md_export_targets md → target_exists pkg t.
Proof.
  intros [_ Hen Hx _ _] Ht. apply lowered_target_exists.
  assert (H : ∃ t0, normal_ref (program p) t0 t); [|by destruct H as (t0 & -> & [? _])]. destruct Ht as [Ht|Ht].
  - rewrite Ht in Hen. inversion Hen as [t0 ? Hr|]; subst. by exists t0.
  - apply list_elem_of_lookup_1 in Ht as [i Hi]. destruct (Forall2_lookup_r _ _ _ _ _ Hx Hi) as (t0 & _ & Hr). by exists t0.
Qed.
Lemma required_exists t c : requires decls t c → target_exists pkg t.
Proof.
  intros [agent c' Hd _|w n agent c' Hd _ _ _]; apply lowered_target_exists, executables_elem.
  - by exists (DAgent agent).
  - by exists (DWorkflow w).
Qed.
Lemma owner_exists o : deployable p md → o ∈ pkg_policy_obligations pkg → target_exists pkg (po_owner_target o).
Proof.
  intros Hd. destruct (lower_package_parts p md) as (_ & _ & _ & -> & _).
  intros (d & Ho & Hin)%list_elem_of_bind. apply lowered_target_exists.
  destruct d; cbn [lowered_obligations] in Ho; try by apply elem_of_nil in Ho.
  - apply elem_of_lookup_imap in Ho as (i & c & -> & _). by apply (dp_contract _ _ Hd).
  - apply elem_of_app in Ho as [Ho|Ho]; apply elem_of_lookup_imap in Ho as (i & t & -> & _); cbn [po_owner_target ref_kind ref_canonical_name];
      rewrite (wr_owner _ _ (dp_workflow _ _ Hd _ Hin)), workflow_names; apply list_elem_of_fmap_2; by apply workflow_decls_elem.
Qed.
Lemma slot_keys_distinct : deployable p md → NoDup (slot_binding_key <$> pkg_capability_binding_slots pkg).
Proof.
  intros Hd. destruct (lowered_slots p md) as (Hnd & Hs & Hr).
  assert (Hreq : ∀ s, s ∈ pkg_capability_binding_slots pkg → slot_binding_key s = key_of md (slot_capability_name s) ∧
    ∃ t, requires decls t (slot_capability_name s)).
  { intros s Hin. destruct (Hs s Hin) as (Hk & _ & Hne). split; [done|].
    destruct (slot_required_by_targets s) as [|t l] eqn:E; [done|]. exists t. apply Hr. exists s. rewrite E. split_and!; [done..|left]. }
  clear Hs Hr. induction (pkg_capability_binding_slots pkg) as [|s l IH]; [apply NoDup_nil_2|].
  rewrite fmap_cons in Hnd |- *. apply NoDup_cons in Hnd as [Hout Hnd]. apply NoDup_cons. split.
  - intros (s' & Heq & Hs')%list_elem_of_fmap. apply Hout. destruct (Hreq s) as (Hk & t & Ht); [left|].
    destruct (Hreq s') as (Hk' & t' & Ht'); [by right|]. rewrite Hk, Hk' in Heq.
    rewrite (dp_keys _ _ Hd _ _ _ _ Ht Ht' Heq). by apply list_elem_of_fmap_2.
  - apply IH; [done|]. intros s' Hs'. apply Hreq. by right.
Qed.
Lemma lowered_readable md0 : normalizes (program p) md0 md → deployable p md → readable pkg.
Proof.
  intros Hn Hd. assert (Hmd : pkg_metadata pkg = lowered_metadata md) by apply lower_package_parts.
  assert (Hslots := lowered_slots p md). split; rewrite ?Hmd.
  - intros identity. cbn. by intros (identity' & _ & ->)%fmap_Some.
  - intros t Ht. apply (normal_exists md0); [done|by left].
  - intros t Ht. apply (normal_exists md0); [done|by right].
  - by apply slot_keys_distinct.
  - intros s t Hs Ht. apply (required_exists t (slot_capability_name s)). apply Hslots. by exists s.
  - intros o. by apply owner_exists.
Qed.
Lemma lowered_plan : plan_workflows (plan_of pkg) = planned <$> workflow_decls (program p).
Proof. cbn [plan_of plan_workflows]. by rewrite lowered_workflows, <-list_fmap_compose. Qed.
Lemma lowered_entry : entry_workflow_canonical_name (plan_of pkg) = ref_canonical_name <$> md_entry_target md.
Proof. cbn [plan_of entry_workflow_canonical_name]. destruct (lower_package_parts p md) as (-> & _). done. Qed.
Lemma lowered_plannable md0 : normalizes (program p) md0 md → deployable p md → plannable pkg.
Proof.
  intros Hn Hd. assert (Hmd : pkg_metadata pkg = lowered_metadata md) by apply lower_package_parts.
  assert (Hnames : wp_canonical_name <$> (planned <$> workflow_decls (program p)) = executables (program p) ExecutableKind.Workflow).
  { by rewrite workflow_names, <-list_fmap_compose. }
  split.
  - by eapply lowered_readable.
  - rewrite Hmd. apply (dp_entry _ _ Hd).
  - intros w n. rewrite lowered_workflows, lowered_agents. intros (wd & -> & Hin)%list_elem_of_fmap Hnode.
    apply workflow_decls_elem in Hin. apply elem_of_lookup_imap in Hnode as (i & nd & -> & Hi).
    destruct (wr_target _ _ (dp_workflow _ _ Hd _ Hin) nd) as (_ & agent & Ha & _); [by eapply list_elem_of_lookup_2|].
    apply find_by in Ha as [Ha Hname]. cbn [lower_workflow_node xn_target]. rewrite <-Hname. apply executables_elem.
    apply list_elem_of_omap in Ha as (d & Hd' & Ea). destruct d; try done. injection Ea as ->. by exists (DAgent agent).
  - split.
    + done.
    + rewrite lowered_plan. destruct (dp_some _ _ Hd) as [w Hw%workflow_decls_elem]. intros E%fmap_nil_inv.
      rewrite E in Hw. by apply elem_of_nil in Hw.
    + rewrite lowered_plan, Hnames. apply (dp_distinct _ _ Hd).
    + rewrite lowered_entry, lowered_plan, Hnames. intros x (t & Ht & ->)%fmap_Some.
      pose proof (normal_exists md0 t Hn (or_introl Ht)) as Hex. apply lowered_target_exists in Hex.
      by rewrite (dp_entry _ _ Hd t Ht) in Hex.
    + rewrite lowered_plan. intros w (wd & -> & Hin%workflow_decls_elem)%list_elem_of_fmap.
      apply planned_ok; [done|]. by apply (dp_workflow _ _ Hd).
Qed.
End Deploy.

(** ** From programs to plans *)
(** The plan of a workflow runs the declared nodes, on the declared agents,
    with their bindings, after the declared dependencies. *)
Record node_mirrors (p : AnalyzedProgram) (md : PackageMetadata) (n : WorkflowNode) (m : WorkflowNodePlan) : Prop := {
  nm_name : np_name m = wn_name n;
  nm_target : np_target m = node_target n;
  nm_after : np_after m = wn_after n;
  nm_agent : ∃ agent, first_agent (declarations (program p)) (node_target n) = Some agent ∧
    target_initial_state (np_lifecycle m) = initial_state agent ∧ target_final_states (np_lifecycle m) = final_states agent;
  nm_binding b : b ∈ np_capability_bindings m ↔
    requires (declarations (program p)) (mkRef ExecutableKind.Agent (node_target n)) (binding_capability_name b) ∧
    binding_key b = key_of md (binding_capability_name b) }.
Record mirrors (p : AnalyzedProgram) (md : PackageMetadata) (w : WorkflowDecl) (plan : WorkflowPlan) : Prop := {
  mi_name : wp_canonical_name plan = workflow_name w;
  mi_nodes : Forall2 (node_mirrors p md) (wf_nodes w) (wp_nodes plan);
  mi_entry x : x ∈ wp_entry_nodes plan ↔ ∃ n, n ∈ wf_nodes w ∧ wn_name n = x ∧ wn_after n = [];
  mi_edge u v : (∃ e, e ∈ wp_dependency_edges plan ∧ edge_from e = u ∧ edge_to e = v) ↔ waits_for w u v }.
Lemma planned_mirrors p md w : workflow_ready p w → mirrors p md w (planned p md w).
Proof.
  intros Hw. split.
  - done.
  - rewrite planned_nodes_eq. apply Forall2_same_length_lookup_2; [by rewrite length_imap|].
    intros i n m Hi Hm. rewrite list_lookup_imap, Hi in Hm. injection Hm as <-.
    destruct (wr_target _ _ Hw n) as (_ & agent & Ha & _); [by eapply list_elem_of_lookup_2|]. split; try done.
    + exists agent. split; [done|]. cbn. by rewrite Ha.
    + intros b. apply lowered_bindings.
  - intros x. destruct (entry_nodes_spec (wf_nodes w) ∅) as [_ H]. cbn. rewrite H. set_solver.
  - intros u v. split.
    + intros (e & (n & Hn & Ht & Hf)%edges_spec & <- & <-). by exists n.
    + intros (n & Hn & <- & Hu). exists (mkEdge u (wn_name n)). split; [|done]. apply edges_spec. by exists n.
Qed.
Lemma lowered_nul_free p md : deployable p md → nul_free_package (lower_package p md).
Proof.
  intros Hd w n. rewrite lowered_workflows. intros (wd & -> & Hin%workflow_decls_elem)%list_elem_of_fmap Hn.
  apply elem_of_lookup_imap in Hn as (i & nd & -> & Hi). apply (wr_nul_free _ _ (dp_workflow _ _ Hd _ Hin)).
  change (wn_name nd ∈ wn_name <$> wf_nodes wd). apply list_elem_of_fmap_2. by eapply list_elem_of_lookup_2.
Qed.
(** Lowering and planning a deployable program gives a well-formed plan that
    mirrors its workflows. *)
Lemma deployed_program_has_plan p md0 order : order ≡ₚ map_to_list (md_capability_binding_keys md0) →
  let r := validate_package_metadata (program p) md0 order in
  has_error (mr_diagnostics r) = false → deployable p (mr_metadata r) →
  ∃ plan d, build_execution_plan (lower_package p (mr_metadata r)) ⇓ mkPlanResult (Some plan) d ∧ has_error d = false ∧
    well_formed_plan plan ∧ (∀ w, w ∈ plan_workflows plan → nul_free_names w) ∧
    entry_workflow_canonical_name plan = ref_canonical_name <$> md_entry_target (mr_metadata r) ∧
    Forall2 (mirrors p (mr_metadata r)) (workflow_decls (program p)) (plan_workflows plan).
Proof.
  intros Ho r He Hd. assert (Hn : normalizes (program p) md0 (mr_metadata r)) by by apply (metadata_validated _ _ order).
  pose proof (lowered_plannable p _ md0 Hn Hd) as Hp.
  destruct (execution_plan_built _ (lowered_nul_free p _ Hd)) as ([plan d] & Hr & Hiff & Hplan).
  cbn [pr_plan pr_diagnostics] in Hiff, Hplan. rewrite (proj2 Hiff Hp) in Hplan. subst plan.
  exists (plan_of (lower_package p (mr_metadata r))), d. split; [done|]. split; [by apply Hiff|]. split; [apply Hp|].
  split; [|split; [apply lowered_entry|]]; rewrite lowered_plan.
  { intros w (wd & -> & Hin)%list_elem_of_fmap x. rewrite planned_node_names.
    apply (wr_nul_free p). by apply (dp_workflow _ _ Hd), workflow_decls_elem. }
  apply Forall2_fmap_r, Forall_Forall2_diag, Forall_forall.
  intros w Hw%workflow_decls_elem. by apply planned_mirrors, (dp_workflow _ _ Hd).
Qed.

(** ** Example *)
Example sample_deploys :
  let r := validate_package_metadata (program sample_program) sample_metadata sample_order in
  has_error (mr_diagnostics r) = false ∧
  match build_execution_plan (lower_package sample_program (mr_metadata r)) with
  | Ret (mkPlanResult (Some plan) _) => entry_workflow_canonical_name plan = Some "app::Main" ∧
      (np_capability_bindings <$> (plan_workflows plan ≫= wp_nodes)) = [[mkBinding "app::Http" "http"]; []]
  | _ => False
  end.
Proof. by vm_compute. Qed.
Definition sample_normal : PackageMetadata := mr_metadata (validate_package_metadata (program sample_program) sample_metadata sample_order).
Lemma sample_requires t c : requires (declarations (program sample_program)) t c → c = "app::Http".
Proof.
  assert (Hc : ∀ agent c, agent = sample_agent "app::Fetch" ["app::Http"] ∨ agent = sample_agent "app::Score" [] →
    declared_capability agent c → c = "app::Http").
  { intros agent c0 [->| ->] [Hc (ref & Hr & <-)]; [|by apply elem_of_nil in Hr].
    apply list_elem_of_singleton in Hr as ->. done. }
  intros [agent c' Hd Hcap|w n agent c' Hd Hn Ha Hcap]; apply (Hc agent); try done.
  - repeat (apply elem_of_cons in Hd as [Hd|Hd]; [by simplify_eq; auto|]). by apply elem_of_nil in Hd.
  - apply find_by in Ha as [Ha _]. vm_compute in Ha. repeat (apply elem_of_cons in Ha as [Ha|Ha]; [by auto|]).
    by apply elem_of_nil in Ha.
Qed.
Lemma sample_ready : workflow_ready sample_program sample_workflow.
Proof.
  assert (Hn : ∀ n, n ∈ wf_nodes sample_workflow → n = sample_wf_node "fetch" "app::Fetch" [] ∨ n = sample_wf_node "score" "app::Score" ["fetch"]).
  { intros n Hn. cbn [sample_workflow wf_nodes] in Hn. set_unfold. naive_solver. }
  split; try done.
  - by repeat constructor.
  - by apply (bool_decide_unpack _).
  - intros x Hx. cbn in Hx. set_unfold. naive_solver.
  - intros m [->| ->]%Hn; by apply (bool_decide_unpack _).
  - intros m d [->| ->]%Hn; cbn; set_unfold; naive_solver.
  - exists ["fetch"; "score"]. split.
    + by apply (bool_decide_unpack _).
    + intros x. cbn. set_solver.
    + intros [|[|[]]] u v; cbn; try done; intros [= <-] (m & [->| ->]%Hn & Hv & Hu); cbn in *; set_solver.
  - intros m [->| ->]%Hn; (split; [done|]); eexists; (split; [by vm_compute|]); by split; [|repeat constructor].
  - intros [|[|i]] m s Hi Hs; try done; injection Hi as <-; vm_compute in Hs; injection Hs as <-; cbn;
      intros r ->%list_elem_of_singleton; cbn; set_solver.
  - intros s Hs. vm_compute in Hs. injection Hs as <-. cbn. intros r ->%list_elem_of_singleton. cbn. set_solver.
Qed.
Lemma sample_deployable : deployable sample_program sample_normal.
Proof.
  assert (Hw : ∀ w, DWorkflow w ∈ declarations (program sample_program) → w = sample_workflow).
  { intros w Hw. repeat (apply elem_of_cons in Hw as [Hw|Hw]; [by simplify_eq|]). by apply elem_of_nil in Hw. }
  split.
  - exists sample_workflow. cbn. set_solver.
  - intros w ->%Hw. apply sample_ready.
  - by apply (bool_decide_unpack _).
  - intros c Hc. repeat (apply elem_of_cons in Hc as [Hc|Hc]; [by simplify_eq|]). by apply elem_of_nil in Hc.
  - intros t Ht. vm_compute in Ht. by injection Ht as <-.
  - intros t c ->%sample_requires. by vm_compute.
  - by intros t t' c c' ->%sample_requires ->%sample_requires.
Qed.
Lemma build_execution_plan_exact_witness :
  plannable (lower_package sample_program sample_normal) ∧
  build_execution_plan (lower_package sample_program sample_normal) ≠ UB.
Proof.
  destruct (build_execution_plan_exact (lower_package sample_program sample_normal)
    (lowered_nul_free _ _ sample_deployable)) as (r & Hr & Hiff & _).
  assert (Ht : match build_execution_plan (lower_package sample_program sample_normal) with
    | Ret r => has_error (pr_diagnostics r) = false | _ => False end) by by vm_compute.
  rewrite Hr in Ht. split; [by apply Hiff|by rewrite Hr].
Defined.
