(* ===== verification/Pipeline.v ===== *)
(** * From programs to runs

    The compiler's output and the execution pipeline composed: a program that
    deploys has a plan, and a run of the plan has a session, a journal and a
    replay that follow the program. *)
From S2P Require Import Prelude Diagnostics Ir Analysis Checks Plan PlanProps DryRun DryRunProps Session SessionProps SessionRun Journal Replay Package PackageProps PackagePlan.
Open Scope nat_scope.
Open Scope ahfl_scope.

(** The workflow of a plan that mirrors a declaration is found by its name. *)
Lemma mirrored_workflow p md plan w wp : NoDup (executables (program p) ExecutableKind.Workflow) →
  Forall2 (mirrors p md) (workflow_decls (program p)) (plan_workflows plan) → DWorkflow w ∈ declarations (program p) →
  find_workflow_plan plan (workflow_name w) = Some wp → mirrors p md w wp.
Proof.
  intros Hnd Hm Hw (Hin & Hname)%find_workflow_plan_spec. apply list_elem_of_lookup_1 in Hin as [i Hi].
  destruct (Forall2_lookup_r _ _ _ _ _ Hm Hi) as (w' & Hi' & Hmir). pose proof (mi_name _ _ _ _ Hmir) as Hn.
  apply workflow_decls_elem, list_elem_of_lookup_1 in Hw as [j Hj]. rewrite workflow_names in Hnd.
  assert (i = j) as ->; [|congruence].
  apply (NoDup_lookup _ _ _ (workflow_name w) Hnd); rewrite list_lookup_fmap; [rewrite Hi'; cbn; congruence|by rewrite Hj].
Qed.
Lemma mirrored_node p md w wp m : mirrors p md w wp → m ∈ wp_nodes wp → ∃ n, n ∈ wf_nodes w ∧ node_mirrors p md n m.
Proof.
  intros Hm [i Hi]%list_elem_of_lookup_1. destruct (Forall2_lookup_r _ _ _ _ _ (mi_nodes _ _ _ _ Hm) Hi) as (n & Hn & ?).
  exists n. split; [by eapply list_elem_of_lookup_2|done].
Qed.
(** C27: a deployed program runs: when the validation of its metadata reports
    no error and its workflows are in order, the package it is lowered to has a
    well-formed plan that mirrors its workflows; and every request for one of
    its workflows that the plan is ready for gives a session, whose journal
    exists and whose replay is a valid view without an error that shows the
    nodes in the order of the session, each on its declared agent and after
    exactly its declared dependencies. *)
Theorem deployed_program_runs p md0 order : order ≡ₚ map_to_list (md_capability_binding_keys md0) →
  let r := validate_package_metadata (program p) md0 order in
  has_error (mr_diagnostics r) = false → deployable p (mr_metadata r) →
  ∃ plan d, build_execution_plan (lower_package p (mr_metadata r)) ⇓ mkPlanResult (Some plan) d ∧ has_error d = false ∧
    well_formed_plan plan ∧
    entry_workflow_canonical_name plan = ref_canonical_name <$> md_entry_target (mr_metadata r) ∧
    Forall2 (mirrors p (mr_metadata r)) (workflow_decls (program p)) (plan_workflows plan) ∧
    ∀ w request ms options wp, DWorkflow w ∈ declarations (program p) →
      req_workflow_canonical_name request = workflow_name w → session_ready plan request ms options wp →
      ∃ s ds j v dv, build_runtime_session plan request ms options ⇓ mkSessionResult (Some s) ds ∧
        jr_journal (build_execution_journal s) = Some j ∧
        build_replay_view plan s j ⇓ mkReplayResult (Some v) dv ∧ has_error dv = false ∧ valid_replay v ∧
        rp_node_name <$> rv_nodes v = rs_execution_order s ∧
        ∀ shown, shown ∈ rv_nodes v → ∃ n, n ∈ wf_nodes w ∧ rp_node_name shown = wn_name n ∧
          rp_target shown = node_target n ∧ rp_planned_dependencies shown = wn_after n ∧
          rp_satisfied_dependencies shown = wn_after n.
Proof.
  intros Ho r He Hd. destruct (deployed_program_has_plan p md0 order Ho He Hd) as (plan & d & Hp & Hpe & Hwf & Hnul & Hent & Hm).
  exists plan, d. split; [exact Hp|]. do 4 (split; [done|]). intros w request ms options wp Hw Hreq Hready.
  destruct (build_session_spec plan request ms options Hnul) as ([[s|] ds] & Hs & Hspec); cbn [sr_session] in Hspec.
  2:{ destruct Hspec as [_ Hno]. by destruct (Hno wp). }
  destruct (session_replays_spec plan request ms options s ds Hnul Hs) as (j & Hj & v & dv & Hv & Hve & Hvv & Horder & wp' & Hfind & Hnodes).
  exists s, ds, j, v, dv. do 6 (split; [done|]). intros shown Hshown.
  destruct (Hnodes shown Hshown) as (m & Hmin & Hname & Htarget & Hplanned & Hsat).
  rewrite Hreq in Hfind. pose proof (mirrored_workflow _ _ _ _ _ (dp_distinct _ _ Hd) Hm Hw Hfind) as Hmw.
  destruct (mirrored_node _ _ _ _ _ Hmw Hmin) as (n & Hn & [Hnn Hnt Hna _ _]). exists n. split; [done|].
  rewrite <-Hnn, <-Hnt, <-Hna. done.
Qed.

(** ** Example *)
Abbreviation program_plan := (plan_of (lower_package sample_program sample_normal)).
Lemma sample_session_ready : well_formed_plan program_plan →
  ∃ wp, session_ready program_plan sample_request sample_mocks sample_options wp.
Proof.
  intros Hwf. destruct (find_workflow_plan program_plan "app::Main") as [wp|] eqn:E.
  2:{ vm_compute in E. discriminate E. }
  exists wp. assert (Hwp : Some wp = find_workflow_plan program_plan "app::Main") by done. vm_compute in Hwp. injection Hwp as ->.
  split; [exact Hwf|exact E| |done|done|].
  - split; [done|intros m ->%list_elem_of_singleton; by vm_compute..|apply NoDup_singleton].
  - intros n Hn. cbn [wp_nodes] in Hn. apply elem_of_cons in Hn as [->|[->|Hn%elem_of_nil]%elem_of_cons]; [..|done].
    + split; apply (bool_decide_unpack _); by vm_compute.
    + split; apply (bool_decide_unpack _); by vm_compute.
Qed.
Lemma deployed_program_runs_witness :
  ∃ s ds, build_runtime_session program_plan sample_request sample_mocks sample_options ⇓ mkSessionResult (Some s) ds ∧
    ∃ j v dv, jr_journal (build_execution_journal s) = Some j ∧
      build_replay_view program_plan s j ⇓ mkReplayResult (Some v) dv ∧ has_error dv = false ∧ valid_replay v.
Proof.
  assert (He : has_error (mr_diagnostics (validate_package_metadata (program sample_program) sample_metadata sample_order)) = false)
    by by vm_compute.
  destruct (deployed_program_runs sample_program sample_metadata sample_order sample_order_ok He sample_deployable)
    as (plan & d & Hp & _ & Hwf & _ & _ & Hrun).
  destruct (execution_plan_built _ (lowered_nul_free _ _ sample_deployable)) as (res & Hres & _ & Hplan).
  fold sample_normal in Hp. rewrite Hres in Hp. injection Hp as ->. cbn [pr_plan pr_diagnostics] in Hplan.
  destruct (has_error d); [discriminate Hplan|]. injection Hplan as ->.
  destruct (sample_session_ready Hwf) as [wp Hready].
  destruct (Hrun PackageProps.sample_workflow sample_request sample_mocks sample_options wp) as (s & ds & j & v & dv & Hs & Hj & Hv & Hve & Hvv & _).
  - do 3 apply list_elem_of_further. apply list_elem_of_here.
  - done.
  - exact Hready.
  - exists s, ds. split; [exact Hs|]. exists j, v, dv. split; [exact Hj|]. split; [exact Hv|]. split; [exact Hve|exact Hvv].
Defined.
