(* ===== verification/Snapshot.v ===== *)
(** * Scheduler snapshots (src/pipeline/observation/scheduler_snapshot/snapshot.{hpp,cpp})

    [build_scheduler_snapshot] shows where a run stands: the completed prefix of
    the plan's nodes, the nodes that are ready and the ones that are blocked.
    The validation reads the execution order at the positions of the completed
    prefix; reading past its end is undefined behaviour.  Also the checks of
    package identities of src/pipeline/validation/common.hpp. *)
From S2P Require Import Prelude Diagnostics Checks Numeric Plan DryRun Session Journal Replay.
Open Scope nat_scope.
Open Scope ahfl_scope.

Definition kSchedulerSnapshotFormatVersion : string := "ahfl.scheduler-snapshot.v1".
Module SnapshotStatus.
Inductive t := Runnable | Waiting | TerminalCompleted | TerminalFailed | TerminalPartial.
End SnapshotStatus.
#[export] Instance SnapshotStatus_eq_dec : EqDecision SnapshotStatus.t.
Proof. solve_decision. Defined.
Module BlockedReasonKind.
Inductive t := WaitingOnDependencies | WorkflowTerminalFailure | UpstreamPartial.
End BlockedReasonKind.
#[export] Instance BlockedReasonKind_eq_dec : EqDecision BlockedReasonKind.t.
Proof. solve_decision. Defined.
Record SchedulerReadyNode := mkReadyNode {
  rn_node_name : string;
  rn_target : string;
  rn_execution_index : nat;
  rn_planned_dependencies : list string;
  rn_satisfied_dependencies : list string;
  rn_input_summary : WorkflowValueSummary;
  rn_capability_bindings : list CapabilityBindingReference }.
Record SchedulerBlockedNode := mkBlockedNode {
  bk_node_name : string;
  bk_target : string;
  bk_execution_index : option nat;
  bk_planned_dependencies : list string;
  bk_missing_dependencies : list string;
  bk_blocked_reason : BlockedReasonKind.t;
  bk_may_become_ready : bool;
  bk_blocking_failure_summary : option RuntimeFailureSummary }.
Record SchedulerCursor := mkCursor {
  cu_completed_prefix_size : nat;
  cu_completed_prefix : list string;
  cu_next_candidate_node_name : option string;
  cu_checkpoint_friendly : bool }.
Record SchedulerSnapshot := mkSnapshot {
  ss_format_version : string;
  ss_source_execution_plan_format_version : string;
  ss_source_runtime_session_format_version : string;
  ss_source_execution_journal_format_version : string;
  ss_source_replay_view_format_version : string;
  ss_source_package_identity : option PackageIdentity;
  ss_workflow_canonical_name : string;
  ss_session_id : string;
  ss_run_id : option string;
  ss_input_fixture : string;
  ss_workflow_status : WorkflowSessionStatus.t;
  ss_snapshot_status : SnapshotStatus.t;
  ss_workflow_failure_summary : option RuntimeFailureSummary;
  ss_execution_order : list string;
  ss_ready_nodes : list SchedulerReadyNode;
  ss_blocked_nodes : list SchedulerBlockedNode;
  ss_cursor : SchedulerCursor }.
Record SchedulerSnapshotResult := mkSnapshotResult {
  snr_snapshot : option SchedulerSnapshot; snr_diagnostics : DiagnosticBag }.

(** ** Shared checks (src/pipeline/validation/common.hpp) *)
Definition scoped_label (scope field : string) : string := if bool_decide (scope = "") then field else scope +:+ " " +:+ field.
Definition require_version (scope field actual expected : string) : checker :=
  error_code_if (negb (bool_decide (actual = expected))) (scoped_label scope field +:+ " must be '" +:+ expected +:+ "'")
    "validation.VERSION_MISMATCH".
Definition require_non_empty (scope field value : string) : checker :=
  error_code_if (bool_decide (value = "")) (scoped_label scope field +:+ " must not be empty") "validation.REQUIRED_FIELD_EMPTY".
Definition validate_package_identity (identity : PackageIdentity) (scope : string) : checker :=
  require_version scope "source_package_identity format_version" (id_format_version identity) kFormatVersion &>
  require_non_empty scope "source_package_identity name" (id_name identity) &>
  require_non_empty scope "source_package_identity version" (id_version identity).
Fixpoint is_prefix (prefix full : list string) : bool :=
  match prefix, full with
  | [], _ => true
  | _, [] => false
  | x :: prefix, y :: full => bool_decide (x = y) && is_prefix prefix full
  end.

(** ** Validation *)
Definition snapshot_error (bad : bool) (msg : string) : checker :=
  error_code_if bad ("scheduler snapshot " +:+ msg) "validation.SCHEDULER_SNAPSHOT".
Definition node_label (owner_kind name : string) : string := owner_kind +:+ " '" +:+ name +:+ "'".
Section Lists.
Context (owner : string) (execution_nodes : gset string).
Definition validate_listed_dependency (field_name : string) (seen : gset string) (d : string) : checker :=
  if bool_decide (d = "") then snapshot_error true (owner +:+ " contains empty " +:+ field_name)
  else
    snapshot_error (bool_decide (d ∈ seen)) (owner +:+ " contains duplicate " +:+ field_name +:+ " '" +:+ d +:+ "'") &>
    snapshot_error (negb (bool_decide (d ∈ execution_nodes)))
      (owner +:+ " references unknown dependency '" +:+ d +:+ "' in " +:+ field_name).
Definition validate_dependency_list (field_name : string) (dependencies : list string) : checker :=
  each_from insert_name (validate_listed_dependency field_name) ∅ dependencies.
Definition validate_dependency_subset (field_name : string) (subset superset : list string) : checker :=
  each (λ d, snapshot_error (negb (bool_decide (d ∈ superset)))
    (owner +:+ " contains " +:+ field_name +:+ " '" +:+ d +:+ "' not declared in planned_dependencies")) subset.
Definition validate_snapshot_binding (seen : gset string) (b : CapabilityBindingReference) : checker :=
  snapshot_error (bool_decide (binding_capability_name b = ""))
    (owner +:+ " contains capability binding with empty capability_name") &>
  snapshot_error (bool_decide (binding_key b = "")) (owner +:+ " contains capability binding with empty binding_key") &>
  snapshot_error (bool_decide (session_binding_ref b ∈ seen))
    (owner +:+ " contains duplicate capability binding '" +:+ session_binding_ref b +:+ "'").
Definition validate_capability_bindings (bindings : list CapabilityBindingReference) : checker :=
  each_from (λ seen b, {[session_binding_ref b]} ∪ seen) validate_snapshot_binding ∅ bindings.
End Lists.

(** The comparison of the completed prefix with the execution order: it stops
    at the first difference. *)
Fixpoint validate_prefix (prefix order : list string) : cxx checker :=
  match prefix, order with
  | [], _ => Ret no_check
  | _, [] => UB
  | x :: prefix, y :: order =>
      if bool_decide (x = y) then validate_prefix prefix order
      else Ret (snapshot_error true "cursor completed_prefix must be a prefix of execution_order")
  end.
Section Snapshot.
Context (s : SchedulerSnapshot).
Let order := ss_execution_order s.
Let completed := cu_completed_prefix (ss_cursor s).
Let execution_nodes : gset string := foldl insert_name ∅ order.
Definition validate_next_candidate : checker :=
  match cu_next_candidate_node_name (ss_cursor s) with
  | None => no_check
  | Some name =>
      snapshot_error (bool_decide (name = "")) "cursor next_candidate_node_name must not be empty" &>
      if negb (bool_decide (name ∈ execution_nodes)) then
        snapshot_error true ("cursor next_candidate_node_name '" +:+ name +:+ "' does not exist in execution_order")
      else snapshot_error (bool_decide (name ∈ completed))
        ("cursor next_candidate_node_name '" +:+ name +:+ "' cannot already be in completed_prefix")
  end.
(** The checks of a ready or blocked node on its name, target, index and
    progress. *)
Definition validate_snapshot_node (kind name target : string) (index : option nat) : checker :=
  let owner := node_label kind name in
  snapshot_error (bool_decide (target = "")) (owner +:+ " must not have empty target") &>
  (if negb (bool_decide (name ∈ execution_nodes)) then snapshot_error true (owner +:+ " does not exist in execution_order")
   else match index with
   | None => no_check
   | Some i =>
       match order !! i with
       | None => snapshot_error true (owner +:+ " has execution_index outside execution_order")
       | Some x => snapshot_error (negb (bool_decide (x = name)))
           (owner +:+ " has execution_index that does not match execution_order")
       end
   end) &>
  snapshot_error (bool_decide (name ∈ completed)) (owner +:+ " cannot already be in completed_prefix").
Definition validate_unique (field name : string) (seen : gset string) : checker :=
  snapshot_error (bool_decide (name ∈ seen)) ("contains duplicate node '" +:+ name +:+ "' in " +:+ field).
Definition validate_ready_node (seen : gset string) (n : SchedulerReadyNode) : checker :=
  let owner := node_label "ready node" (rn_node_name n) in
  validate_unique "ready_nodes" (rn_node_name n) seen &>
  if bool_decide (rn_node_name n = "") then snapshot_error true "ready node must not have empty node_name"
  else
    validate_snapshot_node "ready node" (rn_node_name n) (rn_target n) (Some (rn_execution_index n)) &>
    validate_dependency_list owner execution_nodes "planned_dependencies" (rn_planned_dependencies n) &>
    validate_dependency_list owner execution_nodes "satisfied_dependencies" (rn_satisfied_dependencies n) &>
    validate_dependency_subset owner "satisfied dependency" (rn_satisfied_dependencies n) (rn_planned_dependencies n) &>
    validate_capability_bindings owner (rn_capability_bindings n).
Definition validate_blocked_reason (n : SchedulerBlockedNode) : checker :=
  let owner := node_label "blocked node" (bk_node_name n) in
  match bk_blocked_reason n with
  | BlockedReasonKind.WaitingOnDependencies =>
      snapshot_error (bool_decide (bk_missing_dependencies n = []))
        (owner +:+ " waiting_on_dependencies requires missing_dependencies") &>
      snapshot_error (has_value (bk_blocking_failure_summary n))
        (owner +:+ " waiting_on_dependencies must not carry blocking_failure_summary")
  | BlockedReasonKind.WorkflowTerminalFailure =>
      snapshot_error (bk_may_become_ready n)
        (owner +:+ " cannot be marked may_become_ready under workflow terminal failure") &>
      snapshot_error (negb (has_value (bk_blocking_failure_summary n)))
        (owner +:+ " workflow terminal failure requires blocking_failure_summary")
  | BlockedReasonKind.UpstreamPartial =>
      snapshot_error (bk_may_become_ready n) (owner +:+ " cannot be marked may_become_ready under upstream partial")
  end.
Definition validate_blocked_node (seen : gset string) (n : SchedulerBlockedNode) : checker :=
  let owner := node_label "blocked node" (bk_node_name n) in
  validate_unique "blocked_nodes" (bk_node_name n) seen &>
  if bool_decide (bk_node_name n = "") then snapshot_error true "blocked node must not have empty node_name"
  else
    validate_snapshot_node "blocked node" (bk_node_name n) (bk_target n) (bk_execution_index n) &>
    validate_dependency_list owner execution_nodes "planned_dependencies" (bk_planned_dependencies n) &>
    validate_dependency_list owner execution_nodes "missing_dependencies" (bk_missing_dependencies n) &>
    validate_dependency_subset owner "missing dependency" (bk_missing_dependencies n) (bk_planned_dependencies n) &>
    match bk_blocking_failure_summary n with
    | Some summary => validate_failure_summary_owner summary owner "scheduler snapshot"
    | None => no_check
    end &>
    validate_blocked_reason n.
Definition validate_workflow_state : checker :=
  match ss_workflow_status s with
  | WorkflowSessionStatus.Completed =>
      snapshot_error (negb (bool_decide (ss_snapshot_status s = SnapshotStatus.TerminalCompleted)))
        "completed workflow must use terminal_completed status" &>
      snapshot_error (has_value (ss_workflow_failure_summary s)) "completed workflow must not carry workflow_failure_summary"
  | WorkflowSessionStatus.Failed =>
      snapshot_error (negb (bool_decide (ss_snapshot_status s = SnapshotStatus.TerminalFailed)))
        "failed workflow must use terminal_failed status" &>
      snapshot_error (negb (has_value (ss_workflow_failure_summary s))) "failed workflow must carry workflow_failure_summary"
  | WorkflowSessionStatus.Partial =>
      snapshot_error (bool_decide (ss_snapshot_status s = SnapshotStatus.TerminalCompleted) ||
                      bool_decide (ss_snapshot_status s = SnapshotStatus.TerminalFailed))
        "partial workflow cannot use completed/failed terminal status" &>
      snapshot_error (has_value (ss_workflow_failure_summary s)) "partial workflow must not carry workflow_failure_summary"
  end.
Definition validate_candidate_in (names : list string) (msg : string) : checker :=
  match cu_next_candidate_node_name (ss_cursor s) with
  | Some name => snapshot_error (negb (bool_decide (name ∈ names))) msg
  | None => no_check
  end.
(** The cases of the terminal statuses fall through to the last one. *)
Definition validate_terminal : checker :=
  snapshot_error (negb (bool_decide (ss_ready_nodes s = []))) "terminal status must not contain ready nodes" &>
  snapshot_error (has_value (cu_next_candidate_node_name (ss_cursor s))) "terminal status must not contain next candidate".
Definition validate_snapshot_status : checker :=
  let partial := bool_decide (ss_workflow_status s = WorkflowSessionStatus.Partial) in
  match ss_snapshot_status s with
  | SnapshotStatus.Runnable =>
      snapshot_error (negb partial) "runnable status requires partial workflow_status" &>
      snapshot_error (bool_decide (ss_ready_nodes s = [])) "runnable status requires at least one ready node" &>
      validate_candidate_in (rn_node_name <$> ss_ready_nodes s) "runnable status next candidate must reference a ready node"
  | SnapshotStatus.Waiting =>
      snapshot_error (negb partial) "waiting status requires partial workflow_status" &>
      snapshot_error (negb (bool_decide (ss_ready_nodes s = []))) "waiting status must not contain ready nodes" &>
      snapshot_error (bool_decide (ss_blocked_nodes s = [])) "waiting status requires at least one blocked node" &>
      validate_candidate_in (bk_node_name <$> ss_blocked_nodes s) "waiting status next candidate must reference a blocked node"
  | SnapshotStatus.TerminalCompleted =>
      snapshot_error (negb (bool_decide (cu_completed_prefix_size (ss_cursor s) = length order)))
        "terminal completed status requires fully completed prefix" &>
      snapshot_error (negb (bool_decide (ss_blocked_nodes s = []))) "terminal completed status must not contain blocked nodes" &>
      validate_terminal
  | SnapshotStatus.TerminalFailed =>
      snapshot_error (negb (bool_decide (ss_workflow_status s = WorkflowSessionStatus.Failed)))
        "terminal failed status requires failed workflow_status" &>
      validate_terminal
  | SnapshotStatus.TerminalPartial =>
      snapshot_error (negb partial) "terminal partial status requires partial workflow_status" &>
      validate_terminal
  end.
Definition validate_snapshot_header : checker :=
  snapshot_error (negb (bool_decide (ss_format_version s = kSchedulerSnapshotFormatVersion)))
    ("format_version must be '" +:+ kSchedulerSnapshotFormatVersion +:+ "'") &>
  snapshot_error (negb (bool_decide (ss_source_execution_plan_format_version s = kExecutionPlanFormatVersion)))
    ("source_execution_plan_format_version must be '" +:+ kExecutionPlanFormatVersion +:+ "'") &>
  snapshot_error (negb (bool_decide (ss_source_runtime_session_format_version s = kRuntimeSessionFormatVersion)))
    ("source_runtime_session_format_version must be '" +:+ kRuntimeSessionFormatVersion +:+ "'") &>
  snapshot_error (negb (bool_decide (ss_source_execution_journal_format_version s = kExecutionJournalFormatVersion)))
    ("source_execution_journal_format_version must be '" +:+ kExecutionJournalFormatVersion +:+ "'") &>
  snapshot_error (negb (bool_decide (ss_source_replay_view_format_version s = kReplayViewFormatVersion)))
    ("source_replay_view_format_version must be '" +:+ kReplayViewFormatVersion +:+ "'") &>
  snapshot_error (bool_decide (ss_workflow_canonical_name s = "")) "workflow_canonical_name must not be empty" &>
  snapshot_error (bool_decide (ss_session_id s = "")) "session_id must not be empty" &>
  snapshot_error (bool_decide (ss_input_fixture s = "")) "input_fixture must not be empty" &>
  match ss_source_package_identity s with
  | Some identity => validate_package_identity identity "scheduler snapshot"
  | None => no_check
  end &>
  match ss_workflow_failure_summary s with
  | Some summary => validate_failure_summary_owner summary "workflow" "scheduler snapshot"
  | None => no_check
  end.
Definition validate_scheduler_snapshot : cxx DiagnosticBag :=
  prefix_check ← validate_prefix completed order;
  Ret ((validate_snapshot_header &>
    each_from insert_name (λ seen name,
      if bool_decide (name = "") then snapshot_error true "execution_order contains empty node name"
      else snapshot_error (bool_decide (name ∈ seen)) ("execution_order contains duplicate node '" +:+ name +:+ "'")) ∅ order &>
    snapshot_error (negb (bool_decide (cu_completed_prefix_size (ss_cursor s) = length completed)))
      "cursor completed_prefix_size must match completed_prefix length" &>
    snapshot_error (bool_decide (length order < length completed))
      "cursor completed_prefix cannot be longer than execution_order" &>
    prefix_check &>
    validate_next_candidate &>
    each_from (λ seen n, {[rn_node_name n]} ∪ seen) validate_ready_node ∅ (ss_ready_nodes s) &>
    each_from (λ seen n, {[bk_node_name n]} ∪ seen) validate_blocked_node
      (foldl (λ seen n, {[rn_node_name n]} ∪ seen) ∅ (ss_ready_nodes s)) (ss_blocked_nodes s) &>
    validate_workflow_state &>
    validate_snapshot_status) empty_bag).
End Snapshot.

(** ** Building a snapshot *)
Definition bootstrap_check (bad : bool) (msg : string) : checker :=
  error_code_if bad ("scheduler snapshot bootstrap " +:+ msg) "backend.SCHEDULER_SNAPSHOT_BOOTSTRAP".
Definition snapshot_headers (plan : ExecutionPlan) (s : RuntimeSession) (j : ExecutionJournal) (r : ReplayView) : checker :=
  let plan_version := plan_format_version plan in
  let identity := source_package_identity plan in
  bootstrap_check (negb (bool_decide (rs_source_execution_plan_format_version s = plan_version)))
    "runtime session source_execution_plan_format_version does not match execution plan" &>
  bootstrap_check (negb (bool_decide (ej_source_execution_plan_format_version j = plan_version)))
    "execution journal source_execution_plan_format_version does not match execution plan" &>
  bootstrap_check (negb (bool_decide (ej_source_runtime_session_format_version j = rs_format_version s)))
    "execution journal source_runtime_session_format_version does not match runtime session" &>
  bootstrap_check (negb (bool_decide (rv_source_execution_plan_format_version r = plan_version)))
    "replay view source_execution_plan_format_version does not match execution plan" &>
  bootstrap_check (negb (bool_decide (rv_source_runtime_session_format_version r = rs_format_version s)))
    "replay view source_runtime_session_format_version does not match runtime session" &>
  bootstrap_check (negb (bool_decide (rv_source_execution_journal_format_version r = ej_format_version j)))
    "replay view source_execution_journal_format_version does not match execution journal" &>
  bootstrap_check (negb (package_identity_equals identity (rs_source_package_identity s)))
    "runtime session source_package_identity does not match execution plan" &>
  bootstrap_check (negb (package_identity_equals identity (ej_source_package_identity j)))
    "execution journal source_package_identity does not match execution plan" &>
  bootstrap_check (negb (package_identity_equals identity (rv_source_package_identity r)))
    "replay view source_package_identity does not match execution plan" &>
  bootstrap_check (negb (bool_decide (rs_workflow_canonical_name s = ej_workflow_canonical_name j)))
    "execution journal workflow_canonical_name does not match runtime session" &>
  bootstrap_check (negb (bool_decide (rs_workflow_canonical_name s = rv_workflow_canonical_name r)))
    "replay view workflow_canonical_name does not match runtime session" &>
  bootstrap_check (negb (bool_decide (rs_session_id s = ej_session_id j)))
    "execution journal session_id does not match runtime session" &>
  bootstrap_check (negb (bool_decide (rs_session_id s = rv_session_id r)))
    "replay view session_id does not match runtime session" &>
  bootstrap_check (negb (bool_decide (rs_run_id s = ej_run_id j)))
    "execution journal run_id does not match runtime session" &>
  bootstrap_check (negb (bool_decide (rs_run_id s = rv_run_id r)))
    "replay view run_id does not match runtime session" &>
  bootstrap_check (negb (bool_decide (rs_input_fixture s = rv_input_fixture r)))
    "replay view input_fixture does not match runtime session" &>
  bootstrap_check (negb (bool_decide (rs_workflow_status s = rv_workflow_status r)))
    "replay view workflow_status does not match runtime session" &>
  bootstrap_check (negb (failure_summary_equals (rs_failure_summary s) (rv_workflow_failure_summary r)))
    "replay view workflow_failure_summary does not match runtime session" &>
  bootstrap_check (negb (plan_matches_session (rv_consistency r)) || negb (session_matches_journal (rv_consistency r)) ||
                   negb (journal_matches_execution_order (rv_consistency r)))
    "replay view consistency must hold before building snapshot".
Definition missing_session_node (name : string) : string := "execution plan node '" +:+ name +:+ "' does not exist in runtime session".
(** The nodes that are completed, up to the first that is not; [inl] names a
    node that the session does not have. *)
Fixpoint completed_prefix_of (session_nodes : gmap string RuntimeSessionNode) (order : list string) : string + list string :=
  match order with
  | [] => inr []
  | name :: order =>
      match session_nodes !! name with
      | None => inl name
      | Some sn =>
          if bool_decide (sn_status sn = NodeSessionStatus.Completed) then
            match completed_prefix_of session_nodes order with
            | inl name => inl name
            | inr prefix => inr (name :: prefix)
            end
          else inr []
      end
  end.
Section Classify.
Context (s : RuntimeSession) (completed : list string).
Definition ready_node (n : WorkflowNodePlan) (sn : RuntimeSessionNode) (index : nat) : SchedulerReadyNode :=
  mkReadyNode (sn_node_name sn) (sn_target sn) index (np_after n) (sn_satisfied_dependencies sn) (sn_input_summary sn)
    (np_capability_bindings n).
Definition blocked_node (n : WorkflowNodePlan) (sn : RuntimeSessionNode) (index : nat) : SchedulerBlockedNode :=
  let missing :=
    if bool_decide (rs_workflow_status s = WorkflowSessionStatus.Partial)
    then base.filter (λ d, d ∉ sn_satisfied_dependencies sn ∧ d ∉ completed) (np_after n) else [] in
  let blocked missing reason ready failure :=
    mkBlockedNode (sn_node_name sn) (sn_target sn) (Some index) (np_after n) missing reason ready failure in
  if bool_decide (rs_workflow_status s = WorkflowSessionStatus.Failed)
  then blocked [] BlockedReasonKind.WorkflowTerminalFailure false (rs_failure_summary s)
  else if bool_decide (missing = []) then blocked missing BlockedReasonKind.UpstreamPartial false None
  else blocked missing BlockedReasonKind.WaitingOnDependencies true None.
(** One node of the plan, with the position of its name in the plan. *)
Definition classify_node (n : WorkflowNodePlan) (sn : RuntimeSessionNode) (index : nat)
    (st : list SchedulerReadyNode * list SchedulerBlockedNode) : list SchedulerReadyNode * list SchedulerBlockedNode :=
  match sn_status sn with
  | NodeSessionStatus.Ready => (st.1 ++ [ready_node n sn index], st.2)
  | NodeSessionStatus.Blocked | NodeSessionStatus.Skipped => (st.1, st.2 ++ [blocked_node n sn index])
  | NodeSessionStatus.Completed | NodeSessionStatus.Failed => st
  end.
(** [plan_node_indices.at] is the first position of the name. *)
Fixpoint classify_nodes (session_nodes : gmap string RuntimeSessionNode) (order : list string) (nodes : list WorkflowNodePlan)
    (st : list SchedulerReadyNode * list SchedulerBlockedNode)
    : string + list SchedulerReadyNode * list SchedulerBlockedNode :=
  match nodes with
  | [] => inr st
  | n :: nodes =>
      match session_nodes !! np_name n with
      | None => inl (np_name n)
      | Some sn =>
          classify_nodes session_nodes order nodes
            (classify_node n sn (default 0 (fst <$> list_find (λ x, x = np_name n) order)) st)
      end
  end.
End Classify.
Definition snapshot_of (plan : ExecutionPlan) (s : RuntimeSession) (j : ExecutionJournal) (r : ReplayView)
    (order completed : list string) (ready : list SchedulerReadyNode) (blocked : list SchedulerBlockedNode) : SchedulerSnapshot :=
  let status := match rs_workflow_status s with
    | WorkflowSessionStatus.Completed => SnapshotStatus.TerminalCompleted
    | WorkflowSessionStatus.Failed => SnapshotStatus.TerminalFailed
    | WorkflowSessionStatus.Partial => if bool_decide (ready = []) then SnapshotStatus.Waiting else SnapshotStatus.Runnable
    end in
  let next := match status with
    | SnapshotStatus.Runnable => rn_node_name <$> head ready
    | SnapshotStatus.Waiting => bk_node_name <$> head blocked
    | _ => None
    end in
  mkSnapshot kSchedulerSnapshotFormatVersion (plan_format_version plan) (rs_format_version s) (ej_format_version j)
    (rv_format_version r) (source_package_identity plan) (rs_workflow_canonical_name s) (rs_session_id s) (rs_run_id s)
    (rs_input_fixture s) (rs_workflow_status s) status (rs_failure_summary s) order ready blocked
    (mkCursor (length completed) completed next true).
Definition build_scheduler_snapshot (plan : ExecutionPlan) (s : RuntimeSession) (j : ExecutionJournal) (r : ReplayView)
    : cxx SchedulerSnapshotResult :=
  plan_diagnostics ← validate_execution_plan plan;
  let d := append (append (append (append empty_bag plan_diagnostics) (validate_runtime_session s))
             (validate_execution_journal j)) (validate_replay_view r) in
  if has_error d then Ret (mkSnapshotResult None d) else
  let d := snapshot_headers plan s j r d in
  match find_workflow_plan plan (rs_workflow_canonical_name s) with
  | None => Ret (mkSnapshotResult None (bootstrap_check true
      ("workflow '" +:+ rs_workflow_canonical_name s +:+ "' does not exist in execution plan") d))
  | Some w =>
      if has_error d then Ret (mkSnapshotResult None d) else
      let order := np_name <$> wp_nodes w in
      if negb (is_prefix (rv_execution_order r) order) then
        Ret (mkSnapshotResult None (bootstrap_check true
          "replay view execution_order must be a prefix of execution plan workflow order" d))
      else
        let session_nodes := index_session_nodes (rs_nodes s) in
        match completed_prefix_of session_nodes order with
        | inl name => Ret (mkSnapshotResult None (bootstrap_check true (missing_session_node name) d))
        | inr completed =>
            match classify_nodes s completed session_nodes order (wp_nodes w) ([], []) with
            | inl name => Ret (mkSnapshotResult None (bootstrap_check true (missing_session_node name) d))
            | inr (ready, blocked) =>
                let snapshot := snapshot_of plan s j r order completed ready blocked in
                snapshot_diagnostics ← validate_scheduler_snapshot snapshot;
                let d := append d snapshot_diagnostics in
                if has_error d then Ret (mkSnapshotResult None d) else Ret (mkSnapshotResult (Some snapshot) d)
            end
        end
  end.
