(* ===== verification/SnapshotProps.v ===== *)
(** * What snapshots show

    The validation accepts exactly the snapshots that describe a state of a run,
    and is undefined for a completed prefix that extends the execution order.  A
    run that replays has a snapshot exactly when it executed the nodes in the
    order in which the plan lists them. *)
From S2P Require Import Prelude Diagnostics Checks Numeric Plan PlanProps DryRun Schedule DryRunProps Session SessionProps SessionRun Journal JournalBuild Replay Snapshot.
Open Scope nat_scope.
Open Scope ahfl_scope.

(** ** Valid snapshots *)
Definition identity_ok (identity : PackageIdentity) : Prop :=
  id_format_version identity = kFormatVersion ∧ id_name identity ≠ "" ∧ id_version identity ≠ "".
(** Dependencies: different nodes of the run. *)
Definition listed (order l : list string) : Prop := names_ok l ∧ ∀ d, d ∈ l → d ∈ order.
(** A node that is not completed, at its place. *)
Record waiting_node (order completed : list string) (name target : string) (index : option nat) (planned : list string) : Prop := {
  wn_named : name ≠ "";
  wn_targeted : target ≠ "";
  wn_ordered : name ∈ order;
  wn_indexed i : index = Some i → order !! i = Some name;
  wn_open : name ∉ completed;
  wn_planned : listed order planned }.
Record valid_ready (order completed : list string) (n : SchedulerReadyNode) : Prop := {
  vd_node : waiting_node order completed (rn_node_name n) (rn_target n) (Some (rn_execution_index n)) (rn_planned_dependencies n);
  vd_satisfied : listed order (rn_satisfied_dependencies n) ∧
    ∀ d, d ∈ rn_satisfied_dependencies n → d ∈ rn_planned_dependencies n;
  vd_bindings : NoDup (session_binding_ref <$> rn_capability_bindings n);
  vd_binding b : b ∈ rn_capability_bindings n → binding_capability_name b ≠ "" ∧ binding_key b ≠ "" }.
Definition valid_reason (n : SchedulerBlockedNode) : Prop :=
  match bk_blocked_reason n with
  | BlockedReasonKind.WaitingOnDependencies => bk_missing_dependencies n ≠ [] ∧ bk_blocking_failure_summary n = None
  | BlockedReasonKind.WorkflowTerminalFailure => bk_may_become_ready n = false ∧ is_Some (bk_blocking_failure_summary n)
  | BlockedReasonKind.UpstreamPartial => bk_may_become_ready n = false
  end.
Record valid_blocked (order completed : list string) (n : SchedulerBlockedNode) : Prop := {
  vb_node : waiting_node order completed (bk_node_name n) (bk_target n) (bk_execution_index n) (bk_planned_dependencies n);
  vb_missing : listed order (bk_missing_dependencies n) ∧
    ∀ d, d ∈ bk_missing_dependencies n → d ∈ bk_planned_dependencies n;
  vb_failure f : bk_blocking_failure_summary n = Some f → failure_ok f;
  vb_reason : valid_reason n }.
(** How the statuses of the workflow and of the snapshot go together. *)
Definition valid_state (s : SchedulerSnapshot) : Prop :=
  let next := cu_next_candidate_node_name (ss_cursor s) in
  match ss_workflow_status s with
  | WorkflowSessionStatus.Completed => ss_snapshot_status s = SnapshotStatus.TerminalCompleted ∧
      ss_workflow_failure_summary s = None ∧ cu_completed_prefix_size (ss_cursor s) = length (ss_execution_order s) ∧
      ss_blocked_nodes s = [] ∧ ss_ready_nodes s = [] ∧ next = None
  | WorkflowSessionStatus.Failed => ss_snapshot_status s = SnapshotStatus.TerminalFailed ∧
      is_Some (ss_workflow_failure_summary s) ∧ ss_ready_nodes s = [] ∧ next = None
  | WorkflowSessionStatus.Partial => ss_workflow_failure_summary s = None ∧
      match ss_snapshot_status s with
      | SnapshotStatus.Runnable => ss_ready_nodes s ≠ [] ∧ ∀ x, next = Some x → x ∈ rn_node_name <$> ss_ready_nodes s
      | SnapshotStatus.Waiting => ss_ready_nodes s = [] ∧ ss_blocked_nodes s ≠ [] ∧
          ∀ x, next = Some x → x ∈ bk_node_name <$> ss_blocked_nodes s
      | SnapshotStatus.TerminalPartial => ss_ready_nodes s = [] ∧ next = None
      | _ => False
      end
  end.
Record valid_snapshot (s : SchedulerSnapshot) : Prop := {
  vt_versions : ss_format_version s = kSchedulerSnapshotFormatVersion ∧
    ss_source_execution_plan_format_version s = kExecutionPlanFormatVersion ∧
    ss_source_runtime_session_format_version s = kRuntimeSessionFormatVersion ∧
    ss_source_execution_journal_format_version s = kExecutionJournalFormatVersion ∧
    ss_source_replay_view_format_version s = kReplayViewFormatVersion;
  vt_named : ss_workflow_canonical_name s ≠ "" ∧ ss_session_id s ≠ "" ∧ ss_input_fixture s ≠ "";
  vt_identity i : ss_source_package_identity s = Some i → identity_ok i;
  vt_failure f : ss_workflow_failure_summary s = Some f → failure_ok f;
  vt_order : names_ok (ss_execution_order s);
  vt_size : cu_completed_prefix_size (ss_cursor s) = length (cu_completed_prefix (ss_cursor s));
  vt_prefix : cu_completed_prefix (ss_cursor s) `prefix_of` ss_execution_order s;
  vt_next x : cu_next_candidate_node_name (ss_cursor s) = Some x →
    x ≠ "" ∧ x ∈ ss_execution_order s ∧ x ∉ cu_completed_prefix (ss_cursor s);
  vt_distinct : NoDup ((rn_node_name <$> ss_ready_nodes s) ++ (bk_node_name <$> ss_blocked_nodes s));
  vt_ready n : n ∈ ss_ready_nodes s → valid_ready (ss_execution_order s) (cu_completed_prefix (ss_cursor s)) n;
  vt_blocked n : n ∈ ss_blocked_nodes s → valid_blocked (ss_execution_order s) (cu_completed_prefix (ss_cursor s)) n;
  vt_state : valid_state s }.

(** ** What the parts check *)
Lemma snapshot_error_checks bad msg : checks (snapshot_error bad msg) (bad = false).
Proof. apply checks_error_code_if. Qed.
Lemma snapshot_error_unless P `{Decision P} msg : checks (snapshot_error (negb (bool_decide P)) msg) P.
Proof. eapply checks_iff; [apply snapshot_error_checks|]. by rewrite negb_false_iff, bool_decide_eq_true. Qed.
Lemma snapshot_error_when P `{Decision P} msg : checks (snapshot_error (bool_decide P) msg) (¬ P).
Proof. eapply checks_iff; [apply snapshot_error_checks|]. by rewrite bool_decide_eq_false. Qed.
Lemma identity_checks i scope : checks (validate_package_identity i scope) (identity_ok i).
Proof.
  unfold validate_package_identity, require_version, require_non_empty, identity_ok. eapply checks_iff.
  - repeat (apply checks_andthen; [apply checks_error_code_if|]). apply checks_error_code_if.
  - rewrite negb_false_iff, bool_decide_eq_true, !bool_decide_eq_false. done.
Qed.
(** Names that must differ and satisfy [P]. *)
Lemma checks_insert_name (f : gset string → string → checker) (P : string → Prop) l :
  (∀ s x, checks (f s x) (x ≠ "" ∧ x ∉ s ∧ P x)) →
  checks (each_from insert_name f ∅ l) (names_ok l ∧ ∀ x, x ∈ l → P x).
Proof.
  intros Hf. eapply checks_iff; [by apply (checks_each_from _ _ (λ seen x, x ≠ "" ∧ x ∉ seen ∧ P x))|].
  assert (Hn : NoDup l ↔ NoDup (id <$> l)) by by rewrite list_fmap_id. unfold names_ok. rewrite Hn, <-(collected_NoDup id). split.
  - intros H. assert (Hne : Forall (λ x, x ≠ "") l) by (apply Forall_lookup_2; intros i x Hx; by apply (H i)).
    split_and!; [done| |intros x [i Hi]%list_elem_of_lookup_1; by apply (H i)].
    intros i x Hx. destruct (H i x Hx) as (_ & Hs & _). rewrite insert_name_foldl in Hs; [done|by apply Forall_take].
  - intros [[Hne Hnd] HP] i x Hx. split; [exact (Forall_lookup_1 _ _ _ _ Hne Hx)|].
    rewrite insert_name_foldl by by apply Forall_take. split; [by apply Hnd|]. apply HP. by eapply list_elem_of_lookup_2.
Qed.
Lemma inserted_names (s : gset string) l x : x ∈ foldl insert_name s l ↔ x ∈ s ∨ x ≠ "" ∧ x ∈ l.
Proof.
  revert s. induction l as [|y l IH]; intros s; cbn [foldl]; [rewrite elem_of_nil; tauto|].
  rewrite IH, elem_of_cons. unfold insert_name. case_bool_decide; set_solver.
Qed.
Lemma execution_names order x : x ∈ foldl insert_name (∅ : gset string) order ↔ x ≠ "" ∧ x ∈ order.
Proof. rewrite inserted_names. set_solver. Qed.
Section Parts.
Context (owner : string) (order : list string) (N : gset string).
Hypothesis (HN : ∀ x, x ∈ N ↔ x ≠ "" ∧ x ∈ order).
Lemma dependency_list_checks field l : checks (validate_dependency_list owner N field l) (listed order l).
Proof.
  apply (checks_insert_name _ (λ d, d ∈ order)). intros seen d. unfold validate_listed_dependency. case_bool_decide.
  - eapply checks_iff; [apply snapshot_error_checks|]. naive_solver.
  - eapply checks_iff; [apply checks_andthen; [apply snapshot_error_when|apply snapshot_error_unless]|]. rewrite HN. naive_solver.
Qed.
Lemma dependency_subset_checks field l l' : checks (validate_dependency_subset owner field l l') (∀ d, d ∈ l → d ∈ l').
Proof. apply checks_each. intros. apply snapshot_error_unless. Qed.
Lemma capability_bindings_checks l : checks (validate_capability_bindings owner l)
  (NoDup (session_binding_ref <$> l) ∧ ∀ b, b ∈ l → binding_capability_name b ≠ "" ∧ binding_key b ≠ "").
Proof.
  apply (checks_each_seen session_binding_ref). intros seen b. unfold validate_snapshot_binding.
  eapply checks_iff; [repeat (apply checks_andthen; [apply snapshot_error_when|]); apply snapshot_error_when|]. tauto.
Qed.
End Parts.

Lemma prefix_checks prefix order : validate_prefix prefix order = UB ∧ order `prefix_of` prefix ∧ length order < length prefix ∨
  ∃ f, validate_prefix prefix order ⇓ f ∧ (length prefix ≤ length order → checks f (prefix `prefix_of` order)) ∧
    (length order < length prefix → ¬ order `prefix_of` prefix) ∧ grows f.
Proof.
  revert order. induction prefix as [|x prefix IH]; intros [|y order]; cbn [validate_prefix length].
  - right. eexists. split; [done|]. split_and!; [|lia|by intros b].
    intros _. eapply checks_iff; [apply checks_nothing|]. split; [|done]. intros _. by exists [].
  - right. eexists. split; [done|]. split_and!; [|lia|by intros b].
    intros _. eapply checks_iff; [apply checks_nothing|]. split; [|done]. intros _. by eexists.
  - left. split_and!; [done|by eexists|lia].
  - case_bool_decide as Heq.
    + subst y. destruct (IH order) as [(HU & Hp & Hl)|(f & Hf & Hc & Hn & Hg)].
      * left. split_and!; [done|by apply prefix_cons|lia].
      * right. exists f. split_and!; [done| | |done].
        -- intros Hl. eapply checks_iff; [apply Hc; lia|]. split; [by apply prefix_cons|by intros ?%prefix_cons_inv_2].
        -- intros Hl Hp%prefix_cons_inv_2. apply Hn; [lia|done].
    + right. eexists. split; [done|]. split_and!.
      * intros _. eapply checks_iff; [apply snapshot_error_checks|]. split; [done|]. by intros ?%prefix_cons_inv_1.
      * intros _ Hp%prefix_cons_inv_1. congruence.
      * eapply checks_grows, snapshot_error_checks.
Qed.
Section Checks.
Context (s : SchedulerSnapshot).
Abbreviation order := (ss_execution_order s).
Abbreviation completed := (cu_completed_prefix (ss_cursor s)).
Abbreviation N := (foldl insert_name ∅ order : gset string).
Lemma next_checks : checks (validate_next_candidate s) (∀ x, cu_next_candidate_node_name (ss_cursor s) = Some x →
  x ≠ "" ∧ x ∈ order ∧ x ∉ completed).
Proof.
  unfold validate_next_candidate. cbv zeta. destruct (cu_next_candidate_node_name _) as [name|].
  2:{ eapply checks_iff; [apply checks_nothing|]. by split. }
  destruct (bool_decide (name ∈ N)) eqn:HN; rewrite ?bool_decide_eq_true, ?bool_decide_eq_false, execution_names in HN; cbn [negb].
  - eapply checks_iff; [apply checks_andthen; apply snapshot_error_when|].
    split; [intros [? ?] ? [= <-]; first [done|tauto]|]. intros H. destruct (H name eq_refl) as (? & ? & ?). tauto.
  - eapply checks_iff; [apply checks_andthen; [apply snapshot_error_when|apply snapshot_error_checks]|].
    split; [intros [? ?] ? [= <-]; first [done|tauto]|]. intros H. destruct (H name eq_refl) as (? & ? & ?). tauto.
Qed.
Lemma snapshot_node_checks kind name target index : name ≠ "" → checks (validate_snapshot_node s kind name target index)
  (target ≠ "" ∧ name ∈ order ∧ (∀ i, index = Some i → order !! i = Some name) ∧ name ∉ completed).
Proof.
  intros Hname. unfold validate_snapshot_node. cbv zeta. eapply checks_iff.
  - apply checks_andthen; [apply snapshot_error_when|].
    apply (checks_andthen _ _ (name ∈ order ∧ ∀ i, index = Some i → order !! i = Some name)); [|apply snapshot_error_when].
    destruct (bool_decide (name ∈ N)) eqn:HN; rewrite ?bool_decide_eq_true, ?bool_decide_eq_false, execution_names in HN; cbn [negb].
    + destruct index as [i|]; [|eapply checks_iff; [apply checks_nothing|]; naive_solver].
      destruct (order !! i) as [x|] eqn:Ei.
      * eapply checks_iff; [apply snapshot_error_unless|]. split; [intros ->; split; [tauto|]; naive_solver|].
        intros [_ H]. specialize (H i eq_refl). congruence.
      * eapply checks_iff; [apply snapshot_error_checks|]. split; [done|]. intros [_ H]. specialize (H i eq_refl). congruence.
    + eapply checks_iff; [apply snapshot_error_checks|]. naive_solver.
  - tauto.
Qed.
Lemma ready_checks seen n : checks (validate_ready_node s seen n) (rn_node_name n ∉ seen ∧ valid_ready order completed n).
Proof.
  unfold validate_ready_node. cbv zeta. apply checks_andthen; [apply snapshot_error_when|]. case_bool_decide as Hn.
  { eapply checks_iff; [apply snapshot_error_checks|]. split; [done|]. intros H. by destruct (wn_named _ _ _ _ _ _ (vd_node _ _ _ H)). }
  eapply checks_iff.
  - apply checks_andthen; [by apply snapshot_node_checks|].
    apply checks_andthen; [apply dependency_list_checks, execution_names|].
    apply checks_andthen; [apply dependency_list_checks, execution_names|].
    apply checks_andthen; [apply dependency_subset_checks|apply capability_bindings_checks].
  - split; [|intros [[] [] ? ?]; tauto]. intros ((?&?&?&?)&?&?&?&?&?). by split; [split|split|..].
Qed.
Lemma reason_checks n : checks (validate_blocked_reason n) (valid_reason n).
Proof.
  unfold validate_blocked_reason, valid_reason. cbv zeta. destruct (bk_blocked_reason n).
  - eapply checks_iff; [apply checks_andthen; [apply snapshot_error_when|apply snapshot_error_checks]|]. by rewrite has_value_false.
  - eapply checks_iff; [apply checks_andthen; apply snapshot_error_checks|]. by rewrite negb_false_iff, has_value_true.
  - apply snapshot_error_checks.
Qed.
Lemma optional_failure_checks o owner scope :
  checks (match o with Some f => validate_failure_summary_owner f owner scope | None => no_check end)
    (∀ f, o = Some f → failure_ok f).
Proof.
  destruct o as [f|]; [eapply checks_iff; [apply failure_checks|]|eapply checks_iff; [apply checks_nothing|]]; naive_solver.
Qed.
Lemma blocked_checks seen n : checks (validate_blocked_node s seen n) (bk_node_name n ∉ seen ∧ valid_blocked order completed n).
Proof.
  unfold validate_blocked_node. cbv zeta. apply checks_andthen; [apply snapshot_error_when|]. case_bool_decide as Hn.
  { eapply checks_iff; [apply snapshot_error_checks|]. split; [done|]. intros H. by destruct (wn_named _ _ _ _ _ _ (vb_node _ _ _ H)). }
  eapply checks_iff.
  - apply checks_andthen; [by apply snapshot_node_checks|].
    apply checks_andthen; [apply dependency_list_checks, execution_names|].
    apply checks_andthen; [apply dependency_list_checks, execution_names|].
    apply checks_andthen; [apply dependency_subset_checks|].
    apply checks_andthen; [apply optional_failure_checks|apply reason_checks].
  - split; [|intros [[] [] ? ?]; tauto]. intros ((?&?&?&?)&?&?&?&?&?). by split; [split|split|..].
Qed.
End Checks.

(** Elements whose keys differ, and are not among the ones seen before. *)
Lemma checks_each_seen_from {A B} `{Countable B} (key : A → B) (f : gset B → A → checker) (P : A → Prop) s l :
  (∀ s x, checks (f s x) (key x ∉ s ∧ P x)) →
  checks (each_from (λ s x, {[key x]} ∪ s) f s l)
    (NoDup (key <$> l) ∧ (∀ x, x ∈ l → key x ∉ s) ∧ ∀ x, x ∈ l → P x).
Proof.
  intros Hf. revert s. induction l as [|x l IH]; intros s; cbn [each_from].
  - eapply checks_iff; [apply checks_nothing|]. split; [|done]. intros _. split_and!; [apply NoDup_nil_2|by intros ? ?%elem_of_nil..].
  - eapply checks_iff; [apply checks_andthen; [apply Hf|apply IH]|]. rewrite fmap_cons, NoDup_cons.
    setoid_rewrite elem_of_cons. split.
    + intros ([Hx HP] & Hnd & Hs & HPl). assert (Hout : key x ∉ key <$> l).
      { intros (y & Heq & Hy)%list_elem_of_fmap. apply (Hs y Hy). set_solver. }
      split_and!; [done|done|intros y [->|Hy]; [done|]; specialize (Hs y Hy); set_solver|naive_solver].
    + intros ([Hout Hnd] & Hs & HP). split; [by split; [apply Hs; left|apply HP; left]|].
      split_and!; [done| |intros y Hy; apply HP; by right].
      intros y Hy. assert (key y ≠ key x) by (intros Heq; apply Hout; rewrite <-Heq; by apply list_elem_of_fmap_2).
      pose proof (Hs y (or_intror Hy)). set_solver.
Qed.
Section Whole.
Context (s : SchedulerSnapshot).
Lemma candidate_checks names msg : checks (validate_candidate_in s names msg)
  (∀ x, cu_next_candidate_node_name (ss_cursor s) = Some x → x ∈ names).
Proof.
  unfold validate_candidate_in. destruct (cu_next_candidate_node_name _) as [x|].
  - eapply checks_iff; [apply snapshot_error_unless|]. split; [by intros ? ? [= <-]|auto].
  - eapply checks_iff; [apply checks_nothing|]. by split.
Qed.
Lemma terminal_checks : checks (validate_terminal s) (ss_ready_nodes s = [] ∧ cu_next_candidate_node_name (ss_cursor s) = None).
Proof.
  eapply checks_iff; [apply checks_andthen; [apply checks_error_code_if|apply snapshot_error_checks]|].
  rewrite has_value_false, negb_false_iff, bool_decide_eq_true. done.
Qed.
Lemma nil_decide {A} (l : list A) : bool_decide (l = []) = false ↔ l ≠ [].
Proof. apply bool_decide_eq_false. Qed.
Lemma state_checks : checks (validate_workflow_state s &> validate_snapshot_status s) (valid_state s).
Proof.
  assert (Hs : checks (validate_snapshot_status s)
    match ss_snapshot_status s with
    | SnapshotStatus.Runnable => ss_workflow_status s = WorkflowSessionStatus.Partial ∧ ss_ready_nodes s ≠ [] ∧
        ∀ x, cu_next_candidate_node_name (ss_cursor s) = Some x → x ∈ rn_node_name <$> ss_ready_nodes s
    | SnapshotStatus.Waiting => ss_workflow_status s = WorkflowSessionStatus.Partial ∧ ss_ready_nodes s = [] ∧
        ss_blocked_nodes s ≠ [] ∧ ∀ x, cu_next_candidate_node_name (ss_cursor s) = Some x → x ∈ bk_node_name <$> ss_blocked_nodes s
    | SnapshotStatus.TerminalCompleted => cu_completed_prefix_size (ss_cursor s) = length (ss_execution_order s) ∧
        ss_blocked_nodes s = [] ∧ ss_ready_nodes s = [] ∧ cu_next_candidate_node_name (ss_cursor s) = None
    | SnapshotStatus.TerminalFailed => ss_workflow_status s = WorkflowSessionStatus.Failed ∧
        ss_ready_nodes s = [] ∧ cu_next_candidate_node_name (ss_cursor s) = None
    | SnapshotStatus.TerminalPartial => ss_workflow_status s = WorkflowSessionStatus.Partial ∧
        ss_ready_nodes s = [] ∧ cu_next_candidate_node_name (ss_cursor s) = None
    end).
  { unfold validate_snapshot_status. cbv zeta. destruct (ss_snapshot_status s).
    - apply checks_andthen; [apply snapshot_error_unless|]. apply checks_andthen; [apply snapshot_error_when|apply candidate_checks].
    - apply checks_andthen; [apply snapshot_error_unless|]. apply checks_andthen; [apply snapshot_error_unless|].
      apply checks_andthen; [apply snapshot_error_when|apply candidate_checks].
    - apply checks_andthen; [apply snapshot_error_unless|]. apply checks_andthen; [apply snapshot_error_unless|apply terminal_checks].
    - apply checks_andthen; [apply snapshot_error_unless|apply terminal_checks].
    - apply checks_andthen; [apply snapshot_error_unless|apply terminal_checks]. }
  unfold validate_workflow_state, valid_state. destruct (ss_workflow_status s) eqn:Ew; (eapply checks_iff;
    [apply checks_andthen; [apply checks_andthen; apply snapshot_error_checks|exact Hs]|]);
    rewrite ?negb_false_iff, ?bool_decide_eq_true, ?has_value_false, ?has_value_true.
  - destruct (ss_snapshot_status s); intuition congruence.
  - destruct (ss_snapshot_status s); intuition congruence.
  - rewrite orb_false_iff, !bool_decide_eq_false. destruct (ss_snapshot_status s); intuition congruence.
Qed.
Lemma header_checks : checks (validate_snapshot_header s)
  ((ss_format_version s = kSchedulerSnapshotFormatVersion ∧ ss_source_execution_plan_format_version s = kExecutionPlanFormatVersion ∧
    ss_source_runtime_session_format_version s = kRuntimeSessionFormatVersion ∧
    ss_source_execution_journal_format_version s = kExecutionJournalFormatVersion ∧
    ss_source_replay_view_format_version s = kReplayViewFormatVersion) ∧
   (ss_workflow_canonical_name s ≠ "" ∧ ss_session_id s ≠ "" ∧ ss_input_fixture s ≠ "") ∧
   (∀ i, ss_source_package_identity s = Some i → identity_ok i) ∧ ∀ f, ss_workflow_failure_summary s = Some f → failure_ok f).
Proof.
  unfold validate_snapshot_header. eapply checks_iff.
  - do 5 (apply checks_andthen; [apply snapshot_error_unless|]). do 3 (apply checks_andthen; [apply snapshot_error_when|]).
    apply checks_andthen; [|apply optional_failure_checks].
    apply (checks_iff _ (∀ i, ss_source_package_identity s = Some i → identity_ok i)); [|reflexivity].
    destruct (ss_source_package_identity s); [eapply checks_iff; [apply identity_checks|]|eapply checks_iff; [apply checks_nothing|]]; naive_solver.
  - tauto.
Qed.
(** The length of the prefix and the prefix, together. *)
Lemma checks_andthen_two f g h P Q : checks (f &> g) P → checks h Q → checks (f &> g &> h) (P ∧ Q).
Proof. exact (checks_andthen (f &> g) h P Q). Qed.
Lemma completed_checks f (pre order : list string) msg : (length pre ≤ length order → checks f (pre `prefix_of` order)) → grows f →
  checks (snapshot_error (bool_decide (length order < length pre)) msg &> f) (pre `prefix_of` order).
Proof.
  intros Hc Hg. destruct (decide (length order < length pre)) as [Hl|Hl].
  - intros b. assert (He : has_error ((snapshot_error (bool_decide (length order < length pre)) msg &> f) b) = true).
    { unfold andthen. apply Hg. rewrite bool_decide_eq_true_2 by done. apply has_error_emit_code. }
    rewrite He. split; [done|]. intros [_ Hp%prefix_length]. lia.
  - eapply checks_iff; [apply checks_andthen; [apply snapshot_error_when|apply Hc; lia]|]. tauto.
Qed.
Lemma snapshot_validated :
  (validate_scheduler_snapshot s = UB ∧ ss_execution_order s `prefix_of` cu_completed_prefix (ss_cursor s) ∧
     length (ss_execution_order s) < length (cu_completed_prefix (ss_cursor s))) ∨
  ∃ d, validate_scheduler_snapshot s ⇓ d ∧ (has_error d = false ↔ valid_snapshot s) ∧
    (length (ss_execution_order s) < length (cu_completed_prefix (ss_cursor s)) →
     ¬ ss_execution_order s `prefix_of` cu_completed_prefix (ss_cursor s)).
Proof.
  unfold validate_scheduler_snapshot. cbv zeta.
  destruct (prefix_checks (cu_completed_prefix (ss_cursor s)) (ss_execution_order s)) as [(HU & Hp & Hl)|(f & Hf & Hc & Hn & Hg)].
  { left. rewrite HU. done. }
  right. rewrite Hf. cbn [mbind cxx_bind]. eexists. split; [done|]. split; [|done]. erewrite checks_run.
  2:{ apply checks_andthen; [apply header_checks|].
      apply checks_andthen.
      { apply (checks_insert_name _ (λ _, True)). intros seen x. case_bool_decide.
        - eapply checks_iff; [apply snapshot_error_checks|]. naive_solver.
        - eapply checks_iff; [apply snapshot_error_when|]. naive_solver. }
      apply checks_andthen; [apply snapshot_error_unless|].
      apply checks_andthen_two; [by apply completed_checks|].
      apply checks_andthen; [apply next_checks|].
      apply checks_andthen; [apply (checks_each_seen rn_node_name), ready_checks|].
      apply checks_andthen; [apply (checks_each_seen_from bk_node_name), blocked_checks|].
      apply state_checks. }
  split.
  - intros ((?&?&?&?)&[? _]&?&?&?&[Hr ?]&(Hb&Hrb&?)&?). split; try done. apply NoDup_app. split_and!; [done| |done].
    intros x Hx (n & -> & Hin)%list_elem_of_fmap. apply (Hrb n Hin). rewrite (collected_elem rn_node_name). by right.
  - intros [? ? ? ? ? ? ? ? (Hr&Hrb&Hb)%NoDup_app ? ? ?].
    split; [done|]. split; [done|]. do 4 (split; [done|]). split; [|done]. split; [done|]. split; [|done].
    intros n Hin. rewrite (collected_elem rn_node_name). intros [?|Hx]; [set_solver|]. apply (Hrb _ Hx). by apply list_elem_of_fmap_2.
Qed.
End Whole.

(** the validation of snapshots is undefined exactly when the completed prefix
    strictly extends the execution order; otherwise it reports no error exactly
    for the valid snapshots. *)
Theorem validate_scheduler_snapshot_exact s :
  let order := ss_execution_order s in
  let completed := cu_completed_prefix (ss_cursor s) in
  (validate_scheduler_snapshot s = UB ↔ order `prefix_of` completed ∧ length order < length completed) ∧
  (validate_scheduler_snapshot s ≠ UB →
   ∃ d, validate_scheduler_snapshot s ⇓ d ∧ (has_error d = false ↔ valid_snapshot s)).
Proof.
  cbv zeta. destruct (snapshot_validated s) as [(HU & Hp & Hl)|(d & Hd & Hiff & Hn)].
  - split; [by split|]. by rewrite HU.
  - rewrite Hd. split; [|by exists d]. split; [done|]. intros [Hp Hl]. by destruct (Hn Hl).
Qed.

(** ** Snapshots of built sessions

    The completed prefix and the classification of the nodes, and which runs
    have a snapshot. *)

(** ** The classification *)
Definition names_with (m : gmap string RuntimeSessionNode) (P : NodeSessionStatus.t → bool) (names : list string) : list string :=
  base.filter (λ x, P <$> (sn_status <$> m !! x) = Some true) names.
Definition is_ready (t : NodeSessionStatus.t) : bool := bool_decide (t = NodeSessionStatus.Ready).
Definition is_waiting (t : NodeSessionStatus.t) : bool :=
  match t with NodeSessionStatus.Blocked | NodeSessionStatus.Skipped => true | _ => false end.
Lemma names_with_elem m P names x : x ∈ names_with m P names ↔ x ∈ names ∧ ∃ sn, m !! x = Some sn ∧ P (sn_status sn) = true.
Proof.
  unfold names_with. rewrite list_elem_of_filter. destruct (m !! x) as [sn|]; cbn; [|naive_solver].
  split; [intros [[= H] ?]; eauto|]. intros (? & ? & [= <-] & H). by rewrite H.
Qed.
Lemma is_prefix_spec l l' : is_prefix l l' = true ↔ l `prefix_of` l'.
Proof.
  revert l'. induction l as [|x l IH]; intros [|y l']; cbn [is_prefix].
  1,2: split; [intros _; apply prefix_nil|done].
  - split; [done|]. by intros [? ?].
  - rewrite andb_true_iff, bool_decide_eq_true, IH. split; [intros [-> ?]; by apply prefix_cons|].
    intros H. split; [by eapply prefix_cons_inv_1|by eapply prefix_cons_inv_2].
Qed.
(** The position of a name in names that differ. *)
Lemma name_position (names : list string) i x : NoDup names → names !! i = Some x →
  default 0 (fst <$> list_find (λ y, y = x) names) = i.
Proof.
  intros Hnd Hi. destruct (list_find_elem_of (λ y, y = x) names x) as [[k y] Hk]; [by eapply list_elem_of_lookup_2|done|].
  rewrite Hk. cbn. apply list_find_Some in Hk as (Hk & -> & _). by apply (NoDup_lookup names _ _ x).
Qed.
Section Nodes.
Context (s : RuntimeSession) (m : gmap string RuntimeSessionNode).
(** Every entry of the index is a node under its name. *)
Hypothesis (named : ∀ x sn, m !! x = Some sn → sn_node_name sn = x).
Lemma completed_prefix_spec order : (∀ x, x ∈ order → is_Some (m !! x)) →
  ∃ done rest, completed_prefix_of m order = inr done ∧ order = done ++ rest ∧
    (∀ x, x ∈ done → sn_status <$> m !! x = Some NodeSessionStatus.Completed) ∧
    ∀ x, head rest = Some x → sn_status <$> m !! x ≠ Some NodeSessionStatus.Completed.
Proof.
  induction order as [|x order IH]; intros Hin; cbn [completed_prefix_of].
  - exists [], []. split_and!; [done..|by intros x ?%elem_of_nil|done].
  - destruct (Hin x) as [sn Hsn]; [left|]. rewrite Hsn. case_bool_decide as Hc.
    + destruct IH as (dn & rest & -> & -> & Hd & Hr); [intros; apply Hin; by right|].
      exists (x :: dn), rest. split_and!; [done..| |done]. intros y [->|Hy]%elem_of_cons; [|by apply Hd].
      rewrite Hsn. cbn. by rewrite Hc.
    + exists [], (x :: order). split_and!; [done..|by intros y ?%elem_of_nil|]. intros y [= <-]. rewrite Hsn. cbn. congruence.
Qed.
Definition classified (completed order : list string) (nodes : list WorkflowNodePlan)
    (ready : list SchedulerReadyNode) (blocked : list SchedulerBlockedNode) : Prop :=
  rn_node_name <$> ready = names_with m is_ready (np_name <$> nodes) ∧
  bk_node_name <$> blocked = names_with m is_waiting (np_name <$> nodes) ∧
  (∀ x, x ∈ ready → ∃ n sn, n ∈ nodes ∧ m !! np_name n = Some sn ∧ sn_status sn = NodeSessionStatus.Ready ∧
     x = ready_node n sn (default 0 (fst <$> list_find (λ y, y = np_name n) order))) ∧
  ∀ x, x ∈ blocked → ∃ n sn, n ∈ nodes ∧ m !! np_name n = Some sn ∧ is_waiting (sn_status sn) = true ∧
     x = blocked_node s completed n sn (default 0 (fst <$> list_find (λ y, y = np_name n) order)).
Lemma blocked_node_name completed n sn i : bk_node_name (blocked_node s completed n sn i) = sn_node_name sn.
Proof. unfold blocked_node. by repeat case_bool_decide. Qed.
Lemma classify_nodes_spec completed order nodes st : (∀ n, n ∈ nodes → is_Some (m !! np_name n)) →
  ∃ ready blocked, classify_nodes s completed m order nodes st = inr (st.1 ++ ready, st.2 ++ blocked) ∧
    classified completed order nodes ready blocked.
Proof.
  revert st. induction nodes as [|n nodes IH]; intros st Hin; cbn [classify_nodes].
  - exists [], []. rewrite !app_nil_r. split; [by destruct st|]. split_and!; [done..|by intros x ?%elem_of_nil|by intros x ?%elem_of_nil].
  - destruct (Hin n) as [sn Hsn]; [left|]. rewrite Hsn. set (i := default 0 _).
    destruct (IH (classify_node s completed n sn i st)) as (ready & blocked & -> & Hr & Hb & Hrn & Hbn); [intros; apply Hin; by right|].
    assert (Hw : ∀ P, names_with m P (np_name <$> n :: nodes) =
      if P (sn_status sn) then np_name n :: names_with m P (np_name <$> nodes) else names_with m P (np_name <$> nodes)).
    { intros P. unfold names_with. rewrite fmap_cons, filter_cons, Hsn. cbn [fmap option_fmap option_map].
      destruct (P (sn_status sn)); [by rewrite decide_True|by rewrite decide_False]. }
    assert (Hmore : ∀ R : WorkflowNodePlan → RuntimeSessionNode → Prop, (∃ n' sn', n' ∈ nodes ∧ R n' sn') → ∃ n' sn', n' ∈ n :: nodes ∧ R n' sn').
    { intros R (n' & sn' & ? & ?). exists n', sn'. split; [by right|done]. }
    unfold classify_node, classified. rewrite !Hw, <-Hr, <-Hb. pose proof (named _ _ Hsn) as Hname.
    assert (waits : is_waiting (sn_status sn) = true →
      (st.1 ++ ready, (st.2 ++ [blocked_node s completed n sn i]) ++ blocked) = (st.1 ++ ready, st.2 ++ blocked_node s completed n sn i :: blocked) ∧
      bk_node_name <$> blocked_node s completed n sn i :: blocked = np_name n :: (bk_node_name <$> blocked) ∧
      ∀ x, x ∈ blocked_node s completed n sn i :: blocked → ∃ n' sn', n' ∈ n :: nodes ∧ m !! np_name n' = Some sn' ∧
        is_waiting (sn_status sn') = true ∧ x = blocked_node s completed n' sn' (default 0 (fst <$> list_find (λ y, y = np_name n') order))).
    { intros Hst. rewrite <-app_assoc, fmap_cons, blocked_node_name, Hname. split_and!; [done..|].
      intros x [->|Hx]%elem_of_cons; [exists n, sn; split; [left|done]|]. by apply Hmore, Hbn. }
    destruct (sn_status sn) eqn:Es; cbn [fst snd is_ready is_waiting] in *.
    + exists ready, (blocked_node s completed n sn i :: blocked). destruct waits as (Hpair & Hnames & Hcases); [done|].
      cbn [fst snd]. rewrite Hpair. split; [done|]. split_and!; [done..|by intros x Hx; apply Hmore, Hrn|done].
    + exists (ready_node n sn i :: ready), blocked. rewrite <-app_assoc. split; [done|].
      rewrite fmap_cons. cbn [ready_node rn_node_name]. rewrite Hname. split_and!; [done..| |by intros x Hx; apply Hmore, Hbn].
      intros x [->|Hx]%elem_of_cons; [exists n, sn; split; [left|done]|]. by apply Hmore, Hrn.
    + exists ready, blocked. split; [done|]. split_and!; [done..| |]; intros x Hx; apply Hmore; first [by apply Hrn|by apply Hbn].
    + exists ready, blocked. split; [done|]. split_and!; [done..| |]; intros x Hx; apply Hmore; first [by apply Hrn|by apply Hbn].
    + exists ready, (blocked_node s completed n sn i :: blocked). destruct waits as (Hpair & Hnames & Hcases); [done|].
      cbn [fst snd]. rewrite Hpair. split; [done|]. split_and!; [done..|by intros x Hx; apply Hmore, Hrn|done].
Qed.
End Nodes.

(** ** The snapshot of a session *)
Section Built.
Context (plan : ExecutionPlan) (w : WorkflowPlan) (s : RuntimeSession).
Hypothesis (wf : well_formed_workflow w).
Hypothesis (valid : valid_session s).
Hypothesis (follows : session_follows plan w s).
Abbreviation m := (index_session_nodes (rs_nodes s)).
Lemma session_index x sn : m !! x = Some sn ↔ sn ∈ rs_nodes s ∧ sn_node_name sn = x.
Proof. apply index_session_nodes_spec, (vs_names _ valid). Qed.
Lemma planned_indexed x : x ∈ node_names w → is_Some (m !! x).
Proof.
  rewrite <-(so_names _ _ _ follows). intros (sn & -> & Hsn)%list_elem_of_fmap. exists sn. by apply session_index.
Qed.
Lemma indexed_node n sn : n ∈ wp_nodes w → m !! np_name n = Some sn → sn ∈ rs_nodes s ∧ node_follows s n sn.
Proof.
  intros Hn [Hsn Hname]%session_index. split; [done|]. destruct (so_nodes _ _ _ follows sn Hsn) as (n' & Hn' & Hf).
  assert (n' = n) as ->; [|done]. pose proof (nf_name _ _ _ Hf) as Heq. rewrite Hname in Heq.
  apply list_elem_of_lookup_1 in Hn as [i Hi], Hn' as [k Hk]. assert (i = k) as ->; [|congruence].
  apply (NoDup_lookup _ _ _ (np_name n) (wfw_distinct _ wf)); unfold node_names; rewrite list_lookup_fmap.
  - by rewrite Hi.
  - rewrite Hk. cbn. by rewrite Heq.
Qed.
Lemma session_status n sn : n ∈ wp_nodes w → m !! np_name n = Some sn → valid_session_node s sn.
Proof. intros Hn Hsn. apply (vs_nodes _ valid). by apply (indexed_node n). Qed.
Section Snapshot.
Context (completed rest : list string) (ready : list SchedulerReadyNode) (blocked : list SchedulerBlockedNode).
Hypothesis (parts : node_names w = completed ++ rest).
Hypothesis (done_nodes : ∀ x, x ∈ completed → sn_status <$> m !! x = Some NodeSessionStatus.Completed).
Hypothesis (stopped : ∀ x, head rest = Some x → sn_status <$> m !! x ≠ Some NodeSessionStatus.Completed).
Hypothesis (cls : classified s m completed (node_names w) (wp_nodes w) ready blocked).
Lemma plan_names_listed n : n ∈ wp_nodes w → listed (node_names w) (np_after n).
Proof.
  intros Hn. pose proof (wfw_nodes _ wf n Hn) as Hwn. split; [split; [|apply Hwn]|apply Hwn].
  apply Forall_forall. intros d. by apply (after_nonempty w wf).
Qed.
Lemma listed_part l l' : listed (node_names w) l → NoDup l' → (∀ d, d ∈ l' → d ∈ l) → listed (node_names w) l'.
Proof.
  intros [[Hne _] Hin] Hnd Hsub. rewrite Forall_forall in Hne. split; [split; [|done]|auto]. apply Forall_forall. auto.
Qed.
Lemma open_node n sn : n ∈ wp_nodes w → m !! np_name n = Some sn → sn_status sn ≠ NodeSessionStatus.Completed →
  waiting_node (node_names w) completed (sn_node_name sn) (sn_target sn)
    (Some (default 0 (fst <$> list_find (λ y, y = np_name n) (node_names w)))) (np_after n).
Proof.
  intros Hn Hsn Hst. destruct (indexed_node n sn Hn Hsn) as [Hin Hf]. rewrite (nf_name _ _ _ Hf).
  assert (Hname : np_name n ∈ node_names w) by by apply list_elem_of_fmap_2. split.
  - pose proof (wfw_names _ wf) as Hne. rewrite Forall_forall in Hne. auto.
  - apply (vs_nodes _ valid sn Hin).
  - done.
  - intros i [= <-]. pose proof Hname as [k Hk]%list_elem_of_lookup_1. by rewrite (name_position _ k _ (wfw_distinct _ wf) Hk).
  - intros Hd. apply done_nodes in Hd. rewrite Hsn in Hd. by injection Hd.
  - by apply plan_names_listed.
Qed.
Lemma ready_valid x : x ∈ ready → valid_ready (node_names w) completed x.
Proof.
  destruct cls as (_ & _ & Hr & _). intros (n & sn & Hn & Hsn & Hst & ->)%Hr.
  destruct (indexed_node n sn Hn Hsn) as [Hin Hf]. pose proof (vs_nodes _ valid sn Hin) as Hv. split; cbn.
  - apply open_node; [done..|by rewrite Hst].
  - rewrite (nf_satisfied _ _ _ Hf).
    assert (Hsub : ∀ d, d ∈ base.filter (λ d, d ∈ rs_execution_order s) (np_after n) → d ∈ np_after n) by by intros d [_ ?]%list_elem_of_filter.
    split; [|done]. eapply listed_part; [by apply (plan_names_listed n)|apply NoDup_filter, (wfw_nodes _ wf n Hn)|done].
  - rewrite <-(nf_bindings _ _ _ Hf). apply Hv.
  - intros b. rewrite <-(nf_bindings _ _ _ Hf). apply Hv.
Qed.
Lemma blocked_valid x : x ∈ blocked → valid_blocked (node_names w) completed x.
Proof.
  destruct cls as (_ & _ & _ & Hb). intros (n & sn & Hn & Hsn & Hst & ->)%Hb.
  assert (Hopen : sn_status sn ≠ NodeSessionStatus.Completed) by by destruct (sn_status sn).
  pose proof (open_node n sn Hn Hsn Hopen) as Hw. pose proof (vs_status _ valid) as Hws. unfold valid_workflow_status in Hws.
  assert (Hnil : listed (node_names w) [] ∧ ∀ d, d ∈ ([] : list string) → d ∈ np_after n).
  { split; [split; [split; [done|apply NoDup_nil_2]|]|]; by intros d ?%elem_of_nil. }
  unfold blocked_node. destruct (bool_decide (rs_workflow_status s = WorkflowSessionStatus.Failed)) eqn:Ef;
    [|set (missing := if bool_decide (rs_workflow_status s = _) then _ else _)].
  - apply bool_decide_eq_true in Ef. rewrite Ef in Hws. destruct Hws as [Hfail _]. split; [done|done|apply (vs_failure _ valid)|done].
  - assert (Hm : listed (node_names w) missing ∧ ∀ d, d ∈ missing → d ∈ np_after n).
    { unfold missing. destruct (bool_decide (rs_workflow_status s = WorkflowSessionStatus.Partial)); [|exact Hnil].
      assert (Hsub : ∀ d, d ∈ base.filter (λ d, d ∉ sn_satisfied_dependencies sn ∧ d ∉ completed) (np_after n) → d ∈ np_after n) by by intros d [_ ?]%list_elem_of_filter.
      split; [|done]. eapply listed_part; [by apply (plan_names_listed n)|apply NoDup_filter, (wfw_nodes _ wf n Hn)|done]. }
    destruct (bool_decide (missing = [])) eqn:Em; [split; [exact Hw|exact Hm|done|done]|].
    apply bool_decide_eq_false in Em. split; [exact Hw|exact Hm|done|by split].
Qed.
Lemma waiting_names_open P x : (∀ t, P t = true → t ≠ NodeSessionStatus.Completed) →
  x ∈ names_with m P (node_names w) → x ≠ "" ∧ x ∈ node_names w ∧ x ∉ completed.
Proof.
  intros HP (Hx & sn & Hsn & Hst)%names_with_elem. split_and!; [|done|].
  - pose proof (wfw_names _ wf) as Hne. rewrite Forall_forall in Hne. auto.
  - intros Hd%done_nodes. rewrite Hsn in Hd. injection Hd as Hd. by apply (HP _ Hst).
Qed.
Lemma classified_distinct : NoDup ((rn_node_name <$> ready) ++ (bk_node_name <$> blocked)).
Proof.
  destruct cls as (Hr & Hb & _). rewrite Hr, Hb. pose proof (wfw_distinct _ wf) as Hnd.
  apply NoDup_app. split_and!; [by apply NoDup_filter| |by apply NoDup_filter].
  intros x (_ & sn & Hsn & H1)%names_with_elem (_ & sn' & Hsn' & H2)%names_with_elem.
  assert (sn' = sn) as -> by congruence. by destruct (sn_status sn).
Qed.
(** A session with a node that is neither executed nor skipped, and no node
    that is ready, has a blocked node. *)
Lemma partial_waits : rs_workflow_status s = WorkflowSessionStatus.Partial → ready = [] → blocked ≠ [].
Proof.
  intros Hp Hr Hb. destruct cls as (Hrn & Hbn & _). pose proof (vs_status _ valid) as Hws. unfold valid_workflow_status in Hws.
  rewrite Hp in Hws. destruct Hws as (Hno & sn & Hsn & Hst).
  assert (Hin : sn_node_name sn ∈ node_names w) by (rewrite <-(so_names _ _ _ follows); by apply list_elem_of_fmap_2).
  assert (Hm : m !! sn_node_name sn = Some sn) by by apply session_index.
  assert (Hnone : ∀ P, names_with m P (node_names w) = [] → P (sn_status sn) = false).
  { intros P HP. destruct (P (sn_status sn)) eqn:E; [|done]. assert (Hx : sn_node_name sn ∈ names_with m P (node_names w)) by (apply names_with_elem; eauto).
    rewrite HP in Hx. by apply elem_of_nil in Hx. }
  rewrite Hr in Hrn. rewrite Hb in Hbn. pose proof (Hnone is_ready (eq_sym Hrn)) as H1. pose proof (Hnone is_waiting (eq_sym Hbn)) as H2.
  destruct (Hno sn Hsn) as [H3 H4]. by destruct (sn_status sn).
Qed.
(** Only a partial session has nodes that are ready. *)
Lemma not_partial_ready : rs_workflow_status s ≠ WorkflowSessionStatus.Partial → ready = [].
Proof.
  intros Hp. destruct ready as [|x l] eqn:E; [done|]. exfalso. apply Hp. destruct cls as (_ & _ & Hr & _).
  destruct (Hr x) as (n & sn & Hn & Hsn & Hst & _); [left|].
  pose proof (vn_status _ _ (session_status n sn Hn Hsn)) as Hv. unfold valid_status in Hv. rewrite Hst in Hv. apply Hv.
Qed.
Lemma completed_whole : rs_workflow_status s = WorkflowSessionStatus.Completed → rest = [] ∧ ready = [] ∧ blocked = [].
Proof.
  intros Hc. pose proof (vs_status _ valid) as Hws. unfold valid_workflow_status in Hws. rewrite Hc in Hws. destruct Hws as (_ & _ & Hall).
  assert (Hst : ∀ x sn, m !! x = Some sn → sn_status sn = NodeSessionStatus.Completed) by (intros x sn [? _]%session_index; auto).
  assert (Hnone : ∀ P, P NodeSessionStatus.Completed = false → names_with m P (node_names w) = []).
  { intros P HP. destruct (names_with m P (node_names w)) as [|x l] eqn:E; [done|].
    assert (Hx : x ∈ names_with m P (node_names w)) by (rewrite E; left). apply names_with_elem in Hx as (_ & sn & Hsn & H).
    rewrite (Hst x sn Hsn) in H. congruence. }
  destruct cls as (Hr & Hb & _). split_and!.
  - destruct rest as [|x l] eqn:E; [done|]. exfalso. assert (Hx : x ∈ node_names w) by (rewrite parts; apply elem_of_app; right; left).
    destruct (planned_indexed x Hx) as [sn Hsn]. apply (stopped x eq_refl). rewrite Hsn. cbn. by rewrite (Hst x sn).
  - apply (fmap_nil_inv rn_node_name). rewrite Hr. by apply Hnone.
  - apply (fmap_nil_inv bk_node_name). rewrite Hb. by apply Hnone.
Qed.
Lemma snapshot_valid j r : plan_format_version plan = kExecutionPlanFormatVersion →
  ej_format_version j = kExecutionJournalFormatVersion → rv_format_version r = kReplayViewFormatVersion →
  (∀ i, source_package_identity plan = Some i → identity_ok i) →
  valid_snapshot (snapshot_of plan s j r (node_names w) completed ready blocked).
Proof.
  intros Hp Hj Hr Hid. pose proof (vs_status _ valid) as Hws. unfold valid_workflow_status in Hws.
  assert (Hrn : rn_node_name <$> ready = names_with m is_ready (node_names w)) by apply cls.
  assert (Hbn : bk_node_name <$> blocked = names_with m is_waiting (node_names w)) by apply cls.
  assert (Hready : ∀ x, rn_node_name <$> head ready = Some x → x ≠ "" ∧ x ∈ node_names w ∧ x ∉ completed).
  { intros x Hx. apply (waiting_names_open is_ready); [by intros []|]. rewrite <-Hrn. destruct ready; [done|]. injection Hx as <-. left. }
  assert (Hblocked : ∀ x, bk_node_name <$> head blocked = Some x → x ≠ "" ∧ x ∈ node_names w ∧ x ∉ completed).
  { intros x Hx. apply (waiting_names_open is_waiting); [by intros []|]. rewrite <-Hbn. destruct blocked; [done|]. injection Hx as <-. left. }
  split; cbn [snapshot_of ss_format_version ss_source_execution_plan_format_version ss_source_runtime_session_format_version
    ss_source_execution_journal_format_version ss_source_replay_view_format_version ss_workflow_canonical_name ss_session_id
    ss_input_fixture ss_source_package_identity ss_workflow_failure_summary ss_execution_order ss_cursor ss_ready_nodes ss_blocked_nodes
    cu_completed_prefix_size cu_completed_prefix cu_next_candidate_node_name].
  - split_and!; try done. apply valid.
  - split_and!; apply valid.
  - done.
  - apply (vs_failure _ valid).
  - split; apply wf.
  - done.
  - rewrite parts. by exists rest.
  - intros x. destruct (rs_workflow_status s); [done|done|]. case_bool_decide; auto.
  - apply classified_distinct.
  - apply ready_valid.
  - apply blocked_valid.
  - unfold valid_state. cbn [snapshot_of ss_workflow_status ss_snapshot_status ss_workflow_failure_summary ss_execution_order ss_cursor
      ss_ready_nodes ss_blocked_nodes cu_completed_prefix_size cu_next_candidate_node_name].
    destruct (rs_workflow_status s) eqn:Ew.
    + destruct (completed_whole Ew) as (Hrest & -> & ->). rewrite parts, Hrest, app_nil_r. by destruct Hws as (? & _ & _).
    + destruct Hws as [? _]. split_and!; [done|done|by apply not_partial_ready; rewrite Ew|done].
    + split; [destruct (rs_failure_summary s) as [f|] eqn:Ef; [|done]; destruct (so_failure _ _ _ follows f Ef); congruence|].
      case_bool_decide as Hre.
      * split; [done|]. split; [by apply partial_waits|]. intros x Hx. destruct blocked; [done|]. injection Hx as <-. left.
      * split; [done|]. intros x Hx. destruct ready; [done|]. injection Hx as <-. left.
Qed.
End Snapshot.
End Built.

(** ** Which runs have a snapshot *)
Lemma replay_built plan s j r d : build_replay_view plan s j ⇓ mkReplayResult (Some r) d → ∃ nodes c, r = replay_of plan s j nodes c.
Proof.
  unfold build_replay_view. destruct (validate_execution_plan plan) as [dp| |]; cbn [mbind cxx_bind]; [|done..].
  cbv zeta. destruct (has_error _); [done|]. destruct (find_workflow_plan _ _); [|done]. destruct (has_error _); [done|].
  destruct (has_error _); [done|]. destruct (has_error _); [done|]. intros [= <- _]. by eexists _, _.
Qed.
Definition same_snapshot_headers (plan : ExecutionPlan) (s : RuntimeSession) (j : ExecutionJournal) (r : ReplayView) : Prop :=
  same_headers plan s j ∧
  (rv_source_execution_plan_format_version r = plan_format_version plan ∧
   rv_source_runtime_session_format_version r = rs_format_version s ∧
   rv_source_execution_journal_format_version r = ej_format_version j ∧
   source_package_identity plan = rv_source_package_identity r ∧ rs_workflow_canonical_name s = rv_workflow_canonical_name r ∧
   rs_session_id s = rv_session_id r ∧ rs_run_id s = rv_run_id r ∧ rs_input_fixture s = rv_input_fixture r ∧
   rs_workflow_status s = rv_workflow_status r ∧ rs_failure_summary s = rv_workflow_failure_summary r) ∧
  rv_consistency r = mkConsistency true true true.
Lemma bootstrap_unless P `{Decision P} msg : checks (bootstrap_check (negb (bool_decide P)) msg) P.
Proof. eapply checks_iff; [apply checks_error_code_if|]. by rewrite negb_false_iff, bool_decide_eq_true. Qed.
Lemma snapshot_headers_checks plan s j r : checks (snapshot_headers plan s j r) (same_snapshot_headers plan s j r).
Proof.
  unfold snapshot_headers, package_identity_equals, failure_summary_equals. cbv zeta. eapply checks_iff.
  - repeat (apply checks_andthen; [apply bootstrap_unless|]). apply checks_error_code_if.
  - unfold same_snapshot_headers, same_headers. rewrite !orb_false_iff, !negb_false_iff. destruct (rv_consistency r) as [[] [] []]; cbn; naive_solver.
Qed.
(** What the snapshot of a run shows: the longest prefix of completed nodes, and
    the nodes that are ready and that wait, in the order of the plan. *)
Record shows (w : WorkflowPlan) (s : RuntimeSession) (x : SchedulerSnapshot) : Prop := {
  sh_valid : valid_snapshot x;
  sh_order : ss_execution_order x = node_names w;
  sh_status : ss_workflow_status x = rs_workflow_status s;
  sh_completed y : y ∈ cu_completed_prefix (ss_cursor x) →
    sn_status <$> index_session_nodes (rs_nodes s) !! y = Some NodeSessionStatus.Completed;
  sh_stopped y : ss_execution_order x !! length (cu_completed_prefix (ss_cursor x)) = Some y →
    sn_status <$> index_session_nodes (rs_nodes s) !! y ≠ Some NodeSessionStatus.Completed;
  sh_ready : rn_node_name <$> ss_ready_nodes x = names_with (index_session_nodes (rs_nodes s)) is_ready (node_names w);
  sh_blocked : bk_node_name <$> ss_blocked_nodes x = names_with (index_session_nodes (rs_nodes s)) is_waiting (node_names w) }.
Definition snapshot_possible (plan : ExecutionPlan) (w : WorkflowPlan) (s : RuntimeSession) : Prop :=
  rs_execution_order s `prefix_of` node_names w ∧ ∀ i, source_package_identity plan = Some i → identity_ok i.
Lemma snapshot_of_follows plan w s j r : well_formed_plan plan → find_workflow_plan plan (rs_workflow_canonical_name s) = Some w →
  valid_session s → session_follows plan w s →
  (∃ d, validate_execution_plan plan ⇓ d ∧ has_error d = false) → valid_journal j → valid_replay r →
  same_snapshot_headers plan s j r → rv_execution_order r = rs_execution_order s →
  ∃ res, build_scheduler_snapshot plan s j r ⇓ res ∧
    match snr_snapshot res with
    | Some x => has_error (snr_diagnostics res) = false ∧ shows w s x ∧ snapshot_possible plan w s
    | None => has_error (snr_diagnostics res) = true ∧ ¬ snapshot_possible plan w s
    end.
Proof.
  intros Hwf Hfind Hvs Hfollows (dp & Hdp & Hdpe) Hvj Hvr Hsame Horder.
  destruct (find_workflow_plan_spec _ _ _ Hfind) as [Hin _]. pose proof (wfp_workflows _ Hwf w Hin) as Hww.
  unfold build_scheduler_snapshot. rewrite Hdp. cbn [mbind cxx_bind]. cbv zeta.
  set (d0 := append (append (append (append empty_bag dp) (validate_runtime_session s)) (validate_execution_journal j)) (validate_replay_view r)).
  assert (Hd0 : has_error d0 = false).
  { unfold d0. rewrite !has_error_append, has_error_empty, Hdpe. cbn [orb].
    rewrite (proj2 (checks_run _ _ (session_checks s)) Hvs : has_error (validate_runtime_session s) = false).
    rewrite (proj2 (checks_run _ _ (journal_checks j)) Hvj : has_error (validate_execution_journal j) = false).
    exact (proj2 (checks_run _ _ (replay_checks r)) Hvr). }
  rewrite Hd0, Hfind. assert (Hd1 : has_error (snapshot_headers plan s j r d0) = false) by by apply snapshot_headers_checks.
  rewrite Hd1. change (np_name <$> wp_nodes w) with (node_names w). rewrite Horder.
  destruct (is_prefix (rs_execution_order s) (node_names w)) eqn:Epre; cbn [negb].
  2:{ eexists. split; [done|]. cbn [snr_snapshot snr_diagnostics]. split; [apply has_error_emit_code|]. intros [Hp _].
      apply is_prefix_spec in Hp. congruence. }
  apply is_prefix_spec in Epre.
  destruct (completed_prefix_spec (index_session_nodes (rs_nodes s)) (node_names w)) as (completed & rest & -> & Hparts & Hdone & Hstop).
  { intros x. by apply (planned_indexed plan w s). }
  destruct (classify_nodes_spec s (index_session_nodes (rs_nodes s))) with (completed := completed) (order := node_names w)
    (nodes := wp_nodes w) (st := ([] : list SchedulerReadyNode, [] : list SchedulerBlockedNode)) as (ready & blocked & -> & Hcls).
  { by intros x sn [_ ?]%(session_index s Hvs). }
  { intros n Hn. apply (planned_indexed plan w s); [done..|]. by apply list_elem_of_fmap_2. }
  cbn [fst snd app]. set (x := snapshot_of plan s j r (node_names w) completed ready blocked).
  assert (Hvalid : (∀ i, source_package_identity plan = Some i → identity_ok i) → valid_snapshot x).
  { apply (snapshot_valid plan w s Hww Hvs Hfollows completed rest ready blocked); [done..|apply Hwf|apply Hvj|apply Hvr]. }
  destruct (snapshot_validated x) as [(_ & Hpre & Hlen)|(dx & Hdx & Hiff & _)].
  { exfalso. unfold x in Hlen. cbn in Hlen. rewrite Hparts, length_app in Hlen. lia. }
  rewrite Hdx. cbn [mbind cxx_bind]. rewrite has_error_append, Hd1. cbn [orb].
  destruct (has_error dx) eqn:Edx; (eexists; split; [done|]); cbn [snr_snapshot snr_diagnostics]; rewrite has_error_append, Hd1, Edx; (split; [done|]).
  - intros [_ Hid]. apply Hvalid, Hiff in Hid. congruence.
  - assert (Hvx : valid_snapshot x) by by apply Hiff. split; [|split; [done|apply (vt_identity _ Hvx)]].
    split; [done|done|done|done| |apply Hcls|apply Hcls].
    intros y Hy. apply Hstop. unfold x in Hy. cbn in Hy. rewrite Hparts, lookup_app_r, Nat.sub_diag in Hy by done.
    by destruct rest.
Qed.
(** C30: a snapshot shows where a run stands: for every session that
    [build_runtime_session] returns, its journal and its replay,
    [build_scheduler_snapshot] returns; it gives a snapshot exactly when the run
    executed the nodes in the order in which the plan lists them and the
    identity of the package is complete, and the snapshot is valid, with the
    longest prefix of completed nodes, the ready and the waiting nodes. *)
Theorem snapshot_of_run plan request ms options s d : (∀ w, w ∈ plan_workflows plan → nul_free_names w) →
  build_runtime_session plan request ms options ⇓ mkSessionResult (Some s) d →
  ∃ w j r dr res, find_workflow_plan plan (req_workflow_canonical_name request) = Some w ∧
    jr_journal (build_execution_journal s) = Some j ∧ build_replay_view plan s j ⇓ mkReplayResult (Some r) dr ∧
    build_scheduler_snapshot plan s j r ⇓ res ∧
    match snr_snapshot res with
    | Some x => has_error (snr_diagnostics res) = false ∧ shows w s x ∧ snapshot_possible plan w s
    | None => has_error (snr_diagnostics res) = true ∧ ¬ snapshot_possible plan w s
    end.
Proof.
  intros Hnul Hb. destruct (build_session_spec plan request ms options Hnul) as (sres & Hres & Hm).
  rewrite Hb in Hres. injection Hres as <-. cbn [sr_session] in Hm. destruct Hm as (_ & Hvs & Hwf & w & Hw & Hfollows).
  destruct (session_replays_spec plan request ms options s d Hnul Hb) as (j & Hj & r & dr & Hr & _ & Hvr & _).
  pose proof (build_journal_spec s) as Hjs. rewrite Hj in Hjs. destruct Hjs as (_ & _ & Hvj & ns & groups & _ & _ & Hjeq).
  destruct (replay_built _ _ _ _ _ Hr) as (nodes & c & Hreq).
  destruct (find_workflow_plan_spec _ _ _ Hw) as [_ Hname]. destruct (so_source _ _ _ Hfollows) as (Hs1 & Hs2 & Hs3).
  destruct (plan_validated plan Hnul) as (dp & Hdp & Hiff).
  destruct (snapshot_of_follows plan w s j r) as (res & Hsn & Hcase); [done| |done|done|exists dp; by split; [|apply Hiff]|done|done| | |].
  - by rewrite (so_workflow _ _ _ Hfollows), Hname.
  - split; [|split; [|apply Hvr]]; [rewrite Hjeq|rewrite Hreq]; unfold same_headers; cbn; by rewrite ?Hs1, ?Hs2.
  - by rewrite Hreq.
  - by exists w, j, r, dr, res.
Qed.

(** ** Examples *)
Lemma snapshot_of_run_witness :
  ∃ s d j r dr x, build_runtime_session sample_plan sample_request sample_mocks sample_options ⇓ mkSessionResult (Some s) d ∧
    jr_journal (build_execution_journal s) = Some j ∧ build_replay_view sample_plan s j ⇓ mkReplayResult (Some r) dr ∧
    build_scheduler_snapshot sample_plan s j r ⇓ x ∧ is_Some (snr_snapshot x).
Proof.
  assert (Ht : match build_runtime_session sample_plan sample_request sample_mocks sample_options with
    | Ret (mkSessionResult (Some s) _) => rs_execution_order s = ["fetch"; "score"] | _ => False end) by by vm_compute.
  destruct (build_runtime_session sample_plan sample_request sample_mocks sample_options) as [[[s|] d]| |] eqn:E; [|destruct Ht..].
  destruct (snapshot_of_run sample_plan sample_request sample_mocks sample_options s d (λ w Hw, sample_nul_free w (or_introl Hw)) E)
    as (w & j & r & dr & x & Hw & Hj & Hr & Hx & Hcase).
  exists s, d, j, r, dr, x. split; [done|]. split; [exact Hj|]. split; [exact Hr|]. split; [exact Hx|].
  destruct (snr_snapshot x) as [y|]; [by exists y|]. destruct Hcase as [_ Hno]. exfalso. apply Hno. split; [|done].
  vm_compute in Hw. injection Hw as <-. rewrite Ht. exists []. by vm_compute.
Defined.
Definition snapshot_of_plan (plan : ExecutionPlan) : cxx (list string * option SchedulerSnapshot) :=
  s ← build_runtime_session plan sample_request sample_mocks sample_options;
  match sr_session s with
  | None => UB
  | Some s =>
      match jr_journal (build_execution_journal s) with
      | None => UB
      | Some j =>
          r ← build_replay_view plan s j;
          match vr_replay r with
          | None => UB
          | Some r => x ← build_scheduler_snapshot plan s j r; Ret (rs_execution_order s, snr_snapshot x)
          end
      end
  end.
(** The workflow of the sample with its nodes declared in the other order. *)
Definition sample_reversed : ExecutionPlan :=
  mkPlan kExecutionPlanFormatVersion None (Some "app::Main")
    [mkWorkflowPlan "app::Main" "In" "Out" ["fetch"] [mkEdge "fetch" "score"] [sample_score; sample_fetch]
       (mkValueSummary [mkValueRead ValueSourceKind.WorkflowNodeOutput "score" []])].
(** a node declared before its dependency: the run completes and replays, but
    has no snapshot. *)
Example run_without_snapshot : snapshot_of_plan sample_reversed = Ret (["fetch"; "score"], None).
Proof. by vm_compute. Qed.
(** the validation of a snapshot whose completed prefix is longer than its
    execution order compares past the end of the order. *)
Example validation_past_the_end :
  ∃ s, validate_scheduler_snapshot s = UB ∧ ss_execution_order s = ["fetch"] ∧ cu_completed_prefix (ss_cursor s) = ["fetch"; "score"].
Proof.
  exists (mkSnapshot kSchedulerSnapshotFormatVersion kExecutionPlanFormatVersion kRuntimeSessionFormatVersion
    kExecutionJournalFormatVersion kReplayViewFormatVersion None "app::Main" "run" None "input.json" WorkflowSessionStatus.Completed
    SnapshotStatus.TerminalCompleted None ["fetch"] [] [] (mkCursor 2 ["fetch"; "score"] None true)).
  by vm_compute.
Qed.
