(* ===== verification/Schema.v ===== *)
(** * Response schemas (src/runtime/engine/response_schema_validator.{hpp,cpp})

    [check_value] validates the value of a response against a type of the IR.
    With an index, structs and enums are compared with their declarations;
    without one, only with their names.  [conforms] is the relation that it
    decides. *)
From S2P Require Import Prelude Numeric Value Ir ProgramIndex.
Open Scope nat_scope.
Open Scope ahfl_scope.

Record SchemaValidationResult := mkSchemaResult { schema_valid : bool; schema_error : string }.
Definition schema_ok : SchemaValidationResult := mkSchemaResult true "".
Definition schema_fail (msg : string) : SchemaValidationResult := mkSchemaResult false msg.

Definition kind_label (v : Value) : string :=
  match value_kind v with
  | ValueKind.None_ => "None" | ValueKind.Bool => "Bool" | ValueKind.Int => "Int" | ValueKind.Float => "Float"
  | ValueKind.String_ => "String" | ValueKind.Decimal => "Decimal" | ValueKind.Duration => "Duration"
  | ValueKind.Struct => "Struct" | ValueKind.List_ => "List" | ValueKind.Enum => "Enum" | ValueKind.Optional => "Optional"
  end.
Definition schema_type_name (t : TypeRef) : string := if bool_decide (type_canonical t = "") then type_display t else type_canonical t.
Definition type_name_matches (actual : string) (expected : TypeRef) : bool :=
  if negb (bool_decide (type_canonical expected = "")) && bool_decide (actual = type_canonical expected) then true
  else if negb (bool_decide (type_display expected = "")) && bool_decide (actual = type_display expected) then true
  else bool_decide (type_canonical expected = "") && bool_decide (type_display expected = "").

(** The declaration of a type: by its canonical name, by its display name, and
    by its declared name, in this order. *)
Definition find_declaration {A} (find : string → option A) (declared : A → string) (all : list A) (expected : TypeRef) : option A :=
  let by_name := if bool_decide (type_display expected = "") then None else
    match find (type_display expected) with
    | Some decl => Some decl
    | None => head (base.filter (λ decl, declared decl = type_display expected) all)
    end in
  if bool_decide (type_canonical expected = "") then by_name
  else match find (type_canonical expected) with Some decl => Some decl | None => by_name end.
Definition find_schema_struct (index : option ProgramIndex) (expected : TypeRef) : option StructDecl :=
  x ← index; find_declaration (find_struct x) struct_name (structs_in_order_ x) expected.
Definition find_schema_enum (index : option ProgramIndex) (expected : TypeRef) : option EnumDecl :=
  x ← index; find_declaration (find_enum x) enum_name (enums_in_order_ x) expected.

Definition at_path (path msg : string) : string := if bool_decide (path = "") then msg else path +:+ ": " +:+ msg.
Definition expect (good : bool) (v : Value) (path label : string) : SchemaValidationResult :=
  if good then schema_ok else schema_fail (at_path path ("expected " +:+ label +:+ " but got " +:+ kind_label v)).
Definition field_path (path field : string) : string := if bool_decide (path = "") then field else path +:+ "." +:+ field.
Definition item_path (path : string) (i : nat) : string := path +:+ "[" +:+ to_string (Z.of_nat i) +:+ "]".

(** The check of a field, and the checks of the fields that the struct declares. *)
Abbreviation schema_check := (TypeRef → string → SchemaValidationResult).
Fixpoint check_fields (fields : list (string * option schema_check)) (decl : string) (path : string) (declared : list FieldDecl)
    : SchemaValidationResult :=
  match declared with
  | [] => schema_ok
  | f :: declared =>
      match find_field (field_name f) fields with
      | Some (Some check) =>
          let r := check (field_type_ref f) (field_path path (field_name f)) in
          if schema_valid r then check_fields fields decl path declared else r
      | _ => schema_fail (at_path path ("missing field '" +:+ field_name f +:+ "' for struct '" +:+ decl +:+ "'"))
      end
  end.
(** The first field that is not declared, in the order of the map. *)
Definition check_no_other {A} (fields : list (string * A)) (decl : StructDecl) (path : string) : SchemaValidationResult :=
  match head (base.filter (λ f, f.1 ∉ field_name <$> struct_fields decl) fields) with
  | Some f => schema_fail (at_path path ("unexpected field '" +:+ f.1 +:+ "' for struct '" +:+ struct_name decl +:+ "'"))
  | None => schema_ok
  end.
Definition check_struct (index : option ProgramIndex) (type_name : string) (fields : list (string * option schema_check))
    (expected : TypeRef) (path : string) : SchemaValidationResult :=
  if negb (type_name_matches type_name expected) then
    schema_fail (at_path path ("expected struct '" +:+ schema_type_name expected +:+ "' but got '" +:+ type_name +:+ "'"))
  else
    match find_schema_struct index expected with
    | None => schema_ok
    | Some decl =>
        let r := check_fields fields (struct_name decl) path (struct_fields decl) in
        if schema_valid r then check_no_other fields decl path else r
    end.
Definition check_enum (index : option ProgramIndex) (enum_name' variant : string) (expected : TypeRef) (path : string)
    : SchemaValidationResult :=
  if negb (type_name_matches enum_name' expected) then
    schema_fail (at_path path ("expected enum '" +:+ schema_type_name expected +:+ "' but got '" +:+ enum_name' +:+ "'"))
  else
    match find_schema_enum index expected with
    | None => schema_ok
    | Some decl =>
        if bool_decide (variant ∈ enum_variants decl) then schema_ok
        else schema_fail (at_path path ("unknown enum variant '" +:+ variant +:+ "' for enum '" +:+ enum_name decl +:+ "'"))
    end.
Fixpoint check_items (items : list (option schema_check)) (i : nat) (expected : TypeRef) (path : string) : SchemaValidationResult :=
  match items with
  | [] => schema_ok
  | None :: _ => schema_fail (at_path path ("list item " +:+ to_string (Z.of_nat i) +:+ " is null"))
  | Some check :: items =>
      let r := check expected (item_path path i) in
      if schema_valid r then check_items items (S i) expected path else r
  end.

Section Check.
Context (index : option ProgramIndex).
Fixpoint check_value (v : Value) : schema_check :=
  fix check_type (expected : TypeRef) (path : string) {struct expected} : SchemaValidationResult :=
    match type_kind expected with
    | TypeRefKind.Any => schema_ok
    | TypeRefKind.Unit =>
        if is_none v then schema_ok else schema_fail (at_path path "expected Unit but got a value")
    | TypeRefKind.Optional =>
        match v with
        | NoneValue => schema_ok
        | OptionalValue None => schema_ok
        | OptionalValue (Some inner) =>
            match type_first expected with Some first => check_value inner first path | None => schema_ok end
        | _ => match type_first expected with Some first => check_type first path | None => schema_ok end
        end
    | TypeRefKind.Bool => expect (match v with BoolValue _ => true | _ => false end) v path "Bool"
    | TypeRefKind.Int => expect (match v with IntValue _ => true | _ => false end) v path "Int"
    | TypeRefKind.Float => expect (match v with FloatValue _ | IntValue _ => true | _ => false end) v path "Float"
    | TypeRefKind.String | TypeRefKind.BoundedString =>
        expect (match v with StringValue _ => true | _ => false end) v path "String"
    | TypeRefKind.Decimal =>
        expect (match v with DecimalValue _ | FloatValue _ | IntValue _ => true | _ => false end) v path "Decimal"
    | TypeRefKind.Duration => expect (match v with DurationValue _ => true | _ => false end) v path "Duration"
    | TypeRefKind.Struct =>
        match v with
        | StructValue type_name fields =>
            check_struct index type_name
              ((fix go fs := match fs with
                | [] => []
                | (name, Some x) :: r => (name, Some (check_value x)) :: go r
                | (name, None) :: r => (name, None) :: go r
                end) fields) expected path
        | _ => expect false v path "Struct"
        end
    | TypeRefKind.Enum =>
        match v with
        | EnumValue name variant => check_enum index name variant expected path
        | _ => expect false v path "Enum"
        end
    | TypeRefKind.List | TypeRefKind.Set_ =>
        match v with
        | ListValue items =>
            match type_first expected with
            | Some first =>
                check_items
                  ((fix go l := match l with
                    | [] => []
                    | Some x :: r => Some (check_value x) :: go r
                    | None :: r => None :: go r
                    end) items) 0 first path
            | None => schema_ok
            end
        | _ => expect false v path "List/Set"
        end
    | TypeRefKind.Map => expect (match v with StructValue _ _ => true | _ => false end) v path "Map"
    | _ => schema_ok
    end.
End Check.
Definition validate_value_against_schema (v : Value) (expected : TypeRef) : SchemaValidationResult := check_value None v expected "".
Definition validate_value_against_program (v : Value) (expected : TypeRef) (program : Program) : SchemaValidationResult :=
  check_value (Some (rebuild program)) v expected "".

(** ** What response schemas accept

    [check_value] accepts a value exactly when it conforms to the type, at
    every path and in every order of the fields. *)

Definition scalar_conforms (k : TypeRefKind.t) (v : Value) : Prop :=
  match k, v with
  | TypeRefKind.Unit, NoneValue | TypeRefKind.Bool, BoolValue _ | TypeRefKind.Int, IntValue _
  | TypeRefKind.Float, (FloatValue _ | IntValue _) | (TypeRefKind.String | TypeRefKind.BoundedString), StringValue _
  | TypeRefKind.Decimal, (DecimalValue _ | FloatValue _ | IntValue _) | TypeRefKind.Duration, DurationValue _
  | TypeRefKind.Map, StructValue _ _ => True
  | (TypeRefKind.Any | TypeRefKind.Unresolved | TypeRefKind.Never | TypeRefKind.UUID | TypeRefKind.Timestamp), _ => True
  | _, _ => False
  end.
Section Conforms.
Context (index : option ProgramIndex).
Inductive conforms : Value → TypeRef → Prop :=
  | conforms_scalar v t : scalar_conforms (type_kind t) v → conforms v t
  | conforms_nothing v t : type_kind t = TypeRefKind.Optional → v = NoneValue ∨ v = OptionalValue None → conforms v t
  | conforms_untyped v t : type_kind t = TypeRefKind.Optional → type_first t = None → conforms v t
  | conforms_inner x t first : type_kind t = TypeRefKind.Optional → type_first t = Some first → conforms x first →
      conforms (OptionalValue (Some x)) t
  | conforms_bare v t first : type_kind t = TypeRefKind.Optional → type_first t = Some first →
      value_kind v ≠ ValueKind.Optional → conforms v first → conforms v t
  | conforms_struct name fields t : type_kind t = TypeRefKind.Struct → type_name_matches name t = true →
      (∀ decl, find_schema_struct index t = Some decl →
        (∀ f, f ∈ struct_fields decl → ∃ x, find_field (field_name f) fields = Some (Some x) ∧ conforms x (field_type_ref f)) ∧
        ∀ n, n ∈ fields.*1 → n ∈ field_name <$> struct_fields decl) →
      conforms (StructValue name fields) t
  | conforms_enum name variant t : type_kind t = TypeRefKind.Enum → type_name_matches name t = true →
      (∀ decl, find_schema_enum index t = Some decl → variant ∈ enum_variants decl) →
      conforms (EnumValue name variant) t
  | conforms_items items t : type_kind t = TypeRefKind.List ∨ type_kind t = TypeRefKind.Set_ →
      (∀ first, type_first t = Some first → ∀ o, o ∈ items → ∃ x, o = Some x ∧ conforms x first) →
      conforms (ListValue items) t.
End Conforms.

(** ** The parts *)
Definition decides (c : schema_check) (P : TypeRef → Prop) : Prop := ∀ t path, schema_valid (c t path) = true ↔ P t.
Lemma expect_valid b v path label : schema_valid (expect b v path label) = true ↔ b = true.
Proof. by destruct b. Qed.
Lemma check_fields_valid fields name path declared (P : string → TypeRef → Prop) :
  (∀ n c, find_field n fields = Some (Some c) → decides c (P n)) →
  schema_valid (check_fields fields name path declared) = true ↔
  ∀ f, f ∈ declared → (∃ c, find_field (field_name f) fields = Some (Some c)) ∧ P (field_name f) (field_type_ref f).
Proof.
  intros Hc. induction declared as [|f declared IH]; cbn [check_fields]; [split; [by intros _ f ?%elem_of_nil|done]|].
  setoid_rewrite elem_of_cons. destruct (find_field (field_name f) fields) as [[c|]|] eqn:E.
  - pose proof (Hc _ _ E (field_type_ref f) (field_path path (field_name f))) as Hf.
    destruct (schema_valid (c _ _)) eqn:Ev.
    + rewrite IH. split; [|naive_solver]. intros H g [->|Hg]; [|auto]. split; [by exists c|tauto].
    + rewrite Ev. split; [done|]. intros H. destruct (H f (or_introl eq_refl)) as [_ HP]. apply Hf in HP. congruence.
  - split; [done|]. intros H. destruct (H f (or_introl eq_refl)) as [[c Hcx] _]. congruence.
  - split; [done|]. intros H. destruct (H f (or_introl eq_refl)) as [[c Hcx] _]. congruence.
Qed.
Lemma check_no_other_valid {A} (fields : list (string * A)) decl path :
  schema_valid (check_no_other fields decl path) = true ↔ ∀ n, n ∈ fields.*1 → n ∈ field_name <$> struct_fields decl.
Proof.
  unfold check_no_other. destruct (head _) as [f|] eqn:E.
  - split; [done|]. intros H. assert (Hf : f ∈ base.filter (λ f, f.1 ∉ field_name <$> struct_fields decl) fields).
    { destruct (base.filter _ fields); [done|]. injection E as ->. left. }
    apply list_elem_of_filter in Hf as [Hf Hin]. destruct Hf. apply H. by apply list_elem_of_fmap_2.
  - split; [|done]. intros _ n (f & -> & Hf)%list_elem_of_fmap.
    destruct (decide (f.1 ∈ field_name <$> struct_fields decl)) as [|Hn]; [done|].
    assert (Hin : f ∈ base.filter (λ f, f.1 ∉ field_name <$> struct_fields decl) fields) by by apply list_elem_of_filter.
    destruct (base.filter _ fields); [by apply elem_of_nil in Hin|done].
Qed.
Lemma check_items_valid items i first path (P : TypeRef → nat → Prop) :
  (∀ k c, items !! k = Some (Some c) → decides c (λ t, P t (i + k))) →
  schema_valid (check_items items i first path) = true ↔ ∀ k o, items !! k = Some o → (∃ c, o = Some c) ∧ P first (i + k).
Proof.
  revert i. induction items as [|[c|] items IH]; intros i Hc; cbn [check_items].
  - split; [|done]. by intros _ k o.
  - pose proof (Hc 0 c eq_refl first (item_path path i)) as Hf. rewrite Nat.add_0_r in Hf.
    destruct (schema_valid (c _ _)) eqn:Ev.
    + rewrite IH.
      * split; intros H [|k] o Hk.
        -- injection Hk as <-. rewrite Nat.add_0_r. split; [by exists c|tauto].
        -- rewrite <-Nat.add_succ_comm. by apply H.
        -- rewrite Nat.add_succ_comm. by apply (H 1).
        -- rewrite Nat.add_succ_comm. by apply (H (S (S k))).
      * intros k c' Hk. rewrite Nat.add_succ_comm. by apply (Hc (S k)).
    + rewrite Ev. split; [done|]. intros H. destruct (H 0 (Some c) eq_refl) as [_ HP]. rewrite Nat.add_0_r in HP. apply Hf in HP. congruence.
  - split; [done|]. intros H. by destruct (H 0 None eq_refl) as [[c Hcx] _].
Qed.

(** ** The whole *)
Section Checks.
Context (g : Value → schema_check).
Definition field_checks : list (string * option Value) → list (string * option schema_check) :=
  fix go fs := match fs with
  | [] => []
  | (name, Some x) :: r => (name, Some (g x)) :: go r
  | (name, None) :: r => (name, None) :: go r
  end.
Definition item_checks : list (option Value) → list (option schema_check) :=
  fix go l := match l with
  | [] => []
  | Some x :: r => Some (g x) :: go r
  | None :: r => None :: go r
  end.
Lemma field_checks_fmap fields : field_checks fields = (λ f : string * option Value, (f.1, g <$> f.2)) <$> fields.
Proof. induction fields as [|[n [x|]] fields IH]; [done|..]; rewrite fmap_cons, <-IH; done. Qed.
Lemma item_checks_fmap items : item_checks items = (λ o : option Value, g <$> o) <$> items.
Proof. induction items as [|[x|] items IH]; [done|..]; rewrite fmap_cons, <-IH; done. Qed.
Lemma find_checks n fields : find_field n (field_checks fields) = (λ o : option Value, g <$> o) <$> find_field n fields.
Proof.
  rewrite field_checks_fmap. induction fields as [|[k o] fields IH]; [done|]. cbn [fmap list_fmap find_field fst snd].
  case_bool_decide; [done|]. exact IH.
Qed.
Lemma field_checks_names fields : (field_checks fields).*1 = fields.*1.
Proof. rewrite field_checks_fmap, <-list_fmap_compose. by apply list_fmap_ext. Qed.
End Checks.
Lemma found_in_children n fields x name : find_field n fields = Some (Some x) → x ∈ value_children (StructValue name fields).
Proof.
  intros H. cbn [value_children]. apply list_elem_of_bind. induction fields as [|[k o] fields IH]; [done|].
  cbn [find_field] in H. case_bool_decide.
  - injection H as ->. exists (k, Some x). split; [left|left].
  - destruct (IH H) as (f & ? & ?). exists f. split; [done|by right].
Qed.
Lemma item_in_children x items : Some x ∈ items → x ∈ value_children (ListValue items).
Proof. intros H. cbn [value_children]. apply list_elem_of_bind. exists (Some x). split; [left|done]. Qed.
Section Decides.
Context (index : option ProgramIndex).
Definition struct_fits name fields t : Prop := type_name_matches name t = true ∧
  ∀ decl, find_schema_struct index t = Some decl →
    (∀ f, f ∈ struct_fields decl → ∃ x, find_field (field_name f) fields = Some (Some x) ∧ conforms index x (field_type_ref f)) ∧
    ∀ n, n ∈ fields.*1 → n ∈ field_name <$> struct_fields decl.
Lemma conforms_struct_iff name fields t : type_kind t = TypeRefKind.Struct →
  conforms index (StructValue name fields) t ↔ struct_fits name fields t.
Proof.
  intros Hk. split; [|by intros [? ?]; apply conforms_struct]. intros H. inversion H; subst; try congruence; try (by split).
  all: match goal with Hs : scalar_conforms _ _ |- _ => by rewrite Hk in Hs | Hs : _ ∨ _ |- _ => by destruct Hs end.
Qed.
Lemma conforms_items_iff items t : type_kind t = TypeRefKind.List ∨ type_kind t = TypeRefKind.Set_ →
  conforms index (ListValue items) t ↔ ∀ first, type_first t = Some first → ∀ o, o ∈ items → ∃ x, o = Some x ∧ conforms index x first.
Proof.
  intros Hk. split; [|by apply conforms_items]. intros H. inversion H; subst; try (destruct Hk; congruence); try done.
  all: match goal with Hs : scalar_conforms _ _ |- _ => destruct Hk as [Hk|Hk]; by rewrite Hk in Hs end.
Qed.
Lemma struct_decides name fields t path : type_kind t = TypeRefKind.Struct →
  (∀ x, x ∈ value_children (StructValue name fields) → decides (check_value index x) (conforms index x)) →
  schema_valid (check_struct index name (field_checks (check_value index) fields) t path) = true ↔ conforms index (StructValue name fields) t.
Proof.
  intros Hk Hx. rewrite conforms_struct_iff by done. unfold check_struct, struct_fits. destruct (type_name_matches name t); cbn [negb].
  2:{ split; [done|]. by intros [? _]. }
  destruct (find_schema_struct index t) as [decl|]; [|by split].
  pose proof (check_fields_valid (field_checks (check_value index) fields) (struct_name decl) path (struct_fields decl)
    (λ n t, ∃ x, find_field n fields = Some (Some x) ∧ conforms index x t)) as Hf.
  rewrite <-(field_checks_names (check_value index) fields).
  pose proof (check_no_other_valid (field_checks (check_value index) fields) decl path) as Ho.
  assert (Hf' : schema_valid (check_fields (field_checks (check_value index) fields) (struct_name decl) path (struct_fields decl)) = true ↔
    ∀ f, f ∈ struct_fields decl → ∃ x, find_field (field_name f) fields = Some (Some x) ∧ conforms index x (field_type_ref f)).
  { rewrite Hf; [|intros n c Hc t' path'; rewrite find_checks in Hc].
    - split; intros H f Hin; [by apply H|]. destruct (H f Hin) as (x & Hx' & Hc). split; [|by exists x].
      exists (check_value index x). by rewrite find_checks, Hx'.
    - destruct (find_field n fields) as [[x|]|] eqn:E; try done. injection Hc as <-.
      pose proof (Hx x (found_in_children _ _ _ name E) t' path') as Hxt. rewrite Hxt. split; [intros Hct; by exists x|]. by intros (x' & [= <-] & ?). }
  cbv zeta. destruct (schema_valid (check_fields _ _ _ _)) eqn:Ev.
  - rewrite Ho. split; [intros H; split; [done|]; intros d [= <-]; split; [by apply Hf'|done]|]. intros [_ H]. by apply (H decl).
  - rewrite Ev. split; [done|]. intros [_ H]. apply Hf'. by apply (H decl).
Qed.
Lemma items_decides items t first path : type_kind t = TypeRefKind.List ∨ type_kind t = TypeRefKind.Set_ → type_first t = Some first →
  (∀ x, x ∈ value_children (ListValue items) → decides (check_value index x) (conforms index x)) →
  schema_valid (check_items (item_checks (check_value index) items) 0 first path) = true ↔ conforms index (ListValue items) t.
Proof.
  intros Hk Hf Hx. rewrite conforms_items_iff by done. rewrite (check_items_valid _ _ _ _ (λ t k, ∃ x, items !! k = Some (Some x) ∧ conforms index x t)).
  - rewrite item_checks_fmap. setoid_rewrite list_lookup_fmap. cbn [plus]. split.
    + intros H f' Hf' o [k Hk']%list_elem_of_lookup_1. assert (f' = first) as -> by congruence.
      destruct (H k (check_value index <$> o)) as [_ (x & Hx' & ?)]; [by rewrite Hk'|]. exists x. split; [congruence|done].
    + intros H k o Ho. destruct (items !! k) as [o'|] eqn:E; [|done]. injection Ho as <-.
      destruct (H first Hf o') as (x & -> & ?); [by eapply list_elem_of_lookup_2|]. split; [by eexists|by exists x].
  - intros k c Hc t' path'. rewrite item_checks_fmap, list_lookup_fmap in Hc. destruct (items !! k) as [[x|]|] eqn:E; try done.
    injection Hc as <-. cbn [plus]. assert (Hin : Some x ∈ items) by by eapply list_elem_of_lookup_2.
    pose proof (Hx x (item_in_children _ _ Hin) t' path') as Hxt. rewrite Hxt, E.
    split; [intros Hct; by exists x|]. by intros (x' & [= <-] & ?).
Qed.
End Decides.

Section Decision.
Context (index : option ProgramIndex).
Lemma optional_iff v t : type_kind t = TypeRefKind.Optional → conforms index v t ↔
  match v with
  | NoneValue | OptionalValue None => True
  | OptionalValue (Some x) => ∀ first, type_first t = Some first → conforms index x first
  | _ => ∀ first, type_first t = Some first → conforms index v first
  end.
Proof.
  intros Hk. split.
  - intros H. inversion H; subst; try congruence; try (match goal with Hs : _ ∨ _ |- _ => destruct Hs; try congruence; subst; done end).
    all: try (match goal with Hs : scalar_conforms _ _ |- _ => by rewrite Hk in Hs end).
    all: try match goal with |- match ?v with _ => _ end => is_var v; destruct v as [| | | | | | | | | |[x'|]] end.
    all: try done; try (intros f Hf; congruence).
    all: intros f Hf; assert (f = first) as -> by congruence; done.
  - intros H. destruct v as [| | | | | | | | | |[x|]]; try (apply conforms_nothing; [done|auto]; fail).
    all: destruct (type_first t) as [first|] eqn:Ef; [|by apply conforms_untyped].
    10: eapply conforms_inner; [done..|by apply H].
    all: eapply conforms_bare; [done..|by apply H].
Qed.
Lemma check_value_eq v t path : check_value index v t path =
  match type_kind t with
  | TypeRefKind.Any => schema_ok
  | TypeRefKind.Unit => if is_none v then schema_ok else schema_fail (at_path path "expected Unit but got a value")
  | TypeRefKind.Optional =>
      match v with
      | NoneValue | OptionalValue None => schema_ok
      | OptionalValue (Some inner) =>
          match type_first t with Some first => check_value index inner first path | None => schema_ok end
      | _ => match type_first t with Some first => check_value index v first path | None => schema_ok end
      end
  | TypeRefKind.Bool => expect (match v with BoolValue _ => true | _ => false end) v path "Bool"
  | TypeRefKind.Int => expect (match v with IntValue _ => true | _ => false end) v path "Int"
  | TypeRefKind.Float => expect (match v with FloatValue _ | IntValue _ => true | _ => false end) v path "Float"
  | TypeRefKind.String | TypeRefKind.BoundedString => expect (match v with StringValue _ => true | _ => false end) v path "String"
  | TypeRefKind.Decimal => expect (match v with DecimalValue _ | FloatValue _ | IntValue _ => true | _ => false end) v path "Decimal"
  | TypeRefKind.Duration => expect (match v with DurationValue _ => true | _ => false end) v path "Duration"
  | TypeRefKind.Struct =>
      match v with
      | StructValue name fields => check_struct index name (field_checks (check_value index) fields) t path
      | _ => expect false v path "Struct"
      end
  | TypeRefKind.Enum =>
      match v with EnumValue name variant => check_enum index name variant t path | _ => expect false v path "Enum" end
  | TypeRefKind.List | TypeRefKind.Set_ =>
      match v with
      | ListValue items =>
          match type_first t with
          | Some first => check_items (item_checks (check_value index) items) 0 first path
          | None => schema_ok
          end
      | _ => expect false v path "List/Set"
      end
  | TypeRefKind.Map => expect (match v with StructValue _ _ => true | _ => false end) v path "Map"
  | _ => schema_ok
  end.
Proof. by destruct v, t. Qed.
Lemma scalar_iff v t : (type_kind t ≠ TypeRefKind.Optional ∧ type_kind t ≠ TypeRefKind.Struct ∧ type_kind t ≠ TypeRefKind.Enum ∧
  type_kind t ≠ TypeRefKind.List ∧ type_kind t ≠ TypeRefKind.Set_) → conforms index v t ↔ scalar_conforms (type_kind t) v.
Proof.
  intros (?&?&?&?&?). split; [|by apply conforms_scalar]. intros H'. inversion H'; subst; try done.
  all: match goal with Hs : _ ∨ _ |- _ => by destruct Hs end.
Qed.
Lemma enum_decides name variant t path : type_kind t = TypeRefKind.Enum →
  schema_valid (check_enum index name variant t path) = true ↔ conforms index (EnumValue name variant) t.
Proof.
  intros Hk. unfold check_enum. transitivity (type_name_matches name t = true ∧
    ∀ decl, find_schema_enum index t = Some decl → variant ∈ enum_variants decl).
  - destruct (type_name_matches name t); cbn [negb]; [|naive_solver]. destruct (find_schema_enum index t) as [decl|]; [|naive_solver].
    case_bool_decide as Hv; split; try done.
    + intros _. split; [done|]. by intros d [= <-].
    + intros [_ Hd]. by destruct Hv; apply Hd.
  - split; [by intros [? ?]; apply conforms_enum|]. intros H. inversion H; subst; try congruence; try (by split).
    all: match goal with Hs : scalar_conforms _ _ |- _ => by rewrite Hk in Hs | Hs : _ ∨ _ |- _ => by destruct Hs end.
Qed.
(** A value of another kind than the one that a composite type asks for. *)
Lemma wrong_kind v t : (type_kind t = TypeRefKind.Struct ∧ value_kind v ≠ ValueKind.Struct) ∨
  (type_kind t = TypeRefKind.Enum ∧ value_kind v ≠ ValueKind.Enum) ∨
  ((type_kind t = TypeRefKind.List ∨ type_kind t = TypeRefKind.Set_) ∧ value_kind v ≠ ValueKind.List_) → ¬ conforms index v t.
Proof.
  intros Hk H. inversion H; subst; try (destruct Hk as [[Hk ?]|[[Hk ?]|[[Hk|Hk] ?]]]; first [congruence|done]; fail).
  - match goal with Hs : scalar_conforms _ _ |- _ => destruct Hk as [[Hk ?]|[[Hk ?]|[[Hk|Hk] ?]]]; by rewrite Hk in Hs end.
  - match goal with Hl : type_kind t = TypeRefKind.List ∨ _ |- _ => destruct Hl, Hk as [[Hk ?]|[[Hk ?]|[[Hk|Hk] ?]]]; first [congruence|done] end.
Qed.
Lemma type_first_induction (P : TypeRef → Prop) : (∀ t, (∀ first, type_first t = Some first → P first) → P t) → ∀ t, P t.
Proof.
  intros step. fix IH 1. intros t. apply step. destruct t as [? ? ? ? ? ? ? first ?]. cbn [type_first].
  destruct first as [first|]; [|clear IH; done]. pose proof (IH first) as Hp. clear IH. by intros f [= <-].
Qed.
Lemma check_value_decides v : decides (check_value index v) (conforms index v).
Proof.
  induction v as [v IHv] using value_induction. rewrite Forall_forall in IHv. unfold decides.
  induction t as [t IHt] using type_first_induction. intros path. rewrite check_value_eq.
  destruct (type_kind t) eqn:Hk; try (rewrite scalar_iff, Hk by (by rewrite Hk); rewrite ?expect_valid; by destruct v).
  - destruct v as [| | | | | | |name fields| | |]; try (rewrite expect_valid; split; [done|]; intros Hc; exfalso; revert Hc; apply wrong_kind; by left).
    by apply struct_decides.
  - destruct v as [| | | | | | | | |name variant|]; try (rewrite expect_valid; split; [done|]; intros Hc; exfalso; revert Hc; apply wrong_kind; right; by left).
    by apply enum_decides.
  - rewrite optional_iff by done. destruct v as [| | | | | | | | | |[x|]]; try done; destruct (type_first t) as [first|]; try done.
    all: try (rewrite (IHt first eq_refl); split; [intros ? ? [= <-]; done|auto]; fail).
    pose proof (IHv x (list_elem_of_here _ _) first path) as Hx. rewrite Hx. split; [by intros ? ? [= <-]|auto].
  - destruct v as [| | | | | | | |items| |]; try (rewrite expect_valid; split; [done|]; intros Hc; exfalso; revert Hc; apply wrong_kind; right; right; split; [auto|done]).
    destruct (type_first t) as [first|] eqn:Ef; [by apply items_decides; [left|..]|]. rewrite conforms_items_iff by auto. split; [intros _ f Hf; congruence|done].
  - destruct v as [| | | | | | | |items| |]; try (rewrite expect_valid; split; [done|]; intros Hc; exfalso; revert Hc; apply wrong_kind; right; right; split; [auto|done]).
    destruct (type_first t) as [first|] eqn:Ef; [by apply items_decides; [right|..]|]. rewrite conforms_items_iff by auto. split; [intros _ f Hf; congruence|done].
Qed.
End Decision.

(** C40: the validation of a value against a schema accepts exactly the values that
    conform to it; the path only appears in the message. *)
Theorem validate_value_against_schema_exact v t program :
  (schema_valid (validate_value_against_schema v t) = true ↔ conforms None v t) ∧
  (schema_valid (validate_value_against_program v t program) = true ↔ conforms (Some (rebuild program)) v t).
Proof. split; apply check_value_decides. Qed.
