(* ===== verification/Fingerprint.v ===== *)
(** * Fingerprints (response_cache.cpp, key_rotation.cpp of src/runtime/providers)

    The 64-bit FNV-1a hash of a text and its sixteen hexadecimal digits. *)
From S2P Require Import Prelude Numeric.
From Stdlib Require Import Ascii.
Open Scope Z_scope.
Open Scope ahfl_scope.

Definition fnv_offset : Z := 14695981039346656037.
Definition fnv_prime : Z := 1099511628211.
Definition char_value (c : ascii) : Z := Z.of_N (N_of_ascii c).
Definition fnv_step (hash : Z) (c : ascii) : Z := size_mul (Z.lxor hash (char_value c)) fnv_prime.
Fixpoint update_fnv1a (hash : Z) (bytes : string) : Z :=
  match bytes with
  | EmptyString => hash
  | String c bytes => update_fnv1a (fnv_step hash c) bytes
  end.
Definition fnv1a_hash (value : string) : Z := update_fnv1a fnv_offset value.

Definition hash_digit (d : Z) : ascii := ascii_of_N (Z.to_N (if d <? 10 then 48 + d else 87 + d)).
(** The loop from the last digit to the first. *)
Fixpoint hex_loop (n : nat) (value : Z) (output : string) : string :=
  match n with
  | O => output
  | S n => hex_loop n (Z.shiftr value 4) (String (hash_digit (Z.land value 15)) output)
  end.
Definition hex64 (value : Z) : string := hex_loop 16 value "".
(** [std::hex] with the width 16 and the fill ['0']: the same digits. *)
Definition hex_hash (value : Z) : string := hex64 value.

Lemma update_fnv1a_app h a b : update_fnv1a h (a +:+ b) = update_fnv1a (update_fnv1a h a) b.
Proof. revert h. induction a as [|c a IH]; intros h; [done|]. exact (IH (fnv_step h c)). Qed.
Lemma fnv1a_range h s : 0 ≤ h < 2 ^ 64 → 0 ≤ update_fnv1a h s < 2 ^ 64.
Proof. revert h. induction s as [|c s IH]; intros h Hh; [done|]. apply IH. apply Z.mod_pos_bound. lia. Qed.
Lemma fnv1a_hash_range s : 0 ≤ fnv1a_hash s < 2 ^ 64.
Proof. apply fnv1a_range. by vm_compute. Qed.

Lemma hash_digit_inj a b : 0 ≤ a < 16 → 0 ≤ b < 16 → hash_digit a = hash_digit b → a = b.
Proof.
  intros Ha Hb H. assert (Hall : ∀ a b, a ∈ seqZ 0 16 → b ∈ seqZ 0 16 → hash_digit a = hash_digit b → a = b).
  { intros x y Hx Hy. assert (HF : Forall (λ x, Forall (λ y, hash_digit x = hash_digit y → x = y) (seqZ 0 16)) (seqZ 0 16)).
    { apply (bool_decide_unpack _). by vm_compute. }
    rewrite Forall_forall in HF. specialize (HF x Hx). rewrite Forall_forall in HF. by apply HF. }
  apply Hall; [apply elem_of_seqZ; lia..|done].
Qed.
Lemma text_app_inj a b c d : String.length a = String.length c → a +:+ b = c +:+ d → a = c ∧ b = d.
Proof.
  revert c. induction a as [|x a IH]; intros [|y c] Hl; try done. intros [= -> H]. injection Hl as Hl.
  by destruct (IH c Hl H) as [-> ->].
Qed.
Fixpoint hex_text (n : nat) (value : Z) : string :=
  match n with
  | O => ""
  | S n => hex_text n (Z.shiftr value 4) +:+ String (hash_digit (Z.land value 15)) ""
  end.
Lemma text_assoc (a b c : string) : (a +:+ b) +:+ c = a +:+ (b +:+ c).
Proof. induction a as [|x a IH]; [done|]. exact (f_equal (String x) IH). Qed.
Lemma hex_loop_text n v out : hex_loop n v out = hex_text n v +:+ out.
Proof. revert v out. induction n as [|n IH]; intros v out; [done|]. cbn [hex_loop hex_text]. rewrite IH, text_assoc. done. Qed.
Lemma text_length (a b : string) : String.length (a +:+ b) = (String.length a + String.length b)%nat.
Proof. induction a as [|x a IH]; [done|]. exact (f_equal S IH). Qed.
Lemma length_hex_text n v : String.length (hex_text n v) = n.
Proof. revert v. induction n as [|n IH]; intros v; [done|]. cbn [hex_text]. rewrite text_length, IH. cbn. lia. Qed.
Lemma hex_text_inj n a b : 0 ≤ a < 16 ^ Z.of_nat n → 0 ≤ b < 16 ^ Z.of_nat n → hex_text n a = hex_text n b → a = b.
Proof.
  revert a b. induction n as [|n IH]; intros a b Ha Hb H; [cbn in Ha, Hb; lia|]. cbn [hex_text] in H.
  rewrite Nat2Z.inj_succ, Z.pow_succ_r in Ha, Hb by lia. rewrite !Z.shiftr_div_pow2 in H by lia.
  change 15 with (Z.ones 4) in H. rewrite !Z.land_ones in H by lia. change (2 ^ 4) with 16 in H.
  apply text_app_inj in H as [H1 H2]; [|by rewrite !length_hex_text]. injection H2 as H2. apply IH in H1.
  - apply hash_digit_inj in H2; [|apply Z.mod_pos_bound; lia..]. rewrite (Z.div_mod a 16), (Z.div_mod b 16) by lia. lia.
  - split; [apply Z.div_pos; lia|]. apply Z.div_lt_upper_bound; lia.
  - split; [apply Z.div_pos; lia|]. apply Z.div_lt_upper_bound; lia.
Qed.
(** Different hashes have different fingerprints. *)
Lemma hex64_inj a b : 0 ≤ a < 2 ^ 64 → 0 ≤ b < 2 ^ 64 → hex64 a = hex64 b → a = b.
Proof.
  intros Ha Hb. unfold hex64. rewrite !hex_loop_text. intros [H _]%text_app_inj; [|by rewrite !length_hex_text].
  by apply hex_text_inj in H.
Qed.
