(* ===== verification/ResponseCache.v ===== *)
(** * The response cache (src/runtime/providers/llm/response_cache.{hpp,cpp})

    Responses of a model by the fingerprint of the prompt, with a capacity and
    a time to live.  Every operation holds the mutex and is one step.  Steady
    time is in nanoseconds, system time and the time to live in seconds.  A
    cache is a queue: [queue] is the abstract view that the operations follow. *)
From S2P Require Import Prelude Numeric CapabilityBridge Fingerprint.
From Stdlib Require Import Ascii.
Open Scope Z_scope.
Open Scope ahfl_scope.

Definition kResponseCacheKeyVersion : string := "ahfl.llm.response-cache-key.v1".
Definition nul_text : string := String "000"%char "".
Definition response_cache_key_fingerprint (model system user : string) : string :=
  let hash := update_fnv1a fnv_offset kResponseCacheKeyVersion in
  let hash := update_fnv1a hash nul_text in
  let hash := update_fnv1a hash model in
  let hash := update_fnv1a hash nul_text in
  let hash := update_fnv1a hash system in
  let hash := update_fnv1a hash nul_text in
  let hash := update_fnv1a hash user in
  hex64 hash.

Record ResponseCacheSnapshotEntry := mkCacheSnapshot {
  snap_key_fingerprint : string; snap_response : string; snap_inserted_unix_seconds : Z }.
Record CacheEntry := mkCacheEntry { ce_response : string; ce_inserted_at : Z; ce_inserted_unix_seconds : Z }.
Record ResponseCache := mkCache {
  rc_max_entries : Z;
  rc_ttl : Z;
  rc_entries : gmap string CacheEntry;
  rc_insertion_order : list string }.
Definition new_cache (max_entries ttl : Z) : ResponseCache := mkCache max_entries ttl ∅ [].
Definition with_entries (c : ResponseCache) (entries : gmap string CacheEntry) (order : list string) : ResponseCache :=
  mkCache (rc_max_entries c) (rc_ttl c) entries order.

(** [now - inserted_at > ttl_], in nanoseconds. *)
Definition expired (ttl now : Z) (e : CacheEntry) : cxx bool :=
  age ← int64_sub now (ce_inserted_at e);
  limit ← int64_mul ttl ns_per_second;
  Ret (limit <? age).
(** [std::remove(insertion_order_, key)] *)
Definition remove_key (key : string) (order : list string) : list string := base.filter (λ k, k ≠ key) order.
Fixpoint evict_loop (max_entries : Z) (entries : gmap string CacheEntry) (order : list string)
    : gmap string CacheEntry * list string :=
  match order with
  | [] => (entries, [])
  | oldest_key :: rest =>
      if max_entries <? Z.of_nat (size entries) then evict_loop max_entries (delete oldest_key entries) rest
      else (entries, order)
  end.
Definition evict_to_capacity_locked (c : ResponseCache) : ResponseCache :=
  let '(entries, order) := evict_loop (rc_max_entries c) (rc_entries c) (rc_insertion_order c) in with_entries c entries order.
(** The loop over the map, in any order of its keys. *)
Fixpoint prune_expired_locked (now : Z) (keys : list string) (c : ResponseCache) : cxx ResponseCache :=
  match keys with
  | [] => Ret c
  | key :: keys =>
      match rc_entries c !! key with
      | None => prune_expired_locked now keys c
      | Some e =>
          late ← expired (rc_ttl c) now e;
          prune_expired_locked now keys
            (if (late : bool) then with_entries c (delete key (rc_entries c)) (remove_key key (rc_insertion_order c)) else c)
      end
  end.
Definition cache_lookup (key : string) (now : Z) (c : ResponseCache) : cxx (option string * ResponseCache) :=
  match rc_entries c !! key with
  | None => Ret (None, c)
  | Some e =>
      late ← expired (rc_ttl c) now e;
      Ret (if (late : bool) then (None, with_entries c (delete key (rc_entries c)) (remove_key key (rc_insertion_order c)))
           else (Some (ce_response e), c))
  end.
Definition cache_get (model system user : string) (now : Z) (c : ResponseCache) : cxx (option string * ResponseCache) :=
  cache_lookup (response_cache_key_fingerprint model system user) now c.
(** The entry of a key: an existing one keeps its place in the order. *)
Definition set_entry (key : string) (e : CacheEntry) (c : ResponseCache) : ResponseCache :=
  with_entries c (<[key := e]> (rc_entries c))
    (match rc_entries c !! key with Some _ => rc_insertion_order c | None => rc_insertion_order c ++ [key] end).
Definition cache_put (model system user response : string) (now unix_now : Z) (c : ResponseCache) : ResponseCache :=
  evict_to_capacity_locked
    (set_entry (response_cache_key_fingerprint model system user) (mkCacheEntry response now unix_now) c).
Definition cache_size (c : ResponseCache) : nat := size (rc_entries c).
Fixpoint cache_snapshot_loop (ttl now : Z) (entries : gmap string CacheEntry) (order : list string)
    : cxx (list ResponseCacheSnapshotEntry) :=
  match order with
  | [] => Ret []
  | key :: order =>
      match entries !! key with
      | None => cache_snapshot_loop ttl now entries order
      | Some e =>
          late ← expired ttl now e;
          rest ← cache_snapshot_loop ttl now entries order;
          Ret (if (late : bool) then rest else mkCacheSnapshot key (ce_response e) (ce_inserted_unix_seconds e) :: rest)
      end
  end.
Definition cache_snapshot (now : Z) (c : ResponseCache) : cxx (list ResponseCacheSnapshotEntry) :=
  cache_snapshot_loop (rc_ttl c) now (rc_entries c) (rc_insertion_order c).
(** One entry of the snapshot: whether it is loaded. *)
Definition load_entry (steady_now epoch_now : Z) (c : ResponseCache) (x : ResponseCacheSnapshotEntry) : cxx (option ResponseCache) :=
  if bool_decide (snap_key_fingerprint x = "") || bool_decide (snap_response x = "") then Ret None
  else
    age ← int64_sub epoch_now (snap_inserted_unix_seconds x);
    if (age <? 0) || (rc_ttl c <? age) then Ret None
    else
      nanoseconds ← int64_mul age ns_per_second;
      inserted_at ← int64_sub steady_now nanoseconds;
      Ret (Some (set_entry (snap_key_fingerprint x) (mkCacheEntry (snap_response x) inserted_at (snap_inserted_unix_seconds x)) c)).
Fixpoint load_loop (steady_now epoch_now : Z) (entries : list ResponseCacheSnapshotEntry) (loaded : nat) (c : ResponseCache)
    : cxx (nat * ResponseCache) :=
  match entries with
  | [] => Ret (loaded, c)
  | x :: entries =>
      r ← load_entry steady_now epoch_now c x;
      match r with
      | Some c => load_loop steady_now epoch_now entries (S loaded) c
      | None => load_loop steady_now epoch_now entries loaded c
      end
  end.
Definition cache_load_snapshot (steady_now epoch_now : Z) (entries : list ResponseCacheSnapshotEntry) (c : ResponseCache)
    : cxx (nat * ResponseCache) :=
  r ← load_loop steady_now epoch_now entries 0 c;
  Ret (r.1, evict_to_capacity_locked r.2).
Definition cache_clear (c : ResponseCache) : ResponseCache := with_entries c ∅ [].

(** ** The response cache is a bounded queue

    Every sequence of operations gives the results of a queue of keys with
    their entries: a new key goes to the end, an existing one keeps its place,
    and the front leaves when the capacity is exceeded. *)
Open Scope nat_scope.

(** ** Queues *)
Abbreviation queue_t := (list (string * CacheEntry)).
Definition q_find (k : string) (q : queue_t) : option CacheEntry := snd <$> head (base.filter (λ p, p.1 = k) q).
Definition q_remove (k : string) (q : queue_t) : queue_t := base.filter (λ p, p.1 ≠ k) q.
Definition q_set (k : string) (e : CacheEntry) (q : queue_t) : queue_t :=
  if bool_decide (k ∈ q.*1) then (λ p, if bool_decide (p.1 = k) then (k, e) else p) <$> q else q ++ [(k, e)].
Definition q_trim (n : nat) (q : queue_t) : queue_t := drop (length q - n) q.
(** The queue of a cache. *)
Definition entries_in (entries : gmap string CacheEntry) (order : list string) : queue_t := omap (λ k, pair k <$> entries !! k) order.
Definition queue (c : ResponseCache) : queue_t := entries_in (rc_entries c) (rc_insertion_order c).
Definition consistent (entries : gmap string CacheEntry) (order : list string) : Prop :=
  NoDup order ∧ ∀ k, k ∈ order ↔ is_Some (entries !! k).
Record cache_ok (c : ResponseCache) : Prop := {
  ck_consistent : consistent (rc_entries c) (rc_insertion_order c);
  ck_bound : size (rc_entries c) ≤ Z.to_nat (rc_max_entries c);
  ck_max : (0 ≤ rc_max_entries c)%Z }.

Lemma entries_in_names entries order : (∀ k, k ∈ order → is_Some (entries !! k)) → (entries_in entries order).*1 = order.
Proof.
  intros H. induction order as [|k order IH]; [done|]. unfold entries_in. cbn [omap list_omap].
  destruct (H k) as [e He]; [left|]. rewrite He. cbn. f_equal. apply IH. intros x Hx. apply H. by right.
Qed.
Lemma queue_names c : consistent (rc_entries c) (rc_insertion_order c) → (queue c).*1 = rc_insertion_order c.
Proof. intros [_ H]. apply entries_in_names. intros k. apply H. Qed.
Lemma entries_in_find entries order k : k ∈ order → q_find k (entries_in entries order) = entries !! k.
Proof.
  intros Hk. induction order as [|x order IH]; [by apply elem_of_nil in Hk|]. unfold entries_in. cbn [omap list_omap].
  destruct (decide (x = k)) as [->|Hne].
  - destruct (entries !! k) as [e|] eqn:E; cbn [fmap option_fmap option_map].
    + unfold q_find. by rewrite filter_cons, decide_True.
    + unfold q_find. destruct (base.filter _ _) as [|p l] eqn:Ef; [done|]. exfalso.
      assert (Hp : p ∈ base.filter (λ p : string * CacheEntry, p.1 = k) (omap (λ k, pair k <$> entries !! k) order)) by (rewrite Ef; left).
      apply list_elem_of_filter in Hp as [Hpk (y & Hy & Hp)%list_elem_of_omap].
      destruct (entries !! y) as [e|] eqn:Ey; [|done]. injection Hp as <-. cbn in Hpk. congruence.
  - apply elem_of_cons in Hk as [->|Hk]; [done|]. destruct (entries !! x) as [e|]; cbn [fmap option_fmap option_map]; [|by apply IH].
    unfold q_find. rewrite filter_cons, decide_False by done. by apply IH.
Qed.
Lemma queue_find c k : consistent (rc_entries c) (rc_insertion_order c) → q_find k (queue c) = rc_entries c !! k.
Proof.
  intros [Hnd H]. destruct (decide (k ∈ rc_insertion_order c)) as [Hk|Hk]; [by apply entries_in_find|].
  destruct (rc_entries c !! k) as [e|] eqn:E; [destruct Hk; apply H; by rewrite E|].
  unfold q_find. destruct (head _) as [p|] eqn:Ep; [|done]. exfalso.
  assert (Hp : p ∈ base.filter (λ p, p.1 = k) (queue c)) by (destruct (base.filter _ _); [done|]; injection Ep as ->; left).
  apply list_elem_of_filter in Hp as [<- Hin]. apply Hk. rewrite <-(queue_names c) by done. by apply list_elem_of_fmap_2.
Qed.
Lemma consistent_size entries order : consistent entries order → size entries = length order.
Proof.
  intros [Hnd H]. rewrite <-size_dom. assert (Hd : dom entries = list_to_set order).
  { apply set_eq. intros k. by rewrite elem_of_dom, elem_of_list_to_set, H. }
  rewrite Hd. by apply size_list_to_set.
Qed.
Lemma entries_in_ext e e' order : (∀ k, k ∈ order → e !! k = e' !! k) → entries_in e order = entries_in e' order.
Proof.
  intros H. induction order as [|k order IH]; [done|]. unfold entries_in. cbn [omap list_omap]. rewrite (H k) by left.
  unfold entries_in in IH. rewrite IH by (intros; apply H; by right). done.
Qed.
Lemma entries_in_drop e order n : (∀ k, k ∈ order → is_Some (e !! k)) → entries_in e (drop n order) = drop n (entries_in e order).
Proof.
  revert order. induction n as [|n IH]; intros [|k order] H; [done..|]. unfold entries_in. cbn [drop omap list_omap].
  destruct (H k) as [x Hx]; [left|]. rewrite Hx. cbn [fmap option_fmap option_map drop]. apply IH. intros y Hy. apply H. by right.
Qed.

(** ** The operations *)
Lemma evict_loop_spec max entries order : consistent entries order → (0 ≤ max)%Z →
  ∃ entries', evict_loop max entries order = (entries', drop (length order - Z.to_nat max) order) ∧
    consistent entries' (drop (length order - Z.to_nat max) order) ∧
    ∀ k, k ∈ drop (length order - Z.to_nat max) order → entries' !! k = entries !! k.
Proof.
  intros Hc Hm. revert entries Hc. induction order as [|k order IH]; intros entries Hc; cbn [evict_loop].
  - exists entries. rewrite drop_nil. by split_and!.
  - pose proof (consistent_size _ _ Hc) as Hs. destruct (Z.ltb_spec max (Z.of_nat (size entries))) as [Hlt|Hge].
    + destruct Hc as [[Hk Hnd]%NoDup_cons Hiff]. destruct (IH (delete k entries)) as (e' & He & Hc' & Hl).
      { split; [done|]. intros x. rewrite lookup_delete_is_Some, <-Hiff, elem_of_cons. naive_solver. }
      cbn [length] in *. assert (Heq : S (length order) - Z.to_nat max = S (length order - Z.to_nat max)) by lia.
      rewrite Heq. cbn [drop]. exists e'. split_and!; [done..|]. intros x Hx. rewrite Hl by done. apply lookup_delete_ne.
      intros ->. apply Hk. rewrite <-(take_drop (length order - Z.to_nat max) order). apply elem_of_app. by right.
    + exists entries. assert (Heq : length (k :: order) - Z.to_nat max = 0) by lia. rewrite Heq. cbn [drop]. by split_and!.
Qed.
Lemma trimmed c : consistent (rc_entries c) (rc_insertion_order c) → (0 ≤ rc_max_entries c)%Z →
  let c' := evict_to_capacity_locked c in
  cache_ok c' ∧ queue c' = q_trim (Z.to_nat (rc_max_entries c)) (queue c) ∧ rc_max_entries c' = rc_max_entries c ∧ rc_ttl c' = rc_ttl c.
Proof.
  intros Hc Hm. cbv zeta. unfold evict_to_capacity_locked. destruct (evict_loop_spec _ _ _ Hc Hm) as (e & -> & Hc' & Hl).
  split; [|split; [|done]].
  - split; cbn; [done| |done]. rewrite (consistent_size _ _ Hc'), length_drop. lia.
  - unfold queue, q_trim. cbn [with_entries rc_entries rc_insertion_order]. rewrite (entries_in_ext _ _ _ Hl), entries_in_drop by apply Hc.
    f_equal. f_equal. rewrite <-(length_fmap fst (entries_in _ _)), entries_in_names by apply Hc. done.
Qed.
Lemma set_entry_spec key e c : consistent (rc_entries c) (rc_insertion_order c) →
  consistent (rc_entries (set_entry key e c)) (rc_insertion_order (set_entry key e c)) ∧ queue (set_entry key e c) = q_set key e (queue c).
Proof.
  intros Hc. pose proof Hc as [Hnd H]. unfold set_entry, queue, q_set. cbn [with_entries rc_entries rc_insertion_order].
  fold (queue c). rewrite (queue_names c Hc). destruct (rc_entries c !! key) as [old|] eqn:E.
  - assert (Hk : key ∈ rc_insertion_order c) by (apply H; by rewrite E). rewrite bool_decide_eq_true_2 by done. split.
    + split; [done|]. intros k. rewrite lookup_insert_is_Some, <-H. split; [intros ?; destruct (decide (key = k)); auto|]. intros [<-|[_ ?]]; done.
    + unfold queue, entries_in. rewrite list_fmap_omap. apply list_omap_ext. apply Forall2_same_length_lookup. split; [done|].
      intros i x y Hx Hy. assert (x = y) as -> by congruence. cbn. destruct (decide (key = y)) as [->|Hne].
      * rewrite lookup_insert_eq, E. cbn. by rewrite bool_decide_eq_true_2.
      * rewrite lookup_insert_ne by done. destruct (rc_entries c !! y); cbn; [|done]. by rewrite bool_decide_eq_false_2.
  - assert (Hk : key ∉ rc_insertion_order c) by (rewrite H, E; by intros [? ?]). rewrite bool_decide_eq_false_2 by done. split.
    + split; [apply NoDup_app; split_and!; [done| |apply NoDup_singleton]; by intros x Hx ->%list_elem_of_singleton|].
      intros k. rewrite elem_of_app, list_elem_of_singleton, lookup_insert_is_Some, H. destruct (decide (key = k)); naive_solver.
    + unfold queue, entries_in. rewrite omap_app. cbn. rewrite lookup_insert_eq. cbn. f_equal.
      apply (entries_in_ext (<[key:=e]> (rc_entries c)) (rc_entries c)). intros k Hk'. apply lookup_insert_ne. by intros ->.
Qed.

(** ** Runs *)
Inductive CacheOp :=
  | OpGet (model system user : string) (now : Z)
  | OpPut (model system user response : string) (now unix_now : Z)
  | OpSize
  | OpSnapshot (now : Z)
  | OpLoad (steady_now epoch_now : Z) (entries : list ResponseCacheSnapshotEntry)
  | OpClear.
Inductive CacheOut := OutGet (r : option string) | OutNone | OutSize (n : nat) | OutSnapshot (l : list ResponseCacheSnapshotEntry)
  | OutLoaded (n : nat).
Definition cache_step (op : CacheOp) (c : ResponseCache) : cxx (CacheOut * ResponseCache) :=
  match op with
  | OpGet model system user now => r ← cache_get model system user now c; Ret (OutGet r.1, r.2)
  | OpPut model system user response now unix_now => Ret (OutNone, cache_put model system user response now unix_now c)
  | OpSize => Ret (OutSize (cache_size c), c)
  | OpSnapshot now => l ← cache_snapshot now c; Ret (OutSnapshot l, c)
  | OpLoad steady_now epoch_now entries => r ← cache_load_snapshot steady_now epoch_now entries c; Ret (OutLoaded r.1, r.2)
  | OpClear => Ret (OutNone, cache_clear c)
  end.
(** The same operations on a queue. *)
Section Queue.
Context (max : nat) (ttl : Z).
Definition q_get (key : string) (now : Z) (q : queue_t) : cxx (option string * queue_t) :=
  match q_find key q with
  | None => Ret (None, q)
  | Some e => late ← expired ttl now e; Ret (if (late : bool) then (None, q_remove key q) else (Some (ce_response e), q))
  end.
Fixpoint q_snapshot (now : Z) (q : queue_t) : cxx (list ResponseCacheSnapshotEntry) :=
  match q with
  | [] => Ret []
  | p :: q =>
      late ← expired ttl now p.2; rest ← q_snapshot now q;
      Ret (if (late : bool) then rest else mkCacheSnapshot p.1 (ce_response p.2) (ce_inserted_unix_seconds p.2) :: rest)
  end.
(** The entry that a snapshot's entry becomes: not older than the time to live. *)
Definition loaded_entry (steady_now epoch_now : Z) (x : ResponseCacheSnapshotEntry) : cxx (option CacheEntry) :=
  if bool_decide (snap_key_fingerprint x = "") || bool_decide (snap_response x = "") then Ret None
  else
    age ← int64_sub epoch_now (snap_inserted_unix_seconds x);
    if ((age <? 0) || (ttl <? age))%Z then Ret None
    else
      nanoseconds ← int64_mul age ns_per_second;
      inserted_at ← int64_sub steady_now nanoseconds;
      Ret (Some (mkCacheEntry (snap_response x) inserted_at (snap_inserted_unix_seconds x))).
Fixpoint q_load (steady_now epoch_now : Z) (entries : list ResponseCacheSnapshotEntry) (loaded : nat) (q : queue_t) : cxx (nat * queue_t) :=
  match entries with
  | [] => Ret (loaded, q)
  | x :: entries =>
      r ← loaded_entry steady_now epoch_now x;
      match r with
      | Some e => q_load steady_now epoch_now entries (S loaded) (q_set (snap_key_fingerprint x) e q)
      | None => q_load steady_now epoch_now entries loaded q
      end
  end.
Definition queue_step (op : CacheOp) (q : queue_t) : cxx (CacheOut * queue_t) :=
  match op with
  | OpGet model system user now => r ← q_get (response_cache_key_fingerprint model system user) now q; Ret (OutGet r.1, r.2)
  | OpPut model system user response now unix_now =>
      Ret (OutNone, q_trim max (q_set (response_cache_key_fingerprint model system user) (mkCacheEntry response now unix_now) q))
  | OpSize => Ret (OutSize (length q), q)
  | OpSnapshot now => l ← q_snapshot now q; Ret (OutSnapshot l, q)
  | OpLoad steady_now epoch_now entries => r ← q_load steady_now epoch_now entries 0 q; Ret (OutLoaded r.1, q_trim max r.2)
  | OpClear => Ret (OutNone, [])
  end.
End Queue.
Fixpoint run_ops {S} (step : CacheOp → S → cxx (CacheOut * S)) (ops : list CacheOp) (s : S) : cxx (list CacheOut * S) :=
  match ops with
  | [] => Ret ([], s)
  | op :: ops => r ← step op s; rest ← run_ops step ops r.2; Ret (r.1 :: rest.1, rest.2)
  end.
(** [m] and [m'] do the same, up to the queue of the cache. *)
Definition agree {A} (max : nat) (ttl : Z) (m : cxx (A * ResponseCache)) (m' : cxx (A * queue_t)) : Prop :=
  match m, m' with
  | Ret (a, c), Ret (a', q) => a = a' ∧ queue c = q ∧ cache_ok c ∧ rc_max_entries c = Z.of_nat max ∧ rc_ttl c = ttl
  | UB, UB => True
  | _, _ => False
  end.
Lemma expired_fuel ttl now e : expired ttl now e ≠ NoFuel.
Proof. unfold expired, int64_sub, int64_mul, int64_of. repeat (case_match; cbn [mbind cxx_bind]); done. Qed.
Lemma q_snapshot_fuel ttl now q : q_snapshot ttl now q ≠ NoFuel.
Proof.
  induction q as [|p q IH]; cbn [q_snapshot]; [done|]. pose proof (expired_fuel ttl now p.2).
  destruct (expired ttl now p.2); cbn [mbind cxx_bind]; try done. by destruct (q_snapshot ttl now q).
Qed.
Lemma loaded_entry_fuel ttl steady epoch x : loaded_entry ttl steady epoch x ≠ NoFuel.
Proof. unfold loaded_entry, int64_sub, int64_mul, int64_of. repeat (case_match; cbn [mbind cxx_bind]); done. Qed.
Section Refinement.
Context (max : nat) (ttl : Z).
Definition holds (c : ResponseCache) : Prop := cache_ok c ∧ rc_max_entries c = Z.of_nat max ∧ rc_ttl c = ttl.
Lemma remove_spec key c : holds c → rc_entries c !! key ≠ None →
  let c' := with_entries c (delete key (rc_entries c)) (remove_key key (rc_insertion_order c)) in holds c' ∧ queue c' = q_remove key (queue c).
Proof.
  intros [[[Hnd H] Hb Hm] [Hmax Httl]] Hsome. cbv zeta. split; [split; [split|split]|]; cbn; try done.
  - split; [by apply NoDup_filter|]. intros k. unfold remove_key. rewrite list_elem_of_filter, lookup_delete_is_Some, H. naive_solver.
  - rewrite map_size_delete. destruct (rc_entries c !! key); [lia|done].
  - unfold queue, q_remove, remove_key, entries_in. cbn [with_entries rc_entries rc_insertion_order]. clear H Hb Hnd.
    induction (rc_insertion_order c) as [|k order IH]; [done|]. rewrite filter_cons. cbn [omap list_omap].
    case_decide as Hk.
    + cbn [omap list_omap]. rewrite lookup_delete_ne by done. destruct (rc_entries c !! k); cbn [fmap option_fmap option_map]; [|exact IH].
      rewrite filter_cons, decide_True by done. by f_equal.
    + assert (k = key) as -> by (destruct (decide (k = key)); tauto). destruct (rc_entries c !! key); cbn [fmap option_fmap option_map]; [|exact IH].
      rewrite filter_cons, decide_False by (cbn; tauto). exact IH.
Qed.
Lemma get_agrees key now c : holds c → agree max ttl (cache_lookup key now c) (q_get ttl key now (queue c)).
Proof.
  intros Hc. pose proof Hc as [[Hcons _ _] [Hmax Httl]]. unfold cache_lookup, q_get. rewrite (queue_find c key Hcons).
  destruct (rc_entries c !! key) as [e|] eqn:E; [|cbn; split_and!; [done..|apply Hc|done|done]]. rewrite Httl.
  pose proof (expired_fuel ttl now e). destruct (expired ttl now e) as [late| |]; cbn [mbind cxx_bind agree]; try done. destruct late.
  - destruct (remove_spec key c Hc) as [(?&?&?) Hq]; [by rewrite E|]. by split_and!.
  - by destruct Hc as (?&?&?).
Qed.
Lemma snapshot_agrees now c : holds c → cache_snapshot now c = q_snapshot ttl now (queue c).
Proof.
  intros [[[_ H] _ _] [_ Httl]]. unfold cache_snapshot, queue, entries_in. rewrite Httl.
  assert (Hin : ∀ k, k ∈ rc_insertion_order c → is_Some (rc_entries c !! k)) by (intros; by apply H). clear H Httl.
  induction (rc_insertion_order c) as [|k order IH]; [done|]. cbn [cache_snapshot_loop omap list_omap].
  destruct (Hin k) as [e He]; [left|]. rewrite He. cbn [fmap option_fmap option_map q_snapshot fst snd].
  rewrite IH by (intros; apply Hin; by right). done.
Qed.
Definition loading (c : ResponseCache) : Prop :=
  consistent (rc_entries c) (rc_insertion_order c) ∧ rc_max_entries c = Z.of_nat max ∧ rc_ttl c = ttl.
Lemma load_agrees steady epoch entries n c : loading c →
  match load_loop steady epoch entries n c, q_load ttl steady epoch entries n (queue c) with
  | Ret (a, c'), Ret (a', q) => a = a' ∧ queue c' = q ∧ loading c'
  | UB, UB => True
  | _, _ => False
  end.
Proof.
  revert n c. induction entries as [|x entries IH]; intros n c Hc; cbn [load_loop q_load]; [done|].
  pose proof Hc as (Hcons & Hmax & Httl).
  assert (Hstep : load_entry steady epoch c x = (r ← loaded_entry ttl steady epoch x;
    Ret (match r with Some e => Some (set_entry (snap_key_fingerprint x) e c) | None => None end))).
  { unfold load_entry, loaded_entry. rewrite Httl. destruct (_ || _); [done|]. destruct (int64_sub epoch _) as [age| |]; cbn [mbind cxx_bind]; try done.
    destruct ((age <? 0)%Z || (ttl <? age)%Z); [done|]. destruct (int64_mul _ _) as [ns| |]; cbn [mbind cxx_bind]; try done.
    by destruct (int64_sub steady ns). }
  rewrite Hstep. pose proof (loaded_entry_fuel ttl steady epoch x). destruct (loaded_entry ttl steady epoch x) as [[e|]| |]; cbn [mbind cxx_bind fmap option_fmap option_map]; try done.
  - destruct (set_entry_spec (snap_key_fingerprint x) e c Hcons) as [Hc' Hq]. rewrite <-Hq. apply IH. by split_and!.
  - by apply IH.
Qed.
Lemma trimmed_holds c : loading c → holds (evict_to_capacity_locked c) ∧ queue (evict_to_capacity_locked c) = q_trim max (queue c).
Proof.
  intros (Hc & Hmax & Httl). destruct (trimmed c Hc) as (Hok & Hq & Hm & Ht); [lia|]. split; [split; [done|by rewrite Hm, Ht]|].
  by rewrite Hq, Hmax, Nat2Z.id.
Qed.
Lemma step_agrees op c : holds c → agree max ttl (cache_step op c) (queue_step max ttl op (queue c)).
Proof.
  intros Hc. pose proof Hc as [Hok [Hmax Httl]].
  destruct op as [model system user now|model system user response now unix_now| |now|steady epoch entries|]; cbn [cache_step queue_step].
  - pose proof (get_agrees (response_cache_key_fingerprint model system user) now c Hc) as Hg. unfold cache_get.
    destruct (cache_lookup _ now c) as [[r c']| |], (q_get ttl _ now (queue c)) as [[r' q]| |]; cbn in *; try done.
    destruct Hg as (-> & ? & ? & ? & ?). by split_and!.
  - unfold cache_put. destruct (set_entry_spec (response_cache_key_fingerprint model system user) (mkCacheEntry response now unix_now) c) as [Hs Hq];
      [apply Hok|]. rewrite <-Hq. destruct (trimmed_holds (set_entry (response_cache_key_fingerprint model system user) (mkCacheEntry response now unix_now) c))
      as [(?&?&?) Ht]; [by split_and!|]. cbn. by split_and!.
  - cbn. split_and!; [|done..]. unfold cache_size. rewrite (consistent_size _ _ (ck_consistent _ Hok)).
    by rewrite <-(length_fmap fst (queue c)), (queue_names c) by apply Hok.
  - rewrite (snapshot_agrees now c Hc). pose proof (q_snapshot_fuel ttl now (queue c)). destruct (q_snapshot ttl now (queue c)); cbn; try done.
  - pose proof (load_agrees steady epoch entries 0 c) as Hl. unfold cache_load_snapshot.
    destruct (load_loop steady epoch entries 0 c) as [[n c']| |], (q_load ttl steady epoch entries 0 (queue c)) as [[n' q]| |]; cbn in *;
      try done; try (exfalso; apply Hl; split_and!; [apply Hok|done..]).
    destruct Hl as (-> & <- & Hl); [split_and!; [apply Hok|done..]|]. destruct (trimmed_holds c' Hl) as [(?&?&?) Ht]. by split_and!.
  - cbn. split_and!; try done. split; cbn; [split; [apply NoDup_nil_2|]|rewrite map_size_empty; lia|apply Hok]. intros k. rewrite lookup_empty, elem_of_nil. split; [done|by intros [? ?]].
Qed.
Lemma run_agrees ops c : holds c → agree max ttl (run_ops cache_step ops c) (run_ops (queue_step max ttl) ops (queue c)).
Proof.
  revert c. induction ops as [|op ops IH]; intros c Hc; cbn [run_ops].
  { destruct Hc as (?&?&?). by split_and!. }
  pose proof (step_agrees op c Hc) as Hs.
  destruct (cache_step op c) as [[o c']| |], (queue_step max ttl op (queue c)) as [[o' q]| |]; cbn in *; try done.
  destruct Hs as (-> & <- & Hc'). specialize (IH c' Hc').
  destruct (run_ops cache_step ops c') as [[l c'']| |], (run_ops (queue_step max ttl) ops (queue c')) as [[l' q]| |]; cbn in *; try done.
  destruct IH as (-> & ?). by split.
Qed.
End Refinement.

(** ** Examples *)
Definition cache_outs (max : nat) (ops : list CacheOp) : cxx (list CacheOut) :=
  r ← run_ops cache_step ops (new_cache (Z.of_nat max) 300); Ret r.1.
(** the entry that was just read leaves before a younger one that was not: the
    cache keeps the order of insertion, not of use. *)
Example oldest_leaves_although_used :
  cache_outs 2 [OpPut "m" "s" "a" "1" 0 0; OpPut "m" "s" "b" "2" 0 0; OpGet "m" "s" "a" 0; OpPut "m" "s" "c" "3" 0 0;
    OpGet "m" "s" "a" 0; OpGet "m" "s" "b" 0] =
  Ret [OutNone; OutNone; OutGet (Some "1"); OutNone; OutGet None; OutGet (Some "2")].
Proof. by vm_compute. Qed.
(** the separator of the parts of a key may occur in the parts: two prompts
    share a fingerprint, and the second one gets the response of the first. *)
Example response_of_another_prompt :
  cache_outs 2 [OpPut "m" ("s" +:+ nul_text +:+ "t") "u" "first" 0 0; OpGet "m" "s" ("t" +:+ nul_text +:+ "u") 0] =
  Ret [OutNone; OutGet (Some "first")].
Proof. by vm_compute. Qed.
