(* ===== verification/Pool.v ===== *)
(** * Connection pool (src/runtime/engine/connection_pool.{hpp,cpp})

    The pool bounds the number of concurrent connections, in total and per
    host; a [Lease] returns its slot when it is released, assigned to or
    destroyed.  Every operation of the pool runs under its mutex and is one
    step here; the leases are objects of a heap.  [run_pool] is any
    interleaving of the operations of any number of threads on one pool.
    Times are nanoseconds since the epoch of the clock, the idle timeout is in
    seconds. *)
From stdpp Require Import fin_maps.
From S2P Require Import Prelude Numeric.
Open Scope Z_scope.
Open Scope ahfl_scope.

Record PoolConfig := mkPoolConfig { max_connections : Z; max_per_host : Z; idle_timeout : Z }.
Definition default_pool_config : PoolConfig := mkPoolConfig 8 4 60.
Record HostEntry := mkHostEntry { host_active : Z; last_activity : Z }.
Definition default_host_entry : HostEntry := mkHostEntry 0 0.
Record ConnectionPool := mkPool { hosts_ : gmap string HostEntry; total_active_ : Z }.
Definition empty_pool : ConnectionPool := mkPool ∅ 0.

Definition active_count (p : ConnectionPool) : Z := total_active_ p.
Definition active_for_host (host : string) (p : ConnectionPool) : Z :=
  match hosts_ p !! host with Some e => host_active e | None => 0 end.

Definition start_entry (now : Z) (e : HostEntry) : HostEntry := mkHostEntry (size_succ (host_active e)) now.
Definition end_entry (now : Z) (e : HostEntry) : HostEntry := mkHostEntry (to_size (host_active e - 1)) now.
(** [hosts_[host]]: the entry of the host, created when there is none. *)
Definition host_entry (host : string) (p : ConnectionPool) : HostEntry :=
  default default_host_entry (hosts_ p !! host).
Definition set_entry (host : string) (e : HostEntry) (p : ConnectionPool) : ConnectionPool :=
  mkPool (<[host := e]> (hosts_ p)) (total_active_ p).

Definition record_start (now : Z) (host : string) (p : ConnectionPool) : ConnectionPool :=
  mkPool (<[host := start_entry now (host_entry host p)]> (hosts_ p)) (size_succ (total_active_ p)).
Definition record_end (now : Z) (host : string) (p : ConnectionPool) : ConnectionPool :=
  match hosts_ p !! host with
  | Some e =>
      if 0 <? host_active e then mkPool (<[host := end_entry now e]> (hosts_ p)) (to_size (total_active_ p - 1))
      else p
  | None => p
  end.

(** A lease with a null pool pointer holds no slot. *)
Record Lease := mkLease { lease_pool : bool; lease_host : string }.
Definition empty_lease : Lease := mkLease false "".

Section Config.
Context (config : PoolConfig).

Definition can_connect (host : string) (p : ConnectionPool) : bool :=
  if max_connections config <=? total_active_ p then false
  else
    match hosts_ p !! host with
    | Some e => negb (max_per_host config <=? host_active e)
    | None => true
    end.

Definition try_acquire (now : Z) (host : string) (p : ConnectionPool) : Lease * ConnectionPool :=
  if max_connections config <=? total_active_ p then (empty_lease, p)
  else
    let entry := host_entry host p in
    if max_per_host config <=? host_active entry then (empty_lease, set_entry host entry p)
    else
      (mkLease true host,
       mkPool (<[host := start_entry now entry]> (hosts_ p)) (size_succ (total_active_ p))).

(** [(now - last_activity) > idle_timeout], in nanoseconds, for a host without
    connections. *)
Definition entry_idle (now : Z) (e : HostEntry) : cxx bool :=
  if host_active e =? 0 then
    elapsed ← int64_sub now (last_activity e);
    window ← int64_mul (idle_timeout config) 1000000000;
    Ret (window <? elapsed)
  else Ret false.
Fixpoint evict_entries (now : Z) (l : list (string * HostEntry)) (hosts : gmap string HostEntry)
    : cxx (gmap string HostEntry) :=
  match l with
  | [] => Ret hosts
  | (host, e) :: l =>
      idle ← entry_idle now e;
      evict_entries now l (if (idle : bool) then delete host hosts else hosts)
  end.
Definition evict_idle (now : Z) (p : ConnectionPool) : cxx ConnectionPool :=
  hosts ← evict_entries now (map_to_list (hosts_ p)) (hosts_ p);
  Ret (mkPool hosts (total_active_ p)).

(** ** Leases *)
Definition release_lease (now : Z) (l : Lease) (p : ConnectionPool) : Lease * ConnectionPool :=
  if lease_pool l then (mkLease false (lease_host l), record_end now (lease_host l) p) else (l, p).

(** The operations of the threads; a lease is named by its address. *)
Inductive pool_op :=
  | TryAcquire (l : positive) (host : string)
  | MoveConstruct (l from : positive)
  | MoveAssign (l from : positive)
  | Release (l : positive)
  | Destroy (l : positive)
  | Acquired (l : positive)
  | CanConnect (host : string)
  | ActiveCount
  | ActiveForHost (host : string)
  | EvictIdle.
Inductive pool_obs := Done | Answer (b : bool) | Count (n : Z).

Record PoolState := mkPoolState { pool : ConnectionPool; lease_heap : gmap positive Lease }.
Definition pool_start : PoolState := mkPoolState empty_pool ∅.

(** The value of a string that was moved from is not specified. *)
Context (moved_from : string → string).
Definition moved_lease (l : Lease) : Lease := mkLease false (moved_from (lease_host l)).

Definition lease_at (l : positive) (s : PoolState) : cxx Lease :=
  match lease_heap s !! l with Some x => Ret x | None => UB end.
Definition fresh_lease (l : positive) (s : PoolState) : cxx unit :=
  match lease_heap s !! l with Some _ => UB | None => Ret tt end.

Definition pool_step (now : Z) (op : pool_op) (s : PoolState) : cxx (pool_obs * PoolState) :=
  match op with
  | TryAcquire l host =>
      _ ← fresh_lease l s;
      let '(x, p) := try_acquire now host (pool s) in
      Ret (Done, mkPoolState p (<[l := x]> (lease_heap s)))
  | MoveConstruct l from =>
      _ ← fresh_lease l s;
      x ← lease_at from s;
      Ret (Done, mkPoolState (pool s) (<[l := x]> (<[from := moved_lease x]> (lease_heap s))))
  | MoveAssign l from =>
      x ← lease_at l s;
      y ← lease_at from s;
      if bool_decide (l = from) then Ret (Done, s)
      else
        let '(_, p) := release_lease now x (pool s) in
        Ret (Done, mkPoolState p (<[l := y]> (<[from := moved_lease y]> (lease_heap s))))
  | Release l =>
      x ← lease_at l s;
      let '(x, p) := release_lease now x (pool s) in
      Ret (Done, mkPoolState p (<[l := x]> (lease_heap s)))
  | Destroy l =>
      x ← lease_at l s;
      let '(_, p) := release_lease now x (pool s) in
      Ret (Done, mkPoolState p (delete l (lease_heap s)))
  | Acquired l => x ← lease_at l s; Ret (Answer (lease_pool x), s)
  | CanConnect host => Ret (Answer (can_connect host (pool s)), s)
  | ActiveCount => Ret (Count (active_count (pool s)), s)
  | ActiveForHost host => Ret (Count (active_for_host host (pool s)), s)
  | EvictIdle => p ← evict_idle now (pool s); Ret (Done, mkPoolState p (lease_heap s))
  end.
Fixpoint run_pool (ops : list (Z * pool_op)) (s : PoolState) : cxx (list pool_obs * PoolState) :=
  match ops with
  | [] => Ret ([], s)
  | (now, op) :: ops =>
      r ← pool_step now op s;
      r' ← run_pool ops r.2;
      Ret (r.1 :: r'.1, r'.2)
  end.
End Config.

(** ** The connection pool refines the set of the live leases

    The specification [spec_step] only knows which lease objects exist and
    which host each holds.  [pool_refines] shows that the counters of the pool
    always agree with it. *)

(** ** The specification *)
Abbreviation leases := (gmap positive (option string)).
(** The number of lease objects whose slot satisfies [P]. *)
Definition held (P : option string → Prop) `{∀ x, Decision (P x)} (A : leases) : Z :=
  Z.of_nat (size (filter (λ kv, P kv.2) A)).
Abbreviation held_all := (held is_Some).
Abbreviation held_by host := (held (λ x, x = Some host)).

Section Spec.
Context (config : PoolConfig).

Definition admits (host : string) (A : leases) : bool :=
  (held_all A <? max_connections config) && (held_by host A <? max_per_host config).
Definition spec_lease (l : positive) (A : leases) : cxx (option string) :=
  match A !! l with Some x => Ret x | None => UB end.
Definition spec_fresh (l : positive) (A : leases) : cxx unit :=
  match A !! l with Some _ => UB | None => Ret tt end.
Definition spec_step (op : pool_op) (A : leases) : cxx (pool_obs * leases) :=
  match op with
  | TryAcquire l host =>
      _ ← spec_fresh l A;
      Ret (Done, <[l := if admits host A then Some host else None]> A)
  | MoveConstruct l from =>
      _ ← spec_fresh l A; x ← spec_lease from A; Ret (Done, <[l := x]> (<[from := None]> A))
  | MoveAssign l from =>
      _ ← spec_lease l A; y ← spec_lease from A;
      Ret (Done, if bool_decide (l = from) then A else <[l := y]> (<[from := None]> A))
  | Release l => _ ← spec_lease l A; Ret (Done, <[l := None]> A)
  | Destroy l => _ ← spec_lease l A; Ret (Done, delete l A)
  | Acquired l => x ← spec_lease l A; Ret (Answer (bool_decide (is_Some x)), A)
  | CanConnect host => Ret (Answer (admits host A), A)
  | ActiveCount => Ret (Count (held_all A), A)
  | ActiveForHost host => Ret (Count (held_by host A), A)
  | EvictIdle => Ret (Done, A)
  end.
Fixpoint run_spec (ops : list pool_op) (A : leases) : cxx (list pool_obs * leases) :=
  match ops with
  | [] => Ret ([], A)
  | op :: ops => r ← spec_step op A; r' ← run_spec ops r.2; Ret (r.1 :: r'.1, r'.2)
  end.
End Spec.

(** ** Counting the held slots *)
Definition counts (P : option string → Prop) `{∀ x, Decision (P x)} (x : option (option string)) : Z :=
  match x with Some o => if decide (P o) then 1 else 0 | None => 0 end.

Section Held.
Context (P : option string → Prop) `{∀ x, Decision (P x)}.
Implicit Types (A : leases).
Lemma held_nonneg A : 0 ≤ held P A.
Proof. unfold held. lia. Qed.
Lemma held_empty : held P ∅ = 0.
Proof. unfold held. by rewrite map_filter_empty, map_size_empty. Qed.
Lemma held_delete l A : held P (delete l A) = held P A - counts P (A !! l).
Proof.
  unfold held, counts. rewrite map_filter_delete.
  destruct (A !! l) as [o|] eqn:Hl.
  - destruct (decide (P o)) as [Ho|Ho].
    + assert (filter (λ kv, P kv.2) A !! l = Some o) as Hf by (by rewrite map_lookup_filter_Some).
      rewrite map_size_delete_Some by eauto.
      assert (size (filter (λ kv, P kv.2) A) ≠ 0%nat); [|lia].
      intros Hz. apply map_size_empty_iff in Hz. by rewrite Hz in Hf.
    + rewrite delete_id; [lia|]. apply map_lookup_filter_None. right. naive_solver.
  - rewrite delete_id; [lia|]. apply map_lookup_filter_None. by left.
Qed.
Lemma held_insert l o A : held P (<[l := o]> A) = held P A - counts P (A !! l) + counts P (Some o).
Proof.
  rewrite <-(held_delete l A). rewrite <-insert_delete_eq.
  unfold held. cbn [counts]. rewrite map_filter_insert. cbn [snd].
  destruct (decide (P o)).
  - rewrite map_size_insert_None; [lia|]. by rewrite map_filter_delete, lookup_delete_eq.
  - rewrite delete_delete_eq. lia.
Qed.
Lemma counts_held l A : counts P (A !! l) ≤ held P A.
Proof. pose proof (held_nonneg (delete l A)). rewrite held_delete in *. lia. Qed.
End Held.

(** ** The counters of the pool *)
Definition time_ok (now : Z) : Prop := 0 ≤ now ≤ int64_max.
(** The limits are values of [std::size_t], and the idle timeout is below 292
    years, the range of the clock. *)
Definition config_ok (config : PoolConfig) : Prop :=
  0 ≤ max_connections config ≤ size_max ∧ 1 ≤ max_per_host config ≤ size_max ∧
  0 ≤ idle_timeout config * 1000000000 ≤ int64_max.
Definition slot (x : Lease) : option string := if lease_pool x then Some (lease_host x) else None.
Definition slots (s : PoolState) : leases := slot <$> lease_heap s.

Lemma active_set_entry host host' e p :
  active_for_host host' (set_entry host e p) = if bool_decide (host = host') then host_active e else active_for_host host' p.
Proof.
  unfold active_for_host, set_entry. cbn [hosts_]. case_bool_decide as Hh.
  - subst. by rewrite lookup_insert_eq.
  - by rewrite lookup_insert_ne.
Qed.
Lemma active_host_entry host p : host_active (host_entry host p) = active_for_host host p.
Proof. unfold host_entry, active_for_host. by destruct (_ !! _). Qed.

Section Config.
Context (config : PoolConfig) (Hok : config_ok config).

Record counted (p : ConnectionPool) (A : leases) : Prop := {
  counted_total : total_active_ p = held_all A;
  counted_host host : active_for_host host p = held_by host A;
  counted_limit : total_active_ p ≤ max_connections config;
  counted_host_limit host : active_for_host host p ≤ max_per_host config;
  counted_times host e : hosts_ p !! host = Some e → time_ok (last_activity e) }.

Lemma counted_ext p A A' :
  counted p A → held_all A = held_all A' → (∀ h, held_by h A = held_by h A') → counted p A'.
Proof. intros [H1 H2 H3 H4 H5] Ha Hh. split; try done; [congruence|]. intros h. by rewrite <-Hh. Qed.

Lemma can_connect_admits host p A : counted p A → can_connect config host p = admits config host A.
Proof.
  intros HC. unfold can_connect, admits.
  rewrite <-(counted_total _ _ HC), <-(counted_host _ _ HC host).
  pose proof (counted_host_limit _ _ HC host) as Hl.
  destruct Hok as (?&?&?). unfold active_for_host in *.
  destruct (max_connections config <=? _) eqn:E1; [by rewrite (proj2 (Z.ltb_ge _ _)) by lia|].
  rewrite (proj2 (Z.ltb_lt _ _)) by lia. cbn [andb].
  destruct (hosts_ p !! host) as [e|] eqn:He.
  - destruct (max_per_host config <=? host_active e) eqn:E2; cbn [negb]; symmetry; [apply Z.ltb_ge|apply Z.ltb_lt]; lia.
  - symmetry. apply Z.ltb_lt.
    lia.
Qed.

Lemma counted_set_entry host p A : counted p A → counted (set_entry host (host_entry host p) p) A.
Proof.
  intros HC.
  assert (∀ h, active_for_host h (set_entry host (host_entry host p) p) = active_for_host h p) as Ha.
  { intros h. rewrite active_set_entry, active_host_entry. case_bool_decide; by subst. }
  destruct HC as [H1 H2 H3 H4 H5]. split; try done; try (intros h; by rewrite Ha).
  intros h e. cbn [set_entry hosts_]. rewrite lookup_insert. unfold host_entry. case_decide; [|by eauto].
  intros [= <-]. subst. destruct (hosts_ p !! h) eqn:E; [by eauto|]. unfold time_ok, int64_max. cbn. lia.
Qed.

(** Taking a slot for a fresh lease. *)
Lemma try_acquire_counted now l host p A :
  counted p A → A !! l = None → time_ok now →
  let r := try_acquire config now host p in
  slot r.1 = (if admits config host A then Some host else None) ∧ counted r.2 (<[l := slot r.1]> A).
Proof.
  intros HC Hl Hnow. unfold admits, try_acquire.
  rewrite <-(counted_total _ _ HC), <-(counted_host _ _ HC host), active_host_entry.
  assert (∀ q, counted q A → counted q (<[l := None]> A)) as Hnone.
  { intros q Hq. apply (counted_ext q A); [done| |intros h]; rewrite held_insert, Hl; cbn [counts];
      (rewrite decide_False by (intros [? ?] || intros ?; done)); lia. }
  destruct (max_connections config <=? total_active_ p) eqn:E1.
  { rewrite (proj2 (Z.ltb_ge _ _)) by lia. split; [done|]. by apply Hnone. }
  rewrite (proj2 (Z.ltb_lt _ _)) by lia. cbn [andb].
  destruct (max_per_host config <=? active_for_host host p) eqn:E2.
  { rewrite (proj2 (Z.ltb_ge _ _)) by lia. split; [done|]. apply Hnone. by apply counted_set_entry. }
  rewrite (proj2 (Z.ltb_lt _ _)) by lia. split; [done|]. cbn [fst snd].
  destruct HC as [H1 H2 H3 H4 H5], Hok as (?&?&?).
  pose proof (held_nonneg is_Some A). pose proof (held_nonneg (λ x, x = Some host) A).
  assert (0 ≤ active_for_host host p) by (rewrite H2; lia).
  assert (size_succ (total_active_ p) = total_active_ p + 1) as Ht.
  { unfold size_succ, to_size, size_max in *. apply Z.mod_small. lia. }
  assert (size_succ (active_for_host host p) = active_for_host host p + 1) as Hs.
  { unfold size_succ, to_size, size_max in *. apply Z.mod_small. lia. }
  assert (∀ h, active_for_host h (mkPool (<[host:=start_entry now (host_entry host p)]> (hosts_ p)) (size_succ (total_active_ p)))
    = if bool_decide (host = h) then active_for_host h p + 1 else active_for_host h p) as Ha.
  { intros h. etransitivity; [apply (active_set_entry host h _ p)|]. unfold start_entry. cbn [host_active].
    rewrite active_host_entry. case_bool_decide; [|done]. subst. done. }
  split.
  - cbn [total_active_]. rewrite Ht, held_insert, Hl. unfold slot. cbn [lease_pool lease_host counts].
    rewrite decide_True by eauto. lia.
  - intros h. rewrite Ha, held_insert, Hl. unfold slot. cbn [lease_pool lease_host counts].
    rewrite H2. case_bool_decide as Hh; [rewrite decide_True by congruence|rewrite decide_False by congruence]; lia.
  - cbn [total_active_]. lia.
  - intros h. rewrite Ha. case_bool_decide; subst; [lia|done].
  - intros h e. cbn [hosts_]. rewrite lookup_insert. case_decide; [|by eauto]. by intros [= <-].
Qed.

(** Giving a slot back. *)
Lemma record_end_counted now host p A A' :
  counted p A → time_ok now → 0 < held_by host A →
  held_all A' = held_all A - 1 → (∀ h, held_by h A' = held_by h A - if bool_decide (host = h) then 1 else 0) →
  counted (record_end now host p) A'.
Proof.
  intros [H1 H2 H3 H4 H5] Hnow Hpos HA HA'. pose proof (held_nonneg is_Some A').
  pose proof Hok as (?&?&?). rewrite <-H2 in Hpos. unfold record_end. unfold active_for_host in Hpos.
  destruct (hosts_ p !! host) as [e|] eqn:He; [|lia]. rewrite (proj2 (Z.ltb_lt _ _)) by done.
  assert (active_for_host host p = host_active e) as Hact by (unfold active_for_host; by rewrite He).
  pose proof (H4 host) as Hlim. rewrite Hact in Hlim.
  assert (to_size (total_active_ p - 1) = total_active_ p - 1) as Ht.
  { unfold to_size, size_max in *. apply Z.mod_small. lia. }
  assert (to_size (host_active e - 1) = host_active e - 1) as Hs.
  { unfold to_size, size_max in *. apply Z.mod_small. lia. }
  assert (∀ h, active_for_host h (mkPool (<[host:=end_entry now e]> (hosts_ p)) (to_size (total_active_ p - 1)))
    = active_for_host h p - if bool_decide (host = h) then 1 else 0) as Ha.
  { intros h. etransitivity; [apply (active_set_entry host h _ p)|]. unfold end_entry. cbn [host_active].
    case_bool_decide; [subst; by rewrite Hact, Hs|lia]. }
  split.
  - cbn [total_active_]. lia.
  - intros h. by rewrite Ha, HA', H2.
  - cbn [total_active_]. lia.
  - intros h. rewrite Ha. pose proof (H4 h). case_bool_decide; lia.
  - intros h e'. cbn [hosts_]. rewrite lookup_insert. case_decide; [|by eauto]. by intros [= <-].
Qed.

Lemma held_slot_pos l host A : A !! l = Some (Some host) → 0 < held_by host A.
Proof.
  intros Hl. pose proof (counts_held (λ x, x = Some host) l A) as Hc. rewrite Hl in Hc. cbn [counts] in Hc.
  rewrite decide_True in Hc by done. lia.
Qed.
Lemma release_counted now l x p A :
  counted p A → A !! l = Some (slot x) → time_ok now →
  let r := release_lease now x p in slot r.1 = None ∧ counted r.2 (<[l := None]> A) ∧ counted r.2 (delete l A).
Proof.
  intros HC Hl Hnow. unfold release_lease, slot in *. destruct (lease_pool x) eqn:Hx; cbn [fst snd lease_pool].
  - split; [done|]. pose proof (held_slot_pos _ _ _ Hl) as Hpos.
    split; apply (record_end_counted _ _ _ A); try done; try intros h;
      rewrite ?held_insert, ?held_delete, Hl; cbn [counts];
      repeat (rewrite decide_True by eauto); try (rewrite (decide_False (P := is_Some None)) by (by intros [? ?])); try lia;
      (case_bool_decide as Hh; [rewrite decide_True by congruence|rewrite decide_False by congruence]);
      try rewrite decide_False by done; lia.
  - rewrite Hx. split; [done|].
    split; apply (counted_ext _ A); try done; try intros h; rewrite ?held_insert, ?held_delete, Hl; cbn [counts];
      (rewrite decide_False by (intros [? ?] || intros ?; done)); lia.
Qed.
(** Moving a slot from a lease to another that has none. *)
Lemma move_counted l from x p A :
  counted p A → A !! from = Some x → l ≠ from → (A !! l = None ∨ A !! l = Some None) →
  counted p (<[l := x]> (<[from := None]> A)).
Proof.
  intros HC Hf Hne Hl. apply (counted_ext _ A); try done; try intros h;
    rewrite !held_insert, lookup_insert_ne, Hf by done;
    (destruct Hl as [-> | ->]; cbn [counts]);
    rewrite ?(decide_False (P := is_Some None)) by (by intros [? ?]);
    rewrite ?(decide_False (P := None = Some _)) by done; lia.
Qed.

Lemma entry_idle_ok now e : time_ok now → time_ok (last_activity e) →
  ∃ b, entry_idle config now e ⇓ b ∧ (b = true → host_active e = 0).
Proof.
  intros Hnow He. unfold entry_idle. destruct (host_active e =? 0) eqn:E; [|by eexists].
  unfold int64_sub, int64_mul, int64_of, in_int64. destruct Hok as (_ & _ & Hi).
  rewrite (proj2 (andb_true_iff _ _)) by (unfold time_ok, int64_max, int64_min in *; lia). cbn.
  rewrite (proj2 (andb_true_iff _ _)) by (unfold time_ok, int64_max, int64_min in *; lia). cbn.
  eexists. split; [done|]. intros _. by apply Z.eqb_eq.
Qed.
Lemma evict_entries_counted now t A l hosts :
  time_ok now → (∀ h e, (h, e) ∈ l → time_ok (last_activity e) ∧ host_active e = held_by h A) →
  counted (mkPool hosts t) A →
  ∃ hosts', evict_entries config now l hosts ⇓ hosts' ∧ counted (mkPool hosts' t) A.
Proof.
  intros Hnow. revert hosts. induction l as [|[h e] l IH]; intros hosts Hl HC; cbn [evict_entries]; [by eexists|].
  destruct (Hl h e) as [Ht Ha]; [left|].
  destruct (entry_idle_ok now e Hnow Ht) as (b & -> & Hb). cbn.
  apply IH; [intros; apply Hl; by right|]. destruct b; [|done].
  destruct HC as [H1 H2 H3 H4 H5].
  assert (∀ h', active_for_host h' (mkPool (delete h hosts) t) = active_for_host h' (mkPool hosts t)) as Hact.
  { intros h'. destruct (decide (h = h')) as [<-|Hne].
    - rewrite (H2 h), <-Ha, Hb by done. unfold active_for_host. cbn [hosts_]. by rewrite lookup_delete_eq.
    - unfold active_for_host. cbn [hosts_]. by rewrite lookup_delete_ne. }
  split; try done; try (intros h'; by rewrite Hact).
  intros h' e'. cbn [hosts_]. intros [_ He']%lookup_delete_Some. by eapply H5.
Qed.
Lemma evict_idle_counted now p A :
  time_ok now → counted p A → ∃ p', evict_idle config now p ⇓ p' ∧ counted p' A.
Proof.
  intros Hnow HC. unfold evict_idle. destruct p as [hosts t].
  destruct (evict_entries_counted now t A (map_to_list hosts) hosts) as (hosts' & Hr & HC'); [done| |done|].
  - intros h e Hin%elem_of_map_to_list. split; [by eapply (counted_times _ _ HC)|].
    rewrite <-(counted_host _ _ HC). unfold active_for_host. cbn [hosts_]. by rewrite Hin.
  - cbn [hosts_ total_active_]. rewrite Hr. by eexists.
Qed.

(** ** The refinement *)
Context (moved_from : string → string).
Abbreviation step := (pool_step config moved_from).

Definition refines_step (c : cxx (pool_obs * PoolState)) (a : cxx (pool_obs * leases)) : Prop :=
  match a with
  | Ret (o, A') => ∃ s', c ⇓ (o, s') ∧ slots s' = A' ∧ counted (pool s') A'
  | UB => c = UB
  | NoFuel => False
  end.
Lemma lease_at_slot l s : spec_lease l (slots s) = (x ← lease_at l s; Ret (slot x)).
Proof. unfold spec_lease, lease_at, slots. rewrite lookup_fmap. by destruct (lease_heap s !! l). Qed.
Lemma fresh_lease_slot l s : spec_fresh l (slots s) = fresh_lease l s.
Proof. unfold spec_fresh, fresh_lease, slots. rewrite lookup_fmap. by destruct (lease_heap s !! l). Qed.
Lemma slots_lookup l s x : lease_heap s !! l = Some x → slots s !! l = Some (slot x).
Proof. intros Hl. unfold slots. by rewrite lookup_fmap, Hl. Qed.

Lemma pool_step_refines now op s :
  time_ok now → counted (pool s) (slots s) → refines_step (step now op s) (spec_step config op (slots s)).
Proof.
  intros Hnow HC. destruct op; cbn [pool_step spec_step]; rewrite ?lease_at_slot, ?fresh_lease_slot;
    unfold fresh_lease, lease_at; try (destruct (lease_heap s !! l) as [x|] eqn:Hl; [|done]);
    try (destruct (lease_heap s !! from) as [y|] eqn:Hf; [|done]); cbn.
  - destruct (lease_heap s !! l) eqn:Hl; [done|]. cbn.
    assert (slots s !! l = None) as Hs by (unfold slots; by rewrite lookup_fmap, Hl).
    destruct (try_acquire_counted now l host (pool s) (slots s) HC Hs Hnow) as [Hx HC'].
    destruct (try_acquire config now host (pool s)) as [x p]. cbn in *. eexists. split; [done|].
    split; [|by rewrite <-Hx]. unfold slots at 1. cbn [lease_heap]. by rewrite fmap_insert, Hx.
  - destruct (lease_heap s !! l) eqn:Hl; [done|]. cbn.
    destruct (lease_heap s !! from) as [y|] eqn:Hf; [|done]. cbn.
    eexists. split; [done|]. split; [unfold slots at 1; cbn [lease_heap]; by rewrite !fmap_insert|].
    apply move_counted; try done; [by apply slots_lookup|congruence|].
    left. unfold slots. by rewrite lookup_fmap, Hl.
  - case_bool_decide as Hlf; [eexists; done|].
    destruct (release_counted now l x (pool s) (slots s) HC (slots_lookup _ _ _ Hl) Hnow) as (_ & HC' & _).
    destruct (release_lease now x (pool s)) as [x' p]. cbn in *. eexists. split; [done|].
    split; [unfold slots at 1; cbn [lease_heap]; by rewrite !fmap_insert|].
    rewrite <-(insert_insert_eq (<[from:=None]> (slots s)) l (slot y) None), (insert_insert_ne (slots s) l) by done.
    apply move_counted; [done| |done|right; by rewrite lookup_insert_eq].
    rewrite lookup_insert_ne by done. by apply slots_lookup.
  - destruct (release_counted now l x (pool s) (slots s) HC (slots_lookup _ _ _ Hl) Hnow) as (Hx & HC' & _).
    destruct (release_lease now x (pool s)) as [x' p]. cbn in *. eexists. split; [done|].
    split; [unfold slots at 1; cbn [lease_heap]; by rewrite fmap_insert, Hx|done].
  - destruct (release_counted now l x (pool s) (slots s) HC (slots_lookup _ _ _ Hl) Hnow) as (_ & _ & HC').
    destruct (release_lease now x (pool s)) as [x' p]. cbn in *. eexists. split; [done|].
    split; [unfold slots at 1; cbn [lease_heap]; by rewrite fmap_delete|done].
  - eexists. split; [|done]. unfold slot. destruct (lease_pool x); by rewrite ?bool_decide_true by eauto.
  - eexists. by rewrite (can_connect_admits host _ _ HC).
  - eexists. unfold active_count. by rewrite (counted_total _ _ HC).
  - eexists. by rewrite (counted_host _ _ HC).
  - destruct (evict_idle_counted now _ _ Hnow HC) as (p' & -> & HC'). by eexists.
Qed.

Lemma run_pool_refines ops s :
  Forall (λ o, time_ok o.1) ops → counted (pool s) (slots s) →
  match run_spec config (snd <$> ops) (slots s) with
  | Ret (os, A') => ∃ s', run_pool config moved_from ops s ⇓ (os, s') ∧ slots s' = A' ∧ counted (pool s') A'
  | UB => run_pool config moved_from ops s = UB
  | NoFuel => False
  end.
Proof.
  intros Hops. revert s. induction Hops as [|[now op] ops Hnow _ IH]; intros s HC; [by eexists|].
  cbn [run_pool run_spec fmap list_fmap snd fst]. pose proof (pool_step_refines now op s Hnow HC) as Hstep.
  destruct (spec_step config op (slots s)) as [[o A']| |]; cbn in *; [|by rewrite Hstep|done].
  destruct Hstep as (s' & -> & <- & HC'). specialize (IH s' HC'). cbn.
  change (list_fmap _ _ snd ops) with (snd <$> ops). unfold fmap in IH.
  destruct (run_spec config _ _) as [[os A'']| |]; cbn in *; [|by rewrite IH|done].
  destruct IH as (s'' & -> & <- & HC''). by eexists.
Qed.
End Config.

Lemma counted_start config : config_ok config → counted config (pool pool_start) (slots pool_start).
Proof.
  intros (?&?&?). unfold slots. cbn [pool_start pool lease_heap]. rewrite fmap_empty.
  split; cbn [total_active_ hosts_ empty_pool]; rewrite ?held_empty; try lia; try done;
    intros h; unfold active_for_host; cbn [hosts_ empty_pool]; rewrite lookup_empty, ?held_empty; lia || done.
Qed.

(** C33: Over every interleaving of the operations of the threads the pool
    behaves as the set of the live leases: a connection is admitted, and
    [can_connect] says so, exactly when the live leases are below both limits;
    moving, releasing, assigning to and destroying leases neither leaks a slot
    nor gives one back twice; evicting idle hosts changes nothing that can be
    seen; the counters are the numbers of the live leases and never exceed the
    limits.  The only undefined behaviour is the use of a lease object that
    does not exist. *)
Theorem pool_refines_leases config moved_from ops :
  config_ok config → Forall (λ o, time_ok o.1) ops →
  match run_spec config (snd <$> ops) ∅ with
  | Ret (os, A) =>
      ∃ s, run_pool config moved_from ops pool_start ⇓ (os, s) ∧ slots s = A ∧
        active_count (pool s) = held_all A ∧ active_count (pool s) ≤ max_connections config ∧
        ∀ host, active_for_host host (pool s) = held_by host A ∧ active_for_host host (pool s) ≤ max_per_host config
  | UB => run_pool config moved_from ops pool_start = UB
  | NoFuel => False
  end.
Proof.
  intros Hok Hops. pose proof (run_pool_refines config Hok moved_from ops pool_start Hops (counted_start _ Hok)) as Hr.
  change (slots pool_start) with (∅ : leases) in Hr.
  destruct (run_spec config (snd <$> ops) ∅) as [[os A]| |]; [|done..].
  destruct Hr as (s & Hrun & Hs & HC). exists s. destruct HC as [H1 H2 H3 H4 _]. repeat split; auto.
Qed.

(** Two leases of a host with two slots, the first one moved; the third
    attempt is refused until one of them is destroyed. *)
Definition two_per_host : PoolConfig := mkPoolConfig 8 2 60.
Definition busy_host : list (Z * pool_op) :=
  [(1, TryAcquire 1 "h"); (2, TryAcquire 2 "h"); (3, MoveConstruct 3 1); (4, Destroy 1);
   (5, TryAcquire 4 "h"); (6, Acquired 4); (7, ActiveForHost "h"); (8, Destroy 2); (9, CanConnect "h"); (10, ActiveCount)].
Lemma pool_refines_leases_witness :
  config_ok two_per_host ∧ Forall (λ o, time_ok o.1) busy_host ∧
  ∃ s, run_pool two_per_host (λ _, "") busy_host pool_start ⇓
    ([Done; Done; Done; Done; Done; Answer false; Count 2; Done; Answer true; Count 1], s).
Proof.
  assert (config_ok two_per_host) as Hok by (unfold config_ok; vm_compute; intuition discriminate).
  assert (Forall (λ o, time_ok o.1) busy_host) as Hops by (repeat constructor; vm_compute; intuition discriminate).
  split; [done|]. split; [done|].
  pose proof (pool_refines_leases two_per_host (λ _, "") busy_host Hok Hops) as H.
  assert (∃ A, run_spec two_per_host (snd <$> busy_host) ∅ =
    Ret ([Done; Done; Done; Done; Done; Answer false; Count 2; Done; Answer true; Count 1], A)) as [A HA]
    by (eexists; vm_compute; reflexivity).
  rewrite HA in H. destruct H as (s & Hs & _). exists s. exact Hs.
Defined.

(** With no slot per host a host without an entry can connect, yet no lease is
    given. *)
Example no_slot_per_host :
  let config := mkPoolConfig 8 0 60 in
  can_connect config "h" empty_pool = true ∧ lease_pool (try_acquire config 1 "h" empty_pool).1 = false.
Proof. split; reflexivity. Qed.
(** [record_start] does not look at the limits. *)
Example start_above_the_limits :
  active_count (record_start 1 "h" (record_start 1 "h" empty_pool)) = 2.
Proof. reflexivity. Qed.
