(* ===== verification/Secrets.v ===== *)
(** * Secrets (src/runtime/providers/secret)

    [SecretProvider] is the interface of the sources of secrets; the chain
    routes a handle "prefix:key" to one of them, the manager logs every access,
    [resolve_auth] builds the credentials of a call and [KeyRotationManager]
    refreshes the keys whose interval is over.  What the providers reach (the
    process environment, a vault, a cloud service) is the world [W]. *)
From S2P Require Import Prelude Numeric Fingerprint.
From Stdlib Require Import Ascii.
Open Scope Z_scope.
Open Scope ahfl_scope.

Record SecretProvider (W : Type) := mkProvider {
  resolve : string → eff W (option string);
  refresh : string → eff W unit }.
Arguments mkProvider {W} _ _.
Arguments resolve {W} _ _.
Arguments refresh {W} _ _.

(** ** Providers (secret_provider.cpp) *)
(** [str.c_str()] as a C string: up to the first NUL. *)
Fixpoint c_string (s : string) : string :=
  match s with
  | EmptyString => EmptyString
  | String c s => if bool_decide (c = zero) then EmptyString else String c (c_string s)
  end.
Definition EnvSecretProvider {W} (getenv : string → eff W (option string)) : SecretProvider W :=
  mkProvider (λ key, getenv (c_string key)) (λ _, mret tt).

(** The text before and after the first [':']. *)
Fixpoint split_colon (s : string) : option (string * string) :=
  match s with
  | EmptyString => None
  | String c s =>
      if bool_decide (c = ":"%char) then Some (EmptyString, s)
      else p ← split_colon s; Some (String c p.1, p.2)
  end.

Record ChainEntry (W : Type) := mkChainEntry {
  entry_prefix : string;
  entry_provider : SecretProvider W;
  default_for_unqualified : bool }.
Arguments mkChainEntry {W} _ _ _.
Arguments entry_prefix {W} _.
Arguments entry_provider {W} _.
Arguments default_for_unqualified {W} _.

Section Chain.
Context {W : Type}.
Implicit Types (entries : list (ChainEntry W)).

(** A null provider is [None]. *)
Definition add_provider (prefix : string) (provider : option (SecretProvider W)) (by_default : bool) entries :=
  match provider with
  | Some p => if bool_decide (prefix = "") then entries else entries ++ [mkChainEntry prefix p by_default]
  | None => entries
  end.
(** The provider of a qualified handle, if one has the prefix, and the rest of
    the handle; [None] for an unqualified handle. *)
Definition provider_for_prefixed_key entries (key : string) : option (option (ChainEntry W) * string) :=
  match split_colon key with
  | Some (p, k) =>
      if bool_decide (p = "") || bool_decide (k = "") then None
      else Some (head (base.filter (λ e : ChainEntry W, entry_prefix e = p) entries), k)
  | None => None
  end.
Fixpoint resolve_default entries (key : string) : eff W (option string) :=
  match entries with
  | [] => mret None
  | e :: entries =>
      if default_for_unqualified e then
        r ← resolve (entry_provider e) key;
        match r with Some v => mret (Some v) | None => resolve_default entries key end
      else resolve_default entries key
  end.
Fixpoint refresh_default entries (key : string) : eff W unit :=
  match entries with
  | [] => mret tt
  | e :: entries =>
      _ ← (if default_for_unqualified e then refresh (entry_provider e) key else mret tt);
      refresh_default entries key
  end.
Definition SecretProviderChain entries : SecretProvider W :=
  mkProvider
    (λ key, match provider_for_prefixed_key entries key with
            | Some (Some e, k) => resolve (entry_provider e) k
            | Some (None, _) => mret None
            | None => resolve_default entries key
            end)
    (λ key, match provider_for_prefixed_key entries key with
            | Some (Some e, k) => refresh (entry_provider e) k
            | Some (None, _) => mret tt
            | None => refresh_default entries key
            end).
Definition provider_count entries : nat := length entries.
End Chain.

(** ** The state of the manager and of the rotation *)
Module AccessKind.
Inductive t := Resolve | Refresh.
End AccessKind.
Record SecretAccessEvent := mkAccess {
  access_kind : AccessKind.t; access_key : string; accessor : string; access_success : bool; access_time : Z }.

Module RotationStatus.
Inductive t := Idle | Scheduled | InProgress | Completed | Failed.
End RotationStatus.
Record RotationPolicy := mkPolicy {
  policy_key : string; interval : Z; grace_period : Z; policy_retries : Z }.
Record RotationEvent := mkRotation {
  rotation_key : string; rotation_prefix : string; key_fingerprint : string; rotation_status : RotationStatus.t;
  rotation_time : Z; previous_value_present : bool; rotated_value_present : bool; rotation_attempts : Z;
  secret_free : bool; rotation_error : string }.
Abbreviation RotationCallback W := (RotationEvent → eff W unit).

Record SecretState (W : Type) := mkSecrets {
  outside : W;
  audit_log : list SecretAccessEvent;
  policies_ : gmap string RotationPolicy;
  history_ : list RotationEvent;
  callbacks_ : list (RotationCallback W);
  last_rotation_ : gmap string Z }.
Arguments mkSecrets {W} _ _ _ _ _ _.
Arguments outside {W} _.
Arguments audit_log {W} _.
Arguments policies_ {W} _.
Arguments history_ {W} _.
Arguments callbacks_ {W} _.
Arguments last_rotation_ {W} _.

(** The system clock. *)
Class SystemClock (W : Type) := system_now : W → Z * W.

Section Manager.
Context {W : Type} `{SystemClock W}.
Abbreviation S := (SecretState W).

Definition set_outside (s : S) (w : W) : S :=
  mkSecrets w (audit_log s) (policies_ s) (history_ s) (callbacks_ s) (last_rotation_ s).
Definition run_outside {A} (m : eff W A) : eff S A := λ s,
  match m (outside s) with
  | Ret (a, w) => Ret (a, set_outside s w)
  | UB => UB
  | NoFuel => NoFuel
  end.
Definition read_system_clock : eff S Z := run_outside (λ w, Ret (system_now w)).
Definition modify_secrets (f : S → S) : eff S unit := λ s, Ret (tt, f s).
Definition record_access (e : SecretAccessEvent) : eff S unit :=
  modify_secrets (λ s, mkSecrets (outside s) (audit_log s ++ [e]) (policies_ s) (history_ s) (callbacks_ s) (last_rotation_ s)).

Section Provider.
Context (provider : SecretProvider W).

(** [SecretManager::get], [SecretManager::refresh] *)
Definition get_secret (key who : string) : eff S (option string) :=
  result ← run_outside (resolve provider key);
  now ← read_system_clock;
  _ ← record_access (mkAccess AccessKind.Resolve key who (bool_decide (is_Some result)) now);
  mret result.
Definition refresh_secret (key who : string) : eff S unit :=
  _ ← run_outside (refresh provider key);
  now ← read_system_clock;
  record_access (mkAccess AccessKind.Refresh key who true now).

(** ** Authentication (auth_provider.cpp) *)
Inductive AuthScheme := AuthNone | BearerToken | OAuth2ClientCredentials | MTLS.
Record AuthConfig := mkAuth {
  auth_scheme : AuthScheme; token_key : string; client_id_key : string;
  cert_path_key : string; key_path_key : string; token_url : string }.
Record ResolvedAuth := mkResolved {
  auth_headers : gmap string string; curl_flags : list string;
  tls_client_certificate_path : string; tls_client_key_path : string;
  auth_success : bool; auth_error : string }.
Definition no_auth : ResolvedAuth := mkResolved ∅ [] "" "" true "".
Definition auth_failure (msg : string) : ResolvedAuth := mkResolved ∅ [] "" "" false msg.
Definition auth_accessor : string := "auth_provider".

Definition resolve_token (scheme : string) (config : AuthConfig) : eff S ResolvedAuth :=
  if bool_decide (token_key config = "") then mret (auth_failure (scheme +:+ " secret key is empty"))
  else
    token ← get_secret (token_key config) auth_accessor;
    mret (match token with
          | Some token => mkResolved {["Authorization" := "Bearer " +:+ token]} [] "" "" true ""
          | None => auth_failure (scheme +:+ " secret not found: " +:+ token_key config)
          end).
Definition resolve_mtls (config : AuthConfig) : eff S ResolvedAuth :=
  if bool_decide (cert_path_key config = "") then mret (auth_failure "mTLS certificate path secret key is empty")
  else if bool_decide (key_path_key config = "") then mret (auth_failure "mTLS private key path secret key is empty")
  else
    cert ← get_secret (cert_path_key config) auth_accessor;
    key ← get_secret (key_path_key config) auth_accessor;
    mret (match cert, key with
          | None, _ => auth_failure ("mTLS certificate path secret not found: " +:+ cert_path_key config)
          | _, None => auth_failure ("mTLS private key path secret not found: " +:+ key_path_key config)
          | Some cert, Some key => mkResolved ∅ ["--cert"; cert; "--key"; key] cert key true ""
          end).
Definition resolve_auth (config : AuthConfig) : eff S ResolvedAuth :=
  match auth_scheme config with
  | AuthNone => mret no_auth
  | BearerToken => resolve_token "bearer token" config
  | OAuth2ClientCredentials => resolve_token "OAuth2 token" config
  | MTLS => resolve_mtls config
  end.

(** ** Key rotation (key_rotation.cpp) *)
Definition provider_prefix (key : string) : string :=
  match split_colon key with
  | Some (p, _) => if bool_decide (p = "") then "unqualified" else p
  | None => "unqualified"
  end.
Definition add_policy (policy : RotationPolicy) : eff S unit :=
  modify_secrets (λ s, mkSecrets (outside s) (audit_log s) (<[policy_key policy := policy]> (policies_ s)) (history_ s) (callbacks_ s) (last_rotation_ s)).
Definition remove_policy (key : string) : eff S unit :=
  modify_secrets (λ s, mkSecrets (outside s) (audit_log s) (delete key (policies_ s)) (history_ s) (callbacks_ s) (last_rotation_ s)).
Definition get_policy (key : string) : eff S (option RotationPolicy) := λ s, Ret (policies_ s !! key, s).
Definition on_rotation (cb : RotationCallback W) : eff S unit :=
  modify_secrets (λ s, mkSecrets (outside s) (audit_log s) (policies_ s) (history_ s) (callbacks_ s ++ [cb]) (last_rotation_ s)).
Definition history_for (key : string) (s : S) : list RotationEvent :=
  base.filter (λ e, rotation_key e = key) (history_ s).

(** [max(1, max_retries + 1)], the sum in [std::size_t]. *)
Definition rotation_limit (policy : option RotationPolicy) : Z :=
  Z.max 1 (match policy with Some p => size_succ (policy_retries p) | None => 1 end).
(** The attempts, at most [n] more after the first [attempts]; whether one of
    them found a value, and their number. *)
Fixpoint refresh_loop (n : nat) (key : string) (attempts : Z) : eff S (bool * Z) :=
  match n with
  | O => mret (false, attempts)
  | Datatypes.S n =>
      _ ← run_outside (refresh provider key);
      value ← run_outside (resolve provider key);
      if bool_decide (is_Some value) then mret (true, size_succ attempts)
      else refresh_loop n key (size_succ attempts)
  end.
Fixpoint run_callbacks (cbs : list (RotationCallback W)) (e : RotationEvent) : eff S unit :=
  match cbs with
  | [] => mret tt
  | cb :: cbs => _ ← run_outside (cb e); run_callbacks cbs e
  end.
Definition push_history (e : RotationEvent) : eff S unit :=
  modify_secrets (λ s, mkSecrets (outside s) (audit_log s) (policies_ s) (history_ s ++ [e]) (callbacks_ s) (last_rotation_ s)).
Definition set_last_rotation (key : string) (now : Z) : eff S unit :=
  modify_secrets (λ s, mkSecrets (outside s) (audit_log s) (policies_ s) (history_ s) (callbacks_ s) (<[key := now]> (last_rotation_ s))).

Definition rotate_key (key : string) : eff S RotationEvent :=
  now ← read_system_clock;
  old_value ← run_outside (resolve provider key);
  policy ← get_policy key;
  r ← refresh_loop (Z.to_nat (rotation_limit policy)) key 0;
  let found : bool := r.1 in
  let event := mkRotation key (provider_prefix key) (hex_hash (fnv1a_hash key))
    (if found then RotationStatus.Completed else RotationStatus.Failed) now
    (bool_decide (is_Some old_value)) found r.2 true
    (if found then "" else "secret provider returned no value for rotated key") in
  _ ← (if found then set_last_rotation key now else mret tt);
  _ ← push_history event;
  cbs ← (λ s, Ret (callbacks_ s, s));
  _ ← run_callbacks cbs event;
  mret event.

(** Whether the interval of a policy is over: never rotated, or the whole
    seconds since the last rotation reach it. *)
Definition rotation_due (now : Z) (last : option Z) (policy : RotationPolicy) : cxx bool :=
  match last with
  | None => Ret true
  | Some t => elapsed ← int64_sub now t; Ret (interval policy <=? Z.quot elapsed 1000000000)
  end.
Fixpoint check_policies (now : Z) (l : list (string * RotationPolicy)) : eff S (list RotationEvent) :=
  match l with
  | [] => mret []
  | (key, policy) :: l =>
      last ← (λ s, Ret (last_rotation_ s !! key, s));
      due ← ⌊ rotation_due now last policy ⌋;
      events ← (if (due : bool) then e ← rotate_key key; mret [e] else mret []);
      rest ← check_policies now l;
      mret (events ++ rest)
  end.
(** The policies in the order of the map, which the library does not
    specify. *)
Definition check_and_rotate : eff S (list RotationEvent) :=
  now ← read_system_clock;
  policies ← (λ s, Ret (map_to_list (policies_ s), s));
  check_policies now policies.
End Provider.
End Manager.

(** ** Secrets do not leak

    A relational logic for effects in two worlds, and noninterference: two
    runs whose providers hold the same keys with different values cannot be
    told apart by the audit log, the rotation history, the callbacks or the
    error messages. *)

(** ** Two runs in related worlds *)
Definition low {W A B} (RW : W → W → Prop) (R : A → B → Prop) (m : eff W A) (m' : eff W B) : Prop :=
  ∀ w w', RW w w' →
    match m w, m' w' with
    | Ret (a, v), Ret (b, v') => R a b ∧ RW v v'
    | UB, UB | NoFuel, NoFuel => True
    | _, _ => False
    end.

Section Low.
Context {W A A' B B' : Type} (RW : W → W → Prop).
Lemma low_ret (R : A → A' → Prop) a a' : R a a' → low RW R (mret a) (mret a').
Proof. by intros HR w w' Hw. Qed.
Lemma low_bind (R : A → A' → Prop) (Q : B → B' → Prop) m m' f f' :
  low RW R m m' → (∀ a a', R a a' → low RW Q (f a) (f' a')) → low RW Q (m ≫= f) (m' ≫= f').
Proof.
  intros Hm Hf w w' Hw. specialize (Hm w w' Hw). unfold mbind, eff_bind.
  destruct (m w) as [[a v]| |], (m' w') as [[a' v']| |]; try done.
  destruct Hm as [HR Hv]. by apply Hf.
Qed.
Lemma low_weaken (R Q : A → A' → Prop) m m' : low RW R m m' → (∀ a a', R a a' → Q a a') → low RW Q m m'.
Proof.
  intros Hm HRQ w w' Hw. specialize (Hm w w' Hw).
  destruct (m w) as [[a v]| |], (m' w') as [[a' v']| |]; try done. destruct Hm. auto.
Qed.
Lemma low_lift (c : cxx A) : low RW eq ⌊ c ⌋ ⌊ c ⌋.
Proof. intros w w' Hw. unfold lift. by destruct c. Qed.
End Low.

(** Both values are there, or neither. *)
Definition same_presence {A B} (a : option A) (b : option B) : Prop := is_Some a ↔ is_Some b.
Lemma same_presence_bool {A B} (a : option A) (b : option B) :
  same_presence a b → bool_decide (is_Some a) = bool_decide (is_Some b).
Proof. intros H. by apply bool_decide_ext. Qed.
Lemma same_presence_cases {A B} (a : option A) (b : option B) :
  same_presence a b → (∃ x y, a = Some x ∧ b = Some y) ∨ (a = None ∧ b = None).
Proof. unfold same_presence. destruct a, b; intros [H1 H2]; eauto; [by destruct H1|by destruct H2]. Qed.

Section Providers.
Context {W : Type} (RW : W → W → Prop).

Definition low_provider (p p' : SecretProvider W) : Prop :=
  (∀ key, low RW same_presence (resolve p key) (resolve p' key)) ∧
  (∀ key, low RW eq (refresh p key) (refresh p' key)).
Definition low_entry (e e' : ChainEntry W) : Prop :=
  entry_prefix e = entry_prefix e' ∧ default_for_unqualified e = default_for_unqualified e' ∧
  low_provider (entry_provider e) (entry_provider e').

Lemma low_env getenv getenv' :
  (∀ key, low RW same_presence (getenv key) (getenv' key)) →
  low_provider (EnvSecretProvider getenv) (EnvSecretProvider getenv').
Proof. intros H. split; intros key; cbn; [apply H|by apply low_ret]. Qed.
Lemma low_resolve_default entries entries' key :
  Forall2 low_entry entries entries' → low RW same_presence (resolve_default entries key) (resolve_default entries' key).
Proof.
  induction 1 as [|e e' l l' (_ & Hd & Hp & _) _ IH]; cbn [resolve_default]; [by apply low_ret|].
  rewrite <-Hd. destruct (default_for_unqualified e); [|done]. eapply low_bind; [apply Hp|].
  intros a a' [(x & y & -> & ->)|[-> ->]]%same_presence_cases; [|done]. apply low_ret. split; eauto.
Qed.
Lemma low_refresh_default entries entries' key :
  Forall2 low_entry entries entries' → low RW eq (refresh_default entries key) (refresh_default entries' key).
Proof.
  induction 1 as [|e e' l l' (_ & Hd & _ & Hp) _ IH]; cbn [refresh_default]; [by apply low_ret|].
  rewrite <-Hd. eapply (low_bind RW eq); [|done]. destruct (default_for_unqualified e); [apply Hp|by apply low_ret].
Qed.
Lemma low_routed entries entries' key :
  Forall2 low_entry entries entries' →
  match provider_for_prefixed_key entries key, provider_for_prefixed_key entries' key with
  | Some (Some e, k), Some (Some e', k') => low_entry e e' ∧ k = k'
  | Some (None, _), Some (None, _) | None, None => True
  | _, _ => False
  end.
Proof.
  intros H. unfold provider_for_prefixed_key. destruct (split_colon key) as [[p k]|]; [|done].
  destruct (_ || _); [done|]. induction H as [|e e' l l' He _ IH]; [done|].
  pose proof He as (Hpre & _). rewrite !filter_cons, <-Hpre. destruct (decide (entry_prefix e = p)); [done|exact IH].
Qed.
(** A chain of indistinguishable providers is one. *)
Lemma low_chain entries entries' :
  Forall2 low_entry entries entries' → low_provider (SecretProviderChain entries) (SecretProviderChain entries').
Proof.
  intros H. split; intros key; cbn [resolve refresh SecretProviderChain]; pose proof (low_routed _ _ key H) as Hr;
    destruct (provider_for_prefixed_key entries key) as [[[e|] k]|],
      (provider_for_prefixed_key entries' key) as [[[e'|] k']|]; try done.
  - destruct Hr as [(_ & _ & Hp & _) ->]. apply Hp.
  - by apply low_resolve_default.
  - destruct Hr as [(_ & _ & _ & Hp) ->]. apply Hp.
  - by apply low_refresh_default.
Qed.
End Providers.

(** ** The manager and the rotation *)
(** What the code's clients ask for, and what they observe. *)
Inductive secret_op (W : Type) :=
  | OpGet (key who : string)
  | OpRefresh (key who : string)
  | OpAuth (config : AuthConfig)
  | OpAddPolicy (policy : RotationPolicy)
  | OpRemovePolicy (key : string)
  | OpOnRotation (cb : RotationCallback W)
  | OpRotate (key : string)
  | OpCheck.
Arguments OpGet {W} _ _.
Arguments OpRefresh {W} _ _.
Arguments OpAuth {W} _.
Arguments OpAddPolicy {W} _.
Arguments OpRemovePolicy {W} _.
Arguments OpOnRotation {W} _.
Arguments OpRotate {W} _.
Arguments OpCheck {W}.
Inductive secret_obs :=
  | ObsValue (v : option string) | ObsAuth (r : ResolvedAuth) | ObsEvents (l : list RotationEvent) | ObsNone.

Definition secret_step {W} `{SystemClock W} (p : SecretProvider W) (op : secret_op W) : eff (SecretState W) secret_obs :=
  match op with
  | OpGet key who => v ← get_secret p key who; mret (ObsValue v)
  | OpRefresh key who => _ ← refresh_secret p key who; mret ObsNone
  | OpAuth config => r ← resolve_auth p config; mret (ObsAuth r)
  | OpAddPolicy policy => _ ← add_policy policy; mret ObsNone
  | OpRemovePolicy key => _ ← remove_policy key; mret ObsNone
  | OpOnRotation cb => _ ← on_rotation cb; mret ObsNone
  | OpRotate key => e ← rotate_key p key; mret (ObsEvents [e])
  | OpCheck => l ← check_and_rotate p; mret (ObsEvents l)
  end.
Fixpoint run_secrets {W} `{SystemClock W} (p : SecretProvider W) (ops : list (secret_op W)) : eff (SecretState W) (list secret_obs) :=
  match ops with
  | [] => mret []
  | op :: ops => o ← secret_step p op; os ← run_secrets p ops; mret (o :: os)
  end.
Definition start_secrets {W} (w : W) : SecretState W := mkSecrets w [] ∅ [] [] ∅.

(** Credentials that differ at most in the secrets. *)
Definition same_shape (r r' : ResolvedAuth) : Prop :=
  auth_success r = auth_success r' ∧ auth_error r = auth_error r' ∧
  dom (auth_headers r) = dom (auth_headers r') ∧ length (curl_flags r) = length (curl_flags r').
Definition same_obs (o o' : secret_obs) : Prop :=
  match o, o' with
  | ObsValue v, ObsValue v' => same_presence v v'
  | ObsAuth r, ObsAuth r' => same_shape r r'
  | ObsEvents l, ObsEvents l' => l = l'
  | ObsNone, ObsNone => True
  | _, _ => False
  end.

Section Noninterference.
Context {W : Type} `{SystemClock W} (RW : W → W → Prop).
Context (p p' : SecretProvider W) (Hp : low_provider RW p p').
Context (Hclock : ∀ w w', RW w w' → (system_now w).1 = (system_now w').1 ∧ RW (system_now w).2 (system_now w').2).

Definition low_callback (cb cb' : RotationCallback W) : Prop := ∀ e, low RW eq (cb e) (cb' e).
Definition low_op (op op' : secret_op W) : Prop :=
  match op, op' with OpOnRotation cb, OpOnRotation cb' => low_callback cb cb' | _, _ => op = op' end.
Record low_state (s s' : SecretState W) : Prop := mkLow {
  low_outside : RW (outside s) (outside s');
  low_audit : audit_log s = audit_log s';
  low_policies : policies_ s = policies_ s';
  low_history : history_ s = history_ s';
  low_callbacks : Forall2 low_callback (callbacks_ s) (callbacks_ s');
  low_last : last_rotation_ s = last_rotation_ s' }.
Abbreviation lows := (low low_state).

Lemma low_run_outside {A B} (R : A → B → Prop) m m' : low RW R m m' → lows R (run_outside m) (run_outside m').
Proof.
  intros Hm s s' Hs. specialize (Hm _ _ (low_outside _ _ Hs)). unfold run_outside.
  destruct (m (outside s)) as [[a v]| |], (m' (outside s')) as [[a' v']| |]; try done.
  destruct Hm as [HR Hv]. split; [done|]. by destruct Hs.
Qed.
Lemma low_now : lows eq read_system_clock read_system_clock.
Proof.
  apply low_run_outside. intros w w' Hw. destruct (Hclock _ _ Hw) as [H1 H2].
  destruct (system_now w), (system_now w'). done.
Qed.
Lemma low_modify f f' : (∀ s s', low_state s s' → low_state (f s) (f' s')) → lows eq (modify_secrets f) (modify_secrets f').
Proof. intros Hf s s' Hs. split; [done|]. by apply Hf. Qed.
Lemma low_read {A} (f : SecretState W → A) :
  (∀ s s', low_state s s' → f s = f s') → lows eq (λ s, Ret (f s, s)) (λ s, Ret (f s, s)).
Proof. intros Hf s s' Hs. split; auto. Qed.

(** The proof search of the section: both runs are the same code. *)
Ltac low_step :=
  match goal with
  | |- low _ _ (mret _) (mret _) => apply low_ret
  | |- low _ eq read_system_clock _ => apply low_now
  | |- low _ _ (modify_secrets _) _ =>
      apply low_modify; intros ? ? []; constructor; cbn [outside audit_log policies_ history_ callbacks_ last_rotation_]; try done; try congruence
  | |- low _ _ (_ ≫= _) _ => eapply (low_bind _ eq); [|intros ? ? <-]
  end.

Lemma low_get key who : lows same_presence (get_secret p key who) (get_secret p' key who).
Proof.
  unfold get_secret. eapply low_bind; [apply low_run_outside, Hp|]. intros a b Hab.
  rewrite (same_presence_bool _ _ Hab). unfold record_access. by repeat low_step.
Qed.
Lemma low_refresh key who : lows eq (refresh_secret p key who) (refresh_secret p' key who).
Proof.
  unfold refresh_secret, record_access. low_step; [apply low_run_outside, Hp|]. by repeat low_step.
Qed.
Lemma low_resolve_auth config : lows same_shape (resolve_auth p config) (resolve_auth p' config).
Proof.
  assert (∀ scheme, lows same_shape (resolve_token p scheme config) (resolve_token p' scheme config)) as Htok.
  { intros scheme. unfold resolve_token. case_bool_decide; [by apply low_ret|].
    eapply low_bind; [apply low_get|]. intros a b [(x & y & -> & ->)|[-> ->]]%same_presence_cases; apply low_ret; [|done].
    by repeat split. }
  unfold resolve_auth. destruct (auth_scheme config); [by apply low_ret|apply Htok|apply Htok|].
  unfold resolve_mtls. do 2 (case_bool_decide; [by apply low_ret|]).
  eapply low_bind; [apply low_get|]. intros a b Hab. eapply low_bind; [apply low_get|]. intros c d Hcd.
  apply low_ret. destruct (same_presence_cases _ _ Hab) as [(x & y & -> & ->)|[-> ->]]; [|done].
  by destruct (same_presence_cases _ _ Hcd) as [(x' & y' & -> & ->)|[-> ->]].
Qed.

Lemma low_refresh_loop n key attempts : lows eq (refresh_loop p n key attempts) (refresh_loop p' n key attempts).
Proof.
  revert attempts. induction n as [|n IH]; intros attempts; cbn [refresh_loop]; [by apply low_ret|].
  low_step; [apply low_run_outside, Hp|]. eapply low_bind; [apply low_run_outside, Hp|].
  intros v v' Hv. rewrite (same_presence_bool _ _ Hv). case_bool_decide; [by apply low_ret|apply IH].
Qed.
Lemma low_run_callbacks cbs cbs' e : Forall2 low_callback cbs cbs' → lows eq (run_callbacks cbs e) (run_callbacks cbs' e).
Proof.
  induction 1 as [|cb cb' l l' Hcb _ IH]; cbn [run_callbacks]; [by apply low_ret|].
  low_step; [apply low_run_outside, Hcb|done].
Qed.
Lemma low_rotate key : lows eq (rotate_key p key) (rotate_key p' key).
Proof.
  unfold rotate_key. low_step; [apply low_now|]. eapply low_bind; [apply low_run_outside, Hp|]. intros v v' Hv.
  low_step; [apply (low_read (λ s, policies_ s !! key)); intros ? ? []; cbv beta; congruence|].
  low_step; [apply low_refresh_loop|]. cbv zeta. rewrite (same_presence_bool _ _ Hv). destruct a1 as [found attempts]. cbn [fst snd].
  low_step; [destruct found; unfold set_last_rotation; by repeat low_step|].
  low_step; [unfold push_history; by repeat low_step|].
  eapply (low_bind _ (Forall2 low_callback)); [intros s s' Hs; split; [apply Hs|done]|].
  intros cbs cbs' Hcbs. low_step; [by apply low_run_callbacks|by apply low_ret].
Qed.
Lemma low_check_policies now l : lows eq (check_policies p now l) (check_policies p' now l).
Proof.
  induction l as [|[key policy] l IH]; cbn [check_policies]; [by apply low_ret|].
  low_step; [apply (low_read (λ s, last_rotation_ s !! key)); intros ? ? []; cbv beta; congruence|].
  low_step; [apply low_lift|]. low_step; [destruct a0; [low_step; [apply low_rotate|]|]; by apply low_ret|].
  low_step; [done|by apply low_ret].
Qed.
Lemma low_secret_step op op' : low_op op op' → lows same_obs (secret_step p op) (secret_step p' op').
Proof.
  intros Hop. destruct op, op'; try discriminate Hop; cbn [low_op] in Hop; try (injection Hop as ->; try subst); cbn [secret_step].
  - eapply low_bind; [apply low_get|]. intros v v' Hv. by apply low_ret.
  - low_step; [apply low_refresh|by apply low_ret].
  - eapply low_bind; [apply low_resolve_auth|]. intros v v' Hv. by apply low_ret.
  - unfold add_policy. by repeat low_step.
  - unfold remove_policy. by repeat low_step.
  - unfold on_rotation. repeat low_step; [|done]. apply Forall2_app; [done|by repeat constructor].
  - low_step; [apply low_rotate|by apply low_ret].
  - low_step; [|by apply low_ret]. unfold check_and_rotate. low_step; [apply low_now|].
    low_step; [apply (low_read (λ s, map_to_list (policies_ s))); intros ? ? []; cbv beta; congruence|apply low_check_policies].
Qed.
Lemma low_run_secrets ops ops' : Forall2 low_op ops ops' → lows (Forall2 same_obs) (run_secrets p ops) (run_secrets p' ops').
Proof.
  induction 1 as [|op op' l l' Hop _ IH]; cbn [run_secrets]; [by apply low_ret|].
  eapply low_bind; [by apply low_secret_step|]. intros o o' Ho. eapply low_bind; [done|]. intros os os' Hos.
  apply low_ret. by constructor.
Qed.
End Noninterference.

(** C37: Two runs of any sequence of accesses, authentications, policy changes
    and rotations, whose providers hold the same keys with possibly different
    values, leave the same audit log, rotation history, policies and rotation
    times, return the same events and errors, and succeed and fail alike: what
    is recorded or reported depends on which secrets exist, never on their
    values. *)
Theorem secrets_do_not_leak {W} `{SystemClock W} (RW : W → W → Prop) p p' ops ops' w w' :
  low_provider RW p p' →
  (∀ w w', RW w w' → (system_now w).1 = (system_now w').1 ∧ RW (system_now w).2 (system_now w').2) →
  Forall2 (low_op RW) ops ops' → RW w w' →
  match run_secrets p ops (start_secrets w), run_secrets p' ops' (start_secrets w') with
  | Ret (os, s), Ret (os', s') =>
      Forall2 same_obs os os' ∧ audit_log s = audit_log s' ∧ history_ s = history_ s' ∧
      policies_ s = policies_ s' ∧ last_rotation_ s = last_rotation_ s' ∧ RW (outside s) (outside s')
  | UB, UB | NoFuel, NoFuel => True
  | _, _ => False
  end.
Proof.
  intros Hp Hclock Hops Hw.
  pose proof (low_run_secrets RW p p' Hp Hclock ops ops' Hops (start_secrets w) (start_secrets w')) as Hr.
  destruct (run_secrets p ops _) as [[os s]| |], (run_secrets p' ops' _) as [[os' s']| |];
    try (apply Hr; by constructor); by destruct Hr as [? []].
Qed.

(** A vault whose keys are a function of the key, and a clock that ticks. *)
Definition vault_world : Type := Z * (string → option string).
#[local] Instance vault_clock : SystemClock vault_world := λ w, (w.1, (w.1 + 1, w.2)).
Definition vault : SecretProvider vault_world := mkProvider (λ key w, Ret (w.2 key, w)) (λ _, mret tt).
Definition vault_chain : SecretProvider vault_world := SecretProviderChain [mkChainEntry "vault" vault true].
Definition same_keys (w w' : vault_world) : Prop := w.1 = w'.1 ∧ ∀ key, same_presence (w.2 key) (w'.2 key).
Definition vault_with (value : string) : vault_world := (0, λ key, if bool_decide (key = "token") then Some value else None).
Definition vault_ops : list (secret_op vault_world) :=
  [OpAddPolicy (mkPolicy "vault:token" 3600 300 3); OpCheck; OpGet "token" "test"; OpRotate "vault:other";
   OpAuth (mkAuth BearerToken "vault:token" "" "" "" "")].
Lemma secrets_do_not_leak_witness :
  match run_secrets vault_chain vault_ops (start_secrets (vault_with "a")),
        run_secrets vault_chain vault_ops (start_secrets (vault_with "b")) with
  | Ret (os, s), Ret (os', s') =>
      Forall2 same_obs os os' ∧ audit_log s = audit_log s' ∧ history_ s = history_ s' ∧
      policies_ s = policies_ s' ∧ last_rotation_ s = last_rotation_ s' ∧ same_keys (outside s) (outside s')
  | UB, UB | NoFuel, NoFuel => True
  | _, _ => False
  end.
Proof.
  apply (secrets_do_not_leak same_keys).
  - apply low_chain. constructor; [|constructor]. split; [done|]. split; [done|]. split.
    + intros key w w' Hw. split; [apply Hw|done].
    + intros key. by apply low_ret.
  - intros w w' Hw. pose proof Hw as [H1 H2]. split; [exact H1|]. split; [cbn; congruence|exact H2].
  - by repeat constructor.
  - split; [done|]. intros key. unfold vault_with. cbn [snd]. case_bool_decide; by split; intros []; eauto.
Defined.
(** What the run returns: the values differ, and nothing else. *)
Example vault_run :
  match run_secrets vault_chain vault_ops (start_secrets (vault_with "a")) with
  | Ret (os, s) =>
      nth 2 os ObsNone = ObsValue (Some "a") ∧
      (λ e, (rotation_key e, rotation_status e, rotation_attempts e)) <$> history_ s =
        [("vault:token", RotationStatus.Completed, 1); ("vault:other", RotationStatus.Failed, 1)] ∧
      (λ e, (access_key e, access_success e)) <$> audit_log s = [("token", true); ("vault:token", true)]
  | _ => False
  end.
Proof. vm_compute. by repeat split. Qed.

(** ** The attempts of a rotation *)
Lemma refresh_loop_attempts {W} (p : SecretProvider W) n key a s r s' :
  0 ≤ a → a + Z.of_nat n ≤ size_max → refresh_loop p n key a s ⇓ (r, s') →
  a ≤ r.2 ≤ a + Z.of_nat n ∧ (r.1 = false → r.2 = a + Z.of_nat n) ∧ (r.1 = true → a < r.2).
Proof.
  revert a s. induction n as [|n IH]; intros a s Ha Hn Hr; cbn [refresh_loop] in Hr.
  { injection Hr as <- <-. cbn. lia. }
  inv_eff Hr. inv_eff Hr.
  assert (size_succ a = a + 1) as Hs by (unfold size_succ, to_size, size_max in *; apply Z.mod_small; lia).
  case_bool_decide.
  - injection Hr as <- <-. cbn [fst snd]. rewrite Hs. split; [lia|]. split; [done|lia].
  - rewrite Hs in Hr. apply IH in Hr; [|lia..]. destruct Hr as (?&Hf&Ht).
    split; [lia|]. split; intros Hb; [rewrite Hf by done; lia|lia].
Qed.
Lemma run_outside_inv {W A} (m : eff W A) s a s' :
  run_outside m s ⇓ (a, s') → ∃ w, m (outside s) ⇓ (a, w) ∧ s' = set_outside s w.
Proof. unfold run_outside. destruct (m (outside s)) as [[b w]| |]; [|done..]. intros [= <- <-]. eauto. Qed.
Lemma refresh_loop_outside {W} (p : SecretProvider W) n key a s r s' :
  refresh_loop p n key a s ⇓ (r, s') → ∃ w, s' = set_outside s w.
Proof.
  revert a s. induction n as [|n IH]; intros a s Hr; cbn [refresh_loop] in Hr.
  { injection Hr as _ <-. exists (outside s). by destruct s. }
  inv_eff Hr. apply run_outside_inv in E as (w1 & _ & ->). inv_eff Hr. apply run_outside_inv in E as (w2 & _ & ->).
  case_bool_decide; [injection Hr as _ <-; by eexists|]. apply IH in Hr as [w3 ->]. by eexists.
Qed.
Lemma rotation_limit_value retries key i g :
  0 ≤ retries < size_max → rotation_limit (Some (mkPolicy key i g retries)) = retries + 1.
Proof. intros Hr. unfold rotation_limit. cbn [policy_retries]. pose proof (Z.mod_small (retries + 1) (2 ^ 64)). unfold size_succ, to_size, size_max in *. lia. Qed.
(** [max_retries + 1] attempts at most, and that many before a rotation fails;
    the event is the last of the history. *)
Lemma rotate_key_attempts {W} `{SystemClock W} (p : SecretProvider W) key i g retries s e s' :
  policies_ s !! key = Some (mkPolicy key i g retries) → 0 ≤ retries < size_max - 1 → callbacks_ s = [] →
  rotate_key p key s ⇓ (e, s') →
  1 ≤ rotation_attempts e ≤ retries + 1 ∧
  (rotation_status e = RotationStatus.Failed → rotation_attempts e = retries + 1) ∧
  history_ s' = history_ s ++ [e] ∧
  last_rotation_ s' = (if rotated_value_present e then <[key := rotation_time e]> (last_rotation_ s) else last_rotation_ s).
Proof.
  intros Hpol Hret Hcb Hr. unfold rotate_key in Hr.
  inv_eff Hr. apply (run_outside_inv (λ w, Ret (system_now w))) in E as (w1 & _ & ->). inv_eff Hr. apply run_outside_inv in E as (w2 & _ & ->).
  inv_eff Hr. injection E as <- <-. cbn [policies_ set_outside] in Hr. rewrite Hpol, rotation_limit_value in Hr by lia.
  inv_eff Hr. pose proof (refresh_loop_outside _ _ _ _ _ _ _ E) as [w3 ->].
  apply refresh_loop_attempts in E as (Hb & Hf & Ht); [|lia..]. destruct r1 as [found n]. cbn [fst snd] in *.
  rewrite Z2Nat.id in Hb, Hf by lia.
  apply eff_bind_ret in Hr as ([] & s1 & E & Hr). inv_eff Hr. injection E0 as _ <-. inv_eff Hr. injection E0 as <- <-.
  assert (callbacks_ s1 = [] ∧ history_ s1 = history_ s ∧
    last_rotation_ s1 = if found then <[key := r]> (last_rotation_ s) else last_rotation_ s) as (Hcbs & Hh & Hl).
  { destruct found; injection E as <-; done. }
  cbn [callbacks_] in Hr. rewrite Hcbs in Hr. cbn in Hr. injection Hr as <- <-. cbn. rewrite Hh, Hl.
  repeat split; try done; [destruct found; [specialize (Ht eq_refl)|specialize (Hf eq_refl)]; lia|lia|].
  destruct found; [done|]. intros _. rewrite Hf by done. lia.
Qed.
