(* ===== verification/Curl.v ===== *)
(** * HTTP over a curl process (src/base/support/curl.{hpp,cpp}, http.{hpp,cpp})

    A request becomes the configuration file that a curl process reads, and
    the output of the process becomes the response.  Processes and temporary
    files are the class [CurlEnvironment]. *)
From S2P Require Import Json JsonProps JsonRoundtrip.
From S2P Require Import Prelude Numeric.
From Stdlib Require Import Ascii.
Open Scope Z_scope.
Open Scope ahfl_scope.

(** ** [int] *)
Definition int_max : Z := 2 ^ 31 - 1.
Definition int_min : Z := - 2 ^ 31.
Definition in_int (z : Z) : bool := (int_min <=? z) && (z <=? int_max).
Definition int_add (a b : Z) : cxx Z := if in_int (a + b) then Ret (a + b) else UB.
(** The conversion of a wider integer to [int]: modulo 2^32. *)
Definition to_int (z : Z) : Z := (z + 2 ^ 31) mod 2 ^ 32 - 2 ^ 31.
(** [std::stoi] *)
Definition stoi (s : string) : conv Z :=
  match stoll s with
  | ConvOk z => if in_int z then ConvOk z else OutOfRange
  | c => c
  end.

(** ** Text *)
Definition nl : ascii := "010"%char.
Definition cr : ascii := "013"%char.
Definition tab : ascii := "009"%char.
Definition dquote : ascii := "034"%char.
Definition backslash : ascii := "\"%char.
Definition of_char (c : ascii) : string := String c "".

Module HttpVersion.
Inductive t := Default | Http2 | Http2PriorKnowledge.
End HttpVersion.
Abbreviation header_list := (list (string * string)).
(** [CurlRequest], and the [HttpRequest] of support/http, which has the same
    fields. *)
Record CurlRequest := mkCurlRequest {
  curl_method : string; curl_url : string; curl_headers : header_list; curl_body : option string;
  timeout_seconds : Z; http_version : HttpVersion.t; capture_headers : bool;
  client_certificate : string; client_key : string; ca_certificate : string; verify_tls : bool }.
Record CurlHeaderBlock := mkBlock { has_status_line : bool; block_headers : header_list }.
Record CurlResponse := mkCurlResponse {
  curl_status : Z; curl_exit : Z; response_body : string; curl_error : string; curl_timed_out : bool;
  response_headers : header_list; response_header_blocks : list CurlHeaderBlock }.
Record ProcessResult := mkProcess {
  exit_code : Z; stdout_output : string; stderr_output : string; process_timed_out : bool }.

(** ** The configuration (curl.cpp) *)
Definition quote_char (c : ascii) : string :=
  if bool_decide (c = backslash) then "\\"
  else if bool_decide (c = dquote) then String backslash (of_char dquote)
  else if bool_decide (c = nl) then "\n"
  else if bool_decide (c = cr) then "\r"
  else if bool_decide (c = tab) then "\t"
  else of_char c.
Fixpoint quote_chars (s : string) : string :=
  match s with EmptyString => EmptyString | String c s => quote_char c +:+ quote_chars s end.
Definition quote_config_value (value : string) : string := of_char dquote +:+ quote_chars value +:+ of_char dquote.

Definition line (s : string) : string := s +:+ of_char nl.
Definition assign (name value : string) : string := line (name +:+ " = " +:+ quote_config_value value).
Definition assign_present (name value : string) : string := if bool_decide (value = "") then "" else assign name value.
Fixpoint header_lines (headers : header_list) : string :=
  match headers with
  | [] => ""
  | (key, value) :: headers => assign "header" (key +:+ ": " +:+ value) +:+ header_lines headers
  end.
Definition build_curl_config (request : CurlRequest) (body_path header_path : option string) : string :=
  line "silent" +:+ line "show-error" +:+ assign "write-out" (of_char nl +:+ "%{http_code}") +:+
  assign "request" (curl_method request) +:+ assign "url" (curl_url request) +:+
  assign "max-time" (to_string (timeout_seconds request)) +:+
  match http_version request with
  | HttpVersion.Default => ""
  | HttpVersion.Http2 => line "http2"
  | HttpVersion.Http2PriorKnowledge => line "http2-prior-knowledge"
  end +:+
  header_lines (curl_headers request) +:+
  match body_path with Some path => assign "data-binary" ("@" +:+ path) | None => "" end +:+
  match header_path with Some path => assign "dump-header" path | None => "" end +:+
  assign_present "cert" (client_certificate request) +:+ assign_present "key" (client_key request) +:+
  assign_present "cacert" (ca_certificate request) +:+ (if verify_tls request then "" else line "insecure").

(** ** The headers that curl dumps *)
(** [std::getline] over the text: the lines without their ends. *)
Fixpoint getlines (current : string) (text : string) : list string :=
  match text with
  | EmptyString => if bool_decide (current = "") then [] else [current]
  | String c text => if bool_decide (c = nl) then current :: getlines "" text else getlines (current +:+ of_char c) text
  end.
Fixpoint pop_cr (s : string) : string :=
  match s with
  | EmptyString => EmptyString
  | String c EmptyString => if bool_decide (c = cr) then EmptyString else s
  | String c s => String c (pop_cr s)
  end.
Fixpoint skip_blanks (s : string) : string :=
  match s with
  | String c r => if bool_decide (c = " "%char) || bool_decide (c = tab) then skip_blanks r else s
  | EmptyString => EmptyString
  end.
Fixpoint cut_at (stop : ascii) (s : string) : option (string * string) :=
  match s with
  | EmptyString => None
  | String c s => if bool_decide (c = stop) then Some (EmptyString, s) else p ← cut_at stop s; Some (String c p.1, p.2)
  end.
Definition has_prefix (pre s : string) : bool := String.prefix pre s.

Definition flush_block (current : option CurlHeaderBlock) : list CurlHeaderBlock :=
  match current with Some b => [b] | None => [] end.
(** The current block is [Some] when it has a line. *)
Fixpoint parse_header_lines (current : option CurlHeaderBlock) (lines : list string) : list CurlHeaderBlock :=
  match lines with
  | [] => flush_block current
  | l :: lines =>
      let l := pop_cr l in
      if bool_decide (l = "") then flush_block current ++ parse_header_lines None lines
      else if has_prefix "HTTP/" l then flush_block current ++ parse_header_lines (Some (mkBlock true [])) lines
      else
        match cut_at ":"%char l with
        | None => parse_header_lines current lines
        | Some (key, value) =>
            let block := default (mkBlock false []) current in
            parse_header_lines
              (Some (mkBlock (has_status_line block) (block_headers block ++ [(key, skip_blanks value)]))) lines
        end
  end.
Definition parse_header_blocks (file : option string) : list CurlHeaderBlock :=
  match file with Some text => parse_header_lines None (getlines "" text) | None => [] end.
Definition flatten_header_blocks (blocks : list CurlHeaderBlock) : header_list := blocks ≫= block_headers.

(** ** The output of the process *)
Fixpoint strip_line_ends (s : string) : string :=
  match s with
  | EmptyString => EmptyString
  | String c s =>
      let rest := strip_line_ends s in
      if bool_decide (rest = "") && (bool_decide (c = nl) || bool_decide (c = cr)) then EmptyString else String c rest
  end.
(** The text before and after the last [stop]. *)
Fixpoint cut_last (stop : ascii) (s : string) : option (string * string) :=
  match s with
  | EmptyString => None
  | String c s =>
      match cut_last stop s with
      | Some p => Some (String c p.1, p.2)
      | None => if bool_decide (c = stop) then Some (EmptyString, s) else None
      end
  end.
Definition parse_curl_output (process : ProcessResult) : CurlResponse :=
  if process_timed_out process then mkCurlResponse 0 (exit_code process) "" "timeout" true [] []
  else
    let output := strip_line_ends (stdout_output process) in
    let '(body, status_text) := match cut_last nl output with Some p => p | None => ("", output) end in
    let '(status, body) :=
      match stoi status_text with ConvOk status => (status, body) | _ => (0, stdout_output process) end in
    let error :=
      if bool_decide (exit_code process = 0) then ""
      else if bool_decide (stderr_output process = "")
           then "curl failed with exit code " +:+ to_string (exit_code process)
           else stderr_output process in
    mkCurlResponse status (exit_code process) body error false [] [].

(** ** The call *)
Class CurlEnvironment (W : Type) := {
  (** A new file with this name prefix and content: its path, and the error. *)
  temp_write : string → string → eff W (string * option string);
  temp_remove : string → eff W unit;
  read_file : string → eff W (option string);
  (** executable, arguments, standard input, timeout in seconds *)
  launch_process : string → list string → string → Z → eff W ProcessResult }.

Definition curl_failure (msg : string) : CurlResponse := mkCurlResponse 0 (-1) "" msg false [] [].
Definition with_header_blocks (blocks : list CurlHeaderBlock) (r : CurlResponse) : CurlResponse :=
  mkCurlResponse (curl_status r) (curl_exit r) (response_body r) (curl_error r) (curl_timed_out r)
    (flatten_header_blocks blocks) blocks.

Section Execute.
Context {W : Type} `{CurlEnvironment W}.
Definition run_curl (request : CurlRequest) (body_path header_path : option string) : eff W CurlResponse :=
  limit ← ⌊ int_add (timeout_seconds request) 5 ⌋;
  process ← launch_process "curl" ["--config"; "-"] (build_curl_config request body_path header_path) limit;
  let response := parse_curl_output process in
  match header_path with
  | Some path => file ← read_file path; mret (with_header_blocks (parse_header_blocks file) response)
  | None => mret response
  end.
Definition curl_with_headers (request : CurlRequest) (body_path : option string) : eff W CurlResponse :=
  if capture_headers request then
    file ← temp_write "ahfl-curl-headers-" "";
    let '(path, error) := file in
    response ← match error with
               | Some e => mret (curl_failure ("failed to create curl header file: " +:+ e))
               | None => run_curl request body_path (Some path)
               end;
    _ ← temp_remove path; mret response
  else run_curl request body_path None.
Definition execute_curl (request : CurlRequest) : eff W CurlResponse :=
  match curl_body request with
  | Some content =>
      file ← temp_write "ahfl-curl-body-" content;
      let '(path, error) := file in
      response ← match error with
                 | Some e => mret (curl_failure ("failed to write curl body file: " +:+ e))
                 | None => curl_with_headers request (Some path)
                 end;
      _ ← temp_remove path; mret response
  | None => curl_with_headers request None
  end.
End Execute.

Definition describe_curl_command (request : CurlRequest) : string :=
  "curl --config - # " +:+ curl_method request +:+ " " +:+ curl_url request +:+
  " headers=" +:+ to_string (Z.of_nat (length (curl_headers request))) +:+
  match curl_body request with
  | Some body => " body_bytes=" +:+ to_string (Z.of_nat (String.length body))
  | None => ""
  end +:+ " --max-time " +:+ to_string (timeout_seconds request).

(** ** The configuration and the output of curl

    No value of a request can forge a line of the configuration: the settings
    can be read back from it.  The body and the status of a response are found
    again in the output of the process, whatever the body holds. *)

(** ** The settings of a request *)
(** A flag, or a name and its value. *)
Abbreviation setting := (string * option string)%type.
Definition present (name value : string) : list setting := if bool_decide (value = "") then [] else [(name, Some value)].
Definition settings (r : CurlRequest) (body_path header_path : option string) : list setting :=
  [("silent", None); ("show-error", None); ("write-out", Some (of_char nl +:+ "%{http_code}"));
   ("request", Some (curl_method r)); ("url", Some (curl_url r)); ("max-time", Some (to_string (timeout_seconds r)))] ++
  match http_version r with
  | HttpVersion.Default => []
  | HttpVersion.Http2 => [("http2", None)]
  | HttpVersion.Http2PriorKnowledge => [("http2-prior-knowledge", None)]
  end ++
  ((λ h, ("header", Some (h.1 +:+ ": " +:+ h.2))) <$> curl_headers r) ++
  match body_path with Some path => [("data-binary", Some ("@" +:+ path))] | None => [] end ++
  match header_path with Some path => [("dump-header", Some path)] | None => [] end ++
  present "cert" (client_certificate r) ++ present "key" (client_key r) ++ present "cacert" (ca_certificate r) ++
  (if verify_tls r then [] else [("insecure", None)]).

Definition setting_line (x : setting) : string :=
  match x.2 with Some v => assign x.1 v | None => line x.1 end.
Fixpoint setting_lines (l : list setting) : string :=
  match l with [] => "" | x :: l => setting_line x +:+ setting_lines l end.
Lemma setting_lines_app l l' : setting_lines (l ++ l') = setting_lines l +:+ setting_lines l'.
Proof. induction l as [|x l IH]; [done|]. cbn [setting_lines app]. by rewrite IH, string_app_assoc. Qed.
Lemma setting_lines_headers headers :
  setting_lines ((λ h, ("header", Some (h.1 +:+ ": " +:+ h.2))) <$> headers) = header_lines headers.
Proof. induction headers as [|[k v] l IH]; [done|]. cbn. by rewrite IH. Qed.
Lemma setting_lines_present name v : setting_lines (present name v) = assign_present name v.
Proof. unfold present, assign_present. case_bool_decide; [done|]. apply string_app_nil. Qed.
Lemma config_settings r b h : build_curl_config r b h = setting_lines (settings r b h).
Proof.
  unfold build_curl_config, settings. rewrite !setting_lines_app, setting_lines_headers, !setting_lines_present.
  cbn [setting_lines]. unfold setting_line. cbn [fst snd]. rewrite !string_app_assoc, string_nil_app.
  destruct (http_version r), b, h, (verify_tls r); cbn [setting_lines]; unfold setting_line; cbn [fst snd];
    by rewrite ?string_app_nil.
Qed.

(** ** Reading a configuration *)
Definition unquote_char (c : ascii) : ascii :=
  if bool_decide (c = "n"%char) then nl
  else if bool_decide (c = "r"%char) then cr
  else if bool_decide (c = "t"%char) then tab
  else c.
(** The value up to the closing quote, and the rest of the text. *)
Fixpoint read_value (s : string) : option (string * string) :=
  match s with
  | EmptyString => None
  | String c s =>
      if bool_decide (c = dquote) then Some (EmptyString, s)
      else if bool_decide (c = backslash) then
        match s with
        | String d s => p ← read_value s; Some (String (unquote_char d) p.1, p.2)
        | EmptyString => None
        end
      else p ← read_value s; Some (String c p.1, p.2)
  end.
Lemma of_char_app c s : of_char c +:+ s = String c s.
Proof. done. Qed.
Lemma read_value_quote v rest : read_value (quote_chars v +:+ of_char dquote +:+ rest) = Some (v, rest).
Proof.
  rewrite of_char_app. induction v as [|c v IH]; [done|]. cbn [quote_chars]. rewrite string_app_assoc. unfold quote_char.
  repeat case_bool_decide; subst; rewrite ?string_cons_app, ?of_char_app, ?string_nil_app; cbn [read_value];
    [rewrite IH; reflexivity..|].
  by rewrite !bool_decide_false, IH by done.
Qed.

(** The name of a setting has no space and no line end. *)
Fixpoint plain (s : string) : bool :=
  match s with
  | EmptyString => true
  | String c s => negb (bool_decide (c = nl)) && negb (bool_decide (c = " "%char)) && plain s
  end.
Fixpoint read_name (s : string) : string * string :=
  match s with
  | EmptyString => (EmptyString, EmptyString)
  | String c r => if bool_decide (c = nl) || bool_decide (c = " "%char) then (EmptyString, s)
                  else let p := read_name r in (String c p.1, p.2)
  end.
Lemma read_name_plain name c rest :
  plain name = true → c = nl ∨ c = " "%char → read_name (name +:+ String c rest) = (name, String c rest).
Proof.
  intros Hn Hc. induction name as [|d name IH].
  - rewrite string_nil_app. cbn [read_name]. by destruct Hc as [-> | ->].
  - rewrite string_cons_app. cbn [read_name plain] in *.
    apply andb_true_iff in Hn as [[Hd1%negb_true_iff Hd2%negb_true_iff]%andb_true_iff Hn]. rewrite Hd1, Hd2. cbn [orb].
    by rewrite IH.
Qed.

(** A line is determined by the text, and so is what follows it. *)
Lemma setting_line_inj x y s t :
  plain x.1 = true → plain y.1 = true → setting_line x +:+ s = setting_line y +:+ t → x = y ∧ s = t.
Proof.
  destruct x as [n v], y as [n' v']. cbn [fst]. intros Hn Hn' H.
  assert (∀ n v s, plain n = true → read_name (setting_line (n, v) +:+ s) =
    (n, match v with Some v => " = " +:+ of_char dquote +:+ quote_chars v +:+ of_char dquote +:+ of_char nl | None => of_char nl end +:+ s)) as Hread.
  { intros m w u Hm. unfold setting_line, assign, line, quote_config_value. cbn [fst snd].
    destruct w; rewrite !string_app_assoc; apply read_name_plain; auto. }
  pose proof (f_equal read_name H) as Hr. rewrite !Hread in Hr by done. injection Hr as <- Hr. clear H.
  destruct v as [v|], v' as [v'|]; try discriminate Hr.
  - rewrite !string_app_assoc in Hr.
    assert (quote_chars v +:+ of_char dquote +:+ of_char nl +:+ s = quote_chars v' +:+ of_char dquote +:+ of_char nl +:+ t)
      as Hv%(f_equal read_value) by (by injection Hr). rewrite !read_value_quote in Hv. injection Hv as -> Ht. split; [done|exact Ht].
  - injection Hr as Ht. split; [done|exact Ht].
Qed.
Lemma setting_lines_inj l l' :
  Forall (λ x, plain x.1 = true) l → Forall (λ x, plain x.1 = true) l' → setting_lines l = setting_lines l' → l = l'.
Proof.
  assert (∀ x l, "" ≠ setting_lines (x :: l)) as Hne.
  { intros [n [v|]] l0; cbn [setting_lines]; unfold setting_line, assign, line; cbn [fst snd]; rewrite !string_app_assoc; by destruct n. }
  intros Hl. revert l'. induction Hl as [|x l Hx _ IH]; intros l' Hl' H; destruct Hl' as [|y l' Hy Hl'].
  - done.
  - by apply Hne in H.
  - symmetry in H. by apply Hne in H.
  - cbn [setting_lines] in H. apply setting_line_inj in H as [-> H]; [|done..]. by rewrite (IH l').
Qed.
Lemma settings_plain r b h : Forall (λ x : setting, plain x.1 = true) (settings r b h).
Proof.
  assert (∀ name v, plain name = true → Forall (λ x : setting, plain x.1 = true) (present name v)) as Hp.
  { intros name v Hn. unfold present. case_bool_decide; by repeat constructor. }
  assert (Forall (λ x : setting, plain x.1 = true) ((λ h, ("header", Some (h.1 +:+ ": " +:+ h.2))) <$> curl_headers r)) as Hh.
  { apply Forall_fmap. by apply Forall_forall. }
  unfold settings. repeat (apply Forall_app; split); try (by apply Hp); try exact Hh.
  - by repeat constructor.
  - destruct (http_version r); by repeat constructor.
  - destruct b; by repeat constructor.
  - destruct h; by repeat constructor.
  - destruct (verify_tls r); by repeat constructor.
Qed.

Lemma curl_settings_inj r b h r' b' h' :
  build_curl_config r b h = build_curl_config r' b' h' → settings r b h = settings r' b' h'.
Proof. rewrite !config_settings. apply setting_lines_inj; apply settings_plain. Qed.

(** *** One line per setting *)
Fixpoint nl_free (s : string) : bool :=
  match s with EmptyString => true | String c s => negb (bool_decide (c = nl)) && nl_free s end.
Lemma nl_free_app a b : nl_free (a +:+ b) = nl_free a && nl_free b.
Proof. induction a as [|c a IH]; [done|]. rewrite string_cons_app. cbn [nl_free]. by rewrite IH, andb_assoc. Qed.
Lemma nl_free_quote v : nl_free (quote_chars v) = true.
Proof.
  induction v as [|c v IH]; [done|]. cbn [quote_chars]. rewrite nl_free_app, IH, andb_true_r. unfold quote_char.
  repeat case_bool_decide; try done. cbn [of_char nl_free]. by rewrite bool_decide_false by done.
Qed.
Lemma nl_free_plain s : plain s = true → nl_free s = true.
Proof. induction s as [|c s IH]; [done|]. cbn [plain nl_free]. intros [[-> _]%andb_true_iff H]%andb_true_iff. by apply IH. Qed.
(** The text of a setting. *)
Definition setting_text (x : setting) : string :=
  match x.2 with Some v => x.1 +:+ " = " +:+ quote_config_value v | None => x.1 end.
Lemma nl_free_setting x : plain x.1 = true → nl_free (setting_text x) = true.
Proof.
  intros Hx%nl_free_plain. unfold setting_text, quote_config_value. destruct x.2; [|done].
  by rewrite !nl_free_app, nl_free_quote, Hx.
Qed.
Lemma getlines_line current t rest : nl_free t = true → getlines current (line t +:+ rest) = (current +:+ t) :: getlines "" rest.
Proof.
  unfold line. rewrite string_app_assoc. revert current. induction t as [|c t IH]; intros current.
  - rewrite string_nil_app, string_app_nil. done.
  - cbn [nl_free]. intros [Hc%negb_true_iff Ht]%andb_true_iff. rewrite string_cons_app. cbn [getlines]. rewrite Hc, IH by done.
    by rewrite string_app_assoc.
Qed.
Lemma setting_lines_text l : Forall (λ x, plain x.1 = true) l → getlines "" (setting_lines l) = setting_text <$> l.
Proof.
  induction 1 as [|x l Hx _ IH]; [done|]. cbn [setting_lines].
  assert (setting_line x = line (setting_text x)) as -> by (unfold setting_line, setting_text, assign; by destruct x.2).
  by rewrite getlines_line, IH, string_nil_app by (by apply nl_free_setting).
Qed.

(** C38: The configuration that a curl process reads has exactly one line per
    setting of the request, and determines the settings: whatever quotes,
    backslashes and line ends the URL, the method, the headers, the paths and
    the certificates hold, no value can add a line or change another one. *)
Theorem curl_config_readable r b h :
  getlines "" (build_curl_config r b h) = setting_text <$> settings r b h ∧
  ∀ r' b' h', build_curl_config r b h = build_curl_config r' b' h' → settings r b h = settings r' b' h'.
Proof.
  split; [|intros r' b' h'; apply curl_settings_inj]. rewrite config_settings. apply setting_lines_text, settings_plain.
Qed.

(** A request whose URL tries to add a setting. *)
Definition sneaky (url : string) : CurlRequest :=
  mkCurlRequest "GET" url [("X", "1")] None 30 HttpVersion.Default false "" "" "" true.
Lemma curl_config_readable_witness :
  let url := "http://h" +:+ of_char dquote +:+ of_char nl +:+ "insecure" in
  length (getlines "" (build_curl_config (sneaky url) None None)) = 7%nat.
Proof. cbv zeta. rewrite (proj1 (curl_config_readable (sneaky ("http://h" +:+ of_char dquote +:+ of_char nl +:+ "insecure")) None None)). reflexivity. Defined.
Example no_forged_line :
  build_curl_config (sneaky ("http://h" +:+ of_char dquote +:+ of_char nl +:+ "insecure")) None None ≠
  build_curl_config (mkCurlRequest "GET" "http://h" [("X", "1")] None 30 HttpVersion.Default false "" "" "" false) None None.
Proof. intros [=]%curl_settings_inj. Qed.

(** ** The output of the process *)
Lemma stoll_to_string z : in_int64 z = true → stoll (to_string z) = ConvOk z.
Proof.
  intros Hz. destruct (to_string_digits z) as (neg & ds & -> & Hds & (d & l & -> & _) & Hv). unfold stoll.
  assert (Hspan : span_digits (digit_string (d :: l)) = (d :: l, ""))
    by (rewrite <- (string_app_nil (digit_string _)); by apply span_digits_string).
  pose proof Hds as [Hd _]%Forall_cons. destruct neg; cbn [sign_string].
  - rewrite string_cons_app, string_nil_app.
    assert (∀ t, take_sign (skip_space (String "-" t)) = (true, t)) as -> by done. rewrite Hspan. cbn [fst].
    by rewrite <-Hv, Hz.
  - rewrite string_nil_app. cbn [digit_string] in *.
    assert (is_space (digit_char d) = false) as Hsp by (pattern d; by apply digit_cases).
    cbn [skip_space]. rewrite Hsp. cbn [take_sign].
    rewrite !bool_decide_false by (pattern d; by apply digit_cases). rewrite Hspan. cbn [fst]. by rewrite <-Hv, Hz.
Qed.
Lemma stoi_to_string z : in_int z = true → stoi (to_string z) = ConvOk z.
Proof.
  intros Hz. unfold stoi. rewrite stoll_to_string, Hz; [done|].
  unfold in_int, in_int64, int_min, int_max, int64_min, int64_max in *. lia.
Qed.
(** No line end in the text. *)
Fixpoint one_line (s : string) : bool :=
  match s with
  | EmptyString => true
  | String c s => negb (bool_decide (c = nl)) && negb (bool_decide (c = cr)) && one_line s
  end.
Lemma one_line_digits ds : are_digits ds → one_line (digit_string ds) = true.
Proof.
  induction 1 as [|d ds Hd _ IH]; [done|]. cbn [digit_string one_line]. rewrite IH, andb_true_r.
  pattern d. by apply digit_cases.
Qed.
Lemma one_line_to_string z : one_line (to_string z) = true.
Proof.
  destruct (to_string_digits z) as (neg & ds & -> & Hds & _).
  destruct neg; cbn [sign_string]; rewrite ?string_cons_app, string_nil_app; by apply one_line_digits.
Qed.
Lemma cut_last_none t : one_line t = true → cut_last nl t = None.
Proof.
  induction t as [|c t IH]; [done|]. cbn [one_line cut_last].
  intros [[Hc%negb_true_iff _]%andb_true_iff Ht]%andb_true_iff. by rewrite IH, Hc.
Qed.
Lemma cut_last_app a t : one_line t = true → cut_last nl (a +:+ String nl t) = Some (a, t).
Proof.
  intros Ht. induction a as [|c a IH].
  - rewrite string_nil_app. cbn [cut_last]. by rewrite cut_last_none.
  - rewrite string_cons_app. cbn [cut_last]. by rewrite IH.
Qed.
Lemma strip_one_line t : one_line t = true → strip_line_ends t = t.
Proof.
  induction t as [|c t IH]; [done|]. cbn [one_line strip_line_ends].
  intros [[Hc%negb_true_iff Hd%negb_true_iff]%andb_true_iff Ht]%andb_true_iff.
  rewrite IH by done. rewrite Hc, Hd. by rewrite andb_false_r.
Qed.
Lemma strip_app a t : one_line t = true → t ≠ "" → strip_line_ends (a +:+ t) = a +:+ t.
Proof.
  intros Ht Hne. induction a as [|c a IH]; [rewrite string_nil_app; by apply strip_one_line|].
  rewrite string_cons_app. cbn [strip_line_ends]. rewrite IH, bool_decide_false; [done|]. by destruct a, t.
Qed.
Lemma to_string_ne z : to_string z ≠ "".
Proof.
  destruct (to_string_digits z) as (neg & ds & -> & _ & (d & l & -> & _) & _).
  by destruct neg; cbn [sign_string digit_string]; rewrite ?string_cons_app, string_nil_app.
Qed.

(** The text of a failed transfer. *)
Definition transfer_error (code : Z) (stderr : string) : string :=
  if bool_decide (code = 0) then ""
  else if bool_decide (stderr = "") then "curl failed with exit code " +:+ to_string code else stderr.
Lemma parse_output body status code stderr :
  in_int status = true →
  parse_curl_output (mkProcess code (body +:+ of_char nl +:+ to_string status) stderr false) =
  mkCurlResponse status code body (transfer_error code stderr) false [] [].
Proof.
  intros Hs. unfold parse_curl_output. cbn [process_timed_out stdout_output exit_code stderr_output]. cbv zeta.
  assert (strip_line_ends (body +:+ of_char nl +:+ to_string status) = body +:+ String nl (to_string status)) as ->.
  { rewrite <-string_app_assoc, strip_app by (apply one_line_to_string || apply to_string_ne). by rewrite string_app_assoc. }
  by rewrite cut_last_app, stoi_to_string by (done || apply one_line_to_string).
Qed.

(** The body and the status that curl writes are found again in the
    output of the process, for every body, also one that ends in line ends or
    in something that looks like a status; a failed transfer keeps them and
    has the error of the process. *)
Theorem curl_output_exact body status code stderr :
  in_int status = true →
  parse_curl_output (mkProcess code (body +:+ of_char nl +:+ to_string status) stderr false) =
  mkCurlResponse status code body (transfer_error code stderr) false [] [].
Proof. apply parse_output. Qed.
Lemma curl_output_exact_witness :
  let body := "a" +:+ of_char nl +:+ "404" +:+ of_char nl in
  parse_curl_output (mkProcess 18 (body +:+ of_char nl +:+ to_string 200) "" false) =
  mkCurlResponse 200 18 body "curl failed with exit code 18" false [] [].
Proof. apply (curl_output_exact ("a" +:+ of_char nl +:+ "404" +:+ of_char nl) 200 18 ""). reflexivity. Defined.
