(* ===== verification/Wire.v ===== *)
(** * Calls over HTTP and gRPC (src/runtime/engine: http_transport,
      grpc_transport, wire_transport_adapter, capability_transport_adapter,
      wire_capability)

    A capability can be a remote service.  Its call takes a slot of the
    connection pool, resolves the credentials, sends the arguments as JSON and
    turns the response into a value that the response schema accepts.  The
    world of the calls holds the pool and the secret managers; [X] is what lies
    outside (clock, processes, files, secret back ends).  The iteration order
    of the header maps, which the library does not specify, is that of
    [map_to_list]. *)
From stdpp Require Import fin_maps.
From S2P Require Import Prelude Numeric Value ValueJson Ir Schema CapabilityBridge Pool Secrets Curl.
From Stdlib Require Import Ascii.
Open Scope Z_scope.
Open Scope ahfl_scope.

(** ** The world *)
Record SecretManager (X : Type) := mkManager { manager_provider : SecretProvider X; manager_log : list SecretAccessEvent }.
Arguments mkManager {X} _ _.
Arguments manager_provider {X} _.
Arguments manager_log {X} _.
Record WireEnv (X : Type) := mkWireEnv {
  rest : X; connections : ConnectionPool; managers : gmap positive (SecretManager X) }.
Arguments mkWireEnv {X} _ _ _.
Arguments rest {X} _.
Arguments connections {X} _.
Arguments managers {X} _.
#[export] Instance wire_environment {X} `{Environment X} : Environment (WireEnv X) := {
  steady_now e := let '(t, x) := steady_now (rest e) in (t, mkWireEnv x (connections e) (managers e));
  sleep_for ms e := mkWireEnv (sleep_for ms (rest e)) (connections e) (managers e) }.
Abbreviation Wire X := (World (WireEnv X)).

Section World.
Context {X : Type} `{Environment X} `{SystemClock X}.
Definition in_rest {A} (m : eff X A) : eff (Wire X) A := λ w,
  match m (rest (env w)) with
  | Ret (a, x) => Ret (a, mkWorld (mkWireEnv x (connections (env w)) (managers (env w))) (circuits w))
  | UB => UB
  | NoFuel => NoFuel
  end.
Definition get_pool : eff (Wire X) ConnectionPool := λ w, Ret (connections (env w), w).
Definition set_pool (p : ConnectionPool) : eff (Wire X) unit := λ w,
  Ret (tt, mkWorld (mkWireEnv (rest (env w)) p (managers (env w))) (circuits w)).

(** [global_connection_pool().try_acquire(host)]: the clock is read when a
    slot is taken. *)
Definition acquire_slot (host : string) : eff (Wire X) Lease :=
  p ← get_pool;
  let refused := try_acquire default_pool_config 0 host p in
  if lease_pool refused.1 then
    now ← read_clock;
    let taken := try_acquire default_pool_config now host p in
    _ ← set_pool taken.2; mret taken.1
  else _ ← set_pool refused.2; mret refused.1.
(** The destructor of the lease. *)
Definition release_slot (lease : Lease) : eff (Wire X) unit :=
  p ← get_pool;
  if lease_pool lease && (0 <? active_for_host (lease_host lease) p) then
    now ← read_clock; set_pool (record_end now (lease_host lease) p)
  else mret tt.

(** [resolve_auth(config, *secret_manager)] *)
Definition resolve_with_manager (config : AuthConfig) (p : positive) : eff (Wire X) ResolvedAuth := λ w,
  match managers (env w) !! p with
  | None => UB
  | Some m =>
      match resolve_auth (manager_provider m) config (mkSecrets (rest (env w)) (manager_log m) ∅ [] [] ∅) with
      | Ret (r, s) =>
          Ret (r, mkWorld (mkWireEnv (outside s) (connections (env w))
                             (<[p := mkManager (manager_provider m) (audit_log s)]> (managers (env w)))) (circuits w))
      | UB => UB
      | NoFuel => NoFuel
      end
  end.
End World.

(** ** Requests and responses *)
Record HttpRequest := mkHttpRequest {
  http_url : string; http_method : string; http_headers : gmap string string; http_body : string; http_timeout : Z;
  http_certificate : string; http_key : string }.
Record HttpResponse := mkHttpResponse { http_status : Z; http_response_body : string; http_error : string }.
Definition contains (part s : string) : bool := bool_decide (is_Some (String.index 0 part s)).
Definition http_success (r : HttpResponse) : bool := (200 <=? http_status r) && (http_status r <? 300).
Definition http_is_timeout (r : HttpResponse) : bool := (http_status r =? 0) && contains "timeout" (http_error r).

(** [GrpcStatusCode] is an [int]: a header can hold any number. *)
Abbreviation GrpcStatusCode := Z (only parsing).
Definition grpc_ok : GrpcStatusCode := 0.
Definition grpc_unknown : GrpcStatusCode := 2.
Definition grpc_deadline_exceeded : GrpcStatusCode := 4.
Definition grpc_unavailable : GrpcStatusCode := 14.
Definition grpc_status_names : list string :=
  ["OK"; "CANCELLED"; "UNKNOWN"; "INVALID_ARGUMENT"; "DEADLINE_EXCEEDED"; "NOT_FOUND"; "ALREADY_EXISTS"; "PERMISSION_DENIED";
   "RESOURCE_EXHAUSTED"; "FAILED_PRECONDITION"; "ABORTED"; "OUT_OF_RANGE"; "UNIMPLEMENTED"; "INTERNAL"; "UNAVAILABLE";
   "DATA_LOSS"; "UNAUTHENTICATED"].
Definition grpc_status_name (code : GrpcStatusCode) : string :=
  if code <? 0 then "UNKNOWN" else default "UNKNOWN" (grpc_status_names !! Z.to_nat code).
Definition grpc_status_from_http_status (http_code : Z) : GrpcStatusCode :=
  if (200 <=? http_code) && (http_code <? 300) then grpc_ok
  else if http_code =? 400 then 3
  else if http_code =? 401 then 16
  else if http_code =? 403 then 7
  else if http_code =? 404 then 5
  else if http_code =? 409 then 6
  else if http_code =? 429 then 8
  else if http_code =? 499 then 1
  else if http_code =? 500 then 13
  else if http_code =? 501 then 12
  else if http_code =? 503 then 14
  else if http_code =? 504 then 4
  else if (400 <=? http_code) && (http_code <? 500) then 9
  else 13.

Record GrpcJsonTranscodingEndpoint := mkEndpoint {
  ep_host : string; ep_port : Z; ep_service : string; ep_method : string; ep_tls : bool }.
Definition to_path (e : GrpcJsonTranscodingEndpoint) : string := "/" +:+ ep_service e +:+ "/" +:+ ep_method e.
Definition to_url (e : GrpcJsonTranscodingEndpoint) : string :=
  (if ep_tls e then "https" else "http") +:+ "://" +:+ ep_host e +:+ ":" +:+ to_string (ep_port e) +:+ to_path e.
Record GrpcJsonTranscodingRequest := mkGrpcRequest {
  grpc_endpoint : GrpcJsonTranscodingEndpoint; serialized_body : string; metadata : header_list; grpc_timeout : Z;
  grpc_certificate : string; grpc_key : string }.
Record GrpcJsonTranscodingResponse := mkGrpcResponse {
  grpc_status : GrpcStatusCode; grpc_body : string; grpc_error : string; response_metadata : header_list; grpc_trailers : header_list }.

(** ** Headers (grpc_transport.cpp) *)
Definition to_lower (c : ascii) : ascii :=
  let n := char_code c in if (65 <=? n) && (n <=? 90) then ascii_of_N (Z.to_N (n + 32)) else c.
Fixpoint case_insensitive_equals (a b : string) : bool :=
  match a, b with
  | EmptyString, EmptyString => true
  | String c a, String d b => bool_decide (to_lower c = to_lower d) && case_insensitive_equals a b
  | _, _ => false
  end.
Definition hex_value (c : ascii) : option Z :=
  let n := char_code c in
  if (48 <=? n) && (n <=? 57) then Some (n - 48)
  else if (97 <=? n) && (n <=? 102) then Some (n - 97 + 10)
  else if (65 <=? n) && (n <=? 70) then Some (n - 65 + 10)
  else None.
Fixpoint percent_decode (s : string) : string :=
  match s with
  | String c (String h (String l r) as r1) =>
      if bool_decide (c = "%"%char) then
        match hex_value h, hex_value l with
        | Some hi, Some lo => String (ascii_of_N (Z.to_N (Z.lor (Z.shiftl hi 4) lo))) (percent_decode r)
        | _, _ => String c (percent_decode r1)
        end
      else String c (percent_decode r1)
  | String c r => String c (percent_decode r)
  | EmptyString => EmptyString
  end.
Definition find_header (name : string) (headers : header_list) : option string :=
  snd <$> head (base.filter (λ h, case_insensitive_equals h.1 name = true) headers).
Definition parse_grpc_status_from_headers (headers : header_list) : GrpcStatusCode :=
  match find_header "grpc-status" headers with
  | Some value => match stoi value with ConvOk code => code | _ => grpc_unknown end
  | None => grpc_ok
  end.
Definition parse_grpc_message_from_headers (headers : header_list) : string :=
  match find_header "grpc-message" headers with Some value => percent_decode value | None => "" end.

(** ** The transports (wire_transport_adapter.cpp, capability_transport_adapter.cpp) *)
Record WireTransportResponse := mkWireResponse {
  wire_status : Z; wire_body : string; wire_error : string; wire_timed_out : bool;
  wire_headers : header_list; wire_trailers : header_list }.
Definition make_http_request (r : HttpRequest) : CurlRequest :=
  mkCurlRequest (http_method r) (http_url r) (map_to_list (http_headers r))
    (if bool_decide (http_body r = "") then None else Some (http_body r)) (http_timeout r) HttpVersion.Default false
    (http_certificate r) (http_key r) "" true.
Definition make_grpc_request (r : GrpcJsonTranscodingRequest) : CurlRequest :=
  mkCurlRequest "POST" (to_url (grpc_endpoint r))
    ([("Content-Type", "application/json"); ("TE", "trailers")] ++ metadata r)
    (Some (if bool_decide (serialized_body r = "") then "{}" else serialized_body r)) (to_int (grpc_timeout r))
    (if ep_tls (grpc_endpoint r) then HttpVersion.Http2 else HttpVersion.Http2PriorKnowledge) true
    (grpc_certificate r) (grpc_key r) "" true.

(** The blocks from the last one with a status line. *)
Fixpoint from_last_status (blocks : list CurlHeaderBlock) : option (CurlHeaderBlock * list CurlHeaderBlock) :=
  match blocks with
  | [] => None
  | b :: blocks =>
      match from_last_status blocks with
      | Some p => Some p
      | None => if has_status_line b then Some (b, blocks) else None
      end
  end.
Definition project_header_blocks (r : CurlResponse) : header_list * header_list :=
  match from_last_status (response_header_blocks r) with
  | None => (response_headers r, [])
  | Some (final, later) => (block_headers final, base.filter (λ b, has_status_line b = false) later ≫= block_headers)
  end.
Definition to_wire_response (r : CurlResponse) : WireTransportResponse :=
  let '(headers, trailers) := project_header_blocks r in
  mkWireResponse (curl_status r) (response_body r) (curl_error r) (curl_timed_out r) headers trailers.
Definition to_http_response (r : WireTransportResponse) : HttpResponse :=
  mkHttpResponse (wire_status r) (wire_body r) (wire_error r).
Definition to_grpc_response (r : WireTransportResponse) : GrpcJsonTranscodingResponse :=
  if wire_timed_out r then
    mkGrpcResponse grpc_deadline_exceeded "" "gRPC JSON transcoding deadline exceeded" (wire_headers r) (wire_trailers r)
  else if (wire_status r =? 0) && negb (bool_decide (wire_error r = "")) then
    mkGrpcResponse grpc_unavailable (wire_body r) (wire_error r) (wire_headers r) (wire_trailers r)
  else
    let status := grpc_status_from_http_status (wire_status r) in
    if negb (status =? grpc_ok) then
      mkGrpcResponse status (wire_body r)
        ("gRPC " +:+ grpc_status_name status +:+ " (HTTP " +:+ to_string (wire_status r) +:+ ")") (wire_headers r) (wire_trailers r)
    else mkGrpcResponse grpc_ok (wire_body r) "" (wire_headers r) (wire_trailers r).

Record CapabilityTransportAdapter (X : Type) := mkAdapter {
  execute_http : HttpRequest → eff (Wire X) HttpResponse;
  execute_grpc_json_transcoding : GrpcJsonTranscodingRequest → eff (Wire X) GrpcJsonTranscodingResponse }.
Arguments mkAdapter {X} _ _.
Arguments execute_http {X} _ _.
Arguments execute_grpc_json_transcoding {X} _ _.
(** [execute_wire_transport], and the adapter over it. *)
Definition execute_wire {X} `{CurlEnvironment X} (request : CurlRequest) : eff (Wire X) WireTransportResponse :=
  r ← in_rest (execute_curl request); mret (to_wire_response r).
Definition default_capability_transport_adapter {X} `{CurlEnvironment X} : CapabilityTransportAdapter X :=
  mkAdapter
    (λ request, r ← execute_wire (make_http_request request); mret (to_http_response r))
    (λ request, r ← execute_wire (make_grpc_request request); mret (to_grpc_response r)).

(** ** Calls (wire_capability.cpp) *)
Module CapabilityResponseFormat.
Inductive t := Json | TextPlain.
End CapabilityResponseFormat.
(** What the HTTP and the gRPC configurations share. *)
Record CallConfig := mkCallConfig {
  response_format : CapabilityResponseFormat.t;
  call_retry : RetryConfig; call_timeout : TimeoutConfig; call_circuit : CircuitBreakerConfig;
  call_auth : option AuthConfig; secret_manager : option positive; response_schema : option TypeRef }.
Record HTTPCapabilityConfig := mkHTTPConfig {
  config_url : string; config_method : string; config_headers : gmap string string; http_config : CallConfig }.
Record GrpcJsonTranscodingCapabilityConfig := mkGrpcConfig {
  config_endpoint : string; config_service : string; grpc_method : string; grpc_config : CallConfig }.

Definition call_ok (v : Value) : CapabilityCallResult := mkCallResult CapabilityCallStatus.Success (Some v) "" 1.
Definition call_error (msg : string) : CapabilityCallResult := mkCallResult CapabilityCallStatus.Error None msg 1.
Definition call_timed_out (msg : string) : CapabilityCallResult := mkCallResult CapabilityCallStatus.Timeout None msg 1.

(** The text after ["://"], if there is one. *)
Fixpoint after_scheme (s : string) : option string :=
  match s with
  | EmptyString => None
  | String _ r => if has_prefix "://" s then Some (String.substring 3 (String.length s - 3) s) else after_scheme r
  end.
Definition extract_host (url : string) : string :=
  let rest := default url (after_scheme url) in
  match cut_at "/"%char rest with Some (host, _) => host | None => rest end.

Definition value_from_wire_response_body (body : string) (format : CapabilityResponseFormat.t) : cxx CapabilityCallResult :=
  match format with
  | CapabilityResponseFormat.TextPlain =>
      Ret (call_ok (if bool_decide (body = "") then make_none else StringValue body))
  | CapabilityResponseFormat.Json =>
      parsed ← parse_value_from_wire_json body;
      Ret (match parsed with
           | Some v => call_ok v
           | None => if bool_decide (body = "") then call_ok make_none else call_error "invalid wire JSON response body"
           end)
  end.
Definition check_response (config : CallConfig) (result : CapabilityCallResult) : CapabilityCallResult :=
  match call_value result, response_schema config with
  | Some v, Some schema =>
      if is_success result then
        let validation := validate_value_against_schema v schema in
        if schema_valid validation then result
        else call_error ("response schema validation failed: " +:+ schema_error validation)
      else result
  | _, _ => result
  end.
Definition read_response (config : CallConfig) (body : string) : cxx CapabilityCallResult :=
  result ← value_from_wire_response_body body (response_format config);
  Ret (check_response config result).

(** The result for an HTTP response. *)
Definition http_result (config : CallConfig) (r : HttpResponse) : cxx CapabilityCallResult :=
  if http_is_timeout r then Ret (call_timed_out "HTTP request timed out")
  else if negb (bool_decide (http_error r = "")) && (http_status r =? 0) then Ret (call_error ("HTTP transport error: " +:+ http_error r))
  else if negb (http_success r) then Ret (call_error ("HTTP " +:+ to_string (http_status r) +:+ ": " +:+ http_response_body r))
  else read_response config (http_response_body r).

(** An explicit status in the trailers, or else in the headers, takes
    precedence over the one of HTTP. *)
Definition status_from (headers : header_list) (r : GrpcJsonTranscodingResponse) : GrpcJsonTranscodingResponse :=
  let status := parse_grpc_status_from_headers headers in
  if (length headers =? 0)%nat || (status =? grpc_ok) then r
  else
    let message := parse_grpc_message_from_headers headers in
    mkGrpcResponse status (grpc_body r) (if bool_decide (message = "") then grpc_error r else message) (response_metadata r) (grpc_trailers r).
Definition final_grpc_response (r : GrpcJsonTranscodingResponse) : GrpcJsonTranscodingResponse :=
  let r := status_from (grpc_trailers r) r in
  if grpc_status r =? grpc_ok then status_from (response_metadata r) r else r.
(** The result for a gRPC response. *)
Definition grpc_result (config : CallConfig) (response : GrpcJsonTranscodingResponse) : cxx CapabilityCallResult :=
  let r := final_grpc_response response in
  if grpc_status r =? grpc_deadline_exceeded then Ret (call_timed_out (grpc_error r))
  else if negb (grpc_status r =? grpc_ok) then Ret (call_error (grpc_error r))
  else read_response config (grpc_body r).

Record ParsedEndpoint := mkParsedEndpoint { pe_host : string; pe_port : Z; pe_tls : bool }.
Definition to_uint16 (z : Z) : Z := z mod 2 ^ 16.
Definition parse_grpc_json_transcoding_endpoint (endpoint : string) : ParsedEndpoint :=
  let '(tls, working) :=
    if has_prefix "https://" endpoint then (true, String.substring 8 (String.length endpoint - 8) endpoint)
    else if has_prefix "http://" endpoint then (false, String.substring 7 (String.length endpoint - 7) endpoint)
    else (false, endpoint) in
  let default_port := if tls : bool then 443 else 50051 in
  match cut_last ":"%char working with
  | Some (host, port) => mkParsedEndpoint host (match stoi port with ConvOk p => to_uint16 p | _ => default_port end) tls
  | None => mkParsedEndpoint working default_port tls
  end.

Section Call.
Context {X : Type} `{Environment X} `{SystemClock X}.
Implicit Types (transport : CapabilityTransportAdapter X).

(** The call holds a slot of the pool from here to its return. *)
Definition with_slot (host exhausted : string) (call : eff (Wire X) CapabilityCallResult) : eff (Wire X) CapabilityCallResult :=
  lease ← acquire_slot host;
  if lease_pool lease then result ← call; _ ← release_slot lease; mret result
  else mret (call_error (exhausted +:+ host)).
(** The credentials, or the error of the call. *)
Definition call_credentials (kind : string) (config : CallConfig) : eff (Wire X) (ResolvedAuth + CapabilityCallResult) :=
  match call_auth config, secret_manager config with
  | None, _ => mret (inl no_auth)
  | Some _, None => mret (inr (call_error (kind +:+ " capability auth failed: secret manager is required")))
  | Some auth, Some p =>
      r ← resolve_with_manager auth p;
      mret (if auth_success r then inl r else inr (call_error (kind +:+ " capability auth failed: " +:+ auth_error r)))
  end.
(** A count of milliseconds as whole seconds. *)
Definition whole_seconds (ms : Z) : Z := Z.quot ms 1000.

Definition http_request (config : HTTPCapabilityConfig) (args : list Value) (auth : ResolvedAuth) : HttpRequest :=
  let headers := match config_headers config !! "Content-Type" with
                 | Some _ => config_headers config
                 | None => <["Content-Type" := "application/json"]> (config_headers config)
                 end in
  mkHttpRequest (config_url config) (config_method config) (auth_headers auth ∪ headers) (serialize_args_for_wire_json args)
    (to_int (whole_seconds (deadline (call_timeout (http_config config)))))
    (tls_client_certificate_path auth) (tls_client_key_path auth).
Definition execute_http_capability_call (config : HTTPCapabilityConfig) transport (args : list Value) : eff (Wire X) CapabilityCallResult :=
  with_slot (extract_host (config_url config)) "connection pool exhausted for host: " (
    credentials ← call_credentials "HTTP" (http_config config);
    match credentials with
    | inr error => mret error
    | inl auth =>
        response ← execute_http transport (http_request config args auth);
        ⌊ http_result (http_config config) response ⌋
    end).

Definition grpc_request (config : GrpcJsonTranscodingCapabilityConfig) (args : list Value) (auth : ResolvedAuth) : GrpcJsonTranscodingRequest :=
  let parsed := parse_grpc_json_transcoding_endpoint (config_endpoint config) in
  mkGrpcRequest (mkEndpoint (pe_host parsed) (pe_port parsed) (config_service config) (grpc_method config) (pe_tls parsed))
    (serialize_args_for_wire_json args) (map_to_list (auth_headers auth))
    (whole_seconds (deadline (call_timeout (grpc_config config))))
    (tls_client_certificate_path auth) (tls_client_key_path auth).
Definition execute_grpc_json_transcoding_capability_call (config : GrpcJsonTranscodingCapabilityConfig) transport (args : list Value)
    : eff (Wire X) CapabilityCallResult :=
  let parsed := parse_grpc_json_transcoding_endpoint (config_endpoint config) in
  with_slot (pe_host parsed +:+ ":" +:+ to_string (pe_port parsed)) "connection pool exhausted for gRPC host: " (
    credentials ← call_credentials "gRPC" (grpc_config config);
    match credentials with
    | inr error => mret error
    | inl auth =>
        response ← execute_grpc_json_transcoding transport (grpc_request config args auth);
        ⌊ grpc_result (grpc_config config) response ⌋
    end).

(** A new circuit breaker, when the configuration has one. *)
Definition new_binding_circuit (config : CallConfig) : eff (Wire X) (option positive) :=
  if cb_enabled (call_circuit config) then λ w,
    let p := fresh (dom (circuits w)) in
    Ret (Some p, mkWorld (env w) (<[p := new_circuit (call_circuit config)]> (circuits w)))
  else mret None.
Definition make_http_capability (name : string) (config : HTTPCapabilityConfig) transport : eff (Wire X) (CapabilityBinding (Wire X)) :=
  circuit ← new_binding_circuit (http_config config);
  let c := http_config config in
  mret (mkBinding name (execute_http_capability_call config transport) (call_retry c) (call_timeout c) (call_circuit c) circuit).
Definition make_grpc_json_transcoding_capability (name : string) (config : GrpcJsonTranscodingCapabilityConfig) transport
    : eff (Wire X) (CapabilityBinding (Wire X)) :=
  circuit ← new_binding_circuit (grpc_config config);
  let c := grpc_config config in
  mret (mkBinding name (execute_grpc_json_transcoding_capability_call config transport) (call_retry c) (call_timeout c) (call_circuit c) circuit).
End Call.

(** ** Remote calls: the slots, the outcome and the whole way

    [same_slots] and its small logic for the pool, the exact condition under
    which a remote call succeeds, and the way of a value from the process that
    prints it to the caller. *)

(** ** The slots of the pool *)
(** The same connections are active. *)
Definition same_slots (p p' : ConnectionPool) : Prop :=
  active_count p' = active_count p ∧ ∀ host, active_for_host host p' = active_for_host host p.
(** The counters of a pool under its limits. *)
Record pool_ok (p : ConnectionPool) : Prop := {
  pool_ok_total : 0 ≤ active_count p ≤ size_max;
  pool_ok_host host : 0 ≤ active_for_host host p ≤ size_max }.
#[export] Instance same_slots_refl : Reflexive same_slots.
Proof. by intros p. Qed.
#[export] Instance same_slots_trans : Transitive same_slots.
Proof. intros p q r [H1 H2] [H3 H4]. split; [congruence|]. intros host. by rewrite H4. Qed.
Lemma same_slots_ok p p' : same_slots p p' → pool_ok p → pool_ok p'.
Proof. intros [H1 H2] [H3 H4]. split; [by rewrite H1|]. intros host. by rewrite H2. Qed.

Lemma active_record_end now host host' p :
  0 < active_for_host host p →
  active_for_host host' (record_end now host p) =
    if bool_decide (host = host') then to_size (active_for_host host' p - 1) else active_for_host host' p.
Proof.
  unfold record_end, active_for_host. intros Hpos. destruct (hosts_ p !! host) as [e|] eqn:He; [|lia].
  rewrite (proj2 (Z.ltb_lt _ _)) by done. cbn [hosts_]. case_bool_decide as Hh.
  - subst. by rewrite lookup_insert_eq, He.
  - by rewrite lookup_insert_ne.
Qed.
Lemma total_record_end now host p :
  0 < active_for_host host p → active_count (record_end now host p) = to_size (active_count p - 1).
Proof.
  unfold record_end, active_for_host. intros Hpos. destruct (hosts_ p !! host) as [e|] eqn:He; [|lia].
  by rewrite (proj2 (Z.ltb_lt _ _)).
Qed.
(** A slot of a pool: what [try_acquire] leaves behind. *)
Definition slot_taken (host : string) (p q : ConnectionPool) : Prop :=
  active_count q = active_count p + 1 ∧
  ∀ host', active_for_host host' q = active_for_host host' p + if bool_decide (host = host') then 1 else 0.
Lemma active_host_entry' host p : host_active (host_entry host p) = active_for_host host p.
Proof. unfold host_entry, active_for_host. by destruct (_ !! _). Qed.
Lemma try_acquire_slots now host p :
  pool_ok p →
  let r := try_acquire default_pool_config now host p in
  (r.1 = mkLease true host ∧ slot_taken host p r.2 ∧ pool_ok r.2) ∨
  (lease_pool r.1 = false ∧ same_slots p r.2).
Proof.
  intros [Ht Hh]. unfold try_acquire.
  destruct (max_connections default_pool_config <=? total_active_ p) eqn:E1; [by right|].
  destruct (max_per_host default_pool_config <=? host_active (host_entry host p)) eqn:E2.
  - right. split; [done|]. split; [done|]. intros host'. unfold active_for_host, set_entry, host_entry. cbn [snd hosts_].
    rewrite lookup_insert. case_decide; [|done]. subst. by destruct (hosts_ p !! host').
  - left. split; [done|]. cbn [snd]. rewrite active_host_entry' in E2.
    apply Z.leb_gt in E1, E2. cbn in E1, E2. pose proof (Hh host) as Hhost. unfold active_count in *.
    match goal with |- slot_taken _ _ ?q ∧ _ => assert (slot_taken host p q) as Htaken end.
    2:{ split; [done|]. destruct Htaken as [H1 H2]. unfold active_count, size_max in *. split; unfold active_count, size_max; [lia|].
        intros host'. rewrite H2. pose proof (Hh host'). case_bool_decide; [subst|]; lia. }
    split.
    + cbn [total_active_]. unfold size_succ, to_size. rewrite Z.mod_small; [done|]. lia.
    + intros host'. unfold active_for_host at 1. cbn [hosts_]. rewrite lookup_insert. case_decide as Hd.
      * subst. rewrite bool_decide_true by done. unfold start_entry. cbn [host_active]. rewrite active_host_entry'.
        unfold size_succ, to_size. rewrite Z.mod_small; [done|]. lia.
      * rewrite bool_decide_false by done. rewrite Z.add_0_r. done.
Qed.
Lemma record_end_slots now host p q r :
  pool_ok p → slot_taken host p q → same_slots q r → same_slots p (record_end now host r).
Proof.
  intros [Ht Hh] [H1 H2] [H3 H4]. assert (0 < active_for_host host r) as Hpos.
  { rewrite H4, H2, bool_decide_true by done. pose proof (Hh host). lia. }
  assert (∀ z, 0 ≤ z ≤ size_max → to_size (z + 1 - 1) = z) as Hsmall.
  { intros z Hz. unfold to_size, size_max in *. rewrite Z.mod_small; lia. }
  split.
  - rewrite total_record_end, H3, H1 by done. by apply Hsmall.
  - intros host'. rewrite active_record_end by done. rewrite H4, H2. case_bool_decide; [|lia]. apply Hsmall, Hh.
Qed.

(** ** Computations that give back the slots they take *)
Section Keeps.
Context {X : Type} `{Environment X} `{SystemClock X}.
Abbreviation pool_of w := (connections (env w)).

Definition keeps {A} (m : eff (Wire X) A) : Prop :=
  ∀ w a w', pool_ok (pool_of w) → m w ⇓ (a, w') → same_slots (pool_of w) (pool_of w').
Lemma keeps_slots_ret {A} (a : A) : keeps (mret a).
Proof. by intros w b w' _ [= <- <-]. Qed.
Lemma keeps_slots_lift {A} (c : cxx A) : keeps ⌊ c ⌋.
Proof. intros w b w' _ Hr. unfold lift in Hr. destruct c; [|done..]. by injection Hr as <- <-. Qed.
Lemma keeps_slots_bind {A B} (m : eff (Wire X) A) (f : A → eff (Wire X) B) : keeps m → (∀ a, keeps (f a)) → keeps (m ≫= f).
Proof.
  intros Hm Hf w b w' Hok Hr. inv_eff Hr. pose proof (Hm _ _ _ Hok E) as Hs. etransitivity; [exact Hs|].
  eapply Hf; [|exact Hr]. by eapply same_slots_ok.
Qed.
Lemma keeps_slots_in_rest {A} (m : eff X A) : keeps (in_rest m).
Proof. intros w a w' _ Hr. unfold in_rest in Hr. destruct (m _) as [[b x]| |]; [|done..]. by injection Hr as <- <-. Qed.
Lemma keeps_slots_read_clock : keeps read_clock.
Proof.
  intros w a w' _ Hr. unfold read_clock, steady_now, wire_environment in Hr. cbn in Hr.
  destruct (steady_now (rest (env w))) as [t x]. by injection Hr as <- <-.
Qed.
Lemma keeps_slots_resolve auth p : keeps (resolve_with_manager auth p).
Proof.
  intros w a w' _ Hr. unfold resolve_with_manager in Hr. destruct (managers _ !! p) as [m|]; [|done].
  destruct (resolve_auth _ _ _) as [[r s]| |]; [|done..]. by injection Hr as <- <-.
Qed.
Lemma keeps_slots_credentials kind config : keeps (call_credentials kind config).
Proof.
  unfold call_credentials. destruct (call_auth config), (secret_manager config); try apply keeps_slots_ret.
  apply keeps_slots_bind; [apply keeps_slots_resolve|]. intros r. apply keeps_slots_ret.
Qed.

Lemma read_clock_pool w t w' : read_clock w ⇓ (t, w') → pool_of w' = pool_of w.
Proof.
  unfold read_clock, steady_now, wire_environment. cbn. destruct (steady_now (rest (env w))) as [t' x]. by intros [= <- <-].
Qed.
Lemma lease_pool_now t t' host p :
  lease_pool (try_acquire default_pool_config t host p).1 = lease_pool (try_acquire default_pool_config t' host p).1.
Proof. unfold try_acquire. by repeat case_match. Qed.
Lemma acquire_slot_spec host w l w' :
  pool_ok (pool_of w) → acquire_slot host w ⇓ (l, w') →
  (l = mkLease true host ∧ slot_taken host (pool_of w) (pool_of w') ∧ pool_ok (pool_of w')) ∨
  (lease_pool l = false ∧ same_slots (pool_of w) (pool_of w')).
Proof.
  intros Hok Hr. unfold acquire_slot in Hr. apply eff_bind_ret in Hr as (p & w0 & [= <- <-] & Hr).
  destruct (lease_pool (try_acquire default_pool_config 0 host (pool_of w)).1) eqn:Edry.
  - apply eff_bind_ret in Hr as (now & w2 & Hclock & Hr). apply eff_bind_ret in Hr as ([] & w3 & [= <-] & Hr).
    injection Hr as <- <-. cbn [env connections]. by apply try_acquire_slots.
  - apply eff_bind_ret in Hr as ([] & w3 & [= <-] & Hr). injection Hr as <- <-. cbn [env connections].
    by apply try_acquire_slots.
Qed.
Lemma release_slot_spec host p q w u w' :
  pool_ok p → slot_taken host p q → same_slots q (pool_of w) → release_slot (mkLease true host) w ⇓ (u, w') →
  same_slots p (pool_of w').
Proof.
  intros Hok Ht Hs Hr. unfold release_slot in Hr. apply eff_bind_ret in Hr as (r & w0 & [= <- <-] & Hr).
  cbn [lease_pool lease_host andb] in Hr. destruct (0 <? active_for_host host (pool_of w)) eqn:E.
  - apply eff_bind_ret in Hr as (now & w2 & Hclock & Hr). apply read_clock_pool in Hclock. injection Hr as <- <-.
    cbn [env connections]. by eapply record_end_slots.
  - exfalso. apply Z.ltb_ge in E. destruct Hs as [_ Hs], Ht as [_ Ht], Hok as [_ Hok].
    rewrite Hs, Ht, bool_decide_true in E by done. pose proof (Hok host). lia.
Qed.

(** The lease is given back on every path through the call. *)
Lemma keeps_slots_with_slot host exhausted call : keeps call → keeps (with_slot host exhausted call).
Proof.
  intros Hcall w a w' Hok Hr. unfold with_slot in Hr. apply eff_bind_ret in Hr as (l & w1 & Hl & Hr).
  destruct (acquire_slot_spec _ _ _ _ Hok Hl) as [(-> & Ht & Hok1)|[Hno Hs]].
  - cbn [lease_pool] in Hr. apply eff_bind_ret in Hr as (r & w2 & Hc & Hr).
    apply eff_bind_ret in Hr as (u & w3 & Hrel & Hr). injection Hr as <- <-.
    eapply release_slot_spec; [done|exact Ht| |exact Hrel]. by eapply Hcall.
  - rewrite Hno in Hr. by injection Hr as <- <-.
Qed.

(** ** Calls, retries and the registry *)
Definition keeps_slots_adapter (t : CapabilityTransportAdapter X) : Prop :=
  (∀ r, keeps (execute_http t r)) ∧ (∀ r, keeps (execute_grpc_json_transcoding t r)).
Lemma keeps_slots_http_call config t args : keeps_slots_adapter t → keeps (execute_http_capability_call config t args).
Proof.
  intros [Ht _]. apply keeps_slots_with_slot, keeps_slots_bind; [apply keeps_slots_credentials|]. intros [auth|e]; [|apply keeps_slots_ret].
  apply keeps_slots_bind; [apply Ht|]. intros r. apply keeps_slots_lift.
Qed.
Lemma keeps_slots_grpc_call config t args : keeps_slots_adapter t → keeps (execute_grpc_json_transcoding_capability_call config t args).
Proof.
  intros [_ Ht]. apply keeps_slots_with_slot, keeps_slots_bind; [apply keeps_slots_credentials|]. intros [auth|e]; [|apply keeps_slots_ret].
  apply keeps_slots_bind; [apply Ht|]. intros r. apply keeps_slots_lift.
Qed.

Lemma keeps_slots_circuit (m : eff (Wire X) CircuitState.t) : (∀ w a w', m w ⇓ (a, w') → pool_of w' = pool_of w) → keeps m.
Proof. intros Hm w a w' _ Hr. by rewrite (Hm _ _ _ Hr). Qed.
Lemma keeps_slots_load p : keeps (load_circuit p).
Proof. intros w a w' _ Hr. unfold load_circuit in Hr. destruct (_ !! _); [|done]. by injection Hr as <- <-. Qed.
Lemma keeps_slots_store p c : keeps (store_circuit p c).
Proof. intros w a w' _ Hr. by injection Hr as <- <-. Qed.
Lemma keeps_slots_sleep ms : keeps (do_sleep ms).
Proof. intros w a w' _ Hr. by injection Hr as <- <-. Qed.
Create HintDb keeps discriminated.
#[local] Hint Resolve keeps_slots_ret keeps_slots_lift keeps_slots_load keeps_slots_store keeps_slots_sleep keeps_slots_read_clock : keeps.
Ltac keeps_slots_step :=
  first [ solve [eauto with keeps]
        | match goal with
          | |- keeps (_ ≫= _) => apply keeps_slots_bind; [|intros ?]
          | |- keeps (if ?b then _ else _) => destruct b
          | |- keeps (match ?o with Some _ => _ | None => _ end) => destruct o
          | |- keeps (let _ := _ in _) => cbv zeta
          end ].
Lemma keeps_slots_attempts b args : (∀ args, keeps (handler b args)) → keeps (run_attempts b args).
Proof.
  intros Hb. unfold run_attempts, when_active, record_success, record_failure.
  assert (∀ fuel n k last, keeps (attempt_loop fuel b args n k last)) as Hloop.
  { induction fuel as [|fuel IH]; intros n k last; cbn [attempt_loop]; [by intros w a w' _ Hr|].
    unfold when_active, record_success, backoff. repeat keeps_slots_step. }
  apply keeps_slots_bind; [apply Hloop|]. intros [r|r]; unfold when_active, record_failure; repeat keeps_slots_step.
Qed.
Lemma keeps_slots_invoke_binding b args : (∀ args, keeps (handler b args)) → keeps (invoke_with_retry b args).
Proof.
  intros Hb. unfold invoke_with_retry, current_state. pose proof (keeps_slots_attempts b args Hb). repeat keeps_slots_step.
Qed.
End Keeps.

(** A binding of a remote service. *)
Definition remote_binding {X} `{Environment X} `{SystemClock X} (t : CapabilityTransportAdapter X) (b : CapabilityBinding (Wire X)) : Prop :=
  (∃ config, handler b = execute_http_capability_call config t) ∨
  (∃ config, handler b = execute_grpc_json_transcoding_capability_call config t).
Lemma keeps_slots_default_adapter {X} `{Environment X} `{SystemClock X} `{CurlEnvironment X} :
  keeps_slots_adapter default_capability_transport_adapter.
Proof.
  split; intros r; apply keeps_slots_bind; try (intros ?; apply keeps_slots_ret); apply keeps_slots_bind; try (intros ?; apply keeps_slots_ret); apply keeps_slots_in_rest.
Qed.

(** C36: However a call of a remote capability ends (no slot, no credentials,
    a timeout, a bad status, an unreadable body, a rejected value, retries, an
    open circuit), the pool has the same active connections after it as
    before: no path leaks a slot of the pool or gives one back twice. *)
Theorem remote_calls_return_slots {X} `{Environment X} `{SystemClock X} t (reg : CapabilityRegistry (Wire X)) name args w r w' :
  keeps_slots_adapter t → map_Forall (λ _, remote_binding t) reg → pool_ok (connections (env w)) →
  invoke reg name args w ⇓ (r, w') → same_slots (connections (env w)) (connections (env w')).
Proof.
  intros Ht Hreg Hok Hr. unfold invoke in Hr. destruct (reg !! name) as [b|] eqn:Hb; [|by injection Hr as <- <-].
  eapply (keeps_slots_invoke_binding b args); [|exact Hok|exact Hr]. intros a.
  destruct (Hreg _ _ Hb) as [[config ->]|[config ->]]; [by apply keeps_slots_http_call|by apply keeps_slots_grpc_call].
Qed.

(** ** When a call succeeds *)
Definition accepted (config : CallConfig) (body : string) (v : Value) : Prop :=
  match response_format config with
  | CapabilityResponseFormat.TextPlain => v = if bool_decide (body = "") then make_none else StringValue body
  | CapabilityResponseFormat.Json =>
      parse_value_from_wire_json body ⇓ Some v ∨ (body = "" ∧ parse_value_from_wire_json body ⇓ None ∧ v = make_none)
  end ∧
  ∀ schema, response_schema config = Some schema → conforms None v schema.
Lemma check_response_ok config v :
  check_response config (call_ok v) = call_ok v ∧ (∀ schema, response_schema config = Some schema → conforms None v schema) ∨
  is_success (check_response config (call_ok v)) = false ∧ ∃ schema, response_schema config = Some schema ∧ ¬ conforms None v schema.
Proof.
  unfold check_response. cbn [call_value call_ok]. destruct (response_schema config) as [schema|]; [|by left].
  pose proof (check_value_decides None v schema "") as Hd. change (is_success (call_ok v)) with true. cbv iota zeta.
  unfold validate_value_against_schema. destruct (schema_valid _).
  - left. split; [done|]. intros s [= <-]. by apply Hd.
  - right. split; [done|]. exists schema. split; [done|]. by intros Hc%Hd.
Qed.
Lemma read_response_exact config body r :
  read_response config body ⇓ r → (is_success r = true ↔ ∃ v, accepted config body v ∧ r = call_ok v).
Proof.
  unfold read_response, value_from_wire_response_body, accepted. intros Hr.
  assert (∀ v, r = check_response config (call_ok v) →
    (is_success r = true ↔ r = call_ok v ∧ ∀ schema, response_schema config = Some schema → conforms None v schema)) as Hcheck.
  { intros v ->. destruct (check_response_ok config v) as [[-> Hs]|[Hf (schema & Hs & Hn)]]; [by split|].
    rewrite Hf. split; [done|]. intros [_ Hall]. by destruct (Hn (Hall _ Hs)). }
  assert (∀ v v', call_ok v = call_ok v' → v = v') as Hinj by (intros v v' [= ->]; done).
  destruct (response_format config).
  - destruct (parse_value_from_wire_json body) as [o| |] eqn:Hp; [|done..]. cbn in Hr. injection Hr as Hr.
    destruct o as [v|]; [|case_bool_decide as Hb].
    + rewrite (Hcheck v) by done. split; [naive_solver|].
      intros (u & [[[= <-]|(_ & [=] & _)] Hs] & ->). done.
    + rewrite (Hcheck make_none) by done. split; [naive_solver|]. intros (u & [[[=]|(_ & _ & ->)] Hs] & ->). done.
    + subst r. unfold check_response, call_error. cbn. split; [done|]. intros (u & [[[=]|(? & _)] _] & _). done.
  - cbn in Hr. injection Hr as Hr. rewrite (Hcheck _ (eq_sym Hr)). split; [naive_solver|]. intros (u & [-> Hs] & ->). done.
Qed.
Lemma http_result_exact config resp r :
  http_result config resp ⇓ r →
  (is_success r = true ↔ 200 ≤ http_status resp < 300 ∧ ∃ v, accepted config (http_response_body resp) v ∧ r = call_ok v).
Proof.
  unfold http_result, http_is_timeout, http_success. intros Hr.
  assert (∀ P, (is_success r = true → False) → ¬ (200 ≤ http_status resp < 300) → (is_success r = true ↔ 200 ≤ http_status resp < 300 ∧ P)) as Hno
    by (intros P H1 H2; split; [intros; by exfalso; apply H1|by intros [? _]]).
  destruct (http_status resp =? 0) eqn:E0.
  { assert (¬ (200 ≤ http_status resp < 300)) by lia. apply Hno; [|done]. revert Hr.
    rewrite (andb_comm _ true). cbn [andb]. destruct (contains _ _); [by intros [= <-]|].
    destruct (negb _); [by intros [= <-]|]. rewrite (proj2 (andb_false_iff _ _)) by lia. by intros [= <-]. }
  rewrite !andb_false_r in Hr. cbn [andb] in Hr.
  destruct ((200 <=? http_status resp) && (http_status resp <? 300)) eqn:E1; cbn [negb] in Hr.
  - rewrite (read_response_exact _ _ _ Hr). split; [|by intros [_ ?]]. intros ?. split; [lia|done].
  - apply Hno; [by injection Hr as <-|lia].
Qed.
Lemma grpc_result_exact config resp r :
  grpc_result config resp ⇓ r →
  (is_success r = true ↔ grpc_status (final_grpc_response resp) = grpc_ok ∧
    ∃ v, accepted config (grpc_body (final_grpc_response resp)) v ∧ r = call_ok v).
Proof.
  unfold grpc_result. cbv zeta. intros Hr. destruct (grpc_status (final_grpc_response resp) =? grpc_deadline_exceeded) eqn:E1.
  { injection Hr as <-. split; [done|]. intros [Hs _]. apply Z.eqb_eq in E1. by rewrite E1 in Hs. }
  destruct (grpc_status (final_grpc_response resp) =? grpc_ok) eqn:E2; cbn [negb] in Hr.
  - rewrite (read_response_exact _ _ _ Hr). apply Z.eqb_eq in E2. split; [done|by intros [_ ?]].
  - injection Hr as <-. split; [done|]. intros [Hs _]. apply Z.eqb_neq in E2. done.
Qed.

(** The parts of a call that holds a slot and has its credentials. *)
Lemma with_slot_inv {X} `{Environment X} host exhausted (call : eff (Wire X) CapabilityCallResult) w r w' :
  with_slot host exhausted call w ⇓ (r, w') → is_success r = true →
  ∃ l w1 w2, acquire_slot host w ⇓ (l, w1) ∧ lease_pool l = true ∧ call w1 ⇓ (r, w2).
Proof.
  intros Hr Hs. unfold with_slot in Hr. apply eff_bind_ret in Hr as (l & w1 & Hl & Hr).
  destruct (lease_pool l) eqn:El; [|by injection Hr as <- <-].
  apply eff_bind_ret in Hr as (r' & w2 & Hc & Hr). apply eff_bind_ret in Hr as (u & w3 & _ & Hr). injection Hr as <- <-.
  eauto 6.
Qed.
Lemma with_slot_run {X} `{Environment X} host exhausted (call : eff (Wire X) CapabilityCallResult) w r w' l w1 :
  with_slot host exhausted call w ⇓ (r, w') → acquire_slot host w ⇓ (l, w1) → lease_pool l = true → ∃ w2, call w1 ⇓ (r, w2).
Proof.
  intros Hr Hl El. unfold with_slot in Hr. rewrite (eff_bind_eq _ _ _ _ _ Hl), El in Hr.
  apply eff_bind_ret in Hr as (r' & w2 & Hc & Hr). apply eff_bind_ret in Hr as (u & w3 & _ & Hr). injection Hr as <- <-. eauto.
Qed.
(** Both kinds of calls have this shape: [send] sends the request and [read]
    reads the response. *)
Definition credentialed {X R} `{Environment X} `{SystemClock X} (kind : string) (config : CallConfig)
    (send : ResolvedAuth → eff (Wire X) R) (read : R → cxx CapabilityCallResult) : eff (Wire X) CapabilityCallResult :=
  credentials ← call_credentials kind config;
  match credentials with inr error => mret error | inl auth => response ← send auth; ⌊ read response ⌋ end.
Lemma credentials_error {X} `{Environment X} `{SystemClock X} kind config w e w' :
  call_credentials (X := X) kind config w ⇓ (inr e, w') → is_success e = false.
Proof.
  unfold call_credentials. destruct (call_auth config) as [auth|], (secret_manager config) as [m|]; try done.
  - intros Hr. apply eff_bind_ret in Hr as (a & w1 & _ & Hr). destruct (auth_success a); [done|]. by injection Hr as <- _.
  - by intros [= <- _].
Qed.
Lemma credentialed_exact {X R} `{Environment X} `{SystemClock X} kind config host exhausted send (read : R → cxx CapabilityCallResult) (good : R → Prop) (body : R → string) w r w' :
  (∀ resp r, read resp ⇓ r → (is_success r = true ↔ good resp ∧ ∃ v, accepted config (body resp) v ∧ r = call_ok v)) →
  with_slot (X := X) host exhausted (credentialed kind config send read) w ⇓ (r, w') →
  (is_success r = true ↔
    ∃ l w1 auth w2 resp w3 v, acquire_slot host w ⇓ (l, w1) ∧ lease_pool l = true ∧
      call_credentials kind config w1 ⇓ (inl auth, w2) ∧ send auth w2 ⇓ (resp, w3) ∧
      good resp ∧ accepted config (body resp) v ∧ r = call_ok v).
Proof.
  intros Hread Hr. split.
  - intros Hs. destruct (with_slot_inv _ _ _ _ _ _ Hr Hs) as (l & w1 & w2 & Hl & El & Hc). unfold credentialed in Hc.
    apply eff_bind_ret in Hc as ([auth|e] & w3 & Hauth & Hc).
    2:{ injection Hc as <- <-. apply credentials_error in Hauth. congruence. }
    apply eff_bind_ret in Hc as (resp & w4 & Hsend & Hc). unfold lift in Hc.
    destruct (read resp) as [r'| |] eqn:Er; [|done..]. injection Hc as <- <-.
    apply (Hread _ _ Er) in Hs as (Hg & v & Ha & Hv). by eexists l, w1, auth, w3, resp, w4, v.
  - by intros (? & ? & ? & ? & ? & ? & ? & _ & _ & _ & _ & _ & _ & ->).
Qed.


(** ** From the process to the caller *)
(** Processes and files that work: curl prints this body and status, and ends
    with this code. *)
Record answers (X : Type) `{CurlEnvironment X} (code status : Z) (body stderr : string) : Prop := {
  answers_write pre content x : ∃ path x', temp_write pre content x ⇓ ((path, None), x');
  answers_remove path x : ∃ x' : X, temp_remove path x ⇓ (tt, x');
  answers_process args input limit x : ∃ x' : X, launch_process "curl" args input limit x ⇓
    (mkProcess code (body +:+ of_char nl +:+ to_string status) stderr false, x') }.

Section Arrives.
Context {X : Type} `{Environment X} `{SystemClock X} `{CurlEnvironment X}.
Lemma execute_curl_answers code status body stderr request (x : X) :
  answers X code status body stderr → in_int status = true → capture_headers request = false →
  in_int (timeout_seconds request + 5) = true →
  ∃ x', execute_curl request x ⇓ (mkCurlResponse status code body (transfer_error code stderr) false [] [], x').
Proof.
  intros [Hw Hd Hp] Hs Hc Ht.
  assert (∀ path x, ∃ x', curl_with_headers request path x ⇓ (mkCurlResponse status code body (transfer_error code stderr) false [] [], x')) as Hrun.
  { intros path y. unfold curl_with_headers. rewrite Hc. unfold run_curl, int_add. rewrite Ht.
    destruct (Hp ["--config"; "-"] (build_curl_config request path None) (timeout_seconds request + 5) y) as [y' Hy].
    exists y'. unfold mbind, eff_bind. cbn. rewrite Hy. rewrite parse_output by done. done. }
  unfold execute_curl. destruct (curl_body request) as [content|]; [|apply Hrun].
  destruct (Hw "ahfl-curl-body-" content x) as (path & x1 & Hx1). rewrite (eff_bind_eq _ _ _ _ _ Hx1).
  destruct (Hrun (Some path) x1) as [x2 Hx2]. cbv iota beta. rewrite (eff_bind_eq _ _ _ _ _ Hx2).
  destruct (Hd path x2) as [x3 Hx3]. exists x3. by rewrite (eff_bind_eq _ _ _ _ _ Hx3).
Qed.
Lemma release_slot_returns l (w : Wire X) : ∃ w', release_slot l w ⇓ (tt, w').
Proof.
  unfold release_slot, get_pool. rewrite (eff_bind_eq _ _ w (connections (env w)) w) by done.
  destruct (lease_pool l && _); [|by eexists]. unfold read_clock, mbind, eff_bind.
  destruct (steady_now (env w)) as [t e]. cbn. by eexists.
Qed.
Lemma acquire_slot_free host (w : Wire X) :
  lease_pool (try_acquire default_pool_config 0 host (connections (env w))).1 = true →
  ∃ l w', acquire_slot host w ⇓ (l, w') ∧ lease_pool l = true.
Proof.
  intros Hfree. unfold acquire_slot, get_pool. rewrite (eff_bind_eq _ _ w (connections (env w)) w) by done.
  rewrite Hfree. unfold read_clock, mbind, eff_bind. destruct (steady_now (env w)) as [t e]. cbn.
  eexists _, _. split; [done|]. by rewrite (lease_pool_now t 0).
Qed.
Lemma in_rest_run {A} (m : eff X A) (w : Wire X) a x :
  m (rest (env w)) ⇓ (a, x) → in_rest m w ⇓ (a, mkWorld (mkWireEnv x (connections (env w)) (managers (env w))) (circuits w)).
Proof. intros Hm. unfold in_rest. by rewrite Hm. Qed.
Lemma whole_seconds_small ms : 0 ≤ ms ≤ 1000 * (int_max - 5) → in_int (to_int (whole_seconds ms) + 5) = true.
Proof.
  intros Hms. unfold whole_seconds. rewrite Z.quot_div_nonneg by lia.
  assert (0 ≤ ms / 1000 ≤ int_max - 5) as Hq by (split; [apply Z.div_pos|apply Z.div_le_upper_bound]; lia).
  revert Hq. generalize (ms / 1000). intros q Hq. unfold to_int, in_int, int_min, int_max in *.
  rewrite Z.mod_small by lia. lia.
Qed.

Lemma http_result_value config v resp :
  transportable v → 200 ≤ http_status resp < 300 → http_response_body resp = value_to_json v →
  response_format config = CapabilityResponseFormat.Json →
  (∀ schema, response_schema config = Some schema → conforms None (normalize v) schema) →
  http_result config resp ⇓ call_ok (normalize v).
Proof.
  intros Hv Hs Hb Hf Hschema. unfold http_result, http_is_timeout, http_success.
  rewrite (proj2 (Z.eqb_neq (http_status resp) 0)) by lia. rewrite andb_false_r. cbn [andb].
  rewrite (proj2 (andb_true_iff (200 <=? _) _)) by lia. cbn [negb].
  unfold read_response, value_from_wire_response_body. rewrite Hf, Hb. unfold parse_value_from_wire_json.
  rewrite value_reads by done. cbn. f_equal.
  destruct (check_response_ok config (normalize v)) as [[Hc _]|[_ (schema & Hc & Hn)]]; [exact Hc|]. by destruct (Hn (Hschema _ Hc)).
Qed.

End Arrives.

(** ** Runs *)
(** A clock that ticks, and a curl process that always prints the same. *)
#[local] Instance bench_clock : Environment Z := { steady_now t := (t, t + 1); sleep_for ms t := t + ms * 1000000 }.
#[local] Instance bench_system : SystemClock Z := λ t, (t, t + 1).
Definition bench_curl (code : Z) (output stderr : string) : CurlEnvironment Z := {|
  temp_write pre _ := mret ("/tmp/" +:+ pre, None);
  temp_remove _ := mret tt;
  read_file _ := mret None;
  launch_process _ _ _ _ := mret (mkProcess code output stderr false) |}.
Definition bench_world : Wire Z := mkWorld (mkWireEnv 0 empty_pool ∅) ∅.
Definition bench_config (format : CapabilityResponseFormat.t) (schema : option TypeRef) : HTTPCapabilityConfig :=
  mkHTTPConfig "http://svc:80/get" "POST" ∅
    (mkCallConfig format (mkRetry 1 10 (d_of_Z 2)) default_timeout default_circuit_config None None schema).
Definition bench_call code output stderr format : cxx (CapabilityCallResult * Wire Z) :=
  execute_http_capability_call (bench_config format None)
    (@default_capability_transport_adapter Z (bench_curl code output stderr)) [IntValue 1] bench_world.
Definition bench_registry code output stderr : CapabilityRegistry (Wire Z) :=
  {["get" := mkBinding "get"
      (execute_http_capability_call (bench_config CapabilityResponseFormat.Json None) (@default_capability_transport_adapter Z (bench_curl code output stderr)))
      (mkRetry 1 10 (d_of_Z 2)) default_timeout default_circuit_config None]}.
Lemma pool_ok_empty : pool_ok empty_pool.
Proof. split; [|intros host; unfold active_for_host; cbn [hosts_ empty_pool]; rewrite lookup_empty]; by vm_compute. Qed.

(** A call that fails twice, with a retry. *)
Lemma remote_calls_return_slots_witness :
  ∃ r w', invoke (bench_registry 7 "000" "refused") "get" [IntValue 1] bench_world ⇓ (r, w') ∧
    call_status r = CapabilityCallStatus.RetryExhausted ∧ same_slots (connections (env bench_world)) (connections (env w')).
Proof.
  assert (∃ r w', invoke (bench_registry 7 "000" "refused") "get" [IntValue 1] bench_world ⇓ (r, w') ∧
    call_status r = CapabilityCallStatus.RetryExhausted) as (r & w' & Hr & Hs)
    by (eexists _, _; split; [vm_compute; reflexivity|reflexivity]).
  exists r, w'. split; [exact Hr|]. split; [exact Hs|].
  eapply (remote_calls_return_slots (@default_capability_transport_adapter Z (bench_curl 7 "000" "refused"))); [| | |exact Hr].
  - apply keeps_slots_default_adapter.
  - apply map_Forall_singleton. left. eexists. reflexivity.
  - apply pool_ok_empty.
Defined.

(** curl's own time limit is five seconds below the one of the process, and its
    message does not hold the word that the call looks for: the call reports an
    error, not a timeout. *)
Example curl_timeout_is_an_error :
  let stderr := "curl: (28) Operation timed out after 30000 milliseconds with 0 bytes received" in
  ∃ w', bench_call 28 "000" stderr CapabilityResponseFormat.TextPlain ⇓ (call_error ("HTTP transport error: " +:+ stderr), w').
Proof. eexists. vm_compute. reflexivity. Qed.
(** A transfer that breaks off after the headers (exit code 18) counts as a
    success, with the part of the body that arrived. *)
Example partial_body_is_a_success :
  ∃ w', bench_call 18 ("par" +:+ of_char nl +:+ "200") "curl: (18) transfer closed with 4 bytes remaining to read" CapabilityResponseFormat.TextPlain
    ⇓ (call_ok (StringValue "par"), w').
Proof. eexists. vm_compute. reflexivity. Qed.
(** The port is converted to 16 bits. *)
Example port_wraps : pe_port (parse_grpc_json_transcoding_endpoint "http://svc:70000") = 4464.
Proof. reflexivity. Qed.
