(* ===== verification/Syntax.v ===== *)
(** * The syntax tree of expressions, types and statements
      (include/ahfl/compiler/frontend/ast.hpp)

    The nodes that the type checker visits.  An [Owned<>] child is present:
    the tree that the front end hands on has passed the validator of
    src/compiler/syntax/frontend/ast.cpp, which reports every missing child;
    only the pointers the validator lets be null (the type of a [let], the
    [else] block, the value of a [return]) are options.  The copy of the source
    text in a node is not kept. *)
From S2P Require Import Prelude Ir.
Open Scope nat_scope.

#[export] Instance SourceRange_eq_dec : EqDecision SourceRange.
Proof. solve_decision. Defined.
Abbreviation SourceId := nat.

Module Ast.
Module PathRootKind.
Inductive t := Identifier | Input | Output.
End PathRootKind.
Module ExprUnaryOp.
Inductive t := Not | Negate | Positive.
End ExprUnaryOp.
Module ExprBinaryOp.
Inductive t :=
  | Implies | Or | And | Equal | NotEqual | Less | LessEqual | Greater | GreaterEqual
  | Add | Subtract | Multiply | Divide | Modulo.
End ExprBinaryOp.
Module ExprSyntaxKind.
Inductive t :=
  | BoolLiteral | IntegerLiteral | FloatLiteral | DecimalLiteral | StringLiteral | DurationLiteral
  | NoneLiteral | Some_ | Path | QualifiedValue | Call | StructLiteral | ListLiteral | SetLiteral
  | MapLiteral | Unary | Binary | MemberAccess | IndexAccess | Group.
End ExprSyntaxKind.

Record QualifiedName := mkQualifiedName {
  qn_range : SourceRange;
  segments : list string }.
Definition join_segments (segments : list string) : string :=
  match segments with
  | [] => ""
  | s :: r => fold_left (λ text s, text +:+ "::" +:+ s) r s
  end.
Definition spelling (n : QualifiedName) : string := join_segments (segments n).

Record PathSyntax := mkPathSyntax {
  ps_range : SourceRange;
  ps_root_kind : PathRootKind.t;
  ps_root_name : string;
  ps_members : list string }.
Record IntegerSyntax := mkIntegerSyntax {
  int_range : SourceRange;
  int_spelling : string;
  int_value : Z }.
Record DurationSyntax := mkDurationSyntax {
  dur_range : SourceRange;
  dur_spelling : string }.

(** ** Types *)
Inductive TypeSyntax :=
  | mkTypeSyntax (range : SourceRange) (node : TypeSyntaxNode)
with TypeSyntaxNode :=
  | UnitType | BoolType | IntType | FloatType | StringType
  | BoundedStringType (min_length max_length : Z)
  | UuidType | TimestampType | DurationType
  | DecimalType (scale : Z)
  | NamedType (name : QualifiedName)
  | OptionalType (inner : TypeSyntax)
  | ListType (element : TypeSyntax)
  | SetType (element : TypeSyntax)
  | MapType (key_type value_type : TypeSyntax).

(** ** Expressions: a struct literal holds the range, name and value of its
    fields, a map literal its entries. *)
Inductive ExprSyntax :=
  | mkExprSyntax (range : SourceRange) (node_id : Z) (node : ExprSyntaxNode)
with ExprSyntaxNode :=
  | NoneLiteralExpr
  | BoolLiteralExpr (value : bool)
  | IntegerLiteralExpr (literal : IntegerSyntax)
  | FloatLiteralExpr (spelling : string)
  | DecimalLiteralExpr (spelling : string)
  | StringLiteralExpr (spelling : string)
  | DurationLiteralExpr (literal : DurationSyntax)
  | SomeExpr (value : ExprSyntax)
  | PathExpr (path : PathSyntax)
  | QualifiedValueExpr (name : QualifiedName)
  | CallExpr (callee : QualifiedName) (arguments : list ExprSyntax)
  | StructLiteralExpr (type_name : QualifiedName) (fields : list (SourceRange * string * ExprSyntax))
  | ListLiteralExpr (items : list ExprSyntax)
  | SetLiteralExpr (items : list ExprSyntax)
  | MapLiteralExpr (entries : list (ExprSyntax * ExprSyntax))
  | UnaryExpr (op : ExprUnaryOp.t) (operand : ExprSyntax)
  | BinaryExpr (op : ExprBinaryOp.t) (lhs rhs : ExprSyntax)
  | MemberAccessExpr (base : ExprSyntax) (member : string)
  | IndexAccessExpr (base index : ExprSyntax)
  | GroupExpr (inner : ExprSyntax).

Definition range (e : ExprSyntax) : SourceRange := match e with mkExprSyntax r _ _ => r end.
Definition node_id (e : ExprSyntax) : Z := match e with mkExprSyntax _ i _ => i end.
Definition node (e : ExprSyntax) : ExprSyntaxNode := match e with mkExprSyntax _ _ n => n end.

Definition expr_syntax_kind (e : ExprSyntax) : ExprSyntaxKind.t :=
  match node e with
  | NoneLiteralExpr => ExprSyntaxKind.NoneLiteral
  | BoolLiteralExpr _ => ExprSyntaxKind.BoolLiteral
  | IntegerLiteralExpr _ => ExprSyntaxKind.IntegerLiteral
  | FloatLiteralExpr _ => ExprSyntaxKind.FloatLiteral
  | DecimalLiteralExpr _ => ExprSyntaxKind.DecimalLiteral
  | StringLiteralExpr _ => ExprSyntaxKind.StringLiteral
  | DurationLiteralExpr _ => ExprSyntaxKind.DurationLiteral
  | SomeExpr _ => ExprSyntaxKind.Some_
  | PathExpr _ => ExprSyntaxKind.Path
  | QualifiedValueExpr _ => ExprSyntaxKind.QualifiedValue
  | CallExpr _ _ => ExprSyntaxKind.Call
  | StructLiteralExpr _ _ => ExprSyntaxKind.StructLiteral
  | ListLiteralExpr _ => ExprSyntaxKind.ListLiteral
  | SetLiteralExpr _ => ExprSyntaxKind.SetLiteral
  | MapLiteralExpr _ => ExprSyntaxKind.MapLiteral
  | UnaryExpr _ _ => ExprSyntaxKind.Unary
  | BinaryExpr _ _ _ => ExprSyntaxKind.Binary
  | MemberAccessExpr _ _ => ExprSyntaxKind.MemberAccess
  | IndexAccessExpr _ _ => ExprSyntaxKind.IndexAccess
  | GroupExpr _ => ExprSyntaxKind.Group
  end.

(** ** Statements *)
Inductive BlockSyntax :=
  | mkBlockSyntax (range : SourceRange) (statements : list StatementSyntax)
with StatementSyntax :=
  | mkStatementSyntax (range : SourceRange) (stmt : StatementSyntaxNode)
with StatementSyntaxNode :=
  | LetStmt (name : string) (type : option TypeSyntax) (initializer : ExprSyntax)
  | AssignStmt (target : PathSyntax) (value : ExprSyntax)
  | IfStmt (condition : ExprSyntax) (then_block : BlockSyntax) (else_block : option BlockSyntax)
  | GotoStmt (target_state : string)
  | ReturnStmt (value : option ExprSyntax)
  | AssertStmt (condition : ExprSyntax)
  | ExprStmt (expr : ExprSyntax).

(** ** Induction over expressions *)
Definition subexpressions (n : ExprSyntaxNode) : list ExprSyntax :=
  match n with
  | SomeExpr e | UnaryExpr _ e | MemberAccessExpr e _ | GroupExpr e => [e]
  | CallExpr _ l | ListLiteralExpr l | SetLiteralExpr l => l
  | StructLiteralExpr _ fs => fs.*2
  | MapLiteralExpr es => es ≫= λ e, [e.1; e.2]
  | BinaryExpr _ a b | IndexAccessExpr a b => [a; b]
  | _ => []
  end.

Section ExprInduction.
Context (P : ExprSyntax → Prop).
Context (step : ∀ e, Forall P (subexpressions (node e)) → P e).
Lemma expr_syntax_induction : ∀ e, P e.
Proof.
  fix IH 1. intros [r i n]. apply step. cbn [node].
  destruct n; cbn [subexpressions]; try apply Forall_nil_2;
    try (repeat (apply Forall_cons_2; [apply IH|]); apply Forall_nil_2).
  - induction arguments; constructor; [apply IH | assumption].
  - induction fields as [|[??] fs IHfs]; simpl; constructor; [apply IH | exact IHfs].
  - induction items; constructor; [apply IH | assumption].
  - induction items; constructor; [apply IH | assumption].
  - induction entries as [|[??] es IHes]; simpl; [apply Forall_nil_2|].
    constructor; [apply IH|]. constructor; [apply IH | exact IHes].
Qed.
End ExprInduction.
End Ast.
