(* ===== verification/Facts.v ===== *)
(** * Effects, places, flow facts and name suggestions
      (src/compiler/semantics/{effects,flow_facts,condition_facts,name_suggestions}.cpp)

    What the expression checker uses of the small components beside it, with
    the theorems about each: joining effects, the facts a condition
    establishes, and the closest name among candidates. *)
From S2P Require Import Prelude Ir Syntax.
From Stdlib Require Import Ascii OrdersEx.
Open Scope nat_scope.

(** ** Effects *)
Module ExprEffect.
Inductive t := Pure | ConstOnly | PredicateCall | CapabilityCall | ExternalEffect | Unknown.
End ExprEffect.
Definition is_effect_pure (effect : ExprEffect.t) : bool :=
  match effect with
  | ExprEffect.Pure | ExprEffect.ConstOnly | ExprEffect.PredicateCall => true
  | ExprEffect.CapabilityCall | ExprEffect.ExternalEffect | ExprEffect.Unknown => false
  end.
Definition effect_rank (effect : ExprEffect.t) : nat :=
  match effect with
  | ExprEffect.Pure => 0 | ExprEffect.ConstOnly => 1 | ExprEffect.PredicateCall => 2
  | ExprEffect.CapabilityCall => 3 | ExprEffect.ExternalEffect => 4 | ExprEffect.Unknown => 5
  end.
Definition join_effects (lhs rhs : ExprEffect.t) : ExprEffect.t :=
  if bool_decide (effect_rank rhs ≤ effect_rank lhs) then lhs else rhs.

Lemma join_pure l r : is_effect_pure (join_effects l r) = is_effect_pure l && is_effect_pure r.
Proof. by destruct l, r. Qed.

(** ** Places *)
Record Place := mkPlace { root : string; place_members : list string }.
#[export] Instance Place_eq_dec : EqDecision Place.
Proof. solve_decision. Defined.
#[export] Program Instance Place_countable : Countable Place :=
  inj_countable' (λ p, (root p, place_members p)) (λ '(r, m), mkPlace r m) _.
Next Obligation. by intros []. Qed.

Definition is_same_or_descendant (candidate ancestor : Place) : bool :=
  bool_decide (root candidate = root ancestor) &&
  bool_decide (length (place_members ancestor) ≤ length (place_members candidate)) &&
  bool_decide (take (length (place_members ancestor)) (place_members candidate)
               = place_members ancestor).

(** ** Flow facts *)
Module TypeFactKind.
Inductive t := IsNone | IsNotNone | IsVariant | IsNotVariant.
End TypeFactKind.
#[export] Instance TypeFactKind_eq_dec : EqDecision TypeFactKind.t.
Proof. solve_decision. Defined.
Record TypeFact := mkTypeFact {
  place : Place;
  fact_kind : TypeFactKind.t;
  origin : SourceRange;
  enum_name : string;
  variant_name : string }.
#[export] Instance TypeFact_eq_dec : EqDecision TypeFact.
Proof. solve_decision. Defined.

(** [facts_by_place_]: the facts of a place in the order of their insertion. *)
Abbreviation FlowFacts := (gmap Place (list TypeFact)).
Definition same_fact (fact existing : TypeFact) : bool :=
  bool_decide (fact_kind existing = fact_kind fact) &&
  match fact_kind fact with
  | TypeFactKind.IsVariant | TypeFactKind.IsNotVariant =>
      bool_decide (enum_name existing = enum_name fact) &&
      bool_decide (variant_name existing = variant_name fact)
  | _ => true
  end.
Definition add_to_bucket (bucket : list TypeFact) (fact : TypeFact) : list TypeFact :=
  if existsb (same_fact fact) bucket then bucket else bucket ++ [fact].
Definition add_fact (fact : TypeFact) (f : FlowFacts) : FlowFacts :=
  <[place fact := add_to_bucket (default [] (f !! place fact)) fact]> f.
(** [for_each]: the order of the places is not specified. *)
Definition all_facts (f : FlowFacts) : list TypeFact := mjoin (map_to_list f).*2.
Definition merge_from (other f : FlowFacts) : FlowFacts :=
  fold_left (λ f fact, add_fact fact f) (all_facts other) f.
Definition invalidate (p : Place) (f : FlowFacts) : FlowFacts :=
  filter (λ entry, is_same_or_descendant entry.1 p = false) f.
Definition bucket_of (p : Place) (f : FlowFacts) : list TypeFact := default [] (f !! p).
Definition has_fact (p : Place) (kind : TypeFactKind.t) (f : FlowFacts) : bool :=
  existsb (λ fact, bool_decide (fact_kind fact = kind)) (bucket_of p f).

(** ** The facts of a condition *)
Fixpoint extract_place (expr : Ast.ExprSyntax) : option Place :=
  match expr with
  | Ast.mkExprSyntax _ _ n =>
      match n with
      | Ast.GroupExpr inner => extract_place inner
      | Ast.MemberAccessExpr base member =>
          p ← extract_place base; Some (mkPlace (root p) (place_members p ++ [member]))
      | Ast.PathExpr path => Some (mkPlace (Ast.ps_root_name path) (Ast.ps_members path))
      | _ => None
      end
  end.
Definition is_none_literal (expr : Ast.ExprSyntax) : bool :=
  match Ast.node expr with Ast.NoneLiteralExpr => true | _ => false end.
(** The name of a qualified value of at least two segments. *)
Definition qualified_value (expr : Ast.ExprSyntax) : option (string * string) :=
  match Ast.node expr with
  | Ast.QualifiedValueExpr name =>
      match reverse (Ast.segments name) with
      | variant :: enum :: _ => Some (enum, variant)
      | _ => None
      end
  | _ => None
  end.
Definition opposite (kind : TypeFactKind.t) : TypeFactKind.t :=
  match kind with TypeFactKind.IsNone => TypeFactKind.IsNotNone | _ => TypeFactKind.IsNone end.
Definition is_equality (op : Ast.ExprBinaryOp.t) : option bool :=
  match op with
  | Ast.ExprBinaryOp.Equal => Some true
  | Ast.ExprBinaryOp.NotEqual => Some false
  | _ => None
  end.
Definition none_place (lhs rhs : Ast.ExprSyntax) : option Place :=
  if is_none_literal lhs then extract_place rhs
  else if is_none_literal rhs then extract_place lhs else None.
Fixpoint extract_none_comparison (condition : Ast.ExprSyntax) (truth_value : bool) : option TypeFact :=
  match condition with
  | Ast.mkExprSyntax range _ n =>
      match n with
      | Ast.GroupExpr inner => extract_none_comparison inner truth_value
      | Ast.BinaryExpr op lhs rhs =>
          equal ← is_equality op;
          p ← none_place lhs rhs;
          let kind := if (equal : bool) then TypeFactKind.IsNone else TypeFactKind.IsNotNone in
          let kind := if truth_value then kind else opposite kind in
          Some (mkTypeFact p kind range "" "")
      | _ => None
      end
  end.
Definition variant_place (lhs rhs : Ast.ExprSyntax) : option (Place * (string * string)) :=
  match qualified_value rhs with
  | Some q => p ← extract_place lhs; Some (p, q)
  | None => match qualified_value lhs with
            | Some q => p ← extract_place rhs; Some (p, q)
            | None => None
            end
  end.
Fixpoint extract_variant_comparison (condition : Ast.ExprSyntax) (truth_value : bool)
    : option TypeFact :=
  match condition with
  | Ast.mkExprSyntax range _ n =>
      match n with
      | Ast.GroupExpr inner => extract_variant_comparison inner truth_value
      | Ast.BinaryExpr op lhs rhs =>
          equal ← is_equality op;
          pq ← variant_place lhs rhs;
          let positive := Bool.eqb equal truth_value in
          Some (mkTypeFact pq.1
            (if positive then TypeFactKind.IsVariant else TypeFactKind.IsNotVariant)
            range pq.2.1 pq.2.2)
      | _ => None
      end
  end.
Definition add_option (fact : option TypeFact) (f : FlowFacts) : FlowFacts :=
  match fact with Some fact => add_fact fact f | None => f end.
Definition comparison_facts (condition : Ast.ExprSyntax) (truth_value : bool) (f : FlowFacts)
    : FlowFacts :=
  add_option (extract_variant_comparison condition truth_value)
    (add_option (extract_none_comparison condition truth_value) f).
Fixpoint collect_true_facts (condition : Ast.ExprSyntax) (f : FlowFacts) : FlowFacts :=
  match condition with
  | Ast.mkExprSyntax _ _ n =>
      match n with
      | Ast.GroupExpr inner => collect_true_facts inner f
      | Ast.BinaryExpr Ast.ExprBinaryOp.And lhs rhs =>
          collect_true_facts rhs (collect_true_facts lhs f)
      | _ => comparison_facts condition true f
      end
  end.
Record ConditionFacts := mkConditionFacts { when_true : FlowFacts; when_false : FlowFacts }.
Definition extract_condition_facts (condition : Ast.ExprSyntax) : ConditionFacts :=
  mkConditionFacts (collect_true_facts condition ∅) (comparison_facts condition false ∅).

(** ** Name suggestions: the rows of the dynamic program *)
Definition substitution_cost (x y : ascii) : nat := if bool_decide (x = y) then 0 else 1.
Definition cheapest (up left diagonal : nat) : nat := Nat.min (Nat.min up left) diagonal.
(** [current[right]] for the characters that are left, from the cell before it
    ([left]), the one above that ([diagonal]) and the row above. *)
Fixpoint fill_row (c : ascii) (rhs : list ascii) (diagonal : nat) (above : list nat) (left : nat)
    : list nat :=
  match rhs, above with
  | r :: rhs, up :: above =>
      let cell := cheapest (up + 1) (left + 1) (diagonal + substitution_cost c r) in
      cell :: fill_row c rhs up above cell
  | _, _ => []
  end.
Definition next_row (c : ascii) (rhs : list ascii) (index : nat) (previous : list nat) : list nat :=
  match previous with
  | diagonal :: above => index :: fill_row c rhs diagonal above index
  | [] => []
  end.
Fixpoint edit_rows (lhs rhs : list ascii) (index : nat) (previous : list nat) : list nat :=
  match lhs with
  | [] => previous
  | c :: lhs => edit_rows lhs rhs (S index) (next_row c rhs index previous)
  end.
Definition edit_distance (lhs rhs : string) : nat :=
  let l := String.list_ascii_of_string lhs in
  let r := String.list_ascii_of_string rhs in
  default 0 (edit_rows l r 1 (seq 0 (S (length r))) !! length r).

(** One candidate against the best so far. *)
Definition better_candidate (name : string) (best : option (string * nat)) (candidate : string)
    : option (string * nat) :=
  let distance := edit_distance name candidate in
  if bool_decide (2 < distance) then best
  else match best with
       | None => Some (candidate, distance)
       | Some (b, best_distance) =>
           if bool_decide (distance < best_distance)
              || bool_decide (distance = best_distance) && String.ltb candidate b
           then Some (candidate, distance) else best
       end.
Definition suggest_name (name : string) (candidates : list string) : option string :=
  fst <$> fold_left (better_candidate name) candidates None.

(** ** The distance is the least number of edits *)
Inductive edits {A} : nat → list A → list A → Prop :=
  | edits_done : edits 0 [] []
  | edits_keep n x l r : edits n l r → edits n (x :: l) (x :: r)
  | edits_substitute n x y l r : edits n l r → edits (S n) (x :: l) (y :: r)
  | edits_insert n y l r : edits n l r → edits (S n) l (y :: r)
  | edits_delete n x l r : edits n l r → edits (S n) (x :: l) r.
#[local] Hint Constructors edits : core.
Definition least_edits {A} (n : nat) (l r : list A) : Prop :=
  edits n l r ∧ ∀ m, edits m l r → n ≤ m.

Lemma edits_app {A} n m (l r l' r' : list A) : edits n l r → edits m l' r' → edits (n + m) (l ++ l') (r ++ r').
Proof. induction 1; simpl; auto. Qed.
Lemma edits_reverse {A} n (l r : list A) : edits n l r → edits n (rev l) (rev r).
Proof.
  assert (Hs : ∀ m k (l r x y : list A), edits m l r → edits k x y → edits (k + m) (l ++ x) (r ++ y))
    by (intros; rewrite Nat.add_comm; by apply edits_app).
  induction 1 as [|n x l r _ IH|n x y l r _ IH|n y l r _ IH|n x l r _ IH]; simpl; [done| | | |].
  - by apply (Hs _ 0); [|auto].
  - by apply (Hs _ 1); [|auto].
  - rewrite <- (app_nil_r (rev l)). by apply (Hs _ 1); [|auto].
  - rewrite <- (app_nil_r (rev r)). by apply (Hs _ 1); [|auto].
Qed.

Fixpoint lev (l r : list ascii) : nat :=
  match l with
  | [] => length r
  | x :: l' =>
      (fix against (r : list ascii) : nat :=
         match r with
         | [] => length l
         | y :: r' => cheapest (S (lev l' r)) (S (against r')) (lev l' r' + substitution_cost x y)
         end) r
  end.
Lemma lev_cons x l y r :
  lev (x :: l) (y :: r) = cheapest (S (lev l (y :: r))) (S (lev (x :: l) r)) (lev l r + substitution_cost x y).
Proof. done. Qed.
Lemma lev_nil_r l : lev l [] = length l.
Proof. by destruct l. Qed.
Lemma lev_edits l r : edits (lev l r) l r.
Proof.
  revert r. induction l as [|x l IH]; intros r.
  { induction r; simpl; auto. }
  induction r as [|y r IHr].
  { rewrite lev_nil_r. assert (H : ∀ l : list ascii, edits (length l) l []) by (intros k; induction k; simpl; auto). apply H. }
  rewrite lev_cons. unfold cheapest, substitution_cost.
  assert (Hd : edits (lev l r + (if bool_decide (x = y) then 0 else 1)) (x :: l) (y :: r)).
  { case_bool_decide; subst; [rewrite Nat.add_0_r | rewrite Nat.add_1_r]; auto. }
  destruct (Nat.min_dec (Nat.min (S (lev l (y :: r))) (S (lev (x :: l) r))) (lev l r + (if bool_decide (x = y) then 0 else 1))) as [-> | ->];
    [|done].
  destruct (Nat.min_dec (S (lev l (y :: r))) (S (lev (x :: l) r))) as [-> | ->]; auto.
Qed.
Lemma lev_least n l r : edits n l r → lev l r ≤ n.
Proof.
  induction 1 as [|n x l r _ IH|n x y l r _ IH|n y l r _ IH|n x l r _ IH]; [done| | | |].
  - rewrite lev_cons. unfold cheapest, substitution_cost. rewrite bool_decide_true by done. lia.
  - rewrite lev_cons. unfold cheapest, substitution_cost. case_bool_decide; lia.
  - destruct l as [|x l]; [simpl in *; lia|]. rewrite lev_cons. unfold cheapest. lia.
  - destruct r as [|y r]; [rewrite lev_nil_r in *; simpl; lia|]. rewrite lev_cons. unfold cheapest. lia.
Qed.

(** The row of the table for a reversed prefix of the left word: its cells
    belong to the reversed prefixes of the right word. *)
Fixpoint table_row (p rhs q : list ascii) : list nat :=
  lev p q :: match rhs with [] => [] | y :: rhs => table_row p rhs (y :: q) end.
Lemma table_row_tail p y rhs q : ∃ above, table_row p (y :: rhs) q = lev p q :: above ∧ above = table_row p rhs (y :: q).
Proof. eauto. Qed.
Lemma table_row_cons p rhs q : table_row p rhs q = lev p q :: tail (table_row p rhs q).
Proof. by destruct rhs. Qed.
Lemma fill_row_table c p rhs q :
  fill_row c rhs (lev p q) (tail (table_row p rhs q)) (lev (c :: p) q) = tail (table_row (c :: p) rhs q).
Proof.
  revert q. induction rhs as [|y rhs IH]; intros q; [done|].
  cbn [table_row tail]. rewrite (table_row_cons p rhs (y :: q)), (table_row_cons (c :: p) rhs (y :: q)).
  cbn [fill_row tail]. rewrite !Nat.add_1_r, <- lev_cons. f_equal. apply IH.
Qed.
Lemma next_row_table c p rhs : next_row c rhs (S (length p)) (table_row p rhs []) = table_row (c :: p) rhs [].
Proof.
  rewrite (table_row_cons p), (table_row_cons (c :: p)). cbn [next_row].
  rewrite !lev_nil_r. cbn [length]. f_equal.
  pose proof (fill_row_table c p rhs []) as H. by rewrite !lev_nil_r in H.
Qed.
Lemma edit_rows_table l p rhs :
  edit_rows l rhs (S (length p)) (table_row p rhs []) = table_row (rev l ++ p) rhs [].
Proof.
  revert p. induction l as [|c l IH]; intros p; cbn [edit_rows rev]; [done|].
  rewrite next_row_table. change (S (S (length p))) with (S (length (c :: p))).
  by rewrite IH, <- app_assoc.
Qed.
Lemma table_row_last p rhs q : table_row p rhs q !! length rhs = Some (lev p (rev rhs ++ q)).
Proof.
  revert q. induction rhs as [|y rhs IH]; intros q; [done|]. cbn [table_row rev length].
  rewrite <- app_assoc. apply (IH (y :: q)).
Qed.
Lemma first_row rhs q : table_row [] rhs q = seq (length q) (S (length rhs)).
Proof.
  revert q. induction rhs as [|y rhs IH]; intros q; [done|].
  cbn [table_row]. rewrite (IH (y :: q)). done.
Qed.
Lemma edit_distance_lev a b :
  edit_distance a b = lev (rev (String.list_ascii_of_string a)) (rev (String.list_ascii_of_string b)).
Proof.
  unfold edit_distance. rewrite <- (first_row _ []).
  change 1 with (S (length (@nil ascii))). rewrite edit_rows_table, table_row_last. cbn [default].
  by rewrite !app_nil_r.
Qed.
(** The dynamic program computes the least number of edits. *)
Lemma edit_distance_least a b :
  least_edits (edit_distance a b) (String.list_ascii_of_string a) (String.list_ascii_of_string b).
Proof.
  rewrite edit_distance_lev. split.
  - pose proof (edits_reverse _ _ _ (lev_edits (rev (String.list_ascii_of_string a)) (rev (String.list_ascii_of_string b)))) as H.
    by rewrite !rev_involutive in H.
  - intros m Hm. by apply lev_least, edits_reverse.
Qed.

(** Names of the same distance are ordered as strings. *)
Lemma string_ltb_lt a b : String.ltb a b = true ↔ String_as_OT.lt a b.
Proof.
  unfold String_as_OT.lt, String.ltb.
  assert (H : String_as_OT.compare a b = String.compare a b) by (revert b; induction a; intros []; simpl; [done..|]; by rewrite IHa).
  rewrite H. by destruct (String.compare a b).
Qed.
Definition beats (name a b : string) : Prop :=
  edit_distance name a < edit_distance name b ∨
  edit_distance name a = edit_distance name b ∧ String.ltb a b = true.
Lemma beats_trans name a b c : beats name a b → beats name b c → beats name a c.
Proof.
  unfold beats. rewrite !string_ltb_lt. intros [?|[? Hab]] [?|[? Hbc]]; [left; lia..|].
  right. split; [lia|]. by eapply (@StrictOrder_Transitive _ _ String_as_OT.lt_strorder).
Qed.
Lemma beats_irrefl name a : ¬ beats name a a.
Proof.
  unfold beats. rewrite string_ltb_lt. intros [?|[_ H]]; [lia|].
  by eapply (@StrictOrder_Irreflexive _ _ String_as_OT.lt_strorder).
Qed.
(** The best of the candidates that are close enough. *)
Definition best_of (name : string) (candidates : list string) (best : option (string * nat)) : Prop :=
  match best with
  | Some (b, d) => b ∈ candidates ∧ d = edit_distance name b ∧ d ≤ 2 ∧
      ∀ c, c ∈ candidates → ¬ beats name c b
  | None => ∀ c, c ∈ candidates → 2 < edit_distance name c
  end.
Lemma better_candidate_spec name seen best c :
  best_of name seen best → best_of name (seen ++ [c]) (better_candidate name best c).
Proof.
  intros Hb. unfold better_candidate. destruct (bool_decide (2 < edit_distance name c)) eqn:Hd.
  - apply bool_decide_eq_true in Hd. destruct best as [ [b d]|]; cbn [best_of] in *.
    + destruct Hb as (Hin & -> & Hle & Hall). split_and!; [set_solver|done|done|].
      intros x [Hx| ->%list_elem_of_singleton]%elem_of_app; [by apply Hall|]. unfold beats. lia.
    + intros x [Hx| ->%list_elem_of_singleton]%elem_of_app; auto.
  - apply bool_decide_eq_false in Hd.
    destruct best as [ [b d]|]; cbn [best_of] in *.
    + destruct Hb as (Hin & -> & Hle & Hall).
      destruct (bool_decide _ || _) eqn:E; cbn [best_of].
      * assert (Hw : beats name c b).
        { apply orb_true_iff in E as [E%bool_decide_eq_true|[E%bool_decide_eq_true ?]%andb_true_iff]; [by left | by right]. }
        split_and!; [set_solver|done|lia|].
        intros x [Hx| ->%list_elem_of_singleton]%elem_of_app; [|by apply beats_irrefl].
        intros Hxc. apply (Hall x Hx). by eapply beats_trans.
      * split_and!; [set_solver|done|done|].
        intros x [Hx| ->%list_elem_of_singleton]%elem_of_app; [by apply Hall|].
        apply orb_false_iff in E as [E1%bool_decide_eq_false E2]. intros [?|[Heq ?]]; [done|].
        rewrite bool_decide_true in E2 by done. simpl in E2. congruence.
    + split_and!; [set_solver|done|lia|].
      intros x [Hx| ->%list_elem_of_singleton]%elem_of_app; [|by apply beats_irrefl].
      intros [?|[? _]]; specialize (Hb x Hx); lia.
Qed.
Lemma best_of_fold name seen best l :
  best_of name seen best → best_of name (seen ++ l) (fold_left (better_candidate name) l best).
Proof.
  revert seen best. induction l as [|c l IH]; intros seen best Hb; [by rewrite app_nil_r|].
  simpl. rewrite cons_middle, app_assoc. by apply IH, better_candidate_spec.
Qed.
(** A suggestion is the candidate with the least number of edits, the least
    name among those; there is none exactly when every candidate is more than
    two edits away. *)
Lemma suggest_name_best name candidates :
  match suggest_name name candidates with
  | Some b => b ∈ candidates ∧ edit_distance name b ≤ 2 ∧ ∀ c, c ∈ candidates → ¬ beats name c b
  | None => ∀ c, c ∈ candidates → 2 < edit_distance name c
  end.
Proof.
  pose proof (best_of_fold name [] None candidates) as H. unfold suggest_name. cbn [app] in H.
  specialize (H ltac:(by intros ? ?%elem_of_nil)). destruct (fold_left _ _ _) as [ [b d]|]; cbn [fmap option_fmap option_map fst] in *;
    [|done]. destruct H as (? & -> & ? & ?). done.
Qed.
Example suggest_status : suggest_name "staus" ["state"; "status"; "stats"] = Some "stats".
Proof. vm_compute. reflexivity. Qed.

(** ** Flow facts *)
Lemma lookup_add_fact fact p f :
  bucket_of p (add_fact fact f) =
    if bool_decide (place fact = p) then add_to_bucket (bucket_of p f) fact else bucket_of p f.
Proof.
  unfold bucket_of, add_fact. case_bool_decide; subst; [by rewrite lookup_insert_eq|by rewrite lookup_insert_ne].
Qed.
Lemma elem_of_add fact f x p : x ∈ bucket_of p (add_fact fact f) → x ∈ bucket_of p f ∨ (x = fact ∧ place fact = p).
Proof.
  rewrite lookup_add_fact. case_bool_decide; [|by left]. unfold add_to_bucket. destruct (existsb _ _); [by left|].
  intros [?| ->%list_elem_of_singleton]%elem_of_app; auto.
Qed.
Lemma elem_of_add_option fact f x p :
  x ∈ bucket_of p (add_option fact f) → x ∈ bucket_of p f ∨ (fact = Some x ∧ place x = p).
Proof. destruct fact; [|by left]. cbn [add_option]. intros [?|[-> ?]]%elem_of_add; auto. Qed.
Lemma elem_of_bucket p f x : x ∈ bucket_of p f → x ∈ all_facts f.
Proof.
  unfold bucket_of, all_facts. destruct (f !! p) as [l|] eqn:E; [|set_solver]. intros Hx.
  apply list_elem_of_join. exists l. split; [done|]. apply list_elem_of_fmap. exists (p, l).
  split; [done|]. by apply elem_of_map_to_list.
Qed.
Lemma all_facts_bucket f x : x ∈ all_facts f → ∃ p, x ∈ bucket_of p f.
Proof.
  intros (l & Hx & (q & -> & Hq)%list_elem_of_fmap)%list_elem_of_join. destruct q as [p l].
  apply elem_of_map_to_list in Hq. exists p. unfold bucket_of. by rewrite Hq.
Qed.
Lemma elem_of_merge other f x p : x ∈ bucket_of p (merge_from other f) → x ∈ bucket_of p f ∨ (x ∈ all_facts other ∧ place x = p).
Proof.
  unfold merge_from. generalize (all_facts other). intros l. revert f. induction l as [|y l IH]; intros f; [by left|].
  simpl. intros [Hx|[Hx ?]]%IH; [|right; set_solver]. apply elem_of_add in Hx as [?|[-> ?]]; [by left|].
  right. set_solver.
Qed.
Lemma elem_of_invalidate q f x p :
  x ∈ bucket_of p (invalidate q f) → x ∈ bucket_of p f ∧ is_same_or_descendant p q = false.
Proof.
  unfold bucket_of, invalidate. destruct (filter _ f !! p) as [l|] eqn:E; [|set_solver].
  apply map_lookup_filter_Some in E as [-> ?]. done.
Qed.
