(* ===== verification/Hir.v ===== *)
(** * The typed tree and its lowering to expressions of the IR
      (src/compiler/semantics/typed_hir.cpp, src/compiler/ir/typed_hir_lower.cpp)

    The type checker records each expression in one flat list; a node refers
    to its children by 32-bit index into the list, and an index maps the
    identity of a syntax node to its entry.  The lowering follows the indices.
    The lowering of declarations and statements is not modelled here. *)
From S2P Require Import Prelude Ir Evaluator Syntax Facts Types.
Open Scope nat_scope.

(** ** Symbols (include/ahfl/compiler/semantics/resolver.hpp) *)
Module SymbolKind.
Inductive t := Struct | Enum | TypeAlias | Const | Capability | Predicate | Agent | Workflow.
End SymbolKind.
#[export] Instance SymbolKind_eq_dec : EqDecision SymbolKind.t.
Proof. solve_decision. Defined.
Record Symbol := mkSymbol {
  symbol_id : SymbolId;
  symbol_kind : SymbolKind.t;
  symbol_local_name : string;
  symbol_canonical_name : string;
  symbol_module_name : string;
  symbol_source_id : option SourceId }.

(** ** The typed tree *)
Module AssignTargetRootKind.
Inductive t := Identifier | Input | Context | Output | State | Local.
End AssignTargetRootKind.
Module TypedExprChildRole.
Inductive t :=
  | Operand | LeftOperand | RightOperand | Argument | StructFieldValue | CollectionElement
  | MapKey | MapValue | Base | Index | Grouped.
End TypedExprChildRole.
#[export] Instance TypedExprChildRole_eq_dec : EqDecision TypedExprChildRole.t.
Proof. solve_decision. Defined.
Module TypedCallTargetKind.
Inductive t := None_ | Capability | Predicate.
End TypedCallTargetKind.

Definition UINT32_MAX : Z := 4294967295.
Definition to_uint32 (z : Z) : Z := z mod 4294967296.
Record TypedExprChild := mkTypedExprChild {
  role : TypedExprChildRole.t;
  child_name : string;
  expr_index : Z }.
(** [const_value] is written by the evaluator of constants, which is not
    modelled. *)
Record TypedExpr := mkTypedExpr {
  te_kind : Ast.ExprSyntaxKind.t;
  te_range : SourceRange;
  te_source_id : option SourceId;
  te_node_id : Z;
  te_type : TypePtr;
  te_effect : ExprEffect.t;
  te_is_pure : bool;
  te_resolved_symbol : option SymbolId;
  te_semantic_name : string;
  te_call_target_kind : TypedCallTargetKind.t;
  te_path_root : string;
  te_path_root_kind : AssignTargetRootKind.t;
  te_member_path : list string;
  te_children : list TypedExprChild;
  te_bool_value : bool;
  te_unary_op : Ast.ExprUnaryOp.t;
  te_binary_op : Ast.ExprBinaryOp.t;
  te_literal_spelling : string;
  te_member_name : string }.

(** The key of the index: node and, when there is one, source. *)
Abbreviation ExprIndexKey := (Z * option SourceId)%type.
Record TypedProgram := mkTypedProgram {
  tp_symbols : list Symbol;
  tp_expressions : list TypedExpr;
  tp_expr_index : gmap ExprIndexKey Z }.

(** The index of symbols maps an id to the last symbol with it. *)
Definition tp_find_symbol (p : TypedProgram) (id : SymbolId) : option Symbol :=
  head (filter (λ s, symbol_id s = id) (reverse (tp_symbols p))).
Definition resolve_child (p : TypedProgram) (child : TypedExprChild) : option TypedExpr :=
  if bool_decide (expr_index child = UINT32_MAX) then None
  else tp_expressions p !! Z.to_nat (expr_index child).
(** The position of the first element that satisfies a test. *)
Fixpoint first_index {A} (f : A → bool) (l : list A) : option nat :=
  match l with
  | [] => None
  | x :: l => if f x then Some 0 else S <$> first_index f l
  end.
(** [find_expr] and [find_expr_by_range], as positions in the list. *)
Definition find_expr (p : TypedProgram) (node_id : Z) (source_id : option SourceId) : option nat :=
  let scan := first_index (λ e, bool_decide (te_node_id e = node_id ∧ te_source_id e = source_id))
                (tp_expressions p) in
  if bool_decide (node_id = 0%Z) then scan
  else match tp_expr_index p !! (node_id, source_id) with
       | Some i => if bool_decide (i < Z.of_nat (length (tp_expressions p)))%Z
                   then Some (Z.to_nat i) else scan
       | None => scan
       end.
Definition find_expr_by_range (p : TypedProgram) (range : SourceRange) (source_id : option SourceId)
    : option nat :=
  first_index (λ e, bool_decide (te_range e = range ∧ te_source_id e = source_id))
    (tp_expressions p).

(** ** Types as references of the IR *)
Definition describe_child (describe : TypePtr → string) (t : option TypePtr) : string :=
  match t with Some t => describe t | None => "Any" end.
Definition describe_payload (describe : TypePtr → string) (p : Payload) : string :=
  match p with
  | AnyT => "Any" | NeverT => "Never" | ErrorT => "<error>" | UnitT => "Unit" | BoolT => "Bool"
  | IntT => "Int" | FloatT => "Float" | StringT => "String" | UUIDT => "UUID"
  | TimestampT => "Timestamp" | DurationT => "Duration"
  | BoundedStringT minimum maximum =>
      "String(" +:+ pretty minimum +:+ ", " +:+ pretty maximum +:+ ")"
  | DecimalT scale => "Decimal(" +:+ pretty scale +:+ ")"
  | StructT name _ | EnumT name _ => name
  | EnumVariantT name _ variant => name +:+ "::" +:+ variant
  | OptionalT t => "Optional<" +:+ describe_child describe t +:+ ">"
  | ListT t => "List<" +:+ describe_child describe t +:+ ">"
  | SetT t => "Set<" +:+ describe_child describe t +:+ ">"
  | MapT k v => "Map<" +:+ describe_child describe k +:+ ", " +:+ describe_child describe v +:+ ">"
  end.
(** Parts are interned before the whole: a pointer bounds the depth. *)
Fixpoint describe (fuel : nat) (types : list Payload) (t : TypePtr) : string :=
  match fuel with
  | O => ""
  | S fuel => match types !! t with Some p => describe_payload (describe fuel types) p | None => "" end
  end.

(** [None]: the error type, for which the lowering throws. *)
Definition make_type_ref_value (kind : TypeRefKind.t) (display : string) : TypeRef :=
  mkTypeRef kind display "" "" None None None None None.
Definition part_ref (type_ref : TypePtr → option TypeRef) (t : option TypePtr)
    : option (option TypeRef) :=
  match t with Some t => Some <$> type_ref t | None => Some None end.
Definition type_ref_from_payload (type_ref : TypePtr → option TypeRef) (display : string) (p : Payload)
    : option TypeRef :=
  let simple kind := Some (make_type_ref_value kind display) in
  let part kind t := first ← part_ref type_ref t;
    Some (mkTypeRef kind display "" "" None None None first None) in
  match p with
  | AnyT => simple TypeRefKind.Any
  | NeverT => simple TypeRefKind.Never
  | ErrorT => None
  | UnitT => simple TypeRefKind.Unit
  | BoolT => simple TypeRefKind.Bool
  | IntT => simple TypeRefKind.Int
  | FloatT => simple TypeRefKind.Float
  | StringT => simple TypeRefKind.String
  | BoundedStringT minimum maximum =>
      Some (mkTypeRef TypeRefKind.BoundedString display "" "" (Some (minimum, maximum)) None None None None)
  | UUIDT => simple TypeRefKind.UUID
  | TimestampT => simple TypeRefKind.Timestamp
  | DurationT => simple TypeRefKind.Duration
  | DecimalT scale =>
      Some (mkTypeRef TypeRefKind.Decimal display "" "" None (Some scale) None None None)
  | StructT name _ => Some (mkTypeRef TypeRefKind.Struct display name "" None None None None None)
  | EnumT name _ => Some (mkTypeRef TypeRefKind.Enum display name "" None None None None None)
  | EnumVariantT name _ variant =>
      Some (mkTypeRef TypeRefKind.Enum display name variant None None None None None)
  | OptionalT t => part TypeRefKind.Optional t
  | ListT t => part TypeRefKind.List t
  | SetT t => part TypeRefKind.Set_ t
  | MapT k v =>
      first ← part_ref type_ref k;
      second ← part_ref type_ref v;
      Some (mkTypeRef TypeRefKind.Map display "" "" None None None first second)
  end.
Fixpoint type_ref_at (fuel : nat) (types : list Payload) (t : TypePtr) : option TypeRef :=
  match fuel with
  | O => None
  | S fuel =>
      p ← types !! t;
      type_ref_from_payload (type_ref_at fuel types) (describe (S fuel) types t) p
  end.
Definition type_ref_from_type (types : list Payload) (t : TypePtr) : option TypeRef :=
  type_ref_at (S t) types t.

(** ** Lowering of expressions *)
Definition lower_expr_unary_op (op : Ast.ExprUnaryOp.t) : ExprUnaryOp.t :=
  match op with
  | Ast.ExprUnaryOp.Not => ExprUnaryOp.Not
  | Ast.ExprUnaryOp.Negate => ExprUnaryOp.Negate
  | Ast.ExprUnaryOp.Positive => ExprUnaryOp.Positive
  end.
Definition lower_expr_binary_op (op : Ast.ExprBinaryOp.t) : ExprBinaryOp.t :=
  match op with
  | Ast.ExprBinaryOp.Implies => ExprBinaryOp.Implies
  | Ast.ExprBinaryOp.Or => ExprBinaryOp.Or
  | Ast.ExprBinaryOp.And => ExprBinaryOp.And
  | Ast.ExprBinaryOp.Equal => ExprBinaryOp.Equal
  | Ast.ExprBinaryOp.NotEqual => ExprBinaryOp.NotEqual
  | Ast.ExprBinaryOp.Less => ExprBinaryOp.Less
  | Ast.ExprBinaryOp.LessEqual => ExprBinaryOp.LessEqual
  | Ast.ExprBinaryOp.Greater => ExprBinaryOp.Greater
  | Ast.ExprBinaryOp.GreaterEqual => ExprBinaryOp.GreaterEqual
  | Ast.ExprBinaryOp.Add => ExprBinaryOp.Add
  | Ast.ExprBinaryOp.Subtract => ExprBinaryOp.Subtract
  | Ast.ExprBinaryOp.Multiply => ExprBinaryOp.Multiply
  | Ast.ExprBinaryOp.Divide => ExprBinaryOp.Divide
  | Ast.ExprBinaryOp.Modulo => ExprBinaryOp.Modulo
  end.
Definition assign_root_to_ir (kind : AssignTargetRootKind.t) : PathRootKind.t :=
  match kind with
  | AssignTargetRootKind.Identifier => PathRootKind.Identifier
  | AssignTargetRootKind.Input => PathRootKind.Input
  | AssignTargetRootKind.Context => PathRootKind.Context
  | AssignTargetRootKind.Output => PathRootKind.Output
  | AssignTargetRootKind.State => PathRootKind.State
  | AssignTargetRootKind.Local => PathRootKind.Local
  end.

(** Expression ids are numbers of a counter; the result [None] stands for the
    exception [std::logic_error]. *)
Definition lowering (A : Type) : Type := eff Z (option A).
Definition l_ret {A} (a : A) : lowering A := λ n, Ret (Some a, n).
Definition l_bind {A B} (m : lowering A) (f : A → lowering B) : lowering B := λ n,
  match m n with
  | Ret (Some a, n') => f a n'
  | Ret (None, n') => Ret (None, n')
  | UB => UB
  | NoFuel => NoFuel
  end.
Notation "x '⇠' m ';' k" := (l_bind m (λ x, k))
  (at level 100, m at level 99, k at level 200, right associativity) : ahfl_scope.
Definition throw {A} : lowering A := λ n, Ret (None, n).
Definition next_expr_id : lowering Z := λ n, Ret (Some n, (n + 1)%Z).

Section Lower.
Context (types : list Payload) (program : TypedProgram).

Definition render_target (e : TypedExpr) : string :=
  match te_resolved_symbol e ≫= tp_find_symbol program with
  | Some symbol => symbol_canonical_name symbol
  | None => te_semantic_name e
  end.
Definition render_qualified_value (e : TypedExpr) : string :=
  match te_resolved_symbol e ≫= tp_find_symbol program with
  | Some symbol =>
      let canonical := symbol_canonical_name symbol in
      if bool_decide (symbol_kind symbol = SymbolKind.Const) then canonical
      else match rfind_colons (te_semantic_name e) with
           | Some (_, variant) =>
               if bool_decide (variant ≠ "") && bool_decide (variant ≠ canonical)
               then canonical +:+ "::" +:+ variant else canonical
           | None => canonical
           end
  | None => te_semantic_name e
  end.
Definition lower_path_from_typed (e : TypedExpr) : Path :=
  mkPath (assign_root_to_ir (te_path_root_kind e)) (te_path_root e) (te_member_path e).
(** The first child of a role that can be resolved. *)
Fixpoint child_by_role (children : list TypedExprChild) (r : TypedExprChildRole.t) : option TypedExpr :=
  match children with
  | [] => None
  | child :: children =>
      if bool_decide (role child = r) then
        match resolve_child program child with
        | Some target => Some target
        | None => child_by_role children r
        end
      else child_by_role children r
  end.

Section Children.
Context (lower : TypedExpr → lowering ExprRef).
Definition lower_role (e : TypedExpr) (r : TypedExprChildRole.t) : lowering ExprRef :=
  match child_by_role (te_children e) r with Some c => lower c | None => l_ret None end.
(** The loop over the children of a role that can be resolved. *)
Fixpoint lower_children (children : list TypedExprChild) (r : TypedExprChildRole.t)
    : lowering (list (string * ExprRef)) :=
  match children with
  | [] => l_ret []
  | child :: children =>
      match (if bool_decide (role child = r) then resolve_child program child else None) with
      | Some target =>
          x ⇠ lower target; rest ⇠ lower_children children r; l_ret ((child_name child, x) :: rest)
      | None => lower_children children r
      end
  end.
Definition lower_list (e : TypedExpr) (r : TypedExprChildRole.t) : lowering (list ExprRef) :=
  items ⇠ lower_children (te_children e) r; l_ret items.*2.
(** Entries are taken in pairs; a child that starts no pair is skipped. *)
Fixpoint lower_entries (children : list TypedExprChild) : lowering (list (ExprRef * ExprRef)) :=
  match children with
  | k :: (v :: rest) as tl =>
      match (if bool_decide (role k = TypedExprChildRole.MapKey) then resolve_child program k else None),
            (if bool_decide (role v = TypedExprChildRole.MapValue) then resolve_child program v else None) with
      | Some key, Some value =>
          x ⇠ lower key; y ⇠ lower value; more ⇠ lower_entries rest; l_ret ((x, y) :: more)
      | _, _ => lower_entries tl
      end
  | _ => l_ret []
  end.

Definition make_expr (e : TypedExpr) (n : ExprNode) : lowering ExprRef :=
  id ⇠ next_expr_id; l_ret (Some (mkExpr n (Some (te_range e)) default_type_ref id)).
Definition lower_node (e : TypedExpr) : lowering ExprRef :=
  match te_kind e with
  | Ast.ExprSyntaxKind.BoolLiteral => make_expr e (BoolLiteralExpr (te_bool_value e))
  | Ast.ExprSyntaxKind.IntegerLiteral =>
      make_expr e (IntegerLiteralExpr
        (if bool_decide (te_literal_spelling e = "") then "0" else te_literal_spelling e))
  | Ast.ExprSyntaxKind.FloatLiteral => make_expr e (FloatLiteralExpr (te_literal_spelling e))
  | Ast.ExprSyntaxKind.DecimalLiteral => make_expr e (DecimalLiteralExpr (te_literal_spelling e))
  | Ast.ExprSyntaxKind.StringLiteral => make_expr e (StringLiteralExpr (te_literal_spelling e))
  | Ast.ExprSyntaxKind.DurationLiteral =>
      make_expr e (DurationLiteralExpr
        (if bool_decide (te_literal_spelling e = "") then te_semantic_name e else te_literal_spelling e))
  | Ast.ExprSyntaxKind.NoneLiteral => make_expr e NoneLiteralExpr
  | Ast.ExprSyntaxKind.Some_ =>
      x ⇠ lower_role e TypedExprChildRole.Operand; make_expr e (SomeExpr x)
  | Ast.ExprSyntaxKind.Path => make_expr e (PathExpr (lower_path_from_typed e))
  | Ast.ExprSyntaxKind.QualifiedValue => make_expr e (QualifiedValueExpr (render_qualified_value e))
  | Ast.ExprSyntaxKind.Call =>
      args ⇠ lower_list e TypedExprChildRole.Argument; make_expr e (CallExpr (render_target e) args)
  | Ast.ExprSyntaxKind.StructLiteral =>
      fields ⇠ lower_children (te_children e) TypedExprChildRole.StructFieldValue;
      make_expr e (StructLiteralExpr (render_target e) fields)
  | Ast.ExprSyntaxKind.ListLiteral =>
      items ⇠ lower_list e TypedExprChildRole.CollectionElement; make_expr e (ListLiteralExpr items)
  | Ast.ExprSyntaxKind.SetLiteral =>
      items ⇠ lower_list e TypedExprChildRole.CollectionElement; make_expr e (SetLiteralExpr items)
  | Ast.ExprSyntaxKind.MapLiteral =>
      entries ⇠ lower_entries (te_children e); make_expr e (MapLiteralExpr entries)
  | Ast.ExprSyntaxKind.Unary =>
      x ⇠ lower_role e TypedExprChildRole.Operand;
      make_expr e (UnaryExpr (lower_expr_unary_op (te_unary_op e)) x)
  | Ast.ExprSyntaxKind.Binary =>
      x ⇠ lower_role e TypedExprChildRole.LeftOperand;
      y ⇠ lower_role e TypedExprChildRole.RightOperand;
      make_expr e (BinaryExpr (lower_expr_binary_op (te_binary_op e)) x y)
  | Ast.ExprSyntaxKind.MemberAccess =>
      x ⇠ lower_role e TypedExprChildRole.Base; make_expr e (MemberAccessExpr x (te_member_name e))
  | Ast.ExprSyntaxKind.IndexAccess =>
      x ⇠ lower_role e TypedExprChildRole.Base;
      y ⇠ lower_role e TypedExprChildRole.Index;
      make_expr e (IndexAccessExpr x y)
  | Ast.ExprSyntaxKind.Group =>
      match child_by_role (te_children e) TypedExprChildRole.Grouped with
      | Some inner => lower inner
      | None => make_expr e NoneLiteralExpr
      end
  end.
Definition with_resolved_type (e : TypedExpr) (x : ExprRef) : lowering ExprRef :=
  match x with
  | Some (mkExpr n r _ id) =>
      match type_ref_from_type types (te_type e) with
      | Some t => l_ret (Some (mkExpr n r t id))
      | None => throw
      end
  | None => l_ret None
  end.
End Children.

(** The recursion ends because children are recorded before their parent. *)
Fixpoint lower_typed_expr (fuel : nat) (e : TypedExpr) : lowering ExprRef :=
  match fuel with
  | O => λ _, NoFuel
  | S fuel => x ⇠ lower_node (lower_typed_expr fuel) e; with_resolved_type e x
  end.
End Lower.
