(* ===== verification/TypeEnv.v ===== *)
(** * What the type checker looks up, and the resolution of types
      (src/compiler/semantics/{resolver,type_environment,type_resolver}.cpp)

    The tables the resolver leaves (symbols and references by source range),
    the declared types, the state the checker threads, and the resolver of type
    syntax with its cache of aliases.  The resolver of names that fills the
    tables is not modelled.

    A diagnostic is its code, severity, range and suggested name; message texts
    and related notes are not modelled.  Where C++ leaves the order of two
    evaluations open (the arguments of a map type) they run left to right. *)
From S2P Require Import Prelude Numeric Ir Evaluator Syntax Facts Types Hir.
Open Scope nat_scope.

(** ** References *)
Module ReferenceKind.
Inductive t :=
  | TypeName | ConstValue | QualifiedValueOwnerType | CallTarget | TemporalCapability
  | AgentCapability | ContractTarget | FlowTarget | WorkflowNodeTarget.
End ReferenceKind.
#[export] Instance ReferenceKind_eq_dec : EqDecision ReferenceKind.t.
Proof. solve_decision. Defined.
Record ResolvedReference := mkReference {
  ref_kind : ReferenceKind.t;
  ref_source_id : option SourceId;
  ref_range : SourceRange;
  target : SymbolId }.
Record ResolveResult := mkResolveResult {
  symbols : list Symbol;
  references : list ResolvedReference }.

Definition get_symbol (r : ResolveResult) (id : SymbolId) : option Symbol := symbols r !! id.
(** The caches keep the first reference of a key. *)
Definition find_reference (r : ResolveResult) (kind : ReferenceKind.t) (range : SourceRange)
    (source_id : option SourceId) : option ResolvedReference :=
  head (filter (λ x, ref_kind x = kind ∧ ref_range x = range ∧
                     (source_id = None ∨ ref_source_id x = source_id))
          (references r)).

(** ** Declared types *)
Record StructFieldInfo := mkStructFieldInfo {
  sf_name : string;
  sf_type : option TypePtr;
  sf_has_default : bool }.
Record StructTypeInfo := mkStructTypeInfo {
  st_canonical_name : string;
  st_fields : list StructFieldInfo;
  field_index_ : gmap string nat }.
Definition find_struct_field (info : StructTypeInfo) (name : string) : option StructFieldInfo :=
  if bool_decide (field_index_ info = ∅) then
    head (filter (λ f, sf_name f = name) (st_fields info))
  else i ← field_index_ info !! name; st_fields info !! i.
Fixpoint index_fields (fields : list StructFieldInfo) (i : nat) (index : gmap string nat)
    : gmap string nat :=
  match fields with
  | [] => index
  | f :: fields =>
      index_fields fields (S i)
        (match index !! sf_name f with Some _ => index | None => <[sf_name f := i]> index end)
  end.
Definition rebuild_field_index (info : StructTypeInfo) : StructTypeInfo :=
  mkStructTypeInfo (st_canonical_name info) (st_fields info) (index_fields (st_fields info) 0 ∅).

Record EnumTypeInfo := mkEnumTypeInfo {
  en_canonical_name : string;
  variants : list string;
  variant_set_ : gset string }.
Definition has_variant (info : EnumTypeInfo) (name : string) : bool :=
  if bool_decide (variant_set_ info = ∅) then bool_decide (name ∈ variants info)
  else bool_decide (name ∈ variant_set_ info).
Definition rebuild_variant_index (info : EnumTypeInfo) : EnumTypeInfo :=
  mkEnumTypeInfo (en_canonical_name info) (variants info) (list_to_set (variants info)).

Record ParamTypeInfo := mkParamTypeInfo { pt_name : string; pt_type : option TypePtr }.
Record CapabilityTypeInfo := mkCapabilityTypeInfo {
  ct_params : list ParamTypeInfo;
  ct_return_type : option TypePtr }.
Record PredicateTypeInfo := mkPredicateTypeInfo { pred_params : list ParamTypeInfo }.
Record AgentTypeInfo := mkAgentTypeInfo { capability_symbols : list SymbolId }.

(** The part of the environment that expressions and statements look at. *)
Record TypeEnvironment := mkTypeEnvironment {
  const_types_ : gmap SymbolId (option TypePtr);
  structs_ : gmap SymbolId StructTypeInfo;
  enums_ : gmap SymbolId EnumTypeInfo;
  capabilities_ : gmap SymbolId CapabilityTypeInfo;
  predicates_ : gmap SymbolId PredicateTypeInfo;
  agents_ : gmap SymbolId AgentTypeInfo;
  struct_name_index_ : gmap string SymbolId;
  enum_name_index_ : gmap string SymbolId }.

Definition get_const_type (env : TypeEnvironment) (id : SymbolId) : option TypePtr :=
  t ← const_types_ env !! id; t.
Definition find_struct (env : TypeEnvironment) (name : string) : option StructTypeInfo :=
  id ← struct_name_index_ env !! name; structs_ env !! id.
Definition find_enum (env : TypeEnvironment) (name : string) : option EnumTypeInfo :=
  id ← enum_name_index_ env !! name; enums_ env !! id.
Definition get_struct (env : TypeEnvironment) (type : Payload) : option StructTypeInfo :=
  match type with
  | StructT name symbol =>
      match symbol ≫= (λ id, structs_ env !! id) with
      | Some info => Some info
      | None => find_struct env name
      end
  | _ => None
  end.
Definition get_enum (env : TypeEnvironment) (type : Payload) : option EnumTypeInfo :=
  match type with
  | EnumT name symbol =>
      match symbol ≫= (λ id, enums_ env !! id) with
      | Some info => Some info
      | None => find_enum env name
      end
  | _ => None
  end.
Definition index_struct (id : SymbolId) (info : StructTypeInfo) (env : TypeEnvironment)
    : TypeEnvironment :=
  mkTypeEnvironment (const_types_ env) (<[id := rebuild_field_index info]> (structs_ env)) (enums_ env)
    (capabilities_ env) (predicates_ env) (agents_ env)
    (<[st_canonical_name info := id]> (struct_name_index_ env)) (enum_name_index_ env).
Definition index_enum (id : SymbolId) (info : EnumTypeInfo) (env : TypeEnvironment) : TypeEnvironment :=
  mkTypeEnvironment (const_types_ env) (structs_ env) (<[id := rebuild_variant_index info]> (enums_ env))
    (capabilities_ env) (predicates_ env) (agents_ env)
    (struct_name_index_ env) (<[en_canonical_name info := id]> (enum_name_index_ env)).

(** ** Diagnostics and the state of the pass *)
Module TypecheckCode.
Inductive t :=
  | UnknownType | InvalidTypeReference | UnknownValue | UnknownField | UnknownCallable
  | UnknownEnumVariant | UnknownQualifiedValue | InvalidQualifiedValue | InvalidStructLiteralTarget
  | InvalidCallableReference | InvalidMemberAccess | InvalidIndexAccess | InvalidOperation
  | MissingTypeMetadata | MissingConstMetadata | MissingCallableMetadata | MissingField
  | DuplicateField | NoneWithoutContext | EmptyLiteralWithoutContext | CapabilityNotAllowed
  | WrongArity | NonPureExpression | TypeMismatch | ExactSchemaMismatch | ShadowedBinding.
End TypecheckCode.
#[export] Instance TypecheckCode_eq_dec : EqDecision TypecheckCode.t.
Proof. solve_decision. Defined.
Record TypeDiagnostic := mkTypeDiagnostic {
  td_error : bool;
  td_code : TypecheckCode.t;
  td_range : SourceRange;
  td_suggestion : option string }.

Record CheckState := mkCheckState {
  cs_types : TypeContext;
  resolved_alias_types : gmap SymbolId TypePtr;
  active_aliases : gset SymbolId;
  cs_diagnostics : list TypeDiagnostic;
  cs_program : TypedProgram }.
Abbreviation checking := (eff CheckState).

Definition diagnose (d : TypeDiagnostic) : checking unit := λ s,
  Ret (tt, mkCheckState (cs_types s) (resolved_alias_types s) (active_aliases s)
             (cs_diagnostics s ++ [d]) (cs_program s)).
Definition typecheck_error (code : TypecheckCode.t) (range : SourceRange) : checking unit :=
  diagnose (mkTypeDiagnostic true code range None).
Definition typecheck_error_suggest (code : TypecheckCode.t) (range : SourceRange)
    (suggestion : option string) : checking unit :=
  diagnose (mkTypeDiagnostic true code range suggestion).
(** [if (condition) { error }]. *)
Definition error_when (condition : bool) (code : TypecheckCode.t) (range : SourceRange) : checking unit :=
  if condition then typecheck_error code range else mret tt.
Definition no_errors (s : CheckState) : bool := forallb (λ d, negb (td_error d)) (cs_diagnostics s).

(** A intern_type of the type context. *)
Definition intern_type (f : TypeContext → TypePtr * TypeContext) : checking TypePtr := λ s,
  let (p, c) := f (cs_types s) in
  Ret (p, mkCheckState c (resolved_alias_types s) (active_aliases s) (cs_diagnostics s) (cs_program s)).
Definition make_error_type : checking TypePtr := intern_type error_type.
(** Reading through a pointer. *)
Definition payload_of (p : TypePtr) : checking Payload := λ s,
  match storage (cs_types s) !! p with Some t => Ret (t, s) | None => UB end.
Definition non_null {A} (p : option A) : checking A :=
  ⌊ match p with Some p => Ret p | None => UB end ⌋.

(** ** The type resolver *)
Section Resolver.
Context (resolve_result : ResolveResult) (alias_decls : gmap SymbolId Ast.TypeSyntax).

Definition update_aliases (f : gmap SymbolId TypePtr → gmap SymbolId TypePtr)
    (g : gset SymbolId → gset SymbolId) : checking unit := λ s,
  Ret (tt, mkCheckState (cs_types s) (f (resolved_alias_types s)) (g (active_aliases s))
             (cs_diagnostics s) (cs_program s)).
Definition alias_type (id : SymbolId) : checking (option TypePtr) := λ s,
  Ret (resolved_alias_types s !! id, s).
Definition alias_active (id : SymbolId) : checking bool := λ s,
  Ret (bool_decide (id ∈ active_aliases s), s).

(** [resolve_body source type] is [resolve_type] in another source. *)
Definition resolve_type_alias (resolve_body : option SourceId → Ast.TypeSyntax → checking TypePtr)
    (id : SymbolId) (use_range : SourceRange) : checking TypePtr :=
  cached ← alias_type id;
  match cached with
  | Some t => mret t
  | None =>
      active ← alias_active id;
      if (active : bool) then
        _ ← typecheck_error TypecheckCode.InvalidTypeReference use_range; make_error_type
      else
        _ ← update_aliases (λ m, m) (λ a, {[id]} ∪ a);
        match alias_decls !! id with
        | None =>
            _ ← update_aliases (λ m, m) (λ a, a ∖ {[id]});
            _ ← typecheck_error TypecheckCode.InvalidTypeReference use_range; make_error_type
        | Some body =>
            resolved ← resolve_body (get_symbol resolve_result id ≫= symbol_source_id) body;
            _ ← update_aliases
                  (λ m, match m !! id with Some _ => m | None => <[id := resolved]> m end)
                  (λ a, a ∖ {[id]});
            mret resolved
        end
  end.
Definition resolve_type_symbol_with (resolve_body : option SourceId → Ast.TypeSyntax → checking TypePtr)
    (id : SymbolId) (use_range : SourceRange) : checking TypePtr :=
  match get_symbol resolve_result id with
  | None => _ ← typecheck_error TypecheckCode.InvalidTypeReference use_range; make_error_type
  | Some symbol =>
      match symbol_kind symbol with
      | SymbolKind.Struct => intern_type (struct_type (symbol_canonical_name symbol) (Some id))
      | SymbolKind.Enum => intern_type (enum_type (symbol_canonical_name symbol) (Some id))
      | SymbolKind.TypeAlias => resolve_type_alias resolve_body id use_range
      | _ => _ ← typecheck_error TypecheckCode.InvalidTypeReference use_range; make_error_type
      end
  end.
Definition resolve_named_type (resolve_body : option SourceId → Ast.TypeSyntax → checking TypePtr)
    (source_id : option SourceId) (name : Ast.QualifiedName) : checking TypePtr :=
  match find_reference resolve_result ReferenceKind.TypeName (Ast.qn_range name) source_id with
  | None => _ ← typecheck_error TypecheckCode.UnknownType (Ast.qn_range name); make_error_type
  | Some reference => resolve_type_symbol_with resolve_body (target reference) (Ast.qn_range name)
  end.
Section Body.
Context (resolve_body : option SourceId → Ast.TypeSyntax → checking TypePtr) (source_id : option SourceId).
Fixpoint resolve_type_in (type : Ast.TypeSyntax) : checking TypePtr :=
  match type with
  | Ast.mkTypeSyntax _ n =>
      match n with
      | Ast.UnitType => intern_type (make TypeKind.Unit)
      | Ast.BoolType => intern_type (make TypeKind.Bool)
      | Ast.IntType => intern_type (make TypeKind.Int)
      | Ast.FloatType => intern_type (make TypeKind.Float)
      | Ast.StringType => intern_type string_type
      | Ast.BoundedStringType lo hi => intern_type (bounded_string (int64_of_size lo) (int64_of_size hi))
      | Ast.UuidType => intern_type (make TypeKind.UUID)
      | Ast.TimestampType => intern_type (make TypeKind.Timestamp)
      | Ast.DurationType => intern_type (make TypeKind.Duration)
      | Ast.DecimalType scale => intern_type (decimal scale)
      | Ast.NamedType name => resolve_named_type resolve_body source_id name
      | Ast.OptionalType t => p ← resolve_type_in t; intern_type (optional (Some p))
      | Ast.ListType t => p ← resolve_type_in t; intern_type (list_type (Some p))
      | Ast.SetType t => p ← resolve_type_in t; intern_type (set_type (Some p))
      | Ast.MapType k v =>
          p ← resolve_type_in k; q ← resolve_type_in v; intern_type (map_type (Some p) (Some q))
      end
  end.
End Body.
(** Each level of fuel is the body of one more alias. *)
Fixpoint resolve_type_fuel (fuel : nat) (source_id : option SourceId) (type : Ast.TypeSyntax)
    : checking TypePtr :=
  match fuel with
  | O => λ _, NoFuel
  | S fuel => resolve_type_in (resolve_type_fuel fuel) source_id type
  end.
Definition alias_fuel : nat := S (size alias_decls).
Definition resolve_type (source_id : option SourceId) (type : Ast.TypeSyntax) : checking TypePtr :=
  resolve_type_fuel (S alias_fuel) source_id type.
Definition resolve_type_symbol (id : SymbolId) (use_range : SourceRange) : checking TypePtr :=
  resolve_type_symbol_with (resolve_type_fuel alias_fuel) id use_range.
End Resolver.
