(* ===== verification/TypeCheck.v ===== *)
(** * The type checker of expressions and statements
      (src/compiler/semantics/{expression_sema,typecheck_expr,typecheck}.cpp)

    [check_expr] computes the type and effect of an expression in a context,
    reports errors, and records the expression in the typed tree;
    [check_block] threads a context through statements.  An expectation of the
    source carries the expected type and where it comes from; only the type
    matters for the result, the rest is the text of notes, so that the two
    overloads with an expected type and with an expectation are one function
    here.  The recording of statements and blocks in the typed tree is not
    modelled. *)
From S2P Require Import Prelude Numeric Ir Evaluator Syntax Facts Types TypeRelations Hir TypeEnv.
From Stdlib Require Import Ascii.
Open Scope nat_scope.

Module ExpressionCallContext.
Inductive t := PureOnly | Flow | Workflow.
End ExpressionCallContext.
#[export] Instance ExpressionCallContext_eq_dec : EqDecision ExpressionCallContext.t.
Proof. solve_decision. Defined.
Record ExpressionValue := mkExpressionValue {
  ev_type : TypePtr;
  ev_effect : ExprEffect.t;
  ev_is_pure : bool;
  ev_path_root_kind : option AssignTargetRootKind.t }.
Record ExpressionContext := mkExpressionContext {
  bindings : gmap string (option TypePtr);
  flow_facts : FlowFacts;
  call_context : ExpressionCallContext.t;
  current_agent : option SymbolId }.

(** ** Values *)
Definition typed_effect (type : TypePtr) (effect : ExprEffect.t) : ExpressionValue :=
  mkExpressionValue type effect (is_effect_pure effect) None.
Definition typed (type : TypePtr) : ExpressionValue := typed_effect type ExprEffect.Pure.
Definition error_typed_effect (effect : ExprEffect.t) : checking ExpressionValue :=
  t ← make_error_type; mret (typed_effect t effect).
Definition error_typed (is_pure : bool) : checking ExpressionValue :=
  error_typed_effect (if is_pure then ExprEffect.Pure else ExprEffect.Unknown).

(** [text.find('.')] and the digits after it. *)
Definition is_decimal_digit (c : ascii) : bool :=
  bool_decide (48 ≤ nat_of_ascii c) && bool_decide (nat_of_ascii c ≤ 57).
Fixpoint count_digits (s : string) : Z :=
  match s with
  | String c s => if is_decimal_digit c then (1 + count_digits s)%Z else 0%Z
  | EmptyString => 0%Z
  end.
Fixpoint parse_decimal_scale (text : string) : Z :=
  match text with
  | EmptyString => 0%Z
  | String c s => if bool_decide (c = "."%char) then count_digits s else parse_decimal_scale s
  end.

Definition is_bool_type (t : Payload) : bool := match t with BoolT => true | _ => false end.
Definition is_numeric_type (t : Payload) : bool :=
  match t with IntT | FloatT | DecimalT _ => true | _ => false end.

(** ** Recording of expressions in the typed tree *)
(** [place_of_expression] and [place_of_expr] are the function [extract_place]
    of the condition facts once more. *)
Definition place_of_expression (e : Ast.ExprSyntax) : option Place := extract_place e.
Definition path_spelling (p : Ast.PathSyntax) : string :=
  fold_left (λ text m, text +:+ "." +:+ m) (Ast.ps_members p) (Ast.ps_root_name p).
Definition binary_op_spelling (op : Ast.ExprBinaryOp.t) : string :=
  match op with
  | Ast.ExprBinaryOp.Implies => "=>" | Ast.ExprBinaryOp.Or => "||" | Ast.ExprBinaryOp.And => "&&"
  | Ast.ExprBinaryOp.Equal => "==" | Ast.ExprBinaryOp.NotEqual => "!=" | Ast.ExprBinaryOp.Less => "<"
  | Ast.ExprBinaryOp.LessEqual => "<=" | Ast.ExprBinaryOp.Greater => ">"
  | Ast.ExprBinaryOp.GreaterEqual => ">=" | Ast.ExprBinaryOp.Add => "+"
  | Ast.ExprBinaryOp.Subtract => "-" | Ast.ExprBinaryOp.Multiply => "*"
  | Ast.ExprBinaryOp.Divide => "/" | Ast.ExprBinaryOp.Modulo => "%"
  end.
Fixpoint expr_spelling (e : Ast.ExprSyntax) : string :=
  match e with
  | Ast.mkExprSyntax _ _ n =>
      match n with
      | Ast.NoneLiteralExpr => "none"
      | Ast.BoolLiteralExpr b => if b then "true" else "false"
      | Ast.IntegerLiteralExpr l => Ast.int_spelling l
      | Ast.FloatLiteralExpr s | Ast.DecimalLiteralExpr s | Ast.StringLiteralExpr s => s
      | Ast.DurationLiteralExpr l => Ast.dur_spelling l
      | Ast.PathExpr p => path_spelling p
      | Ast.MemberAccessExpr base member => expr_spelling base +:+ "." +:+ member
      | Ast.GroupExpr inner => expr_spelling inner
      | Ast.BinaryExpr op l r =>
          expr_spelling l +:+ " " +:+ binary_op_spelling op +:+ " " +:+ expr_spelling r
      | _ => "condition"
      end
  end.
Definition semantic_name_for (e : Ast.ExprSyntax) : string :=
  match Ast.node e with
  | Ast.PathExpr p => path_spelling p
  | Ast.CallExpr n _ | Ast.StructLiteralExpr n _ | Ast.QualifiedValueExpr n => Ast.spelling n
  | Ast.MemberAccessExpr _ _ => expr_spelling e
  | Ast.GroupExpr inner => expr_spelling inner
  | Ast.BoolLiteralExpr b => if b then "true" else "false"
  | Ast.NoneLiteralExpr => "none"
  | Ast.StringLiteralExpr s | Ast.FloatLiteralExpr s | Ast.DecimalLiteralExpr s => s
  | Ast.IntegerLiteralExpr l => Ast.int_spelling l
  | Ast.DurationLiteralExpr l => Ast.dur_spelling l
  | _ => ""
  end.
Definition literal_spelling_for (e : Ast.ExprSyntax) : string :=
  match Ast.node e with
  | Ast.IntegerLiteralExpr l => Ast.int_spelling l
  | Ast.DurationLiteralExpr l => Ast.dur_spelling l
  | Ast.FloatLiteralExpr s | Ast.DecimalLiteralExpr s | Ast.StringLiteralExpr s => s
  | _ => ""
  end.
Definition path_payload_for (e : Ast.ExprSyntax) : option Place :=
  match Ast.node e with
  | Ast.PathExpr _ | Ast.MemberAccessExpr _ _ | Ast.GroupExpr _ => place_of_expression e
  | _ => None
  end.
Definition expr_bool_value (e : Ast.ExprSyntax) : bool :=
  match Ast.node e with Ast.BoolLiteralExpr b => b | _ => false end.
Definition expr_unary_op (e : Ast.ExprSyntax) : Ast.ExprUnaryOp.t :=
  match Ast.node e with Ast.UnaryExpr op _ => op | _ => Ast.ExprUnaryOp.Not end.
Definition expr_binary_op (e : Ast.ExprSyntax) : Ast.ExprBinaryOp.t :=
  match Ast.node e with Ast.BinaryExpr op _ _ => op | _ => Ast.ExprBinaryOp.Implies end.
Definition expr_member_name (e : Ast.ExprSyntax) : string :=
  match Ast.node e with Ast.MemberAccessExpr _ m => m | _ => "" end.

Section Checker.
Context (resolve_result : ResolveResult) (alias_decls : gmap SymbolId Ast.TypeSyntax)
  (source_id : option SourceId) (environment : TypeEnvironment).

Definition find_ref (kind : ReferenceKind.t) (range : SourceRange) : option ResolvedReference :=
  find_reference resolve_result kind range source_id.

Definition resolved_symbol_for (e : Ast.ExprSyntax) : option SymbolId :=
  match Ast.node e with
  | Ast.CallExpr n _ => target <$> find_ref ReferenceKind.CallTarget (Ast.qn_range n)
  | Ast.StructLiteralExpr n _ => target <$> find_ref ReferenceKind.TypeName (Ast.qn_range n)
  | Ast.QualifiedValueExpr n =>
      match find_ref ReferenceKind.ConstValue (Ast.qn_range n) with
      | Some r => Some (target r)
      | None => target <$> find_ref ReferenceKind.QualifiedValueOwnerType (Ast.qn_range n)
      end
  | _ => None
  end.
Definition call_target_kind_for (e : Ast.ExprSyntax) : TypedCallTargetKind.t :=
  match Ast.node e with
  | Ast.CallExpr n _ =>
      match find_ref ReferenceKind.CallTarget (Ast.qn_range n) ≫= (λ r, get_symbol resolve_result (target r)) with
      | Some symbol =>
          match symbol_kind symbol with
          | SymbolKind.Capability => TypedCallTargetKind.Capability
          | SymbolKind.Predicate => TypedCallTargetKind.Predicate
          | _ => TypedCallTargetKind.None_
          end
      | None => TypedCallTargetKind.None_
      end
  | _ => TypedCallTargetKind.None_
  end.

Definition parameter_names (callee : Ast.QualifiedName) : list string :=
  match find_ref ReferenceKind.CallTarget (Ast.qn_range callee) with
  | Some r =>
      match capabilities_ environment !! target r with
      | Some capability => pt_name <$> ct_params capability
      | None => match predicates_ environment !! target r with
                | Some predicate => pt_name <$> pred_params predicate
                | None => []
                end
      end
  | None => []
  end.
(** The children of a node with their roles and names. *)
Definition syntax_children (e : Ast.ExprSyntax)
    : list (TypedExprChildRole.t * string * Ast.ExprSyntax) :=
  let as_role r := λ x : Ast.ExprSyntax, (r, "", x) in
  match Ast.node e with
  | Ast.SomeExpr x | Ast.UnaryExpr _ x => [as_role TypedExprChildRole.Operand x]
  | Ast.CallExpr callee args =>
      let names := parameter_names callee in
      imap (λ i x, (TypedExprChildRole.Argument, default "" (names !! i), x)) args
  | Ast.StructLiteralExpr _ fields =>
      (λ f, (TypedExprChildRole.StructFieldValue, f.1.2, f.2)) <$> fields
  | Ast.ListLiteralExpr items | Ast.SetLiteralExpr items =>
      as_role TypedExprChildRole.CollectionElement <$> items
  | Ast.MapLiteralExpr entries =>
      entries ≫= λ entry, [as_role TypedExprChildRole.MapKey entry.1; as_role TypedExprChildRole.MapValue entry.2]
  | Ast.BinaryExpr _ l r => [as_role TypedExprChildRole.LeftOperand l; as_role TypedExprChildRole.RightOperand r]
  | Ast.MemberAccessExpr b _ => [as_role TypedExprChildRole.Base b]
  | Ast.IndexAccessExpr b i => [as_role TypedExprChildRole.Base b; as_role TypedExprChildRole.Index i]
  | Ast.GroupExpr x => [as_role TypedExprChildRole.Grouped x]
  | _ => []
  end.
Definition child_index (program : TypedProgram) (child : Ast.ExprSyntax) : option nat :=
  let by_range := find_expr_by_range program (Ast.range child) source_id in
  if bool_decide (Ast.node_id child = 0%Z) then by_range
  else match find_expr program (Ast.node_id child) source_id with
       | Some i => if bool_decide (to_uint32 (Z.of_nat i) = UINT32_MAX) then by_range else Some i
       | None => by_range
       end.
Definition append_typed_child (program : TypedProgram)
    (child : TypedExprChildRole.t * string * Ast.ExprSyntax) : list TypedExprChild :=
  match child_index program child.2 with
  | Some i =>
      let index := to_uint32 (Z.of_nat i) in
      if bool_decide (index = UINT32_MAX) then [] else [mkTypedExprChild child.1.1 child.1.2 index]
  | None => []
  end.
Definition typed_children_for (program : TypedProgram) (e : Ast.ExprSyntax) : list TypedExprChild :=
  syntax_children e ≫= append_typed_child program.

(** The entry of an expression; the identity is that of [old] when an entry is
    updated in place. *)
Definition entry_for (program : TypedProgram) (e : Ast.ExprSyntax) (v : ExpressionValue)
    (kind : Ast.ExprSyntaxKind.t) (range : SourceRange) : TypedExpr :=
  let path := path_payload_for e in
  mkTypedExpr kind range source_id (Ast.node_id e) (ev_type v) (ev_effect v) (ev_is_pure v)
    (resolved_symbol_for e) (semantic_name_for e) (call_target_kind_for e)
    (match path with Some p => root p | None => "" end)
    (default AssignTargetRootKind.Identifier (ev_path_root_kind v))
    (match path with Some p => place_members p | None => [] end)
    (typed_children_for program e) (expr_bool_value e) (expr_unary_op e) (expr_binary_op e)
    (literal_spelling_for e) (expr_member_name e).
(** Only the type and the payloads of an entry found by its range are written. *)
Definition update_by_range (old : TypedExpr) (e : Ast.ExprSyntax) (v : ExpressionValue) : TypedExpr :=
  mkTypedExpr (te_kind old) (te_range old) (te_source_id old) (te_node_id old) (ev_type v) (ev_effect v)
    (ev_is_pure v) (te_resolved_symbol old) (te_semantic_name old) (te_call_target_kind old)
    (te_path_root old) (default AssignTargetRootKind.Identifier (ev_path_root_kind v))
    (te_member_path old) (te_children old) (expr_bool_value e) (expr_unary_op e) (expr_binary_op e)
    (literal_spelling_for e) (expr_member_name e).
Definition record_expression (e : Ast.ExprSyntax) (v : ExpressionValue) (p : TypedProgram) : TypedProgram :=
  match find_expr p (Ast.node_id e) source_id with
  | Some i =>
      mkTypedProgram (tp_symbols p)
        (alter (λ old, entry_for p e v (te_kind old) (te_range old)) i (tp_expressions p)) (tp_expr_index p)
  | None =>
      match (if bool_decide (Ast.node_id e = 0%Z) then find_expr_by_range p (Ast.range e) source_id else None) with
      | Some i =>
          mkTypedProgram (tp_symbols p)
            (alter (λ old, update_by_range old e v) i (tp_expressions p)) (tp_expr_index p)
      | None =>
          let entry := entry_for p e v (Ast.expr_syntax_kind e) (Ast.range e) in
          mkTypedProgram (tp_symbols p) (tp_expressions p ++ [entry])
            (if bool_decide (Ast.node_id e = 0%Z) then tp_expr_index p
             else <[(Ast.node_id e, source_id) := to_uint32 (Z.of_nat (length (tp_expressions p)))]> (tp_expr_index p))
      end
  end.
Definition remember_expression_type (e : Ast.ExprSyntax) (v : ExpressionValue) : checking unit := λ s,
  Ret (tt, mkCheckState (cs_types s) (resolved_alias_types s) (active_aliases s) (cs_diagnostics s)
             (record_expression e v (cs_program s))).

(** ** Narrowing and members *)
Definition local_nominal_name (canonical_name : string) : string :=
  match rfind_colons canonical_name with Some (_, n) => n | None => canonical_name end.
Definition enum_fact_matches (name : string) (fact : TypeFact) : bool :=
  bool_decide (enum_name fact = name) || bool_decide (enum_name fact = local_nominal_name name).
Definition facts_about (p : Place) (name : string) (kind : TypeFactKind.t) (facts : FlowFacts)
    : list TypeFact :=
  filter (λ fact, enum_fact_matches name fact = true ∧ fact_kind fact = kind) (bucket_of p facts).
Definition narrow_enum (type : TypePtr) (name : string) (symbol : option SymbolId) (p : Place)
    (facts : FlowFacts) : checking TypePtr :=
  let positive := last (facts_about p name TypeFactKind.IsVariant facts) in
  let excluded := variant_name <$> facts_about p name TypeFactKind.IsNotVariant facts in
  let info := get_enum environment (EnumT name symbol) in
  let exists_variant v := match info with Some info => has_variant info v | None => true end in
  match (fact ← positive; if exists_variant (variant_name fact) then Some fact else None), info with
  | Some fact, _ => intern_type (enum_variant_type name (variant_name fact) symbol)
  | None, None => mret type
  | None, Some info =>
      if bool_decide (excluded = []) then mret type
      else match filter (λ v, v ∉ excluded) (variants info) with
           | [v] => intern_type (enum_variant_type name v symbol)
           | _ => mret type
           end
  end.
Definition apply_expression_flow_narrowing (type : TypePtr) (p : Place) (facts : FlowFacts)
    : checking TypePtr :=
  outer ← payload_of type;
  let type :=
    match outer with
    | OptionalT (Some inner) => if has_fact p TypeFactKind.IsNotNone facts then inner else type
    | _ => type
    end in
  payload ← payload_of type;
  match payload with
  | EnumT name symbol => narrow_enum type name symbol p facts
  | _ => mret type
  end.

Definition resolve_expression_field_access (base_type : TypePtr) (field_name : string)
    (range : SourceRange) : checking TypePtr :=
  base ← payload_of base_type;
  match base with
  | ErrorT => make_error_type
  | StructT _ _ =>
      match get_struct environment base with
      | None => _ ← typecheck_error TypecheckCode.MissingTypeMetadata range; make_error_type
      | Some info =>
          match find_struct_field info field_name with
          | None =>
              _ ← typecheck_error_suggest TypecheckCode.UnknownField range
                    (suggest_name field_name (sf_name <$> st_fields info));
              make_error_type
          | Some field => match sf_type field with Some t => mret t | None => make_error_type end
          end
      end
  | _ => _ ← typecheck_error TypecheckCode.InvalidMemberAccess range; make_error_type
  end.
Definition is_bound (context : ExpressionContext) (name : string) : bool :=
  match bindings context !! name with Some (Some _) => true | _ => false end.
Definition classify_expression_path_root (path : Ast.PathSyntax) (context : ExpressionContext)
    : AssignTargetRootKind.t :=
  match Ast.ps_root_kind path with
  | Ast.PathRootKind.Input => AssignTargetRootKind.Input
  | Ast.PathRootKind.Output => AssignTargetRootKind.Output
  | Ast.PathRootKind.Identifier =>
      if bool_decide (Ast.ps_root_name path = "ctx") then AssignTargetRootKind.Context
      else if bool_decide (Ast.ps_root_name path = "state") then AssignTargetRootKind.State
      else match call_context context with
           | ExpressionCallContext.Flow =>
               if is_bound context (Ast.ps_root_name path) then AssignTargetRootKind.Local
               else AssignTargetRootKind.Identifier
           | _ => AssignTargetRootKind.Identifier
           end
  end.
Fixpoint traverse_members (current : TypePtr) (members : list string) (range : SourceRange)
    : checking TypePtr :=
  match members with
  | [] => mret current
  | member :: members =>
      next ← resolve_expression_field_access current member range;
      traverse_members next members range
  end.
Definition resolve_expression_path (path : Ast.PathSyntax) (context : ExpressionContext)
    : checking ExpressionValue :=
  match bindings context !! Ast.ps_root_name path with
  | Some (Some root_type) =>
      current ← traverse_members root_type (Ast.ps_members path) (Ast.ps_range path);
      narrowed ← apply_expression_flow_narrowing current
                   (mkPlace (Ast.ps_root_name path) (Ast.ps_members path)) (flow_facts context);
      mret (mkExpressionValue narrowed ExprEffect.Pure true
              (Some (classify_expression_path_root path context)))
  | _ =>
      _ ← typecheck_error TypecheckCode.UnknownValue (Ast.ps_range path);
      t ← make_error_type;
      mret (mkExpressionValue t ExprEffect.Pure true None)
  end.

(** ** Relations between types *)
Definition is_error_type (p : TypePtr) : checking bool := t ← payload_of p; mret (is_error t).
Definition assignable (source target : TypePtr) : checking bool := λ s,
  ⌊ is_assignable_to (storage (cs_types s)) default_options source target ⌋ s.
Definition subtype (source target : TypePtr) : checking bool := λ s,
  ⌊ is_subtype_of (storage (cs_types s)) default_options source target ⌋ s.
Definition exact_schema (source target : TypePtr) : checking bool := λ s,
  ⌊ is_exact_schema_match (storage (cs_types s)) default_options source target ⌋ s.
Definition check_relation (relation : TypePtr → TypePtr → checking bool) (code : TypecheckCode.t)
    (source target : TypePtr) (range : SourceRange) : checking bool :=
  source_error ← is_error_type source;
  target_error ← is_error_type target;
  if source_error || target_error then mret true
  else
    related ← relation source target;
    if (related : bool) then mret true else _ ← typecheck_error code range; mret false.
Definition check_assignable : TypePtr → TypePtr → SourceRange → checking bool :=
  check_relation assignable TypecheckCode.TypeMismatch.
Definition check_exact_schema_boundary : TypePtr → TypePtr → SourceRange → checking bool :=
  check_relation exact_schema TypecheckCode.ExactSchemaMismatch.

(** ** Expressions, over the checker [rec] of nested expressions in the same context *)
Section Expressions.
Context (context : ExpressionContext)
  (rec : Ast.ExprSyntax → option TypePtr → checking ExpressionValue).

Definition payload_opt (p : option TypePtr) : checking (option Payload) :=
  match p with Some p => t ← payload_of p; mret (Some t) | None => mret None end.

Definition check_decimal_literal (spelling : string) : checking ExpressionValue :=
  t ← intern_type (decimal (parse_decimal_scale spelling)); mret (typed t).
Definition check_simple_literal (f : TypeContext → TypePtr * TypeContext) : checking ExpressionValue :=
  t ← intern_type f; mret (typed t).
Definition check_none_literal (range : SourceRange) (expected_type : option TypePtr)
    : checking ExpressionValue :=
  expected ← payload_opt expected_type;
  match expected, expected_type with
  | Some (OptionalT _), Some t => mret (typed t)
  | _, _ => _ ← typecheck_error TypecheckCode.NoneWithoutContext range; error_typed true
  end.
Definition check_some (value : Ast.ExprSyntax) (expected_type : option TypePtr)
    : checking ExpressionValue :=
  expected ← payload_opt expected_type;
  match expected, expected_type with
  | Some (OptionalT (Some inner_expected)), Some t =>
      inner ← rec value (Some inner_expected);
      _ ← check_assignable (ev_type inner) inner_expected (Ast.range value);
      mret (typed_effect t (ev_effect inner))
  | _, _ =>
      inner ← rec value None;
      t ← intern_type (optional (Some (ev_type inner)));
      mret (typed_effect t (ev_effect inner))
  end.

Definition check_const_value (range : SourceRange) (reference : ResolvedReference)
    : checking ExpressionValue :=
  match get_const_type environment (target reference) with
  | None => _ ← typecheck_error TypecheckCode.MissingConstMetadata range; error_typed true
  | Some t => mret (typed_effect t ExprEffect.ConstOnly)
  end.
Definition check_enum_value (range : SourceRange) (name : Ast.QualifiedName) (owner : ResolvedReference)
    : checking ExpressionValue :=
  owner_type ← resolve_type_symbol resolve_result alias_decls (target owner) range;
  payload ← payload_of owner_type;
  match payload with
  | EnumT _ _ =>
      match get_enum environment payload with
      | None => _ ← typecheck_error TypecheckCode.MissingTypeMetadata range; error_typed true
      | Some info =>
          match last (Ast.segments name) with
          | None => _ ← typecheck_error TypecheckCode.UnknownEnumVariant range; error_typed true
          | Some variant =>
              if has_variant info variant then mret (typed_effect owner_type ExprEffect.ConstOnly)
              else
                _ ← typecheck_error_suggest TypecheckCode.UnknownEnumVariant range
                      (suggest_name variant (variants info));
                error_typed true
          end
      end
  | _ => _ ← typecheck_error TypecheckCode.InvalidQualifiedValue range; error_typed true
  end.
Definition check_qualified_value (range : SourceRange) (name : Ast.QualifiedName)
    : checking ExpressionValue :=
  match find_ref ReferenceKind.ConstValue (Ast.qn_range name) with
  | Some reference => check_const_value range reference
  | None =>
      match find_ref ReferenceKind.QualifiedValueOwnerType (Ast.qn_range name) with
      | None => _ ← typecheck_error TypecheckCode.UnknownQualifiedValue range; error_typed true
      | Some owner => check_enum_value range name owner
      end
  end.

(** The loop over the initializers of a struct literal: the fields seen and the
    joined effect. *)
Fixpoint check_field_inits (info : StructTypeInfo) (fields : list (SourceRange * string * Ast.ExprSyntax))
    (seen : gset string) (effect : ExprEffect.t) : checking (gset string * ExprEffect.t) :=
  match fields with
  | [] => mret (seen, effect)
  | (range, name, value) :: fields =>
      if bool_decide (name ∈ seen) then
        _ ← typecheck_error TypecheckCode.DuplicateField range;
        check_field_inits info fields seen effect
      else
        let seen := {[name]} ∪ seen in
        match find_struct_field info name with
        | None =>
            _ ← typecheck_error_suggest TypecheckCode.UnknownField range
                  (suggest_name name (sf_name <$> st_fields info));
            check_field_inits info fields seen effect
        | Some field =>
            v ← rec value (sf_type field);
            field_type ← non_null (sf_type field);
            _ ← check_assignable (ev_type v) field_type (Ast.range value);
            check_field_inits info fields seen (join_effects effect (ev_effect v))
        end
  end.
Fixpoint check_missing_fields (fields : list StructFieldInfo) (seen : gset string) (range : SourceRange)
    : checking unit :=
  match fields with
  | [] => mret tt
  | field :: fields =>
      _ ← error_when (negb (bool_decide (sf_name field ∈ seen))) TypecheckCode.MissingField range;
      check_missing_fields fields seen range
  end.
Definition check_struct_literal (range : SourceRange) (type_name : Ast.QualifiedName)
    (fields : list (SourceRange * string * Ast.ExprSyntax)) : checking ExpressionValue :=
  match find_ref ReferenceKind.TypeName (Ast.qn_range type_name) with
  | None => _ ← typecheck_error TypecheckCode.UnknownType range; error_typed true
  | Some reference =>
      struct_type ← resolve_type_symbol resolve_result alias_decls (target reference) range;
      payload ← payload_of struct_type;
      match payload with
      | StructT _ _ =>
          match get_struct environment payload with
          | None => _ ← typecheck_error TypecheckCode.MissingTypeMetadata range; error_typed true
          | Some info =>
              se ← check_field_inits info fields ∅ ExprEffect.Pure;
              _ ← check_missing_fields (st_fields info) se.1 range;
              mret (typed_effect struct_type se.2)
          end
      | _ => _ ← typecheck_error TypecheckCode.InvalidStructLiteralTarget range; error_typed true
      end
  end.

Definition clone_or_any (type : option TypePtr) : checking TypePtr :=
  match type with Some t => mret t | None => intern_type (make TypeKind.Any) end.
(** One element of a collection: [element_type] is the type the elements so far
    agree on. *)
Definition check_element (value : ExpressionValue) (element_type : option TypePtr) (range : SourceRange)
    : checking TypePtr :=
  match element_type with
  | None => mret (ev_type value)
  | Some t => _ ← check_assignable (ev_type value) t range; mret t
  end.
Fixpoint check_items (items : list Ast.ExprSyntax) (element_expected element_type : option TypePtr)
    (effect : ExprEffect.t) : checking (option TypePtr * ExprEffect.t) :=
  match items with
  | [] => mret (element_type, effect)
  | item :: items =>
      v ← rec item element_expected;
      t ← check_element v element_type (Ast.range item);
      check_items items element_expected (Some t) (join_effects effect (ev_effect v))
  end.
(** A list or a set: [collection] makes its type, [element_of] takes it apart. *)
Definition check_collection (collection : option TypePtr → TypeContext → TypePtr * TypeContext)
    (element_of : Payload → option (option TypePtr)) (range : SourceRange)
    (items : list Ast.ExprSyntax) (expected_type : option TypePtr) : checking ExpressionValue :=
  expected ← payload_opt expected_type;
  match items with
  | [] =>
      match (p ← (expected : option Payload); element_of p), expected_type with
      | Some _, Some t => mret (typed t)
      | _, _ =>
          _ ← typecheck_error TypecheckCode.EmptyLiteralWithoutContext range;
          e ← make_error_type; t ← intern_type (collection (Some e)); mret (typed t)
      end
  | _ =>
      let element_expected := p ← (expected : option Payload); e ← element_of p; e in
      _ ← clone_or_any element_expected;
      r ← check_items items element_expected element_expected ExprEffect.Pure;
      t ← intern_type (collection r.1);
      mret (typed_effect t r.2)
  end.
Definition list_element (p : Payload) : option (option TypePtr) :=
  match p with ListT e => Some e | _ => None end.
Definition set_element (p : Payload) : option (option TypePtr) :=
  match p with SetT e => Some e | _ => None end.
Definition check_list_literal : SourceRange → list Ast.ExprSyntax → option TypePtr → checking ExpressionValue :=
  check_collection list_type list_element.
Definition check_set_literal : SourceRange → list Ast.ExprSyntax → option TypePtr → checking ExpressionValue :=
  check_collection set_type set_element.

Fixpoint check_entries (entries : list (Ast.ExprSyntax * Ast.ExprSyntax))
    (key_expected value_expected key_type value_type : option TypePtr) (effect : ExprEffect.t)
    : checking (option TypePtr * option TypePtr * ExprEffect.t) :=
  match entries with
  | [] => mret (key_type, value_type, effect)
  | (ke, ve) :: entries =>
      key ← rec ke key_expected;
      value ← rec ve value_expected;
      kt ← check_element key key_type (Ast.range ke);
      vt ← check_element value value_type (Ast.range ve);
      check_entries entries key_expected value_expected (Some kt) (Some vt)
        (join_effects effect (join_effects (ev_effect key) (ev_effect value)))
  end.
Definition check_map_literal (range : SourceRange) (entries : list (Ast.ExprSyntax * Ast.ExprSyntax))
    (expected_type : option TypePtr) : checking ExpressionValue :=
  expected ← payload_opt expected_type;
  match entries with
  | [] =>
      match expected, expected_type with
      | Some (MapT _ _), Some t => mret (typed t)
      | _, _ =>
          _ ← typecheck_error TypecheckCode.EmptyLiteralWithoutContext range;
          e ← make_error_type; t ← intern_type (map_type (Some e) (Some e)); mret (typed t)
      end
  | _ =>
      let kv := match expected with
                | Some (MapT (Some k) (Some v)) => (Some k, Some v)
                | _ => (None, None)
                end in
      _ ← clone_or_any kv.1; _ ← clone_or_any kv.2;
      r ← check_entries entries kv.1 kv.2 kv.1 kv.2 ExprEffect.Pure;
      t ← intern_type (map_type r.1.1 r.1.2);
      mret (typed_effect t r.2)
  end.

(** Arguments up to the shorter of the two lists. *)
Fixpoint check_arguments (purely : bool) (arguments : list Ast.ExprSyntax) (params : list ParamTypeInfo)
    (effect : ExprEffect.t) : checking ExprEffect.t :=
  match arguments, params with
  | argument :: arguments, param :: params =>
      v ← rec argument (pt_type param);
      _ ← error_when (purely && negb (ev_is_pure v)) TypecheckCode.NonPureExpression (Ast.range argument);
      param_type ← non_null (pt_type param);
      _ ← check_assignable (ev_type v) param_type (Ast.range argument);
      check_arguments purely arguments params (join_effects effect (ev_effect v))
  | _, _ => mret effect
  end.
Definition capability_declared (symbol : SymbolId) : bool :=
  match current_agent context ≫= (λ a, agents_ environment !! a) with
  | Some info => bool_decide (symbol ∈ capability_symbols info)
  | None => true
  end.
Definition check_capability_call (range : SourceRange) (arguments : list Ast.ExprSyntax) (symbol : SymbolId)
    : checking ExpressionValue :=
  match capabilities_ environment !! symbol with
  | None => _ ← typecheck_error TypecheckCode.MissingCallableMetadata range; error_typed false
  | Some capability =>
      _ ← error_when (negb (bool_decide (call_context context = ExpressionCallContext.Flow)))
            TypecheckCode.CapabilityNotAllowed range;
      _ ← error_when (negb (capability_declared symbol)) TypecheckCode.CapabilityNotAllowed range;
      _ ← error_when (negb (bool_decide (length arguments = length (ct_params capability))))
            TypecheckCode.WrongArity range;
      _ ← check_arguments false arguments (ct_params capability) ExprEffect.Pure;
      t ← match ct_return_type capability with Some t => mret t | None => make_error_type end;
      mret (typed_effect t ExprEffect.CapabilityCall)
  end.
Definition check_predicate_call (range : SourceRange) (arguments : list Ast.ExprSyntax) (symbol : SymbolId)
    : checking ExpressionValue :=
  match predicates_ environment !! symbol with
  | None => _ ← typecheck_error TypecheckCode.MissingCallableMetadata range; error_typed true
  | Some predicate =>
      _ ← error_when (negb (bool_decide (length arguments = length (pred_params predicate))))
            TypecheckCode.WrongArity range;
      effect ← check_arguments true arguments (pred_params predicate) ExprEffect.PredicateCall;
      t ← intern_type (make TypeKind.Bool);
      mret (typed_effect t effect)
  end.
Definition check_call (range : SourceRange) (callee : Ast.QualifiedName) (arguments : list Ast.ExprSyntax)
    : checking ExpressionValue :=
  match find_ref ReferenceKind.CallTarget (Ast.qn_range callee) with
  | None => _ ← typecheck_error TypecheckCode.UnknownCallable range; error_typed false
  | Some reference =>
      match get_symbol resolve_result (target reference) with
      | None => _ ← typecheck_error TypecheckCode.InvalidCallableReference range; error_typed false
      | Some symbol =>
          match symbol_kind symbol with
          | SymbolKind.Capability => check_capability_call range arguments (target reference)
          | SymbolKind.Predicate => check_predicate_call range arguments (target reference)
          | _ => _ ← typecheck_error TypecheckCode.InvalidCallableReference range; error_typed false
          end
      end
  end.

Definition check_unary_expr (range : SourceRange) (op : Ast.ExprUnaryOp.t) (operand : Ast.ExprSyntax)
    : checking ExpressionValue :=
  v ← rec operand None;
  t ← payload_of (ev_type v);
  match op with
  | Ast.ExprUnaryOp.Not =>
      _ ← error_when (negb (is_bool_type t) && negb (is_error t)) TypecheckCode.InvalidOperation range;
      b ← intern_type (make TypeKind.Bool);
      mret (typed_effect b (ev_effect v))
  | _ =>
      _ ← error_when (negb (is_numeric_type t) && negb (is_error t)) TypecheckCode.InvalidOperation range;
      mret (typed_effect (ev_type v) (ev_effect v))
  end.

Definition is_comparison (op : Ast.ExprBinaryOp.t) : bool :=
  match op with
  | Ast.ExprBinaryOp.Equal | Ast.ExprBinaryOp.NotEqual | Ast.ExprBinaryOp.Less
  | Ast.ExprBinaryOp.LessEqual | Ast.ExprBinaryOp.Greater | Ast.ExprBinaryOp.GreaterEqual => true
  | _ => false
  end.
Definition is_logical (op : Ast.ExprBinaryOp.t) : bool :=
  match op with
  | Ast.ExprBinaryOp.Implies | Ast.ExprBinaryOp.Or | Ast.ExprBinaryOp.And => true
  | _ => false
  end.
Definition comparable (l r : TypePtr) (lt rt : Payload) : checking bool :=
  if is_error lt || is_error rt then mret true
  else
    a ← subtype l r;
    if (a : bool) then mret true else subtype r l.
(** [None]: the operand types do not fit ([nullptr] in the source). *)
Definition strict_arithmetic (op : Ast.ExprBinaryOp.t) (l : TypePtr) (lt rt : Payload)
    : checking (option TypePtr) :=
  if is_error lt || is_error rt then t ← make_error_type; mret (Some t)
  else
    match lt, rt with
    | IntT, IntT => t ← intern_type (make TypeKind.Int); mret (Some t)
    | FloatT, FloatT => t ← intern_type (make TypeKind.Float); mret (Some t)
    | DecimalT a, DecimalT b =>
        match op with
        | Ast.ExprBinaryOp.Add | Ast.ExprBinaryOp.Subtract =>
            if bool_decide (a = b) then mret (Some l) else mret None
        | _ => mret None
        end
    | _, _ => mret None
    end.
Definition is_string_type (t : Payload) : bool := match t with StringT => true | _ => false end.
Definition is_int_type (t : Payload) : bool := match t with IntT => true | _ => false end.
(** The operators whose result type depends on the operand types. *)
Definition check_arithmetic (range : SourceRange) (op : Ast.ExprBinaryOp.t) (l : TypePtr) (lt rt : Payload)
    (effect : ExprEffect.t) : checking ExpressionValue :=
  let invalid :=
    _ ← error_when (negb (is_error lt) && negb (is_error rt)) TypecheckCode.InvalidOperation range;
    error_typed_effect effect in
  let strict :=
    result ← strict_arithmetic op l lt rt;
    match result with Some t => mret (typed_effect t effect) | None => invalid end in
  match op with
  | Ast.ExprBinaryOp.Add =>
      if is_string_type lt && is_string_type rt
      then t ← intern_type string_type; mret (typed_effect t effect)
      else strict
  | Ast.ExprBinaryOp.Modulo =>
      if is_int_type lt && is_int_type rt
      then t ← intern_type (make TypeKind.Int); mret (typed_effect t effect)
      else invalid
  | _ => strict
  end.
Definition check_none_comparison (range : SourceRange) (value none : Ast.ExprSyntax)
    : checking ExpressionValue :=
  v ← rec value None;
  n ← rec none (Some (ev_type v));
  t ← payload_of (ev_type v);
  _ ← error_when (negb (is_error t) && negb (match t with OptionalT _ => true | _ => false end))
        TypecheckCode.InvalidOperation range;
  b ← intern_type (make TypeKind.Bool);
  mret (typed_effect b (join_effects (ev_effect v) (ev_effect n))).
Definition check_binary_expr (range : SourceRange) (op : Ast.ExprBinaryOp.t) (lhs rhs : Ast.ExprSyntax)
    : checking ExpressionValue :=
  if bool_decide (is_equality op ≠ None) && (is_none_literal lhs || is_none_literal rhs) then
    if is_none_literal lhs then check_none_comparison range rhs lhs
    else check_none_comparison range lhs rhs
  else
    l ← rec lhs None;
    r ← rec rhs None;
    let effect := join_effects (ev_effect l) (ev_effect r) in
    lt ← payload_of (ev_type l);
    rt ← payload_of (ev_type r);
    if is_logical op then
      _ ← error_when (negb (is_bool_type lt && is_bool_type rt) && negb (is_error lt) && negb (is_error rt))
            TypecheckCode.InvalidOperation range;
      b ← intern_type (make TypeKind.Bool); mret (typed_effect b effect)
    else if is_comparison op then
      ok ← comparable (ev_type l) (ev_type r) lt rt;
      _ ← error_when (negb ok) TypecheckCode.InvalidOperation range;
      b ← intern_type (make TypeKind.Bool); mret (typed_effect b effect)
    else check_arithmetic range op (ev_type l) lt rt effect.

Definition check_member_access (e base : Ast.ExprSyntax) (member : string) : checking ExpressionValue :=
  b ← rec base None;
  t ← resolve_expression_field_access (ev_type b) member (Ast.range e);
  t ← match place_of_expression e with
      | Some p => apply_expression_flow_narrowing t p (flow_facts context)
      | None => mret t
      end;
  mret (typed_effect t (ev_effect b)).
Definition check_index_access (range : SourceRange) (base index : Ast.ExprSyntax)
    : checking ExpressionValue :=
  c ← rec base None;
  i ← rec index None;
  let effect := join_effects (ev_effect c) (ev_effect i) in
  ct ← payload_of (ev_type c);
  it ← payload_of (ev_type i);
  match ct with
  | ListT element =>
      _ ← error_when (negb (is_int_type it) && negb (is_error it)) TypecheckCode.InvalidIndexAccess (Ast.range index);
      match element with Some t => mret (typed_effect t effect) | None => error_typed_effect effect end
  | MapT key value =>
      _ ← match key with
          | Some k => _ ← check_assignable (ev_type i) k (Ast.range index); mret tt
          | None => mret tt
          end;
      match value with Some t => mret (typed_effect t effect) | None => error_typed_effect effect end
  | _ =>
      _ ← error_when (negb (is_error ct)) TypecheckCode.InvalidIndexAccess range;
      error_typed_effect effect
  end.

Definition check_node (e : Ast.ExprSyntax) (expected_type : option TypePtr) : checking ExpressionValue :=
  match e with
  | Ast.mkExprSyntax range _ n =>
      match n with
      | Ast.NoneLiteralExpr => check_none_literal range expected_type
      | Ast.BoolLiteralExpr _ => check_simple_literal (make TypeKind.Bool)
      | Ast.IntegerLiteralExpr _ => check_simple_literal (make TypeKind.Int)
      | Ast.FloatLiteralExpr _ => check_simple_literal (make TypeKind.Float)
      | Ast.DecimalLiteralExpr s => check_decimal_literal s
      | Ast.StringLiteralExpr _ => check_simple_literal string_type
      | Ast.DurationLiteralExpr _ => check_simple_literal (make TypeKind.Duration)
      | Ast.SomeExpr value => check_some value expected_type
      | Ast.PathExpr path => resolve_expression_path path context
      | Ast.QualifiedValueExpr name => check_qualified_value range name
      | Ast.CallExpr callee arguments => check_call range callee arguments
      | Ast.StructLiteralExpr type_name fields => check_struct_literal range type_name fields
      | Ast.ListLiteralExpr items => check_list_literal range items expected_type
      | Ast.SetLiteralExpr items => check_set_literal range items expected_type
      | Ast.MapLiteralExpr entries => check_map_literal range entries expected_type
      | Ast.UnaryExpr op operand => check_unary_expr range op operand
      | Ast.BinaryExpr op lhs rhs => check_binary_expr range op lhs rhs
      | Ast.MemberAccessExpr base member => check_member_access e base member
      | Ast.IndexAccessExpr base index => check_index_access range base index
      | Ast.GroupExpr inner => rec inner expected_type
      end
  end.
End Expressions.

Fixpoint check_expr (context : ExpressionContext) (e : Ast.ExprSyntax) (expected_type : option TypePtr)
    : checking ExpressionValue :=
  v ← check_node context (check_expr context) e expected_type;
  _ ← remember_expression_type e v;
  mret v.

(** ** Statements *)
Definition with_facts (facts : FlowFacts) (context : ExpressionContext) : ExpressionContext :=
  mkExpressionContext (bindings context) facts (call_context context) (current_agent context).
Definition bind_name (name : string) (type : TypePtr) (context : ExpressionContext) : ExpressionContext :=
  mkExpressionContext (<[name := Some type]> (bindings context)) (flow_facts context)
    (call_context context) (current_agent context).
(** The context of the condition of an [if] or an [assert]. *)
Definition condition_context (context : ExpressionContext) : ExpressionContext :=
  mkExpressionContext (bindings context) ∅ ExpressionCallContext.PureOnly (current_agent context).
Definition check_condition (context : ExpressionContext) (condition : Ast.ExprSyntax) : checking unit :=
  v ← check_expr (condition_context context) condition None;
  t ← payload_of (ev_type v);
  _ ← error_when (negb (is_bool_type t) && negb (is_error t)) TypecheckCode.TypeMismatch (Ast.range condition);
  error_when (negb (ev_is_pure v)) TypecheckCode.NonPureExpression (Ast.range condition).
Definition check_let (context : ExpressionContext) (range : SourceRange) (name : string)
    (type : option Ast.TypeSyntax) (initializer : Ast.ExprSyntax) : checking ExpressionContext :=
  annotated ← match type with
              | Some type => t ← resolve_type resolve_result alias_decls source_id type; mret (Some t)
              | None => mret None
              end;
  v ← check_expr context initializer annotated;
  _ ← match annotated with
      | Some t => _ ← check_assignable (ev_type v) t (Ast.range initializer); mret tt
      | None => mret tt
      end;
  _ ← (if is_bound context name then diagnose (mkTypeDiagnostic false TypecheckCode.ShadowedBinding range None)
       else mret tt);
  mret (bind_name name (default (ev_type v) annotated) context).
Definition check_assign (context : ExpressionContext) (target : Ast.PathSyntax) (value : Ast.ExprSyntax)
    : checking ExpressionContext :=
  if bool_decide (Ast.ps_root_name target ≠ "ctx") then
    _ ← typecheck_error TypecheckCode.InvalidOperation (Ast.ps_range target); mret context
  else
    let context := with_facts
      (invalidate (mkPlace (Ast.ps_root_name target) (Ast.ps_members target)) (flow_facts context)) context in
    t ← resolve_expression_path target context;
    v ← check_expr context value (Some (ev_type t));
    _ ← check_assignable (ev_type v) (ev_type t) (Ast.range value);
    mret context.
Definition check_return (context : ExpressionContext) (value : option Ast.ExprSyntax)
    (expected_return_type : option TypePtr) : checking unit :=
  match value with
  | None => mret tt
  | Some value =>
      v ← check_expr context value expected_return_type;
      match expected_return_type with
      | Some t => _ ← check_exact_schema_boundary (ev_type v) t (Ast.range value); mret tt
      | None => mret tt
      end
  end.

Section Blocks.
Context (expected_return_type : option TypePtr).
Fixpoint check_block (block : Ast.BlockSyntax) (context : ExpressionContext) : checking ExpressionContext :=
  match block with
  | Ast.mkBlockSyntax _ statements =>
      (fix go (statements : list Ast.StatementSyntax) (context : ExpressionContext)
           : checking ExpressionContext :=
         match statements with
         | [] => mret context
         | statement :: statements =>
             context ← check_statement statement context; go statements context
         end) statements context
  end
with check_statement (statement : Ast.StatementSyntax) (context : ExpressionContext)
    : checking ExpressionContext :=
  match statement with
  | Ast.mkStatementSyntax range stmt =>
      match stmt with
      | Ast.LetStmt name type initializer => check_let context range name type initializer
      | Ast.AssignStmt target value => check_assign context target value
      | Ast.IfStmt condition then_block else_block =>
          _ ← check_condition context condition;
          let facts := extract_condition_facts condition in
          _ ← check_block then_block
                (with_facts (merge_from (when_true facts) (flow_facts context)) context);
          _ ← match else_block with
              | Some else_block =>
                  check_block else_block
                    (with_facts (merge_from (when_false facts) (flow_facts context)) context)
              | None => mret context
              end;
          mret context
      | Ast.GotoStmt _ => mret context
      | Ast.ReturnStmt value => _ ← check_return context value expected_return_type; mret context
      | Ast.AssertStmt condition => _ ← check_condition context condition; mret context
      | Ast.ExprStmt expr => _ ← check_expr context expr None; mret context
      end
  end.
End Blocks.
End Checker.
