(* ===== verification/TypeSound.v ===== *)
(** * Soundness of the type checker

    Declarative typing rules for expressions, over types as trees; the checker
    computes a typing of the rules whenever it reports no error, never follows
    a pointer out of the storage and always ends.  The typing of an expression
    is then compared with what the evaluator does with its lowering: the value
    has the type, and the only errors left are those that depend on values. *)
From S2P Require Import Prelude Numeric Ir Diagnostics Value EvalContext Evaluator EvaluatorProps Syntax Facts Types TypeRelations TypeProps Hir TypeEnv TypeCheck.
Open Scope nat_scope.

(** ** Typing rules *)
Section Typing.
Context (resolve_result : ResolveResult) (alias_decls : gmap SymbolId Ast.TypeSyntax)
  (source_id : option SourceId) (environment : TypeEnvironment) (base : list Payload).
Abbreviation find_ref := (find_ref resolve_result source_id).

(** The type that syntax and symbols stand for. *)
Inductive syntax_type : option SourceId → Ast.TypeSyntax → Ty → Prop :=
  | st_unit src r : syntax_type src (Ast.mkTypeSyntax r Ast.UnitType) (TAtom UnitT)
  | st_bool src r : syntax_type src (Ast.mkTypeSyntax r Ast.BoolType) (TAtom BoolT)
  | st_int src r : syntax_type src (Ast.mkTypeSyntax r Ast.IntType) (TAtom IntT)
  | st_float src r : syntax_type src (Ast.mkTypeSyntax r Ast.FloatType) (TAtom FloatT)
  | st_string src r : syntax_type src (Ast.mkTypeSyntax r Ast.StringType) (TAtom StringT)
  | st_bounded src r lo hi : syntax_type src (Ast.mkTypeSyntax r (Ast.BoundedStringType lo hi))
      (TAtom (BoundedStringT (int64_of_size lo) (int64_of_size hi)))
  | st_uuid src r : syntax_type src (Ast.mkTypeSyntax r Ast.UuidType) (TAtom UUIDT)
  | st_timestamp src r : syntax_type src (Ast.mkTypeSyntax r Ast.TimestampType) (TAtom TimestampT)
  | st_duration src r : syntax_type src (Ast.mkTypeSyntax r Ast.DurationType) (TAtom DurationT)
  | st_decimal src r scale : syntax_type src (Ast.mkTypeSyntax r (Ast.DecimalType scale)) (TAtom (DecimalT scale))
  | st_named src r name reference t :
      find_reference resolve_result ReferenceKind.TypeName (Ast.qn_range name) src = Some reference →
      symbol_type (target reference) t → syntax_type src (Ast.mkTypeSyntax r (Ast.NamedType name)) t
  | st_optional src r a t : syntax_type src a t →
      syntax_type src (Ast.mkTypeSyntax r (Ast.OptionalType a)) (TOptional t)
  | st_list src r a t : syntax_type src a t → syntax_type src (Ast.mkTypeSyntax r (Ast.ListType a)) (TList t)
  | st_set src r a t : syntax_type src a t → syntax_type src (Ast.mkTypeSyntax r (Ast.SetType a)) (TSet t)
  | st_map src r a b k v : syntax_type src a k → syntax_type src b v →
      syntax_type src (Ast.mkTypeSyntax r (Ast.MapType a b)) (TMap k v)
with symbol_type : SymbolId → Ty → Prop :=
  | sym_struct id symbol : get_symbol resolve_result id = Some symbol → symbol_kind symbol = SymbolKind.Struct →
      symbol_type id (TAtom (StructT (symbol_canonical_name symbol) (Some id)))
  | sym_enum id symbol : get_symbol resolve_result id = Some symbol → symbol_kind symbol = SymbolKind.Enum →
      symbol_type id (TAtom (EnumT (symbol_canonical_name symbol) (Some id)))
  | sym_alias id symbol body t : get_symbol resolve_result id = Some symbol →
      symbol_kind symbol = SymbolKind.TypeAlias → alias_decls !! id = Some body →
      syntax_type (symbol_source_id symbol) body t → symbol_type id t.

(** Declared types: pointers into the storage the declarations were built in. *)
Definition declared_type (p : option TypePtr) (t : Ty) : Prop := ∃ q, p = Some q ∧ views base q t.
Definition field_type (info : StructTypeInfo) (name : string) (t : Ty) : Prop :=
  ∃ field, find_struct_field info name = Some field ∧ declared_type (sf_type field) t.
Inductive fields_type : Ty → list string → Ty → Prop :=
  | fields_nil t : fields_type t [] t
  | fields_cons n s info m ms t u :
      get_struct environment (StructT n s) = Some info → field_type info m t →
      fields_type t ms u → fields_type (TAtom (StructT n s)) (m :: ms) u.

(** Narrowing on trees. *)
Definition narrow_enum_ty (n : string) (s : option SymbolId) (p : Place) (facts : FlowFacts) : Ty :=
  let excluded := variant_name <$> facts_about p n TypeFactKind.IsNotVariant facts in
  let info := get_enum environment (EnumT n s) in
  let exists_variant v := match info with Some info => has_variant info v | None => true end in
  match (fact ← last (facts_about p n TypeFactKind.IsVariant facts);
         if exists_variant (variant_name fact) then Some fact else None), info with
  | Some fact, _ => TAtom (EnumVariantT n s (variant_name fact))
  | None, None => TAtom (EnumT n s)
  | None, Some info =>
      if bool_decide (excluded = []) then TAtom (EnumT n s)
      else match filter (λ v, v ∉ excluded) (variants info) with
           | [v] => TAtom (EnumVariantT n s v)
           | _ => TAtom (EnumT n s)
           end
  end.
Definition unwrapped (p : Place) (facts : FlowFacts) (t : Ty) : Ty :=
  match t with TOptional u => if has_fact p TypeFactKind.IsNotNone facts then u else t | _ => t end.
Definition narrow_ty (p : Place) (facts : FlowFacts) (t : Ty) : Ty :=
  match unwrapped p facts t with
  | TAtom (EnumT n s) => narrow_enum_ty n s p facts
  | u => u
  end.

Definition assignable_ty : Ty → Ty → Prop := sub default_options.
Definition is_numeric_ty (t : Ty) : Prop := ∃ a, t = TAtom a ∧ is_numeric_type a = true.
(** The result type of an arithmetic operator. *)
Definition arith_ty (op : Ast.ExprBinaryOp.t) (l r : Ty) : option Ty :=
  match l, r with
  | TAtom StringT, TAtom StringT =>
      match op with Ast.ExprBinaryOp.Add => Some l | _ => None end
  | TAtom IntT, TAtom IntT => Some l
  | TAtom FloatT, TAtom FloatT =>
      match op with Ast.ExprBinaryOp.Modulo => None | _ => Some l end
  | TAtom (DecimalT a), TAtom (DecimalT b) =>
      match op with
      | Ast.ExprBinaryOp.Add | Ast.ExprBinaryOp.Subtract => if bool_decide (a = b) then Some l else None
      | _ => None
      end
  | _, _ => None
  end.
Definition none_comparison (op : Ast.ExprBinaryOp.t) (l r : Ast.ExprSyntax) : bool :=
  bool_decide (is_equality op ≠ None) && (is_none_literal l || is_none_literal r).
Definition join_all (effect : ExprEffect.t) (l : list (Ty * ExprEffect.t)) : ExprEffect.t :=
  fold_left (λ e u, join_effects e u.2) l effect.

Context (context : ExpressionContext) (Δ : gmap string Ty).
Abbreviation facts := (flow_facts context).

(** [has_type x e t effect]: in a context where [x] is expected. *)
Inductive has_type : option Ty → Ast.ExprSyntax → Ty → ExprEffect.t → Prop :=
  | T_bool x r i b : has_type x (Ast.mkExprSyntax r i (Ast.BoolLiteralExpr b)) (TAtom BoolT) ExprEffect.Pure
  | T_integer x r i l : has_type x (Ast.mkExprSyntax r i (Ast.IntegerLiteralExpr l)) (TAtom IntT) ExprEffect.Pure
  | T_float x r i l : has_type x (Ast.mkExprSyntax r i (Ast.FloatLiteralExpr l)) (TAtom FloatT) ExprEffect.Pure
  | T_decimal x r i l :
      has_type x (Ast.mkExprSyntax r i (Ast.DecimalLiteralExpr l)) (TAtom (DecimalT (parse_decimal_scale l))) ExprEffect.Pure
  | T_string x r i l : has_type x (Ast.mkExprSyntax r i (Ast.StringLiteralExpr l)) (TAtom StringT) ExprEffect.Pure
  | T_duration x r i l :
      has_type x (Ast.mkExprSyntax r i (Ast.DurationLiteralExpr l)) (TAtom DurationT) ExprEffect.Pure
  | T_none r i t : has_type (Some (TOptional t)) (Ast.mkExprSyntax r i Ast.NoneLiteralExpr) (TOptional t) ExprEffect.Pure
  | T_some_expected r i v t u eff :
      has_type (Some t) v u eff → assignable_ty u t →
      has_type (Some (TOptional t)) (Ast.mkExprSyntax r i (Ast.SomeExpr v)) (TOptional t) eff
  | T_some x r i v u eff :
      (∀ t, x ≠ Some (TOptional t)) → has_type None v u eff →
      has_type x (Ast.mkExprSyntax r i (Ast.SomeExpr v)) (TOptional u) eff
  | T_path x r i path t u :
      Δ !! Ast.ps_root_name path = Some t → fields_type t (Ast.ps_members path) u →
      has_type x (Ast.mkExprSyntax r i (Ast.PathExpr path))
        (narrow_ty (mkPlace (Ast.ps_root_name path) (Ast.ps_members path)) facts u) ExprEffect.Pure
  | T_const x r i name reference t :
      find_ref ReferenceKind.ConstValue (Ast.qn_range name) = Some reference →
      declared_type (get_const_type environment (target reference)) t →
      has_type x (Ast.mkExprSyntax r i (Ast.QualifiedValueExpr name)) t ExprEffect.ConstOnly
  | T_enum x r i name owner n s info variant :
      find_ref ReferenceKind.ConstValue (Ast.qn_range name) = None →
      find_ref ReferenceKind.QualifiedValueOwnerType (Ast.qn_range name) = Some owner →
      symbol_type (target owner) (TAtom (EnumT n s)) → get_enum environment (EnumT n s) = Some info →
      last (Ast.segments name) = Some variant → has_variant info variant = true →
      has_type x (Ast.mkExprSyntax r i (Ast.QualifiedValueExpr name)) (TAtom (EnumT n s)) ExprEffect.ConstOnly
  | T_struct x r i name fields reference n s info us :
      find_ref ReferenceKind.TypeName (Ast.qn_range name) = Some reference →
      symbol_type (target reference) (TAtom (StructT n s)) → get_struct environment (StructT n s) = Some info →
      Forall2 (λ f u, ∃ t, field_type info f.1.2 t ∧ has_type (Some t) f.2 u.1 u.2 ∧ assignable_ty u.1 t) fields us →
      NoDup fields.*1.*2 → (∀ f, f ∈ st_fields info → sf_name f ∈ fields.*1.*2) →
      has_type x (Ast.mkExprSyntax r i (Ast.StructLiteralExpr name fields)) (TAtom (StructT n s))
        (join_all ExprEffect.Pure us)
  | T_list_empty t r i : has_type (Some (TList t)) (Ast.mkExprSyntax r i (Ast.ListLiteralExpr [])) (TList t) ExprEffect.Pure
  | T_list x y r i items us t :
      items ≠ [] → y = match x with Some (TList t) => Some t | _ => None end →
      Forall2 (λ e u, has_type y e u.1 u.2) items us → Forall (λ u, assignable_ty u.1 t) us →
      Some t = match y with Some t => Some t | None => fst <$> head us end →
      has_type x (Ast.mkExprSyntax r i (Ast.ListLiteralExpr items)) (TList t) (join_all ExprEffect.Pure us)
  | T_set_empty t r i : has_type (Some (TSet t)) (Ast.mkExprSyntax r i (Ast.SetLiteralExpr [])) (TSet t) ExprEffect.Pure
  | T_set x y r i items us t :
      items ≠ [] → y = match x with Some (TSet t) => Some t | _ => None end →
      Forall2 (λ e u, has_type y e u.1 u.2) items us → Forall (λ u, assignable_ty u.1 t) us →
      Some t = match y with Some t => Some t | None => fst <$> head us end →
      has_type x (Ast.mkExprSyntax r i (Ast.SetLiteralExpr items)) (TSet t) (join_all ExprEffect.Pure us)
  | T_map_empty k v r i :
      has_type (Some (TMap k v)) (Ast.mkExprSyntax r i (Ast.MapLiteralExpr [])) (TMap k v) ExprEffect.Pure
  | T_map x y r i entries ks vs k v :
      entries ≠ [] → y = match x with Some (TMap k v) => Some (k, v) | _ => None end →
      Forall2 (λ e u, has_type (fst <$> y) e.1 u.1 u.2) entries ks →
      Forall2 (λ e u, has_type (snd <$> y) e.2 u.1 u.2) entries vs →
      Forall (λ u, assignable_ty u.1 k) ks → Forall (λ u, assignable_ty u.1 v) vs →
      Some k = match y with Some kv => Some kv.1 | None => fst <$> head ks end →
      Some v = match y with Some kv => Some kv.2 | None => fst <$> head vs end →
      has_type x (Ast.mkExprSyntax r i (Ast.MapLiteralExpr entries)) (TMap k v)
        (fold_left (λ e kv, join_effects e (join_effects kv.1.2 kv.2.2)) (zip ks vs) ExprEffect.Pure)
  | T_capability x r i callee arguments reference symbol capability us t :
      find_ref ReferenceKind.CallTarget (Ast.qn_range callee) = Some reference →
      get_symbol resolve_result (target reference) = Some symbol → symbol_kind symbol = SymbolKind.Capability →
      capabilities_ environment !! target reference = Some capability →
      call_context context = ExpressionCallContext.Flow →
      capability_declared environment context (target reference) = true →
      length arguments = length (ct_params capability) →
      Forall2 (λ ap u, ∃ t, declared_type (pt_type ap.2) t ∧ has_type (Some t) ap.1 u.1 u.2 ∧ assignable_ty u.1 t)
        (zip arguments (ct_params capability)) us →
      declared_type (ct_return_type capability) t →
      has_type x (Ast.mkExprSyntax r i (Ast.CallExpr callee arguments)) t ExprEffect.CapabilityCall
  | T_predicate x r i callee arguments reference symbol predicate us :
      find_ref ReferenceKind.CallTarget (Ast.qn_range callee) = Some reference →
      get_symbol resolve_result (target reference) = Some symbol → symbol_kind symbol = SymbolKind.Predicate →
      predicates_ environment !! target reference = Some predicate →
      length arguments = length (pred_params predicate) →
      Forall2 (λ ap u, ∃ t, declared_type (pt_type ap.2) t ∧ has_type (Some t) ap.1 u.1 u.2 ∧ assignable_ty u.1 t)
        (zip arguments (pred_params predicate)) us →
      Forall (λ u, is_effect_pure u.2 = true) us →
      has_type x (Ast.mkExprSyntax r i (Ast.CallExpr callee arguments)) (TAtom BoolT)
        (join_all ExprEffect.PredicateCall us)
  | T_not x r i e eff : has_type None e (TAtom BoolT) eff →
      has_type x (Ast.mkExprSyntax r i (Ast.UnaryExpr Ast.ExprUnaryOp.Not e)) (TAtom BoolT) eff
  | T_sign x r i op e t eff : op ≠ Ast.ExprUnaryOp.Not → has_type None e t eff → is_numeric_ty t →
      has_type x (Ast.mkExprSyntax r i (Ast.UnaryExpr op e)) t eff
  | T_is_none x r i op l r' v n t u eff effn : none_comparison op l r' = true →
      (v, n) = (if is_none_literal l then (r', l) else (l, r')) →
      has_type None v (TOptional t) eff → has_type (Some (TOptional t)) n u effn →
      has_type x (Ast.mkExprSyntax r i (Ast.BinaryExpr op l r')) (TAtom BoolT) (join_effects eff effn)
  | T_logical x r i op l r' el er : is_logical op = true →
      has_type None l (TAtom BoolT) el → has_type None r' (TAtom BoolT) er →
      has_type x (Ast.mkExprSyntax r i (Ast.BinaryExpr op l r')) (TAtom BoolT) (join_effects el er)
  | T_compare x r i op l r' tl tr el er : is_comparison op = true → none_comparison op l r' = false →
      has_type None l tl el → has_type None r' tr er → assignable_ty tl tr ∨ assignable_ty tr tl →
      has_type x (Ast.mkExprSyntax r i (Ast.BinaryExpr op l r')) (TAtom BoolT) (join_effects el er)
  | T_arith x r i op l r' tl tr el er t : is_logical op = false → is_comparison op = false →
      has_type None l tl el → has_type None r' tr er → arith_ty op tl tr = Some t →
      has_type x (Ast.mkExprSyntax r i (Ast.BinaryExpr op l r')) t (join_effects el er)
  | T_member x r i e member t u eff : has_type None e t eff → fields_type t [member] u →
      has_type x (Ast.mkExprSyntax r i (Ast.MemberAccessExpr e member))
        (match place_of_expression (Ast.mkExprSyntax r i (Ast.MemberAccessExpr e member)) with
         | Some p => narrow_ty p facts u
         | None => u
         end) eff
  | T_index_list x r i e j t eff effj : has_type None e (TList t) eff → has_type None j (TAtom IntT) effj →
      has_type x (Ast.mkExprSyntax r i (Ast.IndexAccessExpr e j)) t (join_effects eff effj)
  | T_index_map x r i e j k v u eff effj : has_type None e (TMap k v) eff → has_type None j u effj →
      assignable_ty u k → has_type x (Ast.mkExprSyntax r i (Ast.IndexAccessExpr e j)) v (join_effects eff effj)
  | T_group x r i e t eff : has_type x e t eff → has_type x (Ast.mkExprSyntax r i (Ast.GroupExpr e)) t eff.
End Typing.

(** ** The checker computes typings

    [runs m s Q]: the computation returns, keeps the state well formed, only
    adds to the types and the diagnostics, and its result satisfies [Q]. *)
Lemma views_prefix types types' p t : types `prefix_of` types' → views types p t → views types' p t.
Proof.
  intros Hp. induction 1; [eapply views_atom|eapply views_optional|eapply views_list|eapply views_set|eapply views_map];
    eauto using prefix_lookup_Some.
Qed.
Lemma views_lt types p t : views types p t → p < length types.
Proof. destruct 1; by eapply lookup_lt_Some. Qed.

Section Soundness.
Context (resolve_result : ResolveResult) (alias_decls : gmap SymbolId Ast.TypeSyntax)
  (source_id : option SourceId) (environment : TypeEnvironment) (base : list Payload).
Abbreviation symbol_type := (symbol_type resolve_result alias_decls).
Abbreviation syntax_type := (syntax_type resolve_result alias_decls).
Definition canonical (id : SymbolId) : string :=
  match get_symbol resolve_result id with Some s => symbol_canonical_name s | None => "" end.

Abbreviation stored s := (storage (cs_types s)).
Record state_ok (s : CheckState) : Prop := {
  types_ok : context_ok (cs_types s);
  base_stored : base `prefix_of` stored s;
  names_ok : ∀ q x, stored s !! q = Some x → nominal_ok canonical x;
  aliases_stored : map_Forall (λ _ p, p < length (stored s)) (resolved_alias_types s);
  aliases_typed : no_errors s = true →
    map_Forall (λ id p, ∃ t, views (stored s) p t ∧ symbol_type id t ∧ error_free t) (resolved_alias_types s) }.
Definition grows (s s' : CheckState) : Prop :=
  stored s `prefix_of` stored s' ∧ cs_diagnostics s `prefix_of` cs_diagnostics s' ∧
  active_aliases s = active_aliases s'.
Lemma grows_refl s : grows s s.
Proof. done. Qed.
Lemma grows_trans s1 s2 s3 : grows s1 s2 → grows s2 s3 → grows s1 s3.
Proof. intros (?&?&?) (?&?&?). split; [by etrans|]. split; [by etrans|congruence]. Qed.
Lemma grows_errors s s' : grows s s' → no_errors s' = true → no_errors s = true.
Proof.
  intros (_ & [k Hk] & _). unfold no_errors. rewrite Hk, forallb_app. by intros [? _]%andb_true_iff.
Qed.
Lemma grows_views s s' p t : grows s s' → views (stored s) p t → views (stored s') p t.
Proof. intros (?&_). by apply views_prefix. Qed.
Lemma grows_lt s s' p : grows s s' → p < length (stored s) → p < length (stored s').
Proof. intros (?%prefix_length&_) ?. lia. Qed.

Definition runs {A} (m : checking A) (s : CheckState) (Q : A → CheckState → Prop) : Prop :=
  ∃ a s', m s ⇓ (a, s') ∧ state_ok s' ∧ grows s s' ∧ Q a s'.
Lemma runs_ret {A} (a : A) s (Q : A → CheckState → Prop) : state_ok s → Q a s → runs (mret a) s Q.
Proof. intros ??. exists a, s. split; [done|]. split; [done|]. split; [apply grows_refl|done]. Qed.
Lemma runs_bind {A B} (m : checking A) (f : A → checking B) s Q R :
  runs m s Q → (∀ a s', state_ok s' → grows s s' → Q a s' → runs (f a) s' R) → runs (m ≫= f) s R.
Proof.
  intros (a & s1 & Hm & Hok & Hg & HQ) Hf. destruct (Hf a s1 Hok Hg HQ) as (b & s2 & Hb & ? & ? & ?).
  exists b, s2. rewrite (eff_bind_eq _ _ _ _ _ Hm). split; [done|]. split; [done|]. split; [by eapply grows_trans|done].
Qed.
Lemma runs_weaken {A} (m : checking A) s (Q R : A → CheckState → Prop) :
  runs m s Q → (∀ a s', state_ok s' → grows s s' → Q a s' → R a s') → runs m s R.
Proof. intros (a & s1 & Hm & Hok & Hg & HQ) HR. exists a, s1. auto. Qed.

(** Diagnostics. *)
Lemma runs_diagnose d s Q : state_ok s →
  (∀ s', stored s' = stored s → no_errors s' = negb (td_error d) && no_errors s → Q tt s') → runs (diagnose d) s Q.
Proof.
  intros [] HQ. set (s' := mkCheckState (cs_types s) (resolved_alias_types s) (active_aliases s) (cs_diagnostics s ++ [d]) (cs_program s)).
  assert (He : no_errors s' = negb (td_error d) && no_errors s).
  { unfold no_errors. cbn. rewrite forallb_app. cbn. by rewrite andb_true_r, andb_comm. }
  exists tt, s'. split; [done|]. split; [|split; [split; [done|split; [by eexists|done]]|by apply HQ]].
  constructor; try done. rewrite He. intros [_ ?]%andb_true_iff. auto.
Qed.
Lemma runs_error code range s Q : state_ok s → (∀ s', stored s' = stored s → no_errors s' = false → Q tt s') →
  runs (typecheck_error code range) s Q.
Proof. intros Hs HQ. apply runs_diagnose; [done|]. auto. Qed.
Lemma runs_error_suggest code range o s Q : state_ok s → (∀ s', stored s' = stored s → no_errors s' = false → Q tt s') →
  runs (typecheck_error_suggest code range o) s Q.
Proof. intros Hs HQ. apply runs_diagnose; [done|]. auto. Qed.
Lemma runs_error_when b code range s : state_ok s →
  runs (error_when b code range) s (λ _ s', no_errors s' = true → b = false).
Proof.
  intros Hs. unfold error_when. destruct b; [|by apply runs_ret].
  apply runs_error; [done|]. intros s' _ ->. done.
Qed.

(** Types. *)
Lemma runs_intern f t s :
  state_ok s → f = intern (key_of t) → parts_below (length (stored s)) t → nominal_ok canonical t →
  runs (intern_type f) s (λ p s', stored s' !! p = Some t).
Proof.
  intros [Hc Hb Hn Ha Hat] -> Hp Hname. destruct (intern_ok _ _ Hc Hp) as (Hc' & Hl & Hpre & _).
  unfold runs, intern_type. cbv beta. destruct (intern (key_of t) (cs_types s)) as [p c] eqn:E. cbn [fst snd] in *.
  exists p, (mkCheckState c (resolved_alias_types s) (active_aliases s) (cs_diagnostics s) (cs_program s)).
  split; [done|]. split; [constructor; cbn|].
  - done.
  - by etrans.
  - intros q x Hq. unfold intern in E. destruct (pool (cs_types s) !! key_of t); simplify_eq/=; [eauto|].
    rewrite build_key_of in Hq. apply lookup_app_Some in Hq as [Hq|[_ Hq]]; [by eapply Hn|].
    by apply list_lookup_singleton_Some in Hq as [_ <-].
  - intros id q Hq. specialize (Ha id q Hq). cbn in Ha. apply prefix_length in Hpre. lia.
  - intros He id q Hq. destruct (Hat He id q Hq) as (u & ? & ? & ?). exists u. split_and!; try done. by eapply views_prefix.
  - split; [by split_and!|done].
Qed.
Lemma runs_payload p s : state_ok s → p < length (stored s) →
  runs (payload_of p) s (λ t s', s' = s ∧ stored s !! p = Some t).
Proof.
  intros Hs Hp. destruct (lookup_lt_is_Some_2 _ _ Hp) as [t Ht]. exists t, s. unfold payload_of. rewrite Ht.
  split; [done|]. split; [done|]. split; [apply grows_refl|done].
Qed.

(** A pointer into the storage that, when no error was reported, stands for a
    type with the property [R]. *)
Definition as_type (R : Ty → Prop) (p : TypePtr) (s : CheckState) : Prop :=
  p < length (stored s) ∧
  (no_errors s = true → ∃ t, views (stored s) p t ∧ R t ∧ error_free t).
Lemma as_type_view R p s t : views (stored s) p t → R t → error_free t → as_type R p s.
Proof. intros Hv ??. split; [by eapply views_lt|]. eauto. Qed.
Lemma as_type_grows R p s s' : grows s s' → as_type R p s → as_type R p s'.
Proof.
  intros Hg [Hp Ht]. split; [by eapply grows_lt|]. intros (t & ? & ? & ?)%(grows_errors _ _ Hg)%Ht.
  exists t. split_and!; try done. by eapply grows_views.
Qed.
Lemma as_type_weaken (R R' : Ty → Prop) p s :
  as_type R p s → (∀ t, views (stored s) p t → R t → error_free t → no_errors s = true → R' t) → as_type R' p s.
Proof. intros [Hp Ht] HR. split; [done|]. intros He. destruct (Ht He) as (t & ? & ? & ?). exists t. auto. Qed.

Lemma runs_atom f a s : state_ok s → f = intern (key_of a) → is_atom a = true → nominal_ok canonical a →
  runs (intern_type f) s (λ p s', views (stored s') p (TAtom a)).
Proof.
  intros Hs -> Ha Hn. eapply runs_weaken; [apply (runs_intern _ a); try done; by destruct a|].
  intros p s' _ _ Hp; cbv beta in Hp. by constructor.
Qed.
Lemma runs_atom_type f a s (R : Ty → Prop) : state_ok s → f = intern (key_of a) → is_atom a = true →
  nominal_ok canonical a → a ≠ ErrorT → R (TAtom a) → runs (intern_type f) s (as_type R).
Proof.
  intros Hs Hf Ha Hn He HR. eapply runs_weaken; [by apply (runs_atom _ a)|]. intros p s' _ _ Hp; cbv beta in Hp.
  by eapply as_type_view.
Qed.
Lemma runs_make_error s : state_ok s → runs make_error_type s (λ p s', p < length (stored s') ∧ views (stored s') p (TAtom ErrorT)).
Proof.
  intros Hs. eapply runs_weaken; [by apply (runs_atom _ ErrorT)|]. intros p s' _ _ Hp; cbv beta in Hp. split; [by eapply views_lt|done].
Qed.
(** A container of a stored type. *)
Lemma runs_container (C : option TypePtr → Payload) (K : Ty → Ty) f q s :
  state_ok s → f = intern (key_of (C (Some q))) →
  (∀ n, parts_below n (C (Some q)) ↔ q < n) → nominal_ok canonical (C (Some q)) →
  (∀ types p t, types !! p = Some (C (Some q)) → q < p → views types q t → views types p (K t)) →
  q < length (stored s) →
  runs (intern_type f) s (λ p s', p < length (stored s') ∧ ∀ t, views (stored s) q t → views (stored s') p (K t)).
Proof.
  intros Hs -> Hb Hn HK Hq. eapply runs_weaken; [apply (runs_intern _ (C (Some q))); try done; by apply Hb|].
  intros p s' Hs' Hg Hp; cbv beta in Hp. split; [by eapply lookup_lt_Some|]. intros t Ht.
  destruct (ok_storage _ (types_ok _ Hs') _ _ Hp) as [_ Hlt]. apply Hb in Hlt.
  apply HK; [done|done|]. by eapply grows_views.
Qed.
Lemma parts_one q n : (∃ q', Some q = Some q' ∧ q' < n) ↔ q < n.
Proof. naive_solver. Qed.
Lemma runs_optional q s : state_ok s → q < length (stored s) →
  runs (intern_type (optional (Some q))) s (λ p s', p < length (stored s') ∧ ∀ t, views (stored s) q t → views (stored s') p (TOptional t)).
Proof.
  intros. apply (runs_container OptionalT TOptional); try done; [intros n; apply parts_one|intros; by eapply views_optional].
Qed.
Lemma runs_list q s : state_ok s → q < length (stored s) →
  runs (intern_type (list_type (Some q))) s (λ p s', p < length (stored s') ∧ ∀ t, views (stored s) q t → views (stored s') p (TList t)).
Proof.
  intros. apply (runs_container ListT TList); try done; [intros n; apply parts_one|intros; by eapply views_list].
Qed.
Lemma runs_set q s : state_ok s → q < length (stored s) →
  runs (intern_type (set_type (Some q))) s (λ p s', p < length (stored s') ∧ ∀ t, views (stored s) q t → views (stored s') p (TSet t)).
Proof.
  intros. apply (runs_container SetT TSet); try done; [intros n; apply parts_one|intros; by eapply views_set].
Qed.
Lemma runs_map q r s : state_ok s → q < length (stored s) → r < length (stored s) →
  runs (intern_type (map_type (Some q) (Some r))) s
    (λ p s', p < length (stored s') ∧ ∀ k v, views (stored s) q k → views (stored s) r v → views (stored s') p (TMap k v)).
Proof.
  intros Hs Hq Hr. eapply runs_weaken; [apply (runs_intern _ (MapT (Some q) (Some r))); try done; by exists q, r|].
  intros p s' Hs' Hg Hp; cbv beta in Hp. split; [by eapply lookup_lt_Some|]. intros k v Hk Hv.
  destruct (ok_storage _ (types_ok _ Hs') _ _ Hp) as [_ (q' & r' & Hq' & Hr' & ? & ?)]. simplify_eq.
  eapply views_map; [done|done|done|by eapply grows_views..].
Qed.
Lemma as_container (K : Ty → Ty) (R R' : Ty → Prop) q p s s' :
  grows s s' → (∀ t, views (stored s) q t → views (stored s') p (K t)) → p < length (stored s') →
  (∀ t, error_free t → error_free (K t)) → (∀ t, R t → R' (K t)) → as_type R q s → as_type R' p s'.
Proof.
  intros Hg HK Hp He HR [_ Ht]. split; [done|]. intros (t & ? & ? & ?)%(grows_errors _ _ Hg)%Ht.
  exists (K t). auto.
Qed.

(** ** Resolution of types *)
Definition remaining (s : CheckState) : nat := size (dom alias_decls ∖ active_aliases s).
Section Body.
Context (fuel : nat) (body : option SourceId → Ast.TypeSyntax → checking TypePtr).
Context (Hbody : ∀ src type s, state_ok s → remaining s < fuel → runs (body src type) s (as_type (syntax_type src type))).

Lemma remaining_grows s s' : grows s s' → remaining s' = remaining s.
Proof. intros (_ & _ & H). unfold remaining. by rewrite H. Qed.
(** The state with other marks on aliases. *)
Definition with_active (a : gset SymbolId) (s : CheckState) : CheckState :=
  mkCheckState (cs_types s) (resolved_alias_types s) a (cs_diagnostics s) (cs_program s).
Lemma with_active_ok a s : state_ok s → state_ok (with_active a s).
Proof. by intros []; constructor. Qed.

Lemma runs_alias id symbol range s :
  state_ok s → remaining s ≤ fuel → get_symbol resolve_result id = Some symbol →
  symbol_kind symbol = SymbolKind.TypeAlias →
  runs (resolve_type_alias resolve_result alias_decls body id range) s (as_type (symbol_type id)).
Proof.
  intros Hs Hf Hsym Hkind. unfold resolve_type_alias, runs.
  rewrite (eff_bind_eq _ _ s (resolved_alias_types s !! id) s) by done.
  destruct (resolved_alias_types s !! id) as [p|] eqn:Ec.
  { exists p, s. split; [done|]. split; [done|]. split; [apply grows_refl|]. split; [by apply (aliases_stored _ Hs id)|].
    intros He. destruct (aliases_typed _ Hs He id p Ec) as (t & ? & ? & ?). eauto. }
  rewrite (eff_bind_eq _ _ s (bool_decide (id ∈ active_aliases s)) s) by done.
  destruct (bool_decide (id ∈ active_aliases s)) eqn:Ea.
  { change (runs (_ ← typecheck_error TypecheckCode.InvalidTypeReference range; make_error_type) s (as_type (symbol_type id))).
    eapply runs_bind; [by apply (runs_error _ _ _ (λ _ s', no_errors s' = false))|]. intros [] s1 Hs1 _ He; cbv beta in He.
    eapply runs_weaken; [by apply runs_make_error|]. intros p s2 _ Hg [Hp _]. split; [done|].
    intros Hn. rewrite (grows_errors _ _ Hg Hn) in He. done. }
  apply bool_decide_eq_false in Ea.
  set (s1 := with_active ({[id]} ∪ active_aliases s) s).
  rewrite (eff_bind_eq _ _ s tt s1) by done.
  assert (Hback : ({[id]} ∪ active_aliases s) ∖ {[id]} = active_aliases s) by set_solver.
  destruct (alias_decls !! id) as [ty|] eqn:Ed.
  - destruct (Hbody (get_symbol resolve_result id ≫= symbol_source_id) ty s1) as (p & s2 & Hrun & Hs2 & Hg2 & Hp2).
    { by apply with_active_ok. }
    { eapply Nat.lt_le_trans; [|exact Hf]. unfold remaining. cbn. apply subset_size.
      assert (id ∈ dom alias_decls) by (by apply elem_of_dom). set_solver. }
    rewrite (eff_bind_eq _ _ _ _ _ Hrun).
    assert (Hp2' : as_type (symbol_type id) p s2).
    { eapply as_type_weaken; [exact Hp2|]. intros t _ Ht _ _. eapply sym_alias; eauto. by rewrite Hsym in Ht. }
    set (s3 := mkCheckState (cs_types s2)
      (match resolved_alias_types s2 !! id with Some _ => resolved_alias_types s2 | None => <[id := p]> (resolved_alias_types s2) end)
      (active_aliases s2 ∖ {[id]}) (cs_diagnostics s2) (cs_program s2)).
    rewrite (eff_bind_eq _ _ s2 tt s3) by done. exists p, s3. split; [done|].
    destruct Hs2 as [Hc2 Hb2 Hn2 Ha2 Hat2]. destruct Hp2' as [Hlt Hty]. destruct Hg2 as (Hst & Hdg & Hac).
    split; [constructor; cbn; try done|split].
    + destruct (resolved_alias_types s2 !! id); [done|]. by apply map_Forall_insert_2.
    + intros He. destruct (resolved_alias_types s2 !! id); [by apply Hat2|]. apply map_Forall_insert_2; [by apply Hty|by apply Hat2].
    + split; [done|]. split; [done|]. cbn. rewrite <- Hac. cbn. done.
    + by split.
  - set (s2 := with_active (active_aliases s) s).
    rewrite (eff_bind_eq _ _ s1 tt s2) by (unfold update_aliases; cbn; by rewrite Hback).
    assert (Hs2 : state_ok s2) by (by apply with_active_ok).
    destruct (runs_bind (typecheck_error TypecheckCode.InvalidTypeReference range) (λ _, make_error_type) s2
      (λ _ s', no_errors s' = false) (as_type (symbol_type id))) as (p & s3 & Hrun & Hs3 & Hg3 & Hp3).
    { by apply runs_error. }
    { intros [] s3 Hs3 _ He; cbv beta in He. eapply runs_weaken; [by apply runs_make_error|]. intros p s4 _ Hg [Hp _]. split; [done|].
      intros Hn. rewrite (grows_errors _ _ Hg Hn) in He. done. }
    exists p, s3. done.
Qed.

Lemma runs_error_type code range s R : state_ok s →
  runs (_ ← typecheck_error code range; make_error_type) s (as_type R).
Proof.
  intros Hs. eapply runs_bind; [by apply (runs_error _ _ _ (λ _ s', no_errors s' = false))|].
  intros [] s1 Hs1 _ He; cbv beta in He. eapply runs_weaken; [by apply runs_make_error|].
  intros p s2 _ Hg [Hp _]. split; [done|]. intros Hn. rewrite (grows_errors _ _ Hg Hn) in He. done.
Qed.
Lemma runs_symbol_type id range s : state_ok s → remaining s ≤ fuel →
  runs (resolve_type_symbol_with resolve_result alias_decls body id range) s (as_type (symbol_type id)).
Proof.
  intros Hs Hf. unfold resolve_type_symbol_with.
  destruct (get_symbol resolve_result id) as [symbol|] eqn:E; [|by apply runs_error_type].
  assert (Hc : symbol_canonical_name symbol = canonical id) by (unfold canonical; by rewrite E).
  destruct (symbol_kind symbol) eqn:Ek; try (by apply runs_error_type).
  - eapply (runs_atom_type _ (StructT (symbol_canonical_name symbol) (Some id))); try done; [by exists id|].
    by eapply sym_struct.
  - eapply (runs_atom_type _ (EnumT (symbol_canonical_name symbol) (Some id))); try done; [by exists id|].
    by eapply sym_enum.
  - by eapply runs_alias.
Qed.

Lemma type_syntax_induction (P : Ast.TypeSyntax → Prop) :
  (∀ r n, (match n with
           | Ast.OptionalType a | Ast.ListType a | Ast.SetType a => P a
           | Ast.MapType a b => P a ∧ P b
           | _ => True
           end) → P (Ast.mkTypeSyntax r n)) → ∀ t, P t.
Proof. intros H. fix IH 1. intros [r n]. apply H. destruct n; try exact I; try apply IH. split; apply IH. Qed.

Ltac atom_type a :=
  apply (runs_atom_type _ a); [assumption|reflexivity|reflexivity|exact I|discriminate|constructor].
Lemma runs_type_in src type s : state_ok s → remaining s ≤ fuel →
  runs (resolve_type_in resolve_result alias_decls body src type) s (as_type (syntax_type src type)).
Proof.
  revert s. induction type as [r n IH] using type_syntax_induction. intros s Hs Hf.
  assert (Hcontainer : ∀ (K : Ty → Ty) f a, (∀ t, error_free t → error_free (K t)) →
    (∀ s, state_ok s → remaining s ≤ fuel → runs (resolve_type_in resolve_result alias_decls body src a) s (as_type (syntax_type src a))) →
    (∀ q s, state_ok s → q < length (stored s) →
       runs (intern_type (f (Some q))) s (λ p s', p < length (stored s') ∧ ∀ t, views (stored s) q t → views (stored s') p (K t))) →
    (∀ t, syntax_type src a t → syntax_type src (Ast.mkTypeSyntax r n) (K t)) →
    runs (p ← resolve_type_in resolve_result alias_decls body src a; intern_type (f (Some p))) s (as_type (syntax_type src (Ast.mkTypeSyntax r n)))).
  { intros K f a HK Ha Hf' Hst. eapply runs_bind; [by apply Ha|]. intros q s1 Hs1 Hg1 Hq; cbv beta in Hq.
    eapply runs_weaken; [apply Hf'; [done|apply Hq]|]. intros p s2 Hs2 Hg2 [Hp Hv].
    by eapply (as_container K). }
  destruct n; cbn [resolve_type_in].
  - atom_type UnitT.
  - atom_type BoolT.
  - atom_type IntT.
  - atom_type FloatT.
  - atom_type StringT.
  - atom_type (BoundedStringT (int64_of_size min_length) (int64_of_size max_length)).
  - atom_type UUIDT.
  - atom_type TimestampT.
  - atom_type DurationT.
  - atom_type (DecimalT scale).
  - unfold resolve_named_type. destruct (find_reference _ _ _ _) as [reference|] eqn:E; [|by apply runs_error_type].
    eapply runs_weaken; [by apply runs_symbol_type|]. intros p s1 _ _ Hp. eapply as_type_weaken; [exact Hp|].
    intros t _ Ht _ _. by eapply st_named.
  - apply (Hcontainer TOptional optional); [done|exact IH|by apply runs_optional|intros; by constructor].
  - apply (Hcontainer TList list_type); [done|exact IH|by apply runs_list|intros; by constructor].
  - apply (Hcontainer TSet set_type); [done|exact IH|by apply runs_set|intros; by constructor].
  - destruct IH as [IHk IHv]. eapply runs_bind; [by apply IHk|]. intros q s1 Hs1 Hg1 Hq; cbv beta in Hq.
    eapply runs_bind; [apply IHv; [done|by rewrite (remaining_grows _ _ Hg1)]|]. intros q' s2 Hs2 Hg2 Hq'; cbv beta in Hq'.
    destruct (as_type_grows _ _ _ _ Hg2 Hq) as [Hlt Hty]. destruct Hq' as [Hlt' Hty'].
    eapply runs_weaken; [by apply runs_map|]. intros p s3 _ Hg3 [Hp Hv]. split; [done|].
    intros He. pose proof (grows_errors _ _ Hg3 He) as He2.
    destruct (Hty He2) as (k & ? & ? & ?), (Hty' He2) as (v & ? & ? & ?). exists (TMap k v). split; [by apply Hv|]. split; [by constructor|by split].
Qed.
End Body.

(** Enough fuel for every chain of aliases: resolution always ends. *)
Lemma runs_type_fuel fuel src type s : state_ok s → remaining s < fuel →
  runs (resolve_type_fuel resolve_result alias_decls fuel src type) s (as_type (syntax_type src type)).
Proof.
  revert src type s. induction fuel as [|fuel IH]; intros src type s Hs Hf; [lia|]. cbn [resolve_type_fuel].
  apply (runs_type_in fuel); [done|done|lia].
Qed.
Lemma remaining_fuel s : remaining s < alias_fuel alias_decls.
Proof.
  unfold remaining, alias_fuel. rewrite <- size_dom. apply Nat.lt_succ_r, subseteq_size. set_solver.
Qed.
Lemma runs_resolve_type src type s : state_ok s →
  runs (resolve_type resolve_result alias_decls src type) s (as_type (syntax_type src type)).
Proof. intros Hs. apply runs_type_fuel; [done|]. pose proof (remaining_fuel s). lia. Qed.
Lemma runs_resolve_symbol id range s : state_ok s →
  runs (resolve_type_symbol resolve_result alias_decls id range) s (as_type (symbol_type id)).
Proof.
  intros Hs. apply (runs_symbol_type (alias_fuel alias_decls)); [|done|pose proof (remaining_fuel s); lia].
  intros. by apply runs_type_fuel.
Qed.

(** ** Expressions *)
(** Every declared type is present and free of errors. *)
Definition declared_ok (p : option TypePtr) : Prop := ∃ t, declared_type base p t ∧ error_free t.
Record env_ok : Prop := {
  env_fields id info f : structs_ environment !! id = Some info → f ∈ st_fields info → declared_ok (sf_type f);
  env_consts id p : const_types_ environment !! id = Some (Some p) → declared_ok (Some p);
  env_capabilities id c : capabilities_ environment !! id = Some c →
    Forall (λ q, declared_ok (pt_type q)) (ct_params c) ∧ declared_ok (ct_return_type c);
  env_predicates id c : predicates_ environment !! id = Some c → Forall (λ q, declared_ok (pt_type q)) (pred_params c) }.

Section Checks.
Context (Henv : env_ok) (context : ExpressionContext) (Δ : gmap string Ty).
Abbreviation has_type := (has_type resolve_result alias_decls source_id environment base context Δ).
Abbreviation fields_type := (fields_type environment base).
Abbreviation field_type := (field_type base).

(** The bindings of the context and, unless an error was reported, their types. *)
Definition bound (s : CheckState) : Prop :=
  (∀ x p, bindings context !! x = Some (Some p) → p < length (stored s)) ∧
  (no_errors s = true → ∀ x,
     match bindings context !! x with
     | Some (Some p) => ∃ t, Δ !! x = Some t ∧ views (stored s) p t ∧ error_free t
     | _ => Δ !! x = None
     end).
Definition expects (s : CheckState) (x : option TypePtr) (X : option Ty) : Prop :=
  (∀ p, x = Some p → p < length (stored s)) ∧
  (no_errors s = true →
     match x, X with
     | Some p, Some t => views (stored s) p t ∧ error_free t
     | None, None => True
     | _, _ => False
     end).
Definition checked (X : option Ty) (e : Ast.ExprSyntax) (v : ExpressionValue) (s : CheckState) : Prop :=
  as_type (λ t, has_type X e t (ev_effect v)) (ev_type v) s ∧ ev_is_pure v = is_effect_pure (ev_effect v).

Lemma bound_grows s s' : grows s s' → bound s → bound s'.
Proof.
  intros Hg [Hp Ht]. split; [intros x p Hx; eapply grows_lt; eauto|].
  intros He x. specialize (Ht (grows_errors _ _ Hg He) x). destruct (bindings context !! x) as [ [p|]|]; try done.
  destruct Ht as (t & ? & ? & ?). exists t. split_and!; try done. by eapply grows_views.
Qed.
Lemma expects_grows s s' x X : grows s s' → expects s x X → expects s' x X.
Proof.
  intros Hg [Hp Ht]. split; [intros p Hx; eapply grows_lt; eauto|].
  intros He. specialize (Ht (grows_errors _ _ Hg He)). destruct x, X; try done.
  destruct Ht. split; [by eapply grows_views|done].
Qed.
Lemma expects_none s : expects s None None.
Proof. by split. Qed.
Lemma expects_as R p s : as_type R p s →
  ∃ X, expects s (Some p) X ∧ (no_errors s = true → ∃ t, X = Some t ∧ views (stored s) p t ∧ R t ∧ error_free t).
Proof.
  intros [Hp Ht]. destruct (no_errors s) eqn:E.
  - destruct (Ht eq_refl) as (t & ? & ? & ?). exists (Some t). split; [|eauto 10]. split; [by intros ? [= <-]|done].
  - exists None. split; [|done]. split; [by intros ? [= <-]|congruence].
Qed.
Lemma declared_views s p t : state_ok s → declared_type base p t → ∃ q, p = Some q ∧ views (stored s) q t.
Proof. intros Hs (q & -> & Hq). exists q. split; [done|]. eapply views_prefix; [apply Hs|done]. Qed.
Lemma expects_declared s p t : state_ok s → declared_type base p t → error_free t → expects s p (Some t).
Proof.
  intros Hs Hd He. destruct (declared_views s p t Hs Hd) as (q & -> & Hq).
  split; [intros ? [= <-]; by eapply views_lt|done].
Qed.
Lemma as_declared (R : Ty → Prop) s p t : state_ok s → declared_type base p t → error_free t → R t →
  ∃ q, p = Some q ∧ as_type R q s.
Proof.
  intros Hs Hd He HR. destruct (declared_views s p t Hs Hd) as (q & -> & Hq). exists q. split; [done|].
  by eapply as_type_view.
Qed.

Lemma runs_error_typed_effect eff s : state_ok s →
  runs (error_typed_effect eff) s (λ v s', ev_type v < length (stored s') ∧ ev_effect v = eff ∧ ev_is_pure v = is_effect_pure eff).
Proof.
  intros Hs. eapply runs_bind; [by apply runs_make_error|]. intros p s1 Hs1 _ [Hp _]. by apply runs_ret.
Qed.
(** A branch that reports an error has nothing to show about types. *)
Lemma runs_erroneous (m : checking unit) s X e : runs m s (λ _ s', no_errors s' = false) → ∀ b,
  runs (_ ← m; error_typed b) s (checked X e).
Proof.
  intros Hm b. eapply runs_bind; [exact Hm|]. intros [] s1 Hs1 _ He; cbv beta in He.
  eapply runs_weaken; [by apply runs_error_typed_effect|]. intros v s2 _ Hg (Hp & Hv & Hpure).
  split; [|by rewrite Hv]. split; [done|]. intros Hn. rewrite (grows_errors _ _ Hg Hn) in He. done.
Qed.
Lemma runs_error_value code range b s X e : state_ok s →
  runs (_ ← typecheck_error code range; error_typed b) s (checked X e).
Proof. intros Hs. apply runs_erroneous. by apply runs_error. Qed.
Lemma runs_suggest_value code range o b s X e : state_ok s →
  runs (_ ← typecheck_error_suggest code range o; error_typed b) s (checked X e).
Proof. intros Hs. apply runs_erroneous. by apply runs_error_suggest. Qed.
Lemma checked_typed p s X e eff : as_type (λ t, has_type X e t eff) p s → checked X e (typed_effect p eff) s.
Proof. by split. Qed.
Lemma runs_typed p eff s X e : state_ok s → as_type (λ t, has_type X e t eff) p s →
  runs (mret (typed_effect p eff)) s (checked X e).
Proof. intros Hs Hp. apply runs_ret; [done|]. by apply checked_typed. Qed.

Lemma runs_payload_opt x s : state_ok s → (∀ p, x = Some p → p < length (stored s)) →
  runs (payload_opt x) s (λ o s', s' = s ∧ o = match x with Some p => stored s !! p | None => None end).
Proof.
  intros Hs Hx. destruct x as [p|]; [|by apply runs_ret]. cbn [payload_opt].
  eapply runs_bind; [by apply (runs_payload p s Hs (Hx p eq_refl))|]. intros t s1 Hs1 _ [-> Ht]. apply runs_ret; [done|].
  cbn. by rewrite Ht.
Qed.

(** Literals. *)
Lemma runs_atom_value f a s X e : state_ok s → f = intern (key_of a) → is_atom a = true → nominal_ok canonical a →
  a ≠ ErrorT → has_type X e (TAtom a) ExprEffect.Pure → runs (check_simple_literal f) s (checked X e).
Proof.
  intros. eapply runs_bind; [by apply (runs_atom_type _ a _ (λ t, has_type X e t ExprEffect.Pure))|].
  intros p s1 Hs1 _ Hp. by apply runs_typed.
Qed.
Lemma runs_none_literal s x X r i : state_ok s → expects s x X →
  runs (check_none_literal r x) s (checked X (Ast.mkExprSyntax r i Ast.NoneLiteralExpr)).
Proof.
  intros Hs [Hx HX]. eapply runs_bind; [by apply runs_payload_opt|]. intros o s1 Hs1 _ [-> ->].
  destruct x as [p|]; [|by apply runs_error_value].
  destruct (stored s !! p) as [ [ | | | | | | | | | | | | | | | |o| | |]|] eqn:Ep; try (by apply runs_error_value).
  apply runs_typed; [done|]. split; [by apply Hx|]. intros He. specialize (HX He). destruct X as [t|]; [|done].
  destruct HX as [Hv Hef]. inversion Hv; simplify_eq/=. eexists. split; [exact Hv|]. split; [constructor|done].
Qed.

(** Relations. *)
(** The answer of a relation, on types without errors. *)
Definition answers_with (R : Ty → Ty → Prop) p q s (b : bool) : Prop :=
  b = true → ∀ t u, views (stored s) p t → views (stored s) q u → error_free t → error_free u → R t u.
Lemma runs_solver (relation : TypePtr → TypePtr → checking bool) kind R p q s :
  (∀ s', relation p q s' = (λ s, ⌊ run_solver (storage (cs_types s)) default_options kind p q ⌋ s) s') →
  (∀ t u, views (stored s) p t → views (stored s) q u → error_free t → error_free u →
     related default_options kind t u = true → R t u) →
  state_ok s → p < length (stored s) → q < length (stored s) →
  runs (relation p q) s (λ b s', s' = s ∧ answers_with R p q s b).
Proof.
  intros Hrel HR Hs Hp Hq.
  destruct (views_total _ _ (types_ok _ Hs) Hp) as [t Ht], (views_total _ _ (types_ok _ Hs) Hq) as [u Hu].
  destruct (run_solver_ok _ default_options kind p q t u Ht Hu) as (b & s1 & Hrun & Htrue & _).
  exists b, s. rewrite Hrel. unfold run_solver. rewrite Hrun. split; [done|]. split; [done|].
  split; [apply grows_refl|]. split; [done|]. intros Hb t' u' Ht' Hu' He He'.
  rewrite (views_fun _ _ _ _ Ht' Ht), (views_fun _ _ _ _ Hu' Hu) in *. apply HR; auto.
Qed.
Lemma runs_assignable p q s : state_ok s → p < length (stored s) → q < length (stored s) →
  runs (assignable p q) s (λ b s', s' = s ∧ answers_with assignable_ty p q s b).
Proof.
  intros Hs. apply (runs_solver _ TypeRelationKind.Assignable); [done| |done]. intros.
  by eapply (subtype_sub _ _ canonical p q); [apply names_ok| | | | |].
Qed.
Lemma runs_subtype p q s : state_ok s → p < length (stored s) → q < length (stored s) →
  runs (subtype p q) s (λ b s', s' = s ∧ answers_with assignable_ty p q s b).
Proof.
  intros Hs. apply (runs_solver _ TypeRelationKind.Subtype); [done| |done]. intros.
  by eapply (subtype_sub _ _ canonical p q); [apply names_ok| | | | |].
Qed.
Lemma views_error types p t : views types p t → types !! p = Some ErrorT → t = TAtom ErrorT.
Proof. by destruct 1; intros; simplify_eq. Qed.
Lemma runs_is_error p s : state_ok s → p < length (stored s) →
  runs (is_error_type p) s (λ b s', s' = s ∧ (b = true → ∀ t, views (stored s) p t → t = TAtom ErrorT)).
Proof.
  intros Hs Hp. eapply runs_bind; [by apply runs_payload|]. intros a s1 Hs1 _ [-> Ha]. apply runs_ret; [done|].
  split; [done|]. intros He t Ht. destruct a; try done. by eapply views_error.
Qed.
Lemma runs_check_relation relation code p q range s (R : Ty → Ty → Prop) :
  state_ok s → p < length (stored s) → q < length (stored s) →
  runs (relation p q) s (λ b s', s' = s ∧ answers_with R p q s b) →
  runs (check_relation relation code p q range) s (λ _ s', no_errors s' = true → answers_with R p q s true).
Proof.
  intros Hs Hp Hq Hrel. eapply runs_bind; [by apply runs_is_error|]. intros b1 s1 _ _ [-> He1].
  eapply runs_bind; [by apply runs_is_error|]. intros b2 s2 _ _ [-> He2].
  destruct (b1 || b2) eqn:Eb.
  - apply runs_ret; [done|]. intros _ _ t u Ht Hu Het Heu.
    apply orb_true_iff in Eb as [->| ->]; [by rewrite (He1 eq_refl t Ht) in Het|by rewrite (He2 eq_refl u Hu) in Heu].
  - eapply runs_bind; [exact Hrel|]. intros b s3 _ _ [-> Hb]. destruct b.
    + apply runs_ret; [done|]. auto.
    + eapply runs_bind; [by apply (runs_error _ _ _ (λ _ s', no_errors s' = false))|].
      intros [] s4 Hs4 _ He. apply runs_ret; [done|]. cbv beta in He. congruence.
Qed.
Lemma runs_check_assignable p q range s : state_ok s → p < length (stored s) → q < length (stored s) →
  runs (check_assignable p q range) s (λ _ s', no_errors s' = true → answers_with assignable_ty p q s true).
Proof. intros. apply runs_check_relation; [done..|by apply runs_assignable]. Qed.
(** The value of an initializer, argument or element against its expected type. *)
Lemma runs_check_value (R : Ty → Prop) v q Y range s : state_ok s → as_type R v s → expects s (Some q) Y →
  runs (check_assignable v q range) s
    (λ _ s', no_errors s' = true → ∃ t u, R t ∧ Y = Some u ∧ assignable_ty t u).
Proof.
  intros Hs Hv [Hlt HY]. eapply runs_weaken; [apply runs_check_assignable; [done|apply Hv|by apply Hlt]|].
  intros b0 s1 _ Hg Ha He; cbv beta in Ha. pose proof (grows_errors _ _ Hg He) as He0.
  destruct Hv as [_ Hv]. destruct (Hv He0) as (t & Hvt & HR & Hef). specialize (HY He0). destruct Y as [u|]; [|done].
  destruct HY. exists t, u. split; [done|]. split; [done|]. by apply Ha.
Qed.

(** Members and narrowing. *)
Lemma get_struct_in n sy info : get_struct environment (StructT n sy) = Some info → ∃ id, structs_ environment !! id = Some info.
Proof.
  unfold get_struct. destruct (sy ≫= λ id, structs_ environment !! id) as [i|] eqn:E.
  - intros [= ->]. destruct sy as [id|]; [|done]. by exists id.
  - unfold find_struct. destruct (struct_name_index_ environment !! n) as [id|]; [|done]. intros H. by exists id.
Qed.
Lemma find_struct_field_in info name f : find_struct_field info name = Some f → f ∈ st_fields info.
Proof.
  unfold find_struct_field. case_bool_decide.
  - intros Hf. assert (Hin : f ∈ filter (λ f, sf_name f = name) (st_fields info)).
    { destruct (filter _ _); [done|]. injection Hf as ->. by left. }
    by apply list_elem_of_filter in Hin as [_ ?].
  - destruct (field_index_ info !! name); [|done]. cbn. apply list_elem_of_lookup_2.
Qed.
Lemma field_declared n sy info name f : get_struct environment (StructT n sy) = Some info →
  find_struct_field info name = Some f → declared_ok (sf_type f).
Proof.
  intros [id Hid]%get_struct_in Hf%find_struct_field_in. by eapply env_fields.
Qed.
Lemma runs_field_access (R : Ty → Prop) p name range s : state_ok s → as_type R p s →
  runs (resolve_expression_field_access environment p name range) s (as_type (λ u, ∃ t, R t ∧ fields_type t [name] u)).
Proof.
  intros Hs Hp. eapply runs_bind; [apply runs_payload; [done|apply Hp]|]. intros a s1 _ _ [-> Ha].
  destruct a; try (by apply runs_error_type).
  - eapply runs_weaken; [by apply runs_make_error|]. intros q s1 _ Hg [Hq _]. split; [done|].
    intros He. destruct Hp as [_ Hp]. destruct (Hp (grows_errors _ _ Hg He)) as (t & Ht & _ & Hef).
    by rewrite (views_error _ _ _ Ht Ha) in Hef.
  - destruct (get_struct environment (StructT canonical_name symbol)) as [info|] eqn:Ei; [|by apply runs_error_type].
    destruct (find_struct_field info name) as [f|] eqn:Ef.
    + destruct (field_declared _ _ _ _ _ Ei Ef) as (u & Hd & Hef).
      destruct (declared_views s _ _ Hs Hd) as (q & Hq & Hv). rewrite Hq. apply runs_ret; [done|].
      split; [by eapply views_lt|]. intros He. destruct Hp as [_ Hp]. destruct (Hp He) as (t & Ht & HR & _).
      exists u. split; [done|]. split; [|done]. exists t. split; [done|].
      assert (t = TAtom (StructT canonical_name symbol)) as -> by (inversion Ht; by simplify_eq).
      eapply fields_cons; [done| |constructor]. exists f. by rewrite Hq in *.
    + eapply runs_bind; [by apply (runs_error_suggest _ _ _ _ (λ _ s', no_errors s' = false))|].
      intros [] s1 Hs1 _ He; cbv beta in He. eapply runs_weaken; [by apply runs_make_error|].
      intros q s2 _ Hg [Hq _]. split; [done|]. intros Hn. rewrite (grows_errors _ _ Hg Hn) in He. done.
Qed.
Lemma fields_type_snoc t m u ms w : fields_type t [m] u → fields_type u ms w → fields_type t (m :: ms) w.
Proof. inversion 1 as [|n sy info ? ? ? ? Hi Hf Hn]; subst. inversion Hn; subst. intros Hw. by eapply fields_cons. Qed.
Lemma runs_traverse (R : Ty → Prop) ms range p s : state_ok s → as_type R p s →
  runs (traverse_members environment p ms range) s (as_type (λ u, ∃ t, R t ∧ fields_type t ms u)).
Proof.
  revert R p s. induction ms as [|m ms IH]; intros R p s Hs Hp; cbn [traverse_members].
  - apply runs_ret; [done|]. eapply as_type_weaken; [exact Hp|]. intros t _ Ht _ _. exists t. split; [done|constructor].
  - eapply runs_bind; [by apply runs_field_access|]. intros q s1 Hs1 _ Hq; cbv beta in Hq.
    eapply runs_weaken; [by eapply IH|]. intros q' s2 _ _ Hq'; cbv beta in Hq'. eapply as_type_weaken; [exact Hq'|].
    intros w _ (u & (t & ? & ?) & ?) _ _. exists t. split; [done|]. by eapply fields_type_snoc.
Qed.

Lemma runs_narrow_enum type n sy pl s : state_ok s → views (stored s) type (TAtom (EnumT n sy)) →
  runs (narrow_enum environment type n sy pl (flow_facts context)) s
    (λ p s', views (stored s') p (narrow_enum_ty environment n sy pl (flow_facts context))).
Proof.
  intros Hs Hv. unfold narrow_enum, narrow_enum_ty.
  assert (Hname : nominal_ok canonical (EnumT n sy)) by (inversion Hv; by eapply names_ok).
  assert (Hvariant : ∀ v, runs (intern_type (enum_variant_type n v sy)) s (λ p s', views (stored s') p (TAtom (EnumVariantT n sy v)))).
  { intros v. by apply (runs_atom _ (EnumVariantT n sy v)). }
  assert (Hsame : runs (mret type : checking TypePtr) s (λ p s', views (stored s') p (TAtom (EnumT n sy)))) by (by apply runs_ret).
  destruct (fact ← last _; _) as [fact|]; [apply Hvariant|].
  destruct (get_enum environment (EnumT n sy)) as [info|]; [|done].
  destruct (bool_decide (_ = [])); [done|]. destruct (filter _ (variants info)) as [|v [|w l]]; [done|apply Hvariant|done].
Qed.
Lemma narrow_enum_error_free n sy pl : error_free (narrow_enum_ty environment n sy pl (flow_facts context)).
Proof.
  unfold narrow_enum_ty. destruct (fact ← last _; _) as [fact|]; [done|].
  destruct (get_enum environment (EnumT n sy)) as [info|]; [|done].
  destruct (bool_decide (_ = [])); [done|]. by destruct (filter _ (variants info)) as [|v [|w l]].
Qed.
Lemma runs_narrowing (R : Ty → Prop) p pl s : state_ok s → as_type R p s →
  runs (apply_expression_flow_narrowing environment p pl (flow_facts context)) s
    (as_type (λ t, ∃ u, R u ∧ t = narrow_ty environment pl (flow_facts context) u)).
Proof.
  intros Hs Hp. eapply runs_bind; [apply runs_payload; [done|apply Hp]|]. intros a s1 _ _ [-> Ha].
  set (q := match a with OptionalT (Some inner) => if has_fact pl TypeFactKind.IsNotNone (flow_facts context) then inner else p | _ => p end).
  assert (Hq : as_type (λ t, ∃ u, R u ∧ t = unwrapped pl (flow_facts context) u) q s).
  { destruct Hp as [Hlt Ht]. split.
    - subst q. destruct a as [| | | | | | | | | | | | | | | |[inner|]| | |]; try done. destruct (has_fact _ _ _); [|done].
      destruct (ok_storage _ (types_ok _ Hs) _ _ Ha) as [_ (r & [= <-] & ?)]. lia.
    - intros He. destruct (Ht He) as (t & Hv & HR & Hef). exists (unwrapped pl (flow_facts context) t).
      split; [|split; [eauto|]]; [|by destruct t; cbn; try done; destruct (has_fact _ _ _)].
      subst q. destruct Hv as [r b Hb Hat|r r' u Hb Hr Hu|r r' u Hb Hr Hu|r r' u Hb Hr Hu|r r1 r2 u1 u2 Hb Hr1 Hr2 Hu1 Hu2];
        rewrite Ha in Hb; injection Hb as ->; cbn [unwrapped];
        [|by destruct (has_fact _ _ _); [|by eapply views_optional]|by eapply views_list|by eapply views_set|by eapply views_map].
      destruct b; try done; by eapply views_atom. }
  eapply runs_bind; [apply runs_payload; [done|apply Hq]|]. intros b s1 _ _ [-> Hb].
  assert (Hsame : (∀ n sy, b ≠ EnumT n sy) → runs (mret q : checking TypePtr) s
    (as_type (λ t, ∃ u, R u ∧ t = narrow_ty environment pl (flow_facts context) u))).
  { intros Hne. apply runs_ret; [done|]. destruct Hq as [Hlt Ht]. split; [done|]. intros He.
    destruct (Ht He) as (t & Hv & (u & HR & ->) & Hef). exists (unwrapped pl (flow_facts context) u).
    split; [done|]. split; [|done]. exists u. split; [done|]. unfold narrow_ty.
    destruct (unwrapped pl (flow_facts context) u) as [a'| | | |] eqn:Eu; try done.
    destruct a'; try done. inversion Hv; subst. destruct (Hne canonical_name symbol). congruence. }
  destruct b; try (by apply Hsame). clear Hsame.
  destruct (views_total _ _ (types_ok _ Hs) (proj1 Hq)) as [t Ht].
  assert (t = TAtom (EnumT canonical_name symbol)) as -> by (inversion Ht; by simplify_eq).
  eapply runs_weaken; [by apply runs_narrow_enum|]. intros r s1 _ Hg Hr; cbv beta in Hr.
  split; [by eapply views_lt|]. intros He. destruct Hq as [_ Hq].
  destruct (Hq (grows_errors _ _ Hg He)) as (t & Hv & (u & HR & ->) & _).
  exists (narrow_enum_ty environment canonical_name symbol pl (flow_facts context)).
  split; [done|]. split; [|apply narrow_enum_error_free]. exists u. split; [done|].
  unfold narrow_ty. by rewrite <- (views_fun _ _ _ _ Ht Hv).
Qed.

Lemma runs_path path s X r i : state_ok s → bound s →
  runs (resolve_expression_path environment path context) s (checked X (Ast.mkExprSyntax r i (Ast.PathExpr path))).
Proof.
  intros Hs [Hlt Hb]. unfold resolve_expression_path.
  destruct (bindings context !! Ast.ps_root_name path) as [ [p|]|] eqn:Eb.
  - assert (Hp : as_type (λ t, Δ !! Ast.ps_root_name path = Some t) p s).
    { split; [by eapply Hlt|]. intros He. specialize (Hb He (Ast.ps_root_name path)). rewrite Eb in Hb.
      destruct Hb as (t & ? & ? & ?). eauto. }
    eapply runs_bind; [by eapply runs_traverse|]. intros q s1 Hs1 _ Hq; cbv beta in Hq.
    eapply runs_bind; [by eapply runs_narrowing|]. intros w s2 Hs2 _ Hw; cbv beta in Hw.
    apply runs_ret; [done|]. split; [|done]. eapply as_type_weaken; [exact Hw|].
    intros t _ (u & (t0 & ? & ?) & ->) _ _. cbn. by eapply T_path.
  - eapply runs_bind; [by apply (runs_error _ _ _ (λ _ s', no_errors s' = false))|].
    intros [] s1 Hs1 _ He; cbv beta in He. eapply runs_bind; [by apply runs_make_error|].
    intros q s2 Hs2 Hg [Hq _]. apply runs_ret; [done|]. split; [|done]. split; [done|].
    intros Hn. rewrite (grows_errors _ _ Hg Hn) in He. done.
  - eapply runs_bind; [by apply (runs_error _ _ _ (λ _ s', no_errors s' = false))|].
    intros [] s1 Hs1 _ He; cbv beta in He. eapply runs_bind; [by apply runs_make_error|].
    intros q s2 Hs2 Hg [Hq _]. apply runs_ret; [done|]. split; [|done]. split; [done|].
    intros Hn. rewrite (grows_errors _ _ Hg Hn) in He. done.
Qed.

(** ** Nested expressions, by a checker that is right about them *)
Context (rec : Ast.ExprSyntax → option TypePtr → checking ExpressionValue).
Definition rec_ok (e : Ast.ExprSyntax) : Prop := ∀ s x X,
  state_ok s → bound s → expects s x X → runs (rec e x) s (checked X e).

(** What a payload and no error say of the type of a pointer. *)
Lemma as_not_error R p s a : as_type R p s → stored s !! p = Some a → no_errors s = true → is_error a = false.
Proof.
  intros [_ Hp] Ha He. destruct (Hp He) as (t & Ht & _ & Hef). destruct a; try done.
  by rewrite (views_error _ _ _ Ht Ha) in Hef.
Qed.
Lemma as_atom R p s a : as_type R p s → stored s !! p = Some a → is_atom a = true → no_errors s = true → R (TAtom a).
Proof.
  intros [_ Hp] Ha Hat He. destruct (Hp He) as (t & Ht & HR & _).
  assert (t = TAtom a) as <-; [|done]. eapply views_fun; [exact Ht|]. by constructor.
Qed.
Lemma checked_grows s s' X e v : grows s s' → checked X e v s → checked X e v s'.
Proof. intros Hg [? ?]. split; [by eapply as_type_grows|done]. Qed.

(** The expectation for the parts of an expected container. *)
Definition element_ty (X : option Ty) : option Ty :=
  match X with Some (TOptional t) | Some (TList t) | Some (TSet t) => Some t | _ => None end.
Lemma views_optional_inv types p q t : views types p t → types !! p = Some (OptionalT (Some q)) →
  ∃ u, t = TOptional u ∧ views types q u.
Proof. destruct 1; intros; simplify_eq; eauto. Qed.
Lemma views_list_inv types p q t : views types p t → types !! p = Some (ListT (Some q)) →
  ∃ u, t = TList u ∧ views types q u.
Proof. destruct 1; intros; simplify_eq; eauto. Qed.
Lemma views_set_inv types p q t : views types p t → types !! p = Some (SetT (Some q)) →
  ∃ u, t = TSet u ∧ views types q u.
Proof. destruct 1; intros; simplify_eq; eauto. Qed.
Lemma views_map_inv types p q r t : views types p t → types !! p = Some (MapT (Some q) (Some r)) →
  ∃ k v, t = TMap k v ∧ views types q k ∧ views types r v.
Proof. destruct 1; intros; simplify_eq; eauto 10. Qed.
Lemma stored_below s p a : state_ok s → stored s !! p = Some a → parts_below p a.
Proof. intros Hs Hp. by destruct (ok_storage _ (types_ok _ Hs) _ _ Hp). Qed.

Lemma expects_optional s p q X : state_ok s → stored s !! p = Some (OptionalT (Some q)) → expects s (Some p) X →
  ∃ Y, expects s (Some q) Y ∧ (no_errors s = true → ∃ t, X = Some (TOptional t) ∧ Y = Some t ∧ error_free t).
Proof.
  intros Hs Hp [Hlt HX]. exists (element_ty X). destruct (stored_below _ _ _ Hs Hp) as (? & [= <-] & Hq).
  assert (Hinv : no_errors s = true → ∃ t, X = Some (TOptional t) ∧ views (stored s) q t ∧ error_free t).
  { intros He. specialize (HX He). destruct X as [t|]; [|done]. destruct HX as [Hv Hef].
    destruct (views_optional_inv _ _ _ _ Hv Hp) as (u & -> & ?). eauto. }
  split; [split|].
  - intros ? [= <-]. pose proof (Hlt p eq_refl). lia.
  - intros He. destruct (Hinv He) as (t & -> & ? & ?). done.
  - intros He. destruct (Hinv He) as (t & -> & ? & ?). eauto.
Qed.

(** [some e] *)
Lemma runs_some value r i s x X : rec_ok value → state_ok s → bound s → expects s x X →
  runs (check_some rec value x) s (checked X (Ast.mkExprSyntax r i (Ast.SomeExpr value))).
Proof.
  intros Hrec Hs Hb Hx. eapply runs_bind; [by apply runs_payload_opt; [|apply Hx]|]. intros o s1 _ _ [-> ->].
  set (free := inner ← rec value None; t ← intern_type (optional (Some (ev_type inner))); mret (typed_effect t (ev_effect inner))).
  assert (Hfree : (no_errors s = true → ∀ t, X ≠ Some (TOptional t)) →
    runs free s (checked X (Ast.mkExprSyntax r i (Ast.SomeExpr value)))).
  { intros Hne. eapply runs_bind; [apply Hrec; [done|done|apply expects_none]|]. intros v s1 Hs1 Hg1 [Hv _].
    eapply runs_bind; [apply runs_optional; [done|apply Hv]|]. intros p s2 Hs2 Hg2 [Hp Hpv].
    apply runs_typed; [done|]. split; [done|]. intros He. pose proof (grows_errors _ _ Hg2 He) as He1.
    destruct Hv as [_ Hv]. destruct (Hv He1) as (t & ? & ? & ?). exists (TOptional t). split; [by apply Hpv|]. split; [|done].
    apply T_some; [|done]. apply Hne. by eapply grows_errors. }
  destruct x as [p|]; [|apply Hfree; intros He t ->; by destruct Hx as [_ Hx]; specialize (Hx He)].
  destruct (lookup_lt_is_Some_2 _ _ (proj1 Hx p eq_refl)) as [a Ha]. rewrite Ha.
  assert (Hother : (∀ q, a ≠ OptionalT (Some q)) → no_errors s = true → ∀ t, X ≠ Some (TOptional t)).
  { intros Hne He t ->. destruct Hx as [_ Hx]. destruct (Hx He) as [Hv _]. inversion Hv; simplify_eq. by eapply Hne. }
  destruct a as [| | | | | | | | | | | | | | | |[q|]| | |]; try (by apply Hfree, Hother). clear Hfree Hother.
  destruct (expects_optional _ _ _ _ Hs Ha Hx) as (Y & HY & HXY).
  eapply runs_bind; [by apply Hrec|]. intros v s1 Hs1 Hg1 [Hv _].
  eapply runs_bind; [apply (runs_check_value (λ t, has_type Y value t (ev_effect v)) _ _ Y); [done|exact Hv|by eapply expects_grows]|].
  intros b s2 Hs2 Hg2 Ha2; cbv beta in Ha2. apply runs_typed; [done|].
  pose proof (grows_trans _ _ _ Hg1 Hg2) as Hg. destruct Hx as [Hlt Hx].
  split; [by eapply grows_lt; [|apply Hlt]|]. intros He.
  destruct (Ha2 He) as (u & t & Ht & -> & Hsub). pose proof (grows_errors _ _ Hg He) as He0.
  destruct (HXY He0) as (t' & -> & [= ->] & Hef). exists (TOptional t').
  split; [by eapply grows_views; [|apply Hx]|]. split; [by eapply T_some_expected|done].
Qed.

(** Constants and variants. *)
Lemma runs_qualified_value name r i s X : state_ok s →
  runs (check_qualified_value resolve_result alias_decls source_id environment r name) s
    (checked X (Ast.mkExprSyntax r i (Ast.QualifiedValueExpr name))).
Proof.
  intros Hs. unfold check_qualified_value.
  destruct (find_ref resolve_result source_id ReferenceKind.ConstValue (Ast.qn_range name)) as [reference|] eqn:Ec.
  - unfold check_const_value. destruct (get_const_type environment (target reference)) as [p|] eqn:Et; [|by apply runs_error_value].
    assert (Hd : declared_ok (Some p)).
    { unfold get_const_type in Et. destruct (const_types_ environment !! target reference) as [ [q|]|] eqn:El; simplify_eq/=.
      by eapply env_consts. }
    destruct Hd as (t & Hd & Hef). destruct (as_declared (λ t, has_type X (Ast.mkExprSyntax r i (Ast.QualifiedValueExpr name)) t ExprEffect.ConstOnly) s _ t Hs Hd Hef) as (q & [= <-] & Hq).
    + eapply T_const; [exact Ec|]. by rewrite Et.
    + by apply runs_typed.
  - destruct (find_ref resolve_result source_id ReferenceKind.QualifiedValueOwnerType (Ast.qn_range name)) as [owner|] eqn:Eo;
      [|by apply runs_error_value].
    eapply runs_bind; [by apply runs_resolve_symbol|]. intros p s1 Hs1 _ Hp; cbv beta in Hp.
    eapply runs_bind; [apply runs_payload; [done|apply Hp]|]. intros a s2 _ _ [-> Ha].
    destruct a; try (by apply runs_error_value).
    destruct (get_enum environment (EnumT canonical_name symbol)) as [info|] eqn:Ei; [|by apply runs_error_value].
    destruct (last (Ast.segments name)) as [variant|] eqn:El; [|by apply runs_error_value].
    destruct (has_variant info variant) eqn:Ev; [|by apply runs_suggest_value].
    apply runs_typed; [done|]. destruct Hp as [Hlt Hp]. split; [done|]. intros He.
    destruct (Hp He) as (t & Hv & Hsym & Hef).
    assert (t = TAtom (EnumT canonical_name symbol)) as -> by (eapply views_fun; [exact Hv|by constructor]).
    exists (TAtom (EnumT canonical_name symbol)). split; [done|]. split; [by eapply T_enum|done].
Qed.
End Checks.
End Soundness.
